(* ===== verification/_CoqProject ===== *)
-Q . S2P
Prelude.v
SMap.v
Text.v
DocOps.v
PancyDb.v
DocState.v
UnitTests.v
HttpText.v
HttpMessage.v
HttpParser.v
HttpAccess.v
SocketIo.v
Sockets.v
SmallVector.v
Events.v
EventSafety.v
EventHandles.v
FdEvents.v
FdDriver.v
FdBody.v
WatchFds.v
Curl.v
Mutex.v
Locks.v
DocCache.v
PaxosReplica.v
PaxosLocal.v
MessageText.v
PaxosProps.v
CollabReplica.v
PaxosNet.v
PaxosLog.v
NetSim.v
PaxosCluster.v
PaxosTraces.v
ClientModel.v
HttpServer.v
TimerHeap.v
Driver.v
Tasks.v
TaskInvariant.v
TaskSteps.v
TaskSafety.v
Combinators.v
LockSeq.v
CollabModel.v
FailureSchedules.v
CollabDriver.v
Programs.v
