(* ===== verification/Prelude.v ===== *)
(** * A verification of DoomDraft

    DoomDraft is a collaborative text editor on a replicated key-value store.
    The repository has two programs: [src/pset4/], the application and its
    simulator, and [src/cotamer/], the coroutine runtime and HTTP library they
    are written with.  This library models both and proves what makes them
    correct.  This file is its prelude: notations, automation, machine
    integers and the lemmas that several files share.

    ** The program and its models

    Editors send operations (insertions and deletions of text) to an HTTP
    server ([http_server.cc]).  The server stores each one under its own key
    in a Paxos-replicated store ([pt-paxos.cc], [pancydb.cc]), keeps a cache
    per document that mirrors the store, and streams committed operations back
    to the editors, which transform them against their own pending operations
    ([doc_ops.cc]).  [pt-collab.cc] has a second copy of the replica, under
    editors instead of lock clients, and the server program.  In the simulator
    the replicas exchange messages over [netsim.hh], test clients
    ([lockseq_model.cc], [collab_model.cc]) load them, and a failure schedule
    breaks links.

    Foundations:
    - [SMap]: [std::map] with its iteration order.  [Text]: number printing
      and parsing, searches in strings.

    Documents and the store:
    - [DocOps]: [doc_ops.hh], [doc_ops.cc]; operations, their text form and
      operational transformation.
    - [PancyDb]: [pancy_msgs.hh], [pancydb.hh], [pancydb.cc]; the versioned
      store, one request at a time.  [MessageText]: the printed forms of
      messages and of the store.
    - [DocState]: [doc_state.cc]; reading a document's operations from the
      store and replaying them.
    - [UnitTests]: the unit tests of the last two files and of [DocOps].

    Consensus:
    - [PaxosReplica]: [pt_paxos_replica] of [pt-paxos.cc]; the handlers, and
      one iteration of [run] as [run_iteration].
    - [PaxosLocal], [PaxosProps]: what one replica guarantees on its own.
    - [PaxosNet], [PaxosLog]: the abstract cluster, where the network is the
      set of the packets ever sent; election safety and log matching.
    - [NetSim]: [netsim.hh]; channels, ports, delays, losses, reconnection.
    - [PaxosCluster]: the replicas on [NetSim], wired as [initialize] does it;
      a refinement of [PaxosNet].
    - [PaxosTraces]: schedules of the abstract cluster run to their end.
    - [FailureSchedules]: the schedules of [pt-paxos.cc] as changes of links.
    - [CollabReplica]: the replica of [pt-collab.cc], one statement at a time
      in a monad of state and output, with 64-bit counters.
    - [CollabDriver]: the schedules with their waits, the verdict of a
      simulated run, the loop over seeds and the server program of
      [pt-collab.cc]; the verdict and [main] of [pt-paxos.cc].
    - [Programs]: the option loops and the exit codes of both programs, and
      [short_options_for] of [utils.cc].

    Clients:
    - [ClientModel]: [client_model.hh] and the retry loop [submit_put].
    - [LockSeq]: [lockseq_model.cc].  [CollabModel]: [collab_model.cc].

    The HTTP front end, [http_server.cc]:
    - [HttpText]: parsing and printing.  [DocCache]: the caches, the poller
      and the stream.  [HttpServer]: requests, routes, handlers and their
      interleaving.

    The coroutine runtime, [src/cotamer/]:
    - [Events]: event bodies, handles, listeners, quorums and triggering, of
      [cotamer_impl.hh].  [EventSafety]: the invariant of the event graph.
      [EventHandles]: the smart pointers to events, with their copies, moves,
      assignments and combinations.
    - [Tasks]: promises and frames of coroutines, awaiting, resolution points,
      the methods of [task], races and forwarding; [TaskInvariant],
      [TaskSteps], [TaskSafety]: the invariant, that every step keeps it, and
      what follows.  [Combinators]: [attempt], [first] and [race].
    - [Driver]: the event loop of [cotamer.cc] on [Events] and [TimerHeap].
    - [Mutex]: [cotamer::mutex], against an interface of events
      ([EventStore], [EventLaws]) that [Events] implements.  [Locks]: the
      guards [unique_lock] and [shared_lock].
    - [TimerHeap]: [timer_heap.hh], [circular_int.hh].  [SmallVector]:
      [small_vector.hh].
    - [FdEvents]: the watches of file descriptors, [event_handle.hh];
      [FdDriver]: the table of descriptors and the kernel's registrations,
      [WatchFds]: waiting for notifications and delivering them, [io.cc].
    - [FdBody]: who owns a file descriptor and when it is closed, [fd] and
      [fd_body] of [cotamer.hh] and [cotamer_impl.hh].
    - [SocketIo]: transfers of [io.hh] and [io.cc] over partial system calls;
      [Sockets]: resolving, listening, connecting and accepting.
    - [HttpMessage], [HttpParser], [HttpAccess]: [http.hh] and [http.cc].
    - [Curl]: the bindings to libcurl, [curl.cc].

    ** How code becomes definitions

    A method of a class is a function from the state (a record with the
    fields of the class) to the new state and its result; the messages it
    sends are part of the result.  Coroutines are cut at their suspension
    points: the code between two of them is one definition, and interleavings
    are sequences of such steps, as an inductive relation ([PaxosNet],
    [PaxosCluster], [HttpServer], [LockSeq], [EventSafety], [EventHandles],
    [TaskSafety], [FdDriver], [FdBody], [Curl], [Locks]) or
    as a run of commands ([NetSim], [Mutex], [Driver]).  [Tasks] has coroutine
    bodies themselves as data, and the stack of calls as part of the state.
    Clocks, random draws, answers of the operating system and of the peers,
    and the callbacks that libcurl chooses to make, are inputs.  Code that throws returns
    [result]; code that dereferences a null or freed object, or indexes out
    of range, returns [None], and theorems show that it does not happen.
    Integers wrap with [u64], [u32] and [i64] where the code's arithmetic can
    wrap; where a file leaves a counter unbounded its header says why.  The
    counters of [PaxosReplica] are unbounded; [CollabReplica.collab_replica_same]
    shows that the 64-bit ones compute the same while they fit.
    [NetSim] has a clock that the environment advances; two messages of one
    channel keep their order as long as it does not go back, which [Driver]
    shows it can in virtual time.

    Fields and parameters that the program does not have are named as such in
    the headers of the files: logs of what happened ([Events.log],
    [NetSim.sent] and its companions, [Mutex.holders], [Curl.opened] and
    [Curl.asked]) and reference structures that run beside the code's
    ([TimerHeap.queue]), which theorems speak about and no operation reads.

    ** What is proved

    - The editor algebra: transformation has the diamond property, texts of
      operations are read back.
    - The store refines an abstract versioned map and keeps its invariant.
    - Paxos: one leader per round, log matching, well-formed replicas and
      messages, append-only leaders, the commit rule, application exactly
      once.  The theorems hold for every loss, delay, duplication and order;
      [PaxosCluster.cluster_refines] transfers them to the simulated network.
      [PaxosTraces.committed_slots_can_differ] is the limit: a clamp in
      [handle_propose] lets replicas commit different requests.  The replica
      of [pt-collab.cc] does what that of [pt-paxos.cc] does.
    - Lock clients exclude each other over one store that executes each serial
      once.  The test drivers: every schedule ends with its links repaired before the
      clients stop; the verdict accepts exactly the runs it means to.
    - The simulated network: no message is lost silently or duplicated,
      channels are ordered, reconnection drops what is under way, receivers
      are always woken.
    - The server: caches mirror the store after each poll and under races of
      poller and handler, a stream emits every operation once, a posted
      operation reaches the store and the reply end to end, requests are read
      the same however they are cut, an invariant of all interleavings.
    - The runtime: operations on events terminate and touch no freed body, in
      every world a program can reach; reference counts and quorums are exact;
      waiting tasks resume once; the mutex excludes, loses no wakeup and is
      fair, and its guards own exactly the locks that are held; handles count
      the events they refer to; the timer heap is a stable priority queue;
      small vectors are lists.
    - The event loop is never stuck, fires timers in order and on time, and
      may return with work left above its quota.  Watches are plain lists in
      one array, the kernel is told exactly what they say as long as it refuses
      no registration, a notification is delivered
      to the watches it is for, whatever the coroutines it resumes do, and
      notifications for a closed descriptor are ignored.
    - Descriptors: none is used after it is closed, closed twice, closed while
      a driver watches it, or left open once its handles are gone and each
      driver has run.  Setting up sockets takes the first address that works
      and leaves nothing else open.
    - The curl driver watches what libcurl last asked for, of the sockets it
      opened through the driver, and keeps its timeouts.
    - Tasks whose bodies own what they await and do not forward: no step is
      stuck, no wakeup is lost, an idle program waits only for events that
      have not triggered.  The examples at the end of [Tasks] show how each
      restriction can be violated.  A cancelled attempt gives [nullopt], a
      finished one its value.
    - The HTTP library: messages are well typed and never answer about an
      earlier URL, views of a URL and of its query are in bounds, parameters are read back through their iterators, the parser does
      not depend on how bytes arrive, vectored writes deliver every byte.
    - Printed requests can be read back when their texts have no quotes, and the
      exit code of [pt-collab] is the verdict of its runs.

    ** Fuel

    Loops that consume a list or a bounded counter are structural.  Other
    recursions take fuel, with a theorem that some amount is enough:
    [PaxosReplica.flush_loop] has the length of the queue
    ([PaxosProps.flush_drains]), [TimerHeap.sift_down] the size of the heap,
    [Text]'s decimal printer the 20 digits of a 64-bit integer.  Destroying a
    frame takes the number of frames ([TaskSteps.destroy_frame_ok]), as do the
    chains of awaiters, which the invariant of tasks orders.  The event
    operations ([Events.drop_handle] and its companions) call each other along
    the graph of quorums; [EventSafety.events_safe] shows that each succeeds
    with all large enough fuel ([enough], below), by the rank of an event in
    that graph and the number of untriggered bodies; [Driver],
    [EventHandles] and [WatchFds] build on it.

    ** Not modelled

    - Threads: the runtime is modelled for one thread, so the lock bits and
      latches of events, descriptors and mutexes are always free.
      [FdBody.deref_race_leaks] is the one interleaving of two threads looked
      at.
    - Mutexes that are destroyed while guards refer to them, guards used
      against their rules (examples of [Locks] show what they lead to), and
      requests for a lock that are cancelled while they wait, so neither the
      overload of [attempt] for mutexes.
    - Operating system and libraries: the answers of system calls are inputs;
      [epoll], [getaddrinfo], [getopt_long] and the lexer [llhttp] are
      parameters.  The variants for [kqueue] and [poll] and the calls that set
      options of libcurl are left out.
    - Random engines, latency statistics, log redirection, the start of the
      server's coroutines, and the JavaScript editor.
    - The rest of the headers are declarations, forwarding overloads and
      accessors, which have no behaviour of their own. *)

From stdpp Require Export base tactics numbers option list strings sorting gmap.
From Stdlib Require Export ZArith Lia.
From Stdlib Require Ascii String.
Export (notations) Stdlib.Strings.Ascii.

Declare Scope draft_scope.
Delimit Scope draft_scope with draft.
#[global] Open Scope Z_scope.

(** * Hint databases of the development *)

Create HintDb draft discriminated.
Create Rewrite HintDb draft_rw.

(** * Machine integers

    [size_t] and [uint64_t] are integers of [[0, 2^64)]; [int64_t] is an
    integer of [[-2^63, 2^63)].  Every arithmetic operation of the code is
    followed by [u64] (or [i64]), which is its wrap-around. *)

Definition two64 : Z := 18446744073709551616.
Definition two63 : Z := 9223372036854775808.
Definition two32 : Z := 4294967296.

Definition u64 (z : Z) : Z := z mod two64.
Definition u32 (z : Z) : Z := z mod two32.
Definition i64 (z : Z) : Z := (z + two63) mod two64 - two63.

Definition is_u64 (z : Z) : Prop := 0 ≤ z < two64.
Definition is_i64 (z : Z) : Prop := - two63 ≤ z < two63.

#[global] Instance is_u64_dec z : Decision (is_u64 z).
Proof. unfold is_u64. apply _. Defined.
#[global] Instance is_i64_dec z : Decision (is_i64 z).
Proof. unfold is_i64. apply _. Defined.

(** * Text

    [std::string] and [std::string_view] are lists of characters. *)

Abbreviation ascii := Stdlib.Strings.Ascii.ascii.
Abbreviation txt := (list Stdlib.Strings.Ascii.ascii).
Definition lit (s : string) : txt := Stdlib.Strings.String.list_ascii_of_string s.
Notation "$ s" := (lit s%string) (at level 1, s at level 0, format "$ s") : draft_scope.
#[global] Open Scope draft_scope.

Definition code (c : ascii) : Z := Z.of_N (Stdlib.Strings.Ascii.N_of_ascii c).
Definition char_of (z : Z) : ascii := Stdlib.Strings.Ascii.ascii_of_N (Z.to_N z).
Definition size {A} (l : list A) : Z := Z.of_nat (length l).

Definition ceqb (c d : ascii) : bool := Stdlib.Strings.Ascii.eqb c d.
#[global] Arguments ceqb : simpl never.
#[global] Arguments code : simpl never.
Definition teqb (s t : txt) : bool := bool_decide (s = t).

(** Code that throws: the value, or the exception's message. *)
Inductive result (A : Type) :=
  | Ok (a : A)
  | Throw (what : txt).
Arguments Ok {A} a.
Arguments Throw {A} what.

(** * Tactics *)

(** Turn boolean tests in the context and the goal into propositions. *)
Ltac bsimp :=
  repeat match goal with
  | H : (_ <? _) = true |- _ => apply Z.ltb_lt in H
  | H : (_ <? _) = false |- _ => apply Z.ltb_ge in H
  | H : (_ <=? _) = true |- _ => apply Z.leb_le in H
  | H : (_ <=? _) = false |- _ => apply Z.leb_gt in H
  | H : (_ =? _) = true |- _ => apply Z.eqb_eq in H
  | H : (_ =? _) = false |- _ => apply Z.eqb_neq in H
  | H : (_ && _) = true |- _ => apply andb_true_iff in H; destruct H
  | H : (_ || _) = false |- _ => apply orb_false_iff in H; destruct H
  | H : negb _ = true |- _ => apply negb_true_iff in H
  | H : negb _ = false |- _ => apply negb_false_iff in H
  | H : bool_decide _ = true |- _ => apply bool_decide_eq_true in H
  | H : bool_decide _ = false |- _ => apply bool_decide_eq_false in H
  end.

(** Case on the scrutinee of the first [if] of the goal, keeping the test. *)
Ltac case_if :=
  match goal with
  | |- context [if ?b then _ else _] =>
      let E := fresh "Ec" in destruct b eqn:E; bsimp
  end.

Ltac case_if_in H :=
  match type of H with
  | context [if ?b then _ else _] =>
      let E := fresh "Ec" in destruct b eqn:E; bsimp
  end.

(** Arithmetic with the width constants and list sizes unfolded. *)
Ltac width_lia := unfold is_u64, is_i64, two64, two63, two32, size in *; lia.

(** * Generic lemmas *)

Lemma u64_small z : is_u64 z → u64 z = z.
Proof. intros. apply Z.mod_small. done. Qed.

(** Remove every wrap-around that linear arithmetic shows not to happen. *)
Ltac no_wrap :=
  repeat match goal with
  | |- context [u64 ?z] => rewrite (u64_small z) by width_lia
  end.

Lemma u64_range z : is_u64 (u64 z).
Proof. apply Z.mod_pos_bound. done. Qed.

Lemma u64_add_idemp_l a b : u64 (u64 a + b) = u64 (a + b).
Proof. apply Zplus_mod_idemp_l. Qed.

Lemma u64_mul_idemp_l a b : u64 (u64 a * b) = u64 (a * b).
Proof. apply Zmult_mod_idemp_l. Qed.

Lemma i64_small z : is_i64 z → i64 z = z.
Proof.
  intros Hz. unfold i64. rewrite Z.mod_small; [lia|].
  revert Hz. unfold is_i64, two63, two64. lia.
Qed.

#[export] Hint Rewrite u64_add_idemp_l u64_mul_idemp_l : draft_rw.
#[export] Hint Resolve u64_range : draft.

Lemma code_range c : 0 ≤ code c < 256.
Proof.
  unfold code. split; [lia|].
  pose proof (Stdlib.Strings.Ascii.N_ascii_bounded c). lia.
Qed.

Lemma char_of_code c : char_of (code c) = c.
Proof. unfold char_of, code. rewrite N2Z.id. apply Stdlib.Strings.Ascii.ascii_N_embedding. Qed.

Lemma code_char_of z : 0 ≤ z < 256 → code (char_of z) = z.
Proof.
  intros. unfold char_of, code. rewrite Stdlib.Strings.Ascii.N_ascii_embedding; lia.
Qed.

Lemma code_inj c d : code c = code d → c = d.
Proof. intros H. rewrite <- (char_of_code c), <- (char_of_code d). by rewrite H. Qed.

Lemma ceqb_eq c d : ceqb c d = true ↔ c = d.
Proof. apply Stdlib.Strings.Ascii.eqb_eq. Qed.

Lemma ceqb_refl c : ceqb c c = true.
Proof. by apply ceqb_eq. Qed.

Lemma ceqb_neq c d : ceqb c d = false ↔ c ≠ d.
Proof. apply Stdlib.Strings.Ascii.eqb_neq. Qed.

Lemma teqb_refl s : teqb s s = true.
Proof. by apply bool_decide_eq_true. Qed.

Lemma size_nonneg {A} (l : list A) : 0 ≤ size l.
Proof. unfold size. lia. Qed.

Lemma size_app {A} (l k : list A) : size (l ++ k) = size l + size k.
Proof. unfold size. rewrite length_app. lia. Qed.

Lemma size_cons {A} (x : A) l : size (x :: l) = 1 + size l.
Proof. unfold size. simpl. lia. Qed.

Lemma size_nil {A} : size (@nil A) = 0.
Proof. done. Qed.

Lemma size_0 {A} (l : list A) : size l = 0 ↔ l = [].
Proof. unfold size. destruct l; simpl; split; intros; try done; lia. Qed.

#[export] Hint Resolve size_nonneg : draft.
#[export] Hint Rewrite @size_app @size_cons @size_nil : draft_rw.

(** Cutting a list at a position inside it. *)
Lemma split_at {A} (l : list A) (p : Z) :
  0 ≤ p ≤ size l → ∃ x y, l = x ++ y ∧ size x = p.
Proof.
  intros Hp. exists (take (Z.to_nat p) l), (drop (Z.to_nat p) l).
  rewrite take_drop. split; [done|]. unfold size in *. rewrite length_take. lia.
Qed.

Lemma take_size_app {A} (x y : list A) : take (Z.to_nat (size x)) (x ++ y) = x.
Proof. unfold size. rewrite Nat2Z.id. apply take_app_length. Qed.

Lemma drop_size_app {A} (x y : list A) : drop (Z.to_nat (size x)) (x ++ y) = y.
Proof. unfold size. rewrite Nat2Z.id. apply drop_app_length. Qed.

(** Sizes of concatenations, then linear arithmetic. *)
Ltac size_lia := subst; rewrite ?size_app, ?size_cons, ?size_nil in *; simpl in *; lia.
(** Equality of concatenations up to associativity. *)
Ltac app_eq := subst; rewrite <- ?app_assoc; simpl; rewrite ?app_nil_r; done.

(** ** Strictly sorted lists *)

Section StrictSorted.
Context {A : Type} (lt : A → A → Prop).
Hypothesis lt_irrefl : ∀ x, ¬ lt x x.
Hypothesis lt_trans : ∀ x y z, lt x y → lt y z → lt x z.

(** A strictly sorted list is determined by its elements. *)
Lemma strict_sorted_unique (l k : list A) :
  StronglySorted lt l → StronglySorted lt k → (∀ x, x ∈ l ↔ x ∈ k) → l = k.
Proof.
  intros Hl. revert k. induction Hl as [|x l Hl IH Hx]; intros k Hk Heq.
  - destruct k as [|y k]; [done|]. exfalso.
    apply (not_elem_of_nil y), Heq. left.
  - destruct Hk as [|y k Hk Hy].
    { exfalso. apply (not_elem_of_nil x), Heq. left. }
    rewrite Forall_forall in Hx, Hy.
    assert (x = y) as ->.
    { assert (x ∈ y :: k) as [->|Hxk]%elem_of_cons by (apply Heq; left); [done|].
      assert (y ∈ x :: l) as [->|Hyl]%elem_of_cons by (apply Heq; left); [done|].
      exfalso. apply (lt_irrefl x). eapply lt_trans; eauto. }
    f_equal. apply IH; [done|]. intros z. split; intros Hz.
    + assert (z ∈ y :: k) as [->|]%elem_of_cons by (apply Heq; by right); [|done].
      exfalso. apply (lt_irrefl y). auto.
    + assert (z ∈ y :: l) as [->|]%elem_of_cons by (apply Heq; by right); [|done].
      exfalso. apply (lt_irrefl y). auto.
Qed.

Lemma strict_sorted_snoc (l : list A) (x : A) :
  StronglySorted lt l → Forall (λ y, lt y x) l → StronglySorted lt (l ++ [x]).
Proof.
  induction 1 as [|y l Hl IH Hy]; intros Hx; simpl; [by repeat constructor|].
  inv Hx. constructor; [by apply IH|]. apply Forall_app. split; [done|]. by constructor.
Qed.

Lemma strict_sorted_filter (P : A → Prop) `{!∀ x, Decision (P x)} (l : list A) :
  StronglySorted lt l → StronglySorted lt (filter P l).
Proof.
  induction 1 as [|y l Hl IH Hy]; [constructor|].
  rewrite filter_cons. case_decide; [|done]. constructor; [done|].
  rewrite Forall_forall in Hy |- *. intros z [_ Hz]%list_elem_of_filter. auto.
Qed.
End StrictSorted.

Lemma filter_all {A} (P : A → Prop) `{!∀ x, Decision (P x)} (l : list A) :
  Forall P l → filter P l = l.
Proof.
  induction 1 as [|x l Hx _ IH]; [done|]. by rewrite filter_cons_True, IH.
Qed.

Lemma filter_ext_in {A} (P Q : A → Prop) `{!∀ x, Decision (P x)} `{!∀ x, Decision (Q x)} (l : list A) :
  Forall (λ x, P x ↔ Q x) l → filter P l = filter Q l.
Proof.
  induction 1 as [|x l Hx _ IH]; [done|]. rewrite !filter_cons, IH.
  destruct (decide (P x)), (decide (Q x)); tauto || done.
Qed.

Lemma filter_none {A} (P : A → Prop) `{!∀ x, Decision (P x)} (l : list A) :
  Forall (λ x, ¬ P x) l → filter P l = [].
Proof. induction 1 as [|x l Hx _ IH]; [done|]. by rewrite filter_cons_False. Qed.

(** * Removal by swapping

    Several lists of the runtime are unordered: an element is removed by moving
    the last one into its place. *)

Fixpoint index_in {A} `{EqDecision A} (x : A) (l : list A) : option nat :=
  match l with
  | [] => None
  | y :: l' => if decide (y = x) then Some O else S <$> index_in x l'
  end.

(** Replace the first element equal to [x] by the last one and drop the last:
    the removal from a [small_vector] by swapping with [back()]. *)
Definition swap_remove {A} (i : nat) (l : list A) : list A :=
  match last l with
  | None => l
  | Some b => take (length l - 1) (<[i := b]> l)
  end.

Lemma index_in_Some {A} `{EqDecision A} (x : A) l i :
  index_in x l = Some i → l !! i = Some x.
Proof.
  revert i. induction l as [|y l IH]; intros i; cbn; [done|].
  destruct (decide (y = x)) as [->|]; [by intros [= <-]|].
  intros (k & Hk & ->)%fmap_Some. by apply IH.
Qed.

Lemma index_in_None {A} `{EqDecision A} (x : A) l : index_in x l = None ↔ x ∉ l.
Proof.
  induction l as [|y l IH]; cbn; [split; [intros _ H; inversion H|done]|].
  destruct (decide (y = x)) as [->|Hn].
  - split; [done|]. intros []. by left.
  - rewrite fmap_None, IH, not_elem_of_cons. split; [by intros; split|by intros []].
Qed.

(** Removing by swapping with the last element removes that element. *)
Lemma swap_remove_perm {A} i (l : list A) x : l !! i = Some x → l ≡ₚ x :: swap_remove i l.
Proof.
  intros Hi. unfold swap_remove. destruct l as [|y l' _] using rev_ind; [done|].
  rewrite last_snoc, length_app. cbn [length]. replace (length l' + 1 - 1)%nat with (length l') by lia.
  destruct (decide (i = length l')) as [->|Hne].
  - rewrite list_lookup_middle in Hi by done. injection Hi as ->.
    rewrite insert_app_r_alt, Nat.sub_diag by lia. cbn. rewrite take_app_length, Permutation_app_comm. done.
  - assert (Hlt : (i < length l')%nat).
    { apply lookup_lt_Some in Hi. rewrite length_app in Hi. simpl in Hi. lia. }
    rewrite lookup_app_l in Hi by done. rewrite insert_app_l by done.
    rewrite take_app_le by (rewrite length_insert; lia). rewrite take_ge by (rewrite length_insert; lia).
    rewrite insert_take_drop by done. rewrite <-(take_drop_middle l' i x Hi) at 1.
    rewrite <-(assoc_L (++)). cbn. rewrite <-Permutation_middle. constructor.
    apply Permutation_app_head. by rewrite Permutation_app_comm.
Qed.

(** * Fuel *)

(** With enough fuel, [f] returns [r]. *)
Definition enough {A} (f : nat → option A) (r : A) : Prop := ∃ n, ∀ k, (n ≤ k)%nat → f k = Some r.

Lemma enough_S {A} (f : nat → option A) r : enough (λ n, f (S n)) r → enough f r.
Proof. intros [n Hn]. exists (S n). intros [|k] Hk; [lia|]. apply Hn. lia. Qed.

Lemma enough_ret {A} (f : nat → option A) r : (∀ n, f n = Some r) → enough f r.
Proof. intros H. exists O. auto. Qed.

Lemma enough_bind {A C} (f : nat → option A) (g : nat → A → option C) a r :
  enough f a → enough (λ n, g n a) r → enough (λ n, f n ≫= g n) r.
Proof.
  intros [n Hn] [m Hm]. exists (n `max` m)%nat. intros k Hk. rewrite Hn by lia. cbn. apply Hm. lia.
Qed.

Lemma enough_ext {A} (f g : nat → option A) r : (∀ n, f n = g n) → enough f r → enough g r.
Proof. intros H [n Hn]. exists n. intros k Hk. rewrite <-H. by apply Hn. Qed.

(** * Counting handles

    Objects that refer to a shared body or to none, by their addresses: how many
    refer to the body [b]. *)

Module Handles.
Definition holds_body (b : nat) (p : nat * option nat) : Prop := p.2 = Some b.
#[export] Instance holds_body_dec b p : Decision (holds_body b p).
Proof. unfold holds_body. apply _. Defined.

Definition count (hs : gmap nat (option nat)) (b : nat) : Z := Z.of_nat (base.size (filter (holds_body b) hs)).
Definition one (o : option nat) (b : nat) : Z := if decide (o = Some b) then 1 else 0.

Lemma count_new hs h o b : hs !! h = None → count (<[h := o]> hs) b = count hs b + one o b.
Proof.
  intros Hh. unfold count, one. destruct (decide (o = Some b)) as [->|Hne].
  - rewrite map_filter_insert_True by done. rewrite map_size_insert_None; [lia|]. apply map_lookup_filter_None. by left.
  - rewrite map_filter_insert_not' by naive_solver. lia.
Qed.

Lemma count_delete hs h o b : hs !! h = Some o → count (delete h hs) b = count hs b - one o b.
Proof.
  intros Hh. rewrite <-(insert_delete_id hs h o Hh) at 2. rewrite count_new by apply lookup_delete_eq. lia.
Qed.

Lemma count_set hs h o o' b : hs !! h = Some o → count (<[h := o']> hs) b = count hs b - one o b + one o' b.
Proof.
  intros Hh. rewrite <-insert_delete_eq, count_new by apply lookup_delete_eq. by rewrite (count_delete _ _ o).
Qed.

Lemma count_bound hs b : 0 ≤ count hs b ≤ Z.of_nat (base.size hs).
Proof.
  unfold count. split; [lia|]. apply inj_le. apply map_subseteq_size. apply map_filter_subseteq.
Qed.

Lemma count_pos hs b : count hs b ≠ 0 ↔ ∃ h, hs !! h = Some (Some b).
Proof.
  unfold count. assert (E : base.size (filter (holds_body b) hs) = 0%nat ↔ ¬ ∃ h, hs !! h = Some (Some b)).
  { rewrite map_size_empty_iff. split.
    - intros E [h Hh]. assert (Hf : filter (holds_body b) hs !! h = Some (Some b)) by (by apply map_lookup_filter_Some).
      by rewrite E, lookup_empty in Hf.
    - intros Hn. apply map_empty. intros h. apply map_lookup_filter_None. right. intros o Ho E. unfold holds_body in E. cbn in E.
      subst o. apply Hn. by exists h. }
  destruct (base.size (filter (holds_body b) hs)) as [|n]; split.
  - done.
  - intros He. exfalso. by apply E.
  - intros _. destruct (decide (map_Exists (λ _ o, o = Some b) hs)) as [(h & o & Ho & ->)|Hn]; [by exists h|].
    exfalso. assert (S n = 0%nat); [|lia]. apply E. intros [h Hh]. apply Hn. by exists h, (Some b).
  - lia.
Qed.

Lemma one_cases o b : one o b = 1 ∧ o = Some b ∨ one o b = 0 ∧ o ≠ Some b.
Proof. unfold one. destruct (decide _); [by left|by right]. Qed.

Lemma one_None b : one None b = 0.
Proof. done. Qed.
End Handles.
