(* ===== verification/SMap.v ===== *)
(** Ordered maps: [std::map<K, V>] as an association list sorted by key.

    [db_] of [pancydb], [log_] of the replicas, the per-document caches and
    the cursor table are ordered maps whose iteration order the code relies
    on ([begin()], [lower_bound], range [for] loops), so the model keeps the
    order instead of a hash map.  The keys are compared by a boolean strict
    total order, given by the class [KeyOrd]; its instances are the integers
    and the strings (byte-wise lexicographic, as [std::string::compare]). *)

From S2P Require Import Prelude.

(** * Keys *)

Class KeyOrd (K : Type) := {
  kltb : K → K → bool;
  kltb_irrefl : ∀ a, kltb a a = false;
  kltb_trans : ∀ a b c, kltb a b = true → kltb b c = true → kltb a c = true;
  kltb_total : ∀ a b, kltb a b = false → kltb b a = false → a = b;
}.

Fixpoint txt_ltb (s t : txt) : bool :=
  match s, t with
  | [], [] => false
  | [], _ :: _ => true
  | _ :: _, [] => false
  | c :: s', d :: t' =>
      if code c <? code d then true
      else if code d <? code c then false
      else txt_ltb s' t'
  end.

Lemma txt_ltb_irrefl s : txt_ltb s s = false.
Proof. induction s as [|c s IH]; simpl; [done|]. by rewrite Z.ltb_irrefl. Qed.

Lemma txt_ltb_trans s t u : txt_ltb s t = true → txt_ltb t u = true → txt_ltb s u = true.
Proof.
  revert t u. induction s as [|a s IH]; intros [|b t] [|c u]; simpl; try done.
  intros H1 H2. repeat (case_if_in H1; try done); repeat (case_if_in H2; try done);
    repeat case_if; try done; try lia.
  eapply IH; eauto.
Qed.

Lemma txt_ltb_total s t : txt_ltb s t = false → txt_ltb t s = false → s = t.
Proof.
  revert t. induction s as [|a s IH]; intros [|b t]; simpl; try done.
  intros H1 H2. repeat (case_if_in H1; try done); repeat (case_if_in H2; try done); try lia.
  f_equal; [apply code_inj; lia | by apply IH].
Qed.

#[export] Instance KeyOrd_txt : KeyOrd txt := {
  kltb := txt_ltb;
  kltb_irrefl := txt_ltb_irrefl;
  kltb_trans := txt_ltb_trans;
  kltb_total := txt_ltb_total;
}.

#[export, refine] Instance KeyOrd_Z : KeyOrd Z := { kltb := Z.ltb }.
Proof.
  - apply Z.ltb_irrefl.
  - intros. bsimp. apply Z.ltb_lt. lia.
  - intros. bsimp. lia.
Defined.

(** * Operations *)

Definition smap (K V : Type) := list (K * V).

Section Operations.
Context {K V : Type} `{!KeyOrd K}.
Implicit Types (m : smap K V) (k : K) (v : V).

(** [a == b] for keys of an ordered container. *)
Definition keqb (a b : K) : bool := negb (kltb a b) && negb (kltb b a).

(** [m.find(k)], [None] for [m.end()]. *)
Fixpoint find k m : option V :=
  match m with
  | [] => None
  | (k', v) :: m' => if keqb k k' then Some v else find k m'
  end.

Definition contains k m : bool := bool_decide (is_Some (find k m)).

(** [m[k] = v] (also [insert_or_assign]). *)
Fixpoint assign k v m : smap K V :=
  match m with
  | [] => [(k, v)]
  | (k', v') :: m' =>
      if kltb k k' then (k, v) :: m
      else if kltb k' k then (k', v') :: assign k v m'
      else (k', v) :: m'
  end.

(** [m.emplace(k, v)]: the mapping stays as it is when [k] is present. *)
Definition emplace k v m : smap K V :=
  if contains k m then m else assign k v m.

(** [m.erase(m.find(k))]. *)
Fixpoint erase k m : smap K V :=
  match m with
  | [] => []
  | (k', v') :: m' => if keqb k k' then m' else (k', v') :: erase k m'
  end.

(** The elements from [m.lower_bound(k)] to [m.end()]. *)
Fixpoint lower_bound k m : smap K V :=
  match m with
  | [] => []
  | (k', v') :: m' => if kltb k' k then lower_bound k m' else m
  end.

(** Erasing everything from [m.lower_bound(k)] to the end. *)
Fixpoint erase_from k m : smap K V :=
  match m with
  | [] => []
  | (k', v') :: m' => if kltb k' k then (k', v') :: erase_from k m' else []
  end.

Definition keys m : list K := m.*1.

(** Keys strictly increase along the iteration. *)
Definition wf m : Prop := StronglySorted (λ a b, kltb a b = true) (keys m).
End Operations.

(** * Laws *)

Section Laws.
Context {K V : Type} `{!KeyOrd K}.
Implicit Types (m : smap K V) (k : K) (v : V).

Lemma keqb_true a b : keqb a b = true ↔ a = b.
Proof.
  unfold keqb. split.
  - intros [? ?]%andb_true_iff. bsimp. by apply kltb_total.
  - intros ->. by rewrite kltb_irrefl.
Qed.

Lemma keqb_refl a : keqb a a = true.
Proof. by apply keqb_true. Qed.

Lemma keqb_false a b : keqb a b = false ↔ a ≠ b.
Proof.
  split.
  - intros H ->. by rewrite keqb_refl in H.
  - intros H. destruct (keqb a b) eqn:E; [|done]. by apply keqb_true in E.
Qed.

Lemma kltb_asym a b : kltb a b = true → kltb b a = false.
Proof.
  intros H. destruct (kltb b a) eqn:E; [|done].
  by rewrite <- (kltb_irrefl a), (kltb_trans a b a).
Qed.

Lemma kltb_ne a b : kltb a b = true → a ≠ b.
Proof. intros H ->. by rewrite kltb_irrefl in H. Qed.

Lemma wf_nil : wf (@nil (K * V)).
Proof. constructor. Qed.

Lemma wf_cons k v m : wf ((k, v) :: m) ↔ wf m ∧ Forall (λ k', kltb k k' = true) (keys m).
Proof.
  unfold wf, keys. simpl. split.
  - intros H. by apply StronglySorted_inv in H.
  - intros [? ?]. by constructor.
Qed.

Lemma find_Some_keys k v m : find k m = Some v → k ∈ keys m.
Proof.
  induction m as [|[k' v'] m IH]; simpl; [done|].
  case_if; intros; simplify_eq.
  - apply keqb_true in Ec as ->. left.
  - right. by apply IH.
Qed.

Lemma find_None_keys k m : find k m = None ↔ k ∉ keys m.
Proof.
  induction m as [|[k' v'] m IH]; simpl.
  { split; [intros _; apply not_elem_of_nil | done]. }
  case_if.
  - apply keqb_true in Ec as ->. split; [done|]. intros []. left.
  - apply keqb_false in Ec. rewrite IH, not_elem_of_cons. naive_solver.
Qed.

Lemma find_lt_None k m : Forall (λ k', kltb k k' = true) (keys m) → find k m = None.
Proof.
  intros H. apply find_None_keys. intros Hin.
  rewrite Forall_forall in H. apply H in Hin. by rewrite kltb_irrefl in Hin.
Qed.

Lemma contains_true k m : contains k m = true ↔ is_Some (find k m).
Proof. unfold contains. by rewrite bool_decide_eq_true. Qed.

Lemma contains_false k m : contains k m = false ↔ find k m = None.
Proof.
  unfold contains. rewrite bool_decide_eq_false, eq_None_not_Some. done.
Qed.

Lemma find_In k v m : wf m → find k m = Some v ↔ (k, v) ∈ m.
Proof.
  induction m as [|[k' v'] m IH]; simpl; intros Hwf.
  { split; [done|]. by intros ?%not_elem_of_nil. }
  apply wf_cons in Hwf as [Hwf Hlt]. rewrite elem_of_cons. case_if.
  - apply keqb_true in Ec as ->. split; [naive_solver|].
    intros [|Hin]; [naive_solver|].
    rewrite Forall_forall in Hlt. exfalso.
    assert (Hk : k' ∈ keys m) by (apply list_elem_of_fmap; by exists (k', v)).
    apply Hlt in Hk. by rewrite kltb_irrefl in Hk.
  - apply keqb_false in Ec. rewrite IH by done. naive_solver.
Qed.

Lemma keys_assign k v m k' : k' ∈ keys (assign k v m) ↔ k' = k ∨ k' ∈ keys m.
Proof.
  unfold keys. induction m as [|[k0 v0] m IH]; simpl.
  { rewrite elem_of_cons. by rewrite !elem_of_nil. }
  repeat case_if; simpl; rewrite ?elem_of_cons, ?IH; simpl; rewrite ?elem_of_cons.
  - done.
  - naive_solver.
  - assert (k = k0) as -> by by apply kltb_total. naive_solver.
Qed.

Lemma find_assign_eq k v m : find k (assign k v m) = Some v.
Proof.
  induction m as [|[k0 v0] m IH]; simpl; [by rewrite keqb_refl|].
  repeat case_if; simpl.
  - by rewrite keqb_refl.
  - case_if; [|done]. apply keqb_true in Ec1 as ->. by rewrite kltb_irrefl in Ec0.
  - assert (k = k0) as -> by by apply kltb_total. by rewrite keqb_refl.
Qed.

Lemma find_assign_ne k k' v m : k ≠ k' → find k (assign k' v m) = find k m.
Proof.
  intros Hne. assert (keqb k k' = false) as Hk by by apply keqb_false.
  induction m as [|[k0 v0] m IH]; simpl; [by rewrite Hk|].
  destruct (kltb k' k0) eqn:E1; simpl; [by rewrite Hk|].
  destruct (kltb k0 k') eqn:E2; simpl; [by rewrite IH|].
  assert (k' = k0) as -> by by apply kltb_total. by rewrite Hk.
Qed.

Lemma wf_assign k v m : wf m → wf (assign k v m).
Proof.
  induction m as [|[k0 v0] m IH]; simpl; intros Hwf.
  { apply wf_cons. split; [apply wf_nil | constructor]. }
  apply wf_cons in Hwf as [Hwf Hlt]. repeat case_if.
  - apply wf_cons. split; [by apply wf_cons|]. simpl. constructor; [done|].
    eapply Forall_impl; [exact Hlt|]. intros. by eapply kltb_trans.
  - apply wf_cons. split; [by apply IH|]. rewrite Forall_forall in Hlt |- *.
    intros k' Hk'. apply keys_assign in Hk' as [->|]; auto.
  - assert (k = k0) as -> by by apply kltb_total. by apply wf_cons.
Qed.

Lemma find_emplace k k' v m :
  find k (emplace k' v m) =
    match find k m with Some w => Some w | None => if keqb k k' then Some v else None end.
Proof.
  unfold emplace. destruct (contains k' m) eqn:E.
  - destruct (find k m) eqn:F; [done|]. case_if; [|done].
    apply keqb_true in Ec as ->. apply contains_true in E as [? E]. congruence.
  - apply contains_false in E. case_if.
    + apply keqb_true in Ec as ->. by rewrite find_assign_eq, E.
    + apply keqb_false in Ec. rewrite find_assign_ne by done. by destruct (find k m).
Qed.

Lemma wf_emplace k v m : wf m → wf (emplace k v m).
Proof. unfold emplace. case_if; [done | apply wf_assign]. Qed.

Lemma keys_emplace k v m k' : k' ∈ keys (emplace k v m) ↔ k' = k ∨ k' ∈ keys m.
Proof.
  unfold emplace. destruct (contains k m) eqn:E; [|apply keys_assign].
  split; [by right|]. intros [->|]; [|done].
  apply contains_true in E as [w E]. by eapply find_Some_keys.
Qed.

Lemma keys_erase_sub k m k' : k' ∈ keys (erase k m) → k' ∈ keys m.
Proof.
  unfold keys. induction m as [|[k0 v0] m IH]; simpl; [done|].
  case_if; simpl; rewrite ?elem_of_cons; naive_solver.
Qed.

Lemma wf_erase k m : wf m → wf (erase k m).
Proof.
  induction m as [|[k0 v0] m IH]; simpl; intros Hwf; [done|].
  apply wf_cons in Hwf as [Hwf Hlt]. case_if; [done|].
  apply wf_cons. split; [by apply IH|]. rewrite Forall_forall in Hlt |- *.
  intros k' ?%keys_erase_sub. auto.
Qed.

Lemma find_erase_eq k m : wf m → find k (erase k m) = None.
Proof.
  induction m as [|[k0 v0] m IH]; simpl; intros Hwf; [done|].
  apply wf_cons in Hwf as [Hwf Hlt]. case_if.
  - apply keqb_true in Ec as ->. by apply find_lt_None.
  - simpl. rewrite Ec. by apply IH.
Qed.

Lemma find_erase_ne k k' m : k ≠ k' → find k (erase k' m) = find k m.
Proof.
  intros Hne. induction m as [|[k0 v0] m IH]; simpl; [done|]. case_if; simpl.
  - apply keqb_true in Ec as ->. apply keqb_false in Hne. by rewrite Hne.
  - by rewrite IH.
Qed.

Lemma wf_erase_from k m : wf m → wf (erase_from k m).
Proof.
  induction m as [|[k0 v0] m IH]; simpl; intros Hwf; [done|].
  apply wf_cons in Hwf as [Hwf Hlt]. case_if; [|apply wf_nil].
  apply wf_cons. split; [by apply IH|]. clear IH Hwf Ec. revert Hlt.
  induction m as [|[k1 v1] m IH]; simpl; [done|]. intros Hlt. inv Hlt.
  case_if; [|constructor]. constructor; auto.
Qed.

Lemma find_erase_from k k' m :
  wf m → find k (erase_from k' m) = if kltb k k' then find k m else None.
Proof.
  induction m as [|[k0 v0] m IH]; simpl; intros Hwf; [by destruct (kltb k k')|].
  apply wf_cons in Hwf as [Hwf Hlt]. destruct (kltb k0 k') eqn:E0; simpl.
  - destruct (keqb k k0) eqn:E.
    + apply keqb_true in E as ->. by rewrite E0.
    + by apply IH.
  - case_if; [|done]. case_if.
    + apply keqb_true in Ec0 as ->. congruence.
    + symmetry. apply find_None_keys. intros Hk. rewrite Forall_forall in Hlt.
      apply Hlt in Hk. assert (kltb k0 k' = true); [|congruence].
      by eapply kltb_trans.
Qed.

Lemma head_not_lt k1 v1 m1 k2 v2 m2 :
  wf ((k2, v2) :: m2) →
  find k1 ((k1, v1) :: m1) = find k1 ((k2, v2) :: m2) → kltb k1 k2 = false.
Proof.
  intros [Hwf Hlt]%wf_cons Heq. destruct (kltb k1 k2) eqn:E; [|done].
  simpl in Heq. rewrite keqb_refl in Heq.
  rewrite (proj2 (keqb_false k1 k2) (kltb_ne _ _ E)) in Heq.
  rewrite find_lt_None in Heq; [done|].
  eapply Forall_impl; [exact Hlt|]. intros x Hx. exact (kltb_trans _ _ _ E Hx).
Qed.

(** Two ordered maps with the same lookups are the same map. *)
Lemma wf_ext m1 m2 : wf m1 → wf m2 → (∀ k, find k m1 = find k m2) → m1 = m2.
Proof.
  revert m2. induction m1 as [|[k1 v1] m1 IH]; intros [|[k2 v2] m2] H1 H2 Heq.
  - done.
  - specialize (Heq k2). simpl in Heq. by rewrite keqb_refl in Heq.
  - specialize (Heq k1). simpl in Heq. by rewrite keqb_refl in Heq.
  - assert (k1 = k2) as ->.
    { apply kltb_total; eapply head_not_lt; eauto. }
    apply wf_cons in H1 as [H1 Hlt1]. apply wf_cons in H2 as [H2 Hlt2].
    pose proof (Heq k2) as Hv. simpl in Hv. rewrite keqb_refl in Hv. simplify_eq.
    f_equal. apply IH; [done..|]. intros k. specialize (Heq k). simpl in Heq.
    destruct (keqb k k2) eqn:E; [|done].
    apply keqb_true in E as ->. by rewrite !find_lt_None.
Qed.
End Laws.

#[export] Hint Resolve wf_nil wf_assign wf_emplace wf_erase wf_erase_from : draft.
