(* ===== verification/Text.v ===== *)
(** Text routines of the C++ standard library that the program relies on:
    decimal printing ([std::to_string], [std::format("{}")]), decimal parsing
    ([std::from_chars]), and searching in a [std::string_view].  Positions in
    a text are natural numbers ([None] is [npos]). *)

From S2P Require Import Prelude.

(** * Searching *)

Fixpoint starts_with (p s : txt) : bool :=
  match p, s with
  | [], _ => true
  | _ :: _, [] => false
  | c :: p', d :: s' => ceqb c d && starts_with p' s'
  end.

(** [s.ends_with(p)]. *)
Definition ends_with (p s : txt) : bool := starts_with (reverse p) (reverse s).

(** Offset of the first character of [s] equal to [c]. *)
Fixpoint index_of (c : ascii) (s : txt) : option nat :=
  match s with
  | [] => None
  | d :: s' => if ceqb c d then Some O else S <$> index_of c s'
  end.

(** Offset of the first occurrence of [p] in [s]. *)
Fixpoint index_of_txt (p s : txt) : option nat :=
  if starts_with p s then Some O
  else match s with
       | [] => None
       | _ :: s' => S <$> index_of_txt p s'
       end.

(** [s.find(c, from)] and [s.find(p, from)]: no match from a position beyond
    the end. *)
Definition find_char (c : ascii) (s : txt) (from : nat) : option nat :=
  Nat.add from <$> index_of c (drop from s).
Definition find_txt (p s : txt) (from : nat) : option nat :=
  if (from <=? length s)%nat then Nat.add from <$> index_of_txt p (drop from s) else None.

(** [s.substr(pos, len)] for [pos <= s.size()]. *)
Definition substr (s : txt) (pos len : nat) : txt := take len (drop pos s).

(** * Decimal digits *)

Definition is_digit (c : ascii) : bool := (48 <=? code c) && (code c <=? 57).
Definition digit_val (c : ascii) : Z := code c - 48.
Definition digit_char (d : Z) : ascii := char_of (48 + d).

(** Decimal digits of [z], [z < 10^fuel]; 20 digits hold every [uint64_t]. *)
Fixpoint digits (fuel : nat) (z : Z) (acc : txt) : txt :=
  match fuel with
  | O => acc
  | S f =>
      let acc' := digit_char (z mod 10) :: acc in
      if z <? 10 then acc' else digits f (z / 10) acc'
  end.

Definition dec (z : Z) : txt := digits 20 z [].
#[global] Arguments dec : simpl never.
Definition dec_i64 (z : Z) : txt := if z <? 0 then $"-" ++ dec (- z) else dec z.

(** The maximal run of digits at the start of [s], and what follows it. *)
Fixpoint digit_run (s : txt) : txt * txt :=
  match s with
  | [] => ([], [])
  | c :: s' => if is_digit c then (c :: (digit_run s').1, (digit_run s').2) else ([], s)
  end.

Definition dec_value_from (v : Z) (ds : txt) : Z :=
  foldl (λ v c, v * 10 + digit_val c) v ds.
Definition dec_value (ds : txt) : Z := dec_value_from 0 ds.

(** [std::from_chars] on an unsigned 64-bit and on a signed 64-bit target:
    [None] when [ec] is set (no digit, or out of range); otherwise the value
    and the unread rest. *)
Definition from_chars_u64 (s : txt) : option (Z * txt) :=
  let '(ds, rest) := digit_run s in
  if bool_decide (ds = []) then None
  else if dec_value ds <? two64 then Some (dec_value ds, rest) else None.

Definition from_chars_i64 (s : txt) : option (Z * txt) :=
  let '(neg, s') := match s with
                    | c :: s' => if ceqb c "-"%char then (true, s') else (false, s)
                    | [] => (false, s)
                    end in
  let '(ds, rest) := digit_run s' in
  if bool_decide (ds = []) then None
  else let v := if neg then - dec_value ds else dec_value ds in
       if (- two63 <=? v) && (v <? two63) then Some (v, rest) else None.

(** * Laws *)

Lemma starts_with_app p s : starts_with p (p ++ s) = true.
Proof. induction p; simpl; [done|]. by rewrite ceqb_refl. Qed.

Lemma starts_with_true p s : starts_with p s = true ↔ ∃ t, s = p ++ t.
Proof.
  revert s. induction p as [|c p IH]; intros s; simpl; [naive_solver|].
  destruct s as [|d s]; simpl; [naive_solver|].
  rewrite andb_true_iff, ceqb_eq, IH. split.
  - intros [-> [t ->]]. by exists t.
  - intros [t [= -> ->]]. eauto.
Qed.

Lemma index_of_None c s : index_of c s = None ↔ c ∉ s.
Proof.
  induction s as [|d s IH]; simpl; [set_solver|].
  destruct (ceqb c d) eqn:E.
  - apply ceqb_eq in E as ->. set_solver.
  - apply ceqb_neq in E. rewrite not_elem_of_cons, <- IH.
    destruct (index_of c s); naive_solver.
Qed.

Lemma index_of_app c s t : c ∉ s → index_of c (s ++ c :: t) = Some (length s).
Proof.
  induction s as [|d s IH]; simpl; intros Hs; [by rewrite ceqb_refl|].
  apply not_elem_of_cons in Hs as [? ?].
  assert (ceqb c d = false) as -> by by apply ceqb_neq. by rewrite IH.
Qed.

Lemma index_of_Some c s n : index_of c s = Some n → s = take n s ++ c :: drop (n + 1) s.
Proof.
  revert n. induction s as [|d s IH]; intros n; simpl; [done|].
  destruct (ceqb c d) eqn:E.
  - apply ceqb_eq in E as ->. by intros [= <-].
  - destruct (index_of c s) as [m|]; [|done]. intros [= <-]. simpl. f_equal. by apply IH.
Qed.

Lemma digit_char_is_digit d : 0 ≤ d < 10 → is_digit (digit_char d) = true.
Proof.
  intros. unfold is_digit, digit_char. rewrite code_char_of by lia.
  apply andb_true_intro. split; apply Z.leb_le; lia.
Qed.

Lemma digit_val_char d : 0 ≤ d < 10 → digit_val (digit_char d) = d.
Proof. intros. unfold digit_val, digit_char. rewrite code_char_of; lia. Qed.

Lemma digits_app f z acc : digits f z acc = digits f z [] ++ acc.
Proof.
  revert z acc. induction f as [|f IH]; intros z acc; simpl; [done|].
  case_if; [done|]. rewrite IH, (IH _ [_]), <- app_assoc. done.
Qed.

Lemma dec_value_from_app v ds es :
  dec_value_from v (ds ++ es) = dec_value_from (dec_value_from v ds) es.
Proof. apply foldl_app. Qed.

Lemma digits_spec f z :
  0 ≤ z < 10 ^ Z.of_nat (S f) →
  digits (S f) z [] ≠ [] ∧ Forall (λ c, is_digit c = true) (digits (S f) z []) ∧
  dec_value (digits (S f) z []) = z.
Proof.
  revert z. induction f as [|f IH]; intros z Hz.
  - change (10 ^ Z.of_nat 1) with 10 in Hz. simpl.
    assert (z <? 10 = true) as -> by lia. rewrite Z.mod_small by lia.
    split_and!; [done| |].
    + repeat constructor. apply digit_char_is_digit. lia.
    + unfold dec_value, dec_value_from. simpl. rewrite digit_val_char; lia.
  - assert (Hm : 0 ≤ z mod 10 < 10) by (apply Z.mod_pos_bound; lia).
    rewrite (Nat2Z.inj_succ (S f)), Z.pow_succ_r in Hz by lia.
    change (digits (S (S f)) z []) with
      (if z <? 10 then [digit_char (z mod 10)]
       else digits (S f) (z / 10) [digit_char (z mod 10)]).
    case_if.
    + rewrite Z.mod_small by lia. split_and!; [done| |].
      * repeat constructor. apply digit_char_is_digit. lia.
      * unfold dec_value, dec_value_from. simpl. rewrite digit_val_char; lia.
    + destruct (IH (z / 10)) as (Hn & Hd & Hv).
      { split; [apply Z.div_pos; lia | apply Z.div_lt_upper_bound; lia]. }
      rewrite digits_app. split_and!.
      * intros H. by apply app_eq_nil in H as [? ?].
      * apply Forall_app. split; [done|]. repeat constructor. by apply digit_char_is_digit.
      * unfold dec_value in *. rewrite dec_value_from_app, Hv.
        unfold dec_value_from. simpl. rewrite digit_val_char by done.
        pose proof (Z.div_mod z 10). lia.
Qed.

Lemma dec_spec z :
  is_u64 z → dec z ≠ [] ∧ Forall (λ c, is_digit c = true) (dec z) ∧ dec_value (dec z) = z.
Proof.
  intros Hz. apply digits_spec. revert Hz. unfold is_u64, two64.
  change (10 ^ Z.of_nat 20) with 100000000000000000000. lia.
Qed.

(** A digit run is read up to the first character that is not a digit. *)
Definition no_digit_first (s : txt) : Prop :=
  match s with [] => True | c :: _ => is_digit c = false end.

Lemma digit_run_app ds rest :
  Forall (λ c, is_digit c = true) ds → no_digit_first rest → digit_run (ds ++ rest) = (ds, rest).
Proof.
  induction 1 as [|c ds Hc _ IH]; intros Hr; simpl.
  - destruct rest as [|c rest]; simpl in *; [done|]. by rewrite Hr.
  - by rewrite Hc, IH.
Qed.

Lemma from_chars_dec z rest :
  is_u64 z → no_digit_first rest → from_chars_u64 (dec z ++ rest) = Some (z, rest).
Proof.
  intros Hz Hr. destruct (dec_spec z Hz) as (Hn & Hd & Hv).
  unfold from_chars_u64. rewrite digit_run_app by done.
  rewrite bool_decide_eq_false_2 by done. rewrite Hv.
  assert (z <? two64 = true) as ->; [|done]. apply Z.ltb_lt. apply Hz.
Qed.

Lemma digit_not_char c d : is_digit c = true → is_digit d = false → c ≠ d.
Proof. congruence. Qed.

Lemma digits_free ds c :
  Forall (λ c, is_digit c = true) ds → is_digit c = false → c ∉ ds.
Proof. intros H Hc Hin. rewrite Forall_forall in H. apply H in Hin. congruence. Qed.

#[export] Hint Resolve digits_free : draft.
