(* ===== verification/DocOps.v ===== *)
(** Character-level insert and delete operations and their operational
    transformation: [src/pset4/doc_ops.hh] and [doc_ops.cc].

    Positions and lengths are [size_t]; sums and differences wrap with [u64].
    The theorems about [transform] assume operations that lie inside the
    document ([op_valid], what an editor produces) and texts below
    [std::string::max_size()], so that no sum wraps. *)

From S2P Require Import Prelude Text.

(** * Operations *)

Inductive doc_op :=
  | insert_op (pos : Z) (text : txt)
  | delete_op (pos len : Z).

#[export] Instance doc_op_eq_dec : EqDecision doc_op.
Proof. solve_decision. Defined.

(** ** Serialization *)

Definition serialize (op : doc_op) : txt :=
  match op with
  | insert_op pos text => $"I " ++ dec pos ++ $" " ++ text
  | delete_op pos len => $"D " ++ dec pos ++ $" " ++ dec len
  end.

(** The digit loop of [read_uint]: the value wraps, it is not range checked. *)
Fixpoint read_uint_loop (sv : txt) (v : Z) (got : bool) : Z * bool * txt :=
  match sv with
  | [] => (v, got, sv)
  | c :: sv' =>
      if is_digit c then read_uint_loop sv' (u64 (u64 (v * 10) + digit_val c)) true
      else (v, got, sv)
  end.

Definition read_uint (sv : txt) : result (Z * txt) :=
  let '(v, got, sv) := read_uint_loop sv 0 false in
  if negb got then Throw $"expected integer"
  else match sv with
       | c :: sv' => Ok (v, if ceqb c " "%char then sv' else sv)
       | [] => Ok (v, sv)
       end.

Definition deserialize (s : txt) : result doc_op :=
  if size s <? 2 then Throw $"op string too short"
  else
    let type := match s with c :: _ => c | [] => "000"%char end in
    let s := drop 2 s in
    if ceqb type "I"%char then
      match read_uint s with
      | Throw e => Throw e
      | Ok (pos, s) => Ok (insert_op pos s)
      end
    else if ceqb type "D"%char then
      match read_uint s with
      | Throw e => Throw e
      | Ok (pos, s) =>
          match read_uint s with
          | Throw e => Throw e
          | Ok (len, _) => Ok (delete_op pos len)
          end
      end
    else Throw ($"unknown op type '" ++ [type] ++ $"'").

(** ** Apply *)

Definition apply_op (text : txt) (op : doc_op) : txt :=
  match op with
  | insert_op opos otext =>
      if bool_decide (otext = []) then text
      else
        let pos := Z.to_nat (Z.min opos (size text)) in
        take pos text ++ otext ++ drop pos text
  | delete_op opos olen =>
      if olen =? 0 then text
      else
        let pos := Z.min opos (size text) in
        let len := Z.min olen (size text - pos) in
        take (Z.to_nat pos) text ++ drop (Z.to_nat (pos + len)) text
  end.

(** ** Transform *)

Definition transform (a b : doc_op) : doc_op :=
  match a, b with
  | insert_op apos atext, insert_op bpos btext =>
      if bpos <=? apos then insert_op (u64 (apos + size btext)) atext else a
  | insert_op apos atext, delete_op bpos blen =>
      if apos <=? bpos then a
      else if u64 (bpos + blen) <=? apos then insert_op (u64 (apos - blen)) atext
      else insert_op 0 []
  | delete_op apos alen, insert_op bpos btext =>
      if u64 (apos + alen) <=? bpos then a
      else if bpos <=? apos then delete_op (u64 (apos + size btext)) alen
      else delete_op apos (u64 (alen + size btext))
  | delete_op pa la, delete_op pb lb =>
      if u64 (pa + la) <=? pb then a
      else if u64 (pb + lb) <=? pa then delete_op (u64 (pa - lb)) la
      else if (pb <=? pa) && (u64 (pa + la) <=? u64 (pb + lb)) then delete_op 0 0
      else if (pa <=? pb) && (u64 (pb + lb) <=? u64 (pa + la)) then delete_op pa (u64 (la - lb))
      else if pa <? pb then delete_op pa (u64 (pb - pa))
      else delete_op pb (u64 (u64 (u64 (pa + la) - pb) - lb))
  end.

Fixpoint transform_seq (a : doc_op) (committed : list doc_op) : doc_op :=
  match committed with
  | [] => a
  | b :: committed' => transform_seq (transform a b) committed'
  end.

(** * Specification vocabulary *)

(** The fields are [size_t] values. *)
Definition op_u64 (op : doc_op) : Prop :=
  match op with
  | insert_op pos _ => is_u64 pos
  | delete_op pos len => is_u64 pos ∧ is_u64 len
  end.

(** The operation addresses characters of the document. *)
Definition op_valid (doc : txt) (op : doc_op) : Prop :=
  match op with
  | insert_op pos text => 0 ≤ pos ≤ size doc ∧ size text < two63
  | delete_op pos len => 0 ≤ pos ∧ 0 ≤ len ∧ pos + len ≤ size doc
  end.

(** Two inserts at one position whose texts do not commute. *)
Definition same_pos_conflict (a b : doc_op) : Prop :=
  match a, b with
  | insert_op p s, insert_op q t => p = q ∧ s ++ t ≠ t ++ s
  | _, _ => False
  end.

#[export] Instance same_pos_conflict_dec a b : Decision (same_pos_conflict a b).
Proof. destruct a, b; apply _. Defined.

Definition apply_ops (doc : txt) (ops : list doc_op) : txt := foldl apply_op doc ops.

(** [diamond] of the unit tests: both orders of two concurrent operations. *)
Definition diamond (doc : txt) (a b : doc_op) : Prop :=
  apply_op (apply_op doc a) (transform b a) = apply_op (apply_op doc b) (transform a b).

(** The committed operations, each transformed against the pending one. *)
Fixpoint transform_committed (a : doc_op) (committed : list doc_op) : list doc_op :=
  match committed with
  | [] => []
  | b :: committed' => transform b a :: transform_committed (transform a b) committed'
  end.

(** * Lemmas *)

(** ** Applying an operation at a cut of the document *)

Lemma apply_insert_at (x y t d : txt) (p : Z) :
  d = x ++ y → size x = p → apply_op d (insert_op p t) = x ++ t ++ y.
Proof.
  intros -> <-. unfold apply_op. case_if; [by subst|].
  rewrite Z.min_l by (rewrite size_app; pose proof (size_nonneg y); lia).
  by rewrite take_size_app, drop_size_app.
Qed.

Lemma apply_delete_at (x y z d : txt) (p l : Z) :
  d = x ++ y ++ z → size x = p → size y = l → apply_op d (delete_op p l) = x ++ z.
Proof.
  intros -> <- <-. unfold apply_op. case_if.
  { apply (size_0 y) in Ec as ->. done. }
  pose proof (size_nonneg x). pose proof (size_nonneg y). pose proof (size_nonneg z).
  rewrite !size_app. rewrite !Z.min_l by lia.
  rewrite take_size_app, <- size_app, app_assoc, drop_size_app. done.
Qed.

(** The length an operation leaves, clamping included. *)
Lemma apply_op_size d op :
  op_u64 op →
  size (apply_op d op) =
    match op with
    | insert_op _ t => size d + size t
    | delete_op p l => size d - Z.min l (size d - Z.min p (size d))
    end.
Proof.
  intros Hop. pose proof (size_nonneg d). destruct op as [p t|p l]; unfold is_u64, op_u64 in Hop; simpl.
  - case_if; [subst; rewrite size_nil; lia|].
    rewrite !size_app. unfold is_u64, size in *. rewrite length_take, length_drop. lia.
  - unfold is_u64 in Hop. case_if; [subst; lia|].
    rewrite size_app. unfold size in *. rewrite length_take, length_drop. lia.
Qed.

(** ** Transform without wrap-around *)

Ltac xform :=
  unfold transform;
  repeat first
    [ progress no_wrap
    | case_if; try (exfalso; lia) ].

(** Evaluate an application of an operation at the given cut: the first one
    whose document is explicit and for which the cut fits. *)
Ltac ins_at x y :=
  match goal with
  | |- context [apply_op ?d (insert_op ?p ?t)] =>
      lazymatch d with
      | context [apply_op] => fail
      | _ => rewrite (apply_insert_at x y t d p) by first [app_eq | size_lia]
      end
  end.
Ltac del_at x y z :=
  match goal with
  | |- context [apply_op ?d (delete_op ?p ?l)] =>
      lazymatch d with
      | context [apply_op] => fail
      | _ => rewrite (apply_delete_at x y z d p l) by first [app_eq | size_lia]
      end
  end.

Lemma diamond_sym d a b : diamond d a b → diamond d b a.
Proof. unfold diamond. congruence. Qed.

Lemma diamond_insert_lt d p s q t :
  size d < two63 → op_valid d (insert_op p s) → op_valid d (insert_op q t) → p < q →
  diamond d (insert_op p s) (insert_op q t).
Proof.
  intros Hd [Hp Hs] [Hq Ht] Hlt. unfold diamond. pose proof (size_nonneg s).
  destruct (split_at d q) as (xy & z & -> & Hz); [lia|].
  destruct (split_at xy p) as (x & y & -> & Hx); [lia|].
  rewrite !size_app in *. xform.
  ins_at x (y ++ z). ins_at (x ++ s ++ y) z. ins_at (x ++ y) z. ins_at x (y ++ t ++ z). app_eq.
Qed.

Lemma diamond_insert_same d p s t :
  size d < two63 → op_valid d (insert_op p s) → op_valid d (insert_op p t) →
  diamond d (insert_op p s) (insert_op p t) ↔ s ++ t = t ++ s.
Proof.
  intros Hd [Hp Hs] [_ Ht]. unfold diamond.
  pose proof (size_nonneg s). pose proof (size_nonneg t).
  destruct (split_at d p) as (x & y & -> & Hx); [lia|].
  rewrite !size_app in *. xform.
  ins_at x y. ins_at (x ++ s) y. ins_at x y. ins_at (x ++ t) y.
  rewrite <- !app_assoc. split; intros H'.
  - apply app_inv_head in H'. rewrite !app_assoc in H'. by apply app_inv_tail in H'.
  - f_equal. by rewrite !app_assoc, H'.
Qed.

Lemma diamond_insert_delete d p s q l :
  size d < two63 → op_valid d (insert_op p s) → op_valid d (delete_op q l) →
  diamond d (insert_op p s) (delete_op q l).
Proof.
  intros Hd [Hp Hs] (Hq & Hl & Hql). unfold diamond. pose proof (size_nonneg s).
  destruct (Z.le_gt_cases p q) as [Hpq|Hpq]; [|destruct (Z.le_gt_cases (q + l) p) as [Hlp|Hlp]].
  - (* the insertion point is at or before the deletion *)
    destruct (split_at d (q + l)) as (xyz & w & -> & Hw); [lia|].
    destruct (split_at xyz q) as (xy & z & -> & Hz); [lia|].
    destruct (split_at xy p) as (x & y & -> & Hx); [lia|].
    rewrite !size_app in *. ins_at x (y ++ z ++ w). xform.
    + assert (z = []) as -> by (apply size_0; lia).
      del_at (x ++ y) (@nil ascii) w. ins_at x (y ++ w).
      unfold apply_op. case_if; [app_eq|lia].
    + del_at (x ++ s ++ y) z w. del_at (x ++ y) z w. ins_at x (y ++ w). app_eq.
  - (* at or after its end *)
    destruct (split_at d p) as (xyz & w & -> & Hw); [lia|].
    destruct (split_at xyz (q + l)) as (xy & z & -> & Hz); [lia|].
    destruct (split_at xy q) as (x & y & -> & Hx); [lia|].
    rewrite !size_app in *. xform.
    ins_at (x ++ y ++ z) w. del_at x y (z ++ s ++ w). del_at x y (z ++ w). ins_at (x ++ z) w.
    app_eq.
  - (* strictly inside *)
    destruct (split_at d (q + l)) as (xyz & w & -> & Hw); [lia|].
    destruct (split_at xyz p) as (xy & z & -> & Hz); [lia|].
    destruct (split_at xy q) as (x & y & -> & Hx); [lia|].
    rewrite !size_app in *. pose proof (size_nonneg x). xform.
    ins_at (x ++ y) (z ++ w). del_at x (y ++ s ++ z) w. del_at x (y ++ z) w. ins_at (@nil ascii) (x ++ w).
    app_eq.
Qed.

Lemma apply_delete_zero d p : apply_op d (delete_op p 0) = d.
Proof. done. Qed.

Lemma diamond_delete_le d pa la pb lb :
  size d < two63 → op_valid d (delete_op pa la) → op_valid d (delete_op pb lb) → pa ≤ pb →
  diamond d (delete_op pa la) (delete_op pb lb).
Proof.
  intros Hd (Hpa & Hla & Ha) (Hpb & Hlb & Hb) Hle. unfold diamond.
  destruct (Z.eq_dec la 0) as [->|Hla0]; [|destruct (Z.eq_dec lb 0) as [->|Hlb0]].
  - (* [a] deletes nothing *)
    rewrite apply_delete_zero. xform; rewrite ?Z.sub_0_r, ?apply_delete_zero; done.
  - (* [b] deletes nothing *)
    rewrite apply_delete_zero. xform; rewrite ?Z.sub_0_r, ?apply_delete_zero; done.
  - destruct (Z.le_gt_cases (pa + la) pb) as [Hdis|Hov];
      [|destruct (Z.le_gt_cases (pb + lb) (pa + la)) as [Hin|Hout]].
    + (* [a] is entirely before [b] *)
      destruct (split_at d (pb + lb)) as (v & w & -> & Hw); [lia|].
      destruct (split_at v pb) as (u & z & -> & Hz); [lia|].
      destruct (split_at u (pa + la)) as (xa & y & -> & Hy); [lia|].
      destruct (split_at xa pa) as (x & a & -> & Hx); [lia|].
      rewrite !size_app in *. xform.
      del_at x a (y ++ z ++ w). del_at (x ++ y) z w. del_at (x ++ a ++ y) z w. del_at x a (y ++ w).
      app_eq.
    + (* [b] is within [a] *)
      destruct (split_at d (pa + la)) as (v & w & -> & Hw); [lia|].
      destruct (split_at v (pb + lb)) as (u & z & -> & Hz); [lia|].
      destruct (split_at u pb) as (xa & b & -> & Hy); [lia|].
      destruct (split_at xa pa) as (x & a & -> & Hx); [lia|].
      rewrite !size_app in *. pose proof (size_nonneg z). pose proof (size_nonneg a).
      xform; rewrite ?apply_delete_zero.
      * assert (a = []) as -> by (apply size_0; lia). assert (z = []) as -> by (apply size_0; lia).
        del_at x b w. del_at x b w. app_eq.
      * del_at x (a ++ b ++ z) w. del_at (x ++ a) b (z ++ w). del_at x (a ++ z) w. app_eq.
    + (* [b] starts inside [a] and ends after it *)
      destruct (split_at d (pb + lb)) as (v & w & -> & Hw); [lia|].
      destruct (split_at v (pa + la)) as (u & z & -> & Hz); [lia|].
      destruct (split_at u pb) as (xa & b & -> & Hy); [lia|].
      destruct (split_at xa pa) as (x & a & -> & Hx); [lia|].
      rewrite !size_app in *. pose proof (size_nonneg a).
      xform; rewrite ?apply_delete_zero.
      * assert (a = []) as -> by (apply size_0; lia).
        del_at x b (z ++ w). del_at x z w. del_at x (b ++ z) w. app_eq.
      * del_at x (a ++ b) (z ++ w). del_at x z w. del_at (x ++ a) (b ++ z) w. del_at x a w. app_eq.
Qed.

(** Concurrent operations inside the document commute up to [transform],
    unless they insert texts that do not commute at one position. *)
Lemma diamond_holds d a b :
  size d < two63 → op_valid d a → op_valid d b → ¬ same_pos_conflict a b → diamond d a b.
Proof.
  intros Hd Ha Hb Hc. destruct a as [p s|pa la], b as [q t|pb lb].
  - destruct (Z.lt_total p q) as [Hlt|[->|Hlt]].
    + by apply diamond_insert_lt.
    + apply diamond_insert_same; [done..|]. destruct (decide (s ++ t = t ++ s)); [done|].
      exfalso. by apply Hc.
    + by apply diamond_sym, diamond_insert_lt.
  - by apply diamond_insert_delete.
  - by apply diamond_sym, diamond_insert_delete.
  - destruct (Z.le_ge_cases pa pb); [|apply diamond_sym]; by apply diamond_delete_le.
Qed.

(** ** Transformed operations stay inside the document *)

Lemma apply_insert_size d p s : op_valid d (insert_op p s) →
  size (apply_op d (insert_op p s)) = size d + size s.
Proof.
  intros [Hp _]. destruct (split_at d p) as (x & y & -> & Hx); [lia|].
  ins_at x y. rewrite !size_app. lia.
Qed.

Lemma apply_delete_size d p l : op_valid d (delete_op p l) →
  size (apply_op d (delete_op p l)) = size d - l.
Proof.
  intros (Hp & Hl & Hpl). destruct (split_at d (p + l)) as (v & w & -> & Hw); [lia|].
  destruct (split_at v p) as (x & y & -> & Hx); [lia|]. rewrite !size_app in *.
  del_at x y w. rewrite !size_app. lia.
Qed.

Lemma transform_valid_in d a b :
  size d < two63 → op_valid d a → op_valid d b → op_valid (apply_op d b) (transform a b).
Proof.
  intros Hd Ha Hb. pose proof (size_nonneg d).
  destruct b as [q t|q l].
  - pose proof (apply_insert_size _ _ _ Hb) as Hs. destruct Hb as [Hq Ht].
    pose proof (size_nonneg t).
    destruct a as [p s|p k]; unfold op_valid in Ha; xform; unfold op_valid; rewrite ?Hs; width_lia.
  - pose proof (apply_delete_size _ _ _ Hb) as Hs. destruct Hb as (Hq & Hl & Hql).
    destruct a as [p s|p k]; unfold op_valid in Ha; xform; unfold op_valid; rewrite ?Hs;
      try change (size (@nil ascii)) with 0; width_lia.
Qed.

(** A pending operation and a run of committed ones: applying it before or
    after them gives one document, if each side is transformed against the
    other. *)
Lemma diamond_seq_holds d a bs :
  op_valid d a →
  (∀ i b, bs !! i = Some b →
     let ai := transform_seq a (take i bs) in
     let di := apply_ops d (take i bs) in
     size di < two63 ∧ op_valid di b ∧ ¬ same_pos_conflict ai b) →
  apply_op (apply_ops d bs) (transform_seq a bs) =
  apply_ops (apply_op d a) (transform_committed a bs).
Proof.
  revert d a. induction bs as [|b bs IH]; intros d a Ha Hbs; simpl; [done|].
  destruct (Hbs 0%nat b eq_refl) as (Hd & Hb & Hc). simpl in *.
  rewrite (diamond_holds d a b) by done. apply IH.
  - by apply transform_valid_in.
  - intros i b' Hi. exact (Hbs (S i) b' Hi).
Qed.

(** ** Parsing what was printed *)

Lemma read_uint_loop_digits ds rest v got :
  Forall (λ c, is_digit c = true) ds → no_digit_first rest →
  read_uint_loop (ds ++ rest) (u64 v) got =
    (u64 (dec_value_from v ds), got || negb (bool_decide (ds = [])), rest).
Proof.
  intros Hds Hr. revert v got. induction Hds as [|c ds Hc _ IH]; intros v got.
  - simpl. rewrite orb_false_r. destruct rest as [|c rest]; simpl in *; [done|]. by rewrite Hr.
  - simpl. rewrite Hc. rewrite u64_mul_idemp_l, u64_add_idemp_l, IH.
    rewrite orb_true_l, orb_true_r. done.
Qed.

(** [read_uint] reads the value modulo 2^64, then one space if there is one. *)
Lemma read_uint_digits ds rest :
  ds ≠ [] → Forall (λ c, is_digit c = true) ds → no_digit_first rest →
  read_uint (ds ++ rest) =
    Ok (u64 (dec_value ds),
        match rest with c :: r => if ceqb c " "%char then r else rest | [] => [] end).
Proof.
  intros Hn Hds Hr. unfold read_uint. change 0 with (u64 0) at 1.
  rewrite read_uint_loop_digits by done. rewrite bool_decide_eq_false_2 by done. simpl.
  by destruct rest.
Qed.

Lemma read_uint_dec z rest :
  is_u64 z → no_digit_first rest →
  read_uint (dec z ++ rest) =
    Ok (z, match rest with c :: r => if ceqb c " "%char then r else rest | [] => [] end).
Proof.
  intros Hz Hr. destruct (dec_spec z Hz) as (Hn & Hd & Hv).
  rewrite read_uint_digits, Hv by done. by rewrite u64_small.
Qed.

(** ** The accepted wire format *)

Definition skip_space (s : txt) : txt :=
  match s with c :: r => if ceqb c " "%char then r else s | [] => [] end.

(** Texts [deserialize] accepts: a type letter, any one character, a number
    (taken modulo 2^64), at most one space; then the inserted text, or a
    second number followed by anything. *)
Inductive wire : txt → doc_op → Prop :=
  | wire_insert (c : ascii) (ds rest : txt) :
      ds ≠ [] → Forall (λ c, is_digit c = true) ds → no_digit_first rest →
      wire ("I"%char :: c :: ds ++ rest) (insert_op (u64 (dec_value ds)) (skip_space rest))
  | wire_delete (c : ascii) (ds rest es rest' : txt) :
      ds ≠ [] → Forall (λ c, is_digit c = true) ds → no_digit_first rest →
      es ≠ [] → Forall (λ c, is_digit c = true) es → no_digit_first rest' →
      skip_space rest = es ++ rest' →
      wire ("D"%char :: c :: ds ++ rest) (delete_op (u64 (dec_value ds)) (u64 (dec_value es))).

Lemma digit_run_split s :
  ∃ ds rest, s = ds ++ rest ∧ Forall (λ c, is_digit c = true) ds ∧ no_digit_first rest.
Proof.
  induction s as [|c s (ds & rest & -> & Hds & Hr)].
  - exists [], []. by repeat constructor.
  - destruct (is_digit c) eqn:Hc.
    + exists (c :: ds), rest. split_and!; [done|by constructor|done].
    + exists [], (c :: ds ++ rest). by repeat constructor.
Qed.

Lemma read_uint_Ok s v rest' :
  read_uint s = Ok (v, rest') →
  ∃ ds rest, s = ds ++ rest ∧ ds ≠ [] ∧ Forall (λ c, is_digit c = true) ds ∧
    no_digit_first rest ∧ v = u64 (dec_value ds) ∧ rest' = skip_space rest.
Proof.
  destruct (digit_run_split s) as (ds & rest & -> & Hds & Hr). intros H.
  destruct ds as [|d ds].
  - unfold read_uint in H. simpl in H. destruct rest as [|c rest]; simpl in *; [done|].
    by rewrite Hr in H.
  - rewrite read_uint_digits in H by done. simplify_eq.
    exists (d :: ds), rest. done.
Qed.

Lemma deserialize_head c d s :
  deserialize (c :: d :: s) =
    (if ceqb c "I"%char then
       match read_uint s with Throw e => Throw e | Ok (pos, s) => Ok (insert_op pos s) end
     else if ceqb c "D"%char then
       match read_uint s with
       | Throw e => Throw e
       | Ok (pos, s) =>
           match read_uint s with Throw e => Throw e | Ok (len, _) => Ok (delete_op pos len) end
       end
     else Throw ($"unknown op type '" ++ [c] ++ $"'")).
Proof.
  unfold deserialize. rewrite !size_cons.
  assert (1 + (1 + size s) <? 2 = false) as ->; [|done].
  apply Z.ltb_ge. pose proof (size_nonneg s). lia.
Qed.

Lemma deserialize_short s : size s < 2 → deserialize s = Throw $"op string too short".
Proof. intros H. unfold deserialize. by assert (size s <? 2 = true) as -> by lia. Qed.

Lemma deserialize_wire s op : deserialize s = Ok op ↔ wire s op.
Proof.
  split.
  - destruct s as [|c [|d s]]; [done..|]. rewrite deserialize_head. case_if.
    { apply ceqb_eq in Ec as ->. destruct (read_uint s) as [[pos s']|] eqn:E; [|done].
      intros [= <-]. apply read_uint_Ok in E as (ds & rest & -> & ? & ? & ? & -> & ->).
      by apply wire_insert. }
    case_if; [|done]. apply ceqb_eq in Ec0 as ->.
    destruct (read_uint s) as [[pos s']|] eqn:E; [|done].
    destruct (read_uint s') as [[len s'']|] eqn:E'; [|done]. intros [= <-].
    apply read_uint_Ok in E as (ds & rest & -> & ? & ? & ? & -> & ->).
    apply read_uint_Ok in E' as (es & rest' & Heq & ? & ? & ? & -> & _).
    by eapply wire_delete.
  - intros [c ds rest Hn Hds Hr | c ds rest es rest' Hn Hds Hr Hn' Hes Hr' Heq];
      rewrite deserialize_head.
    + by rewrite ceqb_refl, read_uint_digits.
    + assert (ceqb "D"%char "I"%char = false) as -> by done.
      rewrite ceqb_refl, read_uint_digits by done.
      fold (skip_space rest). by rewrite Heq, read_uint_digits.
Qed.

Lemma serialize_deserialize op : op_u64 op → deserialize (serialize op) = Ok op.
Proof.
  intros Hop. destruct op as [p t|p l]; simpl in Hop; apply deserialize_wire.
  - destruct (dec_spec p Hop) as (Hn & Hd & Hv).
    rewrite <- (u64_small p Hop) at 2. rewrite <- Hv at 2.
    apply (wire_insert " "%char (dec p) ($" " ++ t)); done.
  - destruct Hop as [Hp Hl]. destruct (dec_spec p Hp) as (Hn & Hd & Hv).
    destruct (dec_spec l Hl) as (Hn' & Hd' & Hv').
    rewrite <- (u64_small p Hp) at 2. rewrite <- Hv at 2.
    rewrite <- (u64_small l Hl) at 2. rewrite <- Hv' at 2.
    apply (wire_delete " "%char (dec p) ($" " ++ dec l) (dec l) []); try done.
    by rewrite app_nil_r.
Qed.

(** * Properties *)

(** C4 The diamond property of [transform]: for two operations inside the
    document, applying [a] then [b] transformed against [a] gives the same
    text as applying [b] then [a] transformed against [b], exactly when they
    are not two inserts at one position with texts that do not commute.  The
    exception is the tie-break limitation the header of [doc_ops.hh] states. *)
Theorem transform_diamond (doc : txt) (a b : doc_op) :
  size doc < two63 → op_valid doc a → op_valid doc b →
  diamond doc a b ↔ ¬ same_pos_conflict a b.
Proof.
  intros Hd Ha Hb. split; [|by apply diamond_holds].
  intros Hdia Hc. destruct a as [p s|], b as [q t|]; try done.
  destruct Hc as [-> Hne]. apply Hne. by apply (diamond_insert_same doc q).
Qed.

Lemma transform_diamond_witness :
  diamond $"ABCDE" (insert_op 3 $"XY") (delete_op 1 3) ∧
  ¬ diamond $"ABCDE" (insert_op 2 $"XY") (insert_op 2 $"PQ").
Proof.
  split.
  - apply (transform_diamond $"ABCDE" (insert_op 3 $"XY") (delete_op 1 3)); vm_compute; intuition congruence.
  - intros H. apply (transform_diamond $"ABCDE" (insert_op 2 $"XY") (insert_op 2 $"PQ")) in H;
      vm_compute in *; intuition congruence.
Defined.

(** An operation inside the document, transformed against a committed
    operation inside the same document, lies inside the document the committed
    operation leaves: [apply_op] never has to clamp it. *)
Theorem transform_valid (doc : txt) (a b : doc_op) :
  size doc < two63 → op_valid doc a → op_valid doc b →
  op_valid (apply_op doc b) (transform a b).
Proof. apply transform_valid_in. Qed.

Lemma transform_valid_witness :
  op_valid (apply_op $"ABCDE" (delete_op 0 4)) (transform (delete_op 2 3) (delete_op 0 4)).
Proof. apply transform_valid; vm_compute; intuition congruence. Defined.

(** The diamond extends to a whole run of committed operations, which is
    what [transform_seq] folds over: the pending operation transformed against
    the run lands where it would have, had it been applied first and the run
    been transformed against it. *)
Theorem transform_seq_diamond (doc : txt) (a : doc_op) (committed : list doc_op) :
  op_valid doc a →
  (∀ i b, committed !! i = Some b →
     let ai := transform_seq a (take i committed) in
     let di := apply_ops doc (take i committed) in
     size di < two63 ∧ op_valid di b ∧ ¬ same_pos_conflict ai b) →
  apply_op (apply_ops doc committed) (transform_seq a committed) =
  apply_ops (apply_op doc a) (transform_committed a committed).
Proof. apply diamond_seq_holds. Qed.

Lemma transform_seq_diamond_witness :
  apply_op (apply_ops $"ABC" [insert_op 1 $"X"; delete_op 3 1])
    (transform_seq (insert_op 2 $"Z") [insert_op 1 $"X"; delete_op 3 1]) =
  apply_ops (apply_op $"ABC" (insert_op 2 $"Z"))
    (transform_committed (insert_op 2 $"Z") [insert_op 1 $"X"; delete_op 3 1]).
Proof.
  apply transform_seq_diamond; [vm_compute; intuition congruence|].
  intros [|[|i]] b; simpl; intros [= <-]; vm_compute; intuition congruence.
Defined.

(** C40 What [serialize] writes, [deserialize] reads back, for every position,
    length and text an operation can hold. *)
Theorem serialize_roundtrip (op : doc_op) : op_u64 op → deserialize (serialize op) = Ok op.
Proof. apply serialize_deserialize. Qed.

Lemma serialize_roundtrip_witness :
  deserialize (serialize (insert_op 18446744073709551615 $" 7 x")) =
    Ok (insert_op 18446744073709551615 $" 7 x").
Proof. apply serialize_roundtrip. vm_compute. intuition congruence. Defined.

(** [deserialize] succeeds exactly on the wire format [wire], and then with
    the operation it denotes; on every other text it throws. *)
Theorem deserialize_accepts (s : txt) (op : doc_op) : deserialize s = Ok op ↔ wire s op.
Proof. apply deserialize_wire. Qed.

(** [apply_op] on any operation, in range or not: an insert adds all its
    text, a delete removes what its clamped range covers, and nothing else
    changes size. *)
Theorem apply_op_clamps (text : txt) (op : doc_op) :
  op_u64 op →
  size (apply_op text op) =
    match op with
    | insert_op _ t => size text + size t
    | delete_op p l => size text - Z.min l (size text - Z.min p (size text))
    end.
Proof. apply apply_op_size. Qed.

Lemma apply_op_clamps_witness :
  size (apply_op $"ABCDE" (delete_op 3 18446744073709551615)) = 3.
Proof.
  etransitivity; [apply (apply_op_clamps $"ABCDE" (delete_op 3 18446744073709551615))|];
    vm_compute; intuition congruence.
Defined.
