(* ===== verification/PancyDb.v ===== *)
(** The Pancy key-value store: messages of [src/pset4/pancy_msgs.hh], the
    database of [pancydb.hh] and [pancydb.cc].

    [db_] is an ordered map from keys to versioned values, [next_version_] the
    counter every successful modification advances, [recent_removes_] the
    deque of the last removals that [diff] consults.  Versions are [int64_t];
    the counter is assumed not to reach [2^63] (signed overflow has no
    defined result), which [db_wf] records. *)

From S2P Require Import Prelude SMap.

(** * Messages *)

Definition nonexistent_version : Z := 0.
Definition any_version : Z := -1.

Inductive errc := ok | not_found | no_match | redirect.

#[export] Instance errc_eq_dec : EqDecision errc.
Proof. solve_decision. Defined.

Inductive request :=
  | get_request (serial : Z) (key : txt)
  | put_request (serial : Z) (key value : txt) (version_match : Z)
  | cas_request (serial : Z) (key expected desired : txt) (version_match : Z)
  | remove_request (serial : Z) (key : txt) (version_match : Z).

Inductive response :=
  | redirection_response (serial : Z) (errcode : errc) (redirection : nat)
  | get_response (serial : Z) (errcode : errc) (value : txt) (version : Z)
  | put_response (serial : Z) (errcode : errc) (actual : txt) (previous_version version : Z)
  | cas_response (serial : Z) (errcode : errc) (actual : txt) (previous_version version : Z)
  | remove_response (serial : Z) (errcode : errc) (actual : txt) (previous_version version : Z).

#[export] Instance request_eq_dec : EqDecision request.
Proof. solve_decision. Defined.
#[export] Instance response_eq_dec : EqDecision response.
Proof. solve_decision. Defined.

Definition message_serial (m : request) : Z :=
  match m with
  | get_request serial _ | put_request serial _ _ _
  | cas_request serial _ _ _ _ | remove_request serial _ _ => serial
  end.

Definition response_serial (m : response) : Z :=
  match m with
  | redirection_response serial _ _ | get_response serial _ _ _
  | put_response serial _ _ _ _ | cas_response serial _ _ _ _
  | remove_response serial _ _ _ _ => serial
  end.

Definition response_errcode (m : response) : errc :=
  match m with
  | redirection_response _ e _ | get_response _ e _ _
  | put_response _ e _ _ _ | cas_response _ e _ _ _
  | remove_response _ e _ _ _ => e
  end.

(** [response_header(req, errcode)]: the serial and the error code a response
    to [req] starts with. *)
Definition response_header (req : request) (errcode : errc) : Z * errc :=
  (message_serial req, errcode).

(** * The database *)

Record vv := mk_vv { vv_value : txt; vv_version : Z }.

#[export] Instance vv_eq_dec : EqDecision vv.
Proof. solve_decision. Defined.

Definition nonexistent_vv : vv := mk_vv [] nonexistent_version.

Record recent_remove := mk_recent_remove {
  rr_key : txt;
  rr_vv : vv;
  rr_remove_version : Z;
}.

Record pancydb := mk_pancydb {
  next_version_ : Z;
  db_ : smap txt vv;
  recent_removes_ : list recent_remove;
}.

Definition empty_db : pancydb := mk_pancydb 1 [] [].

Definition max_recent_removes : nat := 100.

Definition find_vvptr (d : pancydb) (key : txt) : vv :=
  match find key (db_ d) with Some v => v | None => nonexistent_vv end.

(** [emplace_vvptr]: the new map, the cell at [key], and whether it was
    inserted; an existing cell is left as it is. *)
Definition emplace_vvptr (d : pancydb) (key value : txt) : pancydb * vv * bool :=
  let cell := mk_vv value (next_version_ d) in
  match find key (db_ d) with
  | Some v => (d, v, false)
  | None => (mk_pancydb (next_version_ d) (emplace key cell (db_ d)) (recent_removes_ d), cell, true)
  end.

Definition bump_version (d : pancydb) : pancydb :=
  mk_pancydb (next_version_ d + 1) (db_ d) (recent_removes_ d).

(** Writing through the pointer [find_vvptr] returned for an existing key. *)
Definition write_vv (d : pancydb) (key : txt) (v : vv) : pancydb :=
  mk_pancydb (next_version_ d) (assign key v (db_ d)) (recent_removes_ d).

Definition do_remove (d : pancydb) (key : txt) (v : vv) : pancydb :=
  mk_pancydb (next_version_ d + 1) (erase key (db_ d))
    (take max_recent_removes (mk_recent_remove key v (next_version_ d) :: recent_removes_ d)).

(** ** Direct interface *)

Definition version (d : pancydb) (key : txt) : Z := vv_version (find_vvptr d key).
Definition exists_key (d : pancydb) (key : txt) : bool := contains key (db_ d).

Definition get (d : pancydb) (key : txt) : option vv :=
  let vvp := find_vvptr d key in
  if vv_version vvp =? 0 then None else Some vvp.

Definition put (d : pancydb) (key value : txt) : pancydb :=
  let '(d', vvp, inserted) := emplace_vvptr d key value in
  let d'' := if negb inserted then write_vv d' key (mk_vv value (next_version_ d')) else d' in
  bump_version d''.

Definition remove (d : pancydb) (key : txt) : pancydb * bool :=
  match find key (db_ d) with
  | None => (d, false)
  | Some v => (do_remove d key v, true)
  end.

(** ** Message interface *)

(** The fields of a modification response after the serial. *)
Definition modification := (errc * txt * Z * Z)%type.

Definition mod_no_match (vvp : vv) : modification :=
  (no_match, vv_value vvp, vv_version vvp, vv_version vvp).
Definition mod_ok (previous_version : Z) (vvp : vv) : modification :=
  (ok, [], previous_version, vv_version vvp).

(** [version_match >= 0 && version_match != version]. *)
Definition version_mismatch (version_match version : Z) : bool :=
  (0 <=? version_match) && negb (version_match =? version).

Definition process_get (d : pancydb) (key : txt) : errc * txt * Z :=
  let vvp := find_vvptr d key in
  (ok, vv_value vvp, vv_version vvp).

(** What [put_request] and [cas_request] do once their test has passed. *)
Definition store (d : pancydb) (vvp : vv) (key value : txt) : pancydb * modification :=
  if vv_version vvp =? nonexistent_version then
    let '(d', vvp', _) := emplace_vvptr d key value in
    (bump_version d', mod_ok nonexistent_version vvp')
  else
    let previous_version := vv_version vvp in
    let vvp' := mk_vv value (next_version_ d) in
    (bump_version (write_vv d key vvp'), mod_ok previous_version vvp').

Definition process_put (d : pancydb) (key value : txt) (version_match : Z) : pancydb * modification :=
  let vvp := find_vvptr d key in
  if version_mismatch version_match (vv_version vvp) then (d, mod_no_match vvp)
  else store d vvp key value.

Definition process_cas (d : pancydb) (key expected desired : txt) (version_match : Z) :
    pancydb * modification :=
  let vvp := find_vvptr d key in
  if negb (teqb expected (vv_value vvp)) || version_mismatch version_match (vv_version vvp)
  then (d, mod_no_match vvp)
  else store d vvp key desired.

Definition process_remove (d : pancydb) (key : txt) (version_match : Z) : pancydb * modification :=
  match find key (db_ d) with
  | None => (d, (not_found, [], nonexistent_version, nonexistent_version))
  | Some v =>
      if version_mismatch version_match (vv_version v) then (d, mod_no_match v)
      else
        let previous_version := vv_version v in
        (do_remove d key v, mod_ok previous_version nonexistent_vv)
  end.

Definition process_req (d : pancydb) (req : request) : pancydb * response :=
  match req with
  | get_request serial key =>
      let '(e, value, version) := process_get d key in
      (d, get_response serial e value version)
  | put_request serial key value vm =>
      let '(d', (e, actual, prev, version)) := process_put d key value vm in
      (d', put_response serial e actual prev version)
  | cas_request serial key expected desired vm =>
      let '(d', (e, actual, prev, version)) := process_cas d key expected desired vm in
      (d', cas_response serial e actual prev version)
  | remove_request serial key vm =>
      let '(d', (e, actual, prev, version)) := process_remove d key vm in
      (d', remove_response serial e actual prev version)
  end.

(** ** Comparing databases *)

Fixpoint find_recent_remove (rrs : list recent_remove) (desired : txt) (min_version : Z) : option vv :=
  match rrs with
  | [] => None
  | rr :: rrs' =>
      if teqb (rr_key rr) desired && (min_version <=? rr_remove_version rr)
      then Some (rr_vv rr) else find_recent_remove rrs' desired min_version
  end.

(** The test of [diff] on the two cells found for one key: [true] is an error. *)
Definition versions_differ (a_removes_complete : bool) (min_version : Z) (avvp bvvp : option vv) : bool :=
  match avvp, bvvp with
  | Some a, None => negb (min_version <=? vv_version a)
  | None, _ => a_removes_complete
  | Some a, Some b =>
      (vv_version a <? vv_version b)
      || ((vv_version b <? vv_version a) && (vv_version a <? min_version))
      || ((vv_version a =? vv_version b) && negb (teqb (vv_value a) (vv_value b)))
  end.

(** The merge of the two iterations; [None] when no key differs. *)
Fixpoint diff_loop (arr brr : list recent_remove) (complete : bool) (min_version : Z)
    (ait bit : smap txt vv) {struct ait} : option txt :=
  (fix inner (bit : smap txt vv) : option txt :=
     match ait, bit with
     | [], [] => None
     | (ka, va) :: ait', [] =>
         if versions_differ complete min_version (Some va) (find_recent_remove brr ka min_version)
         then Some ka else diff_loop arr brr complete min_version ait' []
     | [], (kb, vb) :: bit' =>
         if versions_differ complete min_version (find_recent_remove arr kb min_version) (Some vb)
         then Some kb else inner bit'
     | (ka, va) :: ait', (kb, vb) :: bit' =>
         if kltb ka kb then
           if versions_differ complete min_version (Some va) (find_recent_remove brr ka min_version)
           then Some ka else diff_loop arr brr complete min_version ait' bit
         else if kltb kb ka then
           if versions_differ complete min_version (find_recent_remove arr kb min_version) (Some vb)
           then Some kb else inner bit'
         else
           if versions_differ complete min_version (Some va) (Some vb)
           then Some ka else diff_loop arr brr complete min_version ait' bit'
     end) bit.

(** [a.diff(b, skew)] once [a] is the database with the larger counter. *)
Definition diff_newer (a b : pancydb) (version_skew : Z) : option txt :=
  let min_version := i64 (next_version_ a - version_skew) in
  let a_removes_complete :=
    (length (recent_removes_ a) <? max_recent_removes)%nat
    || match last (recent_removes_ a) with
       | Some rr => rr_remove_version rr <=? min_version
       | None => true
       end in
  diff_loop (recent_removes_ a) (recent_removes_ b) a_removes_complete min_version (db_ a) (db_ b).

Definition diff (a b : pancydb) (version_skew : Z) : option txt :=
  if next_version_ a <? next_version_ b then diff_newer b a version_skew
  else diff_newer a b version_skew.

(** * Invariant and abstract specification *)

Record db_wf (d : pancydb) : Prop := {
  wf_keys : wf (db_ d);
  wf_next : 1 ≤ next_version_ d;
  wf_versions : ∀ k v, find k (db_ d) = Some v → 0 < vv_version v < next_version_ d;
  wf_distinct : ∀ k1 k2 v1 v2,
    find k1 (db_ d) = Some v1 → find k2 (db_ d) = Some v2 →
    vv_version v1 = vv_version v2 → k1 = k2;
  wf_removes : Forall (λ rr, 0 < rr_remove_version rr < next_version_ d) (recent_removes_ d);
  wf_removes_len : (length (recent_removes_ d) ≤ max_recent_removes)%nat;
}.

(** What a client may rely on: a finite map from keys to versioned values and
    one counter.  Every successful modification stamps its cell with the
    counter and advances it. *)
Record spec_state := mk_spec_state { sp_next : Z; sp_map : gmap txt vv }.

Definition spec_cell (s : spec_state) (k : txt) : vv := default nonexistent_vv (sp_map s !! k).

Definition spec_write (s : spec_state) (k value : txt) : spec_state :=
  mk_spec_state (sp_next s + 1) (<[k := mk_vv value (sp_next s)]> (sp_map s)).

Definition spec_step (s : spec_state) (req : request) : spec_state * response :=
  let refuse cell := (no_match, vv_value cell, vv_version cell, vv_version cell) in
  match req with
  | get_request serial k =>
      (s, get_response serial ok (vv_value (spec_cell s k)) (vv_version (spec_cell s k)))
  | put_request serial k value vm =>
      let cell := spec_cell s k in
      if decide (0 ≤ vm ∧ vm ≠ vv_version cell)
      then (s, put_response serial no_match (vv_value cell) (vv_version cell) (vv_version cell))
      else (spec_write s k value, put_response serial ok [] (vv_version cell) (sp_next s))
  | cas_request serial k expected desired vm =>
      let cell := spec_cell s k in
      if decide (expected ≠ vv_value cell ∨ 0 ≤ vm ∧ vm ≠ vv_version cell)
      then (s, cas_response serial no_match (vv_value cell) (vv_version cell) (vv_version cell))
      else (spec_write s k desired, cas_response serial ok [] (vv_version cell) (sp_next s))
  | remove_request serial k vm =>
      match sp_map s !! k with
      | None => (s, remove_response serial not_found [] 0 0)
      | Some cell =>
          if decide (0 ≤ vm ∧ vm ≠ vv_version cell)
          then (s, remove_response serial no_match (vv_value cell) (vv_version cell) (vv_version cell))
          else (mk_spec_state (sp_next s + 1) (delete k (sp_map s)),
                remove_response serial ok [] (vv_version cell) 0)
      end
  end.

Definition abs (d : pancydb) : spec_state :=
  mk_spec_state (next_version_ d) (list_to_map (db_ d)).

(** * Lemmas *)

Lemma lookup_list_to_map (m : smap txt vv) k : (list_to_map m : gmap txt vv) !! k = find k m.
Proof.
  induction m as [|[k' v] m IH]; simpl; [done|]. case_if.
  - apply keqb_true in Ec as ->. by rewrite lookup_insert_eq.
  - apply keqb_false in Ec. by rewrite lookup_insert_ne.
Qed.

Lemma abs_assign (m : smap txt vv) k v :
  (list_to_map (assign k v m) : gmap txt vv) = <[k := v]> (list_to_map m).
Proof.
  apply map_eq. intros j. rewrite lookup_list_to_map. destruct (decide (j = k)) as [->|].
  - by rewrite find_assign_eq, lookup_insert_eq.
  - by rewrite find_assign_ne, lookup_insert_ne, lookup_list_to_map.
Qed.

Lemma abs_erase (m : smap txt vv) k :
  wf m → (list_to_map (erase k m) : gmap txt vv) = delete k (list_to_map m).
Proof.
  intros Hwf. apply map_eq. intros j. rewrite lookup_list_to_map.
  destruct (decide (j = k)) as [->|].
  - by rewrite find_erase_eq, lookup_delete_eq.
  - by rewrite find_erase_ne, lookup_delete_ne, lookup_list_to_map.
Qed.

Lemma emplace_fresh (m : smap txt vv) k v : find k m = None → emplace k v m = assign k v m.
Proof. intros H. unfold emplace. apply contains_false in H. by rewrite H. Qed.

Lemma spec_cell_abs d k : spec_cell (abs d) k = find_vvptr d k.
Proof.
  unfold spec_cell, abs, find_vvptr. simpl. rewrite lookup_list_to_map.
  by destruct (find k (db_ d)).
Qed.

Lemma find_vvptr_version d k :
  db_wf d → vv_version (find_vvptr d k) = nonexistent_version ↔ find k (db_ d) = None.
Proof.
  intros Hwf. unfold find_vvptr. destruct (find k (db_ d)) eqn:E; [|done].
  apply (wf_versions d Hwf) in E. unfold nonexistent_version. split; [lia|done].
Qed.

(** [store] writes the cell, whether it existed or not. *)
Lemma store_eq d key value :
  db_wf d →
  store d (find_vvptr d key) key value =
    (mk_pancydb (next_version_ d + 1) (assign key (mk_vv value (next_version_ d)) (db_ d))
       (recent_removes_ d),
     (ok, [], vv_version (find_vvptr d key), next_version_ d)).
Proof.
  intros Hwf. unfold store. case_if.
  - apply find_vvptr_version in Ec as E; [|done].
    unfold emplace_vvptr. rewrite E, emplace_fresh by done. unfold mod_ok. simpl. by rewrite Ec.
  - done.
Qed.

Lemma version_mismatch_true vm v : version_mismatch vm v = true ↔ 0 ≤ vm ∧ vm ≠ v.
Proof. unfold version_mismatch. rewrite andb_true_iff, negb_true_iff. lia. Qed.

Lemma cas_test expected value vm v :
  negb (teqb expected value) || version_mismatch vm v = true ↔
  expected ≠ value ∨ 0 ≤ vm ∧ vm ≠ v.
Proof.
  unfold teqb. rewrite orb_true_iff, negb_true_iff, bool_decide_eq_false.
  by rewrite version_mismatch_true.
Qed.

Lemma abs_store d key value :
  abs (mk_pancydb (next_version_ d + 1) (assign key (mk_vv value (next_version_ d)) (db_ d))
         (recent_removes_ d)) = spec_write (abs d) key value.
Proof. unfold abs, spec_write. simpl. by rewrite abs_assign. Qed.

Lemma process_req_spec d req :
  db_wf d → (abs (process_req d req).1, (process_req d req).2) = spec_step (abs d) req.
Proof.
  intros Hwf. destruct req as [serial k|serial k value vm|serial k expected desired vm|serial k vm];
    unfold process_req, spec_step; rewrite ?spec_cell_abs.
  - done.
  - unfold process_put. case_if.
    + apply version_mismatch_true in Ec. by rewrite decide_True.
    + rewrite decide_False by (rewrite <- version_mismatch_true, Ec; done).
      rewrite store_eq by done. simpl. by rewrite <- abs_store.
  - unfold process_cas. destruct (negb (teqb expected _) || _) eqn:Ec.
    + apply cas_test in Ec. by rewrite decide_True.
    + rewrite decide_False by (rewrite <- cas_test, Ec; done).
      rewrite store_eq by done. simpl. by rewrite <- abs_store.
  - unfold process_remove. simpl. rewrite lookup_list_to_map.
    destruct (find k (db_ d)) as [v|] eqn:E; [|done].
    case_if.
    + apply version_mismatch_true in Ec. by rewrite decide_True.
    + rewrite decide_False by (rewrite <- version_mismatch_true, Ec; done).
      unfold abs, do_remove. simpl. by rewrite abs_erase by apply Hwf.
Qed.

(** ** The invariant is kept *)

Lemma empty_db_wf : db_wf empty_db.
Proof. split; simpl; try done; try (by constructor); unfold max_recent_removes; lia. Qed.

Lemma assign_wf d key value :
  db_wf d →
  db_wf (mk_pancydb (next_version_ d + 1) (assign key (mk_vv value (next_version_ d)) (db_ d))
           (recent_removes_ d)).
Proof.
  intros [Hk Hn Hv Hd Hr Hl]. split; simpl.
  - by apply wf_assign.
  - lia.
  - intros k v Hf. destruct (decide (k = key)) as [->|].
    + rewrite find_assign_eq in Hf. simplify_eq. simpl. lia.
    + rewrite find_assign_ne in Hf by done. apply Hv in Hf. lia.
  - intros k1 k2 v1 v2 H1 H2 Heq.
    destruct (decide (k1 = key)) as [->|], (decide (k2 = key)) as [->|]; try done;
      rewrite ?find_assign_eq in H1; rewrite ?find_assign_eq in H2;
      rewrite ?find_assign_ne in H1 by done; rewrite ?find_assign_ne in H2 by done;
      simplify_eq; simpl in *.
    + apply Hv in H2. lia.
    + apply Hv in H1. lia.
    + by eapply Hd.
  - eapply Forall_impl; [exact Hr|]. simpl. intros. lia.
  - done.
Qed.

Lemma do_remove_wf d key v : db_wf d → db_wf (do_remove d key v).
Proof.
  intros [Hk Hn Hv Hd Hr Hl].
  assert (Hsub : ∀ k w, find k (erase key (db_ d)) = Some w → find k (db_ d) = Some w).
  { intros k w Hf. destruct (decide (k = key)) as [->|].
    - by rewrite find_erase_eq in Hf.
    - by rewrite find_erase_ne in Hf. }
  split; unfold do_remove; cbn [next_version_ db_ recent_removes_].
  - by apply wf_erase.
  - lia.
  - intros k w Hf. apply Hsub, Hv in Hf. lia.
  - intros k1 k2 v1 v2 H1%Hsub H2%Hsub. by eapply Hd.
  - apply Forall_take. constructor; [simpl; lia|].
    eapply Forall_impl; [exact Hr|]. simpl. intros. lia.
  - rewrite length_take. lia.
Qed.

Lemma process_req_wf d req : db_wf d → db_wf (process_req d req).1.
Proof.
  intros Hwf. destruct req as [serial k|serial k value vm|serial k expected desired vm|serial k vm];
    unfold process_req.
  - done.
  - unfold process_put. case_if; [done|]. rewrite store_eq by done. by apply assign_wf.
  - unfold process_cas. case_if; [done|]. rewrite store_eq by done. by apply assign_wf.
  - unfold process_remove. destruct (find k (db_ d)) as [v|]; [|done].
    case_if; [done|]. by apply do_remove_wf.
Qed.

#[export] Hint Resolve empty_db_wf process_req_wf do_remove_wf assign_wf : draft.

(** ** Comparing databases *)

Lemma versions_differ_refl c m v : versions_differ c m (Some v) (Some v) = false.
Proof.
  unfold versions_differ. rewrite Z.ltb_irrefl, Z.eqb_refl, teqb_refl. done.
Qed.

Lemma diff_loop_refl arr brr c m (l : smap txt vv) : diff_loop arr brr c m l l = None.
Proof.
  induction l as [|[k v] l IH]; [done|].
  cbn [diff_loop]. by rewrite kltb_irrefl, versions_differ_refl.
Qed.

Lemma versions_differ_strict m a b :
  vv_version a < m → versions_differ true m (Some a) (Some b) = false → a = b.
Proof.
  intros Ha H. unfold versions_differ in H. bsimp.
  destruct a as [va na], b as [vb nb]. simpl in *.
  assert (na = nb) as ->.
  { destruct (nb <? na) eqn:E; bsimp; [|lia]. simpl in *. bsimp. lia. }
  rewrite Z.eqb_refl in *. simpl in *. bsimp. unfold teqb in *. bsimp. by subst.
Qed.

(** With no removal in the window and every version below it, the merge
    accepts equal iterations only. *)
Lemma diff_loop_exact arr brr m (la lb : smap txt vv) :
  (∀ k, find_recent_remove arr k m = None) →
  (∀ k, find_recent_remove brr k m = None) →
  Forall (λ p, vv_version p.2 < m) la →
  diff_loop arr brr true m la lb = None → la = lb.
Proof.
  intros Harr Hbrr Hla. revert lb. induction Hla as [|[ka va] la Hva _ IH]; intros lb.
  - destruct lb as [|[kb vb] lb]; [done|]. simpl. by rewrite Harr.
  - simpl in Hva.
    assert (Hmiss : versions_differ true m (Some va) None = true).
    { unfold versions_differ. apply negb_true_iff, Z.leb_gt. done. }
    destruct lb as [|[kb vb] lb]; cbn [diff_loop].
    { by rewrite Hbrr, Hmiss. }
    destruct (kltb ka kb) eqn:E1; [by rewrite Hbrr, Hmiss|].
    destruct (kltb kb ka) eqn:E2; [rewrite Harr; simpl; done|].
    destruct (versions_differ true m (Some va) (Some vb)) eqn:E; [done|]. intros H.
    apply versions_differ_strict in E as ->; [|done].
    assert (ka = kb) as -> by by apply kltb_total. f_equal. by apply IH.
Qed.

Lemma find_recent_remove_none rrs k m :
  Forall (λ rr, rr_remove_version rr < m) rrs → find_recent_remove rrs k m = None.
Proof.
  induction 1 as [|rr rrs Hrr _ IH]; simpl; [done|].
  assert (m <=? rr_remove_version rr = false) as -> by (apply Z.leb_gt; done).
  by rewrite andb_false_r.
Qed.

Lemma diff_newer_zero a b :
  db_wf a → db_wf b → next_version_ a < two63 → next_version_ b ≤ next_version_ a →
  diff_newer a b 0 = None → db_ a = db_ b.
Proof.
  intros Ha Hb Hlt Hle H. unfold diff_newer in H.
  rewrite Z.sub_0_r, i64_small in H by (pose proof (wf_next a Ha); width_lia).
  assert (Hc : (length (recent_removes_ a) <? max_recent_removes)%nat
    || match last (recent_removes_ a) with
       | Some rr => rr_remove_version rr <=? next_version_ a | None => true end = true).
  { apply orb_true_iff. right. destruct (last (recent_removes_ a)) as [rr|] eqn:E; [|done].
    apply Z.leb_le. apply last_Some_elem_of in E.
    pose proof (wf_removes a Ha) as Hr. rewrite Forall_forall in Hr. apply Hr in E. lia. }
  rewrite Hc in H. eapply diff_loop_exact; [..|exact H].
  - intros k. apply find_recent_remove_none.
    eapply Forall_impl; [exact (wf_removes a Ha)|]. simpl. lia.
  - intros k. apply find_recent_remove_none.
    eapply Forall_impl; [exact (wf_removes b Hb)|]. simpl. lia.
  - apply Forall_forall. intros [k v] Hin. simpl.
    apply find_In in Hin; [|by apply Ha]. apply (wf_versions a Ha) in Hin. lia.
Qed.

Lemma diff_zero a b :
  db_wf a → db_wf b → next_version_ a < two63 → next_version_ b < two63 →
  diff a b 0 = None ↔ db_ a = db_ b.
Proof.
  intros Ha Hb Hla Hlb. unfold diff. split.
  - case_if; intros H; [symmetry|]; eapply diff_newer_zero; try eassumption; lia.
  - intros Heq. unfold diff_newer. rewrite Heq. by case_if; rewrite diff_loop_refl.
Qed.

(** * Properties *)

(** Every request keeps the database well formed: keys in order, every
    stored version positive, below the counter and distinct from every other
    one, at most 100 remembered removals, all below the counter. *)
Theorem process_req_invariant (d : pancydb) (req : request) :
  db_wf d → db_wf (process_req d req).1.
Proof. apply process_req_wf. Qed.

Lemma process_req_invariant_witness :
  db_wf (process_req empty_db (put_request 7 $"k" $"v" any_version)).1.
Proof. apply process_req_invariant, empty_db_wf. Defined.

(** C6 [process_req] implements the abstract store: the state it leaves and
    the response it gives are those of [spec_step], on every branch of every
    request (match, mismatch, absent key). *)
Theorem process_req_refines (d : pancydb) (req : request) :
  db_wf d → (abs (process_req d req).1, (process_req d req).2) = spec_step (abs d) req.
Proof. apply process_req_spec. Qed.

Lemma process_req_refines_witness :
  let d := (process_req empty_db (put_request 7 $"k" $"v" any_version)).1 in
  (abs (process_req d (cas_request 8 $"k" $"v" $"w" 1)).1,
   (process_req d (cas_request 8 $"k" $"v" $"w" 1)).2) =
  spec_step (abs d) (cas_request 8 $"k" $"v" $"w" 1).
Proof. intros d. apply process_req_refines. apply process_req_wf, empty_db_wf. Defined.

(** [diff] with no skew answers "no difference" exactly when the two
    databases hold the same cells. *)
Theorem diff_zero_skew_exact (a b : pancydb) :
  db_wf a → db_wf b → next_version_ a < two63 → next_version_ b < two63 →
  diff a b 0 = None ↔ db_ a = db_ b.
Proof. apply diff_zero. Qed.

Lemma diff_zero_skew_exact_witness :
  let d := (process_req empty_db (put_request 7 $"k" $"v" any_version)).1 in
  diff empty_db d 0 = None ↔ db_ empty_db = db_ d.
Proof.
  intros d. apply diff_zero_skew_exact; [apply empty_db_wf | | vm_compute; done..].
  apply process_req_wf, empty_db_wf.
Defined.

(** A GET never answers [not_found]: for an absent key it answers [ok] with
    the empty value and version 0, because [find_vvptr] returns the shared
    nonexistent cell and not a null pointer. *)
Theorem process_get_absent (d : pancydb) (serial : Z) (key : txt) :
  find key (db_ d) = None →
  process_req d (get_request serial key) = (d, get_response serial ok [] nonexistent_version).
Proof. intros H. simpl. unfold find_vvptr. by rewrite H. Qed.

Lemma process_get_absent_witness :
  process_req empty_db (get_request 5 $"nope") = (empty_db, get_response 5 ok [] 0).
Proof. by apply process_get_absent. Defined.
