(* ===== verification/DocState.v ===== *)
(** Reading committed editor operations out of the database and replaying
    them: [src/pset4/doc_state.hh] and [doc_state.cc].

    Operations are stored under [doc/<doc_id>/op/<client_id>/<client_seq>];
    the order of replay is the version order. *)

From S2P Require Import Prelude SMap Text DocOps PancyDb.

Record committed_op := mk_committed_op {
  co_version : Z;
  co_client_id : Z;
  co_client_seq : Z;
  co_op : doc_op;
  co_client_id_label : txt;
}.

#[export] Instance committed_op_eq_dec : EqDecision committed_op.
Proof. solve_decision. Defined.

Definition op_key (doc_id : txt) (client_id client_seq : Z) : txt :=
  $"doc/" ++ doc_id ++ $"/op/" ++ dec client_id ++ $"/" ++ dec client_seq.

Definition doc_op_prefix (doc_id : txt) : txt := $"doc/" ++ doc_id ++ $"/op/".

(** [std::from_chars] that must consume the whole text. *)
Definition from_chars_all (s : txt) : option Z :=
  match from_chars_u64 s with
  | Some (v, []) => Some v
  | _ => None
  end.

Definition parse_op_suffix (suffix : txt) : option (Z * Z) :=
  match find_char "/"%char suffix 0 with
  | None => None
  | Some slash =>
      if (slash =? 0)%nat || (length suffix <=? slash + 1)%nat then None
      else
        let a := substr suffix 0 slash in
        let b := drop (slash + 1) suffix in
        if bool_decide (is_Some (find_char "/"%char b 0)) then None
        else
          match from_chars_all a, from_chars_all b with
          | Some client_id, Some client_seq => Some (client_id, client_seq)
          | _, _ => None
          end
  end.

(** The body of the loop of [read_ops]: the operation a cell holds, if any. *)
Definition cell_op (prefix : txt) (cell : txt * vv) : option committed_op :=
  let '(key, v) := cell in
  if (length key <=? length prefix)%nat || negb (starts_with prefix key) then None
  else
    match parse_op_suffix (drop (length prefix) key) with
    | None => None
    | Some (cid, seq) =>
        if vv_version v =? nonexistent_version then None
        else
          match deserialize (vv_value v) with
          | Throw _ => None
          | Ok op => Some (mk_committed_op (vv_version v) cid seq op [])
          end
    end.

(** The comparison [read_ops] sorts by. *)
Definition committed_lt (x y : committed_op) : bool :=
  if negb (co_version x =? co_version y) then co_version x <? co_version y
  else if negb (co_client_id x =? co_client_id y) then co_client_id x <? co_client_id y
  else co_client_seq x <? co_client_seq y.

Definition committed_le (x y : committed_op) : Prop := committed_lt y x = false.
#[export] Instance committed_le_dec x y : Decision (committed_le x y).
Proof. unfold committed_le. apply _. Defined.

(** [std::sort] with [committed_lt].  Elements the comparison does not separate
    may come in any order in C++; a well-formed database has distinct versions,
    so there are none. *)
Definition sort_ops (l : list committed_op) : list committed_op := merge_sort committed_le l.

Definition read_ops (db : pancydb) (doc_id : txt) : list committed_op :=
  sort_ops (omap (cell_op (doc_op_prefix doc_id)) (db_ db)).

Definition reconstruct (ops : list committed_op) : txt :=
  foldl (λ text c, apply_op text (co_op c)) [] ops.

#[global] Arguments op_key : simpl never.
#[global] Arguments doc_op_prefix : simpl never.
#[global] Arguments cell_op : simpl never.

(** * Lemmas *)

(** ** The sort *)

Lemma committed_lt_spec x y :
  committed_lt x y = true ↔
  co_version x < co_version y ∨
  co_version x = co_version y ∧
    (co_client_id x < co_client_id y ∨
     co_client_id x = co_client_id y ∧ co_client_seq x < co_client_seq y).
Proof. unfold committed_lt. repeat case_if; rewrite ?Z.ltb_lt; lia. Qed.

Lemma committed_le_spec x y :
  committed_le x y ↔
  ¬ (co_version y < co_version x ∨
     co_version x = co_version y ∧
       (co_client_id y < co_client_id x ∨
        co_client_id x = co_client_id y ∧ co_client_seq y < co_client_seq x)).
Proof.
  unfold committed_le. rewrite <- not_true_iff_false, committed_lt_spec. lia.
Qed.

#[export] Instance committed_le_trans : Transitive committed_le.
Proof. intros x y z. rewrite !committed_le_spec. lia. Qed.

#[export] Instance committed_le_total : Total committed_le.
Proof. intros x y. rewrite !committed_le_spec. lia. Qed.

Lemma sort_ops_perm l : sort_ops l ≡ₚ l.
Proof. apply merge_sort_Permutation. Qed.

Lemma sort_ops_sorted l : StronglySorted committed_le (sort_ops l).
Proof. apply StronglySorted_merge_sort; apply _. Qed.

Definition version_lt (x y : committed_op) : Prop := co_version x < co_version y.

Lemma sorted_versions_strict l :
  StronglySorted committed_le l → NoDup (co_version <$> l) → StronglySorted version_lt l.
Proof.
  induction 1 as [|x l Hl IH Hx]; intros Hnd; [constructor|].
  simpl in Hnd. inv Hnd. constructor; [by apply IH|].
  rewrite Forall_forall in Hx |- *. intros y Hy. specialize (Hx y Hy).
  rewrite committed_le_spec in Hx. unfold version_lt.
  assert (co_version x ≠ co_version y); [|lia].
  intros Heq. apply H1. rewrite Heq. by apply list_elem_of_fmap_2.
Qed.

(** ** The operations of a document *)

Lemma cell_op_Some prefix key v c :
  cell_op prefix (key, v) = Some c ↔
  ∃ suffix cid seq op, key = prefix ++ suffix ∧ suffix ≠ [] ∧
    parse_op_suffix suffix = Some (cid, seq) ∧ vv_version v ≠ nonexistent_version ∧
    deserialize (vv_value v) = Ok op ∧ c = mk_committed_op (vv_version v) cid seq op [].
Proof.
  unfold cell_op. split.
  - destruct (_ || _) eqn:E; [done|]. apply orb_false_iff in E as [El Es]. apply negb_false_iff in Es.
    apply starts_with_true in Es as [suffix ->]. rewrite drop_app_length.
    rewrite length_app in El. apply Nat.leb_gt in El.
    destruct (parse_op_suffix suffix) as [[cid seq]|] eqn:Ep; [|done].
    case_if; [done|]. destruct (deserialize (vv_value v)) as [op|] eqn:Ed; [|done].
    intros [= <-]. exists suffix, cid, seq, op. split_and!; try done.
    intros ->. simpl in *. lia.
  - intros (suffix & cid & seq & op & -> & Hne & Hp & Hv & Hd & ->).
    rewrite starts_with_app, drop_app_length, Hp, Hd.
    assert ((length (prefix ++ suffix) <=? length prefix)%nat = false) as ->.
    { rewrite length_app. apply Nat.leb_gt. destruct suffix; [done|simpl; lia]. }
    simpl. case_if; done.
Qed.

Lemma cell_op_version prefix cell c : cell_op prefix cell = Some c → co_version c = vv_version cell.2.
Proof. destruct cell as [key v]. by intros (?&?&?&?&_&_&_&_&_&->)%cell_op_Some. Qed.

Lemma elem_of_read_ops db doc c :
  db_wf db →
  c ∈ read_ops db doc ↔
  ∃ key v, find key (db_ db) = Some v ∧ cell_op (doc_op_prefix doc) (key, v) = Some c.
Proof.
  intros Hwf. unfold read_ops. rewrite sort_ops_perm, list_elem_of_omap. split.
  - intros ([key v] & Hin & Hc). exists key, v. split; [|done].
    by apply find_In; [apply Hwf|].
  - intros (key & v & Hf & Hc). exists (key, v). split; [|done].
    by apply find_In in Hf; [|apply Hwf].
Qed.

Lemma omap_version_sublist prefix (m : smap txt vv) :
  co_version <$> omap (cell_op prefix) m `sublist_of` (λ p : txt * vv, vv_version p.2) <$> m.
Proof.
  induction m as [|p m IH]; simpl; [constructor|].
  destruct (cell_op prefix p) eqn:E; simpl.
  - rewrite (cell_op_version _ _ _ E). by constructor.
  - by constructor.
Qed.

Lemma db_versions_NoDup db :
  db_wf db → NoDup ((λ p : txt * vv, vv_version p.2) <$> db_ db).
Proof.
  intros Hwf. pose proof (wf_keys db Hwf) as Hk. pose proof (wf_distinct db Hwf) as Hd.
  assert (Hd' : ∀ k1 v1 k2 v2, (k1, v1) ∈ db_ db → (k2, v2) ∈ db_ db →
            vv_version v1 = vv_version v2 → k1 = k2).
  { intros k1 v1 k2 v2 H1 H2. apply find_In in H1; [|done]. apply find_In in H2; [|done]. eauto. }
  clear Hd. revert Hk Hd'. generalize (db_ db). intros m.
  induction m as [|[k v] m IH]; simpl; intros Hk Hd; constructor.
  - intros ([k' v'] & Heq & Hin)%list_elem_of_fmap. simpl in Heq.
    assert (k = k') as -> by (eapply Hd; [by left|by right|done]).
    apply wf_cons in Hk as [_ Hlt]. rewrite Forall_forall in Hlt.
    assert (k' ∈ keys m) as Hk by (apply list_elem_of_fmap; by exists (k', v')).
    apply Hlt in Hk. by rewrite kltb_irrefl in Hk.
  - apply IH; [by apply wf_cons in Hk as [? _]|]. intros. eapply Hd; try by right. done.
Qed.

Lemma read_ops_sorted db doc : db_wf db → StronglySorted version_lt (read_ops db doc).
Proof.
  intros Hwf. apply sorted_versions_strict; [apply sort_ops_sorted|].
  unfold read_ops. rewrite (sort_ops_perm (omap _ _)).
  eapply sublist_NoDup; [by apply db_versions_NoDup|apply omap_version_sublist].
Qed.

Lemma read_ops_versions db doc c :
  db_wf db → c ∈ read_ops db doc → 0 < co_version c < next_version_ db.
Proof.
  intros Hwf Hc. apply elem_of_read_ops in Hc as (key & v & Hf & Hc); [|done].
  apply cell_op_version in Hc as ->. by apply (wf_versions db Hwf) in Hf.
Qed.

(** The list is determined by its elements. *)
Lemma read_ops_unique db doc l :
  db_wf db → StronglySorted version_lt l → (∀ c, c ∈ read_ops db doc ↔ c ∈ l) →
  read_ops db doc = l.
Proof.
  intros Hwf Hl Heq. eapply strict_sorted_unique; [..|exact Heq]; [| |by apply read_ops_sorted|done].
  - intros x. unfold version_lt. lia.
  - intros x y z. unfold version_lt. lia.
Qed.

(** ** Keys *)

Lemma parse_op_suffix_dec cid seq :
  is_u64 cid → is_u64 seq → parse_op_suffix (dec cid ++ $"/" ++ dec seq) = Some (cid, seq).
Proof.
  intros Hc Hs. destruct (dec_spec cid Hc) as (Hnc & Hdc & _).
  destruct (dec_spec seq Hs) as (Hns & Hds & _).
  assert (Hfree : ∀ ds, Forall (λ c, is_digit c = true) ds → "/"%char ∉ ds)
    by (intros; by eapply digits_free).
  unfold parse_op_suffix, find_char. rewrite drop_0.
  change ($"/" ++ dec seq) with ("/"%char :: dec seq).
  rewrite index_of_app by auto. simpl.
  assert ((length (dec cid) =? 0)%nat = false) as ->.
  { apply Nat.eqb_neq. by destruct (dec cid). }
  assert ((length (dec cid ++ "/"%char :: dec seq) <=? length (dec cid) + 1)%nat = false) as ->.
  { rewrite length_app. simpl. apply Nat.leb_gt. destruct (dec seq); [done|simpl; lia]. }
  simpl. unfold substr. rewrite !drop_0, take_app_length.
  replace (drop (length (dec cid) + 1) (dec cid ++ "/"%char :: dec seq)) with (dec seq).
  2: { rewrite drop_app_ge by lia. replace (_ + 1 - _)%nat with 1%nat by lia. done. }
  rewrite bool_decide_eq_false_2.
  2: { intros [n Hn]. apply fmap_Some in Hn as (i & Hi & _).
       pose proof (proj2 (index_of_None "/"%char (dec seq)) (Hfree _ Hds)). congruence. }
  unfold from_chars_all.
  rewrite <- (app_nil_r (dec cid)), <- (app_nil_r (dec seq)), !from_chars_dec by done. done.
Qed.

Lemma op_key_prefix doc cid seq :
  op_key doc cid seq = doc_op_prefix doc ++ dec cid ++ $"/" ++ dec seq.
Proof. unfold op_key, doc_op_prefix. by rewrite <- !app_assoc. Qed.

Lemma cell_op_op_key doc cid seq v op :
  is_u64 cid → is_u64 seq → vv_version v ≠ nonexistent_version →
  deserialize (vv_value v) = Ok op →
  cell_op (doc_op_prefix doc) (op_key doc cid seq, v) =
    Some (mk_committed_op (vv_version v) cid seq op []).
Proof.
  intros Hc Hs Hv Hd. apply cell_op_Some. exists (dec cid ++ $"/" ++ dec seq), cid, seq, op.
  split_and!; [apply op_key_prefix| |by apply parse_op_suffix_dec|done..].
  destruct (dec_spec cid Hc) as (Hn & _). by destruct (dec cid).
Qed.

Lemma slash_split (x x' y y' : txt) :
  "/"%char ∉ x → "/"%char ∉ x' → x ++ "/"%char :: y = x' ++ "/"%char :: y' → x = x'.
Proof.
  intros Hx Hx' Heq.
  pose proof (index_of_app "/"%char x y Hx) as H1. rewrite Heq, index_of_app in H1 by done.
  simplify_eq. by apply app_inj_1 in Heq as [-> _].
Qed.

(** A key of another document is no operation of this one. *)
Lemma cell_op_other_doc doc doc' cid seq v :
  "/"%char ∉ doc → "/"%char ∉ doc' → doc ≠ doc' →
  cell_op (doc_op_prefix doc) (op_key doc' cid seq, v) = None.
Proof.
  intros Hd Hd' Hne. destruct (cell_op _ _) eqn:E; [|done].
  apply cell_op_Some in E as (suffix & _ & _ & _ & Hk & _). exfalso. apply Hne.
  unfold op_key, doc_op_prefix in Hk. rewrite <- !app_assoc in Hk.
  apply app_inv_head in Hk. symmetry. by eapply slash_split in Hk.
Qed.

(** ** Committing one more operation *)

Lemma put_eq d key value :
  put d key value =
    mk_pancydb (next_version_ d + 1) (assign key (mk_vv value (next_version_ d)) (db_ d))
      (recent_removes_ d).
Proof.
  unfold put, emplace_vvptr. destruct (find key (db_ d)) eqn:E; [done|].
  by rewrite emplace_fresh.
Qed.

Lemma put_wf d key value : db_wf d → db_wf (put d key value).
Proof. rewrite put_eq. apply assign_wf. Qed.

(** A PUT request without version match is the direct [put]. *)
Lemma process_put_any d key value :
  db_wf d →
  process_put d key value any_version =
    (put d key value, (ok, [], vv_version (find_vvptr d key), next_version_ d)).
Proof. intros Hwf. unfold process_put. simpl. by rewrite store_eq, put_eq. Qed.

(** What the other keys hold is read as before; the key itself gives the new
    operation, if its key and value denote one, at the end. *)
Lemma read_ops_put_any d doc key value :
  db_wf d →
  read_ops (put d key value) doc =
    filter (λ c, Some (co_version c) ≠ vv_version <$> find key (db_ d)) (read_ops d doc)
    ++ option_list (cell_op (doc_op_prefix doc) (key, mk_vv value (next_version_ d))).
Proof.
  intros Hwf. apply read_ops_unique; [by apply put_wf| |].
  - assert (Hf : StronglySorted version_lt
        (filter (λ c, Some (co_version c) ≠ vv_version <$> find key (db_ d)) (read_ops d doc)))
      by by apply strict_sorted_filter, read_ops_sorted.
    destruct (cell_op _ _) as [c|] eqn:Ec; simpl; [|by rewrite app_nil_r].
    apply strict_sorted_snoc; [done|]. apply Forall_forall.
    intros x [_ Hx]%list_elem_of_filter. apply read_ops_versions in Hx; [|done].
    apply cell_op_version in Ec. simpl in Ec. unfold version_lt. lia.
  - intros c. rewrite elem_of_app, list_elem_of_filter, !elem_of_read_ops, put_eq
      by (try apply put_wf; done).
    simpl. split.
    + intros (k & v & Hf & Hc). destruct (decide (k = key)) as [->|Hne].
      * right. rewrite find_assign_eq in Hf. simplify_eq. rewrite Hc. by left.
      * left. rewrite find_assign_ne in Hf by done. split; [|by exists k, v].
        intros Heq. apply cell_op_version in Hc. simpl in Hc.
        destruct (find key (db_ d)) as [w|] eqn:Ew; simplify_eq/=.
        apply Hne. eapply (wf_distinct d Hwf); eauto. congruence.
    + intros [[Hne (k & v & Hf & Hc)]|Hc].
      * exists k, v. split; [|done]. rewrite find_assign_ne; [done|]. intros ->.
        apply Hne. apply cell_op_version in Hc. by rewrite Hf, Hc.
      * exists key, (mk_vv value (next_version_ d)). rewrite find_assign_eq. split; [done|].
        destruct (cell_op _ _); simpl in Hc; [|by apply not_elem_of_nil in Hc].
        by apply list_elem_of_singleton in Hc as ->.
Qed.

Lemma filter_none_key d doc key :
  db_wf d → (∀ v, find key (db_ d) = Some v → cell_op (doc_op_prefix doc) (key, v) = None) →
  filter (λ c, Some (co_version c) ≠ vv_version <$> find key (db_ d)) (read_ops d doc)
  = read_ops d doc.
Proof.
  intros Hwf Hno. apply filter_all. apply Forall_forall. intros c Hc Heq.
  apply elem_of_read_ops in Hc as (k & v & Hf & Hc); [|done].
  destruct (find key (db_ d)) as [w|] eqn:Ew; simplify_eq/=.
  assert (k = key) as ->.
  { eapply (wf_distinct d Hwf); eauto. apply cell_op_version in Hc. simpl in Hc. congruence. }
  simplify_eq. by rewrite (Hno w eq_refl) in Hc.
Qed.

Lemma read_ops_append d doc cid seq op :
  db_wf d → is_u64 cid → is_u64 seq → op_u64 op →
  find (op_key doc cid seq) (db_ d) = None →
  read_ops (put d (op_key doc cid seq) (serialize op)) doc =
    read_ops d doc ++ [mk_committed_op (next_version_ d) cid seq op []].
Proof.
  intros Hwf Hc Hs Hop Hf. rewrite read_ops_put_any by done.
  rewrite filter_none_key by (try done; congruence).
  rewrite (cell_op_op_key doc cid seq _ op); try done.
  - simpl. unfold nonexistent_version. pose proof (wf_next d Hwf). lia.
  - simpl. apply serialize_deserialize; done.
Qed.

Lemma read_ops_other_doc d doc doc' cid seq value :
  db_wf d → "/"%char ∉ doc → "/"%char ∉ doc' → doc ≠ doc' →
  read_ops (put d (op_key doc' cid seq) value) doc = read_ops d doc.
Proof.
  intros Hwf Hd Hd' Hne. rewrite read_ops_put_any by done.
  rewrite filter_none_key; [|done|by intros; apply cell_op_other_doc].
  rewrite cell_op_other_doc by done. apply app_nil_r.
Qed.

Lemma reconstruct_snoc ops c : reconstruct (ops ++ [c]) = apply_op (reconstruct ops) (co_op c).
Proof. unfold reconstruct. by rewrite foldl_app. Qed.

(** * Properties *)

(** [parse_op_suffix] recovers the client id and the sequence number from
    the key [op_key] builds, for all 64-bit values. *)
Theorem op_key_roundtrip (doc_id : txt) (client_id client_seq : Z) :
  is_u64 client_id → is_u64 client_seq →
  parse_op_suffix (drop (length (doc_op_prefix doc_id)) (op_key doc_id client_id client_seq)) =
    Some (client_id, client_seq).
Proof. intros. rewrite op_key_prefix, drop_app_length. by apply parse_op_suffix_dec. Qed.

Lemma op_key_roundtrip_witness :
  parse_op_suffix (drop (length (doc_op_prefix $"main")) (op_key $"main" 18446744073709551615 0)) =
    Some (18446744073709551615, 0).
Proof. apply op_key_roundtrip; vm_compute; intuition congruence. Defined.

(** [read_ops] returns exactly the operations stored under the document, in
    strictly increasing version order, so the order does not depend on how the
    sort treats equal elements. *)
Theorem read_ops_spec (db : pancydb) (doc_id : txt) :
  db_wf db →
  StronglySorted version_lt (read_ops db doc_id) ∧
  ∀ c, c ∈ read_ops db doc_id ↔
    ∃ key v, find key (db_ db) = Some v ∧ cell_op (doc_op_prefix doc_id) (key, v) = Some c.
Proof.
  intros Hwf. split; [by apply read_ops_sorted|]. intros c. by apply elem_of_read_ops.
Qed.

Lemma read_ops_spec_witness :
  let db := put (put empty_db (op_key $"x" 1 0) (serialize (insert_op 0 $"B")))
              (op_key $"x" 0 0) (serialize (insert_op 0 $"A")) in
  StronglySorted version_lt (read_ops db $"x") ∧ length (read_ops db $"x") = 2%nat.
Proof.
  intros db. split; [|by vm_compute].
  apply read_ops_spec. apply put_wf, put_wf, empty_db_wf.
Defined.

(** Committing an operation at a fresh key appends it: the operations read
    before are unchanged and in front, and the document text is the old text
    with the operation applied. *)
Theorem commit_appends (db : pancydb) (doc_id : txt) (client_id client_seq : Z) (op : doc_op) :
  db_wf db → is_u64 client_id → is_u64 client_seq → op_u64 op →
  find (op_key doc_id client_id client_seq) (db_ db) = None →
  let db' := put db (op_key doc_id client_id client_seq) (serialize op) in
  read_ops db' doc_id =
    read_ops db doc_id ++ [mk_committed_op (next_version_ db) client_id client_seq op []] ∧
  reconstruct (read_ops db' doc_id) = apply_op (reconstruct (read_ops db doc_id)) op.
Proof.
  intros Hwf Hc Hs Hop Hf db'. subst db'. rewrite read_ops_append by done.
  split; [done|]. by rewrite reconstruct_snoc.
Qed.

Lemma commit_appends_witness :
  reconstruct (read_ops (put (put empty_db (op_key $"main" 0 0) (serialize (insert_op 0 $"abcdef")))
                 (op_key $"main" 0 1) (serialize (delete_op 3 2))) $"main") = $"abcf".
Proof.
  etransitivity.
  - apply (commit_appends (put empty_db (op_key $"main" 0 0) (serialize (insert_op 0 $"abcdef")))
             $"main" 0 1 (delete_op 3 2)); try (vm_compute; intuition congruence).
    apply put_wf, empty_db_wf.
  - by vm_compute.
Defined.

(** Documents are isolated: whatever is stored under an operation key of
    one document, the operations of another document stay the same (document
    ids hold no slash, which [valid_doc_id] ensures). *)
Theorem documents_isolated (db : pancydb) (doc_id doc_id' : txt) (client_id client_seq : Z) (value : txt) :
  db_wf db → "/"%char ∉ doc_id → "/"%char ∉ doc_id' → doc_id ≠ doc_id' →
  read_ops (put db (op_key doc_id' client_id client_seq) value) doc_id = read_ops db doc_id.
Proof. apply read_ops_other_doc. Qed.

Lemma documents_isolated_witness :
  read_ops (put empty_db (op_key $"other" 0 0) (serialize (insert_op 0 $"nope"))) $"main" =
  read_ops empty_db $"main".
Proof.
  apply documents_isolated; [apply empty_db_wf| | |done];
    apply (bool_decide_unpack _); vm_compute; exact I.
Defined.
