(* ===== verification/UnitTests.v ===== *)
(** The program's own unit tests of [src/pset4/doc_ops.cc] and
    [src/pset4/doc_state.cc], as computations on the models of [DocOps.v] and
    [DocState.v].

    A test is the list of its labelled checks; the models pass them all.  The
    randomised test draws its operations from a generator, which is a parameter:
    a function from the number of the draw and the bounds of a uniform
    distribution.  Whatever it draws, the test passes. *)

From S2P Require Import Prelude Text DocOps PancyDb DocState.
#[local] Open Scope Z_scope.

(** [CHECK(expr, label)]. *)
Definition check := (bool * txt)%type.
Definition CHECK (b : bool) (label : string) : check := (b, $label).

(** A test passes when no check fails. *)
Definition passes (checks : list check) : bool := forallb fst checks.

(** * [doc_ops.cc] *)

Definition ins (pos : Z) (text : string) : doc_op := insert_op pos ($text).

(** [std::get<insert_op>(t)], and so on; [get] of the other alternative
    throws, which fails the test. *)
Definition ins_pos (t : doc_op) (pos : Z) : bool := match t with insert_op p _ => p =? pos | _ => false end.
Definition ins_text (t : doc_op) (text : string) : bool :=
  match t with insert_op _ s => bool_decide (s = $text) | _ => false end.
Definition del_pos (t : doc_op) (pos : Z) : bool := match t with delete_op p _ => p =? pos | _ => false end.
Definition del_len (t : doc_op) (len : Z) : bool := match t with delete_op _ n => n =? len | _ => false end.

Definition diamond_holds_b (doc : txt) (a b : doc_op) : bool :=
  bool_decide (apply_op (apply_op doc a) (transform b a) = apply_op (apply_op doc b) (transform a b)).

Definition abcde : txt := $"ABCDE".

Definition test_insert_insert : list check :=
  let t1 := transform (ins 3 "XY") (ins 1 "PQ") in
  let t2 := transform (ins 1 "XY") (ins 3 "PQ") in
  let t3 := transform (ins 2 "XY") (ins 2 "PQ") in
  [CHECK (ins_pos t1 5) "II/b-before-a pos";
   CHECK (ins_text t1 "XY") "II/b-before-a text";
   CHECK (diamond_holds_b abcde (ins 3 "XY") (ins 1 "PQ")) "II/b-before-a diamond";
   CHECK (ins_pos t2 1) "II/b-after-a pos";
   CHECK (diamond_holds_b abcde (ins 1 "XY") (ins 3 "PQ")) "II/b-after-a diamond";
   CHECK (ins_pos t3 4) "II/same-pos pos"].

Definition test_insert_delete : list check :=
  let t1 := transform (ins 1 "XY") (delete_op 3 2) in
  let t2 := transform (ins 2 "XY") (delete_op 2 2) in
  let t3 := transform (ins 4 "XY") (delete_op 1 2) in
  let t4 := transform (ins 2 "XY") (delete_op 1 3) in
  [CHECK (ins_pos t1 1) "ID/before pos";
   CHECK (diamond_holds_b abcde (ins 1 "XY") (delete_op 3 2)) "ID/before diamond";
   CHECK (ins_pos t2 2) "ID/at-start pos";
   CHECK (diamond_holds_b abcde (ins 2 "XY") (delete_op 2 2)) "ID/at-start diamond";
   CHECK (ins_pos t3 2) "ID/after pos";
   CHECK (diamond_holds_b abcde (ins 4 "XY") (delete_op 1 2)) "ID/after diamond";
   CHECK (ins_text t4 "") "ID/inside no-op text";
   CHECK (diamond_holds_b abcde (ins 2 "XY") (delete_op 1 3)) "ID/inside diamond"].

Definition test_delete_insert : list check :=
  let t1 := transform (delete_op 1 2) (ins 4 "XY") in
  let t2 := transform (delete_op 3 2) (ins 1 "XY") in
  let t3 := transform (delete_op 2 2) (ins 2 "XY") in
  let t4 := transform (delete_op 1 3) (ins 2 "XY") in
  [CHECK (del_pos t1 1) "DI/insert-after pos";
   CHECK (del_len t1 2) "DI/insert-after len";
   CHECK (diamond_holds_b abcde (delete_op 1 2) (ins 4 "XY")) "DI/insert-after diamond";
   CHECK (del_pos t2 5) "DI/insert-before pos";
   CHECK (del_len t2 2) "DI/insert-before len";
   CHECK (diamond_holds_b abcde (delete_op 3 2) (ins 1 "XY")) "DI/insert-before diamond";
   CHECK (del_pos t3 4) "DI/insert-at-start pos";
   CHECK (diamond_holds_b abcde (delete_op 2 2) (ins 2 "XY")) "DI/insert-at-start diamond";
   CHECK (del_pos t4 1) "DI/insert-inside pos";
   CHECK (del_len t4 5) "DI/insert-inside len";
   CHECK (diamond_holds_b abcde (delete_op 1 3) (ins 2 "XY")) "DI/insert-inside diamond"].

Definition test_delete_delete : list check :=
  let is_del t p n := del_pos t p && del_len t n in
  [CHECK (is_del (transform (delete_op 0 1) (delete_op 3 2)) 0 1) "DD/A";
   CHECK (diamond_holds_b abcde (delete_op 0 1) (delete_op 3 2)) "DD/A diamond";
   CHECK (is_del (transform (delete_op 3 2) (delete_op 0 2)) 1 2) "DD/B";
   CHECK (diamond_holds_b abcde (delete_op 3 2) (delete_op 0 2)) "DD/B diamond";
   CHECK (del_len (transform (delete_op 2 1) (delete_op 1 3)) 0) "DD/C no-op";
   CHECK (diamond_holds_b abcde (delete_op 2 1) (delete_op 1 3)) "DD/C diamond";
   CHECK (is_del (transform (delete_op 1 3) (delete_op 2 1)) 1 2) "DD/D";
   CHECK (diamond_holds_b abcde (delete_op 1 3) (delete_op 2 1)) "DD/D diamond";
   CHECK (is_del (transform (delete_op 1 2) (delete_op 2 2)) 1 1) "DD/E";
   CHECK (diamond_holds_b abcde (delete_op 1 2) (delete_op 2 2)) "DD/E diamond";
   CHECK (is_del (transform (delete_op 2 2) (delete_op 1 2)) 1 1) "DD/F";
   CHECK (diamond_holds_b abcde (delete_op 2 2) (delete_op 1 2)) "DD/F diamond";
   CHECK (del_len (transform (delete_op 1 3) (delete_op 1 3)) 0) "DD/identical no-op";
   CHECK (diamond_holds_b abcde (delete_op 1 3) (delete_op 1 3)) "DD/identical diamond"].

Definition roundtrip_insert (pos : Z) (text : string) : bool :=
  match deserialize (serialize (ins pos text)) with
  | Ok op => ins_pos op pos && ins_text op text
  | Throw _ => false
  end.
Definition roundtrip_delete (pos len : Z) : bool :=
  match deserialize (serialize (delete_op pos len)) with
  | Ok op => del_pos op pos && del_len op len
  | Throw _ => false
  end.

Definition test_serialize : list check :=
  [CHECK (roundtrip_insert 5 "hello") "ser/insert-basic";
   CHECK (roundtrip_insert 0 "") "ser/insert-empty";
   CHECK (roundtrip_insert 0 "abc") "ser/insert-start";
   CHECK (roundtrip_insert 100 "z") "ser/insert-large-pos";
   CHECK (roundtrip_delete 3 7) "ser/delete-basic";
   CHECK (roundtrip_delete 0 0) "ser/delete-zero";
   CHECK (roundtrip_delete 0 1) "ser/delete-one"].

Definition test_transform_seq : list check :=
  let committed1 := ins 1 "X" in
  let committed2 := delete_op 3 1 in
  let doc := apply_op (apply_op ($"ABC") committed1) committed2 in
  let pending_t := transform_seq (ins 2 "Z") [committed1; committed2] in
  [CHECK (negb (bool_decide (apply_op doc pending_t = []))) "transform_seq/result-nonempty"].

(** * [doc_state.cc] *)

Definition put_op (doc_id : string) (client_id client_seq : Z) (op : doc_op) (db : pancydb) : pancydb :=
  put db (op_key ($doc_id) client_id client_seq) (serialize op).
Definition text_is (ops : list committed_op) (text : string) : bool := bool_decide (reconstruct ops = $text).

Definition test_doc_state : list check :=
  let main := $"main" in
  let registry := $"[" ++ ["034"%char] ++ main ++ ["034"%char] ++ $"]" in
  let none := read_ops empty_db main in
  let one := read_ops (put_op "main" 0 0 (ins 0 "hello") empty_db) main in
  let two := read_ops (put_op "main" 0 1 (ins 2 "z") (put_op "main" 0 0 (ins 0 "ab") empty_db)) main in
  let clients := read_ops (put_op "x" 0 0 (ins 0 "A") (put_op "x" 1 0 (ins 0 "B") empty_db)) ($"x") in
  let deleted := read_ops (put_op "main" 0 1 (delete_op 3 2) (put_op "main" 0 0 (ins 0 "abcdef") empty_db)) main in
  let other := read_ops (put_op "other" 0 0 (ins 0 "nope") empty_db) main in
  let garbage := read_ops (put empty_db (op_key main 0 0) ($"not an op")) main in
  let mixed := read_ops (put_op "main" 0 0 (ins 0 "ok") (put empty_db ($"docs/registry") registry)) main in
  [CHECK (bool_decide (none = [])) "empty-db-ops";
   CHECK (text_is none "") "empty-db-text";
   CHECK (size one =? 1) "single-op-count";
   CHECK (bool_decide ((co_client_id <$> one) = [0])) "single-op-cid";
   CHECK (bool_decide ((co_client_seq <$> one) = [0])) "single-op-seq";
   CHECK (forallb (λ c, 1 <=? co_version c) one) "single-op-version";
   CHECK (text_is one "hello") "single-insert-text";
   CHECK (size two =? 2) "two-op-count";
   CHECK (text_is two "abz") "two-inserts-linear";
   CHECK (size clients =? 2) "two-clients-count";
   CHECK (text_is clients "AB") "version-order";
   CHECK (text_is deleted "abcf") "insert-then-delete";
   CHECK (bool_decide (other = [])) "wrong-doc-filter";
   CHECK (bool_decide (garbage = [])) "bad-value-skipped";
   CHECK (size mixed =? 1) "mixed-keys";
   CHECK (text_is mixed "ok") "mixed-keys-text"].

(** The tests that draw nothing. *)
Definition fixed_tests : list (list check) :=
  [test_insert_insert; test_insert_delete; test_delete_insert; test_delete_delete; test_serialize; test_transform_seq;
   test_doc_state].

(** The models pass every fixed test of the program. *)
Theorem fixed_tests_pass : Forall (λ t, passes t = true) fixed_tests.
Proof. repeat (apply Forall_cons; split; [vm_compute; reflexivity|]). by apply Forall_nil. Qed.

(** ** The randomised test

    [uniform n lo hi] is the [n]-th draw of the generator, between [lo] and
    [hi]. *)

Section Random.
Context (uniform : nat → Z → Z → Z).

(** Each of these returns the number of the next draw, too. *)
Fixpoint rand_chars (n k : nat) : txt * nat :=
  match k with
  | O => ([], n)
  | S k =>
      let c := Ascii.ascii_of_nat (97 + Z.to_nat (uniform n 0 25)) in
      let '(s, n) := rand_chars (S n) k in (c :: s, n)
  end.

Definition rand_text (n : nat) (max_len : Z) : txt * nat :=
  rand_chars (S n) (Z.to_nat (uniform n 0 max_len)).

Definition rand_op (n : nat) (doc : txt) : doc_op * nat :=
  let insert n :=
    let pos := uniform n 0 (size doc) in
    let '(s, n) := rand_text (S n) 5 in (insert_op pos s, n) in
  if bool_decide (doc = []) then insert n
  else if negb (uniform n 0 1 =? 0) then insert (S n)
  else
    let pos := uniform (S n) 0 (size doc - 1) in
    (delete_op pos (uniform (S (S n)) 0 (size doc - pos)), S (S (S n))).

Definition same_position_inserts (a b : doc_op) : bool :=
  match a, b with insert_op p _, insert_op q _ => p =? q | _, _ => false end.

(** The loop, from draw [n]: the failures and the skipped trials. *)
Fixpoint random_trials (n trials : nat) (failures skipped : Z) : Z * Z :=
  match trials with
  | O => (failures, skipped)
  | S trials =>
      let '(doc, n) := rand_text n 8 in
      let '(a, n) := rand_op n doc in
      let '(b, n) := rand_op n doc in
      if same_position_inserts a b then random_trials n trials failures (skipped + 1)
      else if negb (diamond_holds_b doc a b) then
        if 5 <=? failures + 1 then (failures + 1, skipped) else random_trials n trials (failures + 1) skipped
      else random_trials n trials failures skipped
  end.

Definition test_randomized_diamond (trials : nat) : bool := (random_trials 0 trials 0 0).1 <=? 0.

(** * Laws *)

Definition uniform_law : Prop := ∀ n lo hi, lo ≤ hi → lo ≤ uniform n lo hi ≤ hi.

Hypothesis in_range : uniform_law.

Lemma rand_chars_size n k : size (rand_chars n k).1 = Z.of_nat k.
Proof.
  revert n. induction k as [|k IH]; intros n; cbn; [done|]. specialize (IH (S n)).
  destruct (rand_chars (S n) k) as [s m]. cbn in *. unfold size in *. cbn. lia.
Qed.

Lemma rand_text_size n max_len : 0 ≤ max_len → 0 ≤ size (rand_text n max_len).1 ≤ max_len.
Proof. intros H. unfold rand_text. rewrite rand_chars_size. pose proof (in_range n 0 max_len H). lia. Qed.

Lemma rand_op_valid n doc : op_valid doc (rand_op n doc).1.
Proof.
  assert (Hins : ∀ n, op_valid doc (let pos := uniform n 0 (size doc) in
                        let '(s, n) := rand_text (S n) 5 in (insert_op pos s, n)).1).
  { intros m. pose proof (rand_text_size (S m) 5 ltac:(lia)) as H. destruct (rand_text (S m) 5) as [s k]. cbn in *.
    pose proof (in_range m 0 (size doc) (size_nonneg doc)). split; [done|]. unfold two63. lia. }
  unfold rand_op. case_bool_decide as Ed; [apply Hins|]. destruct (negb _); [apply Hins|].
  cbn [fst op_valid]. assert (0 < size doc).
  { destruct doc; [done|]. unfold size. cbn. lia. }
  pose proof (in_range (S n) 0 (size doc - 1) ltac:(lia)).
  pose proof (in_range (S (S n)) 0 (size doc - uniform (S n) 0 (size doc - 1)) ltac:(lia)). lia.
Qed.

Lemma same_position_spec a b : same_position_inserts a b = false → ¬ same_pos_conflict a b.
Proof. destruct a, b; cbn; try (by intros _ []). intros H [-> _]. by rewrite Z.eqb_refl in H. Qed.

(** The randomised test of the diamond property passes for every generator,
    seed and number of trials: the operations it draws lie inside the document,
    and those that need not commute are exactly the ones it skips. *)
Theorem randomized_diamond_passes (trials : nat) : test_randomized_diamond trials = true.
Proof.
  assert (H : ∀ n skipped, (random_trials n trials 0 skipped).1 = 0).
  { induction trials as [|k IH]; intros n skipped; cbn [random_trials]; [done|].
    pose proof (rand_text_size n 8 ltac:(lia)) as Hd. destruct (rand_text n 8) as [doc n1]. cbn [fst] in Hd.
    pose proof (rand_op_valid n1 doc) as Ha. destruct (rand_op n1 doc) as [a n2].
    pose proof (rand_op_valid n2 doc) as Hb. destruct (rand_op n2 doc) as [b n3]. cbn [fst] in *.
    destruct (same_position_inserts a b) eqn:Es; [apply IH|].
    assert (E : diamond_holds_b doc a b = true).
    { apply bool_decide_eq_true. apply transform_diamond; [unfold two63; lia|done|done|].
      by apply same_position_spec. }
    rewrite E. apply IH. }
  unfold test_randomized_diamond. by rewrite H.
Qed.
End Random.

Lemma randomized_diamond_passes_witness :
  test_randomized_diamond (λ n lo hi, lo + (Z.of_nat (n * n * 7 + n) / 5) mod (hi - lo + 1)) 20 = true ∧
  (random_trials (λ n lo hi, lo + (Z.of_nat (n * n * 7 + n) / 5) mod (hi - lo + 1)) 0 20 0 0).2 = 1.
Proof.
  split; [|vm_compute; reflexivity]. apply randomized_diamond_passes. intros n lo hi H.
  pose proof (Z.mod_pos_bound (Z.of_nat (n * n * 7 + n) / 5) (hi - lo + 1)). lia.
Defined.
