(* ===== verification/HttpText.v ===== *)
(** Text handling of the HTTP front end, [src/pset4/http_server.cc]: request
    line and header parsing, the flat-JSON readers and writer, the document
    registry, routes, log names, Server-Sent-Event frames and responses.

    [json_get_int] accumulates in [int64_t]; the model gives the mathematical
    value, which is the code's value as long as it fits (signed overflow has
    no defined result). *)

From S2P Require Import Prelude SMap Text DocOps PancyDb DocState.

(** The double quote, the backslash and the control characters by name. *)
Definition dquote : ascii := char_of 34.
Definition bslash : ascii := char_of 92.
Definition lf : ascii := char_of 10.
Definition cr : ascii := char_of 13.
Definition tab : ascii := char_of 9.
Definition crlf : txt := [cr; lf].
Definition quoted (s : txt) : txt := dquote :: s ++ [dquote].

(** [std::isalnum] and [std::tolower] in the "C" locale. *)
Definition is_upper (c : ascii) : bool := (65 <=? code c) && (code c <=? 90).
Definition is_lower (c : ascii) : bool := (97 <=? code c) && (code c <=? 122).
Definition is_alnum (c : ascii) : bool := is_digit c || is_upper c || is_lower c.
Definition tolower (c : ascii) : ascii := if is_upper c then char_of (code c + 32) else c.

(** * JSON *)

Definition hex_digit (d : Z) : ascii := if d <? 10 then char_of (48 + d) else char_of (87 + d).

(** [n] lower-case hexadecimal digits of [z], zero padded. *)
Fixpoint hex (n : nat) (z : Z) : txt :=
  match n with
  | O => []
  | S n' => hex n' (z / 16) ++ [hex_digit (z mod 16)]
  end.

Definition json_escape_char (c : ascii) : txt :=
  if ceqb c dquote then [bslash; dquote]
  else if ceqb c bslash then [bslash; bslash]
  else if ceqb c lf then bslash :: $"n"
  else if ceqb c cr then bslash :: $"r"
  else if ceqb c tab then bslash :: $"t"
  else if ceqb c "{"%char then bslash :: $"u007b"
  else if ceqb c "}"%char then bslash :: $"u007d"
  else if code c <? 32 then bslash :: $"u" ++ hex 4 (code c)
  else [c].

Definition json_escape (s : txt) : txt := s ≫= json_escape_char.

(** The scan of [json_get_string] from after the opening quote. *)
Fixpoint json_scan (s out : txt) : option txt :=
  match s with
  | [] => None
  | c :: s' =>
      if ceqb c bslash && bool_decide (s' ≠ []) then
        match s' with
        | [] => None
        | n :: s'' =>
            let d := if ceqb n "n"%char then lf
                     else if ceqb n "t"%char then tab
                     else if ceqb n dquote then dquote
                     else if ceqb n bslash then bslash
                     else n in
            json_scan s'' (out ++ [d])
        end
      else if ceqb c dquote then Some out
      else json_scan s' (out ++ [c])
  end.

(** Position after the colon that follows the quoted key. *)
Definition json_after_colon (body key : txt) : option nat :=
  let needle := quoted key in
  match find_txt needle body 0 with
  | None => None
  | Some k => S <$> find_char ":"%char body (k + length needle)
  end.

Definition json_get_string (body key : txt) : option txt :=
  match json_after_colon body key with
  | None => None
  | Some i =>
      match find_char dquote body i with
      | None => None
      | Some q1 => json_scan (drop (q1 + 1) body) []
      end
  end.

Fixpoint skip_blanks (s : txt) : txt :=
  match s with
  | c :: s' => if ceqb c " "%char || ceqb c tab then skip_blanks s' else s
  | [] => []
  end.

Definition json_get_int (body key : txt) : option Z :=
  match json_after_colon body key with
  | None => None
  | Some i =>
      let s := skip_blanks (drop i body) in
      let '(neg, s) := match s with
                       | c :: s' =>
                           if ceqb c "-"%char || ceqb c "+"%char then (ceqb c "-"%char, s')
                           else (false, s)
                       | [] => (false, s)
                       end in
      let ds := (digit_run s).1 in
      if bool_decide (ds = []) then None
      else Some (if neg then - dec_value ds else dec_value ds)
  end.

(** * The document registry *)

Definition doc_set := smap txt unit.

Definition valid_doc_char (c : ascii) : bool :=
  is_alnum c || ceqb c "_"%char || ceqb c "-"%char || ceqb c "."%char.

Definition valid_doc_id (doc_id : txt) : bool :=
  negb (bool_decide (doc_id = [])) && forallb valid_doc_char doc_id.

Definition docs_registry_json (docs : doc_set) : txt :=
  $"[" ++ mjoin (imap (λ i d, (if (i =? 0)%nat then [] else $",") ++ quoted (json_escape d)) (keys docs))
  ++ $"]".

(** The loop of [parse_docs_registry]; each round consumes a character, so the
    length of the body is enough fuel. *)
Fixpoint parse_docs_loop (fuel : nat) (s : txt) (out : doc_set) : doc_set :=
  match fuel with
  | O => out
  | S f =>
      match s with
      | [] => out
      | c :: s' =>
          if ceqb c dquote then
            match index_of dquote s' with
            | None => out
            | Some n =>
                let d := take n s' in
                let out' := if (0 <? n)%nat && valid_doc_id d then emplace d tt out else out in
                parse_docs_loop f (drop (n + 1) s') out'
            end
          else parse_docs_loop f s' out
      end
  end.

Definition parse_docs_registry (body : txt) : doc_set := parse_docs_loop (length body) body [].

(** * Requests *)

Definition ascii_lower (s : txt) : txt := tolower <$> s.

(** Drop the characters [p] at the end, and at the beginning. *)
Fixpoint trim_front (p : ascii) (s : txt) : txt :=
  match s with
  | c :: s' => if ceqb c p then trim_front p s' else s
  | [] => []
  end.
Definition trim_back (p : ascii) (s : txt) : txt := reverse (trim_front p (reverse s)).

(** The line loop of [find_header] from offset [pos]. *)
Fixpoint find_header_loop (fuel : nat) (head lhead lname : txt) (pos : nat) : txt :=
  match fuel with
  | O => []
  | S f =>
      if (length lhead <=? pos)%nat then []
      else
        let eol := default (length lhead) (find_txt crlf lhead pos) in
        let next := find_header_loop f head lhead lname (eol + 2) in
        match find_char ":"%char lhead pos with
        | None => next
        | Some colon =>
            if (colon <? eol)%nat then
              let hname := trim_back " "%char (substr lhead pos (colon - pos)) in
              if teqb hname lname then
                trim_back " "%char (trim_front " "%char (substr head (colon + 1) (eol - (colon + 1))))
              else next
            else next
        end
  end.

Definition find_header (head name : txt) : txt :=
  find_header_loop (S (length head)) head (ascii_lower head) (ascii_lower name) 0.

Record request_line := mk_request_line {
  rl_method : txt;
  rl_path : txt;
  rl_body_offset : nat;
}.

Definition no_request_line : request_line := mk_request_line [] [] 0.

Definition parse_request_line (buf : txt) : request_line :=
  match find_txt (crlf ++ crlf) buf 0, find_txt crlf buf 0 with
  | Some header_end, Some first_eol =>
      let rl := take first_eol buf in
      match find_char " "%char rl 0 with
      | None => no_request_line
      | Some sp1 =>
          match find_char " "%char rl (sp1 + 1) with
          | None => no_request_line
          | Some sp2 =>
              mk_request_line (take sp1 rl) (substr rl (sp1 + 1) (sp2 - sp1 - 1)) (header_end + 4)
          end
      end
  | _, _ => no_request_line
  end.

Definition parse_doc_route (path : txt) : option (txt * txt) :=
  if negb (starts_with $"/doc/" path) then None
  else
    let rest := drop 5 path in
    match index_of "/"%char rest with
    | None => if negb (valid_doc_id rest) then None else Some (rest, [])
    | Some slash =>
        let doc := take slash rest in
        let sub := drop (slash + 1) rest in
        if negb (valid_doc_id doc) then None else Some (doc, sub)
    end.

(** * Responses and events *)

Definition cursor_key (doc_id : txt) (cid_hash : Z) : txt :=
  $"doc/" ++ doc_id ++ $"/cursor/" ++ dec cid_hash.

Definition cursor_value (client_id : txt) (pos : Z) : txt :=
  $"{" ++ quoted $"client_id" ++ $":" ++ quoted (json_escape client_id)
  ++ $"," ++ quoted $"pos" ++ $":" ++ dec_i64 pos ++ $"}".

Record cursor_entry := mk_cursor_entry {
  cur_version : Z;
  cur_client_id : txt;
  cur_pos : Z;
}.

#[export] Instance cursor_entry_eq_dec : EqDecision cursor_entry.
Proof. solve_decision. Defined.

Definition sse_op_inner (op : doc_op) : txt :=
  match op with
  | insert_op pos text =>
      quoted $"type" ++ $":" ++ quoted $"I" ++ $"," ++ quoted $"pos" ++ $":" ++ dec pos
      ++ $"," ++ quoted $"text" ++ $":" ++ quoted (json_escape text)
  | delete_op pos len =>
      quoted $"type" ++ $":" ++ quoted $"D" ++ $"," ++ quoted $"pos" ++ $":" ++ dec pos
      ++ $"," ++ quoted $"len" ++ $":" ++ dec len
  end.

Definition sse_op_data (c : committed_op) : txt :=
  let cid_json :=
    if bool_decide (co_client_id_label c = []) then dec (co_client_id c)
    else quoted (json_escape (co_client_id_label c)) in
  $"{" ++ quoted $"version" ++ $":" ++ dec_i64 (co_version c)
  ++ $"," ++ quoted $"client_id" ++ $":" ++ cid_json
  ++ $"," ++ quoted $"seq" ++ $":" ++ dec (co_client_seq c)
  ++ $"," ++ quoted $"op" ++ $":{" ++ sse_op_inner (co_op c) ++ $"}}".

Definition sse_op_frame (c : committed_op) : txt :=
  $"id: " ++ dec_i64 (co_version c) ++ [lf] ++ $"event: op" ++ [lf] ++ $"data: "
  ++ sse_op_data c ++ [lf; lf].

Definition sse_cursor_data (cur : cursor_entry) : txt :=
  $"{" ++ quoted $"client_id" ++ $":" ++ quoted (json_escape (cur_client_id cur))
  ++ $"," ++ quoted $"pos" ++ $":" ++ dec_i64 (cur_pos cur)
  ++ $"," ++ quoted $"version" ++ $":" ++ dec_i64 (cur_version cur) ++ $"}".

Definition sse_cursor_frame (cur : cursor_entry) : txt :=
  $"event: cursor" ++ [lf] ++ $"data: " ++ sse_cursor_data cur ++ [lf; lf].

(** FNV-1a, 64 bits. *)
Definition fnv_step (h : Z) (c : ascii) : Z := u64 (Z.lxor h (code c) * 1099511628211).
Definition hash_client_id (s : txt) : Z := foldl fnv_step 1469598103934665603 s.
Definition hash_text (s : txt) : Z := foldl fnv_step 1469598103934665603 s.

Definition preview_text (s : txt) : txt :=
  let n := Nat.min (length s) 80 in
  (take n s ≫= λ c,
     if ceqb c lf then bslash :: $"n"
     else if ceqb c cr then bslash :: $"r"
     else if ceqb c tab then bslash :: $"t"
     else [c])
  ++ (if (n <? length s)%nat then $"..." else []).

Definition text_debug_string (text : txt) : txt :=
  $"len=" ++ dec (size text) ++ $" hash=" ++ hex 16 (hash_text text)
  ++ $" preview=" ++ quoted (preview_text text).

Definition op_debug_string (op : doc_op) : txt :=
  match op with
  | insert_op pos text =>
      $"I@" ++ dec pos ++ $"+" ++ dec (size text) ++ $" " ++ quoted (preview_text text)
  | delete_op pos len => $"D@" ++ dec pos ++ $"x" ++ dec len
  end.

Definition safe_log_component (s : txt) : txt :=
  let out := (λ c, if valid_doc_char c then c else "_"%char) <$> take 80 s in
  if bool_decide (out = []) then $"unknown" else out.

Definition http_response (status : Z) (reason content_type body extra_headers : txt) : txt :=
  $"HTTP/1.1 " ++ dec status ++ $" " ++ reason ++ crlf
  ++ $"Content-Type: " ++ content_type ++ crlf
  ++ $"Content-Length: " ++ dec (size body) ++ crlf
  ++ $"Connection: close" ++ crlf
  ++ $"Access-Control-Allow-Origin: *" ++ crlf
  ++ extra_headers ++ crlf ++ body.

#[global] Arguments json_escape_char : simpl never.

(** * Lemmas *)

(** ** Escaping *)

(** The characters whose escape [json_get_string] decodes. *)
Definition json_safe (c : ascii) : bool :=
  ceqb c lf || ceqb c tab ||
  ((32 <=? code c) && negb (ceqb c "{"%char) && negb (ceqb c "}"%char)).

(** An escaped character is two characters behind a backslash, a longer
    backslash sequence, or itself. *)
Lemma json_escape_char_cases c :
  json_escape_char c = [bslash; dquote] ∧ c = dquote ∨
  json_escape_char c = [bslash; bslash] ∧ c = bslash ∨
  json_escape_char c = [bslash; "n"%char] ∧ c = lf ∨
  json_escape_char c = [bslash; "t"%char] ∧ c = tab ∨
  json_safe c = false ∧ (∃ s, json_escape_char c = bslash :: s ∧ Forall (λ d, 48 ≤ code d) s) ∨
  json_escape_char c = [c] ∧ c ≠ bslash ∧ c ≠ dquote ∧ 32 ≤ code c.
Proof.
  unfold json_escape_char.
  destruct (ceqb c dquote) eqn:E1; [apply ceqb_eq in E1; tauto|].
  destruct (ceqb c bslash) eqn:E2; [apply ceqb_eq in E2; tauto|].
  destruct (ceqb c lf) eqn:E3; [apply ceqb_eq in E3; tauto|].
  assert (Hhex : ∀ d, 0 ≤ d < 16 → 48 ≤ code (hex_digit d)).
  { intros d Hd. unfold hex_digit. case_if; rewrite code_char_of; lia. }
  destruct (ceqb c cr) eqn:E4.
  { apply ceqb_eq in E4 as ->. do 4 right. left. split; [done|]. eexists. split; [done|].
    repeat constructor; vm_compute; congruence. }
  destruct (ceqb c tab) eqn:E5; [apply ceqb_eq in E5; tauto|].
  destruct (ceqb c "{"%char) eqn:E6.
  { apply ceqb_eq in E6 as ->. do 4 right. left. split; [done|]. eexists. split; [done|].
    repeat constructor; vm_compute; congruence. }
  destruct (ceqb c "}"%char) eqn:E7.
  { apply ceqb_eq in E7 as ->. do 4 right. left. split; [done|]. eexists. split; [done|].
    repeat constructor; vm_compute; congruence. }
  case_if.
  - do 4 right. left. split.
    { unfold json_safe. rewrite E3, E5. simpl.
      assert (32 <=? code c = false) as -> by (apply Z.leb_gt; lia). done. }
    eexists. split; [done|]. simpl. constructor; [vm_compute; congruence|].
    repeat constructor; apply Hhex; apply Z.mod_pos_bound; lia.
  - do 5 right. split; [done|]. by apply ceqb_neq in E1, E2.
Qed.

Lemma json_scan_escape_char c rest out :
  json_safe c = true → json_scan (json_escape_char c ++ rest) out = json_scan rest (out ++ [c]).
Proof.
  intros Hs. destruct (json_escape_char_cases c)
    as [[-> ->]|[[-> ->]|[[-> ->]|[[-> ->]|[[Hn _]|(-> & Hb & Hd & _)]]]]]; try done; [congruence|].
  simpl. apply ceqb_neq in Hb, Hd. by rewrite Hb, Hd.
Qed.

Lemma json_scan_escape s rest out :
  Forall (λ c, json_safe c = true) s →
  json_scan (json_escape s ++ dquote :: rest) out = Some (out ++ s).
Proof.
  intros Hs. revert out. induction Hs as [|c s Hc _ IH]; intros out.
  - unfold json_escape. simpl. by rewrite app_nil_r.
  - unfold json_escape in *. rewrite bind_cons, <- app_assoc, json_scan_escape_char by done.
    by rewrite IH, <- app_assoc.
Qed.

(** No control character survives the escaping. *)
Lemma json_escape_printable s : Forall (λ d, 32 ≤ code d) (json_escape s).
Proof.
  unfold json_escape. apply Forall_bind, Forall_forall. intros c _. unfold compose.
  destruct (json_escape_char_cases c)
    as [[-> _]|[[-> _]|[[-> _]|[[-> _]|[[_ (t & -> & Ht)]|(-> & _ & _ & Hc)]]]]].
  1-4: repeat constructor; vm_compute; congruence.
  - constructor; [vm_compute; congruence|]. eapply Forall_impl; [exact Ht|]. simpl. lia.
  - by repeat constructor.
Qed.

Lemma digits_printable f z : Forall (λ d, 32 ≤ code d) (digits f z []).
Proof.
  revert z. induction f as [|f IH]; intros z; simpl; [constructor|].
  assert (0 ≤ z mod 10 < 10) by (apply Z.mod_pos_bound; lia).
  case_if; [|rewrite digits_app; apply Forall_app; split; [apply IH|]];
    repeat constructor; unfold digit_char; rewrite code_char_of; lia.
Qed.

Lemma dec_printable z : Forall (λ d, 32 ≤ code d) (dec z).
Proof. apply digits_printable. Qed.

Lemma dec_i64_printable z : Forall (λ d, 32 ≤ code d) (dec_i64 z).
Proof.
  unfold dec_i64. case_if; [|apply dec_printable].
  apply Forall_app. split; [repeat constructor; vm_compute; congruence|apply dec_printable].
Qed.

Lemma quoted_printable s : Forall (λ d, 32 ≤ code d) s → Forall (λ d, 32 ≤ code d) (quoted s).
Proof.
  intros. unfold quoted. constructor; [vm_compute; congruence|].
  apply Forall_app. split; [done|]. repeat constructor; vm_compute; congruence.
Qed.

(** Constant texts are checked by computation. *)
Lemma printable_lit s : forallb (λ d, 32 <=? code d) s = true → Forall (λ d, 32 ≤ code d) s.
Proof.
  intros H. apply Forall_forall. intros d Hd.
  rewrite forallb_forall in H. apply Z.leb_le, H. by apply list_elem_of_In.
Qed.

#[export] Hint Resolve json_escape_printable dec_printable dec_i64_printable quoted_printable : draft.
#[export] Hint Extern 5 (Forall _ (lit _)) => apply printable_lit; reflexivity : draft.
#[export] Hint Extern 1 (Forall _ (_ ++ _)) => apply Forall_app; split : draft.

Lemma sse_op_data_printable c : Forall (λ d, 32 ≤ code d) (sse_op_data c).
Proof.
  unfold sse_op_data, sse_op_inner. destruct (co_op c); case_if; auto 30 with draft.
Qed.

Lemma sse_cursor_data_printable cur : Forall (λ d, 32 ≤ code d) (sse_cursor_data cur).
Proof. unfold sse_cursor_data. auto 30 with draft. Qed.

Lemma printable_no_lf s : Forall (λ d, 32 ≤ code d) s → lf ∉ s ∧ cr ∉ s.
Proof. rewrite Forall_forall. intros H. split; intros Hin; apply H in Hin; vm_compute in Hin; congruence. Qed.

(** ** Document ids *)

Lemma valid_doc_char_safe c :
  valid_doc_char c = true → c ≠ "/"%char ∧ c ≠ dquote ∧ json_escape_char c = [c].
Proof. destruct c as [[] [] [] [] [] [] [] []]; vm_compute; intuition congruence. Qed.

Lemma valid_doc_id_chars d : valid_doc_id d = true → d ≠ [] ∧ Forall (λ c, valid_doc_char c = true) d.
Proof.
  unfold valid_doc_id. intros H. bsimp. split; [done|].
  apply Forall_forall. intros c Hc. rewrite forallb_forall in H0. by apply H0, list_elem_of_In.
Qed.

Lemma valid_chars_escape d : Forall (λ c, valid_doc_char c = true) d → json_escape d = d.
Proof.
  unfold json_escape. induction 1 as [|c d Hc _ IH]; [done|].
  apply valid_doc_char_safe in Hc as (_ & _ & Hc). by rewrite bind_cons, IH, Hc.
Qed.

Lemma valid_chars_no_slash d : Forall (λ c, valid_doc_char c = true) d → "/"%char ∉ d ∧ dquote ∉ d.
Proof.
  rewrite Forall_forall. intros H. split; intros Hin%H%valid_doc_char_safe; naive_solver.
Qed.

(** ** Reading what was written *)

Lemma index_of_txt_here p s : index_of_txt p (p ++ s) = Some O.
Proof. pose proof (starts_with_app p s) as H. destruct (p ++ s); simpl; by rewrite H. Qed.

Lemma index_of_txt_skip c p d s :
  ceqb c d = false → index_of_txt (c :: p) (d :: s) = S <$> index_of_txt (c :: p) s.
Proof. intros H. cbn [index_of_txt starts_with]. by rewrite H. Qed.

Lemma find_txt_0 p s : find_txt p s 0 = index_of_txt p s.
Proof. unfold find_txt. rewrite drop_0. simpl. by destruct (index_of_txt p s). Qed.

Lemma json_after_colon_first k rest :
  json_after_colon ($"{" ++ quoted k ++ $":" ++ rest) k = Some (2 + length (quoted k))%nat.
Proof.
  unfold json_after_colon.
  assert (find_txt (quoted k) ($"{" ++ quoted k ++ $":" ++ rest) 0 = Some 1%nat) as ->.
  { rewrite find_txt_0. change (index_of_txt (dquote :: k ++ [dquote])
      ("{"%char :: quoted k ++ $":" ++ rest) = Some 1%nat).
    rewrite index_of_txt_skip by done.
    change (dquote :: k ++ [dquote]) with (quoted k). by rewrite index_of_txt_here. }
  unfold find_char.
  replace (drop (1 + length (quoted k)) ($"{" ++ quoted k ++ $":" ++ rest)) with ($":" ++ rest).
  2: { change (drop (1 + length (quoted k)) ($"{" ++ quoted k ++ $":" ++ rest))
         with (drop (length (quoted k)) (quoted k ++ $":" ++ rest)). by rewrite drop_app_length. }
  change (index_of ":"%char ($":" ++ rest)) with (Some O).
  cbn [fmap option_fmap option_map]. f_equal. lia.
Qed.

Lemma drop_past_colon k rest :
  drop (2 + length (quoted k)) ($"{" ++ quoted k ++ $":" ++ rest) = rest.
Proof.
  change (drop (2 + length (quoted k)) ($"{" ++ quoted k ++ $":" ++ rest))
    with (drop (1 + length (quoted k)) (quoted k ++ ($":" ++ rest))).
  rewrite drop_app_ge by lia. replace (1 + length (quoted k) - length (quoted k))%nat with 1%nat by lia.
  done.
Qed.

Lemma find_char_here c s i rest : drop i s = c :: rest → find_char c s i = Some i.
Proof.
  intros H. unfold find_char. rewrite H. simpl. rewrite ceqb_refl. simpl. f_equal. lia.
Qed.

Lemma json_get_string_first k s rest :
  Forall (λ c, json_safe c = true) s →
  json_get_string ($"{" ++ quoted k ++ $":" ++ quoted (json_escape s) ++ rest) k = Some s.
Proof.
  intros Hs. unfold json_get_string. rewrite json_after_colon_first.
  pose proof (drop_past_colon k (quoted (json_escape s) ++ rest)) as Hd.
  rewrite (find_char_here dquote _ _ ((json_escape s ++ [dquote]) ++ rest)) by exact Hd.
  rewrite <- drop_drop, Hd.
  change (drop 1 (quoted (json_escape s) ++ rest)) with ((json_escape s ++ [dquote]) ++ rest).
  rewrite <- app_assoc. simpl. by rewrite json_scan_escape.
Qed.

Definition insert_docs (out : doc_set) (ds : list txt) : doc_set :=
  foldl (λ out d, emplace d tt out) out ds.

Lemma parse_docs_quoted f d r out :
  valid_doc_id d = true →
  parse_docs_loop (S f) (quoted d ++ r) out = parse_docs_loop f r (emplace d tt out).
Proof.
  intros Hd. apply valid_doc_id_chars in Hd as Hd'. destruct Hd' as [Hne Hch].
  apply valid_chars_no_slash in Hch as [_ Hq].
  change (quoted d ++ r) with (dquote :: (d ++ [dquote]) ++ r). rewrite <- app_assoc. simpl.
  rewrite index_of_app by done.
  rewrite take_app_length, Hd.
  assert ((0 <? length d)%nat = true) as ->.
  { apply Nat.ltb_lt. destruct d; [done|simpl; lia]. }
  simpl. rewrite drop_app_ge by lia. replace (length d + 1 - length d)%nat with 1%nat by lia. done.
Qed.

Lemma parse_docs_other f c r out :
  c ≠ dquote → parse_docs_loop (S f) (c :: r) out = parse_docs_loop f r out.
Proof. intros Hc%ceqb_neq. simpl. by rewrite Hc. Qed.

(** The items of the registry from the second on. *)
Lemma parse_docs_items f ds out :
  Forall (λ d, valid_doc_id d = true) ds →
  (length (mjoin ((λ d, ","%char :: quoted d) <$> ds)) + 1 ≤ f)%nat →
  parse_docs_loop f (mjoin ((λ d, ","%char :: quoted d) <$> ds) ++ $"]") out = insert_docs out ds.
Proof.
  intros Hds. revert f out. induction Hds as [|d ds Hd _ IH]; intros f out Hf.
  - destruct f as [|f]; simpl in *; [lia|]. by destruct f.
  - change (mjoin ((λ d, ","%char :: quoted d) <$> (d :: ds)))
      with ((","%char :: quoted d) ++ mjoin ((λ d, ","%char :: quoted d) <$> ds)) in *.
    rewrite length_app in Hf. change (length (","%char :: quoted d)) with (S (length (quoted d))) in Hf.
    assert (2 ≤ length (quoted d))%nat by (unfold quoted; simpl; rewrite length_app; simpl; lia).
    destruct f as [|[|f]]; [lia..|]. rewrite <- app_assoc.
    change ((","%char :: quoted d) ++ ?r) with (","%char :: (quoted d ++ r)).
    rewrite parse_docs_other by done. rewrite parse_docs_quoted by done.
    rewrite IH by lia. done.
Qed.

Lemma registry_text ds :
  Forall (λ d, valid_doc_id d = true) ds →
  mjoin (imap (λ i d, (if (i =? 0)%nat then [] else $",") ++ quoted (json_escape d)) ds) =
  match ds with
  | [] => []
  | d :: ds' => quoted d ++ mjoin ((λ d, ","%char :: quoted d) <$> ds')
  end.
Proof.
  intros Hds.
  assert (Hesc : ∀ d, d ∈ ds → json_escape d = d).
  { intros d Hd. rewrite Forall_forall in Hds. by apply Hds, valid_doc_id_chars in Hd as [_ ?%valid_chars_escape]. }
  destruct ds as [|d ds]; [done|]. rewrite imap_cons.
  transitivity (quoted (json_escape d) ++ mjoin (imap (λ i d, $"," ++ quoted (json_escape d)) ds)); [done|].
  rewrite Hesc by left. apply (f_equal (app (quoted d))).
  change (imap _ ds) with (imap (const (λ d, $"," ++ quoted (json_escape d))) ds).
  rewrite imap_const. apply (f_equal mjoin). apply list_fmap_ext. intros i x Hx.
  rewrite Hesc; [done|]. right. by eapply list_elem_of_lookup_2.
Qed.

Lemma parse_docs_text ds :
  Forall (λ d, valid_doc_id d = true) ds →
  parse_docs_registry ($"[" ++ mjoin (imap (λ i d, (if (i =? 0)%nat then [] else $",")
    ++ quoted (json_escape d)) ds) ++ $"]") = insert_docs [] ds.
Proof.
  intros Hds. rewrite registry_text by done. unfold parse_docs_registry.
  change ($"[" ++ ?r) with ("["%char :: r). rewrite length_cons, parse_docs_other by done.
  inversion Hds as [|d ds' Hd Hds' Heq]; subst; [done|].
  rewrite <- app_assoc, length_app.
  assert (2 ≤ length (quoted d))%nat by (unfold quoted; simpl; rewrite length_app; simpl; lia).
  destruct (length (quoted d)) as [|n] eqn:E; [lia|]. simpl plus.
  rewrite parse_docs_quoted by done. rewrite parse_docs_items; [done|done|].
  rewrite length_app. simpl. lia.
Qed.

Lemma find_insert_docs k out ds :
  find k (insert_docs out ds) = if decide (k ∈ ds) then Some tt else find k out.
Proof.
  revert out. induction ds as [|d ds IH]; intros out; simpl.
  { done. }
  rewrite IH, find_emplace.
  destruct (decide (k ∈ ds)) as [Hk|Hk].
  { rewrite decide_True by by right. done. }
  destruct (keqb k d) eqn:E.
  - apply keqb_true in E as ->. rewrite decide_True by left. by destruct (find d out) as [[]|].
  - apply keqb_false in E. rewrite decide_False by (rewrite elem_of_cons; naive_solver).
    by destruct (find k out).
Qed.

Lemma wf_insert_docs out ds : wf out → wf (insert_docs out ds).
Proof.
  revert out. induction ds as [|d ds IH]; intros out Hwf; [done|]. by apply IH, wf_emplace.
Qed.

Lemma insert_docs_keys docs : wf docs → insert_docs [] (keys docs) = docs.
Proof.
  intros Hwf. apply wf_ext; [apply wf_insert_docs, wf_nil|done|]. intros k.
  rewrite find_insert_docs. case_decide as Hk.
  - destruct (find k docs) as [[]|] eqn:E; [done|]. by apply find_None_keys in E.
  - symmetry. by apply find_None_keys.
Qed.

(** The registry survives being printed and parsed. *)
Lemma registry_roundtrip (docs : doc_set) :
  wf docs → Forall (λ d, valid_doc_id d = true) (keys docs) →
  parse_docs_registry (docs_registry_json docs) = docs.
Proof.
  intros Hwf Hv. unfold docs_registry_json. rewrite parse_docs_text by done.
  by apply insert_docs_keys.
Qed.

(** ** Routes *)

Lemma parse_doc_route_Some path doc sub :
  parse_doc_route path = Some (doc, sub) →
  valid_doc_id doc = true ∧ (path = $"/doc/" ++ doc ∧ sub = [] ∨ path = $"/doc/" ++ doc ++ $"/" ++ sub).
Proof.
  unfold parse_doc_route. case_if; [done|]. apply starts_with_true in Ec as [rest ->].
  change (drop 5 ($"/doc/" ++ rest)) with rest.
  destruct (index_of "/"%char rest) as [n|] eqn:E.
  - case_if; [done|]. intros [= <- <-]. split; [done|]. right.
    apply index_of_Some in E. by rewrite E at 1.
  - case_if; [done|]. intros [= <- <-]. tauto.
Qed.

(** * Properties *)

(** A client id stored in a cursor value is read back by
    [json_get_string], for every id without carriage return, brace or other
    control character than newline and tab. *)
Theorem cursor_client_id_roundtrip (client_id : txt) (pos : Z) :
  Forall (λ c, json_safe c = true) client_id →
  json_get_string (cursor_value client_id pos) $"client_id" = Some client_id.
Proof. intros H. by apply json_get_string_first. Qed.

Lemma cursor_client_id_roundtrip_witness :
  json_get_string (cursor_value ($"c_" ++ [dquote; bslash; lf]) 12) $"client_id" =
    Some ($"c_" ++ [dquote; bslash; lf]).
Proof. apply cursor_client_id_roundtrip. apply (bool_decide_unpack _). vm_compute. exact I. Defined.

(** Every event the server streams is a single event: its data is one line,
    whatever text, label or cursor id clients sent. *)
Theorem sse_data_single_line (c : committed_op) (cur : cursor_entry) :
  (lf ∉ sse_op_data c ∧ cr ∉ sse_op_data c) ∧
  (lf ∉ sse_cursor_data cur ∧ cr ∉ sse_cursor_data cur).
Proof.
  split; apply printable_no_lf; [apply sse_op_data_printable|apply sse_cursor_data_printable].
Qed.

(** A routed document id is valid, has no slash (so documents are isolated
    from each other), and the path is rebuilt from the parts. *)
Theorem parse_doc_route_sound (path doc sub : txt) :
  parse_doc_route path = Some (doc, sub) →
  valid_doc_id doc = true ∧ "/"%char ∉ doc ∧
  (path = $"/doc/" ++ doc ∧ sub = [] ∨ path = $"/doc/" ++ doc ++ $"/" ++ sub).
Proof.
  intros H. apply parse_doc_route_Some in H as [Hv Hp]. split_and!; [done| |done].
  by apply valid_doc_id_chars in Hv as [_ [? _]%valid_chars_no_slash].
Qed.

Lemma parse_doc_route_sound_witness :
  valid_doc_id $"main" = true ∧ "/"%char ∉ $"main" ∧
  ($"/doc/main/op/x" = $"/doc/" ++ $"main" ∧ $"op/x" = [] ∨
   $"/doc/main/op/x" = $"/doc/" ++ $"main" ++ $"/" ++ $"op/x").
Proof. apply (parse_doc_route_sound $"/doc/main/op/x" $"main" $"op/x"). vm_compute. done. Defined.

(** The name of a browser log never leaves the log directory: each
    component is at most 80 characters, none of them a slash, and is not
    empty. *)
Theorem safe_log_component_safe (s : txt) :
  let out := safe_log_component s in
  out ≠ [] ∧ (length out ≤ 80)%nat ∧ Forall (λ c, valid_doc_char c = true) out ∧ "/"%char ∉ out.
Proof.
  assert (Hv : Forall (λ c, valid_doc_char c = true) (safe_log_component s)).
  { unfold safe_log_component. case_if; [by repeat constructor|].
    apply Forall_fmap, Forall_forall. intros c _. simpl. case_if; done. }
  split_and!; [| |done|by apply valid_chars_no_slash].
  - unfold safe_log_component. by case_if.
  - unfold safe_log_component. case_if; [simpl; lia|]. rewrite length_fmap, length_take. lia.
Qed.
