(* ===== verification/HttpMessage.v ===== *)
(** HTTP messages of the coroutine library, [src/cotamer/http.hh] and
    [src/cotamer/http.cc]: the header block and its index, the split of a URL,
    the decoding of its query, the callbacks that build a message, the receive
    loop and the text of requests, responses and chunks.

    The lexer ([llhttp]) is not part of the repository: its calls are the
    variables of the sections that use it.  Offsets are C++ [unsigned]; the
    model has natural numbers, which agree for header blocks and queries below
    4 GB.  Capacity reservations ([reserve]) have no effect on the value and
    are left out. *)

From S2P Require Import Prelude Text HttpText.

(** * Messages *)

Record http_kvoffsets := KvOffsets { name1 : nat; name2 : nat; value1 : nat; value2 : nat }.

(** [name] and [value] of an entry over its base text. *)
Definition kv_name (base : txt) (p : http_kvoffsets) : txt :=
  substr base (name1 p) (name2 p - name1 p).
Definition kv_value (base : txt) (p : http_kvoffsets) : txt :=
  substr base (value1 p) (value2 p - value1 p).

(** The cached analysis of the URL: the flags [info_url] and [info_params],
    the path, search and hash fields, and the decoded query. *)
Record info_type := InfoType {
  inf_url : bool;
  inf_params : bool;
  inf_f : list (nat * nat);
  inf_qurl : txt;
  inf_qpairs : list http_kvoffsets
}.
Definition new_info : info_type := InfoType false false [(O, O); (O, O); (O, O)] [] [].

Record http_message := HttpMessage {
  major_ : Z;
  minor_ : Z;
  method_ : Z;
  error_ : Z;
  status_code_ : Z;
  upgrade_ : Z;
  has_body_ : bool;
  url_ : txt;
  status_message_ : txt;
  headers_ : txt;
  hpairs_ : list http_kvoffsets;
  body_ : txt;
  info_ : option info_type
}.

(** [HTTP_GET] and [HPE_OK] of [llhttp.h]. *)
Definition HTTP_GET : Z := 1.
Definition HPE_OK : Z := 0.

(** The constructors: the default, a request, and a response. *)
Definition new_http_message : http_message :=
  HttpMessage 1 1 HTTP_GET HPE_OK 200 0 false [] [] [] [] [] None.
Definition new_request (method : Z) (url : txt) : http_message :=
  HttpMessage 1 1 (method mod 256) HPE_OK 200 0 false url [] [] [] [] None.
Definition new_response (status_code : Z) : http_message :=
  HttpMessage 1 1 HTTP_GET HPE_OK (status_code mod 65536) 0 false [] [] [] [] [] None.

(** The copy constructor: every field but the index of the header block (and
    the cache) is copied. *)
Definition copy_message (x : http_message) : http_message :=
  HttpMessage (major_ x) (minor_ x) (method_ x) (error_ x) (status_code_ x) (upgrade_ x)
    (has_body_ x) (url_ x) (status_message_ x) (headers_ x) [] (body_ x) None.

Definition clear_flags (i : info_type) : info_type :=
  InfoType false false (inf_f i) (inf_qurl i) (inf_qpairs i).

(** [m = x], for distinct objects. *)
Definition assign_message (m x : http_message) : http_message :=
  HttpMessage (major_ x) (minor_ x) (method_ x) (error_ x) (status_code_ x) (upgrade_ x)
    (has_body_ x) (url_ x) (status_message_ x) (headers_ x) (hpairs_ x) (body_ x)
    (clear_flags <$> info_ m).

Definition do_clear (m : http_message) : http_message :=
  HttpMessage 1 1 HTTP_GET HPE_OK 200 0 false [] [] (headers_ m) [] [] (clear_flags <$> info_ m).

(** ** Header lines *)

Definition add_header (m : http_message) (key value : txt) : http_message :=
  let n1 := length (headers_ m) in
  let n2 := (n1 + length key)%nat in
  HttpMessage (major_ m) (minor_ m) (method_ m) (error_ m) (status_code_ m) (upgrade_ m)
    (has_body_ m) (url_ m) (status_message_ m)
    (headers_ m ++ key ++ $": " ++ value ++ crlf)
    (hpairs_ m ++ [KvOffsets n1 n2 (n2 + 2) (n2 + 2 + length value)])
    (body_ m) (info_ m).

Definition add_header_number (m : http_message) (key : txt) (value : Z) : http_message :=
  add_header m key (dec value).

(** [strings::ieq] on two characters arrays of one length, and on views. *)
Fixpoint ieq_chars (a b : txt) : bool :=
  match a, b with
  | x :: a', y :: b' => if ceqb (tolower x) (tolower y) then ieq_chars a' b' else false
  | _, _ => true
  end.
Definition ieq (a b : txt) : bool := (length a =? length b)%nat && ieq_chars a b.

(** The headers as the iterator yields them. *)
Definition header_pairs (m : http_message) : list (txt * txt) :=
  (λ p, (kv_name (headers_ m) p, kv_value (headers_ m) p)) <$> hpairs_ m.

(** [find_header]: the position of the first header called [name];
    [header_end()] is the number of headers. *)
Fixpoint find_header_from (base : txt) (it : list http_kvoffsets) (name : txt) : nat :=
  match it with
  | [] => O
  | p :: it' => if negb (ieq (kv_name base p) name) then S (find_header_from base it' name) else O
  end.
Definition find_header (m : http_message) (name : txt) : nat :=
  find_header_from (headers_ m) (hpairs_ m) name.
Definition header_end (m : http_message) : nat := length (hpairs_ m).
Definition has_header (m : http_message) (name : txt) : bool :=
  negb (find_header m name =? header_end m)%nat.

(** [header(name)]: the values of every header called [name], joined. *)
Fixpoint header_loop (base : txt) (it : list http_kvoffsets) (name result : txt) (any : bool) : txt :=
  match it with
  | [] => result
  | p :: it' =>
      if ieq (kv_name base p) name then
        if any then header_loop base it' name (result ++ $", " ++ kv_value base p) true
        else header_loop base it' name (kv_value base p) true
      else header_loop base it' name result any
  end.
Definition header (m : http_message) (name : txt) : txt :=
  header_loop (headers_ m) (hpairs_ m) name [] false.

(** ** Setters: the fields are [unsigned char] and [unsigned short]. *)

Definition set_url (m : http_message) (url : txt) : http_message :=
  HttpMessage (major_ m) (minor_ m) (method_ m) (error_ m) (status_code_ m) (upgrade_ m)
    (has_body_ m) url (status_message_ m) (headers_ m) (hpairs_ m) (body_ m)
    (clear_flags <$> info_ m).
Definition set_status (m : http_message) (code : Z) (message : txt) : http_message :=
  HttpMessage (major_ m) (minor_ m) (method_ m) (error_ m) (code mod 65536) (upgrade_ m)
    (has_body_ m) (url_ m) message (headers_ m) (hpairs_ m) (body_ m) (info_ m).
Definition set_version (m : http_message) (v w : Z) : http_message :=
  HttpMessage (v mod 256) (w mod 256) (method_ m) (error_ m) (status_code_ m) (upgrade_ m)
    (has_body_ m) (url_ m) (status_message_ m) (headers_ m) (hpairs_ m) (body_ m) (info_ m).
Definition set_method (m : http_message) (method : Z) : http_message :=
  HttpMessage (major_ m) (minor_ m) (method mod 256) (error_ m) (status_code_ m) (upgrade_ m)
    (has_body_ m) (url_ m) (status_message_ m) (headers_ m) (hpairs_ m) (body_ m) (info_ m).
Definition set_error (m : http_message) (e : Z) : http_message :=
  HttpMessage (major_ m) (minor_ m) (method_ m) (e mod 256) (status_code_ m) (upgrade_ m)
    (has_body_ m) (url_ m) (status_message_ m) (headers_ m) (hpairs_ m) (body_ m) (info_ m).
Definition set_body (m : http_message) (body : txt) : http_message :=
  HttpMessage (major_ m) (minor_ m) (method_ m) (error_ m) (status_code_ m) (upgrade_ m)
    true (url_ m) (status_message_ m) (headers_ m) (hpairs_ m) body (info_ m).
Definition append_body (m : http_message) (x : txt) : http_message :=
  set_body m (body_ m ++ x).

(** * The URL *)

(** The table [urlsafe]: the bit [us_safe], the bit [us_hex], and the value of
    a hexadecimal digit in the high half. *)
Definition us_safe : Z := 1.
Definition us_hex : Z := 2.

Definition urlsafe_rows : list (list Z) :=
  [ [0;0;0;0;0;0;0;0;  0;0;0;0;0;0;0;0];
    [0;0;0;0;0;0;0;0;  0;0;0;0;0;0;0;0];
    [0;1;0;0;1;1;1;1;  1;1;1;1;1;1;1;1];
    [3;19;35;51;67;83;99;115;  131;147;1;1;0;1;0;0];
    [1;163;179;195;211;227;243;1;  1;1;1;1;1;1;1;1];
    [1;1;1;1;1;1;1;1;  1;1;1;1;1;1;1;1];
    [1;163;179;195;211;227;243;1;  1;1;1;1;1;1;1;1];
    [1;1;1;1;1;1;1;1;  1;1;1;1;1;1;1;0] ].

(** The elements the initializer does not name are zero. *)
Definition urlsafe (c : ascii) : Z := nth (Z.to_nat (code c)) (concat urlsafe_rows) 0.
Definition url_safe (c : ascii) : bool := negb (Z.land (urlsafe c) us_safe =? 0).
Definition url_hex (c : ascii) : bool := negb (Z.land (urlsafe c) us_hex =? 0).
Definition xvalue (c : ascii) : Z := Z.shiftr (urlsafe c) 4.

(** [f[fpos] = {fpos ? f[fpos-1].second : 0, pos}], for the next [n] fields;
    [fpos] is the number of fields set. *)
Fixpoint fill_fields (n : nat) (pos : nat) (f : list (nat * nat)) : list (nat * nat) :=
  match n with
  | O => f
  | S n' => fill_fields n' pos (f ++ [(match last f with Some p => p.2 | None => O end, pos)])
  end.

(** The scan of [make_info] at position [i]; [None] is the label [fail]. *)
Fixpoint scan_url (s : txt) (i : nat) (f : list (nat * nat)) : option (list (nat * nat)) :=
  match s with
  | [] => Some f
  | c :: s' =>
      if url_safe c then scan_url s' (S i) f
      else if ceqb c "?"%char then
        scan_url s' (S i) (if bool_decide (length f = O) then [(O, i)] else f)
      else if ceqb c "#"%char then scan_url s' (S i) (fill_fields (2 - length f) i f)
      else None
  end.

(** The three fields; on failure all are empty. *)
Definition url_fields (url : txt) : list (nat * nat) :=
  let r := match url with
           | c :: _ => if ceqb c "/"%char then scan_url url O [] else None
           | [] => None
           end in
  match r with
  | Some f => fill_fields (3 - length f) (length url) f
  | None => fill_fields 3 O []
  end.

(** * The query

    The scan keeps [qurl], the raw text since [last], the state (0 at the
    beginning of a pair, 1 in a name, 2 in a value), the offsets of the pair
    being read, and the pairs read. *)
Record query_scan := QueryScan {
  q_url : txt;
  q_raw : txt;
  q_state : Z;
  q_nstart : nat; q_nend : nat; q_vstart : nat; q_vend : nat;
  q_pairs : list http_kvoffsets
}.

(** [inf.qurl.length() + s - last]. *)
Definition q_pos (q : query_scan) : nat := (length (q_url q) + length (q_raw q))%nat.

Definition q_amp (q : query_scan) : query_scan :=
  let here := q_pos q in
  let raw := q_raw q ++ ["&"%char] in
  let start := (length (q_url q) + length raw)%nat in
  if negb (q_state q =? 0) then
    let '(nend, vstart) := if q_state q =? 1 then (here, here) else (q_nend q, q_vstart q) in
    QueryScan (q_url q) raw 0 start start vstart here
      (q_pairs q ++ [KvOffsets (q_nstart q) nend vstart here])
  else QueryScan (q_url q) raw 0 start start (q_vstart q) (q_vend q) (q_pairs q).

Definition q_equals (q : query_scan) : query_scan :=
  QueryScan (q_url q) (q_raw q ++ ["="%char]) 2 (q_nstart q) (q_pos q) (q_pos q + 1) (q_vend q) (q_pairs q).

(** [if (state == 0) state = 1]. *)
Definition q_begin (q : query_scan) : query_scan :=
  QueryScan (q_url q) (q_raw q) (if q_state q =? 0 then 1 else q_state q)
    (q_nstart q) (q_nend q) (q_vstart q) (q_vend q) (q_pairs q).

(** Append the raw text and the decoded character [c]. *)
Definition q_decoded (q : query_scan) (c : ascii) : query_scan :=
  QueryScan (q_url q ++ q_raw q ++ [c]) [] (q_state q)
    (q_nstart q) (q_nend q) (q_vstart q) (q_vend q) (q_pairs q).

Definition q_plain (q : query_scan) (c : ascii) : query_scan :=
  QueryScan (q_url q) (q_raw q ++ [c]) (q_state q)
    (q_nstart q) (q_nend q) (q_vstart q) (q_vend q) (q_pairs q).

(** After the loop: flush the raw text and the open pair. *)
Definition q_finish (q : query_scan) : txt * list http_kvoffsets :=
  let qurl := q_url q ++ q_raw q in
  if negb (q_state q =? 0) then
    let vend := length qurl in
    let '(nend, vstart) := if q_state q =? 1 then (vend, vend) else (q_nend q, q_vstart q) in
    (qurl, q_pairs q ++ [KvOffsets (q_nstart q) nend vstart vend])
  else (qurl, q_pairs q).

(** The loop over [[s, s2)].  [after] is what memory holds from [s2] on: the
    test for a percent escape reads [s[1]] and [s[2]] once [s2 - s >= 2], so
    [s[2]] may be [*s2].  Were it a hexadecimal digit, [s + 3] would pass [s2]
    and the loop would run past the end: the result is then [None]. *)
Fixpoint scan_query (s after : txt) (q : query_scan) : option query_scan :=
  match s with
  | [] => Some q
  | c :: s' =>
      if ceqb c "&"%char then scan_query s' after (q_amp q)
      else if ceqb c "="%char && (q_state q <=? 1) then scan_query s' after (q_equals q)
      else
        let q := q_begin q in
        let literal := if ceqb c "+"%char then scan_query s' after (q_decoded q " "%char)
                       else scan_query s' after (q_plain q c) in
        if ceqb c "%"%char then
          match s' with
          | a :: b :: s'' =>
              if url_hex a && url_hex b
              then scan_query s'' after (q_decoded q (char_of (xvalue a * 16 + xvalue b)))
              else literal
          | [a] =>
              match after with
              | b :: _ => if url_hex a && url_hex b then None else literal
              | [] => literal
              end
          | [] => literal
          end
        else literal
  end.

Definition new_scan : query_scan := QueryScan [] [] 0 O O O O [].

Definition nul : ascii := char_of 0.

(** [make_info]: the flag [info_url] is tested and never set. *)
Definition make_info (m : http_message) (want_url want_params : bool) : option info_type :=
  let inf := match info_ m with Some i => i | None => new_info end in
  let inf1 := if negb (inf_url inf) && (want_url || want_params)
              then InfoType (inf_url inf) (inf_params inf) (url_fields (url_ m)) (inf_qurl inf) (inf_qpairs inf)
              else inf in
  if negb (inf_params inf1) && want_params then
    let '(b, e) := nth 1 (inf_f inf1) (O, O) in
    if negb (b =? e)%nat then
      let query := take (e - (b + 1)) (drop (b + 1) (url_ m)) in
      q ← scan_query query (drop e (url_ m) ++ [nul]) new_scan;
      Some (InfoType (inf_url inf1) true (inf_f inf1) (q_finish q).1 (q_finish q).2)
    else Some (InfoType (inf_url inf1) true (inf_f inf1) [] [])
  else Some inf1.

(** [info(f)] and the accessors over it; the message is [mutable] in its
    cache, so each returns the message too. *)
Definition info (m : http_message) (want_url want_params : bool) : option (info_type * http_message) :=
  let cached := match info_ m with
                | Some i => (negb want_url || inf_url i) && (negb want_params || inf_params i)
                | None => false
                end in
  i ← (if cached then info_ m else make_info m want_url want_params);
  Some (i, HttpMessage (major_ m) (minor_ m) (method_ m) (error_ m) (status_code_ m) (upgrade_ m)
             (has_body_ m) (url_ m) (status_message_ m) (headers_ m) (hpairs_ m) (body_ m) (Some i)).

Definition url_field (m : http_message) (field : nat) : option txt :=
  i ← info m true false;
  let '(b, e) := nth field (inf_f i.1) (O, O) in
  Some (if negb (b =? e)%nat then substr (url_ m) b (e - b) else []).
Definition has_url_field (m : http_message) (field : nat) : option bool :=
  i ← info m true false;
  let '(b, e) := nth field (inf_f i.1) (O, O) in Some (negb (b =? e)%nat).
Definition path (m : http_message) : option txt := url_field m 0.
Definition search (m : http_message) : option txt := url_field m 1.
Definition hash (m : http_message) : option txt := url_field m 2.

Fixpoint find_param (qurl : txt) (it : list http_kvoffsets) (name : txt) : option http_kvoffsets :=
  match it with
  | [] => None
  | p :: it' => if teqb (kv_name qurl p) name then Some p else find_param qurl it' name
  end.
Definition has_search_param (m : http_message) (name : txt) : option bool :=
  i ← info m false true;
  Some (match find_param (inf_qurl i.1) (inf_qpairs i.1) name with Some _ => true | None => false end).
Definition search_param (m : http_message) (name : txt) : option txt :=
  i ← info m false true;
  Some (match find_param (inf_qurl i.1) (inf_qpairs i.1) name with
        | Some p => kv_value (inf_qurl i.1) p
        | None => []
        end).

(** * Laws of the query scan *)

(** The text decoded so far. *)
Definition q_text (q : query_scan) : txt := q_url q ++ q_raw q.

Lemma q_pos_text q : q_pos q = length (q_text q).
Proof. unfold q_pos, q_text. by rewrite length_app. Qed.

#[local] Arguments q_amp : simpl never.
#[local] Arguments q_equals : simpl never.
#[local] Arguments q_begin : simpl never.
#[local] Arguments q_decoded : simpl never.
#[local] Arguments q_plain : simpl never.

Lemma q_amp_text q : q_text (q_amp q) = q_text q ++ ["&"%char].
Proof. unfold q_amp, q_text. repeat case_if; simpl; by rewrite (assoc_L (++)). Qed.
Lemma q_equals_text q : q_text (q_equals q) = q_text q ++ ["="%char].
Proof. unfold q_equals, q_text. simpl. by rewrite (assoc_L (++)). Qed.
Lemma q_begin_text q : q_text (q_begin q) = q_text q.
Proof. done. Qed.
Lemma q_decoded_text q c : q_text (q_decoded q c) = q_text q ++ [c].
Proof. unfold q_decoded, q_text. simpl. by rewrite app_nil_r, (assoc_L (++)). Qed.
Lemma q_plain_text q c : q_text (q_plain q c) = q_text q ++ [c].
Proof. unfold q_plain, q_text. simpl. by rewrite (assoc_L (++)). Qed.
#[local] Hint Rewrite q_amp_text q_equals_text q_begin_text q_decoded_text q_plain_text : draft_rw.

(** A property that every step of the scan keeps holds at its end. *)
Section ScanInduction.
  Context (P : query_scan → Prop).
  Hypothesis P_amp : ∀ q, P q → P (q_amp q).
  Hypothesis P_equals : ∀ q, P q → q_state q ≤ 1 → P (q_equals q).
  Hypothesis P_begin : ∀ q, P q → P (q_begin q).
  Hypothesis P_decoded : ∀ q c, P q → P (q_decoded q c).
  Hypothesis P_plain : ∀ q c, P q → P (q_plain q c).

Lemma scan_query_keeps s after q q' : scan_query s after q = Some q' → P q → P q'.
  Proof.
    revert q. induction s as [s IH] using (induction_ltof1 _ (@length ascii)). unfold ltof in IH.
    destruct s as [|c s']; [by intros q [= ->]|]. intros q.
    assert (IH' : ∀ q, scan_query s' after q = Some q' → P q → P q').
    { intros p. apply (IH s'). simpl. lia. }
    simpl. case_if; [eauto|]. case_if; [eauto|].
    assert (Hl : (if ceqb c "+"%char then scan_query s' after (q_decoded (q_begin q) " "%char)
                  else scan_query s' after (q_plain (q_begin q) c)) = Some q' → P q → P q').
    { case_if; eauto. }
    case_if; [|done]. destruct s' as [|a [|b s'']]; [done|by destruct after; [|case_if]|].
    case_if; [|done]. intros Hs Hq. eapply (IH s''); eauto. simpl. lia.
  Qed.
End ScanInduction.

(** The reads of the percent test stay in bounds when the text that follows
    does not begin with a hexadecimal digit. *)
Lemma scan_query_total s after q :
  (∀ b, head after = Some b → url_hex b = false) → is_Some (scan_query s after q).
Proof.
  intros Ha. revert q. induction s as [s IH] using (induction_ltof1 _ (@length ascii)). unfold ltof in IH.
  destruct s as [|c s']; [eauto|]. intros q.
  assert (IH' : ∀ q, is_Some (scan_query s' after q)) by (intros; apply IH; simpl; lia).
  simpl. case_if; [done|]. case_if; [done|].
  assert (Hl : is_Some (if ceqb c "+"%char then scan_query s' after (q_decoded (q_begin q) " "%char)
                  else scan_query s' after (q_plain (q_begin q) c))) by (case_if; done).
  case_if; [|done]. destruct s' as [|a [|b s'']]; [done| |].
  - destruct after as [|b after']; [done|]. rewrite (Ha b) by done. by rewrite andb_false_r.
  - case_if; [|done]. apply IH. simpl. lia.
Qed.

(** Offsets that lie in a text of length [n], in order. *)
Definition in_range (n : nat) (p : http_kvoffsets) : Prop :=
  (name1 p ≤ name2 p ≤ value1 p)%nat ∧ (value1 p ≤ value2 p ≤ n)%nat.

Definition scan_ok (q : query_scan) : Prop :=
  Forall (in_range (q_pos q)) (q_pairs q) ∧ (q_nstart q ≤ q_pos q)%nat ∧
  (1 < q_state q → (q_nstart q ≤ q_nend q)%nat ∧ (q_vstart q = q_nend q + 1)%nat ∧ (q_vstart q ≤ q_pos q)%nat).

Lemma in_range_le n m p : in_range n p → (n ≤ m)%nat → in_range m p.
Proof. unfold in_range. lia. Qed.

Lemma scan_ok_grow q q' :
  scan_ok q → (q_pos q ≤ q_pos q')%nat → q_state q' = q_state q ∨ q_state q' = 1 → q_nstart q' = q_nstart q →
  q_nend q' = q_nend q → q_vstart q' = q_vstart q → q_pairs q' = q_pairs q → scan_ok q'.
Proof.
  intros (H1 & H2 & H3) Hp Hs E1 E2 E3 E4. unfold scan_ok. rewrite E1, E2, E3, E4.
  split; [|split; [lia|]].
  - eapply Forall_impl; [exact H1|]. intros p Hr. by eapply in_range_le.
  - intros Hlt. destruct Hs as [Hs|Hs]; rewrite Hs in Hlt; [|lia]. destruct (H3 Hlt) as (? & ? & ?). lia.
Qed.

(** The pair that ends at the current position. *)
Definition open_pair (q : query_scan) : http_kvoffsets :=
  if q_state q =? 1 then KvOffsets (q_nstart q) (q_pos q) (q_pos q) (q_pos q)
  else KvOffsets (q_nstart q) (q_nend q) (q_vstart q) (q_pos q).

Lemma scan_ok_open q : scan_ok q → 0 < q_state q → in_range (q_pos q) (open_pair q).
Proof.
  intros (_ & H2 & H3) Hs. unfold open_pair, in_range. case_if; simpl; [lia|].
  destruct H3 as (? & ? & ?); lia.
Qed.

Definition closed_pairs (q : query_scan) : list http_kvoffsets :=
  q_pairs q ++ (if q_state q =? 0 then [] else [open_pair q]).

Lemma q_amp_eq q :
  q_pairs (q_amp q) = closed_pairs q ∧ q_state (q_amp q) = 0 ∧ q_nstart (q_amp q) = q_pos (q_amp q).
Proof.
  unfold q_amp, closed_pairs, open_pair, q_pos. destruct (q_state q =? 0); simpl; [by rewrite app_nil_r|].
  by destruct (q_state q =? 1).
Qed.

Lemma q_finish_eq q : q_finish q = (q_text q, closed_pairs q).
Proof.
  unfold q_finish, closed_pairs, open_pair. rewrite q_pos_text. fold (q_text q).
  destruct (q_state q =? 0); simpl; [by rewrite app_nil_r|]. by destruct (q_state q =? 1).
Qed.

(** The states of the scan, with the ranges of its offsets. *)
Definition scan_inv (q : query_scan) : Prop := 0 ≤ q_state q ≤ 2 ∧ scan_ok q.

Lemma closed_pairs_ok q : scan_inv q → Forall (in_range (q_pos q)) (closed_pairs q).
Proof.
  intros [Hs Hok]. unfold closed_pairs. apply Forall_app. split; [apply Hok|].
  case_if; [done|]. apply Forall_singleton, scan_ok_open; [done|lia].
Qed.

Lemma q_pos_amp q : q_pos (q_amp q) = S (q_pos q).
Proof. rewrite !q_pos_text, q_amp_text, length_app. simpl. lia. Qed.

Lemma scan_inv_keeps s after q q' : scan_query s after q = Some q' → scan_inv q → scan_inv q'.
Proof.
  apply (scan_query_keeps scan_inv); clear; intros q.
  - intros [Hs Hok]. destruct (q_amp_eq q) as (E1 & E2 & E3). split; [lia|].
    split; [|split; [lia|lia]]. rewrite E1. eapply Forall_impl; [by apply closed_pairs_ok|].
    intros p Hp. eapply in_range_le; [exact Hp|]. rewrite q_pos_amp. lia.
  - intros [Hs (H1 & H2 & H3)] Hle.
    assert (Hp : q_pos (q_equals q) = S (q_pos q)) by (rewrite !q_pos_text, q_equals_text, length_app; simpl; lia).
    split; [done|]. split; [|split]; [| |intros _; split; [done|]]; rewrite ?Hp; simpl; try lia.
    eapply Forall_impl; [exact H1|]. intros p Hr. eapply in_range_le; [exact Hr|lia].
  - intros [Hs Hok]. unfold q_begin. case_if; (split; [simpl; lia|]);
      apply (scan_ok_grow q); simpl; auto.
  - intros c [Hs Hok]. split; [done|]. apply (scan_ok_grow q); auto.
    rewrite !q_pos_text, q_decoded_text, length_app. lia.
  - intros c [Hs Hok]. split; [done|]. apply (scan_ok_grow q); auto.
    rewrite !q_pos_text, q_plain_text, length_app. lia.
Qed.

Lemma new_scan_inv : scan_inv new_scan.
Proof. split; [simpl; lia|]. split; [constructor|]. simpl. lia. Qed.

(** * Laws of the URL split *)

(** A character that may appear in a URL. *)
Definition url_char (c : ascii) : bool := url_safe c || ceqb c "?"%char || ceqb c "#"%char.

Definition valid_url (url : txt) : bool :=
  match url with c :: _ => ceqb c "/"%char | [] => false end && forallb url_char url.

(** Where the hash begins (the first [#]), and where the search begins (the
    first [?] before the hash). *)
Definition hash_pos (url : txt) : nat := default (length url) (index_of "#" url).
Definition search_pos (url : txt) : nat :=
  default (hash_pos url) (index_of "?" (take (hash_pos url) url)).

Lemma ceqb_sym c d : ceqb c d = ceqb d c.
Proof. destruct (ceqb c d) eqn:E; [by apply ceqb_eq in E as ->; rewrite ceqb_refl|].
  symmetry. apply ceqb_neq in E. by apply ceqb_neq. Qed.

Lemma url_char_cases c :
  (url_char c = true ∧ url_safe c = true ∧ ceqb "?" c = false ∧ ceqb "#" c = false) ∨
  c = "?"%char ∨ c = "#"%char ∨
  (url_char c = false ∧ url_safe c = false ∧ ceqb c "?" = false ∧ ceqb c "#" = false).
Proof.
  unfold url_char.
  destruct (ceqb c "?") eqn:E1; [apply ceqb_eq in E1; auto|].
  destruct (ceqb c "#") eqn:E2; [apply ceqb_eq in E2; auto|].
  rewrite (ceqb_sym "?" c), (ceqb_sym "#" c), E1, E2. destruct (url_safe c); [by left|by right; right; right].
Qed.

(** Evaluate the tests on the two delimiters. *)
Ltac url_eval :=
  try change (url_safe "?") with false; try change (url_safe "#") with false;
  try change (url_char "?") with true; try change (url_char "#") with true;
  try change (ceqb "#" "?") with false; try change (ceqb "?" "#") with false;
  rewrite ?ceqb_refl; cbn [andb orb negb].

Lemma scan_url_hash s i x y :
  scan_url s i [x; y] = if forallb url_char s then Some [x; y] else None.
Proof.
  revert i. induction s as [|c s IH]; intros i; [done|]. cbn [scan_url forallb length].
  destruct (url_char_cases c) as [(Ec & Es & _ & _)|[->|[->|(Ec & Es & E1 & E2)]]];
    rewrite ?Ec, ?Es, ?E1, ?E2; url_eval; try done; apply IH.
Qed.

Lemma scan_url_search s i x :
  scan_url s i [x] =
    if forallb url_char s
    then Some (match index_of "#" s with Some k => [x; (x.2, (i + k)%nat)] | None => [x] end) else None.
Proof.
  revert i. induction s as [|c s IH]; intros i; [done|]. cbn [scan_url forallb length index_of].
  destruct (url_char_cases c) as [(Ec & Es & E1 & E2)|[->|[->|(Ec & Es & E1 & E2)]]];
    rewrite ?Ec, ?Es, ?E1, ?E2; url_eval; try done.
  - rewrite IH. destruct (forallb url_char s), (index_of "#" s); simpl; by rewrite ?Nat.add_succ_r, ?Nat.add_0_r.
  - rewrite IH. destruct (forallb url_char s), (index_of "#" s); simpl; by rewrite ?Nat.add_succ_r, ?Nat.add_0_r.
  - cbn. rewrite scan_url_hash. destruct (forallb url_char s); [|done]. by rewrite Nat.add_0_r.
Qed.

Definition three_fields (a b n : nat) : list (nat * nat) := [(O, a); (a, b); (b, n)].

(** The scan from the start of a URL, from the position [i] on. *)
Lemma scan_url_path s i :
  scan_url s i [] =
    if forallb url_char s
    then Some (match index_of "#" s, index_of "?" (take (hash_pos s) s) with
               | None, None => []
               | None, Some q => [(O, (i + q)%nat)]
               | Some h, None => [(O, (i + h)%nat); ((i + h)%nat, (i + h)%nat)]
               | Some h, Some q => [(O, (i + q)%nat); ((i + q)%nat, (i + h)%nat)]
               end) else None.
Proof.
  unfold hash_pos. revert i. induction s as [|c s IH]; intros i; [done|]. cbn [scan_url forallb length index_of].
  destruct (url_char_cases c) as [(Ec & Es & E1 & E2)|[->|[->|(Ec & Es & E1 & E2)]]];
    rewrite ?Ec, ?Es, ?E1, ?E2; url_eval; try done.
  - rewrite IH. destruct (forallb url_char s); [|done]. simpl.
    destruct (index_of "#" s) as [h|]; simpl; rewrite E1;
      destruct (index_of "?" _); simpl; by rewrite ?Nat.add_succ_r, ?Nat.add_0_r.
  - rewrite bool_decide_eq_true_2 by done. rewrite scan_url_search. destruct (forallb url_char s); [|done].
    destruct (index_of "#" s); simpl; by rewrite ?Nat.add_succ_r, ?Nat.add_0_r.
  - cbn. rewrite scan_url_hash. destruct (forallb url_char s); [|done]. simpl. by rewrite ?Nat.add_0_r.
Qed.

Lemma url_fields_eq url :
  url_fields url =
    if valid_url url then three_fields (search_pos url) (hash_pos url) (length url)
    else three_fields O O O.
Proof.
  unfold url_fields, valid_url. destruct url as [|c url']; [done|].
  destruct (ceqb c "/"); [|done]. rewrite scan_url_path. cbn [andb].
  destruct (forallb url_char (c :: url')); [|done].
  unfold search_pos, hash_pos, from_option, id.
  by destruct (index_of "#" (c :: url')); destruct (index_of "?" _).
Qed.

(** * Decoding *)

(** The decoded query of a URL: its text and the offsets of its pairs. *)
Definition decode_query (url : txt) : option (txt * list http_kvoffsets) :=
  let '(b, e) := nth 1 (url_fields url) (O, O) in
  if negb (b =? e)%nat then
    q_finish <$> scan_query (take (e - (b + 1)) (drop (b + 1) url)) (drop e url ++ [nul]) new_scan
  else Some ([], []).

Definition pairs_over (base : txt) (l : list http_kvoffsets) : list (txt * txt) :=
  (λ p, (kv_name base p, kv_value base p)) <$> l.

Lemma index_of_drop c s h : index_of c s = Some h → head (drop h s) = Some c.
Proof.
  revert h. induction s as [|d s IH]; intros h; simpl; [done|].
  case_if; [intros [= <-]; apply ceqb_eq in Ec as ->; done|].
  intros (k & Hk & ->)%fmap_Some. by apply IH.
Qed.

(** What follows the query is a [#] or the terminating NUL. *)
Lemma after_query url b : head (drop (hash_pos url) url ++ [nul]) = Some b → url_hex b = false.
Proof.
  unfold hash_pos. destruct (index_of "#" url) as [h|] eqn:E; cbn [from_option]; unfold id.
  - apply index_of_drop in E. destruct (drop h url); [done|]. injection E as ->. by intros [= <-].
  - rewrite drop_all. by intros [= <-].
Qed.

Lemma search_pos_le url : (search_pos url ≤ hash_pos url ≤ length url)%nat.
Proof.
  assert (Hi : ∀ c s k, index_of c s = Some k → (k < length s)%nat).
  { intros c s k H. apply index_of_drop in H. destruct (decide (k < length s)%nat); [done|].
    by rewrite drop_ge in H by lia. }
  assert (Hh : (hash_pos url ≤ length url)%nat).
  { unfold hash_pos. destruct (index_of "#" url) eqn:E; [apply Hi in E|]; unfold from_option, id; lia. }
  unfold search_pos. split; [|done].
  destruct (index_of "?" _) eqn:E; [apply Hi in E; rewrite length_take in E|]; unfold from_option, id; lia.
Qed.

Lemma decode_query_spec url :
  ∃ r, decode_query url = Some r ∧ Forall (in_range (length r.1)) r.2.
Proof.
  unfold decode_query. rewrite url_fields_eq. destruct (valid_url url); cbn [nth three_fields]; [|by exists ([], [])].
  case_if; [|by exists ([], [])].
  destruct (scan_query_total (take (hash_pos url - (search_pos url + 1)) (drop (search_pos url + 1) url))
              (drop (hash_pos url) url ++ [nul]) new_scan (after_query url)) as [q Hq].
  rewrite Hq. cbn. rewrite q_finish_eq. eexists. split; [done|]. cbn. rewrite <-q_pos_text.
  apply closed_pairs_ok. eapply scan_inv_keeps; [exact Hq|apply new_scan_inv].
Qed.

(** The cache agrees with the URL. *)
Definition coherent (m : http_message) : Prop :=
  match info_ m with
  | None => True
  | Some i => inf_url i = false ∧
              (inf_params i = true → decode_query (url_ m) = Some (inf_qurl i, inf_qpairs i))
  end.

Lemma make_info_url m : coherent m →
  ∃ i, make_info m true false = Some i ∧ inf_f i = url_fields (url_ m) ∧ inf_url i = false ∧
       (inf_params i = true → decode_query (url_ m) = Some (inf_qurl i, inf_qpairs i)).
Proof.
  unfold coherent, make_info. destruct (info_ m) as [i|].
  - intros [Hu Hp]. rewrite Hu. cbn. rewrite andb_false_r. eauto.
  - intros _. cbn. eexists. repeat split; try done.
Qed.

Lemma make_info_params m : coherent m → (∀ i, info_ m = Some i → inf_params i = false) →
  ∃ i, make_info m false true = Some i ∧ inf_url i = false ∧ inf_params i = true ∧
       decode_query (url_ m) = Some (inf_qurl i, inf_qpairs i).
Proof.
  intros Hc Hn. unfold make_info.
  assert (Hi : let inf := match info_ m with Some i => i | None => new_info end in
               inf_url inf = false ∧ inf_params inf = false).
  { unfold coherent in Hc. destruct (info_ m) as [i|]; [|done]. split; [apply Hc|by apply Hn]. }
  cbv zeta in Hi. destruct Hi as [-> Hp].
  cbn [negb orb andb inf_params]. rewrite Hp. cbn [negb andb inf_f inf_url inf_params].
  destruct (decode_query_spec (url_ m)) as (r & Hr & _). revert Hr. unfold decode_query.
  destruct (nth 1 (url_fields (url_ m)) (O, O)) as [b e].
  destruct (negb (b =? e)%nat); [|intros [= <-]; eexists; done].
  destruct (scan_query _ _ _) as [q|]; [|done]. intros [= <-]. cbn.
  eexists. split; [done|]. cbn. split; [done|]. split; [done|]. by destruct (q_finish q).
Qed.

Lemma info_params_spec m : coherent m →
  ∃ i m', info m false true = Some (i, m') ∧ decode_query (url_ m) = Some (inf_qurl i, inf_qpairs i) ∧
          coherent m' ∧ url_ m' = url_ m.
Proof.
  intros Hc. unfold info.
  destruct (match info_ m with Some i => inf_params i | None => false end) eqn:Ep.
  - destruct (info_ m) as [i|] eqn:Ei; [|done]. cbn. rewrite Ep. cbn.
    unfold coherent in Hc. rewrite Ei in Hc. destruct Hc as [Hu Hd].
    eexists i, _. repeat split; try done; by apply Hd.
  - destruct (make_info_params m Hc) as (i & Hm & Hu & Hp & Hd).
    { intros i Hi. by rewrite Hi in Ep. }
    rewrite Hm.
    replace (match info_ m with Some i => (negb false || inf_url i) && (negb true || inf_params i) | None => false end)
      with false by (destruct (info_ m); [cbn; by rewrite Ep|done]).
    cbn. eexists i, _. repeat split; done.
Qed.

(** Every call of [info] fills the cache with what the URL says. *)
Lemma make_info_coherent m a b : coherent m →
  ∃ i, make_info m a b = Some i ∧ inf_url i = false ∧ (a || b = true → inf_f i = url_fields (url_ m)) ∧
    (inf_params i = true → decode_query (url_ m) = Some (inf_qurl i, inf_qpairs i)).
Proof.
  intros Hc. unfold make_info. set (inf := match info_ m with Some i => i | None => new_info end).
  assert (Hi : inf_url inf = false ∧ (inf_params inf = true → decode_query (url_ m) = Some (inf_qurl inf, inf_qpairs inf))).
  { unfold coherent in Hc. unfold inf. by destruct (info_ m). }
  destruct Hi as [Hu Hp]. rewrite Hu. cbn [negb andb]. destruct b.
  - rewrite orb_true_r. cbn [inf_f inf_url inf_params inf_qurl inf_qpairs andb]. rewrite andb_true_r.
    destruct (inf_params inf) eqn:Ep; cbn [negb]; [eexists; split; [done|]; split; [done|]; split; [done|]; intros _; by apply Hp|].
    destruct (decode_query_spec (url_ m)) as (r & Hr & _). revert Hr. unfold decode_query.
    destruct (nth 1 (url_fields (url_ m)) (O, O)) as [x e]. destruct (negb (x =? e)%nat); [|by intros _; eexists].
    destruct (scan_query _ _ _) as [q|]; [|done]. intros _. cbn. eexists. split; [done|]. do 2 (split; [done|]).
    intros _. cbn. by destruct (q_finish q).
  - rewrite orb_false_r, andb_false_r. eexists. split; [done|]. by destruct a.
Qed.

Lemma info_coherent m a b i m' : coherent m → info m a b = Some (i, m') →
  coherent m' ∧ url_ m' = url_ m ∧ headers_ m' = headers_ m ∧ hpairs_ m' = hpairs_ m ∧
  (major_ m', minor_ m', method_ m', error_ m', status_code_ m') = (major_ m, minor_ m, method_ m, error_ m, status_code_ m) ∧
  (a = true → inf_f i = url_fields (url_ m)).
Proof.
  intros Hc. unfold info. destruct (match info_ m with Some i => _ | None => false end) eqn:Ec.
  - destruct (info_ m) as [i0|] eqn:Ei; [|done]. cbn. intros [= <- <-]. unfold coherent in *. cbn. rewrite Ei in Hc.
    split; [done|]. do 4 (split; [done|]). intros ->. cbn in Ec. by rewrite (proj1 Hc) in Ec.
  - destruct (make_info_coherent m a b Hc) as (i0 & -> & Hu & Hf & Hp). cbn. intros [= <- <-].
    split; [done|]. do 4 (split; [done|]). intros ->. by apply Hf.
Qed.

Lemma info_url_spec m : coherent m →
  ∃ i m', info m true false = Some (i, m') ∧ inf_f i = url_fields (url_ m) ∧ coherent m' ∧ url_ m' = url_ m.
Proof.
  intros Hc. destruct (make_info_coherent m true false Hc) as (i & E & _).
  assert (H : ∃ r, info m true false = Some r).
  { unfold info. destruct (match info_ m with Some i => _ | None => false end) eqn:Ec; [destruct (info_ m); [by eexists|done]|].
    rewrite E. by eexists. }
  destruct H as [[i' m'] H]. exists i', m'. destruct (info_coherent m true false i' m' Hc H) as (H1 & H2 & _ & _ & _ & H3).
  split; [done|]. split; [by apply H3|done].
Qed.

(** * Encoding a query

    What the editor's [encodeURIComponent] writes for one-byte characters:
    these stay, any other character becomes a percent escape. *)
Definition unreserved (c : ascii) : bool :=
  is_alnum c || existsb (ceqb c) $"-_.!~*'()".

Definition hex_upper (d : Z) : ascii := if d <? 10 then char_of (48 + d) else char_of (55 + d).

Definition encode_char (c : ascii) : txt :=
  if unreserved c then [c] else ["%"%char; hex_upper (code c / 16); hex_upper (code c mod 16)].
Definition encode_component (s : txt) : txt := s ≫= encode_char.

Definition encode_pair (kv : txt * txt) : txt := encode_component kv.1 ++ ["="%char] ++ encode_component kv.2.

Fixpoint encode_query (kvs : list (txt * txt)) : txt :=
  match kvs with
  | [] => []
  | [kv] => encode_pair kv
  | kv :: kvs' => encode_pair kv ++ ["&"%char] ++ encode_query kvs'
  end.

Lemma unreserved_plain c : unreserved c = true →
  ceqb c "&" = false ∧ ceqb c "=" = false ∧ ceqb c "+" = false ∧ ceqb c "%" = false ∧
  ceqb c "#" = false ∧ ceqb c "?" = false ∧ url_safe c = true.
Proof. destruct c as [[] [] [] [] [] [] [] []]; vm_compute; intros H; repeat split; congruence. Qed.

Lemma hex_upper_spec d : 0 ≤ d < 16 →
  url_hex (hex_upper d) = true ∧ xvalue (hex_upper d) = d ∧ url_safe (hex_upper d) = true ∧
  ceqb (hex_upper d) "#" = false ∧ ceqb (hex_upper d) "?" = false.
Proof.
  intros Hd. assert (Hn : d = Z.of_nat (Z.to_nat d)) by lia. rewrite Hn.
  assert (Hk : (Z.to_nat d < 16)%nat) by lia. generalize (Z.to_nat d) Hk. clear.
  intros k Hk. do 16 (destruct k as [|k]; [vm_compute; done|]). lia.
Qed.

Lemma escape_value c : char_of (code c / 16 * 16 + code c mod 16) = c.
Proof. rewrite Z.mul_comm, <-Z.div_mod by lia. apply char_of_code. Qed.

(** [q] with the decoded text [x] appended to it, inside a name or a value. *)
Definition extends (q q' : query_scan) (x : txt) : Prop :=
  q_text q' = q_text q ++ x ∧ q_nstart q' = q_nstart q ∧ q_nend q' = q_nend q ∧
  q_vstart q' = q_vstart q ∧ q_pairs q' = q_pairs q.

Lemma scan_char c after q : ∃ q',
  (∀ s, scan_query (encode_char c ++ s) after q = scan_query s after q') ∧ extends q q' [c] ∧
  q_state q' = (if q_state q =? 0 then 1 else q_state q).
Proof.
  unfold encode_char. destruct (unreserved c) eqn:E.
  - destruct (unreserved_plain c E) as (E1 & E2 & E3 & E4 & _). exists (q_plain (q_begin q) c).
    split; [intros s; cbn [app scan_query]; by rewrite E1, E2, E3, E4|].
    repeat split. unfold extends. by rewrite q_plain_text, q_begin_text.
  - pose proof (code_range c) as Hr.
    destruct (hex_upper_spec (code c / 16)) as (A1 & A2 & _).
    { split; [apply Z.div_pos; lia|apply Z.div_lt_upper_bound; lia]. }
    destruct (hex_upper_spec (code c mod 16)) as (B1 & B2 & _); [apply Z.mod_pos_bound; lia|].
    exists (q_decoded (q_begin q) c). split.
    { intros s. cbn [app scan_query].
      change (ceqb "%" "&") with false. change (ceqb "%" "=") with false. change (ceqb "%" "%") with true.
      cbn [andb]. rewrite A1, A2, B1, B2. cbn [andb]. by rewrite escape_value. }
    repeat split. unfold extends. by rewrite q_decoded_text, q_begin_text.
Qed.

Lemma scan_component x after q : ∃ q',
  (∀ s, scan_query (encode_component x ++ s) after q = scan_query s after q') ∧ extends q q' x ∧
  (q_state q ≤ 1 → q_state q' ≤ 1) ∧ (q_state q = 2 → q_state q' = 2).
Proof.
  revert q. induction x as [|c x IH]; intros q.
  - exists q. split; [done|]. split; [|done]. unfold extends. by rewrite app_nil_r.
  - destruct (scan_char c after q) as (q1 & H1 & (T1 & N1 & E1 & V1 & P1) & S1).
    destruct (IH q1) as (q2 & H2 & (T2 & N2 & E2 & V2 & P2) & S2). exists q2. split.
    { intros s. cbn [encode_component mbind list_bind]. fold (encode_component x).
      by rewrite <-(assoc_L (++)), H1, H2. }
    split; [|split; intros Hs; apply S2; rewrite S1; case_if; lia].
    unfold extends. rewrite T2, T1, N2, E2, V2, P2, <-(assoc_L (++)). done.
Qed.

Definition fresh (q : query_scan) : Prop := q_state q = 0 ∧ q_nstart q = q_pos q.

(** Scanning one encoded pair leaves it open, with its offsets. *)
Lemma scan_pair kv after q : fresh q → ∃ q',
  (∀ s, scan_query (encode_pair kv ++ s) after q = scan_query s after q') ∧
  q_text q' = q_text q ++ kv.1 ++ ["="%char] ++ kv.2 ∧
  closed_pairs q' = q_pairs q ++
    [KvOffsets (q_pos q) (q_pos q + length kv.1) (q_pos q + length kv.1 + 1)
       (q_pos q + length kv.1 + 1 + length kv.2)].
Proof.
  intros [Hs Hn]. destruct kv as [k v]. cbn [fst snd].
  destruct (scan_component k after q) as (q1 & H1 & (T1 & N1 & E1 & V1 & P1) & S1 & _).
  destruct (scan_component v after (q_equals q1)) as (q2 & H2 & (T2 & N2 & E2 & V2 & P2) & _ & S2).
  exists q2. split.
  { intros s. unfold encode_pair. cbn [fst snd]. rewrite <-!(assoc_L (++)), H1. cbn [app scan_query].
    change (ceqb "=" "&") with false. change (ceqb "=" "=") with true.
    rewrite (proj2 (Z.leb_le _ 1)) by lia. cbn [andb]. apply H2. }
  assert (T : q_text q2 = q_text q ++ k ++ ["="%char] ++ v).
  { by rewrite T2, q_equals_text, T1, <-!(assoc_L (++)). }
  split; [done|]. unfold closed_pairs, open_pair. rewrite S2 by done. cbn.
  rewrite P2, N2, E2, V2. unfold q_equals. cbn [q_pairs q_nstart q_nend q_vstart].
  rewrite P1, N1, Hn. rewrite !q_pos_text, T, T1, !length_app. cbn [length]. do 3 f_equal; lia.
Qed.

Lemma pairs_over_grow base x l :
  Forall (in_range (length base)) l → pairs_over (base ++ x) l = pairs_over base l.
Proof.
  intros H. apply list_fmap_ext. intros i p Hp.
  assert (Hr : in_range (length base) p) by (by eapply Forall_lookup_1).
  destruct Hr as [(? & ?) (? & ?)]. unfold kv_name, kv_value, substr.
  rewrite !drop_app_le, !take_app_le by (rewrite ?length_drop; lia). done.
Qed.

Lemma substr_mid (x y z : txt) : substr (x ++ y ++ z) (length x) (length y) = y.
Proof. unfold substr. by rewrite drop_app_length, take_app_length. Qed.

(** The pair just scanned, over the text scanned. *)
Lemma pair_over base k v :
  pairs_over (base ++ k ++ ["="%char] ++ v)
    [KvOffsets (length base) (length base + length k) (length base + length k + 1)
       (length base + length k + 1 + length v)] = [(k, v)].
Proof.
  unfold pairs_over, kv_name, kv_value. cbn [fmap list_fmap name1 name2 value1 value2].
  rewrite Nat.add_sub_swap, Nat.sub_diag by lia. cbn [Nat.add]. rewrite substr_mid.
  replace (length base + length k + 1)%nat with (length (base ++ k ++ ["="%char]))
    by (rewrite !length_app; simpl; lia).
  rewrite Nat.add_sub_swap, Nat.sub_diag by lia. cbn [Nat.add].
  replace (base ++ k ++ ["="%char] ++ v) with ((base ++ k ++ ["="%char]) ++ v ++ [])
    by (by rewrite app_nil_r, <-!(assoc_L (++))).
  by rewrite substr_mid.
Qed.

Lemma scan_encoded kvs after q :
  kvs ≠ [] → fresh q → scan_inv q → ∃ q',
    scan_query (encode_query kvs) after q = Some q' ∧
    pairs_over (q_text q') (closed_pairs q') = pairs_over (q_text q) (q_pairs q) ++ kvs.
Proof.
  revert q. induction kvs as [|[k v] kvs IH]; intros q Hne Hf Hi; [done|].
  assert (Hover : ∀ q', scan_inv q' →
    q_text q' = q_text q ++ k ++ ["="%char] ++ v →
    closed_pairs q' = q_pairs q ++ [KvOffsets (q_pos q) (q_pos q + length k) (q_pos q + length k + 1)
       (q_pos q + length k + 1 + length v)] →
    pairs_over (q_text q') (closed_pairs q') = pairs_over (q_text q) (q_pairs q) ++ [(k, v)]).
  { intros q' _ T C. rewrite T, C. unfold pairs_over at 1. rewrite fmap_app. f_equal.
    - apply pairs_over_grow. rewrite <-q_pos_text. apply Hi.
    - rewrite q_pos_text. apply pair_over. }
  destruct (scan_pair (k, v) after q Hf) as (q1 & H1 & T & C).
  assert (I1 : scan_inv q1).
  { apply (scan_inv_keeps (encode_pair (k, v)) after q); [|exact Hi]. by rewrite <-(app_nil_r (encode_pair (k, v))), H1. }
  specialize (Hover q1 I1 T C).
  destruct kvs as [|kv2 kvs]; cbn [encode_query].
  - exists q1. split; [|done]. by rewrite <-(app_nil_r (encode_pair (k, v))), H1.
  - rewrite H1. cbn [app scan_query]. rewrite ceqb_refl.
    destruct (q_amp_eq q1) as (P2 & S2 & N2).
    destruct (IH (q_amp q1)) as (q' & E & C'); [done|by split| |].
    { apply (scan_inv_keeps ["&"%char] after q1); [|done]. done. }
    exists q'. split; [done|]. rewrite C', P2, q_amp_text, pairs_over_grow, Hover, <-(assoc_L (++)); [done|].
    rewrite <-q_pos_text. by apply closed_pairs_ok.
Qed.

(** ** The URL that carries a query *)

Lemma encode_char_url c :
  Forall (λ d, url_char d = true ∧ d ≠ "#"%char) (encode_char c).
Proof.
  assert (H : ∀ d, url_safe d = true → ceqb d "#" = false → url_char d = true ∧ d ≠ "#"%char).
  { intros d Hs Hh. unfold url_char. rewrite Hs. split; [done|by apply ceqb_neq]. }
  unfold encode_char. destruct (unreserved c) eqn:E.
  - apply Forall_singleton. destruct (unreserved_plain c E) as (_ & _ & _ & _ & E1 & _ & E2). by apply H.
  - pose proof (code_range c) as Hr.
    destruct (hex_upper_spec (code c / 16)) as (_ & _ & A1 & A2 & _).
    { split; [apply Z.div_pos; lia|apply Z.div_lt_upper_bound; lia]. }
    destruct (hex_upper_spec (code c mod 16)) as (_ & _ & B1 & B2 & _); [apply Z.mod_pos_bound; lia|].
    repeat constructor; by apply H.
Qed.

Lemma encode_component_url s :
  Forall (λ d, url_char d = true ∧ d ≠ "#"%char) (encode_component s).
Proof.
  induction s as [|c s IH]; [constructor|]. cbn [encode_component mbind list_bind].
  apply Forall_app. split; [apply encode_char_url|exact IH].
Qed.

Lemma encode_query_url kvs :
  Forall (λ d, url_char d = true ∧ d ≠ "#"%char) (encode_query kvs).
Proof.
  assert (H : ∀ kv, Forall (λ d, url_char d = true ∧ d ≠ "#"%char) (encode_pair kv)).
  { intros kv. unfold encode_pair. repeat (apply Forall_app; split); try apply encode_component_url.
    by repeat constructor. }
  induction kvs as [|kv [|kv' kvs] IH]; [constructor|apply H|]. cbn [encode_query].
  apply Forall_app. split; [apply H|]. apply Forall_app. split; [by repeat constructor|exact IH].
Qed.

Lemma forallb_Forall {A} (f : A → bool) l : forallb f l = true ↔ Forall (λ x, f x = true) l.
Proof. rewrite forallb_forall, Forall_forall. by setoid_rewrite list_elem_of_In. Qed.

(** A path: begins with a slash and has only safe characters. *)
Definition is_path (p : txt) : bool :=
  match p with c :: _ => ceqb c "/"%char | [] => false end && forallb url_safe p.

(** A hash: empty, or a [#] and more characters of URLs. *)
Definition is_hash (h : txt) : bool :=
  match h with [] => true | c :: h' => ceqb c "#"%char && forallb url_char h' end.

Lemma is_path_chars p c : is_path p = true → c ∈ p → c ≠ "?"%char ∧ c ≠ "#"%char.
Proof.
  unfold is_path. intros [_ H]%andb_prop Hc. apply forallb_Forall in H. rewrite Forall_forall in H.
  specialize (H c Hc). split; intros ->; by vm_compute in H.
Qed.

(** The URL of a path, a search text and a hash is cut where they meet. *)
Lemma url_fields_parts p s h :
  is_path p = true → Forall (λ d, url_char d = true ∧ d ≠ "#"%char) s → is_hash h = true →
  url_fields (p ++ "?"%char :: s ++ h)
  = three_fields (length p) (length p + S (length s)) (length p + S (length s) + length h).
Proof.
  intros Hp Hs Hh. pose proof (λ c, is_path_chars p c Hp) as Hpc. rewrite url_fields_eq.
  assert (Hv : valid_url (p ++ "?"%char :: s ++ h) = true).
  { unfold valid_url. unfold is_path in Hp. apply andb_true_iff in Hp as [H1 H2].
    destruct p as [|c p]; [done|]. cbn [app]. rewrite H1. cbn [andb]. apply forallb_Forall.
    change (c :: p ++ "?"%char :: s ++ h) with ((c :: p) ++ ["?"%char] ++ s ++ h).
    repeat (apply Forall_app; split).
    - apply forallb_Forall in H2. eapply Forall_impl; [exact H2|]. intros d Hd. unfold url_char. simpl in Hd. by rewrite Hd.
    - by repeat constructor.
    - eapply Forall_impl; [exact Hs|]. by intros d [? ?].
    - destruct h as [|d h]; [constructor|]. cbn in Hh. apply andb_true_iff in Hh as [Hd Hh].
      apply ceqb_eq in Hd as ->. constructor; [done|by apply forallb_Forall]. }
  rewrite Hv.
  assert (Hn : "#"%char ∉ p ++ "?"%char :: s).
  { rewrite elem_of_app, elem_of_cons. intros [H|[H|H]]; [by destruct (Hpc _ H)|done|].
    rewrite Forall_forall in Hs. by apply (Hs _ H). }
  assert (Hl : length (p ++ "?"%char :: s) = (length p + S (length s))%nat) by (by rewrite length_app).
  assert (Hhp : hash_pos (p ++ "?"%char :: s ++ h) = (length p + S (length s))%nat).
  { unfold hash_pos. destruct h as [|d h].
    - rewrite app_nil_r. apply index_of_None in Hn. rewrite Hn. exact Hl.
    - cbn in Hh. apply andb_true_iff in Hh as [Hd Hh]. apply ceqb_eq in Hd as ->.
      change (p ++ "?"%char :: s ++ "#"%char :: h) with (p ++ ("?"%char :: s) ++ "#"%char :: h).
      rewrite (assoc_L (++)), index_of_app by done. exact Hl. }
  unfold search_pos. rewrite Hhp.
  replace (take (length p + S (length s)) (p ++ "?"%char :: s ++ h)) with (p ++ "?"%char :: s).
  2: { change (p ++ "?"%char :: s ++ h) with (p ++ ("?"%char :: s) ++ h).
       by rewrite (assoc_L (++)), <-Hl, take_app_length. }
  rewrite index_of_app by (intros H; by destruct (Hpc _ H)).
  unfold three_fields. cbn. rewrite length_app. cbn [length]. rewrite length_app. do 4 f_equal; lia.
Qed.

(** The value of the first pair called [name]. *)
Fixpoint first_value (kvs : list (txt * txt)) (name : txt) : option txt :=
  match kvs with
  | [] => None
  | (k, v) :: kvs' => if teqb k name then Some v else first_value kvs' name
  end.

Lemma find_param_first qurl it name :
  kv_value qurl <$> find_param qurl it name = first_value (pairs_over qurl it) name.
Proof.
  induction it as [|p it IH]; [done|]. cbn [find_param pairs_over fmap list_fmap first_value].
  destruct (teqb (kv_name qurl p) name); [done|exact IH].
Qed.

Lemma decode_encoded p kvs h :
  is_path p = true → kvs ≠ [] → is_hash h = true →
  ∃ qurl l, decode_query (p ++ "?"%char :: encode_query kvs ++ h) = Some (qurl, l) ∧
            pairs_over qurl l = kvs.
Proof.
  intros Hp Hk Hh. unfold decode_query. rewrite url_fields_parts by (done || apply encode_query_url).
  cbn [nth three_fields].
  rewrite (proj2 (Nat.eqb_neq _ _)) by lia. cbn [negb].
  replace (length p + S (length (encode_query kvs)) - (length p + 1))%nat with (length (encode_query kvs)) by lia.
  replace (drop (length p + 1) (p ++ "?"%char :: encode_query kvs ++ h)) with (encode_query kvs ++ h).
  2: { rewrite <-(drop_drop (p ++ _)), drop_app_length. done. }
  rewrite take_app_length.
  destruct (scan_encoded kvs (drop (length p + S (length (encode_query kvs))) (p ++ "?"%char :: encode_query kvs ++ h) ++ [nul])
    new_scan Hk) as (q & Hq & Hqp); [done|apply new_scan_inv|].
  rewrite Hq. cbn. rewrite q_finish_eq. by eexists _, _.
Qed.

(** * Properties of the query *)

(** Decoding never makes the text longer. *)
Lemma scan_query_length s after q q' :
  scan_query s after q = Some q' → (length (q_text q') ≤ length (q_text q) + length s)%nat.
Proof.
  revert q. induction s as [s IH] using (induction_ltof1 _ (@length ascii)). unfold ltof in IH.
  destruct s as [|c s']; [intros q [= ->]; lia|]. intros q.
  assert (IH' : ∀ q1 x, q_text q1 = q_text q ++ [x] → scan_query s' after q1 = Some q' →
    (length (q_text q') ≤ length (q_text q) + S (length s'))%nat).
  { intros q1 x E H. apply IH in H; [|simpl; lia]. rewrite E, length_app in H. simpl in H. lia. }
  simpl. case_if; [apply (IH' _ "&"%char), q_amp_text|]. case_if; [apply (IH' _ "="%char), q_equals_text|].
  assert (Hl : (if ceqb c "+"%char then scan_query s' after (q_decoded (q_begin q) " "%char)
                else scan_query s' after (q_plain (q_begin q) c)) = Some q' →
    (length (q_text q') ≤ length (q_text q) + S (length s'))%nat).
  { case_if; [apply (IH' _ " "%char); by rewrite q_decoded_text|apply (IH' _ c); by rewrite q_plain_text]. }
  case_if; [|done]. destruct s' as [|a [|b s'']]; [done|by destruct after; [|case_if]|].
  case_if; [|done]. intros Hs. apply IH in Hs; [|simpl; lia]. rewrite q_decoded_text, q_begin_text, length_app in Hs. simpl in *. lia.
Qed.

Lemma decode_query_length url r : decode_query url = Some r → (length r.1 ≤ length url)%nat.
Proof.
  unfold decode_query. destruct (nth 1 _ _) as [b e]. case_if; [|intros [= <-]; simpl; lia].
  intros (q & Hq & ->)%fmap_Some. rewrite q_finish_eq. cbn. apply scan_query_length in Hq. cbn in Hq.
  rewrite length_take, length_drop in Hq. lia.
Qed.

(** The parts of a URL: three fields that meet, the last ending at its end or
    all of them empty. *)
Lemma url_fields_bounds url : ∃ a b c, url_fields url = three_fields a b c ∧ (a ≤ b ≤ c)%nat ∧ (c ≤ length url)%nat.
Proof.
  rewrite url_fields_eq. pose proof (search_pos_le url). destruct (valid_url url); [|by exists O, O, O; split_and!; [|lia..]].
  eexists _, _, _. split; [done|lia].
Qed.

(** C37 Whatever the URL, splitting it and decoding its query end, and the
    decoding reads no byte beyond the query but the one that follows it.  The
    path, the search text and the hash are views of the URL: they lie in it, in
    order, each beginning where the one before it ends.  The names and values
    of the parameters are views of the decoded text, which the message keeps
    and which is no longer than the URL: every offset recorded lies, in order,
    inside that text. *)
Theorem query_views_in_bounds (m : http_message) :
  coherent m →
  (∃ i m', info m true false = Some (i, m') ∧ coherent m' ∧ url_ m' = url_ m ∧
     ∃ a b c, inf_f i = [(O, a); (a, b); (b, c)] ∧ (a ≤ b ≤ c)%nat ∧ (c ≤ length (url_ m))%nat) ∧
  ∃ i m', info m false true = Some (i, m') ∧ coherent m' ∧ url_ m' = url_ m ∧
    (length (inf_qurl i) ≤ length (url_ m))%nat ∧
    Forall (λ p, (name1 p ≤ name2 p)%nat ∧ (name2 p ≤ value1 p)%nat ∧ (value1 p ≤ value2 p)%nat ∧
                 (value2 p ≤ length (inf_qurl i))%nat) (inf_qpairs i).
Proof.
  intros Hc. split.
  - destruct (info_url_spec m Hc) as (i & m' & E & Hf & Hc' & Hu). exists i, m'. do 3 (split; [done|]).
    rewrite Hf. apply url_fields_bounds.
  - destruct (info_params_spec m Hc) as (i & m' & E & Hd & Hc' & Hu). exists i, m'. do 3 (split; [done|]).
    split; [by apply decode_query_length in Hd|]. destruct (decode_query_spec (url_ m)) as (r & Hr & Hf).
    rewrite Hd in Hr. injection Hr as <-. eapply Forall_impl; [exact Hf|]. unfold in_range. cbn. lia.
Qed.

Lemma query_views_in_bounds_witness :
  let m := new_request 1 $"/a?x=%4&=1&&y#%41" in
  (∃ i m', info m true false = Some (i, m') ∧ inf_f i = [(0, 2); (2, 13); (13, 17)]%nat) ∧
  ∃ i m', info m false true = Some (i, m') ∧ (length (inf_qurl i) ≤ 17)%nat ∧ length (inf_qpairs i) = 3%nat.
Proof.
  intros m. destruct (query_views_in_bounds m I) as [(i & m' & E & _) (i2 & m2 & E2 & _ & _ & Hl & _)]. split.
  - exists i, m'. split; [done|]. vm_compute in E. by injection E as <- _.
  - exists i2, m2. split; [done|]. split; [exact Hl|]. vm_compute in E2. by injection E2 as <- _.
Defined.

(** The query a browser encodes is the query the message decodes: for any
    names and values, percent-encoded, joined and put between a path and a
    hash, [search_param] returns the value of the first pair of that name, or
    nothing. *)
Theorem search_param_roundtrip (m : http_message) (p h : txt) (kvs : list (txt * txt)) (name : txt) :
  coherent m → url_ m = p ++ "?"%char :: encode_query kvs ++ h →
  is_path p = true → is_hash h = true → kvs ≠ [] →
  search_param m name = Some (default [] (first_value kvs name)) ∧
  has_search_param m name = Some (bool_decide (is_Some (first_value kvs name))).
Proof.
  intros Hc Hu Hp Hh Hk. destruct (info_params_spec m Hc) as (i & m' & E & Hd & _).
  destruct (decode_encoded p kvs h Hp Hk Hh) as (qurl & l & Hd' & Hl).
  rewrite <-Hu, Hd in Hd'. injection Hd' as <- <-.
  unfold search_param, has_search_param. rewrite E. cbn [mbind option_bind fst].
  rewrite <-Hl, <-find_param_first.
  by destruct (find_param (inf_qurl i) (inf_qpairs i) name).
Qed.

Lemma search_param_roundtrip_witness :
  search_param (new_request 1 ($"/find?" ++ encode_query [($"a b", $"1&2=3"); ($"k", [])] ++ $"#top")) $"a b"
    = Some $"1&2=3" ∧
  has_search_param (new_request 1 ($"/find?" ++ encode_query [($"a b", $"1&2=3"); ($"k", [])] ++ $"#top")) $"a b"
    = Some true.
Proof.
  apply (search_param_roundtrip _ $"/find" $"#top" [($"a b", $"1&2=3"); ($"k", [])] $"a b");
    [exact I|by vm_compute..].
Defined.

(** * Laws of the header block *)

(** The lines of a header block, and the offsets that index them from [i]. *)
Definition render_header (kv : txt * txt) : txt := kv.1 ++ $": " ++ kv.2 ++ crlf.
Definition render_headers (l : list (txt * txt)) : txt := l ≫= render_header.

Definition header_index (i : nat) (kv : txt * txt) : http_kvoffsets :=
  KvOffsets i (i + length kv.1) (i + length kv.1 + 2) (i + length kv.1 + 2 + length kv.2).

Fixpoint index_headers (i : nat) (l : list (txt * txt)) : list http_kvoffsets :=
  match l with
  | [] => []
  | kv :: l' => header_index i kv :: index_headers (i + length (render_header kv)) l'
  end.

(** The block of [m] is the lines of [l] and the index is theirs. *)
Definition indexes (m : http_message) (l : list (txt * txt)) : Prop :=
  headers_ m = render_headers l ∧ hpairs_ m = index_headers O l.

Lemma render_headers_app l k : render_headers (l ++ k) = render_headers l ++ render_headers k.
Proof. apply bind_app. Qed.

Lemma render_headers_one kv : render_headers [kv] = render_header kv.
Proof. unfold render_headers. cbn. apply app_nil_r. Qed.

Lemma index_headers_app i l k :
  index_headers i (l ++ k) = index_headers i l ++ index_headers (i + length (render_headers l)) k.
Proof.
  revert i. induction l as [|kv l IH]; intros i; [by rewrite Nat.add_0_r|].
  cbn [app index_headers]. rewrite IH. unfold render_headers. cbn [mbind list_bind].
  rewrite length_app. do 3 f_equal. lia.
Qed.

(** The pairs read back through the index are those of the lines. *)
Lemma header_index_over before kv rest :
  pairs_over (before ++ render_header kv ++ rest) [header_index (length before) kv] = [kv].
Proof.
  destruct kv as [k v]. unfold pairs_over, render_header, header_index, kv_name, kv_value.
  cbn [fmap list_fmap name1 name2 value1 value2 fst snd].
  rewrite Nat.add_sub_swap, Nat.sub_diag by lia. cbn [Nat.add]. rewrite <-!(assoc_L (++)), substr_mid.
  replace (length before + length k + 2)%nat with (length (before ++ k ++ $": "))
    by (rewrite !length_app; simpl; lia).
  rewrite Nat.add_sub_swap, Nat.sub_diag by lia. cbn [Nat.add].
  replace (before ++ k ++ $": " ++ v ++ crlf ++ rest) with ((before ++ k ++ $": ") ++ v ++ crlf ++ rest)
    by (by rewrite <-!(assoc_L (++))).
  by rewrite substr_mid.
Qed.

Lemma index_headers_over before l rest :
  pairs_over (before ++ render_headers l ++ rest) (index_headers (length before) l) = l.
Proof.
  revert before. induction l as [|kv l IH]; intros before; [done|].
  cbn [index_headers]. unfold render_headers. cbn [mbind list_bind]. fold (render_headers l).
  rewrite <-(assoc_L (++)). change (kv :: l) with ([kv] ++ l).
  change (?x :: ?y) with ([x] ++ y). unfold pairs_over. rewrite fmap_app. f_equal.
  - apply header_index_over.
  - rewrite <-length_app, (assoc_L (++) before). apply IH.
Qed.

Lemma indexes_pairs m l : indexes m l → header_pairs m = l.
Proof.
  intros [H1 H2]. unfold header_pairs. rewrite H1, H2.
  pose proof (index_headers_over [] l []) as H. rewrite app_nil_r in H. exact H.
Qed.

Lemma indexes_add m l k v : indexes m l → indexes (add_header m k v) (l ++ [(k, v)]).
Proof.
  intros [H1 H2]. unfold indexes, add_header. cbn. rewrite H1, H2.
  rewrite render_headers_app, index_headers_app, render_headers_one. split; [done|].
  by rewrite Nat.add_0_l.
Qed.

(** ** Looking names up *)

Lemma ieq_spec a b : ieq a b = true ↔ tolower <$> a = tolower <$> b.
Proof.
  unfold ieq. split.
  - intros [Hl%Nat.eqb_eq Hc]%andb_prop. revert b Hl Hc.
    induction a as [|x a IH]; intros [|y b]; simpl; try done. intros [= Hl].
    case_if; [|done]. intros Hc. f_equal; [by apply ceqb_eq|by apply IH].
  - intros H. assert (Hl : length a = length b).
    { apply (f_equal length) in H. by rewrite !length_fmap in H. }
    rewrite Hl, Nat.eqb_refl. cbn [andb]. clear Hl. revert b H.
    induction a as [|x a IH]; intros [|y b]; simpl; try done. intros [= Hxy H].
    rewrite Hxy, ceqb_refl. by apply IH.
Qed.

Definition same_name (name : txt) (kv : txt * txt) : Prop := tolower <$> kv.1 = tolower <$> name.
#[global] Instance same_name_dec name kv : Decision (same_name name kv).
Proof. unfold same_name. apply _. Defined.

(** Texts joined by a comma and a space. *)
Fixpoint comma_join (l : list txt) : txt :=
  match l with
  | [] => []
  | [v] => v
  | v :: l' => v ++ $", " ++ comma_join l'
  end.

Lemma comma_join_cons v w l : comma_join (v :: w :: l) = v ++ $", " ++ comma_join (w :: l).
Proof. done. Qed.

Lemma header_loop_any base it name result :
  header_loop base it name result true
  = comma_join (result :: (snd <$> filter (same_name name) (pairs_over base it))).
Proof.
  revert result. induction it as [|p it IH]; intros result; [done|].
  cbn [header_loop pairs_over fmap list_fmap]. rewrite filter_cons. fold (pairs_over base it).
  destruct (ieq (kv_name base p) name) eqn:E.
  - apply ieq_spec in E. rewrite decide_True by done. cbn [fmap list_fmap]. rewrite IH, comma_join_cons.
    destruct (snd <$> filter _ _); cbn [comma_join]; by rewrite <-?(assoc_L (++)).
  - rewrite decide_False; [apply IH|]. intros H. apply ieq_spec in H. cbn in H. congruence.
Qed.

Lemma header_spec m name :
  header m name = comma_join (snd <$> filter (same_name name) (header_pairs m)).
Proof.
  unfold header, header_pairs. fold (pairs_over (headers_ m) (hpairs_ m)).
  induction (hpairs_ m) as [|p it IH]; [done|].
  cbn [header_loop pairs_over fmap list_fmap]. rewrite filter_cons. fold (pairs_over (headers_ m) it).
  destruct (ieq (kv_name (headers_ m) p) name) eqn:E.
  - apply ieq_spec in E. rewrite decide_True by done. apply header_loop_any.
  - rewrite decide_False; [exact IH|]. intros H. apply ieq_spec in H. cbn in H. congruence.
Qed.

Lemma has_header_spec m name :
  has_header m name = bool_decide (Exists (same_name name) (header_pairs m)).
Proof.
  unfold has_header, find_header, header_end, header_pairs. fold (pairs_over (headers_ m) (hpairs_ m)).
  induction (hpairs_ m) as [|p it IH]; [done|].
  cbn [find_header_from pairs_over fmap list_fmap length]. fold (pairs_over (headers_ m) it).
  destruct (ieq (kv_name (headers_ m) p) name) eqn:E; cbn [negb].
  - apply ieq_spec in E. cbn. symmetry. apply bool_decide_eq_true_2. by constructor.
  - change (S ?a =? S ?b)%nat with (a =? b)%nat. rewrite IH. apply bool_decide_ext.
    split; [by constructor|]. intros H. inversion H as [? ? H1|]; [|done]. subst.
    apply ieq_spec in H1. cbn in H1. congruence.
Qed.

(** ** Every message a program can build

    [built m l]: the program has made [m], and [l] are the headers added to it
    since it was made, cleared or assigned.  Asking about the URL or the query
    fills the cache.  A moved message is its source, and the source of a move
    is not used any more.  (What the parser writes is in [HttpParser].) *)
Inductive built : http_message → list (txt * txt) → Prop :=
  | built_default : built new_http_message []
  | built_request method url : built (new_request method url) []
  | built_response c : built (new_response c) []
  | built_copy x l : built x l → built (copy_message x) []
  | built_assign m l x k : built m l → built x k → built (assign_message m x) k
  | built_clear m l : built m l → built (do_clear m) []
  | built_header m l k v : built m l → built (add_header m k v) (l ++ [(k, v)])
  | built_header_number m l k n : built m l → built (add_header_number m k n) (l ++ [(k, dec n)])
  | built_url m l url : built m l → built (set_url m url) l
  | built_status m l c t : built m l → built (set_status m c t) l
  | built_version m l v w : built m l → built (set_version m v w) l
  | built_method m l c : built m l → built (set_method m c) l
  | built_error m l e : built m l → built (set_error m e) l
  | built_body m l b : built m l → built (set_body m b) l
  | built_append m l b : built m l → built (append_body m b) l
  | built_asked m l a b i m' : built m l → info m a b = Some (i, m') → built m' l.

(** The widths of the fields: [unsigned char] and [unsigned short]. *)
Definition fields_fit (m : http_message) : Prop :=
  0 ≤ major_ m < 256 ∧ 0 ≤ minor_ m < 256 ∧ 0 ≤ method_ m < 256 ∧ 0 ≤ error_ m < 256 ∧
  0 ≤ status_code_ m < 65536.

(** Every entry of the index lies in the header block, which may hold more
    text: that of the headers before a [clear]. *)
Definition index_fits (m : http_message) : Prop := Forall (in_range (length (headers_ m))) (hpairs_ m).

(** A well-typed message with the headers [l]: its fields fit their widths, the
    index fits the header block and reads [l], the cache describes the URL. *)
Record well_typed (m : http_message) (l : list (txt * txt)) : Prop := {
  wt_fields : fields_fit m;
  wt_index : index_fits m;
  wt_headers : header_pairs m = l;
  wt_cache : coherent m
}.

Lemma coherent_cleared m i : info_ m = clear_flags <$> i → coherent m.
Proof. unfold coherent. intros ->. destruct i; [|done]. by split. Qed.

(** A new header leaves the views of the others alone. *)
Lemma add_header_typed m l k v : well_typed m l → well_typed (add_header m k v) (l ++ [(k, v)]).
Proof.
  intros [H1 H2 H3 H4]. split; [done| | |done].
  - unfold index_fits in *. cbn. apply Forall_app. rewrite !length_app. split.
    + eapply Forall_impl; [exact H2|]. intros p Hp. eapply in_range_le; [exact Hp|lia].
    + apply Forall_singleton. unfold in_range. cbn [name1 name2 value1 value2].
      cbn [length]. rewrite length_app. lia.
  - unfold header_pairs. cbn. rewrite fmap_app. f_equal.
    + rewrite <-H3. by apply pairs_over_grow.
    + pose proof (header_index_over (headers_ m) (k, v) []) as H. rewrite app_nil_r in H. exact H.
Qed.

Lemma mod_fits z n : 0 < n → 0 ≤ z mod n < n.
Proof. apply Z.mod_pos_bound. Qed.

Lemma new_request_typed method url : well_typed (new_request method url) [].
Proof. split; [|constructor|done|done]. unfold fields_fit, new_request, HPE_OK. cbn [major_ minor_ method_ error_ status_code_]. pose proof (mod_fits method 256 eq_refl). lia. Qed.

Lemma new_response_typed c : well_typed (new_response c) [].
Proof. split; [|constructor|done|done]. unfold fields_fit, new_response, HPE_OK, HTTP_GET. cbn [major_ minor_ method_ error_ status_code_]. pose proof (mod_fits c 65536 eq_refl). lia. Qed.

Lemma built_typed m l : built m l → well_typed m l.
Proof.
  induction 1 as [|method url|c|x l _ IH|m l x k _ IHm _ IHx|m l _ IH|m l k v _ IH|m l k n _ IH|m l url _ IH|m l c t _ IH|m l v w _ IH|m l c _ IH
    |m l e _ IH|m l b _ IH|m l b _ IH|m l a b i m' _ IH E].
  - apply (new_response_typed 200).
  - apply new_request_typed.
  - apply new_response_typed.
  - split; [apply IH|constructor|done|done].
  - split; [apply IHx|apply IHx|apply IHx|by eapply coherent_cleared].
  - split; [|constructor|done|by eapply coherent_cleared]. apply (new_response_typed 200).
  - by apply add_header_typed.
  - by apply add_header_typed.
  - destruct IH as [H1 H2 H3 H4]. split; [done|done|done|by eapply coherent_cleared].
  - destruct IH as [(B1 & B2 & B3 & B4 & B5) H2 H3 H4]. split; [|done..].
    repeat (split; [done|]). by apply mod_fits.
  - destruct IH as [(B1 & B2 & B3 & B4 & B5) H2 H3 H4]. split; [|done..].
    split; [by apply mod_fits|]. split; [by apply mod_fits|done].
  - destruct IH as [(B1 & B2 & B3 & B4 & B5) H2 H3 H4]. split; [|done..].
    do 2 (split; [done|]). split; [by apply mod_fits|done].
  - destruct IH as [(B1 & B2 & B3 & B4 & B5) H2 H3 H4]. split; [|done..].
    do 3 (split; [done|]). split; [by apply mod_fits|done].
  - destruct IH as [H1 H2 H3 H4]. by split.
  - destruct IH as [H1 H2 H3 H4]. by split.
  - destruct IH as [H1 H2 H3 H4]. destruct (info_coherent m a b i m' H4 E) as (C1 & C2 & C3 & C4 & C5 & _). injection C5 as E1 E2 E3 E4 E5.
    split; [|by unfold index_fits; rewrite C3, C4|by unfold header_pairs; rewrite C3, C4|done].
    unfold fields_fit. by rewrite E1, E2, E3, E4, E5.
Qed.

(** Coherent messages with one URL answer alike. *)
Lemma coherent_answers m x field name : coherent m → coherent x → url_ m = url_ x →
  url_field m field = url_field x field ∧ has_url_field m field = has_url_field x field ∧
  search_param m name = search_param x name ∧ has_search_param m name = has_search_param x name ∧
  is_Some (url_field m field) ∧ is_Some (search_param m name).
Proof.
  intros Hm Hx Hu. unfold url_field, has_url_field, search_param, has_search_param.
  destruct (info_url_spec m Hm) as (i1 & m1 & -> & F1 & _). destruct (info_url_spec x Hx) as (i2 & m2 & -> & F2 & _).
  destruct (info_params_spec m Hm) as (i3 & m3 & -> & F3 & _). destruct (info_params_spec x Hx) as (i4 & m4 & -> & F4 & _).
  cbn [mbind option_bind fst]. rewrite Hu in F1, F3. rewrite F4 in F3. injection F3 as <- <-. rewrite F1, F2, Hu.
  destruct (nth field _ _). repeat split; by eexists.
Qed.

(** C36 Every message a program builds, with any constructor (the copy and the
    default one too), setters, headers, [clear], assignments, and whatever it
    asked about the URL in between: its numbers fit their widths; every entry
    of its header index lies inside the header block, and the index reads
    exactly the headers added since it was made, cleared or assigned, in order,
    so [header] joins the values of every header of that name, whatever the
    case, and [has_header] finds it; and what it says about its URL and its
    query is what a new message with that URL says, never an answer about an
    earlier one. *)
Theorem built_message_typed (m : http_message) (l : list (txt * txt)) (name : txt) (field : nat) :
  built m l →
  fields_fit m ∧ Forall (in_range (length (headers_ m))) (hpairs_ m) ∧ header_pairs m = l ∧
  header m name = comma_join (snd <$> filter (same_name name) l) ∧
  has_header m name = bool_decide (Exists (same_name name) l) ∧
  let fresh := new_request HTTP_GET (url_ m) in
  url_field m field = url_field fresh field ∧ has_url_field m field = has_url_field fresh field ∧
  search_param m name = search_param fresh name ∧ has_search_param m name = has_search_param fresh name ∧
  is_Some (url_field m field) ∧ is_Some (search_param m name).
Proof.
  intros [H1 H2 H3 H4]%built_typed. split; [done|]. split; [done|]. split; [done|].
  rewrite header_spec, has_header_spec, H3. do 2 (split; [done|]). intros fresh. by apply coherent_answers.
Qed.

(** A message that was asked for a parameter, was cleared and filled again, with
    another URL. *)
Definition asked_message : http_message := add_header (new_request 3 $"/a?x=1") $"Host" $"h".
Definition reused_message : option http_message :=
  '(_, m) ← info asked_message false true; Some (set_url (add_header (do_clear m) $"Accept" $"t") $"/b?x=2#top").

Lemma reused_built m : reused_message = Some m → built m [($"Accept", $"t")].
Proof.
  unfold reused_message. destruct (info asked_message false true) as [[i m']|] eqn:E; [|done]. intros [= <-].
  apply built_url, (built_header _ []). eapply built_clear, built_asked; [|exact E]. apply (built_header _ []), built_request.
Qed.

Lemma built_message_typed_witness : ∃ m, reused_message = Some m ∧ is_Some (info_ m) ∧
  header m $"host" = [] ∧ header m $"accept" = $"t" ∧ search_param m $"x" = Some $"2" ∧ path m = Some $"/b".
Proof.
  destruct reused_message as [m|] eqn:E; [|by vm_compute in E]. exists m. split; [done|]. pose proof (reused_built m E) as Hb.
  assert (Hu : url_ m = $"/b?x=2#top" ∧ is_Some (info_ m)) by (vm_compute in E; injection E as <-; by split; [|eexists]).
  destruct Hu as [Hu Hi]. split; [done|].
  destruct (built_message_typed m _ $"host" 0 Hb) as (_ & _ & _ & -> & _).
  destruct (built_message_typed m _ $"accept" 0 Hb) as (_ & _ & _ & -> & _).
  destruct (built_message_typed m _ $"x" 0 Hb) as (_ & _ & _ & _ & _ & H1 & _ & H2 & _). unfold path. rewrite H1, H2, Hu.
  split_and!; by vm_compute.
Defined.

(** Assignment keeps the headers of the message it copies; the copy
    constructor keeps the text of the header block but loses its index, so
    that no header can be found in the copy, and [clear] leaves the old header
    text in place: the next header is written after it. *)
Theorem copy_loses_headers (m x : http_message) (l : list (txt * txt)) :
  indexes m l →
  header_pairs (assign_message x m) = l ∧
  headers_ (copy_message m) = render_headers l ∧ header_pairs (copy_message m) = [] ∧
  (∀ name, has_header (copy_message m) name = false) ∧
  (∀ k v, headers_ (add_header (do_clear m) k v) = render_headers (l ++ [(k, v)]) ∧
          header_pairs (add_header (do_clear m) k v) = [(k, v)]).
Proof.
  intros Hi. pose proof (indexes_pairs m l Hi) as Hp. destruct Hi as [H1 H2].
  split; [exact Hp|]. split; [exact H1|]. split; [done|]. split; [done|]. intros k v.
  cbn. rewrite H1, render_headers_app, render_headers_one. split; [done|].
  unfold header_pairs. cbn [hpairs_ headers_ add_header do_clear app].
  pose proof (header_index_over (render_headers l) (k, v) []) as H. rewrite app_nil_r in H. exact H.
Qed.

Lemma copy_loses_headers_witness :
  let m := add_header (new_request 1 $"/") $"Host" $"a" in
  header_pairs (copy_message m) = [] ∧ headers_ (copy_message m) ≠ [].
Proof.
  intros m. destruct (copy_loses_headers m m [($"Host", $"a")]) as (_ & H1 & H2 & _).
  - split; vm_compute; reflexivity.
  - split; [exact H2|]. rewrite H1. vm_compute. discriminate.
Defined.
