(* ===== verification/HttpParser.v ===== *)
(** The HTTP parser object of the coroutine library, [http_parser] of
    [src/cotamer/http.hh] and [src/cotamer/http.cc]: the callbacks the lexer
    runs, the receive loop, and the bytes of requests, responses and chunks.

    The lexer [llhttp] is third-party code: [llhttp_execute] and the naming
    functions are variables.  An execution yields the callbacks it ran, each
    with the lexer object at that moment, the lexer object after it, the error
    code and the position of the error.  [receive]'s local [message_data] has
    three offsets that are not initialized; the model starts them at 0, and no
    callback reads one before it is set. *)

From S2P Require Import Prelude Text HttpText HttpMessage.

(** The fields of [llhttp_t] the code reads and writes; [lx] stands for the
    rest of the object. *)
Record llhttp (L : Type) := Llhttp {
  http_major : Z;
  http_minor : Z;
  hp_status_code : Z;
  hp_method : Z;
  hp_error : Z;
  hp_upgrade : Z;
  connection_close : bool;       (* flags & F_CONNECTION_CLOSE *)
  connection_keep_alive : bool;  (* flags & F_CONNECTION_KEEP_ALIVE *)
  hp_response : bool;            (* type == HTTP_RESPONSE *)
  lx : L
}.
Arguments Llhttp {L}.
Arguments http_major {L}.
Arguments http_minor {L}.
Arguments hp_status_code {L}.
Arguments hp_method {L}.
Arguments hp_error {L}.
Arguments hp_upgrade {L}.
Arguments connection_close {L}.
Arguments connection_keep_alive {L}.
Arguments hp_response {L}.
Arguments lx {L}.

(** The error codes of [llhttp.h] that the code names. *)
Definition HPE_CLOSED_CONNECTION : Z := 5.
Definition HPE_PAUSED : Z := 21.
Definition HPE_PAUSED_UPGRADE : Z := 22.

Inductive parse_state := state_unknown | state_header_name | state_header_value | state_done.
#[global] Instance parse_state_eq_dec : EqDecision parse_state.
Proof. solve_decision. Defined.

Record message_data := MessageData {
  hm : http_message;
  md_state : parse_state;
  md_name1 : nat;
  md_name2 : nat;
  md_value1 : nat
}.

Definition with_hm (md : message_data) (m : http_message) : message_data :=
  MessageData m (md_state md) (md_name1 md) (md_name2 md) (md_value1 md).
Definition with_state (md : message_data) (s : parse_state) : message_data :=
  MessageData (hm md) s (md_name1 md) (md_name2 md) (md_value1 md).

(** Appends to the texts of a message. *)
Definition append_url (m : http_message) (s : txt) : http_message :=
  HttpMessage (major_ m) (minor_ m) (method_ m) (error_ m) (status_code_ m) (upgrade_ m)
    (has_body_ m) (url_ m ++ s) (status_message_ m) (headers_ m) (hpairs_ m) (body_ m) (info_ m).
Definition append_status (m : http_message) (s : txt) : http_message :=
  HttpMessage (major_ m) (minor_ m) (method_ m) (error_ m) (status_code_ m) (upgrade_ m)
    (has_body_ m) (url_ m) (status_message_ m ++ s) (headers_ m) (hpairs_ m) (body_ m) (info_ m).
Definition append_headers (m : http_message) (s : txt) (ps : list http_kvoffsets) : http_message :=
  HttpMessage (major_ m) (minor_ m) (method_ m) (error_ m) (status_code_ m) (upgrade_ m)
    (has_body_ m) (url_ m) (status_message_ m) (headers_ m ++ s) (hpairs_ m ++ ps) (body_ m) (info_ m).
Definition append_body_text (m : http_message) (s : txt) : http_message :=
  HttpMessage (major_ m) (minor_ m) (method_ m) (error_ m) (status_code_ m) (upgrade_ m)
    (has_body_ m) (url_ m) (status_message_ m) (headers_ m) (hpairs_ m) (body_ m ++ s) (info_ m).

(** * Callbacks *)

Inductive callback :=
  | Cb_message_begin
  | Cb_url (s : txt)
  | Cb_status (s : txt)
  | Cb_header_field (s : txt)
  | Cb_header_field_complete
  | Cb_header_value (s : txt)
  | Cb_header_value_complete
  | Cb_headers_complete
  | Cb_chunk_header
  | Cb_body (s : txt)
  | Cb_message_complete.

Section Callbacks.
Context {L : Type}.
Implicit Types (hp : llhttp L) (md : message_data).

Definition copy_parser_status hp md : message_data :=
  let m := hm md in
  with_hm md (HttpMessage (http_major hp mod 256) (http_minor hp mod 256) (hp_method hp mod 256)
    (hp_error hp mod 256) (hp_status_code hp mod 65536) (hp_upgrade hp mod 2)
    (has_body_ m) (url_ m) (status_message_ m) (headers_ m) (hpairs_ m) (body_ m) (info_ m)).

Definition on_message_begin md : message_data :=
  with_state (with_hm md (do_clear (hm md))) state_unknown.

Definition on_url md (s : txt) : message_data :=
  with_state (with_hm md (append_url (hm md) s)) state_unknown.

Definition on_status hp md (s : txt) : message_data :=
  let md := if major_ (hm md) =? 0 then copy_parser_status hp md else md in
  with_state (with_hm md (append_status (hm md) s)) state_unknown.

Definition on_header_field md (s : txt) : message_data :=
  let md := if negb (bool_decide (md_state md = state_header_name))
            then MessageData (hm md) state_header_name (length (headers_ (hm md))) (md_name2 md) (md_value1 md)
            else md in
  with_hm md (append_headers (hm md) s []).

Definition on_header_field_complete md : message_data :=
  let n1 := if negb (bool_decide (md_state md = state_header_name))
            then length (headers_ (hm md)) else md_name1 md in
  let n2 := length (headers_ (hm md)) in
  MessageData (append_headers (hm md) $": " []) state_header_value n1 n2 (n2 + 2).

Definition on_header_value md (s : txt) : message_data :=
  with_hm md (append_headers (hm md) s []).

Definition on_header_value_complete md : message_data :=
  let ps := if bool_decide (md_state md = state_header_value)
            then [KvOffsets (md_name1 md) (md_name2 md) (md_value1 md) (length (headers_ (hm md)))]
            else [] in
  with_state (with_hm md (append_headers (hm md) crlf ps)) state_unknown.

Definition on_headers_complete hp md : message_data := copy_parser_status hp md.
Definition on_body md (s : txt) : message_data := with_hm md (append_body_text (hm md) s).
Definition on_message_complete md : message_data := with_state md state_done.

(** [settings]: which function handles which callback. *)
Definition run_callback md (e : llhttp L * callback) : message_data :=
  match e.2 with
  | Cb_message_begin => on_message_begin md
  | Cb_url s => on_url md s
  | Cb_status s => on_status e.1 md s
  | Cb_header_field s => on_header_field md s
  | Cb_header_field_complete => on_header_field_complete md
  | Cb_header_value s => on_header_value md s
  | Cb_header_value_complete => on_header_value_complete md
  | Cb_headers_complete => on_headers_complete e.1 md
  | Cb_chunk_header => md
  | Cb_body s => on_body md s
  | Cb_message_complete => on_message_complete md
  end.

Definition run_callbacks md (es : list (llhttp L * callback)) : message_data :=
  foldl run_callback md es.
End Callbacks.

(** * Receiving *)

(** What [llhttp_execute] returns: the callbacks it ran, the lexer, the error
    code, and the offset of [llhttp_get_error_pos] in the buffer. *)
Record execution (L : Type) := Execution {
  ex_events : list (llhttp L * callback);
  ex_parser : llhttp L;
  ex_errno : Z;
  ex_error_pos : nat
}.
Arguments Execution {L}.
Arguments ex_events {L}.
Arguments ex_parser {L}.
Arguments ex_errno {L}.
Arguments ex_error_pos {L}.

Record http_parser (L : Type) := HttpParser {
  hp_ : llhttp L;
  receive_buffer_ : txt;
  host_ : txt
}.
Arguments HttpParser {L}.
Arguments hp_ {L}.
Arguments receive_buffer_ {L}.
Arguments host_ {L}.

(** A round of the loop ends it, or leaves it with an empty buffer. *)
Inductive round (L : Type) :=
  | Break (p : http_parser L) (md : message_data)
  | Again (p : http_parser L) (md : message_data).
Arguments Break {L}.
Arguments Again {L}.

Section Receive.
Context {L : Type}.
Context (llhttp_execute : llhttp L → txt → execution L).
Context (llhttp_resume llhttp_resume_after_upgrade : llhttp L → llhttp L).

(** The body of the loop from [llhttp_execute] on. *)
Definition process_bytes (p : http_parser L) (md : message_data) (buf : txt) : round L :=
  let x := llhttp_execute (hp_ p) buf in
  let md := run_callbacks md (ex_events x) in
  let err := ex_errno x in
  let consumed := if negb (err =? HPE_OK) then ex_error_pos x else length buf in
  let rest := if (consumed =? length buf)%nat then [] else drop consumed buf in
  let '(hp, md) :=
    if err =? HPE_PAUSED_UPGRADE then (llhttp_resume_after_upgrade (ex_parser x), with_state md state_done)
    else if err =? HPE_PAUSED then (llhttp_resume (ex_parser x), with_state md state_done)
    else (ex_parser x, md) in
  let p := HttpParser hp rest (host_ p) in
  if negb (err =? HPE_OK) || bool_decide (md_state md = state_done)
  then Break p (copy_parser_status hp md)
  else Again p md.

(** The reads of the socket, in order: bytes, or [None] for an error; no
    bytes is the end of the file.  The loop with an empty buffer: [None]
    when the task is still waiting for the socket. *)
Fixpoint receive_loop (p : http_parser L) (md : message_data) (reads : list (option txt)) :
    option (http_parser L * message_data * list (option txt)) :=
  match reads with
  | [] => None
  | (None | Some []) :: reads' => Some (p, md, reads')
  | Some buf :: reads' =>
      match process_bytes p md buf with
      | Break p md => Some (p, md, reads')
      | Again p md => receive_loop p md reads'
      end
  end.

Definition new_message_data : message_data :=
  MessageData (set_status (new_request HTTP_GET []) 0 []) state_unknown O O O.

(** After the loop: an incomplete message gets an error. *)
Definition receive_end (p : http_parser L) (md : message_data) : http_parser L * http_message :=
  if negb (bool_decide (md_state md = state_done)) && (error_ (hm md) =? 0)
  then let hp := hp_ p in
       (HttpParser (Llhttp (http_major hp) (http_minor hp) (hp_status_code hp) (hp_method hp)
          HPE_CLOSED_CONNECTION (hp_upgrade hp) (connection_close hp) (connection_keep_alive hp)
          (hp_response hp) (lx hp)) (receive_buffer_ p) (host_ p),
        set_error (hm md) HPE_CLOSED_CONNECTION)
  else (p, hm md).

(** [receive]: drain the bytes left by the previous call first. *)
Definition receive (p : http_parser L) (reads : list (option txt)) :
    option (http_parser L * http_message * list (option txt)) :=
  r ← (if bool_decide (receive_buffer_ p = [])
       then receive_loop p new_message_data reads
       else match process_bytes p new_message_data (receive_buffer_ p) with
            | Break p md => Some (p, md, reads)
            | Again p md => receive_loop p md reads
            end);
  let '(p, md, reads') := r in
  Some (receive_end p md, reads').
End Receive.

(** * Sending *)

Section Send.
Context {L : Type}.
Context (llhttp_method_name llhttp_status_name : Z → txt).
Context (llhttp_should_keep_alive : llhttp L → bool).

(** [default_status_codes]. *)
Definition default_status_codes : list (Z * txt) :=
  [ (100, $"Continue"); (101, $"Switching Protocols"); (102, $"Processing"); (103, $"Early Hints");
    (110, $"Early Hints"); (111, $"Early Hints"); (112, $"Early Hints"); (113, $"Early Hints");
    (200, $"OK"); (201, $"Created"); (202, $"Accepted"); (203, $"Non-Authoritative Information");
    (204, $"No Content"); (205, $"Reset Content"); (206, $"Partial Content"); (207, $"Multi-Status");
    (208, $"Already Reported"); (226, $"IM Used"); (300, $"Multiple Choices");
    (301, $"Moved Permanently"); (302, $"Found"); (303, $"See Other"); (304, $"Not Modified");
    (305, $"Use Proxy"); (307, $"Temporary Redirect"); (308, $"Permanent Redirect");
    (400, $"Bad Request"); (401, $"Unauthorized"); (402, $"Payment Required"); (403, $"Forbidden");
    (404, $"Not Found"); (405, $"Method Not Allowed"); (406, $"Not Acceptable");
    (407, $"Proxy Authentication Required"); (408, $"Request Timeout"); (409, $"Conflict");
    (410, $"Gone"); (411, $"Length Required"); (412, $"Precondition Failed");
    (413, $"Content Too Large"); (414, $"URI Too Long"); (415, $"Unsupported Media Type");
    (416, $"Range Not Satisfiable"); (417, $"Expectation Failed"); (418, $"I'm a teapot");
    (421, $"Misdirected Request"); (422, $"Unprocessable Content"); (423, $"Locked");
    (424, $"Failed Dependency"); (425, $"Too Early"); (426, $"Upgrade Required");
    (428, $"Precondition Required"); (429, $"Too Many Requests");
    (431, $"Request Header Fields Too Large"); (451, $"Unavailable For Legal Reasons");
    (500, $"Internal Server Error"); (501, $"Not Implemented"); (502, $"Bad Gateway");
    (503, $"Service Unavailable"); (504, $"Gateway Timeout"); (505, $"HTTP Version Not Supported");
    (506, $"Variant Also Negotiates"); (507, $"Insufficient Storage"); (508, $"Loop Detected");
    (509, $"Bandwidth Limit Exceeded"); (510, $"Not Extended");
    (511, $"Network Authentication Required") ].

(** [std::lower_bound]: halve the range until it is empty; [len] is the
    fuel, and each round at least halves it. *)
Fixpoint lower_bound (fuel : nat) (first len : nat) (b : Z) : nat :=
  match fuel with
  | O => first
  | S fuel =>
      if (len =? 0)%nat then first
      else
        let half := (len / 2)%nat in
        let mid := (first + half)%nat in
        if (nth mid default_status_codes (0, [])).1 <? b
        then lower_bound fuel (mid + 1) (len - half - 1) b
        else lower_bound fuel first half b
  end.

Definition default_status_message (c : Z) : txt :=
  let ncodes := length default_status_codes in
  let m := lower_bound ncodes 0 ncodes c in
  if negb (m =? ncodes)%nat && ((nth m default_status_codes (0, [])).1 =? c)
  then (nth m default_status_codes (0, [])).2
  else llhttp_status_name c.

(** Add [Content-Length] when the message has a body and no header frames it. *)
Definition add_content_length (m : http_message) : http_message :=
  if has_body_ m && negb (has_header m $"content-length") && negb (has_header m $"transfer-encoding")
  then add_header_number m $"Content-Length" (size (body_ m)) else m.

(** The bytes [send_request] hands to [sendv_all]. *)
Definition send_request (p : http_parser L) (m : http_message) : txt :=
  let urlline := llhttp_method_name (method_ m) ++ $" " ++ url_ m ++ $" HTTP/" ++ dec (major_ m) ++
                 $"." ++ dec (minor_ m) ++ crlf in
  let m := if negb (bool_decide (host_ p = [])) && negb (has_header m $"host")
           then add_header m $"Host" (host_ p) else m in
  let m := add_content_length m in
  urlline ++ headers_ m ++ crlf ++ body_ m.

(** The value of a [Connection] header, without case. *)
Definition is_close (v : txt) : bool :=
  (length v =? 5)%nat && ieq_chars v $"close".

(** [send_response]: mark the connection when the response closes it; the
    bytes sent. *)
Definition note_close (p : http_parser L) (m : http_message) : http_parser L :=
  let i := find_header m $"connection" in
  if llhttp_should_keep_alive (hp_ p) && negb (i =? header_end m)%nat &&
     is_close (kv_value (headers_ m) (nth i (hpairs_ m) (KvOffsets 0 0 0 0)))
  then let hp := hp_ p in
       let close := (0 <? http_major hp) && (0 <? http_minor hp) in
       HttpParser (Llhttp (http_major hp) (http_minor hp) (hp_status_code hp) (hp_method hp) (hp_error hp)
         (hp_upgrade hp) (connection_close hp || close) (connection_keep_alive hp && close)
         (hp_response hp) (lx hp)) (receive_buffer_ p) (host_ p)
  else p.

Definition send_response (p : http_parser L) (m : http_message) : http_parser L * txt :=
  let p := note_close p m in
  let status_message := if bool_decide (status_message_ m = [])
                        then default_status_message (status_code_ m) else status_message_ m in
  let codeline := $"HTTP/" ++ dec (major_ m) ++ $"." ++ dec (minor_ m) ++ $" " ++
                  dec (status_code_ m) ++ $" " ++ status_message ++ crlf in
  let m := add_content_length m in
  (p, codeline ++ headers_ m ++ crlf ++ body_ m).

Definition send (p : http_parser L) (m : http_message) : http_parser L * txt :=
  if hp_response (hp_ p) then (p, send_request p m) else send_response p m.

Definition send_response_chunk (str : txt) : txt := dec (size str) ++ crlf ++ str ++ crlf.
Definition send_response_end_chunk : txt := $"0" ++ crlf ++ crlf.
End Send.

(** * Laws of the callbacks *)

(** Compute with the record updates. *)
Ltac md_unfold :=
  unfold on_url, on_body, on_header_value, with_state, with_hm, append_url, append_status, append_headers,
    append_body_text in *; cbn.

Section CallbackLaws.
Context {L : Type}.
Implicit Types (es : list (llhttp L * callback)) (hp : llhttp L).

(** The callbacks, whatever the lexer object they carry. *)
Definition calls es : list callback := snd <$> es.

Lemma run_callbacks_app md es fs :
  run_callbacks md (es ++ fs) = run_callbacks (run_callbacks md es) fs.
Proof. apply foldl_app. Qed.

(** Fragments of one datum append up. *)
Lemma run_urls md es ss : calls es = Cb_url <$> ss → md_state md = state_unknown →
  run_callbacks md es = with_hm md (append_url (hm md) (concat ss)).
Proof.
  revert md es. induction ss as [|s ss IH]; intros md [|e es] H Hs; try done.
  - destruct md as [[] ? ? ? ?]. md_unfold. by rewrite app_nil_r.
  - injection H as He H. cbn [run_callbacks foldl]. unfold run_callback at 2. rewrite He.
    pose proof (IH (on_url md s) es H eq_refl) as Hst. unfold run_callbacks in Hst. rewrite Hst.
    destruct md as [[] ? ? ? ?]. md_unfold. cbn in Hs. by rewrite Hs, <-(assoc_L (++)).
Qed.

Lemma run_bodies md es ss : calls es = Cb_body <$> ss →
  run_callbacks md es = with_hm md (append_body_text (hm md) (concat ss)).
Proof.
  revert md es. induction ss as [|s ss IH]; intros md [|e es] H; try done.
  - destruct md as [[] ? ? ? ?]. md_unfold. by rewrite app_nil_r.
  - injection H as He H. cbn [run_callbacks foldl]. unfold run_callback at 2. rewrite He.
    pose proof (IH (on_body md s) es H) as Hst. unfold run_callbacks in Hst. rewrite Hst.
    destruct md as [[] ? ? ? ?]. md_unfold. by rewrite <-(assoc_L (++)).
Qed.

Lemma run_values md es ss : calls es = Cb_header_value <$> ss →
  run_callbacks md es = with_hm md (append_headers (hm md) (concat ss) []).
Proof.
  revert md es. induction ss as [|s ss IH]; intros md [|e es] H; try done.
  - destruct md as [[] ? ? ? ?]. md_unfold. by rewrite !app_nil_r.
  - injection H as He H. cbn [run_callbacks foldl]. unfold run_callback at 2. rewrite He.
    pose proof (IH (on_header_value md s) es H) as Hst. unfold run_callbacks in Hst. rewrite Hst.
    destruct md as [[] ? ? ? ?]. md_unfold. by rewrite <-!(assoc_L (++)).
Qed.

Lemma run_fields md es ss n : calls es = Cb_header_field <$> ss →
  md_state md = state_header_name → md_name1 md = n →
  run_callbacks md es = MessageData (append_headers (hm md) (concat ss) []) state_header_name n
                          (md_name2 md) (md_value1 md).
Proof.
  revert md es. induction ss as [|s ss IH]; intros md [|e es] H Hs Hn; try done.
  - destruct md as [[] ? ? ? ?]. md_unfold. cbn in *. subst. by rewrite !app_nil_r.
  - injection H as He H. cbn [run_callbacks foldl]. unfold run_callback at 2. rewrite He.
    assert (E : on_header_field md s = with_hm md (append_headers (hm md) s [])).
    { unfold on_header_field. by rewrite bool_decide_eq_true_2. }
    rewrite E. pose proof (IH (with_hm md (append_headers (hm md) s [])) es H Hs Hn) as Hst.
    unfold run_callbacks in Hst. rewrite Hst.
    destruct md as [[] ? ? ? ?]. md_unfold. by rewrite <-!(assoc_L (++)).
Qed.

(** The callbacks of one header, its name and value in fragments. *)
Definition header_calls (h : list txt * list txt) : list callback :=
  (Cb_header_field <$> h.1) ++ [Cb_header_field_complete] ++
  (Cb_header_value <$> h.2) ++ [Cb_header_value_complete].
Definition header_of (h : list txt * list txt) : txt * txt := (concat h.1, concat h.2).

(** The name's callbacks, from a state outside a header. *)
Lemma run_name md es ss :
  calls es = (Cb_header_field <$> ss) ++ [Cb_header_field_complete] → md_state md = state_unknown →
  let n := length (headers_ (hm md)) in
  run_callbacks md es =
    MessageData (append_headers (hm md) (concat ss ++ $": ") []) state_header_value n
      (n + length (concat ss)) (n + length (concat ss) + 2).
Proof.
  intros H Hs n. apply fmap_app_inv in H as (es1 & es2 & H1 & H2 & ->).
  destruct es2 as [|e [|]]; try done. injection H2 as He.
  rewrite run_callbacks_app. destruct ss as [|s ss].
  - destruct es1; [|done]. cbn. unfold run_callback. rewrite <-He. unfold on_header_field_complete.
    rewrite Hs. cbn. by rewrite Nat.add_0_r.
  - destruct es1 as [|e1 es1]; [done|]. injection H1 as He1 H1. symmetry in H1.
    assert (E : run_callback md e1 = MessageData (append_headers (hm md) s []) state_header_name n
                                        (md_name2 md) (md_value1 md)).
    { unfold run_callback. rewrite <-He1. unfold on_header_field. by rewrite Hs. }
    change (run_callbacks md (e1 :: es1)) with (run_callbacks (run_callback md e1) es1). rewrite E.
    rewrite (run_fields _ es1 ss n H1) by done.
    cbn [run_callbacks foldl]. unfold run_callback. rewrite <-He. unfold on_header_field_complete.
    destruct md as [[] ? ? ? ?]. md_unfold. rewrite !app_nil_r, <-!(assoc_L (++)), !length_app.
    unfold n. cbn. f_equal; lia.
Qed.

Lemma run_header md es h l :
  calls es = header_calls h → md_state md = state_unknown → indexes (hm md) l →
  ∃ md', run_callbacks md es = md' ∧ md_state md' = state_unknown ∧ indexes (hm md') (l ++ [header_of h]) ∧
    url_ (hm md') = url_ (hm md) ∧ body_ (hm md') = body_ (hm md).
Proof.
  intros H Hs [I1 I2]. unfold header_calls in H. rewrite (assoc_L (++)) in H.
  apply fmap_app_inv in H as (es1 & es2 & H1 & H2 & ->).
  symmetry in H2. apply fmap_app_inv in H2 as (es3 & es4 & H3 & H4 & ->).
  destruct es4 as [|e [|]]; try done. injection H4 as He.
  eexists. split; [done|]. rewrite !run_callbacks_app.
  rewrite (run_name md es1 h.1) by done. rewrite (run_values _ es3 h.2) by done.
  cbn [run_callbacks foldl]. unfold run_callback. rewrite <-He. unfold on_header_value_complete.
  destruct h as [k v]. destruct md as [[] ? ? ? ?]. md_unfold. cbn in *. subst.
  split; [done|]. split; [|done]. unfold indexes, header_of. cbn.
  rewrite render_headers_app, index_headers_app, render_headers_one. unfold render_header. cbn [fst snd].
  rewrite !app_nil_r, <-!(assoc_L (++)). split; [done|]. f_equal.
  rewrite bool_decide_eq_true_2 by done. cbn [index_headers]. unfold header_index. cbn [fst snd].
  rewrite Nat.add_0_l, !length_app. cbn [length]. do 2 f_equal. lia.
Qed.
End CallbackLaws.

(** ** Whole messages *)

Section Message.
Context {L : Type}.
Implicit Types (es : list (llhttp L * callback)).

Lemma run_headers md es hs l :
  calls es = hs ≫= header_calls → md_state md = state_unknown → indexes (hm md) l →
  ∃ md', run_callbacks md es = md' ∧ md_state md' = state_unknown ∧ indexes (hm md') (l ++ (header_of <$> hs)) ∧
    url_ (hm md') = url_ (hm md) ∧ body_ (hm md') = body_ (hm md).
Proof.
  revert md es l. induction hs as [|h hs IH]; intros md es l H Hs Hi.
  - destruct es; [|done]. exists md. rewrite app_nil_r. done.
  - cbn [mbind list_bind] in H. symmetry in H.
    symmetry in H. apply fmap_app_inv in H as (es1 & es2 & H1 & H2 & ->).
    destruct (run_header md es1 h l) as (md1 & E1 & S1 & I1 & U1 & B1); [by rewrite H1|done|done|].
    destruct (IH md1 es2 (l ++ [header_of h])) as (md2 & E2 & S2 & I2 & U2 & B2); [by rewrite H2|done|done|].
    exists md2. rewrite run_callbacks_app, E1, E2. split; [done|]. split; [done|].
    rewrite fmap_cons. split; [by rewrite <-(assoc_L (++)) in I2|]. by rewrite U2, B2.
Qed.

(** The callbacks of a message. *)
Definition message_calls (us : list txt) (hs : list (list txt * list txt)) (bs : list txt) : list callback :=
  [Cb_message_begin] ++ (Cb_url <$> us) ++ (hs ≫= header_calls) ++ [Cb_headers_complete] ++
  (Cb_body <$> bs) ++ [Cb_message_complete].

(** However the lexer cuts the URL, the names, the values and the body of
    a message into pieces, the callbacks rebuild it: the URL and the body
    are the pieces put together, the headers are the names with their
    values in order, and the message is marked complete. *)
Theorem parsed_message es us hs bs :
  calls es = message_calls us hs bs →
  let md := run_callbacks new_message_data es in
  url_ (hm md) = concat us ∧ header_pairs (hm md) = header_of <$> hs ∧
  body_ (hm md) = concat bs ∧ md_state md = state_done.
Proof.
  unfold message_calls. intros H.
  destruct es as [|e0 es]; [done|]. injection H as He0 H.
  apply fmap_app_inv in H as (es1 & r1 & H1 & Hr1 & ->).
  symmetry in Hr1. apply fmap_app_inv in Hr1 as (es2 & r2 & H2 & Hr2 & ->).
  destruct r2 as [|e3 r2]; [done|]. injection Hr2 as He3 Hr2.
  symmetry in Hr2. apply fmap_app_inv in Hr2 as (es4 & r4 & H4 & Hr4 & ->).
  destruct r4 as [|e5 [|]]; try done. injection Hr4 as He5.
  cbv zeta.
  change (e0 :: es1 ++ es2 ++ e3 :: es4 ++ [e5]) with ([e0] ++ es1 ++ es2 ++ [e3] ++ es4 ++ [e5]).
  rewrite !run_callbacks_app.
  assert (E0 : run_callbacks new_message_data [e0] = on_message_begin new_message_data).
  { cbn. unfold run_callback. by rewrite He0. }
  rewrite E0. set (md1 := on_message_begin new_message_data).
  rewrite (run_urls md1 es1 us) by done.
  destruct (run_headers (with_hm md1 (append_url (hm md1) (concat us))) es2 hs [])
    as (md2 & -> & S2 & I2 & U2 & B2); [done|done|by split|].
  assert (E3 : run_callbacks md2 [e3] = copy_parser_status e3.1 md2).
  { cbn. unfold run_callback. by rewrite <-He3. }
  rewrite E3, (run_bodies _ es4 bs) by done.
  cbn [run_callbacks foldl]. unfold run_callback. rewrite <-He5.
  split; [exact U2|]. split; [|split; [|done]].
  - apply indexes_pairs. exact I2.
  - unfold on_message_complete, with_state, with_hm, append_body_text, copy_parser_status. cbn. by rewrite B2.
Qed.
End Message.

(** ** Receiving: the cuts do not matter *)

(** A lexer may hand over one datum (a URL, a status, the name or value of a
    header, a body) in pieces, at the ends of the buffers it is given, as its
    documentation says.  [recut]: two sequences of callbacks that differ in how
    they cut data only, the lexer objects having the same fields of the message
    in progress. *)
Section Recut.
Context {L : Type}.
Implicit Types (hp : llhttp L) (es fs : list (llhttp L * callback)).

Definition same_status hp hp' : Prop :=
  http_major hp = http_major hp' ∧ http_minor hp = http_minor hp' ∧ hp_status_code hp = hp_status_code hp' ∧
  hp_method hp = hp_method hp' ∧ hp_error hp = hp_error hp' ∧ hp_upgrade hp = hp_upgrade hp'.

Inductive datum : (txt → callback) → Prop :=
  | datum_url : datum Cb_url
  | datum_status : datum Cb_status
  | datum_field : datum Cb_header_field
  | datum_value : datum Cb_header_value
  | datum_body : datum Cb_body.

Inductive cut_once : list (llhttp L * callback) → list (llhttp L * callback) → Prop :=
  | cut_datum es fs hp hp1 hp2 d s t : datum d → same_status hp hp1 → same_status hp hp2 →
      cut_once (es ++ (hp, d (s ++ t)) :: fs) (es ++ (hp1, d s) :: (hp2, d t) :: fs)
  | cut_object es fs hp hp' c : same_status hp hp' → cut_once (es ++ (hp, c) :: fs) (es ++ (hp', c) :: fs).

Definition recut : relation (list (llhttp L * callback)) := rtsc cut_once.

Lemma copy_same hp hp' md : same_status hp hp' → copy_parser_status hp md = copy_parser_status hp' md.
Proof. intros (E1 & E2 & E3 & E4 & E5 & E6). unfold copy_parser_status. by rewrite E1, E2, E3, E4, E5, E6. Qed.

Lemma same_refl hp : same_status hp hp.
Proof. done. Qed.

(** The callbacks of the project put the pieces together again. *)
Lemma status_pieces hp hp1 hp2 md s t : same_status hp hp1 → same_status hp hp2 →
  on_status hp2 (on_status hp1 md s) t = on_status hp md (s ++ t).
Proof.
  intros H1 H2. unfold on_status. rewrite <-(copy_same hp hp1 md H1).
  destruct (major_ (hm md) =? 0) eqn:E; cbn [hm with_state with_hm append_status major_ copy_parser_status];
    [|rewrite E; destruct md as [[] ? ? ? ?]; md_unfold; by rewrite (assoc_L (++))].
  destruct (http_major hp mod 256 =? 0) eqn:E'; [rewrite <-(copy_same hp hp2 _ H2)|];
    destruct md as [[] ? ? ? ?]; unfold copy_parser_status; md_unfold; by rewrite (assoc_L (++)).
Qed.

Lemma field_pieces md s t : on_header_field (on_header_field md s) t = on_header_field md (s ++ t).
Proof.
  unfold on_header_field. destruct md as [[] [] ? ? ?]; md_unfold; by rewrite ?app_nil_r, ?(assoc_L (++)).
Qed.

Lemma datum_pieces d hp hp1 hp2 md s t : datum d → same_status hp hp1 → same_status hp hp2 →
  run_callback (run_callback md (hp1, d s)) (hp2, d t) = run_callback md (hp, d (s ++ t)).
Proof.
  intros [] H1 H2; unfold run_callback; cbn [fst snd].
  - destruct md as [[] ? ? ? ?]. md_unfold. by rewrite (assoc_L (++)).
  - by apply status_pieces.
  - apply field_pieces.
  - destruct md as [[] ? ? ? ?]. md_unfold. by rewrite !app_nil_r, <-(assoc_L (++)).
  - destruct md as [[] ? ? ? ?]. md_unfold. by rewrite (assoc_L (++)).
Qed.

Lemma object_same hp hp' md c : same_status hp hp' → run_callback md (hp, c) = run_callback md (hp', c).
Proof.
  intros H. unfold run_callback, on_headers_complete, on_status. destruct c; cbn [fst snd]; try done; by rewrite (copy_same hp hp' md H).
Qed.

Lemma run_cut_once md es fs : cut_once es fs → run_callbacks md es = run_callbacks md fs.
Proof.
  intros [es' fs' hp hp1 hp2 d s t Hd H1 H2|es' fs' hp hp' c H]; rewrite !run_callbacks_app; unfold run_callbacks; cbn [foldl].
  - by rewrite (datum_pieces d hp).
  - by rewrite (object_same hp hp').
Qed.

Lemma run_recut md es fs : recut es fs → run_callbacks md es = run_callbacks md fs.
Proof.
  induction 1 as [|es gs fs [H|H] _ IH]; [done| |]; rewrite <-IH; [by apply run_cut_once|symmetry; by apply run_cut_once].
Qed.
End Recut.

(** What the code relies on of [llhttp_execute]: the error position is in the
    buffer; it returns no error only while the message is not complete (the
    callback at its end pauses it); bytes after the position where it stopped
    do not matter; and executing on two pieces in turn is executing on the
    whole, the callbacks being the same up to how they cut the data. *)
Record streaming {L : Type} (llhttp_execute : llhttp L → txt → execution L) : Prop := {
  execute_pos : ∀ hp b, ex_errno (llhttp_execute hp b) ≠ HPE_OK →
    (ex_error_pos (llhttp_execute hp b) ≤ length b)%nat;
  execute_incomplete : ∀ hp b, ex_errno (llhttp_execute hp b) = HPE_OK →
    Forall (λ e, e.2 ≠ Cb_message_complete) (ex_events (llhttp_execute hp b));
  execute_stop : ∀ hp a b, ex_errno (llhttp_execute hp a) ≠ HPE_OK →
    llhttp_execute hp (a ++ b) = llhttp_execute hp a;
  execute_app : ∀ hp a b, ex_errno (llhttp_execute hp a) = HPE_OK →
    let x := llhttp_execute hp a in
    let y := llhttp_execute (ex_parser x) b in
    let z := llhttp_execute hp (a ++ b) in
    ex_parser z = ex_parser y ∧ ex_errno z = ex_errno y ∧
    (ex_errno y ≠ HPE_OK → ex_error_pos z = (length a + ex_error_pos y)%nat) ∧
    recut (ex_events z) (ex_events x ++ ex_events y)
}.

Section Framing.
Context {L : Type}.
Context (llhttp_execute : llhttp L → txt → execution L).
Context (llhttp_resume llhttp_resume_after_upgrade : llhttp L → llhttp L).
Hypothesis Hx : streaming llhttp_execute.
Notation process_bytes := (process_bytes llhttp_execute llhttp_resume llhttp_resume_after_upgrade).
Notation receive_loop := (receive_loop llhttp_execute llhttp_resume llhttp_resume_after_upgrade).
Notation receive := (receive llhttp_execute llhttp_resume llhttp_resume_after_upgrade).
Implicit Types (p : http_parser L) (md : message_data).

Lemma run_incomplete md (es : list (llhttp L * callback)) :
  Forall (λ e, e.2 ≠ Cb_message_complete) es → md_state md ≠ state_done →
  md_state (run_callbacks md es) ≠ state_done.
Proof.
  intros H. revert md. induction H as [|e es He _ IH]; intros md Hs; [done|].
  change (run_callbacks md (e :: es)) with (run_callbacks (run_callback md e) es). apply IH.
  unfold run_callback. destruct e as [hp c]. cbn in He |- *.
  destruct c; try done; unfold on_header_field; case_if; done.
Qed.

(** An execution that stops ends the round with the unread bytes kept. *)
Definition stopped p md (hp : llhttp L) (es : list (llhttp L * callback)) (err : Z) (rest : txt) :
    http_parser L * message_data :=
  let md := run_callbacks md es in
  let '(hp, md) :=
    if err =? HPE_PAUSED_UPGRADE then (llhttp_resume_after_upgrade hp, with_state md state_done)
    else if err =? HPE_PAUSED then (llhttp_resume hp, with_state md state_done)
    else (hp, md) in
  (HttpParser hp rest (host_ p), copy_parser_status hp md).

Lemma process_stop p md buf :
  let x := llhttp_execute (hp_ p) buf in
  ex_errno x ≠ HPE_OK →
  let r := stopped p md (ex_parser x) (ex_events x) (ex_errno x) (drop (ex_error_pos x) buf) in
  process_bytes p md buf = Break r.1 r.2.
Proof.
  intros x Hne r. unfold HttpParser.process_bytes. fold x.
  rewrite (proj2 (Z.eqb_neq (ex_errno x) HPE_OK) Hne). cbn [negb orb].
  replace (if (ex_error_pos x =? length buf)%nat then [] else drop (ex_error_pos x) buf)
    with (drop (ex_error_pos x) buf).
  2: { destruct (Nat.eqb_spec (ex_error_pos x) (length buf)) as [->|]; [by rewrite drop_all|done]. }
  unfold r, stopped. destruct (ex_errno x =? HPE_PAUSED_UPGRADE); [done|].
  by destruct (ex_errno x =? HPE_PAUSED).
Qed.

Lemma process_again p md buf :
  let x := llhttp_execute (hp_ p) buf in
  ex_errno x = HPE_OK → md_state md ≠ state_done →
  process_bytes p md buf = Again (HttpParser (ex_parser x) [] (host_ p)) (run_callbacks md (ex_events x)).
Proof.
  intros x He Hs. unfold HttpParser.process_bytes. fold x. rewrite He.
  change (negb (HPE_OK =? HPE_OK)) with false. change (HPE_OK =? HPE_PAUSED_UPGRADE) with false.
  change (HPE_OK =? HPE_PAUSED) with false. cbn [orb]. rewrite Nat.eqb_refl.
  rewrite bool_decide_eq_false_2; [done|]. apply run_incomplete; [by apply execute_incomplete|done].
Qed.

(** The rounds over chunks end as one round over all of them. *)
Lemma receive_loop_cuts cs rest p md :
  let x := llhttp_execute (hp_ p) (concat cs) in
  Forall (λ c, c ≠ []) cs → md_state md ≠ state_done → ex_errno x ≠ HPE_OK → cs ≠ [] →
  ∃ cs' b,
    let r := stopped p md (ex_parser x) (ex_events x) (ex_errno x) b in
    receive_loop p md ((Some <$> cs) ++ rest) = Some (r, (Some <$> cs') ++ rest) ∧
    b ++ concat cs' = drop (ex_error_pos x) (concat cs).
Proof.
  intros x Hne. revert p md x. induction Hne as [|c cs Hc Hne IH]; intros p md x Hs He Hn; [done|]. clear Hn.
  destruct c as [|ch c]; [done|]. set (buf := ch :: c) in *.
  change ((Some <$> buf :: cs) ++ rest) with (Some buf :: (Some <$> cs) ++ rest).
  change (receive_loop p md (Some buf :: (Some <$> cs) ++ rest)) with
    (match process_bytes p md buf with
     | Break p md => Some (p, md, (Some <$> cs) ++ rest)
     | Again p md => receive_loop p md ((Some <$> cs) ++ rest) end).
  destruct (decide (ex_errno (llhttp_execute (hp_ p) buf) = HPE_OK)) as [Eok|Ene].
  - rewrite process_again by done.
    destruct (execute_app _ Hx (hp_ p) buf (concat cs) Eok) as (A1 & A2 & A3 & A4).
    change (buf ++ concat cs) with (concat (buf :: cs)) in *. fold x in A1, A2, A3, A4.
    assert (Hcs : cs ≠ []).
    { intros E. apply He. unfold x. rewrite E. cbn [concat]. by rewrite app_nil_r. }
    destruct (IH (HttpParser (ex_parser (llhttp_execute (hp_ p) buf)) [] (host_ p))
                (run_callbacks md (ex_events (llhttp_execute (hp_ p) buf)))) as (cs' & b & R & B);
      [apply run_incomplete; [by apply execute_incomplete|done]|cbn; congruence|done|].
    exists cs', b. split.
    + rewrite R. unfold stopped. rewrite A1, A2, (run_recut md _ _ A4), run_callbacks_app. done.
    + rewrite B. cbn [hp_]. rewrite A3 by congruence. cbn [concat].
      rewrite <-drop_drop, drop_app_length. done.
  - rewrite process_stop by done. exists cs, (drop (ex_error_pos (llhttp_execute (hp_ p) buf)) buf).
    assert (E : x = llhttp_execute (hp_ p) buf).
    { unfold x. cbn [concat]. by apply execute_stop. }
    rewrite E. split; [by destruct (stopped _ _ _ _ _ _)|]. cbn [concat].
    rewrite drop_app_le; [done|]. by apply execute_pos.
Qed.

(** The unread bytes do not matter to the message. *)
Lemma receive_end_buffer (hp : llhttp L) b h md :
  receive_end (HttpParser hp b h) md =
    (HttpParser (hp_ (receive_end (HttpParser hp [] h) md).1) b h, (receive_end (HttpParser hp [] h) md).2).
Proof. unfold receive_end. by case_if. Qed.

Lemma stopped_buffer p md hp es err : ∃ hp' md', ∀ b, stopped p md hp es err b = (HttpParser hp' b (host_ p), md').
Proof.
  unfold stopped. destruct (err =? HPE_PAUSED_UPGRADE); [|destruct (err =? HPE_PAUSED)]; eexists _, _; done.
Qed.

(** C31 A message is received the same however the network cuts its bytes, and
    however the lexer therefore cuts the URL, the status, the headers and the
    body it hands to the callbacks, which put the pieces together: whenever the lexer stops within the bytes of [cs], reading them chunk by
    chunk gives the message and the lexer that reading them at once gives,
    and no byte after the message is lost: what stays in the buffer and the
    chunks not read are exactly the bytes after the place it stopped. *)
Theorem receive_cuts (cs : list txt) (rest : list (option txt)) p :
  receive_buffer_ p = [] → cs ≠ [] → Forall (λ c, c ≠ []) cs →
  ex_errno (llhttp_execute (hp_ p) (concat cs)) ≠ HPE_OK →
  ∃ p1 p2 m cs',
    receive p ((Some <$> cs) ++ rest) = Some ((p1, m), (Some <$> cs') ++ rest) ∧
    receive p (Some (concat cs) :: rest) = Some ((p2, m), rest) ∧
    hp_ p1 = hp_ p2 ∧ receive_buffer_ p1 ++ concat cs' = receive_buffer_ p2 ∧
    receive_buffer_ p2 = drop (ex_error_pos (llhttp_execute (hp_ p) (concat cs))) (concat cs).
Proof.
  intros Hb Hcs Hne He.
  assert (Hd : concat cs ≠ []).
  { destruct Hne as [|c cs Hc _]; [done|]. destruct c; [done|]. discriminate. }
  destruct (receive_loop_cuts cs rest p new_message_data) as (cs1 & b1 & R1 & B1); try done.
  set (x := llhttp_execute (hp_ p) (concat cs)) in *.
  assert (R2 : receive_loop p new_message_data (Some (concat cs) :: rest)
               = Some (stopped p new_message_data (ex_parser x) (ex_events x) (ex_errno x)
                         (drop (ex_error_pos x) (concat cs)), rest)).
  { pose proof (process_stop p new_message_data (concat cs) He) as E. cbv zeta in E. fold x in E.
    clearbody x.
    destruct (concat cs) as [|ch c]; [done|]. cbn [HttpParser.receive_loop]. rewrite E.
    by destruct (stopped _ _ _ _ _ (drop _ _)). }
  unfold HttpParser.receive. rewrite bool_decide_eq_true_2 by done. rewrite R1, R2.
  destruct (stopped_buffer p new_message_data (ex_parser x) (ex_events x) (ex_errno x)) as (hp & m & Hst).
  cbn [mbind option_bind]. rewrite !Hst.
  eexists _, _, _, cs1. rewrite (receive_end_buffer _ b1), (receive_end_buffer _ (drop _ _)).
  do 3 (split; [done|]). split; [exact B1|done].
Qed.
End Framing.

(** A small lexer for the witnesses: the bytes before ['!'], which ends the
    message, are the body, handed over in one piece per buffer. *)
Definition bang_parser : llhttp unit := Llhttp 1 1 0 1 0 0 false false false tt.

Definition body_piece (s : txt) : list (llhttp unit * callback) :=
  match s with [] => [] | _ => [(bang_parser, Cb_body s)] end.

Definition bang_execute (hp : llhttp unit) (b : txt) : execution unit :=
  match index_of "!" b with
  | Some n => Execution (body_piece (take n b) ++ [(bang_parser, Cb_message_complete)]) hp HPE_PAUSED (S n)
  | None => Execution (body_piece b) hp HPE_OK 0
  end.

Lemma index_of_either c a b :
  index_of c (a ++ b) = match index_of c a with Some n => Some n | None => Nat.add (length a) <$> index_of c b end.
Proof.
  induction a as [|d a IH]; cbn [app index_of length]; [by destruct (index_of c b)|]. case_if; [done|]. rewrite IH.
  destruct (index_of c a) as [n|]; [done|]. by destruct (index_of c b).
Qed.

Lemma index_of_lt c s n : index_of c s = Some n → (n < length s)%nat.
Proof.
  intros H. apply index_of_drop in H. destruct (decide (n < length s)%nat); [done|]. by rewrite drop_ge in H by lia.
Qed.

Lemma body_pieces s t fs : recut (body_piece (s ++ t) ++ fs) (body_piece s ++ body_piece t ++ fs).
Proof.
  destruct s as [|c s]; [apply rtc_refl|]. destruct t as [|d t]; [rewrite app_nil_r; apply rtc_refl|].
  apply rtc_once. left. apply (cut_datum [] fs bang_parser bang_parser bang_parser Cb_body (c :: s) (d :: t)); [constructor|done..].
Qed.

Lemma bang_streaming : streaming bang_execute.
Proof.
  split; intros hp a; unfold bang_execute.
  - destruct (index_of "!" a) as [n|] eqn:E; cbn; [|done]. intros _. by apply index_of_lt in E.
  - destruct (index_of "!" a) as [n|] eqn:E; cbn; [done|]. intros _. destruct a; [constructor|]. by repeat constructor.
  - intros b. rewrite index_of_either. destruct (index_of "!" a) as [n|] eqn:E; cbn; [|done]. intros _.
    rewrite take_app_le; [done|]. apply index_of_lt in E. lia.
  - intros b. rewrite index_of_either. destruct (index_of "!" a) as [n|] eqn:E; [done|]. intros _.
    destruct (index_of "!" b) as [k|] eqn:E2; cbn.
    + split; [done|]. split; [done|]. split; [intros _; lia|]. rewrite take_app_ge, Nat.add_sub_swap, Nat.sub_diag by lia.
      apply body_pieces.
    + do 3 (split; [done|]). pose proof (body_pieces a b []) as H. by rewrite !app_nil_r in H.
Qed.

Lemma receive_cuts_witness :
  let p := HttpParser bang_parser [] [] in
  ∃ p1 p2 m cs',
    receive bang_execute id id p [Some $"ab"; Some $"c!d"; Some $"e"; None]
      = Some ((p1, m), (Some <$> cs') ++ [None]) ∧
    receive bang_execute id id p [Some $"abc!de"; None] = Some ((p2, m), [None]) ∧
    hp_ p1 = hp_ p2 ∧ receive_buffer_ p1 ++ concat cs' = receive_buffer_ p2 ∧
    receive_buffer_ p2 = $"de".
Proof.
  intros p. apply (receive_cuts bang_execute id id bang_streaming [$"ab"; $"c!d"; $"e"] [None] p); try done.
  by repeat constructor.
Defined.

(** * Laws of sending *)

(** ** Status messages *)

Fixpoint status_lookup (l : list (Z * txt)) (c : Z) : option txt :=
  match l with
  | [] => None
  | (d, s) :: l' => if d =? c then Some s else status_lookup l' c
  end.

Definition status_at (i : nat) : Z := (nth i default_status_codes (0, [])).1.

Fixpoint ascending (l : list Z) : bool :=
  match l with
  | x :: ((y :: _) as l') => (x <? y) && ascending l'
  | _ => true
  end.

Lemma ascending_nth l i j :
  ascending l = true → (i < j < length l)%nat → nth i l 0 < nth j l 0.
Proof.
  revert i j. induction l as [|x l IH]; intros i j; [simpl; lia|].
  destruct l as [|y l]; [simpl; lia|]. intros [Hxy%Z.ltb_lt Ha]%andb_prop Hij.
  destruct i as [|i], j as [|j]; try lia.
  - destruct j as [|j]; [done|]. transitivity y; [done|].
    apply (IH O (S j) Ha). simpl in *. lia.
  - apply (IH i j Ha). simpl in *. lia.
Qed.

Lemma status_sorted i j : (i < j < length default_status_codes)%nat → status_at i < status_at j.
Proof.
  intros H. unfold status_at. rewrite <-!(map_nth fst). apply ascending_nth; [by vm_compute|].
  by rewrite length_map.
Qed.

#[local] Opaque default_status_codes.

(** Everything before the result is smaller, nothing from it on is. *)
Lemma lower_bound_spec fuel first len b :
  (len ≤ fuel)%nat → (first + len ≤ length default_status_codes)%nat →
  (∀ i, (i < first)%nat → status_at i < b) →
  (∀ i, (first + len ≤ i < length default_status_codes)%nat → b ≤ status_at i) →
  let r := lower_bound fuel first len b in
  (r ≤ length default_status_codes)%nat ∧
  (∀ i, (i < r)%nat → status_at i < b) ∧
  (∀ i, (r ≤ i < length default_status_codes)%nat → b ≤ status_at i).
Proof.
  revert first len. induction fuel as [|fuel IH]; intros first len Hf Hn Hlo Hhi; cbn [lower_bound].
  - split; [lia|]. split; [done|]. intros i Hi. apply Hhi. lia.
  - destruct (Nat.eqb_spec len 0) as [->|Hl].
    { split; [lia|]. split; [done|]. intros i Hi. apply Hhi. lia. }
    assert (Hh : (len / 2 < len)%nat) by (apply Nat.div_lt; lia).
    fold (status_at (first + len / 2)). case_if; apply IH; try lia.
    + intros i Hi. destruct (decide (i = first + len / 2)%nat) as [->|]; [done|].
      transitivity (status_at (first + len / 2)); [apply status_sorted; lia|done].
    + intros i Hi. apply Hhi. lia.
    + done.
    + intros i Hi. destruct (decide (i = first + len / 2)%nat) as [->|]; [done|].
      etransitivity; [exact Ec|]. apply Z.lt_le_incl, status_sorted. lia.
Qed.

Lemma status_lookup_Some l c i :
  (i < length l)%nat → (nth i l (0, [])).1 = c → (∀ j, (j < i)%nat → (nth j l (0, [])).1 < c) →
  status_lookup l c = Some (nth i l (0, [])).2.
Proof.
  revert i. induction l as [|[d s] l IH]; intros i; [simpl; lia|]. intros Hi Hc Hlt. cbn [status_lookup].
  destruct i as [|i].
  - cbn in Hc. subst d. by rewrite Z.eqb_refl.
  - pose proof (Hlt O ltac:(lia)) as H0. cbn in H0. rewrite (proj2 (Z.eqb_neq _ _)) by lia.
    apply IH; [simpl in Hi; lia|done|]. intros j Hj. apply (Hlt (S j)). lia.
Qed.

Lemma status_lookup_None l c :
  (∀ j, (j < length l)%nat → (nth j l (0, [])).1 ≠ c) → status_lookup l c = None.
Proof.
  induction l as [|[d s] l IH]; [done|]. intros H. cbn [status_lookup].
  rewrite (proj2 (Z.eqb_neq _ _)).
  - apply IH. intros j Hj. apply (H (S j)). simpl. lia.
  - apply (H O). simpl. lia.
Qed.

(** The binary search over the table of status codes finds what a search
    from the front finds: the message of a listed code, and the lexer's name
    for any other code. *)
Theorem default_status_message_spec (llhttp_status_name : Z → txt) (c : Z) :
  default_status_message llhttp_status_name c
  = default (llhttp_status_name c) (status_lookup default_status_codes c).
Proof.
  assert (H : let r := lower_bound (length default_status_codes) 0 (length default_status_codes) c in
              (r ≤ length default_status_codes)%nat ∧ (∀ i, (i < r)%nat → status_at i < c) ∧
              (∀ i, (r ≤ i < length default_status_codes)%nat → c ≤ status_at i))
    by (apply lower_bound_spec; lia).
  unfold default_status_message. cbv zeta in *.
  revert H. generalize (lower_bound (length default_status_codes) 0 (length default_status_codes) c).
  intros r (Hr & Hlo & Hhi). change (nth r default_status_codes (0, [])).1 with (status_at r).
  remember (length default_status_codes) as n eqn:Hn.
  destruct (Nat.eqb_spec r n) as [E|Hne]; cbn [negb andb].
  - rewrite status_lookup_None; [done|]. intros j Hj. fold (status_at j).
    specialize (Hlo j). rewrite <-Hn in Hj. lia.
  - destruct (Z.eqb_spec (status_at r) c) as [E|Hc].
    + rewrite (status_lookup_Some _ c r); [done|rewrite <-Hn; lia|exact E|exact Hlo].
    + rewrite status_lookup_None; [done|]. intros j Hj. fold (status_at j). rewrite <-Hn in Hj.
      destruct (decide (j < r)%nat) as [Hjr|Hjr]; [specialize (Hlo j Hjr); lia|].
      assert (Hgt : c < status_at r) by (specialize (Hhi r); lia).
      destruct (decide (j = r)) as [->|]; [lia|].
      assert (status_at r < status_at j) by (apply status_sorted; rewrite <-Hn; lia). lia.
Qed.

(** ** Chunks *)

(** The hexadecimal number at the start of a chunk, as the chunked transfer
    coding defines it: the value of the digits up to the first character that
    is not one. *)
Fixpoint hex_value_from (v : Z) (s : txt) : Z :=
  match s with
  | [] => v
  | c :: s' => if url_hex c then hex_value_from (v * 16 + xvalue c) s' else v
  end.
Definition chunk_size (frame : txt) : Z := hex_value_from 0 frame.

Lemma digit_hex c : is_digit c = true → url_hex c = true ∧ xvalue c = digit_val c ∧ 0 ≤ digit_val c < 10.
Proof. destruct c as [[] [] [] [] [] [] [] []]; vm_compute; intros H; repeat split; congruence. Qed.

Lemma hex_value_app v ds rest :
  Forall (λ c, is_digit c = true) ds →
  hex_value_from v (ds ++ rest) = hex_value_from (hex_value_from v ds) rest.
Proof.
  intros H. revert v. induction H as [|c ds Hc _ IH]; intros v; [done|].
  cbn [app hex_value_from]. destruct (digit_hex c Hc) as (-> & _). apply IH.
Qed.

Lemma hex_value_gt ds v w :
  Forall (λ c, is_digit c = true) ds → 0 ≤ v → v < w → dec_value_from v ds < hex_value_from w ds.
Proof.
  intros H. revert v w. induction H as [|c ds Hc _ IH]; intros v w Hv Hw; [done|].
  cbn [hex_value_from]. destruct (digit_hex c Hc) as (-> & -> & ?). apply IH; lia.
Qed.

(** Decimal digits read as hexadecimal ones: the same below ten, more from
    ten on. *)
Lemma hex_value_dec ds v :
  Forall (λ c, is_digit c = true) ds → 0 ≤ v < 10 →
  (dec_value_from v ds < 10 → hex_value_from v ds = dec_value_from v ds) ∧
  (10 ≤ dec_value_from v ds → dec_value_from v ds < hex_value_from v ds).
Proof.
  intros H. revert v. induction H as [|c ds Hc Hds IH]; intros v Hv; [simpl; split; [done|lia]|].
  change (dec_value_from v (c :: ds)) with (dec_value_from (v * 10 + digit_val c) ds).
  cbn [hex_value_from]. destruct (digit_hex c Hc) as (-> & -> & ?).
  destruct (decide (v = 0)) as [->|Hnz]; [apply IH; lia|].
  assert (Hge : ∀ ds u, Forall (λ c, is_digit c = true) ds → 10 ≤ u → 10 ≤ dec_value_from u ds).
  { clear. intros ds u H. revert u. induction H as [|c ds Hc _ IH]; intros u Hu; [done|].
    apply IH. destruct (digit_hex c Hc) as (_ & _ & ?). lia. }
  specialize (Hge ds (v * 10 + digit_val c) Hds). split; [lia|].
  intros _. apply hex_value_gt; [done|lia|lia].
Qed.

(** [send_response_chunk] writes the size of a chunk in decimal where the
    chunked coding wants hexadecimal: the size read back is the size of the
    text exactly for chunks under ten bytes, and larger for all others; and an
    empty chunk is byte for byte the end of the stream. *)
Theorem chunk_size_is_decimal (str rest : txt) :
  size str < two64 →
  (chunk_size (send_response_chunk str ++ rest) = size str ↔ size str < 10) ∧
  (10 ≤ size str → size str < chunk_size (send_response_chunk str ++ rest)) ∧
  send_response_chunk [] = send_response_end_chunk.
Proof.
  intros Hs. assert (Hu : is_u64 (size str)) by (pose proof (size_nonneg str); width_lia).
  destruct (dec_spec _ Hu) as (_ & Hd & Hv). unfold chunk_size, send_response_chunk.
  rewrite <-!(assoc_L (++)), hex_value_app by done.
  assert (E : ∀ v s, hex_value_from v (crlf ++ s) = v) by done. rewrite E.
  destruct (hex_value_dec (dec (size str)) 0 Hd) as [H1 H2]; [lia|].
  unfold dec_value in Hv. rewrite Hv in H1, H2.
  split; [split; [lia|done]|]. split; [done|by vm_compute].
Qed.

Lemma chunk_size_is_decimal_witness :
  chunk_size (send_response_chunk $"hello, world" ++ []) ≠ size $"hello, world".
Proof.
  destruct (chunk_size_is_decimal $"hello, world" []) as (H & _); [by vm_compute|].
  intros E. apply H in E. revert E. by vm_compute.
Defined.
