(* ===== verification/HttpAccess.v ===== *)
(** The accessors of HTTP messages and parsers, [src/cotamer/http.hh]: the
    iterators over headers and query parameters, the questions a caller asks of
    a message or a parser, the names of methods.

    An iterator is the two arrays it points into, as they are when it is made,
    and a position; a message that is changed while it is iterated is not
    modelled.  Reading or stepping outside of the array is [None].  The lexer is
    a parameter, as in [HttpParser]. *)

From S2P Require Import Prelude Text HttpText HttpMessage HttpParser.

(** * Iterators *)

Record header_iterator := HeaderIterator { base_ : txt; pairs_ : list http_kvoffsets; pair_ : nat }.

Definition iter_name (it : header_iterator) : option txt := kv_name (base_ it) <$> pairs_ it !! pair_ it.
Definition iter_name_eq (it : header_iterator) (s : txt) : option bool := (λ n, bool_decide (n = s)) <$> iter_name it.
Definition iter_name_eq_case (it : header_iterator) (s : txt) : option bool := (λ n, ieq n s) <$> iter_name it.
Definition iter_value (it : header_iterator) : option txt := kv_value (base_ it) <$> pairs_ it !! pair_ it.

Definition iter_deref (it : header_iterator) : option (txt * txt) :=
  n ← iter_name it; v ← iter_value it; Some (n, v).

Definition iter_compare (it x : header_iterator) : comparison := Nat.compare (pair_ it) (pair_ x).
Definition iter_eq (it x : header_iterator) : bool := (pair_ it =? pair_ x)%nat.

Definition at_pair (it : header_iterator) (i : nat) : header_iterator := HeaderIterator (base_ it) (pairs_ it) i.

(** [++it] and [it++]; a pointer may stand one past the end. *)
Definition iter_incr (it : header_iterator) : option header_iterator :=
  if (pair_ it <? length (pairs_ it))%nat then Some (at_pair it (S (pair_ it))) else None.
Definition iter_post_incr (it : header_iterator) : option (header_iterator * header_iterator) :=
  n ← iter_incr it; Some (it, n).

Definition iter_decr (it : header_iterator) : option header_iterator :=
  match pair_ it with O => None | S i => Some (at_pair it i) end.
Definition iter_post_decr (it : header_iterator) : option (header_iterator * header_iterator) :=
  n ← iter_decr it; Some (it, n).

Definition iter_diff (it x : header_iterator) : Z := Z.of_nat (pair_ it) - Z.of_nat (pair_ x).

(** The ranges of a message.  The parameters are decoded when they are asked
    for, in the cache of the message. *)
Definition headers_begin (m : http_message) : header_iterator := HeaderIterator (headers_ m) (hpairs_ m) O.
Definition headers_end (m : http_message) : header_iterator := HeaderIterator (headers_ m) (hpairs_ m) (length (hpairs_ m)).
Definition find_header_iter (m : http_message) (name : txt) : header_iterator := at_pair (headers_begin m) (find_header m name).

Definition search_param_begin (m : http_message) : option (header_iterator * http_message) :=
  i ← info m false true;
  Some (HeaderIterator (inf_qurl i.1) (inf_qpairs i.1) O, i.2).
Definition search_param_end (m : http_message) : option (header_iterator * http_message) :=
  i ← info m false true;
  Some (HeaderIterator (inf_qurl i.1) (inf_qpairs i.1) (length (inf_qpairs i.1)), i.2).

(** * Questions to a message *)

Definition ok (m : http_message) : bool := error_ m =? HPE_OK.
Definition fails (m : http_message) : bool := negb (ok m).
Definition has_valid_url (m : http_message) : option bool := has_url_field m 0.
Definition has_search (m : http_message) : option bool := has_url_field m 1.
Definition has_hash (m : http_message) : option bool := has_url_field m 2.

(** [body(j)] for a JSON value that [dump] renders as [text]. *)
Definition set_body_json (m : http_message) (text : txt) : http_message :=
  set_body (if negb (has_header m $"Content-Type") then add_header m $"Content-Type" $"application/json" else m) text.

(** * The parser object *)

Section Parser.
Context {L : Type}.
Context (llhttp_init : bool → llhttp L) (llhttp_reset : llhttp L → llhttp L).
Context (llhttp_execute : llhttp L → txt → execution L).

(** The constructors: a client receives responses. *)
Definition new_parser (client : bool) (host : txt) : http_parser L := HttpParser (llhttp_init client) [] host.
Definition new_parser_typed (response : bool) : http_parser L := HttpParser (llhttp_init response) [] [].

Definition clear (p : http_parser L) : http_parser L := HttpParser (llhttp_reset (hp_ p)) [] (host_ p).
Definition parser_ok (p : http_parser L) : bool := hp_error (hp_ p) =? HPE_OK.
Definition set_host (p : http_parser L) (host : txt) : http_parser L := HttpParser (hp_ p) (receive_buffer_ p) host.
Definition clear_host (p : http_parser L) : http_parser L := set_host p [].

Definition clear_should_keep_alive (p : http_parser L) : http_parser L :=
  let hp := hp_ p in
  HttpParser (Llhttp (http_major hp) (http_minor hp) (hp_status_code hp) (hp_method hp) (hp_error hp) (hp_upgrade hp)
    true false (hp_response hp) (lx hp)) (receive_buffer_ p) (host_ p).

(** [parse_method]: the lexer, set to stop when it has a method, must stop at
    the end of the name, or at the space after it. *)
Definition HPE_CB_METHOD_COMPLETE : Z := 32.
Definition parse_method (s : txt) : option Z :=
  let x := llhttp_execute (llhttp_init false) s in
  let '(err, hp, at_end) :=
    if ex_errno x =? HPE_OK then
      let y := llhttp_execute (ex_parser x) [" "%char] in (ex_errno y, ex_parser y, (ex_error_pos y =? 0)%nat)
    else (ex_errno x, ex_parser x, (ex_error_pos x =? length s)%nat) in
  if (err =? HPE_CB_METHOD_COMPLETE) && at_end then Some (hp_method hp) else None.

(** The constructor and the setter that take the method by its name. *)
Definition new_request_named (method url : txt) : option http_message :=
  c ← parse_method method; Some (new_request c url).
Definition set_method_named (m : http_message) (method : txt) : option http_message :=
  c ← parse_method method; Some (set_method m c).
End Parser.

(** * Properties *)

(** The loop [for (; it != end; ++it)], with what it reads. *)
Fixpoint range_for (fuel : nat) (it stop : header_iterator) : option (list (txt * txt)) :=
  match fuel with
  | O => None
  | S f => if iter_eq it stop then Some [] else kv ← iter_deref it; n ← iter_incr it; rest ← range_for f n stop; Some (kv :: rest)
  end.

(** The loop from the end, [while (it != begin) { --it; ... }]. *)
Fixpoint range_back (fuel : nat) (it start : header_iterator) : option (list (txt * txt)) :=
  match fuel with
  | O => None
  | S f => if iter_eq it start then Some [] else n ← iter_decr it; kv ← iter_deref n; rest ← range_back f n start; Some (kv :: rest)
  end.

Section Ranges.
Context (base : txt) (l : list http_kvoffsets).
Local Notation it i := (HeaderIterator base l i).

Lemma deref_at i kv : pairs_over base l !! i = Some kv → iter_deref (it i) = Some kv.
Proof.
  unfold pairs_over, iter_deref, iter_name, iter_value. cbn. rewrite list_lookup_fmap.
  destruct (l !! i) as [p|]; [|done]. cbn. by intros [= <-].
Qed.

Lemma range_for_from n : ∀ i, (i + n)%nat = length l → ∀ f, (n < f)%nat → range_for f (it i) (it (length l)) = Some (drop i (pairs_over base l)).
Proof.
  induction n as [|n IH]; intros i Hi [|f] Hf; [lia| |lia|]; cbn [range_for]; unfold iter_eq; cbn [pair_].
  - rewrite (proj2 (Nat.eqb_eq _ _)) by lia. rewrite drop_ge; [done|]. unfold pairs_over. rewrite length_fmap. lia.
  - rewrite (proj2 (Nat.eqb_neq _ _)) by lia.
    destruct (lookup_lt_is_Some_2 (pairs_over base l) i) as [kv Hkv]; [unfold pairs_over; rewrite length_fmap; lia|].
    rewrite (deref_at i kv Hkv). unfold iter_incr. cbn [pair_ pairs_ mbind option_bind].
    rewrite (proj2 (Nat.ltb_lt _ _)) by lia. cbn [mbind option_bind]. unfold at_pair. cbn [base_ pairs_].
    rewrite (IH (S i)) by lia. cbn. by rewrite (drop_S _ _ _ Hkv).
Qed.

Lemma range_back_from i : (i ≤ length l)%nat → ∀ f, (i < f)%nat → range_back f (it i) (it 0) = Some (reverse (take i (pairs_over base l))).
Proof.
  induction i as [|i IH]; intros Hi [|f] Hf; [lia|done|lia|]. cbn [range_back]. unfold iter_eq, iter_decr. cbn [pair_ Nat.eqb mbind option_bind].
  destruct (lookup_lt_is_Some_2 (pairs_over base l) i) as [kv Hkv]; [unfold pairs_over; rewrite length_fmap; lia|].
  unfold at_pair. cbn [base_ pairs_]. rewrite (deref_at i kv Hkv). cbn [mbind option_bind]. rewrite IH by lia. cbn.
  by rewrite (take_S_r _ _ _ Hkv), reverse_app.
Qed.
End Ranges.

(** The headers, read by a loop over the iterators. *)
Lemma headers_iterated m f : (length (hpairs_ m) < f)%nat →
  range_for f (headers_begin m) (headers_end m) = Some (header_pairs m) ∧
  iter_diff (headers_end m) (headers_begin m) = Z.of_nat (length (header_pairs m)).
Proof.
  intros Hf. split; [unfold headers_begin, headers_end; by rewrite (range_for_from _ _ (length (hpairs_ m)) 0) by lia|].
  unfold iter_diff, header_pairs. cbn. rewrite length_fmap. lia.
Qed.

(** The iterator of [find_header] reads the first header of that name, and is
    the end when there is none. *)
Lemma find_header_reads m name :
  match filter (same_name name) (header_pairs m) with
  | kv :: _ => iter_deref (find_header_iter m name) = Some kv ∧ has_header m name = true
  | [] => find_header_iter m name = headers_end m ∧ has_header m name = false
  end.
Proof.
  unfold find_header_iter, has_header, find_header, header_end, headers_end, headers_begin, at_pair. cbn [base_ pairs_].
  unfold iter_deref, iter_name, iter_value, header_pairs. cbn [base_ pairs_ pair_].
  induction (hpairs_ m) as [|p l IH]; [done|]. cbn [fmap list_fmap find_header_from]. rewrite filter_cons.
  destruct (ieq (kv_name (headers_ m) p) name) eqn:E; cbn [negb].
  - apply ieq_spec in E. rewrite decide_True by done. done.
  - rewrite decide_False by (intros H; apply ieq_spec in H; cbn in H; congruence). change (S ?a =? length (_ :: ?l))%nat with (a =? length l)%nat.
    destruct (filter _ _) as [|kv r]; destruct IH as [IH1 IH2]; split; try done. injection IH1 as IH1. cbn. by rewrite IH1.
Qed.

(** What [info] has decoded, it returns again. *)
Lemma info_params_again m i m1 : info m false true = Some (i, m1) → info m1 false true = Some (i, m1).
Proof.
  intros E. assert (Hi : inf_params i = true ∧ info_ m1 = Some i).
  { unfold info in E. cbn [negb orb andb] in E. apply bind_Some in E as (j & Ej & E). injection E as -> <-. split; [|done].
    destruct (match info_ m with Some i => inf_params i | None => false end) eqn:Ec; [by rewrite Ej in Ec|].
    unfold make_info in Ej. cbv zeta in Ej.
    destruct (match info_ m with Some i => i | None => new_info end) as [u p f q l]. cbn [inf_url inf_params inf_f inf_qurl inf_qpairs orb] in Ej.
    destruct (negb u && true); cbn [inf_params inf_f inf_url inf_qurl inf_qpairs] in Ej; destruct p; cbn [negb andb] in Ej;
      first [by injection Ej as <-
            |destruct (nth 1 _ _) as [b e]; destruct (negb (b =? e)%nat); [apply bind_Some in Ej as (r & _ & Ej)|]; by injection Ej as <-]. }
  destruct Hi as [Hp Hm]. unfold info. rewrite Hm. cbn [negb orb andb]. rewrite Hp. cbn [mbind option_bind].
  destruct m1. cbn in *. by rewrite Hm.
Qed.

(** C38 A loop over the query parameters reads what a browser encoded.  For any
    names and values, percent-encoded and joined between a path and a hash,
    stepping from [search_param_begin] to [search_param_end] reads them all, in
    order and with the repetitions, and stepping back from the end reads them in
    reverse; the two iterators, asked for one after the other, point into one
    decoded text, and no step leaves it. *)
Theorem params_iterated (m : http_message) (p h : txt) (kvs : list (txt * txt)) :
  coherent m → url_ m = p ++ "?"%char :: encode_query kvs ++ h → is_path p = true → is_hash h = true → kvs ≠ [] →
  ∃ b m1 e m2, search_param_begin m = Some (b, m1) ∧ search_param_end m1 = Some (e, m2) ∧ m2 = m1 ∧
    base_ e = base_ b ∧ pairs_ e = pairs_ b ∧
    iter_diff e b = Z.of_nat (length kvs) ∧
    range_for (S (length kvs)) b e = Some kvs ∧ range_back (S (length kvs)) e b = Some (reverse kvs).
Proof.
  intros Hc Hu Hp Hh Hk. destruct (info_params_spec m Hc) as (i & m1 & E & Hd & Hc1 & Hu1).
  destruct (decode_encoded p kvs h Hp Hk Hh) as (qurl & l & Hd' & Hl). rewrite <-Hu, Hd in Hd'. injection Hd' as <- <-.
  assert (Hlen : length (inf_qpairs i) = length kvs) by (rewrite <-Hl; unfold pairs_over; by rewrite length_fmap).
  pose proof (info_params_again m i m1 E) as E1.
  unfold search_param_begin, search_param_end. rewrite E. eexists _, _. rewrite E1. eexists _, _. cbn [mbind option_bind fst snd].
  do 5 (split; [done|]). split; [unfold iter_diff; cbn; lia|]. split.
  - rewrite (range_for_from _ _ (length (inf_qpairs i)) 0) by lia. by rewrite Hl.
  - rewrite range_back_from by lia. by rewrite Hl, Hlen, take_ge.
Qed.

Lemma params_iterated_witness :
  ∃ b m1 e m2, search_param_begin (new_request 1 ($"/find?" ++ encode_query [($"k", $"1&2"); ($"k", $"3 4")])) = Some (b, m1) ∧
    search_param_end m1 = Some (e, m2) ∧ range_for 3 b e = Some [($"k", $"1&2"); ($"k", $"3 4")].
Proof.
  edestruct (params_iterated (new_request 1 ($"/find?" ++ encode_query [($"k", $"1&2"); ($"k", $"3 4")] ++ [])) $"/find" []
    [($"k", $"1&2"); ($"k", $"3 4")]) as (b & m1 & e & m2 & H1 & H2 & _ & _ & _ & _ & H3 & _); [exact I|by vm_compute..|].
  exists b, m1, e, m2. split; [exact H1|]. split; [exact H2|exact H3].
Defined.

(** A lexer that knows two methods: the text read so far, and a method when a
    space follows its name. *)
Definition toy_init (response : bool) : llhttp txt := Llhttp 0 0 0 0 0 0 false false response [].
Fixpoint toy_run (hp : llhttp txt) (i : nat) (s : txt) : execution txt :=
  match s with
  | [] => Execution [] hp 0 0
  | c :: s' =>
      let on m := Llhttp 0 0 0 m 0 0 false false (hp_response hp) (lx hp) in
      if ceqb c " "%char then
        if bool_decide (lx hp = $"GET") then Execution [] (on 1) 32 i
        else if bool_decide (lx hp = $"POST") then Execution [] (on 3) 32 i
        else Execution [] hp 6 i
      else toy_run (Llhttp 0 0 0 0 0 0 false false (hp_response hp) (lx hp ++ [c])) (S i) s'
  end.

Example parse_methods :
  parse_method toy_init (λ hp, toy_run hp 0) <$> [$"GET"; $"POST"; $"GET "; $"PUT"; $""; $"GET /"] =
  [Some 1; Some 3; None; None; None; None].
Proof. vm_compute. reflexivity. Qed.
