(* ===== verification/SocketIo.v ===== *)
(** Socket transfers of the coroutine library, [src/cotamer/io.hh] and
    [src/cotamer/io.cc]: reading and writing over system calls that transfer
    part of the data, would block, or fail.

    The kernel is outside the program.  Its answers are a list: how much the
    next call would transfer, that the call would block (or was interrupted),
    or an error.  A call never transfers more than it was offered, so the
    answer is cut to that.  A suspended task resumes with the next answer; an
    operation that runs out of answers is still waiting. *)

From S2P Require Import Prelude.

Inductive answer :=
  | Transfer (n : nat)
  | Would_block          (* EAGAIN, EWOULDBLOCK, EINTR *)
  | Fails (e : Z).

(** What an operation has come to: the bytes on the wire, and the result. *)
Inductive outcome :=
  | Waiting (wire : txt)
  | Returned (wire : txt) (n : nat)
  | Unexpected (wire : txt) (e : Z).

(** * Buffers *)

(** [update_iovec]: skip the buffers that [r] bytes cover and advance into the
    next one.  [r] is at most the bytes in [iov]. *)
Fixpoint update_iovec (iov : list txt) (r : nat) : list txt :=
  match iov with
  | [] => []
  | v :: iov' => if (length v <=? r)%nat then update_iovec iov' (r - length v) else drop r v :: iov'
  end.

Fixpoint msghdr_done (iov : list txt) (r : nat) : bool :=
  match iov with
  | [] => true
  | v :: iov' => if (length v <=? r)%nat then msghdr_done iov' (r - length v) else false
  end.

(** The bytes of the buffers, and the kernel's cut of [n] to them. *)
Definition gathered (iov : list txt) : txt := concat iov.
Definition accepted (n : nat) (s : txt) : nat := Nat.min n (length s).

(** * Writing *)

Fixpoint write_once (s wire : txt) (answers : list answer) : outcome :=
  match answers with
  | [] => Waiting wire
  | Transfer n :: _ => let r := accepted n s in Returned (wire ++ take r s) r
  | Would_block :: answers' => write_once s wire answers'
  | Fails e :: _ => Unexpected wire e
  end.

(** [write]: [s] is what is left of the buffer, [nw] the bytes written. *)
Fixpoint write_loop (s wire : txt) (nw : nat) (answers : list answer) : outcome :=
  match answers with
  | [] => Waiting wire
  | a :: answers' =>
      let again s wire nw :=
        if bool_decide (s = []) then Returned wire nw else write_loop s wire nw answers' in
      match a with
      | Transfer n =>
          let r := accepted n s in
          if (r =? 0)%nat then Returned wire nw
          else again (drop r s) (wire ++ take r s) (nw + r)%nat
      | Would_block => again s wire nw
      | Fails e => if (nw =? 0)%nat then Unexpected wire e else Returned wire nw
      end
  end.
Definition write (s wire : txt) (answers : list answer) : outcome := write_loop s wire 0 answers.

Fixpoint writev_loop (iov : list txt) (wire : txt) (nw : nat) (answers : list answer) : outcome :=
  match answers with
  | [] => Waiting wire
  | a :: answers' =>
      let again iov wire nw :=
        if bool_decide (iov = []) then Returned wire nw else writev_loop iov wire nw answers' in
      match a with
      | Transfer n =>
          let r := accepted n (gathered iov) in
          if (r =? 0)%nat then Returned wire nw
          else again (update_iovec iov r) (wire ++ take r (gathered iov)) (nw + r)%nat
      | Would_block => again iov wire nw
      | Fails e => if (nw =? 0)%nat then Unexpected wire e else Returned wire nw
      end
  end.
Definition writev (iov : list txt) (wire : txt) (answers : list answer) : outcome :=
  writev_loop iov wire 0 answers.

(** [sendmsg]; [waitall] is the flag [MSG_WAITALL]. *)
Fixpoint sendmsg_loop (waitall : bool) (iov : list txt) (wire : txt) (nw : nat) (answers : list answer) : outcome :=
  match answers with
  | [] => Waiting wire
  | a :: answers' =>
      let again iov wire nw :=
        if bool_decide (iov = []) then Returned wire nw else sendmsg_loop waitall iov wire nw answers' in
      match a with
      | Transfer n =>
          let r := accepted n (gathered iov) in
          let wire' := wire ++ take r (gathered iov) in
          if (r =? 0)%nat || negb waitall || msghdr_done iov r then Returned wire' (nw + r)%nat
          else again (update_iovec iov r) wire' (nw + r)%nat
      | Would_block => again iov wire nw
      | Fails e => if (nw =? 0)%nat then Unexpected wire e else Returned wire nw
      end
  end.
Definition sendmsg (waitall : bool) (iov : list txt) (wire : txt) (answers : list answer) : outcome :=
  sendmsg_loop waitall iov wire 0 answers.

Definition sendv (iov : list txt) (waitall : bool) : txt → list answer → outcome := sendmsg waitall iov.
Definition send (buf : txt) (waitall : bool) : txt → list answer → outcome := sendmsg waitall [buf].
Definition send_all (buf : txt) : txt → list answer → outcome := send buf true.
Definition sendv_all (iov : list txt) : txt → list answer → outcome := sendv iov true.

(** * Reading

    The bytes that arrive are the stream [input]; end of file is a transfer of
    nothing.  The buffers to fill are their capacities. *)
Inductive incoming :=
  | In_waiting (got : txt) (input : txt)
  | In_returned (got : txt) (input : txt)
  | In_unexpected (input : txt) (e : Z).

Definition arrived (n room : nat) (input : txt) : nat := Nat.min (Nat.min n room) (length input).

Fixpoint read_once (count : nat) (input : txt) (answers : list answer) : incoming :=
  match answers with
  | [] => In_waiting [] input
  | Transfer n :: _ => let r := arrived n count input in In_returned (take r input) (drop r input)
  | Would_block :: answers' => read_once count input answers'
  | Fails e :: _ => In_unexpected input e
  end.

(** [read]: [got] is what the buffer holds, [room] what it still takes. *)
Fixpoint read_loop (room : nat) (got input : txt) (answers : list answer) : incoming :=
  match answers with
  | [] => In_waiting got input
  | a :: answers' =>
      let again room got input :=
        if (room =? 0)%nat then In_returned got input else read_loop room got input answers' in
      match a with
      | Transfer n =>
          let r := arrived n room input in
          if (r =? 0)%nat then In_returned got input
          else again (room - r)%nat (got ++ take r input) (drop r input)
      | Would_block => again room got input
      | Fails e => if bool_decide (got = []) then In_unexpected input e else In_returned got input
      end
  end.
Definition read (count : nat) (input : txt) (answers : list answer) : incoming :=
  read_loop count [] input answers.

(** The same two routines over the capacities of the buffers to fill. *)
Fixpoint update_room (iov : list nat) (r : nat) : list nat :=
  match iov with
  | [] => []
  | c :: iov' => if (c <=? r)%nat then update_room iov' (r - c) else (c - r)%nat :: iov'
  end.

Fixpoint room_done (iov : list nat) (r : nat) : bool :=
  match iov with
  | [] => true
  | c :: iov' => if (c <=? r)%nat then room_done iov' (r - c) else false
  end.

Fixpoint recvmsg_loop (waitall : bool) (iov : list nat) (got input : txt) (answers : list answer) : incoming :=
  match answers with
  | [] => In_waiting got input
  | a :: answers' =>
      let again iov got input :=
        if bool_decide (iov = []) then In_returned got input else recvmsg_loop waitall iov got input answers' in
      match a with
      | Transfer n =>
          let r := arrived n (sum_list iov) input in
          let got' := got ++ take r input in
          if (r =? 0)%nat || negb waitall || room_done iov r then In_returned got' (drop r input)
          else again (update_room iov r) got' (drop r input)
      | Would_block => again iov got input
      | Fails e => if bool_decide (got = []) then In_unexpected input e else In_returned got input
      end
  end.
Definition recvmsg (waitall : bool) (iov : list nat) (input : txt) (answers : list answer) : incoming :=
  recvmsg_loop waitall iov [] input answers.
Definition recv (count : nat) (waitall : bool) : txt → list answer → incoming := recvmsg waitall [count].

(** * Laws of the buffers *)

Lemma update_iovec_gathered iov r :
  (r ≤ length (gathered iov))%nat → gathered (update_iovec iov r) = drop r (gathered iov).
Proof.
  unfold gathered. revert r. induction iov as [|v iov IH]; intros r Hr; cbn [update_iovec concat] in *.
  - by rewrite drop_nil.
  - rewrite length_app in Hr. destruct (Nat.leb_spec (length v) r).
    + rewrite IH by lia. by rewrite drop_app_ge.
    + cbn [concat]. by rewrite drop_app_le by lia.
Qed.

(** After an update no byte is left exactly when no buffer is. *)
Lemma update_iovec_nil iov r :
  (r ≤ length (gathered iov))%nat → update_iovec iov r = [] ↔ drop r (gathered iov) = [].
Proof.
  unfold gathered. revert r. induction iov as [|v iov IH]; intros r Hr; cbn [update_iovec concat] in *.
  - by rewrite drop_nil.
  - rewrite length_app in Hr. destruct (Nat.leb_spec (length v) r).
    + rewrite IH by lia. by rewrite drop_app_ge.
    + split; [done|]. rewrite drop_app_le by lia. intros [E _]%app_eq_nil.
      apply (f_equal length) in E. rewrite length_drop in E. simpl in E. lia.
Qed.

Lemma msghdr_done_update iov r : msghdr_done iov r = bool_decide (update_iovec iov r = []).
Proof.
  revert r. induction iov as [|v iov IH]; intros r; cbn [msghdr_done update_iovec]; [done|].
  case_if; [apply IH|done].
Qed.

Lemma accepted_le n s : (accepted n s ≤ length s)%nat.
Proof. unfold accepted. lia. Qed.
#[export] Hint Resolve accepted_le : draft.

(** * Properties *)

(** Sending a message with [MSG_WAITALL] does, answer by answer, what
    [writev] does: the same bytes reach the wire and the same result is
    returned, whether the kernel takes them at once, in parts, blocks or
    fails. *)
Theorem sendv_all_is_writev iov wire answers :
  sendv_all iov wire answers = writev iov wire answers.
Proof.
  unfold sendv_all, sendv, sendmsg, writev. generalize 0%nat as nw. revert iov wire.
  induction answers as [|a answers IH]; intros iov wire nw; [done|].
  cbn [sendmsg_loop writev_loop negb orb]. destruct a as [n| |e]; [| |done].
  - destruct (Nat.eqb_spec (accepted n (gathered iov)) 0) as [E|E]; cbn [orb].
    + by rewrite E, take_0, app_nil_r, Nat.add_0_r.
    + rewrite msghdr_done_update. case_bool_decide as Hd; [done|]. apply IH.
  - case_bool_decide; [done|]. apply IH.
Qed.

(** The wire always carries a prefix of what was to be written, as long as the
    count says. *)
Lemma writev_loop_prefix iov wire nw answers :
  match writev_loop iov wire nw answers with
  | Waiting w => ∃ k, w = wire ++ take k (gathered iov)
  | Returned w n => ∃ k, w = wire ++ take k (gathered iov) ∧ n = (nw + k)%nat ∧ (k ≤ length (gathered iov))%nat
  | Unexpected w _ => w = wire ∧ nw = O
  end.
Proof.
  revert iov wire nw. induction answers as [|a answers IH]; intros iov wire nw; cbn [writev_loop].
  { exists O. by rewrite take_0, app_nil_r. }
  assert (Hz : ∃ k, wire = wire ++ take k (gathered iov) ∧ nw = (nw + k)%nat ∧ (k ≤ length (gathered iov))%nat).
  { exists O. rewrite take_0, app_nil_r. split; [done|]. lia. }
  destruct a as [n| |e].
  - destruct (Nat.eqb_spec (accepted n (gathered iov)) 0) as [E|E]; [done|].
    set (r := accepted n (gathered iov)) in *.
    assert (Hr : (r ≤ length (gathered iov))%nat) by apply accepted_le.
    assert (Hk : ∀ k, (wire ++ take r (gathered iov)) ++ take k (gathered (update_iovec iov r))
                      = wire ++ take (r + k) (gathered iov)).
    { intros k. rewrite update_iovec_gathered, <-(assoc_L (++)), take_take_drop by done. done. }
    case_bool_decide; [by exists r|].
    specialize (IH (update_iovec iov r) (wire ++ take r (gathered iov)) (nw + r)%nat).
    destruct (writev_loop _ _ _ _).
    + destruct IH as (k & ->). exists (r + k)%nat. apply Hk.
    + destruct IH as (k & -> & -> & Hle). exists (r + k)%nat. rewrite Hk.
      rewrite update_iovec_gathered, length_drop in Hle by done. split; [done|]. lia.
    + lia.
  - case_bool_decide; [done|]. apply IH.
  - destruct (Nat.eqb_spec nw 0); [done|]. done.
Qed.

(** Answers of a kernel that takes bytes or blocks, and how many take bytes. *)
Definition takes (a : answer) : bool := match a with Transfer (S _) => true | _ => false end.
Definition no_failure (a : answer) : bool :=
  match a with Transfer (S _) | Would_block => true | _ => false end.
Fixpoint progress (answers : list answer) : nat :=
  match answers with
  | [] => O
  | a :: answers' => if takes a then S (progress answers') else progress answers'
  end.

Lemma writev_loop_all iov wire nw answers :
  Forall (λ a, no_failure a = true) answers → (0 < length (gathered iov) ≤ progress answers)%nat →
  writev_loop iov wire nw answers = Returned (wire ++ gathered iov) (nw + length (gathered iov)).
Proof.
  intros H. revert iov wire nw. induction H as [|a answers Ha _ IH]; intros iov wire nw Hl; [simpl in Hl; lia|].
  cbn [writev_loop]. destruct a as [[|n]| |]; try done; cbn [progress takes] in Hl.
  - set (r := accepted (S n) (gathered iov)).
    assert (Hr : (0 < r ≤ length (gathered iov))%nat) by (unfold r, accepted; lia).
    destruct (Nat.eqb_spec r 0); [lia|]. case_bool_decide as Hd.
    + apply update_iovec_nil in Hd; [|lia]. apply (f_equal length) in Hd. rewrite length_drop in Hd. simpl in Hd.
      rewrite take_ge by lia. f_equal. lia.
    + assert (Hu : gathered (update_iovec iov r) = drop r (gathered iov)) by (apply update_iovec_gathered; lia).
      rewrite update_iovec_nil in Hd by lia.
      assert (length (drop r (gathered iov)) ≠ 0%nat) by (intros E; by apply nil_length_inv in E).
      rewrite length_drop in *. rewrite IH; rewrite Hu; rewrite ?length_drop; [|lia].
      rewrite <-(assoc_L (++)), take_drop. f_equal. lia.
  - case_bool_decide as Hn; [subst; simpl in Hl; lia|]. by apply IH.
Qed.

(** [writev] (and so [sendv_all]) puts on the wire a prefix of the bytes it
    was given, in order and each once, and returns its length; an error is
    returned only before any byte went out.  If the kernel makes progress and
    does not fail, it returns, with every byte on the wire. *)
Theorem writev_delivers (iov : list txt) (wire : txt) (answers : list answer) :
  match writev iov wire answers with
  | Waiting w => ∃ k, w = wire ++ take k (gathered iov)
  | Returned w n => w = wire ++ take n (gathered iov) ∧ (n ≤ length (gathered iov))%nat
  | Unexpected w _ => w = wire
  end ∧
  (Forall (λ a, no_failure a = true) answers → (0 < length (gathered iov) ≤ progress answers)%nat →
   writev iov wire answers = Returned (wire ++ gathered iov) (length (gathered iov))).
Proof.
  split.
  - unfold writev. pose proof (writev_loop_prefix iov wire 0 answers) as H.
    destruct (writev_loop iov wire 0 answers); [done| |apply H].
    destruct H as (k & -> & -> & Hk). done.
  - intros Ha Hl. by apply writev_loop_all.
Qed.

Lemma writev_delivers_witness :
  writev [$"GET /"; []; $"ab"] [] [Transfer 3; Would_block; Transfer 9; Transfer 1; Transfer 1; Transfer 1; Transfer 1; Transfer 1]
  = Returned $"GET /ab" 7.
Proof.
  apply (writev_delivers [$"GET /"; []; $"ab"] []
    [Transfer 3; Would_block; Transfer 9; Transfer 1; Transfer 1; Transfer 1; Transfer 1; Transfer 1]).
  - by repeat constructor.
  - split; [by apply Nat.ltb_lt|by apply Nat.leb_le].
Defined.

(** ** Reading *)

Lemma sum_room_update iov r : (r ≤ sum_list iov)%nat → sum_list (update_room iov r) = (sum_list iov - r)%nat.
Proof.
  revert r. induction iov as [|c iov IH]; intros r Hr; cbn in *; [done|].
  destruct (Nat.leb_spec c r); [rewrite IH; lia|cbn; lia].
Qed.

Lemma room_done_update iov r : room_done iov r = bool_decide (update_room iov r = []).
Proof.
  revert r. induction iov as [|c iov IH]; intros r; cbn [room_done update_room]; [done|].
  case_if; [apply IH|done].
Qed.

Lemma room_done_sum iov r : (r ≤ sum_list iov)%nat → room_done iov r = (sum_list iov =? r)%nat.
Proof.
  revert r. induction iov as [|c iov IH]; intros r Hr; cbn in *; [by destruct r; [|lia]|].
  destruct (Nat.leb_spec c r).
  - rewrite IH by lia. destruct (Nat.eqb_spec (sum_list iov) (r - c)), (Nat.eqb_spec (c + sum_list iov) r); lia.
  - symmetry. apply Nat.eqb_neq. lia.
Qed.

(** Receiving into several buffers loses and reorders nothing: what was
    received followed by what is still to come is the stream, it never
    overfills the buffers, and an error is returned only when nothing was
    received. *)
Theorem recvmsg_conserves (waitall : bool) (iov : list nat) (input : txt) (answers : list answer) :
  match recvmsg waitall iov input answers with
  | In_waiting got rest | In_returned got rest => got ++ rest = input ∧ (length got ≤ sum_list iov)%nat
  | In_unexpected rest _ => rest = input
  end.
Proof.
  unfold recvmsg.
  assert (H : ∀ got iov input, match recvmsg_loop waitall iov got input answers with
    | In_waiting got' rest | In_returned got' rest =>
        got' ++ rest = got ++ input ∧ (length got' ≤ length got + sum_list iov)%nat
    | In_unexpected rest _ => got ++ input = rest
    end).
  { induction answers as [|a answers' IH]; intros got iov' inp; cbn [recvmsg_loop]; [split; [done|lia]|].
    destruct a as [n| |e].
    - set (r := arrived n (sum_list iov') inp).
      assert (Hr : (r ≤ sum_list iov')%nat ∧ (r ≤ length inp)%nat) by (unfold r, arrived; lia).
      assert (Hg : (got ++ take r inp) ++ drop r inp = got ++ inp) by (by rewrite <-(assoc_L (++)), take_drop).
      assert (Hl : length (got ++ take r inp) = (length got + r)%nat).
      { rewrite length_app, length_take. lia. }
      case_if; [split; [done|lia]|]. case_bool_decide; [split; [done|lia]|].
      specialize (IH (got ++ take r inp) (update_room iov' r) (drop r inp)).
      rewrite Hg, Hl, sum_room_update in IH by lia.
      destruct (recvmsg_loop _ _ _ _ _); [| |done]; (split; [apply IH|lia]).
    - case_bool_decide; [split; [done|lia]|]. apply IH.
    - case_bool_decide as E; [by rewrite E|]. split; [done|lia]. }
  specialize (H [] iov input). by destruct (recvmsg_loop _ _ _ _ _).
Qed.

(** [read] is [recvmsg] with [MSG_WAITALL] into one buffer. *)
Lemma read_loop_recvmsg room got input answers :
  (0 < room)%nat → read_loop room got input answers = recvmsg_loop true [room] got input answers.
Proof.
  revert room got input. induction answers as [|a answers IH]; intros room got input Hr; [done|].
  cbn [read_loop recvmsg_loop negb]. destruct a as [n| |e]; [| |done].
  - replace (sum_list [room]) with room by (simpl; lia). set (r := arrived n room input).
    assert (Hle : (r ≤ room)%nat) by (unfold r, arrived; lia).
    destruct (Nat.eqb_spec r 0) as [E|E]; cbn [orb]; [by rewrite E, take_0, app_nil_r, drop_0|].
    cbn [room_done update_room]. destruct (Nat.leb_spec room r).
    + destruct (Nat.eqb_spec (room - r) 0); [done|lia].
    + destruct (Nat.eqb_spec (room - r) 0); [lia|]. rewrite bool_decide_eq_false_2 by done. apply IH. lia.
  - destruct (Nat.eqb_spec room 0); [lia|]. rewrite bool_decide_eq_false_2 by done. by apply IH.
Qed.
