(* ===== verification/Sockets.v ===== *)
(** Making sockets: listening, connecting and accepting, of
    [src/cotamer/io.cc] and [io.hh].

    The operating system is outside of the program.  What it answers to the
    calls for one address is an [attempt], and what the resolver answers is a
    parameter; a connection that is never completed leaves the operation
    waiting.  The state is the descriptors that are open and the options that
    were set on them.  Addresses are tried in order, so the routines are loops
    over the list of the resolver. *)

From S2P Require Import Prelude Text SocketIo.

(** * State *)

Inductive sockopt := SO_REUSEADDR | IPV6_V6ONLY | TCP_NODELAY.

Record net := Net { os_open : gset Z; opts : list (Z * sockopt) }.

Definition add_socket (s : Z) (w : net) : net := Net ({[s]} ∪ os_open w) (opts w).
Definition close_socket (s : Z) (w : net) : net := Net (os_open w ∖ {[s]}) (opts w).
Definition setsockopt (s : Z) (o : sockopt) (w : net) : net := Net (os_open w) (opts w ++ [(s, o)]).

(** Errors of the two categories. *)
Inductive error := System_error (errno : Z) | Getaddrinfo_error (status : Z).

(** A descriptor, an exception, the rethrow of a null [exception_ptr], or not
    finished. *)
Inductive outcome := Got (s : Z) | Throws (e : error) | Null_rethrow | Waiting.

Definition EAI_NONAME : Z := -2.
Definition EADDRNOTAVAIL : Z := 99.

(** * Names *)

Record hints := Hints { ai_stream : bool; ai_passive : bool }.

(** Offset of the last [c]: [rfind]. *)
Fixpoint rindex_of (c : ascii) (s : txt) : option nat :=
  match s with
  | [] => None
  | d :: s' => match rindex_of c s' with
               | Some n => Some (S n)
               | None => if ceqb c d then Some O else None
               end
  end.

Section Resolver.
Context {addr : Type} (getaddrinfo : option txt → txt → hints → Z * list addr).

(** [getaddrinfo_thread]: the status and the list; an empty host is a null one. *)
Definition getaddrinfo_thread (address : txt) (h : hints) : Z * list addr :=
  match rindex_of ":"%char address with
  | None => (EAI_NONAME, [])
  | Some colon =>
      let host := take colon address in
      getaddrinfo (if bool_decide (host = []) then None else Some host) (drop (colon + 1) address) h
  end.
End Resolver.

(** * One address *)

(** Connecting: at once, an error, or in progress until the socket is writable,
    when [getsockopt] gives the error ([inr]) or fails itself. *)
Inductive connect_answer := C_ok | C_errno (e : Z) | C_progress (so_error : Z + Z) | C_never.

(** The answers for one address; [a_socket] is an error or the descriptor,
    [a_nonblocking] the error that [set_nonblocking] throws, if it does. *)
Record attempt := Attempt {
  a_inet6 : bool;
  a_socket : Z + Z;
  a_nonblocking : option Z;
  a_bind : option Z;
  a_listen : option Z;
  a_connect : connect_answer
}.

(** [connect]: finished with an error or none, or waiting. *)
Definition connect (a : connect_answer) : option (option Z) :=
  match a with
  | C_ok => Some None
  | C_errno e => Some (Some e)
  | C_progress (inl errno) => Some (Some errno)
  | C_progress (inr err) => Some (if err =? 0 then None else Some err)
  | C_never => None
  end.

(** * Listening *)

Definition bind_listen (tcp : bool) (a : attempt) : option Z :=
  match a_bind a with
  | Some e => Some e
  | None => if tcp then a_listen a else None
  end.

(** The loop of [tcp_listen] and of [udp_listen]. *)
Fixpoint listen_loop (tcp : bool) (ais : list attempt) (last_errno : Z) (w : net) : outcome * net :=
  match ais with
  | [] => (Throws (System_error last_errno), w)
  | ai :: ais =>
      match a_socket ai with
      | inl e => listen_loop tcp ais e w
      | inr fileno =>
          let w := add_socket fileno w in
          match a_nonblocking ai with
          | Some e => (Throws (System_error e), w)
          | None =>
              let w := setsockopt fileno SO_REUSEADDR w in
              let w := if a_inet6 ai then setsockopt fileno IPV6_V6ONLY w else w in
              match bind_listen tcp ai with
              | None => (Got fileno, w)
              | Some e => listen_loop tcp ais e (close_socket fileno w)
              end
          end
      end
  end.

(** * Connecting *)

(** The loop of [tcp_connect] and [udp_connect]: [last_err] is null at first;
    leaving an iteration closes the [fd] of its socket. *)
Fixpoint connect_loop (tcp : bool) (ais : list attempt) (last_err : option Z) (w : net) : outcome * net :=
  match ais with
  | [] => (match last_err with None => Null_rethrow | Some e => Throws (System_error e) end, w)
  | ai :: ais =>
      match a_socket ai with
      | inl e => connect_loop tcp ais (Some e) w
      | inr fileno =>
          let w := add_socket fileno w in
          match a_nonblocking ai with
          | Some e => (Throws (System_error e), w)
          | None =>
              let w := if tcp then setsockopt fileno TCP_NODELAY w else w in
              match connect (a_connect ai) with
              | None => (Waiting, w)
              | Some None => (Got fileno, w)
              | Some (Some e) => connect_loop tcp ais (Some e) (close_socket fileno w)
              end
          end
      end
  end.

Section Operations.
Context (getaddrinfo : option txt → txt → hints → Z * list attempt).

Definition resolved (address : txt) (h : hints) (k : list attempt → net → outcome * net) (w : net) : outcome * net :=
  let '(st, ais) := getaddrinfo_thread getaddrinfo address h in
  if negb (st =? 0) then (Throws (Getaddrinfo_error st), w) else k ais w.

Definition tcp_listen (address : txt) : net → outcome * net :=
  resolved address (Hints true true) (λ ais, listen_loop true ais EADDRNOTAVAIL).
Definition tcp_connect (address : txt) : net → outcome * net :=
  resolved address (Hints true false) (λ ais, connect_loop true ais None).
Definition udp_listen (address : txt) : net → outcome * net :=
  resolved address (Hints false true) (λ ais, listen_loop false ais EADDRNOTAVAIL).
Definition udp_connect (address : txt) : net → outcome * net :=
  resolved address (Hints false false) (λ ais, connect_loop false ais None).
End Operations.

(** * Accepting *)

(** An accepted descriptor, with what [set_nonblocking] threw; try again; an
    error. *)
Inductive accept_answer := A_socket (s : Z) (nonblocking : option Z) | A_again | A_errno (e : Z).

Fixpoint accept (answers : list accept_answer) (w : net) : outcome * net :=
  match answers with
  | [] => (Waiting, w)
  | A_socket s None :: _ => (Got s, add_socket s w)
  | A_socket s (Some e) :: _ => (Throws (System_error e), add_socket s w)
  | A_again :: answers => accept answers w
  | A_errno e :: _ => (Throws (System_error e), w)
  end.

Definition tcp_accept (answers : list accept_answer) (w : net) : outcome * net :=
  match accept answers w with
  | (Got s, w) => (Got s, setsockopt s TCP_NODELAY w)
  | r => r
  end.

(** * Datagrams with addresses

    [recvfrom] gives the length of the sender's address, [namelen] for the
    kernel, if the caller asked for it. *)
Definition recvfrom (count : nat) (addrlen : option Z) (namelen : Z) (waitall : bool) (input : txt) (answers : list answer) :
    incoming * option Z :=
  let r := recvmsg waitall [count] input answers in
  (r, (λ _, namelen) <$> addrlen).

(** The address is the same on every call. *)
Definition sendto (buf : txt) (waitall : bool) (wire : txt) (answers : list answer) : SocketIo.outcome :=
  sendmsg waitall [buf] wire answers.

(** * Laws of the names *)

Lemma rindex_of_app c s t : c ∉ t → rindex_of c (s ++ c :: t) = Some (length s).
Proof.
  intros Ht. assert (Hn : rindex_of c t = None).
  { induction t as [|d t IH]; [done|]. cbn. apply not_elem_of_cons in Ht as [Hne Ht]. rewrite IH by done.
    by destruct (ceqb c d) eqn:E; [apply ceqb_eq in E|]. }
  induction s as [|d s IH]; cbn; [by rewrite Hn, ceqb_refl|]. by rewrite IH.
Qed.

(** [ADDR:PORT] is cut at the last colon, so an address may have some. *)
Lemma address_split {addr} (gai : option txt → txt → hints → Z * list addr) host port h : ":"%char ∉ port →
  getaddrinfo_thread gai (host ++ $":" ++ port) h = gai (if bool_decide (host = []) then None else Some host) port h.
Proof.
  intros Hp. unfold getaddrinfo_thread. change ($":" ++ port) with (":"%char :: port). rewrite rindex_of_app by done.
  rewrite take_app_length. f_equal. rewrite drop_app_ge by lia. by replace (length host + 1 - length host)%nat with 1%nat by lia.
Qed.

(** * Trying the addresses *)

(** [set_nonblocking] does not fail, and the system gives descriptors that are
    not open. *)
Definition plain (w : net) (ai : attempt) : Prop :=
  a_nonblocking ai = None ∧ match a_socket ai with inr s => s ∉ os_open w | inl _ => True end.

(** What one address comes to: [inl] an error, [inr] the socket. *)
Definition listen_try (tcp : bool) (ai : attempt) : Z + Z :=
  match a_socket ai with
  | inl e => inl e
  | inr s => match bind_listen tcp ai with Some e => inl e | None => inr s end
  end.

Definition connect_try (ai : attempt) : option (Z + Z) :=
  match a_socket ai with
  | inl e => Some (inl e)
  | inr s => match connect (a_connect ai) with None => None | Some (Some e) => Some (inl e) | Some None => Some (inr s) end
  end.

(** The open sockets of the states a loop goes through. *)
Lemma plain_closed w ai w' : plain w ai → os_open w' = os_open w → plain w' ai.
Proof. unfold plain. intros [H1 H2] ->. done. Qed.

Lemma add_close s w o : s ∉ os_open w → os_open (close_socket s (Net (os_open (add_socket s w)) o)) = os_open w.
Proof. intros Hs. cbn. set_solver. Qed.

(** Listening: of the addresses, in the resolver's order, the first that can
    be bound (and, for TCP, listened on) is taken, and no other descriptor stays
    open.  When none can, the exception has the error of the last one, or
    [EADDRNOTAVAIL] when there is none, and nothing stays open. *)
Theorem listen_first_address (tcp : bool) (ais : list attempt) (e0 : Z) (w : net) :
  Forall (plain w) ais →
  (∀ pre ai post s, ais = pre ++ ai :: post → Forall (λ a, ∃ e, listen_try tcp a = inl e) pre → listen_try tcp ai = inr s →
     ∃ w', listen_loop tcp ais e0 w = (Got s, w') ∧ os_open w' = {[s]} ∪ os_open w ∧
       (s, SO_REUSEADDR) ∈ opts w' ∧ (a_inet6 ai = true → (s, IPV6_V6ONLY) ∈ opts w')) ∧
  (∀ errs, listen_try tcp <$> ais = inl <$> errs →
     ∃ w', listen_loop tcp ais e0 w = (Throws (System_error (default e0 (last errs))), w') ∧ os_open w' = os_open w).
Proof.
  revert e0 w. induction ais as [|ai ais IH]; intros e0 w Hp.
  { split; [intros [|? ?] ai post s E; discriminate E|]. intros [|e errs] E; [|discriminate E]. by exists w. }
  apply Forall_cons in Hp as [Ha Hp].
  assert (Hstep : ∀ e, listen_try tcp ai = inl e → ∃ w1, listen_loop tcp (ai :: ais) e0 w = listen_loop tcp ais e w1 ∧ os_open w1 = os_open w).
  { intros e. unfold listen_try. cbn [listen_loop]. destruct Ha as [-> Hs]. destruct (a_socket ai) as [e'|s]; [intros [= ->]; by exists w|].
    destruct (bind_listen tcp ai) as [e'|]; [|done]. intros [= ->]. eexists. split; [done|]. destruct (a_inet6 ai); cbn; set_solver. }
  assert (Hp1 : ∀ w1, os_open w1 = os_open w → Forall (plain w1) ais).
  { intros w1 E. eapply Forall_impl; [exact Hp|]. intros a Hpa. by eapply plain_closed. }
  split.
  - intros [|ai' pre] ai0 post s [= <- E] Hpre Hok.
    + clear Hstep. unfold listen_try in Hok. cbn [listen_loop]. destruct Ha as [-> Hs]. destruct (a_socket ai) as [e'|s']; [done|].
      destruct (bind_listen tcp ai) as [e'|]; [done|]. injection Hok as ->. eexists. split; [done|].
      destruct (a_inet6 ai); cbn; (split; [done|split; [set_solver|set_solver]]).
    + apply Forall_cons in Hpre as [[e He] Hpre]. destruct (Hstep e He) as (w1 & -> & E1).
      destruct (IH e w1 (Hp1 w1 E1)) as [IH1 _]. destruct (IH1 pre ai0 post s E Hpre Hok) as (w' & Ew & Eo & R).
      exists w'. split; [done|]. split; [congruence|done].
  - intros [|e errs] E; [discriminate E|]. injection E as He E. destruct (Hstep e He) as (w1 & -> & E1).
    destruct (IH e w1 (Hp1 w1 E1)) as [_ IH2]. destruct (IH2 errs E) as (w' & Ew & Eo). exists w'. split; [|congruence].
    rewrite Ew. do 3 f_equal. by destruct errs as [|e1 errs] using rev_ind; [|rewrite app_comm_cons, !last_snoc].
Qed.

(** C33 Connecting: the first address that can be connected is taken, and the
    sockets of the others are closed; when none can, the exception is that of
    the last one and nothing stays open.  A list without addresses has no
    exception to throw.  The attempts are [plain]: making a fresh socket
    nonblocking does not fail (when it does, [connect_leaks]). *)
Theorem connect_first_address (tcp : bool) (ais : list attempt) (e0 : option Z) (w : net) :
  Forall (plain w) ais →
  (∀ pre ai post s, ais = pre ++ ai :: post → Forall (λ a, ∃ e, connect_try a = Some (inl e)) pre → connect_try ai = Some (inr s) →
     ∃ w', connect_loop tcp ais e0 w = (Got s, w') ∧ os_open w' = {[s]} ∪ os_open w ∧ (tcp = true → (s, TCP_NODELAY) ∈ opts w')) ∧
  (∀ errs, connect_try <$> ais = (λ e, Some (inl e)) <$> errs →
     ∃ w', connect_loop tcp ais e0 w =
         (match last errs with Some e => Throws (System_error e) | None => match e0 with Some e => Throws (System_error e) | None => Null_rethrow end end, w') ∧
       os_open w' = os_open w).
Proof.
  revert e0 w. induction ais as [|ai ais IH]; intros e0 w Hp.
  { split; [intros [|? ?] ai post s E; discriminate E|]. intros [|e errs] E; [|discriminate E]. by exists w. }
  apply Forall_cons in Hp as [Ha Hp].
  assert (Hstep : ∀ e, connect_try ai = Some (inl e) →
    ∃ w1, connect_loop tcp (ai :: ais) e0 w = connect_loop tcp ais (Some e) w1 ∧ os_open w1 = os_open w).
  { intros e. unfold connect_try. cbn [connect_loop]. destruct Ha as [-> Hs]. destruct (a_socket ai) as [e'|s]; [intros [= ->]; by exists w|].
    destruct (connect (a_connect ai)) as [[e'|]|]; [|done|done]. intros [= ->]. eexists. split; [done|]. destruct tcp; cbn; set_solver. }
  assert (Hp1 : ∀ w1, os_open w1 = os_open w → Forall (plain w1) ais).
  { intros w1 E. eapply Forall_impl; [exact Hp|]. intros a Hpa. by eapply plain_closed. }
  split.
  - intros [|ai' pre] ai0 post s [= <- E] Hpre Hok.
    + clear Hstep. unfold connect_try in Hok. cbn [connect_loop]. destruct Ha as [-> Hs]. destruct (a_socket ai) as [e'|s']; [done|].
      destruct (connect (a_connect ai)) as [[e'|]|]; [done| |done]. injection Hok as ->. eexists. split; [done|].
      destruct tcp; cbn; (split; [done|set_solver]).
    + apply Forall_cons in Hpre as [[e He] Hpre]. destruct (Hstep e He) as (w1 & -> & E1).
      destruct (IH (Some e) w1 (Hp1 w1 E1)) as [IH1 _]. destruct (IH1 pre ai0 post s E Hpre Hok) as (w' & Ew & Eo & R).
      exists w'. split; [done|]. split; [congruence|done].
  - intros [|e errs] E; [discriminate E|]. injection E as He E. destruct (Hstep e He) as (w1 & -> & E1).
    destruct (IH (Some e) w1 (Hp1 w1 E1)) as [_ IH2]. destruct (IH2 errs E) as (w' & Ew & Eo). exists w'. split; [|congruence].
    rewrite Ew. by destruct errs as [|e1 errs] using rev_ind; [|rewrite app_comm_cons, !last_snoc].
Qed.

(** Accepting: retries end with the first other answer. *)
Lemma accept_retries n a answers w : a ≠ A_again →
  accept (replicate n A_again ++ a :: answers) w = accept [a] w.
Proof. intros Ha. induction n as [|n IH]; cbn; [by destruct a as [s []| |]|done]. Qed.

(** ** What is left open

    When [set_nonblocking] throws, no [fd] owns the descriptor yet. *)
Lemma listen_leaks tcp ai ais e0 w s e : a_socket ai = inr s → a_nonblocking ai = Some e →
  listen_loop tcp (ai :: ais) e0 w = (Throws (System_error e), add_socket s w).
Proof. intros Es En. cbn. by rewrite Es, En. Qed.

Lemma connect_leaks tcp ai ais e0 w s e : a_socket ai = inr s → a_nonblocking ai = Some e →
  connect_loop tcp (ai :: ais) e0 w = (Throws (System_error e), add_socket s w).
Proof. intros Es En. cbn. by rewrite Es, En. Qed.

(** ** A run: an IPv6 address in use, then an IPv4 address *)

Definition sample_attempts : list attempt :=
  [Attempt true (inr 5) None (Some 98) None (C_progress (inr 111)); Attempt false (inr 5) None None None (C_progress (inr 0))].
Definition sample_resolver (host : option txt) (port : txt) (h : hints) : Z * list attempt :=
  if teqb port $"80" then (0, sample_attempts) else (-8, []).
Definition sample_net : net := Net {[0; 1]} [].

Example sample_listen :
  (tcp_listen sample_resolver $"::1:80" sample_net).1 = Got 5 ∧
  opts (tcp_listen sample_resolver $"::1:80" sample_net).2 = [(5, SO_REUSEADDR); (5, IPV6_V6ONLY); (5, SO_REUSEADDR)] ∧
  (tcp_listen sample_resolver $"::1" sample_net).1 = Throws (Getaddrinfo_error (-8)) ∧
  (udp_connect (λ _ _ _, (0, [])) $"a:1" sample_net).1 = Null_rethrow.
Proof. vm_compute. done. Qed.

Lemma sample_plain : Forall (plain sample_net) sample_attempts.
Proof. repeat constructor; cbn; set_solver. Qed.

Lemma listen_first_address_witness :
  Forall (plain sample_net) sample_attempts ∧
  ∃ w', listen_loop true sample_attempts EADDRNOTAVAIL sample_net = (Got 5, w') ∧ os_open w' = {[5]} ∪ os_open sample_net.
Proof.
  split; [exact sample_plain|].
  destruct (proj1 (listen_first_address true sample_attempts EADDRNOTAVAIL sample_net sample_plain)
    [Attempt true (inr 5) None (Some 98) None (C_progress (inr 111))] (Attempt false (inr 5) None None None (C_progress (inr 0))) [] 5)
    as (w' & E & Eo & _).
  - reflexivity.
  - constructor; [exists 98; reflexivity|constructor].
  - reflexivity.
  - exists w'. split; assumption.
Defined.

Lemma connect_first_address_witness :
  Forall (plain sample_net) sample_attempts ∧
  ∃ w', connect_loop true sample_attempts None sample_net = (Got 5, w') ∧ os_open w' = {[5]} ∪ os_open sample_net.
Proof.
  split; [exact sample_plain|].
  destruct (proj1 (connect_first_address true sample_attempts None sample_net sample_plain)
    [Attempt true (inr 5) None (Some 98) None (C_progress (inr 111))] (Attempt false (inr 5) None None None (C_progress (inr 0))) [] 5)
    as (w' & E & Eo & _).
  - reflexivity.
  - constructor; [exists 111; reflexivity|constructor].
  - reflexivity.
  - exists w'. split; assumption.
Defined.
