(* ===== verification/SmallVector.v ===== *)
(** The vector with inline storage of the coroutine runtime,
    [src/cotamer/small_vector.hh], which holds listeners, members and waiters.

    Memory is modelled slot by slot: a slot is raw, holds an object, or holds an
    object that was moved from and still has to be destroyed.  An access that
    C++ leaves undefined, an object constructed over another one and a block
    released with objects in it have no result.  Iterators are positions. *)

From S2P Require Import Prelude.
#[local] Open Scope Z_scope.

Inductive slot (A : Type) := Raw | Object (x : option A).
Arguments Raw {A}.
Arguments Object {A}.

(** The union: the buffer inside of the vector or a block of the heap. *)
Inductive storage (A : Type) := Inbuf (slots : list (slot A)) | Out (block : list (slot A)).
Arguments Inbuf {A}.
Arguments Out {A}.

Record small_vector (A : Type) := SmallVector { sz_ : Z; cap_ : Z; u_ : storage A }.
Arguments SmallVector {A}.
Arguments sz_ {A}.
Arguments cap_ {A}.
Arguments u_ {A}.

Section SmallVector.
Context {A : Type} (N : nat).
Implicit Types (v : small_vector A) (m : list (slot A)).

Notation raw n := (replicate n (@Raw A)).
Definition new_vector : small_vector A := SmallVector 0 (Z.of_nat N) (Inbuf (raw N)).

(** ** Memory *)

(** [begin()]: the slots it points to. *)
Definition begin v : option (list (slot A)) :=
  match u_ v with
  | Inbuf m => if cap_ v <=? Z.of_nat N then Some m else None
  | Out m => if cap_ v <=? Z.of_nat N then None else Some m
  end.
Definition with_slots v m : small_vector A :=
  SmallVector (sz_ v) (cap_ v) (match u_ v with Inbuf _ => Inbuf m | Out _ => Out m end).
Definition with_size v (n : Z) : small_vector A := SmallVector n (cap_ v) (u_ v).

Definition construct_at m (i : nat) (x : option A) : option (list (slot A)) :=
  match m !! i with Some Raw => Some (<[i := Object x]> m) | _ => None end.
Definition destroy_at m (i : nat) : option (list (slot A)) :=
  match m !! i with Some (Object _) => Some (<[i := Raw]> m) | _ => None end.
(** [std::destroy_n] from position [i]. *)
Fixpoint destroy_n m (i n : nat) : option (list (slot A)) :=
  match n with
  | O => Some m
  | S n => m ← destroy_at m i; destroy_n m (S i) n
  end.

(** Move the object at [i]: its value, and the object left behind. *)
Definition move_from m (i : nat) : option (option A * list (slot A)) :=
  match m !! i with Some (Object x) => Some (x, <[i := Object None]> m) | _ => None end.
Definition assign_at m (i : nat) (x : option A) : option (list (slot A)) :=
  match m !! i with Some (Object _) => Some (<[i := Object x]> m) | _ => None end.

(** [std::uninitialized_move_n] of the objects from [i] on to new memory. *)
Fixpoint uninitialized_move_n (from to : list (slot A)) (i n : nat) : option (list (slot A) * list (slot A)) :=
  match n with
  | O => Some (from, to)
  | S n =>
      '(x, from) ← move_from from i;
      to ← construct_at to i x;
      uninitialized_move_n from to (S i) n
  end.

(** [std::move] of the [n] objects at [last] down to [first]. *)
Fixpoint move_down m (first last n : nat) : option (list (slot A)) :=
  match n with
  | O => Some m
  | S n =>
      '(x, m) ← move_from m last;
      m ← assign_at m first x;
      move_down m (S first) (S last) n
  end.

(** A block of the heap is given back: it holds no objects. *)
Definition is_raw (c : slot A) : bool := match c with Raw => true | Object _ => false end.
Definition deallocate m : option unit := if forallb is_raw m then Some tt else None.

(** ** Operations *)

Definition clear v : option (small_vector A) :=
  m ← begin v; m ← destroy_n m 0 (Z.to_nat (sz_ v)); Some (with_size (with_slots v m) 0).

Definition clear_capacity v : option (small_vector A) :=
  m ← begin v;
  m ← destroy_n m 0 (Z.to_nat (sz_ v));
  if Z.of_nat N <? cap_ v then _ ← deallocate m; Some (SmallVector 0 0 (Inbuf (raw N)))
  else Some (SmallVector 0 0 (Inbuf m)).

(** The code declares [eit] and [delsz] with one [auto], for which no type can be
    deduced when the template is instantiated; nothing calls it.  Modelled is
    what it means. *)
Definition erase v (first last : nat) : option (small_vector A) :=
  if (first =? last)%nat then Some v
  else
    m ← begin v;
    let eit := Z.to_nat (sz_ v) in
    m ← move_down m first last (eit - last);
    let n := sz_ v - Z.of_nat (last - first) in
    m ← destroy_n m (Z.to_nat n) (eit - Z.to_nat n);
    Some (with_size (with_slots v m) n).

Definition truncate v (first : nat) : option (small_vector A) :=
  m ← begin v;
  m ← destroy_n m first (Z.to_nat (sz_ v) - first);
  Some (with_size (with_slots v m) (Z.of_nat first)).

(** Room for one more; the new object goes to position [sz_]. *)
Definition push_space v : option (small_vector A) :=
  let v := if cap_ v =? 0 then SmallVector (sz_ v) (Z.of_nat N) (u_ v) else v in
  if sz_ v <? cap_ v then Some v
  else
    m ← begin v;
    '(m, newptr) ← uninitialized_move_n m (raw (Z.to_nat (u32 (cap_ v * 2)))) 0 (Z.to_nat (sz_ v));
    m ← destroy_n m 0 (Z.to_nat (sz_ v));
    _ ← (if Z.of_nat N <? cap_ v then deallocate m else Some tt);
    Some (SmallVector (sz_ v) (u32 (cap_ v * 2)) (Out newptr)).

Definition push_back v (x : A) : option (small_vector A) :=
  v ← push_space v;
  m ← begin v;
  m ← construct_at m (Z.to_nat (sz_ v)) (Some x);
  Some (with_size (with_slots v m) (sz_ v + 1)).

Definition pop_back v : option (small_vector A) :=
  m ← begin v; m ← destroy_at m (Z.to_nat (sz_ v - 1)); Some (with_size (with_slots v m) (sz_ v - 1)).

(** [operator[]], read and assigned. *)
Definition at_index v (i : nat) : option (option A) :=
  m ← begin v; match m !! i with Some (Object x) => Some x | _ => None end.
Definition set_index v (i : nat) (x : A) : option (small_vector A) :=
  m ← begin v; m ← assign_at m i (Some x); Some (with_slots v m).
Definition back v : option (option A) := at_index v (Z.to_nat (sz_ v - 1)).

(** The move constructor: the new vector, and what it leaves. *)
Definition move_vector v : option (small_vector A * small_vector A) :=
  if Z.of_nat N <? cap_ v then
    m ← begin v; Some (SmallVector (sz_ v) (cap_ v) (Out m), SmallVector 0 0 (Inbuf (raw N)))
  else
    m ← begin v;
    '(m, new) ← uninitialized_move_n m (raw N) 0 (Z.to_nat (sz_ v));
    Some (SmallVector (sz_ v) (cap_ v) (Inbuf new), with_slots v m).

(** * The vector as a list *)

(** The first slots hold the objects of [l], the rest is raw; the block has the
    capacity of the vector. *)
Definition holds m (l : list (option A)) : Prop := m = (Object <$> l) ++ raw (length m - length l) ∧ (length l ≤ length m)%nat.

Definition repr v (l : list (option A)) : Prop :=
  sz_ v = size l ∧
  match u_ v with
  | Inbuf m => holds m l ∧ length m = N ∧ (cap_ v = Z.of_nat N ∨ cap_ v = 0 ∧ l = [])
  | Out m => holds m l ∧ cap_ v = size m ∧ (N < length m)%nat
  end.

Lemma holds_app (l : list (option A)) n : holds ((Object <$> l) ++ raw n) l.
Proof. unfold holds. rewrite length_app, length_fmap, length_replicate. split; [f_equal; f_equal; lia|lia]. Qed.

Lemma holds_cases m l : holds m l → ∃ n, m = (Object <$> l) ++ raw n ∧ length m = (length l + n)%nat.
Proof. intros [Hm Hl]. exists (length m - length l)%nat. split; [done|lia]. Qed.

Lemma repr_begin v l : repr v l → ∃ m, begin v = Some m ∧ holds m l ∧ length l = Z.to_nat (sz_ v) ∧
  (∀ m', length m' = length m → ∀ l', holds m' l' → cap_ v ≠ 0 ∨ l' = [] → repr (with_size (with_slots v m') (size l')) l').
Proof.
  intros [Hs Hu]. unfold begin, repr, with_size, with_slots. destruct (u_ v) as [m|m] eqn:Eu; cbn.
  - destruct Hu as (Hh & Hl & Hc). exists m. rewrite (proj2 (Z.leb_le _ _)) by lia. split; [done|]. split; [done|].
    split; [unfold size in Hs; lia|]. intros m' Hm' l' Hl' Hcap. split; [done|]. split; [done|]. split; [lia|].
    destruct Hc as [Hc|[Hc _]]; [by left|]. destruct Hcap as [Hcap| ->]; [done|]. by right.
  - destruct Hu as (Hh & Hc & Hl). exists m. rewrite (proj2 (Z.leb_gt _ _)) by (unfold size in Hc; lia). split; [done|].
    split; [done|]. split; [unfold size in Hs; lia|]. intros m' Hm' l' Hl' Hcap. split; [done|]. split; [done|].
    split; [unfold size in *; lia|lia].
Qed.

(** ** Memory *)

Lemma lookup_object (l : list (option A)) n i x :
  l !! i = Some x → ((Object <$> l) ++ raw n) !! i = Some (Object x).
Proof. intros H. rewrite lookup_app_l by (rewrite length_fmap; by eapply lookup_lt_Some). by rewrite list_lookup_fmap, H. Qed.

Lemma destroy_n_objects (k : nat) (l l' : list (option A)) n :
  length l' = k →
  destroy_n ((Object <$> l) ++ (Object <$> l') ++ raw n) (length l) k = Some ((Object <$> l) ++ raw (k + n)).
Proof.
  intros Hk. 
  assert (H : ∀ j (l' : list (option A)), length l' = k → 
    destroy_n ((Object <$> l) ++ raw j ++ (Object <$> l') ++ raw n) (length l + j) k
    = Some ((Object <$> l) ++ raw (j + k + n))).
  { clear l' Hk. induction k as [|k IH]; intros j l' Hk.
    - destruct l'; [|done]. cbn [destroy_n fmap list_fmap app]. rewrite <-replicate_add. do 3 f_equal. lia.
    - destruct l' as [|x l']; [done|]. injection Hk as Hk. cbn [destroy_n]. unfold destroy_at.
      assert (E : ((Object <$> l) ++ raw j ++ (Object <$> x :: l') ++ raw n) !! (length l + j)%nat = Some (Object x)).
      { rewrite lookup_app_r by (rewrite length_fmap; lia). rewrite length_fmap.
        rewrite lookup_app_r by (rewrite length_replicate; lia). rewrite length_replicate.
        by replace (length l + j - length l - j)%nat with O by lia. }
      rewrite E. cbn [mbind option_bind].
      assert (E2 : <[(length l + j)%nat := Raw]> ((Object <$> l) ++ raw j ++ (Object <$> x :: l') ++ raw n)
        = (Object <$> l) ++ raw (S j) ++ (Object <$> l') ++ raw n).
      { rewrite insert_app_r_alt by (rewrite length_fmap; lia). rewrite length_fmap. f_equal.
        rewrite insert_app_r_alt by (rewrite length_replicate; lia). rewrite length_replicate.
        replace (length l + j - length l - j)%nat with O by lia. cbn [fmap list_fmap app list_insert insert].
        change (Raw :: (Object <$> l') ++ replicate n Raw) with (replicate 1 (@Raw A) ++ (Object <$> l') ++ replicate n Raw).
        rewrite (assoc_L (++)), <-replicate_add. by rewrite Nat.add_1_r. }
      rewrite E2. replace (S (length l + j))%nat with (length l + S j)%nat by lia. rewrite (IH (S j) l' Hk). do 3 f_equal. lia. }
  specialize (H O l' Hk). rewrite Nat.add_0_r in H. exact H.
Qed.

Lemma destroy_all (l : list (option A)) n :
  destroy_n ((Object <$> l) ++ raw n) 0 (length l) = Some (raw (length l + n)).
Proof. exact (destroy_n_objects (length l) [] l n eq_refl). Qed.

Lemma move_from_object (l : list (option A)) n i x :
  l !! i = Some x → move_from ((Object <$> l) ++ raw n) i = Some (x, (Object <$> <[i := None]> l) ++ raw n).
Proof.
  intros H. unfold move_from. rewrite (lookup_object _ _ _ _ H). 
  rewrite insert_app_l by (rewrite length_fmap; by eapply lookup_lt_Some). by rewrite list_fmap_insert.
Qed.

(** Moving all objects leaves as many that were moved from. *)
Lemma move_all (l : list (option A)) n k :
  (length l ≤ k)%nat →
  uninitialized_move_n ((Object <$> l) ++ raw n) (raw k) 0 (length l)
  = Some ((Object <$> replicate (length l) None) ++ raw n, (Object <$> l) ++ raw (k - length l)).
Proof.
  intros Hk.
  assert (H : ∀ r done, l = done ++ r →
    uninitialized_move_n ((Object <$> replicate (length done) None ++ r) ++ raw n) ((Object <$> done) ++ raw (k - length done))
      (length done) (length r)
    = Some ((Object <$> replicate (length l) None) ++ raw n, (Object <$> l) ++ raw (k - length l))).
  { induction r as [|x r IH]; intros d Hd; cbn [uninitialized_move_n length].
    - rewrite app_nil_r in Hd. subst d. by rewrite app_nil_r.
    - assert (Hl : length l = (length d + S (length r))%nat) by (rewrite Hd, length_app; done).
      rewrite (move_from_object _ _ _ x).
      2: { rewrite lookup_app_r by (rewrite length_replicate; lia). by rewrite length_replicate, Nat.sub_diag. }
      cbn [mbind option_bind]. unfold construct_at.
      assert (E : ((Object <$> d) ++ raw (k - length d)) !! length d = Some Raw).
      { rewrite lookup_app_r by (rewrite length_fmap; lia). rewrite length_fmap, Nat.sub_diag. unfold raw.
        apply lookup_replicate_2. lia. }
      rewrite E. cbn [mbind option_bind].
      assert (E1 : <[length d := None]> (replicate (length d) None ++ x :: r) = replicate (length (d ++ [x])) None ++ r).
      { rewrite insert_app_r_alt by (rewrite length_replicate; lia). rewrite length_replicate, Nat.sub_diag.
        cbn [list_insert insert]. rewrite length_app, replicate_add. cbn. by rewrite <-(assoc_L (++)). }
      assert (E2 : <[length d := Object x]> ((Object <$> d) ++ raw (k - length d)) = (Object <$> d ++ [x]) ++ raw (k - length (d ++ [x]))).
      { rewrite insert_app_r_alt by (rewrite length_fmap; lia). rewrite length_fmap, Nat.sub_diag.
        rewrite fmap_app, length_app, <-(assoc_L (++)). f_equal. cbn [length fmap list_fmap app].
        destruct (k - length d)%nat as [|j] eqn:Ej; [lia|]. cbn. f_equal. f_equal. lia. }
      rewrite E1, E2. replace (S (length d)) with (length (d ++ [x])) by (rewrite length_app; cbn; lia).
      apply IH. by rewrite <-(assoc_L (++)). }
  specialize (H l [] eq_refl). cbn [length replicate app] in H. rewrite Nat.sub_0_r in H. exact H.
Qed.

Lemma deallocate_raw n : deallocate (raw n) = Some tt.
Proof.
  unfold deallocate. assert (H : forallb is_raw (raw n) = true) by (induction n; [done|by cbn]). by rewrite H.
Qed.

(** Shifting the tail over the erased objects leaves as many to destroy. *)
Lemma move_down_shifts (c a hole : list (option A)) n :
  hole ≠ [] →
  ∃ hole', length hole' = length hole ∧
    move_down ((Object <$> a ++ hole ++ c) ++ raw n) (length a) (length a + length hole) (length c)
    = Some ((Object <$> a ++ c ++ hole') ++ raw n).
Proof.
  revert a hole. induction c as [|x c IH]; intros a hole Hh.
  { exists hole. split; [done|]. cbn. by rewrite app_nil_r. }
  destruct hole as [|h hs]; [done|]. cbn [length move_down].
  rewrite (move_from_object _ _ _ x).
  2: { rewrite lookup_app_r by lia. rewrite lookup_app_r by (cbn; lia).
       by replace (length a + S (length hs) - length a - length (h :: hs))%nat with O by (cbn; lia). }
  cbn [mbind option_bind].
  assert (E1 : <[(length a + S (length hs))%nat := None]> (a ++ (h :: hs) ++ x :: c) = a ++ (h :: hs) ++ None :: c).
  { rewrite insert_app_r_alt by lia. rewrite insert_app_r_alt by (cbn; lia).
    by replace (length a + S (length hs) - length a - length (h :: hs))%nat with O by (cbn; lia). }
  rewrite E1. unfold assign_at. rewrite (lookup_object _ _ _ h).
  2: { rewrite lookup_app_r by lia. by rewrite Nat.sub_diag. }
  cbn [mbind option_bind].
  rewrite insert_app_l by (rewrite length_fmap, !length_app; cbn; lia). rewrite <-list_fmap_insert.
  assert (E2 : <[length a := x]> (a ++ (h :: hs) ++ None :: c) = (a ++ [x]) ++ (hs ++ [None]) ++ c).
  { rewrite insert_app_r_alt by lia. rewrite Nat.sub_diag. cbn. by rewrite <-!(assoc_L (++)). }
  rewrite E2. destruct (IH (a ++ [x]) (hs ++ [None])) as (hole' & H1 & H2); [by destruct hs|].
  exists hole'. rewrite length_app in H1. cbn in H1. split; [cbn; lia|].
  rewrite !length_app in H2. cbn [length] in H2.
  replace (S (length a)) with (length a + 1)%nat by lia.
  replace (S (length a + S (length hs)))%nat with (length a + 1 + (length hs + 1))%nat by lia.
  rewrite H2. by rewrite <-(assoc_L (++)).
Qed.

(** ** Operations *)

Context (HN : (0 < N)%nat).

Lemma new_vector_repr : repr new_vector [].
Proof. split; [done|]. cbn. split; [|split; [by rewrite length_replicate|by left]]. exact (holds_app [] N). Qed.

Ltac vector Hv m n Hb Hl Hm Hlen Hre :=
  destruct (repr_begin _ _ Hv) as (m & Hb & Hh & Hl & Hre); destruct (holds_cases _ _ Hh) as (n & Hm & Hlen).

(** Adding an object in the room there is. *)
Lemma construct_repr v l x :
  repr v l → sz_ v < cap_ v →
  ∃ v', (m ← begin v; m ← construct_at m (Z.to_nat (sz_ v)) (Some x); Some (with_size (with_slots v m) (sz_ v + 1))) = Some v' ∧
    repr v' (l ++ [Some x]).
Proof.
  intros Hv Hc. vector Hv m n Hb Hl Hm Hlen Hre. rewrite Hb. cbn [mbind option_bind].
  assert (Hn : (0 < n)%nat).
  { destruct Hv as [Hs Hu]. unfold begin in Hb. destruct (u_ v) as [m0|m0]; destruct (_ <=? _); try done; injection Hb as ->; unfold size in *; lia. }
  unfold construct_at. rewrite <-Hl, Hm. rewrite lookup_app_r by (rewrite length_fmap; lia).
  rewrite length_fmap, Nat.sub_diag. destruct n as [|n]; [lia|]. cbn [replicate lookup list_lookup mbind option_bind].
  rewrite insert_app_r_alt by (rewrite length_fmap; lia). rewrite length_fmap, Nat.sub_diag. cbn [insert list_insert].
  eexists. split; [done|].
  assert (Es : sz_ v + 1 = size (l ++ [Some x])) by (destruct Hv as [-> _]; unfold size; rewrite length_app; cbn; lia).
  rewrite Es. apply Hre.
  - rewrite Hm, !length_app. cbn. done.
  - replace ((Object <$> l) ++ Object (Some x) :: raw n) with ((Object <$> l ++ [Some x]) ++ raw n)
      by (rewrite fmap_app; cbn; by rewrite <-(assoc_L (++))). apply holds_app.
  - left. pose proof (size_nonneg l). destruct Hv as [Hs _]. lia.
Qed.

Lemma push_space_repr v l :
  repr v l → size l < 2 ^ 31 → ∃ v', push_space v = Some v' ∧ repr v' l ∧ sz_ v' < cap_ v'.
Proof.
  intros Hv Hb32. unfold push_space.
  set (v0 := if cap_ v =? 0 then SmallVector (sz_ v) (Z.of_nat N) (u_ v) else v).
  assert (Hv0 : repr v0 l ∧ cap_ v0 ≠ 0).
  { unfold v0. destruct (Z.eqb_spec (cap_ v) 0) as [E|E]; [|done]. split; [|cbn; lia].
    destruct Hv as [Hs Hu]. split; [done|]. cbn. destruct (u_ v) as [m|m].
    - destruct Hu as (H1 & H2 & _). split; [done|]. split; [done|by left].
    - destruct Hu as (H1 & H2 & H3). unfold size in H2. lia. }
  clearbody v0. clear Hv. destruct Hv0 as [Hv H0].
  destruct (Z.ltb_spec (sz_ v0) (cap_ v0)) as [Hlt|Hge]; [by exists v0|].
  vector Hv m n Hb Hl Hm Hlen Hre. rewrite Hb. cbn [mbind option_bind].
  assert (Hcap : cap_ v0 = size l ∧ n = O ∧ (Z.of_nat N < cap_ v0 ∨ cap_ v0 = Z.of_nat N)).
  { destruct Hv as [Hs Hu]. unfold begin in Hb. destruct (u_ v0) as [m0|m0]; destruct (Z.leb_spec (cap_ v0) (Z.of_nat N)); try done;
      injection Hb as ->; unfold size in *; destruct Hu as (H1 & H2 & H3); [destruct H3 as [H3|[? ?]]|]; lia. }
  destruct Hcap as (Hcap & -> & Hcc). rewrite Nat.add_0_r in Hlen. cbn [replicate] in Hm. rewrite app_nil_r in Hm.
  assert (Hu : u32 (cap_ v0 * 2) = cap_ v0 * 2) by (unfold u32, two32; apply Z.mod_small; lia).
  assert (Hk : (length l ≤ Z.to_nat (cap_ v0 * 2))%nat) by (unfold size in Hcap; lia).
  pose proof (move_all l 0 (Z.to_nat (cap_ v0 * 2)) Hk) as Em. cbn [replicate] in Em. rewrite !app_nil_r in Em.
  rewrite Hu, <-Hl, Hm, Em. cbn [mbind option_bind].
  pose proof (destroy_all (replicate (length l) None) 0) as Ed. rewrite length_replicate in Ed. cbn [replicate] in Ed.
  rewrite app_nil_r, Nat.add_0_r in Ed. rewrite Ed. cbn [mbind option_bind].
  assert (Edel : (if Z.of_nat N <? cap_ v0 then deallocate (raw (length l)) else Some tt) = Some tt).
  { destruct (_ <? _); [apply deallocate_raw|done]. }
  rewrite Edel. cbn [mbind option_bind]. eexists. split; [done|]. split.
  - destruct Hv as [Hs _]. split; [done|]. cbn. split; [apply holds_app|].
    rewrite length_app, length_fmap, length_replicate. unfold size in *. rewrite length_app, length_fmap, length_replicate. lia.
  - cbn. destruct Hv as [Hs _]. lia.
Qed.

Lemma push_back_repr v l x :
  repr v l → size l < 2 ^ 31 → ∃ v', push_back v x = Some v' ∧ repr v' (l ++ [Some x]).
Proof.
  intros Hv Hs. destruct (push_space_repr v l Hv Hs) as (v1 & E1 & H1 & H2).
  unfold push_back. rewrite E1. cbn [mbind option_bind]. by apply construct_repr.
Qed.

(** Destroying the objects from a position on. *)
Lemma destroy_repr v (l l' : list (option A)) m n :
  repr v (l ++ l') → begin v = Some m → m = (Object <$> l ++ l') ++ raw n →
  ∃ m', destroy_n m (length l) (length l') = Some m' ∧ repr (with_size (with_slots v m') (size l)) l.
Proof.
  intros Hv Hb ->. rewrite fmap_app, <-(assoc_L (++)). rewrite (destroy_n_objects _ _ _ _ eq_refl).
  eexists. split; [done|]. destruct (repr_begin _ _ Hv) as (m & Hb' & Hh & Hl & Hre).
  rewrite Hb in Hb'. injection Hb' as <-. apply Hre.
  - rewrite !length_app, !length_fmap, !length_app, !length_replicate. lia.
  - apply holds_app.
  - destruct (decide (cap_ v = 0)) as [E|E]; [|by left]. right. destruct Hv as [Hs Hu].
    destruct (u_ v) as [m0|m0]; [destruct Hu as (_ & _ & [Hc|[_ Hc]]); [lia|by destruct l]|].
    destruct Hu as (_ & Hc & Hl0). unfold size in Hc. lia.
Qed.

Lemma truncate_repr v l k :
  repr v l → (k ≤ length l)%nat → ∃ v', truncate v k = Some v' ∧ repr v' (take k l).
Proof.
  intros Hv Hk. vector Hv m n Hb Hl Hm Hlen Hre. unfold truncate. rewrite Hb. cbn [mbind option_bind]. rewrite <-Hl.
  assert (Hkl : length (take k l) = k) by (rewrite length_take; lia).
  assert (Hv' : repr v (take k l ++ drop k l)) by (by rewrite take_drop).
  destruct (destroy_repr v (take k l) (drop k l) m n Hv' Hb) as (m' & E & H); [by rewrite take_drop|].
  rewrite Hkl, length_drop in E. rewrite E. eexists. split; [done|].
  assert (Ek : Z.of_nat k = size (take k l)) by (unfold size; lia). rewrite Ek. exact H.
Qed.

Lemma pop_back_repr v l x :
  repr v (l ++ [x]) → ∃ v', pop_back v = Some v' ∧ repr v' l.
Proof.
  intros Hv. vector Hv m n Hb Hl Hm Hlen Hre. unfold pop_back. rewrite Hb. cbn [mbind option_bind].
  destruct (destroy_repr v l [x] m n Hv Hb Hm) as (m' & E & H). cbn [length destroy_n] in E.
  rewrite length_app in Hl. cbn in Hl. replace (Z.to_nat (sz_ v - 1)) with (length l) by lia.
  destruct (destroy_at m (length l)) as [m1|]; [|done]. cbn [mbind option_bind] in E |- *. injection E as ->.
  eexists. split; [done|]. destruct Hv as [Hs _]. replace (sz_ v - 1) with (size l); [exact H|].
  rewrite Hs. unfold size. rewrite length_app. cbn. lia.
Qed.

Lemma clear_repr v l : repr v l → ∃ v', clear v = Some v' ∧ repr v' [].
Proof.
  intros Hv. vector Hv m n Hb Hl Hm Hlen Hre. unfold clear. rewrite Hb. cbn [mbind option_bind]. rewrite <-Hl.
  destruct (destroy_repr v [] l m n Hv Hb Hm) as (m' & E & H). cbn [length] in E. rewrite E. by eexists.
Qed.

Lemma clear_capacity_repr v l : repr v l → ∃ v', clear_capacity v = Some v' ∧ repr v' [] ∧ cap_ v' = 0.
Proof.
  intros Hv. vector Hv m n Hb Hl Hm Hlen Hre. unfold clear_capacity. rewrite Hb. cbn [mbind option_bind].
  rewrite <-Hl, Hm, destroy_all. cbn [mbind option_bind]. destruct (Z.ltb_spec (Z.of_nat N) (cap_ v)) as [Hc|Hc].
  - rewrite deallocate_raw. eexists. split; [done|]. split; [|done]. split; [done|]. cbn.
    split; [exact (holds_app [] N)|]. split; [by rewrite length_replicate|by right].
  - eexists. split; [done|]. split; [|done]. split; [done|]. cbn. split; [exact (holds_app [] _)|].
    destruct Hv as [Hs Hu]. unfold begin in Hb. rewrite length_replicate.
    destruct (u_ v); destruct (Z.leb_spec (cap_ v) (Z.of_nat N)); try done; try lia. injection Hb as ->.
    split; [lia|by right].
Qed.

Lemma at_index_repr v l i x : repr v l → l !! i = Some x → at_index v i = Some x.
Proof.
  intros Hv Hx. vector Hv m n Hb Hl Hm Hlen Hre. unfold at_index. rewrite Hb. cbn [mbind option_bind].
  by rewrite Hm, (lookup_object _ _ _ _ Hx).
Qed.

Lemma set_index_repr v l i x : repr v l → (i < length l)%nat → ∃ v', set_index v i x = Some v' ∧ repr v' (<[i := Some x]> l).
Proof.
  intros Hv Hi. vector Hv m n Hb Hl Hm Hlen Hre. unfold set_index. rewrite Hb. cbn [mbind option_bind].
  destruct (lookup_lt_is_Some_2 l i Hi) as [y Hy]. unfold assign_at. rewrite Hm, (lookup_object _ _ _ _ Hy). cbn [mbind option_bind].
  rewrite insert_app_l by (by rewrite length_fmap). rewrite <-list_fmap_insert. eexists. split; [done|].
  assert (Es : with_slots v ((Object <$> <[i := Some x]> l) ++ raw n)
    = with_size (with_slots v ((Object <$> <[i := Some x]> l) ++ raw n)) (size (<[i := Some x]> l))).
  { unfold with_size, with_slots. cbn. f_equal. destruct Hv as [-> _]. unfold size. by rewrite length_insert. }
  rewrite Es. apply Hre; [|apply holds_app|].
  - rewrite Hm, !length_app, !length_fmap, length_insert. done.
  - left. intros E. destruct Hv as [Hs Hu]. destruct (u_ v) as [m0|m0].
    + destruct Hu as (_ & _ & [Hc|[_ ->]]); [lia|cbn in Hi; lia].
    + destruct Hu as (_ & Hc & Hl0). unfold size in Hc. lia.
Qed.

Lemma erase_repr v l first last :
  repr v l → (first ≤ last ≤ length l)%nat → ∃ v', erase v first last = Some v' ∧ repr v' (take first l ++ drop last l).
Proof.
  intros Hv Hfl. unfold erase. destruct (Nat.eqb_spec first last) as [->|Hne]; [rewrite take_drop; by exists v|].
  vector Hv m n Hb Hl Hm Hlen Hre. rewrite Hb. cbn [mbind option_bind]. rewrite <-Hl.
  set (a := take first l). set (b := drop first (take last l)). set (c := drop last l).
  assert (El : l = a ++ b ++ c).
  { unfold a, b, c. rewrite (assoc_L (++)). replace (take first l) with (take first (take last l)) by (rewrite take_take; f_equal; lia).
    by rewrite take_drop, take_drop. }
  assert (La : length a = first) by (unfold a; rewrite length_take; lia).
  assert (Lb : length b = (last - first)%nat) by (unfold b; rewrite length_drop, length_take; lia).
  assert (Lc : length c = (length l - last)%nat) by (unfold c; by rewrite length_drop).
  destruct (move_down_shifts c a b n) as (h & Lh & Em); [intros E; rewrite E in Lb; cbn in Lb; lia|].
  rewrite <-El, La, Lb, Lc in Em. replace (first + (last - first))%nat with last in Em by lia.
  rewrite Hm, Em. cbn [mbind option_bind].
  assert (Hsz : sz_ v - Z.of_nat (last - first) = size (a ++ c)).
  { destruct Hv as [-> _]. unfold size. rewrite length_app. lia. }
  rewrite Hsz.
  assert (Ltot : length (a ++ c ++ h) = length l) by (rewrite El, !length_app; lia).
  set (v1 := with_slots v ((Object <$> a ++ c ++ h) ++ raw n)).
  assert (Hcap0 : cap_ v ≠ 0).
  { intros E. destruct Hv as [Hs Hu]. destruct (u_ v) as [m0|m0].
    - destruct Hu as (_ & _ & [Hc|[_ E']]); [lia|]. subst l. cbn in Hfl. lia.
    - destruct Hu as (_ & Hc & Hl0). unfold size in Hc. lia. }
  assert (Hv1 : repr v1 ((a ++ c) ++ h)).
  { rewrite <-(assoc_L (++)).
    assert (E1 : v1 = with_size (with_slots v ((Object <$> a ++ c ++ h) ++ raw n)) (size (a ++ c ++ h))).
    { unfold v1, with_size, with_slots. cbn. f_equal. destruct Hv as [-> _]. unfold size. lia. }
    rewrite E1. apply Hre; [|apply holds_app|by left]. rewrite Hm, !length_app, !length_fmap. by rewrite Ltot. }
  assert (Hb1 : begin v1 = Some ((Object <$> (a ++ c) ++ h) ++ raw n)).
  { unfold begin, v1, with_slots in *. cbn. rewrite <-(assoc_L (++)). destruct (u_ v); destruct (_ <=? _); done. }
  destruct (destroy_repr v1 (a ++ c) h _ n Hv1 Hb1 eq_refl) as (m' & E & H).
  replace (Z.to_nat (size (a ++ c))) with (length (a ++ c)) by (unfold size; lia).
  replace (length l - length (a ++ c))%nat with (length h) by (rewrite <-Ltot, !length_app; lia).
  rewrite <-(assoc_L (++)) in E. rewrite E. eexists. split; [done|].
  replace (with_size (with_slots v m') (size (a ++ c))) with (with_size (with_slots v1 m') (size (a ++ c))); [exact H|].
  unfold with_size, with_slots, v1, with_slots. cbn. by destruct (u_ v).
Qed.

(** What is moved from keeps as many objects, or nothing. *)
Lemma move_vector_repr v l :
  repr v l → ∃ v' old, move_vector v = Some (v', old) ∧ repr v' l ∧ (repr old [] ∨ repr old (replicate (length l) None)).
Proof.
  intros Hv. vector Hv m n Hb Hl Hm Hlen Hre. unfold move_vector. rewrite Hb. cbn [mbind option_bind].
  destruct Hv as [Hs Hu]. unfold begin in Hb. destruct (Z.ltb_spec (Z.of_nat N) (cap_ v)) as [Hc|Hc].
  - eexists _, _. split; [done|]. split; [|left; split; [done|]; cbn; split; [exact (holds_app [] N)|];
      split; [by rewrite length_replicate|by right]].
    destruct (u_ v) as [m0|m0]; rewrite (proj2 (Z.leb_gt _ _)) in Hb by lia; [done|]. injection Hb as ->.
    split; [done|]. cbn. exact Hu.
  - destruct (u_ v) as [m0|m0] eqn:Eu; [|destruct Hu as (_ & Hc' & Hl'); unfold size in Hc'; lia].
    rewrite (proj2 (Z.leb_le _ _)) in Hb by lia. injection Hb as ->. destruct Hu as (H1 & H2 & H3).
    assert (Hk : (length l ≤ N)%nat) by lia. rewrite <-Hl, Hm, (move_all l n N Hk). cbn [mbind option_bind].
    eexists _, _. split; [done|]. split.
    + split; [done|]. cbn. split; [apply holds_app|]. split; [|done]. rewrite length_app, length_fmap, length_replicate. lia.
    + right. split; [cbn; rewrite Hs; unfold size; by rewrite length_replicate|]. unfold with_slots. rewrite Eu. cbn.
      split; [apply holds_app|]. rewrite length_app, length_fmap, !length_replicate. split; [lia|].
      destruct H3 as [H3|[H3 ->]]; [by left|by right].
Qed.

(** ** Runs *)

Inductive vector_op :=
  | V_push_back (x : A)
  | V_pop_back
  | V_clear
  | V_clear_capacity
  | V_erase (first last : nat)
  | V_truncate (first : nat)
  | V_set (i : nat) (x : A).

Definition run_vector_op v (op : vector_op) : option (small_vector A) :=
  match op with
  | V_push_back x => push_back v x
  | V_pop_back => pop_back v
  | V_clear => clear v
  | V_clear_capacity => clear_capacity v
  | V_erase first last => erase v first last
  | V_truncate first => truncate v first
  | V_set i x => set_index v i x
  end.

Fixpoint run_vector v (ops : list vector_op) : option (small_vector A) :=
  match ops with
  | [] => Some v
  | op :: ops' => v ← run_vector_op v op; run_vector v ops'
  end.

(** The operation on a list, where its arguments are in range; the vector is
    below the 2^31 elements at which its capacity would wrap. *)
Definition vector_spec (l : list (option A)) (op : vector_op) : option (list (option A)) :=
  match op with
  | V_push_back x => if size l <? 2 ^ 31 then Some (l ++ [Some x]) else None
  | V_pop_back => if (0 <? length l)%nat then Some (removelast l) else None
  | V_clear | V_clear_capacity => Some []
  | V_erase first last =>
      if (first <=? last)%nat && (last <=? length l)%nat then Some (take first l ++ drop last l) else None
  | V_truncate first => if (first <=? length l)%nat then Some (take first l) else None
  | V_set i x => if (i <? length l)%nat then Some (<[i := Some x]> l) else None
  end.

Fixpoint run_spec (l : list (option A)) (ops : list vector_op) : option (list (option A)) :=
  match ops with
  | [] => Some l
  | op :: ops' => l ← vector_spec l op; run_spec l ops'
  end.

Lemma vector_op_repr v l op l' :
  repr v l → vector_spec l op = Some l' → ∃ v', run_vector_op v op = Some v' ∧ repr v' l'.
Proof.
  intros Hv E. destruct op as [x| | | |i j|i|i x]; cbn [vector_spec run_vector_op] in *.
  - destruct (Z.ltb_spec (size l) (2 ^ 31)); [|done]. injection E as <-. by apply push_back_repr.
  - destruct (Nat.ltb_spec 0 (length l)) as [Hl|]; [|done]. injection E as <-.
    destruct l as [|x l _] using rev_ind; [cbn in Hl; lia|]. rewrite removelast_last. by eapply pop_back_repr.
  - injection E as <-. by eapply clear_repr.
  - injection E as <-. destruct (clear_capacity_repr v l Hv) as (v' & H1 & H2 & _). by exists v'.
  - destruct (Nat.leb_spec i j); [|done]. destruct (Nat.leb_spec j (length l)); [|done]. injection E as <-. by apply erase_repr.
  - destruct (Nat.leb_spec i (length l)); [|done]. injection E as <-. by apply truncate_repr.
  - destruct (Nat.ltb_spec i (length l)); [|done]. injection E as <-. by apply set_index_repr.
Qed.

(** C39 The vector with inline storage is a list: any sequence of operations
    whose arguments are in range runs without touching raw memory, constructing
    over an object or losing one, wherever it moves between the inline buffer and
    the heap, and the elements are those of the list; destroying it leaves no
    object behind.  ([erase] has the evident meaning of code that does not
    compile when it is instantiated.) *)
Theorem small_vector_refines (ops : list vector_op) (l : list (option A)) :
  run_spec [] ops = Some l →
  ∃ v, run_vector new_vector ops = Some v ∧ sz_ v = size l ∧
    (∀ i x, l !! i = Some x → at_index v i = Some x) ∧ is_Some (clear_capacity v).
Proof.
  intros E. assert (H : ∀ v l0, repr v l0 → run_spec l0 ops = Some l → ∃ v', run_vector v ops = Some v' ∧ repr v' l).
  { clear E. induction ops as [|op ops IH]; intros v l0 Hv E; cbn [run_spec run_vector] in *.
    - injection E as <-. by exists v.
    - apply bind_Some in E as (l1 & E1 & E). destruct (vector_op_repr v l0 op l1 Hv E1) as (v1 & R1 & Hv1).
      rewrite R1. by apply (IH v1 l1). }
  destruct (H new_vector [] new_vector_repr E) as (v & R & Hv). exists v. split; [done|]. split; [apply Hv|].
  split; [intros i x; by apply at_index_repr|]. destruct (clear_capacity_repr v l Hv) as (v' & -> & _). by eexists.
Qed.
End SmallVector.

Lemma small_vector_refines_witness :
  ∃ v, run_vector 2 (new_vector 2) [V_push_back 1; V_push_back 2; V_push_back 3; V_push_back 4; V_erase 1 3; V_push_back 5;
         V_pop_back; V_push_back 6] = Some v ∧ sz_ v = 3 ∧ cap_ v = 4 ∧ at_index 2 v 1 = Some (Some 4).
Proof.
  destruct (small_vector_refines 2 ltac:(lia) [V_push_back 1; V_push_back 2; V_push_back 3; V_push_back 4; V_erase 1 3;
    V_push_back 5; V_pop_back; V_push_back 6] [Some 1; Some 4; Some 6]) as (v & E & H1 & H2 & _); [by vm_compute|].
  exists v. split; [done|]. split; [done|]. split; [|by apply H2].
  assert (Ec : (cap_ <$> run_vector 2 (new_vector 2) [V_push_back 1; V_push_back 2; V_push_back 3; V_push_back 4;
    V_erase 1 3; V_push_back 5; V_pop_back; V_push_back 6]) = Some 4) by (vm_compute; reflexivity).
  rewrite E in Ec. by injection Ec.
Defined.
