(* ===== verification/Events.v ===== *)
(** Events of the coroutine runtime, [src/cotamer/cotamer_impl.hh]: event
    bodies with their listeners and reference counts, quorum events ([any] and
    [all]), and the trigger machinery.

    The model is one thread: the lock bit of [flags_] is always free and is
    left out.  A body that is freed leaves the heap, so that any later access
    to it is [None]; the mutually recursive operations take fuel, and running
    out of it is [None] too.  [home] is the driver of a coroutine
    ([task_promise_base::home_]) and [current] the driver of the thread.  The
    field [log] is the order in which events triggered; the program does not
    keep it. *)

From S2P Require Import Prelude.

(** A listener is a coroutine, or a quorum ([lf_quorum] set). *)
Inductive listener := L_coroutine (c : nat) | L_quorum (q : nat).
#[global] Instance listener_eq_dec : EqDecision listener.
Proof. solve_decision. Defined.

(** The part of a body that only a quorum has; [ef_interest] counts the
    [interest{}] members not yet applied. *)
Record quorum_event_body := QuorumBody {
  ef_empty_members : bool;
  ef_interest : nat;
  members_ : list nat;
  triggered_ : nat;
  quorum_ : nat
}.

Record event_body := EventBody {
  refcount_ : nat;
  ef_empty : bool;
  ef_triggered : bool;
  ef_want_interest : bool;
  user_flags : Z;
  listeners_ : list listener;
  quorum_part : option quorum_event_body
}.

Record world := World {
  bodies : gmap nat event_body;
  next_event : nat;
  asap_ : list nat;             (* the current driver's queue *)
  migrated : list (nat * nat);  (* posted to other drivers *)
  log : list nat
}.

(** ** Field updates *)

Definition with_refcount (b : event_body) (n : nat) : event_body :=
  EventBody n (ef_empty b) (ef_triggered b) (ef_want_interest b) (user_flags b) (listeners_ b) (quorum_part b).
Definition with_listeners (b : event_body) (ls : list listener) (empty : bool) : event_body :=
  EventBody (refcount_ b) empty (ef_triggered b) (ef_want_interest b) (user_flags b) ls (quorum_part b).
Definition with_quorum (b : event_body) (q : quorum_event_body) : event_body :=
  EventBody (refcount_ b) (ef_empty b) (ef_triggered b) (ef_want_interest b) (user_flags b) (listeners_ b) (Some q).
Definition with_triggered (b : event_body) : event_body :=
  EventBody (refcount_ b) (ef_empty b) true (ef_want_interest b) (user_flags b) (listeners_ b) (quorum_part b).
Definition with_user_flags (b : event_body) (f : Z) : event_body :=
  EventBody (refcount_ b) (ef_empty b) (ef_triggered b) (ef_want_interest b) f (listeners_ b) (quorum_part b).

Definition set_body (w : world) (e : nat) (b : event_body) : world :=
  World (<[e := b]> (bodies w)) (next_event w) (asap_ w) (migrated w) (log w).
Definition delete_body (w : world) (e : nat) : world :=
  World (delete e (bodies w)) (next_event w) (asap_ w) (migrated w) (log w).
Definition add_log (w : world) (e : nat) : world :=
  World (bodies w) (next_event w) (asap_ w) (migrated w) (log w ++ [e]).
Definition post_asap (w : world) (e : nat) : world :=
  World (bodies w) (next_event w) (asap_ w ++ [e]) (migrated w) (log w).
Definition post_migrate (w : world) (d e : nat) : world :=
  World (bodies w) (next_event w) (asap_ w) (migrated w ++ [(d, e)]) (log w).

(** ** Simple operations *)

(** [new event_body]. *)
Definition new_body : event_body := EventBody 1 true false false 0 [] None.
Definition new_event (w : world) : nat * world :=
  (next_event w, World (<[next_event w := new_body]> (bodies w)) (S (next_event w)) (asap_ w) (migrated w) (log w)).

Definition ref (w : world) (e n : nat) : option world :=
  b ← bodies w !! e; Some (set_body w e (with_refcount b (refcount_ b + n))).

Definition set_user_flags (w : world) (e : nat) (f : Z) : option world :=
  b ← bodies w !! e; Some (set_body w e (with_user_flags b f)).

(** [event_body::empty], [idle] and [triggered]. *)
Definition body_empty (b : event_body) : bool :=
  ef_triggered b || (ef_empty b && (refcount_ b =? 1)%nat).
Definition body_idle (b : event_body) : bool := ef_empty b.

Definition add_listener (w : world) (e : nat) (l : listener) : option world :=
  b ← bodies w !! e; Some (set_body w e (with_listeners b (listeners_ b ++ [l]) false)).

Definition remove_listener (w : world) (e : nat) (l : listener) : option world :=
  b ← bodies w !! e;
  let ls := match index_in l (listeners_ b) with
            | Some i => swap_remove i (listeners_ b)
            | None => listeners_ b
            end in
  Some (set_body w e (with_listeners b ls (ef_empty b || bool_decide (ls = [])))).

(** * Triggering *)

Section Trigger.
Context (home : nat → nat) (current : nat).

(** The listeners of a triggering event: the quorums to inform, the coroutine
    to run at once on [drv], the drivers to post to, the listeners kept. *)
Record sorted_listeners := SortedListeners {
  sl_quorums : list nat;
  sl_claimed : option nat;
  sl_drivers : list nat;
  sl_kept : list listener
}.

Fixpoint sort_listeners (ls : list listener) (drv : option nat) (s : sorted_listeners) : sorted_listeners :=
  match ls with
  | [] => s
  | L_quorum q :: ls' =>
      sort_listeners ls' drv (SortedListeners (sl_quorums s ++ [q]) (sl_claimed s) (sl_drivers s) (sl_kept s))
  | L_coroutine c :: ls' =>
      if bool_decide (Some (home c) = drv) then
        match sl_claimed s with
        | None => sort_listeners ls' drv (SortedListeners (sl_quorums s) (Some c) (sl_drivers s) (sl_kept s))
        | Some _ => sort_listeners ls' drv
            (SortedListeners (sl_quorums s) (sl_claimed s) (sl_drivers s) (sl_kept s ++ [L_coroutine c]))
        end
      else
        let ds := if bool_decide (home c ∈ sl_drivers s) then sl_drivers s else sl_drivers s ++ [home c] in
        sort_listeners ls' drv (SortedListeners (sl_quorums s) (sl_claimed s) ds (sl_kept s ++ [L_coroutine c]))
  end.

(** Post the event to the drivers of its other coroutines; [me] is [drv], or
    the current driver. *)
Fixpoint post_drivers (w : world) (e me : nat) (ds : list nat) : world :=
  match ds with
  | [] => w
  | d :: ds' => post_drivers (if (d =? me)%nat then post_asap w e else post_migrate w d e) e me ds'
  end.

(** The destructor of [event_handle], [hard_deref], [cull_members] from the
    member at [i] on, [trigger_unlock], and [trigger_member].  The last two
    carry [coh], the coroutine claimed so far; [trigger_unlock] also returns
    whether anyone could see the event. *)
Fixpoint drop_handle (fuel : nat) (w : world) (e : nat) {struct fuel} : option world :=
  match fuel with
  | O => None
  | S fuel =>
      b ← bodies w !! e;
      match quorum_part b with
      | Some q =>
          if negb (ef_empty_members q) then hard_deref fuel w e
          else if negb (refcount_ b =? 1)%nat then Some (set_body w e (with_refcount b (refcount_ b - 1)))
          else Some (delete_body w e)
      | None =>
          if negb (refcount_ b =? 1)%nat then Some (set_body w e (with_refcount b (refcount_ b - 1)))
          else Some (delete_body w e)
      end
  end
with hard_deref (fuel : nat) (w : world) (e : nat) {struct fuel} : option world :=
  match fuel with
  | O => None
  | S fuel =>
      b ← bodies w !! e;
      let w := set_body w e (with_refcount b (refcount_ b - 1)) in
      if negb (refcount_ b =? 1)%nat then Some w
      else
        w ← (if negb (ef_triggered b) then cull_members fuel w e 0 else Some w);
        b ← bodies w !! e;
        q ← quorum_part b;
        Some (if ef_empty_members q then delete_body w e else w)
  end
with cull_members (fuel : nat) (w : world) (e : nat) (i : nat) {struct fuel} : option world :=
  match fuel with
  | O => None
  | S fuel =>
      b ← bodies w !! e;
      q ← quorum_part b;
      match members_ q !! i with
      | None =>
          Some (set_body w e (with_quorum b (QuorumBody (ef_empty_members q || bool_decide (members_ q = []))
                                               (ef_interest q) (members_ q) (triggered_ q) (quorum_ q))))
      | Some m =>
          mb ← bodies w !! m;
          if ef_triggered mb then cull_members fuel w e (S i)
          else
            w ← remove_listener w m (L_quorum e);
            b ← bodies w !! e;
            let w := set_body w e (with_quorum b (QuorumBody (ef_empty_members q) (ef_interest q)
                                     (swap_remove i (members_ q)) (triggered_ q) (quorum_ q))) in
            w ← drop_handle fuel w m;
            cull_members fuel w e i
      end
  end
with trigger_unlock (fuel : nat) (w : world) (e : nat) (drv coh : option nat) {struct fuel} :
    option (bool * world * option nat) :=
  match fuel with
  | O => None
  | S fuel =>
      b ← bodies w !! e;
      let result := negb (ef_empty b) || (1 <? refcount_ b)%nat in
      w ← (match quorum_part b with
           | Some _ => w ← ref w e 1; cull_members fuel w e 0
           | None => Some w
           end);
      b ← bodies w !! e;
      let s := sort_listeners (listeners_ b) drv (SortedListeners [] coh [] []) in
      let b := with_triggered (with_listeners b (sl_kept s) (ef_empty b || bool_decide (sl_kept s = []))) in
      let w := add_log (set_body w e b) e in
      r ← trigger_members fuel w (sl_quorums s) e drv (sl_claimed s);
      let '(w, coh) := r in
      w ← (if bool_decide (sl_drivers s = []) then Some w
           else w ← ref w e (length (sl_drivers s));
                Some (post_drivers w e (default current drv) (sl_drivers s)));
      w ← (match quorum_part b with Some _ => drop_handle fuel w e | None => Some w end);
      Some (result, w, coh)
  end
with trigger_members (fuel : nat) (w : world) (qs : list nat) (e : nat) (drv coh : option nat) {struct fuel} :
    option (world * option nat) :=
  match fuel with
  | O => None
  | S fuel =>
      match qs with
      | [] => Some (w, coh)
      | q :: qs' =>
          r ← trigger_member fuel w q e drv coh;
          trigger_members fuel r.1 qs' e drv r.2
      end
  end
with trigger_member (fuel : nat) (w : world) (qe e : nat) (drv coh : option nat) {struct fuel} :
    option (world * option nat) :=
  match fuel with
  | O => None
  | S fuel =>
      b ← bodies w !! qe;
      q ← quorum_part b;
      w ← (match index_in e (members_ q) with
           | Some i =>
               let ms := swap_remove i (members_ q) in
               let w := set_body w qe (with_quorum b (QuorumBody (ef_empty_members q || bool_decide (ms = []))
                          (ef_interest q) ms (S (triggered_ q)) (quorum_ q))) in
               drop_handle fuel w e
           | None => Some w
           end);
      b ← bodies w !! qe;
      q ← quorum_part b;
      if negb (ef_triggered b) && (quorum_ q <=? triggered_ q)%nat then
        r ← trigger_unlock fuel w qe drv coh;
        Some (r.1.2, r.2)
      else if ef_empty_members q && (refcount_ b =? 0)%nat then Some (delete_body w qe, coh)
      else Some (w, coh)
  end.

(** [event_body::trigger]. *)
Definition trigger (fuel : nat) (w : world) (e : nat) : option (bool * world) :=
  b ← bodies w !! e;
  if ef_triggered b then Some (false, w)
  else r ← trigger_unlock fuel w e None None; Some r.1.

(** [driver_trigger]: trigger if need be; one coroutine of [drv] to run. *)
Fixpoint find_home (ls : list listener) (drv : nat) : option (nat * nat) :=
  match ls with
  | [] => None
  | L_coroutine c :: ls' =>
      if (home c =? drv)%nat then Some (O, c) else (λ p, (S p.1, p.2)) <$> find_home ls' drv
  | L_quorum _ :: ls' => (λ p, (S p.1, p.2)) <$> find_home ls' drv
  end.

Definition driver_trigger (fuel : nat) (w : world) (e drv : nat) : option (option nat * world) :=
  b ← bodies w !! e;
  if ef_empty b && ef_triggered b then Some (None, w)
  else if negb (ef_triggered b) then
    r ← trigger_unlock fuel w e (Some drv) None;
    Some (r.2, r.1.2)
  else
    let p := find_home (listeners_ b) drv in
    let ls := match p with Some (i, _) => swap_remove i (listeners_ b) | None => listeners_ b end in
    Some (snd <$> p, set_body w e (with_listeners b ls (ef_empty b || bool_decide (ls = [])))).

(** ** Quorums *)

(** [add_member] with an event ([None]: a null handle, which counts as
    triggered); the handle moves into the members, or is destroyed. *)
Definition add_member (fuel : nat) (w : world) (qe : nat) (eh : option nat) : option world :=
  b ← bodies w !! qe;
  q ← quorum_part b;
  let counted := set_body w qe (with_quorum b (QuorumBody (ef_empty_members q) (ef_interest q)
                   (members_ q) (S (triggered_ q)) (quorum_ q))) in
  match eh with
  | None => Some counted
  | Some e =>
      eb ← bodies w !! e;
      if ef_triggered eb then drop_handle fuel counted e
      else
        w ← add_listener w e (L_quorum qe);
        b ← bodies w !! qe;
        let b := EventBody (refcount_ b) (ef_empty b) (ef_triggered b)
                   (ef_want_interest b || ef_want_interest eb) (user_flags b) (listeners_ b) (quorum_part b) in
        Some (set_body w qe (with_quorum b (QuorumBody false (ef_interest q) (members_ q ++ [e])
                               (triggered_ q) (quorum_ q))))
  end.

Definition new_quorum (w : world) (quorum : nat) : nat * world :=
  let b := EventBody 1 true false false 0 [] (Some (QuorumBody true 0 [] 0 quorum)) in
  (next_event w, World (<[next_event w := b]> (bodies w)) (S (next_event w)) (asap_ w) (migrated w) (log w)).

Fixpoint add_members (fuel : nat) (w : world) (qe : nat) (es : list (option nat)) : option world :=
  match es with
  | [] => Some w
  | e :: es' => w ← add_member fuel w qe e; add_members fuel w qe es'
  end.

Definition seal (fuel : nat) (w : world) (qe : nat) : option world :=
  b ← bodies w !! qe;
  q ← quorum_part b;
  if (quorum_ q <=? triggered_ q)%nat then
    r ← trigger_unlock fuel w qe None None; Some r.1.2
  else Some w.

Definition make (fuel : nat) (w : world) (quorum : nat) (es : list (option nat)) : option (nat * world) :=
  let '(qe, w) := new_quorum w quorum in
  w ← add_members fuel w qe es;
  w ← seal fuel w qe;
  Some (qe, w).

(** [any] and [all] of two events or more. *)
Definition any (fuel : nat) (w : world) (es : list (option nat)) : option (nat * world) := make fuel w 1 es.
Definition all (fuel : nat) (w : world) (es : list (option nat)) : option (nat * world) := make fuel w (length es) es.
End Trigger.

(** ** [interest{}]

    A quorum with [interest{}] members gets them when a task awaits it; the
    interest event [ie] of the task may be null. *)

(** [add_member(qf, interest)]. *)
Definition add_interest (w : world) (qe : nat) : option world :=
  b ← bodies w !! qe;
  q ← quorum_part b;
  Some (set_body w qe (EventBody (refcount_ b) (ef_empty b) (ef_triggered b) true (user_flags b) (listeners_ b)
          (Some (QuorumBody (ef_empty_members q) (S (ef_interest q)) (members_ q) (triggered_ q) (quorum_ q))))).

Fixpoint wanting (w : world) (ms : list nat) : list nat :=
  match ms with
  | [] => []
  | m :: ms' =>
      match bodies w !! m with
      | Some b => if ef_want_interest b then m :: wanting w ms' else wanting w ms'
      | None => wanting w ms'
      end
  end.

Fixpoint ref_all (w : world) (es : list nat) : option world :=
  match es with [] => Some w | e :: es' => w ← ref w e 1; ref_all w es' end.

Section Interest.
Context (home : nat → nat) (current : nat).

(** One [interest{}] becomes a member, by a copy of the task's handle. *)
Definition apply_interest (fuel : nat) (w : world) (qe : nat) (ie : option nat) : option world :=
  b ← bodies w !! qe;
  q ← quorum_part b;
  let w := set_body w qe (with_quorum b (QuorumBody (ef_empty_members q) (ef_interest q - 1) (members_ q)
             (triggered_ q) (quorum_ q))) in
  w ← (match ie with Some e => ref w e 1 | None => Some w end);
  add_member home current fuel w qe ie.

Fixpoint apply_interests (fuel n : nat) (w : world) (qe : nat) (ie : option nat) : option world :=
  match n with
  | O => Some w
  | S n => w ← apply_interest fuel w qe ie; apply_interests fuel n w qe ie
  end.

Fixpoint drop_all (fuel : nat) (w : world) (es : list nat) : option world :=
  match es with [] => Some w | e :: es' => w ← drop_handle home current fuel w e; drop_all fuel w es' end.

Fixpoint fix_want_interest (fuel : nat) (w : world) (qe : nat) (ie : option nat) {struct fuel} : option world :=
  match fuel with
  | O => None
  | S fuel =>
      b ← bodies w !! qe;
      q ← quorum_part b;
      let b := EventBody (refcount_ b) (ef_empty b) (ef_triggered b) false (user_flags b) (listeners_ b)
                 (quorum_part b) in
      let w := set_body w qe b in
      if ef_triggered b then Some w
      else
        w ← apply_interests fuel (ef_interest q) w qe ie;
        b ← bodies w !! qe;
        q ← quorum_part b;
        if (quorum_ q <=? triggered_ q)%nat then
          r ← trigger_unlock home current fuel w qe None None; Some r.1.2
        else
          let wi := wanting w (members_ q) in
          w ← ref_all w wi;
          w ← foldl (λ acc m, w ← acc; fix_want_interest fuel w m ie) (Some w) wi;
          drop_all fuel w wi
  end.

(** [task_event_awaiter::await_suspend]: [true] when the task suspends, now a
    listener of the event. *)
Definition await_suspend (fuel : nat) (w : world) (e c : nat) (ie : option nat) : option (bool * world) :=
  b ← bodies w !! e;
  w ← (if ef_want_interest b then fix_want_interest fuel w e ie else Some w);
  b ← bodies w !! e;
  if ef_triggered b then Some (false, w)
  else w ← add_listener w e (L_coroutine c); Some (true, w).
End Interest.

(** * Laws *)

Lemma remove_listener_perm b l i :
  index_in l (listeners_ b) = Some i → listeners_ b ≡ₚ l :: swap_remove i (listeners_ b).
Proof. intros H. by apply swap_remove_perm, index_in_Some. Qed.

(** ** Resuming the tasks that wait for an event *)

Section Resume.
Context (home : nat → nat) (current : nat).

Definition coroutines (ls : list listener) : list nat :=
  omap (λ l, match l with L_coroutine c => Some c | L_quorum _ => None end) ls.
Definition at_home (d : nat) (cs : list nat) : list nat := filter (λ c, home c = d) cs.

(** The loop of the driver: resume a coroutine of [drv] while there is one.
    A resumed coroutine cannot touch the event: it has triggered. *)
Fixpoint resume_loop (n fuel : nat) (w : world) (e drv : nat) : option (list nat * world) :=
  match n with
  | O => None
  | S n =>
      r ← driver_trigger home current fuel w e drv;
      match r.1 with
      | None => Some ([], r.2)
      | Some c => s ← resume_loop n fuel r.2 e drv; Some (c :: s.1, s.2)
      end
  end.

Lemma at_home_cons_ne drv c ls :
  home c ≠ drv → at_home drv (coroutines (L_coroutine c :: ls)) = at_home drv (coroutines ls).
Proof. intros H. unfold at_home, coroutines. cbn [omap list_omap]. by rewrite filter_cons_False. Qed.

Lemma find_home_spec ls drv :
  match find_home home ls drv with
  | Some (i, c) => ls !! i = Some (L_coroutine c) ∧ home c = drv
  | None => at_home drv (coroutines ls) = []
  end.
Proof.
  induction ls as [|[c|q] ls IH]; cbn [find_home]; [done| |].
  - destruct (Nat.eqb_spec (home c) drv) as [E|E]; [done|].
    destruct (find_home home ls drv) as [[i d]|]; cbn [fmap option_fmap option_map]; [exact IH|].
    rewrite at_home_cons_ne by done. exact IH.
  - destruct (find_home home ls drv) as [[i d]|]; cbn; done.
Qed.

Lemma coroutines_perm ls ls' : ls ≡ₚ ls' → coroutines ls ≡ₚ coroutines ls'.
Proof. unfold coroutines. by intros ->. Qed.

Lemma at_home_perm drv cs cs' : cs ≡ₚ cs' → at_home drv cs ≡ₚ at_home drv cs'.
Proof. unfold at_home. by intros ->. Qed.

Definition elsewhere (d : nat) (cs : list nat) : list nat := filter (λ c, home c ≠ d) cs.

Lemma elsewhere_all drv cs : at_home drv cs = [] → elsewhere drv cs = cs.
Proof.
  unfold at_home, elsewhere. induction cs as [|c cs IH]; [done|]. rewrite !filter_cons.
  destruct (decide (home c = drv)); [done|]. intros H. rewrite decide_True by done. by rewrite IH.
Qed.

(** Once the event has triggered, the loop resumes the coroutines of [drv]
    that are left, each once, and leaves the others. *)
Lemma resume_triggered fuel e drv n w b :
  bodies w !! e = Some b → ef_triggered b = true → (ef_empty b = true → listeners_ b = []) →
  (length (at_home drv (coroutines (listeners_ b))) < n)%nat →
  ∃ cs w' b', resume_loop n fuel w e drv = Some (cs, w') ∧
    cs ≡ₚ at_home drv (coroutines (listeners_ b)) ∧ bodies w' !! e = Some b' ∧ ef_triggered b' = true ∧
    coroutines (listeners_ b') ≡ₚ elsewhere drv (coroutines (listeners_ b)) ∧
    refcount_ b' = refcount_ b ∧ migrated w' = migrated w ∧ asap_ w' = asap_ w.
Proof.
  revert w b. induction n as [|n IH]; intros w b Hb Ht He Hn; [lia|].
  cbn [resume_loop]. unfold driver_trigger. rewrite Hb. cbn [mbind option_bind].
  rewrite Ht, andb_true_r. cbn [negb]. pose proof (find_home_spec (listeners_ b) drv) as Hf.
  destruct (ef_empty b) eqn:Ee; cbn [mbind option_bind fst snd].
  - rewrite He by done. eexists _, _, b. split; [done|]. by rewrite He.
  - destruct (find_home home (listeners_ b) drv) as [[i c]|]; cbn [fmap option_fmap option_map mbind option_bind fst snd].
    + destruct Hf as [Hi Hc]. pose proof (swap_remove_perm _ _ _ Hi) as Hp.
      set (ls := swap_remove i (listeners_ b)) in *.
      assert (Hcs : coroutines (listeners_ b) ≡ₚ c :: coroutines ls) by (rewrite (coroutines_perm _ _ Hp); done).
      assert (Hh : at_home drv (coroutines (listeners_ b)) ≡ₚ c :: at_home drv (coroutines ls)).
      { rewrite (at_home_perm _ _ _ Hcs). unfold at_home. by rewrite filter_cons_True. }
      assert (Hels : elsewhere drv (coroutines (listeners_ b)) ≡ₚ elsewhere drv (coroutines ls)).
      { unfold elsewhere. rewrite Hcs, filter_cons_False by (by intros []). done. }
      set (b1 := with_listeners b ls (false || bool_decide (ls = []))).
      destruct (IH (set_body w e b1) b1) as (cs & w' & b' & E & P & B & T & Q & R).
      { apply lookup_insert_eq. } { done. } { apply bool_decide_eq_true. }
      { cbn [b1 with_listeners listeners_]. rewrite Hh in Hn. simpl in Hn. lia. }
      rewrite E. cbn. eexists _, _, b'. split; [done|]. rewrite P, Q, Hh, Hels. split; [done|]. split; [done|]. split; [done|]. split; [done|exact R].
    + eexists _, _, _. split; [done|]. rewrite Hf. split; [done|]. split; [apply lookup_insert_eq|]. split; [done|].
      cbn. by rewrite elsewhere_all.
Qed.

(** How the listeners of an event that triggers on [drv] are sorted. *)
Definition all_coroutines (ls : list listener) : Prop := Forall (λ l, ∃ c, l = L_coroutine c) ls.

Lemma coroutines_cons c ls : coroutines (L_coroutine c :: ls) = c :: coroutines ls.
Proof. done. Qed.
Lemma coroutines_length ls : all_coroutines ls → length (coroutines ls) = length ls.
Proof. induction 1 as [|l ls [c ->] _ IH]; [done|]. rewrite coroutines_cons. simpl. by rewrite IH. Qed.
Lemma coroutines_snoc c ls : coroutines (ls ++ [L_coroutine c]) = coroutines ls ++ [c].
Proof. unfold coroutines. by rewrite omap_app. Qed.

Lemma sort_quorums ls drv s :
  all_coroutines ls → sl_quorums (sort_listeners home ls drv s) = sl_quorums s.
Proof.
  intros Hls. revert s. induction Hls as [|l ls [c ->] _ IH]; intros s; cbn [sort_listeners]; [done|].
  case_bool_decide; [destruct (sl_claimed s)|]; by rewrite IH.
Qed.

Lemma sort_claimed ls drv s :
  all_coroutines ls →
  sl_claimed (sort_listeners home ls (Some drv) s)
  = match sl_claimed s with Some c => Some c | None => head (at_home drv (coroutines ls)) end.
Proof.
  intros Hls. revert s. induction Hls as [|l ls [c ->] _ IH]; intros s; cbn [sort_listeners].
  { by destruct (sl_claimed s). }
  rewrite coroutines_cons. unfold at_home. rewrite filter_cons. case_bool_decide as E.
  - injection E as E. rewrite decide_True by done. destruct (sl_claimed s) eqn:Es; rewrite IH; cbn; by rewrite ?Es.
  - rewrite decide_False by congruence. by rewrite IH.
Qed.

Lemma sort_kept ls drv s :
  all_coroutines ls →
  option_list (sl_claimed (sort_listeners home ls drv s)) ++ coroutines (sl_kept (sort_listeners home ls drv s))
  ≡ₚ option_list (sl_claimed s) ++ coroutines (sl_kept s) ++ coroutines ls.
Proof.
  intros Hls. revert s. induction Hls as [|l ls [c ->] _ IH]; intros s; cbn [sort_listeners].
  { by rewrite app_nil_r. }
  rewrite coroutines_cons.
  case_bool_decide; [destruct (sl_claimed s) as [d|] eqn:Es|]; rewrite IH; cbn [sl_claimed sl_kept option_list];
    rewrite ?coroutines_snoc, <-?(assoc_L (++)), ?Es; [done| |done].
  cbn. by rewrite <-Permutation_middle.
Qed.

(** The other drivers, each once. *)
Lemma sort_drivers ls drv s :
  all_coroutines ls → NoDup (sl_drivers s) →
  let ds := sl_drivers (sort_listeners home ls (Some drv) s) in
  NoDup ds ∧ (∀ d, d ∈ ds ↔ d ∈ sl_drivers s ∨ ∃ c, c ∈ coroutines ls ∧ home c = d ∧ d ≠ drv).
Proof.
  intros Hls. revert s. induction Hls as [|l ls [c ->] _ IH]; intros s Hs; cbn [sort_listeners].
  { split; [done|]. intros d. split; [by left|]. intros [?|(c & Hc & _)]; [done|by inversion Hc]. }
  rewrite coroutines_cons. case_bool_decide as E.
  - injection E as E. destruct (sl_claimed s);
      (match goal with |- context [sort_listeners home ls (Some drv) ?t] => destruct (IH t) as [A B]; [done|] end);
      (split; [done|]); intros d; rewrite B; cbn; (split; [intros [?|(x & Hx & ?)]; [by left|right; exists x; set_solver]|]);
      intros [?|(x & Hx & Hd & Hne)]; [by left| |by left|]; apply elem_of_cons in Hx as [->|Hx]; try congruence; right; by exists x.
  - match goal with |- context [sort_listeners home ls (Some drv) ?t] => destruct (IH t) as [A B] end.
    { cbn. case_bool_decide; [done|]. apply NoDup_app. split; [done|].
      split; [set_solver|apply NoDup_singleton]. }
    split; [done|]. intros d. rewrite B. cbn.
    assert (Hin : d ∈ (if bool_decide (home c ∈ sl_drivers s) then sl_drivers s else sl_drivers s ++ [home c])
                  ↔ d ∈ sl_drivers s ∨ d = home c).
    { case_bool_decide; [|set_solver]. split; [by left|]. intros [?| ->]; done. }
    rewrite Hin. split.
    + intros [[?| ->]|(x & Hx & ?)]; [by left|right; exists c; set_solver|right; exists x; set_solver].
    + intros [?|(x & Hx & Hd & Hne)]; [by left; left|]. apply elem_of_cons in Hx as [->|Hx]; [by left; right|].
      right. by exists x.
Qed.

(** Posting to other drivers puts the event on their lists, in order. *)
Lemma post_drivers_migrates w e me ds :
  me ∉ ds →
  post_drivers w e me ds = World (bodies w) (next_event w) (asap_ w) (migrated w ++ ((λ d, (d, e)) <$> ds)) (log w).
Proof.
  revert w. induction ds as [|d ds IH]; intros w Hme; cbn [post_drivers].
  - destruct w. cbn. by rewrite app_nil_r.
  - apply not_elem_of_cons in Hme as [Hd Hme]. rewrite (proj2 (Nat.eqb_neq d me)) by done.
    rewrite IH by done. cbn. by rewrite <-(assoc_L (++)).
Qed.

(** When the driver's loop processes an event that has not triggered, it
    resumes every task of this driver that waits for it, each exactly once,
    leaves the tasks of other drivers waiting, and posts the event exactly once
    to each driver that has such a task: no wakeup is lost and none is
    doubled. *)
Theorem waiters_resumed_once (w : world) (e drv : nat) (b : event_body) :
  bodies w !! e = Some b → ef_triggered b = false → quorum_part b = None → all_coroutines (listeners_ b) →
  ef_empty b = bool_decide (listeners_ b = []) →
  ∃ cs w' b' ds,
    resume_loop (2 + length (listeners_ b)) 3 w e drv = Some (cs, w') ∧
    cs ≡ₚ at_home drv (coroutines (listeners_ b)) ∧
    bodies w' !! e = Some b' ∧ ef_triggered b' = true ∧
    coroutines (listeners_ b') ≡ₚ elsewhere drv (coroutines (listeners_ b)) ∧
    migrated w' = migrated w ++ ((λ d, (d, e)) <$> ds) ∧ NoDup ds ∧
    (∀ d, d ∈ ds ↔ d ≠ drv ∧ at_home d (coroutines (listeners_ b)) ≠ []) ∧
    refcount_ b' = (refcount_ b + length ds)%nat ∧ asap_ w' = asap_ w.
Proof.
  intros Hb Ht Hq Hc Hflag. set (s := sort_listeners home (listeners_ b) (Some drv) (SortedListeners [] None [] [])).
  pose proof (sort_quorums (listeners_ b) (Some drv) (SortedListeners [] None [] []) Hc) as S1.
  pose proof (sort_claimed (listeners_ b) drv (SortedListeners [] None [] []) Hc) as S2.
  pose proof (sort_kept (listeners_ b) (Some drv) (SortedListeners [] None [] []) Hc) as S3.
  destruct (sort_drivers (listeners_ b) drv (SortedListeners [] None [] []) Hc) as [S4 S5]; [constructor|].
  fold s in S1, S2, S3, S4, S5. cbn in S1, S2, S3.
  assert (Hds : ∀ d, d ∈ sl_drivers s ↔ d ≠ drv ∧ at_home d (coroutines (listeners_ b)) ≠ []).
  { intros d. rewrite S5. unfold at_home. split.
    - intros [Hd|(c & Hin & Hd & Hne)]; [by inversion Hd|]. split; [done|]. intros E.
      assert (Hf : c ∈ filter (λ c, home c = d) (coroutines (listeners_ b))) by (by apply list_elem_of_filter).
      rewrite E in Hf. inversion Hf.
    - intros [Hne Hf]. right. destruct (filter _ _) as [|c l] eqn:E; [done|]. exists c.
      assert (Hin : c ∈ filter (λ c, home c = d) (coroutines (listeners_ b))) by (rewrite E; by left).
      apply list_elem_of_filter in Hin as [? ?]. done. }
  set (b1 := with_triggered (with_listeners b (sl_kept s) (ef_empty b || bool_decide (sl_kept s = [])))).
  set (b2 := with_refcount b1 (refcount_ b + length (sl_drivers s))).
  set (w2 := World (<[e := b2]> (bodies w)) (next_event w) (asap_ w)
               (migrated w ++ ((λ d, (d, e)) <$> sl_drivers s)) (log w ++ [e])).
  assert (Htr : driver_trigger home current 3 w e drv = Some (sl_claimed s, w2)).
  { unfold driver_trigger. rewrite Hb. cbn [mbind option_bind]. rewrite Ht, andb_false_r. cbn [negb].
    cbn [trigger_unlock]. rewrite Hb. cbn [mbind option_bind]. rewrite Hq. cbn [mbind option_bind].
    rewrite Hb. cbn [mbind option_bind]. fold s. fold b1. rewrite S1. cbn [trigger_members mbind option_bind fst snd].
    assert (Hq1 : quorum_part b1 = None) by exact Hq. rewrite Hq1.
    assert (Hme : drv ∉ sl_drivers s) by (intros H; by apply Hds in H as [? _]).
    assert (Eb : with_refcount b1 (refcount_ b + @length nat []) = b1) by (cbn; by rewrite Nat.add_0_r).
    unfold w2, b2. destruct (decide (sl_drivers s = [])) as [E|E].
    - rewrite (bool_decide_eq_true_2 _ E), E, Eb. cbn [fmap list_fmap]. rewrite app_nil_r. done.
    - rewrite (bool_decide_eq_false_2 _ E). unfold ref. cbn [add_log set_body bodies]. rewrite lookup_insert_eq. cbn [mbind option_bind].
      rewrite post_drivers_migrates by done. cbn. by rewrite insert_insert_eq. }
  change (2 + length (listeners_ b))%nat with (S (1 + length (listeners_ b))). cbn [resume_loop]. rewrite Htr. cbn [mbind option_bind fst snd].
  destruct (sl_claimed s) as [c|] eqn:Ec.
  - destruct (at_home drv (coroutines (listeners_ b))) as [|c' l] eqn:Ea; [done|]. injection S2 as <-.
    assert (Hce : home c = drv).
    { assert (Hin : c ∈ at_home drv (coroutines (listeners_ b))) by (rewrite Ea; by left).
      by apply list_elem_of_filter in Hin as [? _]. }
    cbn in S3.
    assert (Hh : at_home drv (coroutines (listeners_ b)) ≡ₚ c :: at_home drv (coroutines (sl_kept s))).
    { rewrite <-(at_home_perm _ _ _ S3). unfold at_home. by rewrite filter_cons_True. }
    destruct (resume_triggered 3 e drv (1 + length (listeners_ b)) w2 b2) as (cs & w' & b' & E & P & B & T & Q & R1 & R2 & R3).
    { apply lookup_insert_eq. } { done. }
    { cbn. rewrite Hflag. rewrite bool_decide_eq_false_2; [apply bool_decide_eq_true|]. intros E. by rewrite E in Ea. }
    { cbn [b2 b1 with_refcount with_triggered with_listeners listeners_].
      pose proof (length_filter (λ c, home c = drv) (coroutines (sl_kept s))) as H1. unfold at_home.
      apply Permutation_length in S3. cbn in S3. rewrite (coroutines_length _ Hc) in S3. lia. }
    rewrite E. cbn [mbind option_bind fst snd].
    eexists _, w', b', (sl_drivers s). split; [done|].
    split; [rewrite <-Ea, Hh; by apply Permutation_skip|]. split; [done|]. split; [done|]. split.
    { rewrite Q. unfold elsewhere. cbn. rewrite <-S3, filter_cons_False by (by intros []). done. }
    rewrite R1, R2, R3. done.
  - symmetry in S2. apply head_None in S2. cbn in S3.
    eexists [], w2, b2, (sl_drivers s). split; [done|]. rewrite S2. split; [done|].
    split; [apply lookup_insert_eq|]. split; [done|]. split; [|done].
    cbn. rewrite S3. by rewrite elsewhere_all.
Qed.
End Resume.

Lemma waiters_resumed_once_witness :
  let w := World (<[4%nat := EventBody 2 false false false 0
                     [L_coroutine 10; L_coroutine 31; L_coroutine 12; L_coroutine 33; L_coroutine 14] None]> ∅)
             5 [] [] [] in
  ∃ cs w' b' ds,
    resume_loop (λ c, c / 10)%nat 1 7 3 w 4 1 = Some (cs, w') ∧
    cs ≡ₚ [10; 12; 14]%nat ∧ bodies w' !! 4%nat = Some b' ∧ ef_triggered b' = true ∧
    coroutines (listeners_ b') ≡ₚ [31; 33]%nat ∧ migrated w' = (λ d, (d, 4%nat)) <$> ds ∧ NoDup ds ∧
    (∀ d, d ∈ ds ↔ d ≠ 1%nat ∧ at_home (λ c, c / 10)%nat d [10; 31; 12; 33; 14]%nat ≠ []) ∧
    refcount_ b' = (2 + length ds)%nat ∧ asap_ w' = [].
Proof.
  intros w. apply (waiters_resumed_once (λ c, c / 10)%nat 1 w 4 1
    (EventBody 2 false false false 0
       [L_coroutine 10; L_coroutine 31; L_coroutine 12; L_coroutine 33; L_coroutine 14] None));
    [by vm_compute|done|done|repeat constructor; by eexists|done].
Defined.
