(* ===== verification/EventSafety.v ===== *)
(** Memory safety and exactness of the events of [Events.v], from
    [src/cotamer/cotamer_impl.hh]: reference counts are exact, no operation
    touches a freed body, the mutually recursive operations of triggering and
    destruction terminate, and quorums trigger exactly when they should.

    The invariant [wf X P B] of a world is relative to the handles [X] that the
    program outside the worlds holds, to the quorums [P] that an event has
    stopped listing as listeners but has not informed yet, and to the quorums
    [B] in the middle of an operation.  Every member has a smaller [rank] than
    its quorum. *)

From S2P Require Import Prelude Events.

(** * Counting *)

Definition occ {A} `{EqDecision A} (x : A) (l : list A) : nat := length (filter (λ y, y = x) l).

Section Occ.
Context {A : Type} `{EqDecision A}.
Implicit Types (x y : A) (l k : list A).

Lemma occ_nil x : occ x [] = O.
Proof. done. Qed.
Lemma occ_cons x y l : occ x (y :: l) = ((if decide (y = x) then 1 else 0) + occ x l)%nat.
Proof. unfold occ. rewrite filter_cons. by destruct (decide (y = x)). Qed.
Lemma occ_app x l k : occ x (l ++ k) = (occ x l + occ x k)%nat.
Proof. unfold occ. by rewrite filter_app, length_app. Qed.
Lemma occ_perm x l k : l ≡ₚ k → occ x l = occ x k.
Proof. intros Hp. unfold occ. by rewrite Hp. Qed.
Lemma occ_pos x l : (0 < occ x l)%nat ↔ x ∈ l.
Proof.
  induction l as [|y l IH]; [split; [cbn; lia|inversion 1]|]. rewrite occ_cons, elem_of_cons, <-IH.
  destruct (decide (y = x)) as [->|Hne]; [split; [by left|lia]|]. split; [right; lia|intros [->|?]; [done|lia]].
Qed.
Lemma occ_zero x l : occ x l = O ↔ x ∉ l.
Proof. rewrite <-occ_pos. lia. Qed.
End Occ.

(** * The graph *)

Definition quorums (ls : list listener) : list nat :=
  omap (λ l, match l with L_quorum q => Some q | _ => None end) ls.

#[local] Arguments quorums : simpl never.

Definition lst (w : world) (e : nat) : list nat :=
  match bodies w !! e with Some b => quorums (listeners_ b) | None => [] end.

Definition mem (w : world) (q : nat) : list nat :=
  match bodies w !! q with
  | Some b => match quorum_part b with Some q => members_ q | None => [] end
  | None => []
  end.

Definition queued (w : world) (e : nat) : nat := occ e (asap_ w) + occ e (snd <$> migrated w).

Definition fired (w : world) (e : nat) : Prop := ∃ b, bodies w !! e = Some b ∧ ef_triggered b = true.

(** One handle more. *)
Definition inc (e : nat) (X : nat → nat) (x : nat) : nat := if decide (x = e) then S (X x) else X x.

Section Safety.
Context (rank : nat → nat).

Record wf (X : nat → nat) (P : list (nat * nat)) (B : gset nat) (w : world) : Prop := {
  wf_ref : ∀ e b, bodies w !! e = Some b →
    refcount_ b = (X e + queued w e + length (quorums (listeners_ b)) + occ e (fst <$> P))%nat;
  wf_live : ∀ e, bodies w !! e = None → X e = O ∧ queued w e = O;
  wf_edges : ∀ e q, (occ q (lst w e) + occ (e, q) P = occ e (mem w q))%nat;
  wf_empty : ∀ e b, bodies w !! e = Some b → ef_empty b = bool_decide (listeners_ b = []);
  wf_fired : ∀ e b, bodies w !! e = Some b → ef_triggered b = true → quorums (listeners_ b) = [];
  wf_pend : ∀ e q, (e, q) ∈ P → fired w e;
  wf_rank : ∀ q e, e ∈ mem w q → (rank e < rank q)%nat;
  wf_flag : ∀ q b qb, bodies w !! q = Some b → quorum_part b = Some qb →
    ef_empty_members qb = true → members_ qb = [];
  wf_quorum : ∀ q b qb, q ∉ B → bodies w !! q = Some b → quorum_part b = Some qb →
    ef_empty_members qb = bool_decide (members_ qb = []) ∧
    if ef_triggered b then ∀ m, m ∈ members_ qb → fired w m else (triggered_ qb < quorum_ qb)%nat;
  wf_zero : ∀ q b, q ∉ B → bodies w !! q = Some b → refcount_ b = O →
    ∃ qb, quorum_part b = Some qb ∧ members_ qb ≠ [] ∧ ∀ m, m ∈ members_ qb → fired w m
}.
End Safety.

(** * Updates *)

Lemma lst_set w e b x : lst (set_body w e b) x = if decide (x = e) then quorums (listeners_ b) else lst w x.
Proof.
  unfold lst. cbn. destruct (decide (x = e)) as [->|Hne]; [by rewrite lookup_insert_eq|by rewrite lookup_insert_ne].
Qed.

Definition members_of (b : event_body) : list nat :=
  match quorum_part b with Some q => members_ q | None => [] end.

Lemma mem_set w e b x : mem (set_body w e b) x = if decide (x = e) then members_of b else mem w x.
Proof.
  unfold mem. cbn. destruct (decide (x = e)) as [->|Hne]; [by rewrite lookup_insert_eq|by rewrite lookup_insert_ne].
Qed.

Lemma lst_eq w e b : bodies w !! e = Some b → lst w e = quorums (listeners_ b).
Proof. unfold lst. by intros ->. Qed.
Lemma mem_eq w e b : bodies w !! e = Some b → mem w e = members_of b.
Proof. unfold mem. by intros ->. Qed.

Lemma occ_quorums q ls : occ (L_quorum q) ls = occ q (quorums ls).
Proof.
  induction ls as [|[c|p] ls IH]; [done| |].
  - rewrite occ_cons, decide_False by done. exact IH.
  - change (quorums (L_quorum p :: ls)) with (p :: quorums ls). rewrite !occ_cons, IH.
    f_equal. destruct (decide (p = q)) as [->|Hne]; [by rewrite decide_True|]. rewrite decide_False; [done|congruence].
Qed.

Lemma quorums_perm ls ls' : ls ≡ₚ ls' → quorums ls ≡ₚ quorums ls'.
Proof. unfold quorums. by intros ->. Qed.

Lemma fired_set w e b b' x :
  bodies w !! e = Some b → ef_triggered b = true → ef_triggered b' = true → fired w x → fired (set_body w e b') x.
Proof.
  intros Hb Ht Ht' (c & Hc & Hct). destruct (decide (x = e)) as [->|Hne].
  - exists b'. cbn. by rewrite lookup_insert_eq.
  - exists c. cbn. by rewrite lookup_insert_ne.
Qed.

(** A state is not less triggered than another one. *)
Lemma fired_mono w e b' x :
  (∀ b, bodies w !! e = Some b → ef_triggered b = true → ef_triggered b' = true) →
  fired w x → fired (set_body w e b') x.
Proof.
  intros H (c & Hc & Hct). destruct (decide (x = e)) as [->|Hne].
  - exists b'. cbn. rewrite lookup_insert_eq. split; [done|]. by eapply H.
  - exists c. cbn. by rewrite lookup_insert_ne.
Qed.

Section Updates.
Context (rank : nat → nat).
Notation wf := (wf rank).

Lemma wf_exists X P B w e : wf (inc e X) P B w → ∃ b, bodies w !! e = Some b.
Proof.
  intros H. destruct (bodies w !! e) as [b|] eqn:Hb; [by exists b|].
  destruct (wf_live _ _ _ _ _ H e Hb) as [H1 _]. unfold inc in H1. by rewrite decide_True in H1.
Qed.

(** Handles are counted extensionally. *)
Lemma wf_same_held X X' P B w : (∀ e, X e = X' e) → wf X P B w → wf X' P B w.
Proof.
  intros HX [H1 H2 H3 H4 H5 H6 H7 H8 H9 H10]. split; try done.
  - intros e b Hb. rewrite <-HX. by apply H1.
  - intros e He. rewrite <-HX. by apply H2.
Qed.

Lemma wf_more_busy X P B B' w : B ⊆ B' → wf X P B w → wf X P B' w.
Proof.
  intros HB [H1 H2 H3 H4 H5 H6 H7 H8 H9 H10]. split; try done.
  - intros q b qb Hq. apply H9. set_solver.
  - intros q b Hq. apply H10. set_solver.
Qed.

(** A quorum in the middle of an operation is in order again. *)
Lemma wf_less_busy X P B w q b :
  wf X P ({[q]} ∪ B) w → bodies w !! q = Some b →
  (∀ qb, quorum_part b = Some qb → ef_empty_members qb = bool_decide (members_ qb = []) ∧
     if ef_triggered b then ∀ m, m ∈ members_ qb → fired w m else (triggered_ qb < quorum_ qb)%nat) →
  (refcount_ b = O → ∃ qb, quorum_part b = Some qb ∧ members_ qb ≠ [] ∧ ∀ m, m ∈ members_ qb → fired w m) →
  wf X P B w.
Proof.
  intros [H1 H2 H3 H4 H5 H6 H7 H8 H9 H10] Hb Hq Hz. split; try done.
  - intros x c qb Hx Hc Hqb. destruct (decide (x = q)) as [->|Hne].
    + rewrite Hb in Hc. injection Hc as <-. by apply Hq.
    + apply (H9 x c qb); [set_solver|done..].
  - intros x c Hx Hc H0. destruct (decide (x = q)) as [->|Hne].
    + rewrite Hb in Hc. injection Hc as <-. by apply Hz.
    + apply (H10 x c); [set_solver|done..].
Qed.

(** A body replaced by one with the same listeners and members; a busy quorum
    may change its counts and flags. *)
Lemma wf_replace X X' P B w e b b' :
  wf X P B w → bodies w !! e = Some b →
  listeners_ b' = listeners_ b → ef_empty b' = ef_empty b → ef_triggered b' = ef_triggered b →
  members_of b' = members_of b →
  (∀ qb, quorum_part b' = Some qb → ef_empty_members qb = true → members_ qb = []) →
  (e ∉ B → quorum_part b' = quorum_part b) →
  (∀ x, x ≠ e → X' x = X x) →
  refcount_ b' = (X' e + queued w e + length (quorums (listeners_ b)) + occ e (fst <$> P))%nat →
  (e ∉ B → refcount_ b' = O → refcount_ b = O) →
  wf X' P B (set_body w e b').
Proof.
  intros [H1 H2 H3 H4 H5 H6 H7 H8 H9 H10] Hb Hl He Ht Hq Hfl HqB HX Hr Hz.
  assert (Hf : ∀ x, fired w x → fired (set_body w e b') x).
  { intros x. apply fired_mono. intros c Hc. rewrite Hb in Hc. injection Hc as <-. by rewrite Ht. }
  assert (Hlk : ∀ x c, bodies (set_body w e b') !! x = Some c →
     ∃ c0, bodies w !! x = Some c0 ∧ listeners_ c = listeners_ c0 ∧ ef_empty c = ef_empty c0 ∧
           ef_triggered c = ef_triggered c0 ∧ (x = e ∧ c = b' ∧ c0 = b ∨ x ≠ e ∧ c = c0)).
  { intros x c. cbn. destruct (decide (x = e)) as [->|Hne].
    - rewrite lookup_insert_eq. intros [= <-]. exists b. repeat split; try done. by left.
    - rewrite lookup_insert_ne by done. intros Hc. exists c. repeat split; try done. by right. }
  split.
  - intros x c Hc. destruct (Hlk x c Hc) as (c0 & Hc0 & E1 & E2 & E3 & [(-> & -> & ->)|[Hne ->]]).
    + by rewrite Hl.
    + rewrite HX by done. by apply H1.
  - intros x Hx. cbn in Hx. destruct (decide (x = e)) as [->|Hne]; [by rewrite lookup_insert_eq in Hx|].
    rewrite lookup_insert_ne in Hx by done. rewrite HX by done. by apply H2.
  - intros x q. rewrite lst_set, mem_set. rewrite Hl, Hq.
    assert (E1 : (if decide (x = e) then quorums (listeners_ b) else lst w x) = lst w x).
    { destruct (decide (x = e)) as [->|]; [|done]. by rewrite (lst_eq w e b Hb). }
    rewrite E1, H3. destruct (decide (q = e)) as [->|]; [|done]. by rewrite (mem_eq w e b Hb).
  - intros x c Hc. destruct (Hlk x c Hc) as (c0 & Hc0 & E1 & E2 & _). rewrite E1, E2. by apply (H4 x).
  - intros x c Hc Hct. destruct (Hlk x c Hc) as (c0 & Hc0 & E1 & E2 & E3 & _). rewrite E1. apply (H5 x); congruence.
  - intros x q Hx. by apply Hf, (H6 x q).
  - intros q x. rewrite mem_set, Hq. destruct (decide (q = e)) as [->|]; [|by apply H7].
    intros Hx. apply H7. by rewrite (mem_eq w e b Hb).
  - intros q c qb Hc Hqb. destruct (Hlk q c Hc) as (c0 & Hc0 & E1 & E2 & E3 & [(-> & -> & ->)|[Hne ->]]); [by apply Hfl|].
    by apply (H8 q c0).
  - intros q c qb Hn Hc Hqb. destruct (Hlk q c Hc) as (c0 & Hc0 & E1 & E2 & E3 & Hcase). rewrite E3.
    assert (Hqb0 : quorum_part c0 = Some qb).
    { destruct Hcase as [(-> & -> & ->)|[Hne ->]]; [|done]. by rewrite <-HqB. }
    destruct (H9 q c0 qb Hn Hc0 Hqb0) as [A1 A2]. split; [done|].
    destruct (ef_triggered c0); [|done]. intros m Hm. by apply Hf, A2.
  - intros q c Hn Hc H0. destruct (Hlk q c Hc) as (c0 & Hc0 & E1 & E2 & E3 & Hcase).
    destruct (H10 q c0 Hn Hc0) as (qb & A1 & A2 & A3).
    { destruct Hcase as [(-> & -> & ->)|[_ ->]]; [|done]. by apply Hz. }
    exists qb. split; [destruct Hcase as [(-> & -> & ->)|[Hne ->]]; [by rewrite HqB|done]|].
    split; [done|]. intros m Hm. by apply Hf, A3.
Qed.

(** A handle goes away and others remain. *)
Lemma wf_deref X P B w e b :
  wf (inc e X) P B w → bodies w !! e = Some b → refcount_ b ≠ 1%nat ∨ e ∈ B →
  wf X P B (set_body w e (with_refcount b (refcount_ b - 1))).
Proof.
  intros H Hb H1. pose proof (wf_ref _ _ _ _ _ H e b Hb) as Hr. unfold inc in Hr. rewrite decide_True in Hr by done.
  eapply wf_replace; [exact H|exact Hb|done..|intros qb; apply (wf_flag _ _ _ _ _ H e b qb Hb)|done| | |].
  - intros x Hx. unfold inc. by rewrite decide_False.
  - cbn. lia.
  - cbn. intros Hn H0. destruct H1 as [H1|H1]; [lia|done].
Qed.

Lemma wf_incref X P B w e b n :
  wf X P B w → bodies w !! e = Some b →
  wf (λ x, if decide (x = e) then X x + n else X x)%nat P B (set_body w e (with_refcount b (refcount_ b + n))).
Proof.
  intros H Hb. pose proof (wf_ref _ _ _ _ _ H e b Hb) as Hr.
  eapply wf_replace; [exact H|exact Hb|done..|intros qb; apply (wf_flag _ _ _ _ _ H e b qb Hb)|done| | |].
  - intros x Hx. by rewrite decide_False.
  - cbn. rewrite decide_True by done. lia.
  - cbn. lia.
Qed.

(** The last handle goes away from a body without members. *)
Lemma wf_delete X P B B' w e b :
  wf X P B w → bodies w !! e = Some b → refcount_ b = O → members_of b = [] → B ⊆ {[e]} ∪ B' →
  wf X P B' (delete_body w e).
Proof.
  intros [H1 H2 H3 H4 H5 H6 H7 H8 H9 H10] Hb H0 Hm HB.
  pose proof (H1 e b Hb) as Hr. rewrite H0 in Hr.
  assert (Hlst : lst w e = []) by (rewrite (lst_eq w e b Hb); apply nil_length_inv; lia).
  assert (Hmem : mem w e = []) by (by rewrite (mem_eq w e b Hb)).
  assert (Hpe : ∀ q, (e, q) ∉ P).
  { intros q Hq. assert (Hz : occ e (fst <$> P) = O) by lia. apply occ_zero in Hz. apply Hz.
    apply list_elem_of_fmap. by exists (e, q). }
  assert (Hf : ∀ x, x ≠ e → fired w x → fired (delete_body w e) x).
  { intros x Hx (c & Hc & Hct). exists c. cbn. by rewrite lookup_delete_ne. }
  assert (Hnm : ∀ q, e ∉ mem w q).
  { intros q. rewrite <-occ_zero, <-H3, Hlst. cbn. by apply occ_zero. }
  assert (Hlk : ∀ x c, bodies (delete_body w e) !! x = Some c → x ≠ e ∧ bodies w !! x = Some c).
  { intros x c. cbn. destruct (decide (x = e)) as [->|Hne]; [by rewrite lookup_delete_eq|by rewrite lookup_delete_ne]. }
  assert (Hl' : ∀ x, lst (delete_body w e) x = lst w x).
  { intros x. unfold lst at 1. cbn. destruct (decide (x = e)) as [->|Hne]; [by rewrite lookup_delete_eq|by rewrite lookup_delete_ne]. }
  assert (Hm' : ∀ x, mem (delete_body w e) x = mem w x).
  { intros x. unfold mem at 1. cbn. destruct (decide (x = e)) as [->|Hne]; [by rewrite lookup_delete_eq|by rewrite lookup_delete_ne]. }
  assert (Hmf : ∀ q c qb m, bodies w !! q = Some c → quorum_part c = Some qb → m ∈ members_ qb → m ≠ e).
  { intros q c qb m Hc Hqb Hin ->. apply (Hnm q). rewrite (mem_eq w q c Hc). unfold members_of. by rewrite Hqb. }
  split.
  - intros x c [Hne Hc]%Hlk. by apply H1.
  - intros x Hx. cbn in Hx. destruct (decide (x = e)) as [->|Hne]; [change (queued (delete_body w e) e) with (queued w e); lia|].
    rewrite lookup_delete_ne in Hx by done. by apply H2.
  - intros x q. rewrite Hl', Hm'. apply H3.
  - intros x c [Hne Hc]%Hlk. by apply (H4 x).
  - intros x c [Hne Hc]%Hlk. by apply (H5 x).
  - intros x q Hx. apply Hf; [|by apply (H6 x q)]. intros ->. by apply (Hpe q).
  - intros q x. rewrite Hm'. apply H7.
  - intros q c qb [Hne Hc]%Hlk. by apply (H8 q).
  - intros q c qb Hn [Hne Hc]%Hlk Hqb. destruct (H9 q c qb) as [A1 A2]; [set_solver|done..|]. split; [done|].
    destruct (ef_triggered c); [|done]. intros m Hin. apply Hf; [by eapply Hmf|by apply A2].
  - intros q c Hn [Hne Hc]%Hlk Hc0. destruct (H10 q c) as (qb & A1 & A2 & A3); [set_solver|done..|].
    exists qb. split; [done|]. split; [done|]. intros m Hin. apply Hf; [by eapply Hmf|by apply A3].
Qed.
End Updates.

(** * Destruction *)

(** What destroying handles leaves alone: the bodies in [keep], every trigger
    flag, the queues of the drivers; no body appears. *)
Record frame (keep : nat → Prop) (w w' : world) : Prop := {
  fr_keep : ∀ x, keep x → bodies w' !! x = bodies w !! x;
  fr_shrink : ∀ x b', bodies w' !! x = Some b' → ∃ b, bodies w !! x = Some b ∧ ef_triggered b' = ef_triggered b;
  fr_asap : asap_ w' = asap_ w;
  fr_migrated : migrated w' = migrated w;
  fr_next : next_event w' = next_event w
}.

Lemma frame_refl keep w : frame keep w w.
Proof. split; try done. intros x b' H. by exists b'. Qed.

Lemma frame_trans keep keep' w1 w2 w3 :
  frame keep w1 w2 → frame keep' w2 w3 → frame (λ x, keep x ∧ keep' x) w1 w3.
Proof.
  intros [F1 F2 F3 F4 F5] [G1 G2 G3 G4 G5]. split; try congruence.
  - intros x [Hx Hx']. by rewrite G1, F1.
  - intros x b' H. destruct (G2 x b' H) as (b1 & H1 & E1). destruct (F2 x b1 H1) as (b & H2 & E2).
    exists b. split; [done|congruence].
Qed.

Lemma frame_weaken (keep keep' : nat → Prop) w w' : (∀ x, keep' x → keep x) → frame keep w w' → frame keep' w w'.
Proof. intros H [F1 F2 F3 F4 F5]. split; auto. Qed.

Lemma frame_set_body (keep : nat → Prop) w e b b' :
  bodies w !! e = Some b → ef_triggered b' = ef_triggered b → ¬ keep e → frame keep w (set_body w e b').
Proof.
  intros Hb Ht Hk. split; try done.
  - intros x Hx. cbn. rewrite lookup_insert_ne; [done|]. by intros ->.
  - intros x c. cbn. destruct (decide (x = e)) as [->|Hne].
    + rewrite lookup_insert_eq. intros [= <-]. by exists b.
    + rewrite lookup_insert_ne by done. intros Hc. by exists c.
Qed.

Lemma frame_delete_body (keep : nat → Prop) w e : ¬ keep e → frame keep w (delete_body w e).
Proof.
  intros Hk. split; try done.
  - intros x Hx. cbn. rewrite lookup_delete_ne; [done|]. by intros ->.
  - intros x c. cbn. destruct (decide (x = e)) as [->|Hne].
    + by rewrite lookup_delete_eq.
    + rewrite lookup_delete_ne by done. intros Hc. by exists c.
Qed.

Section Drop.
Context (rank : nat → nat) (home : nat → nat) (current : nat).
Notation wf := (wf rank).

Lemma fired_pending X P B w q m : wf X P B w → m ∈ mem w q → fired w m → (m, q) ∈ P.
Proof.
  intros H Hm (b & Hb & Ht). pose proof (wf_edges _ _ _ _ _ H m q) as He.
  rewrite (lst_eq w m b Hb), (wf_fired _ _ _ _ _ H m b Hb Ht) in He.
  apply occ_pos. apply occ_pos in Hm. cbn in He. lia.
Qed.

Lemma member_exists X P B w q m : wf X P B w → m ∈ mem w q → ∃ b, bodies w !! m = Some b.
Proof.
  intros H Hm. pose proof (wf_edges _ _ _ _ _ H m q) as He. apply occ_pos in Hm.
  destruct (bodies w !! m) as [b|] eqn:Hb; [by exists b|].
  unfold lst in He. rewrite Hb in He. cbn in He.
  assert (Hp : (m, q) ∈ P) by (apply occ_pos; lia).
  destruct (wf_pend _ _ _ _ _ H m q Hp) as (b & Hb' & _). congruence.
Qed.

Lemma member_lists X P B w q m b :
  wf X P B w → m ∈ mem w q → bodies w !! m = Some b → ef_triggered b = false → L_quorum q ∈ listeners_ b.
Proof.
  intros H Hm Hb Ht. pose proof (wf_edges _ _ _ _ _ H m q) as He. apply occ_pos in Hm.
  rewrite (lst_eq w m b Hb) in He. apply occ_pos. rewrite occ_quorums.
  destruct (decide (0 < occ (m, q) P)%nat) as [Hp|Hp]; [|lia].
  apply occ_pos in Hp. destruct (wf_pend _ _ _ _ _ H m q Hp) as (c & Hc & Hct). congruence.
Qed.

(** One turn of [cull_members]: the member's listener entry and the membership
    go away together; the handle that was the membership is left over. *)
Lemma wf_unlink X P B w e b q i m mb k :
  wf X P B w → e ∈ B → bodies w !! e = Some b → quorum_part b = Some q → members_ q !! i = Some m →
  bodies w !! m = Some mb → index_in (L_quorum e) (listeners_ mb) = Some k → ef_empty_members q = false →
  let ls := swap_remove k (listeners_ mb) in
  let w1 := set_body w m (with_listeners mb ls (ef_empty mb || bool_decide (ls = []))) in
  wf (inc m X) P B (set_body w1 e (with_quorum b (QuorumBody (ef_empty_members q) (ef_interest q)
                                     (swap_remove i (members_ q)) (triggered_ q) (quorum_ q)))).
Proof.
  intros H HB Hb Hq Hi Hmb Hk Hfl ls w1.
  pose proof (remove_listener_perm mb (L_quorum e) k Hk) as Hp. fold ls in Hp.
  pose proof (swap_remove_perm i (members_ q) m Hi) as Hpm.
  assert (Hin : m ∈ mem w e).
  { rewrite (mem_eq w e b Hb). unfold members_of. rewrite Hq. by eapply list_elem_of_lookup_2. }
  assert (Hne : m ≠ e) by (intros ->; pose proof (wf_rank _ _ _ _ _ H e e Hin); lia).
  set (ms := swap_remove i (members_ q)) in *.
  set (mb' := with_listeners mb ls _) in w1. set (b' := with_quorum b _). set (w2 := set_body w1 e b').
  assert (Hqs : quorums (listeners_ mb) ≡ₚ e :: quorums ls) by (by rewrite (quorums_perm _ _ Hp)).
  assert (Hlk : ∀ x c, bodies w2 !! x = Some c →
    ∃ c0, bodies w !! x = Some c0 ∧ ef_triggered c = ef_triggered c0 ∧
      ((x = m ∧ c = mb' ∧ c0 = mb) ∨ (x = e ∧ c = b' ∧ c0 = b) ∨ (x ≠ m ∧ x ≠ e ∧ c = c0))).
  { intros x c. unfold w2, w1. cbn. destruct (decide (x = e)) as [->|Hxe].
    - rewrite lookup_insert_eq. intros [= <-]. exists b. split; [done|]. split; [done|]. right. by left.
    - rewrite lookup_insert_ne by done. destruct (decide (x = m)) as [->|Hxm].
      + rewrite lookup_insert_eq. intros [= <-]. exists mb. split; [done|]. split; [done|]. by left.
      + rewrite lookup_insert_ne by done. intros Hc. exists c. split; [done|]. split; [done|]. right. by right. }
  assert (Hno : ∀ x, bodies w2 !! x = None → bodies w !! x = None ∧ x ≠ m).
  { intros x. unfold w2, w1. cbn. destruct (decide (x = e)) as [->|Hxe]; [by rewrite lookup_insert_eq|].
    rewrite lookup_insert_ne by done. destruct (decide (x = m)) as [->|Hxm]; [by rewrite lookup_insert_eq|].
    by rewrite lookup_insert_ne. }
  assert (Hlst : ∀ x, lst w2 x = if decide (x = m) then quorums ls else lst w x).
  { intros x. unfold w2. rewrite lst_set. destruct (decide (x = e)) as [->|Hxe].
    - rewrite decide_False by congruence. by rewrite (lst_eq w e b Hb).
    - unfold w1. by rewrite lst_set. }
  assert (Hmem : ∀ x, mem w2 x = if decide (x = e) then ms else mem w x).
  { intros x. unfold w2. rewrite mem_set. destruct (decide (x = e)) as [->|Hxe]; [done|].
    unfold w1. rewrite mem_set. destruct (decide (x = m)) as [->|]; [|done]. by rewrite (mem_eq w m mb Hmb). }
  assert (Hf : ∀ x, fired w x → fired w2 x).
  { intros x (c & Hc & Hct). unfold fired, w2, w1. cbn. destruct (decide (x = e)) as [->|Hxe].
    - exists b'. rewrite lookup_insert_eq. split; [done|]. cbn. congruence.
    - rewrite lookup_insert_ne by done. destruct (decide (x = m)) as [->|Hxm].
      + exists mb'. rewrite lookup_insert_eq. split; [done|]. cbn. congruence.
      + exists c. by rewrite lookup_insert_ne. }
  assert (Hmw : members_of b = members_ q) by (unfold members_of; by rewrite Hq).
  destruct H as [H1 H2 H3 H4 H5 H6 H7 H8 H9 H10]. split.
  - intros x c Hc. change (queued w2 x) with (queued w x). destruct (Hlk x c Hc) as (c0 & Hc0 & _ & Hcase).
    specialize (H1 x c0 Hc0). unfold inc. destruct Hcase as [(-> & -> & ->)|[(-> & -> & ->)|(Hx1 & Hx2 & ->)]].
    + rewrite decide_True by done. apply Permutation_length in Hqs. cbn in Hqs |- *. lia.
    + rewrite decide_False by congruence. cbn. lia.
    + by rewrite decide_False.
  - intros x Hx. apply Hno in Hx as [Hx Hxm]. unfold inc. rewrite decide_False by done. by apply H2.
  - intros x y. rewrite Hlst, Hmem. specialize (H3 x y). destruct (decide (x = m)) as [->|Hx].
    + rewrite (lst_eq w m mb Hmb), (occ_perm _ _ _ Hqs), occ_cons in H3. destruct (decide (y = e)) as [->|Hy].
      * rewrite decide_True in H3 by done. rewrite (mem_eq w e b Hb), Hmw, (occ_perm _ _ _ Hpm), occ_cons in H3.
        rewrite decide_True in H3 by done. lia.
      * rewrite decide_False in H3 by congruence. lia.
    + destruct (decide (y = e)) as [->|Hy]; [|done].
      rewrite (mem_eq w e b Hb), Hmw, (occ_perm _ _ _ Hpm), occ_cons, decide_False in H3 by congruence. lia.
  - intros x c Hc. destruct (Hlk x c Hc) as (c0 & Hc0 & _ & Hcase). specialize (H4 x c0 Hc0).
    destruct Hcase as [(-> & -> & ->)|[(-> & -> & ->)|(Hx1 & Hx2 & ->)]]; [|done..].
    cbn. rewrite H4. destruct (decide (listeners_ mb = [])) as [E|E].
    + rewrite E in Hp. by apply Permutation_nil_cons in Hp.
    + by rewrite (bool_decide_eq_false_2 _ E).
  - intros x c Hc Hct. destruct (Hlk x c Hc) as (c0 & Hc0 & E & Hcase). rewrite E in Hct. specialize (H5 x c0 Hc0 Hct).
    destruct Hcase as [(-> & -> & ->)|[(-> & -> & ->)|(Hx1 & Hx2 & ->)]]; [|done..].
    rewrite H5 in Hqs. by apply Permutation_nil_cons in Hqs.
  - intros x y Hx. by apply Hf, (H6 x y).
  - intros y x. rewrite Hmem. destruct (decide (y = e)) as [->|]; [|by apply H7]. intros Hx. apply H7.
    rewrite (mem_eq w e b Hb), Hmw, Hpm. by right.
  - intros y c qb Hc Hqb Hfl'. destruct (Hlk y c Hc) as (c0 & Hc0 & _ & Hcase).
    destruct Hcase as [(-> & -> & ->)|[(-> & -> & ->)|(Hx1 & Hx2 & ->)]]; [by apply (H8 m mb)| |by apply (H8 y c0)].
    cbn in Hqb. injection Hqb as <-. cbn in Hfl'. congruence.
  - intros y c qb Hn Hc Hqb. destruct (Hlk y c Hc) as (c0 & Hc0 & E & Hcase).
    destruct Hcase as [(-> & -> & ->)|[(-> & -> & ->)|(Hx1 & Hx2 & ->)]]; [|done|].
    + destruct (H9 m mb qb Hn Hmb Hqb) as [A1 A2]. split; [done|]. cbn. destruct (ef_triggered mb); [|done].
      intros x Hx. by apply Hf, A2.
    + destruct (H9 y c0 qb Hn Hc0 Hqb) as [A1 A2]. split; [done|]. destruct (ef_triggered c0); [|done].
      intros x Hx. by apply Hf, A2.
  - intros y c Hn Hc H0. destruct (Hlk y c Hc) as (c0 & Hc0 & E & Hcase).
    destruct (H10 y c0 Hn Hc0) as (qb & A1 & A2 & A3).
    { by destruct Hcase as [(-> & -> & ->)|[(-> & -> & ->)|(Hx1 & Hx2 & ->)]]. }
    exists qb. destruct Hcase as [(-> & -> & ->)|[(-> & -> & ->)|(Hx1 & Hx2 & ->)]]; [|done|];
      (split; [done|]; split; [done|]; intros x Hx; by apply Hf, A3).
Qed.

(** What [drop_handle] does to an event below rank [r]. *)
Definition drop_ok (r : nat) : Prop := ∀ w e X P B,
  (rank e < r)%nat → wf (inc e X) P B w → (∀ b, b ∈ B → (rank e < rank b)%nat) →
  ∃ w', enough (λ n, drop_handle home current n w e) w' ∧ wf X P B w' ∧ frame (λ x, (rank e < rank x)%nat) w w'.

(** [cull_members] keeps the triggered members only, and sets the flag. *)
Lemma cull_spec X P B e : drop_ok (rank e) → e ∈ B → (∀ b, b ∈ B → b = e ∨ (rank e < rank b)%nat) →
  ∀ k w i b q, bodies w !! e = Some b → quorum_part b = Some q → (length (members_ q) - i ≤ k)%nat → wf X P B w →
  (∀ j m, (j < i)%nat → members_ q !! j = Some m → fired w m) →
  ∃ w' q', enough (λ n, cull_members home current n w e i) w' ∧ wf X P B w' ∧
    frame (λ x, (rank e ≤ rank x)%nat ∧ x ≠ e) w w' ∧ bodies w' !! e = Some (with_quorum b q') ∧
    triggered_ q' = triggered_ q ∧ quorum_ q' = quorum_ q ∧ ef_interest q' = ef_interest q ∧
    ef_empty_members q' = bool_decide (members_ q' = []) ∧ (∀ m, m ∈ members_ q' → fired w' m).
Proof.
  intros Hdrop HeB HB k. induction k as [k IH] using lt_wf_ind. intros w i b q Hb Hq Hk H Hfst.
  destruct (members_ q !! i) as [m|] eqn:Hi.
  2:{ set (q' := QuorumBody (ef_empty_members q || bool_decide (members_ q = [])) (ef_interest q) (members_ q)
                   (triggered_ q) (quorum_ q)).
      assert (Hfl : ef_empty_members q' = bool_decide (members_ q' = [])).
      { cbn. destruct (ef_empty_members q) eqn:E; [|done]. rewrite (wf_flag _ _ _ _ _ H e b q Hb Hq E). done. }
      exists (set_body w e (with_quorum b q')), q'. split.
      { apply enough_S, enough_ret. intros n. cbn [cull_members]. rewrite Hb. cbn [mbind option_bind]. rewrite Hq.
        cbn [mbind option_bind]. by rewrite Hi. }
      split.
      { eapply wf_replace; [exact H|exact Hb|done..| | | |done| |].
        - unfold members_of. cbn. by rewrite Hq.
        - intros qb [= <-] E. rewrite Hfl in E. by apply bool_decide_eq_true in E.
        - intros Hn. set_solver.
        - cbn. by apply (wf_ref _ _ _ _ _ H).
        - cbn. set_solver. }
      split; [apply (frame_set_body _ _ _ b); [done..|by intros []]|].
      split; [cbn; apply lookup_insert_eq|]. repeat (split; [done|]).
      intros m Hm. cbn in Hm. apply list_elem_of_lookup in Hm as [j Hj].
      eapply fired_mono; [|apply (Hfst j m); [|exact Hj]].
      - intros c Hc. rewrite Hb in Hc. injection Hc as <-. done.
      - apply lookup_lt_Some in Hj. apply lookup_ge_None in Hi. lia. }
  assert (Hin : m ∈ mem w e).
  { rewrite (mem_eq w e b Hb). unfold members_of. rewrite Hq. by eapply list_elem_of_lookup_2. }
  pose proof (wf_rank _ _ _ _ _ H e m Hin) as Hrk.
  destruct (member_exists _ _ _ _ _ _ H Hin) as (mb & Hmb).
  pose proof (lookup_lt_Some _ _ _ Hi) as Hlt.
  destruct (ef_triggered mb) eqn:Ht.
  - (* the member is triggering: skip it *)
    destruct (IH (k - 1)%nat ltac:(lia) w (S i) b q Hb Hq) as (w' & q' & R1 & R); [lia|done| |].
    { intros j x Hj Hx. destruct (decide (j = i)) as [->|Hne]; [|apply (Hfst j x); [lia|done]].
      rewrite Hi in Hx. injection Hx as <-. by exists mb. }
    exists w', q'. split; [|exact R]. apply enough_S. eapply enough_ext; [|exact R1].
    intros n. cbn [cull_members]. rewrite Hb. cbn [mbind option_bind]. rewrite Hq. cbn [mbind option_bind].
    rewrite Hi, Hmb. cbn [mbind option_bind]. by rewrite Ht.
  - (* unlink it *)
    pose proof (member_lists _ _ _ _ _ _ _ H Hin Hmb Ht) as Hlm.
    destruct (index_in (L_quorum e) (listeners_ mb)) as [kk|] eqn:Hkk; [|by apply index_in_None in Hkk].
    assert (Hfl : ef_empty_members q = false).
    { destruct (ef_empty_members q) eqn:E; [|done]. rewrite (wf_flag _ _ _ _ _ H e b q Hb Hq E) in Hi. done. }
    pose proof (wf_unlink X P B w e b q i m mb kk H HeB Hb Hq Hi Hmb Hkk Hfl) as H2. cbv zeta in H2.
    assert (Hme : m ≠ e) by (intros ->; lia).
    set (ls := swap_remove kk (listeners_ mb)) in *.
    set (w1 := set_body w m (with_listeners mb ls (ef_empty mb || bool_decide (ls = [])))) in *.
    set (ms := swap_remove i (members_ q)) in *.
    set (q1 := QuorumBody (ef_empty_members q) (ef_interest q) ms (triggered_ q) (quorum_ q)) in *.
    set (w2 := set_body w1 e (with_quorum b q1)) in *.
    destruct (Hdrop w2 m X P B Hrk H2) as (w3 & D1 & D2 & D3).
    { intros c Hc. destruct (HB c Hc) as [->|?]; [done|lia]. }
    assert (Hb3 : bodies w3 !! e = Some (with_quorum b q1)).
    { rewrite (fr_keep _ _ _ D3 e) by done. cbn. apply lookup_insert_eq. }
    assert (Hfr : frame (λ x, (rank e ≤ rank x)%nat ∧ x ≠ e) w w3).
    { assert (F1 : frame (λ x, x ≠ m) w w1) by (apply (frame_set_body _ _ _ mb); [done..|]; by intros []).
      assert (F2 : frame (λ x, x ≠ e) w1 w2).
      { apply (frame_set_body _ _ _ b); [cbn; by rewrite lookup_insert_ne|done|]. by intros []. }
      eapply frame_weaken; [|exact (frame_trans _ _ _ _ _ F1 (frame_trans _ _ _ _ _ F2 D3))].
      intros x [Hx1 Hx2]. split; [intros ->; lia|]. split; [done|lia]. }
    assert (Hpm := swap_remove_perm i (members_ q) m Hi). fold ms in Hpm.
    destruct (IH (k - 1)%nat ltac:(lia) w3 i (with_quorum b q1) q1 Hb3 eq_refl) as (w' & q' & R1 & R2 & R3 & R4 & R5); [|done| |].
    { cbn. apply Permutation_length in Hpm. cbn in Hpm. lia. }
    { intros j x Hj Hx. cbn in Hx.
      assert (Hxm : x ∈ ms) by (by eapply list_elem_of_lookup_2).
      assert (Hfx : fired w x).
      { apply (Hfst j x Hj). unfold ms, swap_remove in Hx. destruct (last (members_ q)) as [y|] eqn:Ey; [|done].
        rewrite lookup_take_Some in Hx. destruct Hx as [Hx _]. by rewrite list_lookup_insert_ne in Hx by lia. }
      assert (Hp : (x, e) ∈ P).
      { apply (fired_pending _ _ _ _ _ _ H); [|done]. rewrite (mem_eq w e b Hb). unfold members_of. rewrite Hq, Hpm. by right. }
      by apply (wf_pend _ _ _ _ _ D2 x e). }
    exists w', q'. split; [|split; [done|split; [|split; [exact R4|exact R5]]]].
    + apply enough_S. eapply enough_ext; [|exact (enough_bind _ (λ n v, cull_members home current n v e i) _ _ D1 R1)].
      intros n. cbn [cull_members]. rewrite Hb. cbn [mbind option_bind]. rewrite Hq. cbn [mbind option_bind].
      rewrite Hi, Hmb. cbn [mbind option_bind]. rewrite Ht. unfold remove_listener. rewrite Hmb. cbn [mbind option_bind].
      rewrite Hkk. fold ls. fold w1.
      assert (Hb1 : bodies w1 !! e = Some b) by (cbn; by rewrite lookup_insert_ne).
      rewrite Hb1. done.
    + eapply frame_weaken; [|eapply frame_trans; [exact Hfr|exact R3]]. done.
Qed.

Lemma drop_last X P B w e b :
  wf (inc e X) P B w → bodies w !! e = Some b → refcount_ b = 1%nat →
  wf X P ({[e]} ∪ B) (set_body w e (with_refcount b 0)).
Proof.
  intros H Hb H1. pose proof (wf_deref rank X P ({[e]} ∪ B) w e b) as Hd. rewrite H1 in Hd. cbn in Hd. apply Hd.
  - eapply wf_more_busy; [|exact H]. set_solver.
  - done.
  - right. set_solver.
Qed.

Lemma set_delete w e b : delete_body (set_body w e b) e = delete_body w e.
Proof. unfold delete_body, set_body. cbn. by rewrite delete_insert_eq. Qed.

(** The end of [hard_deref], once the members are culled. *)
Lemma hard_deref_end X P B w e b q :
  wf X P ({[e]} ∪ B) w → bodies w !! e = Some b → quorum_part b = Some q → refcount_ b = O →
  ef_empty_members q = bool_decide (members_ q = []) → (∀ m, m ∈ members_ q → fired w m) →
  (ef_triggered b = false → (triggered_ q < quorum_ q)%nat) →
  wf X P B (if ef_empty_members q then delete_body w e else w).
Proof.
  intros H Hb Hq H0 Hfl Hf Ht. destruct (ef_empty_members q) eqn:E.
  - eapply (wf_delete rank X P ({[e]} ∪ B)); [exact H|exact Hb|exact H0| |set_solver].
    unfold members_of. rewrite Hq. symmetry in Hfl. by apply bool_decide_eq_true in Hfl.
  - eapply wf_less_busy; [exact H|exact Hb| |].
    + intros qb Hqb. rewrite Hq in Hqb. injection Hqb as <-. rewrite E. split; [done|].
      destruct (ef_triggered b); [done|by apply Ht].
    + intros _. exists q. split; [done|]. split; [|done]. symmetry in Hfl. by apply bool_decide_eq_false in Hfl.
Qed.

Lemma hard_deref_spec X P B w e b q :
  drop_ok (rank e) → wf (inc e X) P B w → (∀ c, c ∈ B → (rank e < rank c)%nat) →
  bodies w !! e = Some b → quorum_part b = Some q → ef_empty_members q = false →
  ∃ w', enough (λ n, hard_deref home current n w e) w' ∧ wf X P B w' ∧ frame (λ x, (rank e < rank x)%nat) w w'.
Proof.
  intros Hdrop H HB Hb Hq Hfl.
  assert (HeB : e ∉ B) by (intros Hin; specialize (HB e Hin); lia).
  assert (Hfr : ∀ b', ef_triggered b' = ef_triggered b → frame (λ x, (rank e < rank x)%nat) w (set_body w e b')).
  { intros b' Hb'. apply (frame_set_body _ _ _ b); [done..|lia]. }
  destruct (decide (refcount_ b = 1%nat)) as [H1|H1].
  2:{ exists (set_body w e (with_refcount b (refcount_ b - 1))). split; [|split].
      - apply enough_S, enough_ret. intros n. cbn [hard_deref]. rewrite Hb. cbn [mbind option_bind].
        by rewrite (proj2 (Nat.eqb_neq _ _) H1).
      - eapply wf_deref; [exact H|exact Hb|by left].
      - by apply Hfr. }
  pose proof (drop_last X P B w e b H Hb H1) as H2.
  set (b0 := with_refcount b 0) in *. set (w1 := set_body w e b0) in *.
  assert (Hb1 : bodies w1 !! e = Some b0) by apply lookup_insert_eq.
  assert (Hq1 : quorum_part b0 = Some q) by done.
  destruct (wf_quorum _ _ _ _ _ H e b q HeB Hb Hq) as [A1 A2].
  assert (Hunf : ∀ n, hard_deref home current (S n) w e
     = (w2 ← (if negb (ef_triggered b) then cull_members home current n w1 e 0 else Some w1);
        b2 ← bodies w2 !! e; q2 ← quorum_part b2; Some (if ef_empty_members q2 then delete_body w2 e else w2))).
  { intros n. cbn [hard_deref]. rewrite Hb. cbn [mbind option_bind]. rewrite H1. done. }
  destruct (ef_triggered b) eqn:Ht.
  - (* it has triggered: its members have, too *)
    exists (if ef_empty_members q then delete_body w1 e else w1). split; [|split].
    + apply enough_S, enough_ret. intros n. rewrite Hunf. cbn [negb mbind option_bind]. rewrite Hb1.
      cbn [mbind option_bind]. by rewrite Hq1.
    + eapply hard_deref_end; [exact H2|exact Hb1|exact Hq1|done|done| |].
      2:{ intros E. unfold b0 in E. cbn in E. congruence. }
      intros m Hm. eapply fired_mono; [|by apply A2]. intros c Hc. rewrite Hb in Hc. by injection Hc as <-.
    + rewrite Hfl. by apply Hfr.
  - destruct (cull_spec X P ({[e]} ∪ B) e Hdrop) with (k := length (members_ q)) (w := w1) (i := O) (b := b0) (q := q)
      as (w2 & q2 & C1 & C2 & C3 & C4 & C5 & C6 & C7 & C8 & C9); [set_solver| |done|done|lia|exact H2|lia|].
    { intros c Hc. apply elem_of_union in Hc as [Hc|Hc]; [left; set_solver|right; by apply HB]. }
    exists (if ef_empty_members q2 then delete_body w2 e else w2). split; [|split].
    + set (rest := λ v : world, b2 ← bodies v !! e; q2 ← quorum_part b2;
                     Some (if ef_empty_members q2 then delete_body v e else v)).
      assert (E2 : enough (λ _ : nat, rest w2) (if ef_empty_members q2 then delete_body w2 e else w2)).
      { apply enough_ret. intros _. unfold rest. by rewrite C4. }
      apply enough_S. eapply enough_ext; [|exact (enough_bind _ (λ _ v, rest v) _ _ C1 E2)].
      intros n. by rewrite Hunf.
    + eapply hard_deref_end; [exact C2|exact C4|done|done|done|exact C9|].
      intros _. rewrite C5, C6. exact A2.
    + assert (F1 : frame (λ x, (rank e < rank x)%nat) w w2).
      { eapply frame_weaken; [|exact (frame_trans _ _ _ _ _ (Hfr b0 Ht) C3)].
        intros x Hx. cbn. split; [done|]. split; [lia|]. intros ->. lia. }
      destruct (ef_empty_members q2); [|done].
      eapply frame_weaken; [|exact (frame_trans _ _ _ _ _ F1 (frame_delete_body (λ x, x ≠ e) w2 e ltac:(by intros [])))].
      intros x Hx. cbn. split; [done|]. intros ->. lia.
Qed.

Lemma drop_spec r : drop_ok r.
Proof.
  induction r as [|r IH]; intros w e X P B Hr H HB; [lia|].
  destruct (decide (rank e < r)%nat) as [Hlt|Hge]; [by apply IH|].
  assert (Hdrop : drop_ok (rank e)) by (replace (rank e) with r by lia; exact IH).
  destruct (wf_exists rank X P B w e H) as (b & Hb).
  assert (HeB : e ∉ B) by (intros Hin; specialize (HB e Hin); lia).
  assert (Hsoft : members_of b = [] →
    (∀ n, drop_handle home current (S n) w e = if negb (refcount_ b =? 1)%nat
        then Some (set_body w e (with_refcount b (refcount_ b - 1))) else Some (delete_body w e)) →
    ∃ w', enough (λ n, drop_handle home current n w e) w' ∧ wf X P B w' ∧ frame (λ x, (rank e < rank x)%nat) w w').
  { intros Hm Hunf. destruct (Nat.eqb_spec (refcount_ b) 1) as [H1|H1]; cbn [negb] in Hunf.
    - exists (delete_body w e). split; [by apply enough_S, enough_ret|]. split; [|apply frame_delete_body; lia].
      pose proof (drop_last X P B w e b H Hb H1) as H2. rewrite <-(set_delete w e (with_refcount b 0)).
      eapply (wf_delete rank X P ({[e]} ∪ B)); [exact H2|apply lookup_insert_eq|done|exact Hm|set_solver].
    - exists (set_body w e (with_refcount b (refcount_ b - 1))). split; [by apply enough_S, enough_ret|]. split.
      + eapply wf_deref; [exact H|exact Hb|by left].
      + apply (frame_set_body _ _ _ b); [done..|lia]. }
  destruct (quorum_part b) as [q|] eqn:Hq.
  - destruct (ef_empty_members q) eqn:Hfl.
    + apply Hsoft.
      * unfold members_of. rewrite Hq. by apply (wf_flag _ _ _ _ _ H e b q).
      * intros n. cbn [drop_handle]. rewrite Hb. cbn [mbind option_bind]. rewrite Hq, Hfl. done.
    + destruct (hard_deref_spec X P B w e b q Hdrop H HB Hb Hq Hfl) as (w' & D1 & D2).
      exists w'. split; [|exact D2]. apply enough_S. eapply enough_ext; [|exact D1].
      intros n. cbn [drop_handle]. rewrite Hb. cbn [mbind option_bind]. by rewrite Hq, Hfl.
  - apply Hsoft.
    + unfold members_of. by rewrite Hq.
    + intros n. cbn [drop_handle]. rewrite Hb. cbn [mbind option_bind]. by rewrite Hq.
Qed.

(** * Triggering *)

(** Triggering only triggers: no body appears, none is untriggered. *)
Definition tframe (w w' : world) : Prop :=
  (∀ x b', bodies w' !! x = Some b' → ∃ b, bodies w !! x = Some b ∧ (ef_triggered b = true → ef_triggered b' = true)) ∧
  next_event w' = next_event w.

Lemma tframe_refl w : tframe w w.
Proof. split; [|done]. intros x b' H. by exists b'. Qed.
Lemma tframe_trans w1 w2 w3 : tframe w1 w2 → tframe w2 w3 → tframe w1 w3.
Proof.
  intros [F1 N1] [F2 N2]. split; [|congruence]. intros x b' H. destruct (F2 x b' H) as (b2 & H2 & E2).
  destruct (F1 x b2 H2) as (b1 & H1 & E1). exists b1. auto.
Qed.
Lemma tframe_frame keep w w' : frame keep w w' → tframe w w'.
Proof.
  intros [F1 F2 F3 F4 F5]. split; [|done]. intros x b' H. destruct (F2 x b' H) as (b & Hb & E). exists b. split; [done|congruence].
Qed.
Lemma tframe_set w e b b' :
  bodies w !! e = Some b → (ef_triggered b = true → ef_triggered b' = true) → tframe w (set_body w e b').
Proof.
  intros Hb Ht. split; [|done]. intros x c. cbn. destruct (decide (x = e)) as [->|Hne].
  - rewrite lookup_insert_eq. intros [= <-]. by exists b.
  - rewrite lookup_insert_ne by done. intros H. by exists c.
Qed.
Lemma tframe_same w w' : bodies w' = bodies w → next_event w' = next_event w → tframe w w'.
Proof. intros Hb Hn. split; [|done]. rewrite Hb. intros x b' H. by exists b'. Qed.

(** The bodies that have not triggered yet bound the recursion. *)
Definition unfired (w : world) : nat := base.size (filter (λ p, ef_triggered p.2 = false) (bodies w)).

Lemma unfired_mono w w' : tframe w w' → (unfired w' ≤ unfired w)%nat.
Proof.
  intros [F _]. unfold unfired. rewrite <-!(size_dom (D := gset nat)). apply subseteq_size.
  intros x Hx. apply elem_of_dom in Hx as [b' Hb']. apply map_lookup_filter_Some in Hb' as [Hb' Ht].
  destruct (F x b' Hb') as (b & Hb & E). apply elem_of_dom. exists b. apply map_lookup_filter_Some. split; [done|].
  cbn in *. destruct (ef_triggered b); [|done]. by rewrite E in Ht.
Qed.

Lemma unfired_fire w e b b' :
  bodies w !! e = Some b → ef_triggered b = false → ef_triggered b' = true →
  (unfired (set_body w e b') < unfired w)%nat.
Proof.
  intros Hb Ht Ht'. unfold unfired. rewrite <-!(size_dom (D := gset nat)). apply subset_size. split.
  - intros x Hx. apply elem_of_dom in Hx as [c Hc]. apply map_lookup_filter_Some in Hc as [Hc Hct]. cbn in Hc.
    apply elem_of_dom. destruct (decide (x = e)) as [->|Hne]; [rewrite lookup_insert_eq in Hc; cbn in Hct; congruence|].
    rewrite lookup_insert_ne in Hc by done. exists c. by apply map_lookup_filter_Some.
  - intros Hs. assert (Hin : e ∈ dom (filter (λ p, ef_triggered p.2 = false) (bodies (set_body w e b')))).
    { apply Hs. apply elem_of_dom. exists b. by apply map_lookup_filter_Some. }
    apply elem_of_dom in Hin as [c Hc]. apply map_lookup_filter_Some in Hc as [Hc Hct]. cbn in Hc, Hct.
    rewrite lookup_insert_eq in Hc. congruence.
Qed.

(** Sorting takes every quorum out of the listeners. *)
Lemma sort_takes_quorums ls drv s :
  sl_quorums (sort_listeners home ls drv s) = sl_quorums s ++ quorums ls ∧
  quorums (sl_kept (sort_listeners home ls drv s)) = quorums (sl_kept s).
Proof.
  revert s. induction ls as [|[c|q] ls IH]; intros s; cbn [sort_listeners].
  - by rewrite app_nil_r.
  - change (quorums (L_coroutine c :: ls)) with (quorums ls).
    assert (Hs : ∀ k, quorums (k ++ [L_coroutine c]) = quorums k).
    { intros k. unfold quorums. rewrite omap_app. apply app_nil_r. }
    case_bool_decide; [destruct (sl_claimed s)|];
      match goal with |- context [sort_listeners home ls drv ?t] => destruct (IH t) as [E1 E2]; rewrite E1, E2 end;
      cbn; by rewrite ?Hs.
  - match goal with |- context [sort_listeners home ls drv ?t] => destruct (IH t) as [E1 E2]; rewrite E1, E2 end.
    cbn. split; [|done]. by rewrite <-(assoc_L (++)).
Qed.

Lemma occ_one (x e : nat) : occ x [e] = if decide (x = e) then 1%nat else O.
Proof.
  rewrite occ_cons, occ_nil. destruct (decide (x = e)) as [->|Hne]; [by rewrite decide_True|by rewrite decide_False by congruence].
Qed.

Lemma queued_asap w e x : queued (post_asap w e) x = (queued w x + if decide (x = e) then 1 else 0)%nat.
Proof. unfold queued, post_asap. cbn [asap_ migrated]. rewrite occ_app, occ_one. lia. Qed.

Lemma queued_migrate w d e x : queued (post_migrate w d e) x = (queued w x + if decide (x = e) then 1 else 0)%nat.
Proof.
  unfold queued, post_migrate. cbn [asap_ migrated]. rewrite fmap_app, occ_app.
  change (snd <$> [(d, e)]) with [e]. rewrite occ_one. lia.
Qed.

Lemma queued_posts w e me ds x :
  bodies (post_drivers w e me ds) = bodies w ∧ next_event (post_drivers w e me ds) = next_event w ∧
  queued (post_drivers w e me ds) x = (queued w x + if decide (x = e) then length ds else 0)%nat.
Proof.
  revert w. induction ds as [|d ds IH]; intros w; cbn [post_drivers].
  { split; [done|]. split; [done|]. destruct (decide (x = e)); cbn; lia. }
  destruct (IH (if (d =? me)%nat then post_asap w e else post_migrate w d e)) as (E1 & E2 & E3).
  rewrite E1, E2, E3. destruct (d =? me)%nat; (split; [done|]; split; [done|]);
    rewrite ?queued_asap, ?queued_migrate; cbn [length]; destruct (decide (x = e)); lia.
Qed.

(** The world with more queued handles. *)
Lemma wf_queue X X' P B w w' :
  wf X P B w → bodies w' = bodies w → (∀ x, X' x + queued w' x = X x + queued w x)%nat → wf X' P B w'.
Proof.
  intros [H1 H2 H3 H4 H5 H6 H7 H8 H9 H10] Hb HX.
  assert (Hl : ∀ x, lst w' x = lst w x) by (intros x; unfold lst; by rewrite Hb).
  assert (Hm : ∀ x, mem w' x = mem w x) by (intros x; unfold mem; by rewrite Hb).
  assert (Hf : ∀ x, fired w x → fired w' x) by (intros x; unfold fired; by rewrite Hb).
  split.
  - intros e b He. rewrite Hb in He. specialize (H1 e b He). specialize (HX e). lia.
  - intros e He. rewrite Hb in He. destruct (H2 e He). specialize (HX e). lia.
  - intros e q. by rewrite Hl, Hm.
  - rewrite Hb. exact H4.
  - rewrite Hb. exact H5.
  - intros e q He. apply Hf. by eapply H6.
  - intros q e. rewrite Hm. apply H7.
  - rewrite Hb. exact H8.
  - rewrite Hb. intros q b qb Hq Hbq Hqb. destruct (H9 q b qb Hq Hbq Hqb) as [A1 A2]. split; [done|].
    destruct (ef_triggered b); [|done]. intros m Hm'. by apply Hf, A2.
  - rewrite Hb. intros q b Hq Hbq H0. destruct (H10 q b Hq Hbq H0) as (qb & A1 & A2 & A3).
    exists qb. split; [done|]. split; [done|]. intros m Hm'. by apply Hf, A3.
Qed.

(** The pairs of an event with the quorums it has to inform. *)
Lemma occ_pending_fst (e : nat) l x :
  occ x (fst <$> ((λ q : nat, (e, q)) <$> l)) = if decide (x = e) then length l else O.
Proof.
  induction l as [|y l IH]; [by destruct (decide _)|]. rewrite !fmap_cons, occ_cons, IH. cbn.
  destruct (decide (x = e)) as [->|Hne]; [by rewrite decide_True|by rewrite decide_False by congruence].
Qed.

Lemma occ_pending (e : nat) l x y :
  occ (x, y) ((λ q : nat, (e, q)) <$> l) = if decide (x = e) then occ y l else O.
Proof.
  induction l as [|z l IH]; [by destruct (decide _)|].
  rewrite fmap_cons, !occ_cons, IH. destruct (decide (x = e)) as [->|Hne]; [|by rewrite decide_False by congruence].
  destruct (decide (z = y)) as [->|Hzy]; [by rewrite decide_True|by rewrite decide_False by congruence].
Qed.

(** The event fires: its quorums become pending. *)
Lemma wf_fire X P w e b kept :
  wf X P {[e]} w → bodies w !! e = Some b → ef_triggered b = false → refcount_ b ≠ O →
  (∀ qb, quorum_part b = Some qb → ef_empty_members qb = bool_decide (members_ qb = []) ∧
     ∀ m, m ∈ members_ qb → fired w m) →
  quorums kept = [] → (listeners_ b = [] → kept = []) →
  let b' := with_triggered (with_listeners b kept (ef_empty b || bool_decide (kept = []))) in
  wf X (((λ q, (e, q)) <$> quorums (listeners_ b)) ++ P) ∅ (add_log (set_body w e b') e).
Proof.
  intros H Hb Ht H0 Hq Hkq Hk b'.
  apply (wf_queue X X _ ∅ (set_body w e b')); [|done|done].
  assert (Hf : ∀ x, fired w x → fired (set_body w e b') x) by (intros x; by apply fired_mono).
  assert (Hfe : fired (set_body w e b') e) by (exists b'; cbn; by rewrite lookup_insert_eq).
  assert (Hlk : ∀ x c, bodies (set_body w e b') !! x = Some c →
     (x = e ∧ c = b') ∨ (x ≠ e ∧ bodies w !! x = Some c)).
  { intros x c. cbn. destruct (decide (x = e)) as [->|Hne].
    - rewrite lookup_insert_eq. intros [= <-]. by left.
    - rewrite lookup_insert_ne by done. intros Hc. by right. }
  assert (Hpe := occ_pending_fst e (quorums (listeners_ b))).
  assert (Hpq := occ_pending e (quorums (listeners_ b))).
  assert (Hmb : members_of b' = members_of b) by done.
  assert (Hee : ∀ q, q ∉ (∅ : gset nat) → q ≠ e → q ∉ ({[e]} : gset nat)) by set_solver.
  destruct H as [H1 H2 H3 H4 H5 H6 H7 H8 H9 H10]. split.
  - intros x c Hc. rewrite fmap_app, occ_app, Hpe. change (queued (set_body w e b') x) with (queued w x).
    destruct (Hlk x c Hc) as [[-> ->]|[Hne Hc0]].
    + rewrite decide_True by done. specialize (H1 e b Hb). cbn. rewrite Hkq. cbn. lia.
    + rewrite decide_False by done. specialize (H1 x c Hc0). lia.
  - intros x Hx. cbn in Hx. destruct (decide (x = e)) as [->|Hne]; [by rewrite lookup_insert_eq in Hx|].
    rewrite lookup_insert_ne in Hx by done. by apply H2.
  - intros x y. rewrite lst_set, mem_set, Hmb, occ_app, Hpq.
    assert (Em : (if decide (y = e) then members_of b else mem w y) = mem w y).
    { destruct (decide (y = e)) as [->|]; [|done]. by rewrite (mem_eq w e b Hb). }
    rewrite Em, <-H3. destruct (decide (x = e)) as [->|Hne]; [|lia].
    rewrite (lst_eq w e b Hb). cbn. rewrite Hkq. cbn. lia.
  - intros x c Hc. destruct (Hlk x c Hc) as [[-> ->]|[Hne Hc0]]; [|by apply (H4 x)].
    cbn. rewrite (H4 e b Hb). destruct (decide (listeners_ b = [])) as [E|E].
    + rewrite (Hk E). by rewrite orb_true_r.
    + by rewrite (bool_decide_eq_false_2 _ E).
  - intros x c Hc Hct. destruct (Hlk x c Hc) as [[-> ->]|[Hne Hc0]]; [done|by apply (H5 x)].
  - intros x y [Hx|Hx]%elem_of_app; [|by apply Hf, (H6 x y)].
    apply list_elem_of_fmap in Hx as (z & [= -> ->] & _). exact Hfe.
  - intros y x. rewrite mem_set, Hmb. destruct (decide (y = e)) as [->|]; [|by apply H7].
    intros Hx. apply H7. by rewrite (mem_eq w e b Hb).
  - intros y c qb Hc. destruct (Hlk y c Hc) as [[-> ->]|[Hne Hc0]]; [by apply (H8 e b)|by apply (H8 y c)].
  - intros y c qb Hn Hc Hqb. destruct (Hlk y c Hc) as [[-> ->]|[Hne Hc0]].
    + destruct (Hq qb Hqb) as [A1 A2]. split; [done|]. cbn. intros m Hm. by apply Hf, A2.
    + destruct (H9 y c qb (Hee y Hn Hne) Hc0 Hqb) as [A1 A2]. split; [done|].
      destruct (ef_triggered c); [|done]. intros m Hm. by apply Hf, A2.
  - intros y c Hn Hc Hc0. destruct (Hlk y c Hc) as [[-> ->]|[Hne Hc1]]; [done|].
    destruct (H10 y c (Hee y Hn Hne) Hc1 Hc0) as (qb & A1 & A2 & A3).
    exists qb. split; [done|]. split; [done|]. intros m Hm. by apply Hf, A3.
Qed.

(** An event that has fired leaves the members of a quorum that it informs, and
    its handle there is left over. *)
Lemma wf_consume X P w e q b qp i :
  wf X ((e, q) :: P) ∅ w → bodies w !! q = Some b → quorum_part b = Some qp → index_in e (members_ qp) = Some i →
  let ms := swap_remove i (members_ qp) in
  wf (inc e X) P {[q]} (set_body w q (with_quorum b (QuorumBody (ef_empty_members qp || bool_decide (ms = []))
       (ef_interest qp) ms (S (triggered_ qp)) (quorum_ qp)))).
Proof.
  intros H Hb Hqp Hi ms. pose proof (swap_remove_perm i (members_ qp) e (index_in_Some _ _ _ Hi)) as Hpm. fold ms in Hpm.
  assert (Hmb : members_of b = members_ qp) by (unfold members_of; by rewrite Hqp).
  assert (Hin : e ∈ mem w q) by (rewrite (mem_eq w q b Hb), Hmb, Hpm; by left).
  assert (Hne : e ≠ q) by (intros ->; pose proof (wf_rank _ _ _ _ _ H q q Hin); lia).
  assert (Hflag : ef_empty_members qp = false).
  { destruct (ef_empty_members qp) eqn:E; [|done]. rewrite (wf_flag _ _ _ _ _ H q b qp Hb Hqp E) in Hi. done. }
  set (qp' := QuorumBody _ _ _ _ _). set (b' := with_quorum b qp').
  assert (Hf : ∀ x, fired w x → fired (set_body w q b') x).
  { intros x. apply fired_mono. intros c Hc. rewrite Hb in Hc. injection Hc as <-. done. }
  assert (Hlk : ∀ x c, bodies (set_body w q b') !! x = Some c →
     ∃ c0, bodies w !! x = Some c0 ∧ listeners_ c = listeners_ c0 ∧ ef_empty c = ef_empty c0 ∧
           ef_triggered c = ef_triggered c0 ∧ refcount_ c = refcount_ c0 ∧ (x = q ∧ c = b' ∧ c0 = b ∨ x ≠ q ∧ c = c0)).
  { intros x c. cbn. destruct (decide (x = q)) as [->|Hx].
    - rewrite lookup_insert_eq. intros [= <-]. exists b. repeat split; try done. by left.
    - rewrite lookup_insert_ne by done. intros Hc. exists c. repeat split; try done. by right. }
  destruct H as [H1 H2 H3 H4 H5 H6 H7 H8 H9 H10]. split.
  - intros x c Hc. destruct (Hlk x c Hc) as (c0 & Hc0 & E1 & E2 & E3 & E4 & _). specialize (H1 x c0 Hc0).
    change (queued (set_body w q b') x) with (queued w x). rewrite E1, E4, H1, fmap_cons, occ_cons. cbn. unfold inc.
    destruct (decide (x = e)) as [->|Hx]; [rewrite decide_True by done|rewrite decide_False by congruence]; lia.
  - intros x Hx. cbn in Hx. destruct (decide (x = q)) as [->|Hxq]; [by rewrite lookup_insert_eq in Hx|].
    rewrite lookup_insert_ne in Hx by done. destruct (H2 x Hx) as [A1 A2]. split; [|done]. unfold inc.
    destruct (decide (x = e)) as [->|]; [|done]. destruct (H6 e q) as (c & Hc & _); [by left|]. congruence.
  - intros x y. specialize (H3 x y). rewrite lst_set, mem_set.
    assert (El : (if decide (x = q) then quorums (listeners_ b') else lst w x) = lst w x).
    { destruct (decide (x = q)) as [->|]; [|done]. by rewrite (lst_eq w q b Hb). }
    rewrite El. rewrite occ_cons in H3. destruct (decide (y = q)) as [->|Hy].
    + rewrite (mem_eq w q b Hb), Hmb, (occ_perm _ _ _ Hpm), occ_cons in H3. change (members_of b') with ms.
      destruct (decide (e = x)) as [->|Hx]; [rewrite decide_True in H3 by done|rewrite decide_False in H3 by congruence]; lia.
    + rewrite decide_False in H3 by congruence. lia.
  - intros x c Hc. destruct (Hlk x c Hc) as (c0 & Hc0 & E1 & E2 & _). rewrite E1, E2. by apply (H4 x).
  - intros x c Hc Hct. destruct (Hlk x c Hc) as (c0 & Hc0 & E1 & E2 & E3 & _). rewrite E1. apply (H5 x); congruence.
  - intros x y Hx. apply Hf, (H6 x y). by right.
  - intros y x. rewrite mem_set. destruct (decide (y = q)) as [->|]; [|by apply H7].
    change (members_of b') with ms. intros Hx. apply H7. rewrite (mem_eq w q b Hb), Hmb, Hpm. by right.
  - intros y c qb Hc Hqb. destruct (Hlk y c Hc) as (c0 & Hc0 & E1 & E2 & E3 & E4 & [(-> & -> & ->)|[Hx ->]]); [|by apply (H8 y c0)].
    cbn in Hqb. injection Hqb as <-. cbn. rewrite Hflag. cbn. apply bool_decide_eq_true.
  - intros y c qb Hn Hc Hqb. destruct (Hlk y c Hc) as (c0 & Hc0 & E1 & E2 & E3 & E4 & [(-> & -> & ->)|[Hx ->]]); [set_solver|].
    destruct (H9 y c0 qb ltac:(set_solver) Hc0 Hqb) as [A1 A2]. split; [done|].
    destruct (ef_triggered c0); [|done]. intros m Hm. by apply Hf, A2.
  - intros y c Hn Hc H0. destruct (Hlk y c Hc) as (c0 & Hc0 & E1 & E2 & E3 & E4 & [(-> & -> & ->)|[Hx ->]]); [set_solver|].
    destruct (H10 y c0 ltac:(set_solver) Hc0 H0) as (qb & A1 & A2 & A3).
    exists qb. split; [done|]. split; [done|]. intros m Hm. by apply Hf, A3.
Qed.

(** What is not touched keeps its flag. *)
Lemma fired_frame keep w w' m b : frame keep w w' → fired w m → bodies w' !! m = Some b → fired w' m.
Proof.
  intros F (c & Hc & Ht) Hb. exists b. split; [done|]. destruct (fr_shrink _ _ _ F m b Hb) as (c' & Hc' & E). congruence.
Qed.

Definition trigger_ok (N : nat) : Prop := ∀ w e b X P drv coh,
  (unfired w ≤ N)%nat → wf X P {[e]} w → bodies w !! e = Some b → ef_triggered b = false →
  (quorum_part b = None → (0 < X e)%nat) →
  ∃ r w' coh', enough (λ n, trigger_unlock home current n w e drv coh) (r, w', coh') ∧ wf X P ∅ w' ∧ tframe w w' ∧
    (∀ b', bodies w' !! e = Some b' → ef_triggered b' = true).

Lemma trigger_member_spec N w q e X P drv coh :
  trigger_ok N → (unfired w ≤ N)%nat → wf X ((e, q) :: P) ∅ w →
  ∃ w' coh', enough (λ n, trigger_member home current n w q e drv coh) (w', coh') ∧ wf X P ∅ w' ∧ tframe w w'.
Proof.
  intros Htr HN H.
  assert (Hin : e ∈ mem w q).
  { apply occ_pos. rewrite <-(wf_edges _ _ _ _ _ H e q), occ_cons, decide_True by done. lia. }
  pose proof (wf_rank _ _ _ _ _ H q e Hin) as Hrk.
  destruct (bodies w !! q) as [b|] eqn:Hb; [|by unfold mem in Hin; rewrite Hb in Hin; inversion Hin].
  rewrite (mem_eq w q b Hb) in Hin. unfold members_of in Hin.
  destruct (quorum_part b) as [qp|] eqn:Hqp; [|by inversion Hin].
  destruct (index_in e (members_ qp)) as [i|] eqn:Hi; [|by apply index_in_None in Hi].
  pose proof (wf_consume X P w e q b qp i H Hb Hqp Hi) as H1. cbv zeta in H1.
  set (ms := swap_remove i (members_ qp)) in *.
  set (qp1 := QuorumBody (ef_empty_members qp || bool_decide (ms = [])) (ef_interest qp) ms (S (triggered_ qp)) (quorum_ qp)) in *.
  set (b1 := with_quorum b qp1) in *. set (w1 := set_body w q b1) in *.
  destruct (drop_spec (S (rank e)) w1 e X P {[q]}) as (w2 & D1 & D2 & D3); [lia|exact H1|set_solver|].
  assert (Hb2 : bodies w2 !! q = Some b1) by (rewrite (fr_keep _ _ _ D3 q) by done; apply lookup_insert_eq).
  destruct (wf_quorum _ _ _ _ _ H q b qp ltac:(set_solver) Hb Hqp) as [A1 A2].
  assert (Hpm := swap_remove_perm i (members_ qp) e (index_in_Some _ _ _ Hi)). fold ms in Hpm.
  assert (Hfl : ef_empty_members qp1 = bool_decide (ms = [])).
  { cbn. rewrite A1. rewrite bool_decide_eq_false_2; [done|]. intros E. rewrite E in Hin. inversion Hin. }
  assert (Hfr : frame (λ x, (rank q < rank x)%nat) w w2).
  { assert (F1 : frame (λ x, x ≠ q) w w1) by (apply (frame_set_body _ _ _ b); [done..|]; by intros []).
    eapply frame_weaken; [|exact (frame_trans _ _ _ _ _ F1 D3)]. intros x Hx. cbn. split; [intros ->; lia|lia]. }
  assert (Hms : ∀ m, m ∈ ms → fired w m → fired w2 m).
  { intros m Hm Hfm. destruct (member_exists X P {[q]} w2 q m D2) as (c & Hc); [by rewrite (mem_eq w2 q b1 Hb2)|].
    by eapply fired_frame. }
  set (rest := λ n (v : world), b ← bodies v !! q; qp ← quorum_part b;
    if negb (ef_triggered b) && (quorum_ qp <=? triggered_ qp)%nat then
      r ← trigger_unlock home current n v q drv coh; Some (r.1.2, r.2)
    else if ef_empty_members qp && (refcount_ b =? 0)%nat then Some (delete_body v q, coh)
    else Some (v, coh)).
  assert (Hunf : ∀ r, enough (λ n, rest n w2) r → enough (λ n, trigger_member home current n w q e drv coh) r).
  { intros r Hr. apply enough_S. eapply enough_ext; [|exact (enough_bind _ rest _ _ D1 Hr)].
    intros n. cbn [trigger_member]. rewrite Hb. cbn [mbind option_bind]. rewrite Hqp. cbn [mbind option_bind].
    rewrite Hi. done. }
  assert (Hrest : ∀ n, rest n w2 =
    if negb (ef_triggered b) && (quorum_ qp <=? S (triggered_ qp))%nat then
      r ← trigger_unlock home current n w2 q drv coh; Some (r.1.2, r.2)
    else if bool_decide (ms = []) && (refcount_ b =? 0)%nat then Some (delete_body w2 q, coh) else Some (w2, coh)).
  { intros n. unfold rest. rewrite Hb2. cbn [mbind option_bind]. change (quorum_part b1) with (Some qp1).
    cbn [mbind option_bind]. by rewrite Hfl. }
  destruct (negb (ef_triggered b) && (quorum_ qp <=? S (triggered_ qp))%nat) eqn:Ec.
  - apply andb_prop in Ec as [Et%negb_true_iff _].
    destruct (Htr w2 q b1 X P drv coh) as (r & w' & coh' & T1 & T2 & T3 & T4); [|exact D2|exact Hb2|done|done|].
    { pose proof (unfired_mono _ _ (tframe_frame _ _ _ Hfr)). lia. }
    exists w', coh'. split; [|split; [done|eapply tframe_trans; [eapply tframe_frame, Hfr|done]]].
    apply Hunf. eapply enough_ext; [intros n; symmetry; apply Hrest|].
    apply (enough_bind _ (λ _ r, Some (r.1.2, r.2)) _ _ T1). by apply enough_ret.
  - assert (Hlt : ef_triggered b = false → (triggered_ qp1 < quorum_ qp1)%nat).
    { intros Et. rewrite Et in Ec. cbn [negb andb] in Ec. apply Nat.leb_gt in Ec. cbn. lia. }
    destruct (bool_decide (ms = []) && (refcount_ b =? 0)%nat) eqn:Ez.
    + apply andb_prop in Ez as [Em%bool_decide_eq_true E0%Nat.eqb_eq].
      exists (delete_body w2 q), coh. split; [apply Hunf, enough_ret; intros n; by rewrite Hrest|]. split.
      * eapply (wf_delete rank X P {[q]}); [exact D2|exact Hb2|done|exact Em|set_solver].
      * eapply tframe_trans; [eapply tframe_frame, Hfr|].
        eapply (tframe_frame (λ x, x ≠ q)). apply frame_delete_body. by intros [].
    + exists w2, coh. split; [apply Hunf, enough_ret; intros n; by rewrite Hrest|].
      split; [|eapply tframe_frame, Hfr].
      eapply (wf_less_busy rank X P ∅ w2 q b1); [by rewrite (right_id_L ∅ (∪))|exact Hb2| |].
      * intros qb [= <-]. split; [exact Hfl|]. change (ef_triggered b1) with (ef_triggered b).
        destruct (ef_triggered b) eqn:Et; [|by apply Hlt]. intros m Hm. apply Hms; [done|]. apply A2. rewrite Hpm. by right.
      * intros E0. exists qp1. split; [done|].
        destruct (wf_zero _ _ _ _ _ H q b ltac:(set_solver) Hb E0) as (qb & B1 & B2 & B3).
        rewrite Hqp in B1. injection B1 as <-. split.
        -- intros Em. change (ms = []) in Em. rewrite (bool_decide_eq_true_2 _ Em) in Ez. cbn [andb] in Ez.
           apply Nat.eqb_neq in Ez. done.
        -- intros m Hm. apply Hms; [done|]. apply B3. rewrite Hpm. by right.
Qed.

Lemma trigger_members_spec N e drv qs : trigger_ok N → ∀ w X P coh,
  (unfired w ≤ N)%nat → wf X (((λ q, (e, q)) <$> qs) ++ P) ∅ w →
  ∃ w' coh', enough (λ n, trigger_members home current n w qs e drv coh) (w', coh') ∧ wf X P ∅ w' ∧ tframe w w'.
Proof.
  intros Htr. induction qs as [|q qs IH]; intros w X P coh HN H.
  - exists w, coh. split; [by apply enough_S, enough_ret|]. split; [done|apply tframe_refl].
  - rewrite fmap_cons in H. cbn [app] in H.
    destruct (trigger_member_spec N w q e X _ drv coh Htr HN H) as (w1 & coh1 & M1 & M2 & M3).
    destruct (IH w1 X P coh1) as (w2 & coh2 & R1 & R2 & R3); [|done|].
    { pose proof (unfired_mono _ _ M3). lia. }
    exists w2, coh2. split; [|split; [done|by eapply tframe_trans]].
    apply enough_S. exact (enough_bind _ (λ n r, trigger_members home current n r.1 qs e drv r.2) _ _ M1 R1).
Qed.

(** Posting the event to other drivers: every entry owns a handle. *)
Lemma posts_spec X P B w e b me ds :
  wf X P B w → bodies w !! e = Some b →
  ∃ w', (if bool_decide (ds = []) then Some w
         else w ← ref w e (length ds); Some (post_drivers w e me ds)) = Some w' ∧
    wf X P B w' ∧ tframe w w'.
Proof.
  intros H Hb. destruct (decide (ds = [])) as [E|E].
  { exists w. rewrite (bool_decide_eq_true_2 _ E). split; [done|]. split; [done|apply tframe_refl]. }
  rewrite (bool_decide_eq_false_2 _ E). unfold ref. rewrite Hb. cbn [mbind option_bind].
  set (w1 := set_body w e (with_refcount b (refcount_ b + length ds))).
  assert (Hq : ∀ x, queued (post_drivers w1 e me ds) x = (queued w1 x + if decide (x = e) then length ds else 0)%nat)
    by (intros x; apply queued_posts).
  exists (post_drivers w1 e me ds). split; [done|]. split.
  - eapply wf_queue; [exact (wf_incref rank X P B w e b (length ds) H Hb)|apply (queued_posts w1 e me ds e)|].
    intros x. rewrite Hq. change (queued w1 x) with (queued w x). fold w1. change (queued w1 x) with (queued w x).
    destruct (decide (x = e)); lia.
  - eapply tframe_trans; [eapply (tframe_set w e b (with_refcount b (refcount_ b + length ds))); done|].
    apply tframe_same; apply (queued_posts w1 e me ds e).
Qed.

(** The body that an event has once it fires. *)
Definition fire (b : event_body) (s : sorted_listeners) : event_body :=
  with_triggered (with_listeners b (sl_kept s) (ef_empty b || bool_decide (sl_kept s = []))).

Definition sorted (b : event_body) (drv coh : option nat) : sorted_listeners :=
  sort_listeners home (listeners_ b) drv (SortedListeners [] coh [] []).

(** From the moment the event fires to the posts to other drivers. *)
Lemma fire_spec N w e b X P drv coh :
  trigger_ok N → (unfired w ≤ S N)%nat → wf X P {[e]} w → bodies w !! e = Some b → ef_triggered b = false →
  (0 < X e)%nat → refcount_ b ≠ O →
  (∀ qb, quorum_part b = Some qb → ef_empty_members qb = bool_decide (members_ qb = []) ∧
     ∀ m, m ∈ members_ qb → fired w m) →
  let s := sorted b drv coh in let w3 := add_log (set_body w e (fire b s)) e in
  ∃ w4 coh', enough (λ n, trigger_members home current n w3 (sl_quorums s) e drv (sl_claimed s)) (w4, coh') ∧
    ∃ w5, (if bool_decide (sl_drivers s = []) then Some w4
           else w ← ref w4 e (length (sl_drivers s)); Some (post_drivers w e (default current drv) (sl_drivers s))) = Some w5 ∧
    wf X P ∅ w5 ∧ tframe w w5 ∧ (∀ b', bodies w5 !! e = Some b' → ef_triggered b' = true).
Proof.
  intros Htr HN H Hb Ht HX H0 Hq s w3.
  destruct (sort_takes_quorums (listeners_ b) drv (SortedListeners [] coh [] [])) as [E1 E2]. fold (sorted b drv coh) in E1, E2.
  fold s in E1, E2. cbn in E1, E2.
  assert (Hk : listeners_ b = [] → sl_kept s = []) by (intros E; unfold s, sorted; by rewrite E).
  pose proof (wf_fire X P w e b (sl_kept s) H Hb Ht H0 Hq E2 Hk) as H3. cbv zeta in H3. fold (fire b s) in H3. fold w3 in H3.
  rewrite <-E1 in H3.
  assert (F3 : tframe w w3).
  { eapply tframe_trans; [eapply (tframe_set w e b (fire b s)); done|]. by apply tframe_same. }
  assert (Hlt : (unfired w3 < unfired w)%nat) by (apply (unfired_fire w e b (fire b s)); done).
  destruct (trigger_members_spec N e drv (sl_quorums s) Htr w3 X P (sl_claimed s)) as (w4 & coh' & M1 & M2 & M3); [lia|exact H3|].
  exists w4, coh'. split; [exact M1|].
  destruct (bodies w4 !! e) as [b4|] eqn:Hb4.
  2:{ destruct (wf_live _ _ _ _ _ M2 e Hb4). lia. }
  destruct (posts_spec X P ∅ w4 e b4 (default current drv) (sl_drivers s) M2 Hb4) as (w5 & P1 & P2 & P3).
  exists w5. split; [exact P1|]. split; [exact P2|].
  assert (F5 : tframe w3 w5) by (by eapply tframe_trans).
  split; [by eapply tframe_trans|].
  intros b' Hb'. destruct (proj1 F5 e b' Hb') as (c & Hc & Hct). apply Hct. cbn in Hc. rewrite lookup_insert_eq in Hc.
  by injection Hc as <-.
Qed.

Lemma trigger_unlock_unfold n w e drv coh :
  trigger_unlock home current (S n) w e drv coh =
  (b ← bodies w !! e;
   w ← (match quorum_part b with
        | Some _ => w ← ref w e 1; cull_members home current n w e 0
        | None => Some w
        end);
   b2 ← bodies w !! e;
   r ← trigger_members home current n (add_log (set_body w e (fire b2 (sorted b2 drv coh))) e)
         (sl_quorums (sorted b2 drv coh)) e drv (sl_claimed (sorted b2 drv coh));
   let '(w, coh') := r in
   w ← (if bool_decide (sl_drivers (sorted b2 drv coh) = []) then Some w
        else w ← ref w e (length (sl_drivers (sorted b2 drv coh)));
             Some (post_drivers w e (default current drv) (sl_drivers (sorted b2 drv coh))));
   w ← (match quorum_part b2 with Some _ => drop_handle home current n w e | None => Some w end);
   Some (negb (ef_empty b) || (1 <? refcount_ b)%nat, w, coh')).
Proof. reflexivity. Qed.

Lemma trigger_spec N : trigger_ok N.
Proof.
  induction N as [|N IH]; intros w e b X P drv coh HN H Hb Ht HX.
  { pose proof (unfired_fire w e b (with_triggered b) Hb Ht eq_refl). lia. }
  destruct (quorum_part b) as [q|] eqn:Hq.
  - (* a quorum: hold a handle, cull the members *)
    set (b1 := with_refcount b (refcount_ b + 1)). set (w1 := set_body w e b1).
    assert (H1 : wf (inc e X) P {[e]} w1).
    { eapply wf_same_held; [|exact (wf_incref rank X P {[e]} w e b 1 H Hb)]. intros x. unfold inc. destruct (decide _); lia. }
    assert (Hb1 : bodies w1 !! e = Some b1) by apply lookup_insert_eq.
    destruct (cull_spec (inc e X) P {[e]} e (drop_spec (rank e))) with (k := length (members_ q)) (w := w1) (i := O)
      (b := b1) (q := q) as (w2 & q2 & C1 & C2 & C3 & C4 & C5 & C6 & C7 & C8 & C9);
      [set_solver|intros c Hc; left; set_solver|exact Hb1|exact Hq|lia|exact H1|lia|].
    set (b2 := with_quorum b1 q2) in *.
    assert (F2 : tframe w w2).
    { eapply tframe_trans; [eapply (tframe_set w e b b1); done|eapply tframe_frame, C3]. }
    destruct (fire_spec N w2 e b2 (inc e X) P drv coh IH) as (w4 & coh' & M1 & w5 & P1 & P2 & P3 & P4);
      [pose proof (unfired_mono _ _ F2); lia|exact C2|exact C4|exact Ht|unfold inc; rewrite decide_True by done; lia| | |].
    { cbn. lia. }
    { intros qb [= <-]. by split. }
    destruct (drop_spec (S (rank e)) w5 e X P ∅) as (w6 & D1 & D2 & D3); [lia|exact P2|set_solver|].
    exists (negb (ef_empty b) || (1 <? refcount_ b)%nat), w6, coh'. split; [|split; [done|split]].
    + apply enough_S. destruct C1 as [n1 C1], M1 as [n2 M1], D1 as [n3 D1]. exists (n1 `max` n2 `max` n3)%nat.
      intros k Hk. rewrite trigger_unlock_unfold, Hb. cbn [mbind option_bind]. rewrite Hq.
      unfold ref. rewrite Hb. cbn [mbind option_bind]. change (set_body w e (with_refcount b (refcount_ b + 1))) with w1.
      rewrite C1 by lia. cbn [mbind option_bind]. rewrite C4. cbn [mbind option_bind].
      rewrite M1 by lia. cbn [mbind option_bind fst snd]. unfold ref in P1. rewrite P1. cbn [mbind option_bind].
      change (quorum_part b2) with (Some q2). cbn [mbind option_bind]. by rewrite D1 by lia.
    + eapply tframe_trans; [exact F2|]. eapply tframe_trans; [exact P3|eapply tframe_frame, D3].
    + intros b' Hb'. destruct (fr_shrink _ _ _ D3 e b' Hb') as (c & Hc & E). rewrite E. by apply P4.
  - (* a plain event: the caller's handle keeps it *)
    specialize (HX eq_refl).
    destruct (fire_spec N w e b X P drv coh IH HN H Hb Ht HX) as (w4 & coh' & M1 & w5 & P1 & P2 & P3 & P4).
    { pose proof (wf_ref _ _ _ _ _ H e b Hb). lia. }
    { intros qb Hqb. congruence. }
    exists (negb (ef_empty b) || (1 <? refcount_ b)%nat), w5, coh'. split; [|split; [done|by split]].
    apply enough_S. destruct M1 as [n2 M1]. exists n2.
    intros k Hk. rewrite trigger_unlock_unfold, Hb. cbn [mbind option_bind]. rewrite Hq. cbn [mbind option_bind].
    rewrite Hb. cbn [mbind option_bind]. rewrite M1 by lia. cbn [mbind option_bind fst snd].
    unfold ref in *. rewrite P1. cbn [mbind option_bind]. by rewrite Hq.
Qed.
End Drop.

(** * The operations of a program *)

Definition dec (e : nat) (X : nat → nat) (x : nat) : nat := if decide (x = e) then (X x - 1)%nat else X x.

Definition fresh (w : world) : Prop := ∀ x, (next_event w ≤ x)%nat → bodies w !! x = None.

Lemma fresh_tframe w w' : tframe w w' → fresh w → fresh w'.
Proof.
  intros [F N] H x Hx. rewrite N in Hx. specialize (H x Hx).
  destruct (bodies w' !! x) as [b|] eqn:E; [|done]. destruct (F x b E) as (c & Hc & _). congruence.
Qed.

Section Operations.
Context (rank : nat → nat) (home : nat → nat) (current : nat).
Notation wf := (wf rank).

Lemma inc_dec X e x : (0 < X e)%nat → inc e (dec e X) x = X x.
Proof. intros H. unfold inc, dec. destruct (decide (x = e)) as [->|]; lia. Qed.

Lemma wf_split X P B w e : (0 < X e)%nat → wf X P B w → wf (inc e (dec e X)) P B w.
Proof. intros H. apply wf_same_held. intros x. symmetry. by apply inc_dec. Qed.

(** Coroutines come and go as listeners. *)
Lemma wf_listeners X P B w e b ls :
  wf X P B w → bodies w !! e = Some b → quorums ls ≡ₚ quorums (listeners_ b) →
  wf X P B (set_body w e (with_listeners b ls (bool_decide (ls = [])))).
Proof.
  intros [H1 H2 H3 H4 H5 H6 H7 H8 H9 H10] Hb Hls. set (b' := with_listeners b ls _).
  assert (Hf : ∀ x, fired w x → fired (set_body w e b') x).
  { intros x. apply fired_mono. intros c Hc. rewrite Hb in Hc. injection Hc as <-. done. }
  assert (Hlk : ∀ x c, bodies (set_body w e b') !! x = Some c →
     ∃ c0, bodies w !! x = Some c0 ∧ ef_triggered c = ef_triggered c0 ∧ quorum_part c = quorum_part c0 ∧
           refcount_ c = refcount_ c0 ∧ (x = e ∧ c = b' ∧ c0 = b ∨ x ≠ e ∧ c = c0)).
  { intros x c. cbn. destruct (decide (x = e)) as [->|Hne].
    - rewrite lookup_insert_eq. intros [= <-]. exists b. repeat split; try done. by left.
    - rewrite lookup_insert_ne by done. intros Hc. exists c. repeat split; try done. by right. }
  split.
  - intros x c Hc. change (queued (set_body w e b') x) with (queued w x).
    destruct (Hlk x c Hc) as (c0 & Hc0 & _ & _ & E & [(-> & -> & ->)|[Hne ->]]); [|by apply H1].
    cbn. rewrite (Permutation_length Hls). by apply H1.
  - intros x Hx. cbn in Hx. destruct (decide (x = e)) as [->|Hne]; [by rewrite lookup_insert_eq in Hx|].
    rewrite lookup_insert_ne in Hx by done. by apply H2.
  - intros x q. rewrite lst_set, mem_set. change (members_of b') with (members_of b). change (listeners_ b') with ls.
    assert (E : (if decide (q = e) then members_of b else mem w q) = mem w q).
    { destruct (decide (q = e)) as [->|]; [|done]. by rewrite (mem_eq w e b Hb). }
    rewrite E, <-H3. destruct (decide (x = e)) as [->|]; [|done]. by rewrite (lst_eq w e b Hb), (occ_perm _ _ _ Hls).
  - intros x c Hc. destruct (Hlk x c Hc) as (c0 & Hc0 & _ & _ & E & [(-> & -> & ->)|[Hne ->]]); [done|by apply (H4 x)].
  - intros x c Hc Hct. destruct (Hlk x c Hc) as (c0 & Hc0 & E1 & _ & E & [(-> & -> & ->)|[Hne ->]]); [|by apply (H5 x)].
    apply Permutation_nil_r. change (listeners_ b') with ls. by rewrite Hls, (H5 e b).
  - intros x q Hx. by apply Hf, (H6 x q).
  - intros q x. rewrite mem_set. change (members_of b') with (members_of b). destruct (decide (q = e)) as [->|]; [|by apply H7].
    intros Hx. apply H7. by rewrite (mem_eq w e b Hb).
  - intros q c qb Hc Hqb. destruct (Hlk q c Hc) as (c0 & Hc0 & E1 & E2 & _). apply (H8 q c0); congruence.
  - intros q c qb Hn Hc Hqb. destruct (Hlk q c Hc) as (c0 & Hc0 & E1 & E2 & _). rewrite E1.
    rewrite E2 in Hqb. destruct (H9 q c0 qb Hn Hc0 Hqb) as [A1 A2]. split; [done|].
    destruct (ef_triggered c0); [|done]. intros m Hm. by apply Hf, A2.
  - intros q c Hn Hc H0. destruct (Hlk q c Hc) as (c0 & Hc0 & E1 & E2 & E3 & _). rewrite E3 in H0.
    destruct (H10 q c0 Hn Hc0 H0) as (qb & A1 & A2 & A3).
    exists qb. rewrite E2. split; [done|]. split; [done|]. intros m Hm. by apply Hf, A3.
Qed.

(** A new body. *)
Lemma wf_new X P B w e b :
  wf X P B w → bodies w !! e = None → refcount_ b = 1%nat → listeners_ b = [] → ef_empty b = true →
  members_of b = [] → ef_triggered b = false →
  (∀ qb, quorum_part b = Some qb → e ∉ B → ef_empty_members qb = true ∧ (triggered_ qb < quorum_ qb)%nat) →
  wf (inc e X) P B (set_body w e b).
Proof.
  intros [H1 H2 H3 H4 H5 H6 H7 H8 H9 H10] Hn Hr Hl He Hm Ht Hq.
  assert (Hpe : ∀ q, (e, q) ∉ P).
  { intros q Hq'. destruct (H6 e q Hq') as (c & Hc & _). congruence. }
  assert (Hf : ∀ x, fired w x → fired (set_body w e b) x).
  { intros x. apply fired_mono. intros c Hc. congruence. }
  assert (Hlk : ∀ x c, bodies (set_body w e b) !! x = Some c → x = e ∧ c = b ∨ x ≠ e ∧ bodies w !! x = Some c).
  { intros x c. cbn. destruct (decide (x = e)) as [->|Hne].
    - rewrite lookup_insert_eq. intros [= <-]. by left.
    - rewrite lookup_insert_ne by done. by right. }
  destruct (H2 e Hn) as [X0 Q0].
  assert (El : lst w e = []) by (unfold lst; by rewrite Hn).
  assert (Em : mem w e = []) by (unfold mem; by rewrite Hn).
  split.
  - intros x c Hc. change (queued (set_body w e b) x) with (queued w x). unfold inc.
    destruct (Hlk x c Hc) as [[-> ->]|[Hne Hc0]]; [rewrite decide_True by done|rewrite decide_False by done; by apply H1].
    rewrite Hr, Hl, X0, Q0. assert (Hz : occ e (fst <$> P) = O); [|rewrite Hz; done].
    apply occ_zero. intros ([x q] & -> & Hin)%list_elem_of_fmap. by apply (Hpe q).
  - intros x Hx. cbn in Hx. destruct (decide (x = e)) as [->|Hne]; [by rewrite lookup_insert_eq in Hx|].
    rewrite lookup_insert_ne in Hx by done. unfold inc. rewrite decide_False by done. by apply H2.
  - intros x q. rewrite lst_set, mem_set, Hl, Hm.
    assert (E1 : (if decide (x = e) then quorums [] else lst w x) = lst w x) by (destruct (decide (x = e)) as [->|]; [by rewrite El|done]).
    assert (E2 : (if decide (q = e) then [] else mem w q) = mem w q) by (destruct (decide (q = e)) as [->|]; [by rewrite Em|done]).
    by rewrite E1, E2.
  - intros x c Hc. destruct (Hlk x c Hc) as [[-> ->]|[Hne Hc0]]; [by rewrite He, Hl|by apply (H4 x)].
  - intros x c Hc Hct. destruct (Hlk x c Hc) as [[-> ->]|[Hne Hc0]]; [congruence|by apply (H5 x)].
  - intros x q Hx. by apply Hf, (H6 x q).
  - intros q x. rewrite mem_set, Hm. destruct (decide (q = e)) as [->|]; [|by apply H7]. intros Hx. inversion Hx.
  - intros q c qb Hc Hqb Hfl. destruct (Hlk q c Hc) as [[-> ->]|[Hne Hc0]]; [|by apply (H8 q c)].
    unfold members_of in Hm. by rewrite Hqb in Hm.
  - intros q c qb HB Hc Hqb. destruct (Hlk q c Hc) as [[-> ->]|[Hne Hc0]].
    + destruct (Hq qb Hqb HB) as [A1 A2]. unfold members_of in Hm. rewrite Hqb in Hm. by rewrite Hm, Ht.
    + destruct (H9 q c qb HB Hc0 Hqb) as [A1 A2]. split; [done|].
      destruct (ef_triggered c); [|done]. intros m Hm'. by apply Hf, A2.
  - intros q c HB Hc H0. destruct (Hlk q c Hc) as [[-> ->]|[Hne Hc0]]; [lia|].
    destruct (H10 q c HB Hc0 H0) as (qb & A1 & A2 & A3).
    exists qb. split; [done|]. split; [done|]. intros m Hm'. by apply Hf, A3.
Qed.

(** A member joins a quorum under construction: its handle moves into it. *)
Lemma wf_link X P B w q b qp e eb :
  wf (inc e X) P B w → q ∈ B → bodies w !! q = Some b → quorum_part b = Some qp → bodies w !! e = Some eb →
  ef_triggered eb = false → (rank e < rank q)%nat → ∀ want,
  let w1 := set_body w e (with_listeners eb (listeners_ eb ++ [L_quorum q]) false) in
  let b1 := EventBody (refcount_ b) (ef_empty b) (ef_triggered b) want (user_flags b) (listeners_ b) (quorum_part b) in
  wf X P B (set_body w1 q (with_quorum b1 (QuorumBody false (ef_interest qp) (members_ qp ++ [e]) (triggered_ qp) (quorum_ qp)))).
Proof.
  intros [H1 H2 H3 H4 H5 H6 H7 H8 H9 H10] HB Hb Hqp He Ht Hrk want w1 b1.
  assert (Hne : e ≠ q) by (intros ->; lia).
  set (eb' := with_listeners eb _ _) in w1. set (b' := with_quorum b1 _). set (w2 := set_body w1 q b').
  assert (Hqs : quorums (listeners_ eb') = quorums (listeners_ eb) ++ [q]).
  { cbn. unfold quorums. by rewrite omap_app. }
  assert (Hlk : ∀ x c, bodies w2 !! x = Some c →
    ∃ c0, bodies w !! x = Some c0 ∧ ef_triggered c = ef_triggered c0 ∧ refcount_ c = refcount_ c0 ∧
      ((x = e ∧ c = eb' ∧ c0 = eb) ∨ (x = q ∧ c = b' ∧ c0 = b) ∨ (x ≠ e ∧ x ≠ q ∧ c = c0))).
  { intros x c. unfold w2, w1. cbn. destruct (decide (x = q)) as [->|Hxq].
    - rewrite lookup_insert_eq. intros [= <-]. exists b. repeat (split; [done|]). right. by left.
    - rewrite lookup_insert_ne by done. destruct (decide (x = e)) as [->|Hxe].
      + rewrite lookup_insert_eq. intros [= <-]. exists eb. repeat (split; [done|]). by left.
      + rewrite lookup_insert_ne by done. intros Hc. exists c. repeat (split; [done|]). right. by right. }
  assert (Hno : ∀ x, bodies w2 !! x = None → bodies w !! x = None ∧ x ≠ e).
  { intros x. unfold w2, w1. cbn. destruct (decide (x = q)) as [->|Hxq]; [by rewrite lookup_insert_eq|].
    rewrite lookup_insert_ne by done. destruct (decide (x = e)) as [->|Hxe]; [by rewrite lookup_insert_eq|].
    by rewrite lookup_insert_ne. }
  assert (Hlst : ∀ x, lst w2 x = if decide (x = e) then quorums (listeners_ eb) ++ [q] else lst w x).
  { intros x. unfold w2. rewrite lst_set. destruct (decide (x = q)) as [->|Hxq].
    - rewrite decide_False by congruence. by rewrite (lst_eq w q b Hb).
    - unfold w1. rewrite lst_set. destruct (decide (x = e)) as [->|]; [exact Hqs|done]. }
  assert (Hmem : ∀ x, mem w2 x = if decide (x = q) then members_ qp ++ [e] else mem w x).
  { intros x. unfold w2. rewrite mem_set. destruct (decide (x = q)) as [->|Hxq]; [done|].
    unfold w1. rewrite mem_set. destruct (decide (x = e)) as [->|]; [|done]. by rewrite (mem_eq w e eb He). }
  assert (Hf : ∀ x, fired w x → fired w2 x).
  { intros x (c & Hc & Hct). unfold fired, w2, w1. cbn. destruct (decide (x = q)) as [->|Hxq].
    - exists b'. rewrite lookup_insert_eq. split; [done|]. cbn. congruence.
    - rewrite lookup_insert_ne by done. destruct (decide (x = e)) as [->|Hxe].
      + exists eb'. rewrite lookup_insert_eq. split; [done|]. cbn. congruence.
      + exists c. by rewrite lookup_insert_ne. }
  assert (Hmw : members_of b = members_ qp) by (unfold members_of; by rewrite Hqp).
  split.
  - intros x c Hc. change (queued w2 x) with (queued w x). destruct (Hlk x c Hc) as (c0 & Hc0 & _ & _ & Hcase).
    specialize (H1 x c0 Hc0). unfold inc in H1. destruct Hcase as [(-> & -> & ->)|[(-> & -> & ->)|(Hx1 & Hx2 & ->)]].
    + rewrite decide_True in H1 by done. rewrite Hqs, length_app. cbn. lia.
    + rewrite decide_False in H1 by congruence. cbn. lia.
    + by rewrite decide_False in H1.
  - intros x Hx. apply Hno in Hx as [Hx Hxe]. destruct (H2 x Hx) as [A1 A2]. unfold inc in A1.
    by rewrite decide_False in A1.
  - intros x y. rewrite Hlst, Hmem. specialize (H3 x y).
    assert (Hl : occ y (if decide (x = e) then quorums (listeners_ eb) ++ [q] else lst w x)
                 = (occ y (lst w x) + if decide (x = e) then occ y [q] else 0)%nat).
    { destruct (decide (x = e)) as [->|]; [|lia]. by rewrite (lst_eq w e eb He), occ_app. }
    assert (Hm : occ x (if decide (y = q) then members_ qp ++ [e] else mem w y)
                 = (occ x (mem w y) + if decide (y = q) then occ x [e] else 0)%nat).
    { destruct (decide (y = q)) as [->|]; [|lia]. by rewrite (mem_eq w q b Hb), Hmw, occ_app. }
    rewrite Hl, Hm, !occ_one. destruct (decide (x = e)) as [->|], (decide (y = q)) as [->|]; lia.
  - intros x c Hc. destruct (Hlk x c Hc) as (c0 & Hc0 & _ & _ & Hcase). specialize (H4 x c0 Hc0).
    destruct Hcase as [(-> & -> & ->)|[(-> & -> & ->)|(Hx1 & Hx2 & ->)]]; [|done..].
    cbn. symmetry. apply bool_decide_eq_false. by destruct (listeners_ eb).
  - intros x c Hc Hct. destruct (Hlk x c Hc) as (c0 & Hc0 & E & _ & Hcase). rewrite E in Hct. specialize (H5 x c0 Hc0 Hct).
    destruct Hcase as [(-> & -> & ->)|[(-> & -> & ->)|(Hx1 & Hx2 & ->)]]; [congruence|done..].
  - intros x y Hx. by apply Hf, (H6 x y).
  - intros y x. rewrite Hmem. destruct (decide (y = q)) as [->|]; [|by apply H7].
    intros [Hx|Hx]%elem_of_app; [|by apply list_elem_of_singleton in Hx as ->]. apply H7. by rewrite (mem_eq w q b Hb), Hmw.
  - intros y c qb Hc Hqb Hfl. destruct (Hlk y c Hc) as (c0 & Hc0 & _ & _ & Hcase).
    destruct Hcase as [(-> & -> & ->)|[(-> & -> & ->)|(Hx1 & Hx2 & ->)]]; [by apply (H8 e eb)| |by apply (H8 y c0)].
    cbn in Hqb. injection Hqb as <-. done.
  - intros y c qb Hn Hc Hqb. destruct (Hlk y c Hc) as (c0 & Hc0 & E & _ & Hcase).
    destruct Hcase as [(-> & -> & ->)|[(-> & -> & ->)|(Hx1 & Hx2 & ->)]]; [|done|].
    + destruct (H9 e eb qb Hn He Hqb) as [A1 A2]. split; [done|]. rewrite Ht in A2. by rewrite E, Ht.
    + destruct (H9 y c0 qb Hn Hc0 Hqb) as [A1 A2]. split; [done|]. destruct (ef_triggered c0); [|done].
      intros x Hx. by apply Hf, A2.
  - intros y c Hn Hc H0. destruct (Hlk y c Hc) as (c0 & Hc0 & E & E' & Hcase). rewrite E' in H0.
    destruct (H10 y c0 Hn Hc0 H0) as (qb & A1 & A2 & A3).
    exists qb. destruct Hcase as [(-> & -> & ->)|[(-> & -> & ->)|(Hx1 & Hx2 & ->)]]; [|done|];
      (split; [done|]; split; [done|]; intros x Hx; by apply Hf, A3).
Qed.

Definition give (eh : option nat) (X : nat → nat) : nat → nat :=
  match eh with Some e => dec e X | None => X end.

(** A quorum under construction. *)
Record building (X : nat → nat) (w : world) (q : nat) : Prop := {
  bd_wf : wf X [] {[q]} w;
  bd_body : ∃ b qp, bodies w !! q = Some b ∧ quorum_part b = Some qp ∧ ef_triggered b = false ∧
    ef_empty_members qp = bool_decide (members_ qp = []);
  bd_held : (0 < X q)%nat
}.

Lemma add_member_spec X w q eh :
  building X w q → (∀ e, eh = Some e → (0 < X e)%nat ∧ (rank e < rank q)%nat) →
  ∃ w', enough (λ n, add_member home current n w q eh) w' ∧ building (give eh X) w' q ∧ tframe w w'.
Proof.
  intros [Hwf (b & qp & Hb & Hqp & Ht & Hfl) Hq] Heh.
  set (b1 := with_quorum b (QuorumBody (ef_empty_members qp) (ef_interest qp) (members_ qp) (S (triggered_ qp)) (quorum_ qp))).
  assert (Hw1 : wf X [] {[q]} (set_body w q b1)).
  { eapply wf_replace; [exact Hwf|exact Hb|done..| | | |done| |].
    - unfold members_of. cbn. by rewrite Hqp.
    - intros qb [= <-]. by apply (wf_flag _ _ _ _ _ Hwf q b qp).
    - set_solver.
    - cbn. by apply (wf_ref _ _ _ _ _ Hwf).
    - set_solver. }
  assert (Hb1 : bodies (set_body w q b1) !! q = Some b1) by apply lookup_insert_eq.
  destruct eh as [e|].
  2:{ exists (set_body w q b1). split; [|split; [|by eapply tframe_set]].
      - apply enough_ret. intros n. unfold add_member. rewrite Hb. cbn [mbind option_bind]. by rewrite Hqp.
      - split; [exact Hw1| |done]. exists b1. eexists. split; [exact Hb1|]. split; [done|]. by split. }
  destruct (Heh e eq_refl) as [HX Hrk]. cbn [give]. assert (Hne : e ≠ q) by (intros ->; lia).
  assert (Hq' : (0 < dec e X q)%nat) by (unfold dec; by rewrite decide_False).
  destruct (bodies w !! e) as [eb|] eqn:He; [|by destruct (wf_live _ _ _ _ _ Hwf e He); lia].
  destruct (ef_triggered eb) eqn:Het.
  - destruct (drop_spec rank home current (S (rank e)) (set_body w q b1) e (dec e X) [] {[q]}) as (w' & D1 & D2 & D3);
      [lia|by apply wf_split|set_solver|].
    exists w'. split; [|split].
    + eapply enough_ext; [|exact D1]. intros n. unfold add_member. rewrite Hb. cbn [mbind option_bind]. rewrite Hqp.
      cbn [mbind option_bind]. rewrite He. cbn [mbind option_bind]. by rewrite Het.
    + split; [exact D2| |exact Hq']. exists b1. eexists. split; [by rewrite (fr_keep _ _ _ D3 q)|]. split; [done|]. by split.
    + eapply tframe_trans; [|eapply tframe_frame, D3]. by eapply tframe_set.
  - pose proof (wf_link (dec e X) [] {[q]} w q b qp e eb ltac:(by apply wf_split) ltac:(set_solver) Hb Hqp He Het Hrk
      (ef_want_interest b || ef_want_interest eb)) as Hl. cbv zeta in Hl.
    match type of Hl with wf _ _ _ ?v => set (w' := v) in * end.
    exists w'. split; [|split].
    + apply enough_ret. intros n. unfold add_member. rewrite Hb. cbn [mbind option_bind]. rewrite Hqp.
      cbn [mbind option_bind]. rewrite He. cbn [mbind option_bind]. rewrite Het. unfold add_listener. rewrite He.
      cbn [mbind option_bind]. cbn [set_body bodies]. rewrite lookup_insert_ne by done. rewrite Hb. done.
    + split; [exact Hl| |exact Hq']. eexists _, _. split; [apply lookup_insert_eq|]. split; [done|]. split; [exact Ht|].
      cbn. symmetry. apply bool_decide_eq_false. by destruct (members_ qp).
    + eapply tframe_trans; [eapply (tframe_set w e eb (with_listeners eb (listeners_ eb ++ [L_quorum q]) false)); [done|by intros E]|].
      eapply (tframe_set _ q b); [cbn; by rewrite lookup_insert_ne|done].
Qed.

Definition give_all (es : list (option nat)) (X : nat → nat) : nat → nat := foldl (λ X eh, give eh X) X es.

Lemma give_all_occ es X x : give_all es X x = (X x - occ (Some x) es)%nat.
Proof.
  revert X. induction es as [|eh es IH]; intros X; [cbn; lia|]. change (give_all (eh :: es) X x) with (give_all es (give eh X) x). rewrite IH, occ_cons.
  destruct eh as [e|]; cbn [give]; [|by rewrite decide_False by done]. unfold dec.
  destruct (decide (x = e)) as [->|Hne]; [rewrite decide_True by done; lia|rewrite decide_False by congruence; lia].
Qed.

Lemma add_members_spec es : ∀ X w q, building X w q →
  (∀ e, (occ (Some e) es ≤ X e)%nat) → (∀ e, Some e ∈ es → (rank e < rank q)%nat) →
  ∃ w', enough (λ n, add_members home current n w q es) w' ∧ building (give_all es X) w' q ∧ tframe w w'.
Proof.
  induction es as [|eh es IH]; intros X w q Hbd HX Hrk.
  - exists w. split; [by apply enough_ret|]. split; [done|apply tframe_refl].
  - destruct (add_member_spec X w q eh Hbd) as (w1 & A1 & A2 & A3).
    { intros e ->. split; [specialize (HX e); rewrite occ_cons, decide_True in HX by done; lia|]. apply Hrk. by left. }
    destruct (IH (give eh X) w1 q A2) as (w2 & B1 & B2 & B3).
    { intros e. specialize (HX e). rewrite occ_cons in HX. destruct eh as [x|]; cbn [give]; [|rewrite decide_False in HX by done; lia].
      unfold dec. destruct (decide (e = x)) as [->|Hne]; [rewrite decide_True in HX by done; lia|].
      rewrite decide_False in HX by congruence. lia. }
    { intros e He. apply Hrk. by right. }
    exists w2. split; [|split; [exact B2|by eapply tframe_trans]].
    exact (enough_bind _ (λ n v, add_members home current n v q es) _ _ A1 B1).
Qed.

Lemma seal_spec X w q : building X w q →
  ∃ w', enough (λ n, seal home current n w q) w' ∧ wf X [] ∅ w' ∧ tframe w w'.
Proof.
  intros [Hwf (b & qp & Hb & Hqp & Ht & Hfl) Hq].
  assert (Hunf : ∀ n, seal home current n w q =
    if (quorum_ qp <=? triggered_ qp)%nat then r ← trigger_unlock home current n w q None None; Some r.1.2 else Some w).
  { intros n. unfold seal. rewrite Hb. cbn [mbind option_bind]. by rewrite Hqp. }
  destruct (quorum_ qp <=? triggered_ qp)%nat eqn:Ec.
  - destruct (trigger_spec rank home current (unfired w) w q b X [] None None) as (r & w' & coh' & T1 & T2 & T3 & _);
      [lia|done..|congruence|].
    exists w'. split; [|by split]. eapply enough_ext; [intros n; symmetry; apply Hunf|].
    apply (enough_bind _ (λ _ r, Some r.1.2) _ _ T1). by apply enough_ret.
  - exists w. split; [by apply enough_ret|]. split; [|apply tframe_refl].
    eapply (wf_less_busy rank X [] ∅ w q b); [by rewrite (right_id_L ∅ (∪))|exact Hb| |].
    + intros qb Hqb. rewrite Hqp in Hqb. injection Hqb as <-. split; [done|]. rewrite Ht. by apply Nat.leb_gt in Ec.
    + intros H0. pose proof (wf_ref _ _ _ _ _ Hwf q b Hb). lia.
Qed.
End Operations.

(** Fresh bodies may be ranked anew. *)
Lemma wf_rerank rank rank' X w :
  (∀ x, is_Some (bodies w !! x) → rank' x = rank x) → wf rank X [] ∅ w → wf rank' X [] ∅ w.
Proof.
  intros Hr H. assert (Hm : ∀ q e, e ∈ mem w q → is_Some (bodies w !! q) ∧ is_Some (bodies w !! e)).
  { intros q e He. split; [|by destruct (member_exists rank _ _ _ _ _ _ H He) as [c ->]].
    unfold mem in He. destruct (bodies w !! q); [done|inversion He]. }
  destruct H as [H1 H2 H3 H4 H5 H6 H7 H8 H9 H10]. split; try done.
  intros q e He. destruct (Hm q e He) as [A1 A2]. rewrite !Hr by done. by apply H7.
Qed.

(** The worlds a program can reach with handles [X]. *)
Definition safe (X : nat → nat) (w : world) : Prop := ∃ rank, wf rank X [] ∅ w ∧ fresh w.

Lemma rank_list (rank : nat → nat) (es : list nat) : ∃ r, ∀ e, e ∈ es → (rank e < r)%nat.
Proof.
  induction es as [|e es [r Hr]]; [exists O; intros e He; inversion He|].
  exists (S (rank e `max` r))%nat. intros x [->|Hx]%elem_of_cons; [lia|]. specialize (Hr x Hx). lia.
Qed.

Section Programs.
Context (home : nat → nat) (current : nat).

Lemma make_spec X w quorum es :
  (0 < quorum)%nat → safe X w → (∀ e, (occ (Some e) es ≤ X e)%nat) →
  ∃ w', enough (λ n, make home current n w quorum es) (next_event w, w') ∧
    safe (give_all es (inc (next_event w) X)) w'.
Proof.
  intros Hqp (rank & Hwf & Hfr) HX. set (q := next_event w).
  assert (Hnone : bodies w !! q = None) by (by apply Hfr).
  assert (Hlive : ∀ e, Some e ∈ es → is_Some (bodies w !! e)).
  { intros e He. destruct (bodies w !! e) as [c|] eqn:Ec; [by eexists|]. destruct (wf_live _ _ _ _ _ Hwf e Ec) as [E _].
    specialize (HX e). rewrite E in HX. apply occ_pos in He. lia. }
  destruct (rank_list rank (omap id es)) as [r Hr].
  set (rank' := λ x, if decide (x = q) then r else rank x).
  assert (Hsame : ∀ x, is_Some (bodies w !! x) → rank' x = rank x).
  { intros x [c Hc]. unfold rank'. rewrite decide_False; [done|]. intros ->. congruence. }
  assert (Hwf' : wf rank' X [] ∅ w) by (by eapply wf_rerank).
  set (b := EventBody 1 true false false 0 [] (Some (QuorumBody true 0 [] 0 quorum))).
  set (w1 := World (<[q := b]> (bodies w)) (S q) (asap_ w) (migrated w) (log w)).
  assert (Hw1 : wf rank' (inc q X) [] {[q]} w1).
  { apply (wf_queue rank' (inc q X) _ _ _ (set_body w q b)); [|done|done].
    apply (wf_new rank' X [] {[q]}); try done; [eapply wf_more_busy; [|exact Hwf']; set_solver|].
    intros qb _ Hn. set_solver. }
  assert (Hbd : building rank' (inc q X) w1 q).
  { split; [exact Hw1| |unfold inc; rewrite decide_True by done; lia].
    exists b. eexists. split; [apply lookup_insert_eq|]. by split. }
  destruct (add_members_spec rank' home current es (inc q X) w1 q Hbd) as (w2 & A1 & A2 & A3).
  { intros e. specialize (HX e). unfold inc. destruct (decide _); lia. }
  { intros e He. rewrite Hsame by (by apply Hlive). unfold rank'. rewrite decide_True by done. apply Hr.
    apply list_elem_of_omap. by exists (Some e). }
  destruct (seal_spec rank' home current _ w2 q A2) as (w3 & S1 & S2 & S3).
  exists w3. split.
  - assert (E2 : enough (λ n, w ← seal home current n w2 q; Some (q, w)) (q, w3)).
    { apply (enough_bind _ (λ _ w, Some (q, w)) _ _ S1). by apply enough_ret. }
    exact (enough_bind _ (λ n v, w ← seal home current n v q; Some (q, w)) _ _ A1 E2).
  - exists rank'. split; [exact S2|]. eapply fresh_tframe; [exact S3|]. eapply fresh_tframe; [exact A3|].
    intros x Hx. cbn in Hx |- *. rewrite lookup_insert_ne by lia. apply Hfr. unfold q in Hx. lia.
Qed.

(** What a program does with events it holds: create, copy and drop handles,
    trigger, wait and stop waiting, build quorums, take an event from the queue
    of the driver and resume a task that waits for it. *)
Inductive event_op :=
  | O_new
  | O_copy (e : nat)
  | O_drop (e : nat)
  | O_trigger (e : nat)
  | O_wait (e c : nat)
  | O_stop (e c : nat)
  | O_make (quorum : nat) (es : list (option nat))
  | O_pop
  | O_resume (e drv : nat).

Definition run_op (fuel : nat) (s : (nat → nat) * world) (op : event_op) : option ((nat → nat) * world) :=
  let '(X, w) := s in
  match op with
  | O_new => let '(e, w) := new_event w in Some (inc e X, w)
  | O_copy e => w ← ref w e 1; Some (inc e X, w)
  | O_drop e => w ← drop_handle home current fuel w e; Some (dec e X, w)
  | O_trigger e => r ← trigger home current fuel w e; Some (X, r.2)
  | O_wait e c =>
      b ← bodies w !! e;
      if ef_triggered b then Some (X, w) else w ← add_listener w e (L_coroutine c); Some (X, w)
  | O_stop e c => w ← remove_listener w e (L_coroutine c); Some (X, w)
  | O_make quorum es => r ← make home current fuel w quorum es; Some (give_all es (inc r.1 X), r.2)
  | O_pop =>
      match asap_ w with
      | [] => Some (X, w)
      | e :: es => Some (inc e X, World (bodies w) (next_event w) es (migrated w) (log w))
      end
  | O_resume e drv => r ← driver_trigger home current fuel w e drv; Some (X, r.2)
  end.

(** The program holds the handles it uses; a quorum counts to one or more. *)
Definition legal (X : nat → nat) (op : event_op) : Prop :=
  match op with
  | O_new | O_pop => True
  | O_copy e | O_drop e | O_trigger e | O_wait e _ | O_stop e _ | O_resume e _ => (0 < X e)%nat
  | O_make quorum es => (0 < quorum)%nat ∧ ∀ e, (occ (Some e) es ≤ X e)%nat
  end.

Lemma safe_ext X X' w : (∀ e, X e = X' e) → safe X w → safe X' w.
Proof. intros HX (rank & H & F). exists rank. split; [by eapply wf_same_held|done]. Qed.

Lemma fresh_set w e b b' : bodies w !! e = Some b → fresh w → fresh (set_body w e b').
Proof.
  intros Hb F x Hx. cbn in *. destruct (decide (x = e)) as [->|Hne]; [|rewrite lookup_insert_ne by done; by apply F].
  rewrite F in Hb by done. done.
Qed.

(** Removing coroutines from the listeners. *)
Lemma safe_listeners X w e b ls :
  safe X w → bodies w !! e = Some b → quorums ls ≡ₚ quorums (listeners_ b) → (listeners_ b = [] → ls = []) →
  safe X (set_body w e (with_listeners b ls (ef_empty b || bool_decide (ls = [])))).
Proof.
  intros (rank & H & F) Hb Hls Hnil. exists rank. split; [|by eapply fresh_set].
  rewrite (wf_empty _ _ _ _ _ H e b Hb).
  assert (E : bool_decide (listeners_ b = []) || bool_decide (ls = []) = bool_decide (ls = [])).
  { destruct (decide (listeners_ b = [])) as [E|E]; [|by rewrite (bool_decide_eq_false_2 _ E)].
    rewrite (Hnil E). by rewrite orb_true_r. }
  rewrite E. by eapply wf_listeners.
Qed.

Lemma swap_remove_quorums ls i c : ls !! i = Some (L_coroutine c) → quorums (swap_remove i ls) ≡ₚ quorums ls.
Proof. intros H. apply swap_remove_perm in H. symmetry. by rewrite (quorums_perm _ _ H). Qed.

Lemma trigger_safe X w e b drv coh :
  safe X w → (0 < X e)%nat → bodies w !! e = Some b → ef_triggered b = false →
  ∃ r w' coh', enough (λ n, trigger_unlock home current n w e drv coh) (r, w', coh') ∧ safe X w'.
Proof.
  intros (rank & H & F) HX Hb Ht.
  destruct (trigger_spec rank home current (unfired w) w e b X [] drv coh) as (r & w' & coh' & T1 & T2 & T3 & _); [lia| |done..|].
  { eapply wf_more_busy; [|exact H]. set_solver. }
  exists r, w', coh'. split; [done|]. exists rank. split; [done|by eapply fresh_tframe].
Qed.

(** A held handle is of a live event. *)
Lemma held_live X w e : safe X w → (0 < X e)%nat → ∃ b, bodies w !! e = Some b.
Proof.
  intros (rank & H & _) He. destruct (bodies w !! e) as [b|] eqn:Eb; [by exists b|].
  destruct (wf_live _ _ _ _ _ H e Eb). lia.
Qed.

Lemma drop_safe X w e :
  safe X w → (0 < X e)%nat → ∃ w', enough (λ n, drop_handle home current n w e) w' ∧ safe (dec e X) w'.
Proof.
  intros (rank & H & F) He.
  destruct (drop_spec rank home current (S (rank e)) w e (dec e X) [] ∅) as (w' & D1 & D2 & D3);
    [lia|by apply wf_split|set_solver|].
  exists w'. split; [done|]. exists rank. split; [done|]. eapply fresh_tframe; [eapply tframe_frame, D3|done].
Qed.

Lemma resume_safe X w e drv :
  safe X w → (0 < X e)%nat →
  ∃ r, enough (λ n, driver_trigger home current n w e drv) r ∧ safe X r.2.
Proof.
  intros Hs He. destruct (held_live X w e Hs He) as [b Hb].
  unfold driver_trigger. rewrite Hb. cbn [mbind option_bind].
  destruct (ef_empty b && ef_triggered b); [eexists (None, w); split; [by apply enough_ret|done]|].
  destruct (ef_triggered b) eqn:Ht; cbn [negb].
  - eexists (_, _). split; [by apply enough_ret|]. cbn [snd].
    pose proof (find_home_spec home (listeners_ b) drv) as Hf.
    destruct (find_home home (listeners_ b) drv) as [[i c]|] eqn:Ef.
    + destruct Hf as [Hi _]. apply safe_listeners; [done|done|by eapply swap_remove_quorums|]. intros E. by rewrite E in Hi.
    + by apply safe_listeners.
  - destruct (trigger_safe X w e b (Some drv) None Hs He Hb Ht) as (r & w' & coh & T1 & T2).
    exists (coh, w'). split; [|done].
    apply (enough_bind _ (λ _ r, Some (r.2, r.1.2)) _ _ T1). by apply enough_ret.
Qed.

(** Every legal operation of a program succeeds, with enough fuel, and leaves a
    safe world. *)
Lemma run_op_safe X w op : safe X w → legal X op →
  ∃ X' w', enough (λ n, run_op n (X, w) op) (X', w') ∧ safe X' w'.
Proof.
  intros Hs Hl. pose proof Hs as (rank & H & F).
  assert (Hget : ∀ e, (0 < X e)%nat → ∃ b, bodies w !! e = Some b) by (intros e; by apply held_live).
  destruct op as [|e|e|e|e c|e c|quorum es| |e drv]; cbn [legal run_op] in *.
  - (* new *)
    eexists _, _. split; [by apply enough_ret|]. exists rank. split.
    + apply (wf_queue rank (inc (next_event w) X) _ _ _ (set_body w (next_event w) new_body)); [|done|done].
      apply (wf_new rank X [] ∅); try done. by apply F.
    + intros x Hx. cbn in Hx |- *. rewrite lookup_insert_ne by lia. apply F. lia.
  - (* copy *)
    destruct (Hget e Hl) as [b Hb]. eexists _, _. split; [apply enough_ret; intros n; unfold ref; by rewrite Hb|].
    exists rank. split; [|by eapply fresh_set].
    eapply wf_same_held; [|exact (wf_incref rank X [] ∅ w e b 1 H Hb)]. intros x. unfold inc. destruct (decide _); lia.
  - (* drop *)
    destruct (drop_safe X w e Hs Hl) as (w' & D1 & D2).
    exists (dec e X), w'. split; [apply (enough_bind _ (λ _ w, Some (dec e X, w)) _ _ D1); by apply enough_ret|done].
  - (* trigger *)
    destruct (Hget e Hl) as [b Hb]. unfold trigger. rewrite Hb. cbn [mbind option_bind].
    destruct (ef_triggered b) eqn:Ht; [exists X, w; split; [by apply enough_ret|done]|].
    destruct (trigger_safe X w e b None None Hs Hl Hb Ht) as (r & w' & coh & T1 & T2).
    exists X, w'. split; [|done].
    assert (E : enough (λ n, r ← trigger_unlock home current n w e None None; Some r.1) (r, w')).
    { apply (enough_bind _ (λ _ r, Some r.1) _ _ T1). by apply enough_ret. }
    apply (enough_bind _ (λ _ r, Some (X, r.2)) _ _ E). by apply enough_ret.
  - (* wait *)
    destruct (Hget e Hl) as [b Hb]. rewrite Hb. cbn [mbind option_bind].
    destruct (ef_triggered b) eqn:Ht; [exists X, w; split; [by apply enough_ret|done]|].
    unfold add_listener. rewrite Hb. eexists X, _. split; [by apply enough_ret|].
    exists rank. split; [|by eapply fresh_set].
    pose proof (wf_listeners rank X [] ∅ w e b (listeners_ b ++ [L_coroutine c]) H Hb) as Hw.
    rewrite bool_decide_eq_false_2 in Hw by (by destruct (listeners_ b)). apply Hw.
    unfold quorums. by rewrite omap_app, app_nil_r.
  - (* stop *)
    destruct (Hget e Hl) as [b Hb]. unfold remove_listener. rewrite Hb. eexists X, _. split; [by apply enough_ret|].
    apply safe_listeners; [done|done| |].
    + destruct (index_in _ _) as [i|] eqn:Ei; [|done]. by eapply swap_remove_quorums, index_in_Some.
    + intros E. by rewrite E.
  - (* make *)
    destruct Hl as [Hq HX]. destruct (make_spec X w quorum es Hq Hs HX) as (w' & M1 & M2).
    exists (give_all es (inc (next_event w) X)), w'. split; [|done].
    apply (enough_bind _ (λ _ r, Some (give_all es (inc r.1 X), r.2)) _ _ M1). by apply enough_ret.
  - (* pop *)
    destruct (asap_ w) as [|e es] eqn:Ea; [exists X, w; split; [by apply enough_ret|done]|].
    eexists _, _. split; [by apply enough_ret|]. exists rank. split; [|done].
    eapply wf_queue; [exact H|done|]. intros x. unfold queued. cbn [asap_ migrated]. rewrite Ea, occ_cons. unfold inc.
    destruct (decide (x = e)) as [->|Hne]; [rewrite !decide_True by done|rewrite (decide_False (P := e = x)) by congruence]; lia.
  - (* resume *)
    destruct (resume_safe X w e drv Hs Hl) as (r & R1 & R2). exists X, r.2. split; [|done].
    apply (enough_bind _ (λ _ r, Some (X, r.2)) _ _ R1). by apply enough_ret.
Qed.

(** What an operation does to the handles held depends on the world before
    only, and what it does to the world does not depend on the handles. *)
Definition held_after (op : event_op) (w : world) (X : nat → nat) : nat → nat :=
  match op with
  | O_new => inc (next_event w) X
  | O_copy e => inc e X
  | O_drop e => dec e X
  | O_make _ es => give_all es (inc (next_event w) X)
  | O_pop => match asap_ w with [] => X | e :: _ => inc e X end
  | O_trigger _ | O_wait _ _ | O_stop _ _ | O_resume _ _ => X
  end.

Lemma run_op_held n X w op X' w' :
  run_op n (X, w) op = Some (X', w') →
  X' = held_after op w X ∧ ∀ Y, run_op n (Y, w) op = Some (held_after op w Y, w').
Proof.
  destruct op as [|e|e|e|e c|e c|q es| |e drv]; cbn [run_op held_after].
  - by intros [= <- <-].
  - intros (w1 & E & [= <- <-])%bind_Some. rewrite E. by split.
  - intros (w1 & E & [= <- <-])%bind_Some. rewrite E. by split.
  - intros (w1 & E & [= <- <-])%bind_Some. rewrite E. by split.
  - intros (b & E & H)%bind_Some. rewrite E. cbn [mbind option_bind]. destruct (ef_triggered b); [by injection H as <- <-|].
    apply bind_Some in H as (w1 & E1 & [= <- <-]). rewrite E1. by split.
  - intros (w1 & E & [= <- <-])%bind_Some. rewrite E. by split.
  - intros ([qe w1] & E & [= <- <-])%bind_Some. rewrite E. cbn [mbind option_bind fst snd].
    unfold make, new_quorum in E. apply bind_Some in E as (w2 & _ & E). apply bind_Some in E as (w3 & _ & [= <- _]).
    by split.
  - destruct (asap_ w); intros [= <- <-]; by split.
  - intros (w1 & E & [= <- <-])%bind_Some. rewrite E. by split.
Qed.

(** Handles held by others are not concerned. *)
Lemma held_after_frame op w X D x :
  legal X op → held_after op w (λ x, X x + D x)%nat x = (held_after op w X x + D x)%nat.
Proof.
  destruct op as [|e|e|e|e c|e c|q es| |e drv]; cbn [held_after legal]; intros Hl; try done.
  - unfold inc. destruct (decide _); lia.
  - unfold inc. destruct (decide _); lia.
  - unfold dec. destruct (decide _); [subst|]; lia.
  - destruct Hl as [_ Hl]. rewrite !give_all_occ. specialize (Hl x). unfold inc. destruct (decide _); lia.
  - destruct (asap_ w); [done|]. unfold inc. destruct (decide _); lia.
Qed.

(** ** Reachable worlds *)

Inductive reached : (nat → nat) → world → Prop :=
  | reached_init : reached (λ _, O) (World ∅ 0 [] [] [])
  | reached_op X w op X' w' :
      reached X w → legal X op → enough (λ n, run_op n (X, w) op) (X', w') → reached X' w'.

Lemma enough_unique {A} (f : nat → option A) r r' : enough f r → enough f r' → r = r'.
Proof.
  intros [n Hn] [m Hm]. specialize (Hn (n `max` m)%nat ltac:(lia)). specialize (Hm (n `max` m)%nat ltac:(lia)). congruence.
Qed.

Lemma reached_safe X w : reached X w → safe X w.
Proof.
  induction 1 as [|X w op X' w' _ IH Hl He].
  - exists (λ x, x). split; [|done].
    split; try done; intros ? ? Hin; inversion Hin.
  - destruct (run_op_safe X w op IH Hl) as (X1 & w1 & E & Hs).
    pose proof (enough_unique _ _ _ He E) as Eq. by injection Eq as -> ->.
Qed.

(** C9 A program that only uses event handles it holds never touches a freed
    event, and every operation terminates: in any world it can reach, triggering,
    dropping, waiting, building a quorum and resuming tasks all succeed, however
    deeply quorums nest and trigger or free each other. *)
Theorem events_safe (X : nat → nat) (w : world) (op : event_op) :
  reached X w → legal X op → ∃ X' w', enough (λ n, run_op n (X, w) op) (X', w') ∧ reached X' w'.
Proof.
  intros Hr Hl. destruct (run_op_safe X w op (reached_safe X w Hr) Hl) as (X' & w' & E & _).
  exists X', w'. split; [done|]. by eapply reached_op.
Qed.

(** C10 Events are freed exactly when the last handle goes, and quorums trigger
    exactly when they should: in any reachable world a body has as many
    references as the handles held, queued and owned by quorums, at least one; a
    quorum that has triggered has let go of its members; one that has not has
    counted fewer triggered members than it needs, and each of its members is
    alive, has not triggered and will inform it. *)
Theorem quorums_exact (X : nat → nat) (w : world) :
  reached X w →
  (∀ e, bodies w !! e = None → X e = O ∧ queued w e = O) ∧
  ∀ e b, bodies w !! e = Some b →
    (0 < refcount_ b)%nat ∧ refcount_ b = (X e + queued w e + length (quorums (listeners_ b)))%nat ∧
    ∀ q, quorum_part b = Some q →
      if ef_triggered b then members_ q = []
      else (triggered_ q < quorum_ q)%nat ∧
        ∀ m, m ∈ members_ q → ∃ mb, bodies w !! m = Some mb ∧ ef_triggered mb = false ∧
                occ (L_quorum e) (listeners_ mb) = occ m (members_ q).
Proof.
  intros Hr. destruct (reached_safe X w Hr) as (rank & H & _). split; [apply H|]. intros e b Hb.
  assert (Hno : ∀ q m, quorum_part b = Some q → m ∈ members_ q → ¬ fired w m).
  { intros q m Hq Hm Hf. assert (Hp : (m, e) ∈ @nil (nat * nat)); [|inversion Hp].
    eapply fired_pending; [exact H| |done]. rewrite (mem_eq w e b Hb). unfold members_of. by rewrite Hq. }
  assert (H0 : refcount_ b ≠ O).
  { intros E. destruct (wf_zero _ _ _ _ _ H e b ltac:(set_solver) Hb E) as (q & Hq & Hne & Hf).
    destruct (members_ q) as [|m l] eqn:Em; [done|]. apply (Hno q m Hq); [rewrite Em|apply Hf]; by left. }
  split; [lia|]. split; [pose proof (wf_ref _ _ _ _ _ H e b Hb) as E; cbn in E; lia|]. intros q Hq.
  destruct (wf_quorum _ _ _ _ _ H e b q ltac:(set_solver) Hb Hq) as [_ A2]. destruct (ef_triggered b) eqn:Et.
  - destruct (members_ q) as [|m l] eqn:Em; [done|]. exfalso. apply (Hno q m Hq); [rewrite Em; by left|apply A2; by left].
  - split; [done|]. intros m Hm. assert (Hin : m ∈ mem w e) by (rewrite (mem_eq w e b Hb); unfold members_of; by rewrite Hq).
    destruct (member_exists rank _ _ _ _ _ _ H Hin) as (mb & Hmb). exists mb. split; [done|]. split.
    + destruct (ef_triggered mb) eqn:Em; [|done]. exfalso. apply (Hno q m Hq Hm). by exists mb.
    + rewrite occ_quorums, <-(lst_eq w m mb Hmb). pose proof (wf_edges _ _ _ _ _ H m e) as E. cbn in E.
      rewrite (mem_eq w e b Hb) in E. unfold members_of in E. rewrite Hq in E. lia.
Qed.
End Programs.

(** ** Fuel *)

(** More fuel changes no result. *)
Definition option_le {A} (o o' : option A) : Prop := ∀ r, o = Some r → o' = Some r.

Lemma option_le_refl {A} (o : option A) : option_le o o.
Proof. by intros r. Qed.
Lemma option_le_bind {A B} (o o' : option A) (f g : A → option B) :
  option_le o o' → (∀ x, option_le (f x) (g x)) → option_le (o ≫= f) (o' ≫= g).
Proof. intros Ho Hf r (x & Hx & H)%bind_Some. rewrite (Ho x Hx). by apply Hf. Qed.
Definition fuel_mono {A} (f : nat → option A) : Prop := ∀ n, option_le (f n) (f (S n)).

Lemma fuel_mono_le {A} (f : nat → option A) n k r : fuel_mono f → (n ≤ k)%nat → f n = Some r → f k = Some r.
Proof. intros Hf. induction 1 as [|k Hk IH]; [done|]. intros E. by apply Hf, IH. Qed.

Lemma fuel_enough {A} (f : nat → option A) n r : fuel_mono f → f n = Some r → enough f r.
Proof. intros Hf E. exists n. intros k Hk. by eapply fuel_mono_le. Qed.

Ltac fuel_step :=
  first
  [ apply option_le_refl
  | progress intros
  | apply option_le_bind
  | solve [auto]
  | match goal with
    | |- option_le (match ?x with _ => _ end) (match ?x with _ => _ end) => destruct x
    | |- option_le (let '(_, _) := ?x in _) _ => destruct x
    end ].

Section Fuel.
Context (home : nat → nat) (current : nat).

Lemma events_fuel n :
  (∀ w e, option_le (drop_handle home current n w e) (drop_handle home current (S n) w e)) ∧
  (∀ w e, option_le (hard_deref home current n w e) (hard_deref home current (S n) w e)) ∧
  (∀ w e i, option_le (cull_members home current n w e i) (cull_members home current (S n) w e i)) ∧
  (∀ w e d c, option_le (trigger_unlock home current n w e d c) (trigger_unlock home current (S n) w e d c)) ∧
  (∀ w qs e d c, option_le (trigger_members home current n w qs e d c) (trigger_members home current (S n) w qs e d c)) ∧
  (∀ w q e d c, option_le (trigger_member home current n w q e d c) (trigger_member home current (S n) w q e d c)).
Proof.
  induction n as [|n (I1 & I2 & I3 & I4 & I5 & I6)]; [repeat split; repeat intro; done|].
  split; [|split; [|split; [|split; [|split]]]]; intros.
  - change (option_le (drop_handle home current (S n) w e) (drop_handle home current (S (S n)) w e)).
    cbn [drop_handle]. repeat fuel_step.
  - cbn [hard_deref]. repeat fuel_step.
  - cbn [cull_members]. repeat fuel_step.
  - cbn [trigger_unlock]. repeat fuel_step.
  - cbn [trigger_members]. repeat fuel_step.
  - cbn [trigger_member]. repeat fuel_step.
Qed.
End Fuel.

Section FuelOps.
Context (home : nat → nat) (current : nat).

Ltac fuel_events :=
  pose proof (events_fuel home current) as Hf; repeat first [fuel_step | apply (Hf _)].

Lemma drop_handle_fuel w e : fuel_mono (λ n, drop_handle home current n w e).
Proof. intros n. by apply events_fuel. Qed.
Lemma trigger_fuel w e : fuel_mono (λ n, trigger home current n w e).
Proof. intros n. unfold trigger. fuel_events. Qed.
Lemma driver_trigger_fuel w e d : fuel_mono (λ n, driver_trigger home current n w e d).
Proof. intros n. unfold driver_trigger. fuel_events. Qed.

Lemma add_members_fuel es w q : fuel_mono (λ n, add_members home current n w q es).
Proof.
  intros n. revert w. induction es as [|e es IH]; intros w; cbn [add_members]; [apply option_le_refl|].
  apply option_le_bind; [|done]. unfold add_member. fuel_events.
Qed.

Lemma run_op_fuel s op : fuel_mono (λ n, run_op home current n s op).
Proof.
  intros n. destruct s as [X w]. destruct op as [|e|e|e|e c|e c|q es| |e drv]; cbn [run_op]; try apply option_le_refl.
  - apply option_le_bind; [apply drop_handle_fuel|]. intros. apply option_le_refl.
  - apply option_le_bind; [apply trigger_fuel|]. intros. apply option_le_refl.
  - apply option_le_bind; [|intros; apply option_le_refl]. unfold make. destruct (new_quorum w q) as [x w1].
    apply option_le_bind; [apply add_members_fuel|]. intros w2. apply option_le_bind; [|intros; apply option_le_refl].
    unfold seal. fuel_events.
  - apply option_le_bind; [apply driver_trigger_fuel|]. intros. apply option_le_refl.
Qed.
End FuelOps.

Lemma reached_step home current n X w op X' w' :
  reached home current X w → legal X op → (∀ k, run_op home current (n + k) (X, w) op = Some (X', w')) →
  reached home current X' w'.
Proof.
  intros Hr Hl He. eapply reached_op; [done|done|]. exists n. intros k Hk.
  replace k with (n + (k - n))%nat by lia. apply He.
Qed.

Ltac sample_legal :=
  lazymatch goal with
  | |- legal _ (O_make _ _) => split; [lia|]; intros [|[|[|e]]]; vm_compute; lia
  | |- _ => first [exact I|vm_compute; lia]
  end.

(** One operation of a concrete run: compute the next world. *)
Ltac run_step op :=
  match goal with
  | H : reached ?home ?current ?X ?w |- _ =>
      let r := eval vm_compute in (λ k : nat, run_op home current (20 + k) (X, w) op) in
      match r with
      | λ _, Some (?X', ?w') =>
          let H' := fresh in
          assert (H' : reached home current X' w')
            by (apply (reached_step home current 20 X w op X' w' H); [sample_legal|intros k; vm_compute; reflexivity]);
          clear H; rename H' into H
      end
  end.

(** A program that makes two events and a quorum of both, waits for the quorum
    and triggers one of the events. *)
Lemma sample_reached : ∃ X w, reached (λ _, O) 0 X w ∧ (0 < X 1)%nat ∧
  ∃ b, bodies w !! 2%nat = Some b ∧ ef_triggered b = false.
Proof.
  pose proof (reached_init (λ _, O) 0) as H.
  run_step O_new. run_step O_new. run_step (O_copy 0). run_step (O_copy 1).
  run_step (O_make 2 [Some 0%nat; Some 1%nat]). run_step (O_wait 2 7). run_step (O_trigger 0).
  eexists _, _. split; [exact H|]. split; [vm_compute; lia|]. eexists. split; [vm_compute; reflexivity|done].
Defined.


Lemma events_safe_witness : ∃ X w, reached (λ _, O) 0 X w ∧ legal X (O_trigger 1) ∧
  ∃ X' w', enough (λ n, run_op (λ _, O) 0 n (X, w) (O_trigger 1)) (X', w') ∧ reached (λ _, O) 0 X' w'.
Proof.
  destruct sample_reached as (X & w & Hr & HX & _). exists X, w. split; [done|]. split; [done|].
  by apply (events_safe (λ _, O) 0 X w (O_trigger 1)).
Defined.

Lemma quorums_exact_witness : ∃ X w b, reached (λ _, O) 0 X w ∧ bodies w !! 2%nat = Some b ∧
  refcount_ b = (X 2 + queued w 2 + length (quorums (listeners_ b)))%nat.
Proof.
  destruct sample_reached as (X & w & Hr & _ & b & Hb & _). exists X, w, b. split; [done|]. split; [done|].
  by apply (proj2 (quorums_exact (λ _, O) 0 X w Hr) 2%nat b Hb).
Defined.
