(* ===== verification/EventHandles.v ===== *)
(** Events as a program uses them: [event_handle] and [event], the smart
    pointers of [src/cotamer/cotamer_impl.hh], over the bodies of [Events].

    A program is its variables, each holding a handle or null, and the world of
    event bodies.  [EventSafety] counts the handles that a program holds; here
    the count is that of the variables.  A combinator takes its arguments, in
    order, before it builds the quorum: taking one changes only the variable and
    the reference count of its body, which the quorum does not read.  The fuel of
    a step is that of the calls it makes on [Events]. *)

From S2P Require Import Prelude Events EventSafety.
Import Handles.

(** A variable by its address, with the body it refers to. *)
Record program := Program { vars : gmap nat (option nat); ew : world }.

Section Ops.
Context (home : nat → nat) (current : nat).

(** * Handles *)

Definition copy_body (o : option nat) (w : world) : option world :=
  match o with Some e => ref w e 1 | None => Some w end.
Definition drop_body (fuel : nat) (o : option nat) (w : world) : option world :=
  match o with Some e => drop_handle home current fuel w e | None => Some w end.

(** The destructor, and the constructors. *)
Definition handle_destroy (fuel : nat) (x : nat) (p : program) : option program :=
  o ← vars p !! x;
  w ← drop_body fuel o (ew p);
  Some (Program (delete x (vars p)) w).

Definition handle_new (x : nat) (o : option nat) (w : world) (p : program) : program := Program (<[x := o]> (vars p)) w.

Definition handle_copy (x y : nat) (p : program) : option program :=
  o ← vars p !! y;
  w ← copy_body o (ew p);
  Some (handle_new x o w p).

Definition handle_move (x y : nat) (p : program) : option program :=
  o ← vars p !! y;
  Some (Program (<[x := o]> (<[y := None]> (vars p))) (ew p)).

(** The assignments make a temporary, swap with it and destroy it. *)
Definition swap_drop (fuel : nat) (x : nat) (tmp : option nat) (p : program) : option program :=
  o ← vars p !! x;
  w ← drop_body fuel o (ew p);
  Some (Program (<[x := tmp]> (vars p)) w).

Definition handle_assign_null (fuel : nat) (x : nat) (p : program) : option program := swap_drop fuel x None p.

Definition handle_assign (fuel : nat) (x y : nat) (p : program) : option program :=
  if bool_decide (x = y) then Some p
  else
    o ← vars p !! y;
    w ← copy_body o (ew p);
    swap_drop fuel x o (Program (vars p) w).

Definition handle_move_assign (fuel : nat) (x y : nat) (p : program) : option program :=
  if bool_decide (x = y) then Some p
  else
    o ← vars p !! y;
    swap_drop fuel x o (Program (<[y := None]> (vars p)) (ew p)).

Definition handle_swap (x y : nat) (p : program) : option program :=
  o ← vars p !! x;
  o' ← vars p !! y;
  Some (Program (<[y := o]> (<[x := o']> (vars p))) (ew p)).

(** * Events *)

Definition event_default (x : nat) (p : program) : program :=
  let '(e, w) := new_event (ew p) in handle_new x (Some e) w p.
Definition event_null (x : nat) (p : program) : program := handle_new x None (ew p) p.

(** [triggered], [empty], [idle] and [user_flags] of a variable: a null handle
    has triggered. *)
Definition event_triggered (x : nat) (p : program) : option bool :=
  o ← vars p !! x;
  match o with None => Some true | Some e => b ← bodies (ew p) !! e; Some (ef_triggered b) end.
Definition event_empty (x : nat) (p : program) : option bool :=
  o ← vars p !! x;
  match o with None => Some true | Some e => b ← bodies (ew p) !! e; Some (body_empty b) end.
Definition event_idle (x : nat) (p : program) : option bool :=
  o ← vars p !! x;
  match o with None => Some true | Some e => b ← bodies (ew p) !! e; Some (body_idle b) end.
Definition event_user_flags (x : nat) (p : program) : option Z :=
  o ← vars p !! x;
  match o with None => Some 0 | Some e => b ← bodies (ew p) !! e; Some (Z.shiftr (user_flags b) 6) end.
Definition event_eq (x y : nat) (p : program) : option bool :=
  o ← vars p !! x; o' ← vars p !! y; Some (bool_decide (o = o')).

Definition event_trigger (fuel : nat) (x : nat) (p : program) : option (bool * program) :=
  o ← vars p !! x;
  match o with
  | None => Some (false, p)
  | Some e => r ← trigger home current fuel (ew p) e; Some (r.1, Program (vars p) r.2)
  end.

Definition event_arm (fuel : nat) (x : nat) (p : program) : option program :=
  t ← event_triggered x p;
  if t : bool then let '(e, w) := new_event (ew p) in swap_drop fuel x (Some e) (Program (vars p) w)
  else Some p.

(** ** Combinators

    An argument is a variable, copied, or moved from. *)
Inductive arg := A_copy (y : nat) | A_move (y : nat).

Definition take_arg (a : arg) (p : program) : option (option nat * program) :=
  match a with
  | A_copy y => o ← vars p !! y; w ← copy_body o (ew p); Some (o, Program (vars p) w)
  | A_move y => o ← vars p !! y; Some (o, Program (<[y := None]> (vars p)) (ew p))
  end.

Fixpoint take_args (xs : list arg) (p : program) : option (list (option nat) * program) :=
  match xs with
  | [] => Some ([], p)
  | a :: xs => r ← take_arg a p; rs ← take_args xs r.2; Some (r.1 :: rs.1, rs.2)
  end.

(** [x] becomes [any(...)] or [all(...)]: no argument, one, or several. *)
Definition combine (quorum : nat → nat) (none : nat → program → program) (fuel : nat) (x : nat) (xs : list arg) (p : program) :
    option program :=
  match xs with
  | [] => Some (none x p)
  | [a] => r ← take_arg a p; Some (handle_new x r.1 (ew r.2) r.2)
  | _ =>
      r ← take_args xs p;
      q ← make home current fuel (ew r.2) (quorum (length xs)) r.1;
      Some (handle_new x (Some q.1) q.2 r.2)
  end.
Definition event_any : nat → nat → list arg → program → option program := combine (λ _, 1%nat) event_default.
Definition event_all : nat → nat → list arg → program → option program := combine (λ n, n) event_null.

(** * Steps *)

Inductive handle_op :=
  | H_default (x : nat)
  | H_null (x : nat)
  | H_copy (x y : nat)
  | H_move (x y : nat)
  | H_destroy (x : nat)
  | H_assign_null (x : nat)
  | H_assign (x y : nat)
  | H_move_assign (x y : nat)
  | H_swap (x y : nat)
  | H_trigger (x : nat)
  | H_arm (x : nat)
  | H_any (x : nat) (xs : list arg)
  | H_all (x : nat) (xs : list arg).

Definition run_handle (op : handle_op) (p : program) (fuel : nat) : option program :=
  match op with
  | H_default x => Some (event_default x p)
  | H_null x => Some (event_null x p)
  | H_copy x y => handle_copy x y p
  | H_move x y => handle_move x y p
  | H_destroy x => handle_destroy fuel x p
  | H_assign_null x => handle_assign_null fuel x p
  | H_assign x y => handle_assign fuel x y p
  | H_move_assign x y => handle_move_assign fuel x y p
  | H_swap x y => handle_swap x y p
  | H_trigger x => r ← event_trigger fuel x p; Some r.2
  | H_arm x => event_arm fuel x p
  | H_any x xs => event_any fuel x xs p
  | H_all x xs => event_all fuel x xs p
  end.

Definition arg_var (a : arg) : nat := match a with A_copy y | A_move y => y end.

(** Variables are made at free addresses and used while they exist. *)
Definition op_legal (p : program) (op : handle_op) : Prop :=
  match op with
  | H_default x | H_null x => vars p !! x = None
  | H_copy x y | H_move x y => vars p !! x = None ∧ is_Some (vars p !! y)
  | H_destroy x | H_assign_null x | H_trigger x | H_arm x => is_Some (vars p !! x)
  | H_assign x y | H_move_assign x y | H_swap x y => is_Some (vars p !! x) ∧ is_Some (vars p !! y)
  | H_any x xs | H_all x xs => vars p !! x = None ∧ ∀ a, a ∈ xs → is_Some (vars p !! arg_var a)
  end.

(** * The count of handles is that of the variables *)

Definition held (vs : gmap nat (option nat)) (e : nat) : nat := Z.to_nat (count vs e).
Definition unit (o : option nat) (e : nat) : nat := if decide (o = Some e) then 1%nat else 0%nat.

Lemma unit_one o e : Z.of_nat (unit o e) = one o e.
Proof. unfold unit, one. by destruct (decide _). Qed.

Lemma held_count vs e : Z.of_nat (held vs e) = count vs e.
Proof. unfold held. pose proof (count_bound vs e). lia. Qed.

Lemma held_new vs x o e : vs !! x = None → held (<[x := o]> vs) e = (held vs e + unit o e)%nat.
Proof. intros H. pose proof (count_new vs x o e H). pose proof (held_count (<[x := o]> vs) e). pose proof (held_count vs e). pose proof (unit_one o e). lia. Qed.

Lemma held_set vs x o o' e : vs !! x = Some o → (held (<[x := o']> vs) e + unit o e = held vs e + unit o' e)%nat.
Proof.
  intros H. pose proof (count_set vs x o o' e H). pose proof (held_count (<[x := o']> vs) e). pose proof (held_count vs e).
  pose proof (unit_one o e). pose proof (unit_one o' e). lia.
Qed.

Lemma held_delete vs x o e : vs !! x = Some o → (held (delete x vs) e + unit o e = held vs e)%nat.
Proof.
  intros H. pose proof (count_delete vs x o e H). pose proof (held_count (delete x vs) e). pose proof (held_count vs e). pose proof (unit_one o e). lia.
Qed.

Lemma held_pos vs x e : vs !! x = Some (Some e) → (0 < held vs e)%nat.
Proof.
  intros H. assert (count vs e ≠ 0) by (apply count_pos; by exists x). pose proof (held_count vs e). pose proof (count_bound vs e). lia.
Qed.

Lemma unit_none e : unit None e = 0%nat.
Proof. done. Qed.

(** The variables, and handles [X] that are on their way, account for all. *)
Definition good (X : nat → nat) (p : program) : Prop := safe (λ e, (held (vars p) e + X e)%nat) (ew p).

Lemma good_eq (X X' : nat → nat) vs vs' w : good X (Program vs w) → (∀ e, (held vs e + X e = held vs' e + X' e)%nat) → good X' (Program vs' w).
Proof. intros H E. eapply safe_ext; [|exact H]. exact E. Qed.

Definition no_more : nat → nat := λ _, 0%nat.
Definition plus (X : nat → nat) (o : option nat) (e : nat) : nat := (X e + unit o e)%nat.

Lemma copy_good X vs w o : good X (Program vs w) → (∀ e, o = Some e → (0 < held vs e)%nat) →
  ∃ w', copy_body o w = Some w' ∧ good (plus X o) (Program vs w').
Proof.
  intros H Ho. destruct o as [e|]; [|exists w; split; [done|]; eapply good_eq; [exact H|]; intros e; unfold plus; rewrite unit_none; lia].
  specialize (Ho e eq_refl). destruct (run_op_safe home current _ w (O_copy e) H) as (X' & w' & [n E] & H').
  { cbn. lia. }
  specialize (E n (Nat.le_refl n)). cbn [run_op] in E. apply bind_Some in E as (w1 & E1 & E). injection E as <- <-.
  exists w1. split; [done|]. eapply safe_ext; [|exact H']. intros x. cbn. unfold inc, plus, unit.
  destruct (decide (x = e)) as [->|Hne]; [rewrite decide_True by done|rewrite decide_False by congruence]; lia.
Qed.

Lemma drop_good X vs w o : good (plus X o) (Program vs w) →
  ∃ w', enough (λ n, drop_body n o w) w' ∧ good X (Program vs w').
Proof.
  intros H. destruct o as [e|]; cbn [drop_body].
  - destruct (drop_safe home current _ w e H) as (w' & E & H').
    { cbn. unfold plus, unit. rewrite decide_True by done. lia. }
    exists w'. split; [done|]. eapply safe_ext; [|exact H']. intros x. cbn. unfold dec, plus, unit.
    destruct (decide (x = e)) as [->|Hne]; [rewrite decide_True by done|rewrite decide_False by congruence]; lia.
  - exists w. split; [by apply enough_ret|]. eapply good_eq; [exact H|]. intros x. unfold plus. rewrite unit_none. lia.
Qed.

Lemma new_good X vs w e w' : good X (Program vs w) → new_event w = (e, w') → good (plus X (Some e)) (Program vs w').
Proof.
  intros H En. destruct (run_op_safe home current _ w O_new H I) as (X' & w1 & [n E] & H').
  specialize (E n (Nat.le_refl n)). cbn [run_op] in E. rewrite En in E. injection E as <- <-.
  eapply safe_ext; [|exact H']. intros x. cbn. unfold inc, plus, unit.
  destruct (decide (x = e)) as [->|Hne]; [rewrite decide_True by done|rewrite decide_False by congruence]; lia.
Qed.

(** Putting a handle on its way into a new variable. *)
Lemma put_good X vs w x o : good (plus X o) (Program vs w) → vs !! x = None → good X (Program (<[x := o]> vs) w).
Proof. intros H Hx. eapply good_eq; [exact H|]. intros e. rewrite held_new by done. unfold plus. lia. Qed.

Lemma swap_good X vs w x o tmp : good (plus X tmp) (Program vs w) → vs !! x = Some o →
  ∃ p', enough (λ n, swap_drop n x tmp (Program vs w)) p' ∧ good X p' ∧ dom (vars p') = dom vs.
Proof.
  intros H Hx. destruct (drop_good X (<[x := tmp]> vs) w o) as (w' & E & H').
  { eapply good_eq; [exact H|]. intros e. pose proof (held_set vs x o tmp e Hx). unfold plus. lia. }
  exists (Program (<[x := tmp]> vs) w'). split; [|split; [done|]].
  - unfold swap_drop. cbn [vars ew]. rewrite Hx. cbn [mbind option_bind].
    apply (enough_bind _ (λ _ w, Some (Program (<[x := tmp]> vs) w)) _ _ E). by apply enough_ret.
  - cbn. rewrite dom_insert_L. assert (x ∈ dom vs) by (apply elem_of_dom; by exists o). set_solver.
Qed.

(** Taking arguments. *)
Definition plus_all (X : nat → nat) (os : list (option nat)) (e : nat) : nat := (X e + occ (Some e) os)%nat.

Lemma take_good X p a : good X p → is_Some (vars p !! arg_var a) →
  ∃ o p', take_arg a p = Some (o, p') ∧ good (plus X o) p' ∧ dom (vars p') = dom (vars p).
Proof.
  intros H [o Ho]. destruct p as [vs w]. destruct a as [y|y]; cbn [take_arg arg_var vars ew] in *; rewrite Ho; cbn [mbind option_bind].
  - destruct (copy_good X vs w o H) as (w' & E & H'); [intros e ->; by eapply held_pos|]. rewrite E. by exists o, (Program vs w').
  - eexists o, _. split; [done|]. split.
    + eapply good_eq; [exact H|]. intros e. pose proof (held_set vs y o None e Ho) as E. rewrite unit_none in E. unfold plus. lia.
    + cbn. rewrite dom_insert_L. assert (y ∈ dom vs) by (apply elem_of_dom; by exists o). set_solver.
Qed.

Lemma take_all_good xs : ∀ X p, good X p → (∀ a, a ∈ xs → arg_var a ∈ dom (vars p)) →
  ∃ os p', take_args xs p = Some (os, p') ∧ good (plus_all X os) p' ∧ dom (vars p') = dom (vars p) ∧ length os = length xs.
Proof.
  induction xs as [|a xs IH]; intros X p H Hx; cbn [take_args].
  { exists [], p. split; [done|]. split; [|done]. eapply safe_ext; [|exact H]. intros e. unfold plus_all. rewrite occ_nil. lia. }
  destruct (take_good X p a H) as (o & p1 & -> & H1 & D1); [apply elem_of_dom, Hx; by left|]. cbn [mbind option_bind fst snd].
  destruct (IH (plus X o) p1 H1) as (os & p2 & -> & H2 & D2 & L2); [intros b Hb; rewrite D1; apply Hx; by right|].
  cbn [mbind option_bind fst snd]. exists (o :: os), p2. split; [done|]. split; [|split; [congruence|cbn; congruence]].
  eapply safe_ext; [|exact H2]. intros e. unfold plus_all, plus, unit. rewrite occ_cons.
  destruct (decide (o = Some e)); lia.
Qed.

Lemma make_good p q os : good (plus_all no_more os) p → (0 < q)%nat →
  ∃ e w', enough (λ n, make home current n (ew p) q os) (e, w') ∧ good (plus no_more (Some e)) (Program (vars p) w').
Proof.
  intros H Hq. destruct (run_op_safe home current _ (ew p) (O_make q os) H) as (X' & w' & E & H').
  { split; [done|]. intros e. unfold plus_all. lia. }
  cbn [run_op] in E. destruct E as [n E]. pose proof (E n (Nat.le_refl n)) as En. apply bind_Some in En as ([e w1] & E1 & En).
  injection En as <- <-. cbn [fst snd] in *. exists e, w1. split.
  - exists n. intros k Hk. specialize (E k Hk). apply bind_Some in E as ([e2 w2] & E2 & E). injection E as EX Ew. cbn in Ew. subst w2.
    rewrite E2. do 2 f_equal.
    destruct (decide (e2 = e)) as [|Hne]; [done|]. exfalso.
    assert (Ha : give_all os (inc e2 (λ e, (held (vars p) e + plus_all no_more os e)%nat)) e2 =
                 give_all os (inc e (λ e, (held (vars p) e + plus_all no_more os e)%nat)) e2) by (by rewrite EX).
    rewrite !give_all_occ in Ha. unfold inc, plus_all in Ha. rewrite decide_True, decide_False in Ha by done. lia.
  - eapply safe_ext; [|exact H']. intros x. cbn. rewrite give_all_occ. unfold inc, plus, plus_all, unit, no_more.
    destruct (decide (x = e)) as [->|Hne]; [rewrite decide_True by done|rewrite decide_False by congruence]; lia.
Qed.

Lemma combine_good quorum none x xs p :
  good no_more p → vars p !! x = None → (∀ a, a ∈ xs → is_Some (vars p !! arg_var a)) → (0 < quorum (length xs))%nat ∨ (length xs < 2)%nat →
  good no_more (none x p) →
  ∃ p', enough (λ n, combine quorum none n x xs p) p' ∧ good no_more p'.
Proof.
  intros H Hx Hxs Hq Hn. destruct xs as [|a [|b xs]]; unfold combine.
  - exists (none x p). split; [by apply enough_ret|done].
  - destruct (take_good _ p a H) as (o & p1 & -> & H1 & D1); [apply Hxs; by left|]. cbn [mbind option_bind fst snd].
    eexists. split; [by apply enough_ret|]. destruct p1 as [vs1 w1]. apply put_good; [done|].
    apply not_elem_of_dom. cbn in D1 |- *. rewrite D1. by apply not_elem_of_dom.
  - set (ys := a :: b :: xs) in *. destruct (take_all_good ys _ p H) as (os & p1 & -> & H1 & D1 & L1).
    { intros c Hc. apply elem_of_dom. by apply Hxs. }
    cbn [mbind option_bind fst snd]. destruct (make_good p1 (quorum (length ys)) os H1) as (e & w' & E & H').
    { destruct Hq as [?|Hq]; [done|]. cbn in Hq. lia. }
    eexists. split; [apply (enough_bind _ (λ _ q, Some (handle_new x (Some q.1) q.2 p1)) _ _ E); by apply enough_ret|].
    apply put_good; [done|]. apply not_elem_of_dom. rewrite D1. by apply not_elem_of_dom.
Qed.

Lemma good_plus_none X p : good X p → good (plus X None) p.
Proof. intros H. eapply safe_ext; [|exact H]. intros e. unfold plus. rewrite unit_none. lia. Qed.

Lemma event_default_good x p : good no_more p → vars p !! x = None → good no_more (event_default x p).
Proof.
  intros H Hx. unfold event_default. destruct p as [vs w]. cbn [ew]. destruct (new_event w) as [e w'] eqn:En.
  apply put_good; [|done]. by eapply new_good.
Qed.

Lemma event_null_good x p : good no_more p → vars p !! x = None → good no_more (event_null x p).
Proof. intros H Hx. destruct p as [vs w]. apply put_good; [|done]. by apply good_plus_none. Qed.

Lemma held_live_var X p x e : good X p → vars p !! x = Some (Some e) → ∃ b, bodies (ew p) !! e = Some b.
Proof. intros H Hx. eapply held_live; [exact H|]. cbn. pose proof (held_pos _ _ _ Hx). lia. Qed.

Lemma arm_good p x : good no_more p → is_Some (vars p !! x) → ∃ p', enough (λ n, event_arm n x p) p' ∧ good no_more p'.
Proof.
  intros H [o Ho]. unfold event_arm.
  assert (Ht : ∃ t, event_triggered x p = Some t).
  { unfold event_triggered. rewrite Ho. cbn. destruct o as [e|]; [|by eexists]. destruct (held_live_var _ p x e H Ho) as [b ->]. by eexists. }
  destruct Ht as [t ->]. cbn [mbind option_bind]. destruct t; [|exists p; split; [by apply enough_ret|done]].
  destruct p as [vs w]. cbn [vars ew] in *. destruct (new_event w) as [e w'] eqn:En.
  destruct (swap_good no_more vs w' x o (Some e)) as (p' & E & H' & _); [by eapply new_good|done|]. by exists p'.
Qed.

Lemma run_handle_good p op : good no_more p → op_legal p op →
  ∃ p', enough (run_handle op p) p' ∧ good no_more p'.
Proof.
  intros H Hl. destruct p as [vs w]. change (∃ p', enough (λ n, run_handle op (Program vs w) n) p' ∧ good no_more p').
  destruct op as [x|x|x y|x y|x|x|x y|x y|x y|x|x|x xs|x xs]; cbn [op_legal run_handle vars] in *.
  - eexists. split; [by apply enough_ret|]. by apply event_default_good.
  - eexists. split; [by apply enough_ret|]. by apply event_null_good.
  - destruct Hl as [Hx [o Ho]]. destruct (copy_good _ vs w o H) as (w' & E & H'); [intros e ->; by eapply held_pos|].
    exists (Program (<[x := o]> vs) w'). split; [|by apply put_good]. apply enough_ret. unfold handle_copy. cbn [vars ew].
    rewrite Ho. cbn [mbind option_bind]. by rewrite E.
  - destruct Hl as [Hx [o Ho]]. exists (Program (<[x := o]> (<[y := None]> vs)) w).
    split; [apply enough_ret; unfold handle_move; cbn [vars ew]; by rewrite Ho|].
    assert (Hne : x ≠ y) by congruence. eapply good_eq; [exact H|]. intros e. rewrite held_new by (by rewrite lookup_insert_ne).
    pose proof (held_set vs y o None e Ho) as E. rewrite unit_none in E. lia.
  - destruct Hl as [o Ho]. destruct (drop_good no_more (delete x vs) w o) as (w' & E & H').
    { eapply good_eq; [exact H|]. intros e. pose proof (held_delete vs x o e Ho). unfold plus. lia. }
    eexists. split; [|exact H']. unfold handle_destroy. cbn [vars ew]. rewrite Ho. cbn [mbind option_bind].
    apply (enough_bind _ (λ _ w, Some (Program (delete x vs) w)) _ _ E). by apply enough_ret.
  - destruct Hl as [o Ho]. destruct (swap_good no_more vs w x o None) as (p' & E & H' & _); [by apply good_plus_none|done|]. by exists p'.
  - destruct Hl as [[o Ho] [o' Ho']]. unfold handle_assign. destruct (bool_decide (x = y)) eqn:Exy;
      [eexists; split; [by apply enough_ret|done]|]. cbn [vars ew]. rewrite Ho'. cbn [mbind option_bind].
    destruct (copy_good _ vs w o' H) as (w' & E & H'); [intros e ->; by eapply held_pos|]. rewrite E. cbn [mbind option_bind].
    destruct (swap_good no_more vs w' x o o' H' Ho) as (p' & E' & H'' & _). by exists p'.
  - destruct Hl as [[o Ho] [o' Ho']]. unfold handle_move_assign. destruct (bool_decide (x = y)) eqn:Exy;
      [eexists; split; [by apply enough_ret|done]|]. apply bool_decide_eq_false in Exy. cbn [vars ew]. rewrite Ho'. cbn [mbind option_bind].
    destruct (swap_good no_more (<[y := None]> vs) w x o o') as (p' & E' & H'' & _).
    + eapply good_eq; [exact H|]. intros e. pose proof (held_set vs y o' None e Ho') as E. rewrite unit_none in E. unfold plus. lia.
    + by rewrite lookup_insert_ne.
    + by exists p'.
  - destruct Hl as [[o Ho] [o' Ho']]. exists (Program (<[y := o]> (<[x := o']> vs)) w).
    split; [apply enough_ret; unfold handle_swap; cbn [vars ew]; rewrite Ho; cbn [mbind option_bind]; by rewrite Ho'|].
    eapply good_eq; [exact H|]. intros e. pose proof (held_set vs x o o' e Ho) as E1.
    destruct (decide (x = y)) as [->|Hne].
    + assert (o = o') as -> by congruence. rewrite insert_insert_eq. lia.
    + pose proof (held_set (<[x := o']> vs) y o' o e ltac:(by rewrite lookup_insert_ne)) as E2. lia.
  - destruct Hl as [o Ho]. unfold event_trigger. cbn [vars ew]. rewrite Ho. cbn [mbind option_bind]. destruct o as [e|].
    + destruct (run_op_safe home current _ w (O_trigger e) H) as (X' & w' & E & H'); [cbn; pose proof (held_pos vs x e Ho); lia|].
      cbn [run_op] in E. destruct E as [n E]. pose proof (E n (Nat.le_refl n)) as En. apply bind_Some in En as ([r w1] & E1 & En).
      injection En as <- <-. exists (Program vs w1). split; [|exact H']. exists n. intros k Hk. specialize (E k Hk).
      apply bind_Some in E as ([r2 w2] & E2 & E). injection E as Ew. cbn in Ew. rewrite E2. cbn. by rewrite Ew.
    + eexists. split; [by apply enough_ret|done].
  - by apply arm_good.
  - destruct Hl as [Hx Hxs]. apply combine_good; try done; [by left; lia|by apply event_default_good].
  - destruct Hl as [Hx Hxs]. apply combine_good; try done; [|by apply event_null_good]. destruct xs as [|a xs]; [by right; cbn; lia|left; cbn; lia].
Qed.

(** ** Reachable programs *)

Inductive run_to : program → Prop :=
  | run_start : run_to (Program ∅ (World ∅ 0 [] [] []))
  | run_step p op p' : run_to p → op_legal p op → enough (run_handle op p) p' → run_to p'.

Lemma run_to_good p : run_to p → good no_more p.
Proof.
  induction 1 as [|p op p' _ IH Hl E].
  - apply (safe_ext (λ _, 0%nat)); [|apply (reached_safe home current), reached_init]. intros e. unfold held. cbn [vars]. by vm_compute.
  - destruct (run_handle_good p op IH Hl) as (p1 & E1 & H1). by rewrite (enough_unique _ _ _ E E1).
Qed.

(** C20 The smart pointers keep events alive, and no longer.  In every program
    that copies, moves, assigns, swaps, re-arms and combines events: each legal
    operation succeeds, without touching a freed body; a variable refers to a
    body that exists; and the reference count of a body is the number of
    variables that refer to it, of places in the driver's queues, and of quorums
    it will inform, which is never zero. *)
Theorem event_handles_exact (p : program) : run_to p →
  (∀ op, op_legal p op → ∃ p', enough (run_handle op p) p' ∧ run_to p') ∧
  (∀ x e, vars p !! x = Some (Some e) → is_Some (bodies (ew p) !! e)) ∧
  (∀ e b, bodies (ew p) !! e = Some b →
     Z.of_nat (refcount_ b) = count (vars p) e + Z.of_nat (queued (ew p) e + length (quorums (listeners_ b)))) ∧
  (∀ e b, bodies (ew p) !! e = Some b → queued (ew p) e = 0%nat → quorums (listeners_ b) = [] → ∃ x, vars p !! x = Some (Some e)).
Proof.
  intros Hr. pose proof (run_to_good p Hr) as H. pose proof H as (rank & Hw & _).
  assert (Hnot : ∀ q m, m ∈ mem (ew p) q → ¬ fired (ew p) m).
  { intros q m Hq Hf. assert (Hp : (m, q) ∈ @nil (nat * nat)); [|inversion Hp]. by eapply fired_pending. }
  assert (Href : ∀ e b, bodies (ew p) !! e = Some b →
     refcount_ b = (held (vars p) e + queued (ew p) e + length (quorums (listeners_ b)))%nat ∧ refcount_ b ≠ 0%nat).
  { intros e b Hb. split; [pose proof (wf_ref _ _ _ _ _ Hw e b Hb) as E; cbn in E; unfold no_more in E; lia|]. intros E.
    destruct (wf_zero _ _ _ _ _ Hw e b ltac:(set_solver) Hb E) as (q & Hq & Hne & Hf).
    destruct (members_ q) as [|m l] eqn:Em; [done|]. apply (Hnot e m); [|apply Hf; by left].
    rewrite (mem_eq (ew p) e b Hb). unfold members_of. rewrite Hq, Em. by left. }
  split; [|split; [|split]].
  - intros op Hl. destruct (run_handle_good p op H Hl) as (p' & E & _). exists p'. split; [done|]. by eapply run_step.
  - intros x e Hx. destruct (held_live_var _ p x e H Hx) as [b Hb]. by exists b.
  - intros e b Hb. destruct (Href e b Hb) as [E _]. rewrite E. pose proof (held_count (vars p) e). lia.
  - intros e b Hb Hq Hl. destruct (Href e b Hb) as [E Hne]. rewrite Hq, Hl in E. cbn in E. apply count_pos.
    pose proof (held_count (vars p) e). lia.
Qed.
End Ops.

(** Two variables, a quorum of both, and the first one triggered and re-armed. *)
Definition sample_ops : list handle_op :=
  [H_default 1; H_default 2; H_any 3 [A_copy 1; A_move 2]; H_trigger 1; H_arm 1; H_copy 4 3; H_destroy 3].

Fixpoint run_ops (ops : list handle_op) (p : program) : option program :=
  match ops with [] => Some p | op :: ops => p ← run_handle (λ _, 0%nat) 0 op p 20; run_ops ops p end.

Example sample_vars :
  (λ p, (map_to_list (vars p), (λ b, (refcount_ b, ef_triggered b)) <$> (bodies (ew p) !! 2%nat))) <$>
    run_ops sample_ops (Program ∅ (World ∅ 0 [] [] [])) =
  Some ([(4, Some 2); (2, None); (1, Some 3)]%nat, Some (1%nat, true)).
Proof. vm_compute. reflexivity. Qed.

Lemma event_handles_exact_witness : ∃ p, run_to (λ _, 0%nat) 0 p ∧ vars p !! 2%nat = Some (Some 0%nat) ∧
  (∀ e b, bodies (ew p) !! e = Some b →
     Z.of_nat (refcount_ b) = count (vars p) e + Z.of_nat (queued (ew p) e + length (quorums (listeners_ b)))).
Proof.
  set (p0 := Program ∅ (World ∅ 0 [] [] [])). set (p1 := event_default 1 p0).
  assert (H1 : run_to (λ _, 0%nat) 0 p1).
  { eapply (run_step _ _ p0 (H_default 1)); [apply run_start|done|by apply enough_ret]. }
  assert (H2 : ∃ p2, handle_copy 2 1 p1 = Some p2 ∧ vars p2 !! 2%nat = Some (Some 0%nat)) by (eexists; split; [vm_compute; reflexivity|reflexivity]).
  destruct H2 as (p2 & E2 & Hv). exists p2.
  assert (H2 : run_to (λ _, 0%nat) 0 p2).
  { eapply (run_step _ _ p1 (H_copy 2 1)); [done|split; [done|by eexists]|]. apply enough_ret. intros n. exact E2. }
  split; [done|]. split; [done|]. apply (event_handles_exact (λ _, 0%nat) 0%nat p2 H2).
Defined.
