(* ===== verification/FdEvents.v ===== *)
(** The file descriptor watches of the coroutine runtime: [fd_event_set] of
    [src/cotamer/event_handle.hh], [src/cotamer/cotamer_impl.hh] and
    [src/cotamer/io.cc], and what the driver does with them
    ([apply_fd_update], [notify_close]) towards the kernel's [epoll].

    The set keeps all watches in one array [ws_], threaded by indices into one
    list per descriptor and a free list; descriptors that may differ from the
    kernel's table form a third list.  An index [i] of the array has the link
    [i + 1]; 0 ends a list.  A loop along a list has one more fuel than there
    are elements; running out, or following a null handle, is [None].

    The events themselves live in [Events.v].  Here an event is its address,
    [dead] tells which events [event_body::empty] holds of at the moment, and
    the events an operation triggers are part of its result.  An array of 2^32
    watches does not fit in memory, so links to it do not wrap. *)

From stdpp Require Import functions.
From S2P Require Import Prelude.

(** * The sets *)

(** [fdevent]: a set of the bits read (1), write (2) and close (4). *)
Definition fd_none : Z := 0.
Definition fd_all : Z := 7.

Definition empty_epoch : Z := 0.
Definition internal_epoch : Z := 1.
Definition user_epoch : Z := 2.

Definition first_capacity : Z := 128.
Definition block_capacity : Z := 1024.

Definition link_sentinel : Z := u32 (-1).
Definition link_clean : Z := 0.

Record fdrec := Fdrec {
  body : option nat;
  epoch : Z;
  whead : Z;
  wtail : Z;
  update_link : Z
}.

Record watchrec := Watchrec {
  ev : option nat;
  mask : Z;
  wlink : Z
}.

Record fd_event_set := FdEventSet {
  fdrs_ : list fdrec;      (* [fdr_capacity_] is its length *)
  update_link_ : Z;
  ws_ : list watchrec;
  free_wlink_ : Z
}.

Record fd_update := FdUpdate { fu_fd : Z; fu_mask : Z; fu_epoch : Z }.

Definition new_fdrec : fdrec := Fdrec None 0 link_clean link_clean link_clean.
Definition new_fd_event_set : fd_event_set := FdEventSet [] link_sentinel [] 0.

Definition fdr_capacity_ (s : fd_event_set) : Z := size (fdrs_ s).

(** [ws_[wix - 1]] and [fdrs_[ufd]]. *)
Definition slot (wix : Z) : nat := Z.to_nat (wix - 1).
Definition watch_at (ws : list watchrec) (wix : Z) : option watchrec := ws !! slot wix.
Definition fdrec_at (s : fd_event_set) (ufd : Z) : option fdrec := fdrs_ s !! Z.to_nat ufd.

Definition set_fdrec (s : fd_event_set) (ufd : Z) (r : fdrec) : fd_event_set :=
  FdEventSet (<[Z.to_nat ufd := r]> (fdrs_ s)) (update_link_ s) (ws_ s) (free_wlink_ s).
Definition set_watches (s : fd_event_set) (ws : list watchrec) (free : Z) : fd_event_set :=
  FdEventSet (fdrs_ s) (update_link_ s) ws free.

Definition set_wlink (ws : list watchrec) (wix v : Z) : list watchrec :=
  alter (λ wr, Watchrec (ev wr) (mask wr) v) (slot wix) ws.

(** ** Growing the table *)

(** Double [ncapacity] until it exceeds [ufd]. *)
Fixpoint double_capacity (fuel : nat) (ufd ncapacity : Z) : Z :=
  match fuel with
  | O => ncapacity
  | S fuel => if ncapacity <=? ufd then double_capacity fuel ufd (u32 (ncapacity * 2)) else ncapacity
  end.

Definition new_capacity (capacity ufd : Z) : Z :=
  if block_capacity <=? ufd then u32 ((ufd / block_capacity + 1) * block_capacity)
  else double_capacity 10 ufd (Z.max first_capacity (u32 (capacity * 2))).

Definition hard_ensure (s : fd_event_set) (ufd : Z) : fd_event_set :=
  FdEventSet (fdrs_ s ++ replicate (Z.to_nat (new_capacity (fdr_capacity_ s) ufd - fdr_capacity_ s)) new_fdrec)
    (update_link_ s) (ws_ s) (free_wlink_ s).

(** Put a descriptor on the list of updates, unless it is there. *)
Definition queue_update (s : fd_event_set) (ufd : Z) : option fd_event_set :=
  r ← fdrec_at s ufd;
  if update_link r =? link_clean then
    let s := set_fdrec s ufd (Fdrec (body r) (epoch r) (whead r) (wtail r) (update_link_ s)) in
    Some (FdEventSet (fdrs_ s) (u32 (ufd + 1)) (ws_ s) (free_wlink_ s))
  else Some s.

(** ** Closing *)

Section Sets.
Context (dead : nat → bool) (closed : nat → bool).

(** The loop of [fd_close]: free the watches of the list at [wix] and hand back
    their events in order, each to be triggered. *)
Fixpoint close_loop (fuel : nat) (ws : list watchrec) (free wix : Z) : option (list nat * list watchrec * Z) :=
  match fuel with
  | O => None
  | S fuel =>
      if wix =? 0 then Some ([], ws, free)
      else
        wr ← watch_at ws wix;
        e ← ev wr;
        r ← close_loop fuel (<[slot wix := Watchrec None (mask wr) free]> ws) wix (wlink wr);
        Some (e :: r.1.1, r.1.2, r.2)
  end.

(** The body and the epoch before, or nothing, and the triggered events. *)
Definition fd_close (s : fd_event_set) (fd : Z) : option (option (nat * Z) * list nat * fd_event_set) :=
  let ufd := u32 fd in
  if fdr_capacity_ s <=? ufd then Some (None, [], s)
  else
    r ← fdrec_at s ufd;
    match body r with
    | None => Some (None, [], s)
    | Some b =>
        if negb (closed b) then Some (None, [], s)
        else
          c ← close_loop (S (length (ws_ s))) (ws_ s) (free_wlink_ s) (whead r);
          let '(es, ws, free) := c in
          let s := set_watches s ws free in
          let s := set_fdrec s ufd (Fdrec None (u32 (epoch r + 1)) 0 link_clean (update_link r)) in
          s ← queue_update s ufd;
          Some (Some (b, epoch r), es, s)
    end.

(** ** Watching *)

(** Take a slot from the free list, or a new one, for a watch of [imask]. *)
Definition new_watch (s : fd_event_set) (imask : Z) (e : nat) : option (Z * fd_event_set) :=
  let wix := free_wlink_ s in
  if negb (wix =? 0) then
    wr ← watch_at (ws_ s) wix;
    Some (wix, set_watches s (<[slot wix := Watchrec (Some e) imask link_clean]> (ws_ s)) (wlink wr))
  else
    let ws := ws_ s ++ [Watchrec (Some e) imask link_clean] in
    Some (size ws, set_watches s ws (free_wlink_ s)).

(** Append it to the list of the descriptor. *)
Definition append_watch (s : fd_event_set) (ufd imask : Z) (e : nat) : option fd_event_set :=
  n ← new_watch s imask e;
  let '(wix, s) := n in
  r ← fdrec_at s ufd;
  Some (if negb (whead r =? 0)
        then set_fdrec (set_watches s (set_wlink (ws_ s) (wtail r) wix) (free_wlink_ s)) ufd
               (Fdrec (body r) (epoch r) (whead r) wix (update_link r))
        else set_fdrec s ufd (Fdrec (body r) (epoch r) wix wix (update_link r))).

(** Give the descriptor to the body [b]: the body that gets and the one that
    loses the driver as a listener, and the events a forced close triggers. *)
Definition own_fd (s : fd_event_set) (fd : Z) (b : nat) :
    option (option nat * option nat * list nat * fd_event_set) :=
  let ufd := u32 fd in
  r ← fdrec_at s ufd;
  if bool_decide (body r = Some b) then Some (None, None, [], s)
  else
    lost ← (match body r with
            | None => Some (None, [], s)
            | Some _ => c ← fd_close s fd; p ← c.1.1; Some (Some p.1, c.1.2, c.2)
            end);
    let '(old, es, s) := lost in
    r ← fdrec_at s ufd;
    Some (Some b, old, es, set_fdrec s ufd (Fdrec (Some b) (epoch r) (whead r) (wtail r) (update_link r))).

(** [watch], with the address [e] of the new event. *)
Definition watch (s : fd_event_set) (fd imask : Z) (b e : nat) :
    option (option nat * option nat * list nat * fd_event_set) :=
  if (fd <? 0) || (imask =? fd_none) then Some (None, None, [], s)
  else
    let ufd := u32 fd in
    let s := if fdr_capacity_ s <=? ufd then hard_ensure s ufd else s in
    own ← own_fd s fd b;
    let '(added, removed, es, s) := own in
    s ← queue_update s ufd;
    s ← append_watch s ufd imask e;
    Some (added, removed, es, s).

(** ** Taking the watches of a notification *)

(** The local state of [take_watch_list]: the pointers [wpprev] and [fdpprev]
    are 0 for the list head they start at, and the link of a watch for its
    [wlink]. *)
Record taking := Taking {
  t_ws : list watchrec;
  t_whead : Z;
  t_wpprev : Z;
  t_fdhead : Z;
  t_fdpprev : Z;
  t_wtail : Z
}.

(** Assignment through such a pointer. *)
Definition store (p v : Z) (ws : list watchrec) (head : Z) : list watchrec * Z :=
  if p =? 0 then (ws, v) else (set_wlink ws p v, head).

Fixpoint take_loop (fuel : nat) (imask : Z) (t : taking) (wix : Z) : option taking :=
  match fuel with
  | O => None
  | S fuel =>
      if wix =? 0 then Some t
      else
        wr ← watch_at (t_ws t) wix;
        let next := wlink wr in
        hit ← (if negb (Z.land imask (mask wr) =? fd_none) then Some true else e ← ev wr; Some (dead e));
        if hit : bool then
          let '(ws, head) := store (t_wpprev t) wix (t_ws t) (t_whead t) in
          take_loop fuel imask (Taking ws head wix (t_fdhead t) (t_fdpprev t) (t_wtail t)) next
        else
          let '(ws, head) := store (t_fdpprev t) wix (t_ws t) (t_fdhead t) in
          take_loop fuel imask (Taking ws (t_whead t) (t_wpprev t) head wix wix) next
  end.

Definition take_watch_list (s : fd_event_set) (fd imask ep : Z) : option (Z * fd_event_set) :=
  let ufd := u32 fd in
  if fdr_capacity_ s <=? ufd then Some (0, s)
  else
    r ← fdrec_at s ufd;
    if (whead r =? 0) || (negb (ep =? 0) && negb (ep =? epoch r)) then Some (0, s)
    else
      t ← take_loop (S (length (ws_ s))) imask (Taking (ws_ s) 0 0 (whead r) 0 0) (whead r);
      let '(ws, fdhead) := store (t_fdpprev t) 0 (t_ws t) (t_fdhead t) in
      let '(ws, head) := store (t_wpprev t) 0 ws (t_whead t) in
      let s := set_watches s ws (free_wlink_ s) in
      let s := set_fdrec s ufd (Fdrec (body r) (epoch r) fdhead (t_wtail t) (update_link r)) in
      s ← (if negb (head =? 0) then queue_update s ufd else Some s);
      Some (head, s).

(** The event, the user flags to set on it, the rest of the list. *)
Definition pop_watch_list_event (s : fd_event_set) (wix m : Z) : option (option nat * option Z * Z * fd_event_set) :=
  wr ← watch_at (ws_ s) wix;
  let s' := set_watches s (<[slot wix := Watchrec None (mask wr) (free_wlink_ s)]> (ws_ s)) wix in
  let flags := match ev wr with Some _ => if negb (m =? fd_none) then Some (Z.shiftl m 6) else None | None => None end in
  Some (ev wr, flags, wlink wr, s').

(** ** Updates for the kernel *)

Definition has_update (s : fd_event_set) : bool := negb (update_link_ s =? link_sentinel).

Fixpoint watch_list_mask (fuel : nat) (ws : list watchrec) (wix m : Z) : option Z :=
  match fuel with
  | O => None
  | S fuel =>
      if wix =? 0 then Some m
      else
        wr ← watch_at ws wix;
        let live := match ev wr with Some e => negb (dead e) | None => false end in
        watch_list_mask fuel ws (wlink wr) (if live then Z.lor m (mask wr) else m)
  end.

Definition list_mask (s : fd_event_set) (wix : Z) : option Z :=
  watch_list_mask (S (length (ws_ s))) (ws_ s) wix fd_none.

Definition pop_update (s : fd_event_set) : option (option fd_update * fd_event_set) :=
  if update_link_ s =? link_sentinel then Some (None, s)
  else
    let ufd := u32 (update_link_ s - 1) in
    r ← fdrec_at s ufd;
    m ← list_mask s (whead r);
    let '(ep', ep) := if m =? fd_none then (u32 (epoch r + 1), epoch r)
                      else if epoch r <? user_epoch then (user_epoch, user_epoch) else (epoch r, epoch r) in
    let s := FdEventSet (fdrs_ s) (update_link r) (ws_ s) (free_wlink_ s) in
    Some (Some (FdUpdate ufd m ep), set_fdrec s ufd (Fdrec (body r) ep' (whead r) (wtail r) link_clean)).

(** ** Introspection *)

Definition fd_mask (s : fd_event_set) (fd : Z) : option Z :=
  let ufd := u32 fd in
  if fdr_capacity_ s <=? ufd then Some fd_none else r ← fdrec_at s ufd; list_mask s (whead r).

Definition known (r : fdrec) : bool := negb (whead r =? link_clean).

(** [next_known]: the search from [ufd] on. *)
Fixpoint next_known_from (s : fd_event_set) (rs : list fdrec) (ufd : Z) : option (option fd_update) :=
  match rs with
  | [] => Some None
  | r :: rs' =>
      if known r then m ← list_mask s (whead r); Some (Some (FdUpdate ufd m (epoch r)))
      else next_known_from s rs' (ufd + 1)
  end.
Definition next_known (s : fd_event_set) (fd : Z) : option (option fd_update) :=
  next_known_from s (drop (Z.to_nat (u32 (fd + 1))) (fdrs_ s)) (u32 (fd + 1)).

Fixpoint free_count (fuel : nat) (ws : list watchrec) (wix : Z) : option Z :=
  match fuel with
  | O => None
  | S fuel => if wix =? 0 then Some 0 else wr ← watch_at ws wix; n ← free_count fuel ws (wlink wr); Some (n + 1)
  end.
Definition active_watch_count (s : fd_event_set) : option Z :=
  n ← free_count (S (length (ws_ s))) (ws_ s) (free_wlink_ s); Some (size (ws_ s) - n).
End Sets.

(** * Lists of links *)


(** From [h] the links lead through [l] and on to [v]. *)
Fixpoint path (ws : list watchrec) (h : Z) (l : list Z) (v : Z) : Prop :=
  match l with
  | [] => h = v
  | x :: l' => h = x ∧ 0 < x ∧ ∃ wr, watch_at ws x = Some wr ∧ path ws (wlink wr) l' v
  end.

(** Where the link after [l] is kept: 0 is the head. *)
Definition tail (l : list Z) : Z := default 0 (last l).

(** What a watch is about, without its link. *)
Definition about (wr : watchrec) : option nat * Z := (ev wr, mask wr).

Definition same_about (ws ws' : list watchrec) : Prop := ∀ x, about <$> watch_at ws' x = about <$> watch_at ws x.

Section Paths.
Implicit Types (ws : list watchrec) (h v x y p : Z) (l k : list Z).

Lemma slot_inj x y : 0 < x → 0 < y → slot x = slot y → x = y.
Proof. unfold slot. lia. Qed.

Lemma watch_at_insert ws p wr x : 0 < x → 0 < p →
  watch_at (<[slot p := wr]> ws) x = if decide (x = p) then (λ _, wr) <$> watch_at ws x else watch_at ws x.
Proof.
  intros Hx Hp. unfold watch_at. destruct (decide (x = p)) as [->|Hne].
  - rewrite list_lookup_insert. destruct (decide _) as [[_ H]|H].
    + apply lookup_lt_is_Some in H as [wr' ->]. done.
    + rewrite lookup_ge_None_2; [done|]. destruct (decide (slot p < length ws)%nat); [|lia]. naive_solver.
  - apply list_lookup_insert_ne. intros E. by apply Hne, eq_sym, slot_inj.
Qed.

Lemma watch_at_set_wlink ws p v x : 0 < x → 0 < p →
  watch_at (set_wlink ws p v) x =
    if decide (x = p) then (λ wr, Watchrec (ev wr) (mask wr) v) <$> watch_at ws x else watch_at ws x.
Proof.
  intros Hx Hp. unfold watch_at, set_wlink. destruct (decide (x = p)) as [->|Hne].
  - apply list_lookup_alter_eq.
  - apply list_lookup_alter_ne. intros E. by apply Hne, eq_sym, slot_inj.
Qed.

Lemma set_wlink_about ws p v : same_about ws (set_wlink ws p v).
Proof.
  intros x. unfold watch_at, set_wlink. destruct (decide (slot x = slot p)) as [->|Hne].
  - rewrite list_lookup_alter_eq. by destruct (ws !! slot p).
  - by rewrite list_lookup_alter_ne.
Qed.

Lemma path_frame ws ws' h l v :
  (∀ x, 0 < x → x ∈ l → wlink <$> watch_at ws' x = wlink <$> watch_at ws x) → path ws h l v → path ws' h l v.
Proof.
  revert h. induction l as [|y l IH]; intros h Hf; [done|]. intros (-> & Hy & wr & Hwr & Hp). split; [done|]. split; [done|].
  specialize (Hf y Hy ltac:(left)) as E. rewrite Hwr in E. apply fmap_Some in E as (wr' & Hwr' & E).
  exists wr'. split; [done|]. rewrite <-E. apply IH; [|done]. intros x Hx Hl. apply Hf; [done|by right].
Qed.

Lemma path_app ws h l k v : path ws h (l ++ k) v ↔ ∃ u, path ws h l u ∧ path ws u k v.
Proof.
  revert h. induction l as [|y l IH]; intros h; cbn [app path]; [naive_solver|]. setoid_rewrite IH. naive_solver.
Qed.

Lemma path_pos ws h l v x : path ws h l v → x ∈ l → 0 < x.
Proof.
  revert h. induction l as [|y l IH]; intros h Hp Hx; [inversion Hx|]. destruct Hp as (-> & Hy & wr & _ & Hp).
  apply elem_of_cons in Hx as [->|Hx]; [done|by eapply IH].
Qed.

Lemma path_nil_iff ws l : path ws 0 l 0 → l = [].
Proof. destruct l as [|x l]; [done|]. intros (E & Hx & _). lia. Qed.

Lemma path_head ws h l : path ws h l 0 → h = default 0 (head l).
Proof. by destruct l as [|x l]; [|intros [-> _]]. Qed.

Lemma tail_snoc l x : tail (l ++ [x]) = x.
Proof. unfold tail. by rewrite last_snoc. Qed.

Lemma tail_elem l : l ≠ [] → tail l ∈ l.
Proof.
  intros H. unfold tail. destruct (last l) as [x|] eqn:E; [|by apply last_None in E].
  apply last_Some in E as [k ->]. cbn. set_solver.
Qed.

(** Storing after a list changes where it leads and nothing else. *)
Lemma store_spec ws h l u v :
  path ws h l u → NoDup l →
  let r := store (tail l) v ws h in
  path r.1 r.2 l v ∧ same_about ws r.1 ∧ (∀ x, 0 < x → x ∉ l → watch_at r.1 x = watch_at ws x).
Proof.
  intros Hp Hn. unfold store. destruct (decide (l = [])) as [->|Hne]; [by cbn|].
  assert (Hin := tail_elem l Hne). assert (Hpos := path_pos _ _ _ _ _ Hp Hin).
  destruct (tail l =? 0) eqn:E; [lia|]. cbn [fst snd]. split; [|split; [apply set_wlink_about|]].
  - destruct l as [|x l _] using rev_ind; [done|]. rewrite tail_snoc in *. apply NoDup_app in Hn as (_ & Hx & _).
    apply path_app in Hp as (w & H1 & (-> & H2 & wr & Hwr & _)). apply path_app. exists x. split.
    + eapply path_frame; [|exact H1]. intros y Hy Hl. rewrite watch_at_set_wlink by done.
      rewrite decide_False; [done|]. intros ->. specialize (Hx x Hl). set_solver.
    + split; [done|]. split; [done|]. rewrite watch_at_set_wlink, decide_True, Hwr by done. cbn. by eexists.
  - intros x Hx Hnl. rewrite watch_at_set_wlink, decide_False by (done || (intros ->; done)). done.
Qed.

Lemma set_wlink_length ws p v : length (set_wlink ws p v) = length ws.
Proof. apply length_alter. Qed.

Lemma store_length p v ws h : length (store p v ws h).1 = length ws.
Proof. unfold store. destruct (p =? 0); [done|apply set_wlink_length]. Qed.

(** Append [x] by a store after the list. *)
Lemma store_advance ws h l u x wr :
  path ws h l u → NoDup l → x ∉ l → 0 < x → watch_at ws x = Some wr →
  let r := store (tail l) x ws h in
  path r.1 r.2 (l ++ [x]) (wlink wr) ∧ same_about ws r.1 ∧ (∀ y, 0 < y → y ∉ l → watch_at r.1 y = watch_at ws y) ∧
  length r.1 = length ws.
Proof.
  intros Hp Hn Hx Hpos Hwr. destruct (store_spec ws h l u x Hp Hn) as (S1 & S2 & S3).
  cbv zeta. split; [|split; [done|split; [done|apply store_length]]].
  apply path_app. exists x. split; [done|]. split; [done|]. split; [done|]. exists wr. by rewrite S3.
Qed.

Lemma same_about_trans ws1 ws2 ws3 : same_about ws1 ws2 → same_about ws2 ws3 → same_about ws1 ws3.
Proof. intros H1 H2 x. by rewrite H2. Qed.
End Paths.

(** The watches [W], each an event and a mask, are those of the links [l]. *)
Definition holds (ws : list watchrec) (l : list Z) (W : list (nat * Z)) : Prop :=
  Forall2 (λ x p, about <$> watch_at ws x = Some (Some p.1, p.2)) l W.

Lemma holds_same ws ws' l W : same_about ws ws' → holds ws l W → holds ws' l W.
Proof. intros Hs H. eapply Forall2_impl; [exact H|]. intros x p <-. apply Hs. Qed.

Lemma holds_frame ws ws' l W :
  (∀ x, x ∈ l → about <$> watch_at ws' x = about <$> watch_at ws x) → holds ws l W → holds ws' l W.
Proof.
  intros Hf H. induction H as [|x p l W Hx H IH]; constructor; [rewrite Hf by left; done|].
  apply IH. intros y Hy. apply Hf. by right.
Qed.

Lemma holds_at ws x p l W : holds ws (x :: l) (p :: W) →
  ∃ m, watch_at ws x = Some m ∧ ev m = Some p.1 ∧ mask m = p.2.
Proof.
  intros H. inversion H as [|? ? ? ? Hx _]; subst. apply fmap_Some in Hx as (m & Hm & E). exists m.
  unfold about in E. by injection E as -> ->.
Qed.

Lemma close_loop_spec l : ∀ ws W fuel h free F,
  path ws h l 0 → holds ws l W → path ws free F 0 → NoDup (l ++ F) → (length l < fuel)%nat →
  ∃ ws' free', close_loop fuel ws free h = Some (W.*1, ws', free') ∧
    path ws' free' (reverse l ++ F) 0 ∧ length ws' = length ws ∧ ∀ x, 0 < x → x ∉ l → watch_at ws' x = watch_at ws x.
Proof.
  induction l as [|x l IH]; intros ws W fuel h free F Hp Hh HF Hn Hf; (destruct fuel as [|fuel]; [lia|]); cbn [close_loop].
  - cbn in Hp. subst h. inversion Hh; subst. by exists ws, free.
  - destruct Hp as (-> & Hx & wr & Hwr & Hp). inversion Hh as [|? p ? W' _ Hh']; subst.
    destruct (holds_at _ _ _ _ _ Hh) as (wr' & Hwr' & He & _). rewrite Hwr in Hwr'. injection Hwr' as <-.
    rewrite (proj2 (Z.eqb_neq x 0)) by lia. rewrite Hwr. cbn [mbind option_bind]. rewrite He. cbn [mbind option_bind].
    cbn [app] in Hn. apply NoDup_cons in Hn as [Hxn Hn]. set (ws1 := <[slot x := _]> ws).
    assert (Hfr : ∀ y, 0 < y → y ≠ x → watch_at ws1 y = watch_at ws y).
    { intros y Hy Hne. unfold ws1. by rewrite watch_at_insert, decide_False. }
    destruct (IH ws1 W' fuel (wlink wr) x (x :: F)) as (ws' & free' & E & P & L & Fr).
    + eapply path_frame; [|exact Hp]. intros y Hy Hin. rewrite Hfr; [done|done|]. intros ->. set_solver.
    + eapply holds_frame; [|exact Hh']. intros y Hin. rewrite Hfr; [done|exact (path_pos _ _ _ _ _ Hp Hin)|]. intros ->. set_solver.
    + split; [done|]. split; [done|]. eexists. unfold ws1. rewrite watch_at_insert, decide_True, Hwr by done. split; [done|].
      eapply path_frame; [|exact HF]. intros y Hy Hin. unfold ws1 in Hfr. rewrite Hfr; [done|done|]. intros ->. set_solver.
    + rewrite <-Permutation_middle. by apply NoDup_cons.
    + cbn in Hf. lia.
    + rewrite E. cbn [mbind option_bind fst snd]. exists ws', free'. split; [done|]. split.
      * by rewrite reverse_cons, <-(assoc_L (++)).
      * split; [rewrite L; unfold ws1; by rewrite length_insert|]. intros y Hy Hin. rewrite Fr by set_solver.
        apply Hfr; set_solver.
Qed.

Section Loops.
Context (dead : nat → bool).

(** A notification of [imask] takes the watches for any of its bits, and those
    that nobody waits for. *)
Definition hit (imask : Z) (p : nat * Z) : bool := negb (Z.land imask p.2 =? fd_none) || dead p.1.

Definition hits (imask : Z) (W : list (nat * Z)) : list (nat * Z) := filter (λ p, hit imask p = true) W.
Definition misses (imask : Z) (W : list (nat * Z)) : list (nat * Z) := filter (λ p, hit imask p = false) W.

Lemma hits_cons imask p W : hits imask (p :: W) = if hit imask p then p :: hits imask W else hits imask W.
Proof. unfold hits. rewrite filter_cons. by destruct (hit imask p). Qed.
Lemma misses_cons imask p W : misses imask (p :: W) = if hit imask p then misses imask W else p :: misses imask W.
Proof. unfold misses. rewrite filter_cons. by destruct (hit imask p). Qed.

Definition live_mask (m : Z) (W : list (nat * Z)) : Z :=
  foldl (λ m p, if dead p.1 then m else Z.lor m p.2) m W.

Lemma watch_list_mask_spec ws l : ∀ W fuel h m,
  path ws h l 0 → holds ws l W → (length l < fuel)%nat →
  watch_list_mask dead fuel ws h m = Some (live_mask m W).
Proof.
  induction l as [|x l IH]; intros W fuel h m Hp Hh Hf; (destruct fuel as [|fuel]; [lia|]); cbn [watch_list_mask].
  - cbn in Hp. subst h. inversion Hh; subst. done.
  - destruct Hp as (-> & Hx & wr & Hwr & Hp). inversion Hh as [|? p ? W' _ Hh']; subst.
    destruct (holds_at _ _ _ _ _ Hh) as (wr' & Hwr' & He & Hm). rewrite Hwr in Hwr'. injection Hwr' as <-.
    rewrite (proj2 (Z.eqb_neq x 0)) by lia. rewrite Hwr. cbn [mbind option_bind]. rewrite He, Hm.
    cbn in Hf. rewrite (IH W' fuel _ _ Hp Hh') by lia. cbn. by destruct (dead p.1).
Qed.

(** The loop of [take_watch_list] splits the list in two, in order. *)
Lemma take_loop_spec imask R : ∀ WR fuel t A B u1 u2 wix,
  path (t_ws t) wix R 0 → holds (t_ws t) R WR →
  path (t_ws t) (t_whead t) A u1 → path (t_ws t) (t_fdhead t) B u2 → NoDup (A ++ B ++ R) →
  t_wpprev t = tail A → t_fdpprev t = tail B → t_wtail t = tail B → (length R < fuel)%nat →
  ∃ t' A' B' v1 v2, take_loop dead fuel imask t wix = Some t' ∧ A' ++ B' ≡ₚ R ∧
    path (t_ws t') (t_whead t') (A ++ A') v1 ∧ path (t_ws t') (t_fdhead t') (B ++ B') v2 ∧
    t_wpprev t' = tail (A ++ A') ∧ t_fdpprev t' = tail (B ++ B') ∧ t_wtail t' = tail (B ++ B') ∧
    holds (t_ws t') A' (hits imask WR) ∧ holds (t_ws t') B' (misses imask WR) ∧
    same_about (t_ws t) (t_ws t') ∧ length (t_ws t') = length (t_ws t) ∧
    ∀ x, 0 < x → x ∉ A ++ B ++ R → watch_at (t_ws t') x = watch_at (t_ws t) x.
Proof.
  induction R as [|x R IH]; intros WR fuel t A B u1 u2 wix Hp Hh HA HB Hn E1 E2 E3 Hf;
    (destruct fuel as [|fuel]; [lia|]); cbn [take_loop].
  { cbn in Hp. subst wix. inversion Hh; subst. exists t, [], [], u1, u2. rewrite !app_nil_r. cbn [app].
    do 7 (split; [done|]). split; [by constructor|]. split; [by constructor|]. done. }
  destruct Hp as (-> & Hx & wr & Hwr & Hp). inversion Hh as [|? p ? W' _ Hh']; subst.
  destruct (holds_at _ _ _ _ _ Hh) as (wr' & Hwr' & He & Hm). rewrite Hwr in Hwr'. injection Hwr' as <-.
  rewrite (proj2 (Z.eqb_neq x 0)) by lia. rewrite Hwr. cbn [mbind option_bind]. rewrite He, Hm.
  assert (Eh : (if negb (Z.land imask p.2 =? fd_none) then Some true else e ← Some p.1; Some (dead e)) = Some (hit imask p)).
  { unfold hit. by destruct (negb _). }
  rewrite Eh. cbn [mbind option_bind]. cbn [length] in Hf. rewrite hits_cons, misses_cons.
  assert (HxA : x ∉ A ∧ x ∉ B ∧ x ∉ R ∧ (∀ y, y ∈ A → y ∉ B ∧ y ∉ R) ∧ (∀ y, y ∈ B → y ∉ R) ∧ NoDup A ∧ NoDup B).
  { apply NoDup_app in Hn as (N1 & N2 & N3). apply NoDup_app in N3 as (N3 & N4 & N5). apply NoDup_cons in N5 as [N5 _].
    set_solver. }
  destruct HxA as (XA & XB & XR & DA & DB & NA & NB).
  destruct (hit imask p).
  - (* taken *)
    destruct (store_advance (t_ws t) (t_whead t) A u1 x wr HA NA XA Hx Hwr) as (S1 & S2 & S3 & S4). rewrite E1.
    destruct (store (tail A) x (t_ws t) (t_whead t)) as [ws head]. cbn [fst snd] in *.
    set (t1 := Taking _ _ _ _ _ _).
    destruct (IH W' fuel t1 (A ++ [x]) B (wlink wr) u2 (wlink wr)) as (t' & A' & B' & v1 & v2 & R1 & R2 & R3 & R4 & R5 & R6 & R7 & R8 & R9 & R10 & R11 & R12);
      try done; try (cbn; lia).
    + eapply path_frame; [|exact Hp]. intros y Hy Hin. cbn. rewrite S3; [done|done|]. set_solver.
    + eapply holds_same; [|exact Hh']. done.
    + eapply path_frame; [|exact HB]. intros y Hy Hin. cbn. rewrite S3; [done|done|]. set_solver.
    + rewrite <-(assoc_L (++)). cbn [app]. by rewrite (Permutation_middle B R x).
    + cbn. by rewrite tail_snoc.
    + rewrite <-(assoc_L (++)) in R3, R5. cbn [app] in R3, R5.
      exists t', (x :: A'), B', v1, v2. split; [done|]. split; [cbn; by rewrite R2|]. do 5 (split; [done|]).
      split; [|split; [done|split; [|split]]].
      * constructor; [|done]. rewrite R10, S2, Hwr. unfold about. cbn. by rewrite He, Hm.
      * eapply same_about_trans; done.
      * cbn in R11. congruence.
      * intros y Hy Hin. rewrite R12; [apply S3; set_solver|done|set_solver].
  - (* kept *)
    destruct (store_advance (t_ws t) (t_fdhead t) B u2 x wr HB NB XB Hx Hwr) as (S1 & S2 & S3 & S4). rewrite E2.
    destruct (store (tail B) x (t_ws t) (t_fdhead t)) as [ws head]. cbn [fst snd] in *.
    set (t1 := Taking _ _ _ _ _ _).
    destruct (IH W' fuel t1 A (B ++ [x]) u1 (wlink wr) (wlink wr)) as (t' & A' & B' & v1 & v2 & R1 & R2 & R3 & R4 & R5 & R6 & R7 & R8 & R9 & R10 & R11 & R12);
      try done; try (cbn; lia).
    + eapply path_frame; [|exact Hp]. intros y Hy Hin. cbn. rewrite S3; [done|done|]. set_solver.
    + eapply holds_same; [|exact Hh']. done.
    + eapply path_frame; [|exact HA]. intros y Hy Hin. cbn. rewrite S3; [done|done|]. set_solver.
    + by rewrite <-(assoc_L (++) B).
    + cbn. by rewrite tail_snoc.
    + cbn. by rewrite tail_snoc.
    + rewrite <-(assoc_L (++) B) in R4, R6, R7. cbn [app] in R4, R6, R7.
      exists t', A', (x :: B'), v1, v2. split; [done|]. split; [by rewrite <-Permutation_middle, R2|]. do 5 (split; [done|]).
      split; [done|]. split; [|split; [|split]].
      * constructor; [|done]. rewrite R10, S2, Hwr. unfold about. cbn. by rewrite He, Hm.
      * eapply same_about_trans; done.
      * cbn in R11. congruence.
      * intros y Hy Hin. rewrite R12; [apply S3; set_solver|done|set_solver].
Qed.
End Loops.

(** * What a set stands for *)

(** Every slot of the array is in the list of one descriptor, in the free list,
    or in the list that was taken and is being popped. *)
Inductive place := P_fd (fd : nat) | P_free | P_taken.
#[global] Instance place_eq_dec : EqDecision place.
Proof. solve_decision. Defined.

Definition partition (n : nat) (ls : place → list Z) : Prop :=
  (∀ p, NoDup (ls p)) ∧ (∀ p q x, x ∈ ls p → x ∈ ls q → p = q) ∧ (∀ x, 1 ≤ x ≤ Z.of_nat n ↔ ∃ p, x ∈ ls p).

Section Partition.
Implicit Types (ls : place → list Z).

Lemma part_length n ls p : partition n ls → (length (ls p) ≤ n)%nat.
Proof.
  intros (H1 & _ & H3). rewrite <-(Nat2Z.id n) at 1. rewrite <-(length_seqZ 1 (Z.of_nat n)).
  apply submseteq_length, NoDup_submseteq; [apply H1|]. intros x Hx. apply elem_of_seqZ.
  assert (1 ≤ x ≤ Z.of_nat n) by (apply H3; by exists p). lia.
Qed.

(** Move slots between two places. *)
Lemma part_move n ls p q lp lq : p ≠ q → partition n ls → lp ++ lq ≡ₚ ls p ++ ls q →
  partition n (<[p := lp]> (<[q := lq]> ls)).
Proof.
  intros Hpq (H1 & H2 & H3) Hm. set (ls' := <[p := lp]> (<[q := lq]> ls)).
  assert (Ep : ls' p = lp) by apply fn_lookup_insert.
  assert (Eq : ls' q = lq) by (unfold ls'; rewrite fn_lookup_insert_ne by done; apply fn_lookup_insert).
  assert (Eo : ∀ r, r ≠ p → r ≠ q → ls' r = ls r) by (intros r ??; unfold ls'; by rewrite !fn_lookup_insert_ne by done).
  assert (Hn : NoDup (ls p ++ ls q)).
  { apply NoDup_app. split; [done|]. split; [|done]. intros x Hx Hy. by apply Hpq, (H2 p q x). }
  rewrite <-Hm in Hn. apply NoDup_app in Hn as (N1 & N2 & N3).
  assert (Hin : ∀ x, x ∈ lp ∨ x ∈ lq ↔ x ∈ ls p ∨ x ∈ ls q) by (intros x; by rewrite <-!elem_of_app, Hm).
  split; [|split].
  - intros r. destruct (decide (r = p)) as [->|Hp]; [by rewrite Ep|]. destruct (decide (r = q)) as [->|Hq]; [by rewrite Eq|].
    by rewrite Eo.
  - assert (Hw : ∀ r x, x ∈ ls' r → x ∈ ls r ∨ ((r = p ∨ r = q) ∧ (x ∈ ls p ∨ x ∈ ls q))).
    { intros r x. destruct (decide (r = p)) as [->|Hp]; [rewrite Ep, <-Hin; tauto|].
      destruct (decide (r = q)) as [->|Hq]; [rewrite Eq, <-Hin; tauto|]. rewrite Eo; tauto. }
    intros r t x Hr Ht. destruct (decide (r = p ∨ r = q)) as [Hpr|Hpr], (decide (t = p ∨ t = q)) as [Hpt|Hpt].
    + destruct Hpr as [->| ->], Hpt as [->| ->]; try done; rewrite ?Ep, ?Eq in *; naive_solver.
    + exfalso. rewrite (Eo t) in Ht by tauto. destruct (Hw r x Hr) as [Hx|[_ [Hx|Hx]]]; apply Hpt;
        [destruct Hpr as [->| ->]; [left|right]|left|right]; by eapply H2.
    + exfalso. rewrite (Eo r) in Hr by tauto. destruct (Hw t x Ht) as [Hx|[_ [Hx|Hx]]]; apply Hpr;
        [destruct Hpt as [->| ->]; [left|right]|left|right]; by eapply H2.
    + rewrite Eo in Hr, Ht by tauto. by eapply H2.
  - intros x. rewrite H3. split; intros [r Hr].
    + destruct (decide (r = p ∨ r = q)) as [Hr'|Hr'].
      * assert (Hx : x ∈ ls p ∨ x ∈ ls q) by (destruct Hr' as [->| ->]; tauto). apply Hin in Hx as [Hx|Hx];
          [exists p; by rewrite Ep|exists q; by rewrite Eq].
      * exists r. by rewrite Eo by tauto.
    + destruct (decide (r = p ∨ r = q)) as [Hr'|Hr'].
      * assert (Hx : x ∈ lp ∨ x ∈ lq) by (destruct Hr' as [->| ->]; rewrite ?Ep, ?Eq in Hr; tauto).
        apply Hin in Hx as [Hx|Hx]; by eexists.
      * exists r. by rewrite <-Eo by tauto.
Qed.

(** A new slot. *)
Lemma part_grow n ls p : partition n ls → partition (S n) (<[p := ls p ++ [Z.of_nat (S n)]]> ls).
Proof.
  intros (H1 & H2 & H3). set (x0 := Z.of_nat (S n)). set (ls' := <[p := _]> ls).
  assert (Hx0 : ∀ q, x0 ∉ ls q). { intros q Hq. assert (1 ≤ x0 ≤ Z.of_nat n) by (apply H3; by exists q). lia. }
  assert (Ep : ls' p = ls p ++ [x0]) by apply fn_lookup_insert.
  assert (Eo : ∀ r, r ≠ p → ls' r = ls r) by (intros r ?; unfold ls'; by rewrite fn_lookup_insert_ne by done).
  assert (Hw : ∀ r x, x ∈ ls' r ↔ x ∈ ls r ∨ r = p ∧ x = x0).
  { intros r x. destruct (decide (r = p)) as [->|Hp]; [rewrite Ep; set_solver|]. rewrite Eo by done. naive_solver. }
  split; [|split].
  - intros r. destruct (decide (r = p)) as [->|Hp]; [rewrite Ep|by rewrite Eo]. apply NoDup_app. split; [done|].
    split; [intros x Hx Hy; set_solver|apply NoDup_singleton].
  - intros r t x Hr Ht. apply Hw in Hr, Ht. naive_solver.
  - intros x. setoid_rewrite Hw. split.
    + intros Hx. destruct (decide (x = x0)) as [->|Hne]; [exists p; by right|].
      assert (Hx' : 1 ≤ x ≤ Z.of_nat n) by lia. apply H3 in Hx' as [q Hq]. exists q. by left.
    + intros [r [Hr|[_ ->]]]; [|lia]. assert (1 ≤ x ≤ Z.of_nat n) by (apply H3; by exists r). lia.
Qed.
End Partition.

(** The abstract set: a record per descriptor, with its watches as a list of
    events and masks, the descriptors to update, last queued first, and the
    watches taken for a notification and not popped yet. *)
Record watched := Watched { wd_body : option nat; wd_epoch : Z; wd_list : list (nat * Z) }.
Definition unwatched : watched := Watched None 0 [].

Record fd_spec := FdSpec { sp_fds : nat → watched; sp_dirty : list nat; sp_taken : list (nat * Z) }.
Definition new_fd_spec : fd_spec := FdSpec (λ _, unwatched) [] [].

Definition spec_set (A : fd_spec) (fd : nat) (wd : watched) : fd_spec :=
  FdSpec (<[fd := wd]> (sp_fds A)) (sp_dirty A) (sp_taken A).
Definition spec_queue (A : fd_spec) (fd : nat) : fd_spec :=
  if decide (fd ∈ sp_dirty A) then A else FdSpec (sp_fds A) (fd :: sp_dirty A) (sp_taken A).

(** The links of the update list. *)
Fixpoint upath (rs : list fdrec) (h : Z) (U : list nat) : Prop :=
  match U with
  | [] => h = link_sentinel
  | fd :: U' => h = Z.of_nat fd + 1 ∧ ∃ r, rs !! fd = Some r ∧ upath rs (update_link r) U'
  end.

(** The record [r] of a descriptor with the links [l] stands for [wd]. *)
Record fd_ok (ws : list watchrec) (r : fdrec) (l : list Z) (wd : watched) : Prop := {
  ok_path : path ws (whead r) l 0;
  ok_tail : wtail r = tail l;
  ok_holds : holds ws l (wd_list wd);
  ok_body : body r = wd_body wd;
  ok_epoch : epoch r = wd_epoch wd
}.

Definition max_fds : Z := 2147483648.

Record repr (s : fd_event_set) (wix : Z) (A : fd_spec) (ls : place → list Z) : Prop := {
  r_cap : size (fdrs_ s) ≤ max_fds;
  r_part : partition (length (ws_ s)) ls;
  r_fds : ∀ fd r, fdrs_ s !! fd = Some r → fd_ok (ws_ s) r (ls (P_fd fd)) (sp_fds A fd);
  r_out : ∀ fd, fdrs_ s !! fd = None → ls (P_fd fd) = [] ∧ sp_fds A fd = unwatched;
  r_free : path (ws_ s) (free_wlink_ s) (ls P_free) 0;
  r_taken : path (ws_ s) wix (ls P_taken) 0;
  r_popping : holds (ws_ s) (ls P_taken) (sp_taken A);
  r_updates : upath (fdrs_ s) (update_link_ s) (sp_dirty A);
  r_dirty : ∀ fd r, fdrs_ s !! fd = Some r → (update_link r ≠ 0 ↔ fd ∈ sp_dirty A);
  r_once : NoDup (sp_dirty A)
}.

Definition represents (s : fd_event_set) (wix : Z) (A : fd_spec) : Prop := ∃ ls, repr s wix A ls.

Lemma fd_ok_frame ws ws' r l wd :
  (∀ x, 0 < x → x ∈ l → watch_at ws' x = watch_at ws x) → fd_ok ws r l wd → fd_ok ws' r l wd.
Proof.
  intros Hf [H1 H2 H3 H4 H5]. assert (Hp : ∀ x, x ∈ l → 0 < x) by (intros x; by eapply path_pos).
  split; try done.
  - eapply path_frame; [|done]. intros x Hx Hl. by rewrite Hf.
  - eapply holds_frame; [|done]. intros x Hl. rewrite Hf; [done|by apply Hp|done].
Qed.

Lemma upath_frame rs rs' h U :
  (∀ fd r, rs !! fd = Some r → ∃ r', rs' !! fd = Some r' ∧ update_link r' = update_link r) →
  upath rs h U → upath rs' h U.
Proof.
  intros Hf. revert h. induction U as [|fd U IH]; intros h; [done|]. intros (-> & r & Hr & Hu). split; [done|].
  destruct (Hf fd r Hr) as (r' & Hr' & E). exists r'. split; [done|]. rewrite E. by apply IH.
Qed.

(** Changes of watches and of one descriptor that leave the update list alone. *)
Lemma repr_change s wix A ls ws' free' wix' ls' fd r r' wd' T' :
  repr s wix A ls → fdrs_ s !! fd = Some r → update_link r' = update_link r →
  partition (length ws') ls' →
  (∀ n, n ≠ fd → ls' (P_fd n) = ls (P_fd n)) →
  (∀ n x, n ≠ fd → 0 < x → x ∈ ls (P_fd n) → watch_at ws' x = watch_at (ws_ s) x) →
  fd_ok ws' r' (ls' (P_fd fd)) wd' →
  path ws' free' (ls' P_free) 0 → path ws' wix' (ls' P_taken) 0 → holds ws' (ls' P_taken) T' →
  repr (FdEventSet (<[fd := r']> (fdrs_ s)) (update_link_ s) ws' free') wix'
    (FdSpec (<[fd := wd']> (sp_fds A)) (sp_dirty A) T') ls'.
Proof.
  intros [H1 H2 H3 H4 H5 H6 H7 H8 H9 H10] Hr Hu Hp Hls Hws Hok Hfree Hwix HT.
  assert (Hlt := lookup_lt_Some _ _ _ Hr). split; cbn; try done.
  - unfold size. by rewrite length_insert.
  - intros n r0 Hn. destruct (decide (n = fd)) as [->|Hne].
    + rewrite list_lookup_insert_eq in Hn by done. injection Hn as <-. by rewrite fn_lookup_insert.
    + rewrite list_lookup_insert_ne in Hn by done. rewrite fn_lookup_insert_ne, Hls by done.
      eapply fd_ok_frame; [|by apply H3]. intros x Hx. by apply Hws.
  - intros n Hn. destruct (decide (n = fd)) as [->|Hne]; [by rewrite list_lookup_insert_eq in Hn by done|].
    rewrite list_lookup_insert_ne in Hn by done. rewrite fn_lookup_insert_ne, Hls by done. by apply H4.
  - eapply upath_frame; [|done]. intros n r0 Hn. destruct (decide (n = fd)) as [->|Hne].
    + exists r'. rewrite list_lookup_insert_eq by done. split; [done|]. congruence.
    + exists r0. by rewrite list_lookup_insert_ne.
  - intros n r0 Hn. destruct (decide (n = fd)) as [->|Hne].
    + rewrite list_lookup_insert_eq in Hn by done. injection Hn as <-. rewrite Hu. by apply H9.
    + rewrite list_lookup_insert_ne in Hn by done. by apply H9.
Qed.

Implicit Types (s : fd_event_set) (A : fd_spec) (ls : place → list Z).

Lemma u32_small z : 0 ≤ z < two32 → u32 z = z.
Proof. intros H. unfold u32. by apply Z.mod_small. Qed.

Lemma queue_spec s wix A ls fd r :
  repr s wix A ls → fdrs_ s !! fd = Some r →
  ∃ s' r', queue_update s (Z.of_nat fd) = Some s' ∧ repr s' wix (spec_queue A fd) ls ∧
    ws_ s' = ws_ s ∧ free_wlink_ s' = free_wlink_ s ∧ length (fdrs_ s') = length (fdrs_ s) ∧ fdrs_ s' !! fd = Some r' ∧
    body r' = body r ∧ epoch r' = epoch r ∧ whead r' = whead r ∧ wtail r' = wtail r.
Proof.
  intros H Hr. pose proof H as [H1 H2 H3 H4 H5 H6 H7 H8 H9 H10]. pose proof (lookup_lt_Some _ _ _ Hr) as Hlt.
  unfold queue_update, fdrec_at. rewrite Nat2Z.id, Hr. cbn [mbind option_bind]. unfold spec_queue, link_clean.
  destruct (update_link r =? 0) eqn:E.
  - rewrite decide_False by (rewrite <-(H9 fd r Hr); lia). eexists _, _. split; [done|].
    set (r' := Fdrec _ _ _ _ _). set (rs' := <[fd := r']> (fdrs_ s)).
    assert (Hz : u32 (Z.of_nat fd + 1) = Z.of_nat fd + 1).
    { apply u32_small. unfold size, max_fds in H1. unfold two32. lia. }
    assert (Hs : fdrs_ (set_fdrec s (Z.of_nat fd) r') = rs') by (cbn; by rewrite Nat2Z.id).
    split; [|cbn; rewrite Nat2Z.id, length_insert, list_lookup_insert_eq by done; done].
    rewrite Hs, Hz. cbn. split; cbn; try done.
    + unfold size, rs'. by rewrite length_insert.
    + intros n r0 Hn. destruct (decide (n = fd)) as [->|Hne].
      * unfold rs' in Hn. rewrite list_lookup_insert_eq in Hn by done. injection Hn as <-.
        destruct (H3 fd r Hr) as [? ? ? ? ?]. by split.
      * unfold rs' in Hn. rewrite list_lookup_insert_ne in Hn by done. by apply H3.
    + intros n Hn. destruct (decide (n = fd)) as [->|Hne]; unfold rs' in Hn;
        [by rewrite list_lookup_insert_eq in Hn by done|]. rewrite list_lookup_insert_ne in Hn by done. by apply H4.
    + split; [done|]. exists r'. unfold rs' at 1. rewrite list_lookup_insert_eq by done. split; [done|]. cbn.
      assert (Hnin : fd ∉ sp_dirty A) by (rewrite <-(H9 fd r Hr); lia).
      clear -H8 Hnin. revert H8. generalize (update_link_ s). induction (sp_dirty A) as [|n U IH]; intros h Hu; [done|].
      destruct Hu as (-> & r0 & Hr0 & Hu). split; [done|]. exists r0. unfold rs'.
      rewrite list_lookup_insert_ne by (intros ->; set_solver). split; [done|]. apply IH; [set_solver|done].
    + intros n r0 Hn. rewrite elem_of_cons. destruct (decide (n = fd)) as [->|Hne].
      * unfold rs' in Hn. rewrite list_lookup_insert_eq in Hn by done. injection Hn as <-. cbn. split; [by left|intros _].
        destruct (sp_dirty A); cbn in H8; [rewrite H8; done|]. destruct H8 as [-> _]. lia.
      * unfold rs' in Hn. rewrite list_lookup_insert_ne in Hn by done. rewrite (H9 n r0 Hn). naive_solver.
    + apply NoDup_cons. split; [|done]. rewrite <-(H9 fd r Hr). lia.
  - rewrite decide_True by (rewrite <-(H9 fd r Hr); lia). exists s, r. done.
Qed.

Lemma slot_of s wix A ls fd : repr s wix A ls → 0 ≤ fd < max_fds →
  u32 fd = fd ∧ (if fdr_capacity_ s <=? fd then sp_fds A (Z.to_nat fd) = unwatched
                 else ∃ r, fdrec_at s fd = Some r ∧ fdrs_ s !! Z.to_nat fd = Some r).
Proof.
  intros H Hfd. split; [apply u32_small; unfold max_fds in Hfd; unfold two32; lia|].
  unfold fdr_capacity_, size, fdrec_at. destruct (fdrs_ s !! Z.to_nat fd) as [r|] eqn:E.
  - pose proof (lookup_lt_Some _ _ _ E). destruct (_ <=? fd) eqn:L; [lia|by exists r].
  - pose proof (lookup_ge_None_1 _ _ E). destruct (_ <=? fd) eqn:L; [|lia]. by apply (r_out _ _ _ _ H).
Qed.

(** ** Closing *)

Section Closing.
Context (closed : nat → bool).

Definition spec_close (A : fd_spec) (fd : nat) : option (nat * Z) * list nat * fd_spec :=
  let wd := sp_fds A fd in
  match wd_body wd with
  | None => (None, [], A)
  | Some b =>
      if negb (closed b) then (None, [], A)
      else (Some (b, wd_epoch wd), (wd_list wd).*1,
            spec_queue (spec_set A fd (Watched None (u32 (wd_epoch wd + 1)) [])) fd)
  end.

Lemma close_spec s wix A ls fd : repr s wix A ls → 0 ≤ fd < max_fds →
  let c := spec_close A (Z.to_nat fd) in
  ∃ s' ls', fd_close closed s fd = Some (c.1, s') ∧ repr s' wix c.2 ls' ∧ length (fdrs_ s') = length (fdrs_ s).
Proof.
  intros H Hfd. destruct (slot_of s wix A ls fd H Hfd) as [Eu Hs]. unfold fd_close, spec_close. rewrite Eu.
  destruct (fdr_capacity_ s <=? fd); [rewrite Hs; by exists s, ls|]. destruct Hs as (r & Hr & Hl).
  rewrite Hr. cbn [mbind option_bind]. pose proof H as [H1 H2 H3 H4 H5 H6 H7 H8 H9 H10].
  destruct (H3 _ r Hl) as [K1 K2 K3 K4 K5]. rewrite K4. set (wd := sp_fds A (Z.to_nat fd)) in *.
  destruct (wd_body wd) as [b|]; [|by exists s, ls]. destruct (negb (closed b)); [by exists s, ls|].
  destruct H2 as (P1 & P2 & P3). set (pf := P_fd (Z.to_nat fd)) in *.
  destruct (close_loop_spec (ls pf) (ws_ s) (wd_list wd) (S (length (ws_ s))) (whead r) (free_wlink_ s) (ls P_free))
    as (ws' & free' & E & Q1 & Q2 & Q3); try done.
  { apply NoDup_app. split; [done|]. split; [|done]. intros x Hx Hy. by pose proof (P2 _ _ _ Hx Hy). }
  { pose proof (part_length _ _ pf (conj P1 (conj P2 P3))). lia. }
  rewrite E. cbn [mbind option_bind]. cbn [fst snd].
  set (r' := Fdrec None (u32 (epoch r + 1)) 0 link_clean (update_link r)).
  set (wd' := Watched None (u32 (wd_epoch wd + 1)) []).
  set (ls' := <[pf := []]> (<[P_free := reverse (ls pf) ++ ls P_free]> ls)).
  assert (Hls : ∀ p, p ≠ pf → p ≠ P_free → ls' p = ls p).
  { intros p Hp Hq. unfold ls'. by rewrite !fn_lookup_insert_ne. }
  assert (Hfr : ∀ p x, p ≠ pf → 0 < x → x ∈ ls p → watch_at ws' x = watch_at (ws_ s) x).
  { intros p x Hp Hx Hin. apply Q3; [done|]. intros Hx'. by apply Hp, (P2 _ _ x). }
  assert (Hrep : repr (set_fdrec (set_watches s ws' free') fd r') wix (spec_set A (Z.to_nat fd) wd') ls').
  { apply (repr_change s wix A ls ws' free' wix ls' (Z.to_nat fd) r r' wd' (sp_taken A)); try done.
    - rewrite Q2. apply part_move; [done|done|]. cbn [app]. by rewrite (reverse_Permutation (ls pf)).
    - intros n Hn. apply Hls; [|done]. intros [= ?]. done.
    - intros n x Hn Hx. apply Hfr; [|done]. intros [= ?]. done.
    - assert (E1 : ls' (P_fd (Z.to_nat fd)) = []) by apply fn_lookup_insert. rewrite E1.
      split; try done; [by constructor|]. cbn. by rewrite K5.
    - rewrite (Hls P_taken) by done. eapply path_frame; [|exact H6]. intros x Hx Hin. by rewrite (Hfr P_taken).
    - rewrite (Hls P_taken) by done. eapply holds_frame; [|exact H7]. intros x Hin.
      rewrite (Hfr P_taken); [done|done|exact (path_pos _ _ _ _ _ H6 Hin)|done]. }
  assert (Hl' : fdrs_ (set_fdrec (set_watches s ws' free') fd r') !! Z.to_nat fd = Some r').
  { cbn. apply list_lookup_insert_eq. by eapply lookup_lt_Some. }
  destruct (queue_spec _ _ _ _ _ _ Hrep Hl') as (s' & r2 & E2 & Hrep' & _ & _ & L & _).
  rewrite Z2Nat.id in E2 by lia. rewrite E2. cbn [mbind option_bind]. exists s', ls'. split; [by rewrite K5|].
  split; [done|]. rewrite L. cbn. apply length_insert.
Qed.

End Closing.

Lemma path_zero ws h l : path ws h l 0 → (h =? 0) = bool_decide (l = []).
Proof.
  intros Hp. destruct l as [|x l]; [cbn in Hp; by subst h|]. destruct Hp as (-> & Hx & _).
  rewrite bool_decide_eq_false_2 by done. lia.
Qed.

Lemma holds_nil ws l W : holds ws l W → bool_decide (l = []) = bool_decide (W = []).
Proof. intros H. by inversion H. Qed.

(** ** Taking and popping *)

Section Taking.
Context (dead : nat → bool).

Definition spec_take (A : fd_spec) (fd : nat) (imask ep : Z) : bool * fd_spec :=
  let wd := sp_fds A fd in
  if bool_decide (wd_list wd = []) || (negb (ep =? 0) && negb (ep =? wd_epoch wd)) then (false, A)
  else
    let T := hits dead imask (wd_list wd) in
    let A' := FdSpec (<[fd := Watched (wd_body wd) (wd_epoch wd) (misses dead imask (wd_list wd))]> (sp_fds A)) (sp_dirty A) T in
    if bool_decide (T = []) then (false, A') else (true, spec_queue A' fd).

Lemma take_spec s A ls fd imask ep : repr s 0 A ls → 0 ≤ fd < max_fds →
  let c := spec_take A (Z.to_nat fd) imask ep in
  ∃ wix s' ls', take_watch_list dead s fd imask ep = Some (wix, s') ∧ repr s' wix c.2 ls' ∧ negb (wix =? 0) = c.1 ∧
    length (fdrs_ s') = length (fdrs_ s).
Proof.
  intros H Hfd. destruct (slot_of s 0 A ls fd H Hfd) as [Eu Hs]. unfold take_watch_list, spec_take. rewrite Eu.
  destruct (fdr_capacity_ s <=? fd); [rewrite Hs; by exists 0, s, ls|]. destruct Hs as (r & Hr & Hl).
  rewrite Hr. cbn [mbind option_bind]. pose proof H as [H1 H2 H3 H4 H5 H6 H7 H8 H9 H10].
  destruct (H3 _ r Hl) as [K1 K2 K3 K4 K5]. set (wd := sp_fds A (Z.to_nat fd)) in *.
  rewrite (path_zero _ _ _ K1), (holds_nil _ _ _ K3), K5.
  destruct (bool_decide _ || _); [by exists 0, s, ls|].
  destruct H2 as (P1 & P2 & P3). set (pf := P_fd (Z.to_nat fd)) in *.
  destruct (take_loop_spec dead imask (ls pf) (wd_list wd) (S (length (ws_ s))) (Taking (ws_ s) 0 0 (whead r) 0 0) [] []
    0 (whead r) (whead r)) as (t & TA & TB & v1 & v2 & E & Q1 & Q2 & Q3 & Q4 & Q5 & Q6 & Q7 & Q8 & Q9 & Q10 & Q11); try done.
  { apply P1. }
  { pose proof (part_length _ _ pf (conj P1 (conj P2 P3))). lia. }
  rewrite E. cbn [mbind option_bind]. cbn [app] in *.
  assert (Hnd : NoDup (TA ++ TB)) by (rewrite Q1; apply P1).
  apply NoDup_app in Hnd as (N1 & N2 & N3).
  destruct (store_spec (t_ws t) (t_fdhead t) TB v2 0 Q3 N3) as (S1 & S2 & S3). rewrite Q5.
  pose proof (store_length (tail TB) 0 (t_ws t) (t_fdhead t)) as SL.
  destruct (store (tail TB) 0 (t_ws t) (t_fdhead t)) as [ws1 fdhead]. cbn [fst snd] in *.
  assert (Q2' : path ws1 (t_whead t) TA v1).
  { eapply path_frame; [|exact Q2]. intros x Hx Hin. rewrite S3; [done|done|]. by apply N2. }
  destruct (store_spec ws1 (t_whead t) TA v1 0 Q2' N1) as (S4 & S5 & S6). rewrite Q4.
  pose proof (store_length (tail TA) 0 ws1 (t_whead t)) as SL2.
  destruct (store (tail TA) 0 ws1 (t_whead t)) as [ws2 wix]. cbn [fst snd] in *.
  set (r' := Fdrec (body r) (wd_epoch wd) fdhead (t_wtail t) (update_link r)).
  set (W1 := hits dead imask (wd_list wd)) in *. set (W2 := misses dead imask (wd_list wd)) in *.
  set (wd' := Watched (wd_body wd) (wd_epoch wd) W2). set (A' := FdSpec _ _ _).
  set (ls' := <[pf := TB]> (<[P_taken := TA]> ls)).
  assert (Hemp : ls P_taken = []) by (by eapply path_nil_iff).
  assert (Hls : ∀ p, p ≠ pf → p ≠ P_taken → ls' p = ls p).
  { intros p Hp Hq. unfold ls'. by rewrite !fn_lookup_insert_ne. }
  assert (Hsame : same_about (t_ws t) ws2) by (by eapply same_about_trans).
  assert (Hfr : ∀ p x, p ≠ pf → 0 < x → x ∈ ls p → watch_at ws2 x = watch_at (ws_ s) x).
  { intros p x Hp Hx Hin. assert (Hn : x ∉ ls pf) by (intros Hx'; by apply Hp, (P2 _ _ x)).
    assert (Hn' : x ∉ TA ++ TB) by (by rewrite Q1). apply not_elem_of_app in Hn' as [Hn1 Hn2].
    by rewrite S6, S3, Q11. }
  assert (Hrep : repr (set_fdrec (set_watches s ws2 (free_wlink_ s)) fd r') wix A' ls').
  { apply (repr_change s 0 A ls ws2 (free_wlink_ s) wix ls' (Z.to_nat fd) r r' wd' W1); try done.
    - rewrite SL2, SL, Q10. apply part_move; [done|done|]. rewrite Hemp, app_nil_r. rewrite <-Q1. apply Permutation_app_comm.
    - intros n Hn. apply Hls; [|done]. intros [= ?]. done.
    - intros n x Hn Hx. apply Hfr; [|done]. intros [= ?]. done.
    - assert (E1 : ls' (P_fd (Z.to_nat fd)) = TB) by apply fn_lookup_insert. rewrite E1. split; cbn; try done.
      + eapply path_frame; [|exact S1]. intros x Hx Hin. rewrite S6; [done|done|]. intros Hx'. by apply (N2 x).
      + by eapply holds_same.
    - rewrite (Hls P_free) by done. eapply path_frame; [|exact H5]. intros x Hx Hin. by rewrite (Hfr P_free).
    - assert (E1 : ls' P_taken = TA). { unfold ls'. rewrite fn_lookup_insert_ne by done. apply fn_lookup_insert. }
      rewrite E1. by eapply holds_same. }
  assert (Hl' : fdrs_ (set_fdrec (set_watches s ws2 (free_wlink_ s)) fd r') !! Z.to_nat fd = Some r').
  { cbn. apply list_lookup_insert_eq. by eapply lookup_lt_Some. }
  rewrite (path_zero _ _ _ S4), (holds_nil ws2 TA W1) by (exact (holds_same _ _ _ _ Hsame Q7)).
  destruct (bool_decide (W1 = [])) eqn:EW; cbn [negb].
  - eexists wix, _, ls'. split; [done|]. split; [done|]. split; [|cbn; apply length_insert].
    rewrite (path_zero _ _ _ S4), (holds_nil ws2 TA W1), EW by (exact (holds_same _ _ _ _ Hsame Q7)). done.
  - destruct (queue_spec _ _ _ _ _ _ Hrep Hl') as (s' & r2 & E2 & Hrep' & _ & _ & L & _).
    rewrite Z2Nat.id in E2 by lia. rewrite E2. cbn [mbind option_bind]. exists wix, s', ls'. split; [done|]. split; [done|].
    split; [|rewrite L; cbn; apply length_insert].
    rewrite (path_zero _ _ _ S4), (holds_nil ws2 TA W1), EW by (exact (holds_same _ _ _ _ Hsame Q7)). done.
Qed.
End Taking.

(** Changes of watches that leave the descriptors alone. *)
Lemma repr_slots s wix A ls ws' free' wix' ls' T' :
  repr s wix A ls → partition (length ws') ls' →
  (∀ n, ls' (P_fd n) = ls (P_fd n)) →
  (∀ n x, 0 < x → x ∈ ls (P_fd n) → watch_at ws' x = watch_at (ws_ s) x) →
  path ws' free' (ls' P_free) 0 → path ws' wix' (ls' P_taken) 0 → holds ws' (ls' P_taken) T' →
  repr (set_watches s ws' free') wix' (FdSpec (sp_fds A) (sp_dirty A) T') ls'.
Proof.
  intros [H1 H2 H3 H4 H5 H6 H7 H8 H9 H10] Hp Hls Hws ???. split; cbn; try done.
  - intros n r Hn. rewrite Hls. eapply fd_ok_frame; [|by apply H3]. intros x. apply Hws.
  - intros n Hn. rewrite Hls. by apply H4.
Qed.

Definition spec_pop (A : fd_spec) (m : Z) : option (nat * option Z * fd_spec) :=
  match sp_taken A with
  | [] => None
  | p :: T => Some (p.1, if negb (m =? fd_none) then Some (Z.shiftl m 6) else None, FdSpec (sp_fds A) (sp_dirty A) T)
  end.

Lemma pop_spec s wix A ls m : repr s wix A ls →
  match spec_pop A m with
  | None => wix = 0
  | Some (e, fl, A') => wix ≠ 0 ∧ ∃ wix' s' ls', pop_watch_list_event s wix m = Some (Some e, fl, wix', s') ∧
      repr s' wix' A' ls' ∧ length (fdrs_ s') = length (fdrs_ s)
  end.
Proof.
  intros H. pose proof H as [H1 H2 H3 H4 H5 H6 H7 H8 H9 H10]. unfold spec_pop, pop_watch_list_event.
  destruct (sp_taken A) as [|p T]; [by inversion H7 as [E|]; rewrite <-E in H6|].
  inversion H7 as [|x ? l ? Hx H7' E]; subst. rewrite <-E in H6, H7. destruct H6 as (-> & Hpos & wr & Hwr & Hp).
  destruct (holds_at _ _ _ _ _ H7) as (wr' & Hwr' & He & Hm). rewrite Hwr in Hwr'. injection Hwr' as <-.
  split; [lia|]. rewrite Hwr. cbn [mbind option_bind]. rewrite He.
  set (ws' := <[slot x := _]> (ws_ s)). set (ls' := <[P_free := x :: ls P_free]> (<[P_taken := l]> ls)).
  assert (Hother : ∀ y, 0 < y → y ≠ x → watch_at ws' y = watch_at (ws_ s) y).
  { intros y Hy Hne. unfold ws'. by rewrite watch_at_insert, decide_False. }
  destruct H2 as (P1 & P2 & P3). assert (Hx' : x ∈ ls P_taken) by (rewrite <-E; left).
  assert (Hfr : ∀ q y, q ≠ P_taken → 0 < y → y ∈ ls q → watch_at ws' y = watch_at (ws_ s) y).
  { intros q y Hq Hy Hin. apply Hother; [done|]. intros ->. by apply Hq, (P2 _ _ x). }
  assert (Hnl : x ∉ l) by (pose proof (P1 P_taken) as N; rewrite <-E in N; by apply NoDup_cons in N as [? _]).
  eexists _, _, ls'. split; [done|]. split; [|done]. apply (repr_slots s x A ls); try done.
  - unfold ws'. rewrite length_insert. apply part_move; [done|done|]. rewrite <-E. cbn [app]. apply Permutation_middle.
  - intros n y Hy Hin. by apply (Hfr (P_fd n)).
  - assert (E1 : ls' P_free = x :: ls P_free) by apply fn_lookup_insert. rewrite E1. split; [done|]. split; [done|].
    eexists. unfold ws'. rewrite watch_at_insert, decide_True, Hwr by done. split; [done|].
    eapply path_frame; [|exact H5]. intros y Hy Hin. fold ws'. by rewrite (Hfr P_free).
  - change (ls' P_taken) with l. eapply path_frame; [|exact Hp]. intros y Hy Hin.
    rewrite Hother; [done|done|]. intros ->. done.
  - change (ls' P_taken) with l. eapply holds_frame; [|exact H7']. intros y Hin.
    rewrite Hother; [done|exact (path_pos _ _ _ _ _ Hp Hin)|]. intros ->. done.
Qed.

(** ** Updates *)

Section Updating.
Context (dead : nat → bool).

Definition spec_update (A : fd_spec) : option fd_update * fd_spec :=
  match sp_dirty A with
  | [] => (None, A)
  | fd :: U =>
      let wd := sp_fds A fd in
      let m := live_mask dead 0 (wd_list wd) in
      let '(ep', ep) := if m =? fd_none then (u32 (wd_epoch wd + 1), wd_epoch wd)
                        else (Z.max user_epoch (wd_epoch wd), Z.max user_epoch (wd_epoch wd)) in
      (Some (FdUpdate (Z.of_nat fd) m ep),
       FdSpec (<[fd := Watched (wd_body wd) ep' (wd_list wd)]> (sp_fds A)) U (sp_taken A))
  end.

Lemma update_spec s wix A ls : repr s wix A ls →
  let c := spec_update A in
  ∃ s', pop_update dead s = Some (c.1, s') ∧ repr s' wix c.2 ls ∧ length (fdrs_ s') = length (fdrs_ s).
Proof.
  intros H. pose proof H as [H1 H2 H3 H4 H5 H6 H7 H8 H9 H10]. unfold spec_update, pop_update.
  destruct (sp_dirty A) as [|fd U] eqn:EA.
  { cbn in H8. rewrite H8. cbn. by exists s. }
  destruct H8 as (E & r & Hr & Hu). pose proof (lookup_lt_Some _ _ _ Hr) as Hlt.
  unfold size, max_fds in H1. rewrite E. destruct (Z.of_nat fd + 1 =? link_sentinel) eqn:L.
  { change link_sentinel with 4294967295 in L. lia. }
  assert (Eu : u32 (Z.of_nat fd + 1 - 1) = Z.of_nat fd) by (rewrite u32_small; unfold two32; lia). rewrite Eu.
  unfold fdrec_at. rewrite Nat2Z.id, Hr. cbn [mbind option_bind]. destruct (H3 fd r Hr) as [K1 K2 K3 K4 K5].
  unfold list_mask. rewrite (watch_list_mask_spec dead _ _ (wd_list (sp_fds A fd)) _ _ _ K1 K3).
  2:{ pose proof (part_length _ _ (P_fd fd) H2). lia. }
  cbn [mbind option_bind]. change fd_none with 0. set (m := live_mask dead 0 (wd_list (sp_fds A fd))).
  set (wd := sp_fds A fd) in *. rewrite K5.
  assert (Em : (if wd_epoch wd <? user_epoch then (user_epoch, user_epoch) else (wd_epoch wd, wd_epoch wd)) =
               (Z.max user_epoch (wd_epoch wd), Z.max user_epoch (wd_epoch wd))).
  { destruct (wd_epoch wd <? user_epoch) eqn:B; [rewrite Z.max_l by lia|rewrite Z.max_r by lia]; done. }
  rewrite Em. clear Em.
  destruct (if m =? 0 then (u32 (wd_epoch wd + 1), wd_epoch wd)
            else (Z.max user_epoch (wd_epoch wd), Z.max user_epoch (wd_epoch wd))) as [ep' ep].
  eexists. split; [done|]. split; [|cbn; apply length_insert]. cbn [snd]. unfold set_fdrec. rewrite Nat2Z.id. cbn [fdrs_ update_link_ ws_ free_wlink_].
  apply NoDup_cons in H10 as [Hnin Hnd]. set (r' := Fdrec _ _ _ _ _).
  split; cbn; try done.
  - unfold size, max_fds. rewrite length_insert. lia.
  - intros n r0 Hn. destruct (decide (n = fd)) as [->|Hne].
    + rewrite list_lookup_insert_eq in Hn by done. injection Hn as <-. rewrite fn_lookup_insert. by split.
    + rewrite list_lookup_insert_ne in Hn by done. rewrite fn_lookup_insert_ne by done. by apply H3.
  - intros n Hn. destruct (decide (n = fd)) as [->|Hne]; [by rewrite list_lookup_insert_eq in Hn by done|].
    rewrite list_lookup_insert_ne in Hn by done. rewrite fn_lookup_insert_ne by done. by apply H4.
  - clear -Hu Hnin. revert Hu. generalize (update_link r). induction U as [|n U IH]; intros h Hu; [done|].
    destruct Hu as (-> & r0 & Hr0 & Hu). split; [done|]. exists r0.
    rewrite list_lookup_insert_ne by (intros ->; set_solver). split; [done|]. apply IH; [set_solver|done].
  - intros n r0 Hn. destruct (decide (n = fd)) as [->|Hne].
    + rewrite list_lookup_insert_eq in Hn by done. injection Hn as <-. cbn. unfold link_clean. naive_solver.
    + rewrite list_lookup_insert_ne in Hn by done. rewrite (H9 n r0 Hn). set_solver.
Qed.

End Updating.

(** ** Watching *)

Lemma double_capacity_spec fuel : ∀ ufd n, 0 ≤ ufd < 1024 → 0 < n ≤ 1024 → 1024 ≤ n * 2 ^ Z.of_nat fuel →
  n ≤ double_capacity fuel ufd n ≤ 2048 ∧ ufd < double_capacity fuel ufd n.
Proof.
  induction fuel as [|fuel IH]; intros ufd n Hu Hn Hf; cbn [double_capacity]; [lia|].
  destruct (n <=? ufd) eqn:E; [|lia]. rewrite u32_small by (unfold two32; lia).
  assert (Hf' : 1024 ≤ n * 2 * 2 ^ Z.of_nat fuel) by (rewrite Nat2Z.inj_succ, Z.pow_succ_r in Hf by lia; lia).
  destruct (decide (n * 2 ≤ 1024)) as [Hle|Hgt].
  - specialize (IH ufd (n * 2) Hu ltac:(lia) Hf'). lia.
  - destruct fuel; cbn [double_capacity]; [lia|]. destruct (n * 2 <=? ufd) eqn:E2; lia.
Qed.

(** The table grows to hold the descriptor. *)
Lemma new_capacity_fits capacity ufd : 0 ≤ capacity ≤ ufd → ufd < max_fds →
  capacity ≤ new_capacity capacity ufd ≤ max_fds ∧ ufd < new_capacity capacity ufd.
Proof.
  intros Hc Hu. unfold new_capacity, block_capacity, first_capacity, max_fds in *. destruct (1024 <=? ufd) eqn:E.
  - pose proof (Z.div_mod ufd 1024 ltac:(lia)). pose proof (Z.mod_pos_bound ufd 1024 ltac:(lia)).
    rewrite u32_small by (unfold two32; lia). lia.
  - rewrite u32_small by (unfold two32; lia).
    destruct (decide (1024 < Z.max 128 (capacity * 2))) as [Hgt|Hle].
    + cbn [double_capacity]. destruct (Z.max 128 (capacity * 2) <=? ufd) eqn:E2; lia.
    + destruct (double_capacity_spec 10 ufd (Z.max 128 (capacity * 2))); lia.
Qed.

Lemma ensure_spec s wix A ls ufd : repr s wix A ls → 0 ≤ ufd < max_fds →
  let s' := if fdr_capacity_ s <=? ufd then hard_ensure s ufd else s in
  repr s' wix A ls ∧ ∃ r, fdrs_ s' !! Z.to_nat ufd = Some r.
Proof.
  intros H Hu s'. unfold s', fdr_capacity_. destruct (size (fdrs_ s) <=? ufd) eqn:E.
  - pose proof H as [H1 H2 H3 H4 H5 H6 H7 H8 H9 H10].
    destruct (new_capacity_fits (size (fdrs_ s)) ufd) as [N1 N2]; [unfold size in *; lia|lia|].
    unfold hard_ensure, fdr_capacity_. set (n := Z.to_nat (new_capacity (size (fdrs_ s)) ufd - size (fdrs_ s))).
    assert (Hcase : ∀ fd r, (fdrs_ s ++ replicate n new_fdrec) !! fd = Some r →
      fdrs_ s !! fd = Some r ∨ fdrs_ s !! fd = None ∧ r = new_fdrec).
    { intros fd r Hr. apply lookup_app_Some in Hr as [Hr|[Hge Hr]]; [by left|]. right.
      split; [by apply lookup_ge_None_2|]. by apply lookup_replicate_1 in Hr as [-> _]. }
    split.
    + split; cbn; try done.
      * unfold size in *. rewrite length_app, length_replicate. lia.
      * intros fd r Hr. destruct (Hcase fd r Hr) as [Hr'|[Hn ->]]; [by apply H3|].
        destruct (H4 fd Hn) as [-> ->]. split; try done. by constructor.
      * intros fd Hn. apply H4, lookup_ge_None_2. apply lookup_ge_None_1 in Hn. rewrite length_app in Hn. lia.
      * eapply upath_frame; [|exact H8]. intros fd r Hr. exists r. split; [|done]. by apply lookup_app_l_Some.
      * intros fd r Hr. destruct (Hcase fd r Hr) as [Hr'|[Hn ->]]; [by apply H9|]. cbn. unfold link_clean. split; [done|].
        intros Hin. exfalso. assert (Hall : ∀ h, upath (fdrs_ s) h (sp_dirty A) → is_Some (fdrs_ s !! fd)).
        { clear -Hin. induction (sp_dirty A) as [|m U IH]; [inversion Hin|]. intros h (-> & r & Hr & Hu).
          apply elem_of_cons in Hin as [->|Hin]; [by eexists|]. by eapply IH. }
        destruct (Hall _ H8) as [? ?]. congruence.
    + cbn. apply lookup_lt_is_Some. rewrite length_app, length_replicate. unfold size in *. lia.
  - split; [done|]. apply lookup_lt_is_Some. unfold size in E. lia.
Qed.

Lemma new_watch_spec s wix A ls fd imask e : repr s wix A ls →
  ∃ x ws1 free1 ls1, new_watch s imask e = Some (x, set_watches s ws1 free1) ∧ 0 < x ∧
    watch_at ws1 x = Some (Watchrec (Some e) imask 0) ∧ path ws1 free1 (ls1 P_free) 0 ∧
    (∀ y p, 0 < y → y ∈ ls p → p ≠ P_free → watch_at ws1 y = watch_at (ws_ s) y ∧ y ≠ x) ∧
    x ∉ ls1 P_free ∧ (∀ y, y ∈ ls1 P_free → y ∈ ls P_free) ∧ (∀ p, p ≠ P_free → ls1 p = ls p) ∧
    partition (length ws1) (<[P_fd fd := ls (P_fd fd) ++ [x]]> ls1).
Proof.
  intros H. pose proof H as [_ H2 _ _ H5 _ _ _ _ _]. pose proof H2 as (P1 & P2 & P3). unfold new_watch.
  rewrite (path_zero _ _ _ H5). destruct (ls P_free) as [|x F] eqn:EF; cbn [negb].
  - (* a new slot *)
    rewrite bool_decide_eq_true_2 by done. cbn [negb]. set (wr := Watchrec _ _ _). set (x := size (ws_ s ++ [wr])).
    assert (Ex : x = Z.of_nat (S (length (ws_ s)))) by (unfold x, size; rewrite length_app; cbn; lia).
    exists x, (ws_ s ++ [wr]), (free_wlink_ s), ls. split; [done|]. split; [lia|].
    assert (Ew : slot x = length (ws_ s)) by (unfold slot; lia).
    split; [unfold watch_at; rewrite Ew; by apply list_lookup_middle|]. rewrite EF.
    split; [cbn in H5; done|]. split; [|split; [set_solver|split; [done|split; [done|]]]].
    + intros y p Hy Hin _. assert (1 ≤ y ≤ Z.of_nat (length (ws_ s))) by (apply P3; by exists p).
      split; [|lia]. unfold watch_at. apply lookup_app_l. unfold slot. lia.
    + rewrite length_app, Nat.add_comm. cbn [length Nat.add]. rewrite Ex. by apply part_grow.
  - (* a free slot *)
    rewrite bool_decide_eq_false_2 by done. cbn [negb]. destruct H5 as (-> & Hx & wr & Hwr & Hp).
    rewrite Hwr. cbn [mbind option_bind]. set (ws1 := <[slot x := _]> (ws_ s)).
    pose proof (P1 P_free) as N. rewrite EF in N. apply NoDup_cons in N as [Nx NF].
    assert (Hother : ∀ y, 0 < y → y ≠ x → watch_at ws1 y = watch_at (ws_ s) y).
    { intros y Hy Hne. unfold ws1. by rewrite watch_at_insert, decide_False. }
    exists x, ws1, (wlink wr), (<[P_free := F]> ls). split; [done|]. split; [done|].
    split; [unfold ws1; by rewrite watch_at_insert, decide_True, Hwr by done|].
    change ((<[P_free := F]> ls) P_free) with F.
    split; [|split; [|split; [done|split; [set_solver|split]]]].
    + eapply path_frame; [|exact Hp]. intros y Hy Hin. rewrite Hother; [done|done|]. intros ->. done.
    + intros y p Hy Hin Hne. assert (y ≠ x); [|split; [by apply Hother|done]].
      intros ->. apply Hne, (P2 _ _ x); [done|]. rewrite EF. by left.
    + intros p Hne. by rewrite fn_lookup_insert_ne.
    + unfold ws1. rewrite length_insert. apply part_move; [done|done|]. rewrite EF, <-(assoc_L (++)). done.
Qed.

Lemma append_spec s wix A ls fd r imask e : repr s wix A ls → fdrs_ s !! fd = Some r →
  let wd := sp_fds A fd in
  ∃ s' ls', append_watch s (Z.of_nat fd) imask e = Some s' ∧
    repr s' wix (spec_set A fd (Watched (wd_body wd) (wd_epoch wd) (wd_list wd ++ [(e, imask)]))) ls'.
Proof.
  intros H Hr wd. pose proof H as [H1 H2 H3 H4 H5 H6 H7 H8 H9 H10].
  destruct (H3 fd r Hr) as [K1 K2 K3 K4 K5]. fold wd in K3, K4, K5.
  destruct (new_watch_spec s wix A ls fd imask e H) as (x & ws1 & free1 & ls1 & E & Hx & Hwx & Hfree & Hfr & Hxf & Hsub & Hls & Hpart).
  unfold append_watch. rewrite E. cbn [mbind option_bind]. unfold fdrec_at. cbn [fdrs_ set_watches].
  rewrite Nat2Z.id, Hr. cbn [mbind option_bind].
  set (l := ls (P_fd fd)) in *. set (ls' := <[P_fd fd := l ++ [x]]> ls1) in *.
  assert (Hxl : x ∉ l). { intros Hin. by destruct (Hfr x (P_fd fd) Hx Hin) as [_ ?]. }
  destruct H2 as (P1 & P2 & P3).
  assert (K1' : path ws1 (whead r) l 0).
  { eapply path_frame; [|exact K1]. intros y Hy Hin. by rewrite (proj1 (Hfr y (P_fd fd) Hy Hin ltac:(done))). }
  destruct (store_advance ws1 (whead r) l 0 x _ K1' (P1 _) Hxl Hx Hwx) as (S1 & S2 & S3 & S4).
  set (st := store (tail l) x ws1 (whead r)) in *.
  set (r' := Fdrec (body r) (epoch r) st.2 x (update_link r)).
  assert (Eres : (if negb (whead r =? 0)
       then set_fdrec (set_watches (set_watches s ws1 free1) (set_wlink ws1 (wtail r) x) free1) (Z.of_nat fd)
              (Fdrec (body r) (epoch r) (whead r) x (update_link r))
       else set_fdrec (set_watches s ws1 free1) (Z.of_nat fd) (Fdrec (body r) (epoch r) x x (update_link r))) =
     FdEventSet (<[fd := r']> (fdrs_ s)) (update_link_ s) st.1 free1).
  { unfold set_fdrec. rewrite Nat2Z.id. unfold r', st, store. rewrite K2, (path_zero _ _ _ K1').
    destruct (decide (l = [])) as [->|Hne]; [done|]. rewrite bool_decide_eq_false_2 by done. cbn [negb].
    pose proof (path_pos _ _ _ _ _ K1' (tail_elem l Hne)) as Ht. by rewrite (proj2 (Z.eqb_neq (tail l) 0)) by lia. }
  exists (FdEventSet (<[fd := r']> (fdrs_ s)) (update_link_ s) st.1 free1), ls'. split; [f_equal; exact Eres|].
  assert (Hnot : ∀ y p, y ∈ ls p → p ≠ P_fd fd → y ∉ l) by (intros y p Hy Hp Hin; by apply Hp, (P2 _ _ y)).
  assert (Hback : ∀ y p, 0 < y → y ∈ ls p → p ≠ P_fd fd → p ≠ P_free → watch_at st.1 y = watch_at (ws_ s) y).
  { intros y p Hy Hin Hp Hf. rewrite S3 by (done || by eapply Hnot). by apply (Hfr y p). }
  apply (repr_change s wix A ls st.1 free1 wix ls' fd r r' _ (sp_taken A)); try done.
  - by rewrite S4.
  - intros n Hn. unfold ls'. rewrite fn_lookup_insert_ne by (intros [= ?]; done). by apply Hls.
  - intros n y Hn Hy Hin. apply (Hback y (P_fd n)); try done. intros [= ?]. done.
  - assert (E1 : ls' (P_fd fd) = l ++ [x]) by apply fn_lookup_insert. rewrite E1. split; cbn; try done.
    + by rewrite tail_snoc.
    + apply Forall2_app; [|constructor; [|constructor]].
      * eapply holds_same; [exact S2|]. eapply holds_frame; [|exact K3]. intros y Hin.
        by rewrite (proj1 (Hfr y (P_fd fd) (path_pos _ _ _ _ _ K1' Hin) Hin ltac:(done))).
      * by rewrite S2, Hwx.
  - change (ls' P_free) with (ls1 P_free). eapply path_frame; [|exact Hfree]. intros y Hy Hin.
    rewrite S3; [done|done|]. apply (Hnot y P_free); [by apply Hsub|done].
  - change (ls' P_taken) with (ls1 P_taken). rewrite (Hls P_taken) by done. eapply path_frame; [|exact H6].
    intros y Hy Hin. by rewrite (Hback y P_taken).
  - change (ls' P_taken) with (ls1 P_taken). rewrite (Hls P_taken) by done. eapply holds_frame; [|exact H7].
    intros y Hin. rewrite (Hback y P_taken); [done|exact (path_pos _ _ _ _ _ H6 Hin)|done..].
Qed.

Section Watching.
Context (closed : nat → bool).

Definition spec_own (A : fd_spec) (fd b : nat) : option (option nat * option nat * list nat * fd_spec) :=
  let wd := sp_fds A fd in
  if bool_decide (wd_body wd = Some b) then Some (None, None, [], A)
  else
    lost ← (match wd_body wd with
            | None => Some (None, [], A)
            | Some _ => let c := spec_close closed A fd in p ← c.1.1; Some (Some p.1, c.1.2, c.2)
            end);
    let '(old, es, A) := lost in
    let wd := sp_fds A fd in
    Some (Some b, old, es, spec_set A fd (Watched (Some b) (wd_epoch wd) (wd_list wd))).

Lemma set_body_spec s wix A ls fd r b : repr s wix A ls → fdrs_ s !! fd = Some r →
  let wd := sp_fds A fd in
  repr (set_fdrec s (Z.of_nat fd) (Fdrec (Some b) (epoch r) (whead r) (wtail r) (update_link r))) wix
    (spec_set A fd (Watched (Some b) (wd_epoch wd) (wd_list wd))) ls.
Proof.
  intros H Hr wd. pose proof H as [H1 H2 H3 H4 H5 H6 H7 H8 H9 H10]. unfold set_fdrec. rewrite Nat2Z.id.
  apply (repr_change s wix A ls (ws_ s) (free_wlink_ s) wix ls fd r _ _ (sp_taken A)); try done.
  destruct (H3 fd r Hr) as [? ? ? ? ?]. by split.
Qed.

Lemma own_spec s wix A ls fd r b : repr s wix A ls → 0 ≤ fd < max_fds → fdrs_ s !! Z.to_nat fd = Some r →
  match spec_own A (Z.to_nat fd) b with
  | None => own_fd closed s fd b = None
  | Some (a, o, es, A') => ∃ s' ls' r', own_fd closed s fd b = Some (a, o, es, s') ∧ repr s' wix A' ls' ∧
      fdrs_ s' !! Z.to_nat fd = Some r'
  end.
Proof.
  intros H Hfd Hr. destruct (slot_of s wix A ls fd H Hfd) as [Eu _]. unfold own_fd, spec_own. rewrite Eu.
  unfold fdrec_at. rewrite Hr. cbn [mbind option_bind]. pose proof (r_fds _ _ _ _ H _ r Hr) as [K1 K2 K3 K4 K5]. rewrite K4.
  destruct (bool_decide _); [by exists s, ls, r|].
  assert (Hset : ∀ s1 A1 ls1 r1, repr s1 wix A1 ls1 → fdrs_ s1 !! Z.to_nat fd = Some r1 →
    let s2 := set_fdrec s1 fd (Fdrec (Some b) (epoch r1) (whead r1) (wtail r1) (update_link r1)) in
    let wd := sp_fds A1 (Z.to_nat fd) in
    repr s2 wix (spec_set A1 (Z.to_nat fd) (Watched (Some b) (wd_epoch wd) (wd_list wd))) ls1 ∧
    ∃ r2, fdrs_ s2 !! Z.to_nat fd = Some r2).
  { intros s1 A1 ls1 r1 Hs1 Hr1 s2 wd. split.
    - pose proof (set_body_spec s1 wix A1 ls1 (Z.to_nat fd) r1 b Hs1 Hr1) as HH. rewrite Z2Nat.id in HH by lia. exact HH.
    - eexists. cbn. apply list_lookup_insert_eq. by eapply lookup_lt_Some. }
  destruct (wd_body (sp_fds A (Z.to_nat fd))) as [b0|] eqn:Eb.
  - destruct (close_spec closed s wix A ls fd H Hfd) as (s1 & ls1 & E1 & Hs1 & L). rewrite E1. cbn [mbind option_bind].
    cbn [fst snd]. destruct (spec_close closed A (Z.to_nat fd)) as [[[p|] es] A1]; cbn [fst snd mbind option_bind] in *; [|done].
    assert (Hr1 : ∃ r1, fdrs_ s1 !! Z.to_nat fd = Some r1).
    { apply lookup_lt_is_Some. rewrite L. by eapply lookup_lt_Some. }
    destruct Hr1 as [r1 Hr1]. rewrite Hr1. cbn [mbind option_bind].
    destruct (Hset s1 A1 ls1 r1 Hs1 Hr1) as (R1 & r2 & R2). eexists _, ls1, r2. by split.
  - cbn [mbind option_bind]. rewrite Hr. cbn [mbind option_bind].
    destruct (Hset s A ls r H Hr) as (R1 & r2 & R2). eexists _, ls, r2. by split.
Qed.

Definition spec_watch (A : fd_spec) (fd imask : Z) (b e : nat) : option (option nat * option nat * list nat * fd_spec) :=
  if (fd <? 0) || (imask =? fd_none) then Some (None, None, [], A)
  else
    let fd := Z.to_nat fd in
    own ← spec_own A fd b;
    let '(added, removed, es, A) := own in
    let A := spec_queue A fd in
    let wd := sp_fds A fd in
    Some (added, removed, es, spec_set A fd (Watched (wd_body wd) (wd_epoch wd) (wd_list wd ++ [(e, imask)]))).

Lemma watch_spec s wix A ls fd imask b e : repr s wix A ls → fd < max_fds →
  match spec_watch A fd imask b e with
  | None => watch closed s fd imask b e = None
  | Some (a, o, es, A') => ∃ s' ls', watch closed s fd imask b e = Some (a, o, es, s') ∧ repr s' wix A' ls'
  end.
Proof.
  intros H Hlt. unfold spec_watch, watch. destruct ((fd <? 0) || (imask =? fd_none)) eqn:E; [by exists s, ls|].
  assert (Hfd : 0 ≤ fd < max_fds) by lia. destruct (slot_of s wix A ls fd H Hfd) as [Eu _]. rewrite Eu.
  destruct (ensure_spec s wix A ls fd H Hfd) as (H0 & r & Hr). cbv zeta.
  set (s0 := if fdr_capacity_ s <=? fd then hard_ensure s fd else s) in *.
  pose proof (own_spec s0 wix A ls fd r b H0 Hfd Hr) as Ho.
  destruct (spec_own A (Z.to_nat fd) b) as [[[[a o] es] A1]|]; [|by rewrite Ho].
  destruct Ho as (s1 & ls1 & r1 & E1 & H1 & Hr1). rewrite E1. cbn [mbind option_bind].
  destruct (queue_spec s1 wix A1 ls1 _ r1 H1 Hr1) as (s2 & r2 & E2 & H2 & _ & _ & _ & Hr2 & _).
  rewrite Z2Nat.id in E2 by lia. rewrite E2. cbn [mbind option_bind].
  destruct (append_spec s2 wix _ ls1 _ r2 imask e H2 Hr2) as (s3 & ls3 & E3 & H3).
  rewrite Z2Nat.id in E3 by lia. rewrite E3. cbn [mbind option_bind]. by exists s3, ls3.
Qed.
End Watching.

(** ** The operations together *)

Inductive fd_op :=
  | F_watch (fd imask : Z) (b e : nat)
  | F_take (fd imask ep : Z)
  | F_pop (m : Z)
  | F_update
  | F_close (fd : Z)
  | F_mask (fd : Z).

Inductive fd_output :=
  | R_watch (added removed : option nat) (es : list nat)
  | R_take (some : bool)
  | R_pop (e : option nat) (flags : option Z)
  | R_update (u : option fd_update)
  | R_close (c : option (nat * Z)) (es : list nat)
  | R_mask (m : Z)
  | R_busy.

(** One operation, with the events that are dead and the bodies that are closed
    at the time.  A caller pops all it has taken before it takes again. *)
Definition run_fd_op (dead closed : nat → bool) (s : fd_event_set) (wix : Z) (op : fd_op) :
    option (fd_output * fd_event_set * Z) :=
  match op with
  | F_watch fd m b e =>
      r ← watch closed s fd m b e;
      let '(added, removed, es, s) := r in Some (R_watch added removed es, s, wix)
  | F_take fd m ep =>
      if wix =? 0 then r ← take_watch_list dead s fd m ep; Some (R_take (negb (r.1 =? 0)), r.2, r.1)
      else Some (R_busy, s, wix)
  | F_pop m =>
      if wix =? 0 then Some (R_busy, s, wix)
      else r ← pop_watch_list_event s wix m; let '(e, fl, wix, s) := r in Some (R_pop e fl, s, wix)
  | F_update => r ← pop_update dead s; Some (R_update r.1, r.2, wix)
  | F_close fd => r ← fd_close closed s fd; let '(c, es, s) := r in Some (R_close c es, s, wix)
  | F_mask fd => m ← fd_mask dead s fd; Some (R_mask m, s, wix)
  end.

(** The same on the abstract set. *)
Definition spec_fd_op (dead closed : nat → bool) (A : fd_spec) (op : fd_op) : option (fd_output * fd_spec) :=
  match op with
  | F_watch fd m b e =>
      r ← spec_watch closed A fd m b e; let '(added, removed, es, A) := r in Some (R_watch added removed es, A)
  | F_take fd m ep =>
      if bool_decide (sp_taken A = []) then
        if fd <? 0 then Some (R_take false, A) else let r := spec_take dead A (Z.to_nat fd) m ep in Some (R_take r.1, r.2)
      else Some (R_busy, A)
  | F_pop m => match spec_pop A m with None => Some (R_busy, A) | Some (e, fl, A) => Some (R_pop (Some e) fl, A) end
  | F_update => let r := spec_update dead A in Some (R_update r.1, r.2)
  | F_close fd =>
      if fd <? 0 then Some (R_close None [], A)
      else let '(c, es, A) := spec_close closed A (Z.to_nat fd) in Some (R_close c es, A)
  | F_mask fd =>
      Some (R_mask (if fd <? 0 then fd_none else live_mask dead 0 (wd_list (sp_fds A (Z.to_nat fd)))), A)
  end.

(** Descriptors are C++ [int]s. *)
Definition fd_of (op : fd_op) : Z :=
  match op with F_watch fd _ _ _ | F_take fd _ _ | F_close fd | F_mask fd => fd | F_pop _ | F_update => 0 end.
Definition is_int (z : Z) : Prop := - max_fds ≤ z < max_fds.

Lemma negative_slot s wix A ls fd : repr s wix A ls → - max_fds ≤ fd < 0 → (fdr_capacity_ s <=? u32 fd) = true.
Proof.
  intros H Hfd. pose proof (r_cap _ _ _ _ H) as Hc. unfold fdr_capacity_, max_fds, u32, two32 in *.
  rewrite <-(Z.mod_add fd 1 4294967296), Z.mod_small by lia. lia.
Qed.

Lemma run_fd_op_spec dead closed s wix A op : represents s wix A → is_int (fd_of op) →
  match spec_fd_op dead closed A op with
  | None => run_fd_op dead closed s wix op = None
  | Some (o, A') => ∃ s' wix', run_fd_op dead closed s wix op = Some (o, s', wix') ∧ represents s' wix' A'
  end.
Proof.
  intros [ls H] Hfd. pose proof (path_zero _ _ _ (r_taken _ _ _ _ H)) as Hz.
  rewrite (holds_nil _ _ _ (r_popping _ _ _ _ H)) in Hz.
  destruct op as [fd m b e|fd m ep|m| |fd|fd]; cbn [run_fd_op spec_fd_op fd_of] in *; unfold is_int in Hfd.
  - pose proof (watch_spec closed s wix A ls fd m b e H ltac:(lia)) as Hw.
    destruct (spec_watch closed A fd m b e) as [[[[a o] es] A']|]; cbn [mbind option_bind]; [|by rewrite Hw].
    destruct Hw as (s' & ls' & -> & H'). cbn. eexists s', wix. split; [done|by exists ls'].
  - rewrite Hz. destruct (bool_decide (sp_taken A = [])) eqn:E; [|exists s, wix; split; [done|by exists ls]].
    assert (Hwix : wix = 0) by lia. subst wix. destruct (fd <? 0) eqn:En.
    + unfold take_watch_list. rewrite (negative_slot s 0 A ls) by (done || lia). cbn.
      exists s, 0. split; [done|by exists ls].
    + destruct (take_spec dead s A ls fd m ep H ltac:(lia)) as (wix' & s' & ls' & -> & H' & Hb & _). cbn.
      rewrite Hb. exists s', wix'. split; [done|by exists ls'].
  - pose proof (pop_spec s wix A ls m H) as Hp. destruct (spec_pop A m) as [[[e fl] A']|].
    + destruct Hp as (Hne & wix' & s' & ls' & E & H' & _). rewrite (proj2 (Z.eqb_neq wix 0)), E by done. cbn.
      exists s', wix'. split; [done|by exists ls'].
    + subst wix. cbn. exists s, 0. split; [done|by exists ls].
  - destruct (update_spec dead s wix A ls H) as (s' & -> & H' & _). cbn. exists s', wix. split; [done|by exists ls].
  - destruct (fd <? 0) eqn:En.
    + unfold fd_close. rewrite (negative_slot s wix A ls) by (done || lia). cbn.
      exists s, wix. split; [done|by exists ls].
    + destruct (close_spec closed s wix A ls fd H ltac:(lia)) as (s' & ls' & E & H' & _). rewrite E. cbn.
      destruct (spec_close closed A (Z.to_nat fd)) as [[c es] A']. cbn. exists s', wix. split; [done|by exists ls'].
  - unfold fd_mask. destruct (fd <? 0) eqn:En.
    + rewrite (negative_slot s wix A ls) by (done || lia). cbn. exists s, wix. split; [done|by exists ls].
    + destruct (slot_of s wix A ls fd H ltac:(lia)) as [-> Hs]. destruct (fdr_capacity_ s <=? fd).
      * rewrite Hs. exists s, wix. split; [done|by exists ls].
      * destruct Hs as (r & -> & Hl). cbn [mbind option_bind]. destruct (r_fds _ _ _ _ H _ r Hl) as [K1 K2 K3 K4 K5].
        unfold list_mask. rewrite (watch_list_mask_spec dead _ _ _ _ _ _ K1 K3).
        2:{ pose proof (part_length _ _ (P_fd (Z.to_nat fd)) (r_part _ _ _ _ H)). lia. }
        exists s, wix. split; [done|by exists ls].
Qed.

Fixpoint run_fd_ops (s : fd_event_set) (wix : Z) (ops : list ((nat → bool) * (nat → bool) * fd_op)) :
    option (list fd_output * fd_event_set * Z) :=
  match ops with
  | [] => Some ([], s, wix)
  | (dead, closed, op) :: ops' =>
      r ← run_fd_op dead closed s wix op;
      let '(o, s, wix) := r in
      r ← run_fd_ops s wix ops';
      let '(os, s, wix) := r in Some (o :: os, s, wix)
  end.

Fixpoint spec_fd_ops (A : fd_spec) (ops : list ((nat → bool) * (nat → bool) * fd_op)) : option (list fd_output * fd_spec) :=
  match ops with
  | [] => Some ([], A)
  | (dead, closed, op) :: ops' =>
      r ← spec_fd_op dead closed A op;
      r' ← spec_fd_ops r.2 ops';
      Some (r.1 :: r'.1, r'.2)
  end.

Lemma new_represents : represents new_fd_event_set 0 new_fd_spec.
Proof.
  exists (λ _, []). split; try done.
  - split; [intros p; constructor|]. split; [intros p q x Hx; inversion Hx|]. intros x. cbn. split; [lia|].
    intros [p Hp]. inversion Hp.
  - constructor.
  - constructor.
Qed.

(** C22 The watch set with its threaded array refines the abstract one: any
    sequence of watches, notifications, pops, updates and closings on the
    array answers as on plain lists, in order and with nothing lost or
    duplicated, never runs off a list and never follows a null handle.  It
    fails where the abstract set does: when a descriptor that is open gets a
    second body. *)
Theorem fd_set_refines (ops : list ((nat → bool) * (nat → bool) * fd_op)) :
  Forall (λ o, is_int (fd_of o.2)) ops →
  match spec_fd_ops new_fd_spec ops with
  | None => run_fd_ops new_fd_event_set 0 ops = None
  | Some (os, A) => ∃ s wix, run_fd_ops new_fd_event_set 0 ops = Some (os, s, wix) ∧ represents s wix A
  end.
Proof.
  pose proof new_represents as H. revert H. generalize new_fd_event_set, 0, new_fd_spec.
  induction ops as [|[[dead closed] op] ops IH]; intros s wix A H Hf; cbn [run_fd_ops spec_fd_ops]; [by exists s, wix|].
  apply Forall_cons in Hf as [Hop Hf]. pose proof (run_fd_op_spec dead closed s wix A op H Hop) as H1.
  destruct (spec_fd_op dead closed A op) as [[o A1]|]; cbn [mbind option_bind]; [|by rewrite H1].
  destruct H1 as (s1 & wix1 & -> & H1). cbn [mbind option_bind fst snd]. specialize (IH s1 wix1 A1 H1 Hf).
  destruct (spec_fd_ops A1 ops) as [[os A2]|]; cbn [mbind option_bind]; [|by rewrite IH].
  destruct IH as (s2 & wix2 & -> & H2). by exists s2, wix2.
Qed.

(** Two watches of a descriptor, a notification that takes one of them, and the
    update that leaves the other. *)
Definition sample_fd_ops : list ((nat → bool) * (nat → bool) * fd_op) :=
  (λ op, ((λ _, false), (λ _, false), op)) <$>
    [F_watch 5 1 7 100; F_watch 5 2 7 101; F_update; F_take 5 1 2; F_pop 1; F_mask 5; F_update; F_watch (-1) 3 7 102].

Lemma fd_set_refines_witness : Forall (λ o, is_int (fd_of o.2)) sample_fd_ops ∧
  ∃ A s wix,
    spec_fd_ops new_fd_spec sample_fd_ops =
      Some ([R_watch (Some 7%nat) None []; R_watch None None []; R_update (Some (FdUpdate 5 3 2)); R_take true;
             R_pop (Some 100%nat) (Some 64); R_mask 2; R_update (Some (FdUpdate 5 2 2)); R_watch None None []], A) ∧
    represents s wix A.
Proof.
  assert (Hf : Forall (λ o, is_int (fd_of o.2)) sample_fd_ops) by (repeat (constructor; [done|]); constructor).
  split; [exact Hf|]. pose proof (fd_set_refines sample_fd_ops Hf) as H.
  assert (E : ∃ A, spec_fd_ops new_fd_spec sample_fd_ops =
    Some ([R_watch (Some 7%nat) None []; R_watch None None []; R_update (Some (FdUpdate 5 3 2)); R_take true;
           R_pop (Some 100%nat) (Some 64); R_mask 2; R_update (Some (FdUpdate 5 2 2)); R_watch None None []], A)).
  { eexists. vm_compute. reflexivity. }
  destruct E as [A E]. rewrite E in H. destruct H as (s & wix & _ & H). by exists A, s, wix.
Defined.

(** ** Stale notifications *)

Lemma queue_epoch A fd n : wd_epoch (sp_fds (spec_queue A fd) n) = wd_epoch (sp_fds A n).
Proof. unfold spec_queue. by destruct (decide _). Qed.

Lemma set_epoch A fd wd n :
  wd_epoch (sp_fds (spec_set A fd wd) n) = if decide (n = fd) then wd_epoch wd else wd_epoch (sp_fds A n).
Proof. cbn. destruct (decide (n = fd)) as [->|Hne]; [by rewrite fn_lookup_insert|by rewrite fn_lookup_insert_ne]. Qed.

(** [e'] is at most one epoch after [e], or the first for users. *)
Definition advances (e e' : Z) : Prop := e ≤ e' ≤ Z.max user_epoch (e + 1).

Lemma advances_refl e : advances e e.
Proof. unfold advances. lia. Qed.

Lemma close_epoch closed A fd n : 0 ≤ wd_epoch (sp_fds A n) < two32 - 1 →
  advances (wd_epoch (sp_fds A n)) (wd_epoch (sp_fds (spec_close closed A fd).2 n)).
Proof.
  intros He. unfold spec_close. destruct (wd_body _); [|apply advances_refl].
  destruct (negb _); [apply advances_refl|]. cbn [snd]. rewrite queue_epoch, set_epoch.
  destruct (decide (n = fd)) as [->|]; [|apply advances_refl]. cbn [wd_epoch]. rewrite u32_small by lia. unfold advances. lia.
Qed.

Lemma spec_op_epoch dead closed A op o A' n :
  spec_fd_op dead closed A op = Some (o, A') → 0 ≤ wd_epoch (sp_fds A n) < two32 - 1 →
  advances (wd_epoch (sp_fds A n)) (wd_epoch (sp_fds A' n)).
Proof.
  intros E He. destruct op as [fd m b e|fd m ep|m| |fd|fd]; cbn [spec_fd_op] in E.
  - unfold spec_watch in E. destruct (_ || _); [injection E as _ <-; apply advances_refl|]. unfold spec_own in E.
    destruct (bool_decide _).
    + injection E as _ <-. rewrite set_epoch. destruct (decide (n = Z.to_nat fd)) as [->|];
        cbn [wd_epoch]; rewrite queue_epoch; apply advances_refl.
    + pose proof (close_epoch closed A (Z.to_nat fd) n He) as Hc.
      assert (Hfin : ∀ A1, advances (wd_epoch (sp_fds A n)) (wd_epoch (sp_fds A1 n)) →
        let A2 := spec_set A1 (Z.to_nat fd) (Watched (Some b) (wd_epoch (sp_fds A1 (Z.to_nat fd))) (wd_list (sp_fds A1 (Z.to_nat fd)))) in
        advances (wd_epoch (sp_fds A n)) (wd_epoch (sp_fds (spec_set (spec_queue A2 (Z.to_nat fd)) (Z.to_nat fd)
          (Watched (wd_body (sp_fds (spec_queue A2 (Z.to_nat fd)) (Z.to_nat fd)))
             (wd_epoch (sp_fds (spec_queue A2 (Z.to_nat fd)) (Z.to_nat fd)))
             (wd_list (sp_fds (spec_queue A2 (Z.to_nat fd)) (Z.to_nat fd)) ++ [(e, m)]))) n))).
      { intros A1 HA A2. rewrite set_epoch. destruct (decide (n = Z.to_nat fd)) as [->|Hne]; cbn [wd_epoch];
          rewrite queue_epoch; unfold A2; rewrite set_epoch; [by rewrite decide_True|by rewrite decide_False]. }
      destruct (wd_body (sp_fds A (Z.to_nat fd))); cbn [mbind option_bind] in E.
      * destruct (spec_close closed A (Z.to_nat fd)) as [[[p|] es] A1]; cbn [fst snd mbind option_bind] in *; [|done].
        injection E as _ <-. by apply Hfin.
      * injection E as _ <-. apply Hfin, advances_refl.
  - destruct (bool_decide _); [|injection E as _ <-; apply advances_refl].
    destruct (fd <? 0); injection E as _ <-; [apply advances_refl|]. unfold spec_take. destruct (_ || _); [apply advances_refl|].
    assert (H0 : ∀ W D T, wd_epoch (sp_fds (FdSpec (<[Z.to_nat fd := Watched (wd_body (sp_fds A (Z.to_nat fd)))
                (wd_epoch (sp_fds A (Z.to_nat fd))) W]> (sp_fds A)) D T) n) = wd_epoch (sp_fds A n)).
    { intros W D T. cbn. destruct (decide (n = Z.to_nat fd)) as [->|Hne]; [by rewrite fn_lookup_insert|by rewrite fn_lookup_insert_ne]. }
    destruct (bool_decide _); cbn [snd]; rewrite ?queue_epoch, H0; apply advances_refl.
  - unfold spec_pop in E. destruct (sp_taken A); injection E as _ <-; apply advances_refl.
  - injection E as _ <-. unfold spec_update. destruct (sp_dirty A) as [|fd U]; [apply advances_refl|].
    destruct (live_mask _ _ _ =? fd_none); cbn [snd sp_fds]; (destruct (decide (n = fd)) as [->|Hne];
      [rewrite fn_lookup_insert|rewrite fn_lookup_insert_ne by done; apply advances_refl]); cbn [wd_epoch];
      [rewrite u32_small by lia|]; unfold advances; lia.
  - destruct (fd <? 0); [injection E as _ <-; apply advances_refl|].
    pose proof (close_epoch closed A (Z.to_nat fd) n He) as Hc. destruct (spec_close closed A (Z.to_nat fd)) as [[c es] A1].
    injection E as _ <-. exact Hc.
  - injection E as _ <-. apply advances_refl.
Qed.

Lemma spec_ops_epoch n ops : ∀ A os A',
  spec_fd_ops A ops = Some (os, A') → 0 ≤ wd_epoch (sp_fds A n) → Z.max user_epoch (wd_epoch (sp_fds A n)) + size ops < two32 - 1 →
  wd_epoch (sp_fds A n) ≤ wd_epoch (sp_fds A' n).
Proof.
  induction ops as [|[[dead closed] op] ops IH]; intros A os A' E He Hb; cbn [spec_fd_ops] in E; [by injection E as _ <-|].
  rewrite size_cons in Hb. pose proof (size_nonneg ops).
  destruct (spec_fd_op dead closed A op) as [[o A1]|] eqn:E1; [|done]. cbn [mbind option_bind fst snd] in E.
  pose proof (spec_op_epoch dead closed A op o A1 n E1 ltac:(lia)) as H1. unfold advances in H1.
  destruct (spec_fd_ops A1 ops) as [[os1 A2]|] eqn:E2; [|done]. injection E as _ <-. cbn [snd].
  specialize (IH A1 os1 A2 E2). lia.
Qed.

Lemma run_fd_ops_spec ops : ∀ s wix A os s' wix', represents s wix A → Forall (λ o, is_int (fd_of o.2)) ops →
  run_fd_ops s wix ops = Some (os, s', wix') →
  ∃ A', spec_fd_ops A ops = Some (os, A') ∧ represents s' wix' A'.
Proof.
  induction ops as [|[[dead closed] op] ops IH]; intros s wix A os s' wix' H Hf E; cbn [run_fd_ops spec_fd_ops] in *.
  { injection E as <- <- <-. by exists A. }
  apply Forall_cons in Hf as [Hop Hf]. pose proof (run_fd_op_spec dead closed s wix A op H Hop) as H1.
  destruct (spec_fd_op dead closed A op) as [[o A1]|]; [|by rewrite H1 in E].
  destruct H1 as (s1 & wix1 & E1 & H1). rewrite E1 in E. cbn [mbind option_bind fst snd] in *.
  destruct (run_fd_ops s1 wix1 ops) as [[[os1 s2] wix2]|] eqn:E2; [|done]. injection E as <- <- <-.
  destruct (IH s1 wix1 A1 os1 s2 wix2 H1 Hf E2) as (A2 & -> & H2). by exists A2.
Qed.

(** A notification that the kernel queued for a descriptor before it was
    closed is ignored afterwards: whatever watches, closings and updates follow,
    also of a new file with the same number, taking watches with the epoch of
    the closed one finds nothing, until the 32-bit epochs come round. *)
Theorem stale_notifications_ignored (before after : list ((nat → bool) * (nat → bool) * fd_op))
    (dead closed : nat → bool) (fd imask ep : Z) (b : nat) (os os' : list fd_output) (es : list nat)
    (s s1 s2 : fd_event_set) (wix wix' : Z) :
  Forall (λ o, is_int (fd_of o.2)) before → Forall (λ o, is_int (fd_of o.2)) after → is_int fd →
  run_fd_ops new_fd_event_set 0 before = Some (os, s, wix) →
  fd_close closed s fd = Some (Some (b, ep), es, s1) → 0 < ep →
  run_fd_ops s1 wix after = Some (os', s2, wix') →
  ep + size after + 3 < two32 →
  take_watch_list dead s2 fd imask ep = Some (0, s2).
Proof.
  intros Hb Ha Hfd E1 Ec Hep E2 Hsize. pose proof (size_nonneg after).
  destruct (run_fd_ops_spec before _ _ _ _ _ _ new_represents Hb E1) as (A & _ & [ls H1]).
  unfold is_int in Hfd. destruct (decide (fd < 0)) as [Hneg|Hpos].
  { unfold fd_close in Ec. rewrite (negative_slot _ _ _ _ _ H1) in Ec by lia. done. }
  destruct (close_spec closed s wix A ls fd H1 ltac:(lia)) as (s1' & ls1 & Ec' & H2 & _). rewrite Ec in Ec'.
  unfold spec_close in *. set (n := Z.to_nat fd) in *. set (wd := sp_fds A n) in *.
  destruct (wd_body wd) as [b'|]; [|done]. destruct (negb (closed b')); [done|]. cbn [fst snd] in *.
  injection Ec' as -> Eep -> <-. set (A1 := spec_queue _ n) in *.
  assert (He1 : wd_epoch (sp_fds A1 n) = ep + 1).
  { unfold A1. rewrite queue_epoch, set_epoch, decide_True by done. cbn. rewrite <-Eep. apply u32_small. lia. }
  destruct (run_fd_ops_spec after s1 wix A1 os' s2 wix' (ex_intro _ ls1 H2) Ha E2) as (A2 & E3 & [ls2 H3]).
  pose proof (spec_ops_epoch n after A1 os' A2 E3 ltac:(lia) ltac:(unfold user_epoch; lia)) as Hle.
  unfold take_watch_list. destruct (slot_of s2 wix' A2 ls2 fd H3 ltac:(lia)) as [-> Hs]. destruct (_ <=? fd); [done|].
  destruct Hs as (r & -> & Hr). cbn [mbind option_bind]. destruct (r_fds _ _ _ _ H3 _ r Hr) as [_ _ _ _ K5].
  fold n in K5. rewrite (proj2 (Z.eqb_neq ep 0)), (proj2 (Z.eqb_neq ep (epoch r))) by lia. by rewrite orb_true_r.
Qed.

(** A descriptor is watched, registered, closed and watched again. *)
Lemma stale_notifications_ignored_witness :
  ∃ s2, take_watch_list (λ _, false) s2 5 1 2 = Some (0, s2) ∧ fd_mask (λ _, false) s2 5 = Some 1.
Proof.
  set (on (c : bool) (op : fd_op) := ((λ _ : nat, false), (λ _ : nat, c), op)).
  set (before := [on false (F_watch 5 1 7 100); on false F_update]).
  set (after := [on false (F_watch 5 1 8 101); on false F_update]).
  assert (E1 : ∃ os s wix, run_fd_ops new_fd_event_set 0 before = Some (os, s, wix) ∧
     ∃ es s1, fd_close (λ _, true) s 5 = Some (Some (7%nat, 2), es, s1) ∧
     ∃ os' s2 wix', run_fd_ops s1 wix after = Some (os', s2, wix') ∧ fd_mask (λ _, false) s2 5 = Some 1).
  { eexists _, _, _. split; [vm_compute; reflexivity|]. eexists _, _. split; [vm_compute; reflexivity|].
    eexists _, _, _. split; [vm_compute; reflexivity|]. by vm_compute. }
  destruct E1 as (os & s & wix & E1 & es & s1 & E2 & os' & s2 & wix' & E3 & E4). exists s2. split; [|exact E4].
  eapply (stale_notifications_ignored before after (λ _, false) (λ _, true) 5 1 2 7); [..|exact E1|exact E2| |exact E3|].
  - repeat (constructor; [done|]). constructor.
  - repeat (constructor; [done|]). constructor.
  - done.
  - lia.
  - by vm_compute.
Defined.
