(* ===== verification/FdDriver.v ===== *)
(** The file descriptors of a driver: the packed table of what the kernel's
    [epoll] has been told, and the operations that keep it in step with the
    watch set of [FdEvents.v].  From [src/cotamer/io.cc] and [io.hh].

    [epoll] is outside the program: its table is a parameter with the laws of
    its manual page ([EpollLaws]), and may refuse a request, which the code
    throws; only the configuration with [COTAMER_USE_EPOLL] is modelled.  The
    descriptor by which other threads wake the driver has an entry in the
    kernel's table of its own, made and used outside of the operations here, and
    is left out. *)

From stdpp Require Import functions.
From S2P Require Import Prelude FdEvents.

(** * The kernel *)

Inductive epoll_op := EPOLL_CTL_ADD | EPOLL_CTL_MOD | EPOLL_CTL_DEL.

Definition EPOLLIN : Z := 1.
Definition EPOLLOUT : Z := 4.
Definition EPOLLERR : Z := 8.
Definition EPOLLHUP : Z := 16.
Definition EPOLLRDHUP : Z := 8192.

(** [epoll_ctl] with events and user data; [None] is an error return. *)
Class Epoll (K : Type) := {
  epoll_ctl : K → epoll_op → Z → Z → Z → option K;
  registered : K → Z → option (Z * Z)
}.

(** The requests that make sense: [ADD] of what is not registered, the others of
    what is.  They can still be refused (no memory, [max_user_watches], a file
    that does not support it). *)
Definition fits {K} `{Epoll K} (k : K) (op : epoll_op) (fd : Z) : Prop :=
  match op with EPOLL_CTL_ADD => registered k fd = None | _ => is_Some (registered k fd) end.

Class EpollLaws (K : Type) `{Epoll K} := {
  epoll_ctl_law : ∀ k op fd evs data k', fits k op fd → epoll_ctl k op fd evs data = Some k' →
    registered k' fd = (match op with EPOLL_CTL_DEL => None | _ => Some (evs, data) end) ∧
    ∀ n, n ≠ fd → registered k' n = registered k n
}.

(** * The batch *)

Definition mask_out (m : Z) : Z :=
  Z.lor (Z.lor (if negb (Z.land m 1 =? 0) then Z.lor EPOLLIN EPOLLRDHUP else 0)
               (if negb (Z.land m 2 =? 0) then EPOLLOUT else 0))
        (if negb (Z.land m 4 =? 0) then EPOLLRDHUP else 0).

Definition mask_in (evs : Z) : Z :=
  let any bits := negb (Z.land evs bits =? 0) in
  Z.lor (Z.lor (if any (Z.lor EPOLLIN (Z.lor EPOLLRDHUP (Z.lor EPOLLHUP EPOLLERR))) then 1 else 0)
               (if any (Z.lor EPOLLOUT (Z.lor EPOLLHUP EPOLLERR)) then 2 else 0))
        (if any (Z.lor EPOLLRDHUP (Z.lor EPOLLHUP EPOLLERR)) then 4 else 0).

Definition event_data (fd ep : Z) : Z := Z.lor (u64 fd) (u64 (Z.shiftl ep 32)).
Definition data_fd (data : Z) : Z := Z.land data 4294967295.
Definition data_epoch (data : Z) : Z := u32 (Z.shiftr data 32).

(** [fd_batch::pop]: the next of the kernel's events that is about something. *)
Fixpoint batch_pop (evs : list (Z * Z)) : option (fd_update * list (Z * Z)) :=
  match evs with
  | [] => None
  | (events, data) :: evs' =>
      let m := mask_in events in
      if negb (m =? fd_none) then Some (FdUpdate (data_fd data) m (data_epoch data), evs') else batch_pop evs'
  end.

Section Driver.
Context {K : Type} `{Epoll K}.

(** [None]: [epoll_ctl] failed, and its error is thrown. *)
Definition batch_add (k : K) (u : fd_update) (old_mask : Z) : option K :=
  epoll_ctl k
    (if negb (fu_mask u =? fd_none) then (if negb (old_mask =? fd_none) then EPOLL_CTL_MOD else EPOLL_CTL_ADD)
     else EPOLL_CTL_DEL)
    (fu_fd u) (mask_out (fu_mask u)) (event_data (fu_fd u) (fu_epoch u)).

(** * The driver's table *)

(** [d_wix] is the list a notification took and its handler has not popped. *)
Record driver_fds := DriverFds {
  fds_ : fd_event_set;
  d_wix : Z;
  fdctl_ : list Z;
  nfdctl_ : Z;
  kernel : K
}.

(** With [false] the error of [epoll_ctl] was thrown; [None] would be an access
    outside the table. *)
Definition apply_fd_update (d : driver_fds) (u : fd_update) : option (bool * driver_fds) :=
  let fdci := Z.to_nat (u32 (fu_fd u) / 16) in
  let fdcs := (u32 (fu_fd u) mod 16) * 4 in
  let ctl := if (length (fdctl_ d) <=? fdci)%nat
             then fdctl_ d ++ replicate (fdci + 1 - length (fdctl_ d)) 0 else fdctl_ d in
  w ← ctl !! fdci;
  let old_mask := Z.land (Z.shiftr w fdcs) 15 in
  if old_mask =? fu_mask u then Some (true, DriverFds (fds_ d) (d_wix d) ctl (nfdctl_ d) (kernel d))
  else
    match batch_add (kernel d) u old_mask with
    | None => Some (false, DriverFds (fds_ d) (d_wix d) ctl (nfdctl_ d) (kernel d))
    | Some k =>
        let ctl := <[fdci := Z.lxor w (u64 (Z.shiftl (Z.lxor old_mask (fu_mask u)) fdcs))]> ctl in
        let n := if old_mask =? fd_none then u32 (nfdctl_ d + 1)
                 else if fu_mask u =? fd_none then u32 (nfdctl_ d - 1) else nfdctl_ d in
        Some (true, DriverFds (fds_ d) (d_wix d) ctl n k)
    end.

Definition with_fds (d : driver_fds) (s : fd_event_set) (wix : Z) : driver_fds :=
  DriverFds s wix (fdctl_ d) (nfdctl_ d) (kernel d).

(** The part of [driver::loop] that registers changes; an error leaves it, and
    the update it was about is off the list. *)
Fixpoint drain (fuel : nat) (dead : nat → bool) (d : driver_fds) : option (bool * driver_fds) :=
  match fuel with
  | O => None
  | S fuel =>
      r ← pop_update dead (fds_ d);
      let d := with_fds d r.2 (d_wix d) in
      match r.1 with
      | None => Some (true, d)
      | Some u => '(ok, d) ← apply_fd_update d u; if (ok : bool) then drain fuel dead d else Some (false, d)
      end
  end.

Definition register_changes (dead : nat → bool) (d : driver_fds) : option (bool * driver_fds) :=
  drain (S (length (fdrs_ (fds_ d)))) dead d.

(** [notify_close]: the body that loses the driver as a listener, and the
    events to trigger; neither happens when it throws. *)
Definition notify_close (closed : nat → bool) (d : driver_fds) (base_fd : Z) :
    option (bool * (option nat * list nat * driver_fds)) :=
  c ← fd_close closed (fds_ d) base_fd;
  let '(bd, es, s) := c in
  let d := with_fds d s (d_wix d) in
  match bd with
  | None => Some (true, (None, es, d))
  | Some (b, ep) =>
      '(ok, d) ← apply_fd_update d (FdUpdate base_fd fd_none ep);
      Some (ok, if (ok : bool) then (Some b, es, d) else (None, [], d))
  end.
End Driver.

(** * The packed table *)

(** What the table says the kernel watches of [fd]. *)
Definition nibble (ctl : list Z) (fd : nat) : Z :=
  match ctl !! (fd / 16)%nat with Some w => Z.land (Z.shiftr w (Z.of_nat (fd mod 16) * 4)) 15 | None => 0 end.

Lemma land_15_testbit x i : 0 ≤ i → Z.testbit (Z.land x 15) i = (i <? 4) && Z.testbit x i.
Proof.
  intros Hi. rewrite Z.land_spec. change 15 with (Z.ones 4). destruct (i <? 4) eqn:E.
  - rewrite Z.ones_spec_low by lia. by rewrite andb_true_r.
  - rewrite Z.ones_spec_high by lia. by rewrite andb_false_r.
Qed.

Lemma small_testbit x i : 0 ≤ x < 16 → 4 ≤ i → Z.testbit x i = false.
Proof.
  intros Hx Hi. destruct (decide (x = 0)) as [->|Hne]; [apply Z.testbit_0_l|].
  apply Z.bits_above_log2; [lia|]. assert (Z.log2 x < 4) by (apply Z.log2_lt_pow2; lia). lia.
Qed.

Lemma land_15_small x : 0 ≤ x < 16 → Z.land x 15 = x.
Proof. intros Hx. change 15 with (Z.ones 4). rewrite Z.land_ones by lia. apply Z.mod_small. lia. Qed.

Lemma land_15_range x : 0 ≤ Z.land x 15 < 16.
Proof. change 15 with (Z.ones 4). rewrite Z.land_ones by lia. apply Z.mod_pos_bound. lia. Qed.

Lemma xor_small x y : 0 ≤ x < 16 → 0 ≤ y < 16 → 0 ≤ Z.lxor x y < 16.
Proof.
  intros Hx Hy. assert (E : Z.land (Z.lxor x y) 15 = Z.lxor x y); [|pose proof (land_15_range (Z.lxor x y)); lia].
  apply Z.bits_inj'. intros i Hi. rewrite land_15_testbit by lia. destruct (i <? 4) eqn:E; [done|].
  rewrite Z.lxor_spec, !small_testbit by lia. done.
Qed.

(** Flipping bits within one group of four changes that group only. *)
Lemma flip_group w x s t : 0 ≤ x < 16 → 0 ≤ s → 0 ≤ t →
  Z.land (Z.shiftr (Z.lxor w (Z.shiftl x (s * 4))) (t * 4)) 15 =
    if decide (t = s) then Z.lxor (Z.land (Z.shiftr w (t * 4)) 15) x else Z.land (Z.shiftr w (t * 4)) 15.
Proof.
  intros Hx Hs Ht. apply Z.bits_inj'. intros i Hi.
  assert (E : Z.testbit (Z.land (Z.shiftr (Z.lxor w (Z.shiftl x (s * 4))) (t * 4)) 15) i =
              (i <? 4) && xorb (Z.testbit w (i + t * 4)) (Z.testbit x (i + t * 4 - s * 4))).
  { rewrite land_15_testbit, Z.shiftr_spec, Z.lxor_spec, Z.shiftl_spec by lia. done. }
  rewrite E. destruct (decide (t = s)) as [->|Hne].
  - rewrite Z.lxor_spec, land_15_testbit, Z.shiftr_spec by lia. replace (i + s * 4 - s * 4) with i by lia.
    destruct (i <? 4) eqn:L; [done|]. by rewrite (small_testbit x i) by lia.
  - rewrite land_15_testbit, Z.shiftr_spec by lia. destruct (i <? 4) eqn:L; [|done]. cbn [andb].
    assert (Z.testbit x (i + t * 4 - s * 4) = false) as ->; [|by rewrite xorb_false_r].
    destruct (decide (t < s)); [apply Z.testbit_neg_r; lia|apply small_testbit; lia].
Qed.

Lemma shift_fits x s : 0 ≤ x < 16 → 0 ≤ s < 16 → u64 (Z.shiftl x (s * 4)) = Z.shiftl x (s * 4).
Proof.
  intros Hx Hs. unfold u64. apply Z.mod_small. rewrite Z.shiftl_mul_pow2 by lia. unfold two64.
  assert (2 ^ (s * 4) ≤ 2 ^ 60) by (apply Z.pow_le_mono_r; lia). change (2 ^ 60) with 1152921504606846976 in *.
  assert (0 < 2 ^ (s * 4)) by (apply Z.pow_pos_nonneg; lia). nia.
Qed.

Lemma nibble_range ctl fd : 0 ≤ nibble ctl fd < 16.
Proof. unfold nibble. destruct (ctl !! _); [apply land_15_range|lia]. Qed.

(** Growing the table. *)
Lemma nibble_grow ctl n fd : nibble (ctl ++ replicate n 0) fd = nibble ctl fd.
Proof.
  unfold nibble. destruct (ctl !! (fd / 16)%nat) as [w|] eqn:E; [by rewrite (lookup_app_l_Some _ _ _ _ E)|].
  apply lookup_ge_None_1 in E. rewrite lookup_app_r by lia.
  destruct (replicate n 0 !! _) as [w|] eqn:E2; [|done]. apply lookup_replicate_1 in E2 as [-> _]. by rewrite Z.shiftr_0_l.
Qed.

Lemma nibble_set ctl fd w m n : ctl !! (fd / 16)%nat = Some w → 0 ≤ m < 16 →
  nibble (<[(fd / 16)%nat := Z.lxor w (u64 (Z.shiftl (Z.lxor (nibble ctl fd) m) (Z.of_nat (fd mod 16) * 4)))]> ctl) n =
    if decide (n = fd) then m else nibble ctl n.
Proof.
  intros Hw Hm. pose proof (nibble_range ctl fd) as Hr. pose proof (lookup_lt_Some _ _ _ Hw) as Hlt.
  pose proof (Nat.mod_upper_bound fd 16 ltac:(lia)) as Hmod. pose proof (Nat.mod_upper_bound n 16 ltac:(lia)) as Hmodn.
  rewrite shift_fits by (try apply xor_small; lia).
  set (x := Z.lxor (nibble ctl fd) m). assert (Hx : 0 ≤ x < 16) by (by apply xor_small).
  assert (En : nibble (<[(fd / 16)%nat := Z.lxor w (Z.shiftl x (Z.of_nat (fd mod 16) * 4))]> ctl) n =
    if decide (n / 16 = fd / 16)%nat then Z.land (Z.shiftr (Z.lxor w (Z.shiftl x (Z.of_nat (fd mod 16) * 4))) (Z.of_nat (n mod 16) * 4)) 15
    else nibble ctl n).
  { unfold nibble at 1. destruct (decide (n / 16 = fd / 16)%nat) as [E|E]; [by rewrite E, list_lookup_insert_eq|].
    rewrite list_lookup_insert_ne by congruence. done. }
  rewrite En. destruct (decide (n / 16 = fd / 16)%nat) as [E|E].
  - rewrite flip_group by lia. destruct (decide (n = fd)) as [->|Hne].
    + rewrite decide_True by done. unfold x, nibble. rewrite Hw. by rewrite <-Z.lxor_assoc, Z.lxor_nilpotent, Z.lxor_0_l.
    + rewrite decide_False; [unfold nibble; by rewrite E, Hw|]. intros Em. apply Hne.
      rewrite (Nat.div_mod n 16), (Nat.div_mod fd 16) by lia. lia.
  - rewrite decide_False; [done|]. by intros ->.
Qed.

(** The data of a registration identify the descriptor and its epoch. *)
Lemma event_data_roundtrip fd ep : 0 ≤ fd < two32 → 0 ≤ ep < two32 →
  data_fd (event_data fd ep) = fd ∧ data_epoch (event_data fd ep) = ep.
Proof.
  unfold two32. intros Hf He.
  assert (E1 : u64 fd = fd) by (unfold u64, two64; apply Z.mod_small; lia).
  assert (E2 : u64 (Z.shiftl ep 32) = Z.shiftl ep 32).
  { unfold u64, two64. apply Z.mod_small. rewrite Z.shiftl_mul_pow2 by lia. change (2 ^ 32) with 4294967296. lia. }
  assert (Hhi : ∀ x i, 0 ≤ x < 4294967296 → 32 ≤ i → Z.testbit x i = false).
  { intros x i Hx Hi. destruct (decide (x = 0)) as [->|Hne]; [apply Z.testbit_0_l|].
    apply Z.bits_above_log2; [lia|]. assert (Z.log2 x < 32) by (apply Z.log2_lt_pow2; lia). lia. }
  unfold data_fd, data_epoch, event_data. rewrite E1, E2. split.
  - change 4294967295 with (Z.ones 32). apply Z.bits_inj'. intros i Hi.
    rewrite Z.land_spec, Z.lor_spec, Z.shiftl_spec by lia. destruct (decide (i < 32)) as [L|L].
    + rewrite Z.ones_spec_low, (Z.testbit_neg_r ep) by lia. by rewrite orb_false_r, andb_true_r.
    + rewrite Z.ones_spec_high, Hhi by lia. by rewrite andb_false_r.
  - unfold u32, two32. assert (E : Z.shiftr (Z.lor fd (Z.shiftl ep 32)) 32 = ep); [|rewrite E; apply Z.mod_small; lia].
    apply Z.bits_inj'. intros i Hi. rewrite Z.shiftr_spec, Z.lor_spec, Z.shiftl_spec by lia.
    rewrite (Hhi fd) by lia. cbn [orb]. f_equal. lia.
Qed.

(** * The kernel follows the watches *)

Section Kernel.
Context {K : Type} `{EpollLaws K}.
Notation driver_fds := (@driver_fds K).
Implicit Types (d : driver_fds) (A : fd_spec) (k : K).

(** A sensible request was refused. *)
Definition refused d : Prop := ∃ op fd evs data, fits (kernel d) op fd ∧ epoll_ctl (kernel d) op fd evs data = None.

(** The counter follows the set of descriptors with a mask. *)
Lemma count_update (S : gset nat) (fd : nat) old m n :
  (fd ∈ S ↔ old ≠ 0) → old ≠ m → (∀ x, x ∈ S → Z.of_nat x < max_fds) → n = Z.of_nat (base.size S) →
  (if old =? 0 then u32 (n + 1) else if m =? 0 then u32 (n - 1) else n) =
    Z.of_nat (base.size (if m =? 0 then S ∖ {[fd]} else S ∪ {[fd]})).
Proof.
  intros Hin Hne Hbound ->.
  assert (Hsize : Z.of_nat (base.size S) ≤ max_fds).
  { assert (Hle : (length (elements S) ≤ Z.to_nat max_fds)%nat).
    { rewrite <-(length_seq (Z.to_nat max_fds) 0). apply submseteq_length, NoDup_submseteq; [apply NoDup_elements|].
      intros x Hx. apply elem_of_elements, Hbound in Hx. apply elem_of_seq. unfold max_fds in *. lia. }
    unfold base.size, set_size in *. cbn. unfold max_fds in *. lia. }
  destruct (old =? 0) eqn:Z2, (m =? 0) eqn:Z1; try lia.
  - assert (fd ∉ S) by (rewrite Hin; lia). rewrite size_union, size_singleton by set_solver.
    rewrite u32_small by (unfold two32, max_fds in *; lia). lia.
  - assert (Hin' : fd ∈ S) by (rewrite Hin; lia). rewrite size_difference, size_singleton by set_solver.
    assert (base.size S ≠ O) by (intros E0; apply size_empty_inv in E0; set_solver).
    rewrite u32_small by (unfold two32, max_fds in *; lia). lia.
  - assert (Hin' : fd ∈ S) by (rewrite Hin; lia). replace (S ∪ {[fd]}) with S by set_solver. done.
Qed.

Lemma apply_spec d u (fd : nat) e0 (S : gset nat) :
  fu_fd u = Z.of_nat fd → Z.of_nat fd < max_fds → 0 ≤ fu_mask u < 8 →
  registered (kernel d) (Z.of_nat fd) =
    (if nibble (fdctl_ d) fd =? 0 then None else Some (mask_out (nibble (fdctl_ d) fd), event_data (Z.of_nat fd) e0)) →
  (∀ n, n ∈ S ↔ nibble (fdctl_ d) n ≠ 0) → (∀ n, n ∈ S → Z.of_nat n < max_fds) → nfdctl_ d = Z.of_nat (base.size S) →
  ∃ ok d', apply_fd_update d u = Some (ok, d') ∧ if ok : bool then ∃ (S' : gset nat), fds_ d' = fds_ d ∧ d_wix d' = d_wix d ∧
    (∀ n, nibble (fdctl_ d') n = if decide (n = fd) then fu_mask u else nibble (fdctl_ d) n) ∧
    (∀ n, n ∈ S' ↔ nibble (fdctl_ d') n ≠ 0) ∧ (∀ n, n ∈ S' → Z.of_nat n < max_fds) ∧ nfdctl_ d' = Z.of_nat (base.size S') ∧
    (∀ n, n ≠ Z.of_nat fd → registered (kernel d') n = registered (kernel d) n) ∧
    registered (kernel d') (Z.of_nat fd) =
      (if fu_mask u =? 0 then None
       else Some (mask_out (fu_mask u),
                  event_data (Z.of_nat fd) (if nibble (fdctl_ d) fd =? fu_mask u then e0 else fu_epoch u)))
  else refused d'.
Proof.
  intros Ef Hfd Hm Hreg HS Hbound Hn. unfold apply_fd_update. rewrite Ef, u32_small by (unfold two32, max_fds in *; lia).
  assert (Eq : Z.to_nat (Z.of_nat fd / 16) = (fd / 16)%nat) by (change 16 with (Z.of_nat 16); rewrite <-Nat2Z.inj_div; apply Nat2Z.id).
  assert (Er : (Z.of_nat fd mod 16) * 4 = Z.of_nat (fd mod 16) * 4) by (by rewrite Nat2Z.inj_mod).
  rewrite Eq, Er. set (ctl := if (_ <=? _)%nat then _ else _).
  assert (Hctl : (∀ n, nibble ctl n = nibble (fdctl_ d) n) ∧ (fd / 16 < length ctl)%nat).
  { unfold ctl. destruct (length (fdctl_ d) <=? fd / 16)%nat eqn:L.
    - apply Nat.leb_le in L. split; [intros n; apply nibble_grow|]. rewrite length_app, length_replicate. lia.
    - apply Nat.leb_gt in L. done. }
  destruct Hctl as [Hnib Hlt]. apply lookup_lt_is_Some in Hlt as [w Hw]. rewrite Hw. cbn [mbind option_bind].
  assert (Eo : Z.land (Z.shiftr w (Z.of_nat (fd mod 16) * 4)) 15 = nibble ctl fd) by (unfold nibble; by rewrite Hw).
  rewrite Eo. set (old := nibble ctl fd) in *. assert (Eold : nibble (fdctl_ d) fd = old) by (by rewrite <-Hnib).
  rewrite Eold in Hreg. rewrite Eold. destruct (old =? fu_mask u) eqn:E.
  { assert (Em : old = fu_mask u) by lia. eexists true, _. split; [done|]. exists S. do 2 (split; [done|]). cbn [fdctl_ nfdctl_ kernel].
    split; [intros n; rewrite Hnib; destruct (decide (n = fd)) as [->|]; [congruence|done]|].
    split; [intros n; by rewrite Hnib|]. do 3 (split; [done|]). by rewrite Hreg, Em. }
  unfold batch_add, fd_none. set (op := if negb (fu_mask u =? 0) then _ else EPOLL_CTL_DEL).
  assert (Hfit : fits (kernel d) op (fu_fd u)).
  { unfold op, fits. rewrite Ef, Hreg. destruct (fu_mask u =? 0) eqn:Z1, (old =? 0) eqn:Z2; cbn [negb]; try lia; done. }
  destruct (epoll_ctl (kernel d) op (fu_fd u) _ _) as [k'|] eqn:Ek.
  2:{ eexists false, _. split; [done|]. by eexists op, _, _, _. }
  destruct (epoll_ctl_law _ _ _ _ _ _ Hfit Ek) as [Hk1 Hk2]. rewrite Ef in Hk1, Hk2.
  assert (Hk1' : registered k' (Z.of_nat fd) = (if fu_mask u =? 0 then None
       else Some (mask_out (fu_mask u), event_data (Z.of_nat fd) (fu_epoch u)))).
  { rewrite Hk1. unfold op. destruct (fu_mask u =? 0), (old =? 0); done. }
  clear Hk1. rename Hk1' into Hk1. clearbody op.
  set (ctl' := <[(fd / 16)%nat := _]> ctl).
  assert (Hnew : ∀ n, nibble ctl' n = if decide (n = fd) then fu_mask u else nibble (fdctl_ d) n).
  { intros n. rewrite <-Hnib. apply nibble_set; [done|lia]. }
  assert (Hin : fd ∈ S ↔ old ≠ 0) by (by rewrite HS, Eold).
  exists true, (DriverFds (fds_ d) (d_wix d) ctl'
            (if old =? 0 then u32 (nfdctl_ d + 1) else if fu_mask u =? 0 then u32 (nfdctl_ d - 1) else nfdctl_ d) k').
  split; [done|]. exists (if fu_mask u =? 0 then S ∖ {[fd]} else S ∪ {[fd]}). do 2 (split; [done|]). cbn [fdctl_ nfdctl_ kernel]. split; [exact Hnew|].
  split; [|split; [|split; [|split; [exact Hk2|exact Hk1]]]].
  - intros n. rewrite Hnew. destruct (fu_mask u =? 0) eqn:Z1, (decide (n = fd)) as [->|Hne].
    + split; [set_solver|lia].
    + rewrite <-HS. set_solver.
    + split; [lia|set_solver].
    + rewrite <-HS. set_solver.
  - intros n Hn'. destruct (decide (n = fd)) as [->|Hne]; [done|]. apply Hbound. destruct (fu_mask u =? 0); set_solver.
  - rewrite <-(count_update S fd old (fu_mask u) (nfdctl_ d)) by (done || lia). done.
Qed.

(** The bits of the watches of a list, but for some that nobody waits for. *)
Definition wanted (dead : nat → bool) (W : list (nat * Z)) (m : Z) : Prop :=
  ∃ gone : nat → bool, (∀ p, p ∈ W → gone p.1 = true → dead p.1 = true) ∧ m = live_mask gone 0 W.

(** What the table, its counter and the kernel say about the watches. *)
Record kernel_ok (dead : nat → bool) (A : fd_spec) (d : driver_fds) : Prop := {
  k_reg : ∀ fd, registered (kernel d) (Z.of_nat fd) =
    (if nibble (fdctl_ d) fd =? 0 then None
     else Some (mask_out (nibble (fdctl_ d) fd), event_data (Z.of_nat fd) (wd_epoch (sp_fds A fd))));
  k_low : ∀ fd, 0 ≤ nibble (fdctl_ d) fd < 8;
  k_count : ∃ S : gset nat, (∀ fd, fd ∈ S ↔ nibble (fdctl_ d) fd ≠ 0) ∧ (∀ fd, fd ∈ S → Z.of_nat fd < max_fds) ∧
    nfdctl_ d = Z.of_nat (base.size S);
  k_clean : ∀ fd, fd ∉ sp_dirty A → wanted dead (wd_list (sp_fds A fd)) (nibble (fdctl_ d) fd);
  k_masks : ∀ fd p, p ∈ wd_list (sp_fds A fd) → 0 < p.2 < 8;
  k_epoch : ∀ fd, 0 ≤ wd_epoch (sp_fds A fd) < two32;
  k_user : ∀ fd, nibble (fdctl_ d) fd ≠ 0 → user_epoch ≤ wd_epoch (sp_fds A fd)
}.

Definition same_kernel (d d' : driver_fds) : Prop :=
  fdctl_ d' = fdctl_ d ∧ nfdctl_ d' = nfdctl_ d ∧ kernel d' = kernel d.

(** More descriptors to update, fewer watches, more dead events. *)
Lemma kernel_relax dead dead' A A' d d' :
  kernel_ok dead A d → same_kernel d d' →
  (∀ fd, wd_epoch (sp_fds A' fd) = wd_epoch (sp_fds A fd)) →
  (∀ fd, fd ∉ sp_dirty A' → fd ∉ sp_dirty A ∧ wd_list (sp_fds A' fd) = wd_list (sp_fds A fd) ∧
     ∀ p, p ∈ wd_list (sp_fds A fd) → dead p.1 = true → dead' p.1 = true) →
  (∀ fd p, p ∈ wd_list (sp_fds A' fd) → 0 < p.2 < 8) →
  kernel_ok dead' A' d'.
Proof.
  intros [H1 H2 H3 H4 H5 H6 H7] (E1 & E2 & E3) He Hd Hm. split; rewrite ?E1, ?E2, ?E3; try done.
  - intros fd. rewrite He. apply H1.
  - intros fd Hfd. destruct (Hd fd Hfd) as (Hn & -> & Hl). destruct (H4 fd Hn) as (gone & Hg & ->). exists gone. split; [|done].
    intros p Hp Hgone. by apply Hl, Hg.
  - intros fd. rewrite He. apply H6.
  - intros fd. rewrite He. apply H7.
Qed.

Lemma live_mask_low dead W : ∀ m, 0 ≤ m < 8 → (∀ p, p ∈ W → 0 < p.2 < 8) → 0 ≤ live_mask dead m W < 8.
Proof.
  induction W as [|p W IH]; intros m Hm HW; [done|]. cbn. apply IH; [|intros q Hq; apply HW; by right].
  destruct (dead p.1); [done|]. specialize (HW p ltac:(left)). split; [apply Z.lor_nonneg; lia|].
  destruct (decide (Z.lor m p.2 = 0)) as [->|Hne]; [lia|]. apply Z.log2_lt_cancel.
  rewrite Z.log2_lor by lia. change (Z.log2 8) with 3.
  assert (∀ x, 0 ≤ x < 8 → Z.log2 x < 3).
  { intros x Hx. destruct (decide (x = 0)) as [->|Hx0]; [done|]. apply Z.log2_lt_pow2; lia. }
  pose proof (H1 m Hm). pose proof (H1 p.2 ltac:(lia)). lia.
Qed.

Lemma live_mask_grows dead W : ∀ m i, Z.testbit m i = true → Z.testbit (live_mask dead m W) i = true.
Proof.
  induction W as [|p W IH]; intros m i Hm; [done|]. cbn. apply IH. destruct (dead p.1); [done|].
  by rewrite Z.lor_spec, Hm.
Qed.

Lemma live_mask_covers dead W p : ∀ m, p ∈ W → dead p.1 = false → Z.land p.2 (live_mask dead m W) = p.2.
Proof.
  induction W as [|q W IH]; intros m Hp Hl; [inversion Hp|]. cbn. apply elem_of_cons in Hp as [->|Hp]; [|by apply IH].
  rewrite Hl. apply Z.bits_inj'. intros i Hi. rewrite Z.land_spec. destruct (Z.testbit q.2 i) eqn:E; [|done].
  apply live_mask_grows. by rewrite Z.lor_spec, E, orb_true_r.
Qed.

(** One update: taken off the list and told to the kernel. *)
Lemma update_kernel dead A d fd U : kernel_ok dead A d → sp_dirty A = fd :: U → NoDup (fd :: U) → Z.of_nat fd < max_fds →
  ∃ u A' ok d', spec_update dead A = (Some u, A') ∧ sp_dirty A' = U ∧ apply_fd_update d u = Some (ok, d') ∧
    if ok : bool then kernel_ok dead A' d' ∧ fds_ d' = fds_ d ∧ d_wix d' = d_wix d ∧
      ∀ n, nibble (fdctl_ d') n = if decide (n = fd) then live_mask dead 0 (wd_list (sp_fds A fd)) else nibble (fdctl_ d) n
    else refused d'.
Proof.
  intros HK HA Hnd Hfd. pose proof HK as [H1 H2 (S & HS1 & HS2 & HS3) H4 H5 H6 H7]. unfold spec_update. rewrite HA.
  set (wd := sp_fds A fd) in *. set (m := live_mask dead 0 (wd_list wd)).
  assert (Hm : 0 ≤ m < 8) by (apply live_mask_low; [lia|apply H5]).
  assert (Hep : ∃ ep' ep, (if m =? fd_none then (u32 (wd_epoch wd + 1), wd_epoch wd)
      else (Z.max user_epoch (wd_epoch wd), Z.max user_epoch (wd_epoch wd))) = (ep', ep) ∧ 0 ≤ ep' < two32 ∧
      (m ≠ 0 → user_epoch ≤ ep' ∧ ep = ep' ∧ (nibble (fdctl_ d) fd ≠ 0 → ep' = wd_epoch wd))).
  { pose proof (H6 fd) as He. fold wd in He. unfold fd_none. destruct (m =? 0) eqn:E.
    - eexists _, _. split; [done|]. split; [apply Z.mod_pos_bound; done|lia].
    - eexists _, _. split; [done|]. unfold user_epoch, two32 in *. split; [lia|]. intros _. split; [lia|]. split; [done|].
      intros Hne. specialize (H7 fd Hne). fold wd in H7. lia. }
  destruct Hep as (ep' & ep & -> & He' & Hpos). cbv zeta beta iota.
  set (u := FdUpdate (Z.of_nat fd) m ep).
  destruct (apply_spec d u fd (wd_epoch wd) S) as (ok & d' & E & Hok); try done.
  eexists u, _, ok, d'. split; [done|]. split; [done|]. split; [exact E|]. destruct ok; [|done].
  destruct Hok as (S' & F1 & F2 & N1 & N2 & N3 & N4 & R1 & R2). split; [|done].
  apply NoDup_cons in Hnd as [Hnin Hnd]. split; cbn [sp_fds sp_dirty].
  - intros n. rewrite N1. destruct (decide (n = fd)) as [->|Hne].
    + rewrite fn_lookup_insert. cbn [wd_epoch]. rewrite R2. cbn [u fu_mask fu_epoch]. destruct (m =? 0) eqn:Em; [done|].
      destruct (Hpos ltac:(lia)) as (P1 & P2 & P3). do 3 f_equal. destruct (nibble (fdctl_ d) fd =? m) eqn:En; [|done].
      symmetry. apply P3. lia.
    + rewrite fn_lookup_insert_ne by done. rewrite R1 by lia. apply H1.
  - intros n. rewrite N1. destruct (decide (n = fd)); [done|apply H2].
  - by exists S'.
  - intros n Hn. rewrite N1. destruct (decide (n = fd)) as [->|Hne].
    + rewrite fn_lookup_insert. by exists dead.
    + rewrite fn_lookup_insert_ne by done. apply H4. rewrite HA. set_solver.
  - intros n p Hp. destruct (decide (n = fd)) as [->|Hne];
      [rewrite fn_lookup_insert in Hp; by apply (H5 fd)|rewrite fn_lookup_insert_ne in Hp by done; by apply (H5 n)].
  - intros n. destruct (decide (n = fd)) as [->|Hne]; [by rewrite fn_lookup_insert|rewrite fn_lookup_insert_ne by done; apply H6].
  - intros n. rewrite N1. destruct (decide (n = fd)) as [->|Hne].
    + rewrite fn_lookup_insert. cbn. intros Hm0. by apply Hpos.
    + rewrite fn_lookup_insert_ne by done. apply H7.
Qed.

(** [driver_ok]: the set, the table and the kernel together. *)
Definition driver_ok (dead : nat → bool) (d : driver_fds) (A : fd_spec) : Prop :=
  represents (fds_ d) (d_wix d) A ∧ kernel_ok dead A d.

Lemma dirty_bound s wix A fd : represents s wix A → fd ∈ sp_dirty A → (fd < length (fdrs_ s))%nat.
Proof.
  intros [ls Hr0] Hin. pose proof (r_updates _ _ _ _ Hr0) as Hu. revert Hu Hin. generalize (update_link_ s).
  induction (sp_dirty A) as [|n U IH]; intros h Hu Hin; [inversion Hin|]. destruct Hu as (_ & r & Hr & Hu).
  apply elem_of_cons in Hin as [->|Hin]; [by eapply lookup_lt_Some|by eapply IH].
Qed.

Lemma update_lists dead A fd : wd_list (sp_fds (spec_update dead A).2 fd) = wd_list (sp_fds A fd).
Proof.
  unfold spec_update. destruct (sp_dirty A) as [|n U]; [done|]. destruct (if _ =? fd_none then _ else _) as [ep' ep]. cbn [snd sp_fds].
  destruct (decide (fd = n)) as [->|Hne]; [by rewrite fn_lookup_insert|by rewrite fn_lookup_insert_ne].
Qed.

(** Registering what is queued: afterwards the table has exactly what is
    wanted of the descriptors that were queued, and the others are untouched. *)
Lemma drain_spec dead fuel : ∀ d A, driver_ok dead d A → (length (sp_dirty A) < fuel)%nat →
  ∃ ok d', drain fuel dead d = Some (ok, d') ∧ if ok : bool then ∃ A', driver_ok dead d' A' ∧ sp_dirty A' = [] ∧
    has_update (fds_ d') = false ∧ (∀ fd, wd_list (sp_fds A' fd) = wd_list (sp_fds A fd)) ∧
    ∀ fd, nibble (fdctl_ d') fd =
      if decide (fd ∈ sp_dirty A) then live_mask dead 0 (wd_list (sp_fds A fd)) else nibble (fdctl_ d) fd
  else refused d'.
Proof.
  induction fuel as [|fuel IH]; intros d A [[ls HR] HK] Hf; [lia|]. cbn [drain].
  destruct (update_spec dead (fds_ d) (d_wix d) A ls HR) as (s' & E & HR' & _). rewrite E. cbn [mbind option_bind fst snd].
  destruct (sp_dirty A) as [|fd U] eqn:HA.
  - unfold spec_update in *. rewrite HA in *. cbn [fst snd] in *. eexists true, _. split; [done|].
    exists A. split; [|split; [done|split; [|done]]].
    + split; [by exists ls|]. by apply (kernel_relax dead dead A A d); try done; apply HK.
    + unfold has_update. cbn. pose proof (r_updates _ _ _ _ HR') as Hu. rewrite HA in Hu. cbn in Hu. by rewrite Hu.
  - assert (Hin : fd ∈ sp_dirty A) by (rewrite HA; left). pose proof (r_once _ _ _ _ HR) as Hnd. rewrite HA in Hnd.
    pose proof (dirty_bound _ _ _ _ (ex_intro _ ls HR) Hin) as Hlt. pose proof (r_cap _ _ _ _ HR) as Hcap. unfold size in Hcap.
    assert (HK1 : kernel_ok dead A (with_fds d s' (d_wix d))) by (apply (kernel_relax dead dead A A d); try done; apply HK).
    destruct (update_kernel dead A (with_fds d s' (d_wix d)) fd U) as (u & A' & ok & d' & E1 & E2 & E3 & E4); try done; [lia|].
    pose proof (update_lists dead A) as Hlist. rewrite E1 in HR', Hlist |- *. cbn [fst snd] in *. rewrite E3. cbn [mbind option_bind].
    destruct ok; [|by exists false, d']. destruct E4 as (E4 & E5 & E6 & E7).
    destruct (IH d' A') as (ok & d2 & I1 & I2).
    + split; [|done]. rewrite E5, E6. by exists ls.
    + rewrite E2. cbn in Hf. lia.
    + exists ok, d2. split; [done|]. destruct ok; [|done]. destruct I2 as (A2 & J1 & J2 & J3 & J4 & J5). exists A2.
      do 3 (split; [done|]). split; [intros n; by rewrite J4|]. intros n. rewrite J5, E2, E7, Hlist.
      apply NoDup_cons in Hnd as [Hn _]. destruct (decide (n = fd)) as [->|Hne].
      * rewrite decide_False by done. by rewrite decide_True by left.
      * destruct (decide (n ∈ U)); [by rewrite decide_True by (by right)|]. rewrite decide_False; [done|]. set_solver.
Qed.

(** ** A driver's run *)

Inductive driver_op :=
  | D_watch (fd imask : Z) (b e : nat)
  | D_take (fd imask ep : Z)
  | D_pop (m : Z)
  | D_register
  | D_close (base_fd : Z).

Definition run_set_op (dead closed : nat → bool) (d : driver_fds) (op : fd_op) : option (bool * driver_fds) :=
  r ← run_fd_op dead closed (fds_ d) (d_wix d) op; let '(_, s, wix) := r in Some (true, with_fds d s wix).

(** With [false] the operation threw the error of [epoll_ctl]. *)
Definition run_driver_op (dead closed : nat → bool) (d : driver_fds) (op : driver_op) : option (bool * driver_fds) :=
  match op with
  | D_watch fd m b e => run_set_op dead closed d (F_watch fd m b e)
  | D_take fd m ep => run_set_op dead closed d (F_take fd m ep)
  | D_pop m => run_set_op dead closed d (F_pop m)
  | D_register => register_changes dead d
  | D_close fd => r ← notify_close closed d fd; Some (r.1, r.2.2)
  end.

(** Masks are [fdevent]s, and an open descriptor has one body. *)
Definition legal_op (d : driver_fds) (op : driver_op) : Prop :=
  match op with
  | D_watch fd m b _ => is_int fd ∧ 0 ≤ m < 8 ∧ ∀ r, fdrec_at (fds_ d) fd = Some r → body r = None ∨ body r = Some b
  | D_take fd _ _ | D_close fd => is_int fd
  | D_pop _ | D_register => True
  end.

Definition watched_event (d : driver_fds) (e : nat) : Prop :=
  ∃ x wr, watch_at (ws_ (fds_ d)) x = Some wr ∧ ev wr = Some e.

(** The operations of a driver that do not throw, and the rest of the program: a
    watch that nobody waits for stays so, since only the set still refers to its
    event. *)
Inductive reached_fds : (nat → bool) → driver_fds → Prop :=
  | fds_start dead k : (∀ fd, registered k fd = None) → reached_fds dead (DriverFds new_fd_event_set 0 [] 0 k)
  | fds_op dead closed d op d' :
      reached_fds dead d → legal_op d op → run_driver_op dead closed d op = Some (true, d') → reached_fds dead d'
  | fds_events dead dead' d :
      reached_fds dead d → (∀ e, watched_event d e → dead e = true → dead' e = true) → reached_fds dead' d.

Lemma live_watched d A fd p : represents (fds_ d) (d_wix d) A → p ∈ wd_list (sp_fds A fd) → watched_event d p.1.
Proof.
  intros [ls Hr] Hp. destruct (fdrs_ (fds_ d) !! fd) as [r|] eqn:E.
  - destruct (r_fds _ _ _ _ Hr fd r E) as [_ _ K3 _ _]. apply list_elem_of_lookup in Hp as [i Hi].
    destruct (Forall2_lookup_r _ _ _ _ _ K3 Hi) as (x & Hx & Ha). apply fmap_Some in Ha as (wr & Hwr & Ea).
    exists x, wr. split; [done|]. unfold about in Ea. by injection Ea.
  - destruct (r_out _ _ _ _ Hr fd E) as [_ E2]. rewrite E2 in Hp. inversion Hp.
Qed.

Lemma queue_fields A fd : sp_fds (spec_queue A fd) = sp_fds A ∧ sp_taken (spec_queue A fd) = sp_taken A ∧
  ∀ n, n ∈ sp_dirty (spec_queue A fd) ↔ n = fd ∨ n ∈ sp_dirty A.
Proof. unfold spec_queue. destruct (decide _); cbn; [naive_solver|]. split; [done|]. split; [done|]. set_solver. Qed.

Lemma no_hits dead m W : hits dead m W = [] → misses dead m W = W.
Proof.
  unfold hits, misses. induction W as [|p W IH]; [done|]. destruct (decide (hit dead m p = true)) as [E|E].
  - by rewrite filter_cons_True.
  - rewrite filter_cons_False by done. intros Hn. rewrite filter_cons_True by (by destruct (hit dead m p)). by rewrite IH.
Qed.

Lemma take_kernel dead A d fd m ep : kernel_ok dead A d → kernel_ok dead (spec_take dead A fd m ep).2 d.
Proof.
  intros HK. unfold spec_take. set (wd := sp_fds A fd). destruct (bool_decide _ || _); [done|].
  set (A' := FdSpec _ _ _).
  assert (He : ∀ n, wd_epoch (sp_fds A' n) = wd_epoch (sp_fds A n)).
  { intros n. cbn. destruct (decide (n = fd)) as [->|Hne]; [by rewrite fn_lookup_insert|by rewrite fn_lookup_insert_ne]. }
  assert (Hm : ∀ n p, p ∈ wd_list (sp_fds A' n) → 0 < p.2 < 8).
  { intros n p. cbn. destruct (decide (n = fd)) as [->|Hne];
      [rewrite fn_lookup_insert|rewrite fn_lookup_insert_ne by done; apply (k_masks _ _ _ HK)]. cbn. unfold misses.
    intros Hp. apply list_elem_of_filter in Hp as [_ Hp]. by apply (k_masks _ _ _ HK fd). }
  destruct (bool_decide _) eqn:Eh; cbn [snd].
  - apply bool_decide_eq_true in Eh. apply (kernel_relax dead dead A A' d); [done|done|done| |done].
    intros n Hn. split; [done|]. split; [|done]. cbn. destruct (decide (n = fd)) as [->|Hne]; [|by rewrite fn_lookup_insert_ne].
    rewrite fn_lookup_insert. cbn. by apply no_hits.
  - destruct (queue_fields A' fd) as (Q1 & _ & Q3). apply (kernel_relax dead dead A _ d); [done|done|..]; rewrite ?Q1; try done.
    intros n Hn. rewrite Q3 in Hn. split; [intros Hd; apply Hn; by right|]. split; [|done]. cbn. rewrite fn_lookup_insert_ne; [done|].
    intros ->. apply Hn. by left.
Qed.

Lemma watch_kernel dead closed A d fd m b e : kernel_ok dead A d → is_int fd → 0 ≤ m < 8 →
  (0 ≤ fd → wd_body (sp_fds A (Z.to_nat fd)) = None ∨ wd_body (sp_fds A (Z.to_nat fd)) = Some b) →
  ∃ a o es A', spec_watch closed A fd m b e = Some (a, o, es, A') ∧ kernel_ok dead A' d.
Proof.
  intros HK Hfd Hm Hb. unfold spec_watch. destruct ((fd <? 0) || (m =? fd_none)) eqn:E; [by eexists _, _, _, A|].
  unfold fd_none in E. specialize (Hb ltac:(lia)). set (n := Z.to_nat fd) in *. set (wd := sp_fds A n) in *.
  assert (Ho : ∃ a, spec_own closed A n b = Some (a, None, [], A) ∨
     spec_own closed A n b = Some (a, None, [], spec_set A n (Watched (Some b) (wd_epoch wd) (wd_list wd)))).
  { unfold spec_own. fold wd. destruct (bool_decide _) eqn:Eb; [exists None; by left|].
    destruct Hb as [Hb|Hb]; [|by rewrite bool_decide_eq_false in Eb]. rewrite Hb. exists (Some b). by right. }
  destruct Ho as (a & Ho).
  assert (Ho' : ∃ A1, spec_own closed A n b = Some (a, None, [], A1) ∧ sp_dirty A1 = sp_dirty A ∧
    ∀ x, wd_epoch (sp_fds A1 x) = wd_epoch (sp_fds A x) ∧ wd_list (sp_fds A1 x) = wd_list (sp_fds A x)).
  { destruct Ho as [Ho|Ho]; (eexists; split; [exact Ho|]); [done|]. split; [done|]. intros x. cbn.
    destruct (decide (x = n)) as [->|Hne]; [by rewrite fn_lookup_insert|by rewrite fn_lookup_insert_ne]. }
  destruct Ho' as (A1 & -> & D1 & F1). cbn [mbind option_bind]. eexists _, _, _, _. split; [done|].
  destruct (queue_fields A1 n) as (Q1 & _ & Q3).
  apply (kernel_relax dead dead A _ d); [done|done|..]; cbn [spec_set sp_fds sp_dirty]; rewrite Q1.
  - intros x. destruct (decide (x = n)) as [->|Hne]; [rewrite fn_lookup_insert|rewrite fn_lookup_insert_ne by done]; apply F1.
  - intros x Hx. rewrite Q3, D1 in Hx. split; [tauto|]. split; [|done]. rewrite fn_lookup_insert_ne by (intros ->; tauto).
    by rewrite (proj2 (F1 x)).
  - intros x p. destruct (decide (x = n)) as [->|Hne].
    + rewrite fn_lookup_insert. cbn. rewrite elem_of_app, list_elem_of_singleton, (proj2 (F1 n)).
      intros [Hp| ->]; [by apply (k_masks _ _ _ HK n)|cbn; lia].
    + rewrite fn_lookup_insert_ne, (proj2 (F1 x)) by done. apply (k_masks _ _ _ HK).
Qed.

(** Closing removes the descriptor from the kernel before it is closed. *)
Lemma close_kernel dead closed d A fd : driver_ok dead d A → is_int fd →
  ∃ ok b es d', notify_close closed d fd = Some (ok, (b, es, d')) ∧ if ok : bool then ∃ A', driver_ok dead d' A' else refused d'.
Proof.
  intros [[ls HR] HK] Hfd. unfold notify_close. unfold is_int in Hfd. destruct (decide (fd < 0)) as [Hneg|Hpos].
  { unfold fd_close. rewrite (negative_slot _ _ _ _ _ HR) by lia. cbn. eexists true, _, _, _. split; [done|]. exists A.
    split; [by exists ls|]. by apply (kernel_relax dead dead A A d); try done; apply HK. }
  destruct (close_spec closed (fds_ d) (d_wix d) A ls fd HR ltac:(lia)) as (s' & ls' & E & HR' & _). rewrite E.
  cbn [mbind option_bind]. unfold spec_close in *. set (n := Z.to_nat fd) in *. set (wd := sp_fds A n) in *.
  assert (HK0 : kernel_ok dead A (with_fds d s' (d_wix d))) by (apply (kernel_relax dead dead A A d); try done; apply HK).
  destruct (wd_body wd) as [b|];
    [|cbn [fst snd] in *; eexists true, _, _, _; split; [done|]; exists A; split; [by exists ls'|done]].
  destruct (negb (closed b)); cbn [fst snd] in *;
    [eexists true, _, _, _; split; [done|]; exists A; split; [by exists ls'|done]|].
  set (d0 := with_fds d s' (d_wix d)) in *. set (A1 := spec_set A n _) in *. cbv beta iota zeta.
  destruct HK0 as [H1 H2 (S & HS1 & HS2 & HS3) H4 H5 H6 H7].
  destruct (apply_spec d0 (FdUpdate fd fd_none (wd_epoch wd)) n (wd_epoch wd) S) as (ok & d' & E' & Hok);
    try done; try (cbn; unfold n; lia).
  rewrite E'. cbn [mbind option_bind]. destruct ok; [|by eexists false, _, _, d'].
  destruct Hok as (S' & F1 & F2 & N1 & N2 & N3 & N4 & R1 & R2).
  eexists true, _, _, d'. split; [done|]. exists (spec_queue A1 n). split; [rewrite F1, F2; by exists ls'|].
  destruct (queue_fields A1 n) as (Q1 & _ & Q3). cbn [fu_mask] in *.
  assert (HA1 : ∀ x, x ≠ n → sp_fds A1 x = sp_fds A x) by (intros x Hx; cbn; by rewrite fn_lookup_insert_ne).
  assert (HAn : sp_fds A1 n = Watched None (u32 (wd_epoch wd + 1)) []) by apply fn_lookup_insert.
  split; rewrite ?Q1.
  - intros x. rewrite N1. destruct (decide (x = n)) as [->|Hne]; [exact R2|]. rewrite HA1, R1 by (done || lia). apply H1.
  - intros x. rewrite N1. destruct (decide (x = n)); [done|apply H2].
  - by exists S'.
  - intros x Hx. rewrite Q3 in Hx. rewrite N1, decide_False by tauto. rewrite HA1 by tauto. apply H4. tauto.
  - intros x p. destruct (decide (x = n)) as [->|Hne]; [rewrite HAn; inversion 1|rewrite HA1 by done; apply H5].
  - intros x. destruct (decide (x = n)) as [->|Hne]; [rewrite HAn; cbn; apply Z.mod_pos_bound; done|rewrite HA1 by done; apply H6].
  - intros x. rewrite N1. destruct (decide (x = n)) as [->|Hne]; [done|rewrite HA1 by done; apply H7].
Qed.

Lemma register_spec dead d A : driver_ok dead d A →
  ∃ ok d', register_changes dead d = Some (ok, d') ∧ if ok : bool then ∃ A', driver_ok dead d' A' ∧ sp_dirty A' = [] ∧
    has_update (fds_ d') = false ∧ (∀ fd, wd_list (sp_fds A' fd) = wd_list (sp_fds A fd)) ∧
    ∀ fd, nibble (fdctl_ d') fd =
      if decide (fd ∈ sp_dirty A) then live_mask dead 0 (wd_list (sp_fds A fd)) else nibble (fdctl_ d) fd
  else refused d'.
Proof.
  intros Hd. apply (drain_spec dead _ d A Hd).
  assert (Hle : (length (sp_dirty A) ≤ length (seq 0 (length (fdrs_ (fds_ d)))))%nat); [|rewrite length_seq in Hle; lia].
  destruct Hd as [HR _]. apply submseteq_length, NoDup_submseteq; [destruct HR as [ls Hr]; apply (r_once _ _ _ _ Hr)|].
  intros fd Hfd. apply elem_of_seq. pose proof (dirty_bound _ _ _ _ HR Hfd). lia.
Qed.

Lemma run_driver_ok dead closed d A op : driver_ok dead d A → legal_op d op →
  ∃ ok d', run_driver_op dead closed d op = Some (ok, d') ∧ if ok : bool then ∃ A', driver_ok dead d' A' else refused d'.
Proof.
  intros Hd Hl. pose proof Hd as [HR HK].
  assert (Hset : ∀ fop o A1, is_int (fd_of fop) → spec_fd_op dead closed A fop = Some (o, A1) → kernel_ok dead A1 d →
    ∃ ok d', run_set_op dead closed d fop = Some (ok, d') ∧ if ok : bool then ∃ A', driver_ok dead d' A' else refused d').
  { intros fop o A1 Hfd Hs HK1. pose proof (run_fd_op_spec dead closed (fds_ d) (d_wix d) A fop HR Hfd) as Hr.
    rewrite Hs in Hr. destruct Hr as (s' & wix' & Er & HR'). unfold run_set_op. rewrite Er. cbn [mbind option_bind].
    eexists true, _. split; [done|]. exists A1. split; [done|]. by apply (kernel_relax dead dead A1 A1 d); try done; apply HK1. }
  destruct op as [fd m b e|fd m ep|m| |fd]; cbn [run_driver_op legal_op] in *.
  - destruct Hl as (Hfd & Hm & Hb).
    destruct (watch_kernel dead closed A d fd m b e HK Hfd Hm) as (a & o & es & A' & E & HK').
    { intros Hpos. destruct HR as [ls HR]. unfold is_int in Hfd.
      destruct (slot_of _ _ A ls fd HR ltac:(lia)) as [_ Hs]. destruct (_ <=? fd); [rewrite Hs; by left|].
      destruct Hs as (r & Hr & Hr'). destruct (r_fds _ _ _ _ HR _ r Hr') as [_ _ _ Hbd _]. rewrite <-Hbd. by apply Hb. }
    apply (Hset (F_watch fd m b e) (R_watch a o es) A'); [done| |done]. cbn. by rewrite E.
  - cbn [spec_fd_op] in Hset. destruct (bool_decide (sp_taken A = [])) eqn:Et.
    + destruct (fd <? 0) eqn:En.
      * apply (Hset (F_take fd m ep) (R_take false) A); [done| |done]. cbn. by rewrite Et, En.
      * apply (Hset (F_take fd m ep) (R_take (spec_take dead A (Z.to_nat fd) m ep).1) (spec_take dead A (Z.to_nat fd) m ep).2);
          [done|cbn; by rewrite Et, En|by apply take_kernel].
    + apply (Hset (F_take fd m ep) R_busy A); [done| |done]. cbn. by rewrite Et.
  - destruct (spec_pop A m) as [[[e fl] A1]|] eqn:Ep.
    + apply (Hset (F_pop m) (R_pop (Some e) fl) A1); [done|cbn; by rewrite Ep|]. unfold spec_pop in Ep.
      destruct (sp_taken A) as [|p T]; [done|]. injection Ep as _ _ <-.
      apply (kernel_relax dead dead A _ d); try done; apply HK.
    + apply (Hset (F_pop m) R_busy A); [done| |done]. cbn. by rewrite Ep.
  - destruct (register_spec dead d A Hd) as (ok & d' & E & H'). exists ok, d'. split; [done|]. destruct ok; [|done].
    destruct H' as (A' & H' & _). by exists A'.
  - destruct (close_kernel dead closed d A fd Hd Hl) as (ok & b & es & d' & E & H'). rewrite E. by exists ok, d'.
Qed.

Lemma start_ok dead k : (∀ fd, registered k fd = None) →
  driver_ok dead (DriverFds new_fd_event_set 0 [] 0 k) new_fd_spec.
Proof.
  intros Hk. split; [apply new_represents|]. split; cbn; try done.
  - exists ∅. split; [|by rewrite size_empty]. unfold nibble. cbn. set_solver.
  - intros fd _. by exists dead.
  - intros fd p Hp. inversion Hp.
Qed.

Lemma reached_ok dead d : reached_fds dead d → ∃ A, driver_ok dead d A.
Proof.
  induction 1 as [dead k Hk|dead closed d op d' _ [A IH] Hl E|dead dead' d _ [A [HR HK]] Hm].
  - exists new_fd_spec. by apply start_ok.
  - destruct (run_driver_ok dead closed d A op IH Hl) as (ok & d1 & E1 & H1). rewrite E in E1. by injection E1 as <- <-.
  - exists A. split; [done|]. apply (kernel_relax dead dead' A A d); try done; [|apply HK].
    intros fd Hfd. do 2 (split; [done|]). intros p Hp. apply Hm. by eapply live_watched.
Qed.

Lemma hit_taken dead A fd m ep p : p ∈ wd_list (sp_fds A fd) → Z.land m p.2 ≠ 0 → ep = wd_epoch (sp_fds A fd) →
  p ∈ sp_taken (spec_take dead A fd m ep).2.
Proof.
  intros Hp Hm ->. unfold spec_take. set (wd := sp_fds A fd) in *.
  rewrite Z.eqb_refl, andb_false_r, orb_false_r, bool_decide_eq_false_2 by (intros E; rewrite E in Hp; inversion Hp).
  assert (Hh : p ∈ hits dead m (wd_list wd)).
  { apply list_elem_of_filter. split; [|done]. unfold hit, fd_none. by rewrite (proj2 (Z.eqb_neq _ _) Hm). }
  destruct (bool_decide _) eqn:E; [apply bool_decide_eq_true in E; rewrite E in Hh; inversion Hh|].
  cbn [snd]. by rewrite (proj1 (proj2 (queue_fields _ _))).
Qed.

(** The kernel has been told what the table says, with the epochs of the set. *)
Definition told (A : fd_spec) d : Prop := ∀ fd : nat,
  registered (kernel d) (Z.of_nat fd) =
    (let m := nibble (fdctl_ d) fd in
     if m =? 0 then None else Some (mask_out m, event_data (Z.of_nat fd) (wd_epoch (sp_fds A fd)))).

Lemma covered dead d A fd p : driver_ok dead d A → sp_dirty A = [] → p ∈ wd_list (sp_fds A fd) → Z.of_nat fd < max_fds → dead p.1 = false →
  ∃ m data, registered (kernel d) (Z.of_nat fd) = Some (mask_out m, data) ∧ Z.land p.2 m = p.2 ∧ data_fd data = Z.of_nat fd ∧
    ∀ n, Z.land n p.2 ≠ 0 → p ∈ sp_taken (spec_take dead A fd n (data_epoch data)).2.
Proof.
  intros [HR HK] Hd Hp Hfd Hl. pose proof (k_masks _ _ _ HK fd p Hp) as Hm. pose proof (k_reg _ _ _ HK fd) as Hreg.
  assert (Hc : Z.land p.2 (nibble (fdctl_ d) fd) = p.2).
  { destruct (k_clean _ _ _ HK fd ltac:(rewrite Hd; set_solver)) as (gone & Hg & ->). apply live_mask_covers; [done|].
    destruct (gone p.1) eqn:E; [|done]. rewrite (Hg p Hp E) in Hl. done. }
  destruct (nibble (fdctl_ d) fd =? 0) eqn:En.
  { exfalso. assert (E0 : nibble (fdctl_ d) fd = 0) by lia. rewrite E0, Z.land_0_r in Hc. lia. }
  eexists _, _. split; [exact Hreg|]. split; [done|].
  destruct (event_data_roundtrip (Z.of_nat fd) (wd_epoch (sp_fds A fd))) as [D1 D2];
    [unfold two32, max_fds in *; lia|apply (k_epoch _ _ _ HK)|].
  split; [done|]. intros n Hn. by apply hit_taken.
Qed.

End Kernel.

(** A kernel that keeps a finite map of at most two descriptors. *)
#[local] Instance map_epoll : Epoll (gmap Z (Z * Z)) := {
  epoll_ctl k op fd evs data :=
    match op, k !! fd with
    | EPOLL_CTL_ADD, None => if (base.size k <? 2)%nat then Some (<[fd := (evs, data)]> k) else None
    | EPOLL_CTL_MOD, Some _ => Some (<[fd := (evs, data)]> k)
    | EPOLL_CTL_DEL, Some _ => Some (delete fd k)
    | _, _ => None
    end;
  registered k fd := k !! fd
}.

#[local] Instance map_epoll_laws : EpollLaws (gmap Z (Z * Z)).
Proof.
  split. intros k op fd evs data k'. destruct op; cbn.
  - intros ->. case_match; [|done]. intros [= <-]. split; [apply lookup_insert_eq|]. intros n Hn. by apply lookup_insert_ne.
  - intros [p ->] [= <-]. split; [apply lookup_insert_eq|]. intros n Hn. by apply lookup_insert_ne.
  - intros [p ->] [= <-]. split; [apply lookup_delete_eq|]. intros n Hn. by apply lookup_delete_ne.
Qed.

Definition nobody_dead (e : nat) : bool := false.
Definition run_ops (ops : list driver_op) : option (bool * @driver_fds (gmap Z (Z * Z))) :=
  foldl (λ o op, '(_, d) ← o; run_driver_op nobody_dead nobody_dead d op) (Some (true, DriverFds new_fd_event_set 0 [] 0 ∅)) ops.

(** When [epoll_ctl] refuses a third descriptor the update is lost: the watch
    stays in the set, and the next registration has nothing to do. *)
Example refused_watch_is_lost :
  let ops := [D_watch 3 1 4 8; D_watch 4 1 5 9; D_register; D_watch 6 1 6 10; D_register] in
  (fst <$> run_ops ops) = Some false ∧
  ('(ok, d) ← run_ops (ops ++ [D_register]); Some (ok, has_update (fds_ d), registered (kernel d) 6, fd_mask nobody_dead (fds_ d) 6)) =
    Some (true, false, None, Some 1).
Proof. by vm_compute. Qed.

