(* ===== verification/FdBody.v ===== *)
(** Who closes a file descriptor: [fd_body], the reference-counted body behind
    [cotamer::fd], with the drivers that have its descriptor registered.  From
    [src/cotamer/cotamer_impl.hh], [io.cc] and [cotamer.cc].

    The model has the bodies on the heap, the descriptors the process has open,
    the [fd] objects, and for every driver its table from descriptors to bodies
    and its queue [migrate_fd_close_].  Of the table only the [body] fields
    matter here; [FdEvents] has the table itself, and [spec_close_body] and
    [spec_own_body] say that the two agree.  Operations run one at a time, on
    the thread of any driver; a driver handles the closes of other threads when
    its loop gets to them.  An operation is [None] when it closes a descriptor
    that is not open, or reads a body or a driver that was deleted.  The last
    section cuts [deref] into its atomic steps. *)

From stdpp Require Import functions.
From S2P Require Import Prelude FdEvents.
Import Handles.

(** * State *)

Record fd_body := FdBody {
  fd_ : Z;
  base_fd_ : Z;
  ref_ : Z;
  drivers_ : list nat
}.

(** A driver's table, of body addresses by descriptor. *)
Notation table := (gmap Z nat).

Record heap := Heap {
  bodies : gmap nat fd_body;
  os_open : gset Z;
  tables : nat → table;
  migrate_fd_close_ : nat → list Z;
  alive : gset nat
}.

Definition set_bodies (w : heap) (bs : gmap nat fd_body) : heap :=
  Heap bs (os_open w) (tables w) (migrate_fd_close_ w) (alive w).
Definition set_body (w : heap) (b : nat) (x : fd_body) : heap := set_bodies w (<[b := x]> (bodies w)).
Definition set_tables (w : heap) (T : nat → table) : heap :=
  Heap (bodies w) (os_open w) T (migrate_fd_close_ w) (alive w).
Definition set_queue (w : heap) (d : nat) (q : list Z) : heap :=
  Heap (bodies w) (os_open w) (tables w) (<[d := q]> (migrate_fd_close_ w)) (alive w).

(** The system call [::close]. *)
Definition sys_close (n : Z) (w : heap) : option heap :=
  if decide (n ∈ os_open w) then Some (Heap (bodies w) (os_open w ∖ {[n]}) (tables w) (migrate_fd_close_ w) (alive w))
  else None.

(** * The body *)

Definition new_fd_body (raw : Z) : fd_body := FdBody raw raw 1 [].

Definition fileno (x : fd_body) : Z := fd_ x.
Definition base_fileno (x : fd_body) : Z := base_fd_ x.

(** [delete this], with the destructor. *)
Definition delete_body (b : nat) (w : heap) : option heap :=
  x ← bodies w !! b;
  let w := set_bodies w (delete b (bodies w)) in
  if 0 <=? base_fd_ x then sys_close (base_fd_ x) w else Some w.

Definition ref (b : nat) (w : heap) : option heap :=
  x ← bodies w !! b; Some (set_body w b (FdBody (fd_ x) (base_fd_ x) (u32 (ref_ x + 1)) (drivers_ x))).

Definition add_listener (d b : nat) (w : heap) : option heap :=
  x ← bodies w !! b; Some (set_body w b (FdBody (fd_ x) (base_fd_ x) (ref_ x) (drivers_ x ++ [d]))).

Definition remove_listener (d b : nat) (w : heap) : option heap :=
  x ← bodies w !! b;
  let ds := match index_in d (drivers_ x) with Some i => swap_remove i (drivers_ x) | None => drivers_ x end in
  if negb (bool_decide (ds = [])) then Some (set_body w b (FdBody (fd_ x) (base_fd_ x) (ref_ x) ds))
  else
    let deletable := ref_ x =? 0 in
    let closable := if fd_ x <? 0 then base_fd_ x else -1 in
    let w := set_body w b (FdBody (fd_ x) (if 0 <=? closable then -1 else base_fd_ x) (ref_ x) ds) in
    w ← (if 0 <=? closable then sys_close closable w else Some w);
    if deletable then delete_body b w else Some w.

(** [driver::notify_close], as far as bodies are concerned: [fd_close] gives the
    body up if it has been closed. *)
Definition notify_close (d : nat) (n : Z) (w : heap) : option heap :=
  if negb (bool_decide (d ∈ alive w)) then None
  else
    match tables w d !! n with
    | None => Some w
    | Some b =>
        x ← bodies w !! b;
        if 0 <=? fileno x then Some w
        else remove_listener d b (set_tables w (<[d := delete n (tables w d)]> (tables w)))
    end.

Definition migrate_fd_close (d : nat) (n : Z) (w : heap) : option heap :=
  if negb (bool_decide (d ∈ alive w)) then None
  else Some (set_queue w d (migrate_fd_close_ w d ++ [n])).

(** The part of [close] after the lock is released, for a body with drivers. *)
Definition tell_driver (cur : option nat) (n : Z) (d : nat) (w : heap) : option heap :=
  if bool_decide (cur = Some d) then notify_close d n w else migrate_fd_close d n w.

Definition tell_drivers (cur : option nat) (n : Z) (ds : list nat) (w : heap) : option heap :=
  foldl (λ o d, o ≫= tell_driver cur n d) (Some w) ds.

Definition close (because_deref : bool) (b : nat) (cur : option nat) (w : heap) : option heap :=
  x ← bodies w !! b;
  let first := 0 <=? fd_ x in
  let drivers := if first then drivers_ x else [] in
  let base_fd := if first then base_fd_ x else -1 in
  let now := (0 <=? base_fd) && bool_decide (drivers = []) in
  let deletable := because_deref && bool_decide (drivers_ x = []) in
  let w := set_body w b (FdBody (if first then -1 else fd_ x) (if now then -1 else base_fd_ x)
                                (if because_deref then u32 (ref_ x - 1) else ref_ x) (drivers_ x)) in
  w ← (if base_fd <? 0 then Some w
       else if bool_decide (drivers = []) then sys_close base_fd w
       else tell_drivers cur base_fd drivers w);
  if deletable then delete_body b w else Some w.

Definition deref (b : nat) (cur : option nat) (w : heap) : option heap :=
  x ← bodies w !! b;
  if ref_ x =? 1 then close true b cur w
  else Some (set_body w b (FdBody (fd_ x) (base_fd_ x) (u32 (ref_ x - 1)) (drivers_ x))).

(** * A driver *)

(** The part of [watch] that makes the body of the descriptor the driver's. *)
Definition own (d b : nat) (n : Z) (w : heap) : option heap :=
  if bool_decide (tables w d !! n = Some b) then Some w
  else
    w ← (match tables w d !! n with
         | None => Some w
         | Some b' =>
             x ← bodies w !! b';
             if 0 <=? fileno x then None else remove_listener d b' w
         end);
    add_listener d b (set_tables w (<[d := <[n := b]> (tables w d)]> (tables w))).

Definition watch_fd (d b : nat) (w : heap) : option heap :=
  if negb (bool_decide (d ∈ alive w)) then None
  else x ← bodies w !! b; if fileno x <? 0 then Some w else own d b (fileno x) w.

(** The closes in [finish_migrate]. *)
Definition finish_migrate (d : nat) (w : heap) : option heap :=
  if negb (bool_decide (d ∈ alive w)) then None
  else foldl (λ o n, o ≫= notify_close d n) (Some (set_queue w d [])) (migrate_fd_close_ w d).

(** [deref_all] and the end of a driver. *)
Definition deref_all (d : nat) (w : heap) : option heap :=
  foldl (λ o p, o ≫= remove_listener d p.2) (Some w) (map_to_list (tables w d)).

Definition destroy_driver (d : nat) (w : heap) : option heap :=
  if negb (bool_decide (d ∈ alive w)) then None
  else
    w ← deref_all d w;
    Some (Heap (bodies w) (os_open w) (<[d := ∅]> (tables w)) (<[d := []]> (migrate_fd_close_ w)) (alive w ∖ {[d]})).

(** * The handles

    An [fd] object, by its address, with its field [body_]. *)

Record program := Program { fds : gmap nat (option nat); hp : heap }.

Definition fd_new (h : nat) (n : Z) (p : program) : option program :=
  if 0 <=? n then
    let b := fresh (dom (bodies (hp p))) in
    Some (Program (<[h := Some b]> (fds p)) (set_body (hp p) b (new_fd_body n)))
  else Some (Program (<[h := None]> (fds p)) (hp p)).

Definition ref_opt (o : option nat) (w : heap) : option heap :=
  match o with Some b => ref b w | None => Some w end.
Definition deref_opt (o : option nat) (cur : option nat) (w : heap) : option heap :=
  match o with Some b => deref b cur w | None => Some w end.

Definition fd_copy (h x : nat) (p : program) : option program :=
  o ← fds p !! x;
  w ← ref_opt o (hp p);
  Some (Program (<[h := o]> (fds p)) w).

Definition fd_move (h x : nat) (p : program) : option program :=
  o ← fds p !! x;
  Some (Program (<[h := o]> (<[x := None]> (fds p))) (hp p)).

Definition fd_copy_assign (h x : nat) (cur : option nat) (p : program) : option program :=
  o ← fds p !! h;
  o' ← fds p !! x;
  if bool_decide (o = o') then Some p
  else
    w ← ref_opt o' (hp p);
    w ← deref_opt o cur w;
    Some (Program (<[h := o']> (fds p)) w).

Definition fd_move_assign (h x : nat) (cur : option nat) (p : program) : option program :=
  o ← fds p !! h;
  o' ← fds p !! x;
  if bool_decide (h = x) then Some p
  else
    w ← deref_opt o cur (hp p);
    Some (Program (<[h := o']> (<[x := None]> (fds p))) w).

Definition fd_destroy (h : nat) (cur : option nat) (p : program) : option program :=
  o ← fds p !! h;
  w ← deref_opt o cur (hp p);
  Some (Program (delete h (fds p)) w).

(** [fileno] and [valid] of an [fd]. *)
Definition fd_fileno (h : nat) (p : program) : option Z :=
  o ← fds p !! h;
  match o with None => Some (-1) | Some b => x ← bodies (hp p) !! b; Some (fileno x) end.
Definition fd_valid (h : nat) (p : program) : option bool :=
  n ← fd_fileno h p; Some (0 <=? n).

Definition fd_close (h : nat) (cur : option nat) (p : program) : option program :=
  o ← fds p !! h;
  match o with None => Some p | Some b => w ← close false b cur (hp p); Some (Program (fds p) w) end.

(** Watching through a handle, on the thread of the driver [d]. *)
Definition fd_watch (d h : nat) (p : program) : option program :=
  o ← fds p !! h;
  match o with None => Some p | Some b => w ← watch_fd d b (hp p); Some (Program (fds p) w) end.

(** * The invariant

    A body is open, closing (closed by the program, but registered with drivers
    that have all been told), or closed and still referenced. *)

Inductive body_state (told : nat → Z → Prop) : fd_body → Prop :=
  | B_open n r ds : 0 ≤ n → 0 < r → body_state told (FdBody n n r ds)
  | B_closing n r ds : 0 ≤ n → 0 ≤ r → ds ≠ [] → (∀ d, d ∈ ds → told d n) → body_state told (FdBody (-1) n r ds)
  | B_closed r : 0 < r → body_state told (FdBody (-1) (-1) r []).

(** A driver has been told, or is about to be. *)
Definition told (pend : list (nat * Z)) (q : nat → list Z) (d : nat) (n : Z) : Prop := n ∈ q d ∨ (d, n) ∈ pend.

Definition owned (bs : gmap nat fd_body) (n : Z) : Prop := ∃ b x, bs !! b = Some x ∧ base_fd_ x = n ∧ 0 ≤ n.

(** [cnt] counts the handles of each body, [raw] are the descriptors that the
    program manages without one, and [T] the drivers' tables. *)
Record inv (cnt : nat → Z) (pend : list (nat * Z)) (raw : gset Z) (T : nat → table) (w : heap) : Prop := {
  i_state : ∀ b x, bodies w !! b = Some x → body_state (told pend (migrate_fd_close_ w)) x;
  i_cnt : ∀ b x, bodies w !! b = Some x → ref_ x = cnt b;
  i_live : ∀ b, cnt b ≠ 0 → is_Some (bodies w !! b);
  i_small : ∀ b, 0 ≤ cnt b < two32;
  i_os : ∀ n, n ∈ os_open w ↔ n ∈ raw ∨ owned (bodies w) n;
  i_raw : ∀ n, n ∈ raw → ¬ owned (bodies w) n;
  i_once : ∀ b b' x x', bodies w !! b = Some x → bodies w !! b' = Some x' →
    0 ≤ base_fd_ x → base_fd_ x = base_fd_ x' → b = b';
  i_nodup : ∀ b x, bodies w !! b = Some x → NoDup (drivers_ x);
  i_alive : ∀ b x d, bodies w !! b = Some x → d ∈ drivers_ x → d ∈ alive w;
  i_tab : ∀ d n b, T d !! n = Some b ↔ ∃ x, bodies w !! b = Some x ∧ base_fd_ x = n ∧ d ∈ drivers_ x;
  i_quiet : ∀ d, d ∉ alive w → migrate_fd_close_ w d = []
}.

Lemma inv_ext cnt cnt' pend raw T T' w : inv cnt pend raw T w → (∀ b, cnt' b = cnt b) → (∀ d, T' d = T d) →
  inv cnt' pend raw T' w.
Proof.
  intros [H1 H2 H3 H4 H5 H6 H7 H8 H9 H10 H11] Ec ET. split; try done.
  - intros b x Hx. rewrite Ec. by apply H2.
  - intros b. rewrite Ec. apply H3.
  - intros b. rewrite Ec. apply H4.
  - intros d n b. rewrite ET. apply H10.
Qed.

Lemma state_mono (P Q : nat → Z → Prop) x : body_state P x →
  (∀ d, fd_ x < 0 → d ∈ drivers_ x → P d (base_fd_ x) → Q d (base_fd_ x)) → body_state Q x.
Proof.
  intros [n r ds Hn Hr|n r ds Hn Hr Hd Ht|r Hr] HPQ; [by apply B_open| |by apply B_closed].
  apply B_closing; try done. intros d Hd'. apply HPQ; [done|done|by apply Ht].
Qed.

(** Messages to the drivers: only the closing bodies ask for them. *)
Lemma inv_queue cnt pend pend' raw T w q : inv cnt pend raw T w →
  (∀ b x d, bodies w !! b = Some x → fd_ x < 0 → d ∈ drivers_ x → T d !! base_fd_ x = Some b →
     told pend (migrate_fd_close_ w) d (base_fd_ x) → told pend' q d (base_fd_ x)) →
  (∀ d, d ∉ alive w → q d = []) →
  inv cnt pend' raw T (Heap (bodies w) (os_open w) (tables w) q (alive w)).
Proof.
  intros [H1 H2 H3 H4 H5 H6 H7 H8 H9 H10 H11] Ht Hq. split; try done. cbn. intros b x Hx.
  eapply state_mono; [by apply (H1 b)|]. cbn. intros d Hf Hd. apply (Ht b); [done|done|done|]. apply H10. by exists x.
Qed.

(** Replacing the body at one address, or deleting it. *)
Section Put.
Context (cnt cnt' : nat → Z) (pend pend' : list (nat * Z)) (raw : gset Z) (T T' : nat → table) (w : heap).
Context (b : nat) (x : fd_body) (ox : option fd_body) (os' : gset Z).
Let base' := from_option base_fd_ (-1) ox.
Let drivers' := from_option drivers_ [] ox.

Lemma inv_put : inv cnt pend raw T w → bodies w !! b = Some x →
  (∀ b', b' ≠ b → cnt' b' = cnt b') → 0 ≤ cnt' b < two32 →
  match ox with
  | Some x' => body_state (told pend' (migrate_fd_close_ w)) x' ∧ ref_ x' = cnt' b ∧ NoDup (drivers_ x')
  | None => cnt' b = 0
  end →
  (base' = base_fd_ x ∧ os' = os_open w ∨ 0 ≤ base_fd_ x ∧ base' = -1 ∧ os' = os_open w ∖ {[base_fd_ x]}) →
  (∀ d, d ∈ drivers' → d ∈ alive w) →
  (∀ d n b', T' d !! n = Some b' ↔ (b' ≠ b ∧ T d !! n = Some b') ∨ (b' = b ∧ base' = n ∧ d ∈ drivers')) →
  (∀ b' x' d, b' ≠ b → bodies w !! b' = Some x' → fd_ x' < 0 → d ∈ drivers_ x' →
     told pend (migrate_fd_close_ w) d (base_fd_ x') → told pend' (migrate_fd_close_ w) d (base_fd_ x')) →
  inv cnt' pend' raw T' (Heap (partial_alter (λ _, ox) b (bodies w)) os' (tables w) (migrate_fd_close_ w) (alive w)).
Proof.
  intros [H1 H2 H3 H4 H5 H6 H7 H8 H9 H10 H11] Hb Hcnt Hsm Hox Hos Hal HT Htold.
  set (bs' := partial_alter (λ _, ox) b (bodies w)).
  assert (Hlk : ∀ b' y, bs' !! b' = Some y ↔ (b' ≠ b ∧ bodies w !! b' = Some y) ∨ (b' = b ∧ ox = Some y)).
  { intros b' y. unfold bs'. destruct (decide (b' = b)) as [->|Hne].
    - rewrite lookup_partial_alter_eq. naive_solver.
    - rewrite lookup_partial_alter_ne by done. naive_solver. }
  assert (Hbase : base' = base_fd_ x ∨ base' = -1) by (destruct Hos; naive_solver).
  assert (Hown : ∀ n, owned bs' n ↔ owned (bodies w) n ∧ (n ≠ base_fd_ x ∨ base' = base_fd_ x)).
  { intros n. unfold owned. split.
    - intros (b' & y & [[Hne Hy]|[-> Hy]]%Hlk & En & Hn).
      + split; [by exists b', y|]. left. intros ->. apply Hne. symmetry. apply (H7 b b' x y); [done|done|lia|done].
      + subst base'. rewrite Hy in Hbase |- *. cbn in *. destruct Hbase as [E|E]; [|lia].
        split; [exists b, x; split; [done|]; split; [congruence|done]|by right].
    - intros [(b' & y & Hy & En & Hn) Hor]. destruct (decide (b' = b)) as [->|Hne].
      + assert (y = x) as -> by congruence. destruct Hor as [?|E]; [congruence|]. subst base'.
        destruct ox as [y|]; cbn in E; [|lia]. exists b, y. split; [apply Hlk; by right|]. split; [congruence|done].
      + exists b', y. split; [apply Hlk; by left|done]. }
  split; cbn [bodies os_open tables migrate_fd_close_ alive].
  - intros b' y [[Hne Hy]|[-> Hy]]%Hlk.
    + eapply state_mono; [by apply (H1 b')|]. intros d Hf Hd. by apply (Htold b').
    + subst ox. apply Hox.
  - intros b' y [[Hne Hy]|[-> Hy]]%Hlk; [rewrite Hcnt by done; by apply H2|]. subst ox. apply Hox.
  - intros b' Hc. destruct (decide (b' = b)) as [->|Hne].
    + destruct ox as [y|]; [exists y; apply Hlk; by right|done].
    + rewrite Hcnt in Hc by done. destruct (H3 b' Hc) as [y Hy]. exists y. apply Hlk. by left.
  - intros b'. destruct (decide (b' = b)) as [->|Hne]; [done|]. rewrite Hcnt by done. apply H4.
  - assert (Hbx : 0 ≤ base_fd_ x → base_fd_ x ∉ raw) by (intros Hp Hr; apply (H6 _ Hr); by exists b, x).
    intros n. rewrite Hown. destruct Hos as [[E ->]|(Hp & E & ->)].
    + rewrite H5. naive_solver.
    + rewrite elem_of_difference, elem_of_singleton, H5. split; [naive_solver|].
      intros [Hr|[Ho [Hn|Hn]]]; [|naive_solver|lia]. split; [by left|]. intros ->. by apply Hbx.
  - intros n Hr. rewrite Hown. intros [Ho _]. by apply (H6 n).
  - intros b1 b2 y1 y2 Hy1 Hy2 Hp Ey.
    assert (Hy : ∀ b0 y, bs' !! b0 = Some y → 0 ≤ base_fd_ y → ∃ y0, bodies w !! b0 = Some y0 ∧ base_fd_ y0 = base_fd_ y).
    { intros b0 y [[_ Hy]|[-> Hy]]%Hlk Hp'; [by exists y|]. subst base'. rewrite Hy in Hbase. cbn in Hbase.
      exists x. split; [done|]. destruct Hbase; [congruence|lia]. }
    destruct (Hy b1 y1) as (z1 & Hz1 & E1); [done|done|]. destruct (Hy b2 y2) as (z2 & Hz2 & E2); [done|lia|].
    apply (H7 b1 b2 z1 z2); [done|done|lia|congruence].
  - intros b' y [[Hne Hy]|[-> Hy]]%Hlk; [by apply (H8 b')|]. subst ox. apply Hox.
  - intros b' y d [[Hne Hy]|[-> Hy]]%Hlk; [by apply (H9 b')|]. subst drivers'. rewrite Hy in Hal. apply Hal.
  - intros d n b'. rewrite HT, H10. setoid_rewrite Hlk. subst base' drivers'. split.
    + intros [[Hne (y & Hy & R)]|(-> & En & Hd)]; [exists y; split; [by left|done]|].
      destruct ox as [y|]; [|inversion Hd]. exists y. split; [by right|done].
    + intros (y & [[Hne Hy]|[-> Hy]] & En & Hd); [left; split; [done|by exists y]|]. right. rewrite Hy. done.
  - done.
Qed.
End Put.

(** * The operations keep it *)

Definition same_drivers (w w' : heap) : Prop :=
  tables w' = tables w ∧ migrate_fd_close_ w' = migrate_fd_close_ w ∧ alive w' = alive w.

Definition forget (d : nat) (n : Z) (T : nat → table) : nat → table := <[d := delete n (T d)]> T.

Lemma forget_lookup d n T d' n' b : forget d n T d' !! n' = Some b ↔ ¬ (d' = d ∧ n' = n) ∧ T d' !! n' = Some b.
Proof.
  unfold forget. destruct (decide (d' = d)) as [->|Hne].
  - rewrite fn_lookup_insert, lookup_delete_Some. naive_solver.
  - rewrite fn_lookup_insert_ne by done. naive_solver.
Qed.

(** The tables after the body at [b] lost the listener [d]. *)
Lemma forget_tab cnt pend raw T w b x d n ds : inv cnt pend raw T w → bodies w !! b = Some x → base_fd_ x = n →
  drivers_ x ≡ₚ d :: ds →
  ∀ d' n' b', forget d n T d' !! n' = Some b' ↔ (b' ≠ b ∧ T d' !! n' = Some b') ∨ (b' = b ∧ n = n' ∧ d' ∈ ds).
Proof.
  intros H Hb En Hp d' n' b'. rewrite forget_lookup, !(i_tab _ _ _ _ _ H).
  pose proof (i_nodup _ _ _ _ _ H b x Hb) as Hnd. rewrite Hp in Hnd. apply NoDup_cons in Hnd as [Hnin Hnd].
  destruct (decide (b' = b)) as [->|Hne].
  - rewrite Hb. split.
    + intros (Hn & y & [= <-] & E & Hd). right. rewrite Hp, elem_of_cons in Hd. naive_solver.
    + intros [[? _]|(_ & <- & Hd)]; [done|]. split; [intros [-> _]; done|]. exists x. rewrite Hp, elem_of_cons. naive_solver.
  - assert (Hx : T d !! n = Some b) by (apply (i_tab _ _ _ _ _ H); exists x; rewrite Hp; set_solver). split.
    + intros [_ R]. by left.
    + intros [[_ R]|[? _]]; [|done]. split; [|done]. intros [-> ->]. apply (i_tab _ _ _ _ _ H) in R. congruence.
Qed.

Lemma state_base P x : body_state P x → drivers_ x ≠ [] → 0 ≤ base_fd_ x.
Proof. by intros []. Qed.

Lemma remove_ok cnt pend pend' raw T w d n b : inv cnt pend raw T w → T d !! n = Some b →
  (∀ q, q ∈ pend → q ∈ pend' ∨ q = (d, n)) →
  ∃ w', remove_listener d b w = Some w' ∧ inv cnt pend' raw (forget d n T) w' ∧ same_drivers w w'.
Proof.
  intros H Ht Hpend. pose proof (proj1 (i_tab _ _ _ _ _ H d n b) Ht) as (x & Hb & En & Hd).
  unfold remove_listener. rewrite Hb. cbn [mbind option_bind].
  destruct (index_in d (drivers_ x)) as [i|] eqn:Ei; [|by apply index_in_None in Ei].
  apply index_in_Some, swap_remove_perm in Ei. set (ds := swap_remove i (drivers_ x)) in *.
  pose proof (i_nodup _ _ _ _ _ H b x Hb) as Hnd. pose proof Hnd as Hnd'. rewrite Ei in Hnd'.
  apply NoDup_cons in Hnd' as [Hnin Hnds].
  pose proof (i_state _ _ _ _ _ H b x Hb) as Hst. pose proof (forget_tab _ _ _ _ _ b x d n ds H Hb En Ei) as HT.
  pose proof (i_cnt _ _ _ _ _ H b x Hb) as Hc. pose proof (i_small _ _ _ _ _ H b) as Hsm.
  assert (Hbase : 0 ≤ base_fd_ x) by (eapply state_base; [done|]; intros E; rewrite E in Hd; inversion Hd).
  assert (Hal : ∀ d', d' ∈ ds → d' ∈ alive w) by (intros d' Hd'; apply (i_alive _ _ _ _ _ H b x); [done|rewrite Ei; by right]).
  assert (Hoth : ∀ b' x' d', b' ≠ b → bodies w !! b' = Some x' → fd_ x' < 0 → d' ∈ drivers_ x' →
      told pend (migrate_fd_close_ w) d' (base_fd_ x') → told pend' (migrate_fd_close_ w) d' (base_fd_ x')).
  { intros b' x' d' Hne Hb' _ Hd' [Hq|Hq]; [by left|]. destruct (Hpend _ Hq) as [Hq'|[= -> E]]; [by right|].
    destruct Hne. symmetry. apply (i_once _ _ _ _ _ H b b' x x'); [done|done|done|congruence]. }
  destruct (bool_decide (ds = [])) eqn:Eds; cbn [negb]; cycle 1.
  - eexists. split; [done|]. split; [|done]. apply (inv_put cnt cnt pend pend' raw T _ w b x (Some _)); try done.
    + cbn. split; [|split; [done|done]]. destruct Hst as [m r l Hm Hr|m r l Hm Hr Hl Htold|r Hr]; cbn in *; [by apply B_open| |by destruct i].
      apply B_closing; [done|done|by apply bool_decide_eq_false in Eds|]. intros d' Hd'.
      destruct (Htold d' ltac:(rewrite Ei; by right)) as [Hq|Hq]; [by left|]. right.
      destruct (Hpend _ Hq) as [?|[= -> _]]; done.
    + by left.
    + intros d' n' b'. rewrite HT. cbn. by rewrite En.
  - apply bool_decide_eq_true in Eds. rewrite Eds in *. clear Hal.
    destruct Hst as [m r l Hm Hr|m r l Hm Hr Hl Htold|r Hr]; cbn [fd_ base_fd_ ref_ drivers_] in *; [| |lia].
    + rewrite (proj2 (Z.ltb_ge m 0)), (proj2 (Z.eqb_neq r 0)) by lia. cbn. eexists. split; [done|]. split; [|done].
      apply (inv_put cnt cnt pend pend' raw T _ w b _ (Some _) _ H Hb); try done.
      * cbn. split; [by apply B_open|]. split; [done|constructor].
      * by left.
      * intros d' Hd'. inversion Hd'.
      * intros d' n' b'. rewrite HT. cbn. by rewrite En.
    + change (-1 <? 0) with true. cbv iota zeta. unfold sys_close, set_body, set_bodies. cbn [os_open].
      rewrite !(proj2 (Z.leb_le 0 m)) by lia.
      rewrite decide_True by (apply (i_os _ _ _ _ _ H); right; by exists b, (FdBody (-1) m r l)).
      cbn [mbind option_bind bodies tables migrate_fd_close_ alive os_open]. destruct (r =? 0) eqn:Er.
      * unfold delete_body. cbn [bodies]. rewrite lookup_insert_eq. cbn [mbind option_bind base_fd_]. change (0 <=? -1) with false.
        cbv iota. eexists. split; [done|]. split; [|done]. unfold set_bodies. cbn [bodies tables migrate_fd_close_ alive os_open].
        rewrite delete_insert_eq.
        apply (inv_put cnt cnt pend pend' raw T _ w b _ None _ H Hb); try done; [lia|by right|intros d' Hd'; inversion Hd'|].
        intros d' n' b'. rewrite HT. set_solver.
      * eexists. split; [done|]. split; [|done].
        apply (inv_put cnt cnt pend pend' raw T _ w b _ (Some _) _ H Hb); try done.
        -- cbn. split; [apply B_closed; lia|]. split; [done|constructor].
        -- by right.
        -- intros d' Hd'. inversion Hd'.
        -- intros d' n' b'. rewrite HT. set_solver.
Qed.

(** ** Messages to drivers *)

Lemma notify_ok cnt pend pend' raw w d n : inv cnt pend raw (tables w) w → d ∈ alive w →
  (∀ q, q ∈ pend → q ∈ pend' ∨ q = (d, n)) →
  ∃ w', notify_close d n w = Some w' ∧ inv cnt pend' raw (tables w') w' ∧ alive w' = alive w ∧
    migrate_fd_close_ w' = migrate_fd_close_ w.
Proof.
  intros H Hd Hpend. unfold notify_close. rewrite bool_decide_eq_true_2 by done. cbn [negb].
  assert (Hskip : (∀ b x, tables w d !! n = Some b → bodies w !! b = Some x → 0 ≤ fd_ x) → inv cnt pend' raw (tables w) w).
  { intros Ho. pose proof (inv_queue cnt pend pend' raw (tables w) w (migrate_fd_close_ w) H) as HI.
    destruct w as [bs os ts q al]. apply HI; [|apply (i_quiet _ _ _ _ _ H)].
    intros b x d' Hb Hf Hd' Ht [Hq|Hq]; [by left|]. destruct (Hpend _ Hq) as [?|[= -> E]]; [by right|].
    subst n. specialize (Ho b x Ht Hb). lia. }
  destruct (tables w d !! n) as [b|] eqn:Et; [|exists w; split; [done|]; split; [by apply Hskip|done]].
  destruct (proj1 (i_tab _ _ _ _ _ H d n b) Et) as (x & Hb & En & Hx). rewrite Hb. cbn [mbind option_bind]. unfold fileno.
  destruct (0 <=? fd_ x) eqn:Ef.
  { exists w. split; [done|]. split; [|done]. apply Hskip. intros b' x' [= <-] Hb'. assert (x' = x) as -> by congruence. lia. }
  set (w0 := set_tables w _).
  assert (H0 : inv cnt pend raw (tables w) w0) by (destruct H; by split).
  destruct (remove_ok cnt pend pend' raw (tables w) w0 d n b H0 Et Hpend) as (w' & E & H' & (S1 & S2 & S3)).
  exists w'. rewrite S1. done.
Qed.

Lemma migrate_ok cnt pend pend' raw w d n : inv cnt pend raw (tables w) w → d ∈ alive w →
  (∀ q, q ∈ pend → q ∈ pend' ∨ q = (d, n)) →
  ∃ w', migrate_fd_close d n w = Some w' ∧ inv cnt pend' raw (tables w') w' ∧ alive w' = alive w.
Proof.
  intros H Hd Hpend. unfold migrate_fd_close. rewrite bool_decide_eq_true_2 by done. eexists. split; [done|]. split; [|done].
  apply (inv_queue cnt pend pend' raw (tables w) w _ H).
  - intros b x d' _ _ _ _ [Hq|Hq].
    + left. destruct (decide (d' = d)) as [->|Hne]; [rewrite fn_lookup_insert; set_solver|by rewrite fn_lookup_insert_ne].
    + destruct (Hpend _ Hq) as [?|[= -> ->]]; [by right|]. left. rewrite fn_lookup_insert. set_solver.
  - intros d' Hd'. rewrite fn_lookup_insert_ne by (intros ->; done). by apply (i_quiet _ _ _ _ _ H).
Qed.

Lemma tell_ok cnt raw cur n ds : ∀ w, inv cnt ((λ d, (d, n)) <$> ds) raw (tables w) w → (∀ d, d ∈ ds → d ∈ alive w) →
  ∃ w', tell_drivers cur n ds w = Some w' ∧ inv cnt [] raw (tables w') w' ∧ alive w' = alive w.
Proof.
  induction ds as [|d ds IH]; intros w H Hal; [by exists w|]. unfold tell_drivers. cbn [foldl mbind option_bind].
  assert (Hpend : ∀ q, q ∈ (λ d, (d, n)) <$> d :: ds → q ∈ (λ d, (d, n)) <$> ds ∨ q = (d, n)).
  { intros q. rewrite fmap_cons, elem_of_cons. tauto. }
  assert (Hd : ∃ w1, tell_driver cur n d w = Some w1 ∧ inv cnt ((λ d, (d, n)) <$> ds) raw (tables w1) w1 ∧ alive w1 = alive w).
  { unfold tell_driver. destruct (bool_decide _).
    - destruct (notify_ok cnt _ _ raw w d n H ltac:(apply Hal; by left) Hpend) as (w1 & ? & ? & ? & _). by exists w1.
    - apply (migrate_ok cnt _ _ raw w d n H); [apply Hal; by left|done]. }
  destruct Hd as (w1 & -> & H1 & A1). rewrite <-A1. apply IH; [done|]. rewrite A1. intros d' Hd'. apply Hal. by right.
Qed.

Lemma notify_all_ok cnt raw d l : ∀ w, inv cnt ((λ n, (d, n)) <$> l) raw (tables w) w → d ∈ alive w →
  ∃ w', foldl (λ o n, o ≫= notify_close d n) (Some w) l = Some w' ∧ inv cnt [] raw (tables w') w' ∧ alive w' = alive w ∧
    migrate_fd_close_ w' = migrate_fd_close_ w.
Proof.
  induction l as [|n l IH]; intros w H Hd; [by exists w|]. cbn [foldl mbind option_bind].
  destruct (notify_ok cnt _ ((λ n, (d, n)) <$> l) raw w d n H Hd) as (w1 & -> & H1 & A1 & Q1).
  { intros q. rewrite fmap_cons, elem_of_cons. tauto. }
  rewrite <-A1, <-Q1. apply IH; [done|by rewrite A1].
Qed.

Lemma finish_migrate_ok cnt raw w d : inv cnt [] raw (tables w) w → d ∈ alive w →
  ∃ w', finish_migrate d w = Some w' ∧ inv cnt [] raw (tables w') w' ∧ alive w' = alive w ∧
    migrate_fd_close_ w' = <[d := []]> (migrate_fd_close_ w).
Proof.
  intros H Hd. unfold finish_migrate. rewrite bool_decide_eq_true_2 by done. cbn [negb].
  apply (notify_all_ok cnt raw d _ (set_queue w d [])); [|done].
  apply (inv_queue cnt [] _ raw (tables w) w _ H).
  - intros b x d' _ _ _ _ [Hq|Hq]; [|inversion Hq]. destruct (decide (d' = d)) as [->|Hne].
    + right. apply list_elem_of_fmap. by exists (base_fd_ x).
    + left. by rewrite fn_lookup_insert_ne.
  - intros d' Hd'. rewrite fn_lookup_insert_ne by (intros ->; done). by apply (i_quiet _ _ _ _ _ H).
Qed.

(** ** Closing and counting *)

Lemma tab_same cnt pend raw T w b x : inv cnt pend raw T w → bodies w !! b = Some x →
  ∀ d n b', T d !! n = Some b' ↔ (b' ≠ b ∧ T d !! n = Some b') ∨ (b' = b ∧ base_fd_ x = n ∧ d ∈ drivers_ x).
Proof.
  intros H Hb d n b'. rewrite (i_tab _ _ _ _ _ H). destruct (decide (b' = b)) as [->|Hne]; [|tauto]. rewrite Hb. naive_solver.
Qed.

Lemma tab_unlistened cnt pend raw T w b x base : inv cnt pend raw T w → bodies w !! b = Some x → drivers_ x = [] →
  ∀ d n b', T d !! n = Some b' ↔ (b' ≠ b ∧ T d !! n = Some b') ∨ (b' = b ∧ base = n ∧ d ∈ @nil nat).
Proof.
  intros H Hb E d n b'. rewrite (tab_same cnt pend raw T w b x H Hb) at 1. rewrite E.
  split; (intros [?|(_ & _ & Hd)]; [by left|inversion Hd]).
Qed.

(** A body whose fields change, but not its descriptor or its listeners. *)
Lemma inv_fields cnt cnt' pend pend' raw w b x x' : inv cnt pend raw (tables w) w → bodies w !! b = Some x →
  (∀ b', b' ≠ b → cnt' b' = cnt b') → 0 ≤ cnt' b < two32 →
  base_fd_ x' = base_fd_ x → drivers_ x' = drivers_ x → ref_ x' = cnt' b →
  body_state (told pend' (migrate_fd_close_ w)) x' → (∀ q, q ∈ pend → q ∈ pend') →
  inv cnt' pend' raw (tables w) (set_body w b x').
Proof.
  intros H Hb Hc Hsm E1 E2 E3 Hst Hp.
  apply (inv_put cnt cnt' pend pend' raw (tables w) _ w b x (Some x') _ H Hb); try done; cbn.
  - split; [done|]. split; [done|]. rewrite E2. by apply (i_nodup _ _ _ _ _ H b).
  - left. done.
  - rewrite E2. intros d. by apply (i_alive _ _ _ _ _ H b).
  - rewrite E1, E2. by apply (tab_same cnt pend raw _ w b x).
  - intros b' y d _ _ _ _ [Hq|Hq]; [by left|right; by apply Hp].
Qed.

Lemma state_count cnt pend raw T w b x r : inv cnt pend raw T w → bodies w !! b = Some x → 0 ≤ r → (cnt b ≠ 0 → 0 < r) →
  body_state (told pend (migrate_fd_close_ w)) (FdBody (fd_ x) (base_fd_ x) r (drivers_ x)).
Proof.
  intros H Hb Hr Hr'. pose proof (i_cnt _ _ _ _ _ H b x Hb) as Hc.
  destruct (i_state _ _ _ _ _ H b x Hb) as [m r0 l Hm Hr0|m r0 l Hm Hr0 Hl Ht|r0 Hr0]; cbn in *;
    [apply B_open|apply B_closing|apply B_closed]; try done; apply Hr'; lia.
Qed.

Lemma ref_ok cnt raw w b : inv cnt [] raw (tables w) w → cnt b ≠ 0 → cnt b + 1 < two32 →
  ∃ w', ref b w = Some w' ∧ inv (<[b := cnt b + 1]> cnt) [] raw (tables w') w' ∧ alive w' = alive w.
Proof.
  intros H Hc Hs. destruct (i_live _ _ _ _ _ H b Hc) as [x Hb]. unfold ref. rewrite Hb. cbn [mbind option_bind].
  pose proof (i_cnt _ _ _ _ _ H b x Hb) as Er. pose proof (i_small _ _ _ _ _ H b) as Hsm.
  eexists. split; [done|]. split; [|done]. rewrite Er, u32_small by lia.
  apply (inv_fields cnt _ [] [] raw w b x); try done; rewrite ?fn_lookup_insert; try done; try lia.
  - intros b' Hne. by rewrite fn_lookup_insert_ne.
  - apply (state_count cnt [] raw (tables w) w b x _ H Hb); lia.
Qed.

Definition released (dr : bool) (b : nat) (cnt : nat → Z) : nat → Z := if dr then <[b := cnt b - 1]> cnt else cnt.

Lemma released_at dr b cnt : released dr b cnt b = if dr then cnt b - 1 else cnt b.
Proof. destruct dr; [apply fn_lookup_insert|done]. Qed.
Lemma released_ne dr b cnt b' : b' ≠ b → released dr b cnt b' = cnt b'.
Proof. intros Hne. destruct dr; [by apply fn_lookup_insert_ne|done]. Qed.

Lemma close_ok cnt raw cur w dr b : inv cnt [] raw (tables w) w → cnt b ≠ 0 → (dr = true → cnt b = 1) →
  ∃ w', close dr b cur w = Some w' ∧ inv (released dr b cnt) [] raw (tables w') w' ∧ alive w' = alive w.
Proof.
  intros H Hc H1. destruct (i_live _ _ _ _ _ H b Hc) as [x Hb]. unfold close. rewrite Hb. cbn [mbind option_bind].
  pose proof (i_cnt _ _ _ _ _ H b x Hb) as Er. pose proof (i_small _ _ _ _ _ H b) as Hsm.
  assert (Eref : (if dr then u32 (ref_ x - 1) else ref_ x) = released dr b cnt b).
  { rewrite released_at. destruct dr; [|done]. rewrite Er, u32_small by lia. done. }
  assert (Hrel : 0 ≤ released dr b cnt b < two32) by (rewrite released_at; destruct dr; lia).
  pose proof (released_ne dr b cnt) as Hne. pose proof (i_state _ _ _ _ _ H b x Hb) as Hst.
  destruct Hst as [m r l Hm Hr|m r l Hm Hr Hl Ht|r Hr]; cbn [fd_ base_fd_ ref_ drivers_] in *.
  - cbv zeta. rewrite !(proj2 (Z.leb_le 0 m)), !(proj2 (Z.ltb_ge m 0)) by lia. cbv iota. cbn [andb].
    rewrite Eref.
    destruct (bool_decide (l = [])) eqn:El.
    + apply bool_decide_eq_true in El as ->. rewrite !andb_true_r. unfold sys_close, set_body, set_bodies. cbn [os_open].
      rewrite decide_True by (apply (i_os _ _ _ _ _ H); right; by exists b, (FdBody m m r [])).
      cbn [mbind option_bind bodies tables migrate_fd_close_ alive os_open]. destruct dr.
      * unfold delete_body. cbn [bodies]. rewrite lookup_insert_eq. cbn [mbind option_bind base_fd_]. change (0 <=? -1) with false.
        cbv iota. eexists. split; [done|]. split; [|done]. unfold set_bodies. cbn [bodies tables migrate_fd_close_ alive os_open].
        rewrite delete_insert_eq.
        apply (inv_put cnt _ [] [] raw (tables w) _ w b _ None _ H Hb); try done;
          [rewrite released_at; lia|by right|intros d' Hd'; inversion Hd'|].
        by apply (tab_unlistened cnt [] raw (tables w) w b _ _ H Hb).
      * eexists. split; [done|]. split; [|done].
        apply (inv_put cnt _ [] [] raw (tables w) _ w b _ (Some _) _ H Hb); try done.
        -- cbn. split; [apply B_closed; cbn; lia|]. split; [done|constructor].
        -- by right.
        -- intros d' Hd'. inversion Hd'.
        -- by apply (tab_unlistened cnt [] raw (tables w) w b _ _ H Hb).
    + apply bool_decide_eq_false in El. rewrite !andb_false_r.
      set (w0 := set_body w b _).
      assert (H0 : inv (released dr b cnt) ((λ d, (d, m)) <$> l) raw (tables w0) w0).
      { apply (inv_fields cnt _ [] _ raw w b (FdBody m m r l)); try done; [|set_solver].
        apply B_closing; [done|lia|done|]. intros d Hd. right. apply list_elem_of_fmap. by exists d. }
      destruct (tell_ok _ raw cur m l w0 H0) as (w' & -> & H' & A'); [intros d Hd; by apply (i_alive _ _ _ _ _ H b _ d Hb)|].
      by exists w'.
  - cbv zeta. change (0 <=? -1) with false. cbv iota. change (-1 <? 0) with true. cbv iota. cbn [andb mbind option_bind]. rewrite Eref.
    rewrite (bool_decide_eq_false_2 (l = [])) by done. rewrite andb_false_r. eexists. split; [done|]. split; [|done].
    apply (inv_fields cnt _ [] [] raw w b (FdBody (-1) m r l)); try done. by apply B_closing; [done|lia|..].
  - cbv zeta. change (0 <=? -1) with false. cbv iota. change (-1 <? 0) with true. cbv iota. cbn [andb mbind option_bind]. rewrite Eref.
    rewrite (bool_decide_eq_true_2 (@nil nat = [])) by done. rewrite andb_true_r. destruct dr.
    + unfold delete_body, set_body, set_bodies. cbn [bodies]. rewrite lookup_insert_eq. cbn [mbind option_bind base_fd_].
      change (0 <=? -1) with false. cbv iota. eexists. split; [done|]. split; [|done].
      cbn [bodies tables migrate_fd_close_ alive os_open]. rewrite delete_insert_eq.
      apply (inv_put cnt _ [] [] raw (tables w) _ w b _ None _ H Hb); try done;
        [rewrite released_at; lia|by left|intros d' Hd'; inversion Hd'|].
      by apply (tab_unlistened cnt [] raw (tables w) w b _ _ H Hb).
    + eexists. split; [done|]. split; [|done].
      apply (inv_fields cnt _ [] [] raw w b (FdBody (-1) (-1) r [])); try done. apply B_closed. cbn. lia.
Qed.

Lemma deref_ok cnt raw cur w b : inv cnt [] raw (tables w) w → cnt b ≠ 0 →
  ∃ w', deref b cur w = Some w' ∧ inv (<[b := cnt b - 1]> cnt) [] raw (tables w') w' ∧ alive w' = alive w.
Proof.
  intros H Hc. destruct (i_live _ _ _ _ _ H b Hc) as [x Hb]. unfold deref. rewrite Hb. cbn [mbind option_bind].
  pose proof (i_cnt _ _ _ _ _ H b x Hb) as Er. pose proof (i_small _ _ _ _ _ H b) as Hsm.
  destruct (ref_ x =? 1) eqn:E1; [apply (close_ok cnt raw cur w true b H Hc); lia|].
  eexists. split; [done|]. split; [|done]. rewrite Er, u32_small by lia.
  apply (inv_fields cnt _ [] [] raw w b x); try done; rewrite ?fn_lookup_insert; try done; try lia.
  - intros b' Hne. by rewrite fn_lookup_insert_ne.
  - apply (state_count cnt [] raw (tables w) w b x _ H Hb); lia.
Qed.

(** ** Watching, and the end of a driver *)

(** A driver that watches an open body either has it already or has nothing at
    that descriptor: the forced removal in [own] is not needed. *)
Lemma own_only cnt pend raw T w b x d b' : inv cnt pend raw T w → bodies w !! b = Some x → 0 ≤ fileno x →
  T d !! fileno x = Some b' → b' = b.
Proof.
  intros H Hb Hf Ht. unfold fileno in *. apply (i_tab _ _ _ _ _ H) in Ht as (y & Hb' & Ey & Hd).
  destruct (i_state _ _ _ _ _ H b x Hb) as [m r l Hm Hr|m r l Hm Hr Hl Ht|r Hr]; cbn in *; [|lia|lia].
  symmetry. apply (i_once _ _ _ _ _ H b b' _ y Hb Hb'); [done|by rewrite Ey].
Qed.

Lemma watch_ok cnt raw w d b : inv cnt [] raw (tables w) w → d ∈ alive w → cnt b ≠ 0 →
  ∃ w', watch_fd d b w = Some w' ∧ inv cnt [] raw (tables w') w' ∧ alive w' = alive w.
Proof.
  intros H Hd Hc. destruct (i_live _ _ _ _ _ H b Hc) as [x Hb]. unfold watch_fd. rewrite bool_decide_eq_true_2 by done.
  cbn [negb]. rewrite Hb. cbn [mbind option_bind]. destruct (fileno x <? 0) eqn:Ef; [by exists w|]. unfold own.
  destruct (bool_decide _) eqn:Eb; [by exists w|]. apply bool_decide_eq_false in Eb.
  destruct (tables w d !! fileno x) as [b'|] eqn:Et.
  { destruct Eb. by rewrite (own_only cnt [] raw (tables w) w b x d b' H Hb ltac:(lia) Et). }
  unfold add_listener. cbn [mbind option_bind bodies set_tables]. rewrite Hb. cbn [mbind option_bind].
  unfold fileno in *. pose proof (i_state _ _ _ _ _ H b x Hb) as Hst. pose proof (i_cnt _ _ _ _ _ H b x Hb) as Er.
  destruct Hst as [m r l Hm Hr|m r l Hm Hr Hl Ht|r Hr]; cbn [fd_ base_fd_ ref_ drivers_] in *; [|lia|lia].
  assert (Hnd : d ∉ l).
  { intros Hdl. assert (Ht : tables w d !! m = Some b); [|congruence].
    apply (i_tab _ _ _ _ _ H). by exists (FdBody m m r l). }
  eexists. split; [done|]. split; [|done]. set (T' := <[d := _]> (tables w)).
  assert (H0 : inv cnt [] raw (tables w) (set_tables w T')) by (destruct H; by split).
  apply (inv_put cnt cnt [] [] raw (tables w) T' (set_tables w T') b _
           (Some (FdBody m m r (l ++ [d]))) (os_open w) H0 Hb); try done.
  - by apply (i_small _ _ _ _ _ H).
  - cbn. split; [by apply B_open|]. split; [done|]. apply NoDup_app. split; [by apply (i_nodup _ _ _ _ _ H b _ Hb)|].
    split; [intros d' ? ->%list_elem_of_singleton; done|apply NoDup_singleton].
  - by left.
  - cbn. intros d' [Hd'| ->%list_elem_of_singleton]%elem_of_app; [by apply (i_alive _ _ _ _ _ H b _ d' Hb)|done].
  - cbn. intros d' n b'. rewrite elem_of_app, list_elem_of_singleton.
    pose proof (tab_same cnt [] raw _ w b _ H Hb d' n b') as Hts. cbn in Hts.
    unfold T'. destruct (decide (d' = d)) as [->|Hne].
    + rewrite fn_lookup_insert, lookup_insert_Some. split.
      * intros [[<- <-]|[Hn Hx]]; [by right; split; [|split; [|right]]|]. apply Hts in Hx. naive_solver.
      * intros [[Hne Hx]|(-> & <- & _)]; [|by left]. right. split; [intros <-; congruence|done].
    + rewrite fn_lookup_insert_ne by done. split; [intros Hx; apply Hts in Hx; naive_solver|].
      intros [[Hne' Hx]|(-> & <- & [Hd'|Hd'])]; [done| |done]. apply Hts. by right.
Qed.

Lemma deref_list_ok cnt raw d l : ∀ T w, inv cnt [] raw T w → NoDup l.*1 → (∀ p, p ∈ l → T d !! p.1 = Some p.2) →
  ∃ w' T', foldl (λ o p, o ≫= remove_listener d p.2) (Some w) l = Some w' ∧ inv cnt [] raw T' w' ∧ same_drivers w w' ∧
    (∀ n, n ∈ l.*1 → T' d !! n = None) ∧ (∀ n, n ∉ l.*1 → T' d !! n = T d !! n) ∧ ∀ d', d' ≠ d → T' d' = T d'.
Proof.
  induction l as [|[n b] l IH]; intros T w H Hnd Hl.
  { exists w, T. repeat (split; [done|]). split; [intros n Hn; inversion Hn|done]. }
  cbn [fmap list_fmap fst] in Hnd. apply NoDup_cons in Hnd as [Hn Hnd]. cbn [foldl mbind option_bind snd].
  destruct (remove_ok cnt [] [] raw T w d n b H) as (w1 & -> & H1 & (S1 & S2 & S3)); [by apply (Hl (n, b)); left|tauto|].
  destruct (IH (forget d n T) w1 H1 Hnd) as (w' & T' & E & H' & (S1' & S2' & S3') & N1 & N2 & N3).
  { intros p Hp. unfold forget. rewrite fn_lookup_insert, lookup_delete_ne; [apply Hl; by right|].
    intros ->. apply Hn. by apply list_elem_of_fmap_2. }
  exists w', T'. split; [done|]. split; [done|]. split; [unfold same_drivers in *; by rewrite S1', S2', S3'|].
  cbn [fmap list_fmap fst]. split; [|split].
  - intros m [->|Hm]%elem_of_cons; [|by apply N1]. rewrite N2 by done. unfold forget.
    by rewrite fn_lookup_insert, lookup_delete_eq.
  - intros m Hm. apply not_elem_of_cons in Hm as [Hne Hm]. rewrite N2 by done. unfold forget.
    by rewrite fn_lookup_insert, lookup_delete_ne.
  - intros d' Hne. rewrite N3 by done. unfold forget. by rewrite fn_lookup_insert_ne.
Qed.

Lemma driver_destroyed_ok cnt raw w d : inv cnt [] raw (tables w) w → d ∈ alive w →
  ∃ w', destroy_driver d w = Some w' ∧ inv cnt [] raw (tables w') w' ∧ alive w' = alive w ∖ {[d]}.
Proof.
  intros H Hd. unfold destroy_driver, deref_all. rewrite bool_decide_eq_true_2 by done. cbn [negb].
  destruct (deref_list_ok cnt raw d (map_to_list (tables w d)) (tables w) w H) as (w1 & T' & -> & H1 & (S1 & S2 & S3) & N1 & N2 & N3).
  { apply NoDup_fst_map_to_list. }
  { intros [n b] Hp. by apply elem_of_map_to_list in Hp. }
  cbn [mbind option_bind]. eexists. split; [done|]. cbn [alive tables]. rewrite S1, S3. split; [|done].
  assert (HT : ∀ d', <[d := ∅]> (tables w) d' = T' d').
  { intros d'. destruct (decide (d' = d)) as [->|Hne]; [|rewrite fn_lookup_insert_ne by done; symmetry; by apply N3].
    rewrite fn_lookup_insert. symmetry. apply map_empty. intros n.
    destruct (decide (n ∈ (map_to_list (tables w d)).*1)) as [Hn|Hn]; [by apply N1|]. rewrite N2 by done.
    destruct (tables w d !! n) as [b|] eqn:E; [|done]. destruct Hn. apply elem_of_map_to_list in E.
    by apply (list_elem_of_fmap_2 fst) in E. }
  apply (inv_ext cnt cnt [] raw T'); [|done|done].
  pose proof H1 as [K1 K2 K3 K4 K5 K6 K7 K8 K9 K10 K11]. split; try done; cbn [bodies migrate_fd_close_ alive].
  - intros b x Hb. eapply state_mono; [by apply (K1 b)|]. intros d' _ Hd'.
    assert (Ht : T' d' !! base_fd_ x = Some b) by (apply K10; by exists x). rewrite <-HT in Ht.
    destruct (decide (d' = d)) as [->|Hne]; [by rewrite fn_lookup_insert in Ht|]. intros [Hq|Hq]; [|inversion Hq].
    left. by rewrite fn_lookup_insert_ne.
  - intros b x d' Hb Hd'. assert (Ht : T' d' !! base_fd_ x = Some b) by (apply K10; by exists x). rewrite <-HT in Ht.
    apply elem_of_difference. split; [rewrite <-S3; by apply (K9 b x)|]. rewrite elem_of_singleton. intros ->.
    by rewrite fn_lookup_insert in Ht.
  - intros d' Hd'. destruct (decide (d' = d)) as [->|Hne]; [by rewrite fn_lookup_insert|]. rewrite fn_lookup_insert_ne by done.
    apply K11. rewrite S3. set_solver.
Qed.

(** * The program *)

Definition p_ok (raw : gset Z) (p : program) : Prop := inv (count (fds p)) [] raw (tables (hp p)) (hp p).

(** ** What does not change

    Nothing opens a descriptor, and but for the bodies in [X] every body keeps
    its [fd_]. *)

Definition frame (X : gset nat) (w w' : heap) : Prop :=
  os_open w' ⊆ os_open w ∧
  ∀ b x', b ∉ X → bodies w' !! b = Some x' → ∃ x, bodies w !! b = Some x ∧ fd_ x' = fd_ x.

#[export] Instance frame_preorder X : PreOrder (frame X).
Proof.
  split.
  - intros w. split; [done|]. intros b x' _ Hb. by exists x'.
  - intros w1 w2 w3 [O1 F1] [O2 F2]. split; [set_solver|]. intros b x' HX Hb.
    destruct (F2 b x' HX Hb) as (x & Hx & ->). by apply F1.
Qed.

Lemma frame_os X w w' : frame X w w' → os_open w' ⊆ os_open w.
Proof. by intros []. Qed.

Lemma frame_put X w b x x' os T q al : bodies w !! b = Some x → b ∈ X ∨ fd_ x' = fd_ x → os ⊆ os_open w →
  frame X w (Heap (<[b := x']> (bodies w)) os T q al).
Proof.
  intros Hb Hx Hos. split; [done|]. cbn. intros b' y HX [[<- <-]|[Hne Hy]]%lookup_insert_Some; [|by exists y].
  exists x. destruct Hx; [done|done].
Qed.

Lemma frame_same X w os T q al : os ⊆ os_open w → frame X w (Heap (bodies w) os T q al).
Proof. intros Hos. split; [done|]. intros b y _ Hy. by exists y. Qed.

Lemma frame_sys_close X n w w' : sys_close n w = Some w' → frame X w w'.
Proof. unfold sys_close. destruct (decide _); [|done]. intros [= <-]. apply frame_same. set_solver. Qed.

Lemma frame_delete X b w w' : delete_body b w = Some w' → frame X w w'.
Proof.
  unfold delete_body. intros (x & Hb & H)%bind_Some.
  assert (Hd : frame X w (set_bodies w (delete b (bodies w)))).
  { split; [done|]. cbn. intros b' y _ [_ Hy]%lookup_delete_Some. by exists y. }
  destruct (0 <=? base_fd_ x); [|by injection H as <-]. etrans; [exact Hd|by eapply frame_sys_close].
Qed.

Lemma frame_remove X d b w w' : remove_listener d b w = Some w' → frame X w w'.
Proof.
  unfold remove_listener. intros (x & Hb & H)%bind_Some. revert H. set (ds := match index_in _ _ with Some _ => _ | None => _ end).
  destruct (negb _); [intros [= <-]; by apply (frame_put X w b x); [|right|]|].
  set (w1 := set_body w b _). intros (w2 & H2 & H)%bind_Some.
  assert (F1 : frame X w w1) by (by apply (frame_put X w b x); [|right|]).
  assert (F2 : frame X w1 w2) by (destruct (0 <=? _); [by eapply frame_sys_close|by injection H2 as <-]).
  etrans; [exact F1|]. etrans; [exact F2|]. destruct (ref_ x =? 0); [by eapply frame_delete|by injection H as <-].
Qed.

Lemma frame_notify X d n w w' : notify_close d n w = Some w' → frame X w w'.
Proof.
  unfold notify_close. destruct (negb _); [done|]. destruct (tables w d !! n) as [b|]; [|by intros [= <-]].
  intros (x & Hb & H)%bind_Some. destruct (0 <=? fileno x); [by injection H as <-|].
  apply (frame_remove X) in H. etrans; [|exact H]. by apply frame_same.
Qed.

Lemma frame_fold {A} X (f : A → heap → option heap) l : (∀ a w w', f a w = Some w' → frame X w w') →
  ∀ w w', foldl (λ o a, o ≫= f a) (Some w) l = Some w' → frame X w w'.
Proof.
  intros Hf. induction l as [|a l IH]; cbn [foldl]; intros w w' H; [by injection H as <-|]. cbn [mbind option_bind] in H.
  destruct (f a w) as [w1|] eqn:E; [etrans; [by eapply Hf|by apply IH]|].
  exfalso. revert H. clear. induction l; [done|cbn; done].
Qed.

Lemma frame_tell X cur n ds w w' : tell_drivers cur n ds w = Some w' → frame X w w'.
Proof.
  apply frame_fold. intros d w1 w2. unfold tell_driver. destruct (bool_decide _); [apply frame_notify|].
  unfold migrate_fd_close. destruct (negb _); [done|]. intros [= <-]. by apply frame_same.
Qed.

Lemma frame_close dr b cur w w' : close dr b cur w = Some w' → frame {[b]} w w'.
Proof.
  unfold close. intros (x & Hb & H)%bind_Some. revert H. set (w1 := set_body w b _). intros (w2 & H2 & H)%bind_Some.
  assert (F1 : frame {[b]} w w1) by (apply (frame_put {[b]} w b x); [done|left; set_solver|done]).
  etrans; [exact F1|]. transitivity w2.
  - revert H2. destruct (_ <? 0); [by intros [= <-]|]. destruct (bool_decide _); [apply frame_sys_close|apply frame_tell].
  - revert H. destruct (dr && _); [apply frame_delete|by intros [= <-]].
Qed.

Lemma frame_deref b cur w w' x : deref b cur w = Some w' → bodies w !! b = Some x →
  frame (if ref_ x =? 1 then {[b]} else ∅) w w'.
Proof.
  unfold deref. intros H Hb. rewrite Hb in H. cbn [mbind option_bind] in H.
  destruct (ref_ x =? 1); [by eapply frame_close|]. injection H as <-. by apply (frame_put ∅ w b x); [|right|].
Qed.

Lemma frame_ref X b w w' : ref b w = Some w' → frame X w w'.
Proof. unfold ref. intros (x & Hb & [= <-])%bind_Some. by apply (frame_put X w b x); [|right|]. Qed.

Lemma frame_watch X d b w w' : watch_fd d b w = Some w' → frame X w w'.
Proof.
  unfold watch_fd. destruct (negb _); [done|]. intros (x & Hb & H)%bind_Some. destruct (fileno x <? 0); [by injection H as <-|].
  unfold own in H. destruct (bool_decide _); [by injection H as <-|]. apply bind_Some in H as (w1 & H1 & H).
  transitivity w1.
  - destruct (tables w d !! _) as [b'|]; [|by injection H1 as <-]. apply bind_Some in H1 as (y & Hy & H1).
    destruct (0 <=? fileno y); [done|by eapply frame_remove].
  - unfold add_listener in H. apply bind_Some in H as (y & Hy & [= <-]). by apply (frame_put X w1 b y); [|right|].
Qed.

Lemma frame_migrate X d w w' : finish_migrate d w = Some w' → frame X w w'.
Proof.
  unfold finish_migrate. destruct (negb _); [done|]. intros H. transitivity (set_queue w d []); [by apply frame_same|].
  revert H. apply frame_fold. intros n w1 w2. apply frame_notify.
Qed.

Lemma frame_destroy X d w w' : destroy_driver d w = Some w' → frame X w w'.
Proof.
  unfold destroy_driver. destruct (negb _); [done|]. intros (w1 & H & [= <-])%bind_Some. transitivity w1; [|by apply frame_same].
  revert H. apply (frame_fold X (λ p, remove_listener d p.2)). intros p w2 w3. apply frame_remove.
Qed.

(** ** Steps *)

Lemma u_small cnt pend raw T w b : inv cnt pend raw T w → 0 ≤ cnt b < two32.
Proof. intros H. apply (i_small _ _ _ _ _ H). Qed.

(** The outcome of a step on the heap, with the handles counted by [cnt]. *)
Definition steps (cnt : nat → Z) (raw : gset Z) (w w' : heap) : Prop :=
  inv cnt [] raw (tables w') w' ∧ alive w' = alive w.

Lemma ref_opt_ok cnt raw w o : inv cnt [] raw (tables w) w →
  (∀ b, o = Some b → cnt b ≠ 0 ∧ cnt b + 1 < two32) →
  ∃ w', ref_opt o w = Some w' ∧ steps (λ b, cnt b + one o b) raw w w'.
Proof.
  intros H Ho. destruct o as [b|]; cbn.
  - destruct (Ho b eq_refl) as [Hc Hs]. destruct (ref_ok cnt raw w b H Hc Hs) as (w' & E & H' & A). exists w'. split; [done|].
    split; [|done]. apply (inv_ext _ _ _ _ _ _ _ H'); [|done]. intros b'. unfold one.
    destruct (decide (b' = b)) as [->|Hne]; [rewrite fn_lookup_insert, decide_True by done; lia|].
    rewrite fn_lookup_insert_ne, decide_False by congruence. lia.
  - exists w. split; [done|]. split; [|done]. apply (inv_ext _ _ _ _ _ _ _ H); [|done]. intros b'. rewrite one_None. lia.
Qed.

Lemma deref_opt_ok cnt raw cur w o : inv cnt [] raw (tables w) w → (∀ b, o = Some b → cnt b ≠ 0) →
  ∃ w', deref_opt o cur w = Some w' ∧ steps (λ b, cnt b - one o b) raw w w' ∧
    ∀ b x', cnt b - one o b ≠ 0 → bodies w' !! b = Some x' → ∃ x, bodies w !! b = Some x ∧ fd_ x' = fd_ x.
Proof.
  intros H Ho. destruct o as [b|]; cbn.
  - specialize (Ho b eq_refl). destruct (deref_ok cnt raw cur w b H Ho) as (w' & E & H' & A). exists w'. split; [done|].
    split; [split; [|done]|].
    + apply (inv_ext _ _ _ _ _ _ _ H'); [|done]. intros b'. unfold one.
      destruct (decide (b' = b)) as [->|Hne]; [by rewrite fn_lookup_insert, decide_True|].
      rewrite fn_lookup_insert_ne, decide_False by congruence. lia.
    + destruct (i_live _ _ _ _ _ H b Ho) as [x Hb]. pose proof (frame_deref b cur w w' x E Hb) as [_ F].
      pose proof (i_cnt _ _ _ _ _ H b x Hb) as Er. intros b' x' Hc Hb'. apply F; [|done]. destruct (ref_ x =? 1) eqn:E1; [|done].
      intros ->%elem_of_singleton. apply Hc. unfold one. rewrite decide_True by done. lia.
  - exists w. split; [done|]. split; [split; [|done]|].
    + apply (inv_ext _ _ _ _ _ _ _ H); [|done]. intros b'. rewrite one_None. lia.
    + intros b x' _ Hb. by exists x'.
Qed.

(** What the program and the system may do, and when. *)
Inductive action :=
  | A_new (h : nat) (n : Z)
  | A_copy (h x : nat)
  | A_move (h x : nat)
  | A_copy_assign (h x : nat)
  | A_move_assign (h x : nat)
  | A_destroy (h : nat)
  | A_close (h : nat)
  | A_watch (d h : nat)
  | A_migrate (d : nat)
  | A_driver (d : nat)
  | A_end (d : nat)
  | A_os_open (n : Z)
  | A_os_close (n : Z).

Definition with_heap (p : program) (o : option heap) : option program := w ← o; Some (Program (fds p) w).

Definition run (cur : option nat) (a : action) (p : program) : option program :=
  match a with
  | A_new h n => fd_new h n p
  | A_copy h x => fd_copy h x p
  | A_move h x => fd_move h x p
  | A_copy_assign h x => fd_copy_assign h x cur p
  | A_move_assign h x => fd_move_assign h x cur p
  | A_destroy h => fd_destroy h cur p
  | A_close h => fd_close h cur p
  | A_watch d h => fd_watch d h p
  | A_migrate d => with_heap p (finish_migrate d (hp p))
  | A_driver d =>
      let w := hp p in
      Some (Program (fds p) (Heap (bodies w) (os_open w) (tables w) (migrate_fd_close_ w) ({[d]} ∪ alive w)))
  | A_end d => with_heap p (destroy_driver d (hp p))
  | A_os_open n =>
      let w := hp p in
      Some (Program (fds p) (Heap (bodies w) ({[n]} ∪ os_open w) (tables w) (migrate_fd_close_ w) (alive w)))
  | A_os_close n => with_heap p (sys_close n (hp p))
  end.

(** Objects are made at free addresses and used while they exist; an open
    descriptor gets one body; the program closes by itself only descriptors
    without one.  There are fewer than [2^32 - 1] handles. *)
Definition legal (p : program) (a : action) : Prop :=
  let w := hp p in
  Z.of_nat (base.size (fds p)) + 1 < two32 ∧
  match a with
  | A_new h n => fds p !! h = None ∧ (0 ≤ n → n ∈ os_open w ∧ ¬ owned (bodies w) n)
  | A_copy h x | A_move h x => fds p !! h = None ∧ is_Some (fds p !! x)
  | A_copy_assign h x | A_move_assign h x => is_Some (fds p !! h) ∧ is_Some (fds p !! x)
  | A_destroy h | A_close h => is_Some (fds p !! h)
  | A_watch d h => d ∈ alive w ∧ is_Some (fds p !! h)
  | A_migrate d | A_end d => d ∈ alive w
  | A_driver d => d ∉ alive w
  | A_os_open n => n ∉ os_open w
  | A_os_close n => n ∈ os_open w ∧ ¬ owned (bodies w) n
  end.

(** The handle that an action closes. *)
Definition closes (p : program) (a : action) (b : nat) : Prop :=
  match a with A_close h => fds p !! h = Some (Some b) | _ => False end.

(** Bodies with a handle stay open unless they are closed. *)
Definition kept (p : program) (a : action) (p' : program) : Prop :=
  ∀ b x', count (fds p') b ≠ 0 → count (fds p) b ≠ 0 → ¬ closes p a b → bodies (hp p') !! b = Some x' →
    ∃ x, bodies (hp p) !! b = Some x ∧ fd_ x' = fd_ x.

Lemma frame_kept X p a hs w : frame X (hp p) w → (∀ b, b ∈ X → closes p a b) → kept p a (Program hs w).
Proof. intros [_ F] HX b x' _ _ Hc Hb. apply F; [|done]. intros HbX. by apply Hc, HX. Qed.

Lemma handle_counted p h b : fds p !! h = Some (Some b) → count (fds p) b ≠ 0.
Proof. intros Hh. apply count_pos. by exists h. Qed.

(** One handle gets the value [o'], for the value [o] it had. *)
Lemma new_ok p raw h n : p_ok raw p → legal p (A_new h n) →
  ∃ raw' p', fd_new h n p = Some p' ∧ p_ok raw' p' ∧ kept p (A_new h n) p'.
Proof.
  intros H (Hsz & Hh & Hn). unfold fd_new. destruct (0 <=? n) eqn:En.
  - assert (Hpos : 0 ≤ n) by lia. destruct (Hn Hpos) as [Hos Hown]. set (b := fresh _).
    assert (Hb : bodies (hp p) !! b = None) by (apply not_elem_of_dom; apply is_fresh).
    assert (Hc0 : count (fds p) b = 0).
    { destruct (decide (count (fds p) b = 0)) as [|Hc]; [done|]. destruct (i_live _ _ _ _ _ H b Hc) as [x Hx]. congruence. }
    exists (raw ∖ {[n]}). eexists. split; [done|]. split.
    + unfold p_ok. cbn [fds hp].
      assert (Hcnt : ∀ b', count (<[h := Some b]> (fds p)) b' = if decide (b' = b) then 1 else count (fds p) b').
      { intros b'. rewrite count_new by done. unfold one. destruct (decide (b' = b)) as [->|Hne].
        - rewrite decide_True by done. lia.
        - rewrite decide_False by congruence. lia. }
      pose proof H as [K1 K2 K3 K4 K5 K6 K7 K8 K9 K10 K11]. unfold set_body, set_bodies. cbn.
      assert (Hown' : ∀ m, owned (<[b := new_fd_body n]> (bodies (hp p))) m ↔ m = n ∨ owned (bodies (hp p)) m).
      { intros m. unfold owned. split.
        - intros (b' & x & [[<- <-]|[Hne Hx]]%lookup_insert_Some & Em & Hm); [by left|right; by exists b', x].
        - intros [->|(b' & x & Hx & Em & Hm)]; [exists b, (new_fd_body n); by rewrite lookup_insert_eq|].
          exists b', x. split; [|done]. rewrite lookup_insert_ne; [done|]. intros ->. congruence. }
      split; cbn.
      * intros b' x [[<- <-]|[Hne Hx]]%lookup_insert_Some; [by apply B_open|by apply (K1 b')].
      * intros b' x [[<- <-]|[Hne Hx]]%lookup_insert_Some; rewrite Hcnt; [by rewrite decide_True|].
        rewrite decide_False by done. by apply K2.
      * intros b'. rewrite Hcnt. destruct (decide (b' = b)) as [->|Hne]; [by rewrite lookup_insert_eq|].
        rewrite lookup_insert_ne by done. apply K3.
      * intros b'. rewrite Hcnt. destruct (decide _); [unfold two32; lia|apply K4].
      * intros m. rewrite Hown', K5. destruct (decide (m = n)) as [->|Hne]; [|set_solver].
        split; [by right; left|]. intros _. by apply K5.
      * intros m. rewrite Hown'. intros [Hm Hmn]%elem_of_difference [->|Ho]; [set_solver|by apply (K6 m)].
      * intros b1 b2 x1 x2 [[<- <-]|[Hne1 Hx1]]%lookup_insert_Some [[<- <-]|[Hne2 Hx2]]%lookup_insert_Some Hp E; cbn in *.
        -- done.
        -- exfalso. apply Hown. exists b2, x2. split; [done|split; [by rewrite E|done]].
        -- exfalso. apply Hown. exists b1, x1. split; [done|split; [done|lia]].
        -- by apply (K7 b1 b2 x1 x2).
      * intros b' x [[<- <-]|[Hne Hx]]%lookup_insert_Some; [constructor|by apply (K8 b')].
      * intros b' x d [[<- <-]|[Hne Hx]]%lookup_insert_Some Hd; [inversion Hd|by apply (K9 b' x)].
      * intros d m b'. rewrite K10. split; intros (x & Hx & Em & Hd).
        -- exists x. split; [|done]. rewrite lookup_insert_ne; [done|]. intros ->. congruence.
        -- apply lookup_insert_Some in Hx as [[<- <-]|[Hne Hx]]; [inversion Hd|by exists x].
      * done.
    + intros b' x' _ Hc _. cbn. intros [[<- <-]|[Hne Hx]]%lookup_insert_Some; [done|by exists x'].
  - exists raw. eexists. split; [done|]. split; [|intros b x' _ _ _ Hb; by exists x'].
    apply (inv_ext _ _ _ _ _ _ _ H); [|done]. intros b. cbn [fds]. rewrite count_new, one_None by done. lia.
Qed.

Lemma copy_ok p raw h x : p_ok raw p → legal p (A_copy h x) →
  ∃ p', fd_copy h x p = Some p' ∧ p_ok raw p' ∧ kept p (A_copy h x) p'.
Proof.
  intros H (Hsz & Hh & [o Ho]). unfold fd_copy. rewrite Ho. cbn [mbind option_bind].
  destruct (ref_opt_ok _ raw (hp p) o H) as (w' & E & H' & A).
  { intros b ->. pose proof (count_bound (fds p) b). split; [by eapply handle_counted|lia]. }
  rewrite E. eexists. split; [done|]. split.
  - apply (inv_ext _ _ _ _ _ _ _ H'); [|done]. intros b. cbn [fds]. by rewrite count_new.
  - apply (frame_kept ∅); [|set_solver]. destruct o; [by eapply frame_ref|by injection E as <-].
Qed.

Lemma move_ok p raw h x : p_ok raw p → legal p (A_move h x) →
  ∃ p', fd_move h x p = Some p' ∧ p_ok raw p' ∧ kept p (A_move h x) p'.
Proof.
  intros H (Hsz & Hh & [o Ho]). unfold fd_move. rewrite Ho. cbn [mbind option_bind]. eexists. split; [done|].
  assert (Hne : h ≠ x) by congruence. split.
  - apply (inv_ext _ _ _ _ _ _ _ H); [|done]. intros b. cbn [fds].
    rewrite count_new by (by rewrite lookup_insert_ne). rewrite (count_set _ _ o), one_None by done. lia.
  - apply (frame_kept ∅); [done|set_solver].
Qed.

Lemma copy_assign_ok p raw cur h x : p_ok raw p → legal p (A_copy_assign h x) →
  ∃ p', fd_copy_assign h x cur p = Some p' ∧ p_ok raw p' ∧ kept p (A_copy_assign h x) p'.
Proof.
  intros H (Hsz & [o Ho] & [o' Ho']). unfold fd_copy_assign. rewrite Ho, Ho'. cbn [mbind option_bind].
  destruct (bool_decide (o = o')) eqn:Eo.
  { exists p. split; [done|]. split; [done|]. intros b y _ _ _ Hb. by exists y. }
  destruct (ref_opt_ok _ raw (hp p) o' H) as (w1 & E1 & H1 & A1).
  { intros b ->. pose proof (count_bound (fds p) b). split; [by eapply handle_counted|lia]. }
  destruct (deref_opt_ok _ raw cur w1 o H1) as (w2 & E2 & [H2 A2] & F2).
  { intros b ->. pose proof (handle_counted p h b Ho). pose proof (count_bound (fds p) b). destruct (one_cases o' b); lia. }
  assert (Hcnt : ∀ b, count (<[h := o']> (fds p)) b = count (fds p) b + one o' b - one o b).
  { intros b. rewrite (count_set _ _ o) by done. lia. }
  rewrite E1. cbn [mbind option_bind]. rewrite E2. eexists. split; [done|]. split; [by apply (inv_ext _ _ _ _ _ _ _ H2)|].
  intros b y Hc _ _ Hb. cbn [fds hp] in *. rewrite Hcnt in Hc. destruct (F2 b y Hc Hb) as (y1 & Hy1 & ->).
  assert (F1 : frame ∅ (hp p) w1) by (destruct o'; [by eapply frame_ref|by injection E1 as <-]).
  apply (proj2 F1 b y1); [set_solver|done].
Qed.

Lemma move_assign_ok p raw cur h x : p_ok raw p → legal p (A_move_assign h x) →
  ∃ p', fd_move_assign h x cur p = Some p' ∧ p_ok raw p' ∧ kept p (A_move_assign h x) p'.
Proof.
  intros H (Hsz & [o Ho] & [o' Ho']). unfold fd_move_assign. rewrite Ho, Ho'. cbn [mbind option_bind].
  destruct (bool_decide (h = x)) eqn:Eh.
  { exists p. split; [done|]. split; [done|]. intros b y _ _ _ Hb. by exists y. }
  apply bool_decide_eq_false in Eh. destruct (deref_opt_ok _ raw cur (hp p) o H) as (w2 & E2 & [H2 A2] & F2).
  { intros b ->. by eapply handle_counted. }
  assert (Hcnt : ∀ b, count (<[h := o']> (<[x := None]> (fds p))) b = count (fds p) b - one o b).
  { intros b. rewrite (count_set _ _ o) by (by rewrite lookup_insert_ne). rewrite (count_set _ _ o'), one_None by done. lia. }
  rewrite E2. eexists. split; [done|]. split; [by apply (inv_ext _ _ _ _ _ _ _ H2)|].
  intros b y Hc _ _ Hb. cbn [fds hp] in *. rewrite Hcnt in Hc. by apply F2.
Qed.

Lemma fd_destroy_ok p raw cur h : p_ok raw p → legal p (A_destroy h) →
  ∃ p', fd_destroy h cur p = Some p' ∧ p_ok raw p' ∧ kept p (A_destroy h) p'.
Proof.
  intros H (Hsz & [o Ho]). unfold fd_destroy. rewrite Ho. cbn [mbind option_bind].
  destruct (deref_opt_ok _ raw cur (hp p) o H) as (w2 & E2 & [H2 A2] & F2).
  { intros b ->. by eapply handle_counted. }
  assert (Hcnt : ∀ b, count (delete h (fds p)) b = count (fds p) b - one o b) by (intros b; by apply count_delete).
  rewrite E2. eexists. split; [done|]. split; [by apply (inv_ext _ _ _ _ _ _ _ H2)|].
  intros b y Hc _ _ Hb. cbn [fds hp] in *. rewrite Hcnt in Hc. by apply F2.
Qed.

Lemma fd_close_ok p raw cur h : p_ok raw p → legal p (A_close h) →
  ∃ p', fd_close h cur p = Some p' ∧ p_ok raw p' ∧ kept p (A_close h) p'.
Proof.
  intros H (Hsz & [o Ho]). unfold fd_close. rewrite Ho. cbn [mbind option_bind]. destruct o as [b|]; cycle 1.
  { exists p. split; [done|]. split; [done|]. intros b y _ _ _ Hb. by exists y. }
  destruct (close_ok _ raw cur (hp p) false b H) as (w' & E & H' & A); [by eapply handle_counted|done|].
  rewrite E. eexists. split; [done|]. split; [done|]. apply (frame_kept {[b]}); [by eapply frame_close|].
  intros b' ->%elem_of_singleton. done.
Qed.

Lemma fd_watch_ok p raw d h : p_ok raw p → legal p (A_watch d h) →
  ∃ p', fd_watch d h p = Some p' ∧ p_ok raw p' ∧ kept p (A_watch d h) p'.
Proof.
  intros H (Hsz & Hd & [o Ho]). unfold fd_watch. rewrite Ho. cbn [mbind option_bind]. destruct o as [b|]; cycle 1.
  { exists p. split; [done|]. split; [done|]. intros b y _ _ _ Hb. by exists y. }
  destruct (watch_ok _ raw (hp p) d b H Hd) as (w' & E & H' & A); [by eapply handle_counted|].
  rewrite E. eexists. split; [done|]. split; [done|]. apply (frame_kept ∅); [by eapply frame_watch|set_solver].
Qed.

Lemma run_ok raw p cur a : p_ok raw p → legal p a → ∃ raw' p', run cur a p = Some p' ∧ p_ok raw' p' ∧ kept p a p'.
Proof.
  intros H Hl. destruct a; cbn [run].
  - by apply (new_ok p raw).
  - exists raw. by apply copy_ok.
  - exists raw. by apply move_ok.
  - exists raw. by apply copy_assign_ok.
  - exists raw. by apply move_assign_ok.
  - exists raw. by apply fd_destroy_ok.
  - exists raw. by apply fd_close_ok.
  - exists raw. by apply fd_watch_ok.
  - destruct Hl as [_ Hd]. destruct (finish_migrate_ok _ raw (hp p) d H Hd) as (w' & E & H' & _).
    exists raw. rewrite E. eexists. split; [done|]. split; [done|]. apply (frame_kept ∅); [by eapply frame_migrate|set_solver].
  - destruct Hl as [_ Hd]. exists raw. eexists. split; [done|]. split; [|apply (frame_kept ∅); [by apply frame_same|set_solver]].
    destruct H as [K1 K2 K3 K4 K5 K6 K7 K8 K9 K10 K11]. split; try done; cbn.
    + intros b x d' Hb Hd'. apply elem_of_union_r. by apply (K9 b x).
    + intros d' Hd'. apply K11. set_solver.
  - destruct Hl as [_ Hd]. destruct (driver_destroyed_ok _ raw (hp p) d H Hd) as (w' & E & H' & _).
    exists raw. rewrite E. eexists. split; [done|]. split; [done|]. apply (frame_kept ∅); [by eapply frame_destroy|set_solver].
  - destruct Hl as [_ Hn]. exists ({[n]} ∪ raw). eexists. split; [done|]. split.
    + destruct H as [K1 K2 K3 K4 K5 K6 K7 K8 K9 K10 K11]. split; try done; cbn.
      * intros m. rewrite !elem_of_union, K5. tauto.
      * intros m [->%elem_of_singleton|Hm]%elem_of_union; [|by apply K6]. intros Ho. apply Hn, K5. by right.
    + intros b y _ _ _ Hb. by exists y.
  - destruct Hl as [_ [Hn Ho]]. unfold sys_close. rewrite decide_True by done. exists (raw ∖ {[n]}). eexists. split; [done|].
    split; [|apply (frame_kept ∅); [apply frame_same; set_solver|set_solver]].
    destruct H as [K1 K2 K3 K4 K5 K6 K7 K8 K9 K10 K11]. split; try done; cbn.
    + intros m. rewrite !elem_of_difference, K5. split; [tauto|]. intros [[Hm Hne]|Hm]; [tauto|]. split; [by right|].
      intros ->%elem_of_singleton. done.
    + intros m [Hm _]%elem_of_difference. by apply K6.
Qed.

(** ** Reachable programs *)

Definition start (os : gset Z) : program := Program ∅ (Heap ∅ os (λ _, ∅) (λ _, []) ∅).

Inductive reached : program → Prop :=
  | reached_start os : reached (start os)
  | reached_run p cur a p' : reached p → legal p a → run cur a p = Some p' → reached p'.

Lemma reached_p_ok p : reached p → ∃ raw, p_ok raw p.
Proof.
  induction 1 as [os|p cur a p' _ [raw IH] Hl E].
  - exists os. split; cbn; try done.
    + intros n. split; [by left|]. intros [?|(b & x & Hb & _)]; [done|]. by rewrite lookup_empty in Hb.
    + intros n _ (b & x & Hb & _). by rewrite lookup_empty in Hb.
    + intros d n b. rewrite lookup_empty. split; [done|]. intros (x & Hx & _). by rewrite lookup_empty in Hx.
  - destruct (run_ok raw p cur a IH Hl) as (raw' & p1 & E1 & H1 & _). exists raw'. congruence.
Qed.

(** * The driver's table

    The [body] fields of [FdEvents]' watch set change as the tables here do. *)

Definition agree (A : fd_spec) (t : table) : Prop := ∀ fd : nat, wd_body (sp_fds A fd) = t !! Z.of_nat fd.

Lemma agree_change A A' t (fd : nat) o : agree A t →
  (∀ n, wd_body (sp_fds A' n) = if decide (n = fd) then o else wd_body (sp_fds A n)) →
  agree A' (partial_alter (λ _, o) (Z.of_nat fd) t).
Proof.
  intros HA Hb n. rewrite Hb. destruct (decide (n = fd)) as [->|Hne]; [by rewrite lookup_partial_alter_eq|].
  rewrite lookup_partial_alter_ne by lia. apply HA.
Qed.

Lemma queue_bodies A fd n : wd_body (sp_fds (spec_queue A fd) n) = wd_body (sp_fds A n).
Proof. unfold spec_queue. by destruct (decide _). Qed.

Lemma spec_close_body closed A t (fd : nat) : agree A t →
  let c := spec_close closed A fd in
  match t !! Z.of_nat fd with
  | Some b => if closed b then fst <$> c.1.1 = Some b ∧ agree c.2 (delete (Z.of_nat fd) t) else c.1.1 = None ∧ agree c.2 t
  | None => c.1.1 = None ∧ agree c.2 t
  end.
Proof.
  intros HA. unfold spec_close. pose proof (HA fd) as Hf. destruct (wd_body (sp_fds A fd)) as [b|]; rewrite <-Hf; [|done].
  destruct (closed b); cbn [negb fst snd]; [|done]. split; [done|]. apply (agree_change A); [done|]. intros n.
  rewrite queue_bodies. cbn. destruct (decide (n = fd)) as [->|Hne]; [by rewrite fn_lookup_insert|by rewrite fn_lookup_insert_ne].
Qed.

Lemma spec_own_body closed A t (fd b : nat) : agree A t → t !! Z.of_nat fd = None ∨ t !! Z.of_nat fd = Some b →
  ∃ A', spec_own closed A fd b =
      Some (if decide (t !! Z.of_nat fd = None) then Some b else None, None, [], A') ∧
    agree A' (<[Z.of_nat fd := b]> t).
Proof.
  intros HA Ht. unfold spec_own. pose proof (HA fd) as Hf. destruct Ht as [Ht|Ht]; rewrite Ht in *.
  - rewrite bool_decide_eq_false_2 by congruence. rewrite Hf. cbn [mbind option_bind]. eexists. split; [done|].
    apply (agree_change A); [done|]. intros n. cbn.
    destruct (decide (n = fd)) as [->|Hne]; [by rewrite fn_lookup_insert|by rewrite fn_lookup_insert_ne].
  - rewrite bool_decide_eq_true_2 by done. exists A. split; [done|]. by rewrite insert_id.
Qed.

(** * Results *)

(** C25 Descriptors are safe.  Each call is taken as one atomic step.  Whatever a
    program does with its handles, and in whatever order the drivers get to their closes: no step closes a descriptor
    that is not open or touches a deleted body or driver; an [fd] that is valid
    refers to an open descriptor, and stays valid until it is closed, or dropped
    as the last one of its body; a descriptor is open for as long as a driver
    has it registered with the kernel; and a driver that watches a descriptor
    has no other body for it, which [FdDriver] assumes. *)
Theorem descriptors_safe (p : program) : reached p →
  (∀ cur a, legal p a → ∃ p', run cur a p = Some p' ∧ reached p' ∧
     ∀ h h' b x, fds p !! h = Some (Some b) → fds p' !! h' = Some (Some b) → ¬ closes p a b →
       bodies (hp p) !! b = Some x → ∃ x', bodies (hp p') !! b = Some x' ∧ fileno x' = fileno x) ∧
  (∀ h b, fds p !! h = Some (Some b) → ∃ x, bodies (hp p) !! b = Some x ∧
     ref_ x = count (fds p) b ∧ (0 ≤ fileno x → fileno x = base_fileno x ∧ fileno x ∈ os_open (hp p))) ∧
  (∀ d n b, tables (hp p) d !! n = Some b → n ∈ os_open (hp p) ∧ d ∈ alive (hp p) ∧
     ∃ x, bodies (hp p) !! b = Some x ∧ base_fileno x = n) ∧
  (∀ d b x, bodies (hp p) !! b = Some x → 0 ≤ fileno x →
     tables (hp p) d !! fileno x = None ∨ tables (hp p) d !! fileno x = Some b).
Proof.
  intros Hr. destruct (reached_p_ok p Hr) as [raw H]. split; [|split; [|split]].
  - intros cur a Hl. destruct (run_ok raw p cur a H Hl) as (raw' & p' & E & H' & K). exists p'. split; [done|].
    split; [by eapply reached_run|]. intros h h' b x Hh Hh' Hc Hb. apply handle_counted in Hh, Hh'.
    destruct (i_live _ _ _ _ _ H' b Hh') as [x' Hb']. exists x'. split; [done|].
    destruct (K b x' Hh' Hh Hc Hb') as (y & Hy & E'). unfold fileno. congruence.
  - intros h b Hh. apply handle_counted in Hh. destruct (i_live _ _ _ _ _ H b Hh) as [x Hb]. exists x. split; [done|].
    split; [by apply (i_cnt _ _ _ _ _ H)|]. unfold fileno, base_fileno.
    destruct (i_state _ _ _ _ _ H b x Hb) as [m r l Hm Hr'|m r l Hm Hr' Hl Ht|r Hr']; cbn; [|lia|lia]. intros _. split; [done|].
    apply (i_os _ _ _ _ _ H). right. by exists b, (FdBody m m r l).
  - intros d n b Ht. apply (i_tab _ _ _ _ _ H) in Ht as (x & Hb & <- & Hd). split; [|split].
    + apply (i_os _ _ _ _ _ H). right. exists b, x. split; [done|]. split; [done|].
      eapply state_base; [by apply (i_state _ _ _ _ _ H b)|]. intros E. rewrite E in Hd. inversion Hd.
    + by apply (i_alive _ _ _ _ _ H b x).
    + by exists x.
  - intros d b x Hb Hf. destruct (tables (hp p) d !! fileno x) as [b'|] eqn:Et; [|by left]. right. f_equal.
    by apply (own_only _ _ _ _ _ b x d b' H Hb Hf).
Qed.

Lemma migrate_all_ok cnt raw l : ∀ w, inv cnt [] raw (tables w) w → NoDup l → (∀ d, d ∈ l → d ∈ alive w) →
  ∃ w', foldl (λ o d, o ≫= finish_migrate d) (Some w) l = Some w' ∧ inv cnt [] raw (tables w') w' ∧ alive w' = alive w ∧
    (∀ d, d ∈ l → migrate_fd_close_ w' d = []) ∧ ∀ d, d ∉ l → migrate_fd_close_ w' d = migrate_fd_close_ w d.
Proof.
  induction l as [|d l IH]; intros w H Hnd Hal.
  { exists w. repeat (split; [done|]). split; [intros d Hd; inversion Hd|done]. }
  apply NoDup_cons in Hnd as [Hn Hnd]. cbn [foldl mbind option_bind].
  destruct (finish_migrate_ok cnt raw w d H ltac:(apply Hal; by left)) as (w1 & -> & H1 & A1 & Q1).
  destruct (IH w1 H1 Hnd) as (w' & E & H' & A' & Q2 & Q3); [intros d' Hd'; rewrite A1; apply Hal; by right|].
  exists w'. split; [done|]. split; [done|]. split; [congruence|]. split.
  - intros d' [->|Hd']%elem_of_cons; [|by apply Q2]. by rewrite Q3, Q1, fn_lookup_insert.
  - intros d' Hd'. apply not_elem_of_cons in Hd' as [Hne Hd']. by rewrite Q3, Q1, fn_lookup_insert_ne.
Qed.

(** C26 No descriptor leaks, as long as calls are taken one at a time
    ([deref_race_leaks] is two [deref]s of different threads that leak the
    body).  In every program a run can reach, once each driver
    has run its loop, exactly the bodies with a handle are left; and of the
    descriptors that bodies owned, open are exactly those of a handle that is
    still valid.  Descriptors that the program manages itself are not touched. *)
Theorem descriptors_closed (p : program) : reached p →
  ∃ w', foldl (λ o d, o ≫= finish_migrate d) (Some (hp p)) (elements (alive (hp p))) = Some w' ∧
    (∀ b, is_Some (bodies w' !! b) ↔ ∃ h, fds p !! h = Some (Some b)) ∧
    ∀ n, n ∈ os_open w' ↔ n ∈ os_open (hp p) ∧
      (owned (bodies (hp p)) n →
       ∃ h b x, fds p !! h = Some (Some b) ∧ bodies w' !! b = Some x ∧ fileno x = n).
Proof.
  intros Hr. destruct (reached_p_ok p Hr) as [raw H].
  destruct (migrate_all_ok _ raw (elements (alive (hp p))) (hp p) H) as (w' & E & H' & A' & Q1 & Q2).
  { apply NoDup_elements. }
  { intros d Hd. by apply elem_of_elements. }
  exists w'. split; [exact E|].
  assert (Hq : ∀ d, migrate_fd_close_ w' d = []).
  { intros d. destruct (decide (d ∈ alive (hp p))) as [Hd|Hd]; [by apply Q1, elem_of_elements|].
    apply (i_quiet _ _ _ _ _ H'). by rewrite A'. }
  assert (Hst : ∀ b x, bodies w' !! b = Some x → (fd_ x = base_fd_ x ∧ 0 ≤ fd_ x ∨ base_fd_ x = -1 ∧ fd_ x = -1) ∧ 0 < ref_ x).
  { intros b x Hb. destruct (i_state _ _ _ _ _ H' b x Hb) as [m r l Hm Hr'|m r l Hm Hr' Hl Ht|r Hr']; cbn.
    - by split; [left|].
    - destruct l as [|d l]; [done|]. destruct (Ht d ltac:(left)) as [Hd|Hd]; [rewrite Hq in Hd|]; inversion Hd.
    - by split; [right|]. }
  assert (Hlive : ∀ b x, bodies w' !! b = Some x → ∃ h, fds p !! h = Some (Some b)).
  { intros b x Hb. apply count_pos. rewrite <-(i_cnt _ _ _ _ _ H' b x Hb). pose proof (proj2 (Hst b x Hb)). lia. }
  split.
  - intros b. split; [intros [x Hb]; by eapply Hlive|]. intros Hh. by apply (i_live _ _ _ _ _ H'), count_pos.
  - assert (Hsub : os_open w' ⊆ os_open (hp p)).
    { apply (frame_os ∅). revert E. apply frame_fold. intros d w1 w2. apply frame_migrate. }
    assert (Hown : ∀ n, owned (bodies w') n ↔ 0 ≤ n ∧ ∃ h b x, fds p !! h = Some (Some b) ∧ bodies w' !! b = Some x ∧ fileno x = n).
    { intros n. split.
      - intros (b & x & Hb & En & Hn). split; [done|]. destruct (Hlive b x Hb) as [h Hh]. exists h, b, x. repeat (split; [done|]).
        unfold fileno. destruct (Hst b x Hb) as [[[? ?]|[? ?]] _]; lia.
      - intros (Hn & h & b & x & _ & Hb & <-). exists b, x. unfold fileno in *. destruct (Hst b x Hb) as [[[? ?]|[? ?]] _]; [done|lia]. }
    intros n. split.
    + intros Hn. split; [by apply Hsub|]. intros Ho. apply (i_os _ _ _ _ _ H') in Hn as [Hn|Hn].
      * by destruct (i_raw _ _ _ _ _ H n Hn).
      * by apply Hown.
    + intros [Hn Ho]. apply (i_os _ _ _ _ _ H'). apply (i_os _ _ _ _ _ H) in Hn as [Hn|Hn]; [by left|]. right. apply Hown.
      split; [by destruct Hn as (? & ? & _ & _ & ?)|by apply Ho].
Qed.

(** ** A run of two drivers

    Legality can be decided, so runs can be checked by computation. *)

Lemma owned_exists bs n : owned bs n ↔ 0 ≤ n ∧ map_Exists (λ _ x, base_fd_ x = n) bs.
Proof.
  split; [intros (b & x & Hb & E & Hn); split; [done|by exists b, x]|intros (Hn & b & x & Hb & E); by exists b, x].
Qed.

#[export] Instance owned_dec bs n : Decision (owned bs n).
Proof. refine (cast_if (decide (0 ≤ n ∧ map_Exists (λ _ x, base_fd_ x = n) bs))); by rewrite owned_exists. Defined.

#[export] Instance legal_dec p a : Decision (legal p a).
Proof. destruct a; unfold legal; cbv zeta; apply _. Defined.

Fixpoint run_all (cur : option nat) (acts : list action) (p : program) : option program :=
  match acts with
  | [] => Some p
  | a :: acts => if decide (legal p a) then p ← run cur a p; run_all cur acts p else None
  end.

Lemma reached_all cur acts : ∀ p p', reached p → run_all cur acts p = Some p' → reached p'.
Proof.
  induction acts as [|a acts IH]; cbn; intros p p' Hr E; [by injection E as <-|].
  destruct (decide (legal p a)); [|done]. apply bind_Some in E as (p1 & E1 & E). eapply IH; [|exact E]. by eapply reached_run.
Qed.

(** A socket is watched by both drivers and its last handle dropped on the
    thread of the first: the second closes it when its loop runs. *)
Definition sample_actions : list action :=
  [A_driver 0; A_driver 1; A_os_open 5; A_new 10 5; A_watch 0 10; A_watch 1 10; A_copy 11 10; A_destroy 10; A_destroy 11].

Definition sample_program : program := default (start ∅) (run_all (Some 0%nat) sample_actions (start ∅)).

Definition look (w : heap) : bool * list Z * option Z :=
  (bool_decide (5 ∈ os_open w), migrate_fd_close_ w 1%nat, ref_ <$> (bodies w !! 0%nat)).

Example sample_deferred : look (hp sample_program) = (true, [5], Some 0).
Proof. vm_compute. reflexivity. Qed.

Example sample_finished : look <$> finish_migrate 1 (hp sample_program) = Some (false, [], None).
Proof. vm_compute. reflexivity. Qed.

Lemma sample_program_reached : reached sample_program.
Proof.
  unfold sample_program. destruct (run_all _ _ _) as [p|] eqn:E; [|apply reached_start].
  eapply reached_all; [apply reached_start|exact E].
Qed.

Lemma descriptors_safe_witness :
  reached sample_program ∧ tables (hp sample_program) 1%nat !! 5 = Some 0%nat ∧ 5 ∈ os_open (hp sample_program).
Proof.
  split; [exact sample_program_reached|]. split; [vm_compute; reflexivity|].
  apply (proj1 (proj2 (proj2 (descriptors_safe sample_program sample_program_reached))) 1%nat 5 0%nat). vm_compute. reflexivity.
Defined.

Lemma descriptors_closed_witness :
  reached sample_program ∧ ∃ w', foldl (λ o d, o ≫= finish_migrate d) (Some (hp sample_program))
    (elements (alive (hp sample_program))) = Some w' ∧ bodies w' !! 0%nat = None.
Proof.
  split; [exact sample_program_reached|]. destruct (descriptors_closed sample_program sample_program_reached) as (w' & E & Hb & _).
  exists w'. split; [exact E|]. destruct (bodies w' !! 0%nat) as [x|] eqn:Ex; [|reflexivity]. exfalso.
  destruct (proj1 (Hb 0%nat) (ex_intro _ x Ex)) as [h Hh]. change (fds sample_program) with (∅ : gmap nat (option nat)) in Hh.
  rewrite lookup_empty in Hh. discriminate.
Defined.

(** * Two threads drop the last handles

    [deref] reads the count and then decrements it, without the lock.  One
    thread at a time, as above, the one that drops the last handle reads 1 and
    closes; two threads can both read 2. *)

Inductive deref_pc := R_load | R_sub | R_close | R_done.

Definition deref_step (b : nat) (pc : deref_pc) (w : heap) : option (deref_pc * heap) :=
  x ← bodies w !! b;
  match pc with
  | R_load => Some (if ref_ x =? 1 then R_close else R_sub, w)
  | R_sub => Some (R_done, set_body w b (FdBody (fd_ x) (base_fd_ x) (u32 (ref_ x - 1)) (drivers_ x)))
  | R_close => w ← close true b None w; Some (R_done, w)
  | R_done => None
  end.

Fixpoint run_derefs (b : nat) (schedule : list nat) (pcs : list deref_pc) (w : heap) : option (list deref_pc * heap) :=
  match schedule with
  | [] => Some (pcs, w)
  | t :: schedule =>
      pc ← pcs !! t;
      r ← deref_step b pc w;
      run_derefs b schedule (<[t := r.1]> pcs) r.2
  end.

(** The steps of one thread make a [deref]. *)
Lemma deref_steps b w w' : deref b None w = Some w' → run_derefs b [0; 0]%nat [R_load] w = Some ([R_done], w').
Proof.
  unfold deref. intros (x & Hb & H)%bind_Some. cbn. unfold deref_step. rewrite Hb. cbn [mbind option_bind fst snd].
  destruct (ref_ x =? 1); cbn; rewrite Hb; cbn [mbind option_bind]; [by rewrite H|by injection H as <-].
Qed.

(** With two handles left, this schedule ends both threads with a count of 0 and
    the body and its descriptor as they were: nobody will close them. *)
Lemma deref_race_leaks b n w : 0 ≤ n → bodies w !! b = Some (FdBody n n 2 []) →
  run_derefs b [0; 1; 0; 1]%nat [R_load; R_load] w =
    Some ([R_done; R_done], set_body w b (FdBody n n 0 [])).
Proof.
  intros Hn Hb. cbn [run_derefs mbind option_bind]. unfold deref_step. cbn [lookup list_lookup insert list_insert mbind option_bind].
  rewrite Hb. cbn. rewrite Hb. cbn. rewrite Hb. cbn. rewrite lookup_insert_eq. cbn.
  unfold set_body, set_bodies. cbn [bodies]. by rewrite insert_insert_eq.
Qed.
