(* ===== verification/WatchFds.v ===== *)
(** Waiting for the kernel: [driver::watch_fds] and [driver::hard_pollfd] of
    [src/cotamer/io.cc], over the descriptors of [FdDriver].

    [epoll_wait] returns a batch of notifications, or an error; what a coroutine
    does when it is resumed is a parameter, which may register, close and let
    watches die, as [uses] says.  A notification of the descriptor by which other
    threads wake the driver only drains it. *)

From S2P Require Import Prelude FdEvents FdDriver.

(** [duration_milliseconds], of nanoseconds: the result is an [int]. *)
Definition i32 (z : Z) : Z := (z + 2147483648) mod 4294967296 - 2147483648.
Definition duration_milliseconds (d : Z) : Z := if d <=? 0 then 0 else i32 (d / 1000000).

(** The results of the calls of [hard_pollfd]; [None] is an error. *)
Record poll_setup := PollSetup { su_create : option Z; su_eventfd : option Z; su_ctl : bool }.

(** [pollfd_] and [epoll_wakefd_], -1 when there is none, with the descriptors
    closed on the way; the flag says that the call throws. *)
Definition hard_pollfd (su : poll_setup) : Z * Z * list Z * bool :=
  match su_create su with
  | None => (-1, -1, [], true)
  | Some p =>
      match su_eventfd su with
      | None => (-1, -1, [p], true)
      | Some w => (p, w, [], negb (su_ctl su))
      end
  end.

Inductive wait_result := Ready (evs : list (Z * Z)) | Interrupted | Failed.

Section Watch.
Context {K : Type} `{Epoll K}.
Notation driver_fds := (@driver_fds K).

(** The driver, and which events nobody waits for any more. *)
Definition fds_world : Type := (nat → bool) * driver_fds.
Context (epoll_wakefd_ : Z) (resume : nat → option Z → fds_world → option fds_world).

(** [while (wix) { ... }]: the events triggered, in order. *)
Fixpoint pop_all (fuel : nat) (m : Z) (st : fds_world) : option (list nat * fds_world) :=
  match fuel with
  | O => None
  | S fuel =>
      let d := st.2 in
      if d_wix d =? 0 then Some ([], st)
      else
        r ← pop_watch_list_event (fds_ d) (d_wix d) m;
        let '(ev, flags, wix, s) := r in
        e ← ev;
        st ← resume e flags (st.1, with_fds d s wix);
        r ← pop_all fuel m st;
        Some (e :: r.1, r.2)
  end.

Definition take_fd (u : fd_update) (st : fds_world) : option fds_world :=
  r ← take_watch_list st.1 (fds_ st.2) (fu_fd u) (fu_mask u) (fu_epoch u);
  Some (st.1, with_fds st.2 r.2 r.1).

(** [while (auto fdu = batch.pop()) { ... }]. *)
Fixpoint process_batch (fuel steps : nat) (evs : list (Z * Z)) (st : fds_world) : option (list nat * fds_world) :=
  match steps with
  | O => None
  | S steps =>
      match batch_pop evs with
      | None => Some ([], st)
      | Some (u, evs) =>
          if fu_fd u =? epoll_wakefd_ then process_batch fuel steps evs st
          else
            st ← take_fd u st;
            r ← pop_all fuel (fu_mask u) st;
            r' ← process_batch fuel steps evs r.2;
            Some (r.1 ++ r'.1, r'.2)
      end
  end.

(** The whole call, for the lock word of the driver and a timeout; [inr] is the
    exception of an [epoll_wait] that failed. *)
Definition watch_fds (epoll_wait : Z → wait_result) (fuel : nat) (locked : bool) (timeout : Z) (st : fds_world) :
    option ((bool * list nat * fds_world) + unit) :=
  let timeout := if locked then 0 else timeout in
  match epoll_wait (duration_milliseconds timeout) with
  | Failed => Some (inr tt)
  | Interrupted => Some (inl (false, [], st))
  | Ready evs =>
      r ← process_batch fuel (S (length evs)) evs st;
      Some (inl (negb (bool_decide (evs = [])), r.1, r.2))
  end.

(** What resumed coroutines may do to the watches.  When [epoll_ctl] refuses to
    deregister a descriptor that one closes, its error ends the call; that is
    left out. *)
Inductive uses : fds_world → fds_world → Prop :=
  | uses_none st : uses st st
  | uses_op dead closed d op d' st : (match op with D_watch _ _ _ _ | D_close _ => True | _ => False end) → legal_op d op →
      run_driver_op dead closed d op = Some (true, d') → uses (dead, d') st → uses (dead, d) st
  | uses_events dead dead' d st : (∀ e, watched_event d e → dead e = true → dead' e = true) → uses (dead', d) st → uses (dead, d) st.
End Watch.

(** * What a resumed coroutine leaves alone *)

Lemma path_fun ws l : ∀ h l', path ws h l 0 → path ws h l' 0 → l = l'.
Proof.
  induction l as [|x l IH]; intros h l' Hl Hl'.
  - cbn in Hl. subst h. symmetry. by eapply path_nil_iff.
  - destruct l' as [|y l']; [cbn in Hl'; subst h; by apply path_nil_iff in Hl|].
    destruct Hl as (-> & _ & wr & Hw & Hl), Hl' as (<- & _ & wr' & Hw' & Hl').
    assert (wr' = wr) as -> by congruence. f_equal. by apply (IH (wlink wr)).
Qed.

Lemma holds_fun ws l W : ∀ W', holds ws l W → holds ws l W' → W = W'.
Proof.
  intros W' H. revert W'. induction H as [|x [e m] l W E _ IH]; intros W' H'; inversion H' as [|? [e' m'] ? W2 E' H2]; [done|].
  subst. rewrite E in E'. cbn in E'. injection E' as -> ->. f_equal. by apply IH.
Qed.

(** The watches that were taken are those of the list the driver holds. *)
Lemma taken_fun s wix A A' : represents s wix A → represents s wix A' → sp_taken A = sp_taken A'.
Proof.
  intros [ls H] [ls' H']. assert (E : ls P_taken = ls' P_taken) by (eapply path_fun; [apply H|apply H']).
  eapply holds_fun; [apply H|]. rewrite E. apply H'.
Qed.

Lemma taken_none s wix A : represents s wix A → (wix =? 0) = bool_decide (sp_taken A = []).
Proof.
  intros [ls H]. rewrite (path_zero _ _ _ (r_taken _ _ _ _ H)). by rewrite (holds_nil _ _ _ (r_popping _ _ _ _ H)).
Qed.

Lemma queue_taken A fd : sp_taken (spec_queue A fd) = sp_taken A.
Proof. unfold spec_queue. by destruct (decide _). Qed.

Lemma close_taken closed A fd : sp_taken (spec_close closed A fd).2 = sp_taken A.
Proof.
  unfold spec_close. destruct (wd_body _); [|done]. destruct (negb _); [done|]. cbn [snd]. rewrite queue_taken.
  done.
Qed.

Lemma own_taken closed A fd b a o es A' : spec_own closed A fd b = Some (a, o, es, A') → sp_taken A' = sp_taken A.
Proof.
  unfold spec_own. destruct (bool_decide _); [by intros [= _ _ _ <-]|]. destruct (wd_body _) as [b'|]; [|by intros [= _ _ _ <-]].
  pose proof (close_taken closed A fd) as Hc. destruct (spec_close closed A fd) as [[[p|] es'] A2]; [|done].
  by intros [= _ _ _ <-].
Qed.

Lemma watch_taken closed A fd m b e a o es A' : spec_watch closed A fd m b e = Some (a, o, es, A') → sp_taken A' = sp_taken A.
Proof.
  unfold spec_watch. destruct (_ || _); [by intros [= _ _ _ <-]|].
  destruct (spec_own closed A (Z.to_nat fd) b) as [[[[a' o'] es'] A2]|] eqn:E; [|done]. cbn [mbind option_bind].
  intros [= _ _ _ <-]. cbn [sp_taken spec_set]. rewrite queue_taken. by eapply own_taken.
Qed.

Lemma batch_pop_fd evs u evs' : batch_pop evs = Some (u, evs') → Forall (λ p, data_fd p.2 < max_fds) evs →
  is_int (fu_fd u) ∧ 0 ≤ fu_fd u ∧ Forall (λ p, data_fd p.2 < max_fds) evs' ∧ (length evs' < length evs)%nat.
Proof.
  intros E Hf. induction Hf as [|[w data] evs Hw Hf IH]; [done|]. cbn [batch_pop] in E. cbn [length].
  destruct (negb _); [|apply IH in E as (H1 & H2 & H3 & H4); split; [exact H1|]; split; [exact H2|]; split; [exact H3|lia]].
  injection E as <- <-. cbn [fu_fd snd] in *. assert (0 ≤ data_fd data) by (apply Z.land_nonneg; lia).
  split; [unfold is_int, max_fds in *; lia|]. split; [done|]. split; [done|lia].
Qed.

Section Delivery.
Context {K : Type} `{EpollLaws K}.
Notation driver_fds := (@driver_fds K).
Notation fds_world := (@fds_world K).
Implicit Types (d : driver_fds) (A : fd_spec) (st : fds_world).

Lemma apply_fds d u ok d' : apply_fd_update d u = Some (ok, d') → fds_ d' = fds_ d ∧ d_wix d' = d_wix d.
Proof.
  unfold apply_fd_update. destruct (_ !! _) as [w|]; [|done]. cbn [mbind option_bind].
  destruct (_ =? _); [by intros [= _ <-]|]. destruct (batch_add _ _ _); by intros [= _ <-].
Qed.

Lemma set_op_taken dead closed d A op d' o A' : represents (fds_ d) (d_wix d) A → is_int (fd_of op) →
  spec_fd_op dead closed A op = Some (o, A') → run_set_op dead closed d op = Some (true, d') → represents (fds_ d') (d_wix d') A'.
Proof.
  intros HR Hfd Es Er. pose proof (run_fd_op_spec dead closed _ _ A op HR Hfd) as Hs. rewrite Es in Hs.
  destruct Hs as (s & wix & E & HR'). unfold run_set_op in Er. rewrite E in Er. by injection Er as <-.
Qed.

(** Taking and popping do not ask the kernel anything. *)
Lemma set_op_ok dead d A op : driver_ok dead d A → legal_op d op → match op with D_take _ _ _ | D_pop _ => True | _ => False end →
  ∃ d' A', run_driver_op dead (λ _, false) d op = Some (true, d') ∧ driver_ok dead d' A'.
Proof.
  intros HA Hl Hop. destruct (run_driver_ok dead (λ _, false) d A op HA Hl) as (ok & d' & E & H1).
  destruct ok; [destruct H1 as [A' H1]; by exists d', A'|].
  exfalso. destruct op; try done; cbn [run_driver_op] in E; unfold run_set_op in E; destruct (run_fd_op _ _ _ _ _) as [[[]]|]; done.
Qed.

Lemma op_keeps dead closed d A op d' : driver_ok dead d A → legal_op d op →
  match op with D_watch _ _ _ _ | D_close _ => True | _ => False end →
  run_driver_op dead closed d op = Some (true, d') → ∃ A', driver_ok dead d' A' ∧ sp_taken A' = sp_taken A.
Proof.
  intros HA Hl Hop E. destruct (run_driver_ok dead closed d A op HA Hl) as (ok & d1 & E1 & H1).
  rewrite E in E1. injection E1 as <- <-. destruct H1 as (A1 & H1). exists A1. split; [done|].
  cut (∃ A2, represents (fds_ d') (d_wix d') A2 ∧ sp_taken A2 = sp_taken A).
  { intros (A2 & HR2 & <-). eapply taken_fun; [apply H1|done]. }
  destruct HA as [HR _]. destruct op as [fd m b e|fd m ep|m| |fd]; try done; cbn [run_driver_op legal_op] in *.
  - destruct (spec_watch closed A fd m b e) as [[[[a o] es] A2]|] eqn:Es.
    + exists A2. split; [|by eapply watch_taken].
      eapply (set_op_taken dead closed d A (F_watch fd m b e)); [done|apply Hl|cbn; by rewrite Es|done].
    + pose proof (run_fd_op_spec dead closed _ _ A (F_watch fd m b e) HR ltac:(apply Hl)) as Hs. cbn [spec_fd_op] in Hs.
      rewrite Es in Hs. cbn in Hs. unfold run_set_op in E. cbn [run_fd_op] in E. by rewrite Hs in E.
  - pose proof (run_fd_op_spec dead closed _ _ A (F_close fd) HR Hl) as Hs. cbn [spec_fd_op run_fd_op] in Hs.
    unfold notify_close in E. destruct (fd_close closed (fds_ d) fd) as [[[c es] s']|]; [|done].
    cbn [mbind option_bind] in *. cbv beta iota zeta in *.
    assert (HA' : ∃ A2, represents s' (d_wix d) A2 ∧ sp_taken A2 = sp_taken A).
    { destruct (fd <? 0).
      - destruct Hs as (s2 & w2 & [= _ _ <- <-] & HR2). by exists A.
      - pose proof (close_taken closed A (Z.to_nat fd)) as Hc.
        destruct (spec_close closed A (Z.to_nat fd)) as [[c2 es2] A2]. destruct Hs as (s2 & w2 & [= _ _ <- <-] & HR2). by exists A2. }
    destruct c as [[b ep]|]; [|by injection E as <-].
    destruct (apply_fd_update _ _) as [[ok d2]|] eqn:Eu; [|done]. cbn in E. destruct ok; [|done]. injection E as <-. apply apply_fds in Eu as [-> ->]. done.
Qed.

(** Resumed coroutines keep the driver well formed and the watches that are
    taken but not triggered yet. *)
Lemma uses_keeps st st' : uses st st' → ∀ A, reached_fds st.1 st.2 → driver_ok st.1 st.2 A →
  reached_fds st'.1 st'.2 ∧ ∃ A', driver_ok st'.1 st'.2 A' ∧ sp_taken A' = sp_taken A.
Proof.
  induction 1 as [st|dead closed d op d' st Hop Hl E _ IH|dead dead' d st Hm _ IH]; intros A Hr HA; cbn [fst snd] in *.
  - split; [done|]. by exists A.
  - destruct (op_keeps _ _ _ _ _ _ HA Hl Hop E) as (A' & HA' & <-). apply IH; [|done]. by eapply fds_op.
  - apply IH; [by eapply fds_events|]. destruct HA as [HR HK]. split; [done|].
    apply (kernel_relax dead dead' A A d); try done; [|apply HK].
    intros fd Hfd. do 2 (split; [done|]). intros p Hp. apply Hm. by eapply live_watched.
Qed.

Context (epoll_wakefd_ : Z) (resume : nat → option Z → fds_world → option fds_world).
Context (resumes : ∀ e flags st, reached_fds st.1 st.2 → ∃ st', resume e flags st = Some st' ∧ uses st st').

(** The list a notification took is emptied: its events are triggered in order. *)
Lemma pop_all_ok m T : ∀ st A, reached_fds st.1 st.2 → driver_ok st.1 st.2 A → sp_taken A = T →
  ∃ st', enough (λ n, pop_all resume n m st) (T.*1, st') ∧ reached_fds st'.1 st'.2 ∧ d_wix st'.2 = 0.
Proof.
  induction T as [|p T IH]; intros [dead d] A Hr HA HT; cbn [fst snd] in *; destruct (HA) as [HR _];
    pose proof (taken_none _ _ _ HR) as Hz; rewrite HT in Hz.
  - exists (dead, d). rewrite bool_decide_eq_true_2 in Hz by done. split; [|split; [done|cbn; lia]].
    apply enough_S, enough_ret. intros n. cbn [pop_all snd]. by rewrite Hz.
  - rewrite bool_decide_eq_false_2 in Hz by done.
    destruct (set_op_ok dead d A (D_pop m) HA I I) as (d1 & A1 & E1 & H1).
    assert (Hr1 : reached_fds dead d1) by (by eapply (fds_op _ (λ _, false) _ (D_pop m))).
    pose proof (run_fd_op_spec dead (λ _, false) _ _ A (F_pop m) HR ltac:(cbn; unfold is_int, max_fds; lia)) as Hs.
    cbn [run_driver_op run_set_op run_fd_op spec_fd_op] in E1, Hs. unfold spec_pop in Hs. rewrite HT in Hs.
    unfold run_set_op in E1. cbn [run_fd_op] in E1. rewrite Hz in E1, Hs.
    destruct (pop_watch_list_event (fds_ d) (d_wix d) m) as [[[[e fl] wix'] s']|] eqn:Ep; [|done].
    cbn [mbind option_bind] in E1, Hs. cbv beta iota zeta in E1, Hs.
    destruct Hs as (s2 & w2 & [= -> -> <- <-] & HR2). injection E1 as <-.
    assert (HT1 : sp_taken A1 = T) by exact (taken_fun _ _ _ _ (proj1 H1) HR2).
    destruct (resumes p.1 (if negb (m =? fd_none) then Some (Z.shiftl m 6) else None) (dead, with_fds d s' wix') Hr1) as (st1 & Eres & Hu).
    destruct (uses_keeps _ _ Hu A1 Hr1 H1) as (Hr2 & A2 & HA2 & HT2).
    destruct (IH st1 A2 Hr2 HA2 ltac:(congruence)) as (st' & En & Hend). exists st'. split; [|done].
    apply enough_S. cbn [pop_all fst snd]. rewrite Hz, Ep. cbn [mbind option_bind]. cbv beta iota zeta.
    rewrite Eres. cbn [mbind option_bind fmap list_fmap].
    apply (enough_bind (λ n, pop_all resume n m st1) (λ _ r, Some (p.1 :: r.1, r.2)) (T.*1, st')); [done|].
    by apply enough_ret.
Qed.

(** What a notification takes, once the list before it is empty. *)
Lemma take_ok u dead d A : is_int (fu_fd u) → 0 ≤ fu_fd u → reached_fds dead d → driver_ok dead d A → d_wix d = 0 →
  ∃ d' A', take_fd u (dead, d) = Some (dead, d') ∧ reached_fds dead d' ∧ driver_ok dead d' A' ∧
    sp_taken A' = sp_taken (spec_take dead A (Z.to_nat (fu_fd u)) (fu_mask u) (fu_epoch u)).2.
Proof.
  intros Hi Hpos Hr HA Hz.
  destruct (set_op_ok dead d A (D_take (fu_fd u) (fu_mask u) (fu_epoch u)) HA Hi I) as (d1 & A1 & E1 & H1).
  exists d1, A1. destruct (HA) as [HR _]. pose proof (taken_none _ _ _ HR) as Ht. rewrite Hz in Ht.
  assert (Es : spec_fd_op dead (λ _, false) A (F_take (fu_fd u) (fu_mask u) (fu_epoch u)) =
    Some (R_take (spec_take dead A (Z.to_nat (fu_fd u)) (fu_mask u) (fu_epoch u)).1,
          (spec_take dead A (Z.to_nat (fu_fd u)) (fu_mask u) (fu_epoch u)).2)).
  { cbn [spec_fd_op]. rewrite <-Ht. cbn [Z.eqb]. by rewrite (proj2 (Z.ltb_ge _ _)) by done. }
  split; [|split; [by eapply (fds_op _ (λ _, false) _ (D_take _ _ _))|split; [done|]]].
  - cbn [run_driver_op] in E1. unfold run_set_op in E1. cbn [run_fd_op] in E1. rewrite Hz in E1. cbn [Z.eqb] in E1.
    unfold take_fd. cbn [fst snd]. destruct (take_watch_list _ _ _ _ _) as [[w s]|]; [|done]. cbn in E1 |- *.
    by injection E1 as <-.
  - eapply taken_fun; [apply H1|]. eapply (set_op_taken dead (λ _, false) d A _ d1); [exact HR| |exact Es|exact E1]. exact Hi.
Qed.

(** The whole batch. *)
Lemma batch_ok evs : ∀ steps st A, Forall (λ p, data_fd p.2 < max_fds) evs → (length evs < steps)%nat →
  reached_fds st.1 st.2 → driver_ok st.1 st.2 A → d_wix st.2 = 0 →
  ∃ es st', enough (λ n, process_batch epoll_wakefd_ resume n steps evs st) (es, st') ∧
    reached_fds st'.1 st'.2 ∧ d_wix st'.2 = 0 ∧
    (∀ u evs', batch_pop evs = Some (u, evs') → fu_fd u ≠ epoll_wakefd_ →
      ∃ es', es = (sp_taken (spec_take st.1 A (Z.to_nat (fu_fd u)) (fu_mask u) (fu_epoch u)).2).*1 ++ es').
Proof.
  induction evs as [evs IH] using (induction_ltof1 _ length). unfold ltof in IH.
  intros [|steps] [dead d] A Hf Hlen Hr HA Hz; cbn [fst snd] in *; [lia|].
  destruct (batch_pop evs) as [[u evs']|] eqn:Ep.
  2:{ exists [], (dead, d). split; [|done]. apply enough_ret. intros n. cbn [process_batch]. by rewrite Ep. }
  destruct (batch_pop_fd _ _ _ Ep Hf) as (Hi & Hpos & Hf' & Hlt). destruct (fu_fd u =? epoll_wakefd_) eqn:Ew.
  - destruct (IH evs' Hlt steps (dead, d) A Hf' ltac:(lia) Hr HA Hz) as (es & st' & En & Hr' & Hz' & _).
    exists es, st'. split; [|do 2 (split; [done|])].
    + eapply enough_ext; [|exact En]. intros n. cbn [process_batch]. by rewrite Ep, Ew.
    + intros u2 evs2 [= <- <-]. lia.
  - destruct (take_ok u dead d A Hi Hpos Hr HA Hz) as (d1 & A1 & E1 & Hr1 & HA1 & HT1).
    destruct (pop_all_ok (fu_mask u) _ (dead, d1) A1 Hr1 HA1 eq_refl) as (st2 & En2 & Hr2 & Hz2).
    destruct (reached_ok _ _ Hr2) as [A2 HA2].
    destruct (IH evs' Hlt steps st2 A2 Hf' ltac:(lia) Hr2 HA2 Hz2) as (es & st' & En & Hr' & Hz' & _).
    exists ((sp_taken A1).*1 ++ es), st'. split; [|do 2 (split; [done|])].
    + eapply enough_ext; [intros n; cbn [process_batch]; rewrite Ep, Ew, E1; reflexivity|]. cbn [mbind option_bind].
      eapply (enough_bind _ (λ n r, r' ← process_batch epoll_wakefd_ resume n steps evs' r.2; Some (r.1 ++ r'.1, r'.2)));
        [exact En2|]. cbn [fst snd].
      eapply (enough_bind _ (λ _ r', Some ((sp_taken A1).*1 ++ r'.1, r'.2))); [exact En|]. by apply enough_ret.
    + intros u2 evs2 [= <- <-] _. rewrite HT1. by exists es.
Qed.

Lemma hits_filter dead m W : hits dead m W = filter (λ p, Z.land m p.2 ≠ 0 ∨ dead p.1 = true) W.
Proof.
  apply list_filter_iff. intros p. unfold hit, fd_none. rewrite orb_true_iff, negb_true_iff, Z.eqb_neq. done.
Qed.

Lemma taken_first s dead A n m ep : represents s 0 A →
  (sp_taken (spec_take dead A n m ep).2).*1 =
    if decide (ep = 0 ∨ ep = wd_epoch (sp_fds A n))
    then (filter (λ p, Z.land m p.2 ≠ 0 ∨ dead p.1 = true) (wd_list (sp_fds A n))).*1 else [].
Proof.
  intros HR. pose proof (taken_none _ _ _ HR) as Ht. symmetry in Ht. apply bool_decide_eq_true in Ht.
  rewrite <-hits_filter. unfold spec_take. set (wd := sp_fds A n).
  destruct (decide (ep = 0 ∨ ep = wd_epoch wd)) as [He|He].
  - assert (negb (ep =? 0) && negb (ep =? wd_epoch wd) = false) as -> by (destruct He as [->| ->]; rewrite Z.eqb_refl; cbn; by rewrite ?andb_false_r).
    rewrite orb_false_r. destruct (bool_decide (wd_list wd = [])) eqn:Eb.
    + apply bool_decide_eq_true in Eb. cbn [snd]. by rewrite Ht, Eb.
    + destruct (bool_decide (hits _ _ _ = [])); cbn [snd]; [done|by rewrite queue_taken].
  - rewrite !(proj2 (Z.eqb_neq _ _)) by tauto. cbn [negb andb]. rewrite orb_true_r. cbn [snd]. by rewrite Ht.
Qed.

(** C24 What the kernel reports is delivered.  From every state a driver can
    reach, with no list left over, and whatever the resumed coroutines do to the
    watches, [watch_fds] returns (with enough fuel) the batch it is given: it
    reports whether there was one, and leaves no list behind, so the next call
    starts the same.  The events triggered begin with what the first
    notification takes, in the order the watches were made: when its epoch is
    the descriptor's, or 0, which stands for any, exactly the watches of its
    descriptor that share a bit with it or whose event nobody waits for any
    more (those are swept along), and nothing when it is another. *)
Theorem watch_fds_delivers (dead : nat → bool) (d : driver_fds) (evs : list (Z * Z)) (locked : bool) (timeout : Z) :
  reached_fds dead d → d_wix d = 0 → Forall (λ p, data_fd p.2 < max_fds) evs →
  ∃ es st' A,
    enough (λ n, watch_fds epoll_wakefd_ resume (λ _, Ready evs) n locked timeout (dead, d))
      (inl (negb (bool_decide (evs = [])), es, st')) ∧
    reached_fds st'.1 st'.2 ∧ d_wix st'.2 = 0 ∧ represents (fds_ d) 0 A ∧
    ∀ u evs', batch_pop evs = Some (u, evs') → fu_fd u ≠ epoll_wakefd_ →
      let wd := sp_fds A (Z.to_nat (fu_fd u)) in
      ∃ es', es = (if decide (fu_epoch u = 0 ∨ fu_epoch u = wd_epoch wd)
                   then (filter (λ p, Z.land (fu_mask u) p.2 ≠ 0 ∨ dead p.1 = true) (wd_list wd)).*1 else []) ++ es'.
Proof.
  intros Hr Hz Hf. destruct (reached_ok _ _ Hr) as [A HA]. pose proof HA as [HR _]. rewrite Hz in HR.
  destruct (batch_ok evs (S (length evs)) (dead, d) A Hf ltac:(lia) Hr HA Hz) as (es & st' & En & Hr' & Hz' & Hfirst).
  exists es, st', A. split; [|do 3 (split; [done|])].
  - unfold watch_fds. cbv zeta. apply (enough_bind _ (λ _ r, Some (inl (negb (bool_decide (evs = [])), r.1, r.2))) _ _ En).
    by apply enough_ret.
  - intros u evs' E Hw. destruct (Hfirst u evs' E Hw) as [es' ->]. exists es'. f_equal. cbn [fst].
    by apply (taken_first (fds_ d)).
Qed.
End Delivery.

#[local] Existing Instances map_epoll map_epoll_laws.

(** A read of descriptor 17 and a write of it; the kernel reports input, with
    the epoch the registration carries, and then that another thread woke the
    driver (whose descriptor is 5). *)
Definition idle (e : nat) (flags : option Z) (st : @fds_world (gmap Z (Z * Z))) : option (@fds_world (gmap Z (Z * Z))) := Some st.

Definition sample_ops : list driver_op := [D_watch 17 1 4 8; D_watch 17 2 4 9; D_register].

Definition sample_driver : option (@driver_fds (gmap Z (Z * Z))) :=
  snd <$> run_ops sample_ops.

Definition sample_batch : list (Z * Z) := [(EPOLLIN, event_data 17 2); (EPOLLIN, event_data 5 1)].

Example sample_delivery :
  (d ← sample_driver; r ← watch_fds 5 idle (λ _, Ready sample_batch) 10 false 1000 (λ _, false, d);
   match r with inl (any, es, st) => Some (any, es, d_wix st.2, has_update (fds_ st.2)) | inr _ => None end) =
  Some (true, [8%nat], 0, true).
Proof. vm_compute. reflexivity. Qed.

Lemma watch_fds_delivers_witness : ∃ d es st',
  reached_fds (λ _, false) d ∧ d_wix d = 0 ∧ Forall (λ p, data_fd p.2 < max_fds) sample_batch ∧
  enough (λ n, watch_fds 5 idle (λ _, Ready sample_batch) n false 1000 (λ _, false, d)) (inl (true, es, st')) ∧ d_wix st'.2 = 0.
Proof.
  assert (Hd : ∃ d, sample_driver = Some d ∧ reached_fds (λ _, false) d ∧ d_wix d = 0).
  { eexists. split; [vm_compute; reflexivity|]. split; [|reflexivity].
    eapply (fds_op _ (λ _, false) _ D_register); [eapply (fds_op _ (λ _, false) _ (D_watch 17 2 4 9));
      [eapply (fds_op _ (λ _, false) _ (D_watch 17 1 4 8)); [apply (fds_start _ ∅); intros fd; apply lookup_empty| |]| |]|exact I|].
    - split; [done|]. split; [done|]. intros r Hx. done.
    - vm_compute. reflexivity.
    - split; [done|]. split; [done|]. intros r Hx. vm_compute in Hx. right. by injection Hx as <-.
    - vm_compute. reflexivity.
    - vm_compute. reflexivity. }
  destruct Hd as (d & _ & Hr & Hz). assert (Hf : Forall (λ p, data_fd p.2 < max_fds) sample_batch) by (repeat constructor).
  destruct (watch_fds_delivers 5 idle ltac:(intros e fl st _; exists st; split; [done|apply uses_none]) (λ _, false) d sample_batch false 1000
              Hr Hz Hf) as (es & st' & A & En & _ & Hz' & _).
  by exists d, es, st'.
Defined.

(** A timer thirty days ahead: the number of milliseconds does not fit an [int],
    and a negative timeout has [epoll_wait] block for ever. *)
Example far_timer_blocks : duration_milliseconds (30 * 24 * 3600 * 1000000000) < 0.
Proof. reflexivity. Qed.

(** The last call of [hard_pollfd] fails: both descriptors stay, so it is not
    called again, and the descriptor for wakes is not registered. *)
Example setup_half_done : hard_pollfd (PollSetup (Some 3) (Some 4) false) = (3, 4, [], true) ∧
  hard_pollfd (PollSetup (Some 3) None true) = (-1, -1, [3], true).
Proof. done. Qed.
