(* ===== verification/Curl.v ===== *)
(** libcurl on the event loop: [src/cotamer/curl.cc] and [curl.hh].

    A [curl_driver] owns the sockets of libcurl, runs one coroutine per socket
    that libcurl wants watched ([watch_task]) and one for its timer
    ([timer_task]); [curl_fetch] runs a transfer.  libcurl is outside of the
    program: a call to it is given by the callbacks it makes before it returns,
    and by the completion messages it has afterwards.  [legal_cb] and
    [legal_msg] state what its documentation and the system promise about them:
    a socket it closes is no longer polled, a new socket's number is of none
    that is polled or held, and callbacks of a transfer come between its being
    added and removed.

    The coroutines are cut at their [co_await].  Five fields of the state are not
    the program's: the coroutine on the stack, the socket actions libcurl was
    told, and what libcurl did, recorded from its calls and not from what the
    driver makes of them ([note]): the sockets it opened through the driver and
    did not close ([opened]), what it asked to poll ([asked], of any socket), and
    to time ([timer_asked]). *)

From S2P Require Import Prelude SMap Text.

(** * libcurl's numbers *)

Definition CURL_POLL_IN : Z := 1.
Definition CURL_POLL_OUT : Z := 2.
Definition CURL_POLL_REMOVE : Z := 4.
Definition CURL_CSELECT_IN : Z := 1.
Definition CURL_CSELECT_OUT : Z := 2.
Definition CURL_SOCKET_BAD : Z := -1.
Definition CURL_SOCKET_TIMEOUT : Z := -1.
Definition CURLE_OK : Z := 0.

Definition fdevent_read : Z := 1.
Definition fdevent_write : Z := 2.

(** * State *)

(** [ev] is [None] until the event of the watch triggers, and then holds its
    user flags; [awaited] is the mask the event was made with; [task_] names the
    coroutine. *)
Record watch_state := WatchState {
  mask : Z;
  ev : option Z;
  awaited : Z;
  task_ : nat
}.

(** The timer's event: waiting, perhaps for a time, or triggered, with flags. *)
Inductive expiry := E_wait (deadline : option Z) | E_triggered (flags : Z).

Record full_response := FullResponse {
  cr_result : Z;
  body : txt;
  headers : list (txt * txt);
  done : bool
}.

Record curl_driver := CurlDriver {
  fds_ : gset Z;
  watches_ : gmap Z watch_state;
  current_socket_ : Z;
  expiry_ : expiry;
  next_timeout_ : Z
}.

(** [frames] has, for each [watch_task] coroutine, the socket whose [fd] it
    keeps; [fetches] the responses that transfers write to, by easy handle. *)
Record world := World {
  drv : curl_driver;
  frames : gmap nat Z;
  fetches : gmap Z full_response;
  clock : Z;
  on_stack : option nat;
  opened : gset Z;
  asked : gmap Z Z;
  timer_asked : option (Z * Z);
  actions : list (Z * Z)
}.

Definition set_drv (w : world) (d : curl_driver) : world :=
  World d (frames w) (fetches w) (clock w) (on_stack w) (opened w) (asked w) (timer_asked w) (actions w).
Definition set_fds (w : world) (s : gset Z) : world :=
  set_drv w (CurlDriver s (watches_ (drv w)) (current_socket_ (drv w)) (expiry_ (drv w)) (next_timeout_ (drv w))).
Definition set_watches (w : world) (ws : gmap Z watch_state) : world :=
  set_drv w (CurlDriver (fds_ (drv w)) ws (current_socket_ (drv w)) (expiry_ (drv w)) (next_timeout_ (drv w))).
Definition set_current (w : world) (s : Z) : world :=
  set_drv w (CurlDriver (fds_ (drv w)) (watches_ (drv w)) s (expiry_ (drv w)) (next_timeout_ (drv w))).
Definition set_timer (w : world) (e : expiry) (n : Z) : world :=
  set_drv w (CurlDriver (fds_ (drv w)) (watches_ (drv w)) (current_socket_ (drv w)) e n).
Definition set_frames (w : world) (f : gmap nat Z) : world :=
  World (drv w) f (fetches w) (clock w) (on_stack w) (opened w) (asked w) (timer_asked w) (actions w).
Definition set_fetches (w : world) (f : gmap Z full_response) : world :=
  World (drv w) (frames w) f (clock w) (on_stack w) (opened w) (asked w) (timer_asked w) (actions w).
Definition set_on_stack (w : world) (o : option nat) : world :=
  World (drv w) (frames w) (fetches w) (clock w) o (opened w) (asked w) (timer_asked w) (actions w).
Definition set_asked (w : world) (a : gmap Z Z) : world :=
  World (drv w) (frames w) (fetches w) (clock w) (on_stack w) (opened w) a (timer_asked w) (actions w).
Definition set_opened (w : world) (o : gset Z) : world :=
  World (drv w) (frames w) (fetches w) (clock w) (on_stack w) o (asked w) (timer_asked w) (actions w).
Definition set_timer_asked (w : world) (t : option (Z * Z)) : world :=
  World (drv w) (frames w) (fetches w) (clock w) (on_stack w) (opened w) (asked w) t (actions w).
Definition add_action (w : world) (s bits : Z) : world :=
  World (drv w) (frames w) (fetches w) (clock w) (on_stack w) (opened w) (asked w) (timer_asked w) (actions w ++ [(s, bits)]).

(** * Sockets *)

(** The answers to [::socket] and [set_nonblocking]. *)
Inductive open_answer := O_no_socket | O_blocking (s : Z) | O_socket (s : Z).

Definition opensocket_cb (a : open_answer) (w : world) : Z * world :=
  match a with
  | O_no_socket | O_blocking _ => (CURL_SOCKET_BAD, w)
  | O_socket s => (s, set_fds w ({[s]} ∪ fds_ (drv w)))
  end.

Definition closesocket_cb (s : Z) (w : world) : world := set_fds w (fds_ (drv w) ∖ {[s]}).

(** Destroying the coroutine that is running is undefined. *)
Definition destroy_task (id : nat) (w : world) : option world :=
  if bool_decide (on_stack w = Some id) then None else Some (set_frames w (delete id (frames w))).

(** [watches_.erase]: the entry owns its coroutine. *)
Definition erase_watch (s : Z) (w : world) : option world :=
  match watches_ (drv w) !! s with
  | None => Some w
  | Some ws => w ← destroy_task (task_ ws) w; Some (set_watches w (delete s (watches_ (drv w))))
  end.

(** * The coroutine of a socket *)

Definition event_mask (m : Z) : Z :=
  Z.lor (if negb (Z.land m CURL_POLL_IN =? 0) then fdevent_read else 0)
        (if negb (Z.land m CURL_POLL_OUT =? 0) then fdevent_write else 0).

Definition action_bits (fired : Z) : Z :=
  Z.lor (if negb (Z.land fired fdevent_read =? 0) then CURL_CSELECT_IN else 0)
        (if negb (Z.land fired fdevent_write =? 0) then CURL_CSELECT_OUT else 0).

(** After the loop: the entry gives up the coroutine, which ends. *)
Definition watch_end (id : nat) (sock : Z) (w : world) : world :=
  let w := match watches_ (drv w) !! sock with
           | Some ws => if bool_decide (task_ ws = id) then set_watches w (delete sock (watches_ (drv w))) else w
           | None => w
           end in
  set_frames w (delete id (frames w)).

(** From the test of the loop to [co_await w.ev]; [w] must still exist. *)
Definition watch_head (id : nat) (sock : Z) (w : world) : option world :=
  ws ← watches_ (drv w) !! sock;
  if negb (bool_decide (task_ ws = id)) then None
  else if mask ws =? CURL_POLL_REMOVE then Some (watch_end id sock w)
  else Some (set_watches w (<[sock := WatchState (mask ws) None (event_mask (mask ws)) id]> (watches_ (drv w)))).

(** The coroutine is made, and runs to its first [co_await]. *)
Definition start_watch (s what : Z) (w : world) : option world :=
  let id := fresh (dom (frames w)) in
  let w := set_watches w (<[s := WatchState what None 0 id]> (watches_ (drv w))) in
  watch_head id s (set_frames w (<[id := s]> (frames w))).

Definition socket_cb (s what : Z) (w : world) : option world :=
  if (what =? CURL_POLL_REMOVE) && negb (s =? current_socket_ (drv w)) then erase_watch s w
  else
    match watches_ (drv w) !! s with
    | Some ws =>
        Some (set_watches w (<[s := WatchState what (Some (default 0 (ev ws))) (awaited ws) (task_ ws)]> (watches_ (drv w))))
    | None =>
        if negb (what =? CURL_POLL_REMOVE) && bool_decide (s ∈ fds_ (drv w)) then start_watch s what w else Some w
    end.

Definition timer_cb (timeout_ms : Z) (w : world) : world :=
  set_timer w (match expiry_ (drv w) with E_wait _ => E_triggered 1 | e => e end) timeout_ms.

(** * The data of a transfer *)

Definition write_body_cb (data : txt) (cr : full_response) : full_response :=
  FullResponse (cr_result cr) (body cr ++ data) (headers cr) (done cr).

(** [std::multimap::emplace]: after the entries with the same name. *)
Fixpoint emplace (name value : txt) (hs : list (txt * txt)) : list (txt * txt) :=
  match hs with
  | [] => [(name, value)]
  | h :: hs' => if txt_ltb name h.1 then (name, value) :: hs else h :: emplace name value hs'
  end.

Definition is_newline (c : ascii) : bool := ceqb c "010"%char || ceqb c "013"%char.
Definition is_blank (c : ascii) : bool := ceqb c " "%char || ceqb c "009"%char.

(** Characters dropped from the front while they satisfy [p]. *)
Fixpoint drop_front (p : ascii → bool) (s : txt) : txt :=
  match s with [] => [] | c :: s' => if p c then drop_front p s' else s end.
Definition strip_line (s : txt) : txt := reverse (drop_front is_newline (reverse s)).

Definition header_of (line : txt) : option (txt * txt) :=
  let line := strip_line line in
  if bool_decide (line = []) then None
  else if starts_with $"HTTP/" line then None
  else
    colon ← index_of ":"%char line;
    Some (take colon line, drop_front is_blank (drop (colon + 1) line)).

Definition write_header_cb (line : txt) (cr : full_response) : full_response :=
  match header_of line with
  | None => cr
  | Some (name, value) => FullResponse (cr_result cr) (body cr) (emplace name value (headers cr)) (done cr)
  end.

(** Completion messages: of a transfer with its result, or of another kind. *)
Inductive curl_msg := CURLMSG_DONE (easy : Z) (res : Z) | CURLMSG_OTHER.

Definition process_msg (m : curl_msg) (w : world) : option world :=
  match m with
  | CURLMSG_OTHER => Some w
  | CURLMSG_DONE easy res =>
      cr ← fetches w !! easy;
      Some (set_fetches w (<[easy := FullResponse res (body cr) (headers cr) true]> (fetches w)))
  end.

Definition process_multi (ms : list curl_msg) (w : world) : option world :=
  foldl (λ o m, o ≫= process_msg m) (Some w) ms.

(** * Calls of libcurl *)

Inductive callback :=
  | CB_open (a : open_answer)
  | CB_close (s : Z)
  | CB_socket (s what : Z)
  | CB_timer (ms : Z)
  | CB_body (easy : Z) (data : txt)
  | CB_header (easy : Z) (line : txt).

Definition change_fetch (easy : Z) (f : full_response → full_response) (w : world) : option world :=
  cr ← fetches w !! easy; Some (set_fetches w (<[easy := f cr]> (fetches w))).

(** What a call says libcurl did or wants. *)
Definition note (c : callback) (w : world) : world :=
  match c with
  | CB_open (O_socket s) => set_opened w ({[s]} ∪ opened w)
  | CB_close s => set_opened w (opened w ∖ {[s]})
  | CB_socket s what => set_asked w (if what =? CURL_POLL_REMOVE then delete s (asked w) else <[s := what]> (asked w))
  | CB_timer ms => set_timer_asked w (if ms <? 0 then None else Some (clock w, ms))
  | _ => w
  end.

Definition run_cb (c : callback) (w : world) : option world :=
  let w := note c w in
  match c with
  | CB_open a => Some (opensocket_cb a w).2
  | CB_close s => Some (closesocket_cb s w)
  | CB_socket s what => socket_cb s what w
  | CB_timer ms => Some (timer_cb ms w)
  | CB_body easy data => change_fetch easy (write_body_cb data) w
  | CB_header easy line => change_fetch easy (write_header_cb line) w
  end.

Fixpoint run_cbs (cs : list callback) (w : world) : option world :=
  match cs with [] => Some w | c :: cs => w ← run_cb c w; run_cbs cs w end.

Definition socket_action (s bits : Z) (cs : list callback) (w : world) : option world :=
  run_cbs cs (add_action w s bits).

(** [watch_task] from its [co_await] to the next, or to its end. *)
Definition watch_resume (sock : Z) (cs : list callback) (ms : list curl_msg) (w : world) : option world :=
  ws ← watches_ (drv w) !! sock;
  fired ← ev ws;
  let id := task_ ws in
  let w := set_on_stack w (Some id) in
  w ← (if fired =? 0 then Some w
       else
         let w := set_current w sock in
         w ← socket_action sock (action_bits fired) cs w;
         process_multi ms (set_current w CURL_SOCKET_BAD));
  w ← watch_head id sock w;
  Some (set_on_stack w None).

(** * The coroutine of the timer *)

(** The test of the loop, to [co_await expiry_]. *)
Definition timer_head (w : world) : world :=
  match expiry_ (drv w) with
  | E_wait _ => w
  | E_triggered _ =>
      let n := next_timeout_ (drv w) in
      set_timer w (E_wait (if n <? 0 then None else Some (clock w + n))) (-1)
  end.

Definition timer_resume (cs : list callback) (ms : list curl_msg) (w : world) : option world :=
  match expiry_ (drv w) with
  | E_wait _ => None
  | E_triggered flags =>
      w ← (if negb (flags =? 0) then Some w
           else w ← socket_action CURL_SOCKET_TIMEOUT 0 cs (set_timer_asked w None); process_multi ms w);
      Some (timer_head w)
  end.

(** * Transfers *)

Definition new_full_response : full_response := FullResponse CURLE_OK [] [] false.

(** [curl_fetch] up to [co_await cr.done]: [easy] is the handle that libcurl
    made, if it could. *)
Definition fetch_start (easy : option Z) (cs : list callback) (w : world) : result (option world) :=
  match easy with
  | None => Throw $"curl_easy_init failed"
  | Some easy => Ok (run_cbs cs (set_fetches w (<[easy := new_full_response]> (fetches w))))
  end.

(** The end of the coroutine, done or cancelled: [easy_guard] removes the handle. *)
Definition fetch_end (easy : Z) (cs : list callback) (w : world) : option world :=
  w ← run_cbs cs w; Some (set_fetches w (delete easy (fetches w))).

Record curl_response := CurlResponse { status : Z; resp_body : txt; resp_headers : list (txt * txt) }.
Record curl_error := CurlError { err_code : Z; err_what : txt }.

(** After [cr.done]: the response, or the error libcurl reported. *)
Definition fetch_result (cr : full_response) (errbuf strerror : txt) (response_code : Z) : curl_response + curl_error :=
  if negb (cr_result cr =? CURLE_OK)
  then inr (CurlError (cr_result cr) (if bool_decide (errbuf = []) then strerror else errbuf))
  else inl (CurlResponse response_code (body cr) (headers cr)).

(** ** The driver *)

Definition new_curl_driver : curl_driver := CurlDriver ∅ ∅ CURL_SOCKET_BAD (E_wait None) (-1).

(** * Steps

    Between them no coroutine is on the stack.  [S_ready] is a notification of
    the kernel, [S_expire] the timer of the event loop. *)
Inductive step :=
  | S_time (dt : Z)
  | S_ready (s flags : Z)
  | S_watch (s : Z) (cs : list callback) (ms : list curl_msg)
  | S_expire
  | S_timer (cs : list callback) (ms : list curl_msg)
  | S_fetch (easy : Z) (cs : list callback)
  | S_fetch_end (easy : Z) (cs : list callback).

Definition run_step (st : step) (w : world) : option world :=
  match st with
  | S_time dt => Some (World (drv w) (frames w) (fetches w) (clock w + dt) (on_stack w) (opened w) (asked w) (timer_asked w) (actions w))
  | S_ready s flags =>
      ws ← watches_ (drv w) !! s;
      Some (set_watches w (<[s := WatchState (mask ws) (Some flags) (awaited ws) (task_ ws)]> (watches_ (drv w))))
  | S_watch s cs ms => watch_resume s cs ms w
  | S_expire => Some (set_timer w (E_triggered 0) (next_timeout_ (drv w)))
  | S_timer cs ms => timer_resume cs ms w
  | S_fetch easy cs => match fetch_start (Some easy) cs w with Ok o => o | Throw _ => None end
  | S_fetch_end easy cs => fetch_end easy cs w
  end.

(** What libcurl and the system promise about a callback. *)
Definition no_frame (s : Z) (w : world) : Prop := map_Forall (λ _ x, x ≠ s) (frames w).

Definition legal_cb (c : callback) (w : world) : Prop :=
  match c with
  | CB_open (O_socket s) => 0 ≤ s ∧ s ∉ opened w ∧ asked w !! s = None ∧ no_frame s w
  | CB_open _ | CB_timer _ => True
  | CB_close s => asked w !! s = None
  | CB_socket s what => 0 ≤ s ∧ 0 ≤ what ≤ 4 ∧ (what ≠ CURL_POLL_REMOVE → s ∈ opened w ∨ no_frame s w)
  | CB_body easy _ | CB_header easy _ => is_Some (fetches w !! easy)
  end.

Fixpoint legal_cbs (cs : list callback) (w : world) : Prop :=
  match cs with
  | [] => True
  | c :: cs => legal_cb c w ∧ match run_cb c w with Some w' => legal_cbs cs w' | None => True end
  end.

Definition legal_msg (w : world) (m : curl_msg) : Prop :=
  match m with CURLMSG_DONE easy _ => is_Some (fetches w !! easy) | CURLMSG_OTHER => True end.

(** The state in which libcurl runs for the watch [ws] of the socket [s]. *)
Definition acting (s : Z) (ws : watch_state) (fired : Z) (w : world) : world :=
  add_action (set_current (set_on_stack w (Some (task_ ws))) s) s (action_bits fired).

Definition legal (st : step) (w : world) : Prop :=
  match st with
  | S_time dt => 0 ≤ dt
  | S_ready s flags => match watches_ (drv w) !! s with Some ws => ev ws = None ∧ flags ≠ 0 | None => False end
  | S_watch s cs ms =>
      match watches_ (drv w) !! s with
      | Some ws =>
          match ev ws with
          | Some fired => fired = 0 ∨ (legal_cbs cs (acting s ws fired w) ∧ Forall (legal_msg w) ms)
          | None => False
          end
      | None => False
      end
  | S_expire => match expiry_ (drv w) with E_wait (Some t) => t ≤ clock w | _ => False end
  | S_timer cs ms =>
      match expiry_ (drv w) with
      | E_triggered f => f ≠ 0 ∨ (legal_cbs cs (add_action (set_timer_asked w None) CURL_SOCKET_TIMEOUT 0) ∧ Forall (legal_msg w) ms)
      | _ => False
      end
  | S_fetch easy cs =>
      fetches w !! easy = None ∧ legal_cbs cs (set_fetches w (<[easy := new_full_response]> (fetches w)))
  | S_fetch_end easy cs => is_Some (fetches w !! easy) ∧ legal_cbs cs w
  end.

Definition start : world := World new_curl_driver ∅ ∅ 0 None ∅ ∅ None [].

Inductive reached : world → Prop :=
  | reached_start : reached start
  | reached_step w st w' : reached w → legal st w → run_step st w = Some w' → reached w'.

(** * The watches

    [busy] is the socket and coroutine that are inside of libcurl. *)
Record inv (busy : option (Z * nat)) (w : world) : Prop := {
  i_watch : ∀ s ws, watches_ (drv w) !! s = Some ws →
    frames w !! task_ ws = Some s ∧ 0 ≤ s ∧ (mask ws = CURL_POLL_REMOVE → busy = Some (s, task_ ws)) ∧
    (busy ≠ Some (s, task_ ws) → ev ws = None → awaited ws = event_mask (mask ws));
  i_frame : ∀ id s, frames w !! id = Some s → ∃ ws, watches_ (drv w) !! s = Some ws ∧ task_ ws = id;
  i_asked : ∀ s m, (asked w !! s = Some m ∧ s ∈ opened w) ↔
    m ≠ CURL_POLL_REMOVE ∧ ∃ ws, watches_ (drv w) !! s = Some ws ∧ mask ws = m;
  i_fds : fds_ (drv w) = opened w;
  i_busy : ∀ s id, busy = Some (s, id) → ∃ ws, watches_ (drv w) !! s = Some ws ∧ task_ ws = id ∧ is_Some (ev ws)
}.

Definition synced (busy : option (Z * nat)) (w : world) : Prop :=
  on_stack w = snd <$> busy ∧ current_socket_ (drv w) = from_option fst CURL_SOCKET_BAD busy.

(** The parts of the state that [inv] speaks about. *)
Definition same_watches (w w' : world) : Prop :=
  watches_ (drv w') = watches_ (drv w) ∧ frames w' = frames w ∧ asked w' = asked w ∧ opened w' = opened w ∧
  fds_ (drv w') = fds_ (drv w).

Lemma inv_same busy w w' : inv busy w → same_watches w w' → inv busy w'.
Proof. intros [H1 H2 H3 H4 H5] (E1 & E2 & E3 & E4 & E5). split; rewrite ?E1, ?E2, ?E3, ?E4, ?E5; done. Qed.

Lemma no_frame_no_watch busy w s : inv busy w → no_frame s w → watches_ (drv w) !! s = None.
Proof.
  intros H Hn. destruct (watches_ (drv w) !! s) as [ws|] eqn:E; [|done].
  destruct (i_watch _ _ H s ws E) as (Hf & _). by destruct (Hn _ _ Hf).
Qed.

(** Erasing the watch of another socket. *)
Lemma erase_ok busy w s : inv busy w → on_stack w = snd <$> busy → s ≠ from_option fst CURL_SOCKET_BAD busy →
  ∃ w', erase_watch s (set_asked w (delete s (asked w))) = Some w' ∧ inv busy w' ∧ on_stack w' = on_stack w ∧
    current_socket_ (drv w') = current_socket_ (drv w).
Proof.
  intros H Hst Hs. unfold erase_watch. cbn. pose proof H as [H1 H2 H3 H4 H5].
  destruct (watches_ (drv w) !! s) as [ws|] eqn:Ew.
  - assert (Hb : busy ≠ Some (s, task_ ws)) by (intros ->; done).
    unfold destroy_task. cbn. destruct (H1 s ws Ew) as (Hf & _).
    rewrite bool_decide_eq_false_2.
    2: { rewrite Hst. destruct busy as [[s' id]|]; [|done]. cbn. intros [= ->].
         destruct (H5 s' (task_ ws) eq_refl) as (ws' & Hw' & E & _). destruct (H1 s' ws' Hw') as (Hf' & _).
         rewrite E in Hf'. cbn in Hs. congruence. }
    cbn. eexists. split; [done|]. split; [|done]. split; cbn.
    + intros s' ws' [Hne Hw]%lookup_delete_Some. destruct (H1 s' ws' Hw) as (Hf' & R). split; [|done].
      rewrite lookup_delete_ne; [done|]. intros E. rewrite <-E in Hf'. congruence.
    + intros id s' [Hne Hf']%lookup_delete_Some. destruct (H2 id s' Hf') as (ws' & Hw & E). exists ws'. split; [|done].
      rewrite lookup_delete_ne; [done|]. intros ->. congruence.
    + intros s' m. specialize (H3 s' m). rewrite lookup_delete_Some. setoid_rewrite lookup_delete_Some. naive_solver.
    + done.
    + intros s' id ->. destruct (H5 s' id eq_refl) as (ws' & Hw & R). exists ws'. split; [|done].
      rewrite lookup_delete_ne; [done|]. cbn in Hs. done.
  - eexists. split; [done|]. split; [|done]. split; cbn; try done.
    intros s' m. specialize (H3 s' m). rewrite lookup_delete_Some. split; [naive_solver|]. intros (Hm & ws & Hw & E).
    destruct (proj2 H3) as [Ha Ho]; [split; [done|by exists ws]|]. split; [|done]. split; [congruence|done].
Qed.

(** A new value for the watch of a socket. *)
Lemma update_ok busy w s ws what a : inv busy w → watches_ (drv w) !! s = Some ws →
  (what = CURL_POLL_REMOVE → busy = Some (s, task_ ws) ∧ a = delete s (asked w)) →
  (what ≠ CURL_POLL_REMOVE → s ∈ opened w ∧ a = <[s := what]> (asked w)) →
  inv busy (set_watches (set_asked w a)
    (<[s := WatchState what (Some (default 0 (ev ws))) (awaited ws) (task_ ws)]> (watches_ (drv w)))).
Proof.
  intros [H1 H2 H3 H4 H5] Hw Hr Hn. destruct (H1 s ws Hw) as (Hf & Hs & _).
  assert (Ha : ∀ s' m, (a !! s' = Some m ∧ s' ∈ opened w) ↔
    (s' ≠ s ∧ asked w !! s' = Some m ∧ s' ∈ opened w) ∨ (s' = s ∧ m = what ∧ what ≠ CURL_POLL_REMOVE)).
  { intros s' m. destruct (decide (what = CURL_POLL_REMOVE)) as [E|E].
    - destruct (Hr E) as [_ ->]. rewrite lookup_delete_Some. naive_solver.
    - destruct (Hn E) as [Ho ->]. rewrite lookup_insert_Some. naive_solver. }
  split; cbn.
  - intros s' ws' [[<- <-]|[Hne Hw']]%lookup_insert_Some; [|by apply H1]. cbn. split; [done|]. split; [done|].
    split; [|done]. intros E. by destruct (Hr E).
  - intros id s' Hf'. destruct (H2 id s' Hf') as (ws' & Hw' & E). destruct (decide (s' = s)) as [->|Hne].
    + eexists. split; [apply lookup_insert_eq|]. cbn. congruence.
    + exists ws'. by rewrite lookup_insert_ne.
  - intros s' m. rewrite Ha, H3. setoid_rewrite lookup_insert_Some. split.
    + intros [(Hne & Hm & ws' & Hw' & E)|(-> & -> & Hm)]; (split; [done|]).
      * exists ws'. split; [by right|done].
      * eexists. split; [by left|done].
    + intros (Hm & ws' & [[<- <-]|[Hne Hw']] & E); cbn in *; [right; subst; done|]. left. split; [done|]. split; [done|by exists ws'].
  - done.
  - intros s' id E. destruct (H5 s' id E) as (ws' & Hw' & Et & He). destruct (decide (s' = s)) as [->|Hne].
    + eexists. split; [apply lookup_insert_eq|]. cbn. split; [congruence|done].
    + exists ws'. by rewrite lookup_insert_ne.
Qed.

(** The coroutine starts, or goes around its loop: it waits for the mask of its
    entry. *)
Lemma head_ok w s id ws : inv (Some (s, id)) w → watches_ (drv w) !! s = Some ws → task_ ws = id →
  ∃ w', watch_head id s w = Some w' ∧ inv None w'.
Proof.
  intros [H1 H2 H3 H4 H5] Hw Et. destruct (H1 s ws Hw) as (Hf & Hs & _). unfold watch_head. rewrite Hw. cbn [mbind option_bind].
  rewrite bool_decide_eq_true_2 by done. cbn [negb]. rewrite Et in Hf.
  assert (Hnb : ∀ s' ws', s' ≠ s → Some (s, id) ≠ Some (s', task_ ws')) by (intros s' ws' Hne [= E _]; by apply Hne).
  destruct (mask ws =? CURL_POLL_REMOVE) eqn:Em; bsimp; eexists; (split; [done|]).
  - unfold watch_end. rewrite Hw, bool_decide_eq_true_2 by done. split; cbn.
    + intros s' ws' [Hne Hw']%lookup_delete_Some. destruct (H1 s' ws' Hw') as (Hf' & Hs' & Hr & Ha).
      split; [|split; [done|split]].
      * rewrite lookup_delete_ne; [done|]. intros E. rewrite <-E in Hf'. congruence.
      * intros E. exfalso. by apply (Hnb s' ws'), Hr.
      * intros _. by apply Ha, Hnb.
    + intros id' s' [Hne Hf']%lookup_delete_Some. destruct (H2 id' s' Hf') as (ws' & Hw' & E). exists ws'. split; [|done].
      rewrite lookup_delete_ne; [done|]. intros ->. congruence.
    + intros s' m. rewrite H3. setoid_rewrite lookup_delete_Some. split; [|naive_solver].
      intros (Hm & ws' & Hw' & E). split; [done|]. exists ws'. split; [|done]. split; [|done]. intros ->. congruence.
    + done.
    + done.
  - split; cbn.
    + intros s' ws' [[<- <-]|[Hne Hw']]%lookup_insert_Some; cbn; [done|].
      destruct (H1 s' ws' Hw') as (Hf' & Hs' & Hr & Ha). split; [done|]. split; [done|]. split.
      * intros E. exfalso. by apply (Hnb s' ws'), Hr.
      * intros _. by apply Ha, Hnb.
    + intros id' s' Hf'. destruct (H2 id' s' Hf') as (ws' & Hw' & E). destruct (decide (s' = s)) as [->|Hne].
      * eexists. split; [apply lookup_insert_eq|]. cbn. congruence.
      * exists ws'. by rewrite lookup_insert_ne.
    + intros s' m. rewrite H3. setoid_rewrite lookup_insert_Some. split.
      * intros (Hm & ws' & Hw' & E). split; [done|]. destruct (decide (s' = s)) as [->|Hne]; [|exists ws'; naive_solver].
        eexists. split; [by left|]. cbn. congruence.
      * intros (Hm & ws' & [[<- <-]|[Hne Hw']] & E); (split; [done|]); [by exists ws|by exists ws'].
    + done.
    + done.
Qed.

Lemma watch_started_ok busy w s what : inv busy w → watches_ (drv w) !! s = None → 0 ≤ s → what ≠ CURL_POLL_REMOVE →
  s ∈ opened w →
  ∃ w', start_watch s what (set_asked w (<[s := what]> (asked w))) = Some w' ∧ inv busy w' ∧ on_stack w' = on_stack w ∧
    current_socket_ (drv w') = current_socket_ (drv w).
Proof.
  intros [H1 H2 H3 H4 H5] Hw Hs Hn Hfd. unfold start_watch, watch_head. cbn. set (id := fresh _).
  assert (Hid : frames w !! id = None) by (apply not_elem_of_dom; apply is_fresh).
  rewrite lookup_insert_eq. cbn. rewrite bool_decide_eq_true_2 by done. cbn [negb].
  rewrite (proj2 (Z.eqb_neq _ _)) by done. eexists. split; [done|]. split; [|done]. split; cbn.
  - intros s' ws'. rewrite insert_insert_eq.
    intros [[<- <-]|[Hne Hw']]%lookup_insert_Some; cbn; [rewrite lookup_insert_eq; done|].
    destruct (H1 s' ws' Hw') as (Hf' & R). split; [|done]. rewrite lookup_insert_ne; [done|]. intros E. rewrite <-E in Hf'. congruence.
  - intros id' s' [[<- <-]|[Hne Hf']]%lookup_insert_Some; [eexists; by rewrite lookup_insert_eq|].
    destruct (H2 id' s' Hf') as (ws' & Hw' & E). exists ws'. rewrite !lookup_insert_ne by (intros ->; congruence). done.
  - intros s' m. rewrite insert_insert_eq, lookup_insert_Some. setoid_rewrite lookup_insert_Some. split.
    + intros [[[<- <-]|[Hne Ha]] Ho]; [split; [done|]; eexists; by split; [left|]|].
      destruct (proj1 (H3 s' m) (conj Ha Ho)) as (Hm & ws' & Hw' & E). split; [done|]. exists ws'. split; [by right|done].
    + intros (Hm & ws' & [[<- <-]|[Hne Hw']] & E); cbn in *; [split; [by left|done]|].
      destruct (proj2 (H3 s' m)) as [Ha Ho]; [split; [done|by exists ws']|]. split; [by right|done].
  - done.
  - intros s' id' E. destruct (H5 s' id' E) as (ws' & Hw' & R). exists ws'. rewrite !lookup_insert_ne by (intros ->; congruence). done.
Qed.

Lemma socket_cb_ok busy w s what : inv busy w → synced busy w → legal_cb (CB_socket s what) w →
  ∃ w', run_cb (CB_socket s what) w = Some w' ∧ inv busy w' ∧ synced busy w'.
Proof.
  intros H [Hst Hcur] (Hs & Hwhat & Hknown). pose proof H as [H1 H2 H3 H4 H5]. unfold run_cb, note, socket_cb.
  destruct (what =? CURL_POLL_REMOVE) eqn:Er; bsimp; cbn [andb].
  - subst what. cbn. rewrite Hcur. destruct (s =? from_option fst CURL_SOCKET_BAD busy) eqn:Es; bsimp; cbn [negb].
    + destruct busy as [[s' id]|]; cbn in Es; [|unfold CURL_SOCKET_BAD in *; lia]. subst s'.
      destruct (H5 s id eq_refl) as (ws & Hw & Et & _). cbn in Hw. rewrite Hw. eexists. split; [done|]. split; [|done].
      apply (update_ok (Some (s, id)) w s ws CURL_POLL_REMOVE); [done|done|by rewrite Et|done].
    + destruct (erase_ok busy w s H Hst Es) as (w' & E & H' & S' & C'). exists w'. split; [done|]. split; [done|].
      split; congruence.
  - specialize (Hknown Er). cbn. destruct (watches_ (drv w) !! s) as [ws|] eqn:Ew.
    + eexists. split; [done|]. split; [|done]. apply (update_ok busy w s ws what); [done|done|done|]. intros _. split; [|done].
      destruct Hknown as [?|Hno]; [done|]. rewrite (no_frame_no_watch busy w s H Hno) in Ew. done.
    + rewrite H4. destruct (bool_decide (s ∈ opened w)) eqn:Ef; bsimp; cbn [negb andb].
      * destruct (watch_started_ok busy w s what H Ew Hs Er Ef) as (w' & E & H' & S' & C'). exists w'. split; [done|]. split; [done|].
        split; congruence.
      * eexists. split; [done|]. split; [|done]. split; cbn; try done. intros s' m. rewrite <-H3, lookup_insert_Some. naive_solver.
Qed.

(** A socket that nothing asks for comes or goes. *)
Lemma opened_ok busy w s o : inv busy w → asked w !! s = None → (∀ s', s' ≠ s → s' ∈ o ↔ s' ∈ opened w) →
  inv busy (set_fds (set_opened w o) o).
Proof.
  intros [H1 H2 H3 H4 H5] Ha Ho. split; cbn; try done. intros s' m. destruct (decide (s' = s)) as [->|Hne].
  - rewrite <-H3, Ha. naive_solver.
  - by rewrite Ho, H3.
Qed.

Lemma run_cb_ok busy w c : inv busy w → synced busy w → legal_cb c w →
  ∃ w', run_cb c w = Some w' ∧ inv busy w' ∧ synced busy w'.
Proof.
  intros H Hsy Hl. pose proof (i_fds _ _ H) as Hf. destruct c as [a|s|s what|ms|easy data|easy line].
  - eexists. split; [done|]. destruct a as [|s|s]; cbn; [done|done|]. split; [|done]. destruct Hl as (_ & _ & Ha & _).
    rewrite Hf. apply (opened_ok busy w s); [done|done|set_solver].
  - eexists. split; [done|]. split; [|done]. cbn. unfold closesocket_cb. cbn. rewrite Hf. apply (opened_ok busy w s); [done|done|set_solver].
  - by apply socket_cb_ok.
  - eexists. split; [done|]. split; [|done]. by apply (inv_same busy w).
  - destruct Hl as [cr Hcr]. unfold run_cb, change_fetch. cbn. rewrite Hcr. eexists. split; [done|]. split; [|done]. by apply (inv_same busy w).
  - destruct Hl as [cr Hcr]. unfold run_cb, change_fetch. cbn. rewrite Hcr. eexists. split; [done|]. split; [|done]. by apply (inv_same busy w).
Qed.

Lemma run_cbs_ok busy cs : ∀ w, inv busy w → synced busy w → legal_cbs cs w →
  ∃ w', run_cbs cs w = Some w' ∧ inv busy w' ∧ synced busy w'.
Proof.
  induction cs as [|c cs IH]; intros w H Hsy Hl; [by exists w|]. destruct Hl as [Hl Hls]. cbn.
  destruct (run_cb_ok busy w c H Hsy Hl) as (w1 & E & H1 & S1). rewrite E in Hls |- *. cbn. by apply IH.
Qed.

(** ** What callbacks leave alone *)

(** Only [timer_cb] touches the timer; no callback ends a transfer or moves the
    clock. *)
Definition timer_of (w : world) : expiry * Z * option (Z * Z) := (expiry_ (drv w), next_timeout_ (drv w), timer_asked w).

Definition calm (w w' : world) : Prop :=
  timer_of w' = timer_of w ∧ clock w' = clock w ∧ ∀ easy, is_Some (fetches w !! easy) → is_Some (fetches w' !! easy).

#[export] Instance calm_preorder : PreOrder calm.
Proof.
  split; [by intros w|]. intros w1 w2 w3 (A1 & A2 & A3) (B1 & B2 & B3). split; [congruence|]. split; [congruence|]. auto.
Qed.

Lemma calm_head id s w w' : watch_head id s w = Some w' → calm w w'.
Proof.
  unfold watch_head. intros (ws & Hw & H)%bind_Some. destruct (negb _); [done|]. destruct (_ =? _); injection H as <-; [|done].
  unfold watch_end. destruct (watches_ (drv w) !! s) as [ws'|]; [|done]. by destruct (bool_decide _).
Qed.

Lemma calm_socket s what w w' : socket_cb s what w = Some w' → calm w w'.
Proof.
  unfold socket_cb. destruct (_ && _).
  - unfold erase_watch, destroy_task. destruct (watches_ (drv w) !! s) as [ws|]; [|by intros [= <-]].
    destruct (bool_decide _); [done|]. by intros [= <-].
  - destruct (watches_ (drv w) !! s) as [ws|]; [by intros [= <-]|]. destruct (_ && _); [|by intros [= <-]].
    unfold start_watch. intros H. apply calm_head in H. exact H.
Qed.

Lemma calm_fetch easy f w w' : change_fetch easy f w = Some w' → calm w w'.
Proof.
  unfold change_fetch. intros (cr & Hcr & [= <-])%bind_Some. split; [done|]. split; [done|]. cbn. intros e He.
  destruct (decide (e = easy)) as [->|Hne]; [by rewrite lookup_insert_eq|by rewrite lookup_insert_ne].
Qed.

Lemma calm_cb c w w' : run_cb c w = Some w' → (∀ ms, c ≠ CB_timer ms) → calm w w'.
Proof.
  destruct c as [a|s|s what|ms|easy data|easy line]; cbn [run_cb]; intros H Hn.
  - injection H as <-. by destruct a.
  - by injection H as <-.
  - apply calm_socket in H. exact H.
  - by destruct (Hn ms).
  - by eapply calm_fetch.
  - by eapply calm_fetch.
Qed.

Lemma fetches_cb c w w' easy : run_cb c w = Some w' → is_Some (fetches w !! easy) → is_Some (fetches w' !! easy).
Proof.
  intros H. destruct c as [a|s|s what|ms|e data|e line]; try by apply (calm_cb _ w w' H). by injection H as <-.
Qed.

Lemma fetches_cbs cs easy : ∀ w w', run_cbs cs w = Some w' → is_Some (fetches w !! easy) → is_Some (fetches w' !! easy).
Proof.
  induction cs as [|c cs IH]; intros w w' H He; [by injection H as <-|]. cbn in H. apply bind_Some in H as (w1 & E & H).
  eapply IH; [exact H|]. by eapply fetches_cb.
Qed.

(** * The timer

    A timeout that libcurl has asked for, and not been called back about, is
    either about to be set or waited for, for no less time than it asked.  While
    the timer's coroutine is inside of libcurl ([strict]), the last wish is what
    the coroutine will read. *)
Definition timer_inv (strict : bool) (w : world) : Prop :=
  match timer_asked w with
  | None => True
  | Some (t0, ms) =>
      0 ≤ ms ∧ t0 ≤ clock w ∧
      match expiry_ (drv w) with
      | E_wait None => False
      | E_wait (Some t) => strict = false ∧ t0 + ms ≤ t
      | E_triggered f => next_timeout_ (drv w) = ms ∨ (strict = false ∧ f = 0)
      end
  end.

Lemma timer_calm strict w w' : timer_inv strict w → timer_of w' = timer_of w → clock w' = clock w → timer_inv strict w'.
Proof. unfold timer_inv. intros H [= E1 E2 E3] E4. by rewrite E1, E2, E3, E4. Qed.

Lemma timer_cbs_ok strict cs : ∀ w w', timer_inv strict w → run_cbs cs w = Some w' →
  timer_inv strict w' ∧ clock w' = clock w ∧ (∀ f, expiry_ (drv w) = E_triggered f → expiry_ (drv w') = E_triggered f).
Proof.
  induction cs as [|c cs IH]; intros w w' H E; [by injection E as <-|]. cbn in E. apply bind_Some in E as (w1 & E1 & E).
  assert (Hc : timer_inv strict w1 ∧ clock w1 = clock w ∧ (∀ f, expiry_ (drv w) = E_triggered f → expiry_ (drv w1) = E_triggered f)).
  { destruct c as [a|s|s what|ms|e data|e line];
      try (apply calm_cb in E1 as ([= A1 A2 A3] & A4 & _); [|done]; split;
           [by apply (timer_calm strict w); [|unfold timer_of; congruence|]|split; [done|intros f; congruence]]).
    injection E1 as <-. unfold note, timer_cb, timer_inv. cbn. split; [|split; [done|]].
    - destruct (ms <? 0) eqn:Em; [done|]. cbn. bsimp. split; [done|]. split; [done|]. destruct (expiry_ (drv w)); by left.
    - intros f ->. done. }
  destruct Hc as (H1 & C1 & T1). destruct (IH w1 w' H1 E) as (H' & C' & T'). split; [done|]. split; [congruence|]. intros f Hf. by apply T', T1.
Qed.

(** The coroutine reads the last wish. *)
Lemma timer_head_ok w f : expiry_ (drv w) = E_triggered f → timer_inv true w → timer_inv false (timer_head w).
Proof.
  unfold timer_head, timer_inv. intros Hf. rewrite Hf. cbn. destruct (timer_asked w) as [[t0 ms]|]; [|done].
  intros (Hms & Ht & [En|[? _]]); [|done]. rewrite En, (proj2 (Z.ltb_ge _ _)) by done. split; [done|]. split; [done|]. split; [done|]. lia.
Qed.

Lemma timer_strict w f : expiry_ (drv w) = E_triggered f → f ≠ 0 → timer_inv false w → timer_inv true w.
Proof.
  unfold timer_inv. intros ->. destruct (timer_asked w) as [[t0 ms]|]; [|done]. intros Hf (Hms & Ht & [E|[_ ?]]); [|done].
  split; [done|]. split; [done|]. by left.
Qed.

(** * Every step succeeds *)

Lemma msgs_ok ms : ∀ w, Forall (legal_msg w) ms →
  ∃ w', process_multi ms w = Some w' ∧ same_watches w w' ∧ timer_of w' = timer_of w ∧ clock w' = clock w ∧
    on_stack w' = on_stack w ∧ current_socket_ (drv w') = current_socket_ (drv w).
Proof.
  induction ms as [|m ms IH]; intros w H; [by exists w|]. apply Forall_cons in H as [Hm H].
  unfold process_multi. cbn [foldl mbind option_bind].
  assert (Hs : ∃ w1, process_msg m w = Some w1 ∧ same_watches w w1 ∧ timer_of w1 = timer_of w ∧ clock w1 = clock w ∧
    on_stack w1 = on_stack w ∧ drv w1 = drv w ∧ ∀ e, is_Some (fetches w !! e) → is_Some (fetches w1 !! e)).
  { destruct m as [easy res|]; [|by exists w]. destruct Hm as [cr Hcr]. unfold process_msg. rewrite Hcr. eexists. split; [done|].
    repeat (split; [done|]). cbn. intros e He. destruct (decide (e = easy)) as [->|Hne]; [by rewrite lookup_insert_eq|by rewrite lookup_insert_ne]. }
  destruct Hs as (w1 & -> & S1 & T1 & C1 & O1 & D1 & F1). destruct (IH w1) as (w' & E & S' & T' & C' & O' & D').
  { eapply Forall_impl; [exact H|]. intros [e r|]; cbn; auto. }
  exists w'. split; [done|]. rewrite D1 in D'. split; [|split; [congruence|split; [congruence|split; [congruence|done]]]].
  destruct S1 as (? & ? & ? & ? & ?), S' as (? & ? & ? & ? & ?). unfold same_watches. do 4 (split; [congruence|]). congruence.
Qed.

Lemma legal_msgs_cbs cs ms w w' : run_cbs cs w = Some w' → Forall (legal_msg w) ms → Forall (legal_msg w') ms.
Proof. intros E H. eapply Forall_impl; [exact H|]. intros [e r|]; cbn; [|done]. by eapply fetches_cbs. Qed.

(** The state between steps. *)
Record resting (w : world) : Prop := {
  at_watches : inv None w;
  at_synced : synced None w;
  at_timer : timer_inv false w
}.

Lemma watch_step_ok w s cs ms : resting w → legal (S_watch s cs ms) w → ∃ w', watch_resume s cs ms w = Some w' ∧ resting w'.
Proof.
  intros [H [Hst Hcur] Ht] Hl. cbn in Hl. unfold watch_resume. destruct (watches_ (drv w) !! s) as [ws|] eqn:Ew; [|done].
  cbn [mbind option_bind]. destruct (ev ws) as [fired|] eqn:Ee; [|done]. cbn [mbind option_bind]. cbv zeta. set (id := task_ ws).
  assert (Hb : inv (Some (s, id)) w).
  { pose proof H as [H1 H2 H3 H4 H5]. split; try done.
    - intros s' ws' Hw'. destruct (H1 s' ws' Hw') as (A1 & A2 & A3 & A4). split; [done|]. split; [done|].
      split; [intros E; by apply A3 in E|]. intros _. by apply A4.
    - intros s' id' [= <- <-]. by exists ws. }
  destruct (fired =? 0) eqn:E0; bsimp; cbn [mbind option_bind].
  - assert (Hb' : inv (Some (s, id)) (set_on_stack w (Some id))) by (by apply (inv_same _ w)).
    destruct (head_ok _ s id ws Hb' Ew eq_refl) as (w' & E & H'). rewrite E. cbn. eexists. split; [done|].
    pose proof (calm_head _ _ _ _ E) as (C1 & C2 & _).
    split; [by apply (inv_same _ w')| |by apply (timer_calm false w)]. split; [done|]. cbn.
    unfold watch_head in E. cbn in E. rewrite Ew in E. cbn in E. rewrite bool_decide_eq_true_2 in E by done. cbn [negb] in E.
    destruct (mask ws =? CURL_POLL_REMOVE); injection E as <-; [|done]. unfold watch_end. cbn. rewrite Ew.
    by destruct (bool_decide _).
  - destruct Hl as [?|[Hl Hm]]; [done|]. unfold socket_action. set (w0 := add_action _ s _).
    assert (Hb' : inv (Some (s, id)) w0) by (by apply (inv_same _ w)).
    destruct (run_cbs_ok (Some (s, id)) cs w0 Hb' (conj eq_refl eq_refl) Hl) as (w1 & E1 & H1 & S1). rewrite E1. cbn [mbind option_bind].
    destruct (timer_cbs_ok false cs w0 w1) as (T1 & C1 & _); [by apply (timer_calm false w)|done|].
    set (w2 := set_current w1 CURL_SOCKET_BAD).
    destruct (msgs_ok ms w2) as (w3 & -> & S3 & T3 & C3 & O3 & D3).
    { eapply Forall_impl; [by apply (legal_msgs_cbs cs ms w0 w1)|]. by intros []. }
    cbn [mbind option_bind]. assert (H3 : inv (Some (s, id)) w3) by (apply (inv_same _ w1); [done|exact S3]).
    destruct (i_busy _ _ H3 s id eq_refl) as (ws3 & Hw3 & Et3 & _).
    destruct (head_ok w3 s id ws3 H3 Hw3 Et3) as (w' & E & H'). rewrite E. eexists. split; [done|].
    pose proof (calm_head _ _ _ _ E) as (C1' & C2' & _).
    split; [by apply (inv_same _ w')| |].
    + split; [done|]. cbn. unfold watch_head in E. rewrite Hw3 in E. cbn in E. rewrite bool_decide_eq_true_2 in E by done. cbn [negb] in E.
      destruct (mask ws3 =? CURL_POLL_REMOVE); injection E as <-; [|exact D3]. unfold watch_end. rewrite Hw3.
      by destruct (bool_decide _).
    + apply (timer_calm false w1); [done| |].
      * change (timer_of (set_on_stack w' None)) with (timer_of w'). rewrite C1', T3. done.
      * cbn. rewrite C2', C3. done.
Qed.

Lemma timer_step_ok w cs ms : resting w → legal (S_timer cs ms) w → ∃ w', timer_resume cs ms w = Some w' ∧ resting w'.
Proof.
  intros [H Hs Ht] Hl. cbn in Hl. unfold timer_resume. destruct (expiry_ (drv w)) as [t|f] eqn:Ee; [done|].
  assert (Hh : ∀ w1, same_watches w1 (timer_head w1) ∧ on_stack (timer_head w1) = on_stack w1 ∧
    current_socket_ (drv (timer_head w1)) = current_socket_ (drv w1)).
  { intros w1. unfold timer_head. by destruct (expiry_ (drv w1)). }
  destruct (f =? 0) eqn:E0; bsimp; cbn [negb mbind option_bind].
  - destruct Hl as [?|[Hl Hm]]; [done|]. unfold socket_action. set (w0 := add_action _ _ _) in *.
    assert (Hb' : inv None w0) by (by apply (inv_same _ w)).
    destruct (run_cbs_ok None cs w0 Hb' Hs Hl) as (w1 & E1 & H1 & S1). rewrite E1. cbn [mbind option_bind].
    destruct (timer_cbs_ok true cs w0 w1) as (T1 & C1 & X1); [done|done|]. specialize (X1 f Ee).
    destruct (msgs_ok ms w1) as (w3 & -> & S3 & T3 & C3 & O3 & D3).
    { apply (legal_msgs_cbs cs ms w0 w1); [done|]. eapply Forall_impl; [exact Hm|]. by intros []. }
    cbn [mbind option_bind]. eexists. split; [done|]. destruct (Hh w3) as (M1 & M2 & M3).
    split; [apply (inv_same _ w3); [by apply (inv_same _ w1)|done]| |].
    + destruct S1 as [S1a S1b]. split; congruence.
    + injection T3 as T3a T3b T3c. apply (timer_head_ok w3 f); [congruence|]. apply (timer_calm true w1); [done|unfold timer_of; congruence|done].
  - eexists. split; [done|]. destruct (Hh w) as (M1 & M2 & M3). destruct Hs as [Hs1 Hs2].
    split; [by apply (inv_same _ w)|split; congruence|]. apply (timer_head_ok w f); [done|]. by apply (timer_strict w f).
Qed.

Lemma run_step_ok w st : resting w → legal st w → ∃ w', run_step st w = Some w' ∧ resting w'.
Proof.
  intros HR Hl. pose proof HR as [H Hs Ht]. destruct st as [dt|s flags|s cs ms| |cs ms|easy cs|easy cs]; cbn [run_step].
  - eexists. split; [done|]. split; [by apply (inv_same _ w)|done|]. revert Ht. unfold timer_inv. cbn. cbn in Hl.
    destruct (timer_asked w) as [[t0 n]|]; [|done]. intros (A1 & A2 & A3). split; [done|]. split; [lia|done].
  - cbn in Hl. destruct (watches_ (drv w) !! s) as [ws|] eqn:Ew; [|done]. destruct Hl as [Hev Hf]. cbn [mbind option_bind].
    eexists. split; [done|]. split; [|done|done]. pose proof H as [H1 H2 H3 H4 H5]. split; cbn; try done.
    + intros s' ws' [[<- <-]|[Hne Hw']]%lookup_insert_Some; [|by apply H1]. cbn. destruct (H1 s ws Ew) as (A1 & A2 & A3 & A4). done.
    + intros id s' Hf'. destruct (H2 id s' Hf') as (ws' & Hw' & E). destruct (decide (s' = s)) as [->|Hne].
      * eexists. split; [apply lookup_insert_eq|]. cbn. congruence.
      * exists ws'. by rewrite lookup_insert_ne.
    + intros s' m. rewrite H3. setoid_rewrite lookup_insert_Some. split.
      * intros (Hm & ws' & Hw' & E). split; [done|]. destruct (decide (s' = s)) as [->|Hne]; [|exists ws'; naive_solver].
        eexists. split; [by left|]. cbn. congruence.
      * intros (Hm & ws' & [[<- <-]|[Hne Hw']] & E); (split; [done|]); [by exists ws|by exists ws'].
  - by apply watch_step_ok.
  - cbn in Hl. eexists. split; [done|]. split; [by apply (inv_same _ w)|done|]. revert Ht Hl. unfold timer_inv. cbn.
    destruct (timer_asked w) as [[t0 n]|]; [|done]. intros (A1 & A2 & A3). destruct (expiry_ (drv w)); [|done]. intros _.
    split; [done|]. split; [done|]. by right.
  - by apply timer_step_ok.
  - destruct Hl as [He Hl]. cbn [fetch_start]. set (w0 := set_fetches w _) in *.
    assert (Hb' : inv None w0) by (by apply (inv_same _ w)).
    destruct (run_cbs_ok None cs w0 Hb' Hs Hl) as (w1 & E1 & H1 & S1). rewrite E1. eexists. split; [done|].
    destruct (timer_cbs_ok false cs w0 w1) as (T1 & C1 & _); [by apply (timer_calm false w)|done|]. by split.
  - destruct Hl as [He Hl]. unfold fetch_end.
    destruct (run_cbs_ok None cs w H Hs Hl) as (w1 & E1 & H1 & S1). rewrite E1. cbn. eexists. split; [done|].
    destruct (timer_cbs_ok false cs w w1 Ht E1) as (T1 & C1 & _). split; [by apply (inv_same _ w1)|done|by apply (timer_calm false w1)].
Qed.

Lemma reached_resting w : reached w → resting w.
Proof.
  induction 1 as [|w st w' _ IH Hl E].
  - split; [|done|done]. split; cbn; try done. intros s m. rewrite !lookup_empty. split; [by intros []|]. by intros (_ & ws & Hw & _).
  - destruct (run_step_ok w st IH Hl) as (w1 & E1 & H1). congruence.
Qed.

(** * Results *)

(** C32 The driver watches what libcurl asks for.  What libcurl did is recorded
    from its calls alone: the sockets it opened through the driver and has not
    closed, and the mask it last asked for each socket, opened through the
    driver or not.  In every state a driver can reach, each step that libcurl
    and the system may cause succeeds: no coroutine is destroyed while it runs,
    none uses an entry that is gone, and no callback writes to a response that
    is gone.  Between steps the driver holds exactly the sockets libcurl opened
    through it; the sockets watched, with their masks, are exactly those of them
    that libcurl asks for (it is asked in vain for any other socket); the
    entries and the running coroutines match one to one; and a coroutine that is
    asleep waits for the events of its mask. *)
Theorem curl_watches_asked (w : world) : reached w →
  (∀ st, legal st w → ∃ w', run_step st w = Some w' ∧ reached w') ∧
  fds_ (drv w) = opened w ∧
  (∀ s m, (asked w !! s = Some m ∧ s ∈ opened w) ↔ ∃ ws, watches_ (drv w) !! s = Some ws ∧ mask ws = m) ∧
  (∀ s ws, watches_ (drv w) !! s = Some ws →
     frames w !! task_ ws = Some s ∧ (ev ws = None → awaited ws = event_mask (mask ws))) ∧
  (∀ id s, frames w !! id = Some s → ∃ ws, watches_ (drv w) !! s = Some ws ∧ task_ ws = id).
Proof.
  intros Hr. pose proof (reached_resting w Hr) as HR. pose proof HR as [[H1 H2 H3 H4 H5] _ _].
  assert (Hne : ∀ s ws, watches_ (drv w) !! s = Some ws → mask ws ≠ CURL_POLL_REMOVE).
  { intros s ws Hw E. by apply (H1 s ws) in Hw as (_ & _ & Hx & _); apply Hx in E. }
  split; [|split; [exact H4|split; [|split; [|exact H2]]]].
  - intros st Hl. destruct (run_step_ok w st HR Hl) as (w' & E & _). exists w'. split; [done|]. by eapply reached_step.
  - intros s m. rewrite H3. split; [by intros [_ ?]|]. intros (ws & Hw & <-). split; [by apply (Hne s)|by exists ws].
  - intros s ws Hw. destruct (H1 s ws Hw) as (A1 & A2 & A3 & A4). split; [done|]. by apply A4.
Qed.

(** No timeout of libcurl is lost.  While a timeout it asked for has not been
    reported, the timer's coroutine is about to run and will read it, or report
    at once; or it waits for a time no earlier than asked.  When that time has
    come the steps that report it are possible. *)
Theorem curl_timeout_kept (w : world) (t0 ms : Z) : reached w → timer_asked w = Some (t0, ms) →
  match expiry_ (drv w) with
  | E_wait None => False
  | E_wait (Some t) => t0 + ms ≤ t ∧
      (t ≤ clock w → ∃ w1 w2, run_step S_expire w = Some w1 ∧ run_step (S_timer [] []) w1 = Some w2 ∧
         reached w2 ∧ timer_asked w2 = None ∧ actions w2 = actions w ++ [(CURL_SOCKET_TIMEOUT, 0)])
  | E_triggered f => next_timeout_ (drv w) = ms ∨ f = 0
  end.
Proof.
  intros Hr Ha. pose proof (at_timer _ (reached_resting w Hr)) as Ht. unfold timer_inv in Ht. rewrite Ha in Ht.
  destruct Ht as (_ & _ & Ht). destruct (expiry_ (drv w)) as [[t|]|f] eqn:Ee; [|done|naive_solver].
  split; [apply Ht|]. intros Hle.
  assert (L1 : legal S_expire w) by (cbn; by rewrite Ee).
  pose proof (reached_step w S_expire _ Hr L1 eq_refl) as R1. set (w1 := set_timer w _ _) in R1.
  assert (L2 : legal (S_timer [] []) w1) by (cbn; right; by split).
  exists w1. eexists. split; [done|]. split; [done|]. split; [by apply (reached_step w1 (S_timer [] []) _ R1 L2)|]. done.
Qed.

(** ** Header lines *)

Lemma drop_front_app p s t : Forall (λ c, p c = true) s → drop_front p (s ++ t) = drop_front p t.
Proof. induction 1 as [|c s Hc _ IH]; cbn; [done|]. by rewrite Hc. Qed.

Lemma drop_front_keeps p s : (∀ c, head s = Some c → p c = false) → drop_front p s = s.
Proof. destruct s as [|c s]; cbn; [done|]. intros H. by rewrite (H c). Qed.

(** A header line is read as it was written: the name up to the first colon,
    the value without the blanks before it and the end of the line. *)
Theorem header_line_roundtrip (name value blanks : txt) :
  name ≠ [] → ":"%char ∉ name → starts_with $"HTTP/" (name ++ $":") = false →
  Forall (λ c, is_blank c = true) blanks →
  (∀ c, head value = Some c → is_blank c = false) →
  (∀ c, last ((":"%char :: blanks) ++ value) = Some c → is_newline c = false) →
  header_of (name ++ $":" ++ blanks ++ value ++ ["013"%char; "010"%char]) = Some (name, value).
Proof.
  intros Hne Hc Hh Hb Hv Hl. unfold header_of.
  assert (Es : strip_line (name ++ $":" ++ blanks ++ value ++ ["013"%char; "010"%char]) = name ++ ":"%char :: blanks ++ value).
  { unfold strip_line. change ($":" ++ ?x) with (":"%char :: x). 
    replace (name ++ ":"%char :: blanks ++ value ++ ["013"%char; "010"%char])
      with ((name ++ ":"%char :: blanks ++ value) ++ ["013"%char; "010"%char]) by (rewrite <-!(assoc_L (++)); cbn; by rewrite <-(assoc_L (++))).
    rewrite reverse_app. change (reverse ["013"%char; "010"%char]) with ["010"%char; "013"%char].
    rewrite drop_front_app by (by repeat constructor). rewrite drop_front_keeps; [apply reverse_involutive|].
    intros c. rewrite head_reverse. intros E. apply Hl. revert E. rewrite last_app. cbn [app].
    destruct (last (":"%char :: blanks ++ value)) as [d|] eqn:El; [done|]. by apply last_None in El. }
  rewrite Es. rewrite bool_decide_eq_false_2 by (by destruct name).
  assert (E2 : starts_with $"HTTP/" (name ++ ":"%char :: blanks ++ value) = false).
  { clear -Hh Hc. destruct (starts_with _ (_ ++ _ :: _)) eqn:E; [|done]. exfalso. apply starts_with_true in E as [t E].
    destruct (decide (5 ≤ length name)%nat) as [L|L].
    - assert (Hp : take 5 name = $"HTTP/").
      { apply (f_equal (take 5)) in E. rewrite take_app_le in E by done. exact E. }
      assert (Hs : starts_with $"HTTP/" (name ++ $":") = true); [|congruence]. apply starts_with_true. exists (drop 5 name ++ $":").
      by rewrite <-Hp, (assoc_L (++)), take_drop.
    - assert (Hi : nth_error (name ++ ":"%char :: blanks ++ value) (length name) = Some ":"%char).
      { rewrite nth_error_app2 by lia. by rewrite Nat.sub_diag. }
      rewrite E in Hi. destruct (length name) as [|[|[|[|[|n]]]]]; cbn in Hi; try discriminate Hi; lia. }
  rewrite E2, index_of_app by done. cbn [mbind option_bind]. rewrite take_app_length.
  replace (drop (length name + 1) (name ++ ":"%char :: blanks ++ value)) with (blanks ++ value).
  2: { rewrite drop_app_ge by lia. by replace (length name + 1 - length name)%nat with 1%nat by lia. }
  by rewrite drop_front_app, drop_front_keeps.
Qed.

(** Values of one name keep the order in which they arrived. *)
Lemma emplace_order name value hs n : StronglySorted (λ a b, txt_ltb b.1 a.1 = false) hs →
  filter (λ h, h.1 = n) (emplace name value hs) =
    filter (λ h, h.1 = n) hs ++ (if decide (name = n) then [(name, value)] else []).
Proof.
  induction 1 as [|h hs Hs IH Hh]; cbn [emplace].
  - rewrite filter_cons, filter_nil. cbn. by destruct (decide (name = n)).
  - destruct (txt_ltb name h.1) eqn:E.
    + destruct (decide (name = n)) as [<-|Hne].
      * rewrite filter_cons_True by done. rewrite (filter_none _ (h :: hs)); [done|]. constructor.
        -- intros E'. rewrite E' in E. by rewrite txt_ltb_irrefl in E.
        -- eapply Forall_impl; [exact Hh|]. cbn. intros g Hg E'. rewrite E' in Hg. congruence.
      * by rewrite filter_cons_False, app_nil_r.
    + rewrite !filter_cons, IH. by destruct (decide (h.1 = n)).
Qed.

(** ** Runs *)

#[export] Instance legal_cb_dec c w : Decision (legal_cb c w).
Proof. destruct c as [[]| | | | | ]; cbn; try apply _; unfold no_frame; apply _. Defined.

#[export] Instance legal_cbs_dec cs w : Decision (legal_cbs cs w).
Proof.
  revert w. induction cs as [|c cs IH]; intros w; cbn; [apply _|].
  apply and_dec; [apply _|]. destruct (run_cb c w); apply _.
Defined.

#[export] Instance legal_msg_dec w m : Decision (legal_msg w m).
Proof. destruct m; cbn; apply _. Defined.

#[export] Instance legal_dec st w : Decision (legal st w).
Proof.
  destruct st as [dt|s flags|s cs ms| |cs ms|easy cs|easy cs]; cbn; try apply _.
  - destruct (watches_ (drv w) !! s); apply _.
  - destruct (watches_ (drv w) !! s) as [ws|]; [|apply _]. destruct (ev ws); apply _.
  - destruct (expiry_ (drv w)) as [[]|]; apply _.
  - destruct (expiry_ (drv w)); apply _.
Defined.

Fixpoint run_steps (sts : list step) (w : world) : option world :=
  match sts with
  | [] => Some w
  | st :: sts => if decide (legal st w) then w ← run_step st w; run_steps sts w else None
  end.

Lemma reached_steps sts : ∀ w w', reached w → run_steps sts w = Some w' → reached w'.
Proof.
  induction sts as [|st sts IH]; cbn; intros w w' Hr E; [by injection E as <-|].
  destruct (decide (legal st w)); [|done]. apply bind_Some in E as (w1 & E1 & E). eapply IH; [|exact E]. by eapply reached_step.
Qed.

(** A transfer on socket 7 that is polled for output, then input; libcurl wants
    a timeout after 100 ms; the response redirects once. *)
Definition sample_steps : list step :=
  [S_fetch 1 [CB_timer 0]; S_timer [] [];
   S_expire; S_timer [CB_open (O_socket 7); CB_socket 7 2; CB_timer 100] [];
   S_ready 7 2; S_watch 7 [CB_socket 7 1] [];
   S_ready 7 1; S_watch 7 [CB_header 1 $"HTTP/1.1 302 Found"; CB_header 1 $"Location: /b"; CB_header 1 []] []].

Definition sample_world : world := default start (run_steps sample_steps start).

Lemma sample_world_reached : reached sample_world.
Proof.
  unfold sample_world. destruct (run_steps _ _) as [w|] eqn:E; [|apply reached_start].
  eapply reached_steps; [apply reached_start|exact E].
Qed.

Definition look (w : world) : list (Z * Z) * list (Z * Z) * expiry * list nat :=
  ((λ p : Z * watch_state, (p.1, awaited p.2)) <$> map_to_list (watches_ (drv w)), actions w, expiry_ (drv w), (map_to_list (frames w)).*1).

Example sample_state :
  look sample_world = ([(7, 1)], [(-1, 0); (7, 2); (7, 1)], E_wait (Some 100), [0%nat]).
Proof. vm_compute. reflexivity. Qed.

(** The last answer ends the transfer inside of the coroutine of its socket:
    libcurl removes and closes the socket, and the coroutine ends by itself. *)
Definition last_steps : list step :=
  [S_ready 7 1;
   S_watch 7 [CB_header 1 $"HTTP/1.1 200 OK"; CB_header 1 $"Content-Type: text/plain"; CB_body 1 $"hello"; CB_timer (-1);
              CB_socket 7 4; CB_close 7] [CURLMSG_DONE 1 0]].

Definition final_world : world := default start (run_steps last_steps sample_world).

Example final_state :
  look final_world = ([], [(-1, 0); (7, 2); (7, 1); (7, 1)], E_triggered 1, []) ∧
  elements (fds_ (drv final_world)) = [].
Proof. vm_compute. done. Qed.

(** The headers of the redirection are still there with those of the response. *)
Example redirect_headers_kept :
  (λ cr, fetch_result cr [] [] 200) <$> (fetches final_world !! 1) =
  Some (inl (CurlResponse 200 $"hello" [($"Content-Type", $"text/plain"); ($"Location", $"/b")])).
Proof. vm_compute. reflexivity. Qed.

(** libcurl also polls a socket that it did not open through the driver. *)
Definition foreign_steps : list step := [S_fetch 2 [CB_timer 0]; S_timer [] []; S_expire; S_timer [CB_socket 9 1] []].
Definition foreign_world : world := default start (run_steps foreign_steps sample_world).

Example foreign_socket_ignored :
  (asked foreign_world !! 9, watches_ (drv foreign_world) !! 9) = (Some 1, None).
Proof. by vm_compute. Qed.

Lemma curl_watches_asked_witness :
  reached sample_world ∧ asked sample_world !! 7 = Some 1 ∧ fds_ (drv sample_world) = opened sample_world ∧
  ∃ ws, watches_ (drv sample_world) !! 7 = Some ws ∧ mask ws = 1.
Proof.
  destruct (curl_watches_asked sample_world sample_world_reached) as (_ & H1 & H2 & _).
  split; [exact sample_world_reached|]. split; [vm_compute; reflexivity|]. split; [exact H1|].
  apply (H2 7 1). split; [vm_compute; reflexivity|]. apply (bool_decide_unpack _). vm_compute. exact I.
Defined.

Lemma curl_timeout_kept_witness :
  reached sample_world ∧ timer_asked sample_world = Some (0, 100) ∧
  match expiry_ (drv sample_world) with
  | E_wait (Some t) => 0 + 100 ≤ t ∧ (t ≤ clock sample_world → ∃ w1 w2, run_step S_expire sample_world = Some w1 ∧
      run_step (S_timer [] []) w1 = Some w2 ∧ reached w2 ∧ timer_asked w2 = None ∧
      actions w2 = actions sample_world ++ [(CURL_SOCKET_TIMEOUT, 0)])
  | E_wait None => False
  | E_triggered f => next_timeout_ (drv sample_world) = 100 ∨ f = 0
  end.
Proof.
  split; [exact sample_world_reached|]. split; [vm_compute; reflexivity|].
  apply (curl_timeout_kept sample_world 0 100 sample_world_reached). vm_compute. reflexivity.
Defined.

Lemma header_line_roundtrip_witness :
  ":"%char ∉ $"Location" ∧ header_of ($"Location" ++ $":" ++ $" " ++ $"http://a/b" ++ ["013"%char; "010"%char]) = Some ($"Location", $"http://a/b").
Proof.
  assert (Hc : ":"%char ∉ $"Location") by (apply (bool_decide_unpack _); vm_compute; exact I).
  split; [exact Hc|]. apply (header_line_roundtrip $"Location" $"http://a/b" $" ").
  - discriminate.
  - exact Hc.
  - reflexivity.
  - repeat constructor.
  - intros c [= <-]. reflexivity.
  - intros c [= <-]. reflexivity.
Defined.
