(* ===== verification/Mutex.v ===== *)
(** The mutex of the coroutine runtime, [cotamer::mutex] in
    [src/cotamer/cotamer.hh], [src/cotamer/cotamer_impl.hh] and
    [src/cotamer/cotamer.cc]: a word of flags and counts, a queue of waiting
    tasks, exclusive and shared locks, and the fast paths.

    The model is one thread: the latch bit [mf_latch] is always free.  What
    the mutex needs of events is the interface [EventStore], with its laws in
    [EventLaws]; the events of [Events] implement it at the end.  The tasks
    that hold the lock are counted in two fields that the program does not
    keep. *)

From S2P Require Import Prelude Events.

(** * What the mutex asks of events

    [evs_handles s e] is the number of handles to [e]; the queue owns one per
    entry. *)
Class EventStore (S : Type) := {
  evs_ok : S → Prop;
  evs_handles : S → nat → nat;
  evs_new : S → nat * S;
  evs_set_shared : S → nat → option S;
  evs_shared : S → nat → option bool;
  evs_empty : S → nat → option bool;
  evs_copy : S → nat → option S;
  evs_trigger : S → nat → option (bool * S);
  evs_drop : S → nat → option S
}.

(** [s'] keeps the handles of [s] and the flags of the events that have one. *)
Definition evs_keeps {S} `{EventStore S} (s s' : S) : Prop :=
  evs_ok s' ∧ (∀ e, (evs_handles s e ≤ evs_handles s' e)%nat) ∧
  (∀ e, (0 < evs_handles s e)%nat → evs_shared s' e = evs_shared s e).

Class EventLaws (S : Type) `{EventStore S} := {
  evs_new_law : ∀ s, evs_ok s →
    evs_keeps s (evs_new s).2 ∧ evs_handles s (evs_new s).1 = O ∧
    evs_handles (evs_new s).2 (evs_new s).1 = 1%nat ∧ evs_shared (evs_new s).2 (evs_new s).1 = Some false;
  evs_set_shared_law : ∀ s e, evs_ok s → (0 < evs_handles s e)%nat →
    ∃ s', evs_set_shared s e = Some s' ∧ evs_ok s' ∧ (∀ d, evs_handles s' d = evs_handles s d) ∧
      evs_shared s' e = Some true ∧ (∀ d, d ≠ e → evs_shared s' d = evs_shared s d);
  evs_shared_law : ∀ s e, evs_ok s → (0 < evs_handles s e)%nat → is_Some (evs_shared s e);
  evs_empty_law : ∀ s e, evs_ok s → (0 < evs_handles s e)%nat → is_Some (evs_empty s e);
  evs_copy_law : ∀ s e, evs_ok s → (0 < evs_handles s e)%nat →
    ∃ s', evs_copy s e = Some s' ∧ evs_keeps s s' ∧ evs_handles s' e = Datatypes.S (evs_handles s e);
  evs_trigger_law : ∀ s e, evs_ok s → (0 < evs_handles s e)%nat →
    ∃ r s', evs_trigger s e = Some (r, s') ∧ evs_keeps s s' ∧ (evs_empty s e = Some false → r = true);
  evs_drop_law : ∀ s e, evs_ok s → (0 < evs_handles s e)%nat →
    ∃ s', evs_drop s e = Some s' ∧ evs_ok s' ∧ evs_handles s' e = (evs_handles s e - 1)%nat ∧
      (∀ d, d ≠ e → evs_handles s' d = evs_handles s d) ∧
      (∀ d, (0 < evs_handles s' d)%nat → evs_shared s' d = evs_shared s d)
}.

(** * The mutex *)

Definition mf_next_excl : Z := 2.
Definition mf_next_shared : Z := 4.
Definition mfm_next : Z := 6.
Definition mf_lock_excl : Z := 8.
Definition mf_lock_shared : Z := 16.

(** The amount a lock adds to the latch. *)
Definition lock_unit (is_shared : bool) : Z := if is_shared then mf_lock_shared else mf_lock_excl.

(** [waiters_] pairs an event with the flag to set, if any ([bool* notify]);
    [notified] lists the flags set to true. *)
Record mutex (S : Type) := Mutex {
  latch_ : Z;
  waiters_ : list (nat * option nat);
  notified : list nat;
  store : S;
  holders : nat * nat     (* exclusive, shared *)
}.
Arguments Mutex {S}.
Arguments latch_ {S}.
Arguments waiters_ {S}.
Arguments notified {S}.
Arguments store {S}.
Arguments holders {S}.

Definition grant (is_shared : bool) (h : nat * nat) : nat * nat :=
  if is_shared then (h.1, S h.2) else (S h.1, h.2).
Definition release (is_shared : bool) (h : nat * nat) : nat * nat :=
  if is_shared then (h.1, h.2 - 1)%nat else (h.1 - 1, h.2)%nat.

Section Ops.
Context {S : Type} `{EventStore S}.

(** [latch] returns the word without the next-in-line bits. *)
Definition latch (m : mutex S) : Z := Z.ldiff (latch_ m) mfm_next.

Definition unlatch (m : mutex S) (l : Z) : option (mutex S) :=
  match waiters_ m with
  | [] => Some (Mutex l (waiters_ m) (notified m) (store m) (holders m))
  | w :: _ =>
      sh ← evs_shared (store m) w.1;
      Some (Mutex (u32 (l + (if sh : bool then mf_next_shared else mf_next_excl)))
              (waiters_ m) (notified m) (store m) (holders m))
  end.

Definition allow (is_shared : bool) (l : Z) : bool :=
  if is_shared then Z.land l mf_lock_excl =? 0 else l <? mf_lock_excl.

(** [notify_locked]: the new word, and the mutex with the granted and the dead
    entries popped. *)
Fixpoint notify_locked (ws : list (nat * option nat)) (m : mutex S) (l : Z) : option (Z * mutex S) :=
  match ws with
  | [] => Some (l, Mutex (latch_ m) [] (notified m) (store m) (holders m))
  | fw :: ws' =>
      dead ← evs_empty (store m) fw.1;
      if negb dead then
        fws ← evs_shared (store m) fw.1;
        if negb (allow fws l) then Some (l, Mutex (latch_ m) (fw :: ws') (notified m) (store m) (holders m))
        else
          r ← evs_trigger (store m) fw.1;
          let '(l, ns, h) := if r.1 : bool
                             then (u32 (l + lock_unit fws), notified m ++ option_list fw.2, grant fws (holders m))
                             else (l, notified m, holders m) in
          s ← evs_drop r.2 fw.1;
          notify_locked ws' (Mutex (latch_ m) (waiters_ m) ns s h) l
      else
        s ← evs_drop (store m) fw.1;
        notify_locked ws' (Mutex (latch_ m) (waiters_ m) (notified m) s (holders m)) l
  end.

(** [lock_impl]: [None] is the null event of a lock granted at once. *)
Definition lock_impl (m : mutex S) (is_shared : bool) (notify : option nat) : option (option nat * mutex S) :=
  let l := latch m in
  r ← notify_locked (waiters_ m) m l;
  let '(l, m) := r in
  if bool_decide (waiters_ m = []) && allow is_shared l then
    m ← unlatch (Mutex (latch_ m) (waiters_ m) (notified m ++ option_list notify) (store m)
                   (grant is_shared (holders m)))
          (u32 (l + lock_unit is_shared));
    Some (None, m)
  else
    let '(e, s) := evs_new (store m) in
    s ← (if is_shared then evs_set_shared s e else Some s);
    s ← evs_copy s e;
    m ← unlatch (Mutex (latch_ m) (waiters_ m ++ [(e, notify)]) (notified m) s (holders m)) l;
    Some (Some e, m).

Definition unlock_impl (m : mutex S) (is_shared : bool) : option (mutex S) :=
  let l := latch m in
  let m := Mutex (latch_ m) (waiters_ m) (notified m) (store m) (release is_shared (holders m)) in
  r ← notify_locked (waiters_ m) m (u32 (l - lock_unit is_shared));
  unlatch r.2 r.1.

Definition with_latch (m : mutex S) (l : Z) (h : nat * nat) : mutex S :=
  Mutex l (waiters_ m) (notified m) (store m) h.

(** [lock], [try_lock], [unlock] and their shared counterparts. *)
Definition lock (m : mutex S) (notify : option nat) : option (option nat * mutex S) := lock_impl m false notify.
Definition lock_shared (m : mutex S) (notify : option nat) : option (option nat * mutex S) := lock_impl m true notify.

Definition try_lock (m : mutex S) : bool * mutex S :=
  if latch_ m =? 0 then (true, with_latch m mf_lock_excl (grant false (holders m))) else (false, m).

Definition try_lock_shared (m : mutex S) : bool * mutex S :=
  if negb (Z.land (latch_ m) (Z.lor mfm_next mf_lock_excl) =? 0) then (false, m)
  else (true, with_latch m (u32 (latch_ m + mf_lock_shared)) (grant true (holders m))).

Definition unlock (m : mutex S) : option (mutex S) :=
  if Z.land (latch_ m) mfm_next =? 0
  then Some (with_latch m (u32 (latch_ m - mf_lock_excl)) (release false (holders m)))
  else unlock_impl m false.

Definition unlock_shared (m : mutex S) : option (mutex S) :=
  let l := latch_ m in
  if (Z.land l mf_next_shared =? 0) && ((Z.land l mf_next_excl =? 0) || (2 * mf_lock_shared <=? l))
  then Some (with_latch m (u32 (l - mf_lock_shared)) (release true (holders m)))
  else unlock_impl m true.
End Ops.

(** * Arithmetic of the word *)

Lemma land_low a c k : 0 ≤ k → 0 ≤ c < 2 ^ k → Z.land a c = Z.land (a mod 2 ^ k) c.
Proof.
  intros Hk Hc. rewrite <-(Z.land_ones a k) by done. rewrite <-Z.land_assoc. f_equal.
  rewrite Z.land_comm, Z.land_ones, Z.mod_small by lia. done.
Qed.

Lemma ldiff_sub a c : Z.ldiff a c = a - Z.land a c.
Proof.
  rewrite Z.sub_nocarry_ldiff.
  - apply Z.bits_inj'. intros i Hi. rewrite !Z.ldiff_spec, Z.land_spec.
    by destruct (Z.testbit a i), (Z.testbit c i).
  - apply Z.bits_inj'. intros i Hi. rewrite Z.ldiff_spec, Z.land_spec, Z.bits_0.
    by destruct (Z.testbit a i), (Z.testbit c i).
Qed.

(** Holders that exclude each other, few enough for the word. *)
Definition exclusive (h : nat * nat) : Prop := (h.1 = 0 ∨ (h.1 = 1 ∧ h.2 = 0))%nat.
Definition held_word (h : nat * nat) : Z := 8 * Z.of_nat h.1 + 16 * Z.of_nat h.2.
Definition max_tasks : Z := 134217728.
Definition next_bits (n : Z) : Prop := n = 0 ∨ n = 2 ∨ n = 4.

Lemma word_next h n : next_bits n → Z.land (held_word h + n) 6 = n.
Proof.
  intros Hn. rewrite (land_low _ 6 3) by lia. unfold held_word.
  replace (8 * Z.of_nat h.1 + 16 * Z.of_nat h.2 + n) with (n + (Z.of_nat h.1 + 2 * Z.of_nat h.2) * 2 ^ 3) by lia.
  rewrite Z.mod_add by lia. by destruct Hn as [->|[->| ->]].
Qed.

Lemma word_next_bit h n c : next_bits n → c = 2 ∨ c = 4 → Z.land (held_word h + n) c = if n =? c then c else 0.
Proof.
  intros Hn Hc. rewrite (land_low _ c 3) by lia. unfold held_word.
  replace (8 * Z.of_nat h.1 + 16 * Z.of_nat h.2 + n) with (n + (Z.of_nat h.1 + 2 * Z.of_nat h.2) * 2 ^ 3) by lia.
  rewrite Z.mod_add by lia. by destruct Hn as [->|[->| ->]], Hc as [->| ->].
Qed.

Lemma word_latch h n : next_bits n → Z.ldiff (held_word h + n) 6 = held_word h.
Proof. intros Hn. rewrite ldiff_sub, word_next by done. lia. Qed.

Lemma word_excl h n c : exclusive h → next_bits n → c = 8 ∨ c = 14 →
  Z.land (held_word h + n) c = 0 ↔ h.1 = O ∧ (c = 14 → n = 0).
Proof.
  intros Hx Hn Hc. rewrite (land_low _ c 4) by lia. unfold held_word.
  replace (8 * Z.of_nat h.1 + 16 * Z.of_nat h.2 + n) with (8 * Z.of_nat h.1 + n + Z.of_nat h.2 * 2 ^ 4) by lia.
  rewrite Z.mod_add by lia.
  destruct Hx as [->|[-> _]], Hn as [->|[->| ->]], Hc as [->| ->];
    (split; [intros E; first [by vm_compute in E | done] | intros [E1 E2]; first [done | by specialize (E2 eq_refl)]]).
Qed.

(** When a lock can be had. *)
Definition can_lock (is_shared : bool) (h : nat * nat) : bool :=
  if is_shared then (h.1 =? 0)%nat else (h.1 =? 0)%nat && (h.2 =? 0)%nat.

Lemma allow_held is_shared h : exclusive h → allow is_shared (held_word h) = can_lock is_shared h.
Proof.
  intros Hx. destruct is_shared; cbn [allow can_lock].
  - apply eq_bool_prop_intro. rewrite !Is_true_true, Z.eqb_eq, Nat.eqb_eq.
    pose proof (word_excl h 0 8 Hx (or_introl eq_refl) (or_introl eq_refl)) as E. rewrite Z.add_0_r in E.
    unfold mf_lock_excl. rewrite E. split; [by intros []|]. intros ->. by split.
  - apply eq_bool_prop_intro. rewrite !Is_true_true, Z.ltb_lt, andb_true_iff, !Nat.eqb_eq.
    unfold held_word, mf_lock_excl. lia.
Qed.

Lemma grant_exclusive is_shared h : exclusive h → can_lock is_shared h = true → exclusive (grant is_shared h).
Proof.
  unfold exclusive, can_lock, grant. destruct is_shared; cbn.
  - intros _ H%Nat.eqb_eq. by left.
  - intros _ [H1%Nat.eqb_eq H2%Nat.eqb_eq]%andb_prop. right. lia.
Qed.

Lemma grant_word is_shared h : held_word (grant is_shared h) = held_word h + lock_unit is_shared.
Proof. destruct is_shared; unfold held_word, grant, lock_unit, mf_lock_shared, mf_lock_excl; cbn; lia. Qed.

Lemma release_word is_shared h :
  (0 < if is_shared : bool then h.2 else h.1)%nat → held_word (release is_shared h) = held_word h - lock_unit is_shared.
Proof. destruct is_shared; unfold held_word, release, lock_unit, mf_lock_shared, mf_lock_excl; cbn; lia. Qed.

Lemma release_exclusive is_shared h : exclusive h → exclusive (release is_shared h).
Proof. unfold exclusive, release. destruct is_shared; cbn; lia. Qed.

(** The word of fewer holders than [max_tasks] fits 32 bits, next bits and all. *)
Lemma word_fits h n : Z.of_nat (h.1 + h.2) ≤ max_tasks → exclusive h → next_bits n → u32 (held_word h + n) = held_word h + n.
Proof.
  intros Hh Hx Hn. unfold u32. apply Z.mod_small. unfold held_word, two32, max_tasks, exclusive, next_bits in *. lia.
Qed.

(** * The invariant *)

Section Invariant.
Context {S : Type} `{!EventStore S} `{!EventLaws S}.
Implicit Types (m : mutex S) (ws : list (nat * option nat)).

Definition entries (e : nat) ws : nat := length (filter (λ w, w.1 = e) ws).

(** The queue owns a handle per entry. *)
Definition queue_owns (s : S) ws : Prop := evs_ok s ∧ ∀ e, (entries e ws ≤ evs_handles s e)%nat.

Definition next_of (s : S) ws : Z :=
  match ws with
  | [] => 0
  | w :: _ => match evs_shared s w.1 with Some true => mf_next_shared | _ => mf_next_excl end
  end.

(** The first in line waits because of who holds the lock. *)
Definition head_blocked (s : S) ws (h : nat * nat) : Prop :=
  match ws with
  | [] => True
  | w :: _ => ∃ b, evs_shared s w.1 = Some b ∧ can_lock b h = false
  end.

Record mutex_inv m : Prop := {
  inv_queue : queue_owns (store m) (waiters_ m);
  inv_excl : exclusive (holders m);
  inv_word : latch_ m = held_word (holders m) + next_of (store m) (waiters_ m);
  inv_blocked : head_blocked (store m) (waiters_ m) (holders m);
  inv_few : Z.of_nat ((holders m).1 + (holders m).2 + length (waiters_ m)) ≤ max_tasks
}.

Lemma entries_cons e w ws : entries e (w :: ws) = ((if decide (w.1 = e) then 1 else 0) + entries e ws)%nat.
Proof. unfold entries. rewrite filter_cons. by destruct (decide (w.1 = e)). Qed.

Lemma next_of_bits s ws : next_bits (next_of s ws).
Proof. unfold next_bits, next_of. destruct ws; [by left|]. destruct (evs_shared s _) as [[]|]; auto. Qed.

Lemma queue_head s w ws : queue_owns s (w :: ws) → (0 < evs_handles s w.1)%nat.
Proof. intros [_ H]. specialize (H w.1). rewrite entries_cons, decide_True in H by done. lia. Qed.

(** A queue keeps owning its handles when the store keeps them. *)
Lemma queue_keeps s s' ws : queue_owns s ws → evs_keeps s s' → queue_owns s' ws.
Proof.
  intros [_ H] (Hok & Hh & _). split; [done|]. intros e. specialize (H e). specialize (Hh e). lia.
Qed.

Lemma drop_head s w ws : queue_owns s (w :: ws) →
  ∃ s', evs_drop s w.1 = Some s' ∧ queue_owns s' ws.
Proof.
  intros Hq. destruct (evs_drop_law s w.1) as (s' & E & Hok & He & Hd & _); [apply Hq|by eapply queue_head|].
  exists s'. split; [done|]. split; [done|]. intros e. destruct Hq as [_ Hq]. specialize (Hq e).
  rewrite entries_cons in Hq. destruct (decide (w.1 = e)) as [<-|Hne]; [lia|]. rewrite Hd by done. lia.
Qed.

(** [notify_locked] grants from the front of the queue until the first in line
    must wait, and keeps the word in step with the holders. *)
Lemma notify_spec ws m :
  queue_owns (store m) ws → exclusive (holders m) →
  Z.of_nat ((holders m).1 + (holders m).2 + length ws) ≤ max_tasks →
  ∃ m', notify_locked ws m (held_word (holders m)) = Some (held_word (holders m'), m') ∧
    queue_owns (store m') (waiters_ m') ∧ exclusive (holders m') ∧
    head_blocked (store m') (waiters_ m') (holders m') ∧ (∃ k, waiters_ m' = drop k ws) ∧
    ((holders m').1 + (holders m').2 + length (waiters_ m') ≤ (holders m).1 + (holders m).2 + length ws)%nat.
Proof.
  revert m. induction ws as [|w ws IH]; intros m Hq Hx Hb; cbn [notify_locked].
  { exists (Mutex (latch_ m) [] (notified m) (store m) (holders m)).
    split; [done|]. split; [done|]. split; [done|]. split; [done|]. split; [by exists O|done]. }
  assert (Hh : (0 < evs_handles (store m) w.1)%nat) by (by eapply queue_head).
  assert (Hok : evs_ok (store m)) by apply Hq.
  destruct (evs_empty_law (store m) w.1 Hok Hh) as [dead Ed]. rewrite Ed. cbn [mbind option_bind].
  destruct dead; cbn [negb].
  - destruct (drop_head _ _ _ Hq) as (s' & -> & Hq'). cbn [mbind option_bind].
    destruct (IH (Mutex (latch_ m) (waiters_ m) (notified m) s' (holders m))) as (m' & E & A & B & C & (k & D) & F);
      [done|done|cbn in *; lia|].
    exists m'. split; [exact E|]. split; [done|]. split; [done|]. split; [done|]. split; [by exists (1 + k)%nat|]. cbn in *; lia.
  - destruct (evs_shared_law (store m) w.1 Hok Hh) as [fws Es]. rewrite Es. cbn [mbind option_bind].
    rewrite allow_held by done. destruct (can_lock fws (holders m)) eqn:Ec; cbn [negb].
    + destruct (evs_trigger_law (store m) w.1 Hok Hh) as (r & s1 & Et & Hk & Hr). rewrite Et. cbn [mbind option_bind fst snd].
      assert (Hq1 : queue_owns s1 (w :: ws)) by (by eapply queue_keeps).
      rewrite Hr by done.
      destruct (drop_head _ _ _ Hq1) as (s' & -> & Hq'). cbn [mbind option_bind].
      pose proof (grant_exclusive _ _ Hx Ec) as Hx'. pose proof (grant_word fws (holders m)) as Hw.
      assert (Hg : ((grant fws (holders m)).1 + (grant fws (holders m)).2 = Datatypes.S ((holders m).1 + (holders m).2))%nat).
      { destruct fws; cbn; lia. }
      replace (u32 (held_word (holders m) + lock_unit fws)) with (held_word (grant fws (holders m))).
      2: { rewrite <-Hw, <-(Z.add_0_r (held_word _)). symmetry. apply word_fits; [cbn in *; lia|done|by left]. }
      destruct (IH (Mutex (latch_ m) (waiters_ m) (notified m ++ option_list w.2) s' (grant fws (holders m))))
        as (m' & E & A & B & C & (k & D) & F); [done|done|cbn in *; lia|].
      exists m'. split; [exact E|]. split; [done|]. split; [done|]. split; [done|]. split; [by exists (1 + k)%nat|]. cbn in *; lia.
    + exists (Mutex (latch_ m) (w :: ws) (notified m) (store m) (holders m)).
      split; [done|]. split; [done|]. split; [done|]. split; [by exists fws|]. split; [by exists O|done].
Qed.

Lemma unlatch_spec m :
  queue_owns (store m) (waiters_ m) → exclusive (holders m) → head_blocked (store m) (waiters_ m) (holders m) →
  Z.of_nat ((holders m).1 + (holders m).2 + length (waiters_ m)) ≤ max_tasks →
  ∃ m', unlatch m (held_word (holders m)) = Some m' ∧ mutex_inv m' ∧ waiters_ m' = waiters_ m ∧
    holders m' = holders m ∧ notified m' = notified m.
Proof.
  intros Hq Hx Hb Hf.
  assert (E : unlatch m (held_word (holders m)) =
    Some (Mutex (held_word (holders m) + next_of (store m) (waiters_ m)) (waiters_ m) (notified m) (store m) (holders m))).
  { unfold unlatch, next_of. destruct (waiters_ m) as [|w ws] eqn:Ew; [by rewrite Z.add_0_r|].
    destruct Hb as (b & Es & Ec). rewrite Es. cbn [mbind option_bind]. do 2 f_equal.
    destruct b; apply word_fits; try done; try (unfold next_bits; auto); cbn in *; lia. }
  rewrite E. eexists. split; [done|]. split; [|done]. by split.
Qed.

Lemma entries_snoc e w ws : entries e (ws ++ [w]) = (entries e ws + if decide (w.1 = e) then 1 else 0)%nat.
Proof. unfold entries. rewrite filter_app, length_app, filter_cons. by destruct (decide (w.1 = e)). Qed.

(** A fresh event, flagged as asked, joins the queue. *)
Lemma enqueue_spec s ws is_shared n : queue_owns s ws →
  ∃ s1 s2, (if is_shared : bool then evs_set_shared (evs_new s).2 (evs_new s).1 else Some (evs_new s).2) = Some s1 ∧
    evs_copy s1 (evs_new s).1 = Some s2 ∧ queue_owns s2 (ws ++ [((evs_new s).1, n)]) ∧
    evs_shared s2 (evs_new s).1 = Some is_shared ∧
    (∀ w, w ∈ ws → evs_shared s2 w.1 = evs_shared s w.1).
Proof.
  intros Hq. destruct Hq as [Hok Hq].
  destruct (evs_new_law s Hok) as ((Hok0 & Hh0 & Hs0) & Hn & Hn1 & Hn2).
  set (e := (evs_new s).1) in *. set (s0 := (evs_new s).2) in *.
  assert (H1 : ∃ s1, (if is_shared then evs_set_shared s0 e else Some s0) = Some s1 ∧ evs_ok s1 ∧
    (∀ d, evs_handles s1 d = evs_handles s0 d) ∧ evs_shared s1 e = Some is_shared ∧
    (∀ d, d ≠ e → evs_shared s1 d = evs_shared s0 d)).
  { destruct is_shared; [apply evs_set_shared_law; [done|lia]|]. exists s0. done. }
  destruct H1 as (s1 & E1 & Hok1 & Hh1 & Hf1 & Hs1).
  destruct (evs_copy_law s1 e Hok1) as (s2 & E2 & (Hok2 & Hh2 & Hs2) & Hc2); [rewrite Hh1; lia|].
  assert (Hin : ∀ w, w ∈ ws → (0 < evs_handles s w.1)%nat ∧ w.1 ≠ e).
  { intros w Hw. assert (Hpos : (0 < entries w.1 ws)%nat).
    { unfold entries. assert (Hf : w ∈ filter (λ v, v.1 = w.1) ws) by (by apply list_elem_of_filter).
      destruct (filter _ ws); [by inversion Hf|simpl; lia]. }
    specialize (Hq w.1). split; [lia|]. intros Ee. rewrite Ee in Hpos, Hq. lia. }
  exists s1, s2. split; [done|]. split; [done|]. split; [split; [done|]|split].
  - intros d. rewrite entries_snoc. cbn [fst]. specialize (Hq d). specialize (Hh2 d). specialize (Hh0 d).
    rewrite Hh1 in Hh2. destruct (decide (e = d)) as [<-|]; lia.
  - rewrite Hs2; [done|]. rewrite Hh1. lia.
  - intros w Hw. destruct (Hin w Hw) as [Hp Hne]. rewrite Hs2, Hs1, Hs0; [done|done|done|].
    rewrite Hh1. specialize (Hh0 w.1). lia.
Qed.

Lemma latch_held m : mutex_inv m → latch m = held_word (holders m).
Proof. intros H. unfold latch. rewrite (inv_word m H). apply word_latch, next_of_bits. Qed.

Definition tasks m : Z := Z.of_nat ((holders m).1 + (holders m).2 + length (waiters_ m)).

(** A request is granted at once only over an empty queue; otherwise it goes
    to the end of the queue, whose front may have been granted. *)
Lemma lock_impl_spec m is_shared n : mutex_inv m → tasks m < max_tasks →
  ∃ r m', lock_impl m is_shared n = Some (r, m') ∧ mutex_inv m' ∧
    match r with
    | None => waiters_ m' = []
    | Some e => ∃ k, waiters_ m' = drop k (waiters_ m) ++ [(e, n)]
    end.
Proof.
  intros Hi Ht. unfold lock_impl. rewrite latch_held by done.
  destruct (notify_spec (waiters_ m) m) as (m1 & -> & Hq & Hx & Hb & (k & Hk) & Hf); try apply Hi.
  cbn [mbind option_bind]. rewrite allow_held by done. unfold tasks in Ht.
  destruct (bool_decide (waiters_ m1 = []) && can_lock is_shared (holders m1)) eqn:Ec.
  - apply andb_prop in Ec as [Ew%bool_decide_eq_true Ec].
    pose proof (grant_exclusive _ _ Hx Ec) as Hx'.
    assert (Hg : ((grant is_shared (holders m1)).1 + (grant is_shared (holders m1)).2
                  = Datatypes.S ((holders m1).1 + (holders m1).2))%nat) by (destruct is_shared; cbn; lia).
    rewrite Ew in *. cbn [length] in Hf.
    assert (E : u32 (held_word (holders m1) + lock_unit is_shared) = held_word (grant is_shared (holders m1))).
    { rewrite <-grant_word, <-(Z.add_0_r (held_word _)). apply word_fits; [lia|done|by left]. }
    rewrite E.
    destruct (unlatch_spec (Mutex (latch_ m1) [] (notified m1 ++ option_list n) (store m1) (grant is_shared (holders m1))))
      as (m' & Eu & Hi' & Hw & _); [done|done|done|cbn; cbn in Hg; lia|].
    cbn [holders] in Eu. rewrite Eu. cbn [mbind option_bind]. by exists None, m'.
  - destruct (enqueue_spec (store m1) (waiters_ m1) is_shared n Hq) as (s1 & s2 & E1 & E2 & Hq2 & Hsh & Hold).
    destruct (evs_new (store m1)) as [e s0] eqn:En. cbn [fst snd] in *. rewrite E1. cbn [mbind option_bind].
    rewrite E2. cbn [mbind option_bind].
    destruct (unlatch_spec (Mutex (latch_ m1) (waiters_ m1 ++ [(e, n)]) (notified m1) s2 (holders m1)))
      as (m' & Eu & Hi' & Hw & _); cbn [store waiters_ holders]; [done|done| | |].
    + destruct (waiters_ m1) as [|w ws] eqn:Ew; cbn [app head_blocked].
      * exists is_shared. split; [done|]. by rewrite bool_decide_eq_true_2 in Ec.
      * destruct Hb as (b & Hs & Hc). exists b. split; [|done]. rewrite Hold by by left. done.
    + rewrite length_app. cbn [length]. lia.
    + cbn [holders] in Eu. rewrite Eu. cbn [mbind option_bind]. exists (Some e), m'.
      split; [done|]. split; [done|]. exists k. rewrite Hw. cbn. by rewrite Hk.
Qed.

Lemma release_sum (is_shared : bool) h : (0 < if is_shared then h.2 else h.1)%nat →
  ((release is_shared h).1 + (release is_shared h).2 < h.1 + h.2)%nat.
Proof. destruct is_shared; cbn; lia. Qed.

Lemma unlock_impl_spec m (is_shared : bool) : mutex_inv m →
  (0 < if is_shared then (holders m).2 else (holders m).1)%nat →
  ∃ m', unlock_impl m is_shared = Some m' ∧ mutex_inv m' ∧ ∃ k, waiters_ m' = drop k (waiters_ m).
Proof.
  intros Hi Hh. unfold unlock_impl. rewrite latch_held by done.
  pose proof (release_exclusive is_shared _ (inv_excl m Hi)) as Hx.
  pose proof (release_sum is_shared _ Hh) as Hsum. pose proof (inv_few m Hi) as Hfew.
  assert (E : u32 (held_word (holders m) - lock_unit is_shared) = held_word (release is_shared (holders m))).
  { rewrite <-release_word, <-(Z.add_0_r (held_word _)) by done. apply word_fits; [lia|done|by left]. }
  rewrite E.
  destruct (notify_spec (waiters_ m) (Mutex (latch_ m) (waiters_ m) (notified m) (store m) (release is_shared (holders m))))
    as (m1 & En & Hq & Hx1 & Hb & (k & Hk) & Hf); [apply Hi|done|cbn [holders]; lia|].
  cbn [holders] in En. cbn [waiters_]. rewrite En. cbn [mbind option_bind fst snd].
  destruct (unlatch_spec m1) as (m' & Eu & Hi' & Hw & _); try done; [cbn [holders] in Hf; lia|].
  exists m'. split; [done|]. split; [done|]. exists k. by rewrite Hw, Hk.
Qed.

(** The fast paths agree with the invariant. *)
Lemma next_of_zero s ws : next_of s ws = 0 → ws = [].
Proof. unfold next_of. destruct ws; [done|]. by destruct (evs_shared s _) as [[]|]. Qed.

Lemma unlock_spec m : mutex_inv m → (0 < (holders m).1)%nat →
  ∃ m', unlock m = Some m' ∧ mutex_inv m' ∧ ∃ k, waiters_ m' = drop k (waiters_ m).
Proof.
  intros Hi Hh. unfold unlock. rewrite (inv_word m Hi). change mfm_next with 6.
  rewrite word_next by apply next_of_bits.
  destruct (Z.eqb_spec (next_of (store m) (waiters_ m)) 0) as [E|E]; [|by apply (unlock_impl_spec m false)].
  rewrite E, Z.add_0_r. eexists. split; [done|]. split; [|by exists O].
  pose proof (next_of_zero _ _ E) as Ew. pose proof (inv_few m Hi). pose proof (inv_excl m Hi) as Hx.
  pose proof (release_exclusive false _ Hx) as Hx'. pose proof (release_sum false (holders m) Hh).
  split; cbn [with_latch store waiters_ holders latch_]; [apply Hi|done| |by rewrite Ew|lia].
  rewrite E. change mf_lock_excl with (lock_unit false). rewrite <-(release_word false) by done.
  rewrite <-(Z.add_0_r (held_word _)) at 1. apply word_fits; [lia|done|by left].
Qed.

Lemma unlock_shared_spec m : mutex_inv m → (0 < (holders m).2)%nat →
  ∃ m', unlock_shared m = Some m' ∧ mutex_inv m' ∧ ∃ k, waiters_ m' = drop k (waiters_ m).
Proof.
  intros Hi Hh. unfold unlock_shared. rewrite (inv_word m Hi).
  pose proof (next_of_bits (store m) (waiters_ m)) as Hn.
  rewrite !word_next_bit by (auto; unfold mf_next_shared, mf_next_excl; auto).
  change mf_next_shared with 4. change mf_next_excl with 2. change (2 * mf_lock_shared) with 32.
  destruct (_ && _) eqn:Ef; [|by apply (unlock_impl_spec m true)].
  apply andb_prop in Ef as [E4 E2].
  eexists. split; [done|]. split; [|by exists O].
  pose proof (inv_few m Hi). pose proof (inv_excl m Hi) as Hx. pose proof (inv_blocked m Hi) as Hb.
  pose proof (release_exclusive true _ Hx) as Hx'. pose proof (release_sum true (holders m) Hh).
  pose proof (release_word true (holders m) Hh) as Hw. change (lock_unit true) with 16 in Hw.
  split; cbn [with_latch store waiters_ holders latch_]; [apply Hi|done| | |lia].
  - change mf_lock_shared with 16.
    replace (held_word (holders m) + next_of (store m) (waiters_ m) - 16)
      with (held_word (release true (holders m)) + next_of (store m) (waiters_ m)) by lia.
    apply word_fits; [lia|done|done].
  - revert Hb E4 E2. unfold head_blocked, next_of. destruct (waiters_ m) as [|w ws]; [done|].
    intros (b & Eb & Ec) E4 E2. exists b. split; [done|]. rewrite Eb in E4, E2.
    destruct b; [done|]. change (2 =? 2) with true in E2. cbn [orb Z.eqb] in E2.
    apply Z.leb_le in E2. unfold held_word, mf_next_excl in E2. unfold exclusive in Hx. cbn.
    destruct (Nat.eqb_spec (holders m).1 0); [|done]. destruct (Nat.eqb_spec ((holders m).2 - 1) 0); [lia|done].
Qed.

Lemma try_lock_spec m : mutex_inv m → tasks m < max_tasks →
  mutex_inv (try_lock m).2 ∧ (try_lock m).1 = bool_decide (holders m = (0, 0)%nat ∧ waiters_ m = []) ∧
  waiters_ (try_lock m).2 = waiters_ m.
Proof.
  intros Hi Ht. unfold try_lock. rewrite (inv_word m Hi).
  pose proof (next_of_bits (store m) (waiters_ m)) as Hn.
  destruct (Z.eqb_spec (held_word (holders m) + next_of (store m) (waiters_ m)) 0) as [E|E].
  - assert (E1 : (holders m).1 = O ∧ (holders m).2 = O ∧ next_of (store m) (waiters_ m) = 0).
    { unfold held_word, next_bits in *. lia. }
    destruct E1 as (E1 & E2 & E3). pose proof (next_of_zero _ _ E3) as Ew.
    split; [|by rewrite bool_decide_eq_true_2 by (destruct (holders m); cbn in *; subst; done)].
    split; cbn [with_latch store waiters_ holders latch_ fst snd]; [apply Hi| | |by rewrite Ew|].
    + unfold exclusive, grant. cbn. lia.
    + rewrite E3. unfold held_word, grant, mf_lock_excl. cbn. lia.
    + unfold grant. cbn. unfold tasks in Ht. lia.
  - split; [done|]. split; [|done]. cbn. symmetry. apply bool_decide_eq_false_2. intros [Eh Ew].
    apply E. by rewrite Eh, Ew.
Qed.

Lemma try_lock_shared_spec m : mutex_inv m → tasks m < max_tasks →
  mutex_inv (try_lock_shared m).2 ∧
  (try_lock_shared m).1 = bool_decide ((holders m).1 = O ∧ waiters_ m = []) ∧
  waiters_ (try_lock_shared m).2 = waiters_ m.
Proof.
  intros Hi Ht. unfold try_lock_shared. rewrite (inv_word m Hi).
  pose proof (next_of_bits (store m) (waiters_ m)) as Hn. pose proof (inv_excl m Hi) as Hx.
  change (Z.lor mfm_next mf_lock_excl) with 14.
  pose proof (word_excl (holders m) _ 14 Hx Hn (or_intror eq_refl)) as E.
  destruct (Z.eqb_spec (Z.land (held_word (holders m) + next_of (store m) (waiters_ m)) 14) 0) as [E0|E0]; cbn [negb].
  - apply E in E0 as [E1 E3]. specialize (E3 eq_refl). pose proof (next_of_zero _ _ E3) as Ew.
    split; [|by rewrite bool_decide_eq_true_2].
    split; cbn [with_latch store waiters_ holders latch_ fst snd]; [apply Hi| | |by rewrite Ew|].
    + unfold exclusive, grant. cbn. lia.
    + rewrite E3, !Z.add_0_r. change mf_lock_shared with (lock_unit true). rewrite <-grant_word.
      rewrite <-(Z.add_0_r (held_word _)). apply word_fits; [|unfold exclusive; cbn; lia|by left].
      unfold tasks in Ht. cbn. lia.
    + unfold tasks in Ht. cbn. lia.
  - split; [done|]. split; [|done]. cbn. symmetry. apply bool_decide_eq_false_2. intros [Eh Ew].
    apply E0, E. rewrite Ew. done.
Qed.

(** ** Runs

    Tasks lock, try, and unlock what they hold; in between the rest of the
    program works on the events, without taking the queue's handles. *)
Inductive mutex_step : mutex S → mutex S → Prop :=
  | Step_lock m (is_shared : bool) n r m' :
      tasks m < max_tasks → lock_impl m is_shared n = Some (r, m') → mutex_step m m'
  | Step_try m : tasks m < max_tasks → mutex_step m (try_lock m).2
  | Step_try_shared m : tasks m < max_tasks → mutex_step m (try_lock_shared m).2
  | Step_unlock m m' : (0 < (holders m).1)%nat → unlock m = Some m' → mutex_step m m'
  | Step_unlock_shared m m' : (0 < (holders m).2)%nat → unlock_shared m = Some m' → mutex_step m m'
  | Step_events m s : queue_owns s (waiters_ m) →
      (∀ w, w ∈ waiters_ m → evs_shared s w.1 = evs_shared (store m) w.1) →
      mutex_step m (Mutex (latch_ m) (waiters_ m) (notified m) s (holders m)).

Definition new_mutex (s : S) : mutex S := Mutex 0 [] [] s (0, 0)%nat.

Lemma mutex_step_inv m m' : mutex_step m m' → mutex_inv m → mutex_inv m'.
Proof.
  intros Hs Hi. destruct Hs as [m is_shared n r m' Ht E|m Ht|m Ht|m m' Hh E|m m' Hh E|m s Hq Hf].
  - destruct (lock_impl_spec m is_shared n Hi Ht) as (r' & m1 & E' & Hi' & _). congruence.
  - by apply try_lock_spec.
  - by apply try_lock_shared_spec.
  - destruct (unlock_spec m Hi Hh) as (m1 & E' & Hi' & _). congruence.
  - destruct (unlock_shared_spec m Hi Hh) as (m1 & E' & Hi' & _). congruence.
  - destruct Hi as [I1 I2 I3 I4 I5].
    split; cbn [store waiters_ holders latch_]; try done.
    + rewrite I3. f_equal. unfold next_of. destruct (waiters_ m); [done|]. by rewrite Hf by left.
    + unfold head_blocked in *. destruct (waiters_ m); [done|]. by rewrite Hf by left.
Qed.

Lemma mutex_run_inv s m : evs_ok s → rtc mutex_step (new_mutex s) m → mutex_inv m.
Proof.
  intros Hok Hr. assert (H0 : mutex_inv (new_mutex s)).
  { split; cbn; try done; [by split; [|intros e; cbn; lia]|by left]. }
  revert H0. induction Hr as [|m1 m2 m3 Hs _ IH]; [done|]. intros Hi. by apply IH, (mutex_step_inv m1).
Qed.

(** C15 However tasks lock, try to lock and unlock, at most one task holds the
    lock exclusively and then no task shares it, and a lock that nobody holds
    has nobody waiting for it: no wakeup is lost, whichever fast path was
    taken and whichever waiter gave up. *)
Theorem mutex_excludes (s : S) (m : mutex S) :
  evs_ok s → rtc mutex_step (new_mutex s) m →
  ((holders m).1 ≤ 1)%nat ∧ ((holders m).1 = 1%nat → (holders m).2 = 0%nat) ∧
  (holders m = (0, 0)%nat → waiters_ m = []) ∧
  (latch_ m = 0 ↔ holders m = (0, 0)%nat ∧ waiters_ m = []).
Proof.
  intros Hok Hr. pose proof (mutex_run_inv s m Hok Hr) as Hi.
  pose proof (inv_excl m Hi) as Hx. unfold exclusive in Hx.
  assert (Hw : holders m = (0, 0)%nat → waiters_ m = []).
  { intros E. pose proof (inv_blocked m Hi) as Hb. unfold head_blocked in Hb. destruct (waiters_ m); [done|].
    destruct Hb as ([] & _ & Hc); rewrite E in Hc; done. }
  split; [lia|]. split; [lia|]. split; [done|]. rewrite (inv_word m Hi). split.
  - intros E. pose proof (next_of_bits (store m) (waiters_ m)) as Hn.
    assert (E1 : (holders m).1 = O ∧ (holders m).2 = O ∧ next_of (store m) (waiters_ m) = 0).
    { unfold held_word, next_bits in *. lia. }
    destruct E1 as (E1 & E2 & E3). split; [|by apply next_of_zero in E3].
    destruct (holders m); cbn in *; congruence.
  - intros [-> ->]. done.
Qed.

(** The lock is fair: in any reachable state a request is answered, never
    fails, and is granted at once only when no one is left waiting; otherwise
    it goes to the very end of the queue, and all the operations take waiters
    off its front only. *)
Theorem mutex_fair (s : S) (m : mutex S) (is_shared : bool) (n : option nat) :
  evs_ok s → rtc mutex_step (new_mutex s) m → tasks m < max_tasks →
  (∃ r m', lock_impl m is_shared n = Some (r, m') ∧
     match r with
     | None => waiters_ m' = []
     | Some e => ∃ k, waiters_ m' = drop k (waiters_ m) ++ [(e, n)]
     end) ∧
  ((try_lock m).1 = true → waiters_ m = []) ∧ ((try_lock_shared m).1 = true → waiters_ m = []) ∧
  ((0 < (holders m).1)%nat → ∃ m' k, unlock m = Some m' ∧ waiters_ m' = drop k (waiters_ m)) ∧
  ((0 < (holders m).2)%nat → ∃ m' k, unlock_shared m = Some m' ∧ waiters_ m' = drop k (waiters_ m)).
Proof.
  intros Hok Hr Ht. pose proof (mutex_run_inv s m Hok Hr) as Hi. split; [|split; [|split; [|split]]].
  - destruct (lock_impl_spec m is_shared n Hi Ht) as (r & m' & E & _ & Hr'). by exists r, m'.
  - destruct (try_lock_spec m Hi Ht) as (_ & -> & _). rewrite bool_decide_eq_true. by intros [].
  - destruct (try_lock_shared_spec m Hi Ht) as (_ & -> & _). rewrite bool_decide_eq_true. by intros [].
  - intros Hh. destruct (unlock_spec m Hi Hh) as (m' & E & _ & k & Hk). by exists m', k.
  - intros Hh. destruct (unlock_shared_spec m Hi Hh) as (m' & E & _ & k & Hk). by exists m', k.
Qed.
End Invariant.

(** * The events of the runtime implement the interface

    On worlds of plain events, the ones the mutex makes: no quorum waits for
    them.  Three levels of fuel are enough there, for nothing recurs. *)

(** [ef_user], the first user flag: the mutex marks shared waiters with it. *)
Definition ef_user : Z := 64.

Definition plain_body (b : event_body) : Prop :=
  quorum_part b = None ∧ all_coroutines (listeners_ b) ∧ (0 < refcount_ b)%nat ∧
  ef_empty b = bool_decide (listeners_ b = []).

Definition plain_world (w : world) : Prop :=
  map_Forall (λ _ b, plain_body b) (bodies w) ∧ (∀ e, (next_event w ≤ e)%nat → bodies w !! e = None).

Definition body_shared (b : event_body) : bool := negb (Z.land (user_flags b) ef_user =? 0).

Section PlainEvents.
Context (home : nat → nat) (current : nat).

#[export] Instance plain_store : EventStore world := {
  evs_ok := plain_world;
  evs_handles w e := match bodies w !! e with Some b => refcount_ b | None => O end;
  evs_new := new_event;
  evs_set_shared w e := set_user_flags w e ef_user;
  evs_shared w e := body_shared <$> bodies w !! e;
  evs_empty w e := body_empty <$> bodies w !! e;
  evs_copy w e := ref w e 1;
  evs_trigger w e := trigger home current 3 w e;
  evs_drop w e := drop_handle home current 3 w e
}.

Lemma plain_lookup w e b : plain_world w → bodies w !! e = Some b → plain_body b.
Proof. intros [H _] Hb. by apply (H e). Qed.

Lemma plain_update w e b b' bs' asap' mig' log' :
  plain_world w → bodies w !! e = Some b → plain_body b' → bs' = <[e := b']> (bodies w) →
  plain_world (World bs' (next_event w) asap' mig' log').
Proof.
  intros [H1 H2] Hb Hp ->. split; cbn.
  - by apply map_Forall_insert_2.
  - intros d Hd. rewrite lookup_insert_ne; [by apply H2|]. intros ->. rewrite H2 in Hb; done.
Qed.

(** With no driver to claim a task, every listener is kept. *)
Lemma sort_no_driver ls t :
  all_coroutines ls → sl_kept (sort_listeners home ls None t) = sl_kept t ++ ls.
Proof.
  intros Hc. revert t. induction Hc as [|l ls [c ->] _ IH]; intros t; cbn [sort_listeners]; [by rewrite app_nil_r|].
  rewrite bool_decide_eq_false_2 by done. rewrite IH. cbn. by rewrite <-(assoc_L (++)).
Qed.

Lemma post_drivers_bodies v e d ds :
  bodies (post_drivers v e d ds) = bodies v ∧ next_event (post_drivers v e d ds) = next_event v.
Proof.
  revert v. induction ds as [|x ds IH]; intros v; [done|]. cbn [post_drivers].
  by destruct (x =? d)%nat; rewrite !(proj1 (IH _)), !(proj2 (IH _)).
Qed.

(** Triggering a plain event changes its body only: its flag, and the handles
    of the drivers it is posted to. *)
Lemma trigger_plain w e b :
  plain_world w → bodies w !! e = Some b → ef_triggered b = false →
  ∃ w' b', trigger home current 3 w e = Some (negb (ef_empty b) || (1 <? refcount_ b)%nat, w') ∧
    plain_world w' ∧ bodies w' = <[e := b']> (bodies w) ∧ next_event w' = next_event w ∧
    (refcount_ b ≤ refcount_ b')%nat ∧ user_flags b' = user_flags b ∧ ef_triggered b' = true.
Proof.
  intros Hw Hb Ht. destruct (plain_lookup w e b Hw Hb) as (Hq & Hc & Hr & He).
  unfold trigger. rewrite Hb. cbn [mbind option_bind]. rewrite Ht.
  cbn [trigger_unlock]. rewrite Hb. cbn [mbind option_bind]. rewrite Hq. cbn [mbind option_bind].
  rewrite Hb. cbn [mbind option_bind].
  set (s := sort_listeners home (listeners_ b) None (SortedListeners [] None [] [])).
  assert (Hs : sl_quorums s = [] ∧ sl_kept s = listeners_ b).
  { split; [by apply (sort_quorums home (listeners_ b) None)|by apply (sort_no_driver (listeners_ b))]. }
  destruct Hs as [-> Hk]. rewrite Hk. cbn [trigger_members mbind option_bind fst snd].
  set (b1 := with_triggered (with_listeners b (listeners_ b) (ef_empty b || bool_decide (listeners_ b = [])))).
  assert (Hp1 : ∀ n, (0 < n)%nat → plain_body (with_refcount b1 n)).
  { intros n Hn. split; [done|]. split; [done|]. split; [done|]. cbn. rewrite He. by destruct (bool_decide _). }
  assert (Hq1 : quorum_part b1 = None) by done. rewrite Hq1.
  destruct (decide (sl_drivers s = [])) as [E|E].
  - rewrite (bool_decide_eq_true_2 _ E). cbn [mbind option_bind fst].
    eexists _, b1. split; [done|]. split; [|done].
    eapply (plain_update w e b); [done|done| |done]. by apply (Hp1 (refcount_ b)).
  - rewrite (bool_decide_eq_false_2 _ E). unfold ref. cbn [add_log set_body bodies].
    rewrite lookup_insert_eq. cbn [mbind option_bind fst].
    match goal with |- context [post_drivers ?v e ?d ?ds] => destruct (post_drivers_bodies v e d ds) as [P1 P2]; set (w2 := post_drivers v e d ds) in * end.
    cbn in P1, P2. rewrite insert_insert_eq in P1.
    eexists w2, _. split; [done|]. split; [|split; [exact P1|]].
    + destruct w2 as [bs nx aa mm ll]. cbn in P1, P2. subst nx. eapply (plain_update w e b); [done|done| |exact P1].
      apply Hp1. lia.
    + split; [done|]. cbn. split; [lia|done].
Qed.

#[export] Instance plain_laws : EventLaws world.
Proof.
  assert (Hin : ∀ w e, (0 < evs_handles w e)%nat → ∃ b, bodies w !! e = Some b ∧ evs_handles w e = refcount_ b).
  { intros w e. cbn. destruct (bodies w !! e) as [b|]; [by exists b|lia]. }
  split.
  - intros w Hw. assert (Hn : bodies w !! next_event w = None) by (by apply Hw).
    cbn. rewrite Hn, lookup_insert_eq. split; [|done]. split; [|split].
    + destruct Hw as [H1 H2]. split; cbn.
      * apply map_Forall_insert_2; [|done]. repeat split; cbn; [constructor|lia].
      * intros d Hd. rewrite lookup_insert_ne by lia. apply H2. lia.
    + intros d. cbn. destruct (decide (d = next_event w)) as [->|Hne]; [rewrite Hn; lia|].
      by rewrite lookup_insert_ne.
    + intros d. cbn. destruct (decide (d = next_event w)) as [->|Hne]; [rewrite Hn; lia|].
      by rewrite lookup_insert_ne.
  - intros w e Hw Hh. destruct (Hin w e Hh) as (b & Hb & _). cbn. unfold set_user_flags. rewrite Hb. cbn.
    eexists. split; [done|]. split; [|split; [|split]].
    + eapply (plain_update w e b); [done|done| |done]. by apply (plain_lookup w e b).
    + intros d. cbn. destruct (decide (d = e)) as [->|]; [by rewrite lookup_insert_eq, Hb|by rewrite lookup_insert_ne].
    + cbn. by rewrite lookup_insert_eq.
    + intros d Hd. cbn. by rewrite lookup_insert_ne.
  - intros w e Hw Hh. destruct (Hin w e Hh) as (b & Hb & _). cbn. rewrite Hb. by eexists.
  - intros w e Hw Hh. destruct (Hin w e Hh) as (b & Hb & _). cbn. rewrite Hb. by eexists.
  - intros w e Hw Hh. destruct (Hin w e Hh) as (b & Hb & _). cbn. unfold ref. rewrite Hb. cbn.
    eexists. split; [done|]. split; [|cbn; rewrite lookup_insert_eq; cbn; lia]. split; [|split].
    + eapply (plain_update w e b); [done|done| |done]. destruct (plain_lookup w e b Hw Hb) as (? & ? & ? & ?).
      repeat split; cbn; try done. lia.
    + intros d. cbn. destruct (decide (d = e)) as [->|]; [rewrite lookup_insert_eq, Hb; cbn; lia|by rewrite lookup_insert_ne].
    + intros d _. cbn. destruct (decide (d = e)) as [->|]; [by rewrite lookup_insert_eq, Hb|by rewrite lookup_insert_ne].
  - intros w e Hw Hh. destruct (Hin w e Hh) as (b & Hb & _). cbn [evs_trigger plain_store].
    destruct (ef_triggered b) eqn:Et.
    + exists false, w. unfold trigger. rewrite Hb. cbn. rewrite Et. split; [done|]. split; [by split|].
      cbn. rewrite Hb. cbn. unfold body_empty. by rewrite Et.
    + destruct (trigger_plain w e b Hw Hb Et) as (w' & b' & E & Hw' & Hbs & _ & Hr & Hu & _).
      rewrite E. eexists _, w'. split; [done|]. split; [split; [done|split]|].
      * intros d. cbn. rewrite Hbs. destruct (decide (d = e)) as [->|]; [by rewrite lookup_insert_eq, Hb|by rewrite lookup_insert_ne].
      * intros d _. cbn. rewrite Hbs. destruct (decide (d = e)) as [->|]; [|by rewrite lookup_insert_ne].
        rewrite lookup_insert_eq, Hb. cbn. unfold body_shared. by rewrite Hu.
      * cbn. rewrite Hb. cbn. unfold body_empty. rewrite Et. cbn. intros [= E1].
        destruct (plain_lookup w e b Hw Hb) as (_ & _ & Hpos & _).
        destruct (ef_empty b); cbn [negb orb andb] in *; [|done]. apply Nat.eqb_neq in E1. destruct (refcount_ b) as [|[|n]]; by try lia.
  - intros w e Hw Hh. destruct (Hin w e Hh) as (b & Hb & _). cbn [evs_drop plain_store drop_handle].
    rewrite Hb. cbn [mbind option_bind]. destruct (plain_lookup w e b Hw Hb) as (Hq & Hc & Hp & Hf). rewrite Hq.
    cbn. rewrite Hb. destruct (Nat.eqb_spec (refcount_ b) 1) as [E1|E1]; cbn [negb].
    + eexists. split; [done|]. cbn. rewrite lookup_delete_eq. split; [|split; [lia|split]].
      * destruct Hw as [H1 H2]. split; cbn; [by apply map_Forall_delete|].
        intros d Hd. destruct (decide (d = e)) as [->|]; [by rewrite lookup_delete_eq|rewrite lookup_delete_ne by done; by apply H2].
      * intros d Hd. by rewrite lookup_delete_ne.
      * intros d Hd. cbn in Hd |- *. destruct (decide (d = e)) as [->|]; [rewrite lookup_delete_eq in Hd; lia|by rewrite lookup_delete_ne].
    + eexists. split; [done|]. cbn. rewrite lookup_insert_eq. split; [|split; [done|split]].
      * eapply (plain_update w e b); [done|done| |done]. repeat split; cbn; try done. lia.
      * intros d Hd. by rewrite lookup_insert_ne.
      * intros d _. cbn. destruct (decide (d = e)) as [->|]; [by rewrite lookup_insert_eq, Hb|by rewrite lookup_insert_ne].
Qed.
End PlainEvents.

(** ** A run

    A task takes the lock, a second one asks to share it and waits, the first
    one unlocks: the second one shares the lock. *)
Definition idle_world : world := World ∅ 0 [] [] [].
Definition at_zero (c : nat) : nat := O.

Definition run_lock (is_shared : bool) (m : mutex world) : mutex world :=
  match @lock_impl _ (plain_store at_zero 0) m is_shared None with Some (_, m') => m' | None => m end.
Definition run_unlock (m : mutex world) : mutex world :=
  match @unlock _ (plain_store at_zero 0) m with Some m' => m' | None => m end.

Definition one_waits : mutex world := run_lock true (run_lock false (new_mutex idle_world)).

Lemma idle_ok : plain_world idle_world.
Proof. split; [apply map_Forall_empty|done]. Qed.

Lemma one_waits_run : rtc (@mutex_step _ (plain_store at_zero 0)) (new_mutex idle_world) one_waits.
Proof.
  eapply rtc_l; [apply (@Step_lock _ (plain_store at_zero 0) _ false None None); [done|by vm_compute]|].
  eapply rtc_l; [apply (@Step_lock _ (plain_store at_zero 0) _ true None (Some O)); [done|by vm_compute]|].
  apply rtc_refl.
Qed.

Lemma mutex_excludes_witness :
  let m := run_unlock one_waits in
  holders one_waits = (1, 0)%nat ∧ waiters_ one_waits = [(0%nat, None)] ∧ holders m = (0, 1)%nat ∧
  ((holders m).1 ≤ 1)%nat ∧ ((holders m).1 = 1%nat → (holders m).2 = 0%nat) ∧
  (holders m = (0, 0)%nat → waiters_ m = []) ∧
  (latch_ m = 0 ↔ holders m = (0, 0)%nat ∧ waiters_ m = []).
Proof.
  cbv zeta. split; [by vm_compute|]. split; [by vm_compute|]. split; [by vm_compute|].
  apply (@mutex_excludes _ (plain_store at_zero 0) (plain_laws at_zero 0) idle_world).
  - apply idle_ok.
  - eapply rtc_r; [apply one_waits_run|].
    apply (@Step_unlock _ (plain_store at_zero 0)); [vm_compute; lia|by vm_compute].
Defined.

Lemma mutex_fair_witness :
  (∃ r m', @lock_impl _ (plain_store at_zero 0) one_waits true (Some 7%nat) = Some (r, m') ∧
     match r with
     | None => waiters_ m' = []
     | Some e => ∃ k, waiters_ m' = drop k [(0%nat, None)] ++ [(e, Some 7%nat)]
     end) ∧
  ((try_lock one_waits).1 = true → waiters_ one_waits = []) ∧
  ((try_lock_shared one_waits).1 = true → waiters_ one_waits = []) ∧
  ((0 < (holders one_waits).1)%nat →
     ∃ m' k, @unlock _ (plain_store at_zero 0) one_waits = Some m' ∧ waiters_ m' = drop k (waiters_ one_waits)) ∧
  ((0 < (holders one_waits).2)%nat →
     ∃ m' k, @unlock_shared _ (plain_store at_zero 0) one_waits = Some m' ∧ waiters_ m' = drop k (waiters_ one_waits)).
Proof.
  apply (@mutex_fair _ (plain_store at_zero 0) (plain_laws at_zero 0) idle_world one_waits true (Some 7%nat)).
  - apply idle_ok.
  - apply one_waits_run.
  - by vm_compute.
Defined.
