(* ===== verification/Locks.v ===== *)
(** The lock guards of the coroutine runtime, [unique_lock] and [shared_lock] of
    [src/cotamer/cotamer.hh] and [src/cotamer/cotamer_impl.hh], over the mutexes
    of [Mutex].

    Guards live at addresses and name a mutex, or none; a waiting guard is in the
    queue of its mutex by the address of its flag [owned_].  A call of a mutex
    sets flags of guards: the list [notified] of the mutex is written to the
    guards, and emptied, before the call returns.  The two classes have the same
    code; a guard says which it is.  Each mutex has a store of events to itself.
    Mutexes are not destroyed. *)

From S2P Require Import Prelude Events Mutex.
Import Handles.

Record guard := Guard { g_shared : bool; m_ : option nat; owned_ : bool }.

Record gstate (S : Type) := GState { locks : gmap nat (mutex S); guards : gmap nat guard }.
Arguments GState {S}.
Arguments locks {S}.
Arguments guards {S}.

(** The errors that the guards throw. *)
Inductive lock_errc := operation_not_permitted | resource_deadlock_would_occur.

(** What a call returns: nothing, an exception, the event of a request (null when
    the lock was had at once), a truth value, the mutex released. *)
Record mutex_event := MutexEvent { me_mutex : nat; me_event : option nat }.
Inductive outcome :=
  | Done
  | Throws (e : lock_errc)
  | Waits (e : mutex_event)
  | Got (b : bool)
  | Released (k : option nat).

Section Ops.
Context {S : Type} `{EventStore S}.
Implicit Types (st : gstate S).

(** [*notify = true], for each flag that a call of a mutex sets. *)
Fixpoint write_flags (xs : list nat) (gs : gmap nat guard) : option (gmap nat guard) :=
  match xs with
  | [] => Some gs
  | x :: xs => g ← gs !! x; write_flags xs (<[x := Guard (g_shared g) (m_ g) true]> gs)
  end.

Definition settle (k : nat) (m : mutex S) st : option (gstate S) :=
  gs ← write_flags (notified m) (guards st);
  Some (GState (<[k := Mutex (latch_ m) (waiters_ m) [] (store m) (holders m)]> (locks st)) gs).

Definition set_guard (x : nat) (g : guard) st : gstate S := GState (locks st) (<[x := g]> (guards st)).

(** The mutex called at [k]: a request, with the flag to set, a try, a release. *)
Definition mutex_lock (k : nat) (is_shared : bool) (notify : option nat) st : option (mutex_event * gstate S) :=
  m ← locks st !! k;
  r ← lock_impl m is_shared notify;
  st ← settle k r.2 st;
  Some (MutexEvent k r.1, st).

Definition mutex_try (k : nat) (is_shared : bool) st : option (bool * gstate S) :=
  m ← locks st !! k;
  let r := if is_shared then try_lock_shared m else try_lock m in
  Some (r.1, GState (<[k := r.2]> (locks st)) (guards st)).

Definition mutex_unlock (k : nat) (is_shared : bool) st : option (gstate S) :=
  m ← locks st !! k;
  m ← (if is_shared then unlock_shared m else unlock m);
  settle k m st.

(** * The guards *)

(** [if (owned_) m_->unlock()]. *)
Definition let_go (g : guard) st : option (gstate S) :=
  if owned_ g then k ← m_ g; mutex_unlock k (g_shared g) st else Some st.

Definition guard_deferred (sh : bool) (x k : nat) st : gstate S := set_guard x (Guard sh (Some k) false) st.
Definition guard_adopted (sh : bool) (x k : nat) st : gstate S := set_guard x (Guard sh (Some k) true) st.
Definition guard_tried (sh : bool) (x k : nat) st : option (gstate S) :=
  r ← mutex_try k sh st; Some (set_guard x (Guard sh (Some k) r.1) r.2).
Definition guard_empty (sh : bool) (x : nat) st : gstate S := set_guard x (Guard sh None false) st.

(** [std::exchange] of the fields of [y], left null. *)
Definition guard_moved (x y : nat) st : option (gstate S) :=
  g ← guards st !! y;
  Some (set_guard x g (set_guard y (Guard (g_shared g) None false) st)).

Definition guard_destroyed (x : nat) st : option (gstate S) :=
  g ← guards st !! x;
  st ← let_go g st;
  Some (GState (locks st) (delete x (guards st))).

Definition guard_assigned (x y : nat) st : option (gstate S) :=
  g ← guards st !! x;
  st ← let_go g st;
  guard_moved x y st.

Definition guard_swapped (x y : nat) st : option (gstate S) :=
  g ← guards st !! x;
  g' ← guards st !! y;
  Some (if negb (y =? x)%nat then set_guard y g (set_guard x g' st) else st).

Definition guard_lock (x : nat) st : option (outcome * gstate S) :=
  g ← guards st !! x;
  match m_ g with
  | None => Some (Throws operation_not_permitted, st)
  | Some k =>
      if owned_ g then Some (Throws resource_deadlock_would_occur, st)
      else r ← mutex_lock k (g_shared g) (Some x) st; Some (Waits r.1, r.2)
  end.

Definition guard_try_lock (x : nat) st : option (outcome * gstate S) :=
  g ← guards st !! x;
  match m_ g with
  | None => Some (Throws operation_not_permitted, st)
  | Some k =>
      if owned_ g then Some (Throws resource_deadlock_would_occur, st)
      else r ← mutex_try k (g_shared g) st; Some (Got r.1, set_guard x (Guard (g_shared g) (Some k) r.1) r.2)
  end.

Definition guard_unlock (x : nat) st : option (outcome * gstate S) :=
  g ← guards st !! x;
  if negb (owned_ g) then Some (Throws operation_not_permitted, st)
  else
    k ← m_ g;
    st ← mutex_unlock k (g_shared g) st;
    Some (Done, set_guard x (Guard (g_shared g) (Some k) false) st).

Definition guard_release (x : nat) st : option (outcome * gstate S) :=
  g ← guards st !! x;
  Some (Released (m_ g), set_guard x (Guard (g_shared g) None false) st).

(** * Steps

    The guards are used as [unique_lock] or [shared_lock] (the flag); a program
    may also call the mutex itself, and works on events in between. *)
Inductive guard_op :=
  | G_mutex (k : nat) (s : S)
  | G_empty (sh : bool) (x : nat)
  | G_deferred (sh : bool) (x k : nat)
  | G_tried (sh : bool) (x k : nat)
  | G_adopted (sh : bool) (x k : nat)
  | G_moved (x y : nat)
  | G_destroyed (x : nat)
  | G_assigned (x y : nat)
  | G_swapped (x y : nat)
  | G_lock (x : nat)
  | G_try_lock (x : nat)
  | G_unlock (x : nat)
  | G_release (x : nat)
  | G_raw_lock (k : nat) (sh : bool)
  | G_raw_try (k : nat) (sh : bool)
  | G_raw_unlock (k : nat) (sh : bool)
  | G_events (k : nat) (s : S).

Definition run_guard (op : guard_op) st : option (outcome * gstate S) :=
  match op with
  | G_mutex k s => Some (Done, GState (<[k := new_mutex s]> (locks st)) (guards st))
  | G_empty sh x => Some (Done, guard_empty sh x st)
  | G_deferred sh x k => Some (Done, guard_deferred sh x k st)
  | G_tried sh x k => pair Done <$> guard_tried sh x k st
  | G_adopted sh x k => Some (Done, guard_adopted sh x k st)
  | G_moved x y => pair Done <$> guard_moved x y st
  | G_destroyed x => pair Done <$> guard_destroyed x st
  | G_assigned x y => pair Done <$> guard_assigned x y st
  | G_swapped x y => pair Done <$> guard_swapped x y st
  | G_lock x => guard_lock x st
  | G_try_lock x => guard_try_lock x st
  | G_unlock x => guard_unlock x st
  | G_release x => guard_release x st
  | G_raw_lock k sh => r ← mutex_lock k sh None st; Some (Waits r.1, r.2)
  | G_raw_try k sh => r ← mutex_try k sh st; Some (Got r.1, r.2)
  | G_raw_unlock k sh => pair Done <$> mutex_unlock k sh st
  | G_events k s =>
      m ← locks st !! k;
      Some (Done, GState (<[k := Mutex (latch_ m) (waiters_ m) (notified m) s (holders m)]> (locks st)) (guards st))
  end.
End Ops.

(** * What a mutex grants

    A queue is labelled with what each entry asks for: the kind of lock and the
    flag to set. *)
Definition label : Type := bool * option nat.
Definition grant_all (h : nat * nat) (gl : list label) : nat * nat := foldl (λ h g, grant g.1 h) h gl.
Definition flags_of (gl : list label) : list nat := gl ≫= λ g, option_list g.2.
Definition held_as (sh : bool) (h : nat * nat) : nat := if sh then h.2 else h.1.

Section Grants.
Context {S : Type} `{!EventStore S} `{!EventLaws S}.
Implicit Types (m : mutex S) (ws : list (nat * option nat)).

Definition labels_in (s : S) ws : list label := (λ w, (default false (evs_shared s w.1), w.2)) <$> ws.
Definition labels m : list label := labels_in (store m) (waiters_ m).

(** [m'] has granted, in order, some of the first requests of [q], starting
    from the holders [h], and has the rest in its queue. *)
Definition served (q : list label) (h : nat * nat) m m' : Prop :=
  ∃ k gl, gl `sublist_of` take k q ∧ labels m' = drop k q ∧
    notified m' = notified m ++ flags_of gl ∧ holders m' = grant_all h gl.

Lemma labels_ext s s' ws : (∀ w, w ∈ ws → evs_shared s' w.1 = evs_shared s w.1) → labels_in s' ws = labels_in s ws.
Proof. intros H. apply list_fmap_ext. intros i w Hw. f_equal. rewrite H; [done|]. by eapply list_elem_of_lookup_2. Qed.

Lemma queue_tail s w ws : queue_owns s (w :: ws) → ∀ v, v ∈ w :: ws → (0 < evs_handles s v.1)%nat.
Proof.
  intros [_ Hq] v Hv. specialize (Hq v.1). assert (Hpos : (0 < entries v.1 (w :: ws))%nat); [|lia].
  unfold entries. assert (Hf : v ∈ filter (λ u, u.1 = v.1) (w :: ws)) by (by apply list_elem_of_filter).
  destruct (filter _ (w :: ws)); [by inversion Hf|simpl; lia].
Qed.

(** The entries left keep their labels when the first handle is dropped. *)
Lemma drop_labels s w ws s' : queue_owns s (w :: ws) → evs_drop s w.1 = Some s' → queue_owns s' ws ∧ labels_in s' ws = labels_in s ws.
Proof.
  intros Hq E. destruct (drop_head s w ws Hq) as (s1 & E1 & Hq'). assert (s1 = s') as -> by congruence. split; [done|].
  destruct (evs_drop_law s w.1) as (s2 & E2 & _ & _ & _ & Hs); [apply Hq|by eapply queue_head|]. assert (s2 = s') as -> by congruence.
  apply labels_ext. intros v Hv. apply Hs. destruct Hq' as [_ Hq'].
  specialize (Hq' v.1). assert (Hpos : (0 < entries v.1 ws)%nat); [|lia].
  unfold entries. assert (Hf : v ∈ filter (λ u, u.1 = v.1) ws) by (by apply list_elem_of_filter). destruct (filter _ ws); [by inversion Hf|simpl; lia].
Qed.

Lemma notify_serves ws : ∀ m l (r : Z * mutex S), queue_owns (store m) ws → notify_locked ws m l = Some r →
  ∃ k gl, gl `sublist_of` take k (labels_in (store m) ws) ∧ labels r.2 = drop k (labels_in (store m) ws) ∧
    notified r.2 = notified m ++ flags_of gl ∧ holders r.2 = grant_all (holders m) gl.
Proof.
  induction ws as [|w ws IH]; intros m l rm Hq E; cbn [notify_locked] in E.
  { injection E as <-. exists O, []. cbn. by rewrite app_nil_r. }
  apply bind_Some in E as (dead & Ed & E). destruct dead; cbn [negb] in E.
  - apply bind_Some in E as (s & Es & E). destruct (drop_labels _ _ _ _ Hq Es) as [Hq' El].
    edestruct (IH (Mutex _ _ _ s _) _ _ Hq' E) as (k & gl & H1 & H2 & H3 & H4). cbn [store] in *. rewrite El in H1, H2.
    exists (Datatypes.S k), gl. split; [by constructor|done].
  - apply bind_Some in E as (fws & Ef & E). destruct (negb (allow fws l)) eqn:Ea.
    { injection E as <-. exists O, []. cbn. by rewrite app_nil_r. }
    apply bind_Some in E as ([r s1] & Et & E). cbn [fst snd] in E.
    destruct (evs_trigger_law (store m) w.1) as (r' & s1' & Et' & Hk & Hr); [apply Hq|by eapply queue_head|].
    rewrite Et in Et'. injection Et' as <- <-. rewrite Hr in E by done.
    apply bind_Some in E as (s & Es & E).
    assert (Hq1 : queue_owns s1 (w :: ws)) by (by eapply queue_keeps).
    destruct (drop_labels _ _ _ _ Hq1 Es) as [Hq' El].
    assert (El1 : labels_in s1 ws = labels_in (store m) ws).
    { apply labels_ext. intros v Hv. apply Hk. eapply (queue_tail _ w ws); [done|by right]. }
    edestruct (IH (Mutex _ _ _ s _) _ _ Hq' E) as (k & gl & H1 & H2 & H3 & H4). cbn [store notified holders] in *. rewrite El, El1 in H1, H2.
    exists (Datatypes.S k), ((fws, w.2) :: gl). cbn [labels_in fmap list_fmap take drop]. rewrite Ef. cbn [default from_option].
    split; [by constructor|]. split; [done|]. split; [|done]. rewrite H3, <-(assoc_L (++)). done.
Qed.

Lemma unlatch_serves m l m' : unlatch m l = Some m' → labels m' = labels m ∧ notified m' = notified m ∧ holders m' = holders m.
Proof.
  unfold unlatch. destruct (waiters_ m) eqn:Ew; [|intros E; apply bind_Some in E as (b & _ & E)]; [intros [= <-]|injection E as <-];
    unfold labels; cbn; by rewrite Ew.
Qed.

Lemma flags_snoc gl (g : label) : flags_of (gl ++ [g]) = flags_of gl ++ option_list g.2.
Proof. unfold flags_of. rewrite bind_app. cbn. by rewrite app_nil_r. Qed.

Lemma lock_serves m sh n r m' : mutex_inv m → lock_impl m sh n = Some (r, m') →
  served (labels m ++ [(sh, n)]) (holders m) m m' ∧ (r = None → ∀ x, n = Some x → x ∈ notified m').
Proof.
  intros Hi E. unfold lock_impl in E. apply bind_Some in E as ([l m1] & En & E).
  destruct (notify_serves (waiters_ m) m _ _ (inv_queue m Hi) En) as (k & gl & H1 & H2 & H3 & H4). cbn [snd] in *.
  fold (labels m) in H1, H2.
  destruct (bool_decide (waiters_ m1 = []) && allow sh l) eqn:Ec.
  - apply andb_prop in Ec as [Ew%bool_decide_eq_true _]. apply bind_Some in E as (m2 & E & [= <- <-]).
    destruct (unlatch_serves _ _ _ E) as (U1 & U2 & U3). cbn [notified holders] in U2, U3.
    split; [|by intros _ x ->; rewrite U2; set_solver].
    assert (Hd : drop k (labels m) = []) by (rewrite <-H2; unfold labels; by rewrite Ew).
    exists (length (labels m) + 1)%nat, (gl ++ [(sh, n)]). split; [|split; [|split]].
    + rewrite take_ge by (rewrite length_app; cbn; lia). apply sublist_app; [|done]. etrans; [exact H1|]. apply sublist_take.
    + rewrite drop_ge by (rewrite length_app; cbn; lia). rewrite U1. unfold labels. cbn. by rewrite Ew.
    + rewrite U2, H3, flags_snoc. by rewrite <-(assoc_L (++)).
    + rewrite U3, H4. unfold grant_all. by rewrite foldl_app.
  - assert (Hq1 : queue_owns (store m1) (waiters_ m1)).
    { destruct (notify_spec (waiters_ m) m) as (m1' & E1 & Hq & _); [apply Hi..|].
      rewrite latch_held in En by done. rewrite En in E1. by injection E1 as _ <-. }
    destruct (enqueue_spec (store m1) (waiters_ m1) sh n Hq1) as (s1 & s2 & E1 & E2 & Hq2 & Hsh & Hold).
    destruct (evs_new (store m1)) as [e s0] eqn:Enw. cbn [fst snd] in *. rewrite E1 in E. cbn [mbind option_bind] in E.
    rewrite E2 in E. cbn [mbind option_bind] in E. apply bind_Some in E as (m2 & E & [= <- <-]).
    destruct (unlatch_serves _ _ _ E) as (U1 & U2 & U3). cbn [notified holders] in U2, U3. split; [|done].
    assert (Hl : labels (Mutex (latch_ m1) (waiters_ m1 ++ [(e, n)]) (notified m1) s2 (holders m1)) = labels m1 ++ [(sh, n)]).
    { unfold labels. cbn [store waiters_]. unfold labels_in at 1. rewrite fmap_app. f_equal; [by apply labels_ext|]. cbn. by rewrite Hsh. }
    set (k' := Nat.min k (length (labels m))).
    assert (Hk : take k' (labels m ++ [(sh, n)]) = take k (labels m) ∧ drop k' (labels m ++ [(sh, n)]) = drop k (labels m) ++ [(sh, n)]).
    { unfold k'. destruct (Nat.min_spec k (length (labels m))) as [[Hk ->]|[Hk ->]].
      - by rewrite take_app_le, drop_app_le by lia.
      - rewrite take_app_length, drop_app_length. by rewrite take_ge, drop_ge by lia. }
    destruct Hk as [K1 K2]. exists k', gl. rewrite K1, K2. split; [done|]. split; [by rewrite U1, Hl, H2|]. split; [by rewrite U2|by rewrite U3].
Qed.

Lemma unlock_impl_serves m sh m' : mutex_inv m → unlock_impl m sh = Some m' → served (labels m) (release sh (holders m)) m m'.
Proof.
  intros Hi E. unfold unlock_impl in E. apply bind_Some in E as ([l m1] & En & E). cbn [fst snd] in E.
  destruct (notify_serves (waiters_ m) (Mutex (latch_ m) (waiters_ m) (notified m) (store m) (release sh (holders m))) _ _ (inv_queue m Hi) En)
    as (k & gl & H1 & H2 & H3 & H4). cbn [snd store notified holders] in *.
  destruct (unlatch_serves _ _ _ E) as (U1 & U2 & U3). exists k, gl. split; [done|]. split; [by rewrite U1|]. split; [by rewrite U2|by rewrite U3].
Qed.

Lemma with_latch_serves m l h : served (labels m) h m (with_latch m l h).
Proof. exists O, []. cbn. rewrite app_nil_r. done. Qed.

Lemma unlock_serves m (sh : bool) m' : mutex_inv m → (if sh then unlock_shared m else unlock m) = Some m' →
  served (labels m) (release sh (holders m)) m m'.
Proof.
  intros Hi. destruct sh; unfold unlock_shared, unlock; cbv zeta.
  - destruct (_ && _); [intros [= <-]; apply with_latch_serves|by apply unlock_impl_serves].
  - destruct (_ =? _); [intros [= <-]; apply with_latch_serves|by apply unlock_impl_serves].
Qed.
End Grants.

(** * Counting the guards that own a lock *)

Definition slot (k : nat) (sh : bool) : nat := (2 * k + if sh then 1 else 0)%nat.
Definition key (g : guard) : option nat := if owned_ g then k ← m_ g; Some (slot k (g_shared g)) else None.
Definition owned (gs : gmap nat guard) (k : nat) (sh : bool) : Z := count (key <$> gs) (slot k sh).

Lemma lock_slot_inj k k' sh sh' : slot k sh = slot k' sh' → k = k' ∧ sh = sh'.
Proof. unfold slot. destruct sh, sh'; split; (done || lia). Qed.

Lemma one_owner g k k' sh : owned_ g = true → m_ g = Some k →
  one (key g) (slot k' sh) = if decide (k = k' ∧ g_shared g = sh) then 1 else 0.
Proof.
  intros Ho Hk. unfold one, key. rewrite Ho, Hk. cbn. destruct (decide (k = k' ∧ g_shared g = sh)) as [[-> <-]|Hne]; [by rewrite decide_True|].
  rewrite decide_False; [done|]. intros [= E]. by apply lock_slot_inj in E.
Qed.

Lemma one_unowned g k sh : owned_ g = false → one (key g) (slot k sh) = 0.
Proof. intros Ho. unfold one, key. by rewrite Ho. Qed.

Lemma owned_new gs x g k sh : gs !! x = None → owned (<[x := g]> gs) k sh = owned gs k sh + one (key g) (slot k sh).
Proof. intros H. unfold owned. rewrite fmap_insert. apply count_new. by rewrite lookup_fmap, H. Qed.

Lemma owned_set gs x g g' k sh : gs !! x = Some g →
  owned (<[x := g']> gs) k sh = owned gs k sh - one (key g) (slot k sh) + one (key g') (slot k sh).
Proof. intros H. unfold owned. rewrite fmap_insert. apply count_set. by rewrite lookup_fmap, H. Qed.

Lemma owned_delete gs x g k sh : gs !! x = Some g → owned (delete x gs) k sh = owned gs k sh - one (key g) (slot k sh).
Proof. intros H. unfold owned. rewrite fmap_delete. apply count_delete. by rewrite lookup_fmap, H. Qed.

Lemma owned_bound gs k sh : 0 ≤ owned gs k sh.
Proof. apply count_bound. Qed.

Lemma owned_pos gs x g k : gs !! x = Some g → owned_ g = true → m_ g = Some k → 0 < owned gs k (g_shared g).
Proof.
  intros Hx Ho Hk. assert (owned gs k (g_shared g) ≠ 0); [|pose proof (owned_bound gs k (g_shared g)); lia].
  apply count_pos. exists x. rewrite lookup_fmap, Hx. unfold key. cbn. by rewrite Ho, Hk.
Qed.

(** Two guards that own the same kind of lock of one mutex. *)
Lemma owned_two gs x y g h k : x ≠ y → gs !! x = Some g → gs !! y = Some h → owned_ g = true → owned_ h = true →
  m_ g = Some k → m_ h = Some k → g_shared g = g_shared h → 1 < owned gs k (g_shared g).
Proof.
  intros Hne Hx Hy Hg Hh Kg Kh Es. pose proof (owned_delete gs x g k (g_shared g) Hx) as E.
  assert (Hp : 0 < owned (delete x gs) k (g_shared h)) by (apply (owned_pos _ y h); [by rewrite lookup_delete_ne|done|done]).
  rewrite (one_owner _ k), decide_True, Es in E by done. rewrite Es. lia.
Qed.

(** * Granting to guards *)

Definition asks (sh : bool) (g : label) : Prop := g.1 = sh.
#[export] Instance asks_dec sh g : Decision (asks sh g).
Proof. unfold asks. apply _. Defined.
Definition flagged (sh : bool) (g : label) : Prop := g.1 = sh ∧ is_Some g.2.
#[export] Instance flagged_dec sh g : Decision (flagged sh g).
Proof. unfold flagged. apply _. Defined.

Lemma grant_all_held sh gl : ∀ h, Z.of_nat (held_as sh (grant_all h gl)) = Z.of_nat (held_as sh h) + Z.of_nat (length (filter (asks sh) gl)).
Proof.
  induction gl as [|[sh' o] gl IH]; intros h; cbn [grant_all foldl]; [by rewrite filter_nil, Z.add_0_r|].
  fold (grant_all (grant sh' h) gl). rewrite IH, filter_cons. unfold asks at 2. cbn [fst].
  destruct (decide (sh' = sh)) as [->|Hne]; [destruct sh|destruct sh, sh']; cbn; try done; lia.
Qed.

Lemma flagged_asks sh gl : (length (filter (flagged sh) gl) ≤ length (filter (asks sh) gl))%nat ∧
  ((∀ g, g ∈ gl → is_Some g.2) → length (filter (flagged sh) gl) = length (filter (asks sh) gl)).
Proof.
  induction gl as [|g gl [IH1 IH2]]; [done|]. rewrite !filter_cons.
  destruct (decide (asks sh g)) as [Ha|Ha], (decide (flagged sh g)) as [Hf|Hf]; cbn [length].
  - split; [lia|]. intros H. rewrite IH2; [done|]. intros g' Hg'. apply H. by right.
  - split; [lia|]. intros H. destruct Hf. split; [done|]. apply H. by left.
  - by destruct Ha, Hf.
  - split; [done|]. intros H. apply IH2. intros g' Hg'. apply H. by right.
Qed.

Lemma elem_of_flags gl x : x ∈ flags_of gl ↔ ∃ sh, (sh, Some x) ∈ gl.
Proof.
  unfold flags_of. rewrite list_elem_of_bind. split.
  - intros ([sh o] & Hx & Hg). exists sh. destruct o as [y|]; cbn in Hx; [|by inversion Hx].
    apply list_elem_of_singleton in Hx as ->. done.
  - intros [sh Hg]. exists (sh, Some x). split; [by left|done].
Qed.

(** Requests of a queue belong to guards that do not own the lock yet. *)
Definition asked_by (gs : gmap nat guard) (k : nat) (q : list label) : Prop :=
  ∀ sh x, (sh, Some x) ∈ q → ∃ g, gs !! x = Some g ∧ g_shared g = sh ∧ m_ g = Some k ∧ owned_ g = false.

Definition same_shape (gs gs' : gmap nat guard) : Prop :=
  ∀ x, (λ g, (g_shared g, m_ g)) <$> gs' !! x = (λ g, (g_shared g, m_ g)) <$> gs !! x.

Lemma write_granted k gl : ∀ gs, NoDup (flags_of gl) → asked_by gs k gl →
  ∃ gs', write_flags (flags_of gl) gs = Some gs' ∧ (∀ x, x ∉ flags_of gl → gs' !! x = gs !! x) ∧
    (∀ x, x ∈ flags_of gl → ∃ g, gs' !! x = Some g ∧ owned_ g = true) ∧
    same_shape gs gs' ∧
    (∀ k' sh, owned gs' k' sh = owned gs k' sh + if decide (k = k') then Z.of_nat (length (filter (flagged sh) gl)) else 0).
Proof.
  induction gl as [|[sh [x|]] gl IH]; intros gs Hn Ha.
  - exists gs. split; [done|]. split; [done|]. split; [by intros x Hx; inversion Hx|]. split; [done|]. intros k' sh. destruct (decide _); cbn; lia.
  - change (flags_of ((sh, Some x) :: gl)) with (x :: flags_of gl) in *. apply NoDup_cons in Hn as [Hx Hn].
    destruct (Ha sh x) as (g & Hg & Hs & Hm & Ho); [by left|]. cbn [write_flags]. rewrite Hg. cbn [mbind option_bind].
    destruct (IH (<[x := Guard (g_shared g) (m_ g) true]> gs) Hn) as (gs' & E & H1 & H2 & H3 & H4).
    { intros sh' y Hy. destruct (Ha sh' y) as (g' & Hg' & R); [by right|]. exists g'. split; [|done].
      rewrite lookup_insert_ne; [done|]. intros <-. apply Hx, elem_of_flags. by exists sh'. }
    exists gs'. split; [done|]. split; [|split; [|split]].
    + intros y Hy. apply not_elem_of_cons in Hy as [Hy1 Hy2]. rewrite H1 by done. by rewrite lookup_insert_ne.
    + intros y Hy. apply elem_of_cons in Hy as [->|Hy]; [|by apply H2]. rewrite H1 by done. rewrite lookup_insert_eq. by eexists.
    + intros y. rewrite H3. destruct (decide (y = x)) as [->|Hne]; [by rewrite lookup_insert_eq, Hg|by rewrite lookup_insert_ne].
    + intros k' sh'. rewrite H4, (owned_set _ _ _ _ _ _ Hg), (one_unowned g), (one_owner _ k), filter_cons by done. cbn [g_shared]. rewrite Hs.
      destruct (decide (k = k')) as [->|Hk]; [|rewrite decide_False by naive_solver; lia].
      destruct (decide (sh = sh')) as [->|Hne].
      * rewrite decide_True by done. rewrite decide_True by (split; [done|by eexists]). cbn [length]. lia.
      * rewrite decide_False by naive_solver. rewrite decide_False by (by intros [E' _]). lia.
  - change (flags_of ((sh, None) :: gl)) with (flags_of gl) in *.
    destruct (IH gs Hn) as (gs' & E & H1 & H2 & H3 & H4); [intros s y Hy; apply Ha; by right|].
    exists gs'. split; [done|]. split; [done|]. split; [done|]. split; [done|]. intros k' sh'. rewrite H4, filter_cons.
    rewrite (decide_False (P := flagged _ _)); [done|]. intros [_ []]. done.
Qed.

(** * The invariant

    [raw] says whether the program also locks outside of guards.  Without it
    the owners are exactly the holders. *)
Section Guards.
Context {S : Type} `{!EventStore S} `{!EventLaws S} (raw : bool).
Implicit Types (m : mutex S) (st : gstate S) (gs : gmap nat guard).

Record fits gs (k : nat) (q : list label) (h : nat * nat) : Prop := {
  ft_asked : asked_by gs k q;
  ft_nodup : NoDup (flags_of q);
  ft_held : ∀ sh, owned gs k sh ≤ Z.of_nat (held_as sh h) ∧ (raw = false → owned gs k sh = Z.of_nat (held_as sh h));
  ft_guards : raw = false → ∀ l, l ∈ q → is_Some l.2
}.

Record lock_ok gs (k : nat) m : Prop := {
  lo_inv : mutex_inv m;
  lo_flags : notified m = [];
  lo_fits : fits gs k (labels m) (holders m)
}.

Definition names_ok (ls : gmap nat (mutex S)) gs : Prop :=
  ∀ x g, gs !! x = Some g → (∀ k, m_ g = Some k → is_Some (ls !! k)) ∧ (owned_ g = true → is_Some (m_ g)).

Definition all_ok (ls : gmap nat (mutex S)) gs : Prop :=
  (∀ k m, ls !! k = Some m → lock_ok gs k m) ∧ names_ok ls gs.

Definition waiting st (x : nat) : Prop := ∃ k m, locks st !! k = Some m ∧ ∃ e, (e, Some x) ∈ waiters_ m.

Lemma labels_waiting m x : x ∈ flags_of (labels m) ↔ ∃ e, (e, Some x) ∈ waiters_ m.
Proof.
  rewrite elem_of_flags. unfold labels, labels_in. split.
  - intros [sh Hl]. apply list_elem_of_fmap in Hl as ([e o] & [= _ ->] & He). by exists e.
  - intros [e He]. exists (default false (evs_shared (store m) e)). apply list_elem_of_fmap. by exists (e, Some x).
Qed.

(** Guards that wait are not touched, the counts are kept: the queue fits. *)
Lemma fits_upd gs gs' k q h h' : fits gs k q h → (∀ x, x ∈ flags_of q → gs' !! x = gs !! x) →
  (∀ sh, owned gs' k sh - Z.of_nat (held_as sh h') = owned gs k sh - Z.of_nat (held_as sh h)) → fits gs' k q h'.
Proof.
  intros [H1 H2 H3 H4] Hx Hc. split; [|done| |done].
  - intros sh x Hl. rewrite Hx by (apply elem_of_flags; by exists sh). by apply H1.
  - intros sh. specialize (H3 sh). specialize (Hc sh). split; [lia|]. intros Hr. destruct H3 as [_ H3]. specialize (H3 Hr). lia.
Qed.

Lemma names_insert ls gs x g : names_ok ls gs → (∀ k, m_ g = Some k → is_Some (ls !! k)) → (owned_ g = true → is_Some (m_ g)) →
  names_ok ls (<[x := g]> gs).
Proof.
  intros H H1 H2 y g' Hy. destruct (decide (y = x)) as [->|Hne].
  - rewrite lookup_insert_eq in Hy. by injection Hy as <-.
  - rewrite lookup_insert_ne in Hy by done. by apply (H y).
Qed.

Lemma names_more ls gs k m : names_ok ls gs → names_ok (<[k := m]> ls) gs.
Proof.
  intros H x g Hx. destruct (H x g Hx) as [H1 H2]. split; [|done]. intros k' Hk'. destruct (decide (k' = k)) as [->|Hne].
  - rewrite lookup_insert_eq. by eexists.
  - rewrite lookup_insert_ne by done. by apply H1.
Qed.

Lemma names_shape ls gs gs' : names_ok ls gs → same_shape gs gs' →
  (∀ x g, gs' !! x = Some g → owned_ g = true → is_Some (m_ g)) → names_ok ls gs'.
Proof.
  intros H Hs Ho x g Hx. split; [|by apply Ho with x]. intros k Hk. specialize (Hs x). rewrite Hx in Hs. cbn in Hs.
  destruct (gs !! x) as [g0|] eqn:E; [|done]. injection Hs as _ Hm. destruct (H x g0 E) as [H1 _]. apply H1. congruence.
Qed.

Lemma flags_app q q' : flags_of (q ++ q') = flags_of q ++ flags_of q'.
Proof. apply bind_app. Qed.

Lemma flags_sublist gl q : gl `sublist_of` q → flags_of gl `sublist_of` flags_of q.
Proof.
  induction 1 as [|g gl q _ IH|g gl q _ IH]; [done| |].
  - change (g :: ?l) with ([g] ++ l). rewrite !flags_app. by apply sublist_app.
  - change (g :: q) with ([g] ++ q). rewrite flags_app. by apply sublist_inserts_l.
Qed.

(** What a mutex has granted is written to the guards: every queue fits again. *)
Lemma settle_ok (ls : gmap nat (mutex S)) gs k m m' q h :
  (∀ k' m, k' ≠ k → ls !! k' = Some m → lock_ok gs k' m) → names_ok (<[k := m]> ls) gs → notified m = [] →
  fits gs k q h → served q h m m' → mutex_inv m' →
  ∃ gs', write_flags (notified m') gs = Some gs' ∧
    all_ok (<[k := Mutex (latch_ m') (waiters_ m') [] (store m') (holders m')]> ls) gs' ∧
    (∀ x, x ∉ flags_of q → gs' !! x = gs !! x) ∧
    (∀ x, x ∈ notified m' → ∃ g, gs' !! x = Some g ∧ owned_ g = true).
Proof.
  intros Hls Hn Hm [F1 F2 F3 F4] (j & gl & G1 & G2 & G3 & G4) Hi. rewrite Hm in G3. cbn in G3.
  assert (Hq : flags_of q = flags_of (take j q) ++ flags_of (drop j q)) by (by rewrite <-flags_app, take_drop).
  rewrite Hq in F2. apply NoDup_app in F2 as (N1 & N2 & N3).
  pose proof (flags_sublist _ _ G1) as Hsub.
  assert (Hin : ∀ l, l ∈ gl → l ∈ q).
  { intros l Hl. rewrite <-(take_drop j q). apply elem_of_app. left. by eapply elem_of_sublist. }
  destruct (write_granted k gl gs) as (gs' & E & W1 & W2 & W3 & W4).
  { by eapply (sublist_NoDup _ (flags_of (take j q))). }
  { intros sh x Hx. by apply F1, Hin. }
  assert (Hfl : ∀ x, x ∈ flags_of gl → x ∈ flags_of (take j q)) by (intros x Hx; by eapply elem_of_sublist).
  exists gs'. rewrite G3. split; [done|]. split; [split|split].
  - intros k' m1 Hk'. destruct (decide (k' = k)) as [->|Hne].
    + rewrite lookup_insert_eq in Hk'. injection Hk' as <-. split; [by destruct Hi|done|].
      change (labels (Mutex _ _ _ _ _)) with (labels m'). cbn [holders]. rewrite G2, G4. split.
      * intros sh x Hx. rewrite W1; [apply F1; rewrite <-(take_drop j q); apply elem_of_app; by right|].
        intros Hx'. apply (N2 x); [by apply Hfl|]. apply elem_of_flags. by exists sh.
      * done.
      * intros sh. rewrite W4, decide_True, grant_all_held by done. destruct (F3 sh) as [F3a F3b]. destruct (flagged_asks sh gl) as [A1 A2].
        split; [lia|]. intros Hr. rewrite (F3b Hr), A2; [done|]. intros l Hl. apply F4; [done|by apply Hin].
      * intros Hr l Hl. apply F4; [done|]. rewrite <-(take_drop j q). apply elem_of_app. by right.
    + rewrite lookup_insert_ne in Hk' by done. destruct (Hls k' m1 Hne Hk') as [L1 L2 L3]. split; [done|done|].
      eapply fits_upd; [exact L3| |intros sh; rewrite W4, decide_False by done; lia].
      intros x Hx. apply W1. intros Hx'. apply elem_of_flags in Hx as [s1 Hx]. apply elem_of_flags in Hx' as [s2 Hx'].
      destruct (ft_asked _ _ _ _ L3 s1 x Hx) as (g1 & E1 & _ & M1 & _). destruct (F1 s2 x (Hin _ Hx')) as (g2 & E2 & _ & M2 & _). congruence.
  - eapply (names_shape _ gs); [|done|].
    + intros x g Hx. destruct (Hn x g Hx) as [Hn1 Hn2]. split; [|done]. intros k' Hk'. specialize (Hn1 k' Hk').
      destruct (decide (k' = k)) as [->|Hne]; [rewrite lookup_insert_eq; by eexists|by rewrite lookup_insert_ne in Hn1 |- * by done].
    + intros x g Hx Ho. destruct (decide (x ∈ flags_of gl)) as [Hf|Hf].
      * apply elem_of_flags in Hf as [sh Hf]. destruct (F1 sh x (Hin _ Hf)) as (g0 & E0 & _ & M0 & _).
        specialize (W3 x). rewrite Hx, E0 in W3. cbn in W3. injection W3 as _ W3. rewrite W3, M0. by eexists.
      * rewrite W1 in Hx by done. by apply (Hn x g Hx).
  - intros x Hx. apply W1. intros Hx'. apply Hx. rewrite Hq. apply elem_of_app. left. by apply Hfl.
  - done.
Qed.

(** ** The calls of a mutex *)

Lemma write_flags_commute (f : gmap nat guard → gmap nat guard) xs :
  (∀ x g gs, x ∈ xs → f (<[x := g]> gs) = <[x := g]> (f gs)) → (∀ x gs, x ∈ xs → f gs !! x = gs !! x) →
  ∀ gs, write_flags xs (f gs) = f <$> write_flags xs gs.
Proof.
  induction xs as [|x xs IH]; intros H1 H2 gs; [done|]. cbn [write_flags]. rewrite H2 by (by left). destruct (gs !! x) as [g|]; [|done].
  cbn [mbind option_bind]. rewrite <-H1 by (by left). apply IH; intros; [apply H1|apply H2]; by right.
Qed.

Lemma write_flags_other x xs : ∀ gs gs', write_flags xs gs = Some gs' → x ∉ xs → gs' !! x = gs !! x.
Proof.
  induction xs as [|y xs IH]; intros gs gs' E Hx; [by injection E as <-|]. apply not_elem_of_cons in Hx as [Hne Hx].
  cbn [write_flags] in E. apply bind_Some in E as (g & _ & E). rewrite (IH _ _ E Hx). by rewrite lookup_insert_ne.
Qed.

(** Releasing a lock of [k], where [f] is what the caller does to its guard after
    the call. *)
Lemma unlock_ok (ls : gmap nat (mutex S)) gs k m (sh : bool) (f : gmap nat guard → gmap nat guard) :
  ls !! k = Some m → mutex_inv m → notified m = [] → (0 < held_as sh (holders m))%nat →
  (∀ x g gs, x ∈ flags_of (labels m) → f (<[x := g]> gs) = <[x := g]> (f gs)) →
  (∀ x gs, x ∈ flags_of (labels m) → f gs !! x = gs !! x) →
  (∀ k' m, k' ≠ k → ls !! k' = Some m → lock_ok (f gs) k' m) → names_ok ls (f gs) →
  fits (f gs) k (labels m) (release sh (holders m)) →
  ∃ ls' gs', mutex_unlock k sh (GState ls gs) = Some (GState ls' gs') ∧ all_ok ls' (f gs') ∧
    (∀ x, x ∉ flags_of (labels m) → gs' !! x = gs !! x).
Proof.
  intros Hk Hi Hf Hh C1 C2 Hls Hn Hfit.
  assert (Hu : ∃ m', (if sh then unlock_shared m else unlock m) = Some m' ∧ mutex_inv m').
  { destruct sh; cbn in Hh; [destruct (unlock_shared_spec m Hi Hh) as (m' & E & Hi' & _)|destruct (unlock_spec m Hi Hh) as (m' & E & Hi' & _)]; by exists m'. }
  destruct Hu as (m' & E & Hi'). pose proof (unlock_serves m sh m' Hi E) as Hs.
  destruct (settle_ok ls (f gs) k m m' _ _ Hls ltac:(by apply names_more) Hf Hfit Hs Hi') as (gs' & W & Hall & _ & _).
  assert (Hsub : ∀ x, x ∈ notified m' → x ∈ flags_of (labels m)).
  { destruct Hs as (j & gl & G1 & _ & G3 & _). rewrite Hf in G3. cbn in G3. rewrite G3. intros x Hx.
    apply elem_of_flags in Hx as [s Hx]. apply elem_of_flags. exists s.
    rewrite <-(take_drop j (labels m)). apply elem_of_app. left. by eapply elem_of_sublist. }
  rewrite write_flags_commute in W by (intros; (apply C1 || apply C2); by apply Hsub).
  destruct (write_flags (notified m') gs) as [gs1|] eqn:W1; [|done]. injection W as <-.
  unfold mutex_unlock, settle. cbn [locks guards]. rewrite Hk. cbn [mbind option_bind]. rewrite E. cbn [mbind option_bind]. rewrite W1.
  cbn [mbind option_bind]. eexists _, gs1. split; [done|]. split; [exact Hall|].
  intros x Hx. eapply write_flags_other; [exact W1|]. intros Hx'. by apply Hx, Hsub.
Qed.

Lemma lock_call_ok (ls : gmap nat (mutex S)) gs k m (sh : bool) (n : option nat) :
  all_ok ls gs → ls !! k = Some m → tasks m < max_tasks → fits gs k (labels m ++ [(sh, n)]) (holders m) →
  ∃ r ls' gs', mutex_lock k sh n (GState ls gs) = Some (MutexEvent k r, GState ls' gs') ∧ all_ok ls' gs' ∧
    match n with
    | None => True
    | Some x => ∃ g, gs' !! x = Some g ∧ (owned_ g = true ↔ r = None)
    end.
Proof.
  intros [Hls Hn] Hk Ht Hfit. destruct (Hls k m Hk) as [Hi Hf _].
  destruct (lock_impl_spec m sh n Hi Ht) as (r & m' & E & Hi' & Hr).
  destruct (lock_serves m sh n r m' Hi E) as [Hs Hnow].
  destruct (settle_ok ls gs k m m' _ _ (λ k' m _ H, Hls k' m H) ltac:(by apply names_more) Hf Hfit Hs Hi') as (gs' & W & Hall & _ & Hon).
  unfold mutex_lock, settle. cbn [locks guards]. rewrite Hk. cbn [mbind option_bind]. rewrite E. cbn [mbind option_bind snd]. rewrite W.
  cbn [mbind option_bind fst]. eexists r, _, gs'. split; [done|]. split; [done|]. destruct n as [x|]; [|done].
  destruct r as [e|].
  - destruct Hr as [j Hw]. destruct Hall as [Hall _]. specialize (Hall k _ (lookup_insert_eq _ _ _)).
    assert (Hx : x ∈ flags_of (labels (Mutex (latch_ m') (waiters_ m') [] (store m') (holders m')))).
    { apply labels_waiting. exists e. cbn. rewrite Hw. apply elem_of_app. right. by left. }
    apply elem_of_flags in Hx as [s Hx]. destruct (ft_asked _ _ _ _ (lo_fits _ _ _ Hall) s x Hx) as (g & Hg & _ & _ & Ho).
    exists g. split; [done|]. rewrite Ho. done.
  - destruct (Hon x) as (g & Hg & Ho); [by apply Hnow|]. exists g. split; [done|]. by rewrite Ho.
Qed.

(** A mutex and guards that change together; the queues stay. *)
Lemma change_ok (ls : gmap nat (mutex S)) gs gs' k m m' :
  all_ok ls gs → ls !! k = Some m → mutex_inv m' → notified m' = [] → labels m' = labels m →
  (∀ k1 m1 x, ls !! k1 = Some m1 → x ∈ flags_of (labels m1) → gs' !! x = gs !! x) →
  (∀ k1 sh, owned gs' k1 sh - owned gs k1 sh =
            if decide (k1 = k) then Z.of_nat (held_as sh (holders m')) - Z.of_nat (held_as sh (holders m)) else 0) →
  names_ok ls gs' → all_ok (<[k := m']> ls) gs'.
Proof.
  intros [Hls _] Hk Hi Hf Hl Hx Hc Hn. split; [|by apply names_more]. intros k1 m1 Hk1. destruct (decide (k1 = k)) as [->|Hne].
  - rewrite lookup_insert_eq in Hk1. injection Hk1 as <-. split; [done|done|]. rewrite Hl.
    eapply fits_upd; [apply (Hls k m Hk)|intros x Hin; by apply (Hx k m)|]. intros sh. specialize (Hc k sh). rewrite decide_True in Hc by done. lia.
  - rewrite lookup_insert_ne in Hk1 by done. destruct (Hls k1 m1 Hk1) as [L1 L2 L3]. split; [done|done|].
    eapply fits_upd; [exact L3|intros x Hin; by apply (Hx k1 m1)|]. intros sh. specialize (Hc k1 sh). rewrite decide_False in Hc by done. lia.
Qed.

Lemma keep_ok (ls : gmap nat (mutex S)) gs gs' :
  all_ok ls gs → (∀ k1 m1 x, ls !! k1 = Some m1 → x ∈ flags_of (labels m1) → gs' !! x = gs !! x) →
  (∀ k1 sh, owned gs' k1 sh = owned gs k1 sh) → names_ok ls gs' → all_ok ls gs'.
Proof.
  intros [Hls _] Hx Hc Hn. split; [|done]. intros k1 m1 Hk1. destruct (Hls k1 m1 Hk1) as [L1 L2 L3]. split; [done|done|].
  eapply fits_upd; [exact L3|intros x Hin; by apply (Hx k1 m1)|]. intros sh. by rewrite Hc.
Qed.

Lemma held_grant sh sh' h : Z.of_nat (held_as sh' (grant sh h)) = Z.of_nat (held_as sh' h) + if decide (sh = sh') then 1 else 0.
Proof.
  destruct (decide (sh = sh')) as [->|Hne]; [destruct sh'|destruct sh, sh'; try done]; unfold held_as, grant; cbn [fst snd]; lia.
Qed.

Lemma held_release sh sh' h : (0 < held_as sh h)%nat →
  Z.of_nat (held_as sh' (release sh h)) = Z.of_nat (held_as sh' h) - if decide (sh = sh') then 1 else 0.
Proof.
  intros Hp. destruct (decide (sh = sh')) as [->|Hne]; [destruct sh'|destruct sh, sh'; try done]; unfold held_as, release in *; cbn [fst snd] in *; lia.
Qed.

Lemma try_serves m (sh : bool) : mutex_inv m → tasks m < max_tasks →
  let r := if sh then try_lock_shared m else try_lock m in
  mutex_inv r.2 ∧ labels r.2 = labels m ∧ notified r.2 = notified m ∧
  holders r.2 = if r.1 : bool then grant sh (holders m) else holders m.
Proof.
  intros Hi Ht r. split; [destruct sh; [by apply try_lock_shared_spec|by apply try_lock_spec]|].
  unfold r, try_lock_shared, try_lock. destruct sh; [destruct (negb _)|destruct (_ =? 0)]; done.
Qed.

(** ** Destroying, releasing and moving guards *)

Lemma let_go_ok (ls : gmap nat (mutex S)) gs x g (f : gmap nat guard → gmap nat guard) :
  all_ok ls gs → gs !! x = Some g →
  (∀ k m y h gs, ls !! k = Some m → y ∈ flags_of (labels m) → f (<[y := h]> gs) = <[y := h]> (f gs)) →
  (∀ k m y gs, ls !! k = Some m → y ∈ flags_of (labels m) → f gs !! y = gs !! y) →
  (∀ k sh, owned (f gs) k sh = owned gs k sh - one (key g) (slot k sh)) → names_ok ls (f gs) →
  ∃ ls' gs', let_go g (GState ls gs) = Some (GState ls' gs') ∧ all_ok ls' (f gs') ∧
    (∀ y, (∀ k m, ls !! k = Some m → y ∉ flags_of (labels m)) → gs' !! y = gs !! y).
Proof.
  intros Hok Hx C1 C2 Hc Hn. unfold let_go. destruct (owned_ g) eqn:Eo.
  - destruct Hok as [Hls Hn0]. destruct (Hn0 x g Hx) as [Hm Ho]. destruct (Ho Eo) as [k Ek]. destruct (Hm k Ek) as [m Hk].
    destruct (Hls k m Hk) as [Hi Hf Hfit]. rewrite Ek. cbn [mbind option_bind].
    pose proof (owned_pos gs x g k Hx Eo Ek) as Hp. destruct (ft_held _ _ _ _ Hfit (g_shared g)) as [Hle _].
    destruct (unlock_ok ls gs k m (g_shared g) f Hk Hi Hf) as (ls' & gs' & E & Hall & Hoth); [lia|by eauto|by eauto| |done| |].
    + intros k' m' Hne Hk'. destruct (Hls k' m' Hk') as [L1 L2 L3]. split; [done|done|]. eapply fits_upd; [exact L3|by eauto|].
      intros sh. rewrite Hc, (one_owner g k), decide_False by naive_solver. lia.
    + eapply fits_upd; [exact Hfit|by eauto|]. intros sh. rewrite Hc, (one_owner g k), held_release by (done || lia).
      destruct (decide (g_shared g = sh)); [rewrite decide_True by done|rewrite decide_False by naive_solver]; lia.
    + exists ls', gs'. split; [done|]. split; [done|]. intros y Hy. apply Hoth. by apply (Hy k).
  - exists ls, gs. split; [done|]. split; [|done]. eapply keep_ok; [done|by eauto| |done]. intros k1 sh. rewrite Hc, one_unowned by done. lia.
Qed.

(** * Runs *)

Definition room st (k : nat) : Prop := ∀ m, locks st !! k = Some m → tasks m < max_tasks.
Definition same_class st (x y : nat) : Prop :=
  ∃ g h, guards st !! x = Some g ∧ guards st !! y = Some h ∧ g_shared g = g_shared h.

(** A lock of [k] is held outside of guards. *)
Definition held_outside st (k : nat) (sh : bool) : Prop :=
  ∃ m, locks st !! k = Some m ∧ owned (guards st) k sh < Z.of_nat (held_as sh (holders m)).

(** How guards are to be used: a guard that waits is left alone, and none is
    assigned to itself.  Locking outside of guards is for programs with [raw]. *)
Definition op_legal st (op : guard_op (S := S)) : Prop :=
  match op with
  | G_mutex k s => locks st !! k = None ∧ evs_ok s
  | G_empty _ x => guards st !! x = None
  | G_deferred _ x k => guards st !! x = None ∧ is_Some (locks st !! k)
  | G_tried _ x k => guards st !! x = None ∧ is_Some (locks st !! k) ∧ room st k
  | G_adopted sh x k => raw = true ∧ guards st !! x = None ∧ held_outside st k sh
  | G_moved x y => guards st !! x = None ∧ is_Some (guards st !! y) ∧ ¬ waiting st y
  | G_destroyed x => is_Some (guards st !! x) ∧ ¬ waiting st x
  | G_assigned x y => x ≠ y ∧ same_class st x y ∧ ¬ waiting st x ∧ ¬ waiting st y
  | G_swapped x y => same_class st x y ∧ ¬ waiting st x ∧ ¬ waiting st y
  | G_lock x | G_try_lock x => ∃ g, guards st !! x = Some g ∧ ¬ waiting st x ∧ (∀ k, m_ g = Some k → room st k)
  | G_unlock x => is_Some (guards st !! x)
  | G_release x => ∃ g, guards st !! x = Some g ∧ ¬ waiting st x ∧ (owned_ g = true → raw = true)
  | G_raw_lock k _ | G_raw_try k _ => raw = true ∧ is_Some (locks st !! k) ∧ room st k
  | G_raw_unlock k sh => raw = true ∧ held_outside st k sh
  | G_events k s => ∃ m, locks st !! k = Some m ∧ queue_owns s (waiters_ m) ∧
      (∀ w, w ∈ waiters_ m → evs_shared s w.1 = evs_shared (store m) w.1)
  end.

Definition st_ok st : Prop := all_ok (locks st) (guards st).

Lemma not_flagged st x k m : ¬ waiting st x → locks st !! k = Some m → x ∉ flags_of (labels m).
Proof. intros H Hk Hx. apply H. exists k, m. split; [done|]. by apply labels_waiting. Qed.

Lemma fresh_not_waiting st x : st_ok st → guards st !! x = None → ¬ waiting st x.
Proof.
  intros [Hls _] Hx (k & m & Hk & Hw). apply labels_waiting, elem_of_flags in Hw as [sh Hw].
  destruct (ft_asked _ _ _ _ (lo_fits _ _ _ (Hls k m Hk)) sh x Hw) as (g & Hg & _). congruence.
Qed.

Lemma owned_not_waiting st x g : st_ok st → guards st !! x = Some g → owned_ g = true → ¬ waiting st x.
Proof.
  intros [Hls _] Hx Ho (k & m & Hk & Hw). apply labels_waiting, elem_of_flags in Hw as [sh Hw].
  destruct (ft_asked _ _ _ _ (lo_fits _ _ _ (Hls k m Hk)) sh x Hw) as (g' & Hg & _ & _ & Ho'). congruence.
Qed.

(** Writing a guard that does not wait leaves those that do. *)
Lemma write_other st (x : nat) g : ¬ waiting st x →
  (∀ k m y, locks st !! k = Some m → y ∈ flags_of (labels m) → <[x := g]> (guards st) !! y = guards st !! y).
Proof. intros Hx k m y Hk Hy. apply lookup_insert_ne. intros <-. by eapply (not_flagged st x). Qed.

(** A new guard, or a guard that changes without its lock. *)
Lemma new_guard_ok st x g : st_ok st → guards st !! x = None → owned_ g = false → (∀ k, m_ g = Some k → is_Some (locks st !! k)) →
  st_ok (set_guard x g st).
Proof.
  intros Hok Hx Ho Hm. unfold st_ok. cbn [set_guard locks guards]. pose proof (fresh_not_waiting st x Hok Hx) as Hw.
  eapply keep_ok; [exact Hok|by apply write_other| |apply names_insert; [apply Hok|done|by rewrite Ho]].
  intros k sh. rewrite owned_new, one_unowned by done. lia.
Qed.

Lemma same_lock_ok st x g g' : st_ok st → guards st !! x = Some g → ¬ waiting st x → owned_ g = false → owned_ g' = false →
  (∀ k, m_ g' = Some k → is_Some (locks st !! k)) → st_ok (set_guard x g' st).
Proof.
  intros Hok Hx Hw Ho Ho' Hm. unfold st_ok. cbn [set_guard locks guards]. eapply keep_ok; [exact Hok|by apply write_other| |apply names_insert; [apply Hok|done|by rewrite Ho']].
  intros k sh. rewrite (owned_set _ _ g), !one_unowned by done. lia.
Qed.

Lemma mutex_ok st k m : st_ok st → locks st !! k = Some m → lock_ok (guards st) k m.
Proof. intros [H _]. apply H. Qed.

Lemma try_ok st x k (sh : bool) o : st_ok st → is_Some (locks st !! k) → room st k → ¬ waiting st x →
  guards st !! x = o → (∀ g, o = Some g → owned_ g = false) →
  ∃ r st', mutex_try k sh st = Some (r, st') ∧ st_ok (set_guard x (Guard sh (Some k) r) st').
Proof.
  intros Hok [m Hk] Hr Hw Hx Ho. destruct (mutex_ok st k m Hok Hk) as [Hi Hf _].
  destruct (try_serves m sh Hi (Hr m Hk)) as (T1 & T2 & T3 & T4). unfold mutex_try. rewrite Hk. cbn [mbind option_bind].
  set (r := if sh then try_lock_shared m else try_lock m) in *. eexists r.1, _. split; [done|].
  unfold st_ok. cbn [set_guard locks guards]. eapply change_ok; [exact Hok|done|done|by rewrite T3|done|by apply write_other| |].
  - intros k1 sh1. assert (E : owned (<[x := Guard sh (Some k) r.1]> (guards st)) k1 sh1 =
      owned (guards st) k1 sh1 + one (key (Guard sh (Some k) r.1)) (slot k1 sh1)).
    { destruct o as [g|]; [|by apply owned_new]. rewrite (owned_set _ _ g), (one_unowned g) by (done || by apply Ho). lia. }
    rewrite E, T4. destruct r.1.
    + rewrite (one_owner _ k), held_grant by done. cbn [g_shared].
      destruct (decide (k1 = k)) as [->|Hne]; [|rewrite decide_False by naive_solver; lia].
      destruct (decide (sh = sh1)); [rewrite decide_True by done|rewrite decide_False by naive_solver]; lia.
    + rewrite one_unowned by done. destruct (decide _); lia.
  - apply names_insert; [apply Hok| |by intros; eexists]. cbn. intros k1 [= <-]. by eexists.
Qed.

Lemma raw_try_ok st k (sh : bool) : raw = true → st_ok st → is_Some (locks st !! k) → room st k →
  ∃ r st', mutex_try k sh st = Some (r, st') ∧ st_ok st'.
Proof.
  intros Hraw Hok [m Hk] Hr. destruct (mutex_ok st k m Hok Hk) as [Hi Hf Hfit].
  destruct (try_serves m sh Hi (Hr m Hk)) as (T1 & T2 & T3 & T4). unfold mutex_try. rewrite Hk. cbn [mbind option_bind].
  set (r := if sh then try_lock_shared m else try_lock m) in *. eexists r.1, _. split; [done|].
  destruct Hok as [Hls Hn]. split; [|by apply names_more]. cbn [locks guards]. intros k1 m1 Hk1. destruct (decide (k1 = k)) as [->|Hne].
  - rewrite lookup_insert_eq in Hk1. injection Hk1 as <-. split; [done|by rewrite T3|]. rewrite T2, T4. destruct Hfit as [F1 F2 F3 F4].
    split; [done|done| |done]. intros sh1. split; [|by rewrite Hraw]. destruct (F3 sh1) as [F _]. destruct r.1; [rewrite held_grant; destruct (decide _)|]; lia.
  - rewrite lookup_insert_ne in Hk1 by done. by apply Hls.
Qed.

Lemma names_delete (ls : gmap nat (mutex S)) gs x : names_ok ls gs → names_ok ls (delete x gs).
Proof. intros H y g Hy. apply lookup_delete_Some in Hy as [_ Hy]. by apply (H y). Qed.

Lemma unowned_ok (ls : gmap nat (mutex S)) gs x g : names_ok ls gs → gs !! x = Some g → ∀ k, m_ g = Some k → is_Some (ls !! k).
Proof. intros H Hx. by apply (H x g Hx). Qed.

Lemma destroyed_ok st x : st_ok st → is_Some (guards st !! x) → ¬ waiting st x → ∃ st', guard_destroyed x st = Some st' ∧ st_ok st'.
Proof.
  intros Hok [g Hx] Hw. pose proof (not_flagged st x) as Hnf. destruct st as [ls gs]. unfold guard_destroyed. cbn [guards] in *. rewrite Hx. cbn [mbind option_bind].
  destruct (let_go_ok ls gs x g (delete x) Hok Hx) as (ls' & gs' & E & Hall & _).
  - intros k m y h gs0 Hk Hy. apply delete_insert_ne. intros ->. by eapply Hnf.
  - intros k m y gs0 Hk Hy. apply lookup_delete_ne. intros ->. by eapply Hnf.
  - intros k sh. by apply owned_delete.
  - by apply names_delete, Hok.
  - rewrite E. by eexists.
Qed.

Lemma unlocked_ok st x : st_ok st → is_Some (guards st !! x) → ∃ r st', guard_unlock x st = Some (r, st') ∧ st_ok st'.
Proof.
  intros Hok [g Hx]. unfold guard_unlock. rewrite Hx. cbn [mbind option_bind]. destruct (owned_ g) eqn:Eo; cbn [negb]; [|by eexists _, st].
  pose proof (owned_not_waiting st x g Hok Hx Eo) as Hw. pose proof (not_flagged st x) as Hnf. destruct st as [ls gs]. cbn [guards locks] in *.
  destruct Hok as [Hls Hn]. destruct (Hn x g Hx) as [Hm Ho]. destruct (Ho Eo) as [k Ek]. rewrite Ek. cbn [mbind option_bind].
  destruct (let_go_ok ls gs x g (λ gs, <[x := Guard (g_shared g) (Some k) false]> gs)) as (ls' & gs' & E & Hall & _); [done|done| | | | |].
  - intros k' m y h gs0 Hk Hy. apply insert_insert_ne. intros ->. by eapply Hnf.
  - intros k' m y gs0 Hk Hy. apply lookup_insert_ne. intros ->. by eapply Hnf.
  - intros k' sh. rewrite (owned_set _ _ g) by done. rewrite (one_unowned (Guard _ _ false)) by done. lia.
  - apply names_insert; [done| |done]. cbn. intros k' [= <-]. by apply Hm.
  - unfold let_go in E. rewrite Eo, Ek in E. cbn [mbind option_bind] in E. rewrite E. by eexists _, _.
Qed.

Lemma assigned_ok st x y : st_ok st → x ≠ y → same_class st x y → ¬ waiting st x → ¬ waiting st y →
  ∃ st', guard_assigned x y st = Some st' ∧ st_ok st'.
Proof.
  intros Hok Hne (g & h & Hx & Hy & Hs) Wx Wy. pose proof (not_flagged st x) as Nx. pose proof (not_flagged st y) as Ny.
  destruct st as [ls gs]. unfold guard_assigned. cbn [guards locks] in *. rewrite Hx. cbn [mbind option_bind].
  assert (Hf : ∀ k m z, ls !! k = Some m → z ∈ flags_of (labels m) → x ≠ z ∧ y ≠ z).
  { intros k m z Hk Hz. split; intros ->; [by eapply Nx|by eapply Ny]. }
  destruct (let_go_ok ls gs x g (λ gs, <[x := h]> (<[y := Guard (g_shared h) None false]> gs))) as (ls' & gs' & E & Hall & Hoth); [done|done| | | | |].
  - intros k m z h' gs0 Hk Hz. destruct (Hf k m z Hk Hz). by rewrite (insert_insert_ne _ y z), (insert_insert_ne _ x z).
  - intros k m z gs0 Hk Hz. destruct (Hf k m z Hk Hz). by rewrite !lookup_insert_ne.
  - intros k sh. rewrite (owned_set _ x g) by (by rewrite lookup_insert_ne). rewrite (owned_set _ y h), (one_unowned (Guard _ _ false)) by done. lia.
  - destruct Hok as [_ Hn]. apply names_insert; [apply names_insert; done|by apply (unowned_ok _ _ y h Hn)|by apply (Hn y h)].
  - rewrite E. cbn [mbind option_bind]. unfold guard_moved. cbn [guards]. rewrite Hoth, Hy by (intros k m Hk; by eapply Ny).
    cbn [mbind option_bind]. by eexists.
Qed.

Lemma moved_ok st x y : st_ok st → guards st !! x = None → is_Some (guards st !! y) → ¬ waiting st y →
  ∃ st', guard_moved x y st = Some st' ∧ st_ok st'.
Proof.
  intros Hok Hx [g Hy] Wy. unfold guard_moved. rewrite Hy. cbn [mbind option_bind]. eexists. split; [done|].
  pose proof (fresh_not_waiting st x Hok Hx) as Wx. assert (Hne : x ≠ y) by congruence. pose proof Hok as [_ Hn].
  unfold st_ok. cbn [set_guard locks guards]. eapply keep_ok; [exact Hok| | |].
  - intros k m z Hk Hz. rewrite !lookup_insert_ne; [done|intros <-..]; [by apply (not_flagged st y k m Wy Hk)|by apply (not_flagged st x k m Wx Hk)].
  - intros k sh. rewrite owned_new by (by rewrite lookup_insert_ne). rewrite (owned_set _ y g), (one_unowned (Guard _ _ false)) by done. lia.
  - apply names_insert; [apply names_insert; done|by apply (unowned_ok _ _ y g Hn)|by apply (Hn y g)].
Qed.

Lemma swapped_ok st x y : st_ok st → same_class st x y → ¬ waiting st x → ¬ waiting st y →
  ∃ st', guard_swapped x y st = Some st' ∧ st_ok st'.
Proof.
  intros Hok (g & h & Hx & Hy & _) Wx Wy. unfold guard_swapped. rewrite Hx, Hy. cbn [mbind option_bind]. eexists. split; [done|].
  destruct (Nat.eqb_spec y x) as [->|Hne]; cbn [negb]; [done|]. pose proof Hok as [_ Hn].
  unfold st_ok. cbn [set_guard locks guards]. eapply keep_ok; [exact Hok| | |].
  - intros k m z Hk Hz. rewrite !lookup_insert_ne; [done|intros <-..]; [by apply (not_flagged st x k m Wx Hk)|by apply (not_flagged st y k m Wy Hk)].
  - intros k sh. rewrite (owned_set _ y h) by (by rewrite lookup_insert_ne). rewrite (owned_set _ x g) by done. lia.
  - apply names_insert; [apply names_insert| |]; [done|by apply (unowned_ok _ _ y h Hn)|by apply (Hn y h)|by apply (unowned_ok _ _ x g Hn)|by apply (Hn x g)].
Qed.

(** The queue with one more request. *)
Lemma fits_request st k m (sh : bool) n : st_ok st → locks st !! k = Some m →
  match n with
  | Some x => ¬ waiting st x ∧ ∃ g, guards st !! x = Some g ∧ g_shared g = sh ∧ m_ g = Some k ∧ owned_ g = false
  | None => raw = true
  end → fits (guards st) k (labels m ++ [(sh, n)]) (holders m).
Proof.
  intros Hok Hk Hx. destruct (mutex_ok st k m Hok Hk) as [_ _ [F1 F2 F3 F4]].
  assert (Hsplit : ∀ l, l ∈ labels m ++ [(sh, n)] → l ∈ labels m ∨ l = (sh, n)).
  { intros l Hl. apply elem_of_app in Hl as [Hl|Hl]; [by left|right]. by apply list_elem_of_singleton in Hl. }
  split; [| |done|].
  - intros sh1 x Hl. apply Hsplit in Hl as [Hl|El]; [by apply F1|]. injection El as -> <-. apply Hx.
  - rewrite flags_app. destruct n as [x|]; [|by rewrite app_nil_r]. apply NoDup_app. split; [done|]. split; [|apply NoDup_singleton].
    intros z Hz Hz'. apply list_elem_of_singleton in Hz' as ->. destruct Hx as [Hx _]. by apply (not_flagged st x k m Hx Hk).
  - intros Hr l Hl. apply Hsplit in Hl as [Hl| ->]; [by apply F4|]. destruct n; [by eexists|congruence].
Qed.

Lemma locked_ok st x g : st_ok st → guards st !! x = Some g → ¬ waiting st x → (∀ k, m_ g = Some k → room st k) →
  ∃ r st', guard_lock x st = Some (r, st') ∧ st_ok st' ∧
    match r with
    | Waits e => m_ g = Some (me_mutex e) ∧ ∃ g', guards st' !! x = Some g' ∧ (owned_ g' = true ↔ me_event e = None)
    | Throws operation_not_permitted => m_ g = None
    | Throws resource_deadlock_would_occur => owned_ g = true
    | _ => False
    end.
Proof.
  intros Hok Hx Hw Hr. unfold guard_lock. rewrite Hx. cbn [mbind option_bind]. destruct (m_ g) as [k|] eqn:Ek; [|by eexists _, st].
  destruct (owned_ g) eqn:Eo; [by eexists _, st|].
  destruct (unowned_ok _ _ x g (proj2 Hok) Hx k Ek) as [m Hk]. pose proof (fits_request st k m (g_shared g) (Some x) Hok Hk) as Hf.
  destruct st as [ls gs]. cbn [locks guards] in *.
  destruct (lock_call_ok ls gs k m (g_shared g) (Some x) Hok Hk) as (r & ls' & gs' & E & Hall & Hg); [by apply (Hr k)|apply Hf; split; [done|by eexists]|].
  rewrite E. cbn [mbind option_bind fst snd]. eexists _, _. split; [done|]. split; [done|]. split; [done|done].
Qed.

Lemma new_mutex_ok st k s : st_ok st → locks st !! k = None → evs_ok s → st_ok (GState (<[k := new_mutex s]> (locks st)) (guards st)).
Proof.
  intros [Hls Hn] Hk Hs. split; [|by apply names_more]. cbn [locks guards]. intros k1 m1 Hk1. destruct (decide (k1 = k)) as [->|Hne].
  - rewrite lookup_insert_eq in Hk1. injection Hk1 as <-. split; [by apply (mutex_run_inv s), rtc_refl|done|]. split; [by intros sh x Hl; inversion Hl|constructor| |by intros _ l Hl; inversion Hl].
    assert (E : ∀ sh, owned (guards st) k sh = 0).
    { intros sh. destruct (decide (owned (guards st) k sh = 0)) as [|Hne]; [done|]. exfalso. apply count_pos in Hne as [x Hx].
      rewrite lookup_fmap in Hx. destruct (guards st !! x) as [g|] eqn:Eg; [|done]. cbn in Hx. unfold key in Hx.
      destruct (owned_ g); [|done]. destruct (m_ g) as [k'|] eqn:Em; [|done]. cbn in Hx. injection Hx as Hx. apply lock_slot_inj in Hx as [-> _].
      destruct (unowned_ok _ _ x g Hn Eg k Em) as [m Hm]. congruence. }
    intros sh. rewrite E. destruct sh; done.
  - rewrite lookup_insert_ne in Hk1 by done. by apply Hls.
Qed.

Lemma adopted_ok st (sh : bool) x k : raw = true → st_ok st → guards st !! x = None → held_outside st k sh → st_ok (guard_adopted sh x k st).
Proof.
  intros Hraw Hok Hx (m & Hk & Hh). pose proof (write_other st x (Guard sh (Some k) true) (fresh_not_waiting st x Hok Hx)) as Hw.
  destruct Hok as [Hls Hn]. split; [|apply names_insert; [done| |by eexists]; intros k' [= <-]; by eexists].
  cbn [locks guards guard_adopted set_guard]. intros k1 m1 Hk1. destruct (Hls k1 m1 Hk1) as [L1 L2 [F1 F2 F3 F4]]. split; [done|done|].
  split; [|done| |done].
  - intros sh1 y Hy. rewrite (Hw k1 m1) by (done || apply elem_of_flags; by eexists). by apply F1.
  - intros sh1. split; [|by rewrite Hraw]. rewrite owned_new, (one_owner _ k) by done. cbn [g_shared]. destruct (F3 sh1) as [F _].
    destruct (decide (k = k1 ∧ sh = sh1)) as [[-> ->]|]; [|lia]. assert (m1 = m) as -> by congruence. lia.
Qed.

Lemma raw_unlock_ok st k (sh : bool) : raw = true → st_ok st → held_outside st k sh → ∃ st', mutex_unlock k sh st = Some st' ∧ st_ok st'.
Proof.
  intros Hraw Hok (m & Hk & Hh). destruct (mutex_ok st k m Hok Hk) as [L1 L2 [F1 F2 F3 F4]]. destruct st as [ls gs]. cbn [locks guards] in *.
  destruct (unlock_ok ls gs k m sh id Hk L1 L2) as (ls' & gs' & E & Hall & _); try done.
  - pose proof (owned_bound gs k sh). lia.
  - intros k' m' _ Hk'. by apply Hok.
  - apply Hok.
  - split; [done|done| |done]. intros sh1. split; [|by rewrite Hraw]. unfold id. destruct (F3 sh1) as [F _].
    rewrite held_release by (pose proof (owned_bound gs k sh); lia). destruct (decide (sh = sh1)) as [->|]; lia.
  - rewrite E. by eexists.
Qed.

Lemma events_ok st k m s : st_ok st → locks st !! k = Some m → queue_owns s (waiters_ m) →
  (∀ w, w ∈ waiters_ m → evs_shared s w.1 = evs_shared (store m) w.1) →
  st_ok (GState (<[k := Mutex (latch_ m) (waiters_ m) (notified m) s (holders m)]> (locks st)) (guards st)).
Proof.
  intros Hok Hk Hq He. destruct (mutex_ok st k m Hok Hk) as [L1 L2 _]. unfold st_ok. cbn [locks guards].
  eapply change_ok; [exact Hok|done|by apply (mutex_step_inv m); [by apply Step_events|]|done| |done| |apply Hok].
  - by apply labels_ext.
  - intros k1 sh. cbn [holders]. destruct (decide _); lia.
Qed.

Lemma run_guard_ok st op : st_ok st → op_legal st op → ∃ r st', run_guard op st = Some (r, st') ∧ st_ok st'.
Proof.
  intros Hok Hl. assert (Hdone : ∀ o : option (gstate S), (∃ st', o = Some st' ∧ st_ok st') → ∃ r st', pair Done <$> o = Some (r, st') ∧ st_ok st').
  { intros o (st' & -> & H). by eexists _, st'. }
  destruct op as [k s|sh x|sh x k|sh x k|sh x k|x y|x|x y|x y|x|x|x|x|k sh|k sh|k sh|k s]; cbn [op_legal run_guard] in *.
  - destruct Hl as [Hk Hs]. eexists _, _. split; [done|]. by apply new_mutex_ok.
  - eexists _, _. split; [done|]. by apply new_guard_ok.
  - destruct Hl as [Hx Hk]. eexists _, _. split; [done|]. apply new_guard_ok; try done. by intros k' [= <-].
  - destruct Hl as (Hx & Hk & Hr). apply Hdone.
    destruct (try_ok st x k sh None Hok Hk Hr (fresh_not_waiting st x Hok Hx) Hx) as (r & st' & E & H'); [done|].
    unfold guard_tried. rewrite E. by eexists.
  - destruct Hl as (Hraw & Hx & Hh). eexists _, _. split; [done|]. by apply adopted_ok.
  - destruct Hl as (Hx & Hy & Hw). by apply Hdone, moved_ok.
  - destruct Hl as [Hx Hw]. by apply Hdone, destroyed_ok.
  - destruct Hl as (Hne & Hs & Wx & Wy). by apply Hdone, assigned_ok.
  - destruct Hl as (Hs & Wx & Wy). by apply Hdone, swapped_ok.
  - destruct Hl as (g & Hx & Hw & Hr). destruct (locked_ok st x g Hok Hx Hw Hr) as (r & st' & E & H' & _). by eexists _, _.
  - destruct Hl as (g & Hx & Hw & Hr). unfold guard_try_lock. rewrite Hx. cbn [mbind option_bind]. destruct (m_ g) as [k|] eqn:Ek; [|by eexists _, st].
    destruct (owned_ g) eqn:Eo; [by eexists _, st|].
    destruct (try_ok st x k (g_shared g) (Some g) Hok) as (r & st' & E & H'); [by eapply unowned_ok; [apply Hok|done|]|by apply Hr|done|done|by intros ? [= <-]|].
    rewrite E. by eexists _, _.
  - by apply unlocked_ok.
  - destruct Hl as (g & Hx & Hw & Ho). unfold guard_release. rewrite Hx. cbn [mbind option_bind]. eexists _, _. split; [done|].
    destruct (owned_ g) eqn:Eo; [|by apply (same_lock_ok st x g)].
    specialize (Ho eq_refl). pose proof (write_other st x (Guard (g_shared g) None false) Hw) as Hwo. destruct Hok as [Hls Hn].
    split; [|by apply names_insert]. cbn [locks guards set_guard]. intros k1 m1 Hk1. destruct (Hls k1 m1 Hk1) as [L1 L2 [F1 F2 F3 F4]].
    split; [done|done|]. split; [|done| |done].
    + intros sh1 y Hy. rewrite (Hwo k1 m1) by (done || apply elem_of_flags; by eexists). by apply F1.
    + intros sh1. split; [|by rewrite Ho]. rewrite (owned_set _ _ g), (one_unowned (Guard _ _ false)) by done. destruct (F3 sh1) as [F _].
      unfold one. destruct (decide _); lia.
  - destruct Hl as (Hraw & [m Hk] & Hr). pose proof (fits_request st k m sh None Hok Hk Hraw) as Hf. destruct st as [ls gs].
    destruct (lock_call_ok ls gs k m sh None Hok Hk (Hr m Hk) Hf) as (r & ls' & gs' & E & H' & _). rewrite E. by eexists _, _.
  - destruct Hl as (Hraw & Hk & Hr). destruct (raw_try_ok st k sh Hraw Hok Hk Hr) as (r & st' & E & H'). rewrite E. by eexists _, _.
  - destruct Hl as [Hraw Hh]. by apply Hdone, raw_unlock_ok.
  - destruct Hl as (m & Hk & Hq & He). rewrite Hk. cbn [mbind option_bind]. eexists _, _. split; [done|]. by apply events_ok.
Qed.

Inductive reaches : gstate S → Prop :=
  | reaches_start : reaches (GState ∅ ∅)
  | reaches_step st op r st' : reaches st → op_legal st op → run_guard op st = Some (r, st') → reaches st'.

Lemma reaches_ok st : reaches st → st_ok st.
Proof.
  induction 1 as [|st op r st' _ IH Hl E]; [by split; intros ? ? H; cbn in H; rewrite lookup_empty in H|].
  destruct (run_guard_ok st op IH Hl) as (r1 & st1 & E1 & H1). congruence.
Qed.

(** C21 The lock guards are exact.  In every run of guards over any number of
    mutexes, used as their comments ask: each call returns, with the exceptions
    of the code and no null mutex followed; two guards own locks of one mutex
    only when both share it; every guard that says it owns a lock holds it, and
    unless the program locks outside of guards the guards that own are all the
    holders there are, so that a mutex none of whose guards owns is free, with
    nobody waiting: no lock is lost when a guard is destroyed, moved, swapped or
    assigned, and none is released twice. *)
Theorem guards_exact st : reaches st →
  (∀ op, op_legal st op → ∃ r st', run_guard op st = Some (r, st') ∧ reaches st') ∧
  (∀ x y g h k, x ≠ y → guards st !! x = Some g → guards st !! y = Some h → owned_ g = true → owned_ h = true →
     m_ g = Some k → m_ h = Some k → g_shared g = true ∧ g_shared h = true) ∧
  (∀ k m sh, locks st !! k = Some m → owned (guards st) k sh ≤ Z.of_nat (held_as sh (holders m)) ∧
     (raw = false → owned (guards st) k sh = Z.of_nat (held_as sh (holders m)))) ∧
  (raw = false → ∀ k m, locks st !! k = Some m →
     (∀ x g, guards st !! x = Some g → m_ g = Some k → owned_ g = false) → latch_ m = 0 ∧ waiters_ m = []).
Proof.
  intros Hr. pose proof (reaches_ok st Hr) as Hok. pose proof Hok as [Hls Hn].
  assert (Hheld : ∀ k m sh, locks st !! k = Some m → owned (guards st) k sh ≤ Z.of_nat (held_as sh (holders m)) ∧
    (raw = false → owned (guards st) k sh = Z.of_nat (held_as sh (holders m)))).
  { intros k m sh Hk. apply (Hls k m Hk). }
  split; [|split; [|split; [done|]]].
  - intros op Hl. destruct (run_guard_ok st op Hok Hl) as (r & st' & E & _). exists r, st'. split; [done|]. by eapply reaches_step.
  - intros x y g h k Hne Hx Hy Hg Hh Kg Kh. destruct (unowned_ok _ _ x g Hn Hx k Kg) as [m Hk].
    destruct (Hls k m Hk) as [Hi _ _]. pose proof (inv_excl m Hi) as Hx1. unfold exclusive in Hx1.
    pose proof (owned_pos _ x g k Hx Hg Kg) as P1. pose proof (owned_pos _ y h k Hy Hh Kh) as P2.
    destruct (Hheld k m true Hk) as [B1 _]. destruct (Hheld k m false Hk) as [B2 _]. unfold held_as in *.
    pose proof (owned_two _ x y g h k Hne Hx Hy Hg Hh Kg Kh) as P3.
    destruct (g_shared g), (g_shared h); try done; [lia|lia|specialize (P3 eq_refl); lia].
  - intros Hraw k m Hk Hno. destruct (Hls k m Hk) as [Hi _ _].
    assert (E : ∀ sh, owned (guards st) k sh = 0).
    { intros sh. destruct (decide (owned (guards st) k sh = 0)) as [|Hne]; [done|]. exfalso. apply count_pos in Hne as [x Hx].
      rewrite lookup_fmap in Hx. destruct (guards st !! x) as [g|] eqn:Eg; [|done]. cbn in Hx. unfold key in Hx.
      destruct (owned_ g) eqn:Eo; [|done]. destruct (m_ g) as [k'|] eqn:Em; [|done]. cbn in Hx. injection Hx as Hx. apply lock_slot_inj in Hx as [-> _].
      specialize (Hno x g Eg Em). congruence. }
    destruct (Hheld k m true Hk) as [_ H1]. destruct (Hheld k m false Hk) as [_ H2]. specialize (H1 Hraw). specialize (H2 Hraw).
    rewrite E in H1, H2. unfold held_as in *. assert (Hh : holders m = (0, 0)%nat) by (destruct (holders m); cbn in *; f_equal; lia).
    pose proof (inv_blocked m Hi) as Hb. unfold head_blocked in Hb. rewrite (inv_word m Hi), Hh in *.
    destruct (waiters_ m); [done|]. destruct Hb as ([] & _ & Hc); done.
Qed.
End Guards.

(** ** A run

    Two guards of one mutex: the first locks it, the second waits to share it;
    the first is destroyed, and the second owns its lock. *)
Local Notation run_at := (@run_guard world (plain_store at_zero 0)).

Fixpoint run_guards (ops : list (guard_op (S := world))) (st : gstate world) : option (gstate world) :=
  match ops with [] => Some st | op :: ops => r ← run_at op st; run_guards ops r.2 end.

Definition guards_of (st : gstate world) : list (nat * guard) := map_to_list (guards st).
Definition locks_of (st : gstate world) : list (nat * (Z * (nat * nat))) :=
  (λ p, (p.1, (latch_ p.2, holders p.2))) <$> map_to_list (locks st).

Definition start_guards : list guard_op := [G_mutex 0 idle_world; G_deferred false 1 0; G_lock 1; G_deferred true 2 0; G_lock 2].

Example guard_hands_over :
  (guards_of <$> run_guards (start_guards ++ [G_destroyed 1]) (GState ∅ ∅) = Some [(2%nat, Guard true (Some 0%nat) true)]) ∧
  (locks_of <$> run_guards (start_guards ++ [G_destroyed 1]) (GState ∅ ∅) = Some [(0%nat, (16, (0, 1)%nat))]).
Proof. vm_compute. done. Qed.

(** What the rules of use exclude.  Assigning a guard to itself releases its lock
    and leaves it the owner: destroying it releases once more, and the word of
    the mutex wraps around. *)
Example self_assignment_unlocks_twice :
  (locks_of <$> run_guards [G_mutex 0 idle_world; G_deferred false 1 0; G_lock 1; G_assigned 1 1; G_destroyed 1] (GState ∅ ∅)) =
  Some [(0%nat, (4294967288, (0, 0)%nat))].
Proof. vm_compute. reflexivity. Qed.

(** A guard that is moved while it waits: the lock is granted to the guard it was
    moved from, whose destructor follows a null pointer. *)
Example moved_while_waiting :
  (guards_of <$> run_guards (start_guards ++ [G_moved 3 2; G_destroyed 1]) (GState ∅ ∅) =
   Some [(2%nat, Guard true None true); (3%nat, Guard true (Some 0%nat) false)]) ∧
  run_guards (start_guards ++ [G_moved 3 2; G_destroyed 1; G_destroyed 2]) (GState ∅ ∅) = None.
Proof. vm_compute. done. Qed.

(** A guard that asks again while it waits is granted two locks and gives one
    back: the mutex stays locked. *)
Example locked_twice :
  (locks_of <$> run_guards (start_guards ++ [G_lock 2; G_destroyed 1; G_unlock 2; G_destroyed 2]) (GState ∅ ∅)) =
  Some [(0%nat, (16, (0, 1)%nat))].
Proof. vm_compute. reflexivity. Qed.

Lemma guards_exact_witness : ∃ st : gstate world,
  guards st !! 1%nat = Some (Guard false (Some 0%nat) true) ∧
  (∀ k m sh, locks st !! k = Some m → owned (guards st) k sh = Z.of_nat (held_as sh (holders m))).
Proof.
  set (st1 := GState (<[0%nat := new_mutex idle_world]> ∅) ∅ : gstate world).
  set (st2 := guard_deferred false 1 0 st1).
  assert (E3 : ∃ r st3, run_at (G_lock 1) st2 = Some (r, st3) ∧ guards st3 !! 1%nat = Some (Guard false (Some 0%nat) true)).
  { eexists _, _. split; [vm_compute; reflexivity|reflexivity]. }
  destruct E3 as (r & st3 & E3 & Hg). exists st3. split; [exact Hg|].
  assert (R1 : @reaches world (plain_store at_zero 0) false st1).
  { eapply (@reaches_step _ (plain_store at_zero 0) _ (GState ∅ ∅) (G_mutex 0 idle_world)); [apply reaches_start|split; [done|apply idle_ok]|done]. }
  assert (R2 : @reaches world (plain_store at_zero 0) false st2).
  { eapply (@reaches_step _ (plain_store at_zero 0) _ st1 (G_deferred false 1 0)); [exact R1|split; [done|by eexists]|done]. }
  assert (R3 : @reaches world (plain_store at_zero 0) false st3).
  { eapply (@reaches_step _ (plain_store at_zero 0) _ st2 (G_lock 1)); [exact R2| |exact E3].
    eexists. split; [reflexivity|]. split.
    - intros (k & m & Hk & e & He). cbn [st2 guard_deferred set_guard st1 locks] in Hk.
      apply lookup_insert_Some in Hk as [[_ <-]|[_ Hk]]; [by inversion He|by rewrite lookup_empty in Hk].
    - intros k [= <-] m Hm. vm_compute in Hm. injection Hm as <-. by vm_compute. }
  intros k m sh Hk. by apply (@guards_exact world (plain_store at_zero 0) (plain_laws at_zero 0) false st3 R3).
Defined.
