(* ===== verification/DocCache.v ===== *)
(** The server's document caches, [src/pset4/http_server.cc]: [per_doc_cache],
    [server_cache_state], one tick of [poll_doc_cache], and the scan by which
    [handle_stream_doc] decides which events to emit.

    Logging to [stderr] is left out; the caches are otherwise modelled whole.
    Each definition is the code between two suspension points, so
    interleavings of handlers are sequences of these steps. *)

From S2P Require Import Prelude SMap Text DocOps PancyDb DocState HttpText.

(** * One document *)

Record per_doc_cache := mk_per_doc_cache {
  ops_ : list committed_op;
  cursors_ : smap Z cursor_entry;
  client_labels_ : smap Z txt;
  text_ : txt;
  version_ : Z;
  epoch_ : Z;
  cursor_epoch_ : Z;
}.

Definition empty_cache : per_doc_cache := mk_per_doc_cache [] [] [] [] 0 0 0.

Definition set_label (c : committed_op) (label : txt) : committed_op :=
  mk_committed_op (co_version c) (co_client_id c) (co_client_seq c) (co_op c) label.

Definition same_id (a b : committed_op) : bool :=
  (co_version a =? co_version b) && (co_client_id a =? co_client_id b)
  && (co_client_seq a =? co_client_seq b).

(** The loop that compares the cached operations with the fresh prefix. *)
Fixpoint prefix_unchanged (cached fresh : list committed_op) : bool :=
  match cached, fresh with
  | [], _ => true
  | _ :: _, [] => false
  | c :: cached', f :: fresh' => same_id f c && prefix_unchanged cached' fresh'
  end.

(** One round of the append loop. *)
Definition append_op (labels : smap Z txt) (st : list committed_op * txt) (f : committed_op) :
    list committed_op * txt :=
  let '(ops, text) := st in
  let f' := match find (co_client_id f) labels with
            | Some l => set_label f l
            | None => f
            end in
  (ops ++ [f'], apply_op text (co_op f)).

(** [saved_labels] is keyed by pairs; the model keeps the list of entries and
    looks up the first one, which is what [emplace] keeps. *)
Definition saved_labels (ops : list committed_op) : list (Z * Z * txt) :=
  omap (λ o, if bool_decide (co_client_id_label o = []) then None
             else Some (co_client_id o, co_client_seq o, co_client_id_label o)) ops.

Fixpoint saved_label (saved : list (Z * Z * txt)) (cid seq : Z) : option txt :=
  match saved with
  | [] => None
  | (c, s, l) :: saved' => if (c =? cid) && (s =? seq) then Some l else saved_label saved' cid seq
  end.

(** Relabelling moves the string out of the table: a second operation with the
    same client and sequence number finds the moved-from (empty) string. *)
Fixpoint relabel (saved : list (Z * Z * txt)) (taken : list (Z * Z)) (ops : list committed_op) :
    list committed_op :=
  match ops with
  | [] => []
  | o :: ops' =>
      let id := (co_client_id o, co_client_seq o) in
      match saved_label saved (co_client_id o) (co_client_seq o) with
      | Some l =>
          (if bool_decide (id ∈ taken) then set_label o [] else set_label o l)
          :: relabel saved (id :: taken) ops'
      | None => o :: relabel saved taken ops'
      end
  end.

Definition refresh_ops_from_db (c : per_doc_cache) (db : pancydb) (doc_id : txt) : per_doc_cache :=
  let fresh := read_ops db doc_id in
  let fresh_version := match last fresh with Some f => co_version f | None => 0 end in
  if bool_decide (fresh = []) then
    if bool_decide (ops_ c = []) then c
    else mk_per_doc_cache [] (cursors_ c) (client_labels_ c) [] 0 (u64 (epoch_ c + 1)) (cursor_epoch_ c)
  else if (length (ops_ c) <=? length fresh)%nat && prefix_unchanged (ops_ c) fresh then
    let '(ops, text) :=
      foldl (append_op (client_labels_ c)) (ops_ c, text_ c) (drop (length (ops_ c)) fresh) in
    if negb (fresh_version =? version_ c) then
      mk_per_doc_cache ops (cursors_ c) (client_labels_ c) text fresh_version
        (u64 (epoch_ c + 1)) (cursor_epoch_ c)
    else
      mk_per_doc_cache ops (cursors_ c) (client_labels_ c) text (version_ c) (epoch_ c) (cursor_epoch_ c)
  else
    let ops := relabel (saved_labels (ops_ c)) [] fresh in
    mk_per_doc_cache ops (cursors_ c) (client_labels_ c) (reconstruct ops) fresh_version
      (u64 (epoch_ c + 1)) (cursor_epoch_ c).

(** The cursor a cell holds, with the hash its key ends in. *)
Definition cell_cursor (prefix : txt) (cell : txt * vv) : option (Z * cursor_entry) :=
  let '(key, v) := cell in
  if (length key <=? length prefix)%nat || negb (starts_with prefix key) then None
  else
    match from_chars_all (drop (length prefix) key) with
    | None => None
    | Some cid_hash =>
        match json_get_string (vv_value v) $"client_id", json_get_int (vv_value v) $"pos" with
        | Some client_id, Some pos => Some (cid_hash, mk_cursor_entry (vv_version v) client_id pos)
        | _, _ => None
        end
    end.

Definition fresh_cursors (db : pancydb) (doc_id : txt) : smap Z cursor_entry :=
  foldl (λ m p, assign p.1 p.2 m) []
    (omap (cell_cursor ($"doc/" ++ doc_id ++ $"/cursor/")) (db_ db)).

Definition refresh_cursors_from_db (c : per_doc_cache) (db : pancydb) (doc_id : txt) : per_doc_cache :=
  let fresh := fresh_cursors db doc_id in
  if bool_decide (fresh = cursors_ c) then c
  else mk_per_doc_cache (ops_ c) fresh (client_labels_ c) (text_ c) (version_ c) (epoch_ c)
         (u64 (cursor_epoch_ c + 1)).

(** The first cached operation of the same client and sequence number gets the
    incoming label when it has none. *)
Fixpoint upgrade_label (c : committed_op) (ops : list committed_op) : option (list committed_op) :=
  match ops with
  | [] => None
  | e :: ops' =>
      if (co_client_id e =? co_client_id c) && (co_client_seq e =? co_client_seq c) then
        Some ((if bool_decide (co_client_id_label e = []) && negb (bool_decide (co_client_id_label c = []))
               then set_label e (co_client_id_label c) else e) :: ops')
      else (e ::.) <$> upgrade_label c ops'
  end.

Definition note_committed (s : per_doc_cache) (c : committed_op) : per_doc_cache :=
  let labels :=
    if bool_decide (co_client_id_label c = []) then client_labels_ s
    else assign (co_client_id c) (co_client_id_label c) (client_labels_ s) in
  match upgrade_label c (ops_ s) with
  | Some ops =>
      mk_per_doc_cache ops (cursors_ s) labels (text_ s) (version_ s) (epoch_ s) (cursor_epoch_ s)
  | None =>
      if version_ s <? co_version c then
        mk_per_doc_cache (ops_ s ++ [c]) (cursors_ s) labels (apply_op (text_ s) (co_op c))
          (co_version c) (u64 (epoch_ s + 1)) (cursor_epoch_ s)
      else
        mk_per_doc_cache (ops_ s) (cursors_ s) labels (text_ s) (version_ s) (epoch_ s) (cursor_epoch_ s)
  end.

Definition note_client_label (s : per_doc_cache) (cid_hash : Z) (label : txt) : per_doc_cache :=
  if bool_decide (label = []) then s
  else
    mk_per_doc_cache
      ((λ o, if (co_client_id o =? cid_hash) && bool_decide (co_client_id_label o = [])
             then set_label o label else o) <$> ops_ s)
      (cursors_ s) (assign cid_hash label (client_labels_ s)) (text_ s) (version_ s) (epoch_ s)
      (cursor_epoch_ s).

(** * All documents *)

Record server_cache_state := mk_server_cache_state {
  known_docs_ : doc_set;
  by_doc_ : smap txt per_doc_cache;
  docs_epoch_ : Z;
}.

(** [g_state.doc(id)]: the entry, created empty when missing. *)
Definition doc (g : server_cache_state) (doc_id : txt) : per_doc_cache :=
  default empty_cache (find doc_id (by_doc_ g)).

Definition set_doc (g : server_cache_state) (doc_id : txt) (c : per_doc_cache) : server_cache_state :=
  mk_server_cache_state (known_docs_ g) (assign doc_id c (by_doc_ g)) (docs_epoch_ g).

Definition ensure_doc (g : server_cache_state) (doc_id : txt) : server_cache_state :=
  mk_server_cache_state
    (emplace doc_id tt (known_docs_ g))
    (emplace doc_id empty_cache (by_doc_ g))
    (if contains doc_id (known_docs_ g) then docs_epoch_ g else u64 (docs_epoch_ g + 1)).

Definition kDocsRegistryKey : txt := $"docs/registry".

Definition refresh_doc (db : pancydb) (g : server_cache_state) (d : txt) : server_cache_state :=
  set_doc g d (refresh_cursors_from_db (refresh_ops_from_db (doc g d) db d) db d).

(** One tick of [poll_doc_cache] against the current database. *)
Definition poll_tick (g : server_cache_state) (db : pancydb) : server_cache_state :=
  let g := match get db kDocsRegistryKey with
           | Some v => foldl ensure_doc g (keys (parse_docs_registry (vv_value v)))
           | None => g
           end in
  foldl (refresh_doc db) g (keys (known_docs_ g)).

(** * Streaming *)

(** The operations one pass of [handle_stream_doc] emits, and its new
    [last_seen]. *)
Fixpoint stream_scan (ops : list committed_op) (last_seen : Z) : list committed_op * Z :=
  match ops with
  | [] => ([], last_seen)
  | c :: ops' =>
      if co_version c <=? last_seen then stream_scan ops' last_seen
      else let '(out, seen) := stream_scan ops' (co_version c) in (c :: out, seen)
  end.

(** The frames of one pass: operations, then the cursors if their epoch moved,
    then a ping after five seconds. *)
Definition stream_pass (c : per_doc_cache) (last_seen last_cursor_epoch : Z) (heartbeat_due : bool) :
    list txt * Z * Z :=
  let '(out, seen) := stream_scan (ops_ c) last_seen in
  let cursor_frames :=
    if cursor_epoch_ c =? last_cursor_epoch then [] else sse_cursor_frame <$> (cursors_ c).*2 in
  ((sse_op_frame <$> out) ++ cursor_frames
     ++ (if heartbeat_due then [$"event: ping" ++ [lf] ++ $"data: {}" ++ [lf; lf]] else []),
   seen, cursor_epoch_ c).

(** * What the cache promises

    Labels are decoration: [unlabelled] removes them, and the database holds
    operations without labels. *)

Definition unlabelled (o : committed_op) : committed_op := set_label o [].
Definition strip (ops : list committed_op) : list committed_op := unlabelled <$> ops.

Definition last_version (ops : list committed_op) : Z :=
  match last ops with Some o => co_version o | None => 0 end.

(** The text is the replay of the operations and the version that of the last
    one. *)
Record coherent (c : per_doc_cache) : Prop := {
  coherent_text : text_ c = reconstruct (ops_ c);
  coherent_version : version_ c = last_version (ops_ c);
}.

(** The cache shows what the database holds. *)
Definition mirrors (c : per_doc_cache) (db : pancydb) (doc_id : txt) : Prop :=
  strip (ops_ c) = read_ops db doc_id ∧
  text_ c = reconstruct (read_ops db doc_id) ∧
  version_ c = last_version (read_ops db doc_id).

(** A version, client and sequence number name one operation: cached entries
    that the comparison takes for entries of the database hold the same
    operation. *)
Definition agrees (ops fresh : list committed_op) : Prop :=
  ∀ o f, o ∈ ops → f ∈ fresh → same_id f o = true → co_op o = co_op f.

(** * Lemmas *)

Lemma co_op_unlabelled o : co_op (unlabelled o) = co_op o.
Proof. done. Qed.

Lemma unlabelled_set_label o l : unlabelled (set_label o l) = unlabelled o.
Proof. done. Qed.

#[export] Hint Rewrite unlabelled_set_label co_op_unlabelled : draft_rw.

Lemma foldl_strip text ops :
  foldl (λ t c, apply_op t (co_op c)) text (strip ops) = foldl (λ t c, apply_op t (co_op c)) text ops.
Proof. revert text. induction ops as [|o ops IH]; intros text; simpl; [done|]. by rewrite IH. Qed.

Lemma reconstruct_strip ops : reconstruct (strip ops) = reconstruct ops.
Proof. apply foldl_strip. Qed.

Lemma last_version_strip ops : last_version (strip ops) = last_version ops.
Proof. unfold last_version, strip. rewrite fmap_last. by destruct (last ops). Qed.

Lemma last_version_snoc ops o : last_version (ops ++ [o]) = co_version o.
Proof. unfold last_version. by rewrite last_snoc. Qed.

Lemma strip_app l k : strip (l ++ k) = strip l ++ strip k.
Proof. apply fmap_app. Qed.

Lemma strip_id ops : Forall (λ o, co_client_id_label o = []) ops → strip ops = ops.
Proof.
  induction 1 as [|[v c s o l] ops Ho _ IH]; [done|].
  simpl in Ho. subst. unfold strip in *. rewrite fmap_cons, IH. done.
Qed.

Lemma read_ops_unlabelled db doc_id : strip (read_ops db doc_id) = read_ops db doc_id.
Proof.
  apply strip_id, Forall_forall. intros o Ho. unfold read_ops in Ho.
  rewrite sort_ops_perm, list_elem_of_omap in Ho. destruct Ho as ([k v] & _ & Hc).
  by apply cell_op_Some in Hc as (?&?&?&?&_&_&_&_&_&->).
Qed.

Lemma same_id_eq a b :
  same_id a b = true → co_op b = co_op a → unlabelled a = unlabelled b.
Proof.
  unfold same_id, unlabelled, set_label. intros H Ho. bsimp. by f_equal.
Qed.

Lemma prefix_unchanged_take ops fresh :
  prefix_unchanged ops fresh = true → agrees ops fresh →
  strip (take (length ops) fresh) = strip ops.
Proof.
  revert fresh. induction ops as [|o ops IH]; intros [|f fresh] Hp Ha; simpl in *; try done.
  apply andb_true_iff in Hp as [Hid Hp]. f_equal.
  - apply same_id_eq; [done|]. apply Ha; [by left|by left|done].
  - apply IH; [done|]. intros x y Hx Hy. apply Ha; by right.
Qed.

(** The append loop: the new operations at the end, applied to the text. *)
Lemma append_loop labels ops text fresh :
  let '(ops', text') := foldl (append_op labels) (ops, text) fresh in
  strip ops' = strip ops ++ strip fresh ∧
  text' = foldl (λ t c, apply_op t (co_op c)) text fresh.
Proof.
  revert ops text. induction fresh as [|f fresh IH]; intros ops text; simpl.
  { by rewrite app_nil_r. }
  match goal with |- context [foldl _ (ops ++ [?x], ?t)] => specialize (IH (ops ++ [x]) t) end.
  destruct (foldl _ _ _) as [ops' text']. destruct IH as [-> ->]. split; [|done].
  rewrite strip_app, <- app_assoc. f_equal. simpl. f_equal. by case_match.
Qed.

Lemma relabel_strip saved taken ops : strip (relabel saved taken ops) = strip ops.
Proof.
  revert taken. induction ops as [|o ops IH]; intros taken; simpl; [done|].
  case_match; simpl; rewrite IH; [|done]. by case_match.
Qed.

Lemma strip_nil ops : strip ops = [] ↔ ops = [].
Proof. unfold strip. destruct ops; naive_solver. Qed.

Lemma mirrors_coherent c db doc_id : mirrors c db doc_id → coherent c.
Proof.
  intros (Ho & Ht & Hv). split.
  - by rewrite Ht, <- Ho, reconstruct_strip.
  - by rewrite Hv, <- Ho, last_version_strip.
Qed.

(** A coherent cache with the right operations mirrors the database. *)
Lemma mirrors_intro c db doc_id :
  coherent c → strip (ops_ c) = read_ops db doc_id → mirrors c db doc_id.
Proof.
  intros [Ht Hv] Ho. split_and!; [done| |].
  - by rewrite Ht, <- Ho, reconstruct_strip.
  - by rewrite Hv, <- Ho, last_version_strip.
Qed.

Lemma refresh_mirrors c db doc_id :
  coherent c → agrees (ops_ c) (read_ops db doc_id) →
  mirrors (refresh_ops_from_db c db doc_id) db doc_id.
Proof.
  intros Hc Ha. pose proof (read_ops_unlabelled db doc_id) as Hs.
  unfold refresh_ops_from_db. set (fresh := read_ops db doc_id) in *.
  change (match last fresh with Some f => co_version f | None => 0 end) with (last_version fresh).
  destruct (bool_decide (fresh = [])) eqn:Ef; bsimp.
  { case_if; [|unfold mirrors; fold fresh; by rewrite Ef].
    apply mirrors_intro; [done|]. fold fresh. by rewrite Ec, Ef. }
  destruct ((_ <=? _)%nat && _) eqn:Ep.
  - apply andb_true_iff in Ep as [Hlen Hp]. apply prefix_unchanged_take in Hp; [|done].
    pose proof (append_loop (client_labels_ c) (ops_ c) (text_ c) (drop (length (ops_ c)) fresh)) as Hl.
    destruct (foldl _ _ _) as [ops text]. destruct Hl as [Ho Ht].
    rewrite <- Hp, <- strip_app, take_drop, Hs in Ho.
    assert (Htext : text = reconstruct fresh).
    { rewrite Ht, (coherent_text c Hc), <- reconstruct_strip, <- Hp, reconstruct_strip.
      unfold reconstruct. by rewrite <- foldl_app, take_drop. }
    case_if; unfold mirrors; simpl; fold fresh; by split_and!.
  - unfold mirrors; simpl; fold fresh. rewrite relabel_strip.
    split_and!; [done| |done]. by rewrite <- reconstruct_strip, relabel_strip, reconstruct_strip.
Qed.

(** ** Refreshing a cache that is up to date *)

Lemma prefix_unchanged_strip ops : prefix_unchanged ops (strip ops) = true.
Proof.
  induction ops as [|o ops IH]; simpl; [done|]. rewrite IH.
  unfold same_id. simpl. by rewrite !Z.eqb_refl.
Qed.

Lemma refresh_up_to_date c db doc_id : mirrors c db doc_id → refresh_ops_from_db c db doc_id = c.
Proof.
  intros (Ho & _ & Hv). unfold refresh_ops_from_db. unfold last_version in Hv. rewrite <- Ho in Hv |- *.
  case_if; [rewrite strip_nil in Ec; by rewrite Ec|].
  assert (Hl : length (strip (ops_ c)) = length (ops_ c)) by apply length_fmap.
  rewrite Hl, Nat.leb_refl, prefix_unchanged_strip. simpl.
  rewrite drop_ge by lia. simpl. rewrite Hv, Z.eqb_refl. simpl. rewrite <- Hv. by destruct c.
Qed.

(** ** Noting a commit *)

Definition same_client_seq (a b : committed_op) : Prop :=
  co_client_id a = co_client_id b ∧ co_client_seq a = co_client_seq b.

Lemma upgrade_label_strip c ops ops' : upgrade_label c ops = Some ops' → strip ops' = strip ops.
Proof.
  revert ops'. induction ops as [|o ops IH]; intros ops'; simpl; [done|].
  case_if; [intros [= <-]; by case_if|].
  intros (l & Hl & ->)%fmap_Some. simpl. f_equal. by apply IH.
Qed.

Lemma upgrade_label_None c ops :
  upgrade_label c ops = None ↔ Forall (λ o, ¬ same_client_seq o c) ops.
Proof.
  unfold same_client_seq. induction ops as [|o ops IH]; simpl; [done|]. rewrite Forall_cons, <- IH.
  destruct (_ && _) eqn:E; bsimp.
  - naive_solver.
  - rewrite fmap_None. apply andb_false_iff in E as [E|E]; bsimp; naive_solver.
Qed.

Lemma last_strip_version ops ops' : strip ops = strip ops' → last_version ops = last_version ops'.
Proof. intros H. by rewrite <- last_version_strip, H, last_version_strip. Qed.

Lemma reconstruct_strip_eq ops ops' : strip ops = strip ops' → reconstruct ops = reconstruct ops'.
Proof. intros H. by rewrite <- reconstruct_strip, H, reconstruct_strip. Qed.

Lemma note_committed_coherent s c : coherent s → coherent (note_committed s c).
Proof.
  intros [Ht Hv]. unfold note_committed. destruct (upgrade_label c (ops_ s)) as [ops|] eqn:E.
  - apply upgrade_label_strip in E. split; simpl.
    + rewrite Ht. symmetry. by apply reconstruct_strip_eq.
    + rewrite Hv. symmetry. by apply last_strip_version.
  - case_if; [|by split]. split; simpl; [|by rewrite last_version_snoc].
    by rewrite reconstruct_snoc, Ht.
Qed.

(** Noting an operation the cache already holds changes labels only. *)
Lemma note_known s c db doc_id :
  mirrors s db doc_id → ¬ Forall (λ o, ¬ same_client_seq o c) (ops_ s) →
  mirrors (note_committed s c) db doc_id.
Proof.
  intros (Ho & Ht & Hv) Hin. unfold note_committed.
  destruct (upgrade_label c (ops_ s)) as [ops|] eqn:E.
  - apply upgrade_label_strip in E. unfold mirrors. simpl. by rewrite E.
  - by apply upgrade_label_None in E.
Qed.

(** Noting the next operation. *)
Lemma note_fresh s c db db' doc_id :
  mirrors s db doc_id → Forall (λ o, ¬ same_client_seq o c) (ops_ s) →
  version_ s < co_version c → read_ops db' doc_id = read_ops db doc_id ++ [unlabelled c] →
  mirrors (note_committed s c) db' doc_id.
Proof.
  intros Hm Hno Hlt Hr. apply mirrors_intro.
  - by eapply note_committed_coherent, mirrors_coherent.
  - unfold note_committed. apply upgrade_label_None in Hno as ->.
    apply Z.ltb_lt in Hlt as ->. simpl. rewrite strip_app, Hr. f_equal. apply Hm.
Qed.

Lemma strip_no_client_seq c ops :
  Forall (λ o, ¬ same_client_seq o c) (strip ops) ↔ Forall (λ o, ¬ same_client_seq o c) ops.
Proof. apply Forall_fmap. Qed.

Lemma same_id_client_seq a b : same_id a b = true → same_client_seq b a.
Proof. unfold same_id, same_client_seq. intros H. bsimp. by split. Qed.

(** Distinct versions make the entries agree. *)
Lemma sorted_agrees ops fresh :
  StronglySorted version_lt fresh → strip ops `sublist_of` fresh → agrees ops fresh.
Proof.
  intros Hs Hsub o f Ho Hf Hid. assert (Hin : unlabelled o ∈ fresh).
  { eapply sublist_subseteq; [exact Hsub|]. by apply list_elem_of_fmap_2. }
  unfold same_id in Hid. bsimp. rewrite <- (co_op_unlabelled o).
  enough (unlabelled o = f) as -> by done.
  clear Hsub Ho. induction Hs as [|x l Hs IH Hx]; [by apply not_elem_of_nil in Hf|].
  rewrite Forall_forall in Hx. unfold version_lt in Hx.
  apply elem_of_cons in Hin as [<-|Hin], Hf as [->|Hf]; [done| | |by apply IH].
  - apply Hx in Hf. simpl in Hf. lia.
  - apply Hx in Hin. simpl in Hin. lia.
Qed.

Lemma mirrors_agrees s db db' doc_id k :
  db_wf db' → mirrors s db doc_id → read_ops db' doc_id = read_ops db doc_id ++ k →
  agrees (ops_ s) (read_ops db' doc_id).
Proof.
  intros Hwf (Ho & _) Hr. apply sorted_agrees; [by apply read_ops_sorted|].
  rewrite Hr, Ho. apply sublist_inserts_r. done.
Qed.

(** ** The event stream *)

Lemma stream_scan_strip ops seen :
  (stream_scan (strip ops) seen).2 = (stream_scan ops seen).2 ∧
  (stream_scan (strip ops) seen).1 = strip (stream_scan ops seen).1.
Proof.
  revert seen. induction ops as [|o ops IH]; intros seen; simpl; [done|].
  case_if; [apply IH|]. specialize (IH (co_version o)).
  destruct (stream_scan (strip ops) _), (stream_scan ops _); simpl in *. naive_solver.
Qed.

Definition newer (seen : Z) (c : committed_op) : Prop := seen < co_version c.
#[export] Instance newer_dec seen c : Decision (newer seen c).
Proof. unfold newer. apply _. Defined.

Lemma stream_scan_sorted ops seen :
  StronglySorted version_lt ops →
  (stream_scan ops seen).1 = filter (newer seen) ops ∧
  seen ≤ (stream_scan ops seen).2 ∧
  Forall (λ c, co_version c ≤ (stream_scan ops seen).2) ops ∧
  ((stream_scan ops seen).2 = seen ∨ ∃ c, c ∈ ops ∧ co_version c = (stream_scan ops seen).2).
Proof.
  intros Hs. revert seen. induction Hs as [|o ops Hs IH Ho]; intros seen; simpl.
  { split_and!; auto. lia. }
  rewrite filter_cons. case_if.
  - destruct (IH seen) as (H1 & H2 & H3 & H4).
    rewrite decide_False by (unfold newer; lia). split_and!; [done|done| |].
    + constructor; [lia|done].
    + destruct H4 as [|(c & ? & ?)]; [by left|]. right. exists c. split; [by right|done].
  - destruct (IH (co_version o)) as (H1 & H2 & H3 & H4).
    rewrite decide_True by (unfold newer; lia).
    destruct (stream_scan ops (co_version o)) as [out s']. simpl in *. split_and!.
    + rewrite H1. f_equal. apply filter_ext_in. rewrite Forall_forall in Ho |- *.
      intros x Hx. apply Ho in Hx. unfold version_lt, newer in *. lia.
    + lia.
    + constructor; [done|done].
    + right. destruct H4 as [->|(c & ? & ?)]; [exists o|exists c]; (split; [by constructor|done]).
Qed.

(** Two scans of growing operation lists emit what one scan of the longer one
    does. *)
Lemma stream_scan_grow ops k seen :
  StronglySorted version_lt (ops ++ k) →
  filter (newer seen) (ops ++ k) =
    (stream_scan ops seen).1 ++ filter (newer (stream_scan ops seen).2) (ops ++ k).
Proof.
  intros Hs. assert (Hso : StronglySorted version_lt ops) by (by apply StronglySorted_app_1_l in Hs).
  destruct (stream_scan_sorted ops seen Hso) as (-> & Hge & Hall & Hlast).
  set (s := (stream_scan ops seen).2) in *. rewrite !filter_app.
  assert (Hnone : filter (newer s) ops = []).
  { apply filter_none. eapply Forall_impl; [exact Hall|]. unfold newer. simpl. lia. }
  rewrite Hnone. simpl. f_equal. apply filter_ext_in, Forall_forall. intros x Hx. unfold newer.
  split; [|lia]. intros Hlt. destruct Hlast as [->|(c & Hc & <-)]; [done|].
  exact (StronglySorted_app_1_elem_of _ _ _ _ _ Hs Hc Hx).
Qed.

(** The passes of a stream over successive contents of the cache. *)
Fixpoint stream_run (snaps : list (list committed_op)) (seen : Z) : list committed_op :=
  match snaps with
  | [] => []
  | ops :: snaps' => (stream_scan ops seen).1 ++ stream_run snaps' (stream_scan ops seen).2
  end.

Lemma stream_run_cons ops snaps seen :
  stream_run (ops :: snaps) seen =
    (stream_scan ops seen).1 ++ stream_run snaps (stream_scan ops seen).2.
Proof. done. Qed.

(** Successive contents: the operations grow at the end; labels may change. *)
Definition grows (a b : list committed_op) : Prop := strip a `prefix_of` strip b.

Lemma strip_filter P `{!∀ c, Decision (P c)} ops :
  (∀ c, P (unlabelled c) ↔ P c) → strip (filter P ops) = filter P (strip ops).
Proof.
  intros HP. induction ops as [|o ops IH]; [done|]. unfold strip in *.
  rewrite fmap_cons, !filter_cons. destruct (decide (P o)) as [HPo|HPo].
  - rewrite decide_True by by apply HP. by rewrite fmap_cons, IH.
  - rewrite decide_False by by rewrite HP. done.
Qed.

Lemma stream_run_strip ops snaps seen final :
  StronglySorted version_lt (strip final) → Sorted grows (ops :: snaps) →
  last (ops :: snaps) = Some final →
  strip (stream_run (ops :: snaps) seen) = filter (newer seen) (strip final).
Proof.
  intros Hs. revert ops seen. induction snaps as [|ops' snaps IH]; intros ops seen Hg Hl.
  { simpl in *. simplify_eq. rewrite app_nil_r.
    destruct (stream_scan_strip final seen) as [_ <-]. by apply stream_scan_sorted. }
  inv Hg. rewrite stream_run_cons, strip_app, (IH ops') by done.
  destruct (stream_scan_strip ops seen) as [<- <-]. inv H2.
  assert (Hp : strip ops `prefix_of` strip final).
  { etrans; [exact H0|]. clear - H1 Hl. revert ops' H1 Hl.
    induction snaps as [|x snaps IH]; intros ops' Hg Hl; simpl in Hl; [by simplify_eq|].
    inv Hg. inv H2. etrans; [exact H0|]. by apply IH. }
  destruct Hp as [k Hk]. rewrite Hk in Hs |- *. symmetry. by apply stream_scan_grow.
Qed.

(** ** A tick of the poller *)

Lemma refresh_cursors_ops c db d :
  ops_ (refresh_cursors_from_db c db d) = ops_ c ∧
  text_ (refresh_cursors_from_db c db d) = text_ c ∧
  version_ (refresh_cursors_from_db c db d) = version_ c.
Proof. unfold refresh_cursors_from_db. by case_if. Qed.

Lemma doc_set_doc g d c d' : doc (set_doc g d c) d' = if decide (d' = d) then c else doc g d'.
Proof.
  unfold doc, set_doc. simpl. case_decide as E; [subst; by rewrite find_assign_eq|].
  by rewrite find_assign_ne.
Qed.

Definition doc_mirrors (g : server_cache_state) (db : pancydb) (d : txt) : Prop :=
  mirrors (doc g d) db d.

(** What a tick needs of a document: a coherent cache whose entries agree with
    the database. *)
Definition doc_ready (g : server_cache_state) (db : pancydb) (d : txt) : Prop :=
  coherent (doc g d) ∧ agrees (ops_ (doc g d)) (read_ops db d).

Lemma empty_cache_ready db d : coherent empty_cache ∧ agrees (ops_ empty_cache) (read_ops db d).
Proof. split; [done|]. intros o f Ho. by apply not_elem_of_nil in Ho. Qed.

Lemma refresh_doc_mirrors g db d : doc_ready g db d → doc_mirrors (refresh_doc db g d) db d.
Proof.
  intros [Hc Ha]. unfold doc_mirrors, refresh_doc. rewrite doc_set_doc, decide_True by done.
  destruct (refresh_cursors_ops (refresh_ops_from_db (doc g d) db d) db d) as (Ho & Ht & Hv).
  unfold mirrors. rewrite Ho, Ht, Hv. by apply refresh_mirrors.
Qed.

Lemma refresh_doc_other g db d d' : d ≠ d' → doc (refresh_doc db g d) d' = doc g d'.
Proof. intros. unfold refresh_doc. by rewrite doc_set_doc, decide_False. Qed.

Lemma mirrors_agrees_self s db d : db_wf db → mirrors s db d → agrees (ops_ s) (read_ops db d).
Proof.
  intros Hwf Hm. eapply (mirrors_agrees _ db db _ []); [done|exact Hm|]. by rewrite app_nil_r.
Qed.

Lemma refresh_all g db ds :
  db_wf db → (∀ d, doc_ready g db d) →
  (∀ d, d ∈ ds → doc_mirrors (foldl (refresh_doc db) g ds) db d) ∧
  (∀ d, doc_ready (foldl (refresh_doc db) g ds) db d).
Proof.
  intros Hwf. revert g. induction ds as [|x ds IH] using rev_ind; intros g Hr; simpl.
  { split; [|done]. by intros d ?%not_elem_of_nil. }
  rewrite foldl_app. simpl. destruct (IH g Hr) as [IHm IHr]. clear IH.
  pose proof (refresh_doc_mirrors _ db x (IHr x)) as Hx. split.
  - intros d [Hd|Hd]%elem_of_app; [|apply list_elem_of_singleton in Hd as ->; done].
    destruct (decide (x = d)) as [<-|Hne]; [done|].
    unfold doc_mirrors. rewrite refresh_doc_other by done. by apply IHm.
  - intros d. destruct (decide (x = d)) as [<-|Hne].
    + split; [by eapply mirrors_coherent|by apply mirrors_agrees_self].
    + unfold doc_ready. rewrite refresh_doc_other by done. apply IHr.
Qed.

Lemma doc_ensure_doc g d d' : doc (ensure_doc g d) d' = doc g d'.
Proof.
  unfold doc, ensure_doc. simpl. rewrite find_emplace.
  destruct (find d' (by_doc_ g)); [done|]. by case_if.
Qed.

Lemma doc_ensure_all g ds d : doc (foldl ensure_doc g ds) d = doc g d.
Proof.
  revert g. induction ds as [|x ds IH]; intros g; simpl; [done|]. by rewrite IH, doc_ensure_doc.
Qed.

Lemma known_ensure_all g ds d :
  contains d (known_docs_ (foldl ensure_doc g ds)) = true ↔
  d ∈ ds ∨ contains d (known_docs_ g) = true.
Proof.
  revert g. induction ds as [|x ds IH]; intros g; simpl; [rewrite elem_of_nil; tauto|].
  rewrite IH, elem_of_cons. unfold ensure_doc. simpl. rewrite !contains_true, find_emplace.
  destruct (find d (known_docs_ g)) as [[]|]; [naive_solver|]. case_if.
  - apply keqb_true in Ec as ->. naive_solver.
  - apply keqb_false in Ec. naive_solver.
Qed.

Lemma contains_keys {V} (d : txt) (m : smap txt V) : contains d m = true ↔ d ∈ keys m.
Proof.
  rewrite contains_true, <- not_eq_None_Some. rewrite find_None_keys.
  destruct (decide (d ∈ keys m)); tauto.
Qed.

(** ** Coherence without assumptions on the database *)

Lemma prefix_unchanged_versions ops fresh :
  prefix_unchanged ops fresh = true →
  co_version <$> ops = co_version <$> take (length ops) fresh.
Proof.
  revert fresh. induction ops as [|o ops IH]; intros [|f fresh] Hp; simpl in *; try done.
  apply andb_true_iff in Hp as [Hid Hp]. f_equal; [|by apply IH].
  unfold same_id in Hid. by bsimp.
Qed.

Lemma last_version_fmap ops ops' :
  co_version <$> ops = co_version <$> ops' → last_version ops = last_version ops'.
Proof.
  intros H. apply (f_equal last) in H. rewrite !fmap_last in H. unfold last_version.
  destruct (last ops), (last ops'); simpl in H; by simplify_eq.
Qed.

Lemma strip_versions ops : co_version <$> strip ops = co_version <$> ops.
Proof. unfold strip. by rewrite <- list_fmap_compose. Qed.

Lemma refresh_coherent c db doc_id : coherent c → coherent (refresh_ops_from_db c db doc_id).
Proof.
  intros [Ht Hv]. unfold refresh_ops_from_db. set (fresh := read_ops db doc_id).
  change (match last fresh with Some f => co_version f | None => 0 end) with (last_version fresh).
  case_if; [by case_if; split|].
  destruct ((_ <=? _)%nat && _) eqn:Ep.
  - apply andb_true_iff in Ep as [Hlen Hp]. apply prefix_unchanged_versions in Hp.
    pose proof (append_loop (client_labels_ c) (ops_ c) (text_ c) (drop (length (ops_ c)) fresh)) as Hl.
    destruct (foldl _ _ _) as [ops text]. destruct Hl as [Ho Hx].
    assert (Hlast : last_version ops = last_version fresh).
    { apply last_version_fmap. rewrite <- strip_versions, Ho, fmap_app, !strip_versions, Hp.
      by rewrite <- fmap_app, take_drop. }
    assert (Htext : text = reconstruct ops).
    { rewrite <- reconstruct_strip, Ho, <- strip_app, reconstruct_strip. unfold reconstruct.
      rewrite foldl_app, Hx, Ht. done. }
    case_if; split; simpl; try done. congruence.
  - split; simpl; [done|]. symmetry. apply last_version_fmap.
    by rewrite <- strip_versions, relabel_strip, strip_versions.
Qed.

Lemma note_client_label_coherent s h l : coherent s → coherent (note_client_label s h l).
Proof.
  intros [Ht Hv]. unfold note_client_label. case_if; [done|].
  match goal with |- context [?f <$> ops_ s] =>
    assert (Hs : strip (f <$> ops_ s) = strip (ops_ s)) end.
  { unfold strip. rewrite <- list_fmap_compose. apply list_fmap_ext. intros _ o _. simpl.
    by case_if. }
  split; simpl.
  - rewrite Ht. symmetry. by apply reconstruct_strip_eq.
  - rewrite Hv. symmetry. by apply last_strip_version.
Qed.

(** What happens to the cache of one document. *)
Inductive cache_event :=
  | poll_event (db : pancydb)
  | note_event (c : committed_op)
  | label_event (cid_hash : Z) (label : txt).

Definition cache_step (doc_id : txt) (c : per_doc_cache) (e : cache_event) : per_doc_cache :=
  match e with
  | poll_event db => refresh_cursors_from_db (refresh_ops_from_db c db doc_id) db doc_id
  | note_event o => note_committed c o
  | label_event h l => note_client_label c h l
  end.

Lemma cache_step_coherent d c e : coherent c → coherent (cache_step d c e).
Proof.
  intros H. destruct e; simpl.
  - destruct (refresh_cursors_ops (refresh_ops_from_db c db d) db d) as (Ho & Ht & Hv).
    destruct (refresh_coherent c db d H) as [Ht' Hv']. split; congruence.
  - by apply note_committed_coherent.
  - by apply note_client_label_coherent.
Qed.

(** * Properties *)

(** Whatever sequence of polls (against any databases), commits and labels a
    document's cache goes through, its text is the replay of its operations and
    its version that of the last one. *)
Theorem cache_always_coherent (doc_id : txt) (events : list cache_event) :
  let c := foldl (cache_step doc_id) empty_cache events in
  text_ c = reconstruct (ops_ c) ∧ version_ c = last_version (ops_ c).
Proof.
  intros c. cut (coherent c); [by intros []|]. subst c.
  induction events as [|e events IH] using rev_ind; [done|].
  rewrite foldl_app. by apply cache_step_coherent.
Qed.

(** C28 After a tick of the poller every document of the registry and every
    document known before mirrors the database: same operations (up to
    labels), same text, same version.  The caches before the tick must be
    coherent and agree with the database as far as versions name one operation
    ([agrees]), as they do after a poll or a commit. *)
Theorem poll_tick_mirrors (g : server_cache_state) (db : pancydb) (d : txt) :
  db_wf db →
  (∀ d, coherent (doc g d) ∧ agrees (ops_ (doc g d)) (read_ops db d)) →
  (contains d (known_docs_ g) = true ∨
   ∃ v, get db kDocsRegistryKey = Some v ∧ contains d (parse_docs_registry (vv_value v)) = true) →
  mirrors (doc (poll_tick g db) d) db d.
Proof.
  intros Hwf Hr Hk. unfold poll_tick.
  set (g' := match get db kDocsRegistryKey with Some _ => _ | None => _ end).
  assert (Hr' : ∀ x, doc_ready g' db x).
  { intros x. unfold doc_ready, g'. destruct (get db _); [|apply Hr].
    rewrite doc_ensure_all. apply Hr. }
  apply (refresh_all g' db (keys (known_docs_ g')) Hwf Hr'). apply contains_keys. unfold g'.
  destruct Hk as [Hk|(v & -> & Hk)].
  - destruct (get db _); [|done]. apply known_ensure_all. by right.
  - apply known_ensure_all. left. by apply contains_keys.
Qed.

Lemma poll_tick_mirrors_witness :
  let db := put (put empty_db kDocsRegistryKey (docs_registry_json [($"main", tt)]))
              (op_key $"main" 3 0) (serialize (insert_op 0 $"hi")) in
  text_ (doc (poll_tick (mk_server_cache_state [] [] 0) db) $"main") = $"hi".
Proof.
  intros db. eapply (poll_tick_mirrors (mk_server_cache_state [] [] 0) db $"main").
  - apply put_wf, put_wf, empty_db_wf.
  - intros d. apply empty_cache_ready.
  - right. eexists. split; [by vm_compute|by vm_compute].
Defined.

(** A commit reaches the cache twice, through the handler that submitted it
    and through the poller.  In either order the cache ends mirroring the
    database, and the poll after the note changes nothing. *)
Theorem note_committed_race (db db' : pancydb) (doc_id : txt) (s : per_doc_cache) (c : committed_op) :
  db_wf db' → mirrors s db doc_id →
  read_ops db' doc_id = read_ops db doc_id ++ [unlabelled c] →
  Forall (λ o, ¬ same_client_seq o c) (read_ops db doc_id) →
  version_ s < co_version c →
  mirrors (note_committed s c) db' doc_id ∧
  refresh_ops_from_db (note_committed s c) db' doc_id = note_committed s c ∧
  mirrors (note_committed (refresh_ops_from_db s db' doc_id) c) db' doc_id.
Proof.
  intros Hwf Hm Hr Hno Hlt. pose proof (proj1 Hm) as Ho.
  assert (Hno' : Forall (λ o, ¬ same_client_seq o c) (ops_ s)) by (by rewrite <- strip_no_client_seq, Ho).
  pose proof (note_fresh s c db db' doc_id Hm Hno' Hlt Hr) as Hn.
  split; [done|]. split; [by apply refresh_up_to_date|].
  assert (Hm' : mirrors (refresh_ops_from_db s db' doc_id) db' doc_id).
  { apply refresh_mirrors; [by eapply mirrors_coherent|]. by eapply mirrors_agrees. }
  apply note_known; [done|]. intros H. destruct Hm' as [Ho' _].
  rewrite <- strip_no_client_seq, Ho', Hr in H. apply Forall_app in H as [_ H].
  inv H. apply H2. by split.
Qed.

Lemma note_committed_race_witness :
  let db' := put empty_db (op_key $"main" 3 0) (serialize (insert_op 0 $"hi")) in
  let c := mk_committed_op 1 3 0 (insert_op 0 $"hi") $"alice" in
  mirrors (note_committed empty_cache c) db' $"main".
Proof.
  intros db' c. eapply (note_committed_race empty_db db' $"main" empty_cache c).
  - apply put_wf, empty_db_wf.
  - by split_and!.
  - by vm_compute.
  - constructor.
  - done.
Defined.

(** A stream that scans a cache whose operations grow at the end emits every
    operation newer than where it resumed exactly once, in version order,
    however the growth is cut into passes. *)
Theorem stream_exactly_once (snaps : list (list committed_op)) (final : list committed_op) (resume_from : Z) :
  last snaps = Some final → Sorted grows snaps → StronglySorted version_lt (strip final) →
  strip (stream_run snaps resume_from) = filter (newer resume_from) (strip final).
Proof.
  intros Hl Hg Hs. destruct snaps as [|ops snaps]; [done|]. by apply stream_run_strip.
Qed.

Lemma stream_exactly_once_witness :
  let a := mk_committed_op 4 1 0 (insert_op 0 $"a") [] in
  let b := mk_committed_op 7 2 0 (insert_op 0 $"b") [] in
  stream_run [[a]; [a]; [a; b]] 0 = [a; b].
Proof.
  intros a b. change (stream_run [[a]; [a]; [a; b]] 0) with (strip (stream_run [[a]; [a]; [a; b]] 0)).
  etransitivity; [apply (stream_exactly_once [[a]; [a]; [a; b]] [a; b] 0)|by vm_compute].
  - done.
  - constructor; [constructor; [constructor; constructor|constructor; by exists [b]]|].
    constructor. by exists [].
  - repeat constructor.
Defined.

(** When two commits are noted out of version order the later scan loses
    one: after version 2 was noted and streamed, the poller rebuilds the cache
    with version 1 in front, and no pass emits it, although the document text
    holds it. *)
Theorem stream_misses_late_op :
  let db := put (put empty_db (op_key $"d" 1 0) (serialize (insert_op 0 $"a")))
              (op_key $"d" 2 0) (serialize (insert_op 0 $"b")) in
  let late := note_committed empty_cache (mk_committed_op 2 2 0 (insert_op 0 $"b") $"bob") in
  let noted := note_committed late (mk_committed_op 1 1 0 (insert_op 0 $"a") $"ann") in
  let polled := refresh_ops_from_db noted db $"d" in
  co_version <$> stream_run [ops_ late; ops_ noted; ops_ polled] 0 = [2] ∧
  co_version <$> ops_ polled = [1; 2] ∧ text_ polled = $"ba".
Proof. by vm_compute. Qed.
