(* ===== verification/PaxosReplica.v ===== *)
(** One Paxos replica, [src/pset4/pt-paxos.cc]: the messages, the state of
    [pt_paxos_replica], and its handlers.

    A handler is a function from the state to the new state and the messages
    it sends, in order.  [run] awaits every handler before it receives again,
    and nothing else writes to a replica's fields, so a handler is one step
    however the runtime interleaves coroutines.

    The random source and the clock are inputs: [randomness_] is the list of
    the election timeouts the source will still draw for this replica, [now]
    the value of [steady_now()].  Rounds and slots are [uint64_t] counters that
    start near 0 and advance by one per event; the model writes them as
    unbounded integers.  No subtraction on them goes below 0 on a well-formed
    replica ([replica_wf] below). *)

From S2P Require Import Prelude SMap Text PancyDb.

(** * Messages *)

Record log_entry := mk_log_entry { le_slot : Z; le_round : Z; le_req : request }.

#[export] Instance log_entry_eq_dec : EqDecision log_entry.
Proof. solve_decision. Defined.

Record probe_message := mk_probe {
  pb_round : Z; pb_leader : nat; pb_last_log_index : Z; pb_last_log_round : Z }.

Record prepare_message := mk_prepare { pp_round : Z; pp_server : nat; pp_promised : bool }.

Record propose_message := mk_propose {
  ps_round : Z; ps_leader : nat;
  ps_prev_log_index : Z; ps_prev_log_round : Z;
  ps_decide_through : Z; ps_trim_through : Z;
  ps_entries : list log_entry }.

Record ack_message := mk_ack {
  ak_round : Z; ak_server : nat; ak_success : bool; ak_match_index : Z; ak_next_index : Z }.

Inductive paxos_message :=
  | Probe (m : probe_message)
  | Prepare (m : prepare_message)
  | Propose (m : propose_message)
  | Ack (m : ack_message).

#[export] Instance probe_eq_dec : EqDecision probe_message.
Proof. solve_decision. Defined.
#[export] Instance prepare_eq_dec : EqDecision prepare_message.
Proof. solve_decision. Defined.
#[export] Instance propose_eq_dec : EqDecision propose_message.
Proof. solve_decision. Defined.
#[export] Instance ack_eq_dec : EqDecision ack_message.
Proof. solve_decision. Defined.
#[export] Instance paxos_message_eq_dec : EqDecision paxos_message.
Proof. solve_decision. Defined.

(** What a handler sends: a message on the channel to a replica, or a response
    on the channel to the clients. *)
Inductive output :=
  | to_replica (dst : nat) (m : paxos_message)
  | to_client (resp : response).

Inductive replica_role := follower | candidate | leader.

#[export] Instance replica_role_eq_dec : EqDecision replica_role.
Proof. solve_decision. Defined.

(** * State *)

Record pt_paxos_replica := mk_replica {
  index_ : nat;
  nreplicas_ : nat;
  leader_index_ : nat;
  rdb_ : pancydb;
  randomness_ : list Z;
  role_ : replica_role;
  current_round_ : Z;
  promised_leader_ : option nat;
  prepare_ok_ : list bool;
  log_ : smap Z log_entry;
  next_slot_ : Z;
  commit_index_ : Z;
  last_applied_ : Z;
  trim_through_ : Z;
  trim_round_ : Z;
  match_index_ : list Z;
  next_index_ : list Z;
  response_cache_ : gmap Z response;
  pending_clients_ : gmap Z Z;
  pending_client_requests_ : list request;
  pending_client_serials_ : gset Z;
  client_batch_deadline_ : option Z;
  election_timeout_ : Z;
}.

Definition set_leader_index_ (x : nat) (r : pt_paxos_replica) : pt_paxos_replica :=
  mk_replica (index_ r) (nreplicas_ r) x (rdb_ r) (randomness_ r) (role_ r) (current_round_ r)
    (promised_leader_ r) (prepare_ok_ r) (log_ r) (next_slot_ r) (commit_index_ r)
    (last_applied_ r) (trim_through_ r) (trim_round_ r) (match_index_ r) (next_index_ r)
    (response_cache_ r) (pending_clients_ r) (pending_client_requests_ r)
    (pending_client_serials_ r) (client_batch_deadline_ r) (election_timeout_ r).
Definition set_rdb_ (x : pancydb) (r : pt_paxos_replica) : pt_paxos_replica :=
  mk_replica (index_ r) (nreplicas_ r) (leader_index_ r) x (randomness_ r) (role_ r) (current_round_ r)
    (promised_leader_ r) (prepare_ok_ r) (log_ r) (next_slot_ r) (commit_index_ r)
    (last_applied_ r) (trim_through_ r) (trim_round_ r) (match_index_ r) (next_index_ r)
    (response_cache_ r) (pending_clients_ r) (pending_client_requests_ r)
    (pending_client_serials_ r) (client_batch_deadline_ r) (election_timeout_ r).
Definition set_randomness_ (x : list Z) (r : pt_paxos_replica) : pt_paxos_replica :=
  mk_replica (index_ r) (nreplicas_ r) (leader_index_ r) (rdb_ r) x (role_ r) (current_round_ r)
    (promised_leader_ r) (prepare_ok_ r) (log_ r) (next_slot_ r) (commit_index_ r)
    (last_applied_ r) (trim_through_ r) (trim_round_ r) (match_index_ r) (next_index_ r)
    (response_cache_ r) (pending_clients_ r) (pending_client_requests_ r)
    (pending_client_serials_ r) (client_batch_deadline_ r) (election_timeout_ r).
Definition set_role_ (x : replica_role) (r : pt_paxos_replica) : pt_paxos_replica :=
  mk_replica (index_ r) (nreplicas_ r) (leader_index_ r) (rdb_ r) (randomness_ r) x (current_round_ r)
    (promised_leader_ r) (prepare_ok_ r) (log_ r) (next_slot_ r) (commit_index_ r)
    (last_applied_ r) (trim_through_ r) (trim_round_ r) (match_index_ r) (next_index_ r)
    (response_cache_ r) (pending_clients_ r) (pending_client_requests_ r)
    (pending_client_serials_ r) (client_batch_deadline_ r) (election_timeout_ r).
Definition set_current_round_ (x : Z) (r : pt_paxos_replica) : pt_paxos_replica :=
  mk_replica (index_ r) (nreplicas_ r) (leader_index_ r) (rdb_ r) (randomness_ r) (role_ r) x
    (promised_leader_ r) (prepare_ok_ r) (log_ r) (next_slot_ r) (commit_index_ r)
    (last_applied_ r) (trim_through_ r) (trim_round_ r) (match_index_ r) (next_index_ r)
    (response_cache_ r) (pending_clients_ r) (pending_client_requests_ r)
    (pending_client_serials_ r) (client_batch_deadline_ r) (election_timeout_ r).
Definition set_promised_leader_ (x : option nat) (r : pt_paxos_replica) : pt_paxos_replica :=
  mk_replica (index_ r) (nreplicas_ r) (leader_index_ r) (rdb_ r) (randomness_ r) (role_ r)
    (current_round_ r) x (prepare_ok_ r) (log_ r) (next_slot_ r) (commit_index_ r)
    (last_applied_ r) (trim_through_ r) (trim_round_ r) (match_index_ r) (next_index_ r)
    (response_cache_ r) (pending_clients_ r) (pending_client_requests_ r)
    (pending_client_serials_ r) (client_batch_deadline_ r) (election_timeout_ r).
Definition set_prepare_ok_ (x : list bool) (r : pt_paxos_replica) : pt_paxos_replica :=
  mk_replica (index_ r) (nreplicas_ r) (leader_index_ r) (rdb_ r) (randomness_ r) (role_ r)
    (current_round_ r) (promised_leader_ r) x (log_ r) (next_slot_ r) (commit_index_ r)
    (last_applied_ r) (trim_through_ r) (trim_round_ r) (match_index_ r) (next_index_ r)
    (response_cache_ r) (pending_clients_ r) (pending_client_requests_ r)
    (pending_client_serials_ r) (client_batch_deadline_ r) (election_timeout_ r).
Definition set_log_ (x : smap Z log_entry) (r : pt_paxos_replica) : pt_paxos_replica :=
  mk_replica (index_ r) (nreplicas_ r) (leader_index_ r) (rdb_ r) (randomness_ r) (role_ r)
    (current_round_ r) (promised_leader_ r) (prepare_ok_ r) x (next_slot_ r)
    (commit_index_ r) (last_applied_ r) (trim_through_ r) (trim_round_ r) (match_index_ r)
    (next_index_ r) (response_cache_ r) (pending_clients_ r) (pending_client_requests_ r)
    (pending_client_serials_ r) (client_batch_deadline_ r) (election_timeout_ r).
Definition set_next_slot_ (x : Z) (r : pt_paxos_replica) : pt_paxos_replica :=
  mk_replica (index_ r) (nreplicas_ r) (leader_index_ r) (rdb_ r) (randomness_ r) (role_ r)
    (current_round_ r) (promised_leader_ r) (prepare_ok_ r) (log_ r) x (commit_index_ r)
    (last_applied_ r) (trim_through_ r) (trim_round_ r) (match_index_ r) (next_index_ r)
    (response_cache_ r) (pending_clients_ r) (pending_client_requests_ r)
    (pending_client_serials_ r) (client_batch_deadline_ r) (election_timeout_ r).
Definition set_commit_index_ (x : Z) (r : pt_paxos_replica) : pt_paxos_replica :=
  mk_replica (index_ r) (nreplicas_ r) (leader_index_ r) (rdb_ r) (randomness_ r) (role_ r)
    (current_round_ r) (promised_leader_ r) (prepare_ok_ r) (log_ r) (next_slot_ r) x
    (last_applied_ r) (trim_through_ r) (trim_round_ r) (match_index_ r) (next_index_ r)
    (response_cache_ r) (pending_clients_ r) (pending_client_requests_ r)
    (pending_client_serials_ r) (client_batch_deadline_ r) (election_timeout_ r).
Definition set_last_applied_ (x : Z) (r : pt_paxos_replica) : pt_paxos_replica :=
  mk_replica (index_ r) (nreplicas_ r) (leader_index_ r) (rdb_ r) (randomness_ r) (role_ r)
    (current_round_ r) (promised_leader_ r) (prepare_ok_ r) (log_ r) (next_slot_ r)
    (commit_index_ r) x (trim_through_ r) (trim_round_ r) (match_index_ r) (next_index_ r)
    (response_cache_ r) (pending_clients_ r) (pending_client_requests_ r)
    (pending_client_serials_ r) (client_batch_deadline_ r) (election_timeout_ r).
Definition set_trim_through_ (x : Z) (r : pt_paxos_replica) : pt_paxos_replica :=
  mk_replica (index_ r) (nreplicas_ r) (leader_index_ r) (rdb_ r) (randomness_ r) (role_ r)
    (current_round_ r) (promised_leader_ r) (prepare_ok_ r) (log_ r) (next_slot_ r)
    (commit_index_ r) (last_applied_ r) x (trim_round_ r) (match_index_ r) (next_index_ r)
    (response_cache_ r) (pending_clients_ r) (pending_client_requests_ r)
    (pending_client_serials_ r) (client_batch_deadline_ r) (election_timeout_ r).
Definition set_trim_round_ (x : Z) (r : pt_paxos_replica) : pt_paxos_replica :=
  mk_replica (index_ r) (nreplicas_ r) (leader_index_ r) (rdb_ r) (randomness_ r) (role_ r)
    (current_round_ r) (promised_leader_ r) (prepare_ok_ r) (log_ r) (next_slot_ r)
    (commit_index_ r) (last_applied_ r) (trim_through_ r) x (match_index_ r)
    (next_index_ r) (response_cache_ r) (pending_clients_ r) (pending_client_requests_ r)
    (pending_client_serials_ r) (client_batch_deadline_ r) (election_timeout_ r).
Definition set_match_index_ (x : list Z) (r : pt_paxos_replica) : pt_paxos_replica :=
  mk_replica (index_ r) (nreplicas_ r) (leader_index_ r) (rdb_ r) (randomness_ r) (role_ r)
    (current_round_ r) (promised_leader_ r) (prepare_ok_ r) (log_ r) (next_slot_ r)
    (commit_index_ r) (last_applied_ r) (trim_through_ r) (trim_round_ r) x
    (next_index_ r) (response_cache_ r) (pending_clients_ r) (pending_client_requests_ r)
    (pending_client_serials_ r) (client_batch_deadline_ r) (election_timeout_ r).
Definition set_next_index_ (x : list Z) (r : pt_paxos_replica) : pt_paxos_replica :=
  mk_replica (index_ r) (nreplicas_ r) (leader_index_ r) (rdb_ r) (randomness_ r) (role_ r)
    (current_round_ r) (promised_leader_ r) (prepare_ok_ r) (log_ r) (next_slot_ r)
    (commit_index_ r) (last_applied_ r) (trim_through_ r) (trim_round_ r) (match_index_ r)
    x (response_cache_ r) (pending_clients_ r) (pending_client_requests_ r)
    (pending_client_serials_ r) (client_batch_deadline_ r) (election_timeout_ r).
Definition set_response_cache_ (x : gmap Z response) (r : pt_paxos_replica) : pt_paxos_replica :=
  mk_replica (index_ r) (nreplicas_ r) (leader_index_ r) (rdb_ r) (randomness_ r) (role_ r)
    (current_round_ r) (promised_leader_ r) (prepare_ok_ r) (log_ r) (next_slot_ r)
    (commit_index_ r) (last_applied_ r) (trim_through_ r) (trim_round_ r) (match_index_ r)
    (next_index_ r) x (pending_clients_ r) (pending_client_requests_ r)
    (pending_client_serials_ r) (client_batch_deadline_ r) (election_timeout_ r).
Definition set_pending_clients_ (x : gmap Z Z) (r : pt_paxos_replica) : pt_paxos_replica :=
  mk_replica (index_ r) (nreplicas_ r) (leader_index_ r) (rdb_ r) (randomness_ r) (role_ r)
    (current_round_ r) (promised_leader_ r) (prepare_ok_ r) (log_ r) (next_slot_ r)
    (commit_index_ r) (last_applied_ r) (trim_through_ r) (trim_round_ r) (match_index_ r)
    (next_index_ r) (response_cache_ r) x (pending_client_requests_ r)
    (pending_client_serials_ r) (client_batch_deadline_ r) (election_timeout_ r).
Definition set_pending_client_requests_ (x : list request) (r : pt_paxos_replica) : pt_paxos_replica :=
  mk_replica (index_ r) (nreplicas_ r) (leader_index_ r) (rdb_ r) (randomness_ r) (role_ r)
    (current_round_ r) (promised_leader_ r) (prepare_ok_ r) (log_ r) (next_slot_ r)
    (commit_index_ r) (last_applied_ r) (trim_through_ r) (trim_round_ r) (match_index_ r)
    (next_index_ r) (response_cache_ r) (pending_clients_ r) x (pending_client_serials_ r)
    (client_batch_deadline_ r) (election_timeout_ r).
Definition set_pending_client_serials_ (x : gset Z) (r : pt_paxos_replica) : pt_paxos_replica :=
  mk_replica (index_ r) (nreplicas_ r) (leader_index_ r) (rdb_ r) (randomness_ r) (role_ r)
    (current_round_ r) (promised_leader_ r) (prepare_ok_ r) (log_ r) (next_slot_ r)
    (commit_index_ r) (last_applied_ r) (trim_through_ r) (trim_round_ r) (match_index_ r)
    (next_index_ r) (response_cache_ r) (pending_clients_ r) (pending_client_requests_ r)
    x (client_batch_deadline_ r) (election_timeout_ r).
Definition set_client_batch_deadline_ (x : option Z) (r : pt_paxos_replica) : pt_paxos_replica :=
  mk_replica (index_ r) (nreplicas_ r) (leader_index_ r) (rdb_ r) (randomness_ r) (role_ r)
    (current_round_ r) (promised_leader_ r) (prepare_ok_ r) (log_ r) (next_slot_ r)
    (commit_index_ r) (last_applied_ r) (trim_through_ r) (trim_round_ r) (match_index_ r)
    (next_index_ r) (response_cache_ r) (pending_clients_ r) (pending_client_requests_ r)
    (pending_client_serials_ r) x (election_timeout_ r).
Definition set_election_timeout_ (x : Z) (r : pt_paxos_replica) : pt_paxos_replica :=
  mk_replica (index_ r) (nreplicas_ r) (leader_index_ r) (rdb_ r) (randomness_ r) (role_ r)
    (current_round_ r) (promised_leader_ r) (prepare_ok_ r) (log_ r) (next_slot_ r)
    (commit_index_ r) (last_applied_ r) (trim_through_ r) (trim_round_ r) (match_index_ r)
    (next_index_ r) (response_cache_ r) (pending_clients_ r) (pending_client_requests_ r)
    (pending_client_serials_ r) (client_batch_deadline_ r) x.

Definition heartbeat_interval_ : Z := 50000000.
Definition client_batch_window_ : Z := 5000000.
Definition append_batch_size_ : nat := 16.
Definition trim_retention_ : Z := 256.

(** Reading a per-replica vector. *)
Definition at_ (l : list Z) (s : nat) : Z := default 0 (l !! s).
Definition is_ok (l : list bool) (s : nat) : bool := default false (l !! s).

Definition is_leader (r : pt_paxos_replica) : bool := bool_decide (role_ r = leader).
Definition is_candidate (r : pt_paxos_replica) : bool := bool_decide (role_ r = candidate).

(** Handlers compose: the state threads through, the sends concatenate. *)
Definition step_result := (pt_paxos_replica * list output)%type.
Definition and_then (p : step_result) (f : pt_paxos_replica → step_result) : step_result :=
  let q := f p.1 in (q.1, p.2 ++ q.2).
Definition pure_ (f : pt_paxos_replica → pt_paxos_replica) (r : pt_paxos_replica) : step_result :=
  (f r, []).
Notation "p ;> f" := (and_then p f) (at level 61, f at level 60, left associativity) : draft_scope.

(** * Queries *)

Definition quorum_size (r : pt_paxos_replica) : nat := (nreplicas_ r / 2 + 1)%nat.
Definition has_quorum (r : pt_paxos_replica) (n : nat) : bool := (quorum_size r <=? n)%nat.
Definition last_log_index (r : pt_paxos_replica) : Z := next_slot_ r - 1.

Definition round_at (r : pt_paxos_replica) (slot : Z) : Z :=
  if slot =? 0 then 0
  else if slot =? trim_through_ r then trim_round_ r
  else match find slot (log_ r) with Some e => le_round e | None => 0 end.

Definition last_log_round (r : pt_paxos_replica) : Z := round_at r (last_log_index r).

Definition leader_is_up_to_date (r : pt_paxos_replica) (index round : Z) : bool :=
  if negb (round =? last_log_round r) then last_log_round r <? round
  else last_log_index r <=? index.

Definition prefix_matches (r : pt_paxos_replica) (prev_log_index prev_log_round : Z) : bool :=
  if prev_log_index =? 0 then trim_through_ r =? 0
  else if prev_log_index <? trim_through_ r then false
  else if prev_log_index =? trim_through_ r then prev_log_round =? trim_round_ r
  else match find prev_log_index (log_ r) with
       | Some e => le_round e =? prev_log_round
       | None => false
       end.

(** * State changes without sends *)

(** [uniform(200ms, 350ms)]: the next draw. *)
Definition random_election_timeout (r : pt_paxos_replica) : Z := default 200000000 (head (randomness_ r)).

Definition reset_election_timeout (r : pt_paxos_replica) : pt_paxos_replica :=
  set_randomness_ (tail (randomness_ r)) (set_election_timeout_ (random_election_timeout r) r).

Definition become_follower (round : Z) (leader_hint : nat) (r : pt_paxos_replica) : pt_paxos_replica :=
  let r := if current_round_ r <? round
           then set_promised_leader_ None (set_current_round_ round r) else r in
  let r := set_leader_index_ leader_hint (set_role_ follower r) in
  let r := set_prepare_ok_ (replicate (nreplicas_ r) false) r in
  let r := set_pending_clients_ ∅ r in
  let r := set_pending_client_requests_ [] r in
  let r := set_pending_client_serials_ ∅ r in
  let r := set_client_batch_deadline_ None r in
  reset_election_timeout r.

Definition become_leader (r : pt_paxos_replica) : pt_paxos_replica :=
  let r := set_leader_index_ (index_ r) (set_role_ leader r) in
  let r := set_promised_leader_ (Some (index_ r)) r in
  let r := set_prepare_ok_ (replicate (nreplicas_ r) false) r in
  let r := set_match_index_ (replicate (nreplicas_ r) 0) r in
  let r := set_next_index_ (replicate (nreplicas_ r) (last_log_index r + 1)) r in
  let r := set_match_index_ (<[index_ r := last_log_index r]> (match_index_ r)) r in
  set_next_index_ (<[index_ r := last_log_index r + 1]> (next_index_ r)) r.

(** The loop of [trim_log_prefix] on the log and the boundary round. *)
Fixpoint trim_loop (trim : Z) (log : smap Z log_entry) (round : Z) : smap Z log_entry * Z :=
  match log with
  | [] => ([], round)
  | (slot, e) :: log' => if slot <=? trim then trim_loop trim log' (le_round e) else (log, round)
  end.

Definition trim_log_prefix (r : pt_paxos_replica) : pt_paxos_replica :=
  let '(log, round) := trim_loop (trim_through_ r) (log_ r) (trim_round_ r) in
  set_log_ log (set_trim_round_ round r).

(** How many replicas hold slot [idx], the leader included. *)
Definition replicated (r : pt_paxos_replica) (idx : Z) : nat :=
  S (length (filter (λ s, s ≠ index_ r ∧ idx ≤ at_ (match_index_ r) s) (seq 0 (nreplicas_ r)))).

(** The loop of [update_commit_index]: [n] slots above the commit index are
    left to try, the highest first. *)
Fixpoint commit_loop (r : pt_paxos_replica) (n : nat) : Z :=
  match n with
  | O => commit_index_ r
  | S n' =>
      let idx := commit_index_ r + Z.of_nat n in
      if negb (round_at r idx =? current_round_ r) then commit_loop r n'
      else if has_quorum r (replicated r idx) then idx
      else commit_loop r n'
  end.

Definition update_commit_index (r : pt_paxos_replica) : pt_paxos_replica :=
  if negb (is_leader r) then r
  else set_commit_index_ (commit_loop r (Z.to_nat (last_log_index r - commit_index_ r))) r.

Definition update_trim_watermark (r : pt_paxos_replica) : pt_paxos_replica :=
  if negb (is_leader r) then r
  else
    let min_match := foldl (λ m s, Z.min m (at_ (match_index_ r) s))
                       (at_ (match_index_ r) (index_ r)) (seq 0 (nreplicas_ r)) in
    let min_match := Z.min min_match (commit_index_ r) in
    let target_trim := if trim_retention_ <? min_match then min_match - trim_retention_ else 0 in
    if trim_through_ r <? target_trim
    then trim_log_prefix (set_trim_through_ target_trim r) else r.

(** * Applying committed entries *)

(** Executing one entry against the database, unless its serial was executed
    before. *)
Definition execute (req : request) (r : pt_paxos_replica) : pt_paxos_replica :=
  let serial := message_serial req in
  match response_cache_ r !! serial with
  | Some _ => r
  | None =>
      let '(db, resp) := process_req (rdb_ r) req in
      set_response_cache_ (<[serial := resp]> (response_cache_ r)) (set_rdb_ db r)
  end.

(** Answering the client that waits for [serial] at slot [last_applied_]. *)
Definition answer (serial : Z) (r : pt_paxos_replica) : step_result :=
  if negb (is_leader r) then (r, [])
  else
    match pending_clients_ r !! serial, response_cache_ r !! serial with
    | Some slot, Some resp =>
        if slot =? last_applied_ r then
          (set_pending_client_serials_ (pending_client_serials_ r ∖ {[serial]})
             (set_pending_clients_ (delete serial (pending_clients_ r)) r),
           [to_client resp])
        else (r, [])
    | _, _ => (r, [])
    end.

(** One round of the loop of [apply_committed_entries]. *)
Definition apply_next (r : pt_paxos_replica) : step_result :=
  let r := set_last_applied_ (last_applied_ r + 1) r in
  match find (last_applied_ r) (log_ r) with
  | None => (r, [])
  | Some e => answer (message_serial (le_req e)) (execute (le_req e) r)
  end.

Fixpoint apply_loop (n : nat) (r : pt_paxos_replica) : step_result :=
  match n with
  | O => (r, [])
  | S n' => apply_next r ;> apply_loop n'
  end.

Definition apply_committed_entries (r : pt_paxos_replica) : step_result :=
  apply_loop (Z.to_nat (commit_index_ r - last_applied_ r)) r ;> pure_ trim_log_prefix.

(** * Proposals *)

(** The contiguous entries from slot [expect] on, at most [n]. *)
Fixpoint batch_from (n : nat) (expect : Z) (log : smap Z log_entry) : list log_entry :=
  match n, log with
  | S n', (slot, e) :: log' => if slot =? expect then e :: batch_from n' (expect + 1) log' else []
  | _, _ => []
  end.

Definition send_propose_to (peer : nat) (r : pt_paxos_replica) : step_result :=
  if bool_decide (peer = index_ r) || negb (is_leader r) then (r, [])
  else
    let next := Z.max (at_ (next_index_ r) peer) (trim_through_ r + 1) in
    let r := set_next_index_ (<[peer := next]> (next_index_ r)) r in
    let prev := next - 1 in
    let entries := batch_from append_batch_size_ next (lower_bound next (log_ r)) in
    (r, [to_replica peer (Propose (mk_propose (current_round_ r) (index_ r) prev (round_at r prev)
           (commit_index_ r) (trim_through_ r) entries))]).

Fixpoint propose_to_all (peers : list nat) (r : pt_paxos_replica) : step_result :=
  match peers with
  | [] => (r, [])
  | s :: peers' =>
      (if bool_decide (s = index_ r) then (r, []) else send_propose_to s r) ;> propose_to_all peers'
  end.

Definition broadcast_propose (r : pt_paxos_replica) : step_result :=
  propose_to_all (seq 0 (nreplicas_ r)) r.

(** * Client batches *)

(** Moving the oldest queued request into the log. *)
Definition append_request (r : pt_paxos_replica) : pt_paxos_replica :=
  match pending_client_requests_ r with
  | [] => r
  | req :: rest =>
      let slot := next_slot_ r in
      let r := set_next_slot_ (slot + 1) (set_pending_client_requests_ rest r) in
      let r := set_log_ (emplace slot (mk_log_entry slot (current_round_ r) req) (log_ r)) r in
      match pending_clients_ r !! message_serial req with
      | Some _ => r
      | None => set_pending_clients_ (<[message_serial req := slot]> (pending_clients_ r)) r
      end
  end.

(** One round of the loop of [flush_pending_client_requests]. *)
Definition flush_batch (r : pt_paxos_replica) : step_result :=
  let batch := Nat.min (length (pending_client_requests_ r)) append_batch_size_ in
  let r := Nat.iter batch append_request r in
  let r := set_match_index_ (<[index_ r := last_log_index r]> (match_index_ r)) r in
  let r := set_next_index_ (<[index_ r := last_log_index r + 1]> (next_index_ r)) r in
  broadcast_propose r ;> pure_ update_commit_index ;> apply_committed_entries
    ;> pure_ update_trim_watermark.

(** Every round takes at least one request from the queue, so its length is
    enough fuel ([flush_loop_drains]). *)
Fixpoint flush_loop (fuel : nat) (r : pt_paxos_replica) : step_result :=
  match fuel with
  | O => (r, [])
  | S fuel' =>
      if is_leader r && negb (bool_decide (pending_client_requests_ r = []))
      then flush_batch r ;> flush_loop fuel'
      else (r, [])
  end.

Definition flush_pending_client_requests (now : Z) (r : pt_paxos_replica) : step_result :=
  if negb (is_leader r) || bool_decide (pending_client_requests_ r = [])
  then (set_client_batch_deadline_ None r, [])
  else
    flush_loop (length (pending_client_requests_ r)) r ;> pure_ (λ r,
      if bool_decide (pending_client_requests_ r = [])
      then set_client_batch_deadline_ None r
      else set_client_batch_deadline_ (Some (now + client_batch_window_)) r).

(** * Elections *)

Definition send_probes (msg : probe_message) (r : pt_paxos_replica) : step_result :=
  (r, (λ s, to_replica s (Probe msg)) <$> filter (λ s, s ≠ index_ r) (seq 0 (nreplicas_ r))).

Definition start_probe_round (r : pt_paxos_replica) : step_result :=
  let r := set_current_round_ (current_round_ r + 1) (set_role_ candidate r) in
  let r := set_promised_leader_ (Some (index_ r)) (set_leader_index_ (index_ r) r) in
  let r := set_prepare_ok_ (<[index_ r := true]> (replicate (nreplicas_ r) false)) r in
  let r := reset_election_timeout r in
  let msg := mk_probe (current_round_ r) (index_ r) (last_log_index r) (last_log_round r) in
  send_probes msg r ;> (λ r,
    if has_quorum r 1 then broadcast_propose (become_leader r) else (r, [])).

Definition handle_probe (msg : probe_message) (r : pt_paxos_replica) : step_result :=
  if pb_round msg <? current_round_ r then
    (r, [to_replica (pb_leader msg) (Prepare (mk_prepare (current_round_ r) (index_ r) false))])
  else
    let r := if current_round_ r <? pb_round msg
             then become_follower (pb_round msg) (leader_index_ r) r else r in
    if match promised_leader_ r with None => true | Some p => bool_decide (p = pb_leader msg) end
       && leader_is_up_to_date r (pb_last_log_index msg) (pb_last_log_round msg)
    then
      let r := set_leader_index_ (pb_leader msg) (set_promised_leader_ (Some (pb_leader msg)) r) in
      let r := reset_election_timeout r in
      (r, [to_replica (pb_leader msg) (Prepare (mk_prepare (current_round_ r) (index_ r) true))])
    else
      (r, [to_replica (pb_leader msg) (Prepare (mk_prepare (current_round_ r) (index_ r) false))]).

Definition count_true (l : list bool) : nat := length (filter (λ b, b = true) l).

Definition handle_prepare (msg : prepare_message) (r : pt_paxos_replica) : step_result :=
  if current_round_ r <? pp_round msg then (become_follower (pp_round msg) (leader_index_ r) r, [])
  else if negb (is_candidate r) || negb (pp_round msg =? current_round_ r)
          || negb (pp_promised msg) || is_ok (prepare_ok_ r) (pp_server msg) then (r, [])
  else
    let r := set_prepare_ok_ (<[pp_server msg := true]> (prepare_ok_ r)) r in
    if has_quorum r (count_true (prepare_ok_ r)) then broadcast_propose (become_leader r) else (r, []).

(** * Log replication *)

(** The loop of [handle_propose] over the entries: the state and the highest
    matched slot, or the slot of a conflict with a committed entry. *)
Fixpoint accept_loop (entries : list log_entry) (r : pt_paxos_replica) (match_index : Z) :
    pt_paxos_replica * (Z + Z) :=
  match entries with
  | [] => (r, inl match_index)
  | entry :: entries' =>
      let slot := le_slot entry in
      if slot <=? trim_through_ r then accept_loop entries' r slot
      else
        let conflict := match find slot (log_ r) with
                        | Some e => negb (le_round e =? le_round entry)
                        | None => false
                        end in
        if conflict && (slot <=? commit_index_ r) then (r, inr slot)
        else
          let r := if conflict then set_next_slot_ slot (set_log_ (erase_from slot (log_ r)) r) else r in
          let r := if contains slot (log_ r) then r
                   else set_next_slot_ (Z.max (next_slot_ r) (slot + 1))
                          (set_log_ (emplace slot entry (log_ r)) r) in
          accept_loop entries' r slot
  end.

Definition handle_propose (msg : propose_message) (r : pt_paxos_replica) : step_result :=
  let nack next r :=
    (r, [to_replica (ps_leader msg)
           (Ack (mk_ack (current_round_ r) (index_ r) false (last_log_index r) next))]) in
  if ps_round msg <? current_round_ r then nack (last_log_index r + 1) r
  else
    let r := become_follower (ps_round msg) (ps_leader msg) r in
    if negb (prefix_matches r (ps_prev_log_index msg) (ps_prev_log_round msg)) then
      nack (if trim_through_ r <? ps_prev_log_index msg
            then Z.min (ps_prev_log_index msg) (last_log_index r + 1)
            else trim_through_ r + 1) r
    else
      match accept_loop (ps_entries msg) r (ps_prev_log_index msg) with
      | (r, inr slot) => nack slot r
      | (r, inl match_index) =>
          let r := if commit_index_ r <? ps_decide_through msg
                   then set_commit_index_ (Z.min (ps_decide_through msg) (last_log_index r)) r else r in
          apply_committed_entries r
          ;> pure_ (λ r, if trim_through_ r <? ps_trim_through msg
                         then trim_log_prefix
                                (set_trim_through_ (Z.min (ps_trim_through msg) (last_applied_ r)) r)
                         else r)
          ;> (λ r, (r, [to_replica (ps_leader msg)
                          (Ack (mk_ack (current_round_ r) (index_ r) true match_index (match_index + 1)))]))
      end.

Definition handle_ack (msg : ack_message) (r : pt_paxos_replica) : step_result :=
  if current_round_ r <? ak_round msg then (become_follower (ak_round msg) (leader_index_ r) r, [])
  else if negb (is_leader r) || negb (ak_round msg =? current_round_ r) then (r, [])
  else
    let s := ak_server msg in
    if ak_success msg then
      let r := set_match_index_
                 (<[s := Z.max (at_ (match_index_ r) s) (ak_match_index msg)]> (match_index_ r)) r in
      let r := set_next_index_
                 (<[s := Z.max (at_ (next_index_ r) s) (ak_next_index msg)]> (next_index_ r)) r in
      apply_committed_entries (update_commit_index r)
      ;> pure_ update_trim_watermark
      ;> (λ r, if at_ (next_index_ r) s <=? last_log_index r then send_propose_to s r else (r, []))
    else
      let fallback := if ak_next_index msg =? 0 then 1 else ak_next_index msg in
      let fallback := if at_ (next_index_ r) s <=? fallback
                      then (if 1 <? at_ (next_index_ r) s then at_ (next_index_ r) s - 1 else 1)
                      else fallback in
      send_propose_to s
        (set_next_index_ (<[s := Z.max fallback (trim_through_ r + 1)]> (next_index_ r)) r).

Definition handle_replica_message (msg : paxos_message) (r : pt_paxos_replica) : step_result :=
  match msg with
  | Probe m => handle_probe m r
  | Prepare m => handle_prepare m r
  | Propose m => handle_propose m r
  | Ack m => handle_ack m r
  end.

Definition handle_client_request (now : Z) (req : request) (r : pt_paxos_replica) : step_result :=
  let serial := message_serial req in
  if negb (is_leader r) then
    let target := if is_candidate r then index_ r else leader_index_ r in
    (r, [to_client (redirection_response serial redirect target)])
  else
    match response_cache_ r !! serial with
    | Some resp => (r, [to_client resp])
    | None =>
        if bool_decide (serial ∈ pending_client_serials_ r) then (r, [])
        else
          let r := set_pending_client_serials_ ({[serial]} ∪ pending_client_serials_ r) r in
          let r := set_pending_client_requests_ (pending_client_requests_ r ++ [req]) r in
          let r := match client_batch_deadline_ r with
                   | Some _ => r
                   | None => set_client_batch_deadline_ (Some (now + client_batch_window_)) r
                   end in
          if (append_batch_size_ <=? length (pending_client_requests_ r))%nat
          then flush_pending_client_requests now r else (r, [])
    end.

(** * The main loop *)

(** What [run] wakes up with: a message from either port, or the timer. *)
Inductive wakeup :=
  | client_wakeup (req : request)
  | replica_wakeup (msg : paxos_message)
  | timer_wakeup.

(** A leader with a queued batch whose deadline has passed flushes without
    receiving. *)
Definition batch_due (now : Z) (r : pt_paxos_replica) : bool :=
  is_leader r && negb (bool_decide (pending_client_requests_ r = []))
  && match client_batch_deadline_ r with Some d => d <=? now | None => false end.

(** How long the iteration waits for a message before its timer fires. *)
Definition run_timeout (now : Z) (r : pt_paxos_replica) : Z :=
  if is_leader r then
    match client_batch_deadline_ r with
    | Some d => if bool_decide (pending_client_requests_ r = []) then heartbeat_interval_
                else Z.max (d - now) 0
    | None => heartbeat_interval_
    end
  else election_timeout_ r.

(** One iteration of the loop of [run]. *)
Definition run_iteration (now : Z) (ret : wakeup) (r : pt_paxos_replica) : step_result :=
  if batch_due now r then flush_pending_client_requests now r
  else
    match ret with
    | client_wakeup req => handle_client_request now req r
    | replica_wakeup msg => handle_replica_message msg r
    | timer_wakeup =>
        if is_leader r then
          if negb (bool_decide (pending_client_requests_ r = []))
             && bool_decide (is_Some (client_batch_deadline_ r))
          then flush_pending_client_requests now r
          else broadcast_propose r
        else start_probe_round r
    end.

(** * Construction *)

Definition new_replica (index nreplicas : nat) (draws : list Z) : pt_paxos_replica :=
  reset_election_timeout
    (mk_replica index nreplicas index empty_db draws follower 0 None (replicate nreplicas false)
       [] 1 0 0 0 0 (replicate nreplicas 0) (replicate nreplicas 1) ∅ ∅ [] ∅ None 250000000).

Definition initialize (initial_leader : nat) (r : pt_paxos_replica) : pt_paxos_replica :=
  let r := set_leader_index_ initial_leader r in
  let r := set_role_ (if bool_decide (index_ r = leader_index_ r) then leader else follower) r in
  if is_leader r then become_leader r else r.
