(* ===== verification/PaxosLocal.v ===== *)
(** What one replica guarantees on its own: the well-formedness invariant of
    its log and indices, what each handler changes and what it leaves alone,
    the commit rule, exactly-once application of the log. *)

From S2P Require Import Prelude SMap Text PancyDb PaxosReplica.

(** * Well-formed replicas and messages *)

(** The log holds exactly the slots above the trimmed prefix and below
    [next_slot_], each entry at its own slot; the trimmed prefix is applied,
    what is applied is committed, what is committed is in the log. *)
Record replica_wf (r : pt_paxos_replica) : Prop := {
  rwf_index : (index_ r < nreplicas_ r)%nat;
  rwf_prepare : length (prepare_ok_ r) = nreplicas_ r;
  rwf_match : length (match_index_ r) = nreplicas_ r;
  rwf_next : length (next_index_ r) = nreplicas_ r;
  rwf_sorted : wf (log_ r);
  rwf_slots : ∀ s, is_Some (find s (log_ r)) ↔ trim_through_ r < s < next_slot_ r;
  rwf_entry : ∀ s e, find s (log_ r) = Some e → le_slot e = s;
  rwf_trim : 0 ≤ trim_through_ r ≤ last_applied_ r;
  rwf_applied : last_applied_ r ≤ commit_index_ r;
  rwf_commit : commit_index_ r < next_slot_ r;
}.

(** A batch: the entries have consecutive slots from [first] on. *)
Fixpoint consecutive (first : Z) (entries : list log_entry) : Prop :=
  match entries with
  | [] => True
  | e :: entries' => le_slot e = first ∧ consecutive (first + 1) entries'
  end.

Definition msg_ok (m : paxos_message) : Prop :=
  match m with
  | Propose p => 0 ≤ ps_prev_log_index p ∧ consecutive (ps_prev_log_index p + 1) (ps_entries p)
  | _ => True
  end.

Definition output_ok (o : output) : Prop :=
  match o with to_replica _ m => msg_ok m | to_client _ => True end.

Definition wakeup_ok (w : wakeup) : Prop :=
  match w with replica_wakeup m => msg_ok m | _ => True end.

(** * What the sub-routines change *)

(** Applying entries changes the state machine, the cursor and the waiting
    clients, and nothing else. *)
Definition frame_apply (r r' : pt_paxos_replica) : Prop :=
  ∃ a db rc pc ps,
    r' = set_last_applied_ a (set_rdb_ db (set_response_cache_ rc
           (set_pending_clients_ pc (set_pending_client_serials_ ps r)))).

(** Show a frame by reading the five fields off the result [x]. *)
Ltac frame_with x :=
  exists (last_applied_ x), (rdb_ x), (response_cache_ x), (pending_clients_ x),
    (pending_client_serials_ x).

Lemma frame_apply_refl r : frame_apply r r.
Proof. frame_with r. by destruct r. Qed.

Lemma frame_apply_trans r1 r2 r3 : frame_apply r1 r2 → frame_apply r2 r3 → frame_apply r1 r3.
Proof. intros (?&?&?&?&?&->) (a&db&rc&pc&ps&->). exists a, db, rc, pc, ps. reflexivity. Qed.

(** Sending proposals changes [next_index_] only. *)
Definition frame_next (r r' : pt_paxos_replica) : Prop :=
  ∃ ni, length ni = length (next_index_ r) ∧ r' = set_next_index_ ni r.

Lemma frame_next_refl r : frame_next r r.
Proof. exists (next_index_ r). split; [done|]. by destruct r. Qed.

Lemma frame_next_trans r1 r2 r3 : frame_next r1 r2 → frame_next r2 r3 → frame_next r1 r3.
Proof. intros (ni & H1 & ->) (ni' & H2 & ->). exists ni'. split; [|done]. simpl in H2. congruence. Qed.

#[export] Hint Resolve frame_apply_refl frame_next_refl : draft.

Lemma and_then_fst p f : (p ;> f).1 = (f p.1).1.
Proof. done. Qed.

Lemma bind_ret r f : (r, []) ;> f = f r.
Proof. unfold and_then. simpl. by destruct (f r). Qed.

Lemma and_then_snd p f : (p ;> f).2 = p.2 ++ (f p.1).2.
Proof. done. Qed.

#[export] Hint Rewrite and_then_fst and_then_snd : draft_rw.

Lemma send_propose_frame peer r : frame_next r (send_propose_to peer r).1.
Proof.
  unfold send_propose_to. case_if; [apply frame_next_refl|].
  eexists. split; [|reflexivity]. by rewrite length_insert.
Qed.

Lemma propose_to_all_frame ps r : frame_next r (propose_to_all ps r).1.
Proof.
  revert r. induction ps as [|s ps IH]; intros r; simpl; [apply frame_next_refl|].
  eapply frame_next_trans; [|apply IH]. case_if; [apply frame_next_refl|apply send_propose_frame].
Qed.

Lemma broadcast_frame r : frame_next r (broadcast_propose r).1.
Proof. apply propose_to_all_frame. Qed.

Lemma execute_frame req r : frame_apply r (execute req r).
Proof.
  unfold execute. case_match; [apply frame_apply_refl|]. destruct (process_req _ _).
  match goal with |- frame_apply _ ?x => frame_with x end. by destruct r.
Qed.

Lemma answer_frame serial r : frame_apply r (answer serial r).1.
Proof.
  unfold answer. repeat case_match; simpl; try apply frame_apply_refl.
  match goal with |- frame_apply _ ?x => frame_with x end. by destruct r.
Qed.

Lemma apply_next_frame r : frame_apply r (apply_next r).1.
Proof.
  unfold apply_next. set (r1 := set_last_applied_ _ r).
  assert (H : frame_apply r r1) by (frame_with r1; by destruct r).
  destruct (find _ _); [|done]. eapply frame_apply_trans; [exact H|].
  eapply frame_apply_trans; [apply execute_frame|apply answer_frame].
Qed.

Lemma apply_loop_frame n r : frame_apply r (apply_loop n r).1.
Proof.
  revert r. induction n as [|n IH]; intros r; simpl; [apply frame_apply_refl|].
  eapply frame_apply_trans; [apply apply_next_frame|apply IH].
Qed.

(** ** Application advances one slot per round *)

Lemma execute_applied req r : last_applied_ (execute req r) = last_applied_ r.
Proof. unfold execute. case_match; [done|]. by destruct (process_req _ _). Qed.

Lemma answer_same serial r :
  last_applied_ (answer serial r).1 = last_applied_ r ∧
  rdb_ (answer serial r).1 = rdb_ r ∧ response_cache_ (answer serial r).1 = response_cache_ r.
Proof. unfold answer. by repeat case_match. Qed.

Lemma apply_next_applied r : last_applied_ (apply_next r).1 = last_applied_ r + 1.
Proof.
  unfold apply_next. destruct (find _ _); [|done].
  destruct (answer_same (message_serial (le_req l)) (execute (le_req l)
    (set_last_applied_ (last_applied_ r + 1) r))) as [-> _]. by rewrite execute_applied.
Qed.

Lemma apply_loop_applied n r : last_applied_ (apply_loop n r).1 = last_applied_ r + Z.of_nat n.
Proof.
  revert r. induction n as [|n IH]; intros r; cbn [apply_loop]; [simpl; lia|].
  rewrite and_then_fst, IH, apply_next_applied. lia.
Qed.

(** ** Trimming *)

Lemma trim_loop_spec trim log round :
  wf log →
  wf (trim_loop trim log round).1 ∧
  ∀ s, find s (trim_loop trim log round).1 = if s <=? trim then None else find s log.
Proof.
  revert round. induction log as [|[k e] log IH]; intros round Hwf; simpl.
  { split; [done|]. intros s. by case_if. }
  pose proof Hwf as Hwf'. apply wf_cons in Hwf as [Hwf Hlt]. destruct (k <=? trim) eqn:Ek; bsimp.
  - destruct (IH (le_round e) Hwf) as [H1 H2]. split; [done|]. intros s. rewrite H2. case_if; [done|].
    case_if; [|done]. apply keqb_true in Ec0. lia.
  - split; [done|]. intros s. simpl. destruct (s <=? trim) eqn:Es; bsimp; [|done].
    case_if; [apply keqb_true in Ec; lia|]. apply find_None_keys. intros Hin.
    rewrite Forall_forall in Hlt. apply Hlt in Hin. simpl in Hin. bsimp. lia.
Qed.

Lemma trim_loop_id trim log round :
  Forall (λ k, trim < k) (keys log) → trim_loop trim log round = (log, round).
Proof.
  destruct log as [|[k e] log]; simpl; [done|]. intros H. inv H.
  by assert (k <=? trim = false) as -> by (apply Z.leb_gt; done).
Qed.

Lemma keys_above r : replica_wf r → Forall (λ k, trim_through_ r < k) (keys (log_ r)).
Proof.
  intros Hr. apply Forall_forall. intros k Hk. apply (rwf_slots r Hr).
  destruct (find k (log_ r)) eqn:E; [by eexists|]. by apply find_None_keys in E.
Qed.

(** On a well-formed replica there is nothing left to trim. *)
Lemma trim_log_prefix_id r : replica_wf r → trim_log_prefix r = r.
Proof.
  intros Hr. unfold trim_log_prefix. rewrite trim_loop_id by by apply keys_above. by destruct r.
Qed.

(** * The invariant is kept *)

(** The fields the invariant reads. *)
Definition core (r : pt_paxos_replica) :=
  (index_ r, nreplicas_ r, log_ r, next_slot_ r, commit_index_ r, last_applied_ r, trim_through_ r).

Definition vectors (r : pt_paxos_replica) : list nat :=
  [length (prepare_ok_ r); length (match_index_ r); length (next_index_ r)].

Lemma core_wf r r' :
  core r' = core r → vectors r' = replicate 3 (nreplicas_ r) → replica_wf r → replica_wf r'.
Proof.
  unfold core, vectors. intros [= Hi Hn Hl Hs Hc Ha Ht] [= Hp Hm Hx] [].
  split; rewrite ?Hi, ?Hn, ?Hl, ?Hs, ?Hc, ?Ha, ?Ht; assumption.
Qed.

Lemma wf_vectors r : replica_wf r → vectors r = replicate 3 (nreplicas_ r).
Proof. intros []. unfold vectors. simpl. congruence. Qed.

(** Close [replica_wf] of a state that differs outside [core]. *)
Ltac same_core H :=
  match type of H with replica_wf ?r => apply (core_wf r); [reflexivity| |exact H] end;
  pose proof (rwf_prepare _ H); pose proof (rwf_match _ H); pose proof (rwf_next _ H);
  unfold vectors; simpl; rewrite ?length_insert, ?length_replicate; simpl; congruence.

Lemma frame_next_wf r r' : frame_next r r' → replica_wf r → replica_wf r'.
Proof. intros (ni & Hni & ->) H. same_core H. Qed.

Lemma become_follower_frame round hint r :
  become_follower round hint r =
    set_current_round_ (Z.max (current_round_ r) round)
      (set_promised_leader_ (if current_round_ r <? round then None else promised_leader_ r)
        (set_role_ follower (set_leader_index_ hint
          (set_prepare_ok_ (replicate (nreplicas_ r) false)
            (set_pending_clients_ ∅ (set_pending_client_requests_ [] (set_pending_client_serials_ ∅
              (set_client_batch_deadline_ None (reset_election_timeout r))))))))).
Proof.
  unfold become_follower. case_if.
  - rewrite Z.max_r by lia. reflexivity.
  - rewrite Z.max_l by lia. reflexivity.
Qed.

Lemma become_follower_wf round hint r : replica_wf r → replica_wf (become_follower round hint r).
Proof. intros H. rewrite become_follower_frame. same_core H. Qed.

Lemma become_leader_frame r :
  become_leader r =
    set_role_ leader (set_leader_index_ (index_ r) (set_promised_leader_ (Some (index_ r))
      (set_prepare_ok_ (replicate (nreplicas_ r) false)
        (set_match_index_ (<[index_ r := last_log_index r]> (replicate (nreplicas_ r) 0))
          (set_next_index_
            (<[index_ r := last_log_index r + 1]> (replicate (nreplicas_ r) (last_log_index r + 1)))
            r))))).
Proof. reflexivity. Qed.

Lemma become_leader_wf r : replica_wf r → replica_wf (become_leader r).
Proof. intros H. rewrite become_leader_frame. same_core H. Qed.

Lemma apply_committed_fst r :
  (apply_committed_entries r).1 =
    trim_log_prefix (apply_loop (Z.to_nat (commit_index_ r - last_applied_ r)) r).1.
Proof. done. Qed.

Lemma apply_loop_wf n r :
  replica_wf r → last_applied_ r + Z.of_nat n ≤ commit_index_ r → replica_wf (apply_loop n r).1.
Proof.
  intros Hr Hn. pose proof (apply_loop_applied n r) as Ha.
  destruct (apply_loop_frame n r) as (a & ? & ? & ? & ? & E). rewrite E in Ha |- *. simpl in Ha.
  destruct Hr. split; simpl; try done; lia.
Qed.

(** Applying everything committed, on a well-formed replica. *)
Lemma apply_committed_wf r :
  replica_wf r →
  replica_wf (apply_committed_entries r).1 ∧
  frame_apply r (apply_committed_entries r).1 ∧
  last_applied_ (apply_committed_entries r).1 = commit_index_ r ∧
  (apply_committed_entries r).1 = (apply_loop (Z.to_nat (commit_index_ r - last_applied_ r)) r).1.
Proof.
  intros Hr. rewrite apply_committed_fst. pose proof (rwf_applied r Hr) as Ha.
  set (n := Z.to_nat _). assert (Hw : replica_wf (apply_loop n r).1) by (apply apply_loop_wf; [done|lia]).
  rewrite trim_log_prefix_id by done. split_and!; [done|apply apply_loop_frame| |done].
  rewrite apply_loop_applied. lia.
Qed.

Lemma set_trim_wf t r :
  replica_wf r → trim_through_ r ≤ t ≤ last_applied_ r →
  replica_wf (trim_log_prefix (set_trim_through_ t r)).
Proof.
  intros [] Ht. unfold trim_log_prefix. simpl.
  pose proof (trim_loop_spec t (log_ r) (trim_round_ r) rwf_sorted0) as [Hs Hf].
  destruct (trim_loop _ _ _) as [log round]. simpl in *. split; simpl; try done; try lia.
  - intros s. rewrite Hf. case_if.
    + split; [by intros []|lia].
    + rewrite rwf_slots0. lia.
  - intros s e. rewrite Hf. case_if; [done|]. apply rwf_entry0.
Qed.

Lemma commit_loop_range r n :
  commit_index_ r ≤ commit_loop r n ≤ commit_index_ r + Z.of_nat n.
Proof.
  induction n as [|n IH]; cbn [commit_loop]; [lia|]. repeat case_if; lia.
Qed.

Lemma update_commit_wf r : replica_wf r → replica_wf (update_commit_index r).
Proof.
  intros Hr. unfold update_commit_index. case_if; [done|].
  pose proof (commit_loop_range r (Z.to_nat (last_log_index r - commit_index_ r))).
  destruct Hr. split; simpl; try done; unfold last_log_index in *; lia.
Qed.

(** The minimum the watermark starts from is at most the commit index. *)
Lemma update_trim_wf r :
  replica_wf r → last_applied_ r = commit_index_ r → replica_wf (update_trim_watermark r).
Proof.
  intros Hr Ha. unfold update_trim_watermark. case_if; [done|].
  match goal with |- context [Z.min ?m (commit_index_ r)] => set (mm := Z.min m (commit_index_ r)) end.
  assert (mm ≤ commit_index_ r) by (unfold mm; lia).
  case_if; [|done]. apply set_trim_wf; [done|]. pose proof (rwf_trim r Hr). revert Ec0. unfold trim_retention_. case_if; lia.
Qed.

Lemma find_lower_bound k s (m : smap Z log_entry) :
  wf m → find s (lower_bound k m) = if s <? k then None else find s m.
Proof.
  induction m as [|[k0 v0] m IH]; intros Hwf; [simpl; by case_if|].
  pose proof Hwf as Hwf'. apply wf_cons in Hwf as [Hwf Hlt]. simpl. destruct (k0 <? k) eqn:E; bsimp.
  - rewrite IH by done. case_if; [done|]. case_if; [|done]. apply keqb_true in Ec0. lia.
  - simpl. destruct (s <? k) eqn:Es; bsimp; [|done].
    case_if; [apply keqb_true in Ec; lia|]. apply find_None_keys. intros Hin.
    rewrite Forall_forall in Hlt. apply Hlt in Hin. simpl in Hin. bsimp. lia.
Qed.

Lemma wf_lower_bound k (m : smap Z log_entry) : wf m → wf (lower_bound k m).
Proof.
  induction m as [|[k0 v0] m IH]; intros Hwf; simpl; [done|]. case_if; [|done].
  apply wf_cons in Hwf as [Hwf _]. by apply IH.
Qed.

(** A batch is consecutive when entries sit at their own slots. *)
Lemma batch_from_consecutive n expect log :
  wf log → (∀ s e, find s log = Some e → le_slot e = s) →
  consecutive expect (batch_from n expect log).
Proof.
  revert expect log. induction n as [|n IH]; intros expect [|[k e] log] Hwf He; simpl; try done.
  destruct (k =? expect) eqn:E; bsimp; [|done]. subst. split.
  - apply He. simpl. by rewrite keqb_refl.
  - apply wf_cons in Hwf as [Hwf Hlt]. apply IH; [done|]. intros s x Hx. apply He. simpl.
    case_if; [|done]. apply keqb_true in Ec as ->.
    by rewrite find_lt_None in Hx.
Qed.

Lemma send_propose_ok peer r : replica_wf r → Forall output_ok (send_propose_to peer r).2.
Proof.
  intros Hr. unfold send_propose_to. case_if; [constructor|].
  constructor; [|constructor]. cbn [output_ok msg_ok ps_prev_log_index ps_entries]. split.
  - pose proof (rwf_trim r Hr). lia.
  - match goal with |- consecutive (?n - 1 + 1) _ => replace (n - 1 + 1) with n by lia end.
    apply batch_from_consecutive; [by apply wf_lower_bound, Hr|].
    intros s e. rewrite find_lower_bound by apply Hr. case_if; [done|]. by apply (rwf_entry r Hr).
Qed.

Lemma propose_to_all_ok ps r : replica_wf r → Forall output_ok (propose_to_all ps r).2.
Proof.
  revert r. induction ps as [|s ps IH]; intros r Hr; simpl; [constructor|].
  apply Forall_app. split; [case_if; [constructor|by apply send_propose_ok]|].
  apply IH. case_if; [done|]. eapply frame_next_wf; [apply send_propose_frame|done].
Qed.

Lemma broadcast_ok r :
  replica_wf r → replica_wf (broadcast_propose r).1 ∧ Forall output_ok (broadcast_propose r).2.
Proof.
  intros Hr. split; [|by apply propose_to_all_ok]. eapply frame_next_wf; [apply broadcast_frame|done].
Qed.

(** ** Client batches *)

Lemma append_request_cons r req rest :
  pending_client_requests_ r = req :: rest →
  ∃ pc, append_request r =
    set_next_slot_ (next_slot_ r + 1) (set_pending_client_requests_ rest
      (set_log_ (emplace (next_slot_ r) (mk_log_entry (next_slot_ r) (current_round_ r) req) (log_ r))
        (set_pending_clients_ pc r))).
Proof.
  intros E. unfold append_request. rewrite E. simpl. case_match.
  - by exists (pending_clients_ r).
  - eexists. reflexivity.
Qed.

Lemma find_next_slot r : replica_wf r → find (next_slot_ r) (log_ r) = None.
Proof.
  intros Hr. destruct (find _ _) eqn:E; [|done].
  assert (H : is_Some (find (next_slot_ r) (log_ r))) by by eexists.
  apply (rwf_slots r Hr) in H. lia.
Qed.

(** The new entry goes to the end. *)
Lemma find_append_entry r e s :
  replica_wf r →
  find s (emplace (next_slot_ r) e (log_ r)) =
    if s =? next_slot_ r then Some e else find s (log_ r).
Proof.
  intros Hr. rewrite find_emplace. destruct (s =? next_slot_ r) eqn:E; bsimp.
  - subst. by rewrite find_next_slot, keqb_refl by done.
  - rewrite (proj2 (keqb_false _ _)) by done. by destruct (find s _).
Qed.

Lemma append_request_wf r : replica_wf r → replica_wf (append_request r).
Proof.
  intros Hr. destruct (pending_client_requests_ r) as [|req rest] eqn:E.
  { unfold append_request. by rewrite E. }
  destruct (append_request_cons r req rest E) as [pc ->].
  pose proof (find_append_entry r (mk_log_entry (next_slot_ r) (current_round_ r) req)) as Hf.
  pose proof Hr as Hr'. destruct Hr. split; simpl; try done; try lia.
  - by apply wf_emplace.
  - intros s. rewrite Hf by done. case_if.
    + subst. split; [lia|by eexists].
    + rewrite rwf_slots0. lia.
  - intros s e. rewrite Hf by done. case_if; [by intros [= <-]|]. by apply rwf_entry0.
Qed.

Lemma iter_append_wf n r : replica_wf r → replica_wf (Nat.iter n append_request r).
Proof. intros Hr. induction n as [|n IH]; simpl; [done|]. by apply append_request_wf. Qed.

(** The state [flush_batch] replicates: the batch appended and the leader's own
    indices moved to its end. *)
Definition batched (r : pt_paxos_replica) : pt_paxos_replica :=
  let r := Nat.iter (Nat.min (length (pending_client_requests_ r)) append_batch_size_) append_request r in
  set_next_index_ (<[index_ r := last_log_index r + 1]> (next_index_ r))
    (set_match_index_ (<[index_ r := last_log_index r]> (match_index_ r)) r).

Lemma flush_batch_eq r :
  flush_batch r =
    broadcast_propose (batched r) ;> pure_ update_commit_index ;> apply_committed_entries
      ;> pure_ update_trim_watermark.
Proof. reflexivity. Qed.

Lemma batched_wf r : replica_wf r → replica_wf (batched r).
Proof.
  intros Hr. unfold batched. generalize (iter_append_wf (Nat.min (length (pending_client_requests_ r)) append_batch_size_) r Hr).
  generalize (Nat.iter (Nat.min (length (pending_client_requests_ r)) append_batch_size_) append_request r).
  intros x Hx. same_core Hx.
Qed.

(** Outputs of applying entries go to clients. *)
Lemma answer_ok serial r : Forall output_ok (answer serial r).2.
Proof. unfold answer. repeat case_match; repeat constructor. Qed.

Lemma apply_loop_ok n r : Forall output_ok (apply_loop n r).2.
Proof.
  revert r. induction n as [|n IH]; intros r; simpl; [constructor|]. apply Forall_app. split; [|apply IH].
  unfold apply_next. case_match; [apply answer_ok|constructor].
Qed.

Lemma apply_committed_ok r : Forall output_ok (apply_committed_entries r).2.
Proof.
  unfold apply_committed_entries. rewrite and_then_snd. simpl. rewrite app_nil_r. apply apply_loop_ok.
Qed.

(** Committing, applying and trimming, as a leader does after new evidence. *)
Definition advance (r : pt_paxos_replica) : step_result :=
  apply_committed_entries (update_commit_index r) ;> pure_ update_trim_watermark.

Lemma advance_wf r :
  replica_wf r → replica_wf (advance r).1 ∧ Forall output_ok (advance r).2.
Proof.
  intros Hr. apply update_commit_wf in Hr.
  destruct (apply_committed_wf _ Hr) as (Hw & (?&?&?&?&?&E) & Ha & _). unfold advance. split.
  - rewrite and_then_fst. apply update_trim_wf; [done|]. rewrite Ha, E. reflexivity.
  - rewrite and_then_snd. cbn [pure_ snd]. rewrite app_nil_r. apply apply_committed_ok.
Qed.

Lemma and_then_assoc p f g : (p ;> f) ;> g = p ;> (λ r, f r ;> g).
Proof. unfold and_then. simpl. by rewrite app_assoc. Qed.

Lemma flush_batch_advance r : flush_batch r = broadcast_propose (batched r) ;> advance.
Proof.
  rewrite flush_batch_eq. unfold advance, and_then, pure_. cbn [fst snd].
  by rewrite !app_nil_r.
Qed.

Lemma and_then_good (P : pt_paxos_replica → Prop) p f :
  P p.1 ∧ Forall output_ok p.2 →
  (∀ r, P r → P (f r).1 ∧ Forall output_ok (f r).2) →
  P (p ;> f).1 ∧ Forall output_ok (p ;> f).2.
Proof.
  intros [Hp Ho] Hf. rewrite and_then_fst, and_then_snd.
  destruct (Hf p.1 Hp) as [H1 H2]. split; [done|]. by apply Forall_app.
Qed.

(** A handler that keeps the invariant and sends well-formed messages. *)
Definition good (p : step_result) : Prop := replica_wf p.1 ∧ Forall output_ok p.2.

Lemma good_bind p f : good p → (∀ r, replica_wf r → good (f r)) → good (p ;> f).
Proof. apply and_then_good. Qed.

Lemma good_ret r : replica_wf r → good (r, []).
Proof. intros. split; [done|constructor]. Qed.

Lemma flush_batch_good r : replica_wf r → good (flush_batch r).
Proof.
  intros Hr. rewrite flush_batch_advance. apply good_bind; [|apply advance_wf].
  by apply broadcast_ok, batched_wf.
Qed.

Lemma flush_loop_good n r : replica_wf r → good (flush_loop n r).
Proof.
  revert r. induction n as [|n IH]; intros r Hr; cbn [flush_loop]; [by apply good_ret|].
  case_if; [|by apply good_ret]. apply good_bind; [by apply flush_batch_good|apply IH].
Qed.

Lemma flush_good now r : replica_wf r → good (flush_pending_client_requests now r).
Proof.
  intros Hr. unfold flush_pending_client_requests. case_if.
  { apply good_ret. same_core Hr. }
  apply good_bind; [by apply flush_loop_good|]. intros r' Hr'. apply good_ret.
  case_if; same_core Hr'.
Qed.

(** ** Accepting proposals *)

Lemma prefix_matches_range r prev round :
  replica_wf r → 0 ≤ prev → prefix_matches r prev round = true →
  trim_through_ r ≤ prev < next_slot_ r.
Proof.
  intros Hr Hp. pose proof (rwf_trim r Hr). pose proof (rwf_applied r Hr). pose proof (rwf_commit r Hr).
  unfold prefix_matches. repeat case_if; intros H'; bsimp; try done; try lia.
  destruct (find prev (log_ r)) as [e|] eqn:E; [|done].
  assert (Hs : is_Some (find prev (log_ r))) by by eexists.
  apply (rwf_slots r Hr) in Hs. lia.
Qed.

(** Dropping a suffix above the commit index. *)
Lemma truncate_wf r slot :
  replica_wf r → commit_index_ r < slot → slot ≤ next_slot_ r →
  replica_wf (set_next_slot_ slot (set_log_ (erase_from slot (log_ r)) r)).
Proof.
  intros [] Hc Hn. split; simpl; try done; try lia.
  - by apply wf_erase_from.
  - intros s. rewrite find_erase_from by done. simpl. case_if.
    + rewrite rwf_slots0. lia.
    + split; [by intros []|lia].
  - intros s e. rewrite find_erase_from by done. case_if; [apply rwf_entry0|done].
Qed.

Lemma append_entry_wf r e :
  replica_wf r → le_slot e = next_slot_ r →
  replica_wf (set_next_slot_ (next_slot_ r + 1) (set_log_ (emplace (next_slot_ r) e (log_ r)) r)).
Proof.
  intros Hr He. pose proof (find_append_entry r e) as Hf. pose proof Hr as Hr'. destruct Hr.
  split; simpl; try done; try lia.
  - by apply wf_emplace.
  - intros s. rewrite Hf by done. case_if.
    + subst. split; [lia|by eexists].
    + rewrite rwf_slots0. lia.
  - intros s x. rewrite Hf by done. case_if; [intros [= <-]; congruence|]. by apply rwf_entry0.
Qed.

(** One accepted entry: the state after the body of the loop. *)
Definition accept_entry (entry : log_entry) (r : pt_paxos_replica) : pt_paxos_replica :=
  let slot := le_slot entry in
  let conflict := match find slot (log_ r) with
                  | Some e => negb (le_round e =? le_round entry)
                  | None => false
                  end in
  let r := if conflict then set_next_slot_ slot (set_log_ (erase_from slot (log_ r)) r) else r in
  if contains slot (log_ r) then r
  else set_next_slot_ (Z.max (next_slot_ r) (slot + 1)) (set_log_ (emplace slot entry (log_ r)) r).

Definition conflicts (entry : log_entry) (r : pt_paxos_replica) : bool :=
  match find (le_slot entry) (log_ r) with
  | Some e => negb (le_round e =? le_round entry)
  | None => false
  end.

Lemma accept_loop_cons entry entries r m :
  accept_loop (entry :: entries) r m =
    if le_slot entry <=? trim_through_ r then accept_loop entries r (le_slot entry)
    else if conflicts entry r && (le_slot entry <=? commit_index_ r) then (r, inr (le_slot entry))
    else accept_loop entries (accept_entry entry r) (le_slot entry).
Proof. reflexivity. Qed.

(** The three outcomes of an entry at a slot up to the end of the log: it is
    there already, it replaces a conflicting suffix, or it is appended. *)
Lemma accept_entry_cases entry r :
  replica_wf r → trim_through_ r < le_slot entry ≤ next_slot_ r →
  conflicts entry r && (le_slot entry <=? commit_index_ r) = false →
  (∃ e, find (le_slot entry) (log_ r) = Some e ∧ le_round e = le_round entry ∧ accept_entry entry r = r) ∨
  (∃ r1, replica_wf r1 ∧ next_slot_ r1 = le_slot entry ∧
     (r1 = r ∨ commit_index_ r < le_slot entry < next_slot_ r ∧
        r1 = set_next_slot_ (le_slot entry) (set_log_ (erase_from (le_slot entry) (log_ r)) r)) ∧
     accept_entry entry r =
       set_next_slot_ (next_slot_ r1 + 1) (set_log_ (emplace (next_slot_ r1) entry (log_ r1)) r1)).
Proof.
  intros Hr Hs Hc. unfold conflicts, accept_entry in *. set (slot := le_slot entry) in *.
  destruct (find slot (log_ r)) as [e|] eqn:Ef.
  - destruct (le_round e =? le_round entry) eqn:Er; cbn [negb] in *; bsimp.
    + left. exists e. split_and!; [done|done|].
      assert (contains slot (log_ r) = true) as -> by (apply contains_true; by eexists). done.
    + cbn [andb] in Hc. bsimp. right.
      assert (Hlt : is_Some (find slot (log_ r))) by by eexists.
      apply (rwf_slots r Hr) in Hlt.
      exists (set_next_slot_ slot (set_log_ (erase_from slot (log_ r)) r)). split_and!.
      * apply truncate_wf; [done|lia|lia].
      * done.
      * right. split; [lia|done].
      * simpl. assert (contains slot (erase_from slot (log_ r)) = false) as ->.
        { apply contains_false. rewrite find_erase_from by apply Hr. simpl. by rewrite Z.ltb_irrefl. }
        by rewrite Z.max_r by lia.
  - right. exists r. assert (next_slot_ r = slot).
    { destruct (decide (slot = next_slot_ r)); [done|].
      assert (H : is_Some (find slot (log_ r))) by (apply (rwf_slots r Hr); lia).
      rewrite Ef in H. by destruct H. }
    split_and!; [done|done|by left|].
    assert (contains slot (log_ r) = false) as -> by (by apply contains_false).
    rewrite Z.max_r by lia. congruence.
Qed.

(** What accepting an entry leaves alone. *)
Lemma accept_entry_frame entry r :
  ∃ log next, accept_entry entry r = set_next_slot_ next (set_log_ log r).
Proof.
  unfold accept_entry. repeat case_match; simpl.
  all: try (exists (log_ r), (next_slot_ r); by destruct r).
  all: eexists; eexists; reflexivity.
Qed.

Lemma accept_loop_frame entries r m :
  ∃ log next, (accept_loop entries r m).1 = set_next_slot_ next (set_log_ log r).
Proof.
  revert r m. induction entries as [|e entries IH]; intros r m.
  { exists (log_ r), (next_slot_ r). simpl. by destruct r. }
  rewrite accept_loop_cons. repeat case_if; [apply IH| |].
  - exists (log_ r), (next_slot_ r). by destruct r.
  - destruct (accept_entry_frame e r) as (log & next & ->).
    destruct (IH (set_next_slot_ next (set_log_ log r)) (le_slot e)) as (log' & next' & ->). by exists log', next'.
Qed.

Lemma accept_entry_wf entry r :
  replica_wf r → trim_through_ r < le_slot entry ≤ next_slot_ r →
  conflicts entry r && (le_slot entry <=? commit_index_ r) = false →
  replica_wf (accept_entry entry r) ∧ le_slot entry < next_slot_ (accept_entry entry r).
Proof.
  intros Hr Hs Hc. destruct (accept_entry_cases entry r Hr Hs Hc) as [(e & Hf & _ & ->)|(r1 & H1 & Hn & _ & ->)].
  - split; [done|]. apply (rwf_slots r Hr). by eexists.
  - split; [by apply append_entry_wf|]. simpl. lia.
Qed.

Lemma accept_loop_wf entries r m :
  replica_wf r → trim_through_ r ≤ m < next_slot_ r → consecutive (m + 1) entries →
  replica_wf (accept_loop entries r m).1 ∧
  ∀ m', (accept_loop entries r m).2 = inl m' →
    m' = m + size entries ∧ m' < next_slot_ (accept_loop entries r m).1.
Proof.
  revert r m. induction entries as [|e entries IH]; intros r m Hr Hm Hc.
  { simpl. split; [done|]. intros m' [= <-]. rewrite size_nil. lia. }
  destruct Hc as [He Hc]. rewrite accept_loop_cons, He.
  assert (m + 1 <=? trim_through_ r = false) as -> by (apply Z.leb_gt; lia).
  destruct (conflicts e r && (m + 1 <=? commit_index_ r)) eqn:Ec; [by split|].
  destruct (accept_entry_wf e r) as [Hw Hn]; [done|lia|by rewrite He|].
  destruct (accept_entry_frame e r) as (log & next & E).
  destruct (IH (accept_entry e r) (m + 1) Hw) as [H1 H2]; [|done|].
  { split; [|lia]. rewrite E. simpl. lia. }
  split; [done|]. intros m' Hm'. destruct (H2 m' Hm') as [-> ?]. rewrite size_cons. split; [lia|done].
Qed.

(** ** The handlers *)

Lemma set_commit_wf c r :
  replica_wf r → last_applied_ r ≤ c < next_slot_ r → replica_wf (set_commit_index_ c r).
Proof. intros [] Hc. split; simpl; try done; lia. Qed.

Lemma good_send r dst m : replica_wf r → msg_ok m → good (r, [to_replica dst m]).
Proof. intros. split; [done|]. by repeat constructor. Qed.

Lemma good_client r resp : replica_wf r → good (r, [to_client resp]).
Proof. intros. split; [done|]. by repeat constructor. Qed.

(** The end of a successful proposal: commit, apply, trim. *)
Definition settle (msg : propose_message) (r : pt_paxos_replica) : step_result :=
  apply_committed_entries
    (if commit_index_ r <? ps_decide_through msg
     then set_commit_index_ (Z.min (ps_decide_through msg) (last_log_index r)) r else r)
  ;> pure_ (λ r, if trim_through_ r <? ps_trim_through msg
                 then trim_log_prefix
                        (set_trim_through_ (Z.min (ps_trim_through msg) (last_applied_ r)) r)
                 else r).

Lemma settle_good msg r : replica_wf r → good (settle msg r).
Proof.
  intros Hr. unfold settle. apply good_bind.
  - assert (Hw : replica_wf (if commit_index_ r <? ps_decide_through msg
      then set_commit_index_ (Z.min (ps_decide_through msg) (last_log_index r)) r else r)).
    { case_if; [|done]. pose proof (rwf_applied r Hr). pose proof (rwf_commit r Hr).
      apply set_commit_wf; [done|]. unfold last_log_index. lia. }
    split; [by apply apply_committed_wf|apply apply_committed_ok].
  - intros x Hx. apply good_ret. case_if; [|done]. apply set_trim_wf; [done|].
    pose proof (rwf_trim x Hx). lia.
Qed.

Lemma handle_propose_eq msg r :
  handle_propose msg r =
    let nack next r :=
      (r, [to_replica (ps_leader msg)
             (Ack (mk_ack (current_round_ r) (index_ r) false (last_log_index r) next))]) in
    if ps_round msg <? current_round_ r then nack (last_log_index r + 1) r
    else
      let r := become_follower (ps_round msg) (ps_leader msg) r in
      if negb (prefix_matches r (ps_prev_log_index msg) (ps_prev_log_round msg)) then
        nack (if trim_through_ r <? ps_prev_log_index msg
              then Z.min (ps_prev_log_index msg) (last_log_index r + 1)
              else trim_through_ r + 1) r
      else
        match accept_loop (ps_entries msg) r (ps_prev_log_index msg) with
        | (r, inr slot) => nack slot r
        | (r, inl match_index) =>
            settle msg r
            ;> (λ r, (r, [to_replica (ps_leader msg)
                 (Ack (mk_ack (current_round_ r) (index_ r) true match_index (match_index + 1)))]))
        end.
Proof. reflexivity. Qed.

Lemma handle_propose_good msg r : replica_wf r → msg_ok (Propose msg) → good (handle_propose msg r).
Proof.
  intros Hr [Hp Hc]. rewrite handle_propose_eq. cbv zeta. case_if; [by apply good_send|].
  apply (become_follower_wf (ps_round msg) (ps_leader msg)) in Hr.
  revert Hr. generalize (become_follower (ps_round msg) (ps_leader msg) r). intros x Hx.
  destruct (negb _) eqn:Em; bsimp; [by apply good_send|].
  apply prefix_matches_range in Em; [|done|done].
  destruct (accept_loop_wf (ps_entries msg) x (ps_prev_log_index msg) Hx Em Hc) as [Hw _].
  destruct (accept_loop _ _ _) as [y [m|slot]]; [|by apply good_send].
  apply good_bind; [by apply settle_good|]. intros z Hz. by apply good_send.
Qed.

Lemma handle_probe_good msg r : replica_wf r → good (handle_probe msg r).
Proof.
  intros Hr. unfold handle_probe. case_if; [by apply good_send|].
  assert (Hw : replica_wf (if current_round_ r <? pb_round msg
    then become_follower (pb_round msg) (leader_index_ r) r else r)).
  { case_if; [by apply become_follower_wf|done]. }
  revert Hw. generalize (if current_round_ r <? pb_round msg
    then become_follower (pb_round msg) (leader_index_ r) r else r). intros x Hx.
  case_if; apply good_send; try done. same_core Hx.
Qed.

Lemma become_leader_good r : replica_wf r → good (broadcast_propose (become_leader r)).
Proof. intros Hr. by apply broadcast_ok, become_leader_wf. Qed.

Lemma handle_prepare_good msg r : replica_wf r → good (handle_prepare msg r).
Proof.
  intros Hr. unfold handle_prepare. case_if; [by apply good_ret, become_follower_wf|].
  destruct (_ || _) eqn:E; [by apply good_ret|].
  assert (Hw : replica_wf (set_prepare_ok_ (<[pp_server msg:=true]> (prepare_ok_ r)) r)) by same_core Hr.
  case_if; [by apply become_leader_good|by apply good_ret].
Qed.

Lemma send_propose_good s r : replica_wf r → good (send_propose_to s r).
Proof.
  intros Hr. split; [|by apply send_propose_ok]. eapply frame_next_wf; [apply send_propose_frame|done].
Qed.

Lemma handle_ack_eq msg r :
  handle_ack msg r =
    if current_round_ r <? ak_round msg then (become_follower (ak_round msg) (leader_index_ r) r, [])
    else if negb (is_leader r) || negb (ak_round msg =? current_round_ r) then (r, [])
    else
      let s := ak_server msg in
      if ak_success msg then
        advance
          (set_next_index_ (<[s := Z.max (at_ (next_index_ r) s) (ak_next_index msg)]> (next_index_ r))
            (set_match_index_
              (<[s := Z.max (at_ (match_index_ r) s) (ak_match_index msg)]> (match_index_ r)) r))
        ;> (λ r, if at_ (next_index_ r) s <=? last_log_index r then send_propose_to s r else (r, []))
      else
        let fallback := if ak_next_index msg =? 0 then 1 else ak_next_index msg in
        let fallback := if at_ (next_index_ r) s <=? fallback
                        then (if 1 <? at_ (next_index_ r) s then at_ (next_index_ r) s - 1 else 1)
                        else fallback in
        send_propose_to s
          (set_next_index_ (<[s := Z.max fallback (trim_through_ r + 1)]> (next_index_ r)) r).
Proof. reflexivity. Qed.

Lemma handle_ack_good msg r : replica_wf r → good (handle_ack msg r).
Proof.
  intros Hr. rewrite handle_ack_eq. cbv zeta. case_if; [by apply good_ret, become_follower_wf|].
  destruct (_ || _) eqn:E; [by apply good_ret|]. case_if.
  - apply good_bind; [apply advance_wf; same_core Hr|]. intros x Hx.
    case_if; [by apply send_propose_good|by apply good_ret].
  - apply send_propose_good. same_core Hr.
Qed.

Lemma handle_replica_message_good m r : replica_wf r → msg_ok m → good (handle_replica_message m r).
Proof.
  intros Hr Hm. destruct m; simpl;
    [by apply handle_probe_good|by apply handle_prepare_good|by apply handle_propose_good
    |by apply handle_ack_good].
Qed.

Lemma handle_client_request_good now req r : replica_wf r → good (handle_client_request now req r).
Proof.
  intros Hr. unfold handle_client_request. case_if; [by apply good_client|].
  destruct (response_cache_ r !! _); [by apply good_client|]. case_if; [by apply good_ret|].
  match goal with |- good (if (append_batch_size_ <=? length (pending_client_requests_ ?x))%nat then _ else _) =>
    assert (Hx : replica_wf x) by (case_match; same_core Hr); revert Hx; generalize x end.
  intros x Hx. case_if; [by apply flush_good|by apply good_ret].
Qed.

(** The state of a new candidate. *)
Definition candidacy (r : pt_paxos_replica) : pt_paxos_replica :=
  set_role_ candidate (set_current_round_ (current_round_ r + 1)
    (set_leader_index_ (index_ r) (set_promised_leader_ (Some (index_ r))
      (set_prepare_ok_ (<[index_ r := true]> (replicate (nreplicas_ r) false))
        (reset_election_timeout r))))).

Lemma start_probe_round_eq r :
  start_probe_round r =
    send_probes (mk_probe (current_round_ (candidacy r)) (index_ r) (last_log_index r) (last_log_round r))
      (candidacy r)
    ;> (λ r, if has_quorum r 1 then broadcast_propose (become_leader r) else (r, [])).
Proof. reflexivity. Qed.

Lemma candidacy_wf r : replica_wf r → replica_wf (candidacy r).
Proof. intros Hr. same_core Hr. Qed.

Lemma start_probe_round_good r : replica_wf r → good (start_probe_round r).
Proof.
  intros Hr. rewrite start_probe_round_eq. apply good_bind.
  - split; [by apply candidacy_wf|]. unfold send_probes. cbn [snd]. apply Forall_fmap, Forall_forall.
    done.
  - intros x Hx. case_if; [by apply become_leader_good|by apply good_ret].
Qed.

Lemma run_iteration_good now w r : replica_wf r → wakeup_ok w → good (run_iteration now w r).
Proof.
  intros Hr Hw. unfold run_iteration. case_if; [by apply flush_good|]. destruct w.
  - by apply handle_client_request_good.
  - by apply handle_replica_message_good.
  - case_if; [|by apply start_probe_round_good].
    case_if; [by apply flush_good|by apply broadcast_ok].
Qed.

Lemma initialize_wf i n l draws : (i < n)%nat → replica_wf (initialize l (new_replica i n draws)).
Proof.
  intros Hi. assert (H : replica_wf (new_replica i n draws)).
  { split; simpl; rewrite ?length_replicate; try done; try lia.
    - apply wf_nil.
    - intros s. split; [by intros []|lia]. }
  unfold initialize. case_if; [rewrite become_leader_frame|]; same_core H.
Qed.
