(* ===== verification/MessageText.v ===== *)
(** The texts of messages and databases: the formatters of requests, responses
    and Paxos messages in [src/pset4/pancy_msgs.hh] and [src/pset4/pt-collab.cc],
    and the prints of [src/pset4/pancydb.cc].

    [std::format] of an integer is its decimal text.  A print is the list of the
    texts it writes. *)

From S2P Require Import Prelude SMap Text PancyDb PaxosReplica.

Definition dquote : ascii := char_of 34.
Definition quoted (s : txt) : txt := dquote :: s ++ [dquote].

(** * Requests and responses *)

Definition message := (request + response)%type.

Definition message_name (m : message) : txt :=
  match m with
  | inl (get_request _ _) => $"GET"
  | inr (get_response _ _ _ _) => $"GET_A"
  | inl (put_request _ _ _ _) => $"PUT"
  | inr (put_response _ _ _ _ _) => $"PUT_A"
  | inl (cas_request _ _ _ _ _) => $"CAS"
  | inr (cas_response _ _ _ _ _) => $"CAS_A"
  | inl (remove_request _ _ _) => $"REMOVE"
  | inr (remove_response _ _ _ _ _) => $"REMOVE_A"
  | inr (redirection_response _ _ _) => $"REDIRECTION"
  end.

Definition print_errc (e : errc) : txt :=
  match e with
  | ok => $"✓"
  | not_found => $"ENOTFOUND"
  | no_match => $"ENOMATCH"
  | redirect => $"EREDIRECT"
  end.

Definition print_version_match (version_match : Z) : txt :=
  if version_match <? 0 then [] else $", VM" ++ dec_i64 version_match.

Definition print_modification (e : errc) (actual : txt) (previous_version version : Z) : txt :=
  if bool_decide (e = no_match) then print_errc e ++ $", " ++ quoted actual ++ $", V" ++ dec_i64 previous_version
  else if previous_version =? version then print_errc e ++ $", V" ++ dec_i64 previous_version
  else print_errc e ++ $", V" ++ dec_i64 previous_version ++ $"→" ++ dec_i64 version.

Definition print_request (m : request) : txt :=
  match m with
  | get_request serial key => $"GET(#" ++ dec serial ++ $", " ++ quoted key ++ $")"
  | put_request serial key value version_match =>
      $"PUT(#" ++ dec serial ++ $", " ++ quoted key ++ $", " ++ quoted value ++ print_version_match version_match ++ $")"
  | cas_request serial key expected desired version_match =>
      $"CAS(#" ++ dec serial ++ $", " ++ quoted key ++ $", " ++ quoted expected ++ $", " ++ quoted desired ++
      print_version_match version_match ++ $")"
  | remove_request serial key version_match =>
      $"REMOVE(#" ++ dec serial ++ $", " ++ quoted key ++ print_version_match version_match ++ $")"
  end.

Definition print_response (m : response) : txt :=
  match m with
  | get_response serial e value version =>
      $"GET_A(#" ++ dec serial ++ $", " ++ print_errc e ++ $", " ++ quoted value ++ $", V" ++ dec_i64 version ++ $")"
  | put_response serial e actual previous_version version =>
      $"PUT_A(#" ++ dec serial ++ $", " ++ print_modification e actual previous_version version ++ $")"
  | cas_response serial e actual previous_version version =>
      $"CAS_A(#" ++ dec serial ++ $", " ++ print_modification e actual previous_version version ++ $")"
  | remove_response serial e actual previous_version version =>
      $"REMOVE_A(#" ++ dec serial ++ $", " ++ print_modification e actual previous_version version ++ $")"
  | redirection_response serial _ redirection =>
      $"REDIRECTION(#" ++ dec serial ++ $", ↪" ++ dec (Z.of_nat redirection) ++ $")"
  end.

Definition print_message (m : message) : txt :=
  match m with inl r => print_request r | inr r => print_response r end.

(** * Paxos messages *)

Definition nat_text (n : nat) : txt := dec (Z.of_nat n).

Definition print_entry (m : log_entry) : txt :=
  $"E(S" ++ dec (le_slot m) ++ $", R" ++ dec (le_round m) ++ $", " ++ print_request (le_req m) ++ $")".

Definition print_probe (m : probe_message) : txt :=
  $"PROBE(R" ++ dec (pb_round m) ++ $", L" ++ nat_text (pb_leader m) ++ $", last=S" ++ dec (pb_last_log_index m) ++
  $"/R" ++ dec (pb_last_log_round m) ++ $")".

Definition print_prepare (m : prepare_message) : txt :=
  $"PREPARE(R" ++ dec (pp_round m) ++ $", S" ++ nat_text (pp_server m) ++ $", " ++
  (if pp_promised m then $"promise" else $"deny") ++ $")".

Definition print_propose (m : propose_message) : txt :=
  let prefix := dec (ps_round m) ++ $", L" ++ nat_text (ps_leader m) ++ $", prev=S" ++ dec (ps_prev_log_index m) ++
    $"/R" ++ dec (ps_prev_log_round m) ++ $", decide=S" ++ dec (ps_decide_through m) ++ $", trim=S" ++ dec (ps_trim_through m) in
  match ps_entries m with
  | [] => $"DECIDE(R" ++ prefix ++ $")"
  | e :: es =>
      let payload := match es with
                     | [] => print_entry e
                     | _ => print_entry e ++ $".." ++ print_entry (List.last es e) ++ $" (" ++ nat_text (length (e :: es)) ++ $" entries)"
                     end in
      $"PROPOSE(R" ++ prefix ++ $", " ++ payload ++ $")"
  end.

Definition print_ack (m : ack_message) : txt :=
  $"ACK(R" ++ dec (ak_round m) ++ $", S" ++ nat_text (ak_server m) ++ $", " ++ (if ak_success m then $"ok" else $"retry") ++
  $", match=S" ++ dec (ak_match_index m) ++ $", next=S" ++ dec (ak_next_index m) ++ $")".

Definition print_paxos (m : paxos_message) : txt :=
  match m with
  | Probe m => print_probe m
  | Prepare m => print_prepare m
  | Propose m => print_propose m
  | Ack m => print_ack m
  end.

(** * Databases *)

Definition nl : txt := [char_of 10].

Definition db_row (kv : txt * vv) : txt := kv.1 ++ $" [V" ++ dec_i64 (vv_version kv.2) ++ $"] " ++ vv_value kv.2 ++ nl.

Definition print_db (d : pancydb) : list txt := (db_row <$> db_ d) ++ [nl].

(** [for (n = 0; n != 5 && it != db_.begin(); ++n) --it], an iterator as its
    position. *)
Fixpoint step_back (n it : nat) : nat :=
  match n, it with
  | S n', S it' => step_back n' it'
  | _, _ => it
  end.

(** The rows of the loop from [it], at most [n], and where it stops. *)
Fixpoint near_rows (n : nat) (key : txt) (db : list (txt * vv)) (it : nat) : list txt * nat :=
  match n with
  | O => ([], it)
  | S n' =>
      match db !! it with
      | None => ([], it)
      | Some kv =>
          let r := near_rows n' key db (S it) in
          (($" " ++ (if teqb kv.1 key then $"*" else $" ") ++ $" " ++ db_row kv) :: r.1, r.2)
      end
  end.

Definition ellipsis : txt := $"   ..." ++ nl.

Definition print_near (d : pancydb) (key : txt) : list txt :=
  let db := db_ d in
  let it := (length db - length (lower_bound key db))%nat in
  let it := step_back 5 it in
  let '(rows, stop) := near_rows 11 key db it in
  (if negb (it =? 0)%nat then [ellipsis] else []) ++ rows ++ (if negb (stop =? length db)%nat then [ellipsis] else []).

(** * Reading a request back *)

Definition expect (p s : txt) : option txt := if starts_with p s then Some (drop (length p) s) else None.

(** A comma and a quoted text without quotes, [n] times. *)
Fixpoint read_texts (n : nat) (s : txt) : option (list txt * txt) :=
  match n with
  | O => Some ([], s)
  | S n' =>
      s ← expect ($", " ++ [dquote]) s;
      i ← index_of dquote s;
      r ← read_texts n' (drop (i + 1) s);
      Some (take i s :: r.1, r.2)
  end.

Definition read_version_match (s : txt) : option (Z * txt) :=
  match expect $", VM" s with
  | Some s => from_chars_u64 s
  | None => Some (any_version, s)
  end.

Definition read_fields (name : txt) (serial : Z) (s : txt) : option request :=
  let texts := if teqb name $"PUT" then 2%nat else if teqb name $"CAS" then 3%nat else 1%nat in
  ts ← read_texts texts s;
  v ← read_version_match ts.2;
  if negb (teqb v.2 $")") then None
  else match ts.1 with
       | [k] => if teqb name $"GET" then Some (get_request serial k)
                else if teqb name $"REMOVE" then Some (remove_request serial k v.1) else None
       | [k; x] => Some (put_request serial k x v.1)
       | [k; x; y] => Some (cas_request serial k x y v.1)
       | _ => None
       end.

Definition read_request (s : txt) : option request :=
  i ← index_of "("%char s;
  rest ← expect $"(#" (drop i s);
  n ← from_chars_u64 rest;
  read_fields (take i s) n.1 n.2.

(** What is lost in the text: quotes in keys and values, and negative versions
    other than [any_version]. *)
Definition plain (s : txt) : Prop := dquote ∉ s.
Definition version_fits (v : Z) : Prop := v = any_version ∨ 0 ≤ v < two63.
Definition request_fits (r : request) : Prop :=
  is_u64 (message_serial r) ∧
  match r with
  | get_request _ k => plain k
  | put_request _ k x v => plain k ∧ plain x ∧ version_fits v
  | cas_request _ k x y v => plain k ∧ plain x ∧ plain y ∧ version_fits v
  | remove_request _ k v => plain k ∧ version_fits v
  end.

Lemma expect_app p s : expect p (p ++ s) = Some s.
Proof. unfold expect. rewrite starts_with_app. by rewrite drop_app_length. Qed.

Lemma read_texts_S n k s : plain k →
  read_texts (S n) ($", " ++ quoted k ++ s) = r ← read_texts n s; Some (k :: r.1, r.2).
Proof.
  intros Hk. cbn [read_texts]. unfold quoted.
  change ($", " ++ (dquote :: k ++ [dquote]) ++ s) with (($", " ++ [dquote]) ++ (k ++ [dquote]) ++ s). rewrite expect_app.
  cbn [mbind option_bind]. rewrite <-(assoc_L (++)). cbn [app]. rewrite index_of_app by done. cbn [mbind option_bind].
  rewrite take_app_length, drop_app_ge by lia. by replace (length k + 1 - length k)%nat with 1%nat by lia.
Qed.

Lemma read_version_back v : version_fits v → read_version_match (print_version_match v ++ $")") = Some (v, $")").
Proof.
  unfold read_version_match, print_version_match. intros [->|Hv]; [done|].
  rewrite (proj2 (Z.ltb_ge v 0)) by lia. rewrite <-(assoc_L (++)), expect_app. unfold dec_i64. rewrite (proj2 (Z.ltb_ge v 0)) by lia.
  apply from_chars_dec; [|done]. revert Hv. unfold is_u64, two63, two64. lia.
Qed.

Lemma read_head name serial rest : "("%char ∉ name → is_u64 serial → no_digit_first rest →
  read_request (name ++ $"(#" ++ dec serial ++ rest) = read_fields name serial rest.
Proof.
  intros Hn Hs Hr. unfold read_request. change ($"(#" ++ ?t) with ("("%char :: $"#" ++ t). rewrite index_of_app by done. cbn [mbind option_bind].
  change ("("%char :: $"#" ++ ?t) with ($"(#" ++ t).
  rewrite drop_app_length, expect_app. cbn [mbind option_bind]. rewrite from_chars_dec by done. cbn [mbind option_bind fst snd].
  by rewrite take_app_length.
Qed.

(** The log names the request.  The text of any request whose keys and values
    hold no quote is read back to that request: its kind, serial, texts and the
    version it asks for. *)
Theorem request_text_roundtrip (r : request) : request_fits r → read_request (print_request r) = Some r.
Proof.
  intros [Hs Hr]. destruct r as [s k|s k x v|s k x y v|s k v]; cbn [message_serial print_request] in *.
  - change ($"GET(#" ++ ?t) with ($"GET" ++ $"(#" ++ t). rewrite read_head by (done || set_solver). unfold read_fields. cbv zeta. change (read_texts _ ?t) with (read_texts 1 t).
    rewrite read_texts_S by done. done.
  - destruct Hr as (Hk & Hx & Hv). change ($"PUT(#" ++ ?t) with ($"PUT" ++ $"(#" ++ t). rewrite read_head by (done || set_solver). unfold read_fields. cbv zeta. change (read_texts _ ?t) with (read_texts 2 t).
    rewrite !read_texts_S by done. cbn [read_texts mbind option_bind fst snd]. rewrite read_version_back by done. done.
  - destruct Hr as (Hk & Hx & Hy & Hv). change ($"CAS(#" ++ ?t) with ($"CAS" ++ $"(#" ++ t). rewrite read_head by (done || set_solver). unfold read_fields. cbv zeta. change (read_texts _ ?t) with (read_texts 3 t).
    rewrite !read_texts_S by done. cbn [read_texts mbind option_bind fst snd]. rewrite read_version_back by done. done.
  - destruct Hr as (Hk & Hv). change ($"REMOVE(#" ++ ?t) with ($"REMOVE" ++ $"(#" ++ t). rewrite read_head by (done || set_solver). unfold read_fields. cbv zeta. change (read_texts _ ?t) with (read_texts 1 t).
    rewrite !read_texts_S by done. cbn [read_texts mbind option_bind fst snd]. rewrite read_version_back by done. done.
Qed.

Lemma request_text_roundtrip_witness :
  read_request (print_request (cas_request 7 $"doc/a" $"x" $"y, z" 12)) = Some (cas_request 7 $"doc/a" $"x" $"y, z" 12).
Proof.
  apply (request_text_roundtrip (cas_request 7 $"doc/a" $"x" $"y, z" 12)).
  split; [split; by vm_compute|]. split; [|split; [|split]]; [by apply index_of_None..|right; by split].
Defined.

(** Quotes are not escaped, so that two requests can have one text. *)
Example quotes_confuse :
  let between := dquote :: $", " ++ [dquote] in
  print_request (put_request 1 ($"a" ++ between ++ $"b") $"c" any_version) =
  print_request (put_request 1 $"a" ($"b" ++ between ++ $"c") any_version) ∧
  print_request (remove_request 1 $"a" any_version) = print_request (remove_request 1 $"a" (-7)).
Proof. vm_compute. done. Qed.

Example message_texts :
  print_paxos (Propose (mk_propose 3 0 5 2 4 1 [mk_log_entry 6 3 (get_request 9 $"k"); mk_log_entry 7 3 (remove_request 10 $"k" 2)])) =
    $"PROPOSE(R3, L0, prev=S5/R2, decide=S4, trim=S1, E(S6, R3, GET(#9, " ++ quoted $"k" ++ $"))..E(S7, R3, REMOVE(#10, " ++
    quoted $"k" ++ $", VM2)) (2 entries))" ∧
  print_response (put_response 4 no_match $"v" 3 3) = $"PUT_A(#4, ENOMATCH, " ++ quoted $"v" ++ $", V3)" ∧
  print_response (put_response 4 ok [] 2 5) = $"PUT_A(#4, ✓, V2→5)".
Proof. vm_compute. done. Qed.

(** * The window of [print_near] *)

Lemma step_back_sub n : ∀ it, step_back n it = (it - n)%nat.
Proof. induction n as [|n IH]; intros [|it]; cbn [step_back]; [done|lia|done|]. rewrite IH. lia. Qed.

Definition near_row (key : txt) (kv : txt * vv) : txt := $" " ++ (if teqb kv.1 key then $"*" else $" ") ++ $" " ++ db_row kv.

Lemma near_rows_window n key db : ∀ it, (it ≤ length db)%nat →
  near_rows n key db it = (near_row key <$> take n (drop it db), Nat.min (it + n) (length db)).
Proof.
  induction n as [|n IH]; intros it Hit; cbn [near_rows]; [rewrite take_0; f_equal; lia|].
  destruct (db !! it) as [kv|] eqn:E.
  - pose proof (lookup_lt_Some _ _ _ E) as Hlt. rewrite IH by lia. rewrite (drop_S _ _ _ E). cbn [take fmap list_fmap fst snd]. f_equal. lia.
  - apply lookup_ge_None in E. rewrite drop_ge by lia. cbn. f_equal. lia.
Qed.

Lemma wf_lookup_lt (db : smap txt vv) : wf db → ∀ i j a b, db !! i = Some a → db !! j = Some b → (i < j)%nat → kltb a.1 b.1 = true.
Proof.
  induction db as [|[k v] db IH]; intros Hwf i j a b Ha Hb Hlt; [done|]. apply wf_cons in Hwf as [Hwf Hk].
  destruct j as [|j]; [lia|]. cbn in Hb. destruct i as [|i]; cbn in Ha; [|by apply (IH Hwf i j); try done; lia]. injection Ha as <-.
  rewrite Forall_forall in Hk. apply Hk. unfold keys. apply list_elem_of_fmap. exists b. split; [done|]. by eapply list_elem_of_lookup_2.
Qed.

Lemma lower_bound_ge (key : txt) (db : smap txt vv) : wf db → ∀ i kv, lower_bound key db !! i = Some kv → kltb kv.1 key = false.
Proof.
  induction db as [|[k v] db IH]; intros Hwf i kv Hi; [done|]. cbn [lower_bound] in Hi. destruct (kltb k key) eqn:E.
  - apply wf_cons in Hwf as [Hwf _]. by apply (IH Hwf i).
  - destruct i as [|i]; [by injection Hi as <-|]. destruct (kltb kv.1 key) eqn:E'; [|done].
    assert (Hlt : kltb k kv.1 = true) by (by apply (wf_lookup_lt _ Hwf 0 (S i) (k, v) kv); try done; lia).
    by rewrite (kltb_trans _ _ _ Hlt E') in E.
Qed.

(** The position of the lower bound: all keys before it are smaller. *)
Lemma lower_bound_pos (key : txt) (db : smap txt vv) :
  let p := (length db - length (lower_bound key db))%nat in
  (p ≤ length db)%nat ∧ drop p db = lower_bound key db ∧ (∀ i kv, db !! i = Some kv → (i < p)%nat → kltb kv.1 key = true).
Proof.
  cbv zeta. induction db as [|[k v] db (IH1 & IH2 & IH3)]; [done|]. cbn [lower_bound].
  assert (Hle : (length (lower_bound key db) ≤ length db)%nat) by (rewrite <-IH2, length_drop; lia).
  destruct (kltb k key) eqn:E; cbn [length].
  - rewrite Nat.sub_succ_l by done. split; [lia|]. split; [done|]. intros [|i] kv; cbn; [by intros [= <-] _|]. intros Hi Hlt. apply (IH3 i); [done|lia].
  - rewrite Nat.sub_diag. split; [lia|]. split; [done|]. intros i kv _ Hlt. lia.
Qed.

(** [print_near] shows the neighbourhood of a key.  Of the ordered database it
    prints a run of at most eleven rows that starts five keys before the place
    of the key, or at the first; dots say whether rows are left out before and
    after; a row is starred exactly when its key is the one asked for, and the
    row of a key that is present is among those printed. *)
Theorem print_near_window (d : pancydb) (key : txt) : wf (db_ d) →
  ∃ p, (∀ i kv, db_ d !! i = Some kv → (i < p)%nat ↔ kltb kv.1 key = true) ∧
    print_near d key =
      (if decide (p ≤ 5)%nat then [] else [ellipsis]) ++
      (near_row key <$> take 11 (drop (p - 5) (db_ d))) ++
      (if decide (length (db_ d) ≤ p - 5 + 11)%nat then [] else [ellipsis]) ∧
    (∀ v, find key (db_ d) = Some v → db_ d !! p = Some (key, v) ∧ take 11 (drop (p - 5) (db_ d)) !! (Nat.min p 5) = Some (key, v)).
Proof.
  intros Hwf. destruct (lower_bound_pos key (db_ d)) as (H1 & H2 & H3).
  set (p := (length (db_ d) - length (lower_bound key (db_ d)))%nat) in *. exists p.
  assert (Hp : ∀ i kv, db_ d !! i = Some kv → (i < p)%nat ↔ kltb kv.1 key = true).
  { intros i kv Hi. split; [by apply H3|]. intros Hlt. destruct (decide (i < p)%nat) as [|Hge]; [done|]. exfalso.
    assert (Hin : (lower_bound key (db_ d)) !! (i - p)%nat = Some kv) by (rewrite <-H2; etrans; [apply (lookup_drop (db_ d))|]; rewrite <-Hi; f_equal; lia).
    apply (lower_bound_ge key (db_ d) Hwf) in Hin. by rewrite Hin in Hlt. }
  split; [done|]. split.
  - unfold print_near. fold p. rewrite step_back_sub. rewrite near_rows_window by lia.
    destruct (decide (p ≤ 5)%nat) as [Hle|Hgt].
    + rewrite (proj2 (Nat.eqb_eq (p - 5) 0)) by lia. cbn [negb]. f_equal. f_equal.
      destruct (decide _); [rewrite (proj2 (Nat.eqb_eq _ _)) by lia|rewrite (proj2 (Nat.eqb_neq _ _)) by lia]; done.
    + rewrite (proj2 (Nat.eqb_neq (p - 5) 0)) by lia. cbn [negb]. f_equal. f_equal.
      destruct (decide _); [rewrite (proj2 (Nat.eqb_eq _ _)) by lia|rewrite (proj2 (Nat.eqb_neq _ _)) by lia]; done.
  - intros v Hv. apply find_In in Hv; [|done]. apply list_elem_of_lookup in Hv as [j Hj].
    assert (Hjp : j = p).
    { assert (¬ (j < p)%nat) by (rewrite (Hp j (key, v) Hj); cbn; by rewrite txt_ltb_irrefl). destruct (decide (j = p)) as [|Hne]; [done|]. exfalso.
      destruct (lookup_lt_is_Some_2 (db_ d) p) as [kv Hkv]; [pose proof (lookup_lt_Some _ _ _ Hj); lia|].
      assert (Hlt : kltb kv.1 key = true) by (apply (wf_lookup_lt (db_ d) Hwf p j kv (key, v) Hkv Hj); lia).
      apply (Hp p kv Hkv) in Hlt. lia. }
    subst j. split; [done|]. rewrite lookup_take_lt by lia. etrans; [apply (lookup_drop (db_ d))|]. rewrite <-Hj. f_equal. lia.
Qed.

(** Fourteen keys, a to n. *)
Definition sample_db : pancydb := mk_pancydb 9 ((λ i, ([char_of i], mk_vv [] 1)) <$> seqZ 97 14) [].

Lemma print_near_window_witness :
  (∃ p, print_near sample_db $"g" =
      (if decide (p ≤ 5)%nat then [] else [ellipsis]) ++ (near_row $"g" <$> take 11 (drop (p - 5) (db_ sample_db))) ++
      (if decide (14 ≤ p - 5 + 11)%nat then [] else [ellipsis])) ∧
  (print_near sample_db $"g" !! 6%nat = Some ($" * g [V1] " ++ nl)) ∧ length (print_near sample_db $"g") = 13%nat.
Proof.
  split; [|vm_compute; done]. destruct (print_near_window sample_db $"g") as (p & _ & E & _); [|exists p; exact E].
  unfold wf. vm_compute. repeat constructor.
Defined.
