(* ===== verification/PaxosProps.v ===== *)
(** Functional properties of one replica: what its handlers may change over
    time, which responses clients get, the commit rule, exactly-once
    application of the log, draining of client batches. *)

From S2P Require Import Prelude SMap Text PancyDb PaxosReplica PaxosLocal.

(** * The replicated state machine

    The database together with the responses given so far; a request whose
    serial has a response is not executed again. *)

Definition machine := (pancydb * gmap Z response)%type.
Definition machine_of (r : pt_paxos_replica) : machine := (rdb_ r, response_cache_ r).

Definition exec (m : machine) (req : request) : machine :=
  match m.2 !! message_serial req with
  | Some _ => m
  | None => ((process_req m.1 req).1, <[message_serial req := (process_req m.1 req).2]> m.2)
  end.

(** The requests in the slots after [a] up to [b]. *)
Definition requests_in (log : smap Z log_entry) (a b : Z) : list request :=
  omap (λ s, le_req <$> find s log) (seqZ (a + 1) (b - a)).

Lemma execute_machine req r : machine_of (execute req r) = exec (machine_of r) req.
Proof.
  unfold execute, exec, machine_of. simpl. destruct (response_cache_ r !! _); [done|].
  by destruct (process_req _ _).
Qed.

Lemma answer_machine serial r : machine_of (answer serial r).1 = machine_of r.
Proof. unfold machine_of. by destruct (answer_same serial r) as (_ & -> & ->). Qed.

Lemma apply_next_machine r :
  machine_of (apply_next r).1 =
    match find (last_applied_ r + 1) (log_ r) with
    | Some e => exec (machine_of r) (le_req e)
    | None => machine_of r
    end.
Proof.
  unfold apply_next. simpl. case_match; [|done]. rewrite answer_machine, execute_machine. done.
Qed.

Lemma apply_loop_machine n r :
  machine_of (apply_loop n r).1 =
    foldl exec (machine_of r) (requests_in (log_ r) (last_applied_ r) (last_applied_ r + Z.of_nat n)).
Proof.
  revert r. induction n as [|n IH]; intros r.
  { cbn [apply_loop fst]. unfold requests_in. by rewrite seqZ_nil by lia. }
  cbn [apply_loop]. rewrite and_then_fst, IH, apply_next_applied.
  destruct (apply_next_frame r) as (?&?&?&?&?&E).
  assert (Hl : log_ (apply_next r).1 = log_ r) by (rewrite E; reflexivity).
  rewrite Hl, apply_next_machine. unfold requests_in.
  rewrite (seqZ_cons (last_applied_ r + 1)) by lia. simpl. unfold Z.succ.
  replace (Z.pred (last_applied_ r + Z.of_nat (S n) - last_applied_ r))
    with (last_applied_ r + 1 + Z.of_nat n - (last_applied_ r + 1)) by lia.
  destruct (find (last_applied_ r + 1) (log_ r)); done.
Qed.

Lemma apply_committed_machine r :
  replica_wf r →
  machine_of (apply_committed_entries r).1 =
    foldl exec (machine_of r) (requests_in (log_ r) (last_applied_ r) (commit_index_ r)).
Proof.
  intros Hr. destruct (apply_committed_wf r Hr) as (_ & _ & _ & ->).
  pose proof (rwf_applied r Hr). rewrite apply_loop_machine. do 2 f_equal. lia.
Qed.

(** Every committed slot above the trimmed prefix is in the log. *)
Lemma requests_complete r a b :
  replica_wf r → trim_through_ r ≤ a → b < next_slot_ r → a ≤ b →
  size (requests_in (log_ r) a b) = b - a.
Proof.
  intros Hr Ha Hb Hab. unfold requests_in.
  assert (H : Forall (λ s, is_Some (find s (log_ r))) (seqZ (a + 1) (b - a))).
  { apply Forall_forall. intros s Hs. apply elem_of_seqZ in Hs. apply (rwf_slots r Hr). lia. }
  transitivity (size (seqZ (a + 1) (b - a))).
  - induction H as [|s l [e He] _ IH]; [done|]. simpl. rewrite He. simpl. rewrite !size_cons. f_equal. exact IH.
  - unfold size. rewrite length_seqZ. lia.
Qed.

Lemma requests_app log a b c :
  a ≤ b ≤ c → requests_in log a c = requests_in log a b ++ requests_in log b c.
Proof.
  intros H. unfold requests_in. rewrite <- omap_app.
  replace (c - a) with ((b - a) + (c - b)) by lia. rewrite seqZ_app by lia.
  by replace (a + 1 + (b - a)) with (b + 1) by lia.
Qed.

Lemma requests_ext log log' a b :
  (∀ s, a < s ≤ b → find s log = find s log') → requests_in log a b = requests_in log' a b.
Proof.
  intros H. unfold requests_in.
  assert (Hs : ∀ s, s ∈ seqZ (a + 1) (b - a) → find s log = find s log').
  { intros s Hs. apply elem_of_seqZ in Hs. apply H. lia. }
  revert Hs. generalize (seqZ (a + 1) (b - a)). intros l Hl.
  induction l as [|s l IH]; simpl; [done|]. rewrite (Hl s) by by left.
  destruct (find s log'); simpl; [f_equal|]; apply IH; intros; apply Hl; by right.
Qed.

(** ** Exactly once *)

(** The requests whose serial is not in [seen] and did not occur before. *)
Fixpoint first_occurrences (seen : gset Z) (reqs : list request) : list request :=
  match reqs with
  | [] => []
  | q :: reqs' =>
      if bool_decide (message_serial q ∈ seen) then first_occurrences seen reqs'
      else q :: first_occurrences ({[message_serial q]} ∪ seen) reqs'
  end.

Lemma exec_once m reqs :
  (foldl exec m reqs).1 =
    foldl (λ d q, (process_req d q).1) m.1 (first_occurrences (dom m.2) reqs).
Proof.
  revert m. induction reqs as [|q reqs IH]; intros [db rc]; simpl; [done|].
  rewrite IH. unfold exec. simpl. destruct (rc !! message_serial q) eqn:E; simpl.
  - rewrite bool_decide_eq_true_2; [done|]. by apply elem_of_dom_2 in E.
  - rewrite bool_decide_eq_false_2; [|by apply not_elem_of_dom]. simpl.
    by rewrite dom_insert_L.
Qed.

(** ** Responses *)

Definition cache_ok (rc : gmap Z response) : Prop :=
  map_Forall (λ s resp, response_serial resp = s) rc.

Lemma process_req_serial d q : response_serial (process_req d q).2 = message_serial q.
Proof.
  destruct q; simpl; try done.
  - by destruct (process_put d key value version_match) as [? [[[]]]].
  - by destruct (process_cas d key expected desired version_match) as [? [[[]]]].
  - by destruct (process_remove d key version_match) as [? [[[]]]].
Qed.

Lemma exec_cache m q : cache_ok m.2 → cache_ok (exec m q).2 ∧ m.2 ⊆ (exec m q).2.
Proof.
  intros Hc. unfold exec. destruct (m.2 !! _) eqn:E; [done|]. simpl. split.
  - apply map_Forall_insert_2; [apply process_req_serial|done].
  - by apply insert_subseteq.
Qed.

(** * What a step may change *)

(** Counters only advance, responses are never forgotten or changed. *)
Record evolves (r r' : pt_paxos_replica) : Prop := {
  ev_index : index_ r' = index_ r;
  ev_nreplicas : nreplicas_ r' = nreplicas_ r;
  ev_round : current_round_ r ≤ current_round_ r';
  ev_commit : commit_index_ r ≤ commit_index_ r';
  ev_applied : last_applied_ r ≤ last_applied_ r';
  ev_trim : trim_through_ r ≤ trim_through_ r';
  ev_cache : response_cache_ r ⊆ response_cache_ r';
}.

(** The log keeps every entry that is not trimmed. *)
Definition log_grows (r r' : pt_paxos_replica) : Prop :=
  ∀ s e, find s (log_ r) = Some e → trim_through_ r' < s → find s (log_ r') = Some e.

Lemma evolves_refl r : evolves r r.
Proof. by split. Qed.

Lemma evolves_trans r1 r2 r3 : evolves r1 r2 → evolves r2 r3 → evolves r1 r3.
Proof. intros [] []. split; try congruence || lia. by etrans. Qed.

Lemma log_grows_refl r : log_grows r r.
Proof. intros s e H _. exact H. Qed.

Lemma log_grows_trans r1 r2 r3 :
  evolves r2 r3 → log_grows r1 r2 → log_grows r2 r3 → log_grows r1 r3.
Proof. intros [] H1 H2 s e Hf Ht. apply H2; [apply H1; [done|lia]|done]. Qed.

(** A response that goes to a client is a redirection or the recorded response
    of its serial. *)
Definition answered (r : pt_paxos_replica) (o : output) : Prop :=
  match o with
  | to_client (redirection_response _ _ _) => True
  | to_client resp => response_cache_ r !! response_serial resp = Some resp
  | to_replica _ _ => True
  end.

Lemma answered_cache r o resp :
  o = to_client resp → response_cache_ r !! response_serial resp = Some resp → answered r o.
Proof. intros -> H. by destruct resp. Qed.

Lemma answered_mono r r' o : response_cache_ r ⊆ response_cache_ r' → answered r o → answered r' o.
Proof.
  intros Hs. destruct o as [|[]]; simpl; try done; intros; by eapply lookup_weaken.
Qed.

(** A sound step: the invariants kept, the messages well formed, the state
    evolved, the responses backed by the cache. *)
Record sound (P : pt_paxos_replica → pt_paxos_replica → Prop) (r : pt_paxos_replica) (p : step_result) : Prop := {
  so_good : good p;
  so_cache : cache_ok (response_cache_ p.1);
  so_evolves : evolves r p.1;
  so_rel : P r p.1;
  so_answered : Forall (answered p.1) p.2;
}.

(** What handlers start from. *)
Definition ready (r : pt_paxos_replica) : Prop := replica_wf r ∧ cache_ok (response_cache_ r).

Definition anything (r r' : pt_paxos_replica) : Prop := True.

Lemma sound_bind r p f :
  sound log_grows r p → (∀ x, ready x → sound log_grows x (f x)) → sound log_grows r (p ;> f).
Proof.
  intros [Hg Hc He Hl Ha] Hf. destruct (Hf p.1) as [Hg' Hc' He' Hl' Ha']; [split; [apply Hg|done]|].
  split; rewrite ?and_then_fst, ?and_then_snd.
  - split; [apply Hg'|]. rewrite and_then_snd. apply Forall_app. split; [apply Hg|apply Hg'].
  - done.
  - by eapply evolves_trans.
  - by eapply log_grows_trans.
  - apply Forall_app. split; [|done]. eapply Forall_impl; [exact Ha|].
    intros o. apply answered_mono, He'.
Qed.

Lemma sound_weaken P r p : sound P r p → sound anything r p.
Proof. intros []. by split. Qed.

Lemma sound_bind_any r p f :
  sound anything r p → (∀ x, ready x → sound anything x (f x)) → sound anything r (p ;> f).
Proof.
  intros [Hg Hc He _ Ha] Hf. destruct (Hf p.1) as [Hg' Hc' He' _ Ha']; [split; [apply Hg|done]|].
  split; rewrite ?and_then_fst, ?and_then_snd; try done.
  - split; [apply Hg'|]. rewrite and_then_snd. apply Forall_app. split; [apply Hg|apply Hg'].
  - by eapply evolves_trans.
  - apply Forall_app. split; [|done]. eapply Forall_impl; [exact Ha|].
    intros o. apply answered_mono, He'.
Qed.

(** Close soundness of a step that only moves fields outside of [core], the
    responses and the round. *)
Lemma sound_same r p :
  ready r → good p → core p.1 = core r → response_cache_ p.1 = response_cache_ r →
  current_round_ r ≤ current_round_ p.1 → Forall (answered r) p.2 → sound log_grows r p.
Proof.
  intros [Hr Hc] Hg [= Hi Hn Hl Hs Hco Ha Ht] Hrc Hrd Hans. split; try done.
  - by rewrite Hrc.
  - split; try congruence || lia. by rewrite Hrc.
  - intros s e Hf _. by rewrite Hl.
  - eapply Forall_impl; [exact Hans|]. intros o. apply answered_mono. by rewrite Hrc.
Qed.

Lemma frame_next_core r r' :
  frame_next r r' →
  core r' = core r ∧ response_cache_ r' = response_cache_ r ∧ current_round_ r' = current_round_ r.
Proof. by intros (ni & _ & ->). Qed.

(** Proposals answer no client. *)
Lemma propose_to_all_answers ps r x : Forall (answered x) (propose_to_all ps r).2.
Proof.
  revert r. induction ps as [|s ps IH]; intros r; simpl; [constructor|]. apply Forall_app.
  split; [|apply IH]. case_if; [constructor|]. unfold send_propose_to. case_if; repeat constructor.
Qed.

Lemma broadcast_sound r : ready r → sound log_grows r (broadcast_propose r).
Proof.
  intros Hr. destruct (frame_next_core _ _ (broadcast_frame r)) as (H1 & H2 & H3).
  apply sound_same; [done|apply broadcast_ok, Hr|done|done|lia|apply propose_to_all_answers].
Qed.

Lemma send_propose_sound s r : ready r → sound log_grows r (send_propose_to s r).
Proof.
  intros Hr. destruct (frame_next_core _ _ (send_propose_frame s r)) as (H1 & H2 & H3).
  apply sound_same; [done|apply send_propose_good, Hr|done|done|lia|].
  unfold send_propose_to. case_if; repeat constructor.
Qed.

Lemma become_follower_sound round hint r :
  ready r → sound log_grows r (become_follower round hint r, []).
Proof.
  intros Hr. apply sound_same; [done|by apply good_ret, become_follower_wf, Hr|..];
    cbn [fst snd]; rewrite ?become_follower_frame; [reflexivity|reflexivity| |constructor].
  simpl. lia.
Qed.

(** ** Applying *)

Lemma apply_next_cache r :
  cache_ok (response_cache_ r) →
  cache_ok (response_cache_ (apply_next r).1) ∧ response_cache_ r ⊆ response_cache_ (apply_next r).1 ∧
  Forall (answered (apply_next r).1) (apply_next r).2.
Proof.
  intros Hc. pose proof (apply_next_machine r) as Hm. unfold apply_next in *.
  set (r1 := set_last_applied_ _ r) in *. change (log_ r1) with (log_ r) in *.
  change (last_applied_ r1) with (last_applied_ r + 1) in *.
  destruct (find (last_applied_ r + 1) (log_ r)) as [e|]; [|done].
  apply (f_equal snd) in Hm. cbn [machine_of snd] in Hm.
  destruct (exec_cache (machine_of r) (le_req e) Hc) as [H1 H2].
  rewrite Hm. split_and!; [done|done|].
  unfold answer in *. destruct (negb _); [constructor|].
  destruct (pending_clients_ _ !! _); [|constructor].
  destruct (response_cache_ (execute (le_req e) r1) !! message_serial (le_req e)) as [resp|] eqn:Er; [|constructor].
  case_if; [|constructor]. constructor; [|constructor]. eapply answered_cache; [done|].
  simpl. assert (Hce : cache_ok (response_cache_ (execute (le_req e) r1))).
  { change (response_cache_ (execute (le_req e) r1)) with (machine_of (execute (le_req e) r1)).2.
    rewrite execute_machine. done. }
  rewrite (Hce _ _ Er). done.
Qed.

Lemma apply_loop_cache n r :
  cache_ok (response_cache_ r) →
  cache_ok (response_cache_ (apply_loop n r).1) ∧
  response_cache_ r ⊆ response_cache_ (apply_loop n r).1 ∧
  Forall (answered (apply_loop n r).1) (apply_loop n r).2.
Proof.
  revert r. induction n as [|n IH]; intros r Hc; cbn [apply_loop]; [split_and!; [done|done|constructor]|].
  rewrite and_then_fst, and_then_snd. destruct (apply_next_cache r Hc) as (H1 & H2 & H3).
  destruct (IH _ H1) as (H4 & H5 & H6). split_and!; [done|by etrans|].
  apply Forall_app. split; [|done]. eapply Forall_impl; [exact H3|]. intros o. by apply answered_mono.
Qed.

Lemma apply_committed_sound r : ready r → sound log_grows r (apply_committed_entries r).
Proof.
  intros [Hr Hc]. destruct (apply_committed_wf r Hr) as (Hw & (?&?&?&?&?&E) & Ha & El).
  destruct (apply_loop_cache (Z.to_nat (commit_index_ r - last_applied_ r)) r Hc) as (H1 & H2 & H3).
  rewrite <- El in H1, H2, H3. pose proof (rwf_applied r Hr). split.
  - split; [done|apply apply_committed_ok].
  - done.
  - split; [| | | |lia| |done]; rewrite E; simpl; done || lia.
  - intros s e Hf _. rewrite E. done.
  - unfold apply_committed_entries at 2. rewrite and_then_snd. cbn [pure_ snd]. by rewrite app_nil_r.
Qed.

(** ** Trimming and committing *)

Lemma sound_ret r r' :
  ready r → replica_wf r' → cache_ok (response_cache_ r') → evolves r r' → log_grows r r' →
  sound log_grows r (r', []).
Proof. intros Hr Hw Hc He Hl. split; [by apply good_ret|done|done|done|constructor]. Qed.

Lemma sound_id r : ready r → sound log_grows r (r, []).
Proof. intros Hr. apply sound_ret; [done|apply Hr|apply Hr|apply evolves_refl|apply log_grows_refl]. Qed.

Lemma set_trim_sound t r :
  ready r → trim_through_ r ≤ t ≤ last_applied_ r →
  sound log_grows r (trim_log_prefix (set_trim_through_ t r), []).
Proof.
  intros [Hr Hc] Ht. pose proof (set_trim_wf t r Hr Ht) as Hw. unfold trim_log_prefix in *. simpl in *.
  destruct (trim_loop_spec t (log_ r) (trim_round_ r) (rwf_sorted r Hr)) as [_ Hf].
  destruct (trim_loop _ _ _) as [log round]. apply sound_ret; [by split|done|done|..].
  - split; simpl; done || lia.
  - intros s e He Hs. simpl in *. rewrite Hf. case_if; [lia|done].
Qed.

Lemma update_commit_sound r : ready r → sound log_grows r (update_commit_index r, []).
Proof.
  intros [Hr Hc]. pose proof (update_commit_wf r Hr) as Hw. unfold update_commit_index in *.
  case_if; [by apply sound_id|]. apply sound_ret; [by split|done|done| |by intros s e H _].
  pose proof (commit_loop_range r (Z.to_nat (last_log_index r - commit_index_ r))).
  split; simpl; done || lia.
Qed.

Lemma update_trim_sound r :
  ready r → last_applied_ r = commit_index_ r → sound log_grows r (update_trim_watermark r, []).
Proof.
  intros [Hr Hc] Ha. pose proof (update_trim_wf r Hr Ha) as Hw. unfold update_trim_watermark in *.
  case_if; [by apply sound_id|].
  match goal with |- context [Z.min ?m (commit_index_ r)] => set (mm := Z.min m (commit_index_ r)) in * end.
  assert (mm ≤ commit_index_ r) by (unfold mm; lia). pose proof (rwf_trim r Hr).
  case_if; [|by apply sound_id]. apply set_trim_sound; [by split|].
  revert Ec0. unfold trim_retention_. case_if; lia.
Qed.

Lemma advance_eq r :
  advance r = (update_commit_index r, []) ;> (λ x, apply_committed_entries x ;> pure_ update_trim_watermark).
Proof. by rewrite bind_ret. Qed.

Lemma advance_sound r : ready r → sound log_grows r (advance r).
Proof.
  intros Hr. rewrite advance_eq. apply sound_bind; [by apply update_commit_sound|].
  intros x [Hx Hc]. destruct (apply_committed_wf x Hx) as (Hw & (?&?&?&?&?&E) & Ha & _).
  pose proof (apply_committed_sound x (conj Hx Hc)) as Hs.
  destruct Hs as [Hg Hc' He Hl Hans].
  pose proof (update_trim_sound (apply_committed_entries x).1) as [Hg2 Hc2 He2 Hl2 _].
  { by split. }
  { rewrite Ha, E. done. }
  split; rewrite ?and_then_fst, ?and_then_snd; cbn [pure_ fst snd]; rewrite ?app_nil_r.
  - split; [apply Hg2|]. rewrite and_then_snd. cbn [pure_ snd]. rewrite app_nil_r. apply Hg.
  - done.
  - by eapply evolves_trans.
  - by eapply log_grows_trans.
  - eapply Forall_impl; [exact Hans|]. intros o. apply answered_mono, He2.
Qed.

(** ** Client batches *)

Lemma append_request_sound r :
  ready r →
  evolves r (append_request r) ∧ log_grows r (append_request r) ∧
  response_cache_ (append_request r) = response_cache_ r.
Proof.
  intros [Hr Hc]. destruct (pending_client_requests_ r) as [|req rest] eqn:E.
  { unfold append_request. rewrite E. split_and!; [apply evolves_refl|apply log_grows_refl|done]. }
  destruct (append_request_cons r req rest E) as [pc ->]. split_and!; [by split| |done].
  intros s e Hf _. simpl. rewrite find_append_entry by done. case_if; [|done].
  subst. by rewrite find_next_slot in Hf.
Qed.

Lemma iter_append_sound n r :
  ready r →
  ready (Nat.iter n append_request r) ∧ evolves r (Nat.iter n append_request r) ∧
  log_grows r (Nat.iter n append_request r).
Proof.
  intros Hr. induction n as [|n (IHr & IHe & IHl)].
  { split_and!; [done|apply evolves_refl|apply log_grows_refl]. }
  change (Nat.iter (S n) append_request r) with (append_request (Nat.iter n append_request r)).
  destruct (append_request_sound _ IHr) as (H1 & H2 & H3). split_and!.
  - split; [by apply append_request_wf, IHr|]. rewrite H3. apply IHr.
  - by eapply evolves_trans.
  - by eapply log_grows_trans.
Qed.

Lemma batched_sound r : ready r → sound log_grows r (batched r, []).
Proof.
  intros Hr. destruct (iter_append_sound
    (Nat.min (length (pending_client_requests_ r)) append_batch_size_) r Hr) as (H1 & H2 & H3).
  apply sound_ret; [done|by apply batched_wf, Hr|apply H1|..]; unfold batched;
    generalize dependent (Nat.iter (Nat.min (length (pending_client_requests_ r)) append_batch_size_)
      append_request r); intros x H1 H2 H3.
  - destruct H2. by split.
  - exact H3.
Qed.

Lemma flush_batch_sound r : ready r → sound log_grows r (flush_batch r).
Proof.
  intros Hr. rewrite flush_batch_advance.
  rewrite <- (bind_ret (batched r) (λ x, broadcast_propose x ;> advance)).
  apply sound_bind; [by apply batched_sound|]. intros x Hx.
  apply sound_bind; [by apply broadcast_sound|]. apply advance_sound.
Qed.

Lemma flush_loop_sound n r : ready r → sound log_grows r (flush_loop n r).
Proof.
  revert r. induction n as [|n IH]; intros r Hr; cbn [flush_loop]; [by apply sound_id|].
  case_if; [|by apply sound_id]. apply sound_bind; [by apply flush_batch_sound|apply IH].
Qed.

Lemma flush_sound now r : ready r → sound log_grows r (flush_pending_client_requests now r).
Proof.
  intros Hr. pose proof (flush_good now r (proj1 Hr)) as Hg.
  unfold flush_pending_client_requests in *. destruct (_ || _) eqn:E.
  { apply sound_same; [done|done|reflexivity|reflexivity|simpl; lia|constructor]. }
  apply sound_bind; [by apply flush_loop_sound|]. intros x Hx.
  unfold pure_. apply sound_same; cbn [fst snd];
    [done| |case_if; reflexivity|case_if; reflexivity|case_if; simpl; lia|constructor].
  apply good_ret. destruct Hx as [Hx _]. case_if; same_core Hx.
Qed.

(** ** The handlers that keep the log *)

Lemma become_leader_sound r : ready r → sound log_grows r (broadcast_propose (become_leader r)).
Proof.
  intros Hr. rewrite <- (bind_ret (become_leader r) broadcast_propose).
  apply sound_bind; [|apply broadcast_sound]. apply sound_same; [done|by apply good_ret, become_leader_wf, Hr|..];
    cbn [fst snd]; rewrite ?become_leader_frame; [reflexivity|reflexivity|simpl; lia|constructor].
Qed.

Lemma handle_prepare_sound msg r : ready r → sound log_grows r (handle_prepare msg r).
Proof.
  intros Hr. unfold handle_prepare. case_if; [by apply become_follower_sound|].
  destruct (_ || _) eqn:E; [by apply sound_id|].
  match goal with |- sound _ _ (if has_quorum ?x _ then _ else _) => set (r1 := x) end.
  assert (H1 : sound log_grows r (r1, [])).
  { apply sound_same; [done|apply good_ret|reflexivity|reflexivity|simpl; lia|constructor].
    destruct Hr as [Hr _]. unfold r1. same_core Hr. }
  case_if; [|done].
  rewrite <- (bind_ret r1 (λ x, broadcast_propose (become_leader x))).
  apply sound_bind; [done|apply become_leader_sound].
Qed.

Lemma handle_probe_sound msg r : ready r → sound log_grows r (handle_probe msg r).
Proof.
  intros Hr. pose proof (handle_probe_good msg r (proj1 Hr)) as Hg. unfold handle_probe in *.
  case_if; [apply sound_same; [done|done|done|done|simpl; lia|repeat constructor]|].
  assert (Hf : sound log_grows r (if current_round_ r <? pb_round msg
    then become_follower (pb_round msg) (leader_index_ r) r else r, [])).
  { case_if; [by apply become_follower_sound|by apply sound_id]. }
  revert Hf Hg. generalize (if current_round_ r <? pb_round msg
    then become_follower (pb_round msg) (leader_index_ r) r else r). intros x Hf Hg.
  destruct Hf as [Hgx Hcx Hex Hlx _].
  case_if; (split; [exact Hg|exact Hcx| |exact Hlx|repeat constructor]); destruct Hex; by split.
Qed.

Lemma handle_ack_sound msg r : ready r → sound log_grows r (handle_ack msg r).
Proof.
  intros Hr. rewrite handle_ack_eq. cbv zeta. case_if; [by apply become_follower_sound|].
  destruct (_ || _) eqn:E; [by apply sound_id|]. case_if.
  - apply sound_bind.
    + match goal with |- sound _ _ (advance ?x) => set (r1 := x); rewrite <- (bind_ret r1 advance) end.
      apply sound_bind; [|apply advance_sound].
      apply sound_same; [done|apply good_ret|reflexivity|reflexivity|simpl; lia|constructor].
      destruct Hr as [Hr _]. unfold r1. same_core Hr.
    + intros x Hx. case_if; [by apply send_propose_sound|by apply sound_id].
  - match goal with |- sound _ _ (send_propose_to ?s ?x) =>
      set (r1 := x); rewrite <- (bind_ret r1 (send_propose_to s)) end.
    apply sound_bind; [|intros; by apply send_propose_sound].
    apply sound_same; [done|apply good_ret|reflexivity|reflexivity|simpl; lia|constructor].
    destruct Hr as [Hr _]. unfold r1. same_core Hr.
Qed.

Lemma candidacy_sound r : ready r → sound log_grows r (candidacy r, []).
Proof.
  intros Hr. apply sound_same; [done|by apply good_ret, candidacy_wf, Hr|reflexivity|reflexivity| |constructor].
  simpl. lia.
Qed.

Lemma start_probe_round_sound r : ready r → sound log_grows r (start_probe_round r).
Proof.
  intros Hr. rewrite start_probe_round_eq. apply sound_bind.
  - destruct (candidacy_sound r Hr) as [[Hw _] Hc He Hl _]. cbn [fst] in *. unfold send_probes.
    generalize dependent (candidacy r). intros x Hw Hc He Hl.
    split; cbn [fst snd]; [|exact Hc|exact He|exact Hl|by apply Forall_fmap, Forall_forall].
    split; [exact Hw|]. by apply Forall_fmap, Forall_forall.
  - intros x Hx. case_if; [by apply become_leader_sound|by apply sound_id].
Qed.

Lemma handle_client_request_sound now req r : ready r → sound log_grows r (handle_client_request now req r).
Proof.
  intros Hr. pose proof (handle_client_request_good now req r (proj1 Hr)) as Hg.
  unfold handle_client_request in *. case_if; [apply sound_same; try done; by repeat constructor|].
  destruct (response_cache_ r !! _) as [resp|] eqn:E.
  { apply sound_same; try done. constructor; [|constructor]. eapply answered_cache; [done|].
    destruct Hr as [_ Hc]. by rewrite (Hc _ _ E). }
  case_if; [by apply sound_id|]. clear Hg.
  match goal with |- sound _ _ (if (append_batch_size_ <=? length (pending_client_requests_ ?x))%nat then _ else _) =>
    assert (Hx : sound log_grows r (x, [])); [|revert Hx; generalize x] end.
  { apply sound_same; [done| |by case_match|by case_match|case_match; simpl; lia|constructor].
    apply good_ret. destruct Hr as [Hr _]. case_match; same_core Hr. }
  intros x Hx. case_if; [|done]. rewrite <- (bind_ret x (flush_pending_client_requests now)).
  apply sound_bind; [done|]. intros y. apply flush_sound.
Qed.

(** ** Proposals *)

Lemma accept_loop_ready msg r :
  ready r → msg_ok (Propose msg) →
  prefix_matches r (ps_prev_log_index msg) (ps_prev_log_round msg) = true →
  sound anything r ((accept_loop (ps_entries msg) r (ps_prev_log_index msg)).1, []).
Proof.
  intros [Hr Hc] [Hp Hco] Hm. apply prefix_matches_range in Hm; [|done|done].
  destruct (accept_loop_wf _ _ _ Hr Hm Hco) as [Hw _].
  destruct (accept_loop_frame (ps_entries msg) r (ps_prev_log_index msg)) as (log & next & E).
  rewrite E in Hw |- *. split; [by apply good_ret|done|by split|done|constructor].
Qed.

Lemma settle_sound msg r : ready r → sound log_grows r (settle msg r).
Proof.
  intros Hr. unfold settle. apply sound_bind.
  - match goal with |- sound _ _ (apply_committed_entries ?x) =>
      rewrite <- (bind_ret x apply_committed_entries) end.
    apply sound_bind; [|apply apply_committed_sound]. case_if; [|by apply sound_id].
    destruct Hr as [Hr Hc]. pose proof (rwf_applied r Hr). pose proof (rwf_commit r Hr).
    assert (Hrange : last_applied_ r ≤ Z.min (ps_decide_through msg) (last_log_index r) < next_slot_ r)
      by (unfold last_log_index; lia).
    apply sound_ret; [by split|by apply set_commit_wf|done| |by intros s e H' _].
    split; simpl; try done. unfold last_log_index. lia.
  - intros x Hx. unfold pure_. case_if; [|by apply sound_id].
    apply set_trim_sound; [done|]. pose proof (rwf_trim x (proj1 Hx)). lia.
Qed.

Lemma handle_propose_sound msg r :
  ready r → msg_ok (Propose msg) → sound anything r (handle_propose msg r).
Proof.
  intros Hr Hm. pose proof (handle_propose_good msg r (proj1 Hr) Hm) as Hg.
  rewrite handle_propose_eq in *. cbv zeta in *. case_if.
  { eapply sound_weaken, sound_same; try done. repeat constructor. }
  pose proof (become_follower_sound (ps_round msg) (ps_leader msg) r Hr) as [Hg1 Hc1 He1 _ _].
  revert Hg Hg1 Hc1 He1. cbn [fst]. generalize (become_follower (ps_round msg) (ps_leader msg) r).
  intros x Hg Hg1 Hc1 He1. destruct (negb _) eqn:E; bsimp.
  { split; [done|done|done|done|repeat constructor]. }
  pose proof (accept_loop_ready msg x (conj (proj1 Hg1) Hc1) Hm E) as [Hg2 Hc2 He2 _ _].
  destruct (accept_loop _ _ _) as [y [m|slot]]; cbn [fst] in *.
  - rewrite <- (bind_ret y (settle msg)). apply sound_bind_any; [apply sound_bind_any|].
    + split; [done|done|by eapply evolves_trans|done|constructor].
    + intros z Hz. by eapply sound_weaken, settle_sound.
    + intros w Hw. eapply sound_weaken, sound_same; [done|by apply good_send; [apply Hw|]|done|done|simpl; lia|].
      repeat constructor.
  - split; [done|done|by eapply evolves_trans|done|repeat constructor].
Qed.

Lemma settle_role msg r : replica_wf r → role_ (settle msg r).1 = role_ r.
Proof.
  intros Hr. unfold settle. rewrite and_then_fst. unfold pure_. cbn [fst].
  match goal with |- context [apply_committed_entries ?x] => set (r1 := x) end.
  assert (Hw : replica_wf r1).
  { unfold r1. case_if; [|done]. pose proof (rwf_applied r Hr). pose proof (rwf_commit r Hr).
    apply set_commit_wf; [done|]. unfold last_log_index. lia. }
  destruct (apply_committed_wf r1 Hw) as (_ & (?&?&?&?&?&E) & _). rewrite E.
  assert (H1 : role_ r1 = role_ r) by (unfold r1; by case_if).
  case_if; simpl; [unfold trim_log_prefix; by destruct (trim_loop _ _ _)|done].
Qed.

(** After accepting or rejecting a current proposal a replica is a follower. *)
Lemma handle_propose_follower msg r :
  replica_wf r → msg_ok (Propose msg) → current_round_ r ≤ ps_round msg →
  role_ (handle_propose msg r).1 = follower.
Proof.
  intros Hr [Hp Hco] Hle. rewrite handle_propose_eq. cbv zeta. case_if; [lia|].
  assert (Hf : role_ (become_follower (ps_round msg) (ps_leader msg) r) = follower)
    by (rewrite become_follower_frame; done).
  apply (become_follower_wf (ps_round msg) (ps_leader msg)) in Hr. revert Hf Hr.
  generalize (become_follower (ps_round msg) (ps_leader msg) r). intros x Hf Hr.
  destruct (negb _) eqn:E; bsimp; [done|].
  apply prefix_matches_range in E; [|done|done]. destruct (accept_loop_wf _ _ _ Hr E Hco) as [Hw _].
  destruct (accept_loop_frame (ps_entries msg) x (ps_prev_log_index msg)) as (log & next & El).
  destruct (accept_loop _ _ _) as [y [m|slot]]; cbn [fst] in *; subst.
  - rewrite and_then_fst. cbn [fst]. rewrite settle_role by done. done.
  - done.
Qed.

(** The log only grows unless the step accepts a proposal. *)
Definition log_grows_or_follows (r r' : pt_paxos_replica) : Prop :=
  log_grows r r' ∨ role_ r' = follower.

Lemma sound_impl (P Q : pt_paxos_replica → pt_paxos_replica → Prop) r p :
  (P r p.1 → Q r p.1) → sound P r p → sound Q r p.
Proof. intros H []. split; auto. Qed.

Lemma run_iteration_sound now w r :
  ready r → wakeup_ok w → sound log_grows_or_follows r (run_iteration now w r).
Proof.
  intros Hr Hw. assert (Hl : ∀ p, sound log_grows r p → sound log_grows_or_follows r p).
  { intros p. apply sound_impl. by left. }
  unfold run_iteration. case_if; [by apply Hl, flush_sound|]. destruct w as [req|m|].
  - by apply Hl, handle_client_request_sound.
  - destruct m as [m|m|m|m]; cbn [handle_replica_message].
    + by apply Hl, handle_probe_sound.
    + by apply Hl, handle_prepare_sound.
    + destruct (decide (current_round_ r ≤ ps_round m)) as [Hle|Hlt].
      * eapply sound_impl; [|by apply handle_propose_sound]. intros _. right.
        by apply handle_propose_follower; [apply Hr|..].
      * rewrite handle_propose_eq. cbv zeta. case_if; [|lia]. apply Hl, sound_same; try done.
        -- apply good_send; [apply Hr|done].
        -- repeat constructor.
    + by apply Hl, handle_ack_sound.
  - apply Hl. case_if; [|by apply start_probe_round_sound].
    case_if; [by apply flush_sound|by apply broadcast_sound].
Qed.

(** * The commit rule *)

(** A slot the leader may commit: written in its own round and held by a
    quorum. *)
Definition eligible (r : pt_paxos_replica) (idx : Z) : Prop :=
  round_at r idx = current_round_ r ∧ (quorum_size r ≤ replicated r idx)%nat.

Lemma commit_loop_greatest r n :
  let c := commit_loop r n in
  (c = commit_index_ r ∨ commit_index_ r < c ∧ eligible r c) ∧
  ∀ idx, c < idx ≤ commit_index_ r + Z.of_nat n → ¬ eligible r idx.
Proof.
  cbv zeta. induction n as [|n [IH1 IH2]]; cbn [commit_loop].
  { split; [by left|]. intros. lia. }
  set (top := commit_index_ r + Z.of_nat (S n)) in *.
  assert (Hstep : ¬ eligible r top → ∀ idx, commit_loop r n < idx ≤ top → ¬ eligible r idx).
  { intros Ht idx Hi. destruct (decide (idx = top)) as [->|]; [done|]. apply IH2. unfold top in *. lia. }
  destruct (negb (round_at r top =? current_round_ r)) eqn:E1; bsimp.
  { split; [done|]. apply Hstep. unfold eligible. tauto. }
  destruct (has_quorum r (replicated r top)) eqn:E2; unfold has_quorum in E2.
  - apply Nat.leb_le in E2. split; [right; split; [unfold top; lia|by split]|]. intros. lia.
  - apply Nat.leb_gt in E2. split; [done|]. apply Hstep. unfold eligible. lia.
Qed.

(** * Draining the client queue *)

Definition queue (r : pt_paxos_replica) :=
  (pending_client_requests_ r, next_slot_ r, role_ r, current_round_ r).

Lemma frame_next_queue r r' : frame_next r r' → queue r' = queue r.
Proof. by intros (ni & _ & ->). Qed.

Lemma frame_apply_queue r r' : frame_apply r r' → queue r' = queue r.
Proof. by intros (?&?&?&?&?&->). Qed.

Lemma trim_log_prefix_queue r : queue (trim_log_prefix r) = queue r.
Proof. unfold trim_log_prefix. by destruct (trim_loop _ _ _). Qed.

Lemma update_trim_queue r : queue (update_trim_watermark r) = queue r.
Proof.
  unfold update_trim_watermark. case_if; [done|]. case_if; [|done]. by rewrite trim_log_prefix_queue.
Qed.

Lemma apply_committed_queue r : queue (apply_committed_entries r).1 = queue r.
Proof.
  rewrite apply_committed_fst, trim_log_prefix_queue. apply frame_apply_queue, apply_loop_frame.
Qed.

Lemma advance_queue r : queue (advance r).1 = queue r.
Proof.
  unfold advance. rewrite and_then_fst. unfold pure_. cbn [fst].
  rewrite update_trim_queue, apply_committed_queue. unfold update_commit_index. by case_if.
Qed.

Lemma iter_append_spec n r :
  replica_wf r → (n ≤ length (pending_client_requests_ r))%nat →
  let r' := Nat.iter n append_request r in
  queue r' = (drop n (pending_client_requests_ r), next_slot_ r + Z.of_nat n, role_ r, current_round_ r) ∧
  ∀ i req, (i < n)%nat → pending_client_requests_ r !! i = Some req →
    find (next_slot_ r + Z.of_nat i) (log_ r') =
      Some (mk_log_entry (next_slot_ r + Z.of_nat i) (current_round_ r) req).
Proof.
  intros Hr. induction n as [|n IH]; intros Hn.
  { split; [|lia]. unfold queue. simpl. rewrite drop_0. repeat f_equal. lia. }
  destruct IH as [Hq Hf]; [lia|]. cbv zeta in *.
  change (Nat.iter (S n) append_request r) with (append_request (Nat.iter n append_request r)).
  pose proof (iter_append_wf n r Hr) as Hw. revert Hq Hf Hw. generalize (Nat.iter n append_request r).
  intros x [= Hp Hs Hro Hcu] Hf Hw.
  destruct (drop n (pending_client_requests_ r)) as [|req rest] eqn:Ed.
  { apply (f_equal length) in Ed. rewrite length_drop in Ed. simpl in Ed. lia. }
  assert (Hreq : pending_client_requests_ r !! n = Some req).
  { rewrite <- (Nat.add_0_r n), <- lookup_drop, Ed. done. }
  destruct (append_request_cons x req rest) as [pc Hx]; [congruence|]. rewrite Hx. split.
  - transitivity (rest, next_slot_ x + 1, role_ x, current_round_ x); [reflexivity|].
    assert (rest = drop (S n) (pending_client_requests_ r)) as ->
      by (rewrite <- Nat.add_1_r, <- drop_drop, Ed; done).
    rewrite Hs, Hro, Hcu. by replace (next_slot_ r + Z.of_nat n + 1) with (next_slot_ r + Z.of_nat (S n)) by lia.
  - intros i q Hi Hlq. simpl. rewrite find_append_entry by done. rewrite Hs, Hcu.
    destruct (decide (i = n)) as [->|Hne].
    + rewrite Z.eqb_refl. congruence.
    + rewrite (proj2 (Z.eqb_neq _ _)) by lia. apply Hf; [lia|done].
Qed.

Lemma flush_batch_spec r :
  ready r →
  let n := Nat.min (length (pending_client_requests_ r)) append_batch_size_ in
  let r' := (flush_batch r).1 in
  queue r' = (drop n (pending_client_requests_ r), next_slot_ r + Z.of_nat n, role_ r, current_round_ r) ∧
  ∀ i req, (i < n)%nat → pending_client_requests_ r !! i = Some req →
    trim_through_ r' < next_slot_ r + Z.of_nat i →
    find (next_slot_ r + Z.of_nat i) (log_ r') =
      Some (mk_log_entry (next_slot_ r + Z.of_nat i) (current_round_ r) req).
Proof.
  intros Hr n r'. pose proof (flush_batch_advance r) as Hfb.
  destruct (iter_append_spec n r (proj1 Hr)) as [Hq Hf]; [unfold n; lia|]. cbv zeta in *.
  pose proof (batched_sound r Hr) as [Hgb Hcb Heb _ _]. cbn [fst] in *.
  assert (Hb : queue (batched r) = queue (Nat.iter n append_request r) ∧
               log_ (batched r) = log_ (Nat.iter n append_request r)).
  { unfold batched. fold n. generalize (Nat.iter n append_request r). intros x. by split. }
  destruct Hb as [Hbq Hbl]. destruct Hgb as [Hbw _]. cbn [fst] in Hbw.
  assert (Hs : sound log_grows (batched r) (broadcast_propose (batched r) ;> advance)).
  { apply sound_bind; [exact (broadcast_sound _ (conj Hbw Hcb))|exact advance_sound]. }
  unfold r'. rewrite Hfb. split.
  - rewrite and_then_fst, advance_queue, (frame_next_queue _ _ (broadcast_frame _)). congruence.
  - intros i req Hi Hl Ht. apply (so_rel _ _ _ Hs); [|done]. rewrite Hbl. by apply Hf.
Qed.

Lemma flush_loop_spec k r :
  ready r → role_ r = leader → (length (pending_client_requests_ r) ≤ k)%nat →
  let r' := (flush_loop k r).1 in
  queue r' = ([], next_slot_ r + size (pending_client_requests_ r), leader, current_round_ r) ∧
  ∀ i req, pending_client_requests_ r !! i = Some req →
    trim_through_ r' < next_slot_ r + Z.of_nat i →
    find (next_slot_ r + Z.of_nat i) (log_ r') =
      Some (mk_log_entry (next_slot_ r + Z.of_nat i) (current_round_ r) req).
Proof.
  revert r. induction k as [|k IH]; intros r Hr Hl Hk; cbv zeta.
  { destruct (pending_client_requests_ r) eqn:E; [|simpl in Hk; lia]. cbn [flush_loop fst].
    split; [|done]. unfold queue. rewrite E, Hl. repeat f_equal. rewrite size_nil. lia. }
  cbn [flush_loop]. assert (is_leader r = true) as -> by by apply bool_decide_eq_true.
  destruct (pending_client_requests_ r) as [|q qs] eqn:E.
  { cbn [negb bool_decide andb fst]. split; [|done]. unfold queue. simpl. rewrite E, Hl.
    repeat f_equal. rewrite size_nil. lia. }
  rewrite bool_decide_eq_false_2 by done. cbn [negb andb]. rewrite <- E in *.
  set (n := Nat.min (length (pending_client_requests_ r)) append_batch_size_).
  assert (Hn : (1 ≤ n)%nat) by (unfold n, append_batch_size_; rewrite E; simpl; lia).
  destruct (flush_batch_spec r Hr) as [Hq Hf]. fold n in Hq, Hf. cbv zeta in *.
  pose proof (flush_batch_sound r Hr) as [[Hgw _] Hc _ _ _].
  rewrite and_then_fst. revert Hq Hf Hgw Hc. generalize (flush_batch r).1. intros y [= Hp Hs Hro Hcu] Hf Hgw Hc.
  pose proof (flush_loop_sound k y (conj Hgw Hc)) as [_ _ Hee Hll _].
  destruct (IH y (conj Hgw Hc)) as [Hq' Hf'];
    [congruence|rewrite Hp, length_drop; lia|]. cbv zeta in *.
  rewrite Hq', Hp, Hs, Hcu. split.
  { replace (next_slot_ r + Z.of_nat n + size (drop n (pending_client_requests_ r)))
      with (next_slot_ r + size (pending_client_requests_ r)); [done|].
    unfold size. rewrite length_drop. unfold n. lia. }
  intros i req Hi Ht. destruct (decide (i < n)%nat) as [Hlt|Hge].
  - apply Hll; [|done]. apply Hf; [done|done|]. destruct Hee. lia.
  - replace (next_slot_ r + Z.of_nat i) with (next_slot_ y + Z.of_nat (i - n)) in * by lia.
    rewrite (Hf' _ req); [by rewrite Hcu| |done]. rewrite Hp, lookup_drop. rewrite <- Hi. f_equal. lia.
Qed.

Lemma initialize_ready i n l draws : (i < n)%nat → ready (initialize l (new_replica i n draws)).
Proof.
  intros Hi. split; [by apply initialize_wf|]. unfold initialize.
  case_if; [rewrite become_leader_frame|]; apply map_Forall_empty.
Qed.

(** * Properties *)

(** An iteration of [run], whatever it wakes up with, keeps the replica well
    formed: the log holds exactly the slots between the trimmed prefix and
    [next_slot_], and trimmed <= applied <= committed < [next_slot_]; every
    proposal it sends carries consecutive slots. *)
Theorem run_iteration_invariant (now : Z) (w : wakeup) (r : pt_paxos_replica) :
  replica_wf r → wakeup_ok w →
  replica_wf (run_iteration now w r).1 ∧ Forall output_ok (run_iteration now w r).2.
Proof. apply run_iteration_good. Qed.

Lemma run_iteration_invariant_witness :
  replica_wf (run_iteration 0 timer_wakeup (initialize 0 (new_replica 1 3 []))).1.
Proof. apply run_iteration_invariant; [apply initialize_wf; lia|done]. Defined.

(** An iteration never goes back: the round, the commit index, the applied
    slot and the trimmed prefix do not decrease, and no recorded response is
    dropped or changed. *)
Theorem run_iteration_monotone (now : Z) (w : wakeup) (r : pt_paxos_replica) :
  ready r → wakeup_ok w →
  let r' := (run_iteration now w r).1 in
  current_round_ r ≤ current_round_ r' ∧ commit_index_ r ≤ commit_index_ r' ∧
  last_applied_ r ≤ last_applied_ r' ∧ trim_through_ r ≤ trim_through_ r' ∧
  ∀ serial resp, response_cache_ r !! serial = Some resp → response_cache_ r' !! serial = Some resp.
Proof.
  intros Hr Hw r'. destruct (run_iteration_sound now w r Hr Hw) as [_ _ [] _ _].
  split_and!; try done. intros serial resp H. by eapply lookup_weaken.
Qed.

Lemma run_iteration_monotone_witness :
  current_round_ (initialize 0 (new_replica 1 3 [])) ≤
  current_round_ (run_iteration 0 timer_wakeup (initialize 0 (new_replica 1 3 []))).1.
Proof. apply run_iteration_monotone; [apply initialize_ready; lia|done]. Defined.

(** C27 Leaders only append: a replica that is leader after an iteration still
    holds every log entry it held before, except the trimmed prefix. *)
Theorem leader_append_only (now : Z) (w : wakeup) (r : pt_paxos_replica) (slot : Z) (e : log_entry) :
  ready r → wakeup_ok w → role_ (run_iteration now w r).1 = leader →
  find slot (log_ r) = Some e → trim_through_ (run_iteration now w r).1 < slot →
  find slot (log_ (run_iteration now w r).1) = Some e.
Proof.
  intros Hr Hw Hl. destruct (run_iteration_sound now w r Hr Hw) as [_ _ _ [Hg|Hf] _]; [apply Hg|].
  congruence.
Qed.

(** A leader with one entry in its log. *)
Definition leader_with_entry : pt_paxos_replica :=
  (flush_pending_client_requests 0
     (handle_client_request 0 (put_request 7 $"k" $"v" any_version)
        (initialize 0 (new_replica 0 3 []))).1).1.

Lemma leader_with_entry_ready : ready leader_with_entry.
Proof.
  unfold leader_with_entry.
  assert (H : ready (initialize 0 (new_replica 0 3 []))) by (apply initialize_ready; lia).
  pose proof (handle_client_request_sound 0 (put_request 7 $"k" $"v" any_version) _ H) as [[Hw _] Hc _ _ _].
  pose proof (flush_sound 0 _ (conj Hw Hc)) as [[Hw' _] Hc' _ _ _]. by split.
Qed.

Lemma leader_append_only_witness :
  find 1 (log_ (run_iteration 0 timer_wakeup leader_with_entry).1) =
    Some (mk_log_entry 1 0 (put_request 7 $"k" $"v" any_version)).
Proof.
  apply leader_append_only; [apply leader_with_entry_ready|exact I|by vm_compute..].
Defined.

(** C7 The commit rule: a leader's commit index moves to the highest slot of
    its own round that a quorum holds, and stays when there is none. *)
Theorem update_commit_index_greatest (r : pt_paxos_replica) :
  role_ r = leader →
  let c := commit_index_ (update_commit_index r) in
  (c = commit_index_ r ∨
   commit_index_ r < c ∧ round_at r c = current_round_ r ∧ (quorum_size r ≤ replicated r c)%nat) ∧
  ∀ idx, c < idx ≤ last_log_index r →
    ¬ (round_at r idx = current_round_ r ∧ (quorum_size r ≤ replicated r idx)%nat).
Proof.
  intros Hl c. unfold c, update_commit_index. unfold is_leader. rewrite bool_decide_eq_true_2 by done.
  cbn [negb commit_index_ set_commit_index_].
  destruct (commit_loop_greatest r (Z.to_nat (last_log_index r - commit_index_ r))) as [H1 H2].
  split; [exact H1|]. intros idx Hi. apply H2. pose proof (commit_loop_range r
    (Z.to_nat (last_log_index r - commit_index_ r))). lia.
Qed.

Lemma update_commit_index_greatest_witness :
  let r := set_match_index_ [1; 1; 0] leader_with_entry in
  commit_index_ r = 0 ∧ commit_index_ (update_commit_index r) = 1.
Proof.
  intros r. split; [by vm_compute|].
  destruct (update_commit_index_greatest r) as [_ H]; [by vm_compute|].
  destruct (decide (commit_index_ (update_commit_index r) < 1)) as [Hlt|]; [|by vm_compute].
  destruct (H 1); [split; [done|by vm_compute]|]. split; [by vm_compute|]. vm_compute. lia.
Defined.

(** C5 Applying executes every slot from the last applied one to the commit
    index, in order, none missing; a serial is executed once, at its first
    occurrence, and the database depends on nothing else (not on the role). *)
Theorem apply_exactly_once (r : pt_paxos_replica) :
  replica_wf r →
  let r' := (apply_committed_entries r).1 in
  let reqs := requests_in (log_ r) (last_applied_ r) (commit_index_ r) in
  last_applied_ r' = commit_index_ r ∧
  size reqs = commit_index_ r - last_applied_ r ∧
  rdb_ r' = foldl (λ d q, (process_req d q).1) (rdb_ r)
              (first_occurrences (dom (response_cache_ r)) reqs).
Proof.
  intros Hr r' reqs. destruct (apply_committed_wf r Hr) as (_ & _ & Ha & _).
  pose proof (rwf_trim r Hr). pose proof (rwf_applied r Hr). pose proof (rwf_commit r Hr).
  split_and!; [done|apply requests_complete; try done; lia|].
  change (rdb_ r') with (machine_of r').1. unfold r'.
  rewrite apply_committed_machine, exec_once by done. done.
Qed.

Lemma apply_exactly_once_witness :
  let r := set_commit_index_ 1 leader_with_entry in
  last_applied_ (apply_committed_entries r).1 = 1.
Proof.
  intros r. apply (apply_exactly_once r). destruct leader_with_entry_ready as [Hw _].
  unfold r. apply set_commit_wf; [done|]. vm_compute. intuition congruence.
Defined.

(** Replicas whose logs agree on the committed slots keep equal databases
    whatever batches they apply them in: when a second replica has applied at
    least as far, its database is the first one's after more requests. *)
Theorem replicas_apply_alike (r1 r2 : pt_paxos_replica) :
  replica_wf r1 → replica_wf r2 →
  machine_of r1 = machine_of r2 → last_applied_ r1 = last_applied_ r2 →
  commit_index_ r1 ≤ commit_index_ r2 →
  (∀ s, last_applied_ r1 < s ≤ commit_index_ r1 → find s (log_ r1) = find s (log_ r2)) →
  machine_of (apply_committed_entries r2).1 =
    foldl exec (machine_of (apply_committed_entries r1).1)
      (requests_in (log_ r2) (commit_index_ r1) (commit_index_ r2)).
Proof.
  intros H1 H2 Hm Ha Hc Hl. rewrite !apply_committed_machine by done.
  pose proof (rwf_applied r1 H1).
  rewrite (requests_app (log_ r2) _ (commit_index_ r1)) by lia.
  rewrite foldl_app, Hm, Ha. do 2 f_equal. symmetry. apply requests_ext. by rewrite <- Ha.
Qed.

Lemma replicas_apply_alike_witness :
  machine_of (apply_committed_entries leader_with_entry).1 =
    foldl exec (machine_of (apply_committed_entries leader_with_entry).1) [].
Proof.
  destruct leader_with_entry_ready as [Hw _].
  apply (replicas_apply_alike leader_with_entry leader_with_entry); done.
Defined.

(** Flushing terminates with the client queue empty: a leader gives the
    queued requests the next slots in order, in its round, and stays leader. *)
Theorem flush_drains (now : Z) (r : pt_paxos_replica) :
  ready r → role_ r = leader →
  let r' := (flush_pending_client_requests now r).1 in
  pending_client_requests_ r' = [] ∧ role_ r' = leader ∧
  next_slot_ r' = next_slot_ r + size (pending_client_requests_ r) ∧
  ∀ i req, pending_client_requests_ r !! i = Some req →
    trim_through_ r' < next_slot_ r + Z.of_nat i →
    find (next_slot_ r + Z.of_nat i) (log_ r') =
      Some (mk_log_entry (next_slot_ r + Z.of_nat i) (current_round_ r) req).
Proof.
  intros Hr Hl r'. unfold r', flush_pending_client_requests.
  assert (is_leader r = true) as -> by by apply bool_decide_eq_true.
  destruct (pending_client_requests_ r) as [|q qs] eqn:E.
  { rewrite size_nil, Z.add_0_r. simpl. rewrite E. split_and!; done. }
  rewrite bool_decide_eq_false_2 by done. cbn [negb orb]. rewrite <- E in *.
  destruct (flush_loop_spec (length (pending_client_requests_ r)) r Hr Hl) as [Hq Hf]; [done|].
  cbv zeta in *. rewrite and_then_fst. unfold pure_. cbn [fst].
  revert Hq Hf. generalize (flush_loop (length (pending_client_requests_ r)) r).1.
  intros x [= Hp Hs Hro _] Hf. rewrite Hp. rewrite bool_decide_eq_true_2 by done. split_and!; done.
Qed.

Lemma flush_drains_witness :
  pending_client_requests_ (flush_pending_client_requests 0 leader_with_entry).1 = [].
Proof. apply flush_drains; [apply leader_with_entry_ready|by vm_compute]. Defined.

(** A client is answered with a redirection or with the recorded response
    of its serial, that is, only for a request this replica has applied. *)
Theorem answers_from_cache (now : Z) (w : wakeup) (r : pt_paxos_replica) (resp : response) :
  ready r → wakeup_ok w → to_client resp ∈ (run_iteration now w r).2 →
  (∃ serial e target, resp = redirection_response serial e target) ∨
  response_cache_ (run_iteration now w r).1 !! response_serial resp = Some resp.
Proof.
  intros Hr Hw Hin. destruct (run_iteration_sound now w r Hr Hw) as [_ _ _ _ Ha].
  rewrite Forall_forall in Ha. apply Ha in Hin. simpl in Hin.
  destruct resp; [left; eauto|by right..].
Qed.

Lemma answers_from_cache_witness :
  let r := initialize 0 (new_replica 1 3 []) in
  (∃ serial e target, redirection_response 9 redirect 0 = redirection_response serial e target) ∨
  response_cache_ (run_iteration 0 (client_wakeup (get_request 9 $"k")) r).1 !! 9 =
    Some (redirection_response 9 redirect 0).
Proof.
  intros r. apply (answers_from_cache 0 (client_wakeup (get_request 9 $"k")) r (redirection_response 9 redirect 0)).
  - apply initialize_ready. lia.
  - exact I.
  - vm_compute. left.
Defined.

(** Log repair makes progress: a rejection from a follower moves the slot
    the leader will send next strictly back, down to the trimmed prefix. *)
Theorem nack_backs_up (msg : ack_message) (r : pt_paxos_replica) :
  replica_wf r → role_ r = leader → ak_round msg = current_round_ r → ak_success msg = false →
  (ak_server msg < nreplicas_ r)%nat → ak_server msg ≠ index_ r → 0 ≤ ak_next_index msg →
  let before := at_ (next_index_ r) (ak_server msg) in
  let after := at_ (next_index_ (handle_ack msg r).1) (ak_server msg) in
  trim_through_ r + 1 < before → trim_through_ r + 1 ≤ after < before.
Proof.
  intros Hr Hl Hrd Hs Hn Hne Hni before after Hlt. unfold after. rewrite handle_ack_eq. cbv zeta.
  rewrite Hrd, Z.ltb_irrefl, Z.eqb_refl, Hs. unfold is_leader. rewrite bool_decide_eq_true_2 by done.
  cbn [negb orb]. fold before.
  match goal with |- context [set_next_index_ (<[_ := Z.max ?f _]> _) r] => set (fb := f) end.
  assert (Hfb : fb < before).
  { unfold fb. repeat case_if; pose proof (rwf_trim r Hr); lia. }
  unfold send_propose_to. simpl. unfold is_leader. simpl.
  rewrite bool_decide_eq_false_2 by done. rewrite bool_decide_eq_true_2 by done. cbn [negb orb fst].
  simpl. unfold at_. rewrite !list_lookup_insert_eq; [simpl; lia|rewrite (rwf_next r Hr); done|].
  rewrite length_insert, (rwf_next r Hr). done.
Qed.

Lemma nack_backs_up_witness :
  let r := set_next_index_ [9; 9; 9] (initialize 0 (new_replica 0 3 [])) in
  at_ (next_index_ (handle_ack (mk_ack 0 1 false 0 1) r).1) 1 < 9.
Proof.
  intros r. apply (nack_backs_up (mk_ack 0 1 false 0 1) r); try (vm_compute; (done || lia)).
  apply (frame_next_wf (initialize 0 (new_replica 0 3 []))); [|apply initialize_wf; lia].
  exists [9; 9; 9]. split; [by vm_compute|reflexivity].
Defined.
