(* ===== verification/CollabReplica.v ===== *)
(** The replica of the collaborative programs, [src/pset4/pt-collab.cc].

    The file's comment says that its Paxos code is copied from [pt-paxos.cc].
    This file does not take its word for it: it translates the methods of
    [pt-collab.cc] one statement at a time, with loops, early returns and
    64-bit arithmetic as they are written, and proves that every handler and
    an iteration of [run] do what the handlers of [PaxosReplica] do, as long
    as the counters are below [limit].  What is proved about [PaxosReplica]
    then holds of this program, and the unbounded counters of that model are
    justified for both.

    The state and the messages are the types of [PaxosReplica]: the two
    programs declare the same fields in the same order. *)

From S2P Require Import Prelude SMap Text PancyDb PaxosReplica PaxosLocal.

(** * Statements

    A statement reads and writes the fields of the replica and sends. *)

Definition action (A : Type) : Type := pt_paxos_replica → A * pt_paxos_replica * list output.

#[export] Instance action_ret : MRet action := λ A x r, (x, r, []).
#[export] Instance action_bind : MBind action := λ A B f m r,
  let p := m r in let q := f p.1.1 p.1.2 in (q.1.1, q.1.2, p.2 ++ q.2).

Definition this : action pt_paxos_replica := λ r, (r, r, []).
Definition write (f : pt_paxos_replica → pt_paxos_replica) : action unit := λ r, (tt, f r, []).
Definition send (o : output) : action unit := λ r, (tt, r, [o]).
Definition skip : action unit := mret tt.

(** [for (x : l) body], and the same with a local variable. *)
Fixpoint for_each {A} (l : list A) (body : A → action unit) : action unit :=
  match l with
  | [] => skip
  | x :: l' => body x;; for_each l' body
  end.

Fixpoint for_fold {A B} (l : list A) (acc : B) (body : B → A → B) : B :=
  match l with
  | [] => acc
  | x :: l' => for_fold l' (body acc x) body
  end.

(** [while (cond) body], at most [fuel] times. *)
Fixpoint while_ (fuel : nat) (cond : pt_paxos_replica → bool) (body : action unit) : action unit :=
  match fuel with
  | O => skip
  | S fuel' => r ← this; if cond r then body;; while_ fuel' cond body else skip
  end.

(** The new state and what was sent. *)
Definition exec (m : action unit) (r : pt_paxos_replica) : step_result := ((m r).1.2, (m r).2).

(** The replicas a loop [for (s = 0; s != nreplicas_; ++s)] visits. *)
Definition all_replicas (r : pt_paxos_replica) : list nat := seq 0 (nreplicas_ r).

(** * Queries *)

Definition quorum_size (r : pt_paxos_replica) : nat := (nreplicas_ r / 2 + 1)%nat.
Definition has_quorum (r : pt_paxos_replica) (n : nat) : bool := (quorum_size r <=? n)%nat.
Definition last_log_index (r : pt_paxos_replica) : Z := u64 (next_slot_ r - 1).

Definition round_at (slot : Z) (r : pt_paxos_replica) : Z :=
  if slot =? 0 then 0
  else if slot =? trim_through_ r then trim_round_ r
  else match find slot (log_ r) with
       | Some e => le_round e
       | None => 0
       end.

Definition last_log_round (r : pt_paxos_replica) : Z := round_at (last_log_index r) r.

Definition leader_is_up_to_date (index round : Z) (r : pt_paxos_replica) : bool :=
  if negb (round =? last_log_round r) then last_log_round r <? round
  else last_log_index r <=? index.

Definition prefix_matches (prev_log_index prev_log_round : Z) (r : pt_paxos_replica) : bool :=
  if prev_log_index =? 0 then trim_through_ r =? 0
  else if prev_log_index <? trim_through_ r then false
  else if prev_log_index =? trim_through_ r then prev_log_round =? trim_round_ r
  else match find prev_log_index (log_ r) with
       | Some e => le_round e =? prev_log_round
       | None => false
       end.

(** * Methods *)

(** [uniform(200ms, 350ms)]: the next draw. *)
Definition random_election_timeout : action Z :=
  r ← this; write (set_randomness_ (tail (randomness_ r)));; mret (default 200000000 (head (randomness_ r))).

Definition reset_election_timeout : action unit :=
  t ← random_election_timeout; write (set_election_timeout_ t).

Definition become_follower (round : Z) (leader_hint : nat) : action unit :=
  r ← this;
  (if current_round_ r <? round then
     write (set_current_round_ round);; write (set_promised_leader_ None)
   else skip);;
  write (set_role_ follower);;
  write (set_leader_index_ leader_hint);;
  write (set_prepare_ok_ (replicate (nreplicas_ r) false));;
  write (set_pending_clients_ ∅);;
  write (set_pending_client_requests_ []);;
  write (set_pending_client_serials_ ∅);;
  write (set_client_batch_deadline_ None);;
  reset_election_timeout.

Definition become_leader : action unit :=
  r ← this;
  write (set_role_ leader);;
  write (set_leader_index_ (index_ r));;
  write (set_promised_leader_ (Some (index_ r)));;
  write (set_prepare_ok_ (replicate (nreplicas_ r) false));;
  write (set_match_index_ (replicate (nreplicas_ r) 0));;
  write (set_next_index_ (replicate (nreplicas_ r) (u64 (last_log_index r + 1))));;
  write (λ r, set_match_index_ (<[index_ r := last_log_index r]> (match_index_ r)) r);;
  write (λ r, set_next_index_ (<[index_ r := u64 (last_log_index r + 1)]> (next_index_ r)) r).

(** The first entry of the log is at or below the watermark. *)
Definition prefix_left (r : pt_paxos_replica) : bool :=
  match log_ r with
  | (slot, _) :: _ => slot <=? trim_through_ r
  | [] => false
  end.

Definition drop_first (r : pt_paxos_replica) : pt_paxos_replica :=
  match log_ r with
  | (_, e) :: log' => set_log_ log' (set_trim_round_ (le_round e) r)
  | [] => r
  end.

Definition trim_log_prefix : action unit :=
  r ← this; while_ (length (log_ r)) prefix_left (write drop_first).

(** The loop of [update_commit_index], from slot [idx] down. *)
Fixpoint commit_from (fuel : nat) (idx : Z) (r : pt_paxos_replica) : pt_paxos_replica :=
  match fuel with
  | O => r
  | S fuel' =>
      if negb (commit_index_ r <? idx) then r
      else if negb (round_at idx r =? current_round_ r) then commit_from fuel' (u64 (idx - 1)) r
      else
        let replicated := for_fold (all_replicas r) 1%nat (λ k s,
          if bool_decide (s ≠ index_ r) && (idx <=? at_ (match_index_ r) s) then S k else k) in
        if has_quorum r replicated then set_commit_index_ idx r
        else commit_from fuel' (u64 (idx - 1)) r
  end.

Definition update_commit_index : action unit :=
  r ← this;
  if negb (is_leader r) then skip
  else write (commit_from (Z.to_nat (last_log_index r - commit_index_ r)) (last_log_index r)).

Definition update_trim_watermark : action unit :=
  r ← this;
  if negb (is_leader r) then skip
  else
    let min_match := for_fold (all_replicas r) (at_ (match_index_ r) (index_ r))
                       (λ m s, Z.min m (at_ (match_index_ r) s)) in
    let min_match := Z.min min_match (commit_index_ r) in
    let target_trim := if trim_retention_ <? min_match then u64 (min_match - trim_retention_) else 0 in
    if trim_through_ r <? target_trim
    then write (set_trim_through_ target_trim);; trim_log_prefix
    else skip.

(** The body of the loop of [apply_committed_entries]; the entry is missing
    where the code says [continue]. *)
Definition apply_one : action unit :=
  write (λ r, set_last_applied_ (u64 (last_applied_ r + 1)) r);;
  r ← this;
  match find (last_applied_ r) (log_ r) with
  | None => skip
  | Some e =>
      let serial := message_serial (le_req e) in
      (if bool_decide (is_Some (response_cache_ r !! serial)) then skip
       else
         let p := process_req (rdb_ r) (le_req e) in
         write (set_rdb_ p.1);;
         write (λ r, set_response_cache_ (<[serial := p.2]> (response_cache_ r)) r));;
      r ← this;
      if is_leader r then
        match pending_clients_ r !! serial, response_cache_ r !! serial with
        | Some slot, Some resp =>
            if slot =? last_applied_ r then
              send (to_client resp);;
              write (λ r, set_pending_clients_ (delete serial (pending_clients_ r)) r);;
              write (λ r, set_pending_client_serials_ (pending_client_serials_ r ∖ {[serial]}) r)
            else skip
        | _, _ => skip
        end
      else skip
  end.

Definition apply_committed_entries : action unit :=
  r ← this;
  while_ (Z.to_nat (commit_index_ r - last_applied_ r))
    (λ r, last_applied_ r <? commit_index_ r) apply_one;;
  trim_log_prefix.

(** The loop of [send_propose_to]: [it] runs to the end of the log. *)
Fixpoint collect (next : Z) (it : smap Z log_entry) (entries : list log_entry) : list log_entry :=
  match it with
  | [] => entries
  | (slot, e) :: it' =>
      if size entries <? Z.of_nat append_batch_size_ then
        if slot =? u64 (next + size entries) then collect next it' (entries ++ [e]) else entries
      else entries
  end.

Definition send_propose_to (peer : nat) : action unit :=
  r ← this;
  if bool_decide (peer = index_ r) || negb (is_leader r) then skip
  else
    let next := Z.max (at_ (next_index_ r) peer) (u64 (trim_through_ r + 1)) in
    write (λ r, set_next_index_ (<[peer := next]> (next_index_ r)) r);;
    let prev := u64 (next - 1) in
    let entries := collect next (lower_bound next (log_ r)) [] in
    send (to_replica peer (Propose (mk_propose (current_round_ r) (index_ r) prev (round_at prev r)
            (commit_index_ r) (trim_through_ r) entries))).

Definition broadcast_propose : action unit :=
  r ← this;
  for_each (all_replicas r) (λ s,
    r ← this; if bool_decide (s ≠ index_ r) then send_propose_to s else skip).

(** The loop that moves a batch from the queue into the log. *)
Definition append_one (_ : nat) : action unit :=
  r ← this;
  match pending_client_requests_ r with
  | [] => skip
  | req :: rest =>
      write (set_pending_client_requests_ rest);;
      let serial := message_serial req in
      let slot := next_slot_ r in
      write (set_next_slot_ (u64 (slot + 1)));;
      write (λ r, set_log_ (emplace slot (mk_log_entry slot (current_round_ r) req) (log_ r)) r);;
      write (λ r, if bool_decide (is_Some (pending_clients_ r !! serial)) then r
                  else set_pending_clients_ (<[serial := slot]> (pending_clients_ r)) r)
  end.

Definition flush_one : action unit :=
  r ← this;
  let batch := Nat.min (length (pending_client_requests_ r)) append_batch_size_ in
  for_each (seq 0 batch) append_one;;
  write (λ r, set_match_index_ (<[index_ r := last_log_index r]> (match_index_ r)) r);;
  write (λ r, set_next_index_ (<[index_ r := u64 (last_log_index r + 1)]> (next_index_ r)) r);;
  broadcast_propose;;
  update_commit_index;;
  apply_committed_entries;;
  update_trim_watermark.

Definition flush_pending_client_requests (now : Z) : action unit :=
  r ← this;
  if negb (is_leader r) || bool_decide (pending_client_requests_ r = []) then
    write (set_client_batch_deadline_ None)
  else
    while_ (length (pending_client_requests_ r))
      (λ r, is_leader r && negb (bool_decide (pending_client_requests_ r = []))) flush_one;;
    r ← this;
    if bool_decide (pending_client_requests_ r = []) then write (set_client_batch_deadline_ None)
    else write (set_client_batch_deadline_ (Some (now + client_batch_window_))).

Definition start_probe_round : action unit :=
  write (set_role_ candidate);;
  write (λ r, set_current_round_ (u64 (current_round_ r + 1)) r);;
  write (λ r, set_leader_index_ (index_ r) r);;
  write (λ r, set_promised_leader_ (Some (index_ r)) r);;
  write (λ r, set_prepare_ok_ (replicate (nreplicas_ r) false) r);;
  write (λ r, set_prepare_ok_ (<[index_ r := true]> (prepare_ok_ r)) r);;
  reset_election_timeout;;
  r ← this;
  let msg := mk_probe (current_round_ r) (index_ r) (last_log_index r) (last_log_round r) in
  for_each (all_replicas r) (λ s,
    r ← this; if bool_decide (s ≠ index_ r) then send (to_replica s (Probe msg)) else skip);;
  r ← this;
  if has_quorum r 1 then become_leader;; broadcast_propose else skip.

Definition handle_probe (msg : probe_message) : action unit :=
  r ← this;
  if pb_round msg <? current_round_ r then
    send (to_replica (pb_leader msg) (Prepare (mk_prepare (current_round_ r) (index_ r) false)))
  else
    (if current_round_ r <? pb_round msg
     then become_follower (pb_round msg) (leader_index_ r) else skip);;
    r ← this;
    promise ←
      (if match promised_leader_ r with None => true | Some p => bool_decide (p = pb_leader msg) end
          && leader_is_up_to_date (pb_last_log_index msg) (pb_last_log_round msg) r
       then
         write (set_promised_leader_ (Some (pb_leader msg)));;
         write (set_leader_index_ (pb_leader msg));;
         reset_election_timeout;;
         mret true
       else mret false);
    r ← this;
    send (to_replica (pb_leader msg) (Prepare (mk_prepare (current_round_ r) (index_ r) promise))).

Definition handle_prepare (msg : prepare_message) : action unit :=
  r ← this;
  if current_round_ r <? pp_round msg then become_follower (pp_round msg) (leader_index_ r)
  else if negb (is_candidate r) || negb (pp_round msg =? current_round_ r)
          || negb (pp_promised msg) || is_ok (prepare_ok_ r) (pp_server msg) then skip
  else
    write (λ r, set_prepare_ok_ (<[pp_server msg := true]> (prepare_ok_ r)) r);;
    r ← this;
    let promises := for_fold (prepare_ok_ r) 0%nat (λ n (ok : bool), if ok then S n else n) in
    if has_quorum r promises then become_leader;; broadcast_propose else skip.

(** A refusal of a proposal. *)
Definition refuse (msg : propose_message) (next_index : Z) : action unit :=
  r ← this;
  send (to_replica (ps_leader msg)
    (Ack (mk_ack (current_round_ r) (index_ r) false (last_log_index r) next_index))).

(** [while (erase_it != log_.end()) erase_it = log_.erase(erase_it)]. *)
Definition erase_tail (slot : Z) : action unit :=
  r ← this; for_each (keys (lower_bound slot (log_ r))) (λ k, write (λ r, set_log_ (erase k (log_ r)) r)).

(** The loop over the entries of a proposal; [None] after its [co_return]. *)
Fixpoint accept_entries (msg : propose_message) (entries : list log_entry) (match_index : Z) :
    action (option Z) :=
  match entries with
  | [] => mret (Some match_index)
  | entry :: entries' =>
      r ← this;
      let slot := le_slot entry in
      if slot <=? trim_through_ r then accept_entries msg entries' slot
      else
        let conflict := match find slot (log_ r) with
                        | Some e => negb (le_round e =? le_round entry)
                        | None => false
                        end in
        if conflict && (slot <=? commit_index_ r) then refuse msg slot;; mret None
        else
          (if conflict then erase_tail slot;; write (set_next_slot_ slot) else skip);;
          r ← this;
          (if negb (contains slot (log_ r)) then
             write (λ r, set_log_ (emplace slot entry (log_ r)) r);;
             write (λ r, set_next_slot_ (Z.max (next_slot_ r) (u64 (slot + 1))) r)
           else skip);;
          accept_entries msg entries' slot
  end.

Definition handle_propose (msg : propose_message) : action unit :=
  r ← this;
  if ps_round msg <? current_round_ r then refuse msg (u64 (last_log_index r + 1))
  else
    become_follower (ps_round msg) (ps_leader msg);;
    r ← this;
    if negb (prefix_matches (ps_prev_log_index msg) (ps_prev_log_round msg) r) then
      refuse msg (if trim_through_ r <? ps_prev_log_index msg
                  then Z.min (ps_prev_log_index msg) (u64 (last_log_index r + 1))
                  else u64 (trim_through_ r + 1))
    else
      matched ← accept_entries msg (ps_entries msg) (ps_prev_log_index msg);
      match matched with
      | None => skip
      | Some match_index =>
          r ← this;
          (if commit_index_ r <? ps_decide_through msg
           then write (set_commit_index_ (Z.min (ps_decide_through msg) (last_log_index r))) else skip);;
          apply_committed_entries;;
          r ← this;
          (if trim_through_ r <? ps_trim_through msg
           then write (set_trim_through_ (Z.min (ps_trim_through msg) (last_applied_ r)));; trim_log_prefix
           else skip);;
          r ← this;
          send (to_replica (ps_leader msg)
            (Ack (mk_ack (current_round_ r) (index_ r) true match_index (u64 (match_index + 1)))))
      end.

Definition handle_ack (msg : ack_message) : action unit :=
  r ← this;
  let s := ak_server msg in
  if current_round_ r <? ak_round msg then become_follower (ak_round msg) (leader_index_ r)
  else if negb (is_leader r) || negb (ak_round msg =? current_round_ r) then skip
  else if ak_success msg then
    write (λ r, set_match_index_ (<[s := Z.max (at_ (match_index_ r) s) (ak_match_index msg)]> (match_index_ r)) r);;
    write (λ r, set_next_index_ (<[s := Z.max (at_ (next_index_ r) s) (ak_next_index msg)]> (next_index_ r)) r);;
    update_commit_index;;
    apply_committed_entries;;
    update_trim_watermark;;
    r ← this;
    if at_ (next_index_ r) s <=? last_log_index r then send_propose_to s else skip
  else
    let fallback := ak_next_index msg in
    let fallback := if fallback =? 0 then 1 else fallback in
    let fallback :=
      if at_ (next_index_ r) s <=? fallback
      then (if 1 <? at_ (next_index_ r) s then u64 (at_ (next_index_ r) s - 1) else 1) else fallback in
    write (λ r, set_next_index_ (<[s := Z.max fallback (u64 (trim_through_ r + 1))]> (next_index_ r)) r);;
    send_propose_to s.

Definition handle_replica_message (msg : paxos_message) : action unit :=
  match msg with
  | Probe m => handle_probe m
  | Prepare m => handle_prepare m
  | Propose m => handle_propose m
  | Ack m => handle_ack m
  end.

Definition handle_client_request (now : Z) (req : request) : action unit :=
  r ← this;
  if negb (is_leader r) then
    let target := if is_candidate r then index_ r else leader_index_ r in
    send (to_client (redirection_response (message_serial req) redirect target))
  else
    let serial := message_serial req in
    match response_cache_ r !! serial with
    | Some resp => send (to_client resp)
    | None =>
        if bool_decide (serial ∈ pending_client_serials_ r) then skip
        else
          write (λ r, set_pending_client_serials_ ({[serial]} ∪ pending_client_serials_ r) r);;
          write (λ r, set_pending_client_requests_ (pending_client_requests_ r ++ [req]) r);;
          write (λ r, match client_batch_deadline_ r with
                      | Some _ => r
                      | None => set_client_batch_deadline_ (Some (now + client_batch_window_)) r
                      end);;
          r ← this;
          if (append_batch_size_ <=? length (pending_client_requests_ r))%nat
          then flush_pending_client_requests now else skip
    end.

(** One turn of the [while (true)] of [run].  [ret] is what
    [first(from_clients_.receive(), from_replicas_.receive(), after(...))]
    returns in the branch that waits; the leader's two branches differ in what
    a timeout does. *)
Definition run_iteration (now : Z) (ret : wakeup) : action unit :=
  r ← this;
  if is_leader r && negb (bool_decide (pending_client_requests_ r = []))
     && match client_batch_deadline_ r with Some d => d <=? now | None => false end
  then flush_pending_client_requests now
  else if is_leader r then
    if negb (bool_decide (pending_client_requests_ r = [])) && bool_decide (is_Some (client_batch_deadline_ r))
    then match ret with
         | client_wakeup req => handle_client_request now req
         | replica_wakeup msg => handle_replica_message msg
         | timer_wakeup => flush_pending_client_requests now
         end
    else match ret with
         | client_wakeup req => handle_client_request now req
         | replica_wakeup msg => handle_replica_message msg
         | timer_wakeup => broadcast_propose
         end
  else match ret with
       | client_wakeup req => handle_client_request now req
       | replica_wakeup msg => handle_replica_message msg
       | timer_wakeup => start_probe_round
       end.

(** How long the branch of [run] waits. *)
Definition run_delay (now : Z) (r : pt_paxos_replica) : Z :=
  if is_leader r then
    match client_batch_deadline_ r with
    | Some deadline =>
        if negb (bool_decide (pending_client_requests_ r = [])) then
          let delay := deadline - now in if delay <? 0 then 0 else delay
        else heartbeat_interval_
    | None => heartbeat_interval_
    end
  else election_timeout_ r.

(** The constructor and [initialize]. *)
Definition construct (index nreplicas : nat) (draws : list Z) : pt_paxos_replica :=
  (exec reset_election_timeout
    (mk_replica index nreplicas index empty_db draws follower 0 None (replicate nreplicas false)
       [] 1 0 0 0 0 (replicate nreplicas 0) (replicate nreplicas 1) ∅ ∅ [] ∅ None 250000000)).1.

Definition initialize (initial_leader : nat) : action unit :=
  write (set_leader_index_ initial_leader);;
  write (λ r, set_role_ (if bool_decide (index_ r = leader_index_ r) then leader else follower) r);;
  r ← this;
  if is_leader r then become_leader else skip.

(** * Counters that do not wrap *)

(** Room is left for the additions of one iteration: a batch is 16 entries. *)
Definition limit : Z := two64 - 32.

Record fits (r : pt_paxos_replica) : Prop := {
  fits_slots : next_slot_ r + size (pending_client_requests_ r) < limit;
  fits_next : Forall (λ n, 0 ≤ n < limit) (next_index_ r);
}.

Definition message_fits (m : paxos_message) : Prop :=
  match m with
  | Propose p => ps_prev_log_index p + size (ps_entries p) + 1 < limit
  | Ack p => 0 ≤ ak_next_index p < limit
  | _ => True
  end.

Definition wakeup_fits (w : wakeup) : Prop :=
  match w with replica_wakeup m => message_fits m | _ => True end.

(** The next round is a [uint64_t] too. *)
Definition round_fits (r : pt_paxos_replica) : Prop := 0 ≤ current_round_ r < limit.

(** A well-formed replica whose counters fit. *)
Definition sound (r : pt_paxos_replica) : Prop := replica_wf r ∧ fits r.

(** * The methods agree *)

Lemma exec_seq m k r : exec (m;; k) r = exec m r ;> exec k.
Proof. done. Qed.

(** Two sequences agree when their parts do. *)
Lemma exec_seq_eq m k r p f :
  exec m r = p → exec k p.1 = f p.1 → exec (m;; k) r = p ;> f.
Proof. intros <- H. rewrite exec_seq. unfold and_then. by rewrite H. Qed.

Lemma exec_write_seq f k r : exec (write f;; k) r = exec k (f r).
Proof. done. Qed.

Lemma exec_write f r : exec (write f) r = (f r, []).
Proof. done. Qed.

Lemma exec_skip_seq k r : exec (skip;; k) r = exec k r.
Proof. done. Qed.

Lemma exec_this f r : exec (r ← this; f r) r = exec (f r) r.
Proof. done. Qed.

Lemma exec_pure_seq m k r r' : exec m r = (r', []) → exec (m;; k) r = exec k r'.
Proof. intros H. rewrite exec_seq, H. apply bind_ret. Qed.

Lemma exec_assoc (m k f : action unit) r : exec ((m;; k);; f) r = exec (m;; (k;; f)) r.
Proof. rewrite exec_seq, (exec_seq m k). apply and_then_assoc. Qed.

(** The range of the counters of a sound replica. *)
Lemma sound_range r :
  sound r →
  0 ≤ trim_through_ r ≤ last_applied_ r ∧ last_applied_ r ≤ commit_index_ r < next_slot_ r ∧
  next_slot_ r + size (pending_client_requests_ r) < limit.
Proof. intros [[] []]. repeat split; lia. Qed.

Lemma sound_small r : sound r → 1 ≤ next_slot_ r < limit.
Proof.
  intros H. pose proof (sound_range r H). pose proof (size_nonneg (pending_client_requests_ r)). lia.
Qed.

(** Remove the wrap-arounds that the range of a sound replica excludes. *)
Ltac no_wrap_in H :=
  pose proof (sound_range _ H); pose proof (sound_small _ H); unfold limit in *; no_wrap.

Lemma last_log_index_eq r : 1 ≤ next_slot_ r < limit → last_log_index r = PaxosReplica.last_log_index r.
Proof. intros H. unfold last_log_index, limit in *. by no_wrap. Qed.

(** Equality of states built by the setters: both sides field by field. *)
Ltac fields r :=
  destruct r; cbv [
    index_ nreplicas_ leader_index_ rdb_ randomness_ role_ current_round_ promised_leader_
    prepare_ok_ log_ next_slot_ commit_index_ last_applied_ trim_through_ trim_round_
    match_index_ next_index_ response_cache_ pending_clients_ pending_client_requests_
    pending_client_serials_ client_batch_deadline_ election_timeout_ set_leader_index_ set_rdb_
    set_randomness_ set_role_ set_current_round_ set_promised_leader_ set_prepare_ok_ set_log_
    set_next_slot_ set_commit_index_ set_last_applied_ set_trim_through_ set_trim_round_
    set_match_index_ set_next_index_ set_response_cache_ set_pending_clients_
    set_pending_client_requests_ set_pending_client_serials_ set_client_batch_deadline_
    set_election_timeout_] in *.
Ltac by_fields r := fields r; reflexivity.

Lemma reset_election_timeout_eq r : exec reset_election_timeout r = (PaxosReplica.reset_election_timeout r, []).
Proof. reflexivity. Qed.

Lemma become_follower_eq round hint r :
  exec (become_follower round hint) r = (PaxosReplica.become_follower round hint r, []).
Proof.
  unfold become_follower, PaxosReplica.become_follower, PaxosReplica.reset_election_timeout,
    PaxosReplica.random_election_timeout. rewrite exec_this.
  destruct (current_round_ r <? round).
  - rewrite exec_seq. change (exec (write (set_current_round_ round);; write (set_promised_leader_ None)) r)
      with (set_promised_leader_ None (set_current_round_ round r), @nil output). rewrite bind_ret.
    rewrite !exec_write_seq, reset_election_timeout_eq. by_fields r.
  - rewrite exec_skip_seq, !exec_write_seq, reset_election_timeout_eq. by_fields r.
Qed.

Lemma become_leader_eq r :
  1 ≤ next_slot_ r < limit → exec become_leader r = (PaxosReplica.become_leader r, []).
Proof.
  intros H. unfold become_leader, PaxosReplica.become_leader, last_log_index, PaxosReplica.last_log_index.
  rewrite exec_this, !exec_write_seq, exec_write. fields r. unfold limit in *. by no_wrap.
Qed.

Lemma trim_log_prefix_eq r : exec trim_log_prefix r = (PaxosReplica.trim_log_prefix r, []).
Proof.
  unfold trim_log_prefix, PaxosReplica.trim_log_prefix. rewrite exec_this.
  remember (log_ r) as log eqn:E. revert r E. induction log as [|[slot e] log IH]; intros r E.
  { unfold exec. simpl. f_equal. rewrite E. by destruct r. }
  cbn [while_ length trim_loop]. rewrite exec_this. unfold prefix_left. rewrite <- E.
  case_if; [|cbn; f_equal; rewrite E; by destruct r].
  rewrite exec_write_seq. unfold drop_first. rewrite <- E. rewrite IH by done. done.
Qed.

Lemma for_fold_count r idx ss k :
  for_fold ss k (λ k s, if bool_decide (s ≠ index_ r) && (idx <=? at_ (match_index_ r) s) then S k else k)
  = Nat.add k (length (filter (λ s, s ≠ index_ r ∧ idx ≤ at_ (match_index_ r) s) ss)).
Proof.
  revert k. induction ss as [|s ss IH]; intros k; simpl; [lia|]. rewrite IH, filter_cons.
  case_decide as Hd.
  - destruct Hd as [Hs Hm]. rewrite bool_decide_eq_true_2 by done.
    rewrite (proj2 (Z.leb_le _ _) Hm). simpl. lia.
  - destruct (bool_decide _ && _) eqn:E; [|done]. bsimp. tauto.
Qed.

Lemma replicated_eq r idx :
  for_fold (all_replicas r) 1%nat
    (λ k s, if bool_decide (s ≠ index_ r) && (idx <=? at_ (match_index_ r) s) then S k else k)
  = replicated r idx.
Proof. apply for_fold_count. Qed.

Lemma commit_from_eq r n :
  0 ≤ commit_index_ r → commit_index_ r + Z.of_nat n < limit →
  commit_from n (commit_index_ r + Z.of_nat n) r = set_commit_index_ (commit_loop r n) r.
Proof.
  intros H0. induction n as [|n IH]; intros Hn; [by destruct r|].
  cbn [commit_from commit_loop].
  rewrite (proj2 (Z.ltb_lt _ _)) by lia. cbn [negb].
  replace (u64 (commit_index_ r + Z.of_nat (S n) - 1)) with (commit_index_ r + Z.of_nat n)
    by (unfold limit in *; no_wrap; lia).
  rewrite IH by lia. rewrite replicated_eq.
  change (round_at _ r) with (PaxosReplica.round_at r (commit_index_ r + Z.of_nat (S n))).
  change (has_quorum r ?k) with (PaxosReplica.has_quorum r k). by repeat case_if.
Qed.

Lemma update_commit_index_eq r :
  sound r → exec update_commit_index r = (PaxosReplica.update_commit_index r, []).
Proof.
  intros H. pose proof (sound_range _ H) as (? & ? & ?). pose proof (sound_small _ H).
  unfold update_commit_index, PaxosReplica.update_commit_index. rewrite exec_this.
  case_if; [done|]. unfold exec. cbn. f_equal. rewrite last_log_index_eq by lia.
  rewrite <- commit_from_eq by (unfold PaxosReplica.last_log_index; lia).
  f_equal. unfold PaxosReplica.last_log_index. lia.
Qed.

Lemma for_fold_foldl {A B} (f : B → A → B) l acc : for_fold l acc f = foldl f acc l.
Proof. revert acc. by induction l; simpl. Qed.

Lemma update_trim_watermark_eq r :
  commit_index_ r < limit → exec update_trim_watermark r = (PaxosReplica.update_trim_watermark r, []).
Proof.
  intros H. unfold update_trim_watermark, PaxosReplica.update_trim_watermark. rewrite exec_this.
  case_if; [done|]. rewrite for_fold_foldl. unfold all_replicas.
  match goal with |- context [Z.min ?m (commit_index_ r)] => set (mm := Z.min m (commit_index_ r)) end.
  assert (mm ≤ commit_index_ r) by (unfold mm; lia).
  replace (if trim_retention_ <? mm then u64 (mm - trim_retention_) else 0)
    with (if trim_retention_ <? mm then mm - trim_retention_ else 0).
  2: { case_if; [|done]. unfold trim_retention_, limit in *. by no_wrap. }
  case_if; [|done]. rewrite exec_write_seq. apply trim_log_prefix_eq.
Qed.

Lemma apply_one_eq r :
  0 ≤ last_applied_ r < limit → exec apply_one r = apply_next r.
Proof.
  intros H. unfold apply_one, apply_next. rewrite exec_write_seq, exec_this.
  replace (u64 (last_applied_ r + 1)) with (last_applied_ r + 1) by (unfold limit in *; by no_wrap).
  set (r1 := set_last_applied_ _ r). destruct (find _ _) as [e|]; [|done].
  transitivity (exec (r ← this; if is_leader r then
        match pending_clients_ r !! message_serial (le_req e), response_cache_ r !! message_serial (le_req e) with
        | Some slot, Some resp =>
            if slot =? last_applied_ r then
              send (to_client resp);;
              write (λ r, set_pending_clients_ (delete (message_serial (le_req e)) (pending_clients_ r)) r);;
              write (λ r, set_pending_client_serials_ (pending_client_serials_ r ∖ {[message_serial (le_req e)]}) r)
            else skip
        | _, _ => skip
        end
      else skip) (execute (le_req e) r1)).
  { apply exec_pure_seq. unfold execute. destruct (response_cache_ r1 !! _) eqn:Ec.
    - by rewrite bool_decide_eq_true_2 by by eexists.
    - rewrite bool_decide_eq_false_2 by by intros [].
      by destruct (process_req (rdb_ r1) (le_req e)). }
  generalize (execute (le_req e) r1). intros x. rewrite exec_this. unfold answer.
  destruct (is_leader x); [|done]. destruct (pending_clients_ x !! _); [|done].
  destruct (response_cache_ x !! _); [|done]. by case_if.
Qed.

Lemma apply_loop_eq n r :
  0 ≤ last_applied_ r → commit_index_ r = last_applied_ r + Z.of_nat n → commit_index_ r < limit →
  exec (while_ n (λ r, last_applied_ r <? commit_index_ r) apply_one) r = apply_loop n r.
Proof.
  revert r. induction n as [|n IH]; intros r H0 Hn Hl; [done|]. cbn [while_ apply_loop].
  rewrite exec_this, (proj2 (Z.ltb_lt _ _)) by lia.
  apply exec_seq_eq; [apply apply_one_eq; lia|].
  pose proof (apply_next_applied r) as Ha. destruct (apply_next_frame r) as (?&?&?&?&?&E).
  assert (Hc : commit_index_ (apply_next r).1 = commit_index_ r) by (rewrite E; done).
  apply IH; lia.
Qed.

Lemma apply_committed_entries_eq r :
  0 ≤ last_applied_ r ≤ commit_index_ r → commit_index_ r < limit →
  exec apply_committed_entries r = PaxosReplica.apply_committed_entries r.
Proof.
  intros H0 Hl. unfold apply_committed_entries. rewrite exec_this.
  apply exec_seq_eq; [apply apply_loop_eq; lia|]. apply trim_log_prefix_eq.
Qed.

(** ** Proposals *)

Lemma collect_eq next it entries :
  0 ≤ next → next + Z.of_nat append_batch_size_ < two64 →
  (length entries ≤ append_batch_size_)%nat →
  collect next it entries =
    entries ++ batch_from (append_batch_size_ - length entries) (next + size entries) it.
Proof.
  intros H0 Hn. revert entries. induction it as [|[slot e] it IH]; intros entries He.
  { simpl. destruct (_ - _)%nat; simpl; by rewrite app_nil_r. }
  cbn [collect]. pose proof (size_nonneg entries).
  destruct (size entries <? Z.of_nat append_batch_size_) eqn:Es; bsimp.
  - unfold size in Es |- *. replace (append_batch_size_ - length entries)%nat
      with (S (append_batch_size_ - S (length entries))) by lia.
    cbn [batch_from]. no_wrap. case_if; [|by rewrite app_nil_r].
    rewrite IH by (rewrite length_app; simpl; lia). unfold size. rewrite length_app, <- app_assoc. simpl.
    replace (length entries + 1)%nat with (S (length entries)) by lia.
    replace (next + Z.of_nat (S (length entries))) with (next + Z.of_nat (length entries) + 1) by lia.
    done.
  - unfold size in Es. replace (append_batch_size_ - length entries)%nat with 0%nat by lia.
    simpl. by rewrite app_nil_r.
Qed.

Lemma next_bound r peer : sound r → 0 ≤ at_ (next_index_ r) peer < limit.
Proof.
  intros [_ [_ H]]. unfold at_. destruct (next_index_ r !! peer) eqn:E; simpl; [|done].
  rewrite Forall_lookup in H. by apply H in E.
Qed.

Lemma send_propose_to_eq peer r :
  sound r → exec (send_propose_to peer) r = PaxosReplica.send_propose_to peer r.
Proof.
  intros H. unfold send_propose_to, PaxosReplica.send_propose_to. rewrite exec_this. case_if; [done|].
  pose proof (next_bound r peer H). no_wrap_in H. rewrite exec_write_seq.
  set (next := Z.max _ _). assert (1 ≤ next < limit) by (unfold next, limit in *; lia).
  replace (u64 (next - 1)) with (next - 1) by (unfold limit in *; by no_wrap).
  rewrite collect_eq by (unfold limit, append_batch_size_ in *; simpl; width_lia).
  unfold exec. cbn [length Nat.sub size app]. rewrite Z.add_0_r. done.
Qed.

(** What the bounds depend on. *)
Definition counters (r : pt_paxos_replica) :=
  (next_slot_ r, size (pending_client_requests_ r), next_index_ r).

Lemma counters_fit r r' : counters r' = counters r → fits r → fits r'.
Proof. unfold counters. intros [= E1 E2 E3] []. split; congruence. Qed.

Lemma set_next_fits n k r : sound r → 0 ≤ n < limit → fits (set_next_index_ (<[k := n]> (next_index_ r)) r).
Proof. intros [_ []] Hn. split; try done. simpl. by apply Forall_insert. Qed.

Lemma collab_send_propose_sound peer r : sound r → sound (PaxosReplica.send_propose_to peer r).1.
Proof.
  intros H. split; [apply send_propose_good, H|]. unfold PaxosReplica.send_propose_to.
  case_if; [apply H|]. simpl. pose proof (next_bound r peer H). no_wrap_in H.
  apply set_next_fits; [done|unfold limit; lia].
Qed.

Lemma propose_loop_eq ss r :
  sound r →
  exec (for_each ss (λ s, r ← this; if bool_decide (s ≠ index_ r) then send_propose_to s else skip)) r
    = propose_to_all ss r ∧ sound (propose_to_all ss r).1.
Proof.
  revert r. induction ss as [|s ss IH]; intros r H; [done|]. cbn [for_each propose_to_all].
  assert (Hs : exec (r ← this; if bool_decide (s ≠ index_ r) then send_propose_to s else skip) r =
    (if bool_decide (s = index_ r) then (r, []) else PaxosReplica.send_propose_to s r)).
  { rewrite exec_this. destruct (decide (s = index_ r)).
    - by rewrite bool_decide_eq_false_2, bool_decide_eq_true_2 by tauto.
    - rewrite bool_decide_eq_true_2, bool_decide_eq_false_2 by tauto. by apply send_propose_to_eq. }
  assert (H1 : sound (if bool_decide (s = index_ r) then (r, []) else PaxosReplica.send_propose_to s r).1).
  { case_match; [done|]. by apply collab_send_propose_sound. }
  destruct (IH _ H1) as [E H2]. split; [|done]. apply exec_seq_eq; [done|exact E].
Qed.

Lemma broadcast_propose_eq r :
  sound r → exec broadcast_propose r = PaxosReplica.broadcast_propose r ∧
            sound (PaxosReplica.broadcast_propose r).1.
Proof. apply propose_loop_eq. Qed.

(** ** Client batches *)

Lemma append_one_eq i r : sound r → exec (append_one i) r = (append_request r, []).
Proof.
  intros H. unfold append_one, append_request. rewrite exec_this.
  destruct (pending_client_requests_ r) as [|req rest]; [done|].
  replace (u64 (next_slot_ r + 1)) with (next_slot_ r + 1) by (no_wrap_in H; done).
  rewrite !exec_write_seq, exec_write. simpl.
  destruct (pending_clients_ r !! message_serial req).
  - by rewrite bool_decide_eq_true_2 by by eexists.
  - by rewrite bool_decide_eq_false_2 by by intros [].
Qed.

Lemma collab_append_request_sound r : sound r → sound (append_request r).
Proof.
  intros [Hw [H1 H2]]. split; [by apply append_request_wf|].
  destruct (pending_client_requests_ r) as [|req rest] eqn:E.
  { unfold append_request. rewrite E. split; [by rewrite E|done..]. }
  destruct (append_request_cons r req rest E) as [pc ->]. rewrite size_cons in H1.
  split; simpl; [lia|done..].
Qed.

Lemma append_loop_eq n k r :
  sound r →
  exec (for_each (seq k n) append_one) r = (Nat.iter n append_request r, []) ∧
  sound (Nat.iter n append_request r).
Proof.
  revert k r. induction n as [|n IH]; intros k r H; [done|]. cbn [seq for_each].
  rewrite (exec_pure_seq _ _ _ _ (append_one_eq k r H)), Nat.iter_succ_r.
  by apply IH, collab_append_request_sound.
Qed.

Lemma apply_counters r : counters (PaxosReplica.apply_committed_entries r).1 = counters r.
Proof.
  rewrite apply_committed_fst. destruct (apply_loop_frame (Z.to_nat (commit_index_ r - last_applied_ r)) r)
    as (?&?&?&?&?&->). unfold PaxosReplica.trim_log_prefix. by destruct (trim_loop _ _ _).
Qed.

Lemma update_commit_counters r : counters (PaxosReplica.update_commit_index r) = counters r.
Proof. unfold PaxosReplica.update_commit_index. by case_if. Qed.

Lemma update_trim_counters r : counters (PaxosReplica.update_trim_watermark r) = counters r.
Proof.
  unfold PaxosReplica.update_trim_watermark. repeat case_if; try done;
    unfold PaxosReplica.trim_log_prefix; by destruct (trim_loop _ _ _).
Qed.

(** Committing, applying and trimming. *)
Definition advance_stmt : action unit :=
  update_commit_index;; apply_committed_entries;; update_trim_watermark.

Lemma collab_advance_eq r :
  sound r → exec advance_stmt r = advance r ∧ sound (advance r).1.
Proof.
  intros H. unfold advance_stmt, advance. set (c := PaxosReplica.update_commit_index r).
  assert (Hc : sound c).
  { split; [by apply update_commit_wf, H|]. eapply counters_fit; [apply update_commit_counters|apply H]. }
  rewrite (exec_pure_seq _ _ _ _ (update_commit_index_eq r H)). fold c.
  destruct (apply_committed_wf c (proj1 Hc)) as (Hw & _ & Ha & _).
  pose proof (sound_range _ Hc) as (? & ? & ?). pose proof (sound_small _ Hc).
  assert (Hs : sound (PaxosReplica.apply_committed_entries c).1).
  { split; [done|]. eapply counters_fit; [apply apply_counters|apply Hc]. }
  split.
  - apply exec_seq_eq; [apply apply_committed_entries_eq; lia|].
    apply update_trim_watermark_eq. pose proof (sound_range _ Hs). pose proof (sound_small _ Hs). lia.
  - rewrite and_then_fst. split; [apply advance_wf, H|].
    eapply counters_fit; [apply update_trim_counters|apply Hs].
Qed.

Lemma flush_one_eq r : sound r → exec flush_one r = flush_batch r ∧ sound (flush_batch r).1.
Proof.
  intros H. unfold flush_one. rewrite exec_this. set (n := Nat.min _ _).
  destruct (append_loop_eq n 0 r H) as [E Hs]. rewrite (exec_pure_seq _ _ _ _ E), !exec_write_seq.
  rewrite flush_batch_advance. unfold batched. fold n. set (x := Nat.iter n append_request r) in *.
  rewrite !last_log_index_eq by by apply sound_small.
  assert (Hb : sound (batched r)).
  { split; [apply batched_wf, H|]. unfold batched. fold n x.
    pose proof (sound_small _ Hs). destruct (Hs) as [_ []]. split; try done. simpl.
    apply Forall_insert; [done|]. unfold PaxosReplica.last_log_index. lia. }
  assert (Eb : set_next_index_ (<[index_ (set_match_index_ (<[index_ x:=PaxosReplica.last_log_index x]>
                 (match_index_ x)) x) := u64 (last_log_index (set_match_index_
                   (<[index_ x:=PaxosReplica.last_log_index x]> (match_index_ x)) x) + 1)]>
      (next_index_ (set_match_index_ (<[index_ x:=PaxosReplica.last_log_index x]> (match_index_ x)) x)))
    (set_match_index_ (<[index_ x:=PaxosReplica.last_log_index x]> (match_index_ x)) x) = batched r).
  { unfold batched. fold n x. rewrite last_log_index_eq by by apply (sound_small x).
    pose proof (sound_small _ Hs). unfold PaxosReplica.last_log_index, limit in *. simpl. by no_wrap. }
  rewrite Eb. fold (batched r). destruct (broadcast_propose_eq _ Hb) as [E1 Hb1].
  destruct (collab_advance_eq _ Hb1) as [E2 H2]. split.
  - change (set_next_index_ _ _) with (batched r). apply exec_seq_eq; [done|exact E2].
  - exact H2.
Qed.

Lemma flush_loop_eq n r :
  sound r →
  exec (while_ n (λ r, is_leader r && negb (bool_decide (pending_client_requests_ r = []))) flush_one) r
    = flush_loop n r ∧ sound (flush_loop n r).1.
Proof.
  revert r. induction n as [|n IH]; intros r H; [done|]. cbn [while_ flush_loop]. rewrite exec_this.
  case_if; [|done]. destruct (flush_one_eq r H) as [E1 Hf]. destruct (IH _ Hf) as [E2 Hl].
  split; [|exact Hl]. by apply exec_seq_eq.
Qed.

Lemma flush_eq now r :
  sound r → exec (flush_pending_client_requests now) r = PaxosReplica.flush_pending_client_requests now r.
Proof.
  intros H. unfold flush_pending_client_requests, PaxosReplica.flush_pending_client_requests.
  rewrite exec_this. case_if; [done|]. destruct (flush_loop_eq (length (pending_client_requests_ r)) r H) as [E _].
  apply exec_seq_eq; [done|]. rewrite exec_this. unfold pure_. by case_if.
Qed.

(** ** Elections *)

Lemma probe_loop_eq msg ss r :
  exec (for_each ss (λ s, r ← this;
    if bool_decide (s ≠ index_ r) then send (to_replica s (Probe msg)) else skip)) r
  = (r, (λ s, to_replica s (Probe msg)) <$> filter (λ s, s ≠ index_ r) ss).
Proof.
  induction ss as [|s ss IH]; [done|]. cbn [for_each]. rewrite filter_cons. case_decide as E.
  - rewrite exec_seq, exec_this, bool_decide_eq_true_2 by done.
    change (exec (send ?o) r) with (r, [o]). unfold and_then. cbn [fst snd]. by rewrite IH.
  - rewrite (exec_pure_seq _ _ r r); [exact IH|]. by rewrite exec_this, bool_decide_eq_false_2 by tauto.
Qed.

(** Winning an election: the state of a new leader, then its proposals. *)
Lemma win_eq r :
  sound r → exec (become_leader;; broadcast_propose) r =
            PaxosReplica.broadcast_propose (PaxosReplica.become_leader r).
Proof.
  intros H. pose proof (sound_small _ H). rewrite (exec_pure_seq _ _ _ _ (become_leader_eq r H0)).
  apply broadcast_propose_eq. destruct H as [Hw []].
  split; [by apply become_leader_wf|]. rewrite become_leader_frame. split; try done. simpl.
  apply Forall_insert; [apply Forall_replicate|]; unfold PaxosReplica.last_log_index; lia.
Qed.

Lemma start_probe_round_eq' r :
  sound r → round_fits r → exec start_probe_round r = PaxosReplica.start_probe_round r.
Proof.
  intros H Hr. unfold round_fits in Hr. unfold start_probe_round. rewrite !exec_write_seq.
  rewrite (exec_pure_seq _ _ _ _ (reset_election_timeout_eq _)), exec_this.
  pose proof (sound_small _ H). destruct (H) as [Hw []].
  match goal with |- context [exec _ ?x] => assert (Ec : x = candidacy r) end.
  { unfold candidacy, PaxosReplica.reset_election_timeout, PaxosReplica.random_election_timeout.
    assert (Eu : u64 (current_round_ r + 1) = current_round_ r + 1) by (unfold limit in *; by no_wrap).
    fields r. by rewrite Eu. }
  rewrite Ec. clear Ec.
  assert (Hc : sound (candidacy r)).
  { split; [by apply candidacy_wf|]. by split. }
  rewrite start_probe_round_eq. apply exec_seq_eq.
  - rewrite probe_loop_eq. unfold last_log_round. rewrite last_log_index_eq by done. reflexivity.
  - rewrite exec_this. cbn [fst send_probes]. change (has_quorum (candidacy r) 1) with
      (PaxosReplica.has_quorum (candidacy r) 1). case_if; [|done]. by apply win_eq.
Qed.

(** ** Accepting entries *)

Lemma erase_keys_all (m : smap Z log_entry) : foldl (λ m k, erase k m) m (keys m) = [].
Proof. induction m as [|[k v] m IH]; [done|]. simpl. by rewrite keqb_refl. Qed.

Lemma erase_keys_head k v (m : smap Z log_entry) ks :
  k ∉ ks → foldl (λ m k, erase k m) ((k, v) :: m) ks = (k, v) :: foldl (λ m k, erase k m) m ks.
Proof.
  revert m. induction ks as [|k' ks IH]; intros m H; [done|].
  apply not_elem_of_cons in H as [Hk Hks]. simpl.
  rewrite (proj2 (keqb_false k' k)) by done. by apply IH.
Qed.

Lemma keys_lower_bound s k (m : smap Z log_entry) : k ∈ keys (lower_bound s m) → k ∈ keys m.
Proof.
  induction m as [|[k0 v0] m IH]; simpl; [done|]. case_if; [|done]. intros H. right. by apply IH.
Qed.

(** Erasing from [lower_bound] to the end, one iterator at a time. *)
Lemma erase_keys_from s (m : smap Z log_entry) :
  wf m → foldl (λ m k, erase k m) m (keys (lower_bound s m)) = erase_from s m.
Proof.
  induction m as [|[k v] m IH]; intros Hwf; [done|]. cbn [lower_bound erase_from].
  destruct (kltb k s); [|apply erase_keys_all]. apply wf_cons in Hwf as [Hwf Hlt].
  rewrite erase_keys_head, IH; [done|done|]. intros Hk%keys_lower_bound.
  rewrite Forall_forall in Hlt. apply Hlt in Hk. by rewrite kltb_irrefl in Hk.
Qed.

Lemma erase_loop_eq ks r :
  exec (for_each ks (λ k, write (λ r, set_log_ (erase k (log_ r)) r))) r =
  (set_log_ (foldl (λ m k, erase k m) (log_ r) ks) r, []).
Proof.
  revert r. induction ks as [|k ks IH]; intros r; [by destruct r|]. cbn [for_each].
  by rewrite exec_write_seq, IH.
Qed.

Lemma erase_tail_eq slot r :
  wf (log_ r) → exec (erase_tail slot) r = (set_log_ (erase_from slot (log_ r)) r, []).
Proof. intros H. unfold erase_tail. by rewrite exec_this, erase_loop_eq, erase_keys_from. Qed.

(** A statement without a result, as a function. *)
Lemma exec_run m r : m r = (tt, (exec m r).1, (exec m r).2).
Proof. unfold exec. simpl. by destruct (m r) as [[[] r'] o]. Qed.

Lemma run_this {A} (f : pt_paxos_replica → action A) r : (r ← this; f r) r = f r r.
Proof. unfold mbind, action_bind, this. simpl. by destruct (f r r) as [[x r'] o]. Qed.

Lemma run_pure_seq {A} (m : action unit) (k : action A) r r' :
  exec m r = (r', []) → (m;; k) r = k r'.
Proof.
  intros E. unfold mbind, action_bind. rewrite exec_run, E. simpl. by destruct (k r') as [[x r1] o].
Qed.

Lemma exec_bind_eq {A} (m : action A) f x r r' o :
  m r = (x, r', o) → exec (y ← m; f y) r = (r', o) ;> exec (f x).
Proof. intros E. unfold exec at 1. unfold mbind, action_bind. rewrite E. done. Qed.

Definition nack (msg : propose_message) (next : Z) (r : pt_paxos_replica) : step_result :=
  (r, [to_replica (ps_leader msg)
         (Ack (mk_ack (current_round_ r) (index_ r) false (PaxosReplica.last_log_index r) next))]).

Lemma refuse_eq msg next r : 1 ≤ next_slot_ r < limit → exec (refuse msg next) r = nack msg next r.
Proof. intros H. unfold refuse, nack. by rewrite exec_this, last_log_index_eq. Qed.

(** What the loop over the entries needs: a sorted log, slots that fit. *)
Definition acceptable (r : pt_paxos_replica) : Prop :=
  wf (log_ r) ∧ 0 ≤ trim_through_ r ∧ 1 ≤ next_slot_ r < limit.

Lemma accept_entries_eq msg entries m r :
  acceptable r → Forall (λ e, le_slot e + 1 < limit) entries →
  accept_entries msg entries m r =
    match accept_loop entries r m with
    | (r', inl m') => (Some m', r', [])
    | (r', inr slot) => (None, r', (nack msg slot r').2)
    end ∧
  acceptable (accept_loop entries r m).1.
Proof.
  revert m r. induction entries as [|entry entries IH]; intros m r Hr He; [done|].
  inv He as [|? ? Hs He']. cbn [accept_entries accept_loop]. rewrite run_this.
  destruct Hr as (Hwf & Ht & Hn).
  destruct (le_slot entry <=? trim_through_ r) eqn:Etrim; bsimp; [by apply IH|].
  set (conflict := match find (le_slot entry) (log_ r) with Some _ => _ | None => _ end).
  destruct (conflict && (le_slot entry <=? commit_index_ r)) eqn:Ec.
  { pose proof (refuse_eq msg (le_slot entry) r Hn) as E. split; [|done].
    unfold mbind, action_bind. rewrite exec_run, E. simpl. done. }
  set (r1 := if conflict then set_next_slot_ (le_slot entry)
               (set_log_ (erase_from (le_slot entry) (log_ r)) r) else r).
  assert (H1 : acceptable r1).
  { unfold r1. destruct conflict; [|done]. split; [by apply wf_erase_from|]. simpl. lia. }
  rewrite (run_pure_seq _ _ r r1).
  2: { unfold r1. destruct conflict; [|done]. by rewrite (exec_pure_seq _ _ _ _ (erase_tail_eq _ r Hwf)). }
  rewrite run_this. destruct H1 as (Hwf1 & Ht1 & Hn1).
  set (r2 := if contains (le_slot entry) (log_ r1) then r1 else _).
  rewrite (run_pure_seq _ _ r1 r2).
  - apply IH; [|done]. unfold r2. case_if; [done|]. split; [by apply wf_emplace|]. simpl. lia.
  - unfold r2. destruct (contains _ _); [done|]. cbn [negb]. rewrite exec_write_seq, exec_write. simpl.
    assert (trim_through_ r1 = trim_through_ r) by (unfold r1; by destruct conflict).
    unfold limit in *. by no_wrap.
Qed.

Lemma consecutive_bound first entries :
  0 ≤ first → consecutive first entries →
  Forall (λ e, le_slot e < first + size entries) entries.
Proof.
  revert first. induction entries as [|e entries IH]; intros first H0 H; [constructor|].
  destruct H as [He H]. rewrite size_cons. constructor; [pose proof (size_nonneg entries); lia|].
  apply IH in H; [|lia]. eapply Forall_impl; [exact H|]. simpl. lia.
Qed.

(** ** Handlers *)

Lemma follower_sound round hint r : sound r → sound (PaxosReplica.become_follower round hint r).
Proof.
  intros H. pose proof (sound_small _ H). destruct H as [Hw []].
  split; [by apply become_follower_wf|]. rewrite become_follower_frame. split; [|done].
  cbn. unfold size. simpl. lia.
Qed.

Lemma handle_probe_eq msg r : sound r → exec (handle_probe msg) r = PaxosReplica.handle_probe msg r.
Proof.
  intros H. unfold handle_probe, PaxosReplica.handle_probe. rewrite exec_this. case_if; [done|].
  set (r1 := if current_round_ r <? pb_round msg then _ else r).
  assert (H1 : sound r1) by (unfold r1; case_if; [by apply follower_sound|done]).
  rewrite (exec_pure_seq _ _ r r1) by (unfold r1; case_if; [apply become_follower_eq|done]).
  rewrite exec_this. unfold leader_is_up_to_date, PaxosReplica.leader_is_up_to_date, last_log_round.
  rewrite !last_log_index_eq by by apply sound_small.
  change (round_at (PaxosReplica.last_log_index r1) r1) with (PaxosReplica.last_log_round r1).
  by case_if.
Qed.

Lemma for_fold_true l k : for_fold l k (λ n (ok : bool), if ok then S n else n) = (k + count_true l)%nat.
Proof.
  revert k. unfold count_true. induction l as [|b l IH]; intros k; cbn [for_fold]; [simpl; lia|].
  rewrite IH, filter_cons. destruct b; case_decide; simpl; (done || lia).
Qed.

Lemma handle_prepare_eq msg r : sound r → exec (handle_prepare msg) r = PaxosReplica.handle_prepare msg r.
Proof.
  intros H. unfold handle_prepare, PaxosReplica.handle_prepare. rewrite exec_this.
  case_if; [apply become_follower_eq|]. destruct (_ || _); [done|].
  rewrite exec_write_seq, exec_this, for_fold_true. set (r1 := set_prepare_ok_ _ r).
  change (has_quorum r1 ?n) with (PaxosReplica.has_quorum r1 n). cbn [Nat.add].
  case_if; [|done]. apply win_eq. destruct H as [Hw []]. split; [same_core Hw|done].
Qed.

(** The end of a successful proposal. *)
Lemma settle_eq msg m r :
  replica_wf r → 1 ≤ next_slot_ r < limit → m + 1 < two64 → 0 ≤ m →
  exec ((if commit_index_ r <? ps_decide_through msg
         then write (set_commit_index_ (Z.min (ps_decide_through msg) (last_log_index r))) else skip);;
        apply_committed_entries;;
        r ← this;
        (if trim_through_ r <? ps_trim_through msg
         then write (set_trim_through_ (Z.min (ps_trim_through msg) (last_applied_ r)));; trim_log_prefix
         else skip);;
        r ← this;
        send (to_replica (ps_leader msg)
          (Ack (mk_ack (current_round_ r) (index_ r) true m (u64 (m + 1)))))) r
  = settle msg r ;> (λ r, (r, [to_replica (ps_leader msg)
                 (Ack (mk_ack (current_round_ r) (index_ r) true m (m + 1)))])).
Proof.
  intros Hw Hn Hm Hm0. unfold settle.
  set (r1 := if commit_index_ r <? ps_decide_through msg then _ else r).
  rewrite (exec_pure_seq _ _ r r1).
  2: { unfold r1. rewrite last_log_index_eq by done. by case_if. }
  pose proof (rwf_trim r Hw). pose proof (rwf_applied r Hw). pose proof (rwf_commit r Hw).
  assert (Hr1 : 0 ≤ last_applied_ r1 ≤ commit_index_ r1 ∧ commit_index_ r1 < limit).
  { unfold r1, PaxosReplica.last_log_index. case_if; simpl; lia. }
  rewrite and_then_assoc. apply exec_seq_eq; [apply apply_committed_entries_eq; lia|].
  generalize (PaxosReplica.apply_committed_entries r1).1. intros x. rewrite exec_this.
  unfold pure_. rewrite bind_ret. no_wrap.
  set (x1 := if trim_through_ x <? ps_trim_through msg then _ else x).
  rewrite (exec_pure_seq _ _ x x1); [done|]. unfold x1. case_if; [|done].
  rewrite exec_write_seq. apply trim_log_prefix_eq.
Qed.

Lemma handle_propose_eq' msg r :
  sound r → msg_ok (Propose msg) → message_fits (Propose msg) →
  exec (handle_propose msg) r = PaxosReplica.handle_propose msg r.
Proof.
  intros H Hok Hfit. pose proof (sound_small _ H). rewrite handle_propose_eq. unfold handle_propose. cbv zeta.
  rewrite exec_this. case_if.
  { rewrite refuse_eq, last_log_index_eq by done. unfold PaxosReplica.last_log_index, limit in *. by no_wrap. }
  rewrite (exec_pure_seq _ _ _ _ (become_follower_eq _ _ r)).
  apply (follower_sound (ps_round msg) (ps_leader msg)) in H.
  revert H. generalize (PaxosReplica.become_follower (ps_round msg) (ps_leader msg) r). intros x H.
  pose proof (sound_small _ H) as Hx. pose proof (sound_range _ H) as (Hx1 & Hx2 & Hx3). rewrite exec_this.
  change (prefix_matches ?a ?b x) with (PaxosReplica.prefix_matches x a b).
  destruct (negb _) eqn:Em; bsimp.
  { rewrite refuse_eq, last_log_index_eq by done. unfold nack. do 6 f_equal.
    unfold PaxosReplica.last_log_index, limit in *. case_if; by no_wrap. }
  destruct Hok as [Hp Hc]. unfold message_fits in Hfit.
  apply prefix_matches_range in Em; [|apply H|done].
  destruct (accept_loop_wf (ps_entries msg) x (ps_prev_log_index msg) (proj1 H) Em Hc) as [Hw _].
  assert (He : Forall (λ e, le_slot e + 1 < limit) (ps_entries msg)).
  { eapply Forall_impl; [apply (consecutive_bound (ps_prev_log_index msg + 1)); [lia|exact Hc]|].
    cbn beta. lia. }
  assert (Ha : acceptable x) by (split; [apply H|lia]).
  destruct (accept_entries_eq msg _ (ps_prev_log_index msg) x Ha He) as [E Ha'].
  destruct (accept_loop _ _ _) as [y [m|slot]] eqn:El; simpl in Hw, Ha'.
  2: { by rewrite (exec_bind_eq _ _ _ _ _ _ E). }
  rewrite (exec_bind_eq _ _ _ _ _ _ E), bind_ret, exec_this.
  destruct Ha' as (_ & _ & Hy).
  destruct (accept_loop_wf (ps_entries msg) x (ps_prev_log_index msg) (proj1 H) Em Hc) as [_ Hm].
  rewrite El in Hm. destruct (Hm m eq_refl) as [Hm1 Hm2]. pose proof (size_nonneg (ps_entries msg)).
  unfold limit in *. apply settle_eq; simpl in *; (done || lia || width_lia).
Qed.

Lemma handle_ack_eq' msg r :
  sound r → message_fits (Ack msg) → exec (handle_ack msg) r = PaxosReplica.handle_ack msg r.
Proof.
  intros H Hfit. unfold message_fits in Hfit. rewrite handle_ack_eq. unfold handle_ack. cbv zeta.
  rewrite exec_this. case_if; [apply become_follower_eq|]. destruct (_ || _); [done|].
  set (s := ak_server msg). pose proof (next_bound r s H) as Hb. case_if.
  - rewrite !exec_write_seq. set (r1 := set_next_index_ _ _).
    change (set_next_index_ _ (set_match_index_ _ _)) with r1.
    assert (Hr1 : sound r1).
    { destruct H as [Hw []]. split; [same_core Hw|]. split; [done|]. simpl. apply Forall_insert; [done|lia]. }
    destruct (collab_advance_eq r1 Hr1) as [E Ha].
    transitivity (exec (advance_stmt;; (r ← this;
      if at_ (next_index_ r) s <=? last_log_index r then send_propose_to s else skip)) r1).
    { unfold advance_stmt. symmetry. rewrite exec_assoc, !(exec_seq update_commit_index).
      unfold and_then. by rewrite exec_assoc. }
    apply exec_seq_eq; [done|]. rewrite exec_this, last_log_index_eq by by apply sound_small.
    case_if; [|done]. by apply send_propose_to_eq.
  - set (fb := if ak_next_index msg =? 0 then 1 else ak_next_index msg).
    assert (Hf : 0 ≤ fb < limit) by (unfold fb; case_if; [done|lia]).
    replace (if 1 <? at_ (next_index_ r) s then u64 (at_ (next_index_ r) s - 1) else 1)
      with (if 1 <? at_ (next_index_ r) s then at_ (next_index_ r) s - 1 else 1)
      by (case_if; [|done]; unfold limit in *; by no_wrap).
    set (fb' := if at_ (next_index_ r) s <=? fb then _ else fb).
    assert (Hf' : 0 ≤ fb' < limit) by (unfold fb'; repeat case_if; try lia; done).
    rewrite exec_write_seq. replace (u64 (trim_through_ r + 1)) with (trim_through_ r + 1) by (no_wrap_in H; done).
    pose proof (sound_range _ H). pose proof (sound_small _ H).
    apply send_propose_to_eq. split; [destruct H as [Hw _]; same_core Hw|]. apply set_next_fits; [done|lia].
Qed.

Lemma handle_client_request_eq now req r :
  sound r → next_slot_ r + size (pending_client_requests_ r) + 1 < limit →
  exec (handle_client_request now req) r = PaxosReplica.handle_client_request now req r.
Proof.
  intros H Hroom. unfold handle_client_request, PaxosReplica.handle_client_request. rewrite exec_this.
  case_if; [done|]. destruct (response_cache_ r !! _); [done|]. case_if; [done|].
  rewrite !exec_write_seq, exec_this. cbv zeta.
  match goal with |- context [exec _ ?x] => set (r1 := x) end.
  assert (Hr1 : sound r1).
  { destruct H as [Hw []]. unfold r1. split; [case_match; same_core Hw|].
    split; case_match; simpl; try done; rewrite size_app, size_cons, size_nil; lia. }
  change (match client_batch_deadline_ _ with Some _ => _ | None => _ end) with r1.
  case_if; [|done]. by apply flush_eq.
Qed.

Lemma handle_replica_message_eq m r :
  sound r → msg_ok m → message_fits m →
  exec (handle_replica_message m) r = PaxosReplica.handle_replica_message m r.
Proof.
  intros H Hm Hf. destruct m; simpl;
    [by apply handle_probe_eq|by apply handle_prepare_eq|by apply handle_propose_eq'|by apply handle_ack_eq'].
Qed.

(** * The two programs run the same replica *)

(** C11 The replica of [pt-collab.cc], with its loops and its 64-bit
    arithmetic, makes the same step as [PaxosReplica.run_iteration]: on a
    well-formed replica, whatever it wakes up with, as long as the slots, the
    round and the indices it holds and is sent leave room below [2^64]. *)
Theorem collab_replica_same (now : Z) (w : wakeup) (r : pt_paxos_replica) :
  replica_wf r → wakeup_ok w → fits r → round_fits r → wakeup_fits w →
  next_slot_ r + size (pending_client_requests_ r) + 1 < limit →
  exec (run_iteration now w) r = PaxosReplica.run_iteration now w r ∧
  run_delay now r = run_timeout now r.
Proof.
  intros Hw Hok Hf Hr Hwf Hroom. assert (H : sound r) by done. split.
  - unfold run_iteration, PaxosReplica.run_iteration, batch_due. rewrite exec_this.
    destruct (is_leader r && negb (bool_decide (pending_client_requests_ r = [])) && _);
      [by apply flush_eq|].
    destruct w as [req|m|].
    + transitivity (exec (handle_client_request now req) r); [by repeat case_if|].
      by apply handle_client_request_eq.
    + transitivity (exec (handle_replica_message m) r); [by repeat case_if|].
      by apply handle_replica_message_eq.
    + destruct (is_leader r); [|by apply start_probe_round_eq'].
      destruct (negb (bool_decide (pending_client_requests_ r = [])) && _);
        [by apply flush_eq|by apply broadcast_propose_eq].
  - unfold run_delay, run_timeout. case_if; [|done]. destruct (client_batch_deadline_ r); [|done].
    destruct (bool_decide _); [done|]. cbn. case_if; lia.
Qed.

(** The constructed replicas are the same too, and so are the two leaders. *)
Lemma construct_eq i n draws : construct i n draws = new_replica i n draws.
Proof. reflexivity. Qed.

Lemma initialize_eq l i n draws :
  exec (initialize l) (construct i n draws) = (PaxosReplica.initialize l (new_replica i n draws), []).
Proof.
  rewrite construct_eq. unfold initialize, PaxosReplica.initialize.
  rewrite !exec_write_seq, exec_this. case_if; [|done]. by apply become_leader_eq.
Qed.

Lemma initialized_fits l i n draws :
  fits (PaxosReplica.initialize l (new_replica i n draws)) ∧
  round_fits (PaxosReplica.initialize l (new_replica i n draws)).
Proof.
  unfold PaxosReplica.initialize, round_fits. case_if; [rewrite become_leader_frame|]; simpl; (split; [|done]);
    split; try done; simpl; [apply Forall_insert; [|done]|]; apply Forall_replicate; done.
Qed.

(** A leader's first step: a client's request is queued, then the batch is
    flushed when its time comes. *)
Example collab_leader_flushes :
  let r0 := (exec (initialize 0) (construct 0 3 [])).1 in
  let r1 := (exec (run_iteration 0 (client_wakeup (get_request 7 $"k"))) r0).1 in
  let p := exec (run_iteration 5000000 timer_wakeup) r1 in
  length p.2 = 2%nat ∧ next_slot_ p.1 = 2 ∧ pending_client_requests_ p.1 = [].
Proof. by vm_compute. Qed.

Lemma collab_replica_same_witness :
  let r := PaxosReplica.initialize 0 (new_replica 0 3 []) in
  exec (run_iteration 0 (client_wakeup (get_request 7 $"k"))) r =
    PaxosReplica.run_iteration 0 (client_wakeup (get_request 7 $"k")) r.
Proof.
  intros r. apply collab_replica_same.
  - apply initialize_wf. lia.
  - done.
  - apply initialized_fits.
  - apply initialized_fits.
  - done.
  - by vm_compute.
Defined.
