(* ===== verification/PaxosNet.v ===== *)
(** The cluster: replicas that exchange messages over a network that may lose,
    duplicate, delay and reorder them.

    The network is the set of all messages ever sent; a step delivers one of
    them, or a client request, or a timeout, to one replica and runs one
    iteration of its loop.  A message stays in the set after delivery, so every
    behaviour of the channels of [netsim.hh] (loss, delay, partitions set by
    [fail_replica] and friends) is a behaviour of this model.  Safety
    theorems about all reachable worlds hold for the program's. *)

From S2P Require Import Prelude SMap Text PancyDb PaxosReplica PaxosLocal PaxosProps.

(** * Worlds *)

Record world := mk_world {
  w_replicas : list pt_paxos_replica;
  w_sent : list (nat * paxos_message);
}.

Definition packets (outs : list output) : list (nat * paxos_message) :=
  omap (λ o, match o with to_replica dst m => Some (dst, m) | to_client _ => None end) outs.

(** The constructor of [pt_paxos_instance]: every replica built, then
    initialized with the designated leader. *)
Definition initial_world (nreplicas initial_leader : nat) (draws : nat → list Z) : world :=
  mk_world ((λ s, initialize initial_leader (new_replica s nreplicas (draws s))) <$> seq 0 nreplicas) [].

Definition deliverable (w : world) (i : nat) (ev : wakeup) : Prop :=
  match ev with replica_wakeup m => (i, m) ∈ w_sent w | _ => True end.

Inductive net_step (w : world) : world → Prop :=
  | replica_step i r now ev :
      w_replicas w !! i = Some r → deliverable w i ev →
      net_step w (mk_world (<[i := (run_iteration now ev r).1]> (w_replicas w))
                    (packets (run_iteration now ev r).2 ++ w_sent w)).

(** * What one iteration does to the election state *)

(** The fields an election reads and writes. *)
Record view := mk_view {
  v_index : nat; v_n : nat; v_round : Z; v_promised : option nat;
  v_role : replica_role; v_ok : list bool }.

Definition view_of (r : pt_paxos_replica) : view :=
  mk_view (index_ r) (nreplicas_ r) (current_round_ r) (promised_leader_ r) (role_ r) (prepare_ok_ r).

(** Packets without a vote: no probe, no promise, proposals only from the
    leader [v]. *)
Definition quiet (v : view) (o : output) : Prop :=
  match o with
  | to_replica _ (Probe _) => False
  | to_replica _ (Prepare m) => pp_promised m = false
  | to_replica dst (Propose m) =>
      v_role v = leader ∧ ps_round m = v_round v ∧ ps_leader m = v_index v ∧ dst ≠ v_index v
  | _ => True
  end.

Definition no_ok (v : view) : list bool := replicate (v_n v) false.
Definition quorum (n : nat) : nat := (n / 2 + 1)%nat.

(** The effects an iteration that handles [ev] can have, for a cluster of two
    replicas or more. *)
Inductive effect (v : view) (ev : wakeup) : view → list output → Prop :=
  | eff_same outs :
      Forall (quiet v) outs → effect v ev v outs
  | eff_follow rd outs :
      Forall (quiet (mk_view (v_index v) (v_n v) 0 None follower [])) outs →
      effect v ev
        (mk_view (v_index v) (v_n v) (Z.max (v_round v) rd)
           (if v_round v <? rd then None else v_promised v) follower (no_ok v)) outs
  | eff_promise m v' :
      ev = replica_wakeup (Probe m) → v_round v ≤ pb_round m →
      (v_round v = pb_round m → v_promised v = None ∨ v_promised v = Some (pb_leader m)) →
      v_index v' = v_index v → v_n v' = v_n v → v_round v' = pb_round m →
      v_promised v' = Some (pb_leader m) →
      (v_role v' = follower ∧ v_ok v' = no_ok v ∨
       v_round v = pb_round m ∧ v_role v' = v_role v ∧ v_ok v' = v_ok v) →
      effect v ev v'
        [to_replica (pb_leader m) (Prepare (mk_prepare (pb_round m) (v_index v) true))]
  | eff_candidate index round outs :
      outs = (λ s, to_replica s (Probe (mk_probe (v_round v + 1) (v_index v) index round)))
               <$> filter (λ s, s ≠ v_index v) (seq 0 (v_n v)) →
      effect v ev
        (mk_view (v_index v) (v_n v) (v_round v + 1) (Some (v_index v)) candidate
           (<[v_index v := true]> (no_ok v))) outs
  | eff_vote s :
      ev = replica_wakeup (Prepare (mk_prepare (v_round v) s true)) → v_role v = candidate →
      effect v ev
        (mk_view (v_index v) (v_n v) (v_round v) (v_promised v) candidate (<[s := true]> (v_ok v))) []
  | eff_lead s outs :
      ev = replica_wakeup (Prepare (mk_prepare (v_round v) s true)) → v_role v = candidate →
      (quorum (v_n v) ≤ count_true (<[s := true]> (v_ok v)))%nat →
      Forall (quiet (mk_view (v_index v) (v_n v) (v_round v) (Some (v_index v)) leader (no_ok v))) outs →
      effect v ev
        (mk_view (v_index v) (v_n v) (v_round v) (Some (v_index v)) leader (no_ok v)) outs.

(** ** Sub-routines that leave the election state alone *)

Lemma frame_next_view r r' : frame_next r r' → view_of r' = view_of r.
Proof. by intros (ni & _ & ->). Qed.

Lemma frame_apply_view r r' : frame_apply r r' → view_of r' = view_of r.
Proof. by intros (?&?&?&?&?&->). Qed.

Lemma trim_log_prefix_view r : view_of (trim_log_prefix r) = view_of r.
Proof. unfold trim_log_prefix. by destruct (trim_loop _ _ _). Qed.

Lemma update_trim_view r : view_of (update_trim_watermark r) = view_of r.
Proof.
  unfold update_trim_watermark. case_if; [done|]. case_if; [|done]. by rewrite trim_log_prefix_view.
Qed.

Lemma update_commit_view r : view_of (update_commit_index r) = view_of r.
Proof. unfold update_commit_index. by case_if. Qed.

Lemma apply_committed_view r : view_of (apply_committed_entries r).1 = view_of r.
Proof. rewrite apply_committed_fst, trim_log_prefix_view. apply frame_apply_view, apply_loop_frame. Qed.

Lemma advance_view r : view_of (advance r).1 = view_of r.
Proof.
  unfold advance. rewrite and_then_fst. unfold pure_. cbn [fst].
  by rewrite update_trim_view, apply_committed_view, update_commit_view.
Qed.

Lemma append_request_view r : view_of (append_request r) = view_of r.
Proof.
  destruct (pending_client_requests_ r) as [|req rest] eqn:E.
  - unfold append_request. by rewrite E.
  - by destruct (append_request_cons r req rest E) as [pc ->].
Qed.

Lemma batched_view r : view_of (batched r) = view_of r.
Proof.
  unfold batched. assert (H : ∀ n, view_of (Nat.iter n append_request r) = view_of r).
  { induction n as [|n IH]; [done|]. simpl. by rewrite append_request_view. }
  specialize (H (Nat.min (length (pending_client_requests_ r)) append_batch_size_)). revert H.
  generalize (Nat.iter (Nat.min (length (pending_client_requests_ r)) append_batch_size_) append_request r).
  intros x Hx. exact Hx.
Qed.

Lemma settle_view msg r : view_of (settle msg r).1 = view_of r.
Proof.
  unfold settle. rewrite and_then_fst. unfold pure_. cbn [fst].
  match goal with |- context [apply_committed_entries ?x] =>
    assert (H : view_of (apply_committed_entries x).1 = view_of r) end.
  { rewrite apply_committed_view. by case_if. }
  revert H. match goal with |- context [(apply_committed_entries ?x).1] => generalize (apply_committed_entries x).1 end.
  intros y Hy. case_if; [|done]. by rewrite trim_log_prefix_view.
Qed.

Lemma accept_loop_view entries r m : view_of (accept_loop entries r m).1 = view_of r.
Proof. by destruct (accept_loop_frame entries r m) as (log & next & ->). Qed.

Lemma become_follower_view rd hint r :
  view_of (become_follower rd hint r) =
    mk_view (index_ r) (nreplicas_ r) (Z.max (current_round_ r) rd)
      (if current_round_ r <? rd then None else promised_leader_ r) follower (no_ok (view_of r)).
Proof. by rewrite become_follower_frame. Qed.

Lemma become_leader_view r :
  view_of (become_leader r) =
    mk_view (index_ r) (nreplicas_ r) (current_round_ r) (Some (index_ r)) leader (no_ok (view_of r)).
Proof. by rewrite become_leader_frame. Qed.

(** ** What they send *)

Lemma send_propose_quiet s r : Forall (quiet (view_of r)) (send_propose_to s r).2.
Proof.
  unfold send_propose_to. destruct (_ || _) eqn:E; [constructor|]. apply orb_false_iff in E as [E1 E2].
  apply negb_false_iff in E2. unfold is_leader in E2. bsimp. constructor; [|constructor]. done.
Qed.

Lemma propose_to_all_quiet ps r : Forall (quiet (view_of r)) (propose_to_all ps r).2.
Proof.
  revert r. induction ps as [|s ps IH]; intros r; cbn [propose_to_all]; [constructor|].
  rewrite and_then_snd. apply Forall_app. case_if; cbn [fst snd].
  - split; [constructor|apply IH].
  - split; [apply send_propose_quiet|]. rewrite <- (frame_next_view _ _ (send_propose_frame s r)). apply IH.
Qed.

Lemma apply_loop_quiet v n r : Forall (quiet v) (apply_loop n r).2.
Proof.
  revert r. induction n as [|n IH]; intros r; cbn [apply_loop]; [constructor|]. rewrite and_then_snd.
  apply Forall_app. split; [|apply IH]. unfold apply_next. case_match; [|constructor].
  unfold answer. repeat case_match; repeat constructor.
Qed.

Lemma apply_committed_quiet v r : Forall (quiet v) (apply_committed_entries r).2.
Proof.
  unfold apply_committed_entries. rewrite and_then_snd. cbn [pure_ snd]. rewrite app_nil_r.
  apply apply_loop_quiet.
Qed.

Lemma advance_quiet v r : Forall (quiet v) (advance r).2.
Proof.
  unfold advance. rewrite and_then_snd. cbn [pure_ snd]. rewrite app_nil_r. apply apply_committed_quiet.
Qed.

(** ** The effect of each handler *)

Definition steady (r : pt_paxos_replica) (p : step_result) : Prop :=
  view_of p.1 = view_of r ∧ Forall (quiet (view_of r)) p.2.

Lemma steady_ret r r' : view_of r' = view_of r → steady r (r', []).
Proof. intros. split; [done|constructor]. Qed.

Lemma steady_bind r p f : steady r p → (∀ x, steady x (f x)) → steady r (p ;> f).
Proof.
  intros [H1 H2] Hf. destruct (Hf p.1) as [H3 H4]. split; rewrite ?and_then_fst, ?and_then_snd.
  - congruence.
  - apply Forall_app. split; [done|]. by rewrite <- H1.
Qed.

Lemma broadcast_steady r : steady r (broadcast_propose r).
Proof. split; [apply frame_next_view, broadcast_frame|apply propose_to_all_quiet]. Qed.

Lemma send_propose_steady s r : steady r (send_propose_to s r).
Proof. split; [apply frame_next_view, send_propose_frame|apply send_propose_quiet]. Qed.

Lemma advance_steady r : steady r (advance r).
Proof. split; [apply advance_view|apply advance_quiet]. Qed.

Lemma flush_batch_steady r : steady r (flush_batch r).
Proof.
  rewrite flush_batch_advance. rewrite <- (bind_ret (batched r) broadcast_propose).
  apply steady_bind; [apply steady_bind|apply advance_steady].
  - apply steady_ret, batched_view.
  - apply broadcast_steady.
Qed.

Lemma flush_steady now r : steady r (flush_pending_client_requests now r).
Proof.
  assert (Hloop : ∀ n x, steady x (flush_loop n x)).
  { induction n as [|n IH]; intros x; cbn [flush_loop]; [by apply steady_ret|].
    case_if; [|by apply steady_ret]. apply steady_bind; [apply flush_batch_steady|apply IH]. }
  unfold flush_pending_client_requests. destruct (_ || _); [by apply steady_ret|].
  apply steady_bind; [apply Hloop|]. intros x. apply steady_ret. by case_if.
Qed.

Lemma effect_steady r ev p : steady r p → effect (view_of r) ev (view_of p.1) p.2.
Proof. intros [-> H]. by apply eff_same. Qed.

Lemma handle_client_request_effect ev now req r :
  let p := handle_client_request now req r in effect (view_of r) ev (view_of p.1) p.2.
Proof.
  apply effect_steady. unfold handle_client_request. case_if; [split; [done|by repeat constructor]|].
  destruct (response_cache_ r !! _); [split; [done|by repeat constructor]|].
  case_if; [by apply steady_ret|].
  match goal with |- steady _ (if (append_batch_size_ <=? length (pending_client_requests_ ?x))%nat then _ else _) =>
    assert (Hx : view_of x = view_of r) by (by case_match); revert Hx; generalize x end.
  intros x Hx. case_if; [|by apply steady_ret].
  rewrite <- (bind_ret x (flush_pending_client_requests now)).
  apply steady_bind; [by apply steady_ret|]. intros. apply flush_steady.
Qed.

Lemma become_follower_effect rd hint r ev :
  effect (view_of r) ev (view_of (become_follower rd hint r)) [].
Proof. rewrite become_follower_view. apply (eff_follow (view_of r) ev rd []). constructor. Qed.

Lemma handle_probe_effect m r :
  let p := handle_probe m r in effect (view_of r) (replica_wakeup (Probe m)) (view_of p.1) p.2.
Proof.
  cbv zeta. unfold handle_probe. case_if; [apply eff_same; by repeat constructor|].
  destruct (current_round_ r <? pb_round m) eqn:E; bsimp.
  - destruct (_ && _) eqn:Ep.
    + match goal with |- effect _ _ ?v ?o => replace o with
        [to_replica (pb_leader m) (Prepare (mk_prepare (pb_round m) (index_ r) true))] end.
      * apply eff_promise; try done; rewrite ?become_follower_frame; simpl; try lia; try done. by left.
      * rewrite become_follower_frame. simpl. by rewrite Z.max_r by lia.
    + cbn [fst snd]. rewrite become_follower_view. apply (eff_follow (view_of r)).
      constructor; [done|constructor].
  - destruct (_ && _) eqn:Ep; [|apply eff_same; by repeat constructor].
    apply andb_true_iff in Ep as [Ep _]. assert (Hr : current_round_ r = pb_round m) by lia.
    match goal with |- effect _ _ ?v ?o => replace o with
      [to_replica (pb_leader m) (Prepare (mk_prepare (pb_round m) (index_ r) true))] end.
    + apply eff_promise; try done; simpl; try lia; [|by right].
      intros _. destruct (promised_leader_ r); [bsimp; subst; by right|by left].
    + simpl. by rewrite Hr.
Qed.

Lemma handle_prepare_effect m r :
  let p := handle_prepare m r in effect (view_of r) (replica_wakeup (Prepare m)) (view_of p.1) p.2.
Proof.
  cbv zeta. unfold handle_prepare. case_if; [apply become_follower_effect|].
  destruct (_ || _) eqn:E; [by apply eff_same|]. bsimp.
  unfold is_candidate in *. bsimp. destruct m as [rd s pr]. simpl in *. subst.
  set (r1 := set_prepare_ok_ (<[s := true]> (prepare_ok_ r)) r).
  destruct (has_quorum r1 _) eqn:Eq.
  - destruct (broadcast_steady (become_leader r1)) as [Hv Hq]. rewrite Hv. rewrite become_leader_view in *.
    apply (eff_lead (view_of r) _ s); [done|done| |exact Hq].
    unfold has_quorum in Eq. apply Nat.leb_le in Eq. exact Eq.
  - cbn [fst snd]. replace (view_of r1) with (mk_view (index_ r) (nreplicas_ r) (current_round_ r)
      (promised_leader_ r) candidate (<[s := true]> (prepare_ok_ r))) by (unfold view_of; simpl; congruence).
    by apply (eff_vote (view_of r) _ s).
Qed.

Lemma handle_propose_effect m r :
  let p := handle_propose m r in effect (view_of r) (replica_wakeup (Propose m)) (view_of p.1) p.2.
Proof.
  cbv zeta. rewrite handle_propose_eq. cbv zeta. case_if; [apply eff_same; by repeat constructor|].
  assert (Hf : ∀ p, view_of p.1 = view_of (become_follower (ps_round m) (ps_leader m) r) →
    Forall (quiet (mk_view (index_ r) (nreplicas_ r) 0 None follower [])) p.2 →
    effect (view_of r) (replica_wakeup (Propose m)) (view_of p.1) p.2).
  { intros p -> Hq. rewrite become_follower_view. by apply (eff_follow (view_of r)). }
  revert Hf. generalize (become_follower (ps_round m) (ps_leader m) r). intros x Hf.
  destruct (negb _); [apply Hf; [done|by repeat constructor]|].
  pose proof (accept_loop_view (ps_entries m) x (ps_prev_log_index m)) as Hv.
  destruct (accept_loop _ _ _) as [y [k|slot]]; cbn [fst] in Hv; [|apply Hf; [done|by repeat constructor]].
  apply Hf; rewrite ?and_then_fst, ?and_then_snd; cbn [fst snd].
  - by rewrite settle_view.
  - apply Forall_app. split; [|by repeat constructor]. unfold settle. rewrite and_then_snd.
    cbn [pure_ snd]. rewrite app_nil_r. apply apply_committed_quiet.
Qed.

Lemma handle_ack_effect m r :
  let p := handle_ack m r in effect (view_of r) (replica_wakeup (Ack m)) (view_of p.1) p.2.
Proof.
  cbv zeta. rewrite handle_ack_eq. cbv zeta. case_if; [apply become_follower_effect|].
  apply effect_steady. destruct (_ || _); [by apply steady_ret|]. case_if.
  - match goal with |- context [advance ?x] => rewrite <- (bind_ret x advance) end.
    apply steady_bind; [apply steady_bind; [by apply steady_ret|apply advance_steady]|].
    intros x. case_if; [apply send_propose_steady|by apply steady_ret].
  - match goal with |- context [send_propose_to ?s ?x] => rewrite <- (bind_ret x (send_propose_to s)) end.
    apply steady_bind; [by apply steady_ret|]. intros. apply send_propose_steady.
Qed.

Lemma start_probe_round_effect r ev :
  (2 ≤ nreplicas_ r)%nat →
  let p := start_probe_round r in effect (view_of r) ev (view_of p.1) p.2.
Proof.
  intros Hn. cbv zeta. rewrite start_probe_round_eq, and_then_fst, and_then_snd. unfold send_probes.
  cbn [fst snd]. assert (has_quorum (candidacy r) 1 = false) as ->.
  { unfold has_quorum, quorum_size. change (nreplicas_ (candidacy r)) with (nreplicas_ r). apply Nat.leb_gt.
    assert (1 ≤ nreplicas_ r / 2)%nat by (apply Nat.div_le_lower_bound; lia). lia. }
  cbn [fst snd]. rewrite app_nil_r. by eapply eff_candidate.
Qed.

Lemma run_iteration_effect now ev r :
  (2 ≤ nreplicas_ r)%nat →
  let p := run_iteration now ev r in effect (view_of r) ev (view_of p.1) p.2.
Proof.
  intros Hn. cbv zeta. unfold run_iteration. case_if; [apply effect_steady, flush_steady|].
  destruct ev as [req|m|].
  - apply handle_client_request_effect.
  - destruct m; cbn [handle_replica_message].
    + apply handle_probe_effect.
    + apply handle_prepare_effect.
    + apply handle_propose_effect.
    + apply handle_ack_effect.
  - case_if; [|by apply start_probe_round_effect].
    apply effect_steady. case_if; [apply flush_steady|apply broadcast_steady].
Qed.

(** * The election invariant *)

(** Replica [s] promised candidate [c] in round [rd]: it sent the promise, or it
    is the candidate itself. *)
Definition voted (S : list (nat * paxos_message)) (s : nat) (rd : Z) (c : nat) : Prop :=
  (c, Prepare (mk_prepare rd s true)) ∈ S ∨
  s = c ∧ ∃ dst m, (dst, Probe m) ∈ S ∧ pb_round m = rd ∧ pb_leader m = c.

Lemma voted_mono S S' s rd c : S ⊆ S' → voted S s rd c → voted S' s rd c.
Proof.
  intros H [Hp|(-> & dst & m & Hm & Hr & Hl)]; [left; by apply H|].
  right. split; [done|]. exists dst, m. split_and!; [by apply H|done..].
Qed.

Section Elections.
Context (n l0 : nat).
Hypothesis n_ge_2 : (2 ≤ n)%nat.

(** A quorum, the candidate among it, promised [c] in round [rd]. *)
Definition elected (S : list (nat * paxos_message)) (c : nat) (rd : Z) : Prop :=
  ∃ Q, NoDup Q ∧ Forall (λ s, (s < n)%nat) Q ∧ (quorum n ≤ length Q)%nat ∧ c ∈ Q ∧
       ∀ s, s ∈ Q → voted S s rd c.

(** [c] may lead round [rd]: the designated leader round 0, an elected replica
    any later round. *)
Definition legit (S : list (nat * paxos_message)) (c : nat) (rd : Z) : Prop :=
  rd = 0 ∧ c = l0 ∨ 0 < rd ∧ elected S c rd.

Lemma legit_mono S S' c rd : S ⊆ S' → legit S c rd → legit S' c rd.
Proof.
  intros H [?|(? & Q & ?&?&?&?&Hv)]; [by left|]. right. split; [done|].
  exists Q. split_and!; try done. intros s Hs. by eapply voted_mono, Hv.
Qed.

Record einv (vs : list view) (S : list (nat * paxos_message)) : Prop := {
  ei_len : length vs = n;
  ei_ids : ∀ i v, vs !! i = Some v →
    v_index v = i ∧ v_n v = n ∧ length (v_ok v) = n ∧ 0 ≤ v_round v;
  ei_vote : ∀ s rd c, voted S s rd c →
    0 < rd ∧ ∃ v, vs !! s = Some v ∧ rd ≤ v_round v ∧ (rd = v_round v → v_promised v = Some c);
  ei_once : ∀ s rd c c', voted S s rd c → voted S s rd c' → c = c';
  ei_cand : ∀ i v, vs !! i = Some v → v_role v = candidate →
    0 < v_round v ∧ v_promised v = Some i ∧ v_ok v !! i = Some true ∧
    ∀ s, v_ok v !! s = Some true → voted S s (v_round v) i;
  ei_lead : ∀ i v, vs !! i = Some v → v_role v = leader →
    v_promised v = Some i ∧ legit S i (v_round v);
  ei_propose : ∀ dst p, (dst, Propose p) ∈ S →
    legit S (ps_leader p) (ps_round p) ∧ dst ≠ ps_leader p;
}.

(** Two quorums share a replica. *)
Lemma quorums_meet (Q1 Q2 : list nat) :
  NoDup Q1 → NoDup Q2 → Forall (λ s, (s < n)%nat) Q1 → Forall (λ s, (s < n)%nat) Q2 →
  (quorum n ≤ length Q1)%nat → (quorum n ≤ length Q2)%nat → ∃ s, s ∈ Q1 ∧ s ∈ Q2.
Proof.
  intros H1 H2 F1 F2 L1 L2. destruct (decide (Exists (λ s, s ∈ Q2) Q1)) as [He|Hn].
  { apply Exists_exists in He as (s & ? & ?). by exists s. }
  exfalso. apply not_Exists_Forall in Hn; [|apply _]. rewrite Forall_forall in Hn.
  assert (Hnd : NoDup (Q1 ++ Q2)) by (apply NoDup_app; split_and!; [done| |done]; intros x Hx; by apply Hn).
  assert (Hsub : Q1 ++ Q2 ⊆ seq 0 n).
  { intros s [Hs|Hs]%elem_of_app; apply elem_of_seq; rewrite Forall_forall in F1, F2;
      [apply F1 in Hs|apply F2 in Hs]; lia. }
  apply NoDup_submseteq in Hsub; [|done]. apply submseteq_length in Hsub.
  rewrite length_app, length_seq in Hsub. unfold quorum in *.
  pose proof (Nat.div_mod n 2). pose proof (Nat.mod_upper_bound n 2). lia.
Qed.

Lemma legit_unique vs S c c' rd : einv vs S → legit S c rd → legit S c' rd → c = c'.
Proof.
  intros He [[-> ->]|[Hp (Q & ?&?&?&?&Hv)]] [[Hz ->]|[Hp' (Q' & ?&?&?&?&Hv')]]; try done; try lia.
  destruct (quorums_meet Q Q') as (s & Hq1 & Hq2); try done. by eapply (ei_once vs S He); [apply Hv|apply Hv'].
Qed.

(** An elected replica has reached the round. *)
Lemma legit_round vs S c rd v :
  einv vs S → legit S c rd → vs !! c = Some v → rd ≤ v_round v.
Proof.
  intros He [[-> _]|[_ (Q & _&_&_&Hc&Hv)]] Hl.
  - by apply (ei_ids vs S He) in Hl as (_ & _ & _ & ?).
  - apply Hv, (ei_vote vs S He) in Hc as (_ & v' & Hl' & Hle & _). by simplify_eq.
Qed.

(** ** One step *)

Lemma einv_update vs S S' i v v' :
  einv vs S → vs !! i = Some v → S ⊆ S' →
  v_index v' = i → v_n v' = n → length (v_ok v') = n → v_round v ≤ v_round v' →
  (∀ c, v_round v = v_round v' → v_promised v = Some c → v_promised v' = Some c) →
  (∀ s rd c, voted S' s rd c →
     voted S s rd c ∨ s = i ∧ rd = v_round v' ∧ v_promised v' = Some c ∧ 0 < rd) →
  (v_role v' = candidate → 0 < v_round v' ∧ v_promised v' = Some i ∧ v_ok v' !! i = Some true ∧
     ∀ s, v_ok v' !! s = Some true → voted S' s (v_round v') i) →
  (v_role v' = leader → v_promised v' = Some i ∧ legit S' i (v_round v')) →
  (∀ dst p, (dst, Propose p) ∈ S' →
     (dst, Propose p) ∈ S ∨ legit S' (ps_leader p) (ps_round p) ∧ dst ≠ ps_leader p) →
  einv (<[i := v']> vs) S'.
Proof.
  intros He Hi Hsub Hx Hn Hok Hrd Hpr Hnew Hcand Hlead Hprop.
  assert (Hlt : (i < length vs)%nat) by by apply lookup_lt_Some in Hi.
  pose proof (ei_ids vs S He i v Hi) as (_ & _ & _ & Hpos).
  assert (Hold : ∀ j u, <[i := v']> vs !! j = Some u → j = i ∧ u = v' ∨ j ≠ i ∧ vs !! j = Some u).
  { intros j u. destruct (decide (j = i)) as [->|].
    - rewrite list_lookup_insert_eq by done. intros [= <-]. by left.
    - rewrite list_lookup_insert_ne by done. by right. }
  split.
  - rewrite length_insert. apply He.
  - intros j u [[-> ->]|[_ Hj]]%Hold; [split_and!; try done; lia|]. by eapply ei_ids.
  - intros s rd c [Ho|(-> & -> & Hp & Hp0)]%Hnew.
    + apply (ei_vote vs S He) in Ho as (H0 & u & Hu & Hle & Heq). split; [done|].
      destruct (decide (s = i)) as [->|].
      * simplify_eq. exists v'. rewrite list_lookup_insert_eq by done. split_and!; [done|lia|].
        intros ->. apply Hpr; [lia|]. apply Heq. lia.
      * exists u. by rewrite list_lookup_insert_ne.
    + split; [done|]. exists v'. rewrite list_lookup_insert_eq by done. split_and!; [done|lia|done].
  - intros s rd c c' H1 H2. destruct (Hnew _ _ _ H1) as [Ho1|(-> & -> & Hp1 & _)].
    + destruct (Hnew _ _ _ H2) as [Ho2|(-> & -> & Hp2 & _)]; [by eapply (ei_once vs S He)|].
      apply (ei_vote vs S He) in Ho1 as (_ & u & Hu & Hle & Heq). simplify_eq.
      assert (v_promised v' = Some c); [|congruence]. apply Hpr; [lia|]. apply Heq. lia.
    + destruct (Hnew _ _ _ H2) as [Ho2|(_ & _ & Hp2 & _)]; [|congruence].
      apply (ei_vote vs S He) in Ho2 as (_ & u & Hu & Hle & Heq). simplify_eq.
      assert (v_promised v' = Some c'); [|congruence]. apply Hpr; [lia|]. apply Heq. lia.
  - intros j u [[-> ->]|[_ Hj]]%Hold Hr; [auto|].
    destruct (ei_cand vs S He j u Hj Hr) as (?&?&?&Hv). split_and!; try done.
    intros s Hs. by eapply voted_mono, Hv.
  - intros j u [[-> ->]|[_ Hj]]%Hold Hr; [auto|].
    destruct (ei_lead vs S He j u Hj Hr) as (?&?). split; [done|]. by eapply legit_mono.
  - intros dst p [Ho|]%Hprop; [|done]. apply (ei_propose vs S He) in Ho as [Hl ?].
    split; [by eapply legit_mono|done].
Qed.

Lemma quiet_votes u outs S s rd c :
  Forall (quiet u) outs → voted (packets outs ++ S) s rd c → voted S s rd c.
Proof.
  intros Hq. assert (Hp : ∀ dst m, (dst, m) ∈ packets outs → quiet u (to_replica dst m)).
  { intros dst m Hin. apply list_elem_of_omap in Hin as (o & Ho & Heq).
    rewrite Forall_forall in Hq. apply Hq in Ho. by destruct o; simplify_eq. }
  intros [Hin|(-> & dst & m & Hin & Hr & Hl)].
  - apply elem_of_app in Hin as [Hin|]; [|by left]. apply Hp in Hin. done.
  - apply elem_of_app in Hin as [Hin|]; [by apply Hp in Hin|]. right. split; [done|]. by exists dst, m.
Qed.

Lemma quiet_proposals u outs S dst p :
  Forall (quiet u) outs → (dst, Propose p) ∈ packets outs ++ S →
  (dst, Propose p) ∈ S ∨
  v_role u = leader ∧ ps_round p = v_round u ∧ ps_leader p = v_index u ∧ dst ≠ v_index u.
Proof.
  intros Hq [Hin|]%elem_of_app; [right|by left].
  apply list_elem_of_omap in Hin as (o & Ho & Heq). rewrite Forall_forall in Hq. apply Hq in Ho.
  by destruct o; simplify_eq.
Qed.

Lemma count_true_quorum l :
  length (filter (λ s, l !! s = Some true) (seq 0 (length l))) = count_true l.
Proof.
  induction l as [|b l IH] using rev_ind; [done|].
  rewrite length_app, seq_app, filter_app, length_app. unfold count_true in *.
  rewrite filter_app, length_app, <- IH. f_equal.
  - f_equal. apply filter_ext_in, Forall_forall. intros s Hs. apply elem_of_seq in Hs.
    rewrite lookup_app_l by lia. done.
  - simpl. rewrite !filter_cons, filter_nil.
    assert ((l ++ [b]) !! length l = Some b) as -> by (rewrite lookup_app_r, Nat.sub_diag by lia; done).
    destruct b; simpl; by repeat case_decide.
Qed.

Lemma packets_sub outs (S : list (nat * paxos_message)) : S ⊆ packets outs ++ S.
Proof. intros x Hx. apply elem_of_app. by right. Qed.

(** ** Each effect keeps the invariant *)

Section Effects.
Context (vs : list view) (S : list (nat * paxos_message)) (i : nat) (v : view).
Hypothesis He : einv vs S.
Hypothesis Hi : vs !! i = Some v.

Lemma no_ok_length : length (no_ok v) = n.
Proof. unfold no_ok. rewrite length_replicate. by apply (ei_ids vs S He i v Hi). Qed.

Lemma id_below : (i < n)%nat.
Proof. rewrite <- (ei_len vs S He). by eapply lookup_lt_Some. Qed.

Lemma einv_same outs : Forall (quiet v) outs → einv (<[i := v]> vs) (packets outs ++ S).
Proof.
  intros Hq. pose proof (ei_ids vs S He i v Hi) as (Hx & Hn & Hok & Hpos).
  pose proof (packets_sub outs S) as Hsub.
  apply (einv_update vs S _ i v v He Hi Hsub); try done.
  - intros. left. by eapply quiet_votes.
  - intros Hc. destruct (ei_cand vs S He i v Hi Hc) as (?&?&?&Hv). split_and!; try done.
    intros s Hs. by eapply voted_mono, Hv.
  - intros Hl. destruct (ei_lead vs S He i v Hi Hl) as (?&?). split; [done|]. by eapply legit_mono.
  - intros dst p Hin. destruct (quiet_proposals _ _ _ _ _ Hq Hin) as [|(Hl & -> & -> & ?)]; [by left|right].
    destruct (ei_lead vs S He i v Hi Hl) as (?&?). rewrite Hx in *. split; [by eapply legit_mono|done].
Qed.

Lemma einv_follow rd outs :
  Forall (quiet (mk_view (v_index v) (v_n v) 0 None follower [])) outs →
  einv (<[i := mk_view (v_index v) (v_n v) (Z.max (v_round v) rd)
           (if v_round v <? rd then None else v_promised v) follower (no_ok v)]> vs) (packets outs ++ S).
Proof.
  intros Hq. pose proof (ei_ids vs S He i v Hi) as (Hx & Hn & Hok & Hpos).
  eapply (einv_update vs S _ i v _ He Hi (packets_sub outs S)); simpl; try done.
  - apply no_ok_length.
  - lia.
  - intros c Hc Hp. case_if; [lia|done].
  - intros. left. by eapply quiet_votes.
  - intros dst p Hin. destruct (quiet_proposals _ _ _ _ _ Hq Hin) as [|(Hl & _)]; [by left|done].
Qed.

Lemma einv_promise m v' :
  (i, Probe m) ∈ S → v_round v ≤ pb_round m →
  (v_round v = pb_round m → v_promised v = None ∨ v_promised v = Some (pb_leader m)) →
  v_index v' = v_index v → v_n v' = v_n v → v_round v' = pb_round m →
  v_promised v' = Some (pb_leader m) →
  (v_role v' = follower ∧ v_ok v' = no_ok v ∨
   v_round v = pb_round m ∧ v_role v' = v_role v ∧ v_ok v' = v_ok v) →
  einv (<[i := v']> vs)
    (packets [to_replica (pb_leader m) (Prepare (mk_prepare (pb_round m) (v_index v) true))] ++ S).
Proof.
  intros Hm Hle Hcond Hi' Hn' Hr' Hp' Hro. pose proof (ei_ids vs S He i v Hi) as (Hx & Hn & Hok & Hpos).
  assert (Hprobe : 0 < pb_round m).
  { eapply (ei_vote vs S He (pb_leader m) (pb_round m) (pb_leader m)). right. split; [done|]. by exists i, m. }
  assert (Hkeep : ∀ c, v_round v = v_round v' → v_promised v = Some c → v_promised v' = Some c).
  { intros c Hrr Hpp. destruct Hcond as [Hc|Hc]; congruence. }
  match goal with |- einv _ ?S' => set (S1 := S') end.
  assert (Hsub : S ⊆ S1) by apply packets_sub.
  apply (einv_update vs S S1 i v v' He Hi Hsub); try (congruence || lia).
  - destruct Hro as [[_ ->]|(_ & _ & ->)]; [apply no_ok_length|done].
  - exact Hkeep.
  - intros s rd c [Hin|(-> & dst & pm & Hin & ? & ?)]; apply elem_of_cons in Hin as [Heq|Hin].
    + injection Heq as -> -> ->. right. split_and!; try done.
    + left. by left.
    + congruence.
    + left. right. split; [done|]. by exists dst, pm.
  - intros Hc. destruct Hro as [[Hf _]|(Hrr & Hsame & Hoks)]; [congruence|].
    rewrite Hsame in Hc. destruct (ei_cand vs S He i v Hi Hc) as (?&Hps&?&Hv).
    rewrite Hr', <- Hrr, Hoks. split_and!; [done|apply Hkeep; [congruence|done]|done|].
    intros s Hs. by eapply voted_mono, Hv.
  - intros Hl. destruct Hro as [[Hf _]|(Hrr & Hsame & Hoks)]; [congruence|].
    rewrite Hsame in Hl. destruct (ei_lead vs S He i v Hi Hl) as (Hps&?).
    rewrite Hr', <- Hrr. split; [apply Hkeep; [congruence|done]|by eapply legit_mono].
  - intros dst p Hin. left. apply elem_of_cons in Hin as [|]; [congruence|done].
Qed.

(** The packets of a new candidate. *)
Definition probes (ix lr : Z) : list output :=
  (λ s, to_replica s (Probe (mk_probe (v_round v + 1) (v_index v) ix lr)))
    <$> filter (λ s, s ≠ v_index v) (seq 0 (v_n v)).

Lemma elem_of_probes ix lr dst m :
  (dst, m) ∈ packets (probes ix lr) ↔
  m = Probe (mk_probe (v_round v + 1) (v_index v) ix lr) ∧ dst ≠ v_index v ∧ (dst < v_n v)%nat.
Proof.
  unfold probes, packets. rewrite list_elem_of_omap. split.
  - intros (o & Ho & Heq). apply list_elem_of_fmap in Ho as (x & -> & Hx). simplify_eq.
    apply list_elem_of_filter in Hx as [? Hx]. apply elem_of_seq in Hx. split_and!; [done|done|lia].
  - intros (-> & Hd & Hlt). eexists (to_replica dst _). split; [|reflexivity]. apply list_elem_of_fmap.
    exists dst. split; [done|]. apply list_elem_of_filter. split; [done|]. apply elem_of_seq. lia.
Qed.

Lemma candidate_votes_itself ix lr : voted (packets (probes ix lr) ++ S) i (v_round v + 1) i.
Proof.
  pose proof (ei_ids vs S He i v Hi) as (Hx & Hn & _). right. split; [done|].
  assert (∃ d, (d < n)%nat ∧ d ≠ i) as (d & Hd & Hdi).
  { destruct (decide (i = 0%nat)) as [->|]; [exists 1%nat; lia|exists 0%nat; lia]. }
  exists d, (mk_probe (v_round v + 1) (v_index v) ix lr). split_and!; [|done|done].
  apply elem_of_app. left. apply elem_of_probes. split_and!; congruence.
Qed.

Lemma einv_candidate ix lr :
  einv (<[i := mk_view (v_index v) (v_n v) (v_round v + 1) (Some (v_index v)) candidate
           (<[v_index v := true]> (no_ok v))]> vs) (packets (probes ix lr) ++ S).
Proof.
  pose proof (ei_ids vs S He i v Hi) as (Hx & Hn & Hok & Hpos).
  pose proof (candidate_votes_itself ix lr) as Hself. pose proof no_ok_length as Hno.
  eapply (einv_update vs S _ i v _ He Hi (packets_sub _ S)); simpl; try done.
  - by rewrite length_insert.
  - lia.
  - intros. lia.
  - intros s rd c [Hin|(-> & dst & m & Hin & <- & <-)]; apply elem_of_app in Hin as [Hin|Hin].
    + by apply elem_of_probes in Hin as [? _].
    + left. by left.
    + apply elem_of_probes in Hin as [Hm _]. simplify_eq. right. simpl. split_and!; try done; lia.
    + left. right. split; [done|]. by exists dst, m.
  - intros _. rewrite Hx. split_and!; [lia|done| |].
    + rewrite list_lookup_insert_eq; [done|]. rewrite Hno. apply id_below.
    + intros s Hs. destruct (decide (s = i)) as [->|]; [done|].
      rewrite list_lookup_insert_ne in Hs by done. by apply lookup_replicate in Hs as [? _].
  - intros dst p Hin. left. apply elem_of_app in Hin as [Hin|]; [|done].
    by apply elem_of_probes in Hin as [? _].
Qed.

(** ** Collecting promises *)

Section Votes.
Context (s : nat).
Hypothesis Hs : (i, Prepare (mk_prepare (v_round v) s true)) ∈ S.
Hypothesis Hro : v_role v = candidate.

Lemma self_ok : <[s := true]> (v_ok v) !! i = Some true.
Proof.
  destruct (ei_cand vs S He i v Hi Hro) as (_ & _ & Hii & _).
  destruct (decide (s = i)) as [->|]; [|by rewrite list_lookup_insert_ne].
  rewrite list_lookup_insert_eq; [done|]. by eapply lookup_lt_Some.
Qed.

Lemma ok_voted x : <[s := true]> (v_ok v) !! x = Some true → voted S x (v_round v) i.
Proof.
  destruct (ei_cand vs S He i v Hi Hro) as (_ & _ & _ & Hv). intros Hx.
  destruct (decide (x = s)) as [->|]; [by left|]. rewrite list_lookup_insert_ne in Hx by done. by apply Hv.
Qed.

Lemma einv_vote :
  einv (<[i := mk_view (v_index v) (v_n v) (v_round v) (v_promised v) candidate
           (<[s := true]> (v_ok v))]> vs) S.
Proof.
  destruct (ei_cand vs S He i v Hi Hro) as (?&?&_&_).
  pose proof (ei_ids vs S He i v Hi) as (Hx & Hn & Hok & Hpos).
  eapply (einv_update vs S _ i v _ He Hi); simpl; try done.
  - by rewrite length_insert.
  - intros. by left.
  - intros _. split_and!; [done|done|apply self_ok|apply ok_voted].
  - intros. by left.
Qed.

Lemma votes_elect :
  (quorum (v_n v) ≤ count_true (<[s := true]> (v_ok v)))%nat → legit S i (v_round v).
Proof.
  intros Hcount. pose proof (ei_ids vs S He i v Hi) as (_ & Hn & Hok & _).
  destruct (ei_cand vs S He i v Hi Hro) as (Hp0&_). right. split; [done|].
  assert (Hlen : length (<[s := true]> (v_ok v)) = n) by by rewrite length_insert.
  exists (filter (λ x, <[s := true]> (v_ok v) !! x = Some true) (seq 0 n)). split_and!.
  - apply NoDup_filter, NoDup_seq.
  - apply Forall_forall. intros x Hf. apply list_elem_of_filter in Hf as [_ Hf]. apply elem_of_seq in Hf. lia.
  - pose proof (count_true_quorum (<[s := true]> (v_ok v))) as Hc. rewrite Hlen in Hc.
    rewrite Hc. by rewrite Hn in Hcount.
  - apply list_elem_of_filter. split; [apply self_ok|]. apply elem_of_seq. pose proof id_below. lia.
  - intros x Hf. apply list_elem_of_filter in Hf as [Hf _]. by apply ok_voted.
Qed.

Lemma einv_lead outs :
  (quorum (v_n v) ≤ count_true (<[s := true]> (v_ok v)))%nat →
  Forall (quiet (mk_view (v_index v) (v_n v) (v_round v) (Some (v_index v)) leader (no_ok v))) outs →
  einv (<[i := mk_view (v_index v) (v_n v) (v_round v) (Some (v_index v)) leader (no_ok v)]> vs)
    (packets outs ++ S).
Proof.
  intros Hcount Hq. destruct (ei_cand vs S He i v Hi Hro) as (Hp0&Hps&_&_).
  pose proof (ei_ids vs S He i v Hi) as (Hx & Hn & Hok & Hpos).
  pose proof (votes_elect Hcount) as Hel. pose proof (packets_sub outs S) as Hsub.
  eapply (einv_update vs S _ i v _ He Hi Hsub); simpl; try done.
  - apply no_ok_length.
  - intros c _ Hc. congruence.
  - intros. left. by eapply quiet_votes.
  - intros _. split; [congruence|]. by eapply legit_mono.
  - intros dst p Hin. destruct (quiet_proposals _ _ _ _ _ Hq Hin) as [|(_ & Hr & Hl & Hd)]; [by left|right].
    simpl in *. rewrite Hr, Hl, Hx in *. split; [by eapply legit_mono|done].
Qed.
End Votes.

Lemma einv_effect ev v' outs :
  (∀ m, ev = replica_wakeup m → (i, m) ∈ S) →
  effect v ev v' outs → einv (<[i := v']> vs) (packets outs ++ S).
Proof.
  intros Hdel Heff. destruct Heff.
  - by apply einv_same.
  - by apply einv_follow.
  - apply einv_promise; try done. by apply Hdel.
  - subst outs. apply einv_candidate.
  - apply einv_vote; [by apply Hdel|done].
  - eapply einv_lead; [by apply Hdel|done|done|done].
Qed.
End Effects.
End Elections.

(** * Reachable worlds *)

Definition reachable (n l0 : nat) (draws : nat → list Z) (w : world) : Prop :=
  rtc net_step (initial_world n l0 draws) w.

Lemma reachable_ind' (P : world → Prop) n l0 draws :
  P (initial_world n l0 draws) →
  (∀ w i r now ev, reachable n l0 draws w → P w → w_replicas w !! i = Some r → deliverable w i ev →
     P (mk_world (<[i := (run_iteration now ev r).1]> (w_replicas w))
          (packets (run_iteration now ev r).2 ++ w_sent w))) →
  ∀ w, reachable n l0 draws w → P w.
Proof.
  intros H0 Hs w Hw. unfold reachable in Hw. revert w Hw. apply rtc_ind_r; [done|].
  intros w w' Hr Hstep HP. destruct Hstep. by apply Hs.
Qed.

Lemma initial_lookup n l0 draws i r :
  w_replicas (initial_world n l0 draws) !! i = Some r →
  r = initialize l0 (new_replica i n (draws i)) ∧ (i < n)%nat.
Proof.
  simpl. rewrite list_lookup_fmap. intros H. apply fmap_Some in H as (j & Hj & ->).
  apply lookup_seq in Hj as [-> ?]. done.
Qed.

(** ** Every replica is well formed *)

Record world_ok (n : nat) (w : world) : Prop := {
  wo_len : length (w_replicas w) = n;
  wo_ready : ∀ i r, w_replicas w !! i = Some r → ready r ∧ index_ r = i ∧ nreplicas_ r = n;
  wo_sent : Forall (λ p, msg_ok p.2) (w_sent w);
}.

Lemma initialize_ids i n l0 draws :
  let r := initialize l0 (new_replica i n draws) in index_ r = i ∧ nreplicas_ r = n.
Proof. cbv zeta. unfold initialize. case_if; [rewrite become_leader_frame|]; done. Qed.

Lemma packets_ok outs : Forall output_ok outs → Forall (λ p, msg_ok p.2) (packets outs).
Proof.
  intros H. apply Forall_forall. intros [dst m] Hin. apply list_elem_of_omap in Hin as (o & Ho & Heq).
  rewrite Forall_forall in H. apply H in Ho. by destruct o; simplify_eq.
Qed.

Lemma reachable_ok n l0 draws w : reachable n l0 draws w → world_ok n w.
Proof.
  revert w. apply reachable_ind'.
  - split.
    + simpl. by rewrite length_fmap, length_seq.
    + intros i r [-> Hi]%initial_lookup. split; [by apply initialize_ready|apply initialize_ids].
    + constructor.
  - intros w i r now ev _ [Hl Hr Hs] Hi Hd. destruct (Hr i r Hi) as (Hrr & Hx & Hn).
    assert (Hw : wakeup_ok ev).
    { destruct ev; try done. simpl in Hd. rewrite Forall_forall in Hs. apply (Hs _ Hd). }
    destruct (run_iteration_sound now ev r Hrr Hw) as [[Hg1 Hg2] Hc [] _ _]. split; simpl.
    + by rewrite length_insert.
    + intros j u. destruct (decide (j = i)) as [->|].
      * rewrite list_lookup_insert_eq by (by apply lookup_lt_Some in Hi). intros [= <-].
        split; [by split|]. split; congruence.
      * rewrite list_lookup_insert_ne by done. apply Hr.
    + apply Forall_app. split; [by apply packets_ok|done].
Qed.

(** ** Elections in reachable worlds *)

Definition views (w : world) : list view := view_of <$> w_replicas w.

Lemma initial_einv n l0 draws :
  einv n l0 (views (initial_world n l0 draws)) [].
Proof.
  assert (Hv : ∀ i v, views (initial_world n l0 draws) !! i = Some v →
    (i < n)%nat ∧ v_index v = i ∧ v_n v = n ∧ v_round v = 0 ∧ v_ok v = replicate n false ∧
    (v_role v = leader ∧ v_promised v = Some i ∧ i = l0 ∨ v_role v = follower)).
  { intros i v. unfold views. rewrite list_lookup_fmap. intros (r & Hr & ->)%fmap_Some.
    apply initial_lookup in Hr as [-> Hi]. split; [done|]. unfold initialize.
    destruct (decide (i = l0)) as [->|Hne].
    - rewrite (bool_decide_eq_true_2 (_ = _)) by done.
      assert (is_leader (set_role_ leader (set_leader_index_ l0 (new_replica l0 n (draws l0)))) = true) as -> by done.
      rewrite become_leader_view. simpl. split_and!; try done. by left.
    - rewrite (bool_decide_eq_false_2 (_ = _)) by done. simpl. split_and!; try done. by right. }
  assert (Hno : ∀ s rd c, ¬ voted [] s rd c).
  { intros s rd c [?%not_elem_of_nil|(_ & ? & ? & ?%not_elem_of_nil & _)]; done. }
  split.
  - unfold views. simpl. by rewrite !length_fmap, length_seq.
  - intros i v (Hi & Hx & Hn & Hr & Hok & _)%Hv. rewrite Hok, length_replicate. split_and!; try done. lia.
  - intros s rd c []%Hno.
  - intros s rd c c' []%Hno.
  - intros i v (_ & _ & _ & _ & _ & [(? & _)|?])%Hv Hc; congruence.
  - intros i v (_ & _ & _ & Hr & _ & [(_ & Hp & Hl)|?])%Hv Hc; [|congruence].
    split; [done|]. left. by rewrite Hr.
  - intros dst p ?%not_elem_of_nil. done.
Qed.

Lemma reachable_einv n l0 draws w :
  (2 ≤ n)%nat → reachable n l0 draws w → einv n l0 (views w) (w_sent w).
Proof.
  intros Hn. revert w. apply reachable_ind'; [apply initial_einv|].
  intros w i r now ev Hw He Hi Hd. destruct (reachable_ok _ _ _ _ Hw) as [_ Hr _].
  destruct (Hr i r Hi) as (_ & _ & Hnr).
  unfold views in *. simpl. rewrite list_fmap_insert.
  apply (einv_effect n l0 Hn _ _ i (view_of r) He) with (ev := ev).
  - by rewrite list_lookup_fmap, Hi.
  - intros m ->. exact Hd.
  - apply run_iteration_effect. by rewrite Hnr.
Qed.

Lemma views_lookup w i r : w_replicas w !! i = Some r → views w !! i = Some (view_of r).
Proof. intros H. unfold views. by rewrite list_lookup_fmap, H. Qed.

Lemma leaders_agree n l0 draws w i j ri rj :
  reachable n l0 draws w →
  w_replicas w !! i = Some ri → w_replicas w !! j = Some rj →
  role_ ri = leader → role_ rj = leader → current_round_ ri = current_round_ rj → i = j.
Proof.
  intros Hw Hi Hj Hli Hlj Heq. destruct (decide (2 ≤ n)%nat) as [Hn|Hn].
  - pose proof (reachable_einv _ _ _ _ Hn Hw) as He.
    destruct (ei_lead _ _ _ _ He i _ (views_lookup _ _ _ Hi) Hli) as [_ H1].
    destruct (ei_lead _ _ _ _ He j _ (views_lookup _ _ _ Hj) Hlj) as [_ H2].
    simpl in *. rewrite Heq in H1. by eapply (legit_unique n l0).
  - pose proof (wo_len _ _ (reachable_ok _ _ _ _ Hw)) as Hl.
    apply lookup_lt_Some in Hi, Hj. lia.
Qed.

(** * Executable schedules *)

(** A schedule names the replica that moves and why: a client request, its
    timer, or the delivery of a packet, by its position in the list of packets
    sent (newest first). *)
Inductive command :=
  | client_cmd (i : nat) (req : request)
  | timer_cmd (i : nat)
  | deliver_cmd (k : nat).

Definition run_on (w : world) (i : nat) (now : Z) (ev : wakeup) : option world :=
  r ← w_replicas w !! i;
  let p := run_iteration now ev r in
  Some (mk_world (<[i := p.1]> (w_replicas w)) (packets p.2 ++ w_sent w)).

Definition run_command (w : world) (c : command) : option world :=
  match c with
  | client_cmd i req => run_on w i 0 (client_wakeup req)
  | timer_cmd i => run_on w i 0 timer_wakeup
  | deliver_cmd k => '(i, m) ← w_sent w !! k; run_on w i 0 (replica_wakeup m)
  end.

Fixpoint run_schedule (w : world) (cs : list command) : option world :=
  match cs with
  | [] => Some w
  | c :: cs' => w' ← run_command w c; run_schedule w' cs'
  end.

Lemma run_on_step w i now ev w' :
  run_on w i now ev = Some w' → deliverable w i ev → net_step w w'.
Proof.
  unfold run_on. intros H Hd. apply bind_Some in H as (r & Hr & [= <-]). by constructor.
Qed.

Lemma run_schedule_steps w cs w' : run_schedule w cs = Some w' → rtc net_step w w'.
Proof.
  revert w. induction cs as [|c cs IH]; simpl; intros w H; [by simplify_eq|].
  apply bind_Some in H as (w1 & H1 & H2). apply rtc_l with w1; [|by apply IH].
  destruct c; simpl in H1.
  - by eapply run_on_step.
  - by eapply run_on_step.
  - apply bind_Some in H1 as ([i m] & Hk & H1). eapply run_on_step; [done|]. simpl.
    by eapply list_elem_of_lookup_2.
Qed.

Lemma schedule_reachable n l0 draws cs :
  is_Some (run_schedule (initial_world n l0 draws) cs) →
  reachable n l0 draws (default (initial_world n l0 draws) (run_schedule (initial_world n l0 draws) cs)).
Proof. intros [w Hw]. rewrite Hw. by eapply run_schedule_steps. Qed.

(** A cluster of three in which replica 1 took over from replica 0: its timer
    fires, replica 2 promises, the promise arrives. *)
Definition takeover : list command := [timer_cmd 1; deliver_cmd 1; deliver_cmd 0].
Definition takeover_world : world :=
  default (initial_world 3 0 (λ _, [])) (run_schedule (initial_world 3 0 (λ _, [])) takeover).

Lemma takeover_reachable : reachable 3 0 (λ _, []) takeover_world.
Proof. apply schedule_reachable. vm_compute. by eexists. Qed.

(** A replica of a world, for concrete worlds. *)
Definition replica_of (w : world) (i : nat) : pt_paxos_replica :=
  default (new_replica i 0 []) (w_replicas w !! i).

(** * Properties *)

(** C1 Election safety: in every reachable world, whatever messages were lost,
    repeated or reordered, a round has at most one leader. *)
Theorem election_safety (n initial_leader : nat) (draws : nat → list Z) (w : world)
    (i j : nat) (ri rj : pt_paxos_replica) :
  reachable n initial_leader draws w →
  w_replicas w !! i = Some ri → w_replicas w !! j = Some rj →
  role_ ri = leader → role_ rj = leader → current_round_ ri = current_round_ rj → i = j.
Proof. apply leaders_agree. Qed.

Lemma election_safety_witness :
  let r := replica_of takeover_world 1 in
  role_ r = leader ∧ current_round_ r = 1 ∧ 1%nat = 1%nat.
Proof.
  intros r. split_and!; [by vm_compute|by vm_compute|].
  apply (election_safety 3 0 (λ _, []) takeover_world 1 1 r r takeover_reachable); by vm_compute.
Defined.

(** All proposals of a round, over the whole history of the network, come
    from one leader. *)
Theorem one_proposer_per_round (n initial_leader : nat) (draws : nat → list Z) (w : world)
    (d1 d2 : nat) (p1 p2 : propose_message) :
  (2 ≤ n)%nat → reachable n initial_leader draws w →
  (d1, Propose p1) ∈ w_sent w → (d2, Propose p2) ∈ w_sent w → ps_round p1 = ps_round p2 →
  ps_leader p1 = ps_leader p2.
Proof.
  intros Hn Hw H1 H2 Heq. pose proof (reachable_einv _ _ _ _ Hn Hw) as He.
  apply (ei_propose _ _ _ _ He) in H1 as [L1 _]. apply (ei_propose _ _ _ _ He) in H2 as [L2 _].
  rewrite Heq in L1. by eapply (legit_unique n initial_leader).
Qed.

Lemma one_proposer_per_round_witness :
  let p := mk_propose 1 1 0 0 0 0 [] in
  (0%nat, Propose p) ∈ w_sent takeover_world ∧ ps_leader p = 1%nat.
Proof.
  intros p. assert (H0 : (0%nat, Propose p) ∈ w_sent takeover_world).
  { apply (bool_decide_unpack _). by vm_compute. }
  split; [done|]. assert (H2 : (2%nat, Propose p) ∈ w_sent takeover_world).
  { apply (bool_decide_unpack _). by vm_compute. }
  exact (one_proposer_per_round 3 0 (λ _, []) takeover_world 0 2 p p (le_S _ _ (le_n 2))
           takeover_reachable H0 H2 eq_refl).
Defined.

(** In every reachable world every replica is well formed: log contiguous
    between the trimmed prefix and its end, trimmed <= applied <= committed
    <= end of the log, and every proposal in flight carries consecutive
    slots. *)
Theorem reachable_well_formed (n initial_leader : nat) (draws : nat → list Z) (w : world) :
  reachable n initial_leader draws w →
  Forall replica_wf (w_replicas w) ∧ Forall (λ p, msg_ok p.2) (w_sent w).
Proof.
  intros Hw. destruct (reachable_ok _ _ _ _ Hw) as [_ Hr Hs]. split; [|done].
  apply Forall_lookup. intros i r Hi. by apply (Hr i r Hi).
Qed.

Lemma reachable_well_formed_witness :
  Forall replica_wf (w_replicas takeover_world) ∧ Forall (λ p, msg_ok p.2) (w_sent takeover_world).
Proof. apply (reachable_well_formed 3 0 (λ _, [])). apply takeover_reachable. Defined.
