(* ===== verification/PaxosLog.v ===== *)
(** Log matching: two logs of the cluster that hold an entry of the same round
    at a slot agree on it and on every slot before it.

    The argument follows the links of the logs.  A link is an entry together
    with the round of the entry before it; a leader creates the links of its
    round, every other log and every proposal only copies links, and no two
    created links share slot and round. *)

From S2P Require Import Prelude SMap Text PancyDb PaxosReplica PaxosLocal PaxosProps PaxosNet.

(** * Links *)

Record link := mk_link { lk_slot : Z; lk_prev : Z; lk_round : Z; lk_req : request }.

(** The links of a replica's log. *)
Definition links (r : pt_paxos_replica) (l : link) : Prop :=
  ∃ e, find (lk_slot l) (log_ r) = Some e ∧ lk_prev l = round_at r (lk_slot l - 1) ∧
       lk_round l = le_round e ∧ lk_req l = le_req e.

(** The links of a batch whose first entry has slot [slot] and follows an entry
    of round [prev]. *)
Fixpoint chain (slot prev : Z) (es : list log_entry) (l : link) : Prop :=
  match es with
  | [] => False
  | e :: es' => l = mk_link slot prev (le_round e) (le_req e) ∨ chain (slot + 1) (le_round e) es' l
  end.

Definition propose_links (p : propose_message) (l : link) : Prop :=
  chain (ps_prev_log_index p + 1) (ps_prev_log_round p) (ps_entries p) l.

(** The empty prefix has round 0. *)
Definition prev_ok (p : propose_message) : Prop := ps_prev_log_index p = 0 → ps_prev_log_round p = 0.

(** * What sub-routines do to links *)

Definition log_view (r : pt_paxos_replica) := (log_ r, trim_through_ r, trim_round_ r).

Lemma log_view_round_at r r' s : log_view r' = log_view r → round_at r' s = round_at r s.
Proof. intros [= Hl Ht Hr]. unfold round_at. by rewrite Hl, Ht, Hr. Qed.

Lemma log_view_links r r' l : log_view r' = log_view r → links r' l → links r l.
Proof.
  intros Hv (e & Hf & Hp & ?). exists e. rewrite (log_view_round_at _ _ _ Hv) in Hp.
  injection Hv as Hl _ _. rewrite Hl in Hf. done.
Qed.

Lemma frame_next_log r r' : frame_next r r' → log_view r' = log_view r ∧ next_slot_ r' = next_slot_ r.
Proof. by intros (ni & _ & ->). Qed.

Lemma frame_apply_log r r' : frame_apply r r' → log_view r' = log_view r ∧ next_slot_ r' = next_slot_ r.
Proof. by intros (?&?&?&?&?&->). Qed.

Lemma round_at_entry r s e :
  replica_wf r → find s (log_ r) = Some e → round_at r s = le_round e.
Proof.
  intros Hr Hf. assert (Hs : is_Some (find s (log_ r))) by by eexists.
  apply (rwf_slots r Hr) in Hs. pose proof (rwf_trim r Hr). unfold round_at.
  repeat case_if; try lia. by rewrite Hf.
Qed.

(** ** Trimming keeps the rounds from the boundary on *)

Lemma trim_loop_round t log rd e :
  wf log → find t log = Some e → (trim_loop t log rd).2 = le_round e.
Proof.
  revert rd. induction log as [|[k x] log IH]; intros rd Hwf Hf; [done|].
  apply wf_cons in Hwf as [Hwf Hlt]. simpl in *. destruct (keqb t k) eqn:E.
  - apply keqb_true in E as ->. simplify_eq. rewrite (proj2 (Z.leb_le k k)) by lia.
    rewrite trim_loop_id; [done|]. eapply Forall_impl; [exact Hlt|]. intros y Hy. simpl in *. by bsimp.
  - case_if; [by apply IH|]. rewrite Forall_forall in Hlt.
    apply find_Some_keys in Hf. apply Hlt in Hf. simpl in *. bsimp. lia.
Qed.

Lemma trim_round_at t r s :
  replica_wf r → trim_through_ r ≤ t ≤ last_applied_ r → t ≤ s →
  round_at (trim_log_prefix (set_trim_through_ t r)) s = round_at r s.
Proof.
  intros Hr Ht Hs. pose proof (trim_loop_spec t (log_ r) (trim_round_ r) (rwf_sorted r Hr)) as [_ Hf].
  pose proof (rwf_trim r Hr). pose proof (rwf_applied r Hr). pose proof (rwf_commit r Hr).
  assert (Hb : t ≠ 0 → (trim_loop t (log_ r) (trim_round_ r)).2 = round_at r t).
  { intros Ht0. destruct (decide (t = trim_through_ r)) as [->|Hne].
    - rewrite trim_loop_id by by apply keys_above. unfold round_at. simpl.
      rewrite (proj2 (Z.eqb_neq _ _)) by done. by rewrite Z.eqb_refl.
    - assert (Hin : is_Some (find t (log_ r))) by (apply (rwf_slots r Hr); lia).
      destruct Hin as [e He]. rewrite (round_at_entry r t e Hr He).
      apply trim_loop_round; [apply Hr|done]. }
  unfold trim_log_prefix. simpl. destruct (trim_loop t (log_ r) (trim_round_ r)) as [log rd]. simpl in *.
  unfold round_at at 1. simpl. destruct (s =? 0) eqn:E0; bsimp; [by subst|].
  destruct (s =? t) eqn:E1; bsimp; [subst; by apply Hb|].
  rewrite Hf. case_if; [lia|]. unfold round_at. repeat case_if; lia || done.
Qed.

Lemma trim_links t r l :
  replica_wf r → trim_through_ r ≤ t ≤ last_applied_ r →
  links (trim_log_prefix (set_trim_through_ t r)) l → links r l.
Proof.
  intros Hr Ht (e & Hf & Hp & Hrd & Hq). pose proof (set_trim_wf t r Hr Ht) as Hw.
  assert (Hs : t < lk_slot l).
  { assert (H : is_Some (find (lk_slot l) (log_ (trim_log_prefix (set_trim_through_ t r))))) by by eexists.
    apply (rwf_slots _ Hw) in H. revert H. unfold trim_log_prefix. simpl.
    destruct (trim_loop _ _ _). simpl. lia. }
  exists e. rewrite trim_round_at in Hp by (done || lia). split_and!; try done.
  pose proof (trim_loop_spec t (log_ r) (trim_round_ r) (rwf_sorted r Hr)) as [_ Hf'].
  revert Hf. unfold trim_log_prefix. simpl. destruct (trim_loop t (log_ r) (trim_round_ r)). simpl in *.
  rewrite Hf'. case_if; [lia|done].
Qed.

(** ** Appending *)

Definition appended (r : pt_paxos_replica) (e : log_entry) : pt_paxos_replica :=
  set_next_slot_ (next_slot_ r + 1) (set_log_ (emplace (next_slot_ r) e (log_ r)) r).

Section Append.
Context (r : pt_paxos_replica) (e : log_entry).
Hypothesis Hr : replica_wf r.
Hypothesis He : le_slot e = next_slot_ r.

Lemma next_slot_pos : trim_through_ r < next_slot_ r ∧ 0 < next_slot_ r.
Proof. pose proof (rwf_trim r Hr). pose proof (rwf_applied r Hr). pose proof (rwf_commit r Hr). lia. Qed.

Lemma append_round_at_old s : s < next_slot_ r → round_at (appended r e) s = round_at r s.
Proof.
  intros Hs. unfold round_at, appended. simpl. repeat case_if; try done.
  rewrite find_append_entry by done. case_if; [lia|done].
Qed.

Lemma append_round_at_new : round_at (appended r e) (next_slot_ r) = le_round e.
Proof.
  pose proof next_slot_pos. unfold round_at, appended. simpl. repeat case_if; try lia.
  rewrite find_append_entry by done. by rewrite Z.eqb_refl.
Qed.

Lemma append_links l :
  links (appended r e) l →
  links r l ∨ l = mk_link (next_slot_ r) (round_at r (next_slot_ r - 1)) (le_round e) (le_req e).
Proof.
  intros (x & Hf & Hp & Hrd & Hq). unfold appended in Hf. simpl in Hf.
  rewrite find_append_entry in Hf by done. destruct (lk_slot l =? next_slot_ r) eqn:E; bsimp.
  - right. injection Hf as Hx. subst x. rewrite append_round_at_old in Hp by lia.
    destruct l as [s p rd q]. simpl in *. congruence.
  - left. exists x. assert (Hs : is_Some (find (lk_slot l) (log_ r))) by by eexists.
    apply (rwf_slots r Hr) in Hs. rewrite append_round_at_old in Hp by lia. done.
Qed.
End Append.

Lemma truncate_links slot r l :
  replica_wf r → links (set_next_slot_ slot (set_log_ (erase_from slot (log_ r)) r)) l → links r l.
Proof.
  intros Hr (e & Hf & Hp & Hrd & Hq). simpl in Hf. rewrite find_erase_from in Hf by apply Hr.
  case_if_in Hf; [|done]. exists e. split_and!; try done. rewrite Hp.
  unfold round_at. simpl. repeat case_if; try done. rewrite find_erase_from by apply Hr.
  rewrite (proj2 (Z.ltb_lt _ _)); [done|]. simpl in *. bsimp. lia.
Qed.

Lemma truncate_round_at slot r s :
  replica_wf r → s < slot →
  round_at (set_next_slot_ slot (set_log_ (erase_from slot (log_ r)) r)) s = round_at r s.
Proof.
  intros Hr Hs. unfold round_at. simpl. repeat case_if; try done. rewrite find_erase_from by apply Hr.
  simpl. by rewrite (proj2 (Z.ltb_lt _ _)).
Qed.

(** ** Proposals *)

Lemma batch_chain r n expect log l :
  replica_wf r → wf log → (∀ s e, find s log = Some e → find s (log_ r) = Some e) →
  chain expect (round_at r (expect - 1)) (batch_from n expect log) l → links r l.
Proof.
  intros Hr. revert expect log. induction n as [|n IH]; intros expect [|[k e] log] Hwf Hsub; simpl; try done.
  destruct (k =? expect) eqn:E; bsimp; [|done]. subst.
  assert (He : find expect (log_ r) = Some e) by (apply Hsub; simpl; by rewrite keqb_refl).
  intros [->|Hc]; [by exists e|].
  rewrite <- (round_at_entry r expect e Hr He) in Hc.
  apply wf_cons in Hwf as [Hwf Hlt]. eapply (IH (expect + 1) log Hwf).
  - intros s x Hx. apply Hsub. simpl. case_if; [|done]. apply keqb_true in Ec as ->.
    by rewrite find_lt_None in Hx.
  - by replace (expect + 1 - 1) with expect by lia.
Qed.

Lemma links_slot r l : replica_wf r → links r l → trim_through_ r < lk_slot l < next_slot_ r.
Proof. intros Hr (e & Hf & _). apply (rwf_slots r Hr). by eexists. Qed.

(** * Steps that keep links inside a set *)

Section Sound.
Context (G : link → Prop).

(** The links of a packet. *)
Definition out_links (o : output) (l : link) : Prop :=
  match o with to_replica _ (Propose p) => propose_links p l | _ => False end.

Definition out_ok (r : pt_paxos_replica) (o : output) : Prop :=
  (∀ l, out_links o l → G l ∧ lk_slot l < next_slot_ r) ∧
  match o with to_replica _ (Propose p) => prev_ok p | _ => True end.

Definition inside (r : pt_paxos_replica) : Prop := replica_wf r ∧ ∀ l, links r l → G l.

Record lsound (r : pt_paxos_replica) (p : step_result) : Prop := {
  ls_inside : inside p.1;
  ls_next : next_slot_ r ≤ next_slot_ p.1;
  ls_outs : Forall (out_ok p.1) p.2;
}.

Lemma out_ok_mono r r' o : next_slot_ r ≤ next_slot_ r' → out_ok r o → out_ok r' o.
Proof. intros Hle [H1 H2]. split; [|done]. intros l Hl. destruct (H1 l Hl). split; [done|lia]. Qed.

Lemma lsound_bind r p f : lsound r p → (inside p.1 → lsound p.1 (f p.1)) → lsound r (p ;> f).
Proof.
  intros [H1 H2 H3] Hf. destruct (Hf H1) as [H4 H5 H6].
  split; rewrite ?and_then_fst, ?and_then_snd; [done|lia|]. apply Forall_app. split; [|done].
  eapply Forall_impl; [exact H3|]. intros o. by apply out_ok_mono.
Qed.

(** No links in a packet that is not a proposal. *)
Definition no_propose (o : output) : Prop :=
  match o with to_replica _ (Propose _) => False | _ => True end.

Lemma no_propose_ok r o : no_propose o → out_ok r o.
Proof. intros H. destruct o as [dst []|]; try done; by split. Qed.

Lemma lsound_same r p :
  inside r → replica_wf p.1 → log_view p.1 = log_view r → next_slot_ p.1 = next_slot_ r →
  Forall no_propose p.2 → lsound r p.
Proof.
  intros [Hr Hl] Hw Hv Hn Ho. split; [|lia|].
  - split; [done|]. intros l Hl'. apply Hl. by eapply log_view_links.
  - eapply Forall_impl; [exact Ho|]. apply no_propose_ok.
Qed.

Lemma lsound_id r : inside r → lsound r (r, []).
Proof. intros H. apply lsound_same; try done. apply H. Qed.

Lemma send_propose_links s r : inside r → lsound r (send_propose_to s r).
Proof.
  intros [Hr Hl]. destruct (frame_next_log _ _ (send_propose_frame s r)) as [Hv Hn].
  split; [split|lia|].
  - eapply frame_next_wf; [apply send_propose_frame|done].
  - intros l Hl'. apply Hl. by eapply log_view_links.
  - unfold send_propose_to. case_if; [constructor|]. constructor; [|constructor].
    set (next := Z.max (at_ (next_index_ r) s) (trim_through_ r + 1)).
    split.
    + intros l Hc. simpl in Hc. unfold propose_links in Hc.
      cbn [ps_prev_log_index ps_prev_log_round ps_entries] in Hc.
      replace (next - 1 + 1) with next in Hc by lia.
      assert (Hlr : links r l).
      { eapply (batch_chain r append_batch_size_ next (lower_bound next (log_ r))); [done| | |exact Hc].
        - by apply wf_lower_bound, Hr.
        - intros k e. rewrite find_lower_bound by apply Hr. case_if; done. }
      split; [by apply Hl|]. apply links_slot in Hlr; [|done]. simpl. lia.
    + intros Hz. cbn [ps_prev_log_index ps_prev_log_round] in *. unfold round_at.
      by rewrite (proj2 (Z.eqb_eq _ _) Hz).
Qed.

Lemma propose_to_all_links ps r : inside r → lsound r (propose_to_all ps r).
Proof.
  revert r. induction ps as [|s ps IH]; intros r Hr; cbn [propose_to_all]; [by apply lsound_id|].
  apply lsound_bind; [|apply IH]. case_if; [by apply lsound_id|by apply send_propose_links].
Qed.

Lemma broadcast_links r : inside r → lsound r (broadcast_propose r).
Proof. apply propose_to_all_links. Qed.

Lemma apply_loop_no_propose n r : Forall no_propose (apply_loop n r).2.
Proof.
  revert r. induction n as [|n IH]; intros r; cbn [apply_loop]; [constructor|]. rewrite and_then_snd.
  apply Forall_app. split; [|apply IH]. unfold apply_next. case_match; [|constructor].
  unfold answer. repeat case_match; repeat constructor.
Qed.

Lemma apply_committed_links r : inside r → lsound r (apply_committed_entries r).
Proof.
  intros Hi. destruct (apply_committed_wf r (proj1 Hi)) as (Hw & Hf & _ & _).
  destruct (frame_apply_log _ _ Hf) as [Hv Hn]. apply lsound_same; try done.
  unfold apply_committed_entries. rewrite and_then_snd. cbn [pure_ snd]. rewrite app_nil_r.
  apply apply_loop_no_propose.
Qed.

Lemma set_trim_links t r :
  inside r → trim_through_ r ≤ t ≤ last_applied_ r →
  lsound r (trim_log_prefix (set_trim_through_ t r), []).
Proof.
  intros [Hr Hl] Ht. split; [split|..|constructor]; cbn [fst].
  - by apply set_trim_wf.
  - intros l Hl'. apply Hl. by eapply trim_links.
  - unfold trim_log_prefix. destruct (trim_loop _ _ _). simpl. lia.
Qed.

Lemma update_trim_links r :
  inside r → last_applied_ r = commit_index_ r → lsound r (update_trim_watermark r, []).
Proof.
  intros Hi Ha. pose proof (rwf_trim r (proj1 Hi)). unfold update_trim_watermark.
  case_if; [by apply lsound_id|].
  match goal with |- context [Z.min ?m (commit_index_ r)] => set (mm := Z.min m (commit_index_ r)) end.
  assert (mm ≤ commit_index_ r) by (unfold mm; lia).
  case_if; [|by apply lsound_id]. apply set_trim_links; [done|].
  revert Ec0. unfold trim_retention_. case_if; lia.
Qed.

Lemma advance_links r : inside r → lsound r (advance r).
Proof.
  intros Hi. rewrite advance_eq. apply lsound_bind.
  - apply lsound_same; [done|by apply update_commit_wf, Hi|..|constructor];
      unfold update_commit_index; cbn [fst]; by case_if.
  - cbn [fst]. intros Hx. destruct (apply_committed_wf _ (proj1 Hx)) as (_ & Hf & Ha & _).
    apply lsound_bind; [by apply apply_committed_links|]. intros Hy. apply update_trim_links; [done|].
    rewrite Ha. destruct Hf as (?&?&?&?&?&E). rewrite E. reflexivity.
Qed.

(** ** Client batches *)

(** The links the queued requests [reqs] will get. *)
Definition fresh (r : pt_paxos_replica) (reqs : list request) (l : link) : Prop :=
  ∃ i req, reqs !! i = Some req ∧
    l = mk_link (next_slot_ r + Z.of_nat i)
          (if decide (i = 0)%nat then last_log_round r else current_round_ r) (current_round_ r) req.

Definition fresh_in (r : pt_paxos_replica) : Prop :=
  ∀ l, fresh r (pending_client_requests_ r) l → G l.

(** What a batch has to keep of the queue. *)
Definition same_queue (r r' : pt_paxos_replica) : Prop :=
  pending_client_requests_ r' = pending_client_requests_ r ∧ next_slot_ r' = next_slot_ r ∧
  current_round_ r' = current_round_ r ∧ last_log_round r' = last_log_round r.

Lemma same_queue_fresh r r' : same_queue r r' → fresh_in r → fresh_in r'.
Proof.
  intros (Hp & Hn & Hc & Hl) Hf l (i & req & Hi & ->). apply Hf. exists i, req.
  rewrite Hp in Hi. split; [done|]. by rewrite Hn, Hc, Hl.
Qed.

Lemma append_request_links r :
  inside r → fresh_in r →
  inside (append_request r) ∧ fresh_in (append_request r) ∧
  next_slot_ r ≤ next_slot_ (append_request r).
Proof.
  intros [Hr Hl] Hf. destruct (pending_client_requests_ r) as [|req rest] eqn:E.
  { unfold append_request. rewrite E. split_and!; [done|done|lia]. }
  destruct (append_request_cons r req rest E) as [pc Hx].
  set (e := mk_log_entry (next_slot_ r) (current_round_ r) req).
  assert (Hv : log_view (append_request r) = log_view (appended r e)) by (rewrite Hx; reflexivity).
  split_and!.
  - split; [by apply append_request_wf|]. intros l Hll. apply (log_view_links _ _ _ Hv) in Hll.
    destruct (append_links r e Hr l Hll) as [Hin| ->]; [by apply Hl|].
    apply Hf. exists 0%nat, req. rewrite E. split; [done|]. unfold e. simpl. by rewrite Z.add_0_r.
  - intros l (i & q & Hi & ->). apply Hf. exists (S i), q. rewrite E. rewrite Hx in Hi. simpl in Hi.
    split; [done|]. assert (Hlr : last_log_round (append_request r) = current_round_ r).
    { unfold last_log_round. rewrite (log_view_round_at _ _ _ Hv).
      replace (last_log_index (append_request r)) with (next_slot_ r).
      - by apply append_round_at_new.
      - rewrite Hx. unfold last_log_index. simpl. lia. }
    rewrite Hlr. replace (next_slot_ (append_request r)) with (next_slot_ r + 1) by (by rewrite Hx).
    replace (current_round_ (append_request r)) with (current_round_ r) by (by rewrite Hx).
    rewrite (decide_False (P := (S i = 0)%nat)) by done. f_equal; [lia|]. by case_decide.
  - rewrite Hx. simpl. lia.
Qed.

Lemma batched_links r :
  inside r → fresh_in r →
  lsound r (batched r, []) ∧ fresh_in (batched r).
Proof.
  intros Hi Hf. unfold batched.
  assert (H : ∀ n, inside (Nat.iter n append_request r) ∧ fresh_in (Nat.iter n append_request r) ∧
    next_slot_ r ≤ next_slot_ (Nat.iter n append_request r)).
  { induction n as [|n (IH1 & IH2 & IH3)]; [split_and!; [done|done|simpl; lia]|].
    change (Nat.iter (S n) append_request r) with (append_request (Nat.iter n append_request r)).
    destruct (append_request_links _ IH1 IH2) as (?&?&?). split_and!; [done|done|lia]. }
  specialize (H (Nat.min (length (pending_client_requests_ r)) append_batch_size_)).
  pose proof (batched_wf r (proj1 Hi)) as Hw. unfold batched in Hw. revert H Hw.
  generalize (Nat.iter (Nat.min (length (pending_client_requests_ r)) append_batch_size_) append_request r).
  intros x (H1 & H2 & H3) Hw. split.
  - split; [split; [done|]|done|constructor]. intros l Hl. apply H1. exact Hl.
  - apply (same_queue_fresh x); [|done]. done.
Qed.

Lemma log_view_last_round r r' :
  log_view r' = log_view r → next_slot_ r' = next_slot_ r → last_log_round r' = last_log_round r.
Proof.
  intros Hv Hn. unfold last_log_round, last_log_index. rewrite Hn. by apply log_view_round_at.
Qed.

Lemma update_trim_last_round r :
  replica_wf r → last_applied_ r = commit_index_ r →
  last_log_round (update_trim_watermark r) = last_log_round r.
Proof.
  intros Hr Ha. pose proof (rwf_trim r Hr). pose proof (rwf_commit r Hr). unfold update_trim_watermark.
  case_if; [done|].
  match goal with |- context [Z.min ?m (commit_index_ r)] => set (mm := Z.min m (commit_index_ r)) end.
  assert (mm ≤ commit_index_ r) by (unfold mm; lia).
  case_if; [|done]. unfold last_log_round.
  match goal with |- context [set_trim_through_ ?x r] => set (t := x) in * end.
  assert (Ht : trim_through_ r ≤ t ≤ last_applied_ r).
  { revert Ec0. unfold t, trim_retention_. case_if; lia. }
  assert (Hn : last_log_index (trim_log_prefix (set_trim_through_ t r)) = last_log_index r).
  { unfold trim_log_prefix. by destruct (trim_loop _ _ _). }
  rewrite Hn. apply trim_round_at; [done|done|]. unfold last_log_index. lia.
Qed.

Lemma advance_same_queue r : replica_wf r → same_queue r (advance r).1.
Proof.
  intros Hr. pose proof (advance_queue r) as Hq. unfold queue in Hq.
  assert (Hl : last_log_round (advance r).1 = last_log_round r).
  { apply update_commit_wf in Hr. destruct (apply_committed_wf _ Hr) as (Hw & Hf & Ha & _).
    destruct (frame_apply_log _ _ Hf) as [Hv Hn]. unfold advance. rewrite and_then_fst.
    unfold pure_. cbn [fst]. rewrite update_trim_last_round; [|done|].
    - rewrite (log_view_last_round _ _ Hv Hn). unfold update_commit_index. by case_if.
    - rewrite Ha. destruct Hf as (?&?&?&?&?&E). rewrite E. reflexivity. }
  revert Hq Hl. generalize (advance r).1. intros x [= Hp Hn _ Hc] Hl. by split_and!.
Qed.

Lemma broadcast_same_queue r : same_queue r (broadcast_propose r).1.
Proof.
  pose proof (broadcast_frame r) as Hf. destruct (frame_next_log _ _ Hf) as [Hv Hn].
  pose proof (log_view_last_round _ _ Hv Hn). destruct Hf as (ni & _ & E). rewrite E in *. by split_and!.
Qed.

Lemma flush_batch_links r :
  inside r → fresh_in r → lsound r (flush_batch r) ∧ fresh_in (flush_batch r).1.
Proof.
  intros Hi Hf. destruct (batched_links r Hi Hf) as [Hb Hfb].
  rewrite flush_batch_advance. pose proof (ls_inside _ _ Hb) as Hib. cbn [fst] in Hib.
  pose proof (broadcast_links (batched r) Hib) as Hbc.
  assert (Hq : same_queue (batched r) (broadcast_propose (batched r)).1) by apply broadcast_same_queue.
  pose proof (ls_inside _ _ Hbc) as Hic. split.
  - rewrite <- (bind_ret (batched r) broadcast_propose). apply lsound_bind; [apply lsound_bind; [done|]|].
    + intros _. exact Hbc.
    + intros _. rewrite bind_ret. by apply advance_links.
  - rewrite and_then_fst. eapply same_queue_fresh; [by apply advance_same_queue, Hic|].
    by eapply same_queue_fresh.
Qed.

Lemma flush_loop_links k r : inside r → fresh_in r → lsound r (flush_loop k r).
Proof.
  revert r. induction k as [|k IH]; intros r Hi Hf; cbn [flush_loop]; [by apply lsound_id|].
  case_if; [|by apply lsound_id]. destruct (flush_batch_links r Hi Hf) as [Hs Hf'].
  apply lsound_bind; [done|]. intros Hi'. by apply IH.
Qed.

Lemma flush_links now r :
  inside r → (role_ r = leader → fresh_in r) → lsound r (flush_pending_client_requests now r).
Proof.
  intros Hi Hf. unfold flush_pending_client_requests. destruct (_ || _) eqn:E.
  { apply lsound_same; try done. destruct Hi as [Hr _]. same_core Hr. }
  apply orb_false_iff in E as [E _]. apply negb_false_iff in E. unfold is_leader in E. bsimp.
  apply lsound_bind; [by apply flush_loop_links, Hf|]. intros Hx. unfold pure_.
  revert Hx. generalize (flush_loop (length (pending_client_requests_ r)) r).1. intros x Hx.
  apply lsound_same; cbn [fst snd]; [done| |by case_if|by case_if|constructor].
  destruct Hx as [Hx _]. case_if; same_core Hx.
Qed.

(** ** The other handlers *)

Lemma become_leader_links r : inside r → lsound r (broadcast_propose (become_leader r)).
Proof.
  intros Hi. rewrite <- (bind_ret (become_leader r) broadcast_propose).
  apply lsound_bind; [|apply broadcast_links].
  apply lsound_same; [done|by apply become_leader_wf, Hi|..|constructor];
    cbn [fst]; rewrite become_leader_frame; done.
Qed.

Lemma become_follower_links rd hint r : inside r → lsound r (become_follower rd hint r, []).
Proof.
  intros Hi. apply lsound_same; [done|by apply become_follower_wf, Hi|..|constructor];
    cbn [fst]; rewrite become_follower_frame; done.
Qed.

Lemma handle_probe_links m r : inside r → lsound r (handle_probe m r).
Proof.
  intros Hi. pose proof (handle_probe_good m r (proj1 Hi)) as [Hw _]. unfold handle_probe in *.
  case_if; [apply lsound_same; try done; by repeat constructor|].
  assert (Hx : ∀ x, x = (if current_round_ r <? pb_round m then become_follower (pb_round m) (leader_index_ r) r else r) →
    log_view x = log_view r ∧ next_slot_ x = next_slot_ r).
  { intros x ->. case_if; [by rewrite become_follower_frame|done]. }
  revert Hw Hx. generalize (if current_round_ r <? pb_round m
    then become_follower (pb_round m) (leader_index_ r) r else r). intros x Hw Hx.
  destruct (Hx x eq_refl) as [Hv Hn].
  case_if; (apply lsound_same; [done|exact Hw|exact Hv|exact Hn|by repeat constructor]).
Qed.

Lemma handle_prepare_links m r : inside r → lsound r (handle_prepare m r).
Proof.
  intros Hi. unfold handle_prepare. case_if; [by apply become_follower_links|].
  destruct (_ || _); [by apply lsound_id|].
  match goal with |- lsound _ (if has_quorum ?x _ then _ else _) => set (r1 := x) end.
  assert (H1 : lsound r (r1, [])).
  { apply lsound_same; try done. destruct Hi as [Hr _]. unfold r1. cbn [fst]. same_core Hr. }
  case_if; [|done]. rewrite <- (bind_ret r1 (λ x, broadcast_propose (become_leader x))).
  apply lsound_bind; [done|apply become_leader_links].
Qed.

Lemma handle_ack_links m r : inside r → lsound r (handle_ack m r).
Proof.
  intros Hi. rewrite handle_ack_eq. cbv zeta. case_if; [by apply become_follower_links|].
  destruct (_ || _); [by apply lsound_id|]. pose proof (proj1 Hi) as Hr. case_if.
  - match goal with |- context [advance ?x] => set (r1 := x); rewrite <- (bind_ret r1 advance) end.
    apply lsound_bind; [apply lsound_bind; [|apply advance_links]|].
    + apply lsound_same; try done. unfold r1. cbn [fst]. same_core Hr.
    + intros Hx. case_if; [by apply send_propose_links|by apply lsound_id].
  - match goal with |- context [send_propose_to ?s ?x] => set (r1 := x); rewrite <- (bind_ret r1 (send_propose_to s)) end.
    apply lsound_bind; [|apply send_propose_links].
    apply lsound_same; try done. unfold r1. cbn [fst]. same_core Hr.
Qed.

Lemma start_probe_round_links r : inside r → lsound r (start_probe_round r).
Proof.
  intros Hi. rewrite start_probe_round_eq. apply lsound_bind.
  - unfold send_probes. apply lsound_same; cbn [fst snd]; [done|by apply candidacy_wf, Hi|reflexivity|reflexivity|].
    by apply Forall_fmap, Forall_forall.
  - intros Hx. case_if; [by apply become_leader_links|by apply lsound_id].
Qed.

Lemma handle_client_request_links now req r :
  inside r →
  (role_ r = leader → ∀ l, fresh r (pending_client_requests_ r ++ [req]) l → G l) →
  lsound r (handle_client_request now req r).
Proof.
  intros Hi Hf. unfold handle_client_request. case_if; [apply lsound_same; try done; [apply Hi|by repeat constructor]|].
  unfold is_leader in Ec. bsimp.
  destruct (response_cache_ r !! _); [apply lsound_same; try done; [apply Hi|by repeat constructor]|].
  case_if; [by apply lsound_id|].
  match goal with |- lsound _ (if (append_batch_size_ <=? length (pending_client_requests_ ?x))%nat then _ else _) =>
    assert (Hx : lsound r (x, []) ∧ fresh_in x); [|revert Hx; generalize x] end.
  { split.
    - apply lsound_same; cbn [fst snd]; [done| |by case_match|by case_match|constructor].
      destruct Hi as [Hr _]. case_match; same_core Hr.
    - intros l Hl. apply Hf; [done|]. destruct (client_batch_deadline_ _); exact Hl. }
  intros x [Hx Hfx]. case_if; [|done]. rewrite <- (bind_ret x (flush_pending_client_requests now)).
  apply lsound_bind; [done|]. intros Hix. by apply flush_links.
Qed.
End Sound.

(** ** Accepting a proposal copies its links *)

Lemma prefix_matches_round r prev rd :
  replica_wf r → (prev = 0 → rd = 0) → prefix_matches r prev rd = true → round_at r prev = rd.
Proof.
  intros Hr Hz. unfold prefix_matches, round_at. repeat case_if; intros H; bsimp; try done.
  - symmetry. auto.
  - destruct (find prev (log_ r)); [|done]. by bsimp.
Qed.

Lemma accept_entry_links (G : link → Prop) e r m :
  replica_wf r → (∀ l, links r l → G l) → le_slot e = m + 1 →
  trim_through_ r ≤ m < next_slot_ r → conflicts e r && (le_slot e <=? commit_index_ r) = false →
  G (mk_link (m + 1) (round_at r m) (le_round e) (le_req e)) →
  (∀ l, links (accept_entry e r) l → G l) ∧ round_at (accept_entry e r) (m + 1) = le_round e.
Proof.
  intros Hr Hl He Hm Hc Hg.
  destruct (accept_entry_cases e r Hr) as [(x & Hf & Hrd & ->)|(r1 & Hw & Hn & Hr1 & ->)]; [lia|done|..].
  - split; [done|]. rewrite He in Hf. by rewrite (round_at_entry r (m + 1) x Hr Hf).
  - assert (Hold : (∀ l, links r1 l → G l) ∧ round_at r1 m = round_at r m).
    { destruct Hr1 as [->|[Hlt ->]]; [done|]. rewrite He in *. split.
      - intros l Hl1. apply Hl. by eapply truncate_links.
      - apply truncate_round_at; [done|lia]. }
    destruct Hold as [Hl1 Hrm]. fold (appended r1 e). split.
    + intros l Hla. destruct (append_links r1 e Hw l Hla) as [Hin| ->]; [by apply Hl1|].
      rewrite Hn, He. replace (m + 1 - 1) with m by lia. by rewrite Hrm.
    + replace (m + 1) with (next_slot_ r1) by congruence. by apply append_round_at_new.
Qed.

Lemma accept_loop_links (G : link → Prop) es r m :
  replica_wf r → (∀ l, links r l → G l) → trim_through_ r ≤ m < next_slot_ r →
  consecutive (m + 1) es → (∀ l, chain (m + 1) (round_at r m) es l → G l) →
  ∀ l, links (accept_loop es r m).1 l → G l.
Proof.
  revert r m. induction es as [|e es IH]; intros r m Hr Hl Hm Hc Hg; [done|].
  destruct Hc as [He Hc]. rewrite accept_loop_cons, He.
  assert (m + 1 <=? trim_through_ r = false) as -> by (apply Z.leb_gt; lia).
  destruct (conflicts e r && (m + 1 <=? commit_index_ r)) eqn:Ec; [done|]. rewrite <- He in Ec.
  destruct (accept_entry_links G e r m) as [Hl' Hrd]; try done; [apply Hg; by left|].
  destruct (accept_entry_wf e r) as [Hw Hn]; [done|lia|done|].
  destruct (accept_entry_frame e r) as (log & next & E).
  apply IH; [done|done| |done|].
  - split; [|lia]. rewrite E. simpl. lia.
  - intros l Hch. apply Hg. right. by rewrite Hrd in Hch.
Qed.

Lemma settle_links (G : link → Prop) msg r : inside G r → lsound G r (settle msg r).
Proof.
  intros Hi. unfold settle. apply lsound_bind.
  - match goal with |- lsound _ _ (apply_committed_entries ?x) => set (r1 := x) end.
    rewrite <- (bind_ret r1 apply_committed_entries). apply lsound_bind; [|apply apply_committed_links].
    destruct Hi as [Hr Hl]. pose proof (rwf_applied r Hr). pose proof (rwf_commit r Hr).
    apply lsound_same; cbn [fst snd]; [done| |unfold r1; by case_if|unfold r1; by case_if|constructor].
    unfold r1. case_if; [|done]. apply set_commit_wf; [done|]. unfold last_log_index. lia.
  - match goal with |- inside _ (apply_committed_entries ?y).1 → _ => generalize (apply_committed_entries y).1 end.
    intros x Hx. unfold pure_. case_if; [|by apply lsound_id]. apply set_trim_links; [done|].
    pose proof (rwf_trim _ (proj1 Hx)). lia.
Qed.

Lemma handle_propose_links (G : link → Prop) msg r :
  inside G r → msg_ok (Propose msg) → prev_ok msg → (∀ l, propose_links msg l → G l) →
  (∀ l, links (handle_propose msg r).1 l → G l) ∧ Forall no_propose (handle_propose msg r).2.
Proof.
  intros Hi [Hp Hco] Hz Hg. rewrite handle_propose_eq. cbv zeta.
  case_if; [split; [apply Hi|by repeat constructor]|].
  pose proof (ls_inside _ _ _ (become_follower_links G (ps_round msg) (ps_leader msg) r Hi)) as Hx.
  revert Hx. cbn [fst]. generalize (become_follower (ps_round msg) (ps_leader msg) r). intros x [Hw Hl].
  destruct (negb _) eqn:Em; bsimp; [split; [done|by repeat constructor]|].
  pose proof (prefix_matches_round x _ _ Hw Hz Em) as Hrd. apply prefix_matches_range in Em; [|done|done].
  pose proof (accept_loop_links G (ps_entries msg) x _ Hw Hl Em Hco) as Hal. rewrite Hrd in Hal.
  specialize (Hal Hg). destruct (accept_loop_wf _ _ _ Hw Em Hco) as [Hw' _].
  destruct (accept_loop _ _ _) as [y [k|slot]]; cbn [fst] in Hal, Hw'; [|split; [done|by repeat constructor]].
  rewrite and_then_fst, and_then_snd. cbn [fst snd].
  destruct (settle_links G msg y (conj Hw' Hal)) as [[_ Hs] _ _]. split; [done|].
  apply Forall_app. split; [|by repeat constructor]. unfold settle. rewrite and_then_snd.
  cbn [pure_ snd]. rewrite app_nil_r. unfold apply_committed_entries. rewrite and_then_snd.
  cbn [pure_ snd]. rewrite app_nil_r. apply apply_loop_no_propose.
Qed.

(** ** An iteration *)

(** The requests an iteration may append. *)
Definition incoming (ev : wakeup) (r : pt_paxos_replica) : list request :=
  match ev with
  | client_wakeup req => pending_client_requests_ r ++ [req]
  | _ => pending_client_requests_ r
  end.

Lemma fresh_prefix r reqs reqs' l : fresh r reqs l → fresh r (reqs ++ reqs') l.
Proof.
  intros (i & req & Hi & ->). exists i, req. split; [by apply lookup_app_l_Some|done].
Qed.

Record iteration_links (G : link → Prop) (r r' : pt_paxos_replica) (outs : list output) : Prop := {
  il_links : ∀ l, links r' l → G l;
  il_outs : Forall (out_ok G r') outs;
  il_next : role_ r' = leader → next_slot_ r ≤ next_slot_ r';
}.

Lemma run_iteration_links (G : link → Prop) now ev r :
  inside G r → wakeup_ok ev →
  (∀ p, ev = replica_wakeup (Propose p) → prev_ok p ∧ ∀ l, propose_links p l → G l) →
  (role_ r = leader → ∀ l, fresh r (incoming ev r) l → G l) →
  iteration_links G r (run_iteration now ev r).1 (run_iteration now ev r).2.
Proof.
  intros Hi Hw Hp Hf.
  assert (Hs : ∀ p, lsound G r p → iteration_links G r p.1 p.2).
  { intros p [[_ H1] H2 H3]. by split. }
  assert (Hfl : role_ r = leader → fresh_in G r).
  { intros Hl l Hfr. apply Hf; [done|]. destruct ev; simpl; try done. by apply fresh_prefix. }
  unfold run_iteration. case_if; [by apply Hs, flush_links|]. destruct ev as [req|m|].
  - by apply Hs, handle_client_request_links.
  - destruct m as [m|m|m|m]; cbn [handle_replica_message].
    + by apply Hs, handle_probe_links.
    + by apply Hs, handle_prepare_links.
    + destruct (Hp m eq_refl) as [Hz Hg].
      destruct (handle_propose_links G m r Hi Hw Hz Hg) as [H1 H2]. split; [done| |].
      * eapply Forall_impl; [exact H2|]. apply no_propose_ok.
      * intros Hl. destruct (decide (current_round_ r ≤ ps_round m)) as [Hle|Hlt].
        -- rewrite handle_propose_follower in Hl; [done|apply Hi|done|done].
        -- rewrite handle_propose_eq. cbv zeta. case_if; [simpl; lia|lia].
    + by apply Hs, handle_ack_links.
  - apply Hs. case_if; [|by apply start_probe_round_links].
    case_if; [by apply flush_links|by apply broadcast_links].
Qed.

(** * The cluster *)

(** Within a round a replica that is no candidate keeps its role or becomes a
    follower. *)
Lemma effect_role v ev v' outs :
  effect v ev v' outs → v_round v' = v_round v → v_role v ≠ candidate →
  v_role v' = v_role v ∨ v_role v' = follower.
Proof.
  intros [] Hr Hc; simpl in *; tauto || lia.
Qed.

Section Cluster.
Context (n l0 : nat) (draws : nat → list Z).
Hypothesis n_ge_2 : (2 ≤ n)%nat.

(** A link belongs to a replica that may lead its round; while that replica
    still leads it, its log reaches beyond the link. *)
Definition owned (w : world) (l : link) : Prop :=
  ∃ c, legit n l0 (w_sent w) c (lk_round l) ∧
    ∀ rc, w_replicas w !! c = Some rc → current_round_ rc = lk_round l →
      role_ rc ≠ candidate ∧ (role_ rc = leader → lk_slot l < next_slot_ rc).

(** [H] is the set of the links created so far. *)
Record linv (w : world) (H : link → Prop) : Prop := {
  li_logs : ∀ i r l, w_replicas w !! i = Some r → links r l → H l;
  li_sent : ∀ dst p, (dst, Propose p) ∈ w_sent w → prev_ok p ∧ ∀ l, propose_links p l → H l;
  li_unique : ∀ l l', H l → H l' → lk_slot l = lk_slot l' → lk_round l = lk_round l' → l = l';
  li_owned : ∀ l, H l → owned w l;
}.

Lemma initial_linv : linv (initial_world n l0 draws) (λ _, False).
Proof.
  split; try done.
  - intros i r l [-> Hi]%initial_lookup (e & Hf & _). revert Hf. unfold initialize.
    case_if; [rewrite become_leader_frame|]; done.
  - intros dst p ?%not_elem_of_nil. done.
Qed.

Section Step.
Context (w : world) (H : link → Prop) (i : nat) (r : pt_paxos_replica) (now : Z) (ev : wakeup).
Hypothesis Hw : reachable n l0 draws w.
Hypothesis HH : linv w H.
Hypothesis Hi : w_replicas w !! i = Some r.
Hypothesis Hd : deliverable w i ev.

Let r' := (run_iteration now ev r).1.
Let outs := (run_iteration now ev r).2.
Let w' := mk_world (<[i := r']> (w_replicas w)) (packets outs ++ w_sent w).

(** The links after the step: those of before and the requests appended. *)
Definition links_after (l : link) : Prop :=
  H l ∨ role_ r = leader ∧ fresh r (incoming ev r) l ∧ lk_slot l < next_slot_ r'.

Lemma step_facts :
  ready r ∧ wakeup_ok ev ∧ evolves r r' ∧ replica_wf r' ∧
  effect (view_of r) ev (view_of r') outs ∧ einv n l0 (views w) (w_sent w).
Proof.
  destruct (reachable_ok _ _ _ _ Hw) as [_ Hr Hs]. destruct (Hr i r Hi) as (Hrr & Hx & Hn).
  assert (Hwk : wakeup_ok ev).
  { destruct ev; try done. simpl in Hd. rewrite Forall_forall in Hs. apply (Hs _ Hd). }
  destruct (run_iteration_sound now ev r Hrr Hwk) as [[Hg _] _ He _ _]. split_and!; try done.
  - apply run_iteration_effect. lia.
  - by apply reachable_einv with draws.
Qed.

Lemma step_links :
  (∀ l, links r' l → links_after l) ∧
  (∀ dst p, (dst, Propose p) ∈ packets outs → prev_ok p ∧ ∀ l, propose_links p l → links_after l) ∧
  (role_ r' = leader → next_slot_ r ≤ next_slot_ r').
Proof.
  destruct step_facts as (Hr & Hwk & _ & Hr' & _).
  set (G := λ l, H l ∨ role_ r = leader ∧ fresh r (incoming ev r) l).
  destruct (run_iteration_links G now ev r) as [H1 H2 H3].
  - split; [apply Hr|]. intros l Hl. left. by eapply (li_logs w H HH).
  - done.
  - intros p ->. destruct (li_sent w H HH i p Hd) as [Hz Hg]. split; [done|]. intros l Hl. left. auto.
  - intros Hl l Hf. by right.
  - split_and!; [| |done].
    + intros l Hl. pose proof (links_slot _ _ Hr' Hl). destruct (H1 l Hl) as [?|[? ?]]; [by left|right].
      split_and!; [done|done|lia].
    + intros dst p Hin. apply list_elem_of_omap in Hin as (o & Ho & Heq).
      rewrite Forall_forall in H2. apply H2 in Ho. destruct o as [d m|]; simplify_eq.
      destruct Ho as [Hg Hz]. split; [done|]. intros l Hl.
      destruct (Hg l Hl) as [[?|[? ?]] ?]; [by left|by right].
Qed.

Lemma fresh_slot l : fresh r (incoming ev r) l → next_slot_ r ≤ lk_slot l ∧ lk_round l = current_round_ r.
Proof. intros (k & req & _ & ->). simpl. split; [lia|done]. Qed.

(** No created link of the leader's round lies at or beyond its next slot. *)
Lemma created_below l :
  H l → role_ r = leader → lk_round l = current_round_ r → lk_slot l < next_slot_ r.
Proof.
  intros Hl Hlead Hrd. destruct step_facts as (_ & _ & _ & _ & _ & He).
  destruct (li_owned w H HH l Hl) as (c & Hc & Hown).
  destruct (ei_lead _ _ _ _ He i _ (views_lookup _ _ _ Hi) Hlead) as [_ Hme]. simpl in Hme.
  rewrite <- Hrd in Hme. assert (c = i) as -> by by eapply (legit_unique n l0).
  by apply (Hown r Hi).
Qed.

Lemma links_after_unique l l' :
  links_after l → links_after l' → lk_slot l = lk_slot l' → lk_round l = lk_round l' → l = l'.
Proof.
  intros [Hl|(Hld & Hl & _)] [Hl'|(Hld' & Hl' & _)] Hs Hr.
  - by eapply (li_unique w H HH).
  - apply fresh_slot in Hl' as [? ?]. pose proof (created_below l Hl Hld'). lia.
  - apply fresh_slot in Hl as [? ?]. pose proof (created_below l' Hl' Hld). lia.
  - destruct Hl as (a & q & Ha & ->), Hl' as (b & q' & Hb & ->). simpl in *.
    assert (a = b) as -> by lia. by simplify_eq.
Qed.

Lemma lookup_after c rc :
  w_replicas w' !! c = Some rc → c = i ∧ rc = r' ∨ c ≠ i ∧ w_replicas w !! c = Some rc.
Proof.
  unfold w'. simpl. destruct (decide (c = i)) as [->|].
  - rewrite list_lookup_insert_eq by (by apply lookup_lt_Some in Hi). intros [= <-]. by left.
  - rewrite list_lookup_insert_ne by done. by right.
Qed.

Lemma links_after_owned l : links_after l → owned w' l.
Proof.
  destruct step_facts as (Hr & _ & Hev & _ & Heff & He). destruct step_links as (_ & _ & Hnext).
  assert (Hsub : w_sent w ⊆ w_sent w') by apply packets_sub.
  intros [Hl|(Hlead & Hl & Hlt)].
  - destruct (li_owned w H HH l Hl) as (c & Hc & Hown). exists c. split; [by eapply legit_mono|].
    intros rc [[-> ->]|[_ Hrc]]%lookup_after Hrd; [|by apply Hown].
    pose proof (legit_round _ _ _ _ _ _ _ He Hc (views_lookup _ _ _ Hi)) as Hle. simpl in Hle.
    assert (Hsame : current_round_ r' = current_round_ r) by (destruct Hev; lia).
    destruct (Hown r Hi) as [Hnc Hslot]; [congruence|].
    destruct (effect_role _ _ _ _ Heff Hsame Hnc) as [Hro|Hro]; simpl in Hro; rewrite Hro; [|done].
    split; [done|]. intros Hld. pose proof (Hslot Hld). rewrite Hro in Hnext. specialize (Hnext Hld). lia.
  - destruct (fresh_slot l Hl) as [_ Hrd]. exists i.
    destruct (ei_lead _ _ _ _ He i _ (views_lookup _ _ _ Hi) Hlead) as [_ Hme]. simpl in Hme.
    rewrite Hrd. split; [by eapply legit_mono|].
    intros rc [[_ ->]|[? _]]%lookup_after Hrr; [|done]. split; [|done].
    assert (Hnc : role_ r ≠ candidate) by congruence.
    destruct (effect_role _ _ _ _ Heff Hrr Hnc) as [Hro|Hro]; simpl in Hro; congruence.
Qed.

Lemma linv_step : linv w' links_after.
Proof.
  destruct step_links as (H1 & H2 & _). split.
  - intros c rc l [[-> ->]|[_ Hrc]]%lookup_after Hl; [by apply H1|]. left. by eapply (li_logs w H HH).
  - intros dst p [Hin|Hin]%elem_of_app; [by eapply H2|].
    destruct (li_sent w H HH dst p Hin) as [Hz Hg]. split; [done|]. intros l Hl. left. auto.
  - apply links_after_unique.
  - apply links_after_owned.
Qed.
End Step.

Lemma reachable_linv w : reachable n l0 draws w → ∃ H, linv w H.
Proof.
  revert w. apply reachable_ind'; [eexists; apply initial_linv|].
  intros w i r now ev Hw [H HH] Hi Hd. eexists. by eapply linv_step.
Qed.

(** Two logs with the same round at a slot agree from there down. *)
Lemma logs_match w H r1 r2 s e1 e2 (k : nat) :
  linv w H → replica_wf r1 → replica_wf r2 →
  (∀ l, links r1 l → H l) → (∀ l, links r2 l → H l) →
  find s (log_ r1) = Some e1 → find s (log_ r2) = Some e2 → le_round e1 = le_round e2 →
  trim_through_ r1 < s - Z.of_nat k → trim_through_ r2 < s - Z.of_nat k →
  find (s - Z.of_nat k) (log_ r1) = find (s - Z.of_nat k) (log_ r2).
Proof.
  intros HH Hw1 Hw2 Hl1 Hl2. revert s e1 e2. induction k as [|k IH]; intros s e1 e2 F1 F2 Hrd T1 T2.
  all: assert (Hl : mk_link s (round_at r1 (s - 1)) (le_round e1) (le_req e1) =
         mk_link s (round_at r2 (s - 1)) (le_round e2) (le_req e2))
         by (apply (li_unique w H HH); [apply Hl1; by exists e1|apply Hl2; by exists e2|done|done]).
  all: injection Hl as Hp _ Hq.
  - rewrite Z.sub_0_r. rewrite F1, F2. f_equal.
    pose proof (rwf_entry r1 Hw1 s e1 F1). pose proof (rwf_entry r2 Hw2 s e2 F2).
    destruct e1, e2; simpl in *; congruence.
  - assert (Hin : is_Some (find (s - 1) (log_ r1)) ∧ is_Some (find (s - 1) (log_ r2))).
    { assert (H1 : is_Some (find s (log_ r1))) by by eexists. apply (rwf_slots r1 Hw1) in H1.
      assert (H2 : is_Some (find s (log_ r2))) by by eexists. apply (rwf_slots r2 Hw2) in H2.
      split; [apply (rwf_slots r1 Hw1)|apply (rwf_slots r2 Hw2)]; lia. }
    destruct Hin as [[x1 X1] [x2 X2]].
    rewrite (round_at_entry r1 _ _ Hw1 X1), (round_at_entry r2 _ _ Hw2 X2) in Hp.
    replace (s - Z.of_nat (S k)) with (s - 1 - Z.of_nat k) in * by lia. by eapply IH.
Qed.
End Cluster.

(** * Properties *)

(** C2 Log matching: in every reachable world, two replicas whose logs hold
    entries of the same round at a slot hold the same entries at that slot and
    at every earlier slot neither has trimmed. *)
Theorem log_matching (n initial_leader : nat) (draws : nat → list Z) (w : world)
    (i j : nat) (r1 r2 : pt_paxos_replica) (slot slot' : Z) (e1 e2 : log_entry) :
  (2 ≤ n)%nat → reachable n initial_leader draws w →
  w_replicas w !! i = Some r1 → w_replicas w !! j = Some r2 →
  find slot (log_ r1) = Some e1 → find slot (log_ r2) = Some e2 → le_round e1 = le_round e2 →
  slot' ≤ slot → trim_through_ r1 < slot' → trim_through_ r2 < slot' →
  find slot' (log_ r1) = find slot' (log_ r2).
Proof.
  intros Hn Hw Hi Hj F1 F2 Hrd Hle T1 T2.
  destruct (reachable_linv n initial_leader draws Hn w Hw) as [H HH].
  destruct (reachable_ok _ _ _ _ Hw) as [_ Hr _].
  replace slot' with (slot - Z.of_nat (Z.to_nat (slot - slot'))) in * by lia.
  eapply (logs_match n initial_leader Hn w H); [done|by apply (Hr i r1)|by apply (Hr j r2)|..]; try done.
  - intros l. by eapply (li_logs _ _ w H HH).
  - intros l. by eapply (li_logs _ _ w H HH).
Qed.

(** Replica 0 commits one request with replica 1. *)
Definition replicated_world : world :=
  default (initial_world 3 0 (λ _, []))
    (run_schedule (initial_world 3 0 (λ _, []))
       [client_cmd 0 (put_request 7 $"k" $"v" any_version); timer_cmd 0; deliver_cmd 0]).

Lemma replicated_reachable : reachable 3 0 (λ _, []) replicated_world.
Proof. apply schedule_reachable. vm_compute. by eexists. Qed.

Lemma log_matching_witness :
  let r0 := replica_of replicated_world 0 in
  let r1 := replica_of replicated_world 1 in
  find 1 (log_ r0) = Some (mk_log_entry 1 0 (put_request 7 $"k" $"v" any_version)) ∧
  find 1 (log_ r0) = find 1 (log_ r1).
Proof.
  intros r0 r1. split; [by vm_compute|].
  set (e := mk_log_entry 1 0 (put_request 7 $"k" $"v" any_version)).
  apply (log_matching 3 0 (λ _, []) replicated_world 0 1 r0 r1 1 1 e e (le_S _ _ (le_n 2))
           replicated_reachable); by vm_compute.
Defined.
