(* ===== verification/NetSim.v ===== *)
(** The simulated network, [src/pset4/netsim.hh]: channels that delay, lose and
    drop messages, ports that queue them, and the [receive] coroutine of a
    port.

    Coroutines are cut at their suspension points: a detached [send_after] is
    an entry of [in_flight] with the time it resumes, a [receive] is a state of
    its port.  Virtual time is [now].  Timers fire in the order of their times:
    the driver either moves the clock to the first one, which may put it back
    (see [Driver.v]), or finds it due already, since every resumed coroutine
    takes a nanosecond.  The draw of a coin flip is an input.  Printing is left
    out.  Each message carries its channel and the number of the send, and
    [sent], [lost], [stale], [landed] and [received] record what became of it;
    the program keeps none of these. *)

From S2P Require Import Prelude.
From Stdlib Require Import QArith.QArith QArith.Qround.
#[local] Open Scope Z_scope.

(** * Data *)

Record message (A : Type) := Message { m_body : A; m_via : nat; m_id : nat }.
Arguments Message {A}.
Arguments m_body {A}.
Arguments m_via {A}.
Arguments m_id {A}.

Record channel := Channel {
  destination_ : option nat;
  destination_version_ : Z;
  link_delay_ : Z;
  send_delay_ : Z;
  loss_ : Q;
  source_id_ : txt
}.

(** Where the coroutine [receive_with_id] of a port is suspended: nowhere, at
    [receivable_.arm()], at [after(receive_delay_)] until a time, at
    [resolve{}]. *)
Inductive receive_state := R_idle | R_wait | R_delay (until : Z) | R_resolve.

Record port (A : Type) := Port {
  messageq_ : list (message A * txt);
  receivable_ : bool;     (* triggered *)
  receive_delay_ : Z;
  receiver : receive_state
}.
Arguments Port {A}.
Arguments messageq_ {A}.
Arguments receivable_ {A}.
Arguments receive_delay_ {A}.
Arguments receiver {A}.

Record flight (A : Type) := Flight { f_msg : message A; f_version : Z; f_due : Z }.
Arguments Flight {A}.
Arguments f_msg {A}.
Arguments f_version {A}.
Arguments f_due {A}.

Record netsim (A : Type) := Netsim {
  channels : list channel;
  ports : list (port A);
  now : Z;
  in_flight : list (flight A);
  sent : list (message A);
  lost : list (message A);
  stale : list (message A);
  landed : list (nat * message A);
  received : list (nat * message A)
}.
Arguments Netsim {A}.
Arguments channels {A}.
Arguments ports {A}.
Arguments now {A}.
Arguments in_flight {A}.
Arguments sent {A}.
Arguments lost {A}.
Arguments stale {A}.
Arguments landed {A}.
Arguments received {A}.

(** [random_source::coin_flip(p)], with [val] the 53-bit draw. *)
Definition coin_flip (p : Q) (val : Z) : bool :=
  if Qle_bool p 0 then false
  else if Qle_bool 1 p then true
  else val <? Qfloor (p * inject_Z (2 ^ 53)).

Section Netsim.
Context {A : Type}.
Implicit Types (s : netsim A) (p : port A) (m : message A).

Definition set_channel s (c : nat) (ch : channel) : netsim A :=
  Netsim (<[c := ch]> (channels s)) (ports s) (now s) (in_flight s) (sent s) (lost s) (stale s) (landed s) (received s).
Definition set_port s (i : nat) (p : port A) : netsim A :=
  Netsim (channels s) (<[i := p]> (ports s)) (now s) (in_flight s) (sent s) (lost s) (stale s) (landed s) (received s).
Definition advance s (t : Z) : netsim A :=
  Netsim (channels s) (ports s) t (in_flight s) (sent s) (lost s) (stale s) (landed s) (received s).

(** * Channels *)

Definition connect s (c i : nat) : option (netsim A) :=
  ch ← channels s !! c;
  _ ← ports s !! i;
  Some (set_channel s c (Channel (Some i) (u32 (destination_version_ ch + 1)) (link_delay_ ch) (send_delay_ ch)
                           (loss_ ch) (source_id_ ch))).

Definition disconnect s (c : nat) : option (netsim A) :=
  ch ← channels s !! c;
  Some (set_channel s c (Channel None (u32 (destination_version_ ch + 1)) (link_delay_ ch) (send_delay_ ch)
                           (loss_ ch) (source_id_ ch))).

Definition set_loss s (c : nat) (q : Q) : option (netsim A) :=
  ch ← channels s !! c;
  Some (set_channel s c (Channel (destination_ ch) (destination_version_ ch) (link_delay_ ch) (send_delay_ ch)
                           q (source_id_ ch))).

Definition set_link_delay s (c : nat) (d : Z) : option (netsim A) :=
  ch ← channels s !! c;
  Some (set_channel s c (Channel (destination_ ch) (destination_version_ ch) d (send_delay_ ch)
                           (loss_ ch) (source_id_ ch))).

(** [send]: also the time at which the sender goes on. *)
Definition send s (c : nat) (x : A) (val : Z) : option (netsim A * Z) :=
  ch ← channels s !! c;
  let m := Message x c (length (sent s)) in
  let s' :=
    if bool_decide (is_Some (destination_ ch)) && negb (coin_flip (loss_ ch) val) then
      Netsim (channels s) (ports s) (now s)
        (in_flight s ++ [Flight m (destination_version_ ch) (now s + link_delay_ ch)])
        (sent s ++ [m]) (lost s) (stale s) (landed s) (received s)
    else
      Netsim (channels s) (ports s) (now s) (in_flight s) (sent s ++ [m]) (lost s ++ [m]) (stale s)
        (landed s) (received s) in
  Some (s', now s + send_delay_ ch).

(** [receivable_.trigger()]: a waiting receiver goes on to its delay. *)
Definition trigger_receivable (t : Z) p : port A :=
  Port (messageq_ p) true (receive_delay_ p)
    (match receiver p with R_wait => R_delay (t + receive_delay_ p) | r => r end).

(** The rest of [send_after], once its delay is over. *)
Definition finish_send s (f : flight A) : option (netsim A) :=
  ch ← channels s !! m_via (f_msg f);
  let dropped := Netsim (channels s) (ports s) (now s) (in_flight s) (sent s) (lost s) (stale s ++ [f_msg f])
                   (landed s) (received s) in
  match destination_ ch with
  | None => Some dropped
  | Some i =>
      if negb (f_version f =? destination_version_ ch) then Some dropped
      else
        p ← ports s !! i;
        let p := Port (messageq_ p ++ [(f_msg f, source_id_ ch)]) (receivable_ p) (receive_delay_ p) (receiver p) in
        let p := trigger_receivable (now s) p in
        Some (Netsim (channels s) (<[i := p]> (ports s)) (now s) (in_flight s) (sent s) (lost s) (stale s)
                (landed s ++ [(i, f_msg f)]) (received s))
  end.

(** Timers fire in the order of their times, and those of equal time in the
    order they were set. *)
Fixpoint earliest (fs : list (flight A)) : option nat :=
  match fs with
  | [] => None
  | f :: fs' =>
      match earliest fs' with
      | None => Some O
      | Some i =>
          match fs' !! i with
          | Some g => if f_due g <? f_due f then Some (S i) else Some O
          | None => Some O
          end
      end
  end.

Definition no_timer_before s (t : Z) : bool :=
  forallb (λ f, t <=? f_due f) (in_flight s) &&
  forallb (λ p, match receiver p with R_delay u => t <=? u | _ => true end) (ports s).

(** The clock when the timer for [u] fires: it is the first one, and it is due
    already unless the driver is idle, and sets the clock to it. *)
Definition timer_fires s (idle : bool) (u : Z) : option Z :=
  if negb (no_timer_before s u) then None
  else if idle then Some u
  else if u <=? now s then Some (now s) else None.

(** The clock is set to a timer of the rest of the program. *)
Definition clock_moves s (idle : bool) (u : Z) : option (netsim A) := advance s <$> timer_fires s idle u.

(** [step_time], after a coroutine has run. *)
Definition step_time s : netsim A := advance s (now s + 1).

Definition send_after_wakes s (idle : bool) : option (netsim A) :=
  i ← earliest (in_flight s);
  f ← in_flight s !! i;
  t ← timer_fires s idle (f_due f);
  finish_send (Netsim (channels s) (ports s) t (delete i (in_flight s)) (sent s) (lost s)
                 (stale s) (landed s) (received s)) f.

(** * Receiving *)

(** The inner loop of [receive_with_id], from its test. *)
Definition receive_test p : port A :=
  if bool_decide (messageq_ p = []) then Port (messageq_ p) false (receive_delay_ p) R_wait
  else Port (messageq_ p) (receivable_ p) (receive_delay_ p) R_resolve.

Definition with_receiver p (r : receive_state) : port A :=
  Port (messageq_ p) (receivable_ p) (receive_delay_ p) r.

Definition receive s (i : nat) : option (netsim A) :=
  p ← ports s !! i;
  match receiver p with
  | R_idle => Some (set_port s i (receive_test p))
  | _ => None
  end.

(** The delay of the receiver is over. *)
Definition receive_wakes s (idle : bool) (i : nat) : option (netsim A) :=
  p ← ports s !! i;
  match receiver p with
  | R_delay u => t ← timer_fires s idle u; Some (set_port (advance s t) i (receive_test p))
  | _ => None
  end.

(** The awaiting task resolves the receiver: a message, or another wait when
    the queue is empty again. *)
Definition receive_resolves s (i : nat) : option (option (message A * txt) * netsim A) :=
  p ← ports s !! i;
  match receiver p with
  | R_resolve =>
      match messageq_ p with
      | [] => Some (None, set_port s i (receive_test p))
      | x :: q =>
          let p := Port q (receivable_ p) (receive_delay_ p) R_idle in
          Some (Some x,
            Netsim (channels s) (<[i := p]> (ports s)) (now s) (in_flight s) (sent s) (lost s) (stale s)
              (landed s) (received s ++ [(i, x.1)]))
      end
  | _ => None
  end.

(** The receiver is destroyed: another alternative of its [first] won. *)
Definition receive_cancelled s (i : nat) : option (netsim A) :=
  p ← ports s !! i; Some (set_port s i (with_receiver p R_idle)).

(** * Runs *)

Inductive command :=
  | C_send (c : nat) (x : A) (val : Z)
  | C_send_after (idle : bool)
  | C_connect (c i : nat)
  | C_disconnect (c : nat)
  | C_set_loss (c : nat) (q : Q)
  | C_set_link_delay (c : nat) (d : Z)
  | C_receive (i : nat)
  | C_receive_wakes (idle : bool) (i : nat)
  | C_receive_resolves (i : nat)
  | C_receive_cancelled (i : nat)
  | C_clock (idle : bool) (u : Z)
  | C_step_time.

Definition run_command s (c : command) : option (netsim A) :=
  match c with
  | C_send c x val => fst <$> send s c x val
  | C_send_after idle => send_after_wakes s idle
  | C_connect c i => connect s c i
  | C_disconnect c => disconnect s c
  | C_set_loss c q => set_loss s c q
  | C_set_link_delay c d => set_link_delay s c d
  | C_receive i => receive s i
  | C_receive_wakes idle i => receive_wakes s idle i
  | C_receive_resolves i => snd <$> receive_resolves s i
  | C_receive_cancelled i => receive_cancelled s i
  | C_clock idle u => clock_moves s idle u
  | C_step_time => Some (step_time s)
  end.

Fixpoint run s (cs : list command) : option (netsim A) :=
  match cs with
  | [] => Some s
  | c :: cs' => s ← run_command s c; run s cs'
  end.

(** Constructed channels and ports, at time [t]; times are in nanoseconds. *)
Definition new_channel (dst : option nat) (id : txt) : channel := Channel dst 0 5000000 1000000 0 id.
Definition new_port : port A := Port [] false 1000000 R_idle.
Definition new_netsim (chs : list (option nat * txt)) (nports : nat) (t : Z) : netsim A :=
  Netsim ((λ c, new_channel c.1 c.2) <$> chs) (replicate nports new_port) t [] [] [] [] [] [].
End Netsim.
Arguments command : clear implicits.

(** * Where the messages are *)

(** Permutations of a sum of lists: the summands of the left side are pulled to
    the front of the right side one after the other. *)
Lemma permute_skip {B} (x y r r' : list B) : r ≡ₚ x ++ r' → y ++ r ≡ₚ x ++ y ++ r'.
Proof. intros ->. apply Permutation_app_swap_app. Qed.
Lemma permute_last {B} (x : list B) : x ≡ₚ x ++ [].
Proof. by rewrite app_nil_r. Qed.
Lemma permute_front {B} (x l r r' : list B) : r ≡ₚ x ++ r' → l ≡ₚ r' → x ++ l ≡ₚ r.
Proof. by intros -> ->. Qed.

Ltac permute_pull := first [apply permute_last | reflexivity | eapply permute_skip; permute_pull].
Ltac permute_steps :=
  first [reflexivity | eapply permute_front; [permute_pull|permute_steps]
        | apply permute_last].
Ltac permute :=
  repeat match goal with
  | |- context [?x :: ?l] => lazymatch l with [] => fail | _ => change (x :: l) with ([x] ++ l) end
  end; rewrite <-?(assoc_L (++)); rewrite ?app_nil_r; permute_steps.

Ltac fields := cbn [channels ports now in_flight sent lost stale landed received].

Section Laws.
Context {A : Type}.
Implicit Types (s : netsim A) (p : port A) (m : message A) (f : flight A) (fs : list (flight A)).

Definition queue p : list (message A) := fst <$> messageq_ p.
Definition queued s : list (message A) := ports s ≫= queue.
Definition received_at s (i : nat) : list (message A) := snd <$> filter (λ x, x.1 = i) (received s).
Definition landed_at s (i : nat) : list (message A) := snd <$> filter (λ x, x.1 = i) (landed s).


Lemma bind_insert {B C} (g : B → list C) (l : list B) i x y :
  l !! i = Some x → ∃ pre post, l ≫= g = pre ++ g x ++ post ∧ <[i := y]> l ≫= g = pre ++ g y ++ post.
Proof.
  intros Hx. exists (take i l ≫= g), (drop (S i) l ≫= g). split.
  - rewrite <-(take_drop_middle l i x Hx) at 1. by rewrite bind_app, bind_cons.
  - rewrite insert_take_drop by (by apply lookup_lt_is_Some; eexists). by rewrite bind_app, bind_cons.
Qed.

(** A port that keeps its queue changes no list of messages. *)
Lemma queued_same s i p p' :
  ports s !! i = Some p → queue p' = queue p → <[i := p']> (ports s) ≫= queue = queued s.
Proof. intros Hp Hq. destruct (bind_insert queue _ i p p' Hp) as (a & b & E1 & E2). unfold queued. by rewrite E2, E1, Hq. Qed.

Lemma earliest_none fs : earliest fs = None → fs = [].
Proof.
  destruct fs as [|f fs]; [done|]. cbn. destruct (earliest fs) as [i|]; [|done].
  destruct (fs !! i) as [g|]; [|done]. by destruct (f_due g <? f_due f).
Qed.

Lemma earliest_spec fs i :
  earliest fs = Some i →
  ∃ f, fs !! i = Some f ∧ (∀ j g, fs !! j = Some g → f_due f ≤ f_due g) ∧
       (∀ j g, (j < i)%nat → fs !! j = Some g → f_due f < f_due g).
Proof.
  revert i. induction fs as [|f fs IH]; intros i; [done|]. cbn [earliest].
  destruct (earliest fs) as [k|] eqn:Ek.
  - destruct (IH k eq_refl) as (g & Hg & Hle & Hlt). rewrite Hg. case_if.
    + intros [= <-]. exists g. split; [done|]. split.
      * intros [|j] h; cbn; [intros [= <-]; lia|]. apply Hle.
      * intros [|j] h Hj; cbn; [intros [= <-]; lia|]. apply Hlt. lia.
    + intros [= <-]. exists f. split; [done|]. split; [|lia].
      intros [|j] h; cbn; [intros [= <-]; lia|]. intros Hh. specialize (Hle j h Hh). lia.
  - intros [= <-]. exists f. split; [done|]. split; [|lia].
    apply earliest_none in Ek as ->. intros [|j] h; cbn; [by intros [= <-]|done].
Qed.

(** Where a message is: lost by the coin, on its way, dropped on arrival,
    queued, or received. *)
Definition accounted s : list (message A) :=
  lost s ++ (f_msg <$> in_flight s) ++ stale s ++ queued s ++ (snd <$> received s).

Record net_inv s : Prop := {
  inv_ids : m_id <$> sent s = seq 0 (length (sent s));
  inv_account : sent s ≡ₚ accounted s;
  inv_order : ∀ i p, ports s !! i = Some p → landed_at s i = received_at s i ++ queue p;
  inv_landed : ∀ i m, (i, m) ∈ landed s → m ∈ sent s
}.

(** The clock steps only move the clock. *)
Lemma clock_moves_advance s idle u s' : clock_moves s idle u = Some s' → ∃ t, s' = advance s t.
Proof. unfold clock_moves. destruct (timer_fires s idle u); [|done]. intros [= <-]. by eexists. Qed.

(** Steps that move no message. *)
Lemma net_inv_ext s s' :
  net_inv s → queue <$> ports s' = queue <$> ports s → in_flight s' = in_flight s → sent s' = sent s →
  lost s' = lost s → stale s' = stale s → landed s' = landed s → received s' = received s → net_inv s'.
Proof.
  intros [I1 I2 I3 I4] Hq Hf Hs Hl Ht Hd Hr.
  assert (Hqq : queued s' = queued s).
  { pose proof (list_fmap_bind queue id (ports s)) as E1. pose proof (list_fmap_bind queue id (ports s')) as E2.
    rewrite Hq, E1 in E2. exact (eq_sym E2). }
  split.
  - by rewrite Hs.
  - unfold accounted. by rewrite Hs, Hl, Hf, Ht, Hqq, Hr.
  - intros i p' Hp'. assert (H : (queue <$> ports s') !! i = Some (queue p')) by (by rewrite list_lookup_fmap, Hp').
    rewrite Hq, list_lookup_fmap in H. apply fmap_Some in H as (p & Hp & E).
    unfold landed_at, received_at. rewrite Hd, Hr, E. by apply I3.
  - intros i m. rewrite Hd, Hs. apply I4.
Qed.

Lemma set_port_queue (ps : list (port A)) i p p' :
  ps !! i = Some p → queue p' = queue p → queue <$> <[i := p']> ps = queue <$> ps.
Proof.
  intros Hp Hq. rewrite list_fmap_insert, Hq. apply list_insert_id. by rewrite list_lookup_fmap, Hp.
Qed.

Lemma receive_test_queue p : queue (receive_test p) = queue p.
Proof. unfold receive_test. by case_bool_decide. Qed.

Lemma trigger_queue t p : queue (trigger_receivable t p) = queue p.
Proof. done. Qed.

(** ** Sending *)

Lemma send_inv s c x val s' t : send s c x val = Some (s', t) → net_inv s → net_inv s'.
Proof.
  unfold send. intros E [I1 I2 I3 I4]. destruct (channels s !! c) as [ch|]; [|done]. cbn in E.
  set (m := Message x c (length (sent s))) in *. injection E as E _.
  assert (H1 : m_id <$> (sent s ++ [m]) = seq 0 (length (sent s ++ [m]))).
  { rewrite fmap_app, I1, length_app. cbn. by rewrite Nat.add_comm, seq_S. }
  assert (H4 : ∀ i m', (i, m') ∈ landed s → m' ∈ sent s ++ [m]) by (intros; apply elem_of_app; left; eauto).
  destruct (_ && _); subst s'; split; try done; unfold accounted; cbn; rewrite I2; unfold accounted.
  - rewrite fmap_app. permute.
  - permute.
Qed.

(** ** Landing *)

Lemma finish_send_inv s i f s0 s' :
  in_flight s !! i = Some f → in_flight s0 = delete i (in_flight s) → ports s0 = ports s → sent s0 = sent s →
  lost s0 = lost s → stale s0 = stale s → landed s0 = landed s → received s0 = received s →
  finish_send s0 f = Some s' → net_inv s → net_inv s'.
Proof.
  intros Hf Ef Ep Es El Et Ed Er E [I1 I2 I3 I4].
  assert (Hperm : in_flight s ≡ₚ f :: delete i (in_flight s)) by (by apply delete_Permutation).
  rewrite <-Ef in Hperm. unfold accounted in I2. rewrite Hperm in I2. clear Hf Ef Hperm.
  assert (Hin : f_msg f ∈ sent s).
  { rewrite I2. set_solver. }
  unfold finish_send in E. destruct (channels s0 !! m_via (f_msg f)) as [ch|]; [|done]. cbn in E.
  assert (Hdrop : net_inv (Netsim (channels s0) (ports s0) (now s0) (in_flight s0) (sent s0) (lost s0)
                             (stale s0 ++ [f_msg f]) (landed s0) (received s0))).
  { split; cbn; rewrite ?Es, ?Ep, ?Ed; try done.
    - unfold accounted, queued. cbn. rewrite I2, El, Et, Er. cbn.
      fold (queued s). permute.
    - unfold received_at. cbn. rewrite Er. exact I3. }
  destruct (destination_ ch) as [k|]; [|by injection E as <-].
  destruct (negb _); [by injection E as <-|].
  rewrite Ep in E. destruct (ports s !! k) as [p|] eqn:Ek; [|done]. cbn in E. injection E as <-.
  match goal with |- net_inv (Netsim _ (<[k := ?q]> _) _ _ _ _ _ _ _) => set (p' := q) end.
  assert (Hq : queue p' = queue p ++ [f_msg f]) by (unfold p', queue; cbn; by rewrite fmap_app).
  split; cbn; rewrite ?Es, ?Ed; try done.
  - unfold accounted, queued. cbn. rewrite I2, El, Et, Er. cbn.
    destruct (bind_insert queue _ k p p' Ek) as (a & b & E1 & E2). unfold queued. fold p'. rewrite E1, E2, Hq.
    permute.
  - intros j q Hj. unfold landed_at, received_at. cbn. rewrite Er, filter_app, fmap_app.
    destruct (decide (j = k)) as [->|Hne].
    + rewrite list_lookup_insert_eq in Hj by (by eapply lookup_lt_Some). injection Hj as <-.
      rewrite Hq, filter_cons_True by done. cbn [fmap list_fmap filter list_filter].
      fold (landed_at s k). rewrite (I3 k p Ek). by rewrite (assoc_L (++)).
    + rewrite list_lookup_insert_ne in Hj by done. rewrite filter_cons_False by (cbn; congruence). cbn.
      rewrite app_nil_r. by apply I3.
  - intros j m. rewrite elem_of_app, list_elem_of_singleton. intros [H|[= -> ->]]; [by eapply I4|done].
Qed.

Lemma send_after_wakes_inv s idle s' : send_after_wakes s idle = Some s' → net_inv s → net_inv s'.
Proof.
  unfold send_after_wakes. intros E. destruct (earliest (in_flight s)) as [i|]; [|done]. cbn [mbind option_bind] in E.
  destruct (in_flight s !! i) as [f|] eqn:Hf; [|done]. cbn [mbind option_bind] in E.
  destruct (timer_fires s idle (f_due f)) as [t|]; [|done]. cbn [mbind option_bind] in E.
  by eapply (finish_send_inv s i f _ s' Hf); [..|exact E].
Qed.

(** ** Receiving *)

Lemma set_port_inv s t i p p' :
  ports s !! i = Some p → queue p' = queue p → net_inv s → net_inv (set_port (advance s t) i p').
Proof. intros Hp Hq Hi. eapply net_inv_ext; [exact Hi|by apply (set_port_queue _ _ p)|done..]. Qed.

Lemma set_port_inv' s i p p' :
  ports s !! i = Some p → queue p' = queue p → net_inv s → net_inv (set_port s i p').
Proof. intros Hp Hq Hi. eapply net_inv_ext; [exact Hi|by apply (set_port_queue _ _ p)|done..]. Qed.

Lemma receive_resolves_inv s i r s' : receive_resolves s i = Some (r, s') → net_inv s → net_inv s'.
Proof.
  unfold receive_resolves. intros E Hi. destruct (ports s !! i) as [p|] eqn:Hp; [|done]. cbn in E.
  destruct (receiver p); try done. destruct (messageq_ p) as [|x q] eqn:Hq.
  { injection E as _ <-. eapply set_port_inv'; [done|apply receive_test_queue|done]. }
  injection E as _ <-. destruct Hi as [I1 I2 I3 I4].
  set (p' := Port q (receivable_ p) (receive_delay_ p) R_idle).
  assert (Hqq : queue p = x.1 :: queue p') by (unfold queue; by rewrite Hq).
  split; cbn; try done.
  - rewrite I2. unfold accounted, queued. cbn. destruct (bind_insert queue _ i p p' Hp) as (a & b & E1 & E2).
    rewrite E1, E2, Hqq, fmap_app. cbn. permute.
  - intros j q' Hj. unfold received_at. cbn. rewrite filter_app, fmap_app. destruct (decide (j = i)) as [->|Hne].
    + rewrite list_lookup_insert_eq in Hj by (by eapply lookup_lt_Some). injection Hj as <-.
      rewrite filter_cons_True by done. cbn [fmap list_fmap filter list_filter].
      rewrite <-(assoc_L (++)). unfold landed_at in I3. cbn. rewrite (I3 i p Hp), Hqq. done.
    + rewrite list_lookup_insert_ne in Hj by done. rewrite filter_cons_False by (cbn; congruence).
      cbn [fmap list_fmap filter list_filter]. rewrite app_nil_r. by apply I3.
Qed.

Lemma advance_inv s t : net_inv s → net_inv (advance s t).
Proof. intros Hi. by eapply net_inv_ext. Qed.

(** ** All commands *)

Lemma set_channel_inv s c ch : net_inv s → net_inv (set_channel s c ch).
Proof. intros Hi. by eapply net_inv_ext. Qed.

Lemma run_command_inv s c s' : run_command s c = Some s' → net_inv s → net_inv s'.
Proof.
  intros E Hi. destruct c as [c x val|idle|c i|c|c q|c d|i|idle i|i|i|idle u|]; cbn [run_command] in E.
  - apply fmap_Some in E as ([s1 t] & E & ->). by eapply send_inv.
  - by eapply send_after_wakes_inv.
  - unfold connect in E. destruct (channels s !! c); [|done]. cbn in E. destruct (ports s !! i); [|done]. injection E as <-. by apply set_channel_inv.
  - unfold disconnect in E. destruct (channels s !! c); [|done]. injection E as <-. by apply set_channel_inv.
  - unfold set_loss in E. destruct (channels s !! c); [|done]. injection E as <-. by apply set_channel_inv.
  - unfold set_link_delay in E. destruct (channels s !! c); [|done]. injection E as <-. by apply set_channel_inv.
  - unfold receive in E. destruct (ports s !! i) as [p|] eqn:Hp; [|done]. cbn in E.
    destruct (receiver p); [|done..]. injection E as <-. eapply set_port_inv'; [done|apply receive_test_queue|done].
  - unfold receive_wakes in E. destruct (ports s !! i) as [p|] eqn:Hp; [|done]. cbn in E.
    destruct (receiver p); [done..| |done]. destruct (timer_fires s idle until) as [t|]; [|done]. cbn [mbind option_bind] in E. injection E as <-.
    eapply set_port_inv; [done|apply receive_test_queue|done].
  - apply fmap_Some in E as ([r s1] & E & ->). by eapply receive_resolves_inv.
  - unfold receive_cancelled in E. destruct (ports s !! i) as [p|] eqn:Hp; [|done]. injection E as <-.
    by eapply set_port_inv'.
  - apply clock_moves_advance in E as (t & ->). by apply advance_inv.
  - injection E as <-. by apply advance_inv.
Qed.

(** Every command of the run passes a test in its state. *)
Fixpoint all_along (ok : netsim A → command A → bool) s (cs : list (command A)) : bool :=
  match cs with
  | [] => true
  | c :: cs' => ok s c && match run_command s c with Some s' => all_along ok s' cs' | None => true end
  end.

(** A property of states that every command keeps holds after a run. *)
Lemma run_keeps (P : netsim A → Prop) ok :
  (∀ s c s', ok s c = true → run_command s c = Some s' → P s → P s') →
  ∀ cs s s', all_along ok s cs = true → run s cs = Some s' → P s → P s'.
Proof.
  intros H cs. induction cs as [|c cs IH]; intros s s' Hok E HP; [by injection E as <-|].
  cbn [all_along run] in *. apply andb_prop in Hok as [Hc Hcs]. destruct (run_command s c) as [s1|] eqn:E1; [|done].
  by eapply IH; [| |eapply H].
Qed.

Lemma all_along_true s cs : all_along (λ _ _, true) s cs = true.
Proof. revert s. induction cs as [|c cs IH]; intros s; [done|]. cbn. by destruct (run_command s c). Qed.

Lemma new_netsim_inv chs n t : net_inv (new_netsim chs n t).
Proof.
  assert (Hq : (replicate n (@new_port A)) ≫= queue = []) by (induction n; [done|by cbn]).
  split; cbn; try done.
  - unfold accounted, queued. cbn. by rewrite Hq.
  - by intros i p [-> _]%lookup_replicate.
  - intros i m H. inversion H.
Qed.

Lemma run_inv chs n t cs s : run (new_netsim chs n t) cs = Some s → net_inv s.
Proof.
  intros E. eapply (run_keeps net_inv (λ _ _, true)); [|apply all_along_true|exact E|apply new_netsim_inv].
  intros s1 c s2 _. apply run_command_inv.
Qed.

(** ** Order *)

Definition via (c : nat) (l : list (message A)) : list (message A) := filter (λ m, m_via m = c) l.
Definition via_flight (c : nat) fs : list (flight A) := filter (λ f, m_via (f_msg f) = c) fs.

Lemma via_app c l k : via c (l ++ k) = via c l ++ via c k.
Proof. apply filter_app. Qed.
Lemma via_flights c fs : via c (f_msg <$> fs) = f_msg <$> via_flight c fs.
Proof. unfold via, via_flight. induction fs as [|f fs IH]; [done|]. rewrite fmap_cons, !filter_cons, IH. by case_decide. Qed.

Lemma filter_delete_other (P : flight A → Prop) `{∀ f, Decision (P f)} fs i f :
  fs !! i = Some f → ¬ P f → filter P (delete i fs) = filter P fs.
Proof.
  revert i. induction fs as [|g fs IH]; intros [|i]; cbn [lookup list_lookup]; try done.
  - intros [= ->] Hn. cbn [delete list_delete]. by rewrite filter_cons_False.
  - intros Hf Hn. change (delete (S i) (g :: fs)) with (g :: delete i fs). rewrite !filter_cons, (IH i) by done. done.
Qed.

Lemma filter_delete_first (P : flight A → Prop) `{∀ f, Decision (P f)} fs i f :
  fs !! i = Some f → P f → (∀ j g, (j < i)%nat → fs !! j = Some g → ¬ P g) →
  filter P fs = f :: filter P (delete i fs).
Proof.
  revert i. induction fs as [|g fs IH]; intros [|i]; cbn [lookup list_lookup]; try done.
  - intros [= ->] HP _. cbn [delete list_delete]. by rewrite filter_cons_True.
  - intros Hf HP Hlt. change (delete (S i) (g :: fs)) with (g :: delete i fs).
    assert (¬ P g) by (by apply (Hlt O); [lia|]). rewrite !filter_cons_False by done. apply IH; [done..|].
    intros j h Hj Hh. by apply (Hlt (S j)); [lia|].
Qed.

(** The flights of a channel whose delay is fixed are due in the order they
    were sent. *)
Record fifo_inv (c : nat) (d : Z) s : Prop := {
  fifo_delay : ∀ ch, channels s !! c = Some ch → link_delay_ ch = d;
  fifo_sorted : StronglySorted lt (m_id <$> (via c (snd <$> landed s) ++ via c (f_msg <$> in_flight s)));
  fifo_below : Forall (λ f, (m_id (f_msg f) < length (sent s))%nat) (in_flight s);
  fifo_landed : Forall (λ m, (m_id m < length (sent s))%nat) (snd <$> landed s);
  fifo_due : ∀ i j f g, (i < j)%nat → in_flight s !! i = Some f → in_flight s !! j = Some g →
               m_via (f_msg f) = c → m_via (f_msg g) = c → f_due f ≤ f_due g;
  fifo_soon : Forall (λ f, m_via (f_msg f) = c → f_due f ≤ now s + d) (in_flight s)
}.

(** The command leaves the delay of the channel as it is and does not put the
    clock back. *)
Definition keeps_delay (c : nat) (cmd : command A) : bool :=
  match cmd with C_set_link_delay c' _ => negb (c' =? c)%nat | _ => true end.
Definition clock_forward s (cmd : command A) : bool :=
  match run_command s cmd with Some s' => now s <=? now s' | None => true end.
Definition in_step (c : nat) s (cmd : command A) : bool := keeps_delay c cmd && clock_forward s cmd.

(** Steps that only touch ports, the clock and channels other than in their
    delays. *)
Lemma fifo_ext c d s s' :
  fifo_inv c d s → (∀ ch, channels s' !! c = Some ch → link_delay_ ch = d) → in_flight s' = in_flight s →
  sent s' = sent s → landed s' = landed s → now s ≤ now s' → fifo_inv c d s'.
Proof.
  intros [F1 F2 F3 F4 F5 F6] Hd Hf Hs Hl Hn. split; rewrite ?Hf, ?Hs, ?Hl; try done.
  eapply Forall_impl; [exact F6|]. intros f H Hc. specialize (H Hc). lia.
Qed.

Lemma sorted_snoc (l : list nat) n : StronglySorted lt l → Forall (λ k, (k < n)%nat) l → StronglySorted lt (l ++ [n]).
Proof.
  induction 1 as [|x l Hl IH Hx]; intros Hn; [repeat constructor|]. apply Forall_cons in Hn as [Hxn Hn].
  cbn. constructor; [by apply IH|]. apply Forall_app. split; [done|by repeat constructor].
Qed.

Lemma sorted_sublist (l k : list nat) : l `sublist_of` k → StronglySorted lt k → StronglySorted lt l.
Proof.
  induction 1 as [|x l k Hs IH|x l k Hs IH]; intros Hk; [constructor| |]; inversion Hk; subst; [|by apply IH].
  constructor; [by apply IH|]. apply Forall_forall. intros y Hy. eapply Forall_forall; [done|].
  eapply elem_of_submseteq; [exact Hy|by apply sublist_submseteq].
Qed.

Lemma send_fifo c d s c0 x val s' t : send s c0 x val = Some (s', t) → fifo_inv c d s → fifo_inv c d s'.
Proof.
  unfold send. intros E [F1 F2 F3 F4 F5 F6]. destruct (channels s !! c0) as [ch|] eqn:Ech; [|done]. cbn in E.
  set (m := Message x c0 (length (sent s))) in *. injection E as E _.
  assert (Hlt : ∀ k, (k < length (sent s))%nat → (k < length (sent s ++ [m]))%nat) by (intros k; rewrite length_app; cbn; lia).
  assert (H4 : Forall (λ m', (m_id m' < length (sent s ++ [m]))%nat) (snd <$> landed s)).
  { eapply Forall_impl; [exact F4|]. intros ?. apply Hlt. }
  assert (H3 : Forall (λ f, (m_id (f_msg f) < length (sent s ++ [m]))%nat) (in_flight s)).
  { eapply Forall_impl; [exact F3|]. intros ?. apply Hlt. }
  destruct (_ && _); subst s'; split; fields; try done.
  - rewrite (fmap_app f_msg), via_app, (assoc_L (++)), fmap_app. cbn [fmap list_fmap f_msg]. unfold via at 3. rewrite filter_cons.
    case_decide; [|by cbn; rewrite app_nil_r]. cbn. apply sorted_snoc; [done|].
    rewrite fmap_app, Forall_app, !Forall_fmap. split; apply Forall_forall; intros m' [_ Hm']%list_elem_of_filter; cbn.
    + by eapply Forall_forall in F4.
    + apply list_elem_of_fmap in Hm' as (f & -> & Hf). by eapply Forall_forall in F3.
  - apply Forall_app. split; [done|]. repeat constructor. cbn. rewrite length_app. cbn. lia.
  - intros i j f g Hij Hf Hg Hcf Hcg. apply lookup_app_Some in Hg as [Hg|[Hj Hg]].
    + rewrite lookup_app_l in Hf by (apply lookup_lt_Some in Hg; lia). by apply (F5 i j).
    + apply list_lookup_singleton_Some in Hg as [Hj0 <-]. rewrite lookup_app_l in Hf by lia.
      cbn in Hcg |- *. subst c0. rewrite (F1 ch Ech). apply list_elem_of_lookup_2 in Hf.
      eapply Forall_forall in F6; [|exact Hf]. by apply F6.
  - apply Forall_app. split; [done|]. repeat constructor. cbn. intros ->. rewrite (F1 ch Ech). lia.
Qed.

Lemma finish_send_now s f s' : finish_send s f = Some s' → now s' = now s.
Proof.
  unfold finish_send. intros E. destruct (channels s !! _) as [ch|]; [|done]. cbn [mbind option_bind] in E.
  destruct (destination_ ch); [|by injection E as <-]. destruct (negb _); [by injection E as <-|].
  destruct (ports s !! _); [|done]. cbn [mbind option_bind] in E. by injection E as <-.
Qed.

Lemma send_after_fifo c d s idle s' :
  send_after_wakes s idle = Some s' → now s ≤ now s' → fifo_inv c d s → fifo_inv c d s'.
Proof.
  unfold send_after_wakes. intros E Hnow [F1 F2 F3 F4 F5 F6].
  destruct (earliest (in_flight s)) as [i|] eqn:Ei; [|done]. cbn [mbind option_bind] in E.
  destruct (earliest_spec _ _ Ei) as (f & Hf & _ & Hfirst). rewrite Hf in E. cbn [mbind option_bind] in E.
  destruct (timer_fires s idle (f_due f)) as [t|]; [|done]. cbn [mbind option_bind] in E.
  assert (Hinc : ∀ g, g ∈ delete i (in_flight s) → g ∈ in_flight s).
  { intros g Hg. eapply elem_of_submseteq; [exact Hg|]. apply sublist_submseteq, sublist_delete. }
  assert (H3 : Forall (λ f, (m_id (f_msg f) < length (sent s))%nat) (delete i (in_flight s))).
  { apply Forall_forall. intros g Hg. eapply Forall_forall in F3; [exact F3|by apply Hinc]. }
  assert (H5 : ∀ k j g h, (k < j)%nat → delete i (in_flight s) !! k = Some g → delete i (in_flight s) !! j = Some h →
               m_via (f_msg g) = c → m_via (f_msg h) = c → f_due g ≤ f_due h).
  { intros k j g h Hkj. rewrite !list_lookup_delete. intros Hg Hh.
    eapply (F5 _ _ g h); [|exact Hg|exact Hh]. repeat case_decide; lia. }
  pose proof (finish_send_now _ _ _ E) as Ht. cbn in Ht.
  assert (H6 : Forall (λ g, m_via (f_msg g) = c → f_due g ≤ t + d) (delete i (in_flight s))).
  { apply Forall_forall. intros g Hg Hc. eapply Forall_forall in F6; [|by apply Hinc]. specialize (F6 Hc). lia. }
  assert (Hfl : (m_id (f_msg f) < length (sent s))%nat).
  { eapply Forall_forall in F3; [exact F3|]. by eapply list_elem_of_lookup_2. }
  assert (Hcases : (m_via (f_msg f) ≠ c ∧ via_flight c (delete i (in_flight s)) = via_flight c (in_flight s)) ∨
                   (m_via (f_msg f) = c ∧ via_flight c (in_flight s) = f :: via_flight c (delete i (in_flight s)))).
  { unfold via_flight. destruct (decide (m_via (f_msg f) = c)) as [Hc|Hc]; [right|left]; (split; [done|]).
    - apply filter_delete_first; [done..|]. intros j g Hj Hg Hcg. pose proof (Hfirst j g Hj Hg).
      pose proof (F5 j i g f Hj Hg Hf Hcg Hc). lia.
    - by apply (filter_delete_other _ _ _ f). }
  assert (Hdrop : StronglySorted lt (m_id <$> (via c (snd <$> landed s) ++ via c (f_msg <$> delete i (in_flight s))))).
  { eapply sorted_sublist; [|exact F2]. rewrite !via_flights. destruct Hcases as [[_ ->]|[_ ->]]; [done|].
    apply fmap_sublist, sublist_app; [done|]. apply sublist_cons. done. }
  unfold finish_send in E. cbn [channels ports landed sent in_flight] in E.
  destruct (channels s !! m_via (f_msg f)) as [ch|]; [|done]. cbn [mbind option_bind] in E.
  destruct (destination_ ch) as [k|]; [|by injection E as <-; split].
  destruct (negb _); [by injection E as <-; split|].
  destruct (ports s !! k) as [p|]; [|done]. cbn in E. injection E as <-. split; fields; try done.
  - rewrite (fmap_app snd), via_app. cbn [fmap list_fmap snd]. unfold via at 2. rewrite filter_cons.
    destruct Hcases as [[Hc E1]|[Hc E1]]; [rewrite decide_False by done|rewrite decide_True by done]; cbn.
    + by rewrite app_nil_r.
    + rewrite <-(assoc_L (++)). rewrite via_flights, E1 in F2. rewrite via_flights. exact F2.
  - rewrite fmap_app, Forall_app. split; [done|]. by repeat constructor.
Qed.

Lemma run_command_fifo c d s cmd s' :
  in_step c s cmd = true → run_command s cmd = Some s' → fifo_inv c d s → fifo_inv c d s'.
Proof.
  unfold in_step, clock_forward. intros Hk E Hi. apply andb_prop in Hk as [Hk Ht]. rewrite E in Ht. apply Z.leb_le in Ht.
  assert (Hch : ∀ c0 ch ch', channels s !! c0 = Some ch → (c0 = c → link_delay_ ch' = link_delay_ ch) →
            fifo_inv c d (set_channel s c0 ch')).
  { intros c0 ch ch' Hch Hd. eapply fifo_ext; [exact Hi| |done..]. cbn. intros ch1 H1.
    destruct (decide (c0 = c)) as [->|Hne].
    - rewrite list_lookup_insert_eq in H1 by (by eapply lookup_lt_Some). injection H1 as <-.
      rewrite Hd by done. by apply (fifo_delay c d s Hi).
    - rewrite list_lookup_insert_ne in H1 by done. by apply (fifo_delay c d s Hi). }
  assert (Hp : ∀ t i p', now s ≤ t → fifo_inv c d (set_port (advance s t) i p')).
  { intros t i p' Hst. eapply fifo_ext; [exact Hi|apply (fifo_delay c d s Hi)|done..]. }
  assert (Hp' : ∀ i p', fifo_inv c d (set_port s i p')).
  { intros i p'. eapply fifo_ext; [exact Hi|apply (fifo_delay c d s Hi)|done..]. }
  destruct cmd as [c0 x val|idle|c0 i|c0|c0 q|c0 d0|i|idle i|i|i|idle u|]; cbn [run_command] in E.
  - apply fmap_Some in E as ([s1 t] & E & ->). by eapply send_fifo.
  - by eapply send_after_fifo.
  - unfold connect in E. destruct (channels s !! c0) eqn:Ec; [|done]. cbn in E.
    destruct (ports s !! i); [|done]. injection E as <-. by eapply Hch.
  - unfold disconnect in E. destruct (channels s !! c0) eqn:Ec; [|done]. injection E as <-. by eapply Hch.
  - unfold set_loss in E. destruct (channels s !! c0) eqn:Ec; [|done]. injection E as <-. by eapply Hch.
  - unfold set_link_delay in E. destruct (channels s !! c0) eqn:Ec; [|done]. injection E as <-.
    cbn in Hk. apply negb_true_iff, Nat.eqb_neq in Hk. by eapply Hch.
  - unfold receive in E. destruct (ports s !! i) as [p|]; [|done]. cbn in E.
    destruct (receiver p); [|done..]. by injection E as <-.
  - unfold receive_wakes in E. destruct (ports s !! i) as [p|]; [|done]. cbn in E.
    destruct (receiver p); [done..| |done]. destruct (timer_fires s idle until) as [t|]; [|done]. cbn [mbind option_bind] in E.
    injection E as <-. by apply Hp.
  - apply fmap_Some in E as ([r s1] & E & ->). unfold receive_resolves in E.
    destruct (ports s !! i) as [p|]; [|done]. cbn in E. destruct (receiver p); [done..|].
    destruct (messageq_ p); injection E as _ <-; [apply Hp'|]. by eapply fifo_ext; [exact Hi|apply (fifo_delay c d s Hi)|..].
  - unfold receive_cancelled in E. destruct (ports s !! i) as [p|]; [|done]. by injection E as <-.
  - apply clock_moves_advance in E as (t & ->). by eapply fifo_ext; [exact Hi|apply (fifo_delay c d s Hi)|..].
  - injection E as <-. by eapply fifo_ext; [exact Hi|apply (fifo_delay c d s Hi)|..].
Qed.

Lemma new_netsim_fifo c chs n t : fifo_inv c 5000000 (new_netsim chs n t).
Proof.
  split; cbn; try done; try constructor. intros ch H. rewrite list_lookup_fmap in H.
  by apply fmap_Some in H as ([dst id] & _ & ->).
Qed.

(** Messages of one channel are received in the order they were sent, and
    none is received twice, however the network is driven and whatever the
    channel's loss, connections and receivers, as long as its delay is not
    changed and the clock is not put back. *)
Theorem channel_is_fifo (chs : list (option nat * txt)) (n : nat) (t : Z) (cs : list (command A)) s c i p :
  all_along (in_step c) (new_netsim chs n t) cs = true → run (new_netsim chs n t) cs = Some s → ports s !! i = Some p →
  StronglySorted lt (m_id <$> via c (received_at s i ++ queue p)).
Proof.
  intros Hk E Hp. pose proof (run_inv chs n t cs s E) as Hi.
  assert (Hf : fifo_inv c 5000000 s).
  { eapply (run_keeps (fifo_inv c 5000000) (in_step c)); [|exact Hk|exact E|apply new_netsim_fifo].
    intros ? ? ?. apply run_command_fifo. }
  rewrite <-(inv_order s Hi i p Hp). eapply sorted_sublist; [|exact (fifo_sorted c 5000000 s Hf)].
  apply fmap_sublist. apply sublist_inserts_r. unfold landed_at, via.
  induction (landed s) as [|[j m] l IH]; [done|]. rewrite filter_cons, fmap_cons.
  case_decide; rewrite ?fmap_cons, !filter_cons; cbn [snd]; case_decide; try done;
    [by apply sublist_skip|by apply sublist_cons].
Qed.

(** No message is duplicated or forged, and none disappears unrecorded: at any
    time every message sent is in exactly one place - lost by the coin of its
    channel, on its way, dropped on arrival because the channel was
    reconnected, in the queue of a port, or received. *)
Theorem messages_conserved (chs : list (option nat * txt)) (n : nat) (t : Z) (cs : list (command A)) s :
  run (new_netsim chs n t) cs = Some s → sent s ≡ₚ accounted s ∧ NoDup (m_id <$> accounted s).
Proof.
  intros E. destruct (run_inv chs n t cs s E) as [I1 I2 I3 I4]. split; [done|]. rewrite <-I2, I1. apply NoDup_seq.
Qed.

(** ** Reconnection *)

Definition reconnects_channel (c : nat) (cmd : command A) : bool :=
  match cmd with
  | C_connect c' _ | C_disconnect c' => (c' =? c)%nat
  | _ => false
  end.
Definition reconnections (c : nat) (cs : list (command A)) : nat := length (filter (λ x, reconnects_channel c x = true) cs).

(** The versions of the flights of a channel do not exceed its own; the flights
    of the first [n0] messages are older than [v0], and those of them that
    landed did so before, in [old]. *)
Record version_inv (c n0 : nat) (v0 : Z) (old : list (nat * message A)) (k : nat) s : Prop := {
  ver_channel : ∀ ch, channels s !! c = Some ch → v0 ≤ destination_version_ ch ≤ Z.of_nat k;
  ver_flights : ∀ f, f ∈ in_flight s → m_via (f_msg f) = c →
                  (∀ ch, channels s !! c = Some ch → f_version f ≤ destination_version_ ch) ∧
                  ((m_id (f_msg f) < n0)%nat → f_version f < v0);
  ver_sent : (n0 ≤ length (sent s))%nat;
  ver_landed : ∀ j m, (j, m) ∈ landed s → m_via m = c → (m_id m < n0)%nat → (j, m) ∈ old
}.

Lemma version_ext c n0 v0 old k s s' :
  version_inv c n0 v0 old k s →
  destination_version_ <$> channels s' !! c = destination_version_ <$> channels s !! c → in_flight s' = in_flight s →
  sent s' = sent s → landed s' = landed s → version_inv c n0 v0 old k s'.
Proof.
  intros [V1 V2 V3 V4] Hc Hf Hs Hl.
  assert (Hch : ∀ ch', channels s' !! c = Some ch' →
            ∃ ch, channels s !! c = Some ch ∧ destination_version_ ch' = destination_version_ ch).
  { intros ch' H. rewrite H in Hc. symmetry in Hc. apply fmap_Some in Hc as (ch & H1 & H2). by exists ch. }
  split; rewrite ?Hf, ?Hs, ?Hl; [..|done|done].
  - intros ch' H. destruct (Hch ch' H) as (ch & H1 & ->). by apply V1.
  - intros f H1 H2. destruct (V2 f H1 H2) as [A1 A2]. split; [|done].
    intros ch' H. destruct (Hch ch' H) as (ch & H3 & ->). by apply A1.
Qed.

(** Reconnecting raises the version. *)
Lemma version_raise c n0 v0 old k s ch ch' c0 :
  version_inv c n0 v0 old k s → channels s !! c0 = Some ch →
  destination_version_ ch' = u32 (destination_version_ ch + 1) →
  0 ≤ v0 → Z.of_nat (if (c0 =? c)%nat then k + 1 else k) < two32 →
  version_inv c n0 v0 old (if (c0 =? c)%nat then k + 1 else k) (set_channel s c0 ch').
Proof.
  intros Hi Hch Hv Hv0 Hk. destruct (Nat.eqb_spec c0 c) as [->|Hne].
  - destruct Hi as [V1 V2 V3 V4]. pose proof (V1 ch Hch) as H1.
    assert (Hup : destination_version_ ch' = destination_version_ ch + 1).
    { rewrite Hv. unfold u32. rewrite Z.mod_small; lia. }
    split; cbn [set_channel channels in_flight sent landed]; try done.
    + intros ch1 H. rewrite list_lookup_insert_eq in H by (by eapply lookup_lt_Some). injection H as <-. lia.
    + intros f Hf Hc. destruct (V2 f Hf Hc) as [A1 A2]. split; [|done]. intros ch1 H.
      rewrite list_lookup_insert_eq in H by (by eapply lookup_lt_Some). injection H as <-. specialize (A1 ch Hch). lia.
  - eapply version_ext; [exact Hi|cbn; by rewrite list_lookup_insert_ne|done..].
Qed.

Lemma set_channel_version c n0 v0 old k s c0 ch ch' :
  version_inv c n0 v0 old k s → channels s !! c0 = Some ch → destination_version_ ch' = destination_version_ ch →
  version_inv c n0 v0 old k (set_channel s c0 ch').
Proof.
  intros Hi Hch Hv. eapply version_ext; [exact Hi| |done..]. cbn. destruct (decide (c0 = c)) as [->|Hne].
  - rewrite list_lookup_insert_eq by (by eapply lookup_lt_Some). rewrite Hch. cbn. by rewrite Hv.
  - by rewrite list_lookup_insert_ne.
Qed.

Lemma send_version c n0 v0 old k s c0 x val s' t :
  send s c0 x val = Some (s', t) → version_inv c n0 v0 old k s → version_inv c n0 v0 old k s'.
Proof.
  unfold send. intros E [V1 V2 V3 V4]. destruct (channels s !! c0) as [ch|] eqn:Ech; [|done]. cbn in E. injection E as E _.
  destruct (_ && _); subst s'; split; fields; rewrite ?length_app; cbn; try done; try lia.
  intros f [Hf|Hf]%elem_of_app Hc; [by apply V2|]. apply list_elem_of_singleton in Hf as ->. cbn in Hc |- *. subst c0. split.
  - intros ch'. rewrite Ech. intros [= <-]. lia.
  - lia.
Qed.

Lemma send_after_version c n0 v0 old k s idle s' :
  send_after_wakes s idle = Some s' → version_inv c n0 v0 old k s → version_inv c n0 v0 old k s'.
Proof.
  unfold send_after_wakes. intros E [V1 V2 V3 V4].
  destruct (earliest (in_flight s)) as [i|]; [|done]. cbn [mbind option_bind] in E.
  destruct (in_flight s !! i) as [f|] eqn:Hf; [|done]. cbn [mbind option_bind] in E.
  destruct (timer_fires s idle (f_due f)) as [t|]; [|done]. cbn [mbind option_bind] in E.
  assert (H2 : ∀ g, g ∈ delete i (in_flight s) → m_via (f_msg g) = c →
             (∀ ch, channels s !! c = Some ch → f_version g ≤ destination_version_ ch) ∧
             ((m_id (f_msg g) < n0)%nat → f_version g < v0)).
  { intros g Hg. apply V2. eapply elem_of_submseteq; [exact Hg|]. apply sublist_submseteq, sublist_delete. }
  unfold finish_send in E. cbn [channels ports landed sent in_flight] in E.
  destruct (channels s !! m_via (f_msg f)) as [ch|] eqn:Ech; [|done]. cbn [mbind option_bind] in E.
  destruct (destination_ ch) as [p|]; [|by injection E as <-; split].
  destruct (Z.eqb_spec (f_version f) (destination_version_ ch)) as [Ev|Ev]; [|by injection E as <-; split].
  cbn [negb] in E. destruct (ports s !! p) as [q|]; [|done]. cbn in E. injection E as <-. split; fields; try done.
  intros j m [Hm|Hm]%elem_of_app Hc Hid; [by apply V4|]. apply list_elem_of_singleton in Hm as [= -> ->].
  apply list_elem_of_lookup_2 in Hf. destruct (V2 f Hf Hc) as [_ A2]. specialize (A2 Hid).
  rewrite Hc in Ech. specialize (V1 ch Ech). lia.
Qed.

Lemma run_command_version c n0 v0 old k s cmd s' :
  0 ≤ v0 → Z.of_nat (if reconnects_channel c cmd then k + 1 else k) < two32 →
  run_command s cmd = Some s' → version_inv c n0 v0 old k s →
  version_inv c n0 v0 old (if reconnects_channel c cmd then k + 1 else k) s'.
Proof.
  intros Hv Hk E Hi.
  assert (Hp : ∀ s1, channels s1 = channels s → in_flight s1 = in_flight s → sent s1 = sent s → landed s1 = landed s →
            version_inv c n0 v0 old k s1).
  { intros s1 H1 H2 H3 H4. eapply version_ext; [exact Hi|by rewrite H1|done..]. }
  destruct cmd as [c0 x val|idle|c0 i|c0|c0 q|c0 d0|i|idle i|i|i|idle u|]; cbn [run_command reconnects_channel] in *.
  - apply fmap_Some in E as ([s1 t] & E & ->). by eapply send_version.
  - by eapply send_after_version.
  - unfold connect in E. destruct (channels s !! c0) eqn:Ec; [|done]. cbn in E.
    destruct (ports s !! i); [|done]. injection E as <-.
    by eapply version_raise.
  - unfold disconnect in E. destruct (channels s !! c0) eqn:Ec; [|done]. injection E as <-.
    by eapply version_raise.
  - unfold set_loss in E. destruct (channels s !! c0) as [ch|] eqn:Ec; [|done]. injection E as <-.
    by eapply set_channel_version.
  - unfold set_link_delay in E. destruct (channels s !! c0) as [ch|] eqn:Ec; [|done]. injection E as <-.
    by eapply set_channel_version.
  - unfold receive in E. destruct (ports s !! i) as [p|]; [|done]. cbn in E.
    destruct (receiver p); [|done..]. injection E as <-. by apply Hp.
  - unfold receive_wakes in E. destruct (ports s !! i) as [p|]; [|done]. cbn in E.
    destruct (receiver p); [done..| |done]. destruct (timer_fires s idle until) as [t|]; [|done]. cbn [mbind option_bind] in E. injection E as <-. by apply Hp.
  - apply fmap_Some in E as ([r s1] & E & ->). unfold receive_resolves in E.
    destruct (ports s !! i) as [p|]; [|done]. cbn in E. destruct (receiver p); [done..|].
    destruct (messageq_ p); injection E as _ <-; by apply Hp.
  - unfold receive_cancelled in E. destruct (ports s !! i) as [p|]; [|done]. injection E as <-. by apply Hp.
  - apply clock_moves_advance in E as (t & ->). by apply Hp.
  - injection E as <-. by apply Hp.
Qed.

Lemma run_version c n0 v0 old cs s s' k :
  0 ≤ v0 → Z.of_nat (k + reconnections c cs) < two32 → run s cs = Some s' →
  version_inv c n0 v0 old k s → version_inv c n0 v0 old (k + reconnections c cs) s'.
Proof.
  intros Hv. revert s k. induction cs as [|cmd cs IH]; intros s k Hk E Hi.
  { injection E as <-. by rewrite Nat.add_0_r. }
  unfold reconnections in *. rewrite filter_cons in *. cbn [run] in E.
  destruct (run_command s cmd) as [s1|] eqn:E1; [|done]. cbn [mbind option_bind] in E.
  pose proof (run_command_version c n0 v0 old k s cmd s1 Hv) as H1.
  destruct (reconnects_channel c cmd) eqn:Er.
  - rewrite decide_True in * by done. cbn [length] in *. rewrite <-Nat.add_succ_comm in Hk |- *.
    apply (IH s1); [lia|done|]. rewrite <-Nat.add_1_r. apply H1; [lia|done..].
  - rewrite decide_False in * by done. apply (IH s1); [lia|done|]. apply H1; [lia|done..].
Qed.

Lemma new_netsim_version c chs n t : version_inv c 0 0 [] 0 (new_netsim chs n t).
Proof.
  split; cbn; [|set_solver|lia|set_solver].
  intros ch H. rewrite list_lookup_fmap in H. by apply fmap_Some in H as ([dst id] & _ & ->).
Qed.

(** Reconnecting or disconnecting a channel drops everything that is on its
    way: a message sent before is received only if it had arrived already.  The
    version counter has 32 bits, so the channel is reconnected fewer than 2^32
    times. *)
Theorem reconnect_drops (chs : list (option nat * txt)) (n : nat) (t : Z) (cs cs' : list (command A)) (c : nat)
    (cmd : command A) s s1 s2 :
  run (new_netsim chs n t) cs = Some s → reconnects_channel c cmd = true → run_command s cmd = Some s1 →
  run s1 cs' = Some s2 → Z.of_nat (reconnections c cs + 1 + reconnections c cs') < two32 →
  ∀ j m, (j, m) ∈ landed s2 → m_via m = c → (m_id m < length (sent s))%nat → (j, m) ∈ landed s.
Proof.
  intros E0 Hcmd E1 E2 Hk.
  pose proof (run_version c 0 0 [] cs (new_netsim chs n t) s 0) as H0.
  specialize (H0 ltac:(lia) ltac:(lia) E0 (new_netsim_version c chs n t)). cbn in H0.
  destruct (channels s !! c) as [ch|] eqn:Ech.
  2:{ destruct cmd; cbn in Hcmd; try done; apply Nat.eqb_eq in Hcmd as ->; cbn in E1; unfold connect, disconnect in E1;
      by rewrite Ech in E1. }
  set (v0 := destination_version_ ch + 1).
  pose proof (ver_channel _ _ _ _ _ _ H0 ch Ech) as Hv.
  assert (H1 : version_inv c (length (sent s)) v0 (landed s) (reconnections c cs + 1) s1).
  { assert (Hset : ∀ ch', destination_version_ ch' = v0 →
              version_inv c (length (sent s)) v0 (landed s) (reconnections c cs + 1) (set_channel s c ch')).
    { intros ch' Hv'. split; cbn; try done.
      - intros ch1 H. rewrite list_lookup_insert_eq in H by (by eapply lookup_lt_Some). injection H as <-. lia.
      - intros f Hf Hc. destruct (ver_flights _ _ _ _ _ _ H0 f Hf Hc) as [A1 _]. specialize (A1 ch Ech).
        split; [|lia]. intros ch1 H. rewrite list_lookup_insert_eq in H by (by eapply lookup_lt_Some).
        injection H as <-. lia. }
    assert (Hu : u32 (destination_version_ ch + 1) = v0).
    { unfold u32. rewrite Z.mod_small; [done|]. lia. }
    destruct cmd; cbn in Hcmd; try done; apply Nat.eqb_eq in Hcmd as ->; cbn in E1; unfold connect, disconnect in E1;
      rewrite Ech in E1; cbn in E1; try (destruct (ports s !! i); [|done]); injection E1 as <-; by apply Hset. }
  pose proof (run_version c _ v0 (landed s) cs' s1 s2 _ ltac:(lia) Hk E2 H1) as H2.
  apply (ver_landed _ _ _ _ _ _ H2).
Qed.

(** ** Progress *)

Record live_inv s : Prop := {
  live_dest : ∀ c ch i, channels s !! c = Some ch → destination_ ch = Some i → (i < length (ports s))%nat;
  live_flight : ∀ f, f ∈ in_flight s → (m_via (f_msg f) < length (channels s))%nat;
  live_wait : ∀ i p, ports s !! i = Some p → receiver p = R_wait → messageq_ p = []
}.

Lemma live_set_port s t i p' :
  live_inv s → (receiver p' = R_wait → messageq_ p' = []) → live_inv (set_port (advance s t) i p').
Proof.
  intros [L1 L2 L3] Hw. split; cbn; rewrite ?length_insert; try done.
  intros j p Hp. destruct (decide (j = i)) as [->|Hne]; [|rewrite list_lookup_insert_ne in Hp by done; by eapply L3].
  pose proof (lookup_lt_Some _ _ _ Hp) as Hlt. rewrite length_insert in Hlt.
  rewrite list_lookup_insert_eq in Hp by done. by injection Hp as <-.
Qed.

Lemma advance_now s : advance s (now s) = s.
Proof. by destruct s. Qed.

Lemma live_set_port' s i p' : live_inv s → (receiver p' = R_wait → messageq_ p' = []) → live_inv (set_port s i p').
Proof. intros. rewrite <-(advance_now s). by apply live_set_port. Qed.

Lemma live_set_channel s c ch' :
  live_inv s → (∀ i, destination_ ch' = Some i → (i < length (ports s))%nat) → live_inv (set_channel s c ch').
Proof.
  intros [L1 L2 L3] Hd. split; cbn; rewrite ?length_insert; try done.
  intros k ch i Hk. destruct (decide (k = c)) as [->|Hne]; [|rewrite list_lookup_insert_ne in Hk by done; by eapply L1].
  pose proof (lookup_lt_Some _ _ _ Hk) as Hlt. rewrite length_insert in Hlt.
  rewrite list_lookup_insert_eq in Hk by done. injection Hk as <-. apply Hd.
Qed.

Lemma receive_test_live p : receiver (receive_test p) = R_wait → messageq_ (receive_test p) = [].
Proof. unfold receive_test. by case_bool_decide. Qed.

Lemma send_after_live s idle s' : send_after_wakes s idle = Some s' → live_inv s → live_inv s'.
Proof.
  unfold send_after_wakes. intros E [L1 L2 L3].
  destruct (earliest (in_flight s)) as [i|]; [|done]. cbn [mbind option_bind] in E.
  destruct (in_flight s !! i) as [f|] eqn:Hf; [|done]. cbn [mbind option_bind] in E.
  destruct (timer_fires s idle (f_due f)) as [t|]; [|done]. cbn [mbind option_bind] in E.
  assert (H2 : ∀ g, g ∈ delete i (in_flight s) → (m_via (f_msg g) < length (channels s))%nat).
  { intros g Hg. apply L2. eapply elem_of_submseteq; [exact Hg|]. apply sublist_submseteq, sublist_delete. }
  unfold finish_send in E. cbn [channels ports landed sent in_flight] in E.
  destruct (channels s !! m_via (f_msg f)) as [ch|]; [|done]. cbn [mbind option_bind] in E.
  destruct (destination_ ch) as [k|]; [|by injection E as <-; split].
  destruct (negb _); [by injection E as <-; split|].
  destruct (ports s !! k) as [p|] eqn:Ek; [|done]. cbn in E. injection E as <-. split; fields; rewrite ?length_insert; try done.
  intros j q Hq. destruct (decide (j = k)) as [->|Hne].
  - rewrite list_lookup_insert_eq in Hq by (by eapply lookup_lt_Some). injection Hq as <-.
    unfold trigger_receivable. cbn. by destruct (receiver p).
  - rewrite list_lookup_insert_ne in Hq by done. by eapply L3.
Qed.

Lemma run_command_live s cmd s' : run_command s cmd = Some s' → live_inv s → live_inv s'.
Proof.
  intros E Hi. destruct cmd as [c x val|idle|c i|c|c q|c d|i|idle i|i|i|idle u|]; cbn [run_command] in E.
  - apply fmap_Some in E as ([s1 t] & E & ->). unfold send in E. destruct (channels s !! c) as [ch|] eqn:Ec; [|done].
    cbn in E. injection E as E _. destruct Hi as [L1 L2 L3]. destruct (_ && _); subst s1; split; fields; try done.
    intros f [Hf|Hf]%elem_of_app; [by apply L2|]. apply list_elem_of_singleton in Hf as ->. by eapply lookup_lt_Some.
  - by eapply send_after_live.
  - unfold connect in E. destruct (channels s !! c); [|done]. cbn in E. destruct (ports s !! i) eqn:Ei; [|done].
    injection E as <-. apply live_set_channel; [done|]. intros k [= <-]. by eapply lookup_lt_Some.
  - unfold disconnect in E. destruct (channels s !! c); [|done]. injection E as <-. by apply live_set_channel.
  - unfold set_loss in E. destruct (channels s !! c) eqn:Ec; [|done]. injection E as <-.
    apply live_set_channel; [done|]. intros k Hk. by eapply (live_dest s Hi c).
  - unfold set_link_delay in E. destruct (channels s !! c) eqn:Ec; [|done]. injection E as <-.
    apply live_set_channel; [done|]. intros k Hk. by eapply (live_dest s Hi c).
  - unfold receive in E. destruct (ports s !! i) as [p|]; [|done]. cbn in E.
    destruct (receiver p); [|done..]. injection E as <-. apply live_set_port'; [done|apply receive_test_live].
  - unfold receive_wakes in E. destruct (ports s !! i) as [p|]; [|done]. cbn in E.
    destruct (receiver p); [done..| |done]. destruct (timer_fires s idle until) as [t|]; [|done]. cbn [mbind option_bind] in E. injection E as <-.
    apply live_set_port; [done|apply receive_test_live].
  - apply fmap_Some in E as ([r s1] & E & ->). unfold receive_resolves in E.
    destruct (ports s !! i) as [p|]; [|done]. cbn [mbind option_bind] in E. destruct (receiver p); [done..|].
    destruct (messageq_ p) as [|x q]; injection E as _ <-; [apply live_set_port'; [done|apply receive_test_live]|].
    cbn. assert (H := live_set_port' s i (Port q (receivable_ p) (receive_delay_ p) R_idle) Hi ltac:(done)).
    by destruct H as [L1 L2 L3].
  - unfold receive_cancelled in E. destruct (ports s !! i) as [p|]; [|done]. injection E as <-. by apply live_set_port'.
  - apply clock_moves_advance in E as (t & ->). by destruct Hi as [L1 L2 L3].
  - injection E as <-. by destruct Hi as [L1 L2 L3].
Qed.

Lemma run_live chs n t cs s :
  Forall (λ c, ∀ i, c.1 = Some i → (i < n)%nat) chs → run (new_netsim chs n t) cs = Some s → live_inv s.
Proof.
  intros Hd E. eapply (run_keeps live_inv (λ _ _, true)); [|apply all_along_true|exact E|].
  - intros s1 c s2 _. apply run_command_live.
  - split; cbn.
    + intros c ch i H. rewrite list_lookup_fmap in H. apply fmap_Some in H as ([dst id] & H & ->). cbn.
      rewrite length_replicate. intros ->. eapply Forall_lookup_1 in Hd; [|exact H]. by apply Hd.
    + set_solver.
    + by intros i p [-> _]%lookup_replicate.
Qed.

(** The network never gets stuck: a message on its way can always complete
    its journey when it is the next timer, and a port with messages that is
    being received from hands over its first message, at once or after its
    delay; it never sleeps on a wakeup that has happened. *)
Theorem receiver_progress (chs : list (option nat * txt)) (n : nat) (t : Z) (cs : list (command A)) s :
  Forall (λ c, ∀ i, c.1 = Some i → (i < n)%nat) chs → run (new_netsim chs n t) cs = Some s →
  (∀ i f, earliest (in_flight s) = Some i → in_flight s !! i = Some f → ∀ idle, is_Some (timer_fires s idle (f_due f)) →
     is_Some (send_after_wakes s idle)) ∧
  (∀ i p x q, ports s !! i = Some p → receiver p ≠ R_idle → messageq_ p = x :: q →
     (receiver p = R_resolve ∧ ∃ s', receive_resolves s i = Some (Some x, s')) ∨
     (∃ u, receiver p = R_delay u ∧
        (∀ idle, is_Some (timer_fires s idle u) →
         ∃ s' p', receive_wakes s idle i = Some s' ∧ ports s' !! i = Some p' ∧ receiver p' = R_resolve ∧
                  messageq_ p' = x :: q))).
Proof.
  intros Hd E. pose proof (run_live chs n t cs s Hd E) as Hi. split.
  - intros i f Ei Hf idle [t' Hn]. unfold send_after_wakes. rewrite Ei. cbn [mbind option_bind]. rewrite Hf. cbn [mbind option_bind].
    rewrite Hn. cbn [mbind option_bind]. unfold finish_send. fields.
    destruct (lookup_lt_is_Some_2 (channels s) (m_via (f_msg f))) as [ch Hch].
    { apply (live_flight s Hi). by eapply list_elem_of_lookup_2. }
    rewrite Hch. cbn [mbind option_bind]. destruct (destination_ ch) as [k|] eqn:Ek; [|by eexists].
    destruct (negb _); [by eexists|].
    destruct (lookup_lt_is_Some_2 (ports s) k) as [p Hp]; [by eapply (live_dest s Hi)|]. rewrite Hp. by eexists.
  - intros i p x q Hp Hr Hq. destruct (receiver p) as [| |u|] eqn:Er; [done| | |].
    + pose proof (live_wait s Hi i p Hp Er). congruence.
    + right. exists u. split; [done|]. intros idle [t' Hn]. unfold receive_wakes. rewrite Hp. cbn [mbind option_bind].
      rewrite Er, Hn. cbn [mbind option_bind]. eexists _, _. split; [done|]. cbn.
      split; [apply list_lookup_insert_eq; by eapply lookup_lt_Some|].
      unfold receive_test. rewrite bool_decide_eq_false_2 by (by rewrite Hq). by rewrite Hq.
    + left. split; [done|]. unfold receive_resolves. rewrite Hp. cbn [mbind option_bind]. rewrite Er, Hq. by eexists.
Qed.
End Laws.

(** ** A run

    Two channels to one port; the second one is reconnected while its message
    is on its way. *)
Definition two_channels : netsim Z := new_netsim [(Some O, $"a"); (Some O, $"b")] 1 0.
Definition sends : list (command Z) :=
  [C_receive 0; C_send 0 11 0; C_send 1 21 0; C_send 0 12 0; C_set_loss 0 1%Q; C_send 0 13 0].
Definition whole_run : list (command Z) := sends ++ C_connect 1 0 ::
  [C_send 1 22 0; C_send_after true; C_step_time; C_send_after false; C_step_time;
   C_send_after false; C_send_after false; C_receive_wakes true 0; C_receive_resolves 0].
Definition end_state : netsim Z :=
  match run two_channels whole_run with Some s => s | None => two_channels end.

Lemma whole_run_ok : run two_channels whole_run = Some end_state.
Proof. unfold end_state. destruct (run two_channels whole_run) eqn:E; [done|]. by vm_compute in E. Qed.

Lemma messages_conserved_witness :
  (m_body <$> sent end_state) = [11; 21; 12; 13; 22] ∧ (m_body <$> lost end_state) = [13] ∧
  (m_body <$> stale end_state) = [21] ∧ (m_body <$> queued end_state) = [12; 22] ∧
  (m_body <$> (snd <$> received end_state)) = [11] ∧
  sent end_state ≡ₚ accounted end_state ∧ NoDup (m_id <$> accounted end_state).
Proof.
  split; [by vm_compute|]. split; [by vm_compute|]. split; [by vm_compute|]. split; [by vm_compute|].
  split; [by vm_compute|]. exact (messages_conserved _ _ _ whole_run end_state whole_run_ok).
Defined.

Definition the_port : port Z := default new_port (ports end_state !! O).

Lemma channel_is_fifo_witness :
  StronglySorted lt (m_id <$> via 0 (received_at end_state 0 ++ queue the_port)) ∧
  m_body <$> via 0 (received_at end_state 0 ++ queue the_port) = [11; 12].
Proof.
  split; [|by vm_compute].
  apply (channel_is_fifo [(Some O, $"a"); (Some O, $"b")] 1 0 whole_run end_state 0 0 the_port);
    [by vm_compute|exact whole_run_ok|by vm_compute].
Defined.

(** Without it the second of two messages overtakes the first: after two
    resumed coroutines the clock is put back to a timer of the nanosecond
    before. *)
Example clock_back_overtakes :
  (λ s, m_body <$> (snd <$> landed s)) <$>
  run two_channels [C_step_time; C_step_time; C_send 0 11 0; C_clock true 1; C_send 0 12 0; C_send_after true;
    C_send_after true] = Some [12; 11].
Proof. by vm_compute. Qed.

Definition before_state : netsim Z := match run two_channels sends with Some s => s | None => two_channels end.
Definition reconnected_state : netsim Z :=
  match run_command before_state (C_connect 1 0) with Some s => s | None => two_channels end.
Definition later_state : netsim Z :=
  match run reconnected_state [C_send 1 22 0; C_send_after true; C_send_after true; C_send_after true; C_send_after true] with
  | Some s => s | None => two_channels end.

Lemma reconnect_drops_witness :
  (∀ j m, (j, m) ∈ landed later_state → m_via m = 1%nat → (m_id m < length (sent before_state))%nat →
     (j, m) ∈ landed before_state) ∧
  m_body <$> (snd <$> landed later_state) = [11; 12; 22].
Proof.
  split; [|by vm_compute].
  apply (reconnect_drops [(Some O, $"a"); (Some O, $"b")] 1 0 sends
    [C_send 1 22 0; C_send_after true; C_send_after true; C_send_after true; C_send_after true] 1 (C_connect 1 0)
    before_state reconnected_state later_state); by vm_compute.
Defined.

Lemma receiver_progress_witness :
  (∀ i f, earliest (in_flight later_state) = Some i → in_flight later_state !! i = Some f →
     ∀ idle, is_Some (timer_fires later_state idle (f_due f)) → is_Some (send_after_wakes later_state idle)) ∧
  (∀ i p x q, ports later_state !! i = Some p → receiver p ≠ R_idle → messageq_ p = x :: q →
     (receiver p = R_resolve ∧ ∃ s', receive_resolves later_state i = Some (Some x, s')) ∨
     (∃ u, receiver p = R_delay u ∧
        (∀ idle, is_Some (timer_fires later_state idle u) →
         ∃ s' p', receive_wakes later_state idle i = Some s' ∧ ports s' !! i = Some p' ∧ receiver p' = R_resolve ∧
                  messageq_ p' = x :: q))).
Proof.
  apply (receiver_progress [(Some O, $"a"); (Some O, $"b")] 1 0
    (sends ++ C_connect 1 0 :: [C_send 1 22 0; C_send_after true; C_send_after true; C_send_after true; C_send_after true])).
  - repeat (apply Forall_cons; split; [cbn; intros i [= <-]; lia|]). by apply Forall_nil.
  - by vm_compute.
Defined.
