(* ===== verification/PaxosCluster.v ===== *)
(** The replicas of [PaxosReplica.v] on the simulated network of [NetSim.v],
    wired as [pt_paxos_replica::initialize] wires them in
    [src/pset4/pt-paxos.cc], and the proof that this cluster is one of the
    behaviours of the abstract network of [PaxosNet.v].

    A replica runs one iteration of its loop when it has sent everything of the
    iteration before; its sends then leave one by one, each followed by a
    sleep of [send_delay_], interleaved with the other replicas.  Losses and delays of
    the links may change at any time, so every failure schedule is covered.
    Responses to clients leave through channels of their own, which are not
    modelled: client requests arrive at any time, and the clock moves to the next
    timer of the network or of a replica, by one nanosecond per coroutine. *)

From S2P Require Import Prelude PaxosReplica PaxosNet NetSim.
From Stdlib Require Import QArith.QArith.
#[local] Open Scope Z_scope.

Record node := Node {
  n_replica : pt_paxos_replica;
  n_outbox : list output;
  n_sleep : option Z   (* until when it waits for [send_delay_] *)
}.

Record cluster := Cluster { c_nodes : list node; c_net : netsim paxos_message }.

(** [to_replicas_[dst]] of replica [src] is channel [src * n + dst]; the port
    [from_replicas_] of a replica has the replica's index. *)
Definition chan (n src dst : nat) : nat := src * n + dst.

Definition replica_net (n : nat) : netsim paxos_message :=
  new_netsim (replicate (n * n) (None, [])) n 0.
Definition connect_all (n : nat) : list (NetSim.command paxos_message) :=
  (λ k, C_connect k (k mod n)) <$> seq 0 (n * n).
Definition wired (n : nat) : netsim paxos_message :=
  default (replica_net n) (run (replica_net n) (connect_all n)).

Definition initial_cluster (n l0 : nat) (draws : nat → list Z) : cluster :=
  Cluster ((λ r, Node r [] None) <$> w_replicas (initial_world n l0 draws)) (wired n).

(** What may happen to the network besides sends and deliveries. *)
Definition environment_command (c : NetSim.command paxos_message) : bool :=
  match c with
  | C_send_after _ | C_set_loss _ _ | C_set_link_delay _ _
  | C_receive _ | C_receive_wakes _ _ | C_receive_cancelled _ | C_clock _ _ | C_step_time => true
  | _ => false
  end.

Inductive cluster_step (n : nat) (c : cluster) : cluster → Prop :=
  | network_step cmd net :
      environment_command cmd = true → NetSim.run_command (c_net c) cmd = Some net →
      cluster_step n c (Cluster (c_nodes c) net)
  | wake_step i r outs u idle t :
      c_nodes c !! i = Some (Node r outs (Some u)) → timer_fires (c_net c) idle u = Some t →
      cluster_step n c (Cluster (<[i := Node r outs None]> (c_nodes c)) (advance (c_net c) t))
  | send_step i r dst m outs val net t :
      c_nodes c !! i = Some (Node r (to_replica dst m :: outs) None) → (dst < n)%nat →
      send (c_net c) (chan n i dst) m val = Some (net, t) →
      cluster_step n c (Cluster (<[i := Node r outs (Some t)]> (c_nodes c)) net)
  | respond_step i r resp outs t :
      c_nodes c !! i = Some (Node r (to_client resp :: outs) None) →
      cluster_step n c (Cluster (<[i := Node r outs (Some t)]> (c_nodes c)) (c_net c))
  | message_step i r m id net p :
      c_nodes c !! i = Some (Node r [] None) → batch_due (now (c_net c)) r = false →
      receive_resolves (c_net c) i = Some (Some (m, id), net) →
      p = run_iteration (now (c_net c)) (replica_wakeup (m_body m)) r →
      cluster_step n c (Cluster (<[i := Node p.1 p.2 None]> (c_nodes c)) net)
  | wakeup_step i r ev p :
      c_nodes c !! i = Some (Node r [] None) → (∀ m, ev ≠ replica_wakeup m) →
      p = run_iteration (now (c_net c)) ev r →
      cluster_step n c (Cluster (<[i := Node p.1 p.2 None]> (c_nodes c)) (c_net c)).

(** * The simulation *)

(** Every channel of the wiring ends at its port, and every message under way
    or queued has been sent to the replica it is for. *)
Record net_sent (n : nat) (net : netsim paxos_message) (w : world) : Prop := {
  ns_channels : ∀ k ch i, channels net !! k = Some ch → destination_ ch = Some i → i = (k mod n)%nat;
  ns_flights : ∀ f, f ∈ in_flight net → (m_via (f_msg f) mod n, m_body (f_msg f))%nat ∈ w_sent w;
  ns_queues : ∀ i p m, ports net !! i = Some p → m ∈ queue p → (i, m_body m) ∈ w_sent w
}.

Record simulates (n : nat) (c : cluster) (w : world) : Prop := {
  sim_replicas : w_replicas w = n_replica <$> c_nodes c;
  sim_outboxes : ∀ i nd dst m, c_nodes c !! i = Some nd → to_replica dst m ∈ n_outbox nd → (dst, m) ∈ w_sent w;
  sim_net : net_sent n (c_net c) w
}.

Lemma queue_of_set_port {A} (s : netsim A) i p p' j q :
  ports s !! i = Some p → (∀ m, m ∈ queue p' → m ∈ queue p) → <[i := p']> (ports s) !! j = Some q →
  ∃ q', ports s !! j = Some q' ∧ ∀ m, m ∈ queue q → m ∈ queue q'.
Proof.
  intros Hp Hq Hj. destruct (decide (j = i)) as [->|Hne].
  - rewrite list_lookup_insert_eq in Hj by (by eapply lookup_lt_Some). injection Hj as <-. by exists p.
  - rewrite list_lookup_insert_ne in Hj by done. by exists q.
Qed.

(** Steps that send nothing. *)
Lemma net_sent_set_port n s w t i p p' :
  net_sent n s w → ports s !! i = Some p → (∀ m, m ∈ queue p' → m ∈ queue p) →
  net_sent n (set_port (advance s t) i p') w.
Proof.
  intros [N1 N2 N3] Hp Hq. split; cbn; try done.
  intros j q m Hj Hm. destruct (queue_of_set_port s i p p' j q Hp Hq Hj) as (q' & Hq' & H). by eapply N3, H.
Qed.

Lemma net_sent_set_port' n s w i p p' :
  net_sent n s w → ports s !! i = Some p → (∀ m, m ∈ queue p' → m ∈ queue p) → net_sent n (set_port s i p') w.
Proof. intros. rewrite <-(advance_now s). by eapply net_sent_set_port. Qed.

Lemma net_sent_channel n s w k ch ch' :
  net_sent n s w → channels s !! k = Some ch → destination_ ch' = destination_ ch →
  net_sent n (set_channel s k ch') w.
Proof.
  intros [N1 N2 N3] Hk Hd. split; cbn; try done. intros k' ch1 i H Hi.
  destruct (decide (k' = k)) as [->|Hne].
  - rewrite list_lookup_insert_eq in H by (by eapply lookup_lt_Some). injection H as <-. rewrite Hd in Hi. by eapply N1.
  - rewrite list_lookup_insert_ne in H by done. by eapply N1.
Qed.

Lemma net_sent_advance n s w t : net_sent n s w → net_sent n (advance s t) w.
Proof. by intros [N1 N2 N3]. Qed.

Lemma net_sent_send_after n s idle s' w : send_after_wakes s idle = Some s' → net_sent n s w → net_sent n s' w.
Proof.
  unfold send_after_wakes. intros E [N1 N2 N3].
  destruct (earliest (in_flight s)) as [i|]; [|done]. cbn [mbind option_bind] in E.
  destruct (in_flight s !! i) as [f|] eqn:Hf; [|done]. cbn [mbind option_bind] in E.
  destruct (timer_fires s idle (f_due f)) as [t|]; [|done]. cbn [mbind option_bind] in E.
  assert (H2 : ∀ g, g ∈ delete i (in_flight s) → (m_via (f_msg g) mod n, m_body (f_msg g))%nat ∈ w_sent w).
  { intros g Hg. apply N2. eapply elem_of_submseteq; [exact Hg|]. apply sublist_submseteq, sublist_delete. }
  unfold finish_send in E. cbn [channels ports landed sent in_flight] in E.
  destruct (channels s !! m_via (f_msg f)) as [ch|] eqn:Ech; [|done]. cbn [mbind option_bind] in E.
  destruct (destination_ ch) as [k|] eqn:Ek; [|by injection E as <-; split].
  destruct (negb _); [by injection E as <-; split|].
  destruct (ports s !! k) as [p|] eqn:Ep; [|done]. cbn [mbind option_bind] in E. injection E as <-. split; fields; try done.
  intros j q m Hj Hm. destruct (decide (j = k)) as [->|Hne].
  - rewrite list_lookup_insert_eq in Hj by (by eapply lookup_lt_Some). injection Hj as <-.
    unfold queue in Hm. cbn in Hm. rewrite fmap_app in Hm. apply elem_of_app in Hm as [Hm|Hm]; [by eapply N3|].
    cbn in Hm. apply list_elem_of_singleton in Hm as ->. rewrite (N1 _ _ _ Ech Ek). apply N2.
    by eapply list_elem_of_lookup_2.
  - rewrite list_lookup_insert_ne in Hj by done. by eapply N3.
Qed.

Lemma net_sent_environment n s s' w cmd :
  environment_command cmd = true → NetSim.run_command s cmd = Some s' → net_sent n s w → net_sent n s' w.
Proof.
  intros Hc E Hi. destruct cmd as [c x val|idle|c i|c|c q|c d|i|idle i|i|i|idle u|]; cbn in Hc; try done; cbn [NetSim.run_command] in E.
  - by eapply net_sent_send_after.
  - unfold set_loss in E. destruct (channels s !! c) eqn:Ec; [|done]. injection E as <-. by eapply net_sent_channel.
  - unfold set_link_delay in E. destruct (channels s !! c) eqn:Ec; [|done]. injection E as <-. by eapply net_sent_channel.
  - unfold receive in E. destruct (ports s !! i) as [p|] eqn:Ep; [|done]. cbn [mbind option_bind] in E.
    destruct (receiver p); [|done..]. injection E as <-. eapply net_sent_set_port'; [done..|].
    intros m. by rewrite receive_test_queue.
  - unfold receive_wakes in E. destruct (ports s !! i) as [p|] eqn:Ep; [|done]. cbn [mbind option_bind] in E.
    destruct (receiver p); [done..| |done]. destruct (timer_fires s idle until) as [t|]; [|done]. cbn [mbind option_bind] in E. injection E as <-.
    eapply net_sent_set_port; [done..|]. intros m. by rewrite receive_test_queue.
  - unfold receive_cancelled in E. destruct (ports s !! i) as [p|] eqn:Ep; [|done]. injection E as <-.
    by eapply net_sent_set_port'.
  - apply clock_moves_advance in E as (t & ->). by apply net_sent_advance.
  - injection E as <-. by apply net_sent_advance.
Qed.

Lemma net_sent_send n s k x val s' t w :
  send s k x val = Some (s', t) → (k mod n, x)%nat ∈ w_sent w → net_sent n s w → net_sent n s' w.
Proof.
  unfold send. intros E Hx [N1 N2 N3]. destruct (channels s !! k) as [ch|]; [|done]. cbn [mbind option_bind] in E.
  injection E as E _. destruct (_ && _); subst s'; split; fields; try done.
  intros f [Hf|Hf]%elem_of_app; [by apply N2|]. by apply list_elem_of_singleton in Hf as ->.
Qed.

Lemma net_sent_resolve n s i x id s' w :
  receive_resolves s i = Some (Some (x, id), s') → net_sent n s w → net_sent n s' w ∧ (i, m_body x) ∈ w_sent w.
Proof.
  unfold receive_resolves. intros E [N1 N2 N3]. destruct (ports s !! i) as [p|] eqn:Ep; [|done].
  cbn [mbind option_bind] in E. destruct (receiver p); [done..|]. destruct (messageq_ p) as [|y q] eqn:Eq; [done|].
  injection E as -> <-. split.
  - split; fields; try done. intros j q' m Hj Hm.
    edestruct (queue_of_set_port s i p) as (q1 & H1 & H2); [done| |exact Hj|by eapply N3, H2].
    intros m' H. unfold queue in *. rewrite Eq. cbn in *. by right.
  - apply (N3 i p x Ep). unfold queue. rewrite Eq. by left.
Qed.

Lemma net_sent_more n s w w' : (∀ p, p ∈ w_sent w → p ∈ w_sent w') → net_sent n s w → net_sent n s w'.
Proof. intros H [N1 N2 N3]. split; [done|..]; eauto. Qed.

Lemma packets_elem outs dst m : to_replica dst m ∈ outs → (dst, m) ∈ packets outs.
Proof. intros H. unfold packets. apply list_elem_of_omap. by exists (to_replica dst m). Qed.

Lemma sim_stutter n c w i r outs outs' rd rd' net :
  simulates n c w → c_nodes c !! i = Some (Node r outs rd) → (∀ o, o ∈ outs' → o ∈ outs) → net_sent n net w →
  simulates n (Cluster (<[i := Node r outs' rd']> (c_nodes c)) net) w.
Proof.
  intros [S1 S2 S3] Hi Hsub Hn. split; cbn; [|..|done].
  - rewrite S1, list_fmap_insert. symmetry. apply list_insert_id. by rewrite list_lookup_fmap, Hi.
  - intros j nd dst m Hj Hm. destruct (decide (j = i)) as [->|Hne].
    + rewrite list_lookup_insert_eq in Hj by (by eapply lookup_lt_Some). injection Hj as <-. cbn in Hm.
      eapply S2; [exact Hi|]. by apply Hsub.
    + rewrite list_lookup_insert_ne in Hj by done. by eapply S2.
Qed.

(** An iteration is a step of the abstract network. *)
Lemma sim_iteration n c w i r net ev :
  simulates n c w → c_nodes c !! i = Some (Node r [] None) → deliverable w i ev → net_sent n net w →
  let p := run_iteration (now (c_net c)) ev r in
  ∃ w', net_step w w' ∧ simulates n (Cluster (<[i := Node p.1 p.2 None]> (c_nodes c)) net) w'.
Proof.
  intros [S1 S2 S3] Hi Hd Hn p.
  exists (mk_world (<[i := p.1]> (w_replicas w)) (packets p.2 ++ w_sent w)). split.
  - apply replica_step; [|done]. by rewrite S1, list_lookup_fmap, Hi.
  - split; cbn.
    + by rewrite list_fmap_insert, S1.
    + intros j nd dst m Hj Hm. apply elem_of_app. destruct (decide (j = i)) as [->|Hne].
      * rewrite list_lookup_insert_eq in Hj by (by eapply lookup_lt_Some). injection Hj as <-. left. by apply packets_elem.
      * rewrite list_lookup_insert_ne in Hj by done. right. by eapply S2.
    + eapply net_sent_more; [|exact Hn]. cbn. intros q Hq. apply elem_of_app. by right.
Qed.

Lemma sim_step n c c' w :
  (0 < n)%nat → cluster_step n c c' → simulates n c w → ∃ w', rtc net_step w w' ∧ simulates n c' w'.
Proof.
  intros Hn Hs Hsim. destruct Hs as [cmd net Hc E|i r outs u idle t Hi Ht|i r dst m outs val net t Hi Hdst E
    |i r resp outs t Hi|i r m id net p Hi Hb E ->|i r ev p Hi Hev ->].
  - exists w. split; [done|]. destruct Hsim as [S1 S2 S3]. split; [done..|]. by eapply net_sent_environment.
  - exists w. split; [done|]. eapply sim_stutter; [done..|]. by apply net_sent_advance, Hsim.
  - exists w. split; [done|]. eapply sim_stutter; [done..|intros o Ho; by right|].
    eapply net_sent_send; [exact E| |apply Hsim]. unfold chan.
    rewrite Nat.add_comm, Nat.Div0.mod_add, Nat.mod_small by done.
    eapply (sim_outboxes n c w Hsim); [exact Hi|]. by left.
  - exists w. split; [done|]. eapply sim_stutter; [done..|intros o Ho; by right|apply Hsim].
  - destruct (net_sent_resolve n _ i m id net w E (sim_net n c w Hsim)) as [Hnet Hin].
    destruct (sim_iteration n c w i r net (replica_wakeup (m_body m)) Hsim Hi Hin Hnet) as (w' & Hw & Hs').
    exists w'. split; [by apply rtc_once|exact Hs'].
  - assert (Hd : deliverable w i ev) by (destruct ev; [done|exfalso; by eapply Hev|done]).
    destruct (sim_iteration n c w i r (c_net c) ev Hsim Hi Hd (sim_net n c w Hsim)) as (w' & Hw & Hs').
    exists w'. split; [by apply rtc_once|exact Hs'].
Qed.

(** The wiring connects every channel to its port. *)
Lemma connect_wires n ks (s : netsim paxos_message) :
  (∀ k ch i, channels s !! k = Some ch → destination_ ch = Some i → i = (k mod n)%nat) → in_flight s = [] →
  (∀ i p, ports s !! i = Some p → queue p = []) →
  ∀ s', run s ((λ k, C_connect k (k mod n)%nat) <$> ks) = Some s' →
  (∀ k ch i, channels s' !! k = Some ch → destination_ ch = Some i → i = (k mod n)%nat) ∧ in_flight s' = [] ∧
  (∀ i p, ports s' !! i = Some p → queue p = []).
Proof.
  revert s. induction ks as [|k ks IH]; intros s H1 H2 H3 s' E; [by injection E as <-|].
  rewrite fmap_cons in E. cbn [run NetSim.run_command] in E. unfold connect in E.
  destruct (channels s !! k) as [ch|] eqn:Ek; [|done]. cbn [mbind option_bind] in E.
  destruct (ports s !! (k mod n)%nat); [|done]. cbn [mbind option_bind] in E.
  eapply IH; [| | |exact E]; [|done|done]. cbn. intros k' ch' i H Hd. destruct (decide (k' = k)) as [->|Hne].
  - rewrite list_lookup_insert_eq in H by (by eapply lookup_lt_Some). injection H as <-. cbn in Hd. by injection Hd.
  - rewrite list_lookup_insert_ne in H by done. by eapply H1.
Qed.

Lemma wired_sent n w : net_sent n (wired n) w.
Proof.
  assert (H0 : ∀ k ch i, channels (replica_net n) !! k = Some ch → destination_ ch = Some i → i = (k mod n)%nat).
  { intros k ch i H. cbn in H. rewrite list_lookup_fmap in H. apply fmap_Some in H as (x & Hx & ->).
    by apply lookup_replicate in Hx as [-> _]. }
  assert (H2 : ∀ i p, ports (replica_net n) !! i = Some p → queue p = []) by (by intros i p [-> _]%lookup_replicate).
  assert (H : (∀ k ch i, channels (wired n) !! k = Some ch → destination_ ch = Some i → i = (k mod n)%nat) ∧
              in_flight (wired n) = [] ∧ (∀ i p, ports (wired n) !! i = Some p → queue p = [])).
  { unfold wired. destruct (run (replica_net n) (connect_all n)) as [s'|] eqn:E; [|done].
    cbn [default from_option]. eapply connect_wires; [exact H0|done|exact H2|exact E]. }
  destruct H as (A1 & A2 & A3). split; [exact A1|rewrite A2; set_solver|].
  intros i p m Hp. rewrite (A3 i p Hp). set_solver.
Qed.

Lemma initial_simulates n l0 draws : simulates n (initial_cluster n l0 draws) (initial_world n l0 draws).
Proof.
  split; cbn [initial_cluster c_nodes c_net].
  - rewrite <-list_fmap_compose. symmetry. apply list_fmap_id.
  - intros i nd dst m H. rewrite list_lookup_fmap in H. apply fmap_Some in H as (r & _ & ->). cbn. set_solver.
  - apply wired_sent.
Qed.

(** C3 The cluster on the simulated network refines the abstract network: however
    the channels lose, delay and queue the messages, however the sends of the
    replicas interleave and whatever the schedule does to the links, the
    replicas are in a state that the abstract network can reach.  So every
    safety theorem about its reachable worlds holds for the program's
    network. *)
Theorem cluster_refines (n l0 : nat) (draws : nat → list Z) (c : cluster) :
  (0 < n)%nat → rtc (cluster_step n) (initial_cluster n l0 draws) c →
  ∃ w, reachable n l0 draws w ∧ w_replicas w = n_replica <$> c_nodes c.
Proof.
  intros Hn Hr.
  assert (H : ∃ w, reachable n l0 draws w ∧ simulates n c w).
  { revert c Hr. apply rtc_ind_r; [|].
    - exists (initial_world n l0 draws). split; [apply rtc_refl|apply initial_simulates].
    - intros c c' _ Hs (w & Hw & Hsim). destruct (sim_step n c c' w Hn Hs Hsim) as (w' & Hw' & Hsim').
      exists w'. split; [|done]. unfold reachable in *. by etrans. }
  destruct H as (w & Hw & Hsim). exists w. split; [done|apply Hsim].
Qed.

(** * Runs of a concrete cluster *)

Inductive cluster_command :=
  | K_net (cmd : NetSim.command paxos_message)
  | K_wake (idle : bool) (i : nat)
  | K_send (i : nat) (val : Z)
  | K_message (i : nat)
  | K_timer (i : nat).

Definition cluster_run_command (n : nat) (c : cluster) (k : cluster_command) : option cluster :=
  match k with
  | K_net cmd =>
      if environment_command cmd then Cluster (c_nodes c) <$> NetSim.run_command (c_net c) cmd else None
  | K_wake idle i =>
      nd ← c_nodes c !! i;
      u ← n_sleep nd;
      t ← timer_fires (c_net c) idle u;
      Some (Cluster (<[i := Node (n_replica nd) (n_outbox nd) None]> (c_nodes c)) (advance (c_net c) t))
  | K_send i val =>
      match c_nodes c !! i with
      | Some (Node r (to_replica dst m :: outs) None) =>
          if (dst <? n)%nat then
            '(net, t) ← send (c_net c) (chan n i dst) m val;
            Some (Cluster (<[i := Node r outs (Some t)]> (c_nodes c)) net)
          else None
      | _ => None
      end
  | K_message i =>
      match c_nodes c !! i with
      | Some (Node r [] None) =>
          if negb (batch_due (now (c_net c)) r) then
            '(x, net) ← receive_resolves (c_net c) i;
            x ← x;
            let p := run_iteration (now (c_net c)) (replica_wakeup (m_body x.1)) r in
            Some (Cluster (<[i := Node p.1 p.2 None]> (c_nodes c)) net)
          else None
      | _ => None
      end
  | K_timer i =>
      match c_nodes c !! i with
      | Some (Node r [] None) =>
          let p := run_iteration (now (c_net c)) timer_wakeup r in
          Some (Cluster (<[i := Node p.1 p.2 None]> (c_nodes c)) (c_net c))
      | _ => None
      end
  end.

Fixpoint run_cluster (n : nat) (c : cluster) (ks : list cluster_command) : option cluster :=
  match ks with
  | [] => Some c
  | k :: ks' => c ← cluster_run_command n c k; run_cluster n c ks'
  end.

Lemma cluster_run_command_step n c k c' : cluster_run_command n c k = Some c' → cluster_step n c c'.
Proof.
  destruct k as [cmd|idle i|i val|i|i]; cbn [cluster_run_command]; intros E.
  - destruct (environment_command cmd) eqn:Ec; [|done]. apply fmap_Some in E as (net & E & ->). by eapply network_step.
  - apply bind_Some in E as ([r outs sl] & Hi & E). cbn [n_sleep n_outbox n_replica] in E. destruct sl as [u|]; [|done].
    cbn [mbind option_bind] in E. apply bind_Some in E as (t & Ht & [= <-]). by eapply wake_step.
  - destruct (c_nodes c !! i) as [[r [|[dst m|resp] outs] [u|]]|] eqn:Hi; try done.
    destruct (dst <? n)%nat eqn:E2; [|done]. apply Nat.ltb_lt in E2.
    apply bind_Some in E as ([net t] & E & [= <-]). by eapply send_step.
  - destruct (c_nodes c !! i) as [[r [|] [u|]]|] eqn:Hi; try done.
    destruct (batch_due (now (c_net c)) r) eqn:Eb; [done|].
    cbn [negb] in E. apply bind_Some in E as ([x net] & E & E3). apply bind_Some in E3 as ([m id] & -> & [= <-]).
    by apply (message_step n c i r m id net).
  - destruct (c_nodes c !! i) as [[r [|] [u|]]|] eqn:Hi; try done. injection E as <-.
    by apply (wakeup_step n c i r timer_wakeup).
Qed.

Lemma run_cluster_steps n c ks c' : run_cluster n c ks = Some c' → rtc (cluster_step n) c c'.
Proof.
  revert c. induction ks as [|k ks IH]; cbn [run_cluster]; intros c E; [by injection E as <-|].
  apply bind_Some in E as (c1 & E1 & E2). eapply rtc_l; [by eapply cluster_run_command_step|by apply IH].
Qed.

(** Replica 1 takes over from replica 0: its timer fires, it sends a probe to
    the others, the link to replica 0 fails, replica 2 promises and the promise
    arrives. *)
Definition net_takeover : list cluster_command :=
  [K_net (C_receive 1); K_net (C_receive 2); K_net (C_set_loss (chan 3 1 0) 1%Q);
   K_timer 1; K_send 1 0; K_wake true 1; K_net C_step_time; K_send 1 0; K_wake true 1;
   K_net (C_send_after true); K_net (C_receive_wakes true 2); K_net C_step_time; K_message 2; K_send 2 0;
   K_net (C_send_after true); K_net (C_receive_wakes true 1); K_message 1].
Definition net_takeover_cluster : cluster :=
  default (initial_cluster 3 0 (λ _, [])) (run_cluster 3 (initial_cluster 3 0 (λ _, [])) net_takeover).

Lemma cluster_refines_witness :
  ((λ nd, (role_ (n_replica nd), current_round_ (n_replica nd))) <$> c_nodes net_takeover_cluster !! 1%nat)
  = Some (leader, 1) ∧
  ∃ w, reachable 3 0 (λ _, []) w ∧ w_replicas w = n_replica <$> c_nodes net_takeover_cluster.
Proof.
  split; [by vm_compute|]. apply (cluster_refines 3 0 (λ _, []) net_takeover_cluster); [lia|].
  apply (run_cluster_steps 3 _ net_takeover). unfold net_takeover_cluster.
  destruct (run_cluster 3 (initial_cluster 3 0 (λ _, [])) net_takeover) eqn:E; [done|]. by vm_compute in E.
Defined.
