(* ===== verification/PaxosTraces.v ===== *)
(** Schedules of the cluster, run to their end: a leader change that keeps the
    database, and the schedule by which a follower commits an entry no quorum
    holds. *)

From S2P Require Import Prelude SMap Text PancyDb PaxosReplica PaxosLocal PaxosProps PaxosNet.

Definition put_serial (s : Z) : request := put_request s $"k" (dec s) any_version.

(** * A follower commits beyond the matched prefix

    [handle_propose] clamps the new commit index to the end of the local log and
    not to the slot matched by the proposal.  The schedule, for three replicas:

    - 16 requests reach the log of all replicas; replica 0 appends a 17th that
      no other replica receives;
    - replica 1 is elected in round 1 and commits another request at slot 17
      with replica 2;
    - replica 2 is elected in round 2; 17 of its heartbeats reach replica 0,
      which rejects each, and each rejection moves the leader's [next_index_]
      for replica 0 one slot back, down to 1;
    - the proposal it then sends carries slots 1 to 16 (one batch) and
      announces commit index 17: replica 0 matches up to 16 and commits its own
      slot 17. *)
Definition stale_commit : list command :=
  ((λ k, client_cmd 0 (put_serial (Z.of_nat k))) <$> seq 1 16)
  ++ [deliver_cmd 0; deliver_cmd 2; deliver_cmd 0]
  ++ [client_cmd 0 (put_serial 17); timer_cmd 0]
  ++ [timer_cmd 1; deliver_cmd 1; deliver_cmd 0]
  ++ [client_cmd 1 (put_serial 18); timer_cmd 1; deliver_cmd 1; deliver_cmd 0; timer_cmd 1; deliver_cmd 1]
  ++ [timer_cmd 2; deliver_cmd 1; deliver_cmd 0]
  ++ replicate 16 (timer_cmd 2)
  ++ ((λ k, deliver_cmd (32 - k)) <$> seq 0 17)
  ++ replicate 17 (deliver_cmd 16)
  ++ [deliver_cmd 0].

Definition stale_commit_world : world :=
  default (initial_world 3 0 (λ _, [])) (run_schedule (initial_world 3 0 (λ _, [])) stale_commit).

(** C8 The commit clamp of [handle_propose] is unsafe: in a reachable world,
    without duplicated messages, two replicas have committed and applied
    different requests at the same slot, and their databases differ. *)
Theorem committed_slots_can_differ :
  reachable 3 0 (λ _, []) stale_commit_world ∧
  ∃ r0 r1, w_replicas stale_commit_world !! 0%nat = Some r0 ∧
    w_replicas stale_commit_world !! 1%nat = Some r1 ∧
    last_applied_ r0 = 17 ∧ last_applied_ r1 = 17 ∧
    le_req <$> find 17 (log_ r0) = Some (put_serial 17) ∧
    le_req <$> find 17 (log_ r1) = Some (put_serial 18) ∧
    vv_value <$> get (rdb_ r0) $"k" = Some $"17" ∧
    vv_value <$> get (rdb_ r1) $"k" = Some $"18".
Proof.
  split.
  - apply schedule_reachable. vm_compute. by eexists.
  - eexists _, _. split; [by vm_compute|]. split; [by vm_compute|]. by vm_compute.
Qed.
