(* ===== verification/ClientModel.v ===== *)
(** The client side of the Pancy protocol: the receive queue shared by the
    simulated clients ([src/pset4/client_model.hh], [client_model.cc]) and the
    retry loop by which the HTTP server commits a write
    ([http_client_model::submit_put] of [http_server.cc]).

    Waiting is outside the model: [receive_response] is the scan it runs each
    time its client's event fires, and a timeout is an input. *)

From S2P Require Import Prelude SMap Text PancyDb.

(** * The receive queue *)

Definition max_clients : Z := 4096.
Definition client_mask : Z := max_clients - 1.
Definition serial_step : Z := 4096.

Definition client_of (serial : Z) : Z := Z.land serial client_mask.

Record client_queue := mk_client_queue {
  nclients : Z;
  inq_ : list response;
}.

Definition set_nclients (n : Z) (c : client_queue) : result client_queue :=
  if max_clients <? n then Throw $"nclients out of range"
  else Ok (mk_client_queue n (inq_ c)).

(** One round of [receive_task]: the client to wake, and the queue. *)
Definition receive_task (msg : response) (c : client_queue) : option Z * client_queue :=
  let client_id := client_of (response_serial msg) in
  if nclients c <=? client_id then (None, c)
  else (Some client_id, mk_client_queue (nclients c) (inq_ c ++ [msg])).

(** What [receive_response<Resp>] returns: a new replica to contact, a response
    of the expected type, or nothing (another type). *)
Inductive received :=
  | redirected (replicaid : nat)
  | got (resp : response)
  | unexpected.

(** The scan of the queue for [serial]; [is_resp] tells the responses of the
    expected type.  [None]: no message yet, wait. *)
Fixpoint receive_response (is_resp : response → bool) (serial : Z) (q : list response) :
    option (received * list response) :=
  match q with
  | [] => None
  | m :: q' =>
      let in_serial := response_serial m in
      if negb (client_of in_serial =? client_of serial) || negb (in_serial =? serial) then
        prod_map id (m ::.) <$> receive_response is_resp serial q'
      else
        match m with
        | redirection_response _ _ target => Some (redirected target, q')
        | _ => if is_resp m then Some (got m, q') else Some (unexpected, q')
        end
  end.

Definition is_put_response (m : response) : bool :=
  match m with put_response _ _ _ _ _ => true | _ => false end.

(** * Submitting a write *)

(** What one attempt gets from replica [replica]: a timeout, or what
    [receive_response] returned.  The replicas and the network are a function
    of the attempt's number. *)
Definition attempt_oracle := nat → nat → option received.

Definition kMaxAttempts : nat := 12.

Record submitter := mk_submitter { sub_leader : nat; next_serial_offset_ : Z }.

(** The loop of [submit_put]: [left] attempts are left, this is attempt
    [tries].  The result is the version and the remembered leader. *)
Fixpoint submit_loop (oracle : attempt_oracle) (nreplicas leader : nat) (left tries replica : nat) :
    Z * nat :=
  match left with
  | O => (0, leader)
  | S left' =>
      match oracle tries replica with
      | Some (got (put_response _ errcode _ _ version)) =>
          if bool_decide (errcode = ok) then (version, replica)
          else submit_loop oracle nreplicas leader left' (S tries) replica
      | Some (got _) => submit_loop oracle nreplicas leader left' (S tries) replica
      | Some (redirected target) =>
          (* [attempt] flattens the optional, so a redirection looks like a
             timeout here, and the redirected index is advanced as well *)
          submit_loop oracle nreplicas leader left' (S tries) ((target + 1) mod nreplicas)
      | Some unexpected | None =>
          submit_loop oracle nreplicas leader left' (S tries) ((replica + 1) mod nreplicas)
      end
  end.

(** The serial of the next submission, then the loop from the remembered
    leader. *)
Definition next_serial (s : submitter) : Z := u64 ((next_serial_offset_ s + 1) * serial_step).

Definition submit_put (oracle : attempt_oracle) (nreplicas : nat) (s : submitter) : Z * submitter :=
  let '(version, leader) := submit_loop oracle nreplicas (sub_leader s) kMaxAttempts 0 (sub_leader s) in
  (version, mk_submitter leader (u64 (next_serial_offset_ s + 1))).

(** * Lemmas *)

Lemma receive_response_spec is_resp serial q :
  match receive_response is_resp serial q with
  | None => Forall (λ m, response_serial m ≠ serial) q
  | Some (res, rest) =>
      ∃ pre m post, q = pre ++ m :: post ∧ rest = pre ++ post ∧ response_serial m = serial ∧
        Forall (λ x, response_serial x ≠ serial) pre ∧
        res = match m with
              | redirection_response _ _ target => redirected target
              | _ => if is_resp m then got m else unexpected
              end
  end.
Proof.
  induction q as [|m q IH]; simpl; [constructor|].
  destruct (negb _ || negb _) eqn:E.
  - assert (Hne : response_serial m ≠ serial).
    { intros Heq. rewrite Heq, !Z.eqb_refl in E. done. }
    destruct (receive_response is_resp serial q) as [[res rest]|]; simpl; [|by constructor].
    destruct IH as (pre & x & post & -> & -> & Hs & Hp & Hr).
    exists (m :: pre), x, post. split_and!; try done. by constructor.
  - apply orb_false_iff in E as [_ E]. bsimp.
    assert (Hr : Forall (λ x, response_serial x ≠ serial) []) by constructor.
    destruct m; (try destruct (is_resp _) eqn:Ei);
      (eexists [], _, q; split_and!; [reflexivity|done|done|done|by try rewrite Ei]).
Qed.

Lemma client_of_offset off : client_of (off * serial_step) = 0.
Proof.
  unfold client_of, client_mask, serial_step, max_clients.
  change (4096 - 1) with (Z.ones 12). rewrite Z.land_ones by lia. apply Z.mod_mul. lia.
Qed.

(** ** The loop under a fixed behaviour of the replicas *)

(** Every replica but [L] redirects to [L]. *)
Definition all_redirect (oracle : attempt_oracle) (L : nat) : Prop :=
  ∀ t s, s ≠ L → oracle t s = Some (redirected L).

Lemma submit_loop_overshoots oracle n lead L left tries replica :
  (2 ≤ n)%nat → (L < n)%nat → all_redirect oracle L → replica ≠ L →
  submit_loop oracle n lead left tries replica = (0, lead).
Proof.
  intros Hn HL Ho. revert tries replica. induction left as [|left IH]; intros tries replica Hr; simpl; [done|].
  rewrite Ho by done. apply IH.
  destruct (decide (L + 1 = n)%nat) as [<-|Hlt].
  - rewrite Nat.Div0.mod_same. lia.
  - rewrite Nat.mod_small by lia. lia.
Qed.

(** Every replica but [L] is silent and [L] answers with version [v]. *)
Definition only_answers (oracle : attempt_oracle) (L : nat) (v : Z) : Prop :=
  (∀ t s, s ≠ L → oracle t s = None) ∧
  ∀ t, ∃ serial a p, oracle t L = Some (got (put_response serial ok a p v)).

Lemma submit_loop_finds oracle n lead L v k left tries replica :
  only_answers oracle L v → (L < n)%nat → (replica < n)%nat → ((replica + k) mod n = L)%nat →
  (k < left)%nat → submit_loop oracle n lead left tries replica = (v, L).
Proof.
  intros [Hs HL]. revert left tries replica.
  induction k as [|k IH]; intros left tries replica Hln Hrn Hmod Hk;
    (destruct left as [|left]; [lia|]); simpl.
  - rewrite Nat.add_0_r, Nat.mod_small in Hmod by done. subst.
    destruct (HL tries) as (? & ? & ? & ->). done.
  - destruct (decide (replica = L)) as [->|Hne].
    + destruct (HL tries) as (? & ? & ? & ->). done.
    + rewrite Hs by done. apply IH; [done| | |lia].
      * apply Nat.mod_upper_bound. lia.
      * rewrite Nat.Div0.add_mod_idemp_l. rewrite <- Hmod. f_equal. lia.
Qed.

(** * Properties *)

(** Several waiters share the queue: taking the response of one serial
    removes exactly that message, the first of its serial, and leaves the
    messages of every other serial in place and in order. *)
Theorem receive_response_takes_own (is_resp : response → bool) (serial : Z) (q rest : list response) (res : received) :
  receive_response is_resp serial q = Some (res, rest) →
  ∃ pre m post, q = pre ++ m :: post ∧ rest = pre ++ post ∧ response_serial m = serial ∧
    Forall (λ x, response_serial x ≠ serial) pre ∧
    ∀ other, other ≠ serial →
      filter (λ x, response_serial x = other) rest = filter (λ x, response_serial x = other) q.
Proof.
  intros H. pose proof (receive_response_spec is_resp serial q) as Hs. rewrite H in Hs.
  destruct Hs as (pre & m & post & -> & -> & Hm & Hp & _). exists pre, m, post. split_and!; try done.
  intros other Hne. rewrite !filter_app, filter_cons_False; [done|]. congruence.
Qed.

Lemma receive_response_takes_own_witness :
  let a := put_response 4096 ok [] 0 1 in
  let b := put_response 8192 ok [] 0 2 in
  receive_response is_put_response 8192 [a; b] = Some (got b, [a]) ∧
  filter (λ x, response_serial x = 4096) [a] = filter (λ x, response_serial x = 4096) [a; b].
Proof.
  intros a b. split; [by vm_compute|].
  destruct (receive_response_takes_own is_put_response 8192 [a; b] [a] (got b)) as (_&_&_&_&_&_&_&H);
    [by vm_compute|]. by apply H.
Defined.

(** A write reaches the leader when the other replicas are silent: the loop
    tries the replicas in turn, and in a cluster of at most 12 replicas it
    returns the leader's version and remembers the leader. *)
Theorem submit_put_finds_leader (oracle : attempt_oracle) (nreplicas L : nat) (v : Z) (s : submitter) :
  (nreplicas ≤ kMaxAttempts)%nat → (L < nreplicas)%nat → (sub_leader s < nreplicas)%nat →
  only_answers oracle L v →
  (submit_put oracle nreplicas s).1 = v ∧ sub_leader (submit_put oracle nreplicas s).2 = L.
Proof.
  intros Hn HL Hs Ho. unfold submit_put.
  rewrite (submit_loop_finds oracle nreplicas (sub_leader s) L v
             ((L + (nreplicas - sub_leader s)) mod nreplicas)); [done|done|done|done| |].
  - rewrite Nat.Div0.add_mod_idemp_r. replace (sub_leader s + (L + (nreplicas - sub_leader s)))%nat
      with (L + 1 * nreplicas)%nat by lia. rewrite Nat.Div0.mod_add. by apply Nat.mod_small.
  - eapply Nat.lt_le_trans; [apply Nat.mod_upper_bound; lia|done].
Qed.

Lemma submit_put_finds_leader_witness :
  let oracle : attempt_oracle := λ _ s, if decide (s = 2%nat) then Some (got (put_response 4096 ok [] 0 9)) else None in
  (submit_put oracle 3 (mk_submitter 0 0)).1 = 9.
Proof.
  intros oracle. apply (submit_put_finds_leader oracle 3 2 9 (mk_submitter 0 0)); try (vm_compute; lia).
  split; [intros t s Hs; unfold oracle; by rewrite decide_False|].
  intros t. by exists 4096, [], 0.
Defined.

(** A redirection never helps: when the remembered replica is not the
    leader and every replica but the leader redirects to it, all attempts go
    to the replica after the leader, and the write fails although the cluster
    is up. *)
Theorem submit_put_redirect_overshoots (oracle : attempt_oracle) (nreplicas L : nat) (s : submitter) :
  (2 ≤ nreplicas)%nat → (L < nreplicas)%nat → sub_leader s ≠ L → all_redirect oracle L →
  (submit_put oracle nreplicas s).1 = 0 ∧ sub_leader (submit_put oracle nreplicas s).2 = sub_leader s.
Proof.
  intros Hn HL Hs Ho. unfold submit_put. by rewrite (submit_loop_overshoots _ _ _ L).
Qed.

Lemma submit_put_redirect_overshoots_witness :
  let oracle : attempt_oracle := λ _ s,
    if decide (s = 1%nat) then Some (got (put_response 4096 ok [] 0 9)) else Some (redirected 1) in
  (submit_put oracle 3 (mk_submitter 0 0)).1 = 0.
Proof.
  intros oracle. apply (submit_put_redirect_overshoots oracle 3 1 (mk_submitter 0 0)); try (vm_compute; lia).
  intros t s Hs. unfold oracle. by rewrite decide_False.
Defined.
