(* ===== verification/HttpServer.v ===== *)
(** The HTTP front end, [src/pset4/http_server.cc]: reading a request from a
    connection, the route handlers and their dispatch.

    Sockets are their results: [cot::read_once] a list of chunks, an empty one
    for end of file and [None] for an error; [cot::write_once] a list of byte
    counts.  A task that has used up the results it was given is suspended.

    A handler runs until it has to wait for [submit_put].  It then hands back
    the key and the value with its continuation, which takes the version and
    the state of the server at that later time, so that other tasks can run in
    between.  Logging to [stderr] is left out. *)

From S2P Require Import Prelude SMap Text DocOps PancyDb DocState HttpText DocCache.

(** * Reading and writing *)

Abbreviation reads := (list (option txt)).

(** The outcome ([None]: suspended) and the bytes written. *)
Fixpoint write_all (writes : list (option nat)) (s : txt) : option bool * txt :=
  if bool_decide (s = []) then (Some true, [])
  else
    match writes with
    | [] => (None, [])
    | None :: _ | Some O :: _ => (Some false, [])
    | Some n :: writes' =>
        let '(res, out) := write_all writes' (drop n s) in (res, take n s ++ out)
    end.

Definition head_complete (buf : txt) : bool :=
  bool_decide (is_Some (find_txt (crlf ++ crlf) buf 0)) || (64 * 1024 <? size buf).

(** The buffer and the reads that are left; [None]: suspended. *)
Fixpoint read_request_head (rs : reads) (buf : txt) : option (txt * reads) :=
  if head_complete buf then Some (buf, rs)
  else
    match rs with
    | [] => None
    | None :: rs' | Some [] :: rs' => Some (buf, rs')
    | Some chunk :: rs' => read_request_head rs' (buf ++ chunk)
    end.

(** The body, or [None] when the connection ended first. *)
Fixpoint read_body (rs : reads) (body : txt) (want : Z) : option (option txt) :=
  if negb (size body <? want) then Some (Some body)
  else
    match rs with
    | [] => None
    | None :: _ | Some [] :: _ => Some None
    | Some chunk :: rs' => read_body rs' (body ++ chunk) want
    end.

(** [std::stoul], [None] when it throws. *)
Definition is_space (c : ascii) : bool := (code c =? 32) || ((9 <=? code c) && (code c <=? 13)).

Fixpoint skip_spaces (s : txt) : txt :=
  match s with
  | [] => []
  | c :: s' => if is_space c then skip_spaces s' else s
  end.

Definition stoul (s : txt) : option Z :=
  let s := skip_spaces s in
  let '(neg, s) := match s with
                   | c :: s' => if ceqb c "-"%char then (true, s')
                                else if ceqb c "+"%char then (false, s') else (false, s)
                   | [] => (false, s)
                   end in
  let '(ds, _) := digit_run s in
  if bool_decide (ds = []) then None
  else if two64 <=? dec_value ds then None
  else Some (if neg then u64 (- dec_value ds) else dec_value ds).

(** * The world of a handler *)

(** What the handlers use of the process: files, and the bridge's optional
    [fail_replica] callback. *)
Record host := mk_host {
  read_file : txt → option txt;
  log_opens : txt → bool;
  fail_replica : option (Z → bool);
}.

Inductive effect :=
  | append_log (path line : txt)
  | fail_effect (rid : Z).

Inductive outcome :=
  | closed
  | replied (effects : list effect) (response : txt)
  | submits (key value : txt) (resume : Z → server_cache_state → server_cache_state * txt)
  | streams (head doc_id : txt) (resume_from : Z).

Abbreviation handled := (server_cache_state * outcome)%type.

Definition application_json : txt := $"application/json".
Definition error_body (what : txt) : txt := $"{" ++ quoted $"error" ++ $":" ++ quoted what ++ $"}".

Definition json_reply (status : Z) (reason body : txt) : txt :=
  http_response status reason application_json body [].
Definition bad_request (what : txt) : txt := json_reply 400 $"Bad Request" (error_body what).
Definition gateway_timeout : txt :=
  json_reply 504 $"Gateway Timeout" (error_body $"paxos commit timed out").
Definition version_body (version : Z) : txt := $"{" ++ quoted $"version" ++ $":" ++ dec_i64 version ++ $"}".

(** * Handlers *)

Definition serve_static_file (h : host) (path ct : txt) : txt :=
  match read_file h path with
  | None => http_response 404 $"Not Found" $"text/plain" ($"File not found" ++ [lf]) []
  | Some body => http_response 200 $"OK" ct body []
  end.

(** [g_state.doc] creates the cache if it is missing. *)
Definition touch_doc (g : server_cache_state) (doc_id : txt) : server_cache_state :=
  set_doc g doc_id (doc g doc_id).

Definition handle_get_doc_id (g : server_cache_state) (doc_id : txt) : handled :=
  let cache := doc g doc_id in
  let body := $"{" ++ quoted $"text" ++ $":" ++ quoted (json_escape (text_ cache)) ++ $","
              ++ quoted $"version" ++ $":" ++ dec_i64 (version_ cache) ++ $"}" in
  (touch_doc g doc_id, replied [] (json_reply 200 $"OK" body)).

(** The operation of a POST body, or the error it is rejected with. *)
Definition parse_op_body (body : txt) : result (doc_op * txt * Z) :=
  match json_get_string body $"type", json_get_int body $"pos",
        json_get_string body $"client_id", json_get_int body $"seq" with
  | Some type, Some pos, Some cid, Some seq =>
      if (pos <? 0) || (seq <? 0) then Throw $"pos and seq must be >= 0"
      else if teqb type $"I" then
        match json_get_string body $"text" with
        | None => Throw $"missing text for insert"
        | Some text => Ok (insert_op (u64 pos) text, cid, u64 seq)
        end
      else if teqb type $"D" then
        match json_get_int body $"len" with
        | None => Throw $"missing/invalid len for delete"
        | Some len =>
            if len <? 0 then Throw $"missing/invalid len for delete"
            else Ok (delete_op (u64 pos) (u64 len), cid, u64 seq)
        end
      else Throw $"type must be 'I' or 'D'"
  | _, _, _, _ => Throw $"missing field (type/pos/client_id/seq)"
  end.

(** After [submit_put]. *)
Definition finish_post_op (doc_id : txt) (op : doc_op) (cid : txt) (seq : Z)
    (version : Z) (g : server_cache_state) : server_cache_state * txt :=
  if version =? 0 then (g, gateway_timeout)
  else
    let co := mk_committed_op version (hash_client_id cid) seq op cid in
    (set_doc g doc_id (note_committed (doc g doc_id) co), json_reply 200 $"OK" (version_body version)).

Definition handle_post_op_doc (g : server_cache_state) (doc_id body : txt) : handled :=
  match parse_op_body body with
  | Throw what => (g, replied [] (bad_request what))
  | Ok (op, cid, seq) =>
      let hashed_cid := hash_client_id cid in
      let g := set_doc g doc_id (note_client_label (doc g doc_id) hashed_cid cid) in
      (g, submits (op_key doc_id hashed_cid seq) (serialize op) (finish_post_op doc_id op cid seq))
  end.

Definition set_cursor (c : per_doc_cache) (cid_hash : Z) (e : cursor_entry) : per_doc_cache :=
  mk_per_doc_cache (ops_ c) (assign cid_hash e (cursors_ c)) (client_labels_ c) (text_ c)
    (version_ c) (epoch_ c) (u64 (cursor_epoch_ c + 1)).

Definition finish_post_cursor (doc_id cid : txt) (pos : Z) (version : Z) (g : server_cache_state) :
    server_cache_state * txt :=
  if version =? 0 then (g, gateway_timeout)
  else
    (set_doc g doc_id (set_cursor (doc g doc_id) (hash_client_id cid) (mk_cursor_entry version cid pos)),
     json_reply 200 $"OK" (version_body version)).

Definition handle_post_cursor_doc (g : server_cache_state) (doc_id body : txt) : handled :=
  match json_get_string body $"client_id", json_get_int body $"pos" with
  | Some cid, Some pos =>
      if pos <? 0 then (g, replied [] (bad_request $"pos must be >= 0"))
      else
        let cid_hash := hash_client_id cid in
        let g := set_doc g doc_id (note_client_label (doc g doc_id) cid_hash cid) in
        (g, submits (cursor_key doc_id cid_hash) (cursor_value cid pos) (finish_post_cursor doc_id cid pos))
  | _, _ => (g, replied [] (bad_request $"missing field (client_id/pos)"))
  end.

Definition debug_log_path (body : txt) : txt :=
  let cid := match json_get_string body $"clientId" with
             | Some c => Some c
             | None => json_get_string body $"client_id"
             end in
  let cid_part := safe_log_component (default $"unknown" cid) in
  let doc_part := safe_log_component (default $"unknown" (json_get_string body $"doc")) in
  $"logs/browser-" ++ doc_part ++ $"-" ++ cid_part ++ $".jsonl".

Definition handle_post_debug_log (h : host) (body : txt) : outcome :=
  let path := debug_log_path body in
  if negb (log_opens h path) then
    replied [] (json_reply 500 $"Internal Server Error" (error_body $"could not open debug log"))
  else replied [append_log path (body ++ [lf])] (json_reply 204 $"No Content" []).

Definition stream_head : txt :=
  $"HTTP/1.1 200 OK" ++ crlf ++ $"Content-Type: text/event-stream" ++ crlf
  ++ $"Cache-Control: no-cache" ++ crlf ++ $"Connection: keep-alive" ++ crlf
  ++ $"Access-Control-Allow-Origin: *" ++ crlf ++ crlf ++ $"retry: 1000" ++ [lf; lf].

Definition resume_from_header (head_only : txt) : Z :=
  let lei := find_header head_only $"last-event-id" in
  if bool_decide (lei = []) then 0
  else match from_chars_i64 lei with Some (v, _) => v | None => 0 end.

(** ** The other routes of [handle_connection] *)

Definition finish_post_docs (id : txt) (v : Z) (g : server_cache_state) : server_cache_state * txt :=
  if v =? 0 then (g, gateway_timeout)
  else
    (g, json_reply 200 $"OK"
          ($"{" ++ quoted $"ok" ++ $":true," ++ quoted $"version" ++ $":" ++ dec_i64 v ++ $","
           ++ quoted $"id" ++ $":" ++ quoted (json_escape id) ++ $"}")).

Definition handle_post_docs (g : server_cache_state) (body : txt) : handled :=
  let reject :=
    bad_request ($"body must be {" ++ [bslash] ++ [dquote] ++ $"id" ++ [bslash; dquote] ++ $":"
                 ++ [bslash; dquote] ++ $"doc-name" ++ [bslash; dquote] ++ $"}") in
  match json_get_string body $"id" with
  | None => (g, replied [] reject)
  | Some id =>
      if negb (valid_doc_id id) then (g, replied [] reject)
      else
        let g := ensure_doc g id in
        (g, submits kDocsRegistryKey (docs_registry_json (known_docs_ g)) (finish_post_docs id))
  end.

Definition options_reply : txt :=
  $"HTTP/1.1 204 No Content" ++ crlf ++ $"Access-Control-Allow-Origin: *" ++ crlf
  ++ $"Access-Control-Allow-Methods: GET, POST, OPTIONS" ++ crlf
  ++ $"Access-Control-Allow-Headers: Content-Type" ++ crlf
  ++ $"Access-Control-Max-Age: 86400" ++ crlf ++ $"Content-Length: 0" ++ crlf
  ++ $"Connection: close" ++ crlf ++ crlf.

Definition handle_admin_fail (h : host) (path : txt) : outcome :=
  match fail_replica h with
  | None => replied [] (json_reply 501 $"Not Implemented" (error_body $"fail endpoint not wired"))
  | Some fail =>
      match from_chars_all (drop (length $"/admin/fail/") path) with
      | None => replied [] (bad_request $"replica id must be numeric")
      | Some rid =>
          if negb (fail rid) then replied [fail_effect rid] (bad_request $"invalid replica id")
          else replied [fail_effect rid]
                 (json_reply 200 $"OK" ($"{" ++ quoted $"failed_replica" ++ $":" ++ dec rid ++ $"}"))
      end
  end.

(** ** Dispatch *)

Definition dispatch (h : host) (g : server_cache_state) (method path head_only body : txt) : handled :=
  let route := parse_doc_route path in
  let doc_id := default [] (fst <$> route) in
  let on_doc sub := bool_decide (snd <$> route = Some sub) in
  if on_doc [] && teqb method $"GET" then handle_get_doc_id (ensure_doc g doc_id) doc_id
  else if teqb method $"POST" && teqb path $"/debug/log" then (g, handle_post_debug_log h body)
  else if teqb method $"POST" && on_doc $"op" then handle_post_op_doc (ensure_doc g doc_id) doc_id body
  else if teqb method $"POST" && on_doc $"cursor" then
    handle_post_cursor_doc (ensure_doc g doc_id) doc_id body
  else if teqb method $"GET" && on_doc $"stream" then
    (ensure_doc g doc_id, streams stream_head doc_id (resume_from_header head_only))
  else if teqb method $"GET" && teqb path $"/docs" then
    (g, replied [] (json_reply 200 $"OK" (docs_registry_json (known_docs_ g))))
  else if teqb method $"POST" && teqb path $"/docs" then handle_post_docs g body
  else if teqb method $"GET" && (teqb path $"/" || teqb path $"/editor.html") then
    (g, replied [] (serve_static_file h $"static/editor.html" $"text/html; charset=utf-8"))
  else if teqb method $"GET" && teqb path $"/editor.js" then
    (g, replied [] (serve_static_file h $"static/editor.js" $"application/javascript; charset=utf-8"))
  else if teqb method $"OPTIONS" then (g, replied [] options_reply)
  else if teqb method $"POST" && starts_with $"/admin/fail/" path then (g, handle_admin_fail h path)
  else (g, replied [] (json_reply 404 $"Not Found" (error_body $"no route"))).

Definition content_length (head_only : txt) : Z :=
  let cl := find_header head_only $"content-length" in
  if bool_decide (cl = []) then 0 else default 0 (stoul cl).

(** The request a connection delivers: the request line, the head and the
    body.  The outer [option]: suspended; the inner one: closed without an
    answer. *)
Definition read_request (rs : reads) : option (option (request_line * txt * txt)) :=
  match read_request_head rs [] with
  | None => None
  | Some (head_buf, rs) =>
      if bool_decide (head_buf = []) then Some None
      else
        let rl := parse_request_line head_buf in
        if bool_decide (rl_method rl = []) then Some None
        else
          let body := drop (rl_body_offset rl) head_buf in
          let head_only := take (rl_body_offset rl) head_buf in
          match read_body rs body (content_length head_only) with
          | None => None
          | Some None => Some None
          | Some (Some body) => Some (Some (rl, head_only, body))
          end
  end.

Definition handle_connection (h : host) (g : server_cache_state) (rs : reads) : option handled :=
  match read_request rs with
  | None => None
  | Some None => Some (g, closed)
  | Some (Some (rl, head_only, body)) => Some (dispatch h g (rl_method rl) (rl_path rl) head_only body)
  end.

(** The state when [run_http_server] starts to accept. *)
Definition run_http_server_init (g : server_cache_state) (bridge_doc_id : txt) (db : pancydb) :
    server_cache_state :=
  let g := ensure_doc g bridge_doc_id in
  match get db kDocsRegistryKey with
  | Some v => foldl ensure_doc g (keys (parse_docs_registry (vv_value v)))
  | None => g
  end.

(** ** The server's tasks

    Connections, pollers and resumed handlers run in any order on the one
    state.  A pending submission is a handler waiting in [submit_put]. *)

Record pending := mk_pending {
  pend_key : txt;
  pend_value : txt;
  pend_resume : Z → server_cache_state → server_cache_state * txt;
}.

Record server := mk_server { sv_state : server_cache_state; sv_pending : list pending }.

Inductive server_event :=
  | on_connection (h : host) (rs : reads)
  | on_submitted (i : nat) (version : Z)
  | on_poll (db : pancydb).

Definition server_step (s : server) (e : server_event) : server :=
  match e with
  | on_connection h rs =>
      match handle_connection h (sv_state s) rs with
      | Some (g, submits key value resume) => mk_server g (sv_pending s ++ [mk_pending key value resume])
      | Some (g, _) => mk_server g (sv_pending s)
      | None => s
      end
  | on_submitted i version =>
      match sv_pending s !! i with
      | Some p => mk_server (pend_resume p version (sv_state s)).1 (delete i (sv_pending s))
      | None => s
      end
  | on_poll db => mk_server (poll_tick (sv_state s) db) (sv_pending s)
  end.

Definition server_start (bridge_doc_id : txt) (db : pancydb) : server :=
  mk_server (run_http_server_init (mk_server_cache_state [] [] 0) bridge_doc_id db) [].

(** * What the front end promises *)

(** A pending write goes to the registry or under a valid document id. *)
Definition confined (key : txt) : Prop :=
  key = kDocsRegistryKey ∨
  ∃ d, valid_doc_id d = true ∧
       ((∃ cid seq, key = op_key d (hash_client_id cid) seq) ∨ ∃ cid, key = cursor_key d (hash_client_id cid)).

Definition coherent_all (g : server_cache_state) : Prop := ∀ d, coherent (doc g d).

Record state_inv (g : server_cache_state) : Prop := {
  inv_known : Forall (λ d, valid_doc_id d = true) (keys (known_docs_ g));
  inv_known_wf : wf (known_docs_ g);
  inv_coherent : coherent_all g;
}.

Record pending_inv (p : pending) : Prop := {
  inv_confined : confined (pend_key p);
  inv_resume : ∀ v g, state_inv g → state_inv (pend_resume p v g).1;
}.

Record server_inv (s : server) : Prop := {
  inv_state : state_inv (sv_state s);
  inv_pending : Forall pending_inv (sv_pending s);
}.

(** * Lemmas *)

(** ** Sockets *)

Lemma write_all_spec writes s :
  match write_all writes s with
  | (Some true, out) => out = s
  | (_, out) => ∃ rest, s = out ++ rest ∧ rest ≠ []
  end.
Proof.
  revert s. induction writes as [|w writes IH]; intros s; simpl; case_if; subst; try done; try by exists s.
  destruct w as [[|n]|]; try by exists s. specialize (IH (drop (S n) s)).
  destruct (write_all writes (drop (S n) s)) as [res out]. destruct res as [[]|].
  - rewrite IH. apply take_drop.
  - destruct IH as (rest & Heq & Hr). exists rest. by rewrite <- app_assoc, <- Heq, take_drop.
  - destruct IH as (rest & Heq & Hr). exists rest. by rewrite <- app_assoc, <- Heq, take_drop.
Qed.

Lemma starts_with_mono p s t : starts_with p s = true → starts_with p (s ++ t) = true.
Proof. rewrite !starts_with_true. intros [u ->]. exists (u ++ t). by rewrite app_assoc. Qed.

Lemma starts_with_shrink p s t :
  (length p ≤ length s)%nat → starts_with p (s ++ t) = true → starts_with p s = true.
Proof.
  intros Hl. rewrite !starts_with_true. intros [u Hu].
  exists (drop (length p) s). rewrite <- (take_drop (length p) s) at 1. f_equal.
  apply (f_equal (take (length p))) in Hu. by rewrite take_app_le, take_app_length in Hu by done.
Qed.

Lemma index_of_txt_fits p s n : index_of_txt p s = Some n → (n + length p ≤ length s)%nat.
Proof.
  revert n. induction s as [|c s IH]; intros n; simpl.
  - destruct p; simpl; [|done]. intros [= <-]. simpl. lia.
  - destruct (starts_with p (c :: s)) eqn:E.
    + apply starts_with_true in E as [u Hu]. intros [= <-].
      change (S (length s)) with (length (c :: s)). rewrite Hu, length_app. simpl. lia.
    + destruct (index_of_txt p s) as [m|]; [|done]. intros [= <-]. specialize (IH m eq_refl). simpl. lia.
Qed.

(** The first match is found again when the text grows. *)
Lemma index_of_txt_mono p s t n : index_of_txt p s = Some n → index_of_txt p (s ++ t) = Some n.
Proof.
  revert n. induction s as [|c s IH]; intros n.
  - intros H. pose proof (index_of_txt_fits _ _ _ H) as Hl. destruct p; simpl in *; [|lia].
    by destruct t.
  - simpl. destruct (starts_with p (c :: s)) eqn:E.
    + intros [= <-]. apply (starts_with_mono p (c :: s) t) in E. simpl in E. by rewrite E.
    + destruct (index_of_txt p s) as [m|] eqn:Em; [|done]. intros [= <-].
      pose proof (index_of_txt_fits _ _ _ Em).
      destruct (starts_with p (c :: s ++ t)) eqn:E'; [|by rewrite (IH m)].
      rewrite (starts_with_shrink p (c :: s) t) in E; [done|simpl; lia|done].
Qed.

Lemma find_txt_mono p s t n : find_txt p s 0 = Some n → find_txt p (s ++ t) 0 = Some n.
Proof. rewrite !find_txt_0. apply index_of_txt_mono. Qed.

Lemma find_txt_fits p s n : find_txt p s 0 = Some n → (n + length p ≤ length s)%nat.
Proof. rewrite find_txt_0. apply index_of_txt_fits. Qed.

(** A text that holds [p ++ q] holds [p]. *)
Lemma index_of_txt_prefix p q s n :
  index_of_txt (p ++ q) s = Some n → ∃ m, index_of_txt p s = Some m ∧ (m ≤ n)%nat.
Proof.
  revert n. induction s as [|c s IH]; intros n; simpl.
  - destruct p; simpl; [|done]. intros. exists O. split; [done|lia].
  - destruct (starts_with p (c :: s)) eqn:E; [intros; exists O; split; [done|lia]|].
    destruct (starts_with (p ++ q) (c :: s)) eqn:E'.
    + apply starts_with_true in E' as [u Hu]. rewrite <- app_assoc in Hu.
      rewrite Hu, starts_with_app in E. done.
    + destruct (index_of_txt (p ++ q) s) as [k|]; [|done]. intros [= <-].
      destruct (IH k eq_refl) as (m & -> & Hm). exists (S m). split; [done|lia].
Qed.

(** ** Framing *)

(** [head] ends with its first empty line. *)
Definition is_head (head : txt) : Prop := find_txt (crlf ++ crlf) head 0 = Some (length head - 4)%nat.

Lemma is_head_length head : is_head head → (4 ≤ length head)%nat.
Proof. intros H. apply find_txt_fits in H. simpl in H. lia. Qed.

Lemma parse_request_line_grow head t : is_head head → parse_request_line (head ++ t) = parse_request_line head.
Proof.
  intros H. unfold parse_request_line. rewrite (find_txt_mono _ _ t _ H), H. unfold is_head in H.
  rewrite !find_txt_0 in *. destruct (index_of_txt_prefix _ _ _ _ H) as (m & Hm & Hle).
  rewrite (index_of_txt_mono _ _ t _ Hm), Hm. rewrite take_app_le; [done|lia].
Qed.

Lemma parse_request_line_offset head :
  is_head head → rl_method (parse_request_line head) ≠ [] →
  rl_body_offset (parse_request_line head) = length head.
Proof.
  intros H. unfold parse_request_line. rewrite H. destruct (find_txt crlf head 0); [|done].
  destruct (find_char _ _ 0); [|done]. destruct (find_char _ _ _); [|done]. simpl.
  intros _. pose proof (is_head_length head H). lia.
Qed.

(** Reading stops with the whole head in the buffer, wherever the chunks are
    cut. *)
Lemma read_head_chunks head body chunks rest buf :
  is_head head → size (head ++ body) ≤ 64 * 1024 → Forall (λ c, c ≠ []) chunks →
  buf ++ concat chunks = head ++ body →
  ∃ body0 chunks', read_request_head ((Some <$> chunks) ++ rest) buf =
      Some (head ++ body0, (Some <$> chunks') ++ rest) ∧
    body0 ++ concat chunks' = body ∧ Forall (λ c, c ≠ []) chunks'.
Proof.
  intros Hh Hsz Hne. revert buf. induction Hne as [|c chunks Hc Hne IH]; intros buf Hb.
  - simpl in Hb. rewrite app_nil_r in Hb. subst buf. exists body, []. rewrite app_nil_r.
    split_and!; [|done|constructor].
    destruct rest; simpl; unfold head_complete; by rewrite (find_txt_mono _ _ body _ Hh).
  - destruct (find_txt (crlf ++ crlf) buf 0) as [n|] eqn:E.
    + pose proof (find_txt_mono _ _ (concat (c :: chunks)) _ E) as E'.
      rewrite Hb, (find_txt_mono _ _ body _ Hh) in E'. injection E' as <-.
      pose proof (find_txt_fits _ _ _ E) as Hl. pose proof (is_head_length _ Hh). simpl in Hl.
      exists (drop (length head) buf), (c :: chunks).
      assert (Ht : take (length head) buf = head).
      { apply (f_equal (take (length head))) in Hb.
        by rewrite take_app_le, take_app_length in Hb by lia. }
      assert (Hbuf : head ++ drop (length head) buf = buf) by (rewrite <- Ht at 1; apply take_drop).
      rewrite Hbuf. split_and!.
      * simpl. unfold head_complete. by rewrite E.
      * apply (app_inv_head head). by rewrite app_assoc, Hbuf.
      * by constructor.
    + assert (Hnc : head_complete buf = false).
      { unfold head_complete. rewrite E. apply orb_false_iff. split; [done|].
        apply Z.ltb_ge. rewrite <- Hb, size_app in Hsz. pose proof (size_nonneg (concat (c :: chunks))). lia. }
      destruct (IH (buf ++ c)) as (body0 & chunks' & Hr & Hc').
      { rewrite <- app_assoc. done. }
      exists body0, chunks'. split; [|done]. simpl. rewrite Hnc. by destruct c.
Qed.

Lemma read_body_chunks chunks rest body0 body :
  Forall (λ c, c ≠ []) chunks → body0 ++ concat chunks = body →
  read_body ((Some <$> chunks) ++ rest) body0 (size body) = Some (Some body).
Proof.
  intros Hne. revert body0. induction Hne as [|c chunks Hc Hne IH]; intros body0 Hb.
  - simpl in Hb. rewrite app_nil_r in Hb. subst. destruct rest; simpl; by rewrite Z.ltb_irrefl.
  - simpl. case_if.
    + pose proof (f_equal size Hb) as Hs. simpl in Hs. rewrite !size_app in Hs.
      pose proof (size_nonneg (concat chunks)).
      destruct c; [done|]. rewrite size_cons in Hs. pose proof (size_nonneg c). lia.
    + destruct c as [|x c]; [done|]. apply IH. rewrite <- app_assoc. done.
Qed.

(** ** The invariant of the server *)

Abbreviation valid_docs docs := (Forall (λ d, valid_doc_id d = true) (keys docs)).

Lemma emplace_valid d (docs : doc_set) : valid_doc_id d = true → valid_docs docs → valid_docs (emplace d tt docs).
Proof.
  rewrite !Forall_forall. intros Hd Hk x Hx. apply keys_emplace in Hx as [->|Hx]; [done|by apply Hk].
Qed.

Lemma parse_docs_loop_valid f s out : valid_docs out → valid_docs (parse_docs_loop f s out).
Proof.
  revert s out. induction f as [|f IH]; intros s out Ho; [done|]. simpl.
  destruct s as [|c s]; [done|]. case_if; [|by apply IH].
  destruct (index_of dquote s); [|done]. apply IH. case_if; [|done]. by apply emplace_valid.
Qed.

Lemma ensure_doc_inv g d : valid_doc_id d = true → state_inv g → state_inv (ensure_doc g d).
Proof.
  intros Hd [Hk Hw Hc]. split; simpl.
  - by apply emplace_valid.
  - by apply wf_emplace.
  - intros x. rewrite doc_ensure_doc. apply Hc.
Qed.

Lemma ensure_all_inv g ds :
  Forall (λ d, valid_doc_id d = true) ds → state_inv g → state_inv (foldl ensure_doc g ds).
Proof.
  intros Hd. revert g. induction Hd as [|d ds Hd _ IH]; intros g Hg; simpl; [done|].
  by apply IH, ensure_doc_inv.
Qed.

Lemma ensure_registry_inv g (v : option vv) :
  state_inv g →
  state_inv (match v with
             | Some v => foldl ensure_doc g (keys (parse_docs_registry (vv_value v)))
             | None => g
             end).
Proof. destruct v; [|done]. apply ensure_all_inv. apply parse_docs_loop_valid. constructor. Qed.

Lemma set_doc_inv g d c : coherent c → state_inv g → state_inv (set_doc g d c).
Proof.
  intros Hc [Hk Hw Hg]. split; [done|done|]. intros x. rewrite doc_set_doc. case_decide; [done|apply Hg].
Qed.

Lemma poll_tick_inv g db : state_inv g → state_inv (poll_tick g db).
Proof.
  intros Hg. unfold poll_tick. apply (ensure_registry_inv g (get db kDocsRegistryKey)) in Hg.
  revert Hg. generalize (match get db kDocsRegistryKey with
    | Some v => foldl ensure_doc g (keys (parse_docs_registry (vv_value v))) | None => g end).
  intros g'. generalize (keys (known_docs_ g')). intros ds. revert g'.
  induction ds as [|d ds IH]; intros g' Hg; simpl; [done|]. apply IH. apply set_doc_inv; [|done].
  apply (cache_step_coherent d (doc g' d) (poll_event db)), inv_coherent, Hg.
Qed.

Lemma set_cursor_coherent c h e : coherent c → coherent (set_cursor c h e).
Proof. by intros []. Qed.

#[local] Hint Resolve ensure_doc_inv set_doc_inv inv_coherent note_committed_coherent
  note_client_label_coherent set_cursor_coherent : draft.

Lemma finish_post_op_inv d op cid seq v g : state_inv g → state_inv (finish_post_op d op cid seq v g).1.
Proof.
  intros Hg. unfold finish_post_op. case_if; simpl; [done|]. apply set_doc_inv; [|done].
  apply note_committed_coherent, inv_coherent, Hg.
Qed.

Lemma finish_post_cursor_inv d cid pos v g : state_inv g → state_inv (finish_post_cursor d cid pos v g).1.
Proof.
  intros Hg. unfold finish_post_cursor. case_if; simpl; [done|]. apply set_doc_inv; [|done].
  apply set_cursor_coherent, inv_coherent, Hg.
Qed.

(** What a handler leaves: a good state, and a good submission if it waits. *)
Definition handled_inv (r : handled) : Prop :=
  state_inv r.1 ∧
  match r.2 with submits key value resume => pending_inv (mk_pending key value resume) | _ => True end.

Lemma label_inv g d h l : state_inv g → state_inv (set_doc g d (note_client_label (doc g d) h l)).
Proof. intros Hg. apply set_doc_inv; [|done]. apply note_client_label_coherent, inv_coherent, Hg. Qed.

Lemma handle_post_op_inv g d body :
  valid_doc_id d = true → state_inv g → handled_inv (handle_post_op_doc g d body).
Proof.
  intros Hd Hg. unfold handle_post_op_doc. destruct (parse_op_body body) as [[[op cid] seq]|]; [|done].
  split; simpl; [by apply label_inv|]. split; simpl.
  - right. exists d. split; [done|]. left. by exists cid, seq.
  - intros. by apply finish_post_op_inv.
Qed.

Lemma handle_post_cursor_inv g d body :
  valid_doc_id d = true → state_inv g → handled_inv (handle_post_cursor_doc g d body).
Proof.
  intros Hd Hg. unfold handle_post_cursor_doc.
  destruct (json_get_string body _) as [cid|]; [|done].
  destruct (json_get_int body _) as [pos|]; [|done]. case_if; [done|].
  split; simpl; [by apply label_inv|]. split; simpl.
  - right. exists d. split; [done|]. right. by exists cid.
  - intros. by apply finish_post_cursor_inv.
Qed.

Lemma handle_post_docs_inv g body : state_inv g → handled_inv (handle_post_docs g body).
Proof.
  intros Hg. unfold handle_post_docs. destruct (json_get_string body _) as [id|]; [|done].
  case_if; [done|]. split; simpl; [by apply ensure_doc_inv|]. split; simpl; [by left|].
  intros v g' Hg'. unfold finish_post_docs. by case_if.
Qed.

Lemma replied_inv g effects response : state_inv g → handled_inv (g, replied effects response).
Proof. done. Qed.

Lemma route_valid path sub :
  bool_decide (snd <$> parse_doc_route path = Some sub) = true →
  valid_doc_id (default [] (fst <$> parse_doc_route path)) = true.
Proof.
  intros H. destruct (parse_doc_route path) as [[d s]|] eqn:E; [|by bsimp].
  by apply parse_doc_route_Some in E as [Hd _].
Qed.

Lemma handled_if (b : bool) (r1 r2 : handled) :
  (b = true → handled_inv r1) → handled_inv r2 → handled_inv (if b then r1 else r2).
Proof. destruct b; auto. Qed.

Lemma dispatch_inv h g method path head_only body :
  state_inv g → handled_inv (dispatch h g method path head_only body).
Proof.
  intros Hg. unfold dispatch.
  assert (Hr : ∀ sub b, bool_decide (snd <$> parse_doc_route path = Some sub) && b = true →
            valid_doc_id (default [] (fst <$> parse_doc_route path)) = true).
  { intros sub b [H _]%andb_true_iff. by eapply route_valid. }
  set (d := default [] (fst <$> parse_doc_route path)) in *.
  assert (Hens : valid_doc_id d = true → state_inv (ensure_doc g d)) by eauto using ensure_doc_inv.
  apply handled_if; [intros E%Hr|].
  { split; [|done]. simpl. apply set_doc_inv; [apply inv_coherent|]; auto. }
  apply handled_if; [intros _; unfold handle_post_debug_log; by case_if|].
  apply handled_if; [rewrite andb_comm; intros E%Hr; apply handle_post_op_inv; auto|].
  apply handled_if; [rewrite andb_comm; intros E%Hr; apply handle_post_cursor_inv; auto|].
  apply handled_if; [rewrite andb_comm; intros E%Hr; split; [simpl; auto|done]|].
  apply handled_if; [done|].
  apply handled_if; [intros _; by apply handle_post_docs_inv|].
  do 3 (apply handled_if; [done|]). apply handled_if; [intros _|done].
  unfold handle_admin_fail. destruct (fail_replica h); [|done].
  destruct (from_chars_all _); [|done]. by case_if.
Qed.

Lemma server_step_inv s e : server_inv s → server_inv (server_step s e).
Proof.
  intros [Hs Hp]. destruct e as [h rs|i v|db]; simpl.
  - unfold handle_connection. destruct (read_request rs) as [[[[rl head_only] body]|]|]; [|done|done].
    destruct (dispatch_inv h (sv_state s) (rl_method rl) (rl_path rl) head_only body Hs) as [Hg Ho].
    destruct (dispatch _ _ _ _ _ _) as [g []]; split; simpl in *; try done.
    apply Forall_app. split; [done|]. apply Forall_cons. split; [done|constructor].
  - destruct (sv_pending s !! i) as [p|] eqn:E; [|done]. split; simpl.
    + apply (Forall_lookup_1 _ _ _ _ Hp E). done.
    + by apply Forall_delete.
  - split; simpl; [by apply poll_tick_inv|done].
Qed.

Lemma server_run_inv bridge_doc_id db events :
  valid_doc_id bridge_doc_id = true →
  server_inv (foldl server_step (server_start bridge_doc_id db) events).
Proof.
  intros Hd. induction events as [|e events IH] using rev_ind.
  - split; [|constructor]. apply ensure_registry_inv, ensure_doc_inv; [done|].
    split; simpl; [constructor|constructor|]. done.
  - rewrite foldl_app. by apply server_step_inv.
Qed.

(** ** Committing an operation *)

Lemma hash_client_id_u64 s : is_u64 (hash_client_id s).
Proof.
  unfold hash_client_id. induction s as [|c s IH] using rev_ind; [done|].
  rewrite foldl_app. apply u64_range.
Qed.

Lemma parse_op_body_u64 body op cid seq :
  parse_op_body body = Ok (op, cid, seq) → op_u64 op ∧ is_u64 seq.
Proof.
  unfold parse_op_body. intros H. repeat case_match; simplify_eq; simpl;
    repeat split; apply u64_range.
Qed.

(** A database without an operation of this client and sequence number gets
    one more. *)
Lemma read_ops_commit db d cid seq op :
  db_wf db → is_u64 cid → is_u64 seq → op_u64 op →
  Forall (λ o, ¬ (co_client_id o = cid ∧ co_client_seq o = seq)) (read_ops db d) →
  read_ops (put db (op_key d cid seq) (serialize op)) d =
    read_ops db d ++ [mk_committed_op (next_version_ db) cid seq op []].
Proof.
  intros Hwf Hc Hs Hop Hno. rewrite read_ops_put_any by done. rewrite filter_none_key; [|done|].
  - rewrite (cell_op_op_key d cid seq _ op); try done.
    + simpl. unfold nonexistent_version. pose proof (wf_next db Hwf). lia.
    + by apply serialize_deserialize.
  - intros v Hv. destruct (cell_op _ _) as [c|] eqn:Ec; [|done]. exfalso.
    rewrite Forall_forall in Hno. apply (Hno c).
    + apply elem_of_read_ops; [done|]. eauto.
    + apply cell_op_Some in Ec as (suffix & cid' & seq' & op' & Hk & _ & Hp & _ & _ & ->).
      rewrite op_key_prefix in Hk. apply app_inv_head in Hk as <-.
      rewrite parse_op_suffix_dec in Hp by done. by injection Hp as <- <-.
Qed.

Lemma mirrors_version db d s : db_wf db → mirrors s db d → version_ s < next_version_ db.
Proof.
  intros Hwf (_ & _ & ->). unfold last_version. pose proof (wf_next db Hwf).
  destruct (last (read_ops db d)) as [o|] eqn:E; [|lia].
  apply last_Some_elem_of in E. apply read_ops_versions in E; [lia|done].
Qed.

(** * Properties *)

(** A request is read the same however TCP cuts it: when the chunks that
    arrive concatenate to a head and a body of the announced length, the
    request line, the head and the body are those, and reads beyond are not
    started. *)
Theorem request_framing (head body : txt) (chunks : list txt) (rest : reads) :
  is_head head → rl_method (parse_request_line head) ≠ [] → content_length head = size body →
  size (head ++ body) ≤ 64 * 1024 → Forall (λ c, c ≠ []) chunks → concat chunks = head ++ body →
  read_request ((Some <$> chunks) ++ rest) = Some (Some (parse_request_line head, head, body)).
Proof.
  intros Hh Hm Hcl Hsz Hne Hb. unfold read_request.
  destruct (read_head_chunks head body chunks rest [] Hh Hsz Hne Hb) as (body0 & chunks' & -> & Hb' & Hne').
  rewrite bool_decide_eq_false_2.
  2: { intros H. apply (f_equal length) in H. rewrite length_app in H. pose proof (is_head_length _ Hh).
       simpl in H. lia. }
  rewrite parse_request_line_grow, parse_request_line_offset by done.
  rewrite bool_decide_eq_false_2 by done. rewrite take_app_length, drop_app_length, Hcl.
  by rewrite (read_body_chunks chunks' rest body0 body).
Qed.

Lemma request_framing_witness :
  let head := $"POST /doc/d/op HTTP/1.1" ++ crlf ++ $"Content-Length: 2" ++ crlf ++ crlf in
  read_request [Some $"POST /d"; Some ($"oc/d/op HTTP/1.1" ++ [cr]); Some ([lf] ++ $"Content-Length: 2");
                Some (crlf ++ crlf ++ $"{"); Some $"}"; None]
  = Some (Some (parse_request_line head, head, $"{}")).
Proof.
  intros head. apply (request_framing head $"{}"
    [$"POST /d"; $"oc/d/op HTTP/1.1" ++ [cr]; [lf] ++ $"Content-Length: 2"; crlf ++ crlf ++ $"{"; $"}"] [None]);
    try by vm_compute.
  repeat constructor; done.
Defined.

(** [write_all] reports success exactly when every byte went out, and
    otherwise has sent a proper prefix. *)
Theorem write_all_delivers (writes : list (option nat)) (s : txt) :
  match write_all writes s with
  | (Some true, out) => out = s
  | (_, out) => ∃ rest, s = out ++ rest ∧ rest ≠ []
  end.
Proof. apply write_all_spec. Qed.

(** C29 Posting a new operation works end to end: a body that parses is submitted
    under the operation key of its client; when the database stores it as the
    next version, the cache of that moment mirrored the database just before,
    and no operation of that client and sequence number was stored yet, the
    resumed handler answers 200 with the version and leaves a cache that mirrors
    the new database, its text the old text with the operation applied, and
    every other document untouched.  (A stored repeat is given a new version,
    which the cache does not see before the next poll: [stored_repeat_lags].) *)
Theorem post_op_commits (g g' : server_cache_state) (d body cid : txt) (op : doc_op) (seq : Z) (db : pancydb) :
  parse_op_body body = Ok (op, cid, seq) → db_wf db → mirrors (doc g' d) db d →
  Forall (λ o, ¬ (co_client_id o = hash_client_id cid ∧ co_client_seq o = seq)) (read_ops db d) →
  let key := op_key d (hash_client_id cid) seq in
  let v := next_version_ db in
  ∃ g1 resume, handle_post_op_doc g d body = (g1, submits key (serialize op) resume) ∧
    let '(g2, response) := resume v g' in
    response = json_reply 200 $"OK" (version_body v) ∧
    mirrors (doc g2 d) (put db key (serialize op)) d ∧
    text_ (doc g2 d) = apply_op (text_ (doc g' d)) op ∧
    ∀ d', d' ≠ d → doc g2 d' = doc g' d'.
Proof.
  intros Hp Hwf Hm Hno key v. destruct (parse_op_body_u64 _ _ _ _ Hp) as [Hop Hs].
  pose proof (wf_next db Hwf). pose proof (hash_client_id_u64 cid) as Hh.
  pose proof (read_ops_commit db d _ seq op Hwf Hh Hs Hop Hno) as Hr.
  unfold handle_post_op_doc. rewrite Hp. do 2 eexists. split; [reflexivity|].
  unfold finish_post_op, v. destruct (next_version_ db =? 0) eqn:E; [bsimp; lia|].
  split; [done|].
  set (co := mk_committed_op (next_version_ db) (hash_client_id cid) seq op cid).
  assert (Hm' : mirrors (note_committed (doc g' d) co) (put db key (serialize op)) d).
  { apply (note_fresh _ co db); [done| |by apply mirrors_version with d|exact Hr].
    rewrite <- strip_no_client_seq, (proj1 Hm). exact Hno. }
  rewrite doc_set_doc, decide_True by done. split_and!; [done| |].
  - destruct Hm' as (_ & -> & _). destruct Hm as (_ & -> & _).
    unfold key. rewrite Hr. by rewrite reconstruct_snoc.
  - intros d' Hd'. by rewrite doc_set_doc, decide_False.
Qed.

(** The body of a first insertion by the client [c]. *)
Definition sample_body : txt :=
  $"{" ++ quoted $"type" ++ $":" ++ quoted $"I" ++ $"," ++ quoted $"pos" ++ $":0,"
  ++ quoted $"text" ++ $":" ++ quoted $"hi" ++ $"," ++ quoted $"client_id" ++ $":"
  ++ quoted $"c" ++ $"," ++ quoted $"seq" ++ $":0}".

Lemma post_op_commits_witness :
  let g := mk_server_cache_state [] [] 0 in
  ∃ g1 resume, handle_post_op_doc g $"d" sample_body =
      (g1, submits (op_key $"d" (hash_client_id $"c") 0) (serialize (insert_op 0 $"hi")) resume) ∧
    text_ (doc (resume 1 g).1 $"d") = $"hi".
Proof.
  intros g.
  destruct (post_op_commits g g $"d" sample_body $"c" (insert_op 0 $"hi") 0 empty_db)
    as (g1 & resume & H & Hr).
  - by vm_compute.
  - apply empty_db_wf.
  - by split_and!.
  - constructor.
  - exists g1, resume. split; [exact H|].
    change (next_version_ empty_db) with 1 in Hr. destruct (resume 1 g) as [g2 response].
    destruct Hr as (_ & _ & Ht & _). exact Ht.
Defined.

(** The same body posted twice: the database stores the repeat as version 2, the
    cache keeps the operation once, as version 1.  The text is the same. *)
Example stored_repeat_lags :
  let key := op_key $"d" (hash_client_id $"c") 0 in
  let stored := serialize (insert_op 0 $"hi") in
  match (handle_post_op_doc (mk_server_cache_state [] [] 0) $"d" sample_body).2 with
  | submits _ _ resume =>
      let g := (resume 2 (resume 1 (mk_server_cache_state [] [] 0)).1).1 in
      let db := put (put empty_db key stored) key stored in
      version_ (doc g $"d") = 1 ∧ (co_version <$> read_ops db $"d") = [2] ∧
      text_ (doc g $"d") = reconstruct (read_ops db $"d")
  | _ => False
  end.
Proof. by vm_compute. Qed.

(** C30 Whatever connections, pollers and resumed handlers do, in any order:
    every known document id is valid, so the registry the server writes reads
    back as the set it knows; every cached text is the replay of its
    operations; and every write waiting to be committed goes to the registry
    or to an operation or cursor key of a valid document id. *)
Theorem server_always_sound (bridge_doc_id : txt) (db : pancydb) (events : list server_event) :
  valid_doc_id bridge_doc_id = true →
  let s := foldl server_step (server_start bridge_doc_id db) events in
  Forall (λ d, valid_doc_id d = true) (keys (known_docs_ (sv_state s))) ∧
  parse_docs_registry (docs_registry_json (known_docs_ (sv_state s))) = known_docs_ (sv_state s) ∧
  (∀ d, text_ (doc (sv_state s) d) = reconstruct (ops_ (doc (sv_state s) d))) ∧
  Forall (λ p, confined (pend_key p)) (sv_pending s).
Proof.
  intros Hd s. destruct (server_run_inv bridge_doc_id db events Hd) as [[Hk Hw Hc] Hp].
  split_and!; [done| | |].
  - by apply registry_roundtrip.
  - intros d. apply Hc.
  - eapply Forall_impl; [exact Hp|]. by intros p [].
Qed.

Lemma server_always_sound_witness :
  let s := foldl server_step (server_start $"main" empty_db) [on_poll empty_db] in
  keys (known_docs_ (sv_state s)) = [$"main"] ∧
  parse_docs_registry (docs_registry_json (known_docs_ (sv_state s))) = known_docs_ (sv_state s).
Proof.
  intros s. split; [by vm_compute|].
  apply (server_always_sound $"main" empty_db [on_poll empty_db]). by vm_compute.
Defined.

(** The field lookup takes a value for a field name: inserting the text
    [seq] is refused as a request without [seq], although the body holds every
    field, in the order the editor writes them.  The refused request leaves
    the server unchanged. *)
Theorem post_op_refuses_field_name (g : server_cache_state) (d : txt) :
  let body text := $"{" ++ quoted $"type" ++ $":" ++ quoted $"I" ++ $"," ++ quoted $"pos" ++ $":0,"
              ++ quoted $"text" ++ $":" ++ quoted text ++ $"," ++ quoted $"client_id" ++ $":"
              ++ quoted $"c_1" ++ $"," ++ quoted $"seq" ++ $":7}" in
  handle_post_op_doc g d (body $"seq") =
    (g, replied [] (bad_request $"missing field (type/pos/client_id/seq)")) ∧
  parse_op_body (body $"sea") = Ok (insert_op 0 $"sea", $"c_1", 7).
Proof.
  intros body. split; [|by vm_compute]. unfold handle_post_op_doc.
  assert (parse_op_body (body $"seq") = Throw $"missing field (type/pos/client_id/seq)") as ->
    by by vm_compute. done.
Qed.
