(* ===== verification/TimerHeap.v ===== *)
(** The timer queue of the coroutine runtime ([src/cotamer/timer_heap.hh]) and
    the circular integers that break its ties ([src/cotamer/circular_int.hh]).

    The array [es_] of [size_] elements is a list; [capacity_], the allocation
    and the destructors have no counterpart.  A stable queue runs beside the
    heap as its specification ([timer_step]), with the values that have become
    empty, since events trigger outside of the heap.  Positions are [nat]: the array
    of a heap is far below the 2^30 elements at which [i * arity] would wrap. *)

From S2P Require Import Prelude.

(** * Circular integers

    [circular_int<T>] for an unsigned [T] of [w] bits; a value is an integer of
    [[0, 2^w)]. *)

Section CircularInt.
Context (w : Z).

Definition wrap (z : Z) : Z := z mod 2 ^ w.
(** Conversion of an unsigned value to [difference_type]. *)
Definition to_signed (v : Z) : Z := if v <? 2 ^ (w - 1) then v else v - 2 ^ w.

Definition circ_succ (v : Z) : Z := wrap (v + 1).
Definition circ_pred (v : Z) : Z := wrap (v - 1).
Definition circ_add (v x : Z) : Z := wrap (v + x).
Definition circ_sub (v x : Z) : Z := wrap (v - x).
Definition next_nonzero (v : Z) : Z := let v := wrap (v + 1) in wrap (v + (if v =? 0 then 1 else 0)).
Definition circ_diff (a b : Z) : Z := to_signed (wrap (a - b)).
Definition circ_less (a b : Z) : bool := to_signed (wrap (a - b)) <? 0.
Definition circ_less_equal (a b : Z) : bool := to_signed (wrap (a - b)) <=? 0.
(** [operator<=>]. *)
Definition circ_compare (a b : Z) : comparison :=
  if a =? b then Eq else if to_signed (wrap (a - b)) <? 0 then Lt else Gt.
End CircularInt.

(** * The heap *)

Definition arity : nat := 4.

Record element (A : Type) := mk_element {
  when : Z;
  order : Z;
  value : A;
}.
Arguments mk_element {A} when order value.
Arguments when {A} e.
Arguments order {A} e.
Arguments value {A} e.

Record timer_heap (A : Type) := mk_timer_heap {
  es_ : list (element A);
  order_ : Z;
  cull_rand_ : Z;
}.
Arguments mk_timer_heap {A} es_ order_ cull_rand_.
Arguments es_ {A} t.
Arguments order_ {A} t.
Arguments cull_rand_ {A} t.

Section TimerHeap.
Context {A : Type} (empty_type : A → bool).

Definition new_heap : timer_heap A := mk_timer_heap [] 0 8173.

Definition empty (h : timer_heap A) : bool := (length (es_ h) =? 0)%nat.
Definition top (h : timer_heap A) : option (element A) := es_ h !! 0%nat.
Definition top_time (h : timer_heap A) : option Z := when <$> top h.
Definition clear (h : timer_heap A) : timer_heap A := mk_timer_heap [] (order_ h) (cull_rand_ h).

Definition elem_lt (a b : element A) : bool :=
  (when a <? when b) || ((when a =? when b) && bool_decide (circ_compare 32 (order a) (order b) = Lt)).

Definition heap_parent (i : nat) : nat := (i / arity)%nat.
Definition heap_first_child (i : nat) : nat := (i * arity + (if (i =? 0)%nat then 1 else 0))%nat.
Definition heap_last_child (n i : nat) : nat := Nat.min (i * arity + arity) n.

(** [es_[i] < es_[j]]; the code's positions are in range. *)
Definition lt_at (es : list (element A)) (i j : nat) : bool :=
  match es !! i, es !! j with Some a, Some b => elem_lt a b | _, _ => false end.

Definition swap (es : list (element A)) (i j : nat) : list (element A) :=
  match es !! i, es !! j with
  | Some a, Some b => <[i := b]> (<[j := a]> es)
  | _, _ => es
  end.

(** The loop that moves an element towards the root; a parent has a smaller
    position, so the position is enough fuel. *)
Fixpoint sift_up (fuel : nat) (es : list (element A)) (pos : nat) : list (element A) :=
  match fuel with
  | O => es
  | S f =>
      if (pos =? 0)%nat then es
      else
        let p := heap_parent pos in
        if negb (lt_at es pos p) then es else sift_up f (swap es pos p) p
  end.

Definition smallest_child (es : list (element A)) (pos : nat) : nat :=
  foldl (λ smallest t, if lt_at es t smallest then t else smallest) pos
    (seq (heap_first_child pos) (heap_last_child (length es) pos - heap_first_child pos)).

(** The loop that moves an element away from the root; a child has a larger
    position, so the size is enough fuel. *)
Fixpoint sift_down (fuel : nat) (es : list (element A)) (pos : nat) : list (element A) :=
  match fuel with
  | O => es
  | S f =>
      let smallest := smallest_child es pos in
      if (smallest =? pos)%nat then es else sift_down f (swap es pos smallest) smallest
  end.

(** [hard_cull(pos)] for [pos < size_]. *)
Definition hard_cull (es : list (element A)) (pos : nat) : list (element A) :=
  let n := (length es - 1)%nat in
  if (pos =? n)%nat then take n es
  else
    let es := take n (swap es n pos) in
    if (pos =? 0)%nat || negb (lt_at es pos (heap_parent pos)) then sift_down (length es) es pos
    else sift_up pos (swap es pos (heap_parent pos)) (heap_parent pos).

Definition set_es (h : timer_heap A) (es : list (element A)) : timer_heap A :=
  mk_timer_heap es (order_ h) (cull_rand_ h).

Definition pop (h : timer_heap A) : timer_heap A := set_es h (hard_cull (es_ h) 0).

Definition is_empty_at (es : list (element A)) (pos : nat) : bool :=
  match es !! pos with Some e => empty_type (value e) | None => false end.

(** Each round removes an element: the size is enough fuel for both loops. *)
Fixpoint cull_loop (fuel : nat) (es : list (element A)) : list (element A) :=
  match fuel with
  | O => es
  | S f => if is_empty_at es 0 then cull_loop f (hard_cull es 0) else es
  end.

Definition cull (h : timer_heap A) : timer_heap A := set_es h (cull_loop (length (es_ h)) (es_ h)).

Fixpoint random_cull (fuel : nat) (es : list (element A)) (rand : Z) : list (element A) * Z :=
  match fuel with
  | O => (es, rand)
  | S f =>
      if (length es <? 32)%nat then (es, rand)
      else
        let pos := Z.to_nat (rand mod size es) in
        let rand := u32 (rand * 1664525 + 1013904223) in
        if negb (is_empty_at es pos) then (es, rand) else random_cull f (hard_cull es pos) rand
  end.

Definition emplace (h : timer_heap A) (t : Z) (v : A) : timer_heap A :=
  let '(es, rand) := random_cull (length (es_ h)) (es_ h) (cull_rand_ h) in
  let pos := length es in
  let ord := u32 (order_ h + 1) in
  mk_timer_heap (sift_up pos (es ++ [mk_element t ord v]) pos) ord rand.

(** * What the queue promises

    The order numbers compare as integers while they lie in half a circle,
    which starts at [base]. *)

Definition age (base : Z) (e : element A) : Z := u32 (order e - base).
Definition in_window (base : Z) (e : element A) : Prop := age base e < 2 ^ 31.

(** Earlier time first, then insertion order, as one number. *)
Definition rank (base : Z) (e : element A) : Z := when e * 2 ^ 31 + age base e.

(** Elements in heap order for a [key], all of them in [ok]. *)
Definition key_at (key : element A → Z) (es : list (element A)) (i : nat) : Z := default 0 (key <$> es !! i).

Definition heap_ordered (key : element A → Z) (es : list (element A)) : Prop :=
  ∀ i, (0 < i < length es)%nat → key_at key es (heap_parent i) ≤ key_at key es i.

Record heap_inv (key : element A → Z) (ok : element A → Prop) (es : list (element A)) : Prop := {
  inv_ordered : heap_ordered key es;
  inv_window : Forall ok es;
}.

(** * Lemmas *)

Lemma u32_range z : 0 ≤ u32 z < two32.
Proof. apply Z.mod_pos_bound. done. Qed.

Lemma to_signed_neg d : - 2 ^ 31 < d < 2 ^ 31 → (to_signed 32 (wrap 32 d) <? 0) = (d <? 0).
Proof.
  intros Hd. unfold to_signed, wrap. change (2 ^ (32 - 1)) with (2 ^ 31).
  destruct (Z_lt_le_dec d 0).
  - assert (Hm : d mod 2 ^ 32 = d + 2 ^ 32).
    { symmetry. apply (Z.mod_unique_pos _ _ (-1)); lia. }
    rewrite Hm. destruct (d + 2 ^ 32 <? 2 ^ 31) eqn:E; bsimp; [lia|].
    transitivity true; [apply Z.ltb_lt|symmetry; apply Z.ltb_lt]; lia.
  - rewrite Z.mod_small by lia. destruct (d <? 2 ^ 31) eqn:E; bsimp; [done|lia].
Qed.

Lemma wrap_ages base a b : wrap 32 (u32 (a - base) - u32 (b - base)) = wrap 32 (a - b).
Proof.
  unfold wrap, u32, two32. change (2 ^ 32) with 4294967296.
  rewrite <- Zminus_mod. f_equal. lia.
Qed.

Lemma circ_less_age base a b :
  u32 (a - base) < 2 ^ 31 → u32 (b - base) < 2 ^ 31 →
  bool_decide (circ_compare 32 a b = Lt) = (u32 (a - base) <? u32 (b - base)).
Proof.
  intros Ha Hb. pose proof (u32_range (a - base)). pose proof (u32_range (b - base)).
  unfold circ_compare. rewrite <- (wrap_ages base), to_signed_neg by lia.
  destruct (a =? b) eqn:E; bsimp; [subst; by rewrite Z.ltb_irrefl|].
  destruct (_ - _ <? 0) eqn:E'; bsimp; symmetry; [apply Z.ltb_lt|apply Z.ltb_ge]; lia.
Qed.

Lemma elem_lt_rank base a b :
  in_window base a → in_window base b → elem_lt a b = true ↔ rank base a < rank base b.
Proof.
  unfold in_window, elem_lt, rank, age. intros Ha Hb. rewrite (circ_less_age base) by done.
  pose proof (u32_range (order a - base)). pose proof (u32_range (order b - base)).
  rewrite orb_true_iff, andb_true_iff, !Z.ltb_lt, Z.eqb_eq. nia.
Qed.

Lemma rank_lt base a b :
  in_window base a → in_window base b → if elem_lt a b then rank base a ≤ rank base b else rank base b ≤ rank base a.
Proof. intros Ha Hb. pose proof (elem_lt_rank base a b Ha Hb) as H. destruct (elem_lt a b); [pose proof (proj1 H eq_refl)|]; lia. Qed.

(** Whatever the order numbers, the comparison never contradicts the times. *)
Lemma when_lt (a b : element A) : True → True → if elem_lt a b then when a ≤ when b else when b ≤ when a.
Proof.
  intros _ _. unfold elem_lt. destruct (Z.ltb_spec (when a) (when b)); cbn; [lia|].
  destruct (Z.eqb_spec (when a) (when b)); cbn; [destruct (bool_decide _)|]; lia.
Qed.

(** ** Swapping *)

Lemma swap_length es i j : length (swap es i j) = length es.
Proof. unfold swap. repeat case_match; rewrite ?length_insert; done. Qed.

Lemma swap_lookup es i j k :
  (i < length es)%nat → (j < length es)%nat →
  swap es i j !! k = es !! (if decide (k = i) then j else if decide (k = j) then i else k).
Proof.
  intros Hi Hj. unfold swap. destruct (lookup_lt_is_Some_2 es i Hi) as [a Ha].
  destruct (lookup_lt_is_Some_2 es j Hj) as [b Hb]. rewrite Ha, Hb.
  destruct (decide (k = i)) as [->|Hki].
  { rewrite list_lookup_insert_eq by (rewrite length_insert; done). done. }
  rewrite list_lookup_insert_ne by done.
  destruct (decide (k = j)) as [->|Hkj]; [by rewrite list_lookup_insert_eq|].
  by rewrite list_lookup_insert_ne.
Qed.

Section Order.
Context (key : element A → Z) (ok : element A → Prop).
Context (key_lt : ∀ a b, ok a → ok b → if elem_lt a b then key a ≤ key b else key b ≤ key a).
Notation heap_ordered := (heap_ordered key).
Notation heap_inv := (heap_inv key ok).
Notation key_at := (key_at key).

Lemma key_at_swap es i j k :
  (i < length es)%nat → (j < length es)%nat →
  key_at (swap es i j) k =
    key_at es (if decide (k = i) then j else if decide (k = j) then i else k).
Proof. intros. unfold key_at. by rewrite swap_lookup. Qed.

Lemma swap_perm es i j : swap es i j ≡ₚ es.
Proof.
  destruct (decide (i < length es ∧ j < length es)%nat) as [[Hi Hj]|Hn].
  2: { unfold swap. destruct (es !! i) eqn:Ei; [|done]. destruct (es !! j) eqn:Ej; [|done].
       apply lookup_lt_Some in Ei, Ej. tauto. }
  apply Permutation_inj. split; [apply swap_length|].
  exists (λ k, if decide (k = i) then j else if decide (k = j) then i else k). split.
  - intros x y. repeat case_decide; subst; congruence.
  - intros k. rewrite swap_lookup by done. done.
Qed.

Lemma swap_window es i j : Forall ok es → Forall ok (swap es i j).
Proof. by rewrite swap_perm. Qed.

Lemma lt_at_key es i j :
  Forall ok es → (i < length es)%nat → (j < length es)%nat →
  if lt_at es i j then key_at es i ≤ key_at es j else key_at es j ≤ key_at es i.
Proof.
  intros Hw Hi Hj. unfold lt_at, key_at.
  destruct (lookup_lt_is_Some_2 es i Hi) as [a Ha]. destruct (lookup_lt_is_Some_2 es j Hj) as [b Hb].
  rewrite Ha, Hb. rewrite Forall_lookup in Hw. apply key_lt; eauto.
Qed.

(** ** Sifting *)

Lemma parent_lt i : (0 < i)%nat → (heap_parent i < i)%nat.
Proof. intros. apply Nat.div_lt; unfold arity; lia. Qed.

Lemma parent_child i pos :
  (0 < i)%nat → heap_parent i = pos ↔ (heap_first_child pos ≤ i < pos * arity + arity)%nat.
Proof.
  intros Hi. unfold heap_parent, heap_first_child, arity.
  pose proof (Nat.div_mod i 4). pose proof (Nat.mod_upper_bound i 4).
  destruct (pos =? 0)%nat eqn:E; [apply Nat.eqb_eq in E|apply Nat.eqb_neq in E]; split; intros; lia.
Qed.

(** Only [pos] may be smaller than its parent, and its children are not
    smaller than that parent. *)
Definition up_ordered es pos :=
  (∀ i, (0 < i < length es)%nat → i ≠ pos → key_at es (heap_parent i) ≤ key_at es i) ∧
  (∀ i, (0 < i < length es)%nat → (0 < pos)%nat → heap_parent i = pos →
        key_at es (heap_parent pos) ≤ key_at es i).

Lemma sift_up_perm fuel es pos : sift_up fuel es pos ≡ₚ es.
Proof.
  revert es pos. induction fuel as [|f IH]; intros es pos; simpl; [done|].
  case_if; [done|]. case_if; [done|]. by rewrite IH, swap_perm.
Qed.

Lemma sift_up_ordered fuel es pos :
  Forall ok es → (pos < length es)%nat → (pos ≤ fuel)%nat →
  up_ordered es pos → heap_ordered (sift_up fuel es pos).
Proof.
  revert es pos. induction fuel as [|f IH]; intros es pos Hw Hlen Hf [Hup Hch]; simpl.
  { intros i Hi. apply Hup; [done|lia]. }
  destruct (pos =? 0)%nat eqn:E0.
  { apply Nat.eqb_eq in E0. intros i Hi. apply Hup; [done|lia]. }
  apply Nat.eqb_neq in E0. pose proof (parent_lt pos ltac:(lia)) as Hp.
  pose proof (lt_at_key es pos (heap_parent pos) Hw Hlen ltac:(lia)) as Hlt.
  destruct (lt_at es pos (heap_parent pos)) eqn:E; simpl.
  - apply IH; [by apply swap_window|rewrite swap_length; lia|lia|].
    split; rewrite swap_length; intros i Hi; pose proof (parent_lt i ltac:(lia)).
    + intros Hne. rewrite !key_at_swap by lia. rewrite (decide_False (P := i = heap_parent pos)) by done.
      destruct (decide (i = pos)) as [->|Hnp].
      * rewrite decide_False, decide_True by lia. lia.
      * destruct (decide (heap_parent i = pos)) as [Hip|]; [apply Hch; [done|lia|done]|].
        destruct (decide (heap_parent i = heap_parent pos)) as [He|]; [|by apply Hup].
        specialize (Hup i Hi Hnp). rewrite He in Hup. lia.
    + intros Hp0 Hpar. pose proof (parent_lt (heap_parent pos) Hp0). rewrite !key_at_swap by lia.
      rewrite (decide_False (P := heap_parent (heap_parent pos) = pos)) by lia.
      rewrite (decide_False (P := heap_parent (heap_parent pos) = heap_parent pos)) by lia.
      rewrite (decide_False (P := i = heap_parent pos)) by lia.
      assert (Hpp : key_at es (heap_parent (heap_parent pos)) ≤ key_at es (heap_parent pos))
        by (apply Hup; lia).
      destruct (decide (i = pos)); [done|]. etransitivity; [exact Hpp|].
      rewrite <- Hpar. by apply Hup.
  - intros i Hi. destruct (decide (i = pos)) as [->|Hne]; [|by apply Hup]. lia.
Qed.

(** The smallest of an element and its children. *)
Lemma smallest_fold es pos ts :
  Forall ok es → (pos < length es)%nat → Forall (λ t, t < length es)%nat ts →
  let m := foldl (λ smallest t, if lt_at es t smallest then t else smallest) pos ts in
  (m = pos ∨ m ∈ ts) ∧ key_at es m ≤ key_at es pos ∧
  Forall (λ t, key_at es m ≤ key_at es t) ts ∧ (m = pos ∨ key_at es m ≤ key_at es pos).
Proof.
  intros Hw. revert pos. induction ts as [|t ts IH]; intros pos Hp Ht; simpl.
  { split; [by left|]. split; [lia|]. split; [constructor|by left]. }
  inv Ht. pose proof (lt_at_key es t pos Hw ltac:(done) Hp) as Hlt.
  destruct (lt_at es t pos).
  - destruct (IH t) as (Hm & Hle & Hall & Hs); [done..|].
    split_and!; [|lia|constructor; [lia|done]|right; lia].
    right. destruct Hm as [->|]; [by left|by right].
  - destruct (IH pos) as (Hm & Hle & Hall & Hs); [done..|].
    split_and!; [|done|constructor; [lia|done]|done].
    destruct Hm; [by left|right; by right].
Qed.

Lemma smallest_child_spec es pos :
  Forall ok es → (pos < length es)%nat →
  let m := smallest_child es pos in
  (m < length es)%nat ∧ (m = pos ∨ (0 < m)%nat ∧ heap_parent m = pos ∧ key_at es m ≤ key_at es pos) ∧
  ∀ i, (0 < i < length es)%nat → heap_parent i = pos → key_at es m ≤ key_at es i.
Proof.
  intros Hw Hp. unfold smallest_child. set (ts := seq _ _).
  assert (Hin : ∀ i, i ∈ ts ↔ (0 < i < length es)%nat ∧ heap_parent i = pos).
  { intros i. unfold ts, heap_last_child. rewrite elem_of_seq. split.
    - intros Hi. assert (0 < i)%nat.
      { unfold heap_first_child, arity in Hi. destruct (pos =? 0)%nat eqn:E; [lia|].
        apply Nat.eqb_neq in E. lia. }
      split; [lia|]. apply parent_child; [done|]. lia.
    - intros [Hi Hpar]. apply parent_child in Hpar; [|lia]. lia. }
  destruct (smallest_fold es pos ts) as (Hm & Hle & Hall & Hs); [done|done| |].
  { apply Forall_forall. intros t Ht%Hin. lia. }
  cbn zeta. split_and!.
  - destruct Hm as [->|Hm%Hin]; [done|lia].
  - destruct Hs as [|Hs]; [by left|]. destruct Hm as [|Hm%Hin]; [by left|]. right. naive_solver.
  - intros i Hi Hpar. rewrite Forall_forall in Hall. apply Hall, Hin. done.
Qed.

(** Only the children of [pos] may be smaller than it, and they are not
    smaller than its parent. *)
Definition down_ordered es pos :=
  (∀ i, (0 < i < length es)%nat → heap_parent i ≠ pos → key_at es (heap_parent i) ≤ key_at es i) ∧
  (∀ i, (0 < i < length es)%nat → (0 < pos)%nat → heap_parent i = pos →
        key_at es (heap_parent pos) ≤ key_at es i).

Lemma sift_down_perm fuel es pos : sift_down fuel es pos ≡ₚ es.
Proof.
  revert es pos. induction fuel as [|f IH]; intros es pos; simpl; [done|].
  case_if; [done|]. by rewrite IH, swap_perm.
Qed.

Lemma sift_down_ordered fuel es pos :
  Forall ok es → (pos < length es)%nat → (length es ≤ pos + fuel)%nat →
  down_ordered es pos → heap_ordered (sift_down fuel es pos).
Proof.
  revert es pos. induction fuel as [|f IH]; intros es pos Hw Hlen Hf [Hdn Hch]; [lia|]. simpl.
  destruct (smallest_child_spec es pos Hw Hlen) as (Hml & Hm & Hmin).
  set (m := smallest_child es pos) in *. destruct (m =? pos)%nat eqn:E.
  - apply Nat.eqb_eq in E. intros i Hi. destruct (decide (heap_parent i = pos)) as [Hp|]; [|by apply Hdn].
    rewrite Hp, <- E. by apply Hmin.
  - apply Nat.eqb_neq in E. destruct Hm as [|(Hm0 & Hmp & Hlt)]; [done|].
    pose proof (parent_lt m Hm0) as Hpm. rewrite Hmp in Hpm.
    apply IH; [by apply swap_window|by rewrite swap_length|rewrite swap_length; lia|].
    split; rewrite swap_length; intros i Hi; pose proof (parent_lt i ltac:(lia)).
    + intros Hne. rewrite !key_at_swap by lia. rewrite (decide_False (P := heap_parent i = m)) by done.
      destruct (decide (heap_parent i = pos)) as [Hp|Hp].
      * rewrite (decide_False (P := i = pos)) by lia. destruct (decide (i = m)); [lia|]. by apply Hmin.
      * rewrite (decide_False (P := i = m)) by congruence.
        destruct (decide (i = pos)) as [->|]; [|by apply Hdn]. apply Hch; [lia|lia|done].
    + intros _ Hp. rewrite Hmp, !key_at_swap by lia. rewrite (decide_True (P := pos = pos)) by done.
      rewrite (decide_False (P := i = pos)), (decide_False (P := i = m)) by lia.
      rewrite <- Hp. apply Hdn; [done|]. lia.
Qed.

(** ** The operations *)

Lemma heap_ordered_take n es : heap_ordered es → heap_ordered (take n es).
Proof.
  intros H i Hi. rewrite length_take in Hi. pose proof (parent_lt i ltac:(lia)).
  unfold key_at. rewrite !lookup_take_lt by lia. apply H. lia.
Qed.

Lemma key_at_take n es i : (i < n)%nat → key_at (take n es) i = key_at es i.
Proof. intros. unfold key_at. by rewrite lookup_take_lt. Qed.

Lemma take_last_elem (es : list (element A)) n e :
  es !! n = Some e → length es = S n → es = take n es ++ [e].
Proof.
  intros He Hl. rewrite <- take_S_r by done. by rewrite <- Hl, firstn_all.
Qed.

(** Removing position [pos] removes exactly its element. *)
Lemma hard_cull_perm es pos e : es !! pos = Some e → es ≡ₚ e :: hard_cull es pos.
Proof.
  intros He. pose proof (lookup_lt_Some _ _ _ He) as Hp. unfold hard_cull.
  set (n := (length es - 1)%nat). assert (Hn : length es = S n) by lia.
  destruct (pos =? n)%nat eqn:E.
  - apply Nat.eqb_eq in E as ->. rewrite (take_last_elem es n e) at 1 by done.
    by rewrite Permutation_app_comm.
  - apply Nat.eqb_neq in E.
    assert (Hs : swap es n pos ≡ₚ e :: take n (swap es n pos)).
    { rewrite (take_last_elem (swap es n pos) n e) at 1.
      - by rewrite Permutation_app_comm.
      - rewrite swap_lookup by lia. by rewrite decide_True.
      - by rewrite swap_length. }
    etransitivity; [symmetry; apply (swap_perm es n pos)|]. etransitivity; [exact Hs|].
    apply Permutation_skip.
    generalize (take n (swap es n pos)). intros es1.
    case_if; [by rewrite sift_down_perm|]. by rewrite sift_up_perm, swap_perm.
Qed.

Lemma hard_cull_ordered es pos :
  heap_inv es → (pos < length es)%nat → heap_ordered (hard_cull es pos).
Proof.
  intros [Ho Hw] Hp. unfold hard_cull. set (n := (length es - 1)%nat).
  destruct (pos =? n)%nat eqn:E; [by apply heap_ordered_take|]. apply Nat.eqb_neq in E.
  set (es1 := take n (swap es n pos)).
  assert (Hl : length es1 = n) by (unfold es1; rewrite length_take, swap_length; lia).
  assert (Hw1 : Forall ok es1) by by apply Forall_take, swap_window.
  assert (Hr : ∀ i, (i < n)%nat → i ≠ pos → key_at es1 i = key_at es i).
  { intros i Hi Hne. unfold es1. rewrite key_at_take, key_at_swap by lia. by rewrite !decide_False by lia. }
  assert (Hch : ∀ i, (0 < i < length es1)%nat → (0 < pos)%nat → heap_parent i = pos →
            key_at es1 (heap_parent pos) ≤ key_at es1 i).
  { intros i Hi Hp0 Hpar. pose proof (parent_lt i ltac:(lia)). pose proof (parent_lt pos Hp0).
    rewrite !Hr by lia. transitivity (key_at es pos); [apply Ho; lia|].
    rewrite <- Hpar. apply Ho. lia. }
  assert (Hoth : ∀ i, (0 < i < length es1)%nat → i ≠ pos → heap_parent i ≠ pos →
            key_at es1 (heap_parent i) ≤ key_at es1 i).
  { intros i Hi Hne Hnp. pose proof (parent_lt i ltac:(lia)). rewrite !Hr by lia. apply Ho. lia. }
  destruct (decide (pos = 0%nat)) as [->|Hp0].
  - apply sift_down_ordered; [done|lia|lia|]. split; [|done]. intros i Hi. apply Hoth; [done|lia].
  - rewrite (proj2 (Nat.eqb_neq pos 0)) by done. simpl. pose proof (parent_lt pos ltac:(lia)).
    pose proof (lt_at_key es1 pos (heap_parent pos) Hw1 ltac:(lia) ltac:(lia)) as Hlt.
    destruct (lt_at es1 pos (heap_parent pos)) eqn:El; simpl.
    + pose proof (sift_up_ordered (S pos) es1 pos Hw1 ltac:(lia) ltac:(lia)) as Hup.
      simpl in Hup. rewrite (proj2 (Nat.eqb_neq pos 0)), El in Hup by done. apply Hup. split; [|done].
      intros i Hi Hne. destruct (decide (heap_parent i = pos)) as [Hpar|]; [|by apply Hoth].
      rewrite Hpar. specialize (Hch i Hi ltac:(lia) Hpar). lia.
    + apply sift_down_ordered; [done|lia|lia|]. split; [|done]. intros i Hi Hnp.
      destruct (decide (i = pos)) as [->|]; [|by apply Hoth]. lia.
Qed.

Lemma hard_cull_inv es pos :
  heap_inv es → (pos < length es)%nat → heap_inv (hard_cull es pos).
Proof.
  intros H Hp. split; [by apply hard_cull_ordered|]. destruct (lookup_lt_is_Some_2 es pos Hp) as [e He].
  pose proof (inv_window _ _ _ H) as Hw. rewrite (hard_cull_perm es pos e He) in Hw. by inv Hw.
Qed.

(** The root is the least element. *)
Lemma root_least es i : heap_ordered es → (i < length es)%nat → key_at es 0 ≤ key_at es i.
Proof.
  intros Ho. induction i as [i IH] using lt_wf_ind. intros Hi.
  destruct (decide (i = 0%nat)) as [->|]; [lia|]. pose proof (parent_lt i ltac:(lia)).
  specialize (IH (heap_parent i) ltac:(lia) ltac:(lia)). specialize (Ho i ltac:(lia)). lia.
Qed.

Definition live (e : element A) : Prop := empty_type (value e) = false.

#[global] Instance live_dec e : Decision (live e).
Proof. unfold live. apply _. Defined.

(** The loops that remove empty elements. *)
Definition culled (es es' : list (element A)) : Prop :=
  ∃ gone, es ≡ₚ gone ++ es' ∧ Forall (λ e, ¬ live e) gone.

Lemma culled_refl es : culled es es.
Proof. by exists []. Qed.

Lemma culled_step es pos es' :
  is_empty_at es pos = true → culled (hard_cull es pos) es' → culled es es'.
Proof.
  unfold is_empty_at. destruct (es !! pos) as [e|] eqn:He; [|done]. intros Hv (gone & Hp & Hg).
  exists (e :: gone). split; [by rewrite (hard_cull_perm es pos e He), Hp|].
  constructor; [|done]. unfold live. congruence.
Qed.

Lemma culled_live es es' : culled es es' → filter live es ≡ₚ filter live es'.
Proof. intros (gone & -> & Hg). by rewrite filter_app, (filter_none _ gone). Qed.

Lemma is_empty_at_lt es pos : is_empty_at es pos = true → (pos < length es)%nat.
Proof. unfold is_empty_at. destruct (es !! pos) eqn:E; [|done]. intros _. by eapply lookup_lt_Some. Qed.

Lemma hard_cull_length es pos : (pos < length es)%nat → length es = S (length (hard_cull es pos)).
Proof.
  intros Hp. destruct (lookup_lt_is_Some_2 es pos Hp) as [e He].
  by rewrite (Permutation_length (hard_cull_perm es pos e He)).
Qed.

Lemma cull_loop_spec fuel es :
  (length es ≤ fuel)%nat →
  culled es (cull_loop fuel es) ∧ is_empty_at (cull_loop fuel es) 0 = false ∧
  (heap_inv es → heap_inv (cull_loop fuel es)).
Proof.
  revert es. induction fuel as [|f IH]; intros es Hf; simpl.
  { destruct es; [|simpl in Hf; lia]. split; [apply culled_refl|done]. }
  destruct (is_empty_at es 0) eqn:E; [|split; [apply culled_refl|done]].
  pose proof (is_empty_at_lt es 0 E) as Hl. pose proof (hard_cull_length es 0 Hl).
  destruct (IH (hard_cull es 0)) as (Hc & He & Hi); [lia|].
  split_and!; [by eapply culled_step|done|]. intros Hinv. apply Hi. by apply hard_cull_inv.
Qed.

Lemma random_cull_spec fuel es rand :
  let es' := (random_cull fuel es rand).1 in
  culled es es' ∧ (heap_inv es → heap_inv es').
Proof.
  revert es rand. induction fuel as [|f IH]; intros es rand; simpl; [split; [apply culled_refl|done]|].
  case_if; [split; [apply culled_refl|done]|]. set (pos := Z.to_nat _).
  destruct (is_empty_at es pos) eqn:E; simpl; [|split; [apply culled_refl|done]].
  pose proof (is_empty_at_lt es pos E). specialize (IH (hard_cull es pos) (u32 (rand * 1664525 + 1013904223))).
  destruct IH as [Hc Hi]. split; [by eapply culled_step|]. intros Hinv. apply Hi. by apply hard_cull_inv.
Qed.

Lemma append_inv es e :
  heap_inv es → ok e →
  heap_inv (sift_up (length es) (es ++ [e]) (length es)).
Proof.
  intros [Ho Hw] He. assert (Hw' : Forall ok (es ++ [e])) by (apply Forall_app; by repeat constructor).
  split; [|by rewrite sift_up_perm]. apply sift_up_ordered; [done|rewrite length_app; simpl; lia|done|].
  split; rewrite length_app; simpl; intros i Hi.
  - intros Hne. pose proof (parent_lt i ltac:(lia)). unfold key_at.
    rewrite !lookup_app_l by lia. apply Ho. lia.
  - intros _ Hpar. pose proof (parent_lt i ltac:(lia)). lia.
Qed.
End Order.

(** ** Runs *)

(** After at most [k] insertions from a heap that started at order [base]. *)
Record run_inv (base k : Z) (h : timer_heap A) : Prop := {
  run_heap : heap_inv (rank base) (in_window base) (es_ h);
  run_ages : Forall (λ e, age base e ≤ k) (es_ h);
  run_distinct : NoDup (age base <$> es_ h);
  run_order : order_ h = u32 (base + k);
}.

Lemma age_next base k e : 0 ≤ k < 2 ^ 31 → order e = u32 (base + k) → age base e = k.
Proof.
  intros Hk He. unfold age. rewrite He. unfold u32. rewrite Zminus_mod_idemp_l.
  replace (base + k - base) with k by lia. apply Z.mod_small. unfold two32. lia.
Qed.

Lemma culled_distinct base es es' : culled es es' → NoDup (age base <$> es) → NoDup (age base <$> es').
Proof. intros (gone & -> & _). rewrite fmap_app, NoDup_app. tauto. Qed.

Lemma culled_forall (P : element A → Prop) es es' : culled es es' → Forall P es → Forall P es'.
Proof. intros (gone & -> & _). rewrite Forall_app. tauto. Qed.

Lemma culled_run base k h es :
  culled (es_ h) es → heap_inv (rank base) (in_window base) es → run_inv base k h → run_inv base k (set_es h es).
Proof.
  intros Hc Hi [_ Ha Hd Ho]. split; [done| | |done].
  - by eapply culled_forall.
  - by eapply culled_distinct.
Qed.

Lemma pop_perm h e : top h = Some e → es_ h ≡ₚ e :: es_ (pop h).
Proof. apply hard_cull_perm. Qed.

Lemma emplace_run base k h t v :
  0 ≤ k → k + 1 < 2 ^ 31 → run_inv base k h → run_inv base (k + 1) (emplace h t v).
Proof.
  intros Hk0 Hk [Hi Ha Hd Ho]. unfold emplace.
  destruct (random_cull_spec _ _ (rank_lt base) (length (es_ h)) (es_ h) (cull_rand_ h)) as [Hc Hi'].
  destruct (random_cull _ _ _) as [es rand]. simpl in *. specialize (Hi' Hi).
  set (e := mk_element t (u32 (order_ h + 1)) v).
  assert (Hoe : order e = u32 (base + (k + 1))).
  { simpl. rewrite Ho. unfold u32. rewrite Zplus_mod_idemp_l. f_equal. lia. }
  pose proof (age_next base (k + 1) e ltac:(lia) Hoe) as Hage.
  split; simpl.
  - apply append_inv; [apply rank_lt|done|]. unfold in_window. lia.
  - rewrite sift_up_perm. apply Forall_app. split; [|constructor; [lia|constructor]].
    eapply Forall_impl; [by eapply culled_forall|]. simpl. lia.
  - rewrite sift_up_perm, fmap_app. simpl. apply NoDup_app. split_and!.
    + by eapply culled_distinct.
    + intros x Hx ->%list_elem_of_singleton. apply list_elem_of_fmap in Hx as (y & Hy & Hiny).
      assert (Hle : Forall (λ e, age base e ≤ k) es) by by eapply culled_forall.
      rewrite Forall_forall in Hle. specialize (Hle y Hiny). simpl in Hle. lia.
    + apply NoDup_singleton.
  - by rewrite <- Hoe.
Qed.

Lemma empty_run base k rand : run_inv base k (mk_timer_heap [] (u32 (base + k)) rand).
Proof.
  split; simpl; [split|constructor|constructor|done]; [|constructor].
  intros i Hi. simpl in Hi. lia.
Qed.

Lemma pop_run base k h e : top h = Some e → run_inv base k h → run_inv base k (pop h).
Proof.
  intros He [Hi Ha Hd Ho]. pose proof (pop_perm h e He) as Hp. split.
  - apply hard_cull_inv; [apply rank_lt|done|by eapply lookup_lt_Some].
  - rewrite Hp in Ha. by inv Ha.
  - rewrite Hp in Hd. simpl in Hd. by apply NoDup_cons in Hd as [_ Hd].
  - done.
Qed.

Lemma cull_run base k h : run_inv base k h → run_inv base k (cull h).
Proof.
  intros Hr. destruct (cull_loop_spec _ _ (rank_lt base) (length (es_ h)) (es_ h)) as (Hc & _ & Hi); [done|].
  apply culled_run; [done|apply Hi, Hr|done].
Qed.

(** The top is before every other element in the order of the ranks. *)
Lemma run_top base k h e x : run_inv base k h → top h = Some e → x ∈ es_ (pop h) →
  when e < when x ∨ when e = when x ∧ age base e < age base x.
Proof.
  intros [[Ho Hw] _ Hd _] Ht Hx. pose proof (pop_perm h e Ht) as Hp. rewrite Hp in Hd. simpl in Hd. apply NoDup_cons in Hd as [Hne _].
  assert (age base e ≠ age base x).
  { intros He. apply Hne. rewrite He. by apply list_elem_of_fmap_2. }
  assert (Hin : x ∈ es_ h) by (rewrite Hp; by right).
  apply list_elem_of_lookup in Hin as [i Hi]. pose proof (lookup_lt_Some _ _ _ Hi).
  pose proof (root_least (rank base) (es_ h) i Ho ltac:(done)) as Hmin. unfold key_at in Hmin.
  unfold top in Ht. rewrite Ht, Hi in Hmin. simpl in Hmin. unfold rank in Hmin.
  rewrite Forall_lookup in Hw. pose proof (Hw _ _ Hi). pose proof (Hw _ _ Ht).
  unfold in_window, age in *. pose proof (u32_range (order x - base)). pose proof (u32_range (order e - base)).
  assert (when e ≤ when x) by nia. lia.
Qed.

Lemma emplace_live h t v :
  filter live (es_ (emplace h t v)) ≡ₚ filter live (es_ h) ++ filter live [mk_element t (u32 (order_ h + 1)) v].
Proof.
  unfold emplace. destruct (random_cull_spec _ _ (rank_lt 0) (length (es_ h)) (es_ h) (cull_rand_ h)) as [Hc _].
  destruct (random_cull _ _ _) as [es rand]. simpl in *. by rewrite sift_up_perm, filter_app, (culled_live _ _ Hc).
Qed.

Lemma cull_live h :
  filter live (es_ (cull h)) ≡ₚ filter live (es_ h) ∧
  match top (cull h) with Some e => live e | None => es_ (cull h) = [] end.
Proof.
  destruct (cull_loop_spec _ _ (rank_lt 0) (length (es_ h)) (es_ h)) as (Hc & He & _); [done|].
  split; [symmetry; by apply culled_live|].
  unfold top, cull, is_empty_at in *. simpl. destruct (cull_loop _ _) as [|e es]; done.
Qed.
End TimerHeap.

(** * The stable queue

    The reference is the list of the timers that can still fire, in the order
    in which they were inserted.  The first of the earliest ones is due. *)

Section Queue.
Context {A : Type}.

Fixpoint take_earliest (q : list (Z * A)) : option ((Z * A) * list (Z * A)) :=
  match q with
  | [] => None
  | p :: q' =>
      match take_earliest q' with
      | Some (b, r) => if b.1 <? p.1 then Some (b, p :: r) else Some (p, q')
      | None => Some (p, q')
      end
  end.

Lemma take_earliest_app b q1 q2 :
  Forall (λ p, b.1 < p.1) q1 → Forall (λ p, b.1 ≤ p.1) q2 → take_earliest (q1 ++ b :: q2) = Some (b, q1 ++ q2).
Proof.
  intros H1 H2. induction H1 as [|p q1 Hp H1 IH]; cbn [app take_earliest].
  - destruct (take_earliest q2) as [[b' r]|] eqn:E; [|done].
    assert (Hb : b' ∈ q2) by (clear -E; revert b' r E; induction q2 as [|p q2 IH]; [done|]; intros b' r; cbn;
      destruct (take_earliest q2) as [[b2 r2]|]; [case_match|]; intros [= <- <-]; [right; by eapply IH|left|left]).
    rewrite Forall_forall in H2. specialize (H2 _ Hb). by rewrite (proj2 (Z.ltb_ge _ _)).
  - rewrite IH. by rewrite (proj2 (Z.ltb_lt _ _)).
Qed.

(** The heap, which values are empty at the moment ([empty_type]: an event that
    has triggered elsewhere makes its handle empty), and the reference. *)
Record timers := mk_timers {
  heap : timer_heap A;
  dead : A → bool;
  queue : list (Z * A);
}.

Inductive timer_op :=
  | op_emplace (t : Z) (v : A)
  | op_pop
  | op_cull
  | op_clear
  (** The values of [p] become empty. *)
  | op_expire (p : A → bool).

(** Popping a timer that is empty takes nothing from the reference; [pop]
    needs an element. *)
Definition timer_step (w : timers) (op : timer_op) : timers :=
  let '(mk_timers h d q) := w in
  match op with
  | op_emplace t v => mk_timers (emplace d h t v) d (if d v then q else q ++ [(t, v)])
  | op_pop =>
      if empty h then w
      else mk_timers (pop h) d (if is_empty_at d (es_ h) 0 then q else match take_earliest q with Some (_, q') => q' | None => [] end)
  | op_cull => mk_timers (cull d h) d q
  | op_clear => mk_timers (clear h) d []
  | op_expire p => mk_timers h (λ v, d v || p v) (filter (λ e, p e.2 = false) q)
  end.

Definition entry (e : element A) : Z * A := (when e, value e).

(** The live elements of the heap, listed by age, are the reference. *)
Definition holds_queue (base : Z) (d : A → bool) (h : timer_heap A) (q : list (Z * A)) : Prop :=
  ∃ l, filter (live d) (es_ h) ≡ₚ l ∧ q = entry <$> l ∧ StronglySorted (λ a b, age base a < age base b) l.

Record timers_ok (base k : Z) (w : timers) : Prop := {
  ok_run : run_inv base k (heap w);
  ok_queue : holds_queue base (dead w) (heap w) (queue w);
}.

(** When the top is live it is the first of the earliest timers. *)
Lemma top_is_earliest base k d h q e :
  run_inv base k h → holds_queue base d h q → top h = Some e → live d e →
  ∃ q', take_earliest q = Some (entry e, q') ∧ holds_queue base d (pop h) q'.
Proof.
  intros Hr (l & Hl & -> & Hs) Ht Hlive. pose proof (pop_perm h e Ht) as Hp.
  rewrite Hp, filter_cons_True in Hl by done.
  assert (He : e ∈ l) by (rewrite <-Hl; by left). apply list_elem_of_split in He as (l1 & l2 & ->).
  rewrite <-Permutation_middle in Hl. apply Permutation_cons_inv in Hl.
  assert (Hle : ∀ x, x ∈ l1 ++ l2 → when e < when x ∨ when e = when x ∧ age base e < age base x).
  { intros x Hx. rewrite <-Hl in Hx. apply list_elem_of_filter in Hx as [_ Hx]. by apply (run_top base k h e x). }
  assert (H1 : ∀ x, x ∈ l1 → age base x < age base e).
  { intros x Hx. apply StronglySorted_app in Hs as (Hc & _). apply Hc; [done|by left]. }
  exists (entry <$> (l1 ++ l2)). split.
  - rewrite fmap_app. cbn [fmap list_fmap]. rewrite take_earliest_app; [by rewrite fmap_app| |];
      apply Forall_fmap, Forall_forall; intros x Hx; cbn.
    + specialize (H1 x Hx). destruct (Hle x); [set_solver|done|lia].
    + destruct (Hle x); [set_solver|lia|lia].
  - exists (l1 ++ l2). split; [done|]. split; [done|].
    apply StronglySorted_app in Hs as (Hc & Hs1 & Hs2). apply StronglySorted_app. inv Hs2.
    split; [|done]. intros x y Hx Hy. apply Hc; [done|by right].
Qed.

Lemma StronglySorted_filter (R : element A → element A → Prop) (P : element A → Prop) `{∀ x, Decision (P x)} l :
  StronglySorted R l → StronglySorted R (filter P l).
Proof.
  induction 1 as [|x l Hs IH Hx]; [constructor|]. destruct (decide (P x)); [rewrite filter_cons_True|rewrite filter_cons_False]; try done.
  constructor; [done|]. apply Forall_forall. intros y [_ Hy]%list_elem_of_filter. rewrite Forall_forall in Hx. by apply Hx.
Qed.

Lemma filter_entries (p : A → bool) (l : list (element A)) :
  filter (λ e, p e.2 = false) (entry <$> l) = entry <$> filter (λ e, p (value e) = false) l.
Proof.
  induction l as [|e l IH]; [done|]. cbn [fmap list_fmap]. destruct (decide (p (value e) = false)) as [E|E].
  - rewrite filter_cons_True, filter_cons_True by done. cbn. by rewrite IH.
  - by rewrite filter_cons_False, filter_cons_False by done.
Qed.

Lemma expire_queue base d h q p :
  holds_queue base d h q → holds_queue base (λ v, d v || p v) h (filter (λ e, p e.2 = false) q).
Proof.
  intros (l & Hl & -> & Hs). exists (filter (λ e, p (value e) = false) l).
  split; [|split; [apply filter_entries|by apply StronglySorted_filter]]. rewrite <-Hl, list_filter_filter.
  erewrite list_filter_iff; [done|]. intros e. unfold live. destruct (d (value e)), (p (value e)); cbn; naive_solver.
Qed.

Lemma emplace_queue base k d h q t v :
  0 ≤ k → k + 1 < 2 ^ 31 → run_inv base k h → holds_queue base d h q →
  holds_queue base d (emplace d h t v) (if d v then q else q ++ [(t, v)]).
Proof.
  intros Hk0 Hk Hr (l & Hl & -> & Hs). set (new := mk_element t (u32 (order_ h + 1)) v).
  assert (Hp : filter (live d) (es_ (emplace d h t v)) ≡ₚ l ++ filter (live d) [new]) by (by rewrite emplace_live, Hl).
  destruct (d v) eqn:E.
  - exists l. rewrite filter_cons_False in Hp by (unfold live; cbn; congruence). rewrite filter_nil, app_nil_r in Hp. done.
  - exists (l ++ [new]). rewrite filter_cons_True in Hp by done. split; [done|]. split; [by rewrite fmap_app|].
    apply StronglySorted_app. split; [|split; [done|repeat constructor]].
    intros x y Hx ->%list_elem_of_singleton. rewrite <-Hl in Hx. apply list_elem_of_filter in Hx as [_ Hx].
    pose proof (run_ages _ _ _ Hr) as Ha. rewrite Forall_forall in Ha. specialize (Ha x Hx). cbn in Ha.
    rewrite (age_next base (k + 1) new); [lia|lia|]. cbn. rewrite (run_order _ _ _ Hr). unfold u32. rewrite Zplus_mod_idemp_l. f_equal. lia.
Qed.

Lemma cull_queue base d h q : holds_queue base d h q → holds_queue base d (cull d h) q.
Proof. intros (l & Hl & Hq & Hs). exists l. split; [|done]. rewrite <-Hl. apply cull_live. Qed.

Lemma queue_step_ok base k w op :
  0 ≤ k → k + 1 < 2 ^ 31 → timers_ok base k w → ∃ k', k ≤ k' ≤ k + 1 ∧ timers_ok base k' (timer_step w op).
Proof.
  destruct w as [h d q]. intros Hk0 Hk [Hr Hq]. cbn [heap dead queue] in *. destruct op as [t v| | | |p].
  - exists (k + 1). split; [lia|]. split; [by apply emplace_run|by apply (emplace_queue base k)].
  - exists k. split; [lia|]. unfold timer_step. unfold empty. destruct (_ =? _)%nat eqn:E; [done|]. apply Nat.eqb_neq in E.
    destruct (lookup_lt_is_Some_2 (es_ h) 0) as [e He]; [lia|]. split; cbn [heap dead queue]; [by apply (pop_run base k h e)|].
    unfold is_empty_at. rewrite He. destruct (d (value e)) eqn:Ed.
    + destruct Hq as (l & Hl & Hq). exists l. split; [|done]. rewrite <-Hl, (pop_perm h e He).
      by rewrite filter_cons_False by (unfold live; congruence).
    + destruct (top_is_earliest base k d h q e Hr Hq He Ed) as (q' & -> & Hq'). done.
  - exists k. split; [lia|]. split; [by apply cull_run|by apply cull_queue].
  - exists k. split; [lia|]. cbn. split; cbn [heap dead queue]; [|by exists []; split_and!; [|done|constructor]].
    unfold clear. rewrite (run_order _ _ _ Hr). apply empty_run.
  - exists k. split; [lia|]. split; [done|by apply expire_queue].
Qed.

Lemma timer_run_ok base rand d ops :
  Z.of_nat (length ops) < 2 ^ 31 → 0 ≤ base < two32 →
  ∃ k, 0 ≤ k ≤ Z.of_nat (length ops) ∧
    timers_ok base k (foldl timer_step (mk_timers (mk_timer_heap [] base rand) d []) ops).
Proof.
  intros Hl Hb. induction ops as [|op ops IH] using rev_ind.
  - exists 0. split; [simpl; lia|]. pose proof (empty_run (A := A) base 0 rand) as H.
    unfold u32 in H. rewrite Z.add_0_r, Z.mod_small in H by done. split; [done|]. by exists []; split_and!; [|done|constructor].
  - rewrite length_app in Hl. simpl in Hl. destruct IH as (k & Hk & Hr); [lia|].
    rewrite foldl_app. simpl. destruct (queue_step_ok base k _ op ltac:(lia) ltac:(lia) Hr) as (k' & Hk' & Hr').
    exists k'. split; [|done]. rewrite length_app. simpl. lia.
Qed.

(** The top when it is live, or after [cull]. *)
Lemma due_top base k w : timers_ok base k w → match top (heap w) with Some e => live (dead w) e | None => es_ (heap w) = [] end →
  entry <$> top (heap w) = fst <$> take_earliest (queue w).
Proof.
  intros [Hr Hq]. destruct (top (heap w)) as [e|] eqn:Ht; intros Hl.
  - by destruct (top_is_earliest base k _ _ _ e Hr Hq Ht Hl) as (q' & -> & _).
  - destruct Hq as (l & Hp & -> & _). rewrite Hl in Hp. symmetry in Hp. apply Permutation_nil_r in Hp. by subst l.
Qed.

Lemma queue_contents base k w : timers_ok base k w → entry <$> filter (live (dead w)) (es_ (heap w)) ≡ₚ queue w.
Proof. intros [_ (l & Hl & -> & _)]. by rewrite Hl. Qed.
End Queue.
Arguments timers A : clear implicits.

(** * Properties *)

(** C34 Timers fire in order.  The heap runs beside a stable queue, the list of
    the timers that can still fire in the order they were inserted: inserting
    appends, popping a timer that can fire takes the first of the earliest
    ones, popping an empty one takes nothing, culling changes nothing, and a
    timer leaves when its event triggers elsewhere.  After any run of fewer
    than 2^31 operations from any starting order number, so that the numbers
    may wrap around: the heap holds exactly the timers of the queue, besides
    empty ones; the top, after [cull] or when it is not empty, is the one the
    queue gives next; popping removes exactly the top, and every other element
    is later, or as late and inserted after it. *)
Theorem timer_heap_fires_in_order {A : Type} (d : A → bool) (base rand : Z) (ops : list (timer_op (A := A))) :
  Z.of_nat (length ops) < 2 ^ 31 → 0 ≤ base < two32 →
  let w := foldl timer_step (mk_timers (mk_timer_heap [] base rand) d []) ops in
  entry <$> filter (live (dead w)) (es_ (heap w)) ≡ₚ queue w ∧
  entry <$> top (cull (dead w) (heap w)) = fst <$> take_earliest (queue w) ∧
  ∀ e, top (heap w) = Some e →
    (live (dead w) e → fst <$> take_earliest (queue w) = Some (entry e)) ∧
    es_ (heap w) ≡ₚ e :: es_ (pop (heap w)) ∧
    ∀ x, x ∈ es_ (pop (heap w)) → when e < when x ∨ when e = when x ∧ age base e < age base x.
Proof.
  intros Hl Hb w. destruct (timer_run_ok base rand d ops Hl Hb) as (k & Hk & Hw). fold w in Hw.
  split; [by eapply queue_contents|]. split.
  - apply (due_top base k (mk_timers (cull (dead w) (heap w)) (dead w) (queue w))); [|apply cull_live].
    destruct Hw as [Hr Hq]. split; [by apply cull_run|by apply cull_queue].
  - intros e He. split; [|split; [by apply pop_perm|]].
    + intros Hlive. rewrite <-(due_top base k w Hw); rewrite He; done.
    + intros x. apply (run_top base k); [apply Hw|done].
Qed.

(** Four timers, the order numbers wrapping around; two of the same time, of
    which the first is popped, and the event of another triggers. *)
Definition sample_timers : timers nat :=
  foldl timer_step (mk_timers (mk_timer_heap [] 4294967294 8173) (λ v, v =? 0)%nat [])
    [op_emplace 7 1%nat; op_emplace 5 2%nat; op_emplace 5 3%nat; op_emplace 4 4%nat; op_expire (λ v, v =? 4)%nat; op_cull; op_pop].

Lemma timer_heap_fires_in_order_witness :
  entry <$> filter (live (dead sample_timers)) (es_ (heap sample_timers)) ≡ₚ [(7, 1%nat); (5, 3%nat)] ∧
  entry <$> top (cull (dead sample_timers) (heap sample_timers)) = Some (5, 3%nat).
Proof.
  destruct (timer_heap_fires_in_order (λ v, v =? 0)%nat 4294967294 8173
    [op_emplace 7 1%nat; op_emplace 5 2%nat; op_emplace 5 3%nat; op_emplace 4 4%nat; op_expire (λ v, v =? 4)%nat; op_cull; op_pop])
    as (H1 & H2 & _); [simpl; lia|unfold two32; lia|]. fold sample_timers in H1, H2. split.
  - etransitivity; [exact H1|]. by vm_compute.
  - etransitivity; [exact H2|]. by vm_compute.
Defined.

(** Opportunistic culling never loses a timer: whatever the heap and its
    random seed, inserting keeps exactly the live timers and adds the new one,
    and [cull] keeps exactly the live timers and ends with a live one on top
    or an empty heap. *)
Theorem culling_keeps_live {A : Type} (empty_type : A → bool) (h : timer_heap A) (t : Z) (v : A) :
  let new := mk_element t (u32 (order_ h + 1)) v in
  filter (live empty_type) (es_ (emplace empty_type h t v)) ≡ₚ
    filter (live empty_type) (es_ h) ++ filter (live empty_type) [new] ∧
  filter (live empty_type) (es_ (cull empty_type h)) ≡ₚ filter (live empty_type) (es_ h) ∧
  match top (cull empty_type h) with Some e => live empty_type e | None => es_ (cull empty_type h) = [] end.
Proof. split; [apply emplace_live|apply cull_live]. Qed.
