(* ===== verification/Driver.v ===== *)
(** The event loop of the coroutine runtime, [src/cotamer/cotamer.cc] and
    [cotamer_impl.hh]: a driver with its queue of events to process soon, its
    timers, its keepalives and guards, and [driver::loop], on the events of
    [Events.v] and the timer queue of [TimerHeap.v].

    The loop is a machine whose phases are its statements, so that a loop that
    does not end is a run that does not end: [step] does the work up to the next
    point at which a coroutine may run or a handle is destroyed.  What a
    coroutine does between two suspensions is a parameter, [resume]: any list
    of calls of the runtime, which may depend on the whole state.  Descriptors
    are in [FdEvents.v] and [FdDriver.v]; the loop sees the handles [watched]
    that the watch set owns, of which the input of a step says which are ready.
    [handles] counts the handles of the program, and [guards] its
    [driver_guard]s with a driver; the program keeps neither. *)

From S2P Require Import Prelude Events EventSafety TimerHeap.
#[local] Open Scope Z_scope.

(** * Data *)

Definition asap_quota : nat := Z.to_nat 4096.

(** The calls of a coroutine or of the program outside of the loop; [A_event]
    creates, copies, drops, triggers and awaits events and builds quorums. *)
Inductive api :=
  | A_event (op : event_op)
  | A_asap (e : nat)
  | A_at (t : Z) (e : nat)
  | A_after (d : Z) (e : nat)
  | A_keepalive (e : nat)
  | A_watch (e : nat)
  | A_guard
  | A_unguard
  | A_clear.

(** The statements of the loop, in its order.  [P_fire e back] is the inner
    loop that resumes the coroutines which wait for [e]; [P_run] is one of
    them, with the calls it still makes. *)
Inductive phase :=
  | P_idle (more : option bool)
  | P_import
  | P_close (es : list nat)
  | P_asap (n : nat)
  | P_keepalives
  | P_clear_keepalives
  | P_clear_fds
  | P_clear_timers
  | P_register
  | P_drop (es : list nat)
  | P_cull
  | P_exit
  | P_wait
  | P_fds (es : list nat) (had_fd_event : bool)
  | P_time (had_fd_event : bool)
  | P_timers
  | P_fire (e : nat) (back : phase)
  | P_run (ops : list api) (e : nat) (back : phase).

Inductive call := Call (op : api) | Loop (poll : bool).

(** What a step learns from outside: the program's next call, the watches of
    closed descriptors and whether closes of other threads are pending, the
    number of registered descriptors and the dead watches that registering
    drops, the watches that are ready, whether the kernel reported anything,
    and the clock of the machine. *)
Record input := Input {
  i_call : call;
  i_closed : list nat;
  i_lock : bool;
  i_nfdctl : Z;
  i_culled : list nat;
  i_ready : list nat;
  i_activity : bool;
  i_clock : Z
}.

Record driver (M : Type) := Driver {
  events : world;
  handles : nat → nat;
  timed_ : timer_heap nat;
  keepalives_ : list nat;
  watched : list nat;
  nfdctl_ : Z;
  guard_count_ : Z;
  guards : Z;
  clearing_ : bool;
  real_time_ : bool;
  snow_ : Z;
  polling : bool;
  memory : M;
  phase_ : phase
}.
Arguments Driver {M}.
Arguments events {M}.
Arguments handles {M}.
Arguments timed_ {M}.
Arguments keepalives_ {M}.
Arguments watched {M}.
Arguments nfdctl_ {M}.
Arguments guard_count_ {M}.
Arguments guards {M}.
Arguments clearing_ {M}.
Arguments real_time_ {M}.
Arguments snow_ {M}.
Arguments polling {M}.
Arguments memory {M}.
Arguments phase_ {M}.

Section Driver.
Context {M : Type}.
Implicit Types s : driver M.

(** ** Field updates *)

Definition with_events s (X : nat → nat) (w : world) : driver M :=
  Driver w X (timed_ s) (keepalives_ s) (watched s) (nfdctl_ s) (guard_count_ s) (guards s) (clearing_ s) (real_time_ s)
    (snow_ s) (polling s) (memory s) (phase_ s).
Definition with_world s (w : world) : driver M := with_events s (handles s) w.
Definition with_timed s (h : timer_heap nat) : driver M :=
  Driver (events s) (handles s) h (keepalives_ s) (watched s) (nfdctl_ s) (guard_count_ s) (guards s) (clearing_ s)
    (real_time_ s) (snow_ s) (polling s) (memory s) (phase_ s).
Definition with_keepalives s (es : list nat) : driver M :=
  Driver (events s) (handles s) (timed_ s) es (watched s) (nfdctl_ s) (guard_count_ s) (guards s) (clearing_ s)
    (real_time_ s) (snow_ s) (polling s) (memory s) (phase_ s).
Definition with_watched s (es : list nat) (n : Z) : driver M :=
  Driver (events s) (handles s) (timed_ s) (keepalives_ s) es n (guard_count_ s) (guards s) (clearing_ s)
    (real_time_ s) (snow_ s) (polling s) (memory s) (phase_ s).
Definition with_guards s (count n : Z) : driver M :=
  Driver (events s) (handles s) (timed_ s) (keepalives_ s) (watched s) (nfdctl_ s) count n (clearing_ s)
    (real_time_ s) (snow_ s) (polling s) (memory s) (phase_ s).
Definition with_clearing s (b : bool) : driver M :=
  Driver (events s) (handles s) (timed_ s) (keepalives_ s) (watched s) (nfdctl_ s) (guard_count_ s) (guards s) b
    (real_time_ s) (snow_ s) (polling s) (memory s) (phase_ s).
Definition with_snow s (t : Z) : driver M :=
  Driver (events s) (handles s) (timed_ s) (keepalives_ s) (watched s) (nfdctl_ s) (guard_count_ s) (guards s)
    (clearing_ s) (real_time_ s) t (polling s) (memory s) (phase_ s).
Definition with_memory s (m : M) : driver M :=
  Driver (events s) (handles s) (timed_ s) (keepalives_ s) (watched s) (nfdctl_ s) (guard_count_ s) (guards s)
    (clearing_ s) (real_time_ s) (snow_ s) (polling s) m (phase_ s).
Definition goto s (p : phase) : driver M :=
  Driver (events s) (handles s) (timed_ s) (keepalives_ s) (watched s) (nfdctl_ s) (guard_count_ s) (guards s)
    (clearing_ s) (real_time_ s) (snow_ s) (polling s) (memory s) p.
Definition start_loop s (poll : bool) : driver M :=
  Driver (events s) (handles s) (timed_ s) (keepalives_ s) (watched s) (nfdctl_ s) (guard_count_ s) (guards s)
    (clearing_ s) (real_time_ s) (snow_ s) poll (memory s) P_import.

(** * Time *)

Definition steady_now s (clock : Z) : Z := if real_time_ s then clock else snow_ s.

Definition step_time s : driver M := if real_time_ s then s else with_snow s (snow_ s + 1).

(** * Timers *)

(** [event_handle::empty] for the handles of the queue. *)
Definition handle_empty (w : world) (e : nat) : bool :=
  match bodies w !! e with Some b => body_empty b | None => true end.

Definition handle_triggered (w : world) (e : nat) : bool :=
  match bodies w !! e with Some b => ef_triggered b | None => true end.

Context (home : nat → nat) (me : nat).

(** The loop of [timer_heap::emplace] that culls, with the handles that it
    destroys. *)
Fixpoint random_cull_events (fuel n : nat) (w : world) (es : list (element nat)) (rand : Z) :
    option (world * list (element nat) * Z) :=
  match n with
  | O => Some (w, es, rand)
  | S n =>
      if (length es <? 32)%nat then Some (w, es, rand)
      else
        let pos := Z.to_nat (rand mod size es) in
        let rand := u32 (rand * 1664525 + 1013904223) in
        match es !! pos with
        | Some x =>
            if negb (handle_empty w (value x)) then Some (w, es, rand)
            else w ← drop_handle home me fuel w (value x); random_cull_events fuel n w (hard_cull es pos) rand
        | None => Some (w, es, rand)
        end
  end.

Definition emplace_event (fuel : nat) (w : world) (h : timer_heap nat) (t : Z) (e : nat) :
    option (world * timer_heap nat) :=
  '(w, es, rand) ← random_cull_events fuel (length (es_ h)) w (es_ h) (cull_rand_ h);
  let pos := length es in
  let ord := u32 (order_ h + 1) in
  Some (w, mk_timer_heap (sift_up pos (es ++ [mk_element t ord e]) pos) ord rand).

(** * Calls *)

(** [at]: the handle moves into the queue. *)
Definition at_time (fuel : nat) s (t : Z) (e : nat) : option (driver M) :=
  '(w, h) ← emplace_event fuel (events s) (timed_ s) t e;
  Some (with_timed (with_events s (dec e (handles s)) w) h).

Definition asap s (e : nat) : driver M := with_events s (dec e (handles s)) (post_asap (events s) e).

Definition keepalive (fuel : nat) s (e : nat) : option (driver M) :=
  if handle_triggered (events s) e then
    w ← drop_handle home me fuel (events s) e;
    Some (with_events s (dec e (handles s)) w)
  else Some (with_keepalives (with_events s (dec e (handles s)) (events s)) (keepalives_ s ++ [e])).

(** The constructor of a [driver_guard], and the destructor of one with a
    driver. *)
Definition new_guard s : driver M :=
  if clearing_ s then s else with_guards s (guard_count_ s + 1) (guards s + 1).
Definition drop_guard s : driver M :=
  with_guards s (if clearing_ s then guard_count_ s else guard_count_ s - 1) (guards s - 1).

Definition clear s : driver M := with_clearing s true.

(** [file_event]: the watch set gets a handle of its own. *)
Definition file_event s (e : nat) : driver M :=
  with_watched (with_events s (dec e (handles s)) (events s)) (watched s ++ [e]) (nfdctl_ s).

Definition run_api (fuel : nat) (clock : Z) s (op : api) : option (driver M) :=
  match op with
  | A_event op => '(X, w) ← run_op home me fuel (handles s, events s) op; Some (with_events s X w)
  | A_asap e => Some (asap s e)
  | A_at t e => at_time fuel s t e
  | A_after d e => at_time fuel s (steady_now s clock + d) e
  | A_keepalive e => keepalive fuel s e
  | A_watch e => Some (file_event s e)
  | A_guard => Some (new_guard s)
  | A_unguard => Some (drop_guard s)
  | A_clear => Some (clear s)
  end.

(** * The loop *)

Context (resume : M → nat → driver M → M * list api).

(** The handles [es] leave [l]. *)
Fixpoint release (es l : list nat) : option (list nat) :=
  match es with
  | [] => Some l
  | e :: es' => i ← index_in e l; release es' (delete i l)
  end.

(** The events that other threads posted to this driver. *)
Definition posted (w : world) : list nat := snd <$> filter (λ p, p.1 = me) (migrated w).

Definition locked s (inp : input) : bool := i_lock inp || negb (bool_decide (posted (events s) = [])).

Definition finish_migrate s (inp : input) : option (driver M) :=
  ws ← release (i_closed inp) (watched s);
  let w := events s in
  let w := World (bodies w) (next_event w) (asap_ w ++ posted w) (filter (λ p, p.1 ≠ me) (migrated w)) (log w) in
  Some (goto (with_watched (with_world s w) ws (nfdctl_ s)) (P_close (i_closed inp))).

Definition destroy (fuel : nat) s (e : nat) (next : phase) : option (driver M) :=
  w ← drop_handle home me fuel (events s) e; Some (goto (with_world s w) next).

Definition close_watch (fuel : nat) s (e : nat) (next : phase) : option (driver M) :=
  r ← trigger home me fuel (events s) e; destroy fuel (with_world s r.2) e next.

Definition pop_asap s (n : nat) : driver M :=
  match n, asap_ (events s) with
  | S n, e :: es =>
      let w := events s in
      goto (with_world s (World (bodies w) (next_event w) es (migrated w) (log w))) (P_fire e (P_asap n))
  | _, _ => goto s P_keepalives
  end.

(** One round of [while (auto coh = eh->driver_trigger(this))]. *)
Definition fire (fuel : nat) s (e : nat) (back : phase) : option (driver M) :=
  '(coh, w) ← driver_trigger home me fuel (events s) e me;
  let s := with_world s w in
  match coh with
  | None => destroy fuel s e back
  | Some c => let '(m, ops) := resume (memory s) c s in Some (goto (with_memory s m) (P_run ops e back))
  end.

(** The loops of [process_clearing] do not step the time. *)
Definition steps_time (back : phase) : bool :=
  match back with P_clear_fds | P_clear_timers => false | _ => true end.

Definition back_from (e : nat) (back : phase) s : driver M :=
  goto (if steps_time back then step_time s else s) (P_fire e back).

Definition pop_keepalives (fuel : nat) s : option (driver M) :=
  match last (keepalives_ s) with
  | Some e =>
      if handle_triggered (events s) e then
        destroy fuel (with_keepalives s (removelast (keepalives_ s))) e P_keepalives
      else Some (goto s (if clearing_ s then P_clear_keepalives else P_register))
  | None => Some (goto s (if clearing_ s then P_clear_keepalives else P_register))
  end.

Definition clear_keepalives (fuel : nat) s : option (driver M) :=
  match keepalives_ s with
  | e :: es => destroy fuel (with_keepalives s es) e P_clear_keepalives
  | [] => Some (goto (with_guards s 0 (guards s)) P_clear_fds)
  end.

Definition clear_fds s (inp : input) : option (driver M) :=
  match i_ready inp with
  | e :: _ =>
      ws ← release [e] (watched s);
      Some (goto (with_watched s ws (nfdctl_ s)) (P_fire e P_clear_fds))
  | [] => Some (goto s P_clear_timers)
  end.

(** The first timer leaves the queue for the phase [next]. *)
Definition pop_timer s (x : element nat) (next : phase) : driver M := goto (with_timed s (pop (timed_ s))) next.

Definition clear_timers s : driver M :=
  match top (timed_ s) with
  | Some x => pop_timer s x (P_fire (value x) P_clear_timers)
  | None => goto s P_register
  end.

Definition register s (inp : input) : option (driver M) :=
  ws ← release (i_culled inp) (watched s);
  Some (goto (with_watched s ws (i_nfdctl inp)) (P_drop (i_culled inp))).

(** One round of [timed_.cull()]. *)
Definition cull_timers (fuel : nat) s : option (driver M) :=
  match top (timed_ s) with
  | Some x =>
      if handle_empty (events s) (value x) then destroy fuel (pop_timer s x P_cull) (value x) P_cull
      else Some (goto s P_exit)
  | None => Some (goto s P_exit)
  end.

Definition nothing_to_do s (inp : input) : bool :=
  empty (timed_ s) && (nfdctl_ s =? 0) && negb (locked s inp) && (guard_count_ s =? 0) &&
  bool_decide (keepalives_ s = []).

Definition exit_test s (inp : input) : driver M :=
  if nothing_to_do s inp then goto (with_clearing s false) (P_idle (Some false)) else goto s P_wait.

Definition hour : Z := 3600000000000.

Definition timeout s (inp : input) : Z :=
  if negb (bool_decide (asap_ (events s) = [])) || negb (real_time_ s) || locked s inp || polling s || clearing_ s then 0
  else match top_time (timed_ s) with Some t => t - i_clock inp | None => hour end.

(** The kernel is asked when it watches something or the driver may sleep. *)
Definition wait s (inp : input) : option (driver M) :=
  if (nfdctl_ s =? 0) && (timeout s inp <=? 0) then Some (goto s (P_time false))
  else
    ws ← release (i_ready inp) (watched s);
    Some (goto (with_watched s ws (nfdctl_ s))
            (P_fds (i_ready inp) (i_activity inp || negb (bool_decide (i_ready inp = []))))).

Definition update_time s (inp : input) (had_fd_event : bool) : driver M :=
  goto
    (if real_time_ s then with_snow s (i_clock inp)
     else match top_time (timed_ s) with
          | Some t => if bool_decide (asap_ (events s) = []) && negb had_fd_event then with_snow s t else s
          | None => s
          end) P_timers.

Definition fire_timers s : driver M :=
  match top (timed_ s) with
  | Some x =>
      if when x <=? snow_ s then pop_timer s x (P_fire (value x) P_timers)
      else goto s (if polling s then P_idle (Some true) else P_import)
  | None => goto s (if polling s then P_idle (Some true) else P_import)
  end.

(** One step of [loop], or a call of the program outside of it. *)
Definition step (fuel : nat) (inp : input) s : option (driver M) :=
  match phase_ s with
  | P_idle _ =>
      match i_call inp with
      | Call op => run_api fuel (i_clock inp) s op
      | Loop poll => Some (start_loop s poll)
      end
  | P_import => finish_migrate s inp
  | P_close [] => Some (goto s (P_asap asap_quota))
  | P_close (e :: es) => close_watch fuel s e (P_close es)
  | P_asap n => Some (pop_asap s n)
  | P_keepalives => pop_keepalives fuel s
  | P_clear_keepalives => clear_keepalives fuel s
  | P_clear_fds => clear_fds s inp
  | P_clear_timers => Some (clear_timers s)
  | P_register => register s inp
  | P_drop [] => Some (goto s P_cull)
  | P_drop (e :: es) => destroy fuel s e (P_drop es)
  | P_cull => cull_timers fuel s
  | P_exit => Some (exit_test s inp)
  | P_wait => wait s inp
  | P_fds [] had => Some (goto s (P_time had))
  | P_fds (e :: es) had => Some (goto s (P_fire e (P_fds es had)))
  | P_time had => Some (update_time s inp had)
  | P_timers => Some (fire_timers s)
  | P_fire e back => fire fuel s e back
  | P_run [] e back => Some (back_from e back s)
  | P_run (op :: ops) e back =>
      s ← run_api fuel (i_clock inp) s op; Some (goto s (P_run ops e back))
  end.

(** Another thread posts an event. *)
Definition post s (e : nat) : driver M :=
  with_events s (dec e (handles s)) (post_migrate (events s) me e).

Definition new_driver (m : M) (real : bool) (t : Z) : driver M :=
  Driver (World ∅ 0 [] [] []) (λ _, O) new_heap [] [] 0 0 0 false real t false m (P_idle None).
End Driver.

(** * Laws *)

Section Safety.
Context {M : Type} (home : nat → nat) (me : nat) (resume : M → nat → driver M → M * list api).
Implicit Types s : driver M.
Notation step := (step home me resume).

(** ** Handles *)

(** The handles that a phase of the loop owns. *)
Fixpoint phase_handles (p : phase) : list nat :=
  match p with
  | P_close es | P_drop es | P_fds es _ => es
  | P_fire e back | P_run _ e back => e :: phase_handles back
  | _ => []
  end.

Definition timers s : list nat := value <$> es_ (timed_ s).
Definition kept s : list nat := timers s ++ keepalives_ s ++ watched s ++ phase_handles (phase_ s).
Definition owned s (e : nat) : nat := (handles s e + occ e (kept s))%nat.

(** Every handle of the driver and of the program is one of the references that
    keep an event alive. *)
Definition driver_ok s : Prop := safe (owned s) (events s).

(** What the program may call: it holds the handles it uses. *)
Definition legal_api s (op : api) : Prop :=
  match op with
  | A_event op => legal (handles s) op ∧ match op with O_pop | O_resume _ _ => False | _ => True end
  | A_asap e | A_at _ e | A_after _ e | A_keepalive e | A_watch e => (0 < handles s e)%nat
  | A_unguard => 0 < guards s
  | A_guard | A_clear => True
  end.

(** The watches that leave the watch set were in it. *)
Definition legal_step s (inp : input) : Prop :=
  match phase_ s with
  | P_idle _ => match i_call inp with Call op => legal_api s op | Loop _ => True end
  | P_run (op :: _) _ _ => legal_api s op
  | P_import => is_Some (release (i_closed inp) (watched s))
  | P_register => is_Some (release (i_culled inp) (watched s))
  | P_wait => is_Some (release (i_ready inp) (watched s))
  | P_clear_fds => match i_ready inp with e :: _ => is_Some (release [e] (watched s)) | [] => True end
  | _ => True
  end.

Lemma release_perm es l l' : release es l = Some l' → l ≡ₚ es ++ l'.
Proof.
  revert l. induction es as [|e es IH]; intros l; [by intros [= ->]|]. cbn [release].
  intros (i & Hi & H)%bind_Some. apply index_in_Some in Hi. cbn. rewrite <-(IH _ H).
  by apply delete_Permutation.
Qed.

Lemma occ_release e es l l' : release es l = Some l' → occ e l = (occ e es + occ e l')%nat.
Proof. intros H. by rewrite (occ_perm e _ _ (release_perm _ _ _ H)), occ_app. Qed.

Lemma occ_self (e : nat) l : occ e (e :: l) = S (occ e l).
Proof. by rewrite occ_cons, decide_True. Qed.

(** A safe world with the same handles in other hands. *)
Lemma ok_moved X w s : safe X w → events s = w → (∀ e, X e = owned s e) → driver_ok s.
Proof. intros H <- HX. eapply safe_ext; [exact HX|exact H]. Qed.

Lemma safe_queue X X' w w' :
  safe X w → bodies w' = bodies w → next_event w' = next_event w → (∀ x, X' x + queued w' x = X x + queued w x)%nat →
  safe X' w'.
Proof.
  intros (rank & H & F) Hb Hn HX. exists rank. split; [by eapply wf_queue|]. intros x. rewrite Hb, Hn. apply F.
Qed.

Ltac held :=
  intros; unfold inc, dec; cbv beta; unfold owned, kept, timers;
  cbn [handles timed_ keepalives_ watched phase_ phase_handles events with_events with_world with_timed with_keepalives
       with_watched with_guards with_clearing with_snow with_memory goto start_loop pop_timer es_];
  repeat match goal with H : phase_ ?s = _ |- context [phase_ ?s] => rewrite H end; cbn [phase_handles];
  rewrite ?occ_app, ?occ_cons, ?occ_nil; unfold inc, dec; cbv beta;
  repeat match goal with |- context [decide (?a = ?b)] => destruct (decide (a = b)) end; subst; try congruence; try lia.

(** A handle is destroyed. *)
Lemma destroy_ok s e next :
  safe (inc e (owned (goto s next))) (events s) →
  ∃ s', enough (λ n, destroy home me n s e next) s' ∧ driver_ok s' ∧ ∃ w, s' = goto (with_world s w) next.
Proof.
  intros Hs. destruct (drop_safe home me _ _ e Hs) as (w & D1 & D2); [unfold inc; rewrite decide_True by done; lia|].
  eexists. split; [|split; [|by exists w]].
  - apply (enough_bind _ (λ _ w, Some (goto (with_world s w) next)) _ _ D1). by apply enough_ret.
  - eapply ok_moved; [exact D2|done|]. intros x. unfold dec, inc. change (owned (goto (with_world s w) next) x) with (owned (goto s next) x).
    destruct (decide _); lia.
Qed.

(** ** Inserting a timer *)

Lemma random_cull_events_ok X n w es rand :
  safe (λ x, X x + occ x (value <$> es))%nat w →
  ∃ w' es' rand', enough (λ k, random_cull_events home me k n w es rand) (w', es', rand') ∧
    safe (λ x, X x + occ x (value <$> es'))%nat w' ∧ (heap_inv when (λ _, True) es → heap_inv when (λ _, True) es') ∧
    ∃ gone, es ≡ₚ gone ++ es'.
Proof.
  revert w es rand. induction n as [|n IH]; intros w es rand Hs; cbn [random_cull_events].
  { eexists _, _, _. split; [by apply enough_ret|]. split; [done|]. split; [done|by exists []]. }
  assert (Hstop : ∀ r : Z, ∃ (w' : world) (es' : list (element nat)) (rand' : Z),
    enough (λ _, Some (w, es, r)) (w', es', rand') ∧
    safe (λ x, X x + occ x (value <$> es'))%nat w' ∧ (heap_inv when (λ _, True) es → heap_inv when (λ _, True) es') ∧
    ∃ gone, es ≡ₚ gone ++ es').
  { intros r. eexists _, _, _. split; [by apply enough_ret|]. split; [done|]. split; [done|by exists []]. }
  destruct (length es <? 32)%nat; [apply Hstop|]. set (pos := Z.to_nat _).
  destruct (es !! pos) as [x|] eqn:Hx; [|apply Hstop]. destruct (negb _); [apply Hstop|].
  pose proof (hard_cull_perm es pos x Hx) as Hp.
  assert (Ho : ∀ y, occ y (value <$> es) = occ y (value x :: (value <$> hard_cull es pos))).
  { intros y. apply occ_perm. change (value x :: (value <$> hard_cull es pos)) with (value <$> x :: hard_cull es pos).
    by rewrite <-Hp. }
  destruct (drop_safe home me _ _ (value x) Hs) as (w1 & D1 & D2); [rewrite Ho, occ_self; lia|].
  destruct (IH w1 (hard_cull es pos) (u32 (rand * 1664525 + 1013904223))) as (w2 & es' & r' & E1 & E2 & E3 & gone & E4).
  { eapply safe_ext; [|exact D2]. intros y. unfold dec. rewrite Ho, occ_cons.
    destruct (decide (y = value x)) as [->|Hne]; [rewrite decide_True by done|rewrite decide_False by congruence]; lia. }
  exists w2, es', r'. split; [|split; [exact E2|split]].
  - apply (enough_bind _ (λ k w, random_cull_events home me k n w (hard_cull es pos) _) _ _ D1 E1).
  - intros Hi. apply E3. apply hard_cull_inv; [by apply when_lt|done|by eapply lookup_lt_Some].
  - exists (x :: gone). by rewrite Hp, E4.
Qed.

Lemma emplace_event_ok X w h t e :
  safe (λ x, X x + occ x (value <$> es_ h))%nat w → (0 < X e)%nat →
  ∃ w' h', enough (λ k, emplace_event home me k w h t e) (w', h') ∧
    safe (λ x, dec e X x + occ x (value <$> es_ h'))%nat w' ∧
    (heap_inv when (λ _, True) (es_ h) → heap_inv when (λ _, True) (es_ h')).
Proof.
  intros Hs He. destruct (random_cull_events_ok X (length (es_ h)) w (es_ h) (cull_rand_ h) Hs)
    as (w' & es' & rand & E1 & E2 & E3 & _).
  unfold emplace_event. eexists w', _. split; [|split].
  - eapply (enough_bind _ (λ _ '(w, es, rand), let pos := length es in let ord := u32 (order_ h + 1) in
      Some (w, mk_timer_heap (sift_up pos (es ++ [mk_element t ord e]) pos) ord rand)) _ _ E1). by apply enough_ret.
  - eapply safe_ext; [|exact E2]. intros x. cbn [es_]. 
    rewrite (occ_perm x (value <$> sift_up _ _ _) ((value <$> es') ++ [e])) by (by rewrite sift_up_perm, fmap_app).
    rewrite occ_app, occ_cons, occ_nil. unfold dec. destruct (decide (x = e)) as [->|Hne];
      [rewrite decide_True by done|rewrite decide_False by congruence]; lia.
  - intros Hi. cbn [es_]. apply append_inv; [by apply when_lt|by apply E3|done].
Qed.

(** ** The calls *)

Record driver_inv s : Prop := {
  di_safe : driver_ok s;
  di_heap : heap_inv when (λ _, True) (es_ (timed_ s))
}.

Lemma legal_more X Y op : (∀ e, X e ≤ Y e)%nat → legal X op → legal Y op.
Proof.
  intros HXY. destruct op as [|e|e|e|e c|e c|q es| |e drv]; cbn [legal]; intros Hl; try done;
    try (specialize (HXY e); lia).
  destruct Hl as [Hq Hl]. split; [done|]. intros e. specialize (HXY e). specialize (Hl e). lia.
Qed.

Lemma event_op_ok s op :
  driver_ok s → legal (handles s) op → match op with O_pop | O_resume _ _ => False | _ => True end →
  ∃ s', enough (λ n, '(X, w) ← run_op home me n (handles s, events s) op; Some (with_events s X w)) s' ∧
    driver_ok s' ∧ timed_ s' = timed_ s ∧ phase_ s' = phase_ s.
Proof.
  intros Hs Hl Hop.
  destruct (run_op_safe home me (owned s) (events s) op Hs) as (X' & w' & [N E] & Hs').
  { eapply legal_more; [|exact Hl]. intros e. unfold owned. lia. }
  exists (with_events s (held_after op (events s) (handles s)) w'). split; [|split; [|done]].
  - exists N. intros k Hk. destruct (run_op_held home me k _ _ _ _ _ (E k Hk)) as [_ Eh]. by rewrite (Eh (handles s)).
  - destruct (run_op_held home me N _ _ _ _ _ (E N ltac:(lia))) as [-> _].
    eapply ok_moved; [exact Hs'|done|]. intros e. by apply held_after_frame.
Qed.

Lemma at_time_ok s t e :
  driver_inv s → (0 < handles s e)%nat →
  ∃ s', enough (λ n, at_time home me n s t e) s' ∧ driver_inv s' ∧ phase_ s' = phase_ s.
Proof.
  intros [Hs Hh] He.
  set (X := λ x, (handles s x + occ x (keepalives_ s ++ watched s ++ phase_handles (phase_ s)))%nat).
  destruct (emplace_event_ok X (events s) (timed_ s) t e) as (w & h & E1 & E2 & E3).
  - eapply safe_ext; [|exact Hs]. intros x. unfold X, owned, kept, timers. rewrite !occ_app. lia.
  - unfold X. lia.
  - unfold at_time. eexists. split; [|split; [split|]].
    + eapply (enough_bind _ (λ _ '(w, h), Some (with_timed (with_events s (dec e (handles s)) w) h)) _ _ E1). by apply enough_ret.
    + eapply ok_moved; [exact E2|done|]. intros x. unfold dec, X. held.
    + by apply E3.
    + done.
Qed.

Lemma keepalive_ok s e :
  driver_inv s → (0 < handles s e)%nat →
  ∃ s', enough (λ n, keepalive home me n s e) s' ∧ driver_inv s' ∧ phase_ s' = phase_ s.
Proof.
  intros [Hs Hh] He. unfold keepalive. destruct (handle_triggered (events s) e).
  - destruct (drop_safe home me _ _ e Hs) as (w & D1 & D2); [unfold owned; lia|].
    eexists. split; [|split; [split|]].
    + apply (enough_bind _ (λ _ w, Some (with_events s (dec e (handles s)) w)) _ _ D1). by apply enough_ret.
    + eapply ok_moved; [exact D2|done|]. held.
    + done.
    + done.
  - eexists. split; [by apply enough_ret|]. split; [split; [|done]|done]. eapply ok_moved; [exact Hs|done|]. held.
Qed.

Lemma run_api_ok s clock op :
  driver_inv s → legal_api s op →
  ∃ s', enough (λ n, run_api home me n clock s op) s' ∧ driver_inv s' ∧ phase_ s' = phase_ s.
Proof.
  intros [Hs Hh] Hl. destruct op as [op|e|t e|d e|e|e| | |]; cbn [run_api legal_api] in *.
  - destruct Hl as [Hl Hop]. destruct (event_op_ok s op Hs Hl Hop) as (s' & E & H1 & H2 & H3). exists s'.
    split; [done|]. split; [|done]. split; [done|by rewrite H2].
  - eexists. split; [by apply enough_ret|]. split; [split; [|done]|done].
    eapply safe_queue; [exact Hs|done|done|]. intros x. unfold asap, queued. cbn [events with_events post_asap asap_ migrated].
    rewrite occ_app, occ_cons, occ_nil. held.
  - by apply at_time_ok.
  - by apply at_time_ok.
  - by apply keepalive_ok.
  - eexists. split; [by apply enough_ret|]. split; [split; [|done]|done]. eapply ok_moved; [exact Hs|done|].
    unfold file_event. held.
  - exists (new_guard s). split; [by apply enough_ret|]. unfold new_guard. by destruct (clearing_ s).
  - eexists. split; [by apply enough_ret|]. done.
  - eexists. split; [by apply enough_ret|]. done.
Qed.

Lemma post_inv s e : driver_inv s → (0 < handles s e)%nat → driver_inv (post me s e).
Proof.
  intros [Hs Hh] He. split; [|done].
  eapply safe_queue; [exact Hs|done|done|]. intros x. unfold post, queued. cbn [events with_events post_migrate asap_ migrated].
  rewrite fmap_app, occ_app. cbn [fmap list_fmap snd]. rewrite occ_cons, occ_nil. held.
Qed.

(** ** The loop *)

(** Popping the first timer takes its handle out of the queue. *)
Lemma top_timers s x next e : top (timed_ s) = Some x → 
  occ e (timers s) = occ e (value x :: timers (pop_timer s x next)).
Proof.
  intros Ht. apply occ_perm. unfold timers, pop_timer. cbn [timed_ goto with_timed].
  rewrite (pop_perm _ _ Ht). done.
Qed.

Lemma pop_timer_heap s x :
  top (timed_ s) = Some x → heap_inv when (λ _, True) (es_ (timed_ s)) →
  heap_inv when (λ _, True) (es_ (pop (timed_ s))).
Proof. intros Ht Hh. apply hard_cull_inv; [by apply when_lt|done|by eapply lookup_lt_Some]. Qed.

(** Steps that end in the destruction of a handle. *)
Lemma destroy_inv s0 s e next :
  driver_inv s0 → events s = events s0 → (∀ x, inc e (owned (goto s next)) x = owned s0 x) →
  heap_inv when (λ _, True) (es_ (timed_ s)) →
  ∃ s', enough (λ n, destroy home me n s e next) s' ∧ driver_inv s'.
Proof.
  intros [Hs Hh] Hw HX Ht. destruct (destroy_ok s e next) as (s' & E & Hok & w & ->).
  { rewrite Hw. eapply safe_ext; [|exact Hs]. intros x. by rewrite HX. }
  eexists. split; [exact E|]. by split.
Qed.

(** Steps that move handles. *)
Lemma moved_inv s0 s :
  driver_inv s0 → events s = events s0 → (∀ x, owned s0 x = owned s x) → timed_ s = timed_ s0 → driver_inv s.
Proof. intros [Hs Hh] Hw HX Ht. split; [|by rewrite Ht]. by eapply ok_moved. Qed.

Lemma close_watch_inv s e es :
  driver_inv s → phase_ s = P_close (e :: es) →
  ∃ s', enough (λ n, close_watch home me n s e (P_close es)) s' ∧ driver_inv s'.
Proof.
  intros Hi Hp. pose proof Hi as [Hs Hh]. assert (He : (0 < owned s e)%nat).
  { unfold owned, kept. rewrite Hp. cbn [phase_handles]. rewrite !occ_app, occ_self. lia. }
  destruct (run_op_safe home me (owned s) (events s) (O_trigger e) Hs He) as (X' & w & E & Hs').
  assert (HX : X' = owned s).
  { destruct E as [n E]. specialize (E n ltac:(lia)). by apply run_op_held in E as [-> _]. }
  subst X'. cbn [run_op] in E.
  assert (Et : ∃ r, enough (λ n, trigger home me n (events s) e) r ∧ safe (owned s) r.2).
  { destruct (held_live _ _ e Hs He) as [b Hb]. unfold trigger in *. rewrite Hb in *. cbn [mbind option_bind] in *.
    destruct (ef_triggered b) eqn:Eb; [exists (false, events s); split; [by apply enough_ret|done]|].
    destruct (trigger_safe home me _ _ e b None None Hs He Hb Eb) as (r & w' & coh & T1 & T2).
    exists (r, w'). split; [|done]. apply (enough_bind _ (λ _ r, Some r.1) _ _ T1). by apply enough_ret. }
  destruct Et as (r & T1 & T2).
  destruct (destroy_inv (with_world s r.2) (with_world s r.2) e (P_close es)) as (s' & D1 & D2).
  - split; [|done]. exact T2.
  - done.
  - held.
  - done.
  - exists s'. split; [|done].
    apply (enough_bind _ (λ n r, destroy home me n (with_world s r.2) e (P_close es)) _ _ T1 D1).
Qed.

Lemma fire_inv s e back :
  driver_inv s → phase_ s = P_fire e back → ∃ s', enough (λ n, fire home me resume n s e back) s' ∧ driver_inv s'.
Proof.
  intros [Hs Hh] Hp. assert (He : (0 < owned s e)%nat).
  { unfold owned, kept. rewrite Hp. cbn [phase_handles]. rewrite !occ_app, occ_self. lia. }
  destruct (resume_safe home me (owned s) (events s) e me Hs He) as ([coh w] & R1 & R2). cbn [snd] in R2.
  assert (Hi : driver_inv (with_world s w)) by (split; [exact R2|exact Hh]).
  unfold fire. destruct coh as [c|].
  - destruct (resume (memory (with_world s w)) c (with_world s w)) as [m ops] eqn:Er.
    exists (goto (with_memory (with_world s w) m) (P_run ops e back)). split.
    + eapply enough_bind; [exact R1|]. apply enough_ret. intros n. cbn beta iota zeta. by rewrite Er.
    + eapply (moved_inv (with_world s w)); [done|done| |done]. held.
  - destruct (destroy_inv (with_world s w) (with_world s w) e back Hi) as (s' & D1 & D2); [done| |done|].
    + held.
    + exists s'. split; [|done]. eapply enough_bind; [exact R1|]. exact D1.
Qed.

Ltac returns := eexists; split; [by apply enough_ret|].
Ltac moves := eapply moved_inv; [eassumption|done| |done].

Lemma finish_migrate_inv s inp :
  driver_inv s → phase_ s = P_import → is_Some (release (i_closed inp) (watched s)) →
  ∃ s', finish_migrate me s inp = Some s' ∧ driver_inv s'.
Proof.
  intros [Hs Hh] Hp [ws Hr]. unfold finish_migrate. rewrite Hr. eexists. split; [done|]. split; [|done].
  eapply safe_queue; [exact Hs|done|done|]. intros x. unfold queued. cbn [events goto with_watched with_world with_events asap_ migrated].
  assert (Hm : occ x (snd <$> migrated (events s)) =
    (occ x (posted me (events s)) + occ x (snd <$> filter (λ p, p.1 ≠ me) (migrated (events s))))%nat).
  { unfold posted. generalize (migrated (events s)). intros l. induction l as [|[d y] l IH]; [done|].
    rewrite fmap_cons, !filter_cons, occ_cons, IH. cbn [fst snd].
    destruct (decide (d = me)); [rewrite (decide_False (P := d ≠ me)) by tauto|rewrite (decide_True (P := d ≠ me)) by done];
      rewrite fmap_cons, occ_cons; cbn [snd]; lia. }
  rewrite occ_app, Hm. pose proof (occ_release x _ _ _ Hr) as Ho. held; rewrite ?Ho; lia.
Qed.

Lemma pop_asap_inv s n : driver_inv s → phase_ s = P_asap n → driver_inv (pop_asap s n).
Proof.
  intros Hi Hp. pose proof Hi as [Hs Hh]. unfold pop_asap. destruct n as [|n]; [moves; held|].
  destruct (asap_ (events s)) as [|e es] eqn:Ea; [moves; held|]. split; [|done].
  eapply safe_queue; [exact Hs|done|done|]. intros x. unfold queued. cbn [events goto with_world with_events asap_ migrated].
  rewrite Ea, occ_cons. held.
Qed.

Lemma last_occ (e : nat) l x : last l = Some e → occ x l = occ x (e :: removelast l).
Proof.
  intros H. destruct l as [|y l _] using rev_ind; [done|]. rewrite last_snoc in H. injection H as ->.
  rewrite removelast_last, occ_app, !occ_cons, occ_nil. lia.
Qed.

Lemma keepalives_inv s :
  driver_inv s → phase_ s = P_keepalives ∨ phase_ s = P_clear_keepalives →
  (∃ s', enough (λ n, pop_keepalives home me n s) s' ∧ driver_inv s') ∧
  ∃ s', enough (λ n, clear_keepalives home me n s) s' ∧ driver_inv s'.
Proof.
  intros Hi Hp. assert (Hn : phase_handles (phase_ s) = []) by (by destruct Hp as [->| ->]). split.
  - unfold pop_keepalives. assert (Hg : driver_inv (goto s (if clearing_ s then P_clear_keepalives else P_register))).
    { moves. held; rewrite Hn; destruct (clearing_ s); cbn; lia. }
    destruct (last (keepalives_ s)) as [e|] eqn:El; [|by returns]. destruct (handle_triggered _ _); [|by returns].
    eapply destroy_inv; [exact Hi|done| |apply Hi]. intros x. held; rewrite (last_occ e _ _ El), occ_cons, Hn; cbn.
    + rewrite decide_True by done. lia.
    + rewrite decide_False by congruence. lia.
  - unfold clear_keepalives. destruct (keepalives_ s) as [|e es] eqn:Ek.
    + returns. moves. held; rewrite Hn; cbn; lia.
    + eapply destroy_inv; [exact Hi|done| |apply Hi]. intros x. held; rewrite Ek, occ_cons, Hn; cbn.
      * rewrite decide_True by done. lia.
      * rewrite decide_False by congruence. lia.
Qed.

(** The steps that take the first timer. *)
Lemma pop_timer_inv s x p back :
  driver_inv s → phase_handles (phase_ s) = [] → top (timed_ s) = Some x → phase_handles p = value x :: back →
  back = [] → driver_inv (pop_timer s x p).
Proof.
  intros Hi Hn Ht Hp ->. pose proof Hi as [Hs _]. split.
  - eapply ok_moved; [exact Hs|done|]. intros y. unfold owned, kept. rewrite !occ_app, Hn, (top_timers s x p y Ht), occ_cons.
    cbn [handles keepalives_ watched phase_ pop_timer goto with_timed]. rewrite Hp, occ_cons, !occ_nil.
    destruct (decide (value x = y)); lia.
  - cbn. by eapply pop_timer_heap, Hi.
Qed.

Lemma cull_timers_inv s :
  driver_inv s → phase_ s = P_cull → ∃ s', enough (λ n, cull_timers home me n s) s' ∧ driver_inv s'.
Proof.
  intros Hi Hp. unfold cull_timers. destruct (top (timed_ s)) as [x|] eqn:Ht; [|returns; moves; held].
  destruct (handle_empty _ _); [|returns; moves; held].
  eapply destroy_inv; [exact Hi|done| |cbn; by eapply pop_timer_heap, Hi].
  intros y. change (inc (value x) (owned (pop_timer s x P_cull)) y = owned s y).
  unfold owned, kept. rewrite !occ_app, Hp, (top_timers s x P_cull y Ht), occ_cons. unfold inc.
  cbn [handles keepalives_ watched phase_ pop_timer goto with_timed phase_handles]. rewrite !occ_app, occ_nil.
  destruct (decide (y = value x)); [rewrite decide_True by done|rewrite decide_False by congruence]; unfold timers; cbn; lia.
Qed.

Lemma step_inv s inp :
  driver_inv s → legal_step s inp → ∃ s', enough (λ n, step n inp s) s' ∧ driver_inv s'.
Proof.
  intros Hi Hl. pose proof (di_heap s Hi) as Hh. unfold legal_step in Hl. unfold Driver.step.
  destruct (phase_ s) as [r| |[|e es]|n| | | | | |[|e es]| | | |[|e es] had|had| |e back|[|op ops] e back] eqn:Hp.
  - destruct (i_call inp) as [op|poll]; [|returns; moves; held].
    destruct (run_api_ok s (i_clock inp) op Hi Hl) as (s' & E & H1 & _). by exists s'.
  - destruct (finish_migrate_inv s inp Hi Hp Hl) as (s' & E & H). exists s'. split; [by apply enough_ret|done].
  - returns. moves. held.
  - by apply close_watch_inv.
  - returns. by apply pop_asap_inv.
  - apply keepalives_inv; [done|by left].
  - apply keepalives_inv; [done|by right].
  - unfold clear_fds. destruct (i_ready inp) as [|e es]; [returns; moves; held|]. destruct Hl as [ws Hr].
    rewrite Hr. returns. moves. intros x. pose proof (occ_release x _ _ _ Hr) as Ho. held; rewrite Ho, occ_cons, occ_nil.
    + rewrite decide_True by done. lia.
    + rewrite decide_False by congruence. lia.
  - unfold clear_timers. returns. destruct (top (timed_ s)) as [x|] eqn:Ht; [|moves; held].
    eapply pop_timer_inv; [done|by rewrite Hp|done|done|done].
  - unfold register. destruct Hl as [ws Hr]. rewrite Hr. returns. moves. intros x.
    pose proof (occ_release x _ _ _ Hr) as Ho. held; rewrite ?Ho; lia.
  - returns. moves. held.
  - eapply destroy_inv; [done|done| |done]. held.
  - by apply cull_timers_inv.
  - returns. unfold exit_test. destruct (nothing_to_do _ _ _); moves; held.
  - unfold wait. destruct (_ && _); [returns; moves; held|]. destruct Hl as [ws Hr]. rewrite Hr. returns. moves. intros x.
    pose proof (occ_release x _ _ _ Hr) as Ho. held; rewrite ?Ho; lia.
  - returns. moves. held.
  - returns. moves. held.
  - returns. unfold update_time. destruct (real_time_ s); [moves; held|]. destruct (top_time _); [|moves; held].
    destruct (_ && _); moves; held.
  - returns. unfold fire_timers. assert (Hg : driver_inv (goto s (if polling s then P_idle (Some true) else P_import))).
    { moves. held. by destruct (polling s). }
    destruct (top (timed_ s)) as [x|] eqn:Ht; [|done]. destruct (when x <=? snow_ s); [|done].
    eapply pop_timer_inv; [done|by rewrite Hp|done|done|done].
  - by apply fire_inv.
  - returns. unfold back_from, step_time. destruct (steps_time back), (real_time_ s); moves; held.
  - destruct (run_api_ok s (i_clock inp) op Hi Hl) as (s' & E & H1 & H2). eexists. split.
    + apply (enough_bind _ (λ _ s, Some (goto s (P_run ops e back))) _ _ E). by apply enough_ret.
    + eapply (moved_inv s'); [done|done| |done]. intros x. rewrite Hp in H2. held.
Qed.

(** ** Fuel *)

Ltac fuel_driver :=
  repeat first [ apply option_le_refl
    | apply drop_handle_fuel | apply trigger_fuel | apply driver_trigger_fuel | apply run_op_fuel
    | apply option_le_bind; [|progress intros]
    | match goal with |- option_le (match ?x with _ => _ end) _ => destruct x end ].

Lemma random_cull_events_fuel n w es rand : fuel_mono (λ k, random_cull_events home me k n w es rand).
Proof.
  intros k. revert w es rand. induction n as [|n IH]; intros w es rand; cbn [random_cull_events]; [apply option_le_refl|].
  destruct (length es <? 32)%nat; [apply option_le_refl|]. destruct (es !! _); [|apply option_le_refl].
  destruct (negb _); [apply option_le_refl|]. apply option_le_bind; [apply drop_handle_fuel|done].
Qed.

Lemma run_api_fuel clock s op : fuel_mono (λ n, run_api home me n clock s op).
Proof.
  intros n. destruct op as [op|e|t e|d e|e|e| | |]; cbn [run_api]; unfold at_time, emplace_event, keepalive; fuel_driver;
    apply random_cull_events_fuel.
Qed.

Lemma step_fuel inp s : fuel_mono (λ n, step n inp s).
Proof.
  intros n. unfold Driver.step.
  destruct (phase_ s) as [r| |[|e es]|k| | | | | |[|e es]| | | |[|e es] had|had| |e back|[|op ops] e back];
    try apply option_le_refl;
    unfold close_watch, pop_keepalives, clear_keepalives, cull_timers, fire, destroy; fuel_driver; try apply run_api_fuel.
Qed.

(** * Runs of a driver *)

Inductive driven : driver M → Prop :=
  | driven_init m real t : driven (new_driver m real t)
  | driven_step s inp n s' : driven s → legal_step s inp → step n inp s = Some s' → driven s'
  | driven_post s e : driven s → (0 < handles s e)%nat → driven (post me s e).

Lemma new_driver_inv m real t : driver_inv (new_driver m real t).
Proof.
  split; [|split; [intros i Hi; cbn in Hi; lia|by constructor]].
  exists (λ x, x). split; [|done]. split; try done; intros ? ? Hin; inversion Hin.
Qed.

Lemma driven_inv s : driven s → driver_inv s.
Proof.
  induction 1 as [m real t|s inp n s' _ IH Hl E|s e _ IH He].
  - apply new_driver_inv.
  - destruct (step_inv s inp IH Hl) as (s1 & E1 & H1).
    pose proof (fuel_enough _ n s' (step_fuel inp s) E) as E2. by rewrite (enough_unique _ _ _ E2 E1).
  - by apply post_inv.
Qed.

(** C13 The loop never touches a freed event, and every step of it ends: in any
    state that a program can reach which uses handles it holds, whatever its
    coroutines call, each step of the loop succeeds.  The references of an event
    are those of the program, of the timers, keepalives and watches of the
    driver, of the event it is resuming, of the queues and of the quorums, so
    that nothing is freed early and nothing leaks. *)
Theorem driver_never_stuck s inp :
  driven s →
  (legal_step s inp → ∃ s', enough (λ n, step n inp s) s' ∧ driven s') ∧
  (∀ e, bodies (events s) !! e = None → owned s e = O) ∧
  ∀ e b, bodies (events s) !! e = Some b →
    refcount_ b = (handles s e + occ e (kept s) + queued (events s) e + length (quorums (listeners_ b)))%nat.
Proof.
  intros Hd. pose proof (driven_inv s Hd) as Hi. split; [|split].
  - intros Hl. destruct (step_inv s inp Hi Hl) as (s' & [n E] & _). exists s'. split; [by exists n|].
    by eapply driven_step; [| |apply (E n)].
  - destruct (di_safe s Hi) as (rank & H & _). intros e He. by destruct (wf_live _ _ _ _ _ H e He).
  - destruct (di_safe s Hi) as (rank & H & _). intros e b Hb.
    pose proof (wf_ref _ _ _ _ _ H e b Hb) as Hr. cbn [fmap list_fmap] in Hr. rewrite occ_nil in Hr. unfold owned in Hr. lia.
Qed.

(** ** Time *)

Lemma top_least s x y :
  heap_inv when (λ _, True) (es_ (timed_ s)) → top (timed_ s) = Some x → y ∈ es_ (timed_ s) → when x ≤ when y.
Proof.
  intros [Ho _] Ht [i Hy]%list_elem_of_lookup. pose proof (root_least when _ i Ho (lookup_lt_Some _ _ _ Hy)) as H.
  unfold key_at in H. unfold top in Ht. by rewrite Ht, Hy in H.
Qed.

Lemma run_op_keeps_clock fuel clock s op s' :
  run_api home me fuel clock s op = Some s' → snow_ s' = snow_ s ∧ real_time_ s' = real_time_ s.
Proof.
  destruct op as [op|e|t e|d e|e|e| | |]; cbn [run_api]; unfold at_time, keepalive.
  - by intros ([X w] & _ & [= <-])%bind_Some.
  - by intros [= <-].
  - by intros ([w h] & _ & [= <-])%bind_Some.
  - by intros ([w h] & _ & [= <-])%bind_Some.
  - destruct (handle_triggered _ _); [by intros (w & _ & [= <-])%bind_Some|by intros [= <-]].
  - by intros [= <-].
  - intros [= <-]. unfold new_guard. by destruct (clearing_ s).
  - by intros [= <-].
  - by intros [= <-].
Qed.

Lemma destroy_clock fuel s e next s' :
  destroy home me fuel s e next = Some s' → snow_ s' = snow_ s ∧ real_time_ s' = real_time_ s.
Proof. unfold destroy. by intros (w & _ & [= <-])%bind_Some. Qed.

(** C14 The timers of virtual time: the driver resumes the tasks of a timer only
    when it is the earliest of all and its time has come, and goes on only when
    no timer is due.  The clock moves by a nanosecond per resumed coroutine, and
    to the earliest timer when nothing else is ready; otherwise it stands. *)
Theorem timers_on_time n inp s s' :
  driven s → real_time_ s = false → step n inp s = Some s' →
  match phase_ s with
  | P_timers =>
      snow_ s' = snow_ s ∧
      ((∃ x, es_ (timed_ s) ≡ₚ x :: es_ (timed_ s') ∧ phase_ s' = P_fire (value x) P_timers ∧ when x ≤ snow_ s ∧
             ∀ y, y ∈ es_ (timed_ s) → when x ≤ when y) ∨
       timed_ s' = timed_ s ∧ ∀ y, y ∈ es_ (timed_ s) → snow_ s < when y)
  | P_time had =>
      if bool_decide (es_ (timed_ s) ≠ []) && bool_decide (asap_ (events s) = []) && negb had
      then ∃ x, x ∈ es_ (timed_ s) ∧ snow_ s' = when x ∧ ∀ y, y ∈ es_ (timed_ s) → when x ≤ when y
      else snow_ s' = snow_ s
  | P_run [] _ back => snow_ s' = snow_ s + if steps_time back then 1 else 0
  | _ => snow_ s' = snow_ s
  end.
Proof.
  intros Hd Hv E. pose proof (di_heap s (driven_inv s Hd)) as Hh. unfold Driver.step in E.
  destruct (phase_ s) as [r| |[|e es]|k| | | | | |[|e es]| | | |[|e es] had|had| |e back|[|op ops] e back] eqn:Hp.
  - destruct (i_call inp); [by apply run_op_keeps_clock in E as [? _]|by injection E as <-].
  - unfold finish_migrate in E. by apply bind_Some in E as (ws & _ & [= <-]).
  - by injection E as <-.
  - unfold close_watch in E. apply bind_Some in E as (r & _ & E). by apply destroy_clock in E as [? _].
  - injection E as <-. unfold pop_asap. destruct k; [done|]. by destruct (asap_ (events s)).
  - unfold pop_keepalives in E. destruct (last _) as [e|]; [destruct (handle_triggered _ _)|];
      [by apply destroy_clock in E as [? _]|by injection E as <-|by injection E as <-].
  - unfold clear_keepalives in E. destruct (keepalives_ s); [by injection E as <-|by apply destroy_clock in E as [? _]].
  - unfold clear_fds in E. destruct (i_ready inp); [by injection E as <-|]. by apply bind_Some in E as (ws & _ & [= <-]).
  - injection E as <-. unfold clear_timers. by destruct (top _).
  - unfold register in E. by apply bind_Some in E as (ws & _ & [= <-]).
  - by injection E as <-.
  - by apply destroy_clock in E as [? _].
  - unfold cull_timers in E. destruct (top _); [destruct (handle_empty _ _)|];
      [by apply destroy_clock in E as [? _]|by injection E as <-|by injection E as <-].
  - injection E as <-. unfold exit_test. by destruct (nothing_to_do _ _ _).
  - unfold wait in E. destruct (_ && _); [by injection E as <-|]. by apply bind_Some in E as (ws & _ & [= <-]).
  - by injection E as <-.
  - by injection E as <-.
  - injection E as <-. unfold update_time. rewrite Hv. unfold top_time. destruct (top (timed_ s)) as [x|] eqn:Ht.
    + assert (Hin : x ∈ es_ (timed_ s)) by (by eapply list_elem_of_lookup_2).
      rewrite (bool_decide_eq_true_2 (es_ (timed_ s) ≠ [])) by (intros En; rewrite En in Hin; inversion Hin).
      cbn [fmap option_fmap option_map andb]. destruct (_ && _); [|done]. exists x. split; [done|]. split; [done|].
      intros y. by apply top_least.
    + destruct (es_ (timed_ s)) eqn:En; [done|]. unfold top in Ht. by rewrite En in Ht.
  - injection E as <-. unfold fire_timers. destruct (top (timed_ s)) as [x|] eqn:Ht.
    + assert (Hle : ∀ y, y ∈ es_ (timed_ s) → when x ≤ when y) by (intros y; by apply top_least).
      destruct (Z.leb_spec (when x) (snow_ s)).
      * split; [done|]. left. exists x. split; [by apply pop_perm|]. by split.
      * split; [done|]. right. split; [done|]. intros y Hy. specialize (Hle y Hy). lia.
    + split; [done|]. right. split; [done|]. intros y Hy. unfold top in Ht. destruct (es_ (timed_ s)); [inversion Hy|done].
  - unfold fire in E. apply bind_Some in E as ([[c|] w] & _ & E).
    + cbn beta iota zeta in E. destruct (resume _ _ _). by injection E as <-.
    + by apply destroy_clock in E as [? _].
  - injection E as <-. unfold back_from, step_time. rewrite Hv. destruct (steps_time back); cbn; lia.
  - apply bind_Some in E as (s1 & E & [= <-]). by apply run_op_keeps_clock in E as [? _].
Qed.

(** ** Computing runs *)

Definition legal_op_b (X : nat → nat) (op : event_op) : bool :=
  match op with
  | O_new => true
  | O_copy e | O_drop e | O_trigger e | O_wait e _ | O_stop e _ => (0 <? X e)%nat
  | O_make _ _ | O_pop | O_resume _ _ => false
  end.

Definition legal_api_b s (op : api) : bool :=
  match op with
  | A_event op => legal_op_b (handles s) op
  | A_asap e | A_at _ e | A_after _ e | A_keepalive e | A_watch e => (0 <? handles s e)%nat
  | A_unguard => 0 <? guards s
  | A_guard | A_clear => true
  end.

Definition legal_step_b s (inp : input) : bool :=
  match phase_ s with
  | P_idle _ => match i_call inp with Call op => legal_api_b s op | Loop _ => true end
  | P_run (op :: _) _ _ => legal_api_b s op
  | P_import => bool_decide (is_Some (release (i_closed inp) (watched s)))
  | P_register => bool_decide (is_Some (release (i_culled inp) (watched s)))
  | P_wait => bool_decide (is_Some (release (i_ready inp) (watched s)))
  | P_clear_fds =>
      match i_ready inp with e :: _ => bool_decide (is_Some (release [e] (watched s))) | [] => true end
  | _ => true
  end.

Fixpoint run_checked (fuel : nat) (inps : list input) s : option (driver M) :=
  match inps with
  | [] => Some s
  | inp :: inps' => if legal_step_b s inp then s ← step fuel inp s; run_checked fuel inps' s else None
  end.

Lemma legal_api_b_spec s op : legal_api_b s op = true → legal_api s op.
Proof.
  destruct op as [op|e|t e|d e|e|e| | |]; cbn [legal_api_b legal_api]; try done;
    rewrite ?Nat.ltb_lt, ?Z.ltb_lt; try done.
  destruct op; cbn [legal_op_b legal]; rewrite ?Nat.ltb_lt; done.
Qed.

Lemma legal_step_b_spec s inp : legal_step_b s inp = true → legal_step s inp.
Proof.
  unfold legal_step_b, legal_step.
  destruct (phase_ s) as [r| |[|e es]|k| | | | | |[|e es]| | | |[|e es] had|had| |e back|[|op ops] e back]; try done;
    try (intros H; by apply bool_decide_eq_true in H).
  - destruct (i_call inp); [apply legal_api_b_spec|done].
  - destruct (i_ready inp); [done|]. intros H. by apply bool_decide_eq_true in H.
  - apply legal_api_b_spec.
Qed.

Lemma run_checked_driven fuel inps s s' : driven s → run_checked fuel inps s = Some s' → driven s'.
Proof.
  revert s. induction inps as [|inp inps IH]; intros s Hd; cbn [run_checked]; [by intros [= <-]|].
  destruct (legal_step_b s inp) eqn:El; [|done]. intros (s1 & E & H)%bind_Some.
  eapply IH; [|exact H]. eapply driven_step; [done|by apply legal_step_b_spec|exact E].
Qed.

Definition no_input (c : call) : input := Input c [] false 0 [] [] false 0.
(** A call of the program, and the steps of a loop without descriptors. *)
Definition calls (ops : list api) : list input := (λ op, no_input (Call op)) <$> ops.
Definition rounds (n : nat) : list input := replicate n (no_input (Loop false)).
End Safety.

(** * Examples *)

(** Coroutines that return at once. *)
Definition idle_resume (_ : unit) (_ : nat) (_ : driver unit) : unit * list api := (tt, []).
Definition idle_checked := run_checked (λ _, O) 0 idle_resume.
Definition idle_driven := driven (λ _ : nat, O) 0 idle_resume.
Definition idle_step := step (λ _, O) 0 idle_resume.

Lemma idle_run inps s : idle_checked 5 inps (new_driver tt false 0) = Some s → idle_driven s.
Proof. apply run_checked_driven. apply driven_init. Qed.

(** Three tasks wait for an event that is to be processed soon, and one for a
    timer that is due in a nanosecond. *)
Definition three_and_a_timer : list api :=
  [A_event O_new; A_event (O_wait 0 10); A_event (O_wait 0 11); A_event (O_wait 0 12); A_asap 0;
   A_event O_new; A_event (O_wait 1 13); A_after 1 1].

(** Virtual time is not monotonic: the driver sets it to the time of the
    first timer, which the nanoseconds counted for resumed coroutines may have
    passed. *)
Theorem virtual_time_goes_back :
  ∃ s s', idle_driven s ∧ real_time_ s = false ∧ idle_step 5 (no_input (Loop false)) s = Some s' ∧ snow_ s' < snow_ s.
Proof.
  assert (E : (λ s, (real_time_ s, snow_ s, snow_ <$> idle_step 5 (no_input (Loop false)) s)) <$>
    idle_checked 5 (calls three_and_a_timer ++ rounds 18) (new_driver tt false 0) = Some (false, 3, Some 1))
    by (vm_compute; reflexivity).
  apply fmap_Some in E as (s & E & Ev). injection Ev as H1 H2 H3. symmetry in H3. apply fmap_Some in H3 as (s' & Es & H3).
  exists s, s'. split; [by eapply idle_run|]. split; [done|]. split; [done|]. lia.
Qed.

(** A guard that outlives [clear] leaves the count of guards at -1: the driver
    waits for it forever. *)
Theorem guard_outlives_clear :
  ∃ s, idle_driven s ∧ phase_ s = P_idle (Some false) ∧ guards s = 0 ∧ guard_count_ s = -1 ∧
    ∀ inp, nothing_to_do 0 s inp = false.
Proof.
  assert (E : (λ s, (phase_ s, guards s, guard_count_ s)) <$>
    idle_checked 5 (calls [A_guard; A_clear] ++ rounds 12 ++ calls [A_unguard]) (new_driver tt false 0)
    = Some (P_idle (Some false), 0, -1)) by (vm_compute; reflexivity).
  apply fmap_Some in E as (s & E & Ev). injection Ev as H1 H2 H3. exists s.
  split; [by eapply idle_run|]. split; [done|]. split; [done|]. split; [done|].
  intros inp. unfold nothing_to_do. rewrite <-H3. cbn. by rewrite andb_false_r.
Qed.

(** ** The quota *)

(** A driver that has only events to process soon, for which nobody waits. *)
Record only_asap (es : list nat) (s : driver unit) : Prop := {
  oa_driven : idle_driven s;
  oa_asap : asap_ (events s) = es;
  oa_bodies : ∀ e, e ∈ es → bodies (events s) !! e = Some new_body;
  oa_nodup : NoDup es;
  oa_migrated : migrated (events s) = [];
  oa_timed : es_ (timed_ s) = [];
  oa_keepalives : keepalives_ s = [];
  oa_watched : watched s = [];
  oa_nfdctl : nfdctl_ s = 0;
  oa_guards : guard_count_ s = 0;
  oa_clearing : clearing_ s = false
}.

Lemma only_asap_step es es' s s' :
  only_asap es s → (∃ inp, legal_step s inp ∧ idle_step 5 inp s = Some s') →
  asap_ (events s') = es' → (∀ e, e ∈ es' → bodies (events s') !! e = Some new_body) → NoDup es' →
  migrated (events s') = [] → timed_ s' = timed_ s → keepalives_ s' = keepalives_ s → watched s' = watched s →
  nfdctl_ s' = 0 → guard_count_ s' = guard_count_ s → clearing_ s' = false → only_asap es' s'.
Proof.
  intros [A1 A2 A3 A4 A5 A6 A7 A8 A9 A10 A11] (inp & Hl & E) B1 B2 B3 B4 B5 B6 B7 B8 B9 B10.
  split; try congruence; try done. by eapply driven_step.
Qed.

(** The program queues [k] events. *)
Lemma queue_fresh k :
  ∃ s, only_asap (seq 0 k) s ∧ phase_ s = P_idle None ∧ next_event (events s) = k ∧ polling s = false.
Proof.
  induction k as [|k (s & Hs & Hp & Hn & Hpo)].
  - exists (new_driver tt false 0). split; [|done].
    split; try done; [apply driven_init|intros e He; inversion He|constructor].
  - pose proof Hs as [A1 A2 A3 A4 A5 A6 A7 A8 A9 A10 A11].
    assert (Hfresh : ∀ e, e ∈ seq 0 k → e ≠ k) by (intros e [_ He]%elem_of_seq; cbn in He; lia).
    set (s1 := with_events s (inc k (handles s)) (World (<[k := new_body]> (bodies (events s))) (S k)
                 (asap_ (events s)) (migrated (events s)) (log (events s)))).
    assert (H1 : only_asap (seq 0 k) s1).
    { eapply only_asap_step; [exact Hs| |done| |done|done|done..].
      - exists (no_input (Call (A_event O_new))). unfold legal_step, idle_step, step. rewrite Hp. split; [done|].
        cbn [i_call no_input run_api run_op]. unfold new_event. cbn [mbind option_bind]. by rewrite Hn.
      - intros e He. cbn. rewrite lookup_insert_ne by (intros ->; by apply (Hfresh e)). by apply A3. }
    exists (asap s1 k). split; [|done]. rewrite seq_S. cbn [plus].
    eapply (only_asap_step _ _ s1); [exact H1| | | | |done|done..].
    + exists (no_input (Call (A_asap k))). unfold legal_step, idle_step, step. cbn [s1 with_events phase_]. rewrite Hp.
      split; [|done]. cbn. unfold inc. rewrite decide_True by done. lia.
    + cbn. by rewrite A2.
    + intros e [He|He]%elem_of_app; cbn.
      * rewrite lookup_insert_ne by (intros ->; by apply (Hfresh e)). by apply A3.
      * apply list_elem_of_singleton in He as ->. by rewrite lookup_insert_eq.
    + change (seq 0 k ++ [k]) with (seq 0 k ++ [(0 + k)%nat]). rewrite <-seq_S. apply NoDup_seq.
Qed.

Lemma trigger_fresh home me n w e :
  bodies w !! e = Some new_body →
  driver_trigger home me (S (S n)) w e me = Some (None, add_log (set_body w e (with_triggered new_body)) e).
Proof.
  intros He. unfold driver_trigger. rewrite He. cbn [mbind option_bind new_body ef_empty ef_triggered andb negb].
  cbn [trigger_unlock]. rewrite He. cbn [mbind option_bind new_body quorum_part]. rewrite He.
  cbn [mbind option_bind new_body listeners_ sort_listeners sl_kept sl_quorums sl_claimed sl_drivers trigger_members].
  by rewrite bool_decide_eq_true_2 by done.
Qed.

(** The loop processes as many as its quota. *)
Lemma drain_asap n es s :
  only_asap es s → phase_ s = P_asap n → polling s = false →
  ∃ s', only_asap (drop n es) s' ∧ phase_ s' = P_keepalives ∧ polling s' = false.
Proof.
  revert es s. induction n as [|n IH]; intros es s Hs Hp Hpo.
  { exists (goto s P_keepalives). split; [|done]. pose proof Hs as [A1 A2 A3 A4 A5 A6 A7 A8 A9 A10 A11].
    eapply only_asap_step; [exact Hs| |done..]. exists (no_input (Loop false)).
    unfold legal_step, idle_step, step. by rewrite Hp. }
  pose proof Hs as [A1 A2 A3 A4 A5 A6 A7 A8 A9 A10 A11]. destruct es as [|e es].
  { exists (goto s P_keepalives). split; [|done].
    eapply only_asap_step; [exact Hs| |done..]. exists (no_input (Loop false)).
    unfold legal_step, idle_step, step. rewrite Hp. split; [done|]. unfold pop_asap. by rewrite A2. }
  apply NoDup_cons in A4 as [Hne Hnd].
  set (w := events s) in *.
  set (w1 := World (bodies w) (next_event w) es (migrated w) (log w)).
  assert (He : bodies w !! e = Some new_body) by (apply A3; by left).
  assert (H1 : only_asap es (goto (with_world s w1) (P_fire e (P_asap n)))).
  { eapply only_asap_step; [exact Hs| |done| |done|done|done..].
    - exists (no_input (Loop false)). unfold legal_step, idle_step, step. rewrite Hp. split; [done|].
      unfold pop_asap. fold w. by rewrite A2.
    - intros x Hx. apply A3. by right. }
  set (s1 := goto (with_world s w1) (P_fire e (P_asap n))) in *.
  set (w2 := World (delete e (<[e := with_triggered new_body]> (bodies w))) (next_event w) es (migrated w) (log w ++ [e])).
  assert (H2 : only_asap es (goto (with_world s1 w2) (P_asap n))).
  { eapply (only_asap_step es); [exact H1| |done| |done|done|done..].
    - exists (no_input (Loop false)). unfold legal_step, idle_step, step. cbn [s1 goto with_world phase_]. split; [done|].
      unfold fire. cbn [s1 goto with_world with_events events].
      rewrite (trigger_fresh _ _ 3 w1 e He). cbn [mbind option_bind]. unfold destroy.
      cbn [drop_handle with_world with_events events add_log set_body bodies]. by rewrite lookup_insert_eq.
    - intros x Hx. cbn. assert (x ≠ e) by (by intros ->). rewrite lookup_delete_ne, lookup_insert_ne by done.
      apply A3. by right. }
  destruct (IH es _ H2 eq_refl Hpo) as (s' & S1 & S2). by exists s'.
Qed.

(** The rest of a round that has nothing more to do. *)
Lemma quiet_exit es s :
  only_asap es s → phase_ s = P_keepalives → ∃ s', only_asap es s' ∧ phase_ s' = P_idle (Some false).
Proof.
  intros Hs Hp.
  assert (Hgo : ∀ s s', only_asap es s → idle_step 5 (no_input (Loop false)) s = Some s' →
    legal_step s (no_input (Loop false)) → events s' = events s → timed_ s' = timed_ s →
    keepalives_ s' = keepalives_ s → watched s' = watched s → nfdctl_ s' = 0 → guard_count_ s' = guard_count_ s →
    clearing_ s' = false → only_asap es s').
  { intros s1 s2 H1 E Hl B1 B2 B3 B4 B5 B6 B7. pose proof H1 as [A1 A2 A3 A4 A5 A6 A7 A8 A9 A10 A11].
    eapply only_asap_step; [exact H1|by eexists| | |done| |done..]; by rewrite B1. }
  unfold idle_step, step in Hgo. pose proof Hs as [A1 A2 A3 A4 A5 A6 A7 A8 A9 A10 A11].
  assert (H1 : only_asap es (goto s P_register)).
  { eapply Hgo; [exact Hs|..]; try done; [|unfold legal_step; by rewrite Hp]. rewrite Hp. unfold pop_keepalives. by rewrite A7, A11. }
  assert (H2 : only_asap es (goto (with_watched s (watched s) 0) (P_drop []))).
  { eapply Hgo; [exact H1|..]; try done. unfold legal_step. cbn. by eexists. }
  assert (H3 : only_asap es (goto (with_watched s (watched s) 0) P_cull)) by (eapply Hgo; [exact H2|done..]).
  assert (H4 : only_asap es (goto (with_watched s (watched s) 0) P_exit)).
  { eapply Hgo; [exact H3|..]; try done. cbn [phase_ goto]. unfold cull_timers, top. cbn [timed_ goto with_watched]. by rewrite A6. }
  exists (goto (with_clearing (with_watched s (watched s) 0) false) (P_idle (Some false))). split; [|done].
  eapply Hgo; [exact H4|..]; try done. cbn [phase_ goto]. unfold exit_test, nothing_to_do, locked, posted, empty.
  cbn [timed_ goto with_watched nfdctl_ events guard_count_ keepalives_ i_lock no_input]. by rewrite A5, A6, A7, A10.
Qed.

(** The loop returns with ready events left when there are more of them than
    the 4096 it processes per round and nothing else: its test for something to
    do does not look at their queue. *)
Theorem quota_leaves_work (k : nat) :
  ∃ s, idle_driven s ∧ phase_ s = P_idle (Some false) ∧ length (asap_ (events s)) = (k - asap_quota)%nat.
Proof.
  destruct (queue_fresh k) as (s & Hs & Hp & _ & _).
  pose proof Hs as [A1 A2 A3 A4 A5 A6 A7 A8 A9 A10 A11].
  assert (H1 : only_asap (seq 0 k) (start_loop s false)).
  { eapply only_asap_step; [exact Hs| |done..]. exists (no_input (Loop false)).
    unfold legal_step, idle_step, step. by rewrite Hp. }
  assert (H2 : only_asap (seq 0 k) (goto (start_loop s false) (P_close []))).
  { eapply only_asap_step; [exact H1| |done..]. exists (no_input (Loop false)).
    unfold legal_step, idle_step, step. cbn [start_loop phase_ no_input i_closed release]. split; [done|].
    unfold finish_migrate, posted. cbn [release i_closed no_input start_loop events watched mbind option_bind].
    rewrite A5. cbn. rewrite app_nil_r. destruct s as [w]. cbn in *. destruct w. cbn in *. by subst. }
  assert (H3 : only_asap (seq 0 k) (goto (start_loop s false) (P_asap asap_quota))).
  { eapply only_asap_step; [exact H2| |done..]. by exists (no_input (Loop false)). }
  destruct (drain_asap asap_quota (seq 0 k) _ H3 eq_refl eq_refl) as (s1 & B1 & B2 & _).
  destruct (quiet_exit _ _ B1 B2) as (s2 & C1 & C2). exists s2. split; [apply C1|]. split; [done|].
  rewrite (oa_asap _ _ C1), length_drop, length_seq. done.
Qed.

(** * Witnesses *)

Definition the_driver : driver unit :=
  default (new_driver tt false 0) (idle_checked 5 (calls three_and_a_timer ++ rounds 18) (new_driver tt false 0)).
Definition the_next : driver unit := default the_driver (idle_step 5 (no_input (Loop false)) the_driver).

Lemma the_driver_driven : idle_driven the_driver.
Proof.
  unfold the_driver. destruct (idle_checked _ _ _) as [s|] eqn:E; [by eapply idle_run|apply driven_init].
Qed.
Lemma the_driver_phase : phase_ the_driver = P_time false.
Proof. vm_compute. reflexivity. Qed.
Lemma the_next_step : idle_step 5 (no_input (Loop false)) the_driver = Some the_next.
Proof.
  unfold the_next. destruct (idle_step _ _ _) as [s|] eqn:E; [done|]. exfalso.
  assert (H : bool_decide (is_Some (idle_step 5 (no_input (Loop false)) the_driver)) = true) by (vm_compute; reflexivity).
  rewrite E in H. by apply bool_decide_eq_true in H as [? ?].
Qed.

Lemma driver_never_stuck_witness :
  ∃ s', enough (λ n, idle_step n (no_input (Loop false)) the_driver) s' ∧ idle_driven s'.
Proof.
  apply (driver_never_stuck (λ _, O) 0 idle_resume the_driver (no_input (Loop false)) the_driver_driven).
  unfold legal_step. rewrite the_driver_phase. exact I.
Defined.

Lemma timers_on_time_witness :
  snow_ the_next = 1 ∧
  ∃ x, x ∈ es_ (timed_ the_driver) ∧ snow_ the_next = when x ∧ ∀ y, y ∈ es_ (timed_ the_driver) → when x ≤ when y.
Proof.
  split; [vm_compute; reflexivity|].
  assert (Hr : real_time_ the_driver = false) by (vm_compute; reflexivity).
  assert (Hb : bool_decide (es_ (timed_ the_driver) ≠ []) && bool_decide (asap_ (events the_driver) = []) && negb false = true)
    by (vm_compute; reflexivity).
  pose proof (timers_on_time (λ _, O) 0 idle_resume 5 (no_input (Loop false)) the_driver the_next
    the_driver_driven Hr the_next_step) as H.
  rewrite the_driver_phase, Hb in H. exact H.
Defined.
