(* ===== verification/Tasks.v ===== *)
(** Tasks of the coroutine runtime, [src/cotamer/cotamer_impl.hh] and
    [src/cotamer/cotamer.cc]: promises, what happens when a coroutine awaits
    another one, finishes, or reaches [resolve{}], the methods of [task], and
    the loops of [attempt], [first] and [race].

    A coroutine is a value of [code]: what its body does, one suspension point
    or call of the runtime after the other.  The machine runs them: its stack
    holds the coroutines that run and the calls of
    [task_promise_base::resolve] that drive others, innermost first, so that a
    call that runs another coroutine is a push and the interleavings are those
    of the program.  A coroutine frame owns the tasks it was given or has
    called, in [slots]; destroying it destroys them.

    Events are reduced to what tasks use of them: a flag, the coroutines that
    wait, and the quorums of a race that have the event as a member.  [Events]
    models them in full and shows that triggering one resumes each waiting
    coroutine once ([Events.waiters_resumed_once]); [ready] is the queue of
    the driver.  Events are not freed here.

    The step function answers [Stuck] where the program would touch a freed
    frame, resume a coroutine that is not suspended or read a result that is
    not there, and [Misuse] where a body breaks the library's rules by itself:
    it awaits an empty task or names an event that does not exist. *)

From S2P Require Import Prelude.

(** * Results *)

(** What a coroutine ends with: the value of [co_return], or an exception. *)
Inductive outcome := value (v : Z) | exception (e : Z).

Definition cross_driver_await : Z := 1.
Definition detached_await : Z := 2.

Inductive res (A : Type) := Ok_ (a : A) | Stuck | Misuse | Terminate.
Arguments Ok_ {A} a.
Arguments Stuck {A}.
Arguments Misuse {A}.
Arguments Terminate {A}.

Definition res_bind {A B} (x : res A) (f : A → res B) : res B :=
  match x with Ok_ a => f a | Stuck => Stuck | Misuse => Misuse | Terminate => Terminate end.
Notation "x ⇐ a ; b" := (res_bind a (λ x, b)) (at level 60, a at level 59, right associativity) : draft_scope.

(** A frame or a value that must be there. *)
Definition need {A} (x : option A) : res A := match x with Some a => Ok_ a | None => Stuck end.

(** * Bodies *)

(** An argument of a race: a task the coroutine owns, or an event. *)
Inductive arg := arg_task (slot : nat) | arg_event (e : nat).

Inductive code :=
  | co_return (r : outcome)
  | act (a : Z) (k : code)                                   (* any effect *)
  | call (body : code) (moved : list nat) (k : code)         (* a task, given tasks of the caller *)
  | make_event (k : nat → code)
  | trigger_event (e : nat) (k : code)
  | await_event (e : option nat) (k : code)                  (* [None] is the null event *)
  | await_interest (k : code)
  | await_resolve (k : code)
  | await_task (slot : nat) (k : outcome → code)
  | await_ref (t : nat) (k : outcome → code)                 (* a task that another coroutine owns *)
  | forward_task (slot : nat) (k : code)
  | start_task (slot : nat) (k : code)
  | done_task (slot : nat) (k : bool → code)
  | resolvable_task (slot : nat) (k : bool → code)
  | resolve_task (slot : nat) (k : bool → code)
  | resolution_of (slot : nat) (k : option nat → code)
  | detach_task (slot : nat) (k : code)
  | destroy_task (slot : nat) (k : code)
  | first_of (args : list arg) (k : nat → option outcome → code)
  (* inside the runtime: *)
  | ready_then (t : nat) (k : outcome → code)                (* [await_ready] has called [resolve] *)
  | await_resume (t : nat) (k : outcome → code)
  | resolved_then (k : bool → code)
  | first_resolve (args : list arg) (k : nat → option outcome → code)
  | first_find (args tried rest : list arg) (k : nat → option outcome → code)
  | first_after (args : list arg) (k : nat → option outcome → code).

(** * State *)

Inductive awaiting := nobody | coroutine (c : nat) | quorum_event (q : nat).

#[export] Instance awaiting_eq_dec : EqDecision awaiting.
Proof. solve_decision. Defined.

(** [task_promise_base]. *)
Record promise := mk_promise {
  detached_ : bool;
  has_interest_ : bool;
  resolving_ : bool;
  forwarded_ : bool;
  in_resolve_ : bool;
  home_ : nat;
  resolution_ : option nat;
  interest_ : option nat;
  awaiter_ : awaiting;
  forward_ : option nat;
}.

Definition new_promise (driver : nat) : promise :=
  mk_promise false false false false false driver None None nobody None.

Definition set_detached_ (b : bool) (p : promise) : promise :=
  mk_promise b (has_interest_ p) (resolving_ p) (forwarded_ p) (in_resolve_ p) (home_ p)
    (resolution_ p) (interest_ p) (awaiter_ p) (forward_ p).
Definition set_interest (b : bool) (e : option nat) (p : promise) : promise :=
  mk_promise (detached_ p) b (resolving_ p) (forwarded_ p) (in_resolve_ p) (home_ p)
    (resolution_ p) e (awaiter_ p) (forward_ p).
Definition set_resolving_ (b : bool) (p : promise) : promise :=
  mk_promise (detached_ p) (has_interest_ p) b (forwarded_ p) (in_resolve_ p) (home_ p)
    (resolution_ p) (interest_ p) (awaiter_ p) (forward_ p).
Definition set_forwarded_ (b : bool) (p : promise) : promise :=
  mk_promise (detached_ p) (has_interest_ p) (resolving_ p) b (in_resolve_ p) (home_ p)
    (resolution_ p) (interest_ p) (awaiter_ p) (forward_ p).
Definition set_in_resolve_ (b : bool) (p : promise) : promise :=
  mk_promise (detached_ p) (has_interest_ p) (resolving_ p) (forwarded_ p) b (home_ p)
    (resolution_ p) (interest_ p) (awaiter_ p) (forward_ p).
Definition set_resolution_ (e : option nat) (p : promise) : promise :=
  mk_promise (detached_ p) (has_interest_ p) (resolving_ p) (forwarded_ p) (in_resolve_ p) (home_ p)
    e (interest_ p) (awaiter_ p) (forward_ p).
Definition set_awaiter_ (a : awaiting) (p : promise) : promise :=
  mk_promise (detached_ p) (has_interest_ p) (resolving_ p) (forwarded_ p) (in_resolve_ p) (home_ p)
    (resolution_ p) (interest_ p) a (forward_ p).
Definition set_forward_ (t : option nat) (p : promise) : promise :=
  mk_promise (detached_ p) (has_interest_ p) (resolving_ p) (forwarded_ p) (in_resolve_ p) (home_ p)
    (resolution_ p) (interest_ p) (awaiter_ p) t.

(** Where a coroutine is. *)
Inductive point := running | at_event (e : nat) | at_resolve | at_task (t : nat) | at_final.

#[export] Instance point_eq_dec : EqDecision point.
Proof. solve_decision. Defined.

(** A frame: what is left of the body ([code_]), the tasks it owns, and
    [result_]. *)
Record frame := mk_frame {
  pr : promise;
  code_ : code;
  point_ : point;
  slots : list (option nat);
  result_ : option outcome;
}.

Definition with_pr (f : promise → promise) (x : frame) : frame :=
  mk_frame (f (pr x)) (code_ x) (point_ x) (slots x) (result_ x).
Definition with_code (k : code) (x : frame) : frame := mk_frame (pr x) k (point_ x) (slots x) (result_ x).
Definition with_point (p : point) (x : frame) : frame := mk_frame (pr x) (code_ x) p (slots x) (result_ x).
Definition with_slots (l : list (option nat)) (x : frame) : frame :=
  mk_frame (pr x) (code_ x) (point_ x) l (result_ x).
Definition with_result (r : outcome) (x : frame) : frame :=
  mk_frame (pr x) (code_ x) at_final (slots x) (Some r).

(** [handle.done()]. *)
Definition is_done (x : frame) : bool := bool_decide (point_ x = at_final).

(** An event; [ev_race] says that it is the quorum of a race. *)
Record ev := mk_ev { ev_triggered : bool; ev_listeners : list nat; ev_quorums : list nat; ev_race : bool }.
Definition no_ev : ev := mk_ev false [] [] false.

(** A coroutine that runs; a call of [resolve] on a coroutine, at the head of
    its loop, or waiting for the awaitee that it forwards, or for the coroutine
    it has resumed. *)
Inductive activation :=
  | A_run (c : nat)
  | A_loop (c : nat)
  | A_forwarded (c : nat)
  | A_driven (c : nat).

(** [effects] records what the bodies did. *)
Record machine := mk_machine {
  frames : gmap nat frame;
  events : gmap nat ev;
  ready : list nat;
  stack : list activation;
  next_frame : nat;
  next_event : nat;
  current : nat;
  effects : list (nat * Z);
}.

Definition with_frames (fs : gmap nat frame) (m : machine) : machine :=
  mk_machine fs (events m) (ready m) (stack m) (next_frame m) (next_event m) (current m) (effects m).
Definition with_events (es : gmap nat ev) (m : machine) : machine :=
  mk_machine (frames m) es (ready m) (stack m) (next_frame m) (next_event m) (current m) (effects m).
Definition with_ready (l : list nat) (m : machine) : machine :=
  mk_machine (frames m) (events m) l (stack m) (next_frame m) (next_event m) (current m) (effects m).
Definition with_stack (s : list activation) (m : machine) : machine :=
  mk_machine (frames m) (events m) (ready m) s (next_frame m) (next_event m) (current m) (effects m).

Definition ev_of (m : machine) (e : nat) : ev := default no_ev (events m !! e).
Definition set_frame (c : nat) (f : frame → frame) (m : machine) : machine :=
  with_frames (alter f c (frames m)) m.

(** * Events *)

(** [event_handle::triggered]: the null handle is triggered. *)
Definition is_triggered (m : machine) (e : option nat) : bool :=
  match e with Some e => ev_triggered (ev_of m e) | None => true end.

Definition trigger_one (m : machine) (e : nat) : machine :=
  let b := ev_of m e in
  if ev_triggered b then m
  else with_ready (ready m ++ ev_listeners b) (with_events (<[e := mk_ev true [] (ev_quorums b) (ev_race b)]> (events m)) m).

(** [event_body::trigger]; the quorums here are those of races, which need
    one member and are members of nothing. *)
Definition trigger (e : nat) (m : machine) : machine :=
  if ev_triggered (ev_of m e) then m
  else foldl trigger_one (trigger_one m e) (ev_quorums (ev_of m e)).

Definition trigger_handle (e : option nat) (m : machine) : machine :=
  match e with Some e => trigger e m | None => m end.

Definition fresh_event (m : machine) : nat * machine :=
  (next_event m, mk_machine (frames m) (events m) (ready m) (stack m) (next_frame m) (S (next_event m))
                   (current m) (effects m)).

(** The quorum that a race makes; its members are added later. *)
Definition fresh_quorum (m : machine) : nat * machine :=
  let '(q, m) := fresh_event m in (q, with_events (<[q := mk_ev false [] [] true]> (events m)) m).

Definition add_listener (c e : nat) (m : machine) : machine :=
  let b := ev_of m e in
  with_events (<[e := mk_ev (ev_triggered b) (ev_listeners b ++ [c]) (ev_quorums b) (ev_race b)]> (events m)) m.

Definition remove_listener (c e : nat) (m : machine) : machine :=
  let b := ev_of m e in
  with_ready (filter (λ x, x ≠ c) (ready m))
    (with_events (<[e := mk_ev (ev_triggered b) (filter (λ x, x ≠ c) (ev_listeners b))
       (ev_quorums b) (ev_race b)]> (events m)) m).

(** * Promises *)

Definition promise_of (m : machine) (c : nat) : res promise := f ⇐ need (frames m !! c); Ok_ (pr f).

(** [active_awaiter]: past the awaiters that forward.  The chain of awaiters
    is no longer than the number of frames. *)
Fixpoint active_loop (fuel : nat) (m : machine) (a : awaiting) : res (option nat) :=
  match a with
  | coroutine c =>
      match fuel with
      | O => Stuck
      | S fuel' =>
          p ⇐ promise_of m c;
          match forward_ p with
          | Some _ => active_loop fuel' m (awaiter_ p)
          | None => Ok_ (Some c)
          end
      end
  | _ => Ok_ None
  end.

Definition active_awaiter (m : machine) (c : nat) : res (option nat) :=
  p ⇐ promise_of m c; active_loop (S (base.size (frames m))) m (awaiter_ p).

(** [resolution_point]. *)
Fixpoint resolution_loop (fuel : nat) (c : nat) (m : machine) : res machine :=
  match fuel with
  | O => Stuck
  | S fuel' =>
      p ⇐ promise_of m c;
      let m := set_frame c (with_pr (set_resolving_ true)) m in
      let m := trigger_handle (resolution_ p) m in
      match awaiter_ p with
      | coroutine a =>
          q ⇐ promise_of m a;
          if bool_decide (is_Some (forward_ q)) then resolution_loop fuel' a m else Ok_ m
      | quorum_event e => Ok_ (trigger e m)
      | nobody => Ok_ m
      end
  end.

Definition resolution_point (c : nat) (m : machine) : res machine :=
  resolution_loop (S (base.size (frames m))) c m.

(** [make_interest]. *)
Definition make_interest (c : nat) (m : machine) : res (option nat * machine) :=
  p ⇐ promise_of m c;
  if has_interest_ p then Ok_ (interest_ p, m)
  else
    let '(e, m) := fresh_event m in
    Ok_ (Some e, set_frame c (with_pr (set_interest true (Some e))) m).

(** [resolution()]. *)
Definition resolution (c : nat) (m : machine) : res (option nat * machine) :=
  p ⇐ promise_of m c;
  if bool_decide (resolution_ p = None) && negb (resolving_ p) then
    let '(e, m) := fresh_event m in
    Ok_ (Some e, set_frame c (with_pr (set_resolution_ (Some e))) m)
  else Ok_ (resolution_ p, m).

(** [prepare_awaiter]: an exception, or the coroutine to run next. *)
Definition prepare_awaiter (awaitee awaiter : nat) (m : machine) : res (Z + option nat * machine) :=
  p ⇐ promise_of m awaitee;
  a ⇐ promise_of m awaiter;
  if negb (home_ p =? home_ a)%nat then Ok_ (inl cross_driver_await)
  else if detached_ p then Ok_ (inl detached_await)
  else
    let m := trigger_handle (interest_ p) m in
    let m := set_frame awaitee (with_pr (set_awaiter_ (coroutine awaiter))) m in
    let m := if forwarded_ p
             then set_frame awaiter (with_pr (set_forward_ (Some awaitee)))
                    (set_frame awaitee (with_pr (set_forwarded_ false)) m)
             else m in
    if resolving_ p then
      active ⇐ active_awaiter m awaitee;
      match active with
      | Some _ =>
          let m := set_frame awaitee (λ f, with_pr (set_resolution_ None) (with_pr (set_resolving_ false) f)) m in
          Ok_ (inr (Some awaitee, m))
      | None => m ⇐ resolution_point awaiter m; Ok_ (inr (None, m))
      end
    else Ok_ (inr (None, m)).

(** [clear_awaiter]. *)
Definition clear_awaiter (t : nat) (m : machine) : res machine :=
  p ⇐ promise_of m t;
  match awaiter_ p with
  | coroutine a =>
      q ⇐ promise_of m a;
      match forward_ q with
      | Some _ =>
          Ok_ (set_frame a (λ f, with_pr (set_resolution_ None)
                 (with_pr (set_resolving_ false) (with_pr (set_forward_ None) f))) m)
      | None => Ok_ m
      end
  | _ => Ok_ m
  end.

(** * Frames *)

(** Destroying frames: a frame that runs or is gone must not be destroyed.
    The destructor of [race_params] clears the awaiters of its tasks, that of
    [task_event_awaiter] removes the coroutine from its event. *)
Definition slot_task (f : frame) (i : nat) : option nat := mjoin (slots f !! i).

Definition arg_tasks (f : frame) (args : list arg) : list nat :=
  args ≫= λ a, match a with arg_task i => option_list (slot_task f i) | arg_event _ => [] end.

Definition clear_awaiters (ts : list nat) (m : machine) : machine :=
  foldl (λ m t, set_frame t (with_pr (set_awaiter_ nobody)) m) m ts.

Definition destroy_one (c : nat) (m : machine) : res (list nat * machine) :=
  f ⇐ need (frames m !! c);
  match point_ f with
  | running => Stuck
  | p =>
      let m := match p with at_event e => remove_listener c e m | _ => m end in
      let m := match code_ f with first_after args _ => clear_awaiters (arg_tasks f args) m | _ => m end in
      Ok_ (omap id (slots f), with_frames (delete c (frames m)) m)
  end.

Fixpoint destroy_all (fuel : nat) (work : list nat) (m : machine) : res machine :=
  match work, fuel with
  | [], _ => Ok_ m
  | _ :: _, O => Stuck
  | c :: work', S fuel' => r ⇐ destroy_one c m; destroy_all fuel' (work' ++ r.1) r.2
  end.

(** Every round removes a frame, so their number is enough fuel. *)
Definition destroy (c : nat) (m : machine) : res machine := destroy_all (base.size (frames m)) [c] m.

(** [handle()]: a coroutine that is suspended goes on. *)
Definition enter (c : nat) (m : machine) : res machine :=
  f ⇐ need (frames m !! c);
  match point_ f with
  | running | at_final => Stuck
  | at_event e => Ok_ (set_frame c (with_point running) (remove_listener c e m))
  | _ => Ok_ (set_frame c (with_point running) m)
  end.

Definition run_on (c : nat) (s : list activation) (m : machine) : res machine :=
  m ⇐ enter c m; Ok_ (with_stack (A_run c :: s) m).

(** * Steps *)

(** [co_await resolve{}]. *)
Definition step_await_resolve (c : nat) (k : code) (s : list activation) (m : machine) : res machine :=
  active ⇐ active_awaiter m c;
  match active with
  | Some _ => Ok_ (set_frame c (with_code k) m)
  | None =>
      let m := set_frame c (λ f, with_point at_resolve (with_code k f)) m in
      m ⇐ resolution_point c m;
      p ⇐ promise_of m c;
      m ⇐ (if detached_ p then destroy c m else Ok_ m);
      Ok_ (with_stack s m)
  end.

(** [co_await e]. *)
Definition step_await_event (c : nat) (e : option nat) (k : code) (s : list activation) (m : machine) : res machine :=
  match e with
  | Some e =>
      if ev_triggered (ev_of m e) then Ok_ (set_frame c (with_code k) m)
      else Ok_ (with_stack s (add_listener c e (set_frame c (λ f, with_point (at_event e) (with_code k f)) m)))
  | None => Ok_ (set_frame c (with_code k) m)
  end.

(** [task_awaiter::await_suspend]. *)
Definition step_await_suspend (c t : nat) (k : outcome → code) (s : list activation) (m : machine) : res machine :=
  r ⇐ prepare_awaiter t c m;
  match r with
  | inl e => Ok_ (set_frame c (with_code (k (exception e))) m)
  | inr (next, m) =>
      let m := set_frame c (λ f, with_point (at_task t) (with_code (await_resume t k) f)) m in
      match next with
      | Some t' => run_on t' s m
      | None => Ok_ (with_stack s m)
      end
  end.

(** [final_suspend], after [return_value] or [unhandled_exception]. *)
Definition step_final (c : nat) (r : outcome) (s : list activation) (m : machine) : res machine :=
  let m := set_frame c (with_result r) m in
  m ⇐ resolution_point c m;
  p ⇐ promise_of m c;
  match awaiter_ p, in_resolve_ p with
  | coroutine a, false => run_on a s m
  | _, _ =>
      m ⇐ (if detached_ p then destroy c m else Ok_ m);
      Ok_ (with_stack s m)
  end.

(** A coroutine call: the new frame takes the tasks [moved] and starts. *)
Fixpoint take_slots (js : list nat) (l : list (option nat)) : list (option nat) * list (option nat) :=
  match js with
  | [] => ([], l)
  | j :: js' => let r := take_slots js' (<[j := None]> l) in (mjoin (l !! j) :: r.1, r.2)
  end.

Definition step_call (c : nat) (body : code) (moved : list nat) (k : code) (s : list activation) (m : machine) : res machine :=
  f ⇐ need (frames m !! c);
  let '(given, kept) := take_slots moved (slots f) in
  let t := next_frame m in
  let f := with_code k (with_slots (kept ++ [Some t]) f) in
  let child := mk_frame (new_promise (current m)) body running given None in
  Ok_ (mk_machine (<[t := child]> (<[c := f]> (frames m))) (events m) (ready m) (A_run t :: A_run c :: s)
         (S t) (next_event m) (current m) (effects m)).

(** [find_resolved] of a race, one argument at a time; [make_event] when none
    is resolved. *)
Definition result_of (m : machine) (f : frame) (a : arg) : res (option outcome) :=
  match a with
  | arg_event _ => Ok_ None
  | arg_task i =>
      t ⇐ need (slot_task f i); g ⇐ need (frames m !! t); r ⇐ need (result_ g); Ok_ (Some r)
  end.

Definition join_quorum (q : nat) (m : machine) (a : arg) : machine :=
  match a with
  | arg_task _ => m
  | arg_event e =>
      let b := ev_of m e in
      if ev_triggered b then trigger q m
      else with_events (<[e := mk_ev false (ev_listeners b) (ev_quorums b ++ [q]) (ev_race b)]> (events m)) m
  end.

Definition set_awaiters (q : nat) (ts : list nat) (m : machine) : machine :=
  foldl (λ m t, set_frame t (with_pr (set_awaiter_ (quorum_event q))) m) m ts.

Definition step_first_find (c : nat) (args tried rest : list arg) (k : nat → option outcome → code)
    (s : list activation) (m : machine) : res machine :=
  f ⇐ need (frames m !! c);
  match rest with
  | [] =>
      let '(q, m) := fresh_quorum m in
      let m := set_awaiters q (arg_tasks f args) m in
      let m := foldl (join_quorum q) m args in
      step_await_event c (Some q) (first_after args k) s m
  | arg_event e :: rest' =>
      if ev_triggered (ev_of m e) then Ok_ (set_frame c (with_code (k (length tried) None)) m)
      else Ok_ (set_frame c (with_code (first_find args (tried ++ [arg_event e]) rest' k)) m)
  | arg_task i :: rest' =>
      match slot_task f i with
      | None => Ok_ (set_frame c (with_code (first_find args (tried ++ [arg_task i]) rest' k)) m)
      | Some t =>
          g ⇐ need (frames m !! t);
          if resolving_ (pr g) then Ok_ (with_stack (A_loop t :: A_run c :: s) m)
          else if is_done g then r ⇐ result_of m f (arg_task i); Ok_ (set_frame c (with_code (k (length tried) r)) m)
          else Ok_ (set_frame c (with_code (first_find args (tried ++ [arg_task i]) rest' k)) m)
      end
  end.

(** [races::param::make] starts the tasks. *)
Definition start (t : nat) (m : machine) : res machine :=
  f ⇐ need (frames m !! t);
  if is_done f then Ok_ m
  else match interest_ (pr f) with
       | Some e => Ok_ (trigger e m)
       | None => Ok_ (set_frame t (with_pr (set_interest true None)) m)
       end.

Definition start_all (ts : list nat) (m : machine) : res machine :=
  foldl (λ r t, m ⇐ r; start t m) (Ok_ m) ts.

Definition clear_slot (c i : nat) (m : machine) : machine :=
  set_frame c (λ f, with_slots (<[i := None]> (slots f)) f) m.

(** Events that a body can name: it has no handle to the quorum of a race. *)
Definition good_event (m : machine) (e : nat) : bool :=
  (e <? next_event m)%nat && negb (ev_race (ev_of m e)).
Definition good_arg (m : machine) (a : arg) : bool :=
  match a with arg_event e => good_event m e | arg_task _ => true end.

(** One step of the coroutine on top. *)
Definition step_run (c : nat) (s : list activation) (m : machine) : res machine :=
  f ⇐ need (frames m !! c);
  let next k := set_frame c (with_code k) in
  match code_ f with
  | co_return r => step_final c r s m
  | act a k =>
      Ok_ (next k (mk_machine (frames m) (events m) (ready m) (stack m) (next_frame m) (next_event m)
                     (current m) (effects m ++ [(c, a)])))
  | call body moved k => step_call c body moved k s m
  | make_event k => let '(e, m) := fresh_event m in Ok_ (next (k e) m)
  | trigger_event e k => if good_event m e then Ok_ (next k (trigger e m)) else Misuse
  | await_event e k =>
      if match e with Some e => good_event m e | None => true end then step_await_event c e k s m else Misuse
  | await_interest k => r ⇐ make_interest c m; step_await_event c r.1 k s r.2
  | await_resolve k => step_await_resolve c k s m
  | await_task i k =>
      match slot_task f i with
      | None => Misuse
      | Some t =>
          g ⇐ need (frames m !! t);
          if is_done g then Ok_ (next (await_resume t k) m)
          else Ok_ (with_stack (A_loop t :: A_run c :: s) (next (ready_then t k) m))
      end
  | await_ref t k =>
      g ⇐ need (frames m !! t);
      if is_done g then Ok_ (next (await_resume t k) m)
      else Ok_ (with_stack (A_loop t :: A_run c :: s) (next (ready_then t k) m))
  | forward_task i k =>
      match slot_task f i with
      | None => Misuse
      | Some t =>
          g ⇐ need (frames m !! t);
          Ok_ (next k (if is_done g then m else set_frame t (with_pr (set_forwarded_ true)) m))
      end
  | start_task i k =>
      match slot_task f i with
      | None => Ok_ (next k m)
      | Some t => m ⇐ start t m; Ok_ (next k m)
      end
  | done_task i k =>
      match slot_task f i with
      | None => Ok_ (next (k false) m)
      | Some t => g ⇐ need (frames m !! t); Ok_ (next (k (is_done g)) m)
      end
  | resolvable_task i k =>
      match slot_task f i with
      | None => Ok_ (next (k false) m)
      | Some t => p ⇐ promise_of m t; Ok_ (next (k (resolving_ p)) m)
      end
  | resolve_task i k =>
      match slot_task f i with
      | None => Ok_ (next (k false) m)
      | Some t =>
          g ⇐ need (frames m !! t);
          if resolving_ (pr g) then Ok_ (with_stack (A_loop t :: A_run c :: s) (next (resolved_then k) m))
          else Ok_ (next (k (is_done g)) m)
      end
  | resolution_of i k =>
      match slot_task f i with
      | None => let '(e, m) := fresh_event m in Ok_ (next (k (Some e)) m)
      | Some t => r ⇐ resolution t m; Ok_ (next (k r.1) r.2)
      end
  | detach_task i k =>
      match slot_task f i with
      | None => Ok_ (next k m)
      | Some t =>
          let m := next k (clear_slot c i (set_frame t (with_pr (set_detached_ true)) m)) in
          p ⇐ promise_of m t;
          if resolving_ p then destroy t m else Ok_ m
      end
  | destroy_task i k =>
      match slot_task f i with
      | None => Ok_ (next k m)
      | Some t => destroy t (next k (clear_slot c i m))
      end
  | first_of args k =>
      if forallb (good_arg m) args then
        m ⇐ start_all (arg_tasks f args) m;
        Ok_ (next (first_resolve args k) m)
      else Misuse
  | await_resume t k =>
      m ⇐ clear_awaiter t m;
      g ⇐ need (frames m !! t);
      r ⇐ need (result_ g);
      Ok_ (next (k r) m)
  | first_resolve args k => step_await_resolve c (first_find args [] args k) s m
  | first_find args tried rest k => step_first_find c args tried rest k s m
  | first_after args k =>
      Ok_ (next (first_resolve args k) (clear_awaiters (arg_tasks f args) m))
  | ready_then _ _ | resolved_then _ => Stuck
  end.

(** [resolve] returns [b] to what called it. *)
Definition deliver (b : bool) (s : list activation) (m : machine) : res machine :=
  match s with
  | A_run c :: s' =>
      f ⇐ need (frames m !! c);
      match code_ f with
      | ready_then t k =>
          if b then Ok_ (with_stack s (set_frame c (with_code (await_resume t k)) m))
          else step_await_suspend c t k s' (with_stack s m)
      | resolved_then k => Ok_ (with_stack s (set_frame c (with_code (k b)) m))
      | first_find args tried (arg_task i :: rest) k =>
          if b then r ⇐ result_of m f (arg_task i);
                    Ok_ (with_stack s (set_frame c (with_code (k (length tried) r)) m))
          else Ok_ (with_stack s (set_frame c (with_code (first_find args (tried ++ [arg_task i]) rest k)) m))
      | _ => Stuck
      end
  | A_forwarded c :: s' =>
      if b then
        p ⇐ promise_of m c;
        if negb (home_ p =? current m)%nat then Terminate
        else run_on c (A_driven c :: s') (set_frame c (with_pr (set_in_resolve_ true)) m)
      else Ok_ (with_stack (A_loop c :: s') m)
  | _ => Stuck
  end.

(** The head of the loop of [resolve].  Its exception leaves
    [await_ready() noexcept]. *)
Definition step_loop (c : nat) (s : list activation) (m : machine) : res machine :=
  f ⇐ need (frames m !! c);
  let p := pr f in
  if is_done f then deliver true s m
  else if negb (resolving_ p) then deliver false s m
  else if forwarded_ p then deliver false s m
  else
    let m := set_frame c (λ f, with_pr (set_resolution_ None) (with_pr (set_resolving_ false) f)) m in
    match forward_ p with
    | Some g => Ok_ (with_stack (A_loop g :: A_forwarded c :: s) m)
    | None =>
        if negb (home_ p =? current m)%nat then Terminate
        else run_on c (A_driven c :: s) (set_frame c (with_pr (set_in_resolve_ true)) m)
    end.

(** A task that was awaited keeps its awaiter's address after it is done: it
    must not be given to another coroutine. *)
Definition moves_unawaited (m : machine) : bool :=
  match stack m with
  | A_run c :: _ =>
      match frames m !! c with
      | Some f =>
          match code_ f with
          | call _ moved _ =>
              forallb (λ i, match slot_task f i with
                            | Some t => match frames m !! t with
                                        | Some g => bool_decide (awaiter_ (pr g) = nobody)
                                        | None => true
                                        end
                            | None => true
                            end) moved
          | _ => true
          end
      | None => true
      end
  | _ => true
  end.

Definition step (m : machine) : res machine :=
  match stack m with
  | [] => Ok_ m
  | A_run c :: s => step_run c s m
  | A_loop c :: s => step_loop c s m
  | A_driven c :: s =>
      p ⇐ promise_of m c;
      Ok_ (with_stack (A_loop c :: s) (set_frame c (with_pr (set_in_resolve_ false)) m))
  | A_forwarded _ :: _ => Stuck
  end.

(** * The outside *)

(** What happens between two runs of the machine: the driver resumes the
    first ready coroutine, an event is triggered, and the program outside any
    coroutine calls one or handles a task that it holds. *)
Inductive command :=
  | X_call (body : code)
  | X_trigger (e : nat)
  | X_resume
  | X_start (t : nat)
  | X_detach (t : nat)
  | X_destroy (t : nat).

(** A task that no coroutine owns and that was not detached. *)
Definition held_outside (m : machine) (t : nat) : bool :=
  match frames m !! t with
  | Some f => negb (detached_ (pr f)) &&
              bool_decide (map_Forall (λ _ g, Some t ∉ slots g) (frames m))
  | None => false
  end.

Definition apply_command (x : command) (m : machine) : res machine :=
  match x with
  | X_call body =>
      let t := next_frame m in
      Ok_ (mk_machine (<[t := mk_frame (new_promise (current m)) body running [] None]> (frames m)) (events m)
             (ready m) [A_run t] (S t) (next_event m) (current m) (effects m))
  | X_trigger e => if good_event m e then Ok_ (trigger e m) else Misuse
  | X_resume =>
      match ready m with
      | [] => Ok_ m
      | c :: _ => run_on c [] m
      end
  | X_start t => if held_outside m t then start t m else Misuse
  | X_detach t =>
      if held_outside m t then
        let m := set_frame t (with_pr (set_detached_ true)) m in
        p ⇐ promise_of m t;
        if resolving_ p then destroy t m else Ok_ m
      else Misuse
  | X_destroy t => if held_outside m t then destroy t m else Misuse
  end.

Definition empty_machine : machine := mk_machine ∅ ∅ [] [] 0 0 0 [].

(** Running to the next pause. *)
Fixpoint run (fuel : nat) (m : machine) : res machine :=
  match fuel, stack m with
  | _, [] => Ok_ m
  | O, _ => Misuse
  | S fuel', _ => m ⇐ step m; run fuel' m
  end.

Fixpoint run_commands (fuel : nat) (xs : list command) (m : machine) : res machine :=
  match xs with
  | [] => Ok_ m
  | x :: xs' => m ⇐ apply_command x m; m ⇐ run fuel m; run_commands fuel xs' m
  end.

(** * Examples *)

(** A coroutine that calls a child, which waits for event 0, and records the
    child's value. *)
Definition child_waits : code := await_event (Some 0%nat) (co_return (value 7)).
Definition parent_records : code :=
  call child_waits [] (await_task 0 (λ r, match r with
    | value v => act v (co_return (value 0)) | exception e => act (- e) (co_return (value 0)) end)).
Definition world0 : machine := (fresh_event empty_machine).2.

Definition effects_of (r : res machine) : option (list (nat * Z)) :=
  match r with Ok_ m => Some (effects m) | _ => None end.

Example parent_gets_value :
  effects_of (run_commands 100 [X_call parent_records; X_trigger 0; X_resume] world0) = Some [(0%nat, 7)].
Proof. by vm_compute. Qed.

(** A receiver takes its message only when somebody can consume it: of two
    receivers in a race the second keeps its message. *)
Definition receiver (msg : Z) : code := await_resolve (act msg (co_return (value msg))).
Definition race_two : code :=
  call (receiver 1) [] (call (receiver 2) [] (call (first_of [arg_task 0; arg_task 1]
    (λ i r, match r with Some r => co_return r | None => co_return (value (-1)) end)) [0; 1]%nat
    (await_task 2 (λ r, act 100 (co_return r))))).

Example race_consumes_one :
  effects_of (run_commands 100 [X_call race_two] world0) = Some [(1%nat, 1); (0%nat, 100)].
Proof. by vm_compute. Qed.

(** ** Limits of the protocol *)

(** A forwarding coroutine that is forwarded again while it stands at the
    resolution point it forwards: awaiting it from a coroutine that is itself
    awaited resumes it, although the coroutine it waits for has not gone on. *)
Definition forwards (body : code) : code :=
  call body [] (forward_task 0 (await_task 0 (λ r, co_return r))).

Example nested_forward_resumes_early :
  run_commands 100 [X_call (call (await_event (Some 0%nat) (forwards (forwards (receiver 5)))) []
                              (await_task 0 (λ r, co_return r)));
                    X_trigger 0; X_resume] world0 = Stuck.
Proof. by vm_compute. Qed.

(** One level of forwarding works. *)
Example forward_once :
  effects_of (run_commands 100 [X_call (call (await_event (Some 0%nat) (forwards (receiver 5))) []
                              (await_task 0 (λ r, act 9 (co_return r))));
                    X_trigger 0; X_resume] world0) = Some [(2%nat, 5); (0%nat, 9)].
Proof. by vm_compute. Qed.

(** A coroutine that awaits a task by reference and is destroyed: the task
    resumes the freed frame when it finishes. *)
Example destroyed_awaiter_is_resumed :
  run_commands 100 [X_call child_waits; X_call (await_ref 0 (λ r, co_return r)); X_destroy 1;
                    X_trigger 0; X_resume] world0 = Stuck.
Proof. by vm_compute. Qed.

(** Awaiting a task does not record interest: a task that asks for it later
    waits for ever, and so does its awaiter.  [start] does record it. *)
Definition late_interest : code := await_event (Some 0%nat) (await_interest (act 1 (co_return (value 1)))).

Example awaiting_loses_interest :
  let run_with first := run_commands 100 [X_call (call late_interest [] (first (await_task 0 (λ r, act 2 (co_return r)))));
                                          X_trigger 0; X_resume] world0 in
  effects_of (run_with id) = Some [] ∧
  (λ m, (ready m, point_ <$> frames m !! 0%nat)) <$>
    match run_with id with Ok_ m => Some m | _ => None end = Some ([], Some (at_task 1)) ∧
  effects_of (run_with (start_task 0)) = Some [(1%nat, 1); (0%nat, 2)].
Proof. by vm_compute. Qed.

(** A detached coroutine does not run past [resolve{}]: its frame is
    destroyed there, and the effect after it never happens. *)
Example detached_stops_at_resolve :
  let r := run_commands 100 [X_call (call (await_event (Some 0%nat) (receiver 3)) [] (detach_task 0 (act 1 (co_return (value 0)))));
                             X_trigger 0; X_resume] world0 in
  effects_of r = Some [(0%nat, 1)] ∧
  match r with Ok_ m => frames m !! 1%nat = None | _ => False end.
Proof. by vm_compute. Qed.
