(* ===== verification/TaskInvariant.v ===== *)
(** The invariant of the task protocol of [Tasks.v] and what it rests on: the
    programs that the protocol is for, the relation between a coroutine and
    each task it owns, the shape of the stack, and the lemmas that carry the
    invariant over triggered events, new events and changed frames
    ([evolve_ok], [reframe_ok]), and over the part of the stack that a step
    does not touch ([goes_on], [pauses]). *)

From S2P Require Import Prelude Tasks.

(** * Programs that follow the rules

    A body owns the tasks it awaits and does not forward ([await_ref] and
    [forward_task] are the two ways out; the examples at the end show what
    they lead to). *)
Fixpoint user_code (k : code) : Prop :=
  match k with
  | co_return _ => True
  | act _ k | trigger_event _ k | await_event _ k | await_interest k | await_resolve k
  | start_task _ k | detach_task _ k | destroy_task _ k => user_code k
  | call body _ k => user_code body ∧ user_code k
  | make_event k => ∀ e, user_code (k e)
  | await_task _ k => ∀ r, user_code (k r)
  | done_task _ k | resolvable_task _ k | resolve_task _ k => ∀ b, user_code (k b)
  | resolution_of _ k => ∀ e, user_code (k e)
  | first_of _ k => ∀ i r, user_code (k i r)
  | await_ref _ _ | forward_task _ _ => False
  | ready_then _ _ | await_resume _ _ | resolved_then _ | first_resolve _ _
  | first_find _ _ _ _ | first_after _ _ => False
  end.

Definition user_command (x : command) : Prop :=
  match x with X_call body => user_code body | _ => True end.

(** * The invariant *)

Definition race_ok (m : machine) (args : list arg) (k : nat → option outcome → code) : Prop :=
  (∀ i r, user_code (k i r)) ∧ ∀ e, arg_event e ∈ args → (e < next_event m)%nat ∧ ev_race (ev_of m e) = false.

(** Event [e] has joined the quorum [q]. *)
Definition joins (m : machine) (q e : nat) : Prop :=
  if ev_triggered (ev_of m e) then ev_triggered (ev_of m q) = true else q ∈ ev_quorums (ev_of m e).

(** The continuation fits the point. *)
Definition code_fits (m : machine) (f : frame) : Prop :=
  match code_ f with
  | ready_then t k => point_ f = running ∧ Some t ∈ slots f ∧ ∀ r, user_code (k r)
  | await_resume t k => (point_ f = running ∨ point_ f = at_task t) ∧ Some t ∈ slots f ∧ ∀ r, user_code (k r)
  | resolved_then k => point_ f = running ∧ ∀ b, user_code (k b)
  | first_resolve args k => point_ f = running ∧ race_ok m args k
  | first_find args tried rest k =>
      (point_ f = running ∨ point_ f = at_resolve ∧ tried = []) ∧ args = tried ++ rest ∧ race_ok m args k
  | first_after args k =>
      (point_ f = running ∨ ∃ q, point_ f = at_event q ∧ ∀ e, arg_event e ∈ args → joins m q e) ∧
      race_ok m args k
  | k => user_code k
  end.

(** One frame. *)
Record frame_ok (m : machine) (c : nat) (f : frame) : Prop := {
  fo_forward : forward_ (pr f) = None;
  fo_forwarded : forwarded_ (pr f) = false;
  fo_home : home_ (pr f) = current m;
  fo_final : point_ f = at_final ↔ is_Some (result_ f);
  fo_final_resolving : point_ f = at_final → resolving_ (pr f) = true;
  fo_resolving : resolving_ (pr f) = true → point_ f = at_final ∨ point_ f = at_resolve;
  fo_at_resolve : point_ f = at_resolve →
    resolving_ (pr f) = true ∧ ∀ a, awaiter_ (pr f) ≠ coroutine a;
  fo_at_task : ∀ t, point_ f = at_task t → Some t ∈ slots f ∧ ∃ k, code_ f = await_resume t k;
  fo_at_event : ∀ e, point_ f = at_event e → (e < next_event m)%nat ∧
    if ev_triggered (ev_of m e) then c ∈ ready m else c ∈ ev_listeners (ev_of m e);
  fo_code : code_fits m f;
  fo_resolution : ∀ e, resolution_ (pr f) = Some e → (e < next_event m)%nat;
  fo_interest : ∀ e, interest_ (pr f) = Some e → (e < next_event m)%nat;
}.

(** A coroutine and a task that it owns. *)
Record link (ρ : nat → nat) (m : machine) (c : nat) (f : frame) (t : nat) (g : frame) : Prop := {
  lk_rank : (ρ c < ρ t)%nat;
  lk_attached : detached_ (pr g) = false;
  lk_co : ∀ a, awaiter_ (pr g) = coroutine a → a = c ∧ (result_ g = None → point_ f = at_task t);
  lk_ev : ∀ q, awaiter_ (pr g) = quorum_event q →
    (q < next_event m)%nat ∧
    (∃ args k, code_ f = first_after args k ∧ t ∈ arg_tasks f args ∧ (point_ f = at_event q ∨ point_ f = running)) ∧
    (resolving_ (pr g) = true → ev_triggered (ev_of m q) = true);
  lk_at : point_ f = at_task t → result_ g = None ∧ awaiter_ (pr g) = coroutine c;
  lk_resume : ∀ k, code_ f = await_resume t k → point_ f = at_task t ∨ is_Some (result_ g);
  lk_tried : ∀ args tried rest k, code_ f = first_find args tried rest k →
    t ∈ arg_tasks f tried → resolving_ (pr g) = false;
  lk_wait : ∀ args k q, code_ f = first_after args k → point_ f = at_event q →
    t ∈ arg_tasks f args → awaiter_ (pr g) = quorum_event q;
}.

(** The frames: [ρ] orders them so that owners come before what they own;
    [D] are the frames about to be destroyed, which nobody owns any more. *)
Record frames_ok (ρ : nat → nat) (D : list nat) (m : machine) : Prop := {
  fs_frame : ∀ c f, frames m !! c = Some f → frame_ok m c f;
  fs_link : ∀ c f t, frames m !! c = Some f → Some t ∈ slots f →
    ∃ g, frames m !! t = Some g ∧ link ρ m c f t g;
  fs_owner : ∀ t g, frames m !! t = Some g → awaiter_ (pr g) ≠ nobody → t ∉ D →
    ∃ c f, frames m !! c = Some f ∧ Some t ∈ slots f;
  fs_unique : ∀ c1 f1 i1 c2 f2 i2 t, frames m !! c1 = Some f1 → frames m !! c2 = Some f2 →
    slots f1 !! i1 = Some (Some t) → slots f2 !! i2 = Some (Some t) → c1 = c2 ∧ i1 = i2;
  fs_doomed : ∀ d, d ∈ D → (∃ f, frames m !! d = Some f ∧ point_ f ≠ running) ∧
    ∀ c f, frames m !! c = Some f → Some d ∉ slots f;
  fs_doomed_once : NoDup D;
  fs_fresh : ∀ c f, frames m !! c = Some f → (c < next_frame m)%nat;
  fs_events : ∀ e, (next_event m ≤ e)%nat → events m !! e = None;
  fs_ready : ∀ c, c ∈ ready m → ∃ f e, frames m !! c = Some f ∧ point_ f = at_event e ∧ ev_triggered (ev_of m e) = true;
  fs_listeners : ∀ e c, c ∈ ev_listeners (ev_of m e) →
    ∃ f, frames m !! c = Some f ∧ point_ f = at_event e ∧ ev_triggered (ev_of m e) = false;
  fs_quorums : ∀ e q, q ∈ ev_quorums (ev_of m e) →
    (q < next_event m)%nat ∧ ev_race (ev_of m q) = true ∧ ev_race (ev_of m e) = false;
}.

(** The chain of awaiters from [c] ends at [r], which no coroutine awaits. *)
Inductive climbs (m : machine) : nat → nat → Prop :=
  | climb_top c f : frames m !! c = Some f → (∀ a, awaiter_ (pr f) ≠ coroutine a) → climbs m c c
  | climb_up c f a r : frames m !! c = Some f → awaiter_ (pr f) = coroutine a → climbs m a r → climbs m c r.

(** [p] has called the coroutine [r], or [resolve] on its task [t]. *)
Definition has_called (m : machine) (p r : nat) : Prop :=
  ∃ f, frames m !! p = Some f ∧ point_ f = running ∧ Some r ∈ slots f ∧ user_code (code_ f).

Definition drives (m : machine) (p t : nat) : Prop :=
  ∃ f, frames m !! p = Some f ∧ point_ f = running ∧ Some t ∈ slots f ∧
    match code_ f with
    | ready_then t' _ => t' = t
    | resolved_then _ => True
    | first_find _ tried (arg_task i :: _) _ => slot_task f i = Some t ∧ t ∉ arg_tasks f tried
    | _ => False
    end.

(** The part of the stack under a coroutine whose chain ends at [r]. *)
Fixpoint under (m : machine) (r : nat) (s : list activation) : Prop :=
  match s with
  | [] => True
  | A_run p :: s' => has_called m p r ∧ ∃ r', climbs m p r' ∧ under m r' s'
  | A_driven t :: A_run p :: s' => r = t ∧ drives m p t ∧ ∃ r', climbs m p r' ∧ under m r' s'
  | _ => False
  end.

(** The coroutine on top, over the rest of the stack. *)
Definition on_top (m : machine) (c : nat) (s : list activation) : Prop := ∃ r, climbs m c r ∧ under m r s.

Definition stack_ok (m : machine) (s : list activation) : Prop :=
  match s with
  | [] => True
  | A_run c :: s' =>
      (∃ f, frames m !! c = Some f ∧ point_ f = running ∧
         match code_ f with ready_then _ _ | resolved_then _ => False | _ => True end) ∧ on_top m c s'
  | A_loop t :: s' | A_driven t :: s' => under m t (A_driven t :: s') ∧ s' ≠ []
  | A_forwarded _ :: _ => False
  end.

(** The coroutines that run are those of the stack, the ones that [resolve]
    drives are under it. *)
Record stack_covers (m : machine) (s : list activation) : Prop := {
  sc_running : ∀ c f, frames m !! c = Some f → point_ f = running → A_run c ∈ s;
  sc_driven : ∀ c f, frames m !! c = Some f → in_resolve_ (pr f) = true → A_driven c ∈ s;
}.

Record machine_ok (m : machine) : Prop := {
  mo_frames : ∃ ρ, frames_ok ρ [] m;
  mo_stack : stack_ok m (stack m);
  mo_covers : stack_covers m (stack m);
}.

(** * The invariant is kept *)

(** A step that goes on, or that the body's own misuse stops. *)
Definition safe (x : res machine) (P : machine → Prop) : Prop :=
  match x with Ok_ m => P m | Misuse => True | Stuck | Terminate => False end.

Lemma safe_mono x (P Q : machine → Prop) : safe x P → (∀ m, P m → Q m) → safe x Q.
Proof. destruct x; simpl; auto. Qed.

Lemma slot_task_in f i t : slot_task f i = Some t → Some t ∈ slots f.
Proof.
  unfold slot_task. destruct (slots f !! i) as [[x|]|] eqn:E; simpl; [|done..].
  intros [= ->]. by eapply list_elem_of_lookup_2.
Qed.

Lemma slot_task_lookup f i t : slot_task f i = Some t ↔ slots f !! i = Some (Some t).
Proof. unfold slot_task. by destruct (slots f !! i) as [[x|]|]; simpl; split; intros [= ->]. Qed.

Lemma arg_tasks_in f args t :
  t ∈ arg_tasks f args ↔ ∃ i, arg_task i ∈ args ∧ slot_task f i = Some t.
Proof.
  unfold arg_tasks. rewrite list_elem_of_bind. split.
  - intros ([i|e] & Ht & Hin); [|by apply elem_of_nil in Ht].
    exists i. split; [done|]. destruct (slot_task f i); [|by apply elem_of_nil in Ht].
    simpl in Ht. apply list_elem_of_singleton in Ht. by subst.
  - intros (i & Hin & E). exists (arg_task i). split; [|done]. rewrite E. simpl. by apply list_elem_of_singleton.
Qed.

Lemma arg_tasks_owned f args t : t ∈ arg_tasks f args → Some t ∈ slots f.
Proof. rewrite arg_tasks_in. intros (i & _ & E). by eapply slot_task_in. Qed.

Lemma arg_tasks_slots f f' args : slots f' = slots f → arg_tasks f' args = arg_tasks f args.
Proof. intros E. unfold arg_tasks, slot_task. by rewrite E. Qed.

Lemma user_code_fits m f : user_code (code_ f) → code_fits m f.
Proof. unfold code_fits. by destruct (code_ f). Qed.

(** A continuation goes on fitting when events are added, triggered or join
    quorums. *)
Lemma code_fits_mono m m' f :
  (next_event m ≤ next_event m')%nat →
  (∀ e, (e < next_event m)%nat → ev_race (ev_of m' e) = ev_race (ev_of m e)) →
  (∀ e q, (e < next_event m)%nat → point_ f = at_event q → joins m q e → joins m' q e) →
  code_fits m f → code_fits m' f.
Proof.
  intros Hn Hr Hj.
  assert (Hrace : ∀ args k, race_ok m args k → race_ok m' args k).
  { intros args k [H1 H2]. split; [done|]. intros e He. destruct (H2 e He). rewrite Hr by done. split; [lia|done]. }
  unfold code_fits. destruct (code_ f); try done.
  - intros [H1 H2]. split; [done|by apply Hrace].
  - intros (H1 & H2 & H3). split_and!; [done|done|by apply Hrace].
  - intros [H1 H2]. split; [|by apply Hrace]. destruct H1 as [H1|(q & Hq & H)]; [by left|right].
    exists q. split; [done|]. intros e He. apply Hj; [by apply H2|done|by apply H].
Qed.

(** ** Events *)

Lemma trigger_one_of m e x :
  ev_of (trigger_one m e) x =
    if decide (x = e) then
      (if ev_triggered (ev_of m e) then ev_of m e
       else mk_ev true [] (ev_quorums (ev_of m e)) (ev_race (ev_of m e)))
    else ev_of m x.
Proof.
  unfold trigger_one. destruct (ev_triggered (ev_of m e)) eqn:E; [by case_decide; subst|].
  unfold ev_of at 1. simpl. destruct (decide (x = e)) as [->|Hne]; [by rewrite lookup_insert_eq|].
  by rewrite lookup_insert_ne.
Qed.

Lemma trigger_one_frame m e :
  frames (trigger_one m e) = frames m ∧ next_event (trigger_one m e) = next_event m ∧
  next_frame (trigger_one m e) = next_frame m ∧ current (trigger_one m e) = current m ∧
  stack (trigger_one m e) = stack m ∧ effects (trigger_one m e) = effects m.
Proof. unfold trigger_one. by destruct (ev_triggered (ev_of m e)). Qed.

(** What triggering a set of events does; the set is closed under the quorums
    of its newly triggered members. *)
Record triggers (m m' : machine) (T : list nat) : Prop := {
  ts_frame : frames m' = frames m ∧ next_event m' = next_event m ∧ next_frame m' = next_frame m ∧
             current m' = current m ∧ stack m' = stack m ∧ effects m' = effects m;
  ts_of : ∀ x, ev_of m' x =
    if bool_decide (x ∈ T) && negb (ev_triggered (ev_of m x))
    then mk_ev true [] (ev_quorums (ev_of m x)) (ev_race (ev_of m x)) else ev_of m x;
  ts_ready : ∀ c, c ∈ ready m' ↔ c ∈ ready m ∨
    ∃ x, x ∈ T ∧ ev_triggered (ev_of m x) = false ∧ c ∈ ev_listeners (ev_of m x);
  ts_events : ∀ x, x ∉ T → events m' !! x = events m !! x;
}.

Lemma triggers_nil m : triggers m m [].
Proof.
  split; [done| |..].
  - intros x. by rewrite bool_decide_eq_false_2 by apply not_elem_of_nil.
  - intros c. split; [by left|]. intros [H|(x & Hx & _)]; [done|by apply elem_of_nil in Hx].
  - done.
Qed.

Lemma triggers_snoc m m' T e : triggers m m' T → triggers m (trigger_one m' e) (e :: T).
Proof.
  intros [Hf Ho Hr He]. destruct (trigger_one_frame m' e) as (F1 & F2 & F3 & F4 & F5 & F6).
  destruct Hf as (G1 & G2 & G3 & G4 & G5 & G6). split.
  - rewrite F1, F2, F3, F4, F5, F6. done.
  - intros x. rewrite trigger_one_of. destruct (decide (x = e)) as [->|Hne].
    + rewrite (bool_decide_eq_true_2 (e ∈ e :: T)) by by left. rewrite Ho. simpl.
      destruct (ev_triggered (ev_of m e)) eqn:E; simpl; [by rewrite andb_false_r; rewrite E|].
      rewrite andb_true_r. destruct (bool_decide (e ∈ T)); simpl; [done|]. by rewrite E.
    + rewrite Ho. assert (bool_decide (x ∈ e :: T) = bool_decide (x ∈ T)) as ->; [|done].
      apply bool_decide_ext. rewrite elem_of_cons. naive_solver.
  - intros c. unfold trigger_one. destruct (ev_triggered (ev_of m' e)) eqn:E.
    + rewrite Hr. split; (intros [H|(x & Hx & H1 & H2)]; [by left|right; exists x; split; [|done]]).
      * by right.
      * apply elem_of_cons in Hx as [->|Hx]; [|done]. rewrite Ho in E.
        destruct (bool_decide (e ∈ T)) eqn:Ed; [by apply bool_decide_eq_true in Ed|].
        simpl in E. congruence.
    + simpl. rewrite elem_of_app, Hr. rewrite Ho in E |- *.
      destruct (bool_decide (e ∈ T) && negb (ev_triggered (ev_of m e))) eqn:Ed; [done|].
      split.
      * intros [[H|(x & Hx & H)]|H]; [by left|right; exists x; split; [by right|done]|].
        right. exists e. split_and!; [by left|done|done].
      * intros [H|(x & [->|Hx]%elem_of_cons & H1 & H2)]; [by left; left|by right|].
        left; right; exists x; done.
  - intros x Hx. apply not_elem_of_cons in Hx as [Hne Hx]. unfold trigger_one.
    destruct (ev_triggered (ev_of m' e)); [by apply He|]. simpl. rewrite lookup_insert_ne by done. by apply He.
Qed.

Lemma triggers_foldl m m' T qs : triggers m m' T → triggers m (foldl trigger_one m' qs) (reverse qs ++ T).
Proof.
  revert m' T. induction qs as [|q qs IH]; intros m' T H; [done|]. simpl. rewrite reverse_cons, <- app_assoc.
  by apply IH, triggers_snoc.
Qed.

Lemma trigger_triggers e m :
  ∃ T, triggers m (trigger e m) T ∧
    ∀ x, x ∈ T ↔ ev_triggered (ev_of m e) = false ∧ (x = e ∨ x ∈ ev_quorums (ev_of m e)).
Proof.
  unfold trigger. destruct (ev_triggered (ev_of m e)) eqn:E.
  - exists []. split; [apply triggers_nil|]. intros x. split; [by intros ?%elem_of_nil|by intros []].
  - exists (reverse (ev_quorums (ev_of m e)) ++ [e]). split.
    + apply triggers_foldl, triggers_snoc, triggers_nil.
    + intros x. rewrite elem_of_app, elem_of_reverse, list_elem_of_singleton. tauto.
Qed.

(** ** Frames *)

Lemma set_frame_lookup c h m x :
  frames (set_frame c h m) !! x = (if decide (x = c) then h else id) <$> frames m !! x.
Proof.
  unfold set_frame. simpl. destruct (decide (x = c)) as [->|Hne]; [by rewrite lookup_alter_eq|].
  rewrite lookup_alter_ne by done. by destruct (frames m !! x).
Qed.

(** ** Changes of frames and events *)

(** What a change must respect when it keeps the frames and what they own:
    [φ] is what it does to them. *)
Record evolves (ρ : nat → nat) (D : list nat) (φ : nat → frame → frame) (m m' : machine) : Prop := {
  el_frames : ∀ x, frames m' !! x = φ x <$> frames m !! x;
  el_next : next_frame m' = next_frame m ∧ next_event m' = next_event m;
  el_frame : ∀ x f, frames m !! x = Some f → frame_ok m x f → slots (φ x f) = slots f ∧ frame_ok m' x (φ x f);
  el_link : ∀ c f t g, frames m !! c = Some f → frames m !! t = Some g → Some t ∈ slots f →
    link ρ m c f t g → link ρ m' c (φ c f) t (φ t g);
  el_owner : ∀ t g, frames m !! t = Some g → awaiter_ (pr (φ t g)) ≠ nobody → t ∉ D →
    awaiter_ (pr g) ≠ nobody ∨ ∃ c f, frames m !! c = Some f ∧ Some t ∈ slots f;
  el_doomed : ∀ d g, frames m !! d = Some g → d ∈ D → point_ g ≠ running → point_ (φ d g) ≠ running;
  el_events : ∀ e, (next_event m ≤ e)%nat → events m' !! e = None;
  el_ready : ∀ c, c ∈ ready m' → ∃ f e, frames m !! c = Some f ∧ point_ (φ c f) = at_event e ∧
    ev_triggered (ev_of m' e) = true;
  el_listeners : ∀ e c, c ∈ ev_listeners (ev_of m' e) → ∃ f, frames m !! c = Some f ∧
    point_ (φ c f) = at_event e ∧ ev_triggered (ev_of m' e) = false;
  el_quorums : ∀ e q, q ∈ ev_quorums (ev_of m' e) →
    (q < next_event m)%nat ∧ ev_race (ev_of m' q) = true ∧ ev_race (ev_of m' e) = false;
}.

Lemma evolve_ok ρ D φ m m' : frames_ok ρ D m → evolves ρ D φ m m' → frames_ok ρ D m'.
Proof.
  intros [] []. destruct el_next0 as [N1 N2].
  assert (Hback : ∀ x f', frames m' !! x = Some f' → ∃ f, frames m !! x = Some f ∧ f' = φ x f).
  { intros x f'. rewrite el_frames0. destruct (frames m !! x) as [f|]; simpl; [|done]. intros [= <-]. eauto. }
  assert (Hforth : ∀ x f, frames m !! x = Some f → frames m' !! x = Some (φ x f)).
  { intros x f H. by rewrite el_frames0, H. }
  assert (Hslots : ∀ x f, frames m !! x = Some f → slots (φ x f) = slots f) by (intros; by apply el_frame0; auto).
  split; rewrite ?N1, ?N2; try done.
  - intros c f' (f & Hf & ->)%Hback. by apply el_frame0; auto.
  - intros c f' t (f & Hf & ->)%Hback. rewrite (Hslots c f Hf). intros Ht.
    destruct (fs_link0 c f t Hf Ht) as (g & Hg & Hl). exists (φ t g). auto.
  - intros t g' (g & Hg & ->)%Hback Ha Hd.
    assert (∃ c f, frames m !! c = Some f ∧ Some t ∈ slots f) as (c & f & Hf & Hs).
    { destruct (el_owner0 t g Hg Ha Hd); [by eapply fs_owner0|done]. }
    exists c, (φ c f). rewrite (Hslots c f Hf). auto.
  - intros c1 f1' i1 c2 f2' i2 t (f1 & Hf1 & ->)%Hback (f2 & Hf2 & ->)%Hback.
    rewrite (Hslots c1 f1 Hf1), (Hslots c2 f2 Hf2). by eapply fs_unique0.
  - intros d Hd. destruct (fs_doomed0 d Hd) as [(f & Hf & Hp) Hs]. split.
    + exists (φ d f). split; [by apply Hforth|by apply el_doomed0].
    + intros c f' (g & Hg & ->)%Hback. rewrite (Hslots c g Hg). by eapply Hs.
  - intros c f' (f & Hf & ->)%Hback. by eapply fs_fresh0.
  - intros c Hc. destruct (el_ready0 c Hc) as (f & e & Hf & Hp & He). exists (φ c f), e. auto.
  - intros e c Hc. destruct (el_listeners0 e c Hc) as (f & Hf & Hp & He). exists (φ c f). auto.
Qed.

Section Triggering.
Context {ρ : nat → nat} {D : list nat} {m m' : machine} {T : list nat}.
Hypotheses (Hok : frames_ok ρ D m) (Ht : triggers m m' T).
Hypothesis Hclosed : ∀ x q, x ∈ T → ev_triggered (ev_of m x) = false → q ∈ ev_quorums (ev_of m x) → q ∈ T.
Hypothesis Hknown : ∀ x, x ∈ T → (x < next_event m)%nat.

Lemma triggered_after x : ev_triggered (ev_of m' x) = bool_decide (x ∈ T) || ev_triggered (ev_of m x).
Proof using Ht.
  rewrite (ts_of _ _ _ Ht). destruct (bool_decide (x ∈ T)), (ev_triggered (ev_of m x)) eqn:E; simpl; congruence.
Qed.

Lemma race_after x : ev_race (ev_of m' x) = ev_race (ev_of m x).
Proof using Ht. rewrite (ts_of _ _ _ Ht). by destruct (_ && _). Qed.

Lemma quorums_after x : ev_quorums (ev_of m' x) = ev_quorums (ev_of m x).
Proof using Ht. rewrite (ts_of _ _ _ Ht). by destruct (_ && _). Qed.

Lemma code_fits_after f : code_fits m f → code_fits m' f.
Proof using Hclosed Ht.
  destruct (ts_frame _ _ _ Ht) as (_ & Hn & _). apply code_fits_mono; [lia|intros; apply race_after|].
  intros e q _ _. unfold joins. rewrite quorums_after, !triggered_after.
  destruct (bool_decide (e ∈ T)) eqn:Ee; simpl; destruct (ev_triggered (ev_of m e)) eqn:Et; intros H;
    rewrite ?H, ?orb_true_r; try done.
  apply bool_decide_eq_true in Ee. by rewrite (bool_decide_eq_true_2 _ (Hclosed e q Ee Et H)).
Qed.

Lemma frame_ok_after c f : frame_ok m c f → frame_ok m' c f.
Proof using Hclosed Ht.
  intros []. destruct (ts_frame _ _ _ Ht) as (Hf & Hn & Hnf & Hc & _).
  split; try done; rewrite ?Hn, ?Hc; try done.
  - intros e He. destruct (fo_at_event0 e He) as [H1 H2]. split; [done|].
    rewrite triggered_after. destruct (ev_triggered (ev_of m e)) eqn:Et.
    + rewrite orb_true_r. apply (ts_ready _ _ _ Ht). by left.
    + rewrite orb_false_r. destruct (bool_decide (e ∈ T)) eqn:Ee.
      * apply bool_decide_eq_true in Ee. apply (ts_ready _ _ _ Ht). right. eauto.
      * rewrite (ts_of _ _ _ Ht), Ee. done.
  - by apply code_fits_after.
Qed.

Lemma triggers_ok : frames_ok ρ D m'.
Proof using Hok Hclosed Hknown Ht.
  destruct (ts_frame _ _ _ Ht) as (Hf & Hn & Hnf & Hc & _).
  apply (evolve_ok ρ D (λ _ f, f) m m' Hok). destruct Hok. split; try by eauto.
  - intros x. rewrite Hf. by destruct (frames m !! x).
  - intros x f Hxf. split; [done|]. by apply frame_ok_after.
  - intros c f t g Hcf Hg Hs []. split; try done. intros q Hq. destruct (lk_ev0 q Hq) as (H1 & H2 & H3).
    rewrite Hn. split_and!; [done|done|]. intros Hr. rewrite triggered_after, (H3 Hr). apply orb_true_r.
  - intros e He. rewrite (ts_events _ _ _ Ht); [by apply fs_events0|]. intros Hin. apply Hknown in Hin. lia.
  - intros c. rewrite (ts_ready _ _ _ Ht). intros [H|(x & Hx & H1 & H2)].
    + destruct (fs_ready0 c H) as (f & e & H1 & H2 & H3). exists f, e. rewrite triggered_after, H3, orb_true_r. done.
    + destruct (fs_listeners0 x c H2) as (f & H3 & H4 & H5). exists f, x.
      rewrite triggered_after, (bool_decide_eq_true_2 _ Hx). done.
  - intros e c. rewrite triggered_after, (ts_of _ _ _ Ht). destruct (ev_triggered (ev_of m e)) eqn:Et; simpl.
    + rewrite andb_false_r. intros H. destruct (fs_listeners0 e c H) as (f & H3 & H4 & H5). congruence.
    + rewrite andb_true_r. destruct (bool_decide (e ∈ T)) eqn:Ee; simpl; [by intros ?%elem_of_nil|].
      intros H. destruct (fs_listeners0 e c H) as (f & H1 & H2 & _). by exists f.
  - intros e q. rewrite quorums_after, !race_after. apply fs_quorums0.
Qed.
End Triggering.

(** Triggering an event or a quorum. *)
Lemma trigger_ok ρ D e m :
  frames_ok ρ D m → (e < next_event m)%nat →
  frames_ok ρ D (trigger e m) ∧ ev_triggered (ev_of (trigger e m) e) = true ∧
  ∃ T, triggers m (trigger e m) T.
Proof.
  intros Hok He. destruct (trigger_triggers e m) as (T & Ht & HT). split; [|split].
  - apply (triggers_ok Hok Ht).
    + intros x q Hx E Hq. apply HT in Hx as [E0 [->|Hx]]; [apply HT; by split; [|right]|].
      apply (fs_quorums _ _ _ Hok) in Hx as (_ & Hr & _). apply (fs_quorums _ _ _ Hok) in Hq as (_ & _ & Hr').
      congruence.
    + intros x Hx. apply HT in Hx as [_ [->|Hx]]; [done|]. by apply (fs_quorums _ _ _ Hok) in Hx as (? & _).
  - rewrite (triggered_after Ht). destruct (ev_triggered (ev_of m e)) eqn:E; [apply orb_true_r|].
    rewrite bool_decide_eq_true_2; [done|]. apply HT. split; [done|by left].
  - by exists T.
Qed.

Lemma triggers_mono m m' T x :
  triggers m m' T → ev_triggered (ev_of m x) = true → ev_triggered (ev_of m' x) = true.
Proof. intros Ht H. rewrite (triggered_after Ht), H. apply orb_true_r. Qed.

Lemma trigger_frame e m :
  frames (trigger e m) = frames m ∧ next_event (trigger e m) = next_event m ∧
  next_frame (trigger e m) = next_frame m ∧ current (trigger e m) = current m ∧
  stack (trigger e m) = stack m ∧ effects (trigger e m) = effects m.
Proof. destruct (trigger_triggers e m) as (T & Ht & _). apply (ts_frame _ _ _ Ht). Qed.

(** ** Changing frames *)

(** Machines with the same events, whose frames differ by [φ]. *)
Record reframed (φ : nat → frame → frame) (m m' : machine) : Prop := {
  rf_frames : ∀ x, frames m' !! x = φ x <$> frames m !! x;
  rf_events : events m' = events m;
  rf_ready : ready m' = ready m;
  rf_next_frame : next_frame m' = next_frame m;
  rf_next_event : next_event m' = next_event m;
  rf_current : current m' = current m;
}.

Lemma reframed_ev φ m m' e : reframed φ m m' → ev_of m' e = ev_of m e.
Proof. intros []. unfold ev_of. by rewrite rf_events0. Qed.

Lemma code_fits_same φ m m' f : reframed φ m m' → code_fits m f → code_fits m' f.
Proof.
  intros Hr. pose proof (rf_next_event _ _ _ Hr). apply code_fits_mono; [lia| |].
  - intros e _. by rewrite (reframed_ev _ _ _ _ Hr).
  - intros e q _ _. unfold joins. by rewrite !(reframed_ev _ _ _ _ Hr).
Qed.

Lemma frame_ok_same φ m m' c f : reframed φ m m' → frame_ok m c f → frame_ok m' c f.
Proof.
  intros Hr []. pose proof Hr as []. split; rewrite ?rf_next_event0, ?rf_current0; try done.
  - intros e He. rewrite (reframed_ev _ _ _ _ Hr), rf_ready0. by apply fo_at_event0.
  - by eapply code_fits_same.
Qed.

Lemma link_same ρ φ m m' c f t g : reframed φ m m' → link ρ m c f t g → link ρ m' c f t g.
Proof.
  intros Hr []. pose proof Hr as []. split; try done. intros q Hq. destruct (lk_ev0 q Hq) as (H1 & H2 & H3).
  rewrite rf_next_event0, (reframed_ev _ _ _ _ Hr). done.
Qed.

(** What a change of frames must respect. *)
Lemma reframe_ok ρ D φ m m' :
  frames_ok ρ D m → reframed φ m m' →
  (∀ c f, frames m !! c = Some f → slots (φ c f) = slots f ∧ (frame_ok m c f → frame_ok m c (φ c f))) →
  (∀ c f t g, frames m !! c = Some f → frames m !! t = Some g → Some t ∈ slots f →
     link ρ m c f t g → link ρ m c (φ c f) t (φ t g)) →
  (∀ t g, frames m !! t = Some g → awaiter_ (pr (φ t g)) ≠ nobody → t ∉ D →
     awaiter_ (pr g) ≠ nobody ∨ ∃ c f, frames m !! c = Some f ∧ Some t ∈ slots f) →
  (∀ d g, frames m !! d = Some g → d ∈ D → point_ g ≠ running → point_ (φ d g) ≠ running) →
  (∀ c f e, frames m !! c = Some f → point_ f = at_event e →
     (c ∈ ready m ∨ c ∈ ev_listeners (ev_of m e)) → point_ (φ c f) = at_event e) →
  frames_ok ρ D m'.
Proof.
  intros Hok Hr Hframe Hlink Howner Hdoomed Hevent. pose proof Hr as [].
  apply (evolve_ok ρ D φ m m' Hok). destruct Hok. split; rewrite ?rf_events0, ?rf_ready0; try done.
  - intros x f Hf Hfo. destruct (Hframe x f Hf) as [E H]. split; [done|]. eapply frame_ok_same; [done|auto].
  - intros c f t g Hf Hg Hs Hl. eapply link_same; [done|]. by apply Hlink.
  - intros c Hc. destruct (fs_ready0 c Hc) as (f & e & Hf & Hp & He). exists f, e.
    rewrite (reframed_ev _ _ _ _ Hr). split_and!; [done|eapply Hevent; eauto|done].
  - intros e c. rewrite (reframed_ev _ _ _ _ Hr). intros Hc. destruct (fs_listeners0 e c Hc) as (f & Hf & Hp & He).
    exists f. split_and!; [done|eapply Hevent; eauto|done].
  - intros e q. rewrite !(reframed_ev _ _ _ _ Hr). apply fs_quorums0.
Qed.

Lemma set_frame_reframed c h m : reframed (λ x, if decide (x = c) then h else id) m (set_frame c h m).
Proof. split; try done. intros x. rewrite set_frame_lookup. by case_decide. Qed.

(** ** The changes that steps make *)

(** A running coroutine goes on with another code. *)
Lemma set_code_ok ρ D m c f k :
  frames_ok ρ D m → frames m !! c = Some f → point_ f = running →
  (∀ t g, Some t ∈ slots f → frames m !! t = Some g → ∀ q, awaiter_ (pr g) ≠ quorum_event q) →
  code_fits m (with_code k f) →
  (∀ t g, Some t ∈ slots f → frames m !! t = Some g →
     (∀ k', k = await_resume t k' → is_Some (result_ g)) ∧
     (∀ args tried rest k', k = first_find args tried rest k' → t ∈ arg_tasks f tried → resolving_ (pr g) = false)) →
  frames_ok ρ D (set_frame c (with_code k) m).
Proof.
  intros Hok Hf Hp Hq Hfits Hkids.
  apply (reframe_ok _ _ _ _ _ Hok (set_frame_reframed c (with_code k) m)).
  - intros x g Hg. case_decide as E; [|done]. subst. simplify_eq. split; [done|].
    intros []. split; try done. intros t Ht. simpl in Ht. congruence.
  - intros a g t h Hg Hh Hs Hl. pose proof (lk_rank _ _ _ _ _ _ Hl) as Hrank.
    destruct (decide (a = c)) as [->|Hne].
    + rewrite decide_False by (intros ->; lia). simplify_eq. destruct Hl. destruct (Hkids t h Hs Hh) as [H1 H2].
      split; try done; simpl.
      * intros q Hq'. by destruct (Hq t h Hs Hh q).
      * intros k' ->. right. by eapply H1.
      * intros args k' q _ Hp'. congruence.
    + case_decide as E; [|done]. subst. by destruct Hl.
  - intros t g Hg. case_decide; simpl; tauto.
  - intros d g Hg Hd Hp'. by case_decide.
  - intros x g e Hg Hp' _. by case_decide.
Qed.

Lemma set_code_user ρ D m c f k :
  frames_ok ρ D m → frames m !! c = Some f → point_ f = running →
  (∀ args k', code_ f ≠ first_after args k') → user_code k →
  frames_ok ρ D (set_frame c (with_code k) m).
Proof.
  intros Hok Hf Hp Hc Hk. eapply set_code_ok; try done.
  - intros t g Hs Hg q Hq. destruct (fs_link _ _ _ Hok c f t Hf Hs) as (g' & Hg' & Hl). simplify_eq.
    destruct (lk_ev _ _ _ _ _ _ Hl q Hq) as (_ & (args & k' & E & _) & _). by apply (Hc args k').
  - by apply user_code_fits.
  - intros t g Hs Hg. split; [by intros k' ->|by intros args tried rest k' ->].
Qed.

(** Changes of a promise that no rule of the protocol reads. *)
Definition same_protocol (p p' : promise) : Prop :=
  detached_ p' = detached_ p ∧ resolving_ p' = resolving_ p ∧ forwarded_ p' = forwarded_ p ∧
  home_ p' = home_ p ∧ awaiter_ p' = awaiter_ p ∧ forward_ p' = forward_ p.

Lemma set_quiet_ok ρ D m c (h : promise → promise) :
  frames_ok ρ D m → (∀ p, same_protocol p (h p)) →
  (∀ f, frames m !! c = Some f →
    (∀ e, resolution_ (h (pr f)) = Some e → (e < next_event m)%nat) ∧
    (∀ e, interest_ (h (pr f)) = Some e → (e < next_event m)%nat)) →
  frames_ok ρ D (set_frame c (with_pr h) m).
Proof.
  intros Hok Hh He. apply (reframe_ok _ _ _ _ _ Hok (set_frame_reframed c (with_pr h) m)).
  - intros x g Hg. case_decide as E; [|done]. subst. split; [done|]. intros [].
    destruct (Hh (pr g)) as (H1 & H2 & H3 & H4 & H5 & H6), (He g Hg).
    split; simpl; rewrite ?H1, ?H2, ?H3, ?H4, ?H5, ?H6; done.
  - intros a g t x Hg Hx Hs Hl. destruct (Hh (pr x)) as (H1 & H2 & H3 & H4 & H5 & H6). destruct Hl.
    case_decide; case_decide; split; simpl; rewrite ?H1, ?H2, ?H3, ?H4, ?H5, ?H6; done.
  - intros t g Hg. case_decide; [|tauto]. simpl. destruct (Hh (pr g)) as (H1 & H2 & H3 & H4 & -> & H6). tauto.
  - intros d g Hg Hd Hp. by case_decide.
  - intros x g e Hg Hp _. by case_decide.
Qed.

(** A new event. *)
Lemma fresh_of m e : ev_of (fresh_event m).2 e = ev_of m e.
Proof. done. Qed.

(** Machines that differ by new events that nothing names yet. *)
Lemma new_events_ok ρ D m m' :
  frames_ok ρ D m → frames m' = frames m → ready m' = ready m → next_frame m' = next_frame m →
  current m' = current m → (next_event m ≤ next_event m')%nat →
  (∀ e, (e < next_event m)%nat → ev_of m' e = ev_of m e) →
  (∀ e, (next_event m ≤ e)%nat → ev_triggered (ev_of m' e) = false ∧ ev_listeners (ev_of m' e) = [] ∧
     ev_quorums (ev_of m' e) = []) →
  (∀ e, (next_event m' ≤ e)%nat → events m' !! e = None) →
  frames_ok ρ D m'.
Proof.
  intros Hok Hf Hr Hnf Hc Hn He Hnew Hnone. destruct Hok.
  assert (Hat : ∀ c f e, frames m !! c = Some f → point_ f = at_event e → (e < next_event m)%nat).
  { intros c f e Hcf Hp. by destruct (fo_at_event _ _ _ (fs_frame0 c f Hcf) e Hp). }
  split; rewrite ?Hf, ?Hr, ?Hnf; try done.
  - intros c f Hcf. destruct (fs_frame0 c f Hcf). split; try done; rewrite ?Hc; try done.
    + intros e Hp. rewrite Hr, He by by eapply Hat. destruct (fo_at_event0 e Hp). split; [lia|done].
    + revert fo_code0. apply code_fits_mono; [done|by intros e H; rewrite He|].
      intros e q H Hq. unfold joins. rewrite !He; [done|by eapply Hat|done].
    + intros e Hre. specialize (fo_resolution0 e Hre). lia.
    + intros e Hie. specialize (fo_interest0 e Hie). lia.
  - intros c f t Hcf Hs. destruct (fs_link0 c f t Hcf Hs) as (g & Hg & []). exists g. split; [done|].
    split; try done. intros q Hq. destruct (lk_ev0 q Hq) as (H1 & H2 & H3). rewrite He by done.
    split_and!; [lia|done|done].
  - intros c Hcr. destruct (fs_ready0 c Hcr) as (f & e & H1 & H2 & H3). exists f, e.
    rewrite He by by eapply Hat. done.
  - intros e c. destruct (decide (e < next_event m)%nat) as [Hlt|Hge].
    + rewrite He by done. apply fs_listeners0.
    + destruct (Hnew e) as (_ & -> & _); [lia|]. by intros ?%elem_of_nil.
  - intros e q. destruct (decide (e < next_event m)%nat) as [Hlt|Hge].
    + rewrite He by done. intros Hq. destruct (fs_quorums0 e q Hq) as (H1 & H2 & H3).
      rewrite (He q) by done. split_and!; [lia|done|done].
    + destruct (Hnew e) as (_ & _ & ->); [lia|]. by intros ?%elem_of_nil.
Qed.

Lemma no_event_beyond ρ D m e : frames_ok ρ D m → (next_event m ≤ e)%nat → ev_of m e = no_ev.
Proof. intros Hok He. unfold ev_of. by rewrite (fs_events _ _ _ Hok). Qed.

Lemma fresh_event_ok ρ D m : frames_ok ρ D m → frames_ok ρ D (fresh_event m).2.
Proof.
  intros Hok. apply (new_events_ok _ _ m); try done; [simpl; lia|..].
  - intros e He. rewrite fresh_of, (no_event_beyond _ _ _ _ Hok) by done. done.
  - intros e He. apply (fs_events _ _ _ Hok). simpl in He. lia.
Qed.

Lemma fresh_quorum_of m e :
  ev_of (fresh_quorum m).2 e = if decide (e = next_event m) then mk_ev false [] [] true else ev_of m e.
Proof.
  unfold fresh_quorum, ev_of. simpl. destruct (decide (e = next_event m)) as [->|Hne].
  - by rewrite lookup_insert_eq.
  - by rewrite lookup_insert_ne.
Qed.

Lemma fresh_quorum_ok ρ D m : frames_ok ρ D m → frames_ok ρ D (fresh_quorum m).2.
Proof.
  intros Hok. apply (new_events_ok _ _ m); try done; [simpl; lia|..].
  - intros e He. rewrite fresh_quorum_of, decide_False by lia. done.
  - intros e He. rewrite fresh_quorum_of. case_decide; [done|].
    by rewrite (no_event_beyond _ _ _ _ Hok).
  - intros e He. simpl in He |- *. rewrite lookup_insert_ne by lia. apply (fs_events _ _ _ Hok). lia.
Qed.

Lemma good_event_true m e : good_event m e = true → (e < next_event m)%nat ∧ ev_race (ev_of m e) = false.
Proof.
  unfold good_event. intros [H1 H2]%andb_true_iff. apply Nat.ltb_lt in H1. by apply negb_true_iff in H2.
Qed.

(** ** The stack *)

Section Stack.
Context {ρ : nat → nat} {m : machine}.
Hypothesis Hok : frames_ok ρ [] m.

(** The coroutine that awaits one owns it. *)
Lemma awaiter_owner c f a :
  frames m !! c = Some f → awaiter_ (pr f) = coroutine a →
  ∃ g, frames m !! a = Some g ∧ Some c ∈ slots g ∧ link ρ m a g c f.
Proof using Hok.
  intros Hf Ha. destruct (fs_owner _ _ _ Hok c f Hf) as (a' & g & Hg & Hs); [by rewrite Ha|apply not_elem_of_nil|].
  destruct (fs_link _ _ _ Hok a' g c Hg Hs) as (f' & Hf' & Hl). simplify_eq.
  destruct (lk_co _ _ _ _ _ _ Hl a Ha) as [-> _]. eauto.
Qed.

Lemma climbs_rank c r : climbs m c r → (ρ r ≤ ρ c)%nat.
Proof using Hok.
  induction 1 as [|c f a r Hf Ha _ IH]; [done|].
  destruct (awaiter_owner c f a Hf Ha) as (g & _ & _ & Hl). pose proof (lk_rank _ _ _ _ _ _ Hl). lia.
Qed.

Lemma climbs_exists c f : frames m !! c = Some f → ∃ r, climbs m c r.
Proof using Hok.
  remember (ρ c) as n eqn:En. revert c f En. induction (lt_wf n) as [n _ IH]. intros c f -> Hf.
  destruct (awaiter_ (pr f)) as [|a|q] eqn:Ea; [by exists c; eapply climb_top; [done|congruence]| |
    by exists c; eapply climb_top; [done|congruence]].
  destruct (awaiter_owner c f a Hf Ea) as (g & Hg & _ & Hl). pose proof (lk_rank _ _ _ _ _ _ Hl).
  destruct (IH (ρ a) ltac:(lia) a g eq_refl Hg) as [r Hr]. exists r. by eapply climb_up.
Qed.

Lemma under_ranks r s :
  under m r s →
  (∀ x, A_run x ∈ s → (ρ x < ρ r)%nat) ∧ (∀ x, A_driven x ∈ s → x = r ∨ (ρ x < ρ r)%nat).
Proof using Hok.
  remember (length s) as n eqn:En. revert r s En. induction (lt_wf n) as [n _ IH]. intros r s -> H.
  assert (Howned : ∀ p f t, frames m !! p = Some f → Some t ∈ slots f → (ρ p < ρ t)%nat).
  { intros p f t Hp Hs. destruct (fs_link _ _ _ Hok p f t Hp Hs) as (g & _ & Hl). apply Hl. }
  assert (Hlow : ∀ p r' s', (length s' < length s)%nat → (ρ p < ρ r)%nat → climbs m p r' → under m r' s' →
    (∀ x, A_run x ∈ A_run p :: s' → (ρ x < ρ r)%nat) ∧ (∀ x, A_driven x ∈ A_run p :: s' → (ρ x < ρ r)%nat)).
  { intros p r' s' Hlen Hp Hc Hu. pose proof (climbs_rank p r' Hc) as Hr.
    destruct (IH (length s') Hlen r' s' eq_refl Hu) as [H1 H2]. split.
    - intros x [[= ->]|Hx]%elem_of_cons; [done|]. specialize (H1 x Hx). lia.
    - intros x [[=]|Hx]%elem_of_cons. destruct (H2 x Hx) as [->|]; lia. }
  destruct s as [|[p|t|t|t] s]; simpl in H; [by split; intros x ?%elem_of_nil| |done|done|].
  - destruct H as [(f & Hf & _ & Hs & _) (r' & Hc & Hu)]. simpl in Hlow.
    destruct (Hlow p r' s) as [H1 H2]; [lia|by eapply Howned|done|done|]. split; [done|]. intros x Hx. right. by apply H2.
  - destruct s as [|[p|t'|t'|t'] s]; try done. destruct H as (-> & (f & Hf & _ & Hs & _) & (r' & Hc & Hu)).
    simpl in Hlow. destruct (Hlow p r' s) as [H1 H2]; [lia|by eapply Howned|done|done|]. split.
    + intros x [[=]|Hx]%elem_of_cons. by apply H1.
    + intros x [[= ->]|Hx]%elem_of_cons; [by left|right]. by apply H2.
Qed.

(** Chains and stacks only read frames up to a rank. *)
Lemma climbs_agree m' c r :
  (∀ x f, frames m !! x = Some f → x = c ∨ (ρ x < ρ c)%nat →
     ∃ f', frames m' !! x = Some f' ∧ awaiter_ (pr f') = awaiter_ (pr f)) →
  climbs m c r → climbs m' c r.
Proof using Hok.
  intros Ha H. induction H as [c f Hf Hn|c f a r Hf Hc Hcl IH].
  - destruct (Ha c f Hf) as (f' & Hf' & E); [by left|]. eapply climb_top; [done|]. intros a. rewrite E. apply Hn.
  - destruct (Ha c f Hf) as (f' & Hf' & E); [by left|]. eapply climb_up; [done|by rewrite E|].
    apply IH. intros x g Hg Hx. apply Ha; [done|].
    destruct (awaiter_owner c f a Hf Hc) as (h & _ & _ & Hl). pose proof (lk_rank _ _ _ _ _ _ Hl).
    right. destruct Hx as [->|]; lia.
Qed.

Lemma under_agree m' r s :
  (∀ x f, frames m !! x = Some f → (ρ x < ρ r)%nat → frames m' !! x = Some f) →
  under m r s → under m' r s.
Proof using Hok.
  remember (length s) as n eqn:En. revert r s En. induction (lt_wf n) as [n _ IH]. intros r s -> Ha H.
  assert (Howned : ∀ p f t, frames m !! p = Some f → Some t ∈ slots f → (ρ p < ρ t)%nat).
  { intros p f t Hp Hs. destruct (fs_link _ _ _ Hok p f t Hp Hs) as (g & _ & Hl). apply Hl. }
  assert (Hlow : ∀ p r' s', (length s' < length s)%nat → (ρ p < ρ r)%nat → climbs m p r' → under m r' s' →
    climbs m' p r' ∧ under m' r' s').
  { intros p r' s' Hlen Hp Hc Hu. pose proof (climbs_rank p r' Hc). split.
    - eapply climbs_agree; [|done]. intros x f Hf Hx. exists f. split; [apply Ha; [done|destruct Hx as [->|]; lia]|done].
    - apply (IH (length s') Hlen r' s' eq_refl); [|done]. intros x f Hf Hx. apply Ha; [done|lia]. }
  destruct s as [|[p|t|t|t] s]; simpl in H |- *; try done.
  - destruct H as [(f & Hf & Hp & Hs & Hc) (r' & Hcl & Hu)]. simpl in Hlow.
    pose proof (Howned p f r Hf Hs). destruct (Hlow p r' s) as [H1 H2]; [lia|done..|].
    split; [|eauto]. exists f. split_and!; auto.
  - destruct s as [|[p|t'|t'|t'] s]; try done.
    destruct H as (-> & (f & Hf & Hp & Hs & Hc) & (r' & Hcl & Hu)). simpl in Hlow.
    pose proof (Howned p f t Hf Hs). destruct (Hlow p r' s) as [H1 H2]; [lia|done..|].
    split; [done|]. split; [|eauto]. exists f. split_and!; auto.
Qed.
End Stack.

Lemma under_stack m r s : under m r s → stack_ok m s.
Proof.
  destruct s as [|[p|t|t|t] s]; simpl; try done.
  - intros [(f & Hf & Hp & Hs & Hc) H]. split; [|done]. exists f. split_and!; [done|done|]. by destruct (code_ f).
  - destruct s as [|[p|t'|t'|t'] s]; try done. intros (-> & H1 & H2). done.
Qed.

Lemma covers_mono m m' s :
  (∀ x f', frames m' !! x = Some f' → ∃ f, frames m !! x = Some f ∧
     (point_ f' = running → point_ f = running) ∧ (in_resolve_ (pr f') = true → in_resolve_ (pr f) = true)) →
  stack_covers m s → stack_covers m' s.
Proof.
  intros H [H1 H2]. split; intros c f' Hf'; destruct (H c f' Hf') as (f & Hf & Hr & Hd); eauto.
Qed.

(** The step of a running coroutine that goes on. *)
Lemma goes_on ρ ρ' m m' c s f f' :
  frames_ok ρ [] m → on_top m c s → stack_covers m (A_run c :: s) →
  frames_ok ρ' [] m' → stack m' = A_run c :: s →
  frames m !! c = Some f → frames m' !! c = Some f' →
  awaiter_ (pr f') = awaiter_ (pr f) → point_ f' = running →
  match code_ f' with ready_then _ _ | resolved_then _ => False | _ => True end →
  (∀ x g, frames m !! x = Some g → (ρ x < ρ c)%nat → frames m' !! x = Some g) →
  (∀ x g', frames m' !! x = Some g' → ∃ g, frames m !! x = Some g ∧
     (point_ g' = running → point_ g = running) ∧ (in_resolve_ (pr g') = true → in_resolve_ (pr g) = true)) →
  machine_ok m'.
Proof.
  intros Hok Hst Hcov Hok' Es Hf Hf' Ha Hp Hc Hlow Hback. split; [by exists ρ'|..]; rewrite Es.
  - destruct Hst as (r & Hcl & Hu). split; [eauto|]. exists r. split.
    + eapply (climbs_agree Hok); [|done]. intros x g Hg Hx. destruct (decide (x = c)) as [->|Hne].
      { simplify_eq. eauto. }
      exists g. split; [apply Hlow; [done|destruct Hx; [done|lia]]|done].
    + eapply (under_agree Hok); [|done]. intros x g Hg Hx. apply Hlow; [done|].
      pose proof (climbs_rank Hok _ _ Hcl). lia.
  - by eapply covers_mono.
Qed.

(** The step of a running coroutine that suspends or ends without resuming
    another one. *)
Lemma pauses ρ ρ' m m' c s :
  frames_ok ρ [] m → on_top m c s → stack_covers m (A_run c :: s) →
  frames_ok ρ' [] m' → stack m' = s →
  (∀ f', frames m' !! c = Some f' → point_ f' ≠ running) →
  (∀ x g, frames m !! x = Some g → (ρ x < ρ c)%nat → frames m' !! x = Some g) →
  (∀ x g', frames m' !! x = Some g' → ∃ g, frames m !! x = Some g ∧
     (point_ g' = running → point_ g = running) ∧ (in_resolve_ (pr g') = true → in_resolve_ (pr g) = true)) →
  machine_ok m'.
Proof.
  intros Hok Hst [H1 H2] Hok' Es Hp Hlow Hback. split; [by exists ρ'|..]; rewrite Es.
  - destruct Hst as (r & Hcl & Hu). apply (under_stack _ r). eapply (under_agree Hok); [|done].
    intros x g Hg Hx. apply Hlow; [done|]. pose proof (climbs_rank Hok _ _ Hcl). lia.
  - split; intros x f' Hf'; destruct (Hback x f' Hf') as (f & Hf & Hr & Hd); intros Hx.
    + specialize (H1 x f Hf (Hr Hx)). apply elem_of_cons in H1 as [[= ->]|H1]; [|done].
      by destruct (Hp f' Hf').
    + specialize (H2 x f Hf (Hd Hx)). by apply elem_of_cons in H2 as [[=]|H2].
Qed.

(** The coroutines above the top are not running: what the top owns can be
    destroyed. *)
Lemma running_below ρ m c s x f :
  frames_ok ρ [] m → on_top m c s → stack_covers m (A_run c :: s) →
  frames m !! x = Some f → point_ f = running → x = c ∨ (ρ x < ρ c)%nat.
Proof.
  intros Hok (r & Hcl & Hu) [H1 _] Hf Hp. specialize (H1 x f Hf Hp).
  apply elem_of_cons in H1 as [[= ->]|H1]; [by left|right].
  destruct (under_ranks Hok r s Hu) as [Hr _]. specialize (Hr x H1). pose proof (climbs_rank Hok _ _ Hcl). lia.
Qed.
