(* ===== verification/TaskSteps.v ===== *)
(** Every step of the machine of [Tasks.v] keeps the invariant of
    [TaskInvariant.v]: resolution points and the end of a coroutine
    ([resolve_step], [final_step]), the destruction of frames with what they
    own ([destroy_frame_ok]), waiting for events and tasks, calls, detaching, races,
    and the loop of [resolve]; [step_ok] puts them together. *)

From S2P Require Import Prelude Tasks TaskInvariant.

(** ** Reaching a resolution point *)

Lemma trigger_one_with_frames fs m e : trigger_one (with_frames fs m) e = with_frames fs (trigger_one m e).
Proof. unfold trigger_one, ev_of. simpl. by destruct (ev_triggered _). Qed.

Lemma foldl_with_frames {A} (h : machine → A → machine) fs l m :
  (∀ m x, h (with_frames fs m) x = with_frames fs (h m x)) →
  foldl h (with_frames fs m) l = with_frames fs (foldl h m l).
Proof. intros H. revert m. induction l as [|x l IH]; intros m; [done|]. simpl. by rewrite H, IH. Qed.

Lemma trigger_with_frames fs m e : trigger e (with_frames fs m) = with_frames fs (trigger e m).
Proof.
  unfold trigger. unfold ev_of. simpl. destruct (ev_triggered _); [done|].
  rewrite trigger_one_with_frames. apply foldl_with_frames. intros. apply trigger_one_with_frames.
Qed.

Lemma trigger_set_frame c h m e : trigger e (set_frame c h m) = set_frame c h (trigger e m).
Proof.
  unfold set_frame. rewrite trigger_with_frames. by destruct (trigger_frame e m) as (-> & _).
Qed.

(** The events that a coroutine triggers when it can be consumed. *)
Definition signal (p : promise) (m : machine) : machine :=
  let m := trigger_handle (resolution_ p) m in
  match awaiter_ p with quorum_event q => trigger q m | _ => m end.

Lemma trigger_fits ρ D e m f :
  frames_ok ρ D m → (e < next_event m)%nat → code_fits m f → code_fits (trigger e m) f.
Proof.
  intros Hok He. destruct (trigger_triggers e m) as (T & Ht & HT). apply (code_fits_after Ht).
  intros x q Hx E Hq. apply HT in Hx as [E0 [->|Hx]]; [apply HT; by split; [|right]|].
  apply (fs_quorums _ _ _ Hok) in Hx as (_ & Hr & _). apply (fs_quorums _ _ _ Hok) in Hq as (_ & _ & Hr').
  congruence.
Qed.

(** Machines that differ by triggered events. *)
Record signalled (ρ : nat → nat) (D : list nat) (m m' : machine) : Prop := {
  sg_ok : frames_ok ρ D m';
  sg_frames : frames m' = frames m;
  sg_next_event : next_event m' = next_event m;
  sg_next_frame : next_frame m' = next_frame m;
  sg_current : current m' = current m;
  sg_stack : stack m' = stack m;
  sg_fits : ∀ f, code_fits m f → code_fits m' f;
  sg_mono : ∀ x, ev_triggered (ev_of m x) = true → ev_triggered (ev_of m' x) = true;
}.

Lemma signalled_refl ρ D m : frames_ok ρ D m → signalled ρ D m m.
Proof. by split. Qed.

Lemma signalled_trans ρ D m1 m2 m3 : signalled ρ D m1 m2 → signalled ρ D m2 m3 → signalled ρ D m1 m3.
Proof. intros [] []. split; try congruence; auto. Qed.

Lemma trigger_signalled ρ D e m : frames_ok ρ D m → (e < next_event m)%nat → signalled ρ D m (trigger e m).
Proof.
  intros Hok He. destruct (trigger_ok ρ D e m Hok He) as (H1 & _ & T & Ht).
  destruct (trigger_frame e m) as (? & ? & ? & ? & ? & ?). split; try done.
  - intros f. by eapply trigger_fits.
  - intros x. by eapply triggers_mono.
Qed.

Lemma trigger_handle_signalled ρ D e m :
  frames_ok ρ D m → (∀ x, e = Some x → (x < next_event m)%nat) → signalled ρ D m (trigger_handle e m).
Proof.
  intros Hok He. destruct e as [e|]; [|by apply signalled_refl]. by apply trigger_signalled; [|apply He].
Qed.

(** A quorum that a task names exists. *)
Lemma quorum_known ρ m c f q :
  frames_ok ρ [] m → frames m !! c = Some f → awaiter_ (pr f) = quorum_event q →
  (q < next_event m)%nat ∧ ∃ a g, frames m !! a = Some g ∧ Some c ∈ slots g ∧ link ρ m a g c f.
Proof.
  intros Hok Hf Hq. destruct (fs_owner _ _ _ Hok c f Hf) as (a & g & Hg & Hs); [by rewrite Hq|apply not_elem_of_nil|].
  destruct (fs_link _ _ _ Hok a g c Hg Hs) as (f' & Hf' & Hl). simplify_eq.
  split; [|by exists a, g]. by destruct (lk_ev _ _ _ _ _ _ Hl q Hq).
Qed.

Lemma signal_signalled ρ m c f :
  frames_ok ρ [] m → frames m !! c = Some f → signalled ρ [] m (signal (pr f) m).
Proof.
  intros Hok Hf. unfold signal.
  pose proof (trigger_handle_signalled ρ [] (resolution_ (pr f)) m Hok
    (fo_resolution _ _ _ (fs_frame _ _ _ Hok c f Hf))) as H.
  destruct (awaiter_ (pr f)) as [|a|q] eqn:Ea; [done..|]. eapply signalled_trans; [done|].
  apply trigger_signalled; [apply H|]. rewrite (sg_next_event _ _ _ _ H).
  by destruct (quorum_known ρ m c f q Hok Hf Ea).
Qed.

Lemma signal_quorum ρ m c f q :
  frames_ok ρ [] m → frames m !! c = Some f → awaiter_ (pr f) = quorum_event q →
  ev_triggered (ev_of (signal (pr f) m) q) = true.
Proof.
  intros Hok Hf Hq. unfold signal. rewrite Hq.
  pose proof (trigger_handle_signalled ρ [] (resolution_ (pr f)) m Hok
    (fo_resolution _ _ _ (fs_frame _ _ _ Hok c f Hf))) as H.
  destruct (quorum_known ρ m c f q Hok Hf Hq) as [Hk _].
  by destruct (trigger_ok ρ [] q _ (sg_ok _ _ _ _ H)) as (_ & ? & _); [rewrite (sg_next_event _ _ _ _ H)|].
Qed.

Lemma set_frame_twice c h h' m : set_frame c h (set_frame c h' m) = set_frame c (λ g, h (h' g)) m.
Proof.
  unfold set_frame, with_frames. simpl. f_equal. apply map_eq. intros x. destruct (decide (x = c)) as [->|Hne].
  - rewrite !lookup_alter_eq. by destruct (frames m !! c).
  - by rewrite !lookup_alter_ne.
Qed.

(** [resolution_point], where the frames are those of [m] except for [c],
    whose promise has not changed. *)
Lemma resolution_point_eq ρ m c f h :
  frames_ok ρ [] m → frames m !! c = Some f → (∀ g, pr (h g) = pr g) →
  resolution_point c (set_frame c h m) =
    Ok_ (set_frame c (λ g, with_pr (set_resolving_ true) (h g)) (signal (pr f) m)).
Proof.
  intros Hok Hf Hh. unfold resolution_point. set (n := S (base.size (frames (set_frame c h m)))).
  destruct n as [|n'] eqn:En; [done|]. clear En n. simpl. unfold promise_of at 1.
  rewrite set_frame_lookup, Hf. rewrite decide_True by done. simpl. rewrite Hh.
  rewrite set_frame_twice.
  assert (trigger_handle (resolution_ (pr f)) (set_frame c (λ g, with_pr (set_resolving_ true) (h g)) m) =
    set_frame c (λ g, with_pr (set_resolving_ true) (h g)) (trigger_handle (resolution_ (pr f)) m)) as ->.
  { destruct (resolution_ (pr f)); [apply trigger_set_frame|done]. }
  unfold signal. destruct (awaiter_ (pr f)) as [|a|q] eqn:Ea; [done| |by rewrite trigger_set_frame].
  destruct (awaiter_owner Hok c f a Hf Ea) as (g & Hg & Hs & Hl). pose proof (lk_rank _ _ _ _ _ _ Hl).
  unfold promise_of. rewrite set_frame_lookup, decide_False by (intros ->; lia).
  assert (frames (trigger_handle (resolution_ (pr f)) m) = frames m) as ->.
  { destruct (resolution_ (pr f)) as [e|]; [apply (trigger_frame e m)|done]. }
  rewrite Hg. simpl. rewrite (fo_forward _ _ _ (fs_frame _ _ _ Hok a g Hg)). done.
Qed.

Lemma active_awaiter_eq ρ m c f :
  frames_ok ρ [] m → frames m !! c = Some f →
  active_awaiter m c = Ok_ (match awaiter_ (pr f) with coroutine a => Some a | _ => None end).
Proof.
  intros Hok Hf. unfold active_awaiter, promise_of. rewrite Hf. simpl.
  destruct (awaiter_ (pr f)) as [|a|q] eqn:Ea; [done| |done].
  destruct (awaiter_owner Hok c f a Hf Ea) as (g & Hg & _).
  unfold promise_of. rewrite Hg. simpl.
  by rewrite (fo_forward _ _ _ (fs_frame _ _ _ Hok a g Hg)).
Qed.

(** What the owner of the coroutine on top is doing. *)
Lemma top_owner ρ m c s f a g :
  frames_ok ρ [] m → on_top m c s → stack_covers m (A_run c :: s) →
  frames m !! c = Some f → (∀ x, awaiter_ (pr f) ≠ coroutine x) →
  frames m !! a = Some g → Some c ∈ slots g →
  ∀ args tried rest k, code_ g = first_find args tried rest k → c ∉ arg_tasks g tried.
Proof.
  intros Hok (r & Hcl & Hu) [Hrun _] Hf Hn Hg Hs args tried rest k Hc.
  assert (r = c) as -> by (inversion Hcl; [done|by simplify_eq; destruct (Hn a0)]).
  destruct (fs_link _ _ _ Hok a g c Hg Hs) as (f' & Hf' & Hl). simplify_eq.
  pose proof (lk_rank _ _ _ _ _ _ Hl) as Hrank.
  assert (Hsame : ∀ p x, frames m !! p = Some x → Some c ∈ slots x → p = a ∧ x = g).
  { intros p x Hx Hsx. apply list_elem_of_lookup in Hs as [i Hi]. apply list_elem_of_lookup in Hsx as [j Hj].
    destruct (fs_unique _ _ _ Hok a g i p x j c Hg Hx Hi Hj) as [-> _]. by simplify_eq. }
  pose proof (fo_code _ _ _ (fs_frame _ _ _ Hok a g Hg)) as Hfits. unfold code_fits in Hfits. rewrite Hc in Hfits.
  destruct Hfits as ([Hp|[_ ->]] & _); [|apply not_elem_of_nil].
  specialize (Hrun a g Hg Hp). apply elem_of_cons in Hrun as [[= ->]|Hrun]; [lia|].
  destruct s as [|[p|t|t|t] s]; simpl in Hu; try done; [by apply elem_of_nil in Hrun|..].
  - destruct Hu as [(x & Hx & _ & Hsx & Hux) _]. destruct (Hsame p x Hx Hsx) as [-> ->]. by rewrite Hc in Hux.
  - destruct s as [|[p|t'|t'|t'] s]; try done. destruct Hu as (<- & (x & Hx & _ & Hsx & Hd) & _).
    destruct (Hsame p x Hx Hsx) as [-> ->]. rewrite Hc in Hd.
    destruct rest as [|[i|e] rest]; [done| |done]. by destruct Hd.
Qed.

(** A coroutine that runs is awaited at its owner's suspension point. *)
Lemma running_link ρ m c f a g :
  frames_ok ρ [] m → frames m !! c = Some f → point_ f = running →
  frames m !! a = Some g → Some c ∈ slots g →
  link ρ m a g c f ∧ result_ f = None ∧
  (∀ x, awaiter_ (pr f) = coroutine x → x = a ∧ point_ g = at_task c) ∧
  (point_ g = at_task c → awaiter_ (pr f) = coroutine a) ∧
  (∀ k, code_ g = await_resume c k → point_ g = at_task c).
Proof.
  intros Hok Hf Hp Hg Hs. destruct (fs_link _ _ _ Hok a g c Hg Hs) as (f' & Hf' & Hl). simplify_eq.
  assert (result_ f = None) as Hr.
  { destruct (result_ f) eqn:E; [|done]. pose proof (fo_final _ _ _ (fs_frame _ _ _ Hok c f Hf)) as [_ H].
    rewrite H in Hp by (by rewrite E). done. }
  split_and!; [done..| | |].
  - intros x Hx. destruct (lk_co _ _ _ _ _ _ Hl x Hx). auto.
  - intros H. by destruct (lk_at _ _ _ _ _ _ Hl H).
  - intros k Hk. destruct (lk_resume _ _ _ _ _ _ Hl k Hk) as [|[r ?]]; congruence.
Qed.

(** The top coroutine ends or stands at a resolution point, and the coroutine
    that awaits it goes on. *)
Definition resting (c : nat) (h : frame → frame) (a : awaiting) (x : nat) : frame → frame :=
  if decide (x = c) then h else if decide (a = coroutine x) then with_point running else id.

Section Rest.
Context {ρ : nat → nat} {m m' m'' : machine} {c : nat} {s : list activation} {f f' : frame}.
Hypotheses (Hok : frames_ok ρ [] m) (Hst : on_top m c s) (Hcov : stack_covers m (A_run c :: s)).
Hypotheses (Hf : frames m !! c = Some f) (Hp : point_ f = running).
Hypothesis Hold : ∀ args k, code_ f ≠ first_after args k.
Hypotheses (Hpr : pr f' = set_resolving_ true (pr f)) (Hslots : slots f' = slots f).
Hypothesis Hrest : point_ f' = at_final ∧ is_Some (result_ f') ∨
  point_ f' = at_resolve ∧ result_ f' = None ∧ ∀ a, awaiter_ (pr f) ≠ coroutine a.
Hypothesis Hfits : code_fits m f'.
Hypothesis Hcode : (∀ t k, code_ f' ≠ await_resume t k) ∧
  ∀ args tried rest k, code_ f' = first_find args tried rest k → tried = [].
Hypothesis Hsig : signalled ρ [] m m'.
Hypothesis Hquorum : ∀ q, awaiter_ (pr f) = quorum_event q → ev_triggered (ev_of m' q) = true.
Hypothesis Hre : reframed (resting c (λ _, f') (awaiter_ (pr f))) m' m''.

Lemma rest_awaiter x g :
  frames m !! x = Some g → awaiter_ (pr f) = coroutine x →
  x ≠ c ∧ Some c ∈ slots g ∧ point_ g = at_task c ∧ (ρ x < ρ c)%nat ∧ ∃ k, code_ g = await_resume c k.
Proof using Hf Hok Hp.
  intros Hg Ha. destruct (awaiter_owner Hok c f x Hf Ha) as (g' & Hg' & Hs & Hl). simplify_eq.
  pose proof (lk_rank _ _ _ _ _ _ Hl). destruct (running_link ρ m c f x g Hok Hf Hp Hg Hs) as (_ & _ & H1 & _).
  destruct (H1 x Ha) as [_ Hat].
  destruct (fo_at_task _ _ _ (fs_frame _ _ _ Hok x g Hg) c Hat). split_and!; try done. intros ->. lia.
Qed.

Lemma rest_frame x g : frames m !! x = Some g →
  slots (resting c (λ _, f') (awaiter_ (pr f)) x g) = slots g ∧
  (frame_ok m' x g → frame_ok m' x (resting c (λ _, f') (awaiter_ (pr f)) x g)).
Proof using All.
  intros Hg. unfold resting. case_decide as E; [subst; simplify_eq|case_decide as Ha; [|done]].
  - split; [done|]. intros []. pose proof (sg_fits _ _ _ _ Hsig f' Hfits) as Hfits'.
    split; rewrite ?Hpr; try done; simpl.
    + destruct Hrest as [[-> ?]|(-> & -> & _)]; split; try done; by intros [? ?].
    + destruct Hrest as [[-> ?]|(-> & ? & _)]; auto.
    + destruct Hrest as [[-> ?]|(-> & ? & Hn)]; done.
    + destruct Hrest as [[-> ?]|(-> & ? & Hn)]; done.
    + destruct Hrest as [[-> ?]|(-> & ? & Hn)]; done.
  - split; [done|]. destruct (rest_awaiter x g Hg Ha) as (Hne & Hs & Hat & _ & (k & Hk)). intros [].
    split; try done; simpl.
    + split; [done|]. intros H. apply fo_final in H. congruence.
    + intros H. destruct (fo_resolving H); congruence.
    + revert fo_code. unfold code_fits. simpl. rewrite Hk. tauto.
Qed.


Lemma rest_link a g t h :
  frames m !! a = Some g → frames m !! t = Some h → Some t ∈ slots g → link ρ m' a g t h →
  link ρ m' a (resting c (λ _, f') (awaiter_ (pr f)) a g) t (resting c (λ _, f') (awaiter_ (pr f)) t h).
Proof using All.
  intros Hg Hh Hs Hl. pose proof (lk_rank _ _ _ _ _ _ Hl) as Hrank.
  assert (Htop : t = c → (∀ x, awaiter_ (pr f) ≠ coroutine x) →
    ∀ args tried rest k, code_ g = first_find args tried rest k → c ∉ arg_tasks g tried).
  { intros -> Hn. by eapply (top_owner ρ m c s f a g). }
  destruct (decide (a = c)) as [->|Hac].
  { (* what the coroutine owns *)
    simplify_eq. assert (t ≠ c) as Htc by (intros ->; lia).
    assert (resting c (λ _, f') (awaiter_ (pr f)) t h = h) as ->.
    { unfold resting. rewrite decide_False by done. rewrite decide_False; [done|].
      intros Ha. destruct (rest_awaiter t h Hh Ha) as (_ & _ & _ & ? & _). lia. }
    unfold resting. rewrite decide_True by done. destruct Hl, Hcode as [Hc1 Hc2].
    split; try done.
    - intros a Ha. destruct (lk_co a Ha) as [-> H]. split; [done|]. intros Hr. specialize (H Hr). congruence.
    - intros q Hq. destruct (lk_ev q Hq) as (_ & (args & k & E & _) & _). by destruct (Hold args k).
    - intros Hat. destruct Hrest as [[? ?]|(? & ? & _)]; congruence.
    - intros k Hk. by destruct (Hc1 t k).
    - intros args tried rest k Hk. rewrite (Hc2 _ _ _ _ Hk). by intros ?%elem_of_nil.
    - intros args k q _ Hat. destruct Hrest as [[? ?]|(? & ? & _)]; congruence. }
  destruct (decide (t = c)) as [->|Htc].
  { simplify_eq. destruct (running_link ρ m c f a g Hok Hf Hp Hg Hs) as (_ & Hr & H1 & H2 & H3).
    unfold resting at 2. rewrite decide_True by done. unfold resting. rewrite decide_False by done.
    case_decide as Ha.
    - destruct (rest_awaiter a g Hg Ha) as (_ & _ & Hat & _ & (k & Hk)).
      assert (is_Some (result_ f')) as Hr' by (destruct Hrest as [[? ?]|(? & ? & Hn)]; [done|by destruct (Hn a)]).
      destruct Hl. split; rewrite ?Hpr; simpl; try done; rewrite ?Ha; try done.
      + intros x [= <-]. split; [done|]. intros E. rewrite E in Hr'. by destruct Hr'.
      + intros k' _. by right.
      + intros args tried rest k'. by rewrite Hk.
    - assert (∀ x, awaiter_ (pr f) ≠ coroutine x) as Hn by (intros x Hx; destruct (H1 x Hx); congruence).
      specialize (Htop eq_refl Hn). destruct Hl. split; rewrite ?Hpr; simpl; try done.
      + intros x Hx. by destruct (Hn x).
      + intros q Hq. destruct (lk_ev q Hq) as (E1 & E2 & E3). split_and!; auto.
      + intros Hat. by destruct (Hn a), (H2 Hat).
      + intros k Hk. left. by eapply H3.
      + intros args tried rest k Hk Hin. by destruct (Htop _ _ _ _ Hk). }
  unfold resting. rewrite (decide_False (P := a = c)), (decide_False (P := t = c)) by done.
  assert (∀ z, (if decide (awaiter_ (pr f) = coroutine t) then with_point running else id) h = z →
    pr z = pr h ∧ result_ z = result_ h) as Hz by (intros z <-; by case_decide).
  destruct (Hz _ eq_refl) as [Hz1 Hz2]. revert Hz1 Hz2. generalize ((if decide (awaiter_ (pr f) = coroutine t) then with_point running else id) h).
  intros z Hz1 Hz2. clear Hz. case_decide as Ha.
  - destruct (rest_awaiter a g Hg Ha) as (_ & _ & Hat & _ & (k & Hk)). destruct Hl.
    split; rewrite ?Hz1, ?Hz2; simpl; try done.
    + intros x Hx. destruct (lk_co x Hx) as [-> H]. split; [done|]. intros Hr. specialize (H Hr). congruence.
    + intros q Hq. destruct (lk_ev q Hq) as (_ & (args & k' & E & _) & _). congruence.
    + intros k'. rewrite Hk. intros [= ->]. done.
  - destruct Hl. split; rewrite ?Hz1, ?Hz2; done.
Qed.

Lemma rest_ok : frames_ok ρ [] m''.
Proof using All.
  pose proof (sg_frames _ _ _ _ Hsig) as Hfr.
  apply (reframe_ok _ _ _ _ _ (sg_ok _ _ _ _ Hsig) Hre); rewrite ?Hfr.
  - intros x g Hg. by apply rest_frame.
  - intros. by apply rest_link.
  - intros t g Hg. unfold resting. case_decide; [subst; simplify_eq; rewrite Hpr; simpl; tauto|].
    case_decide; simpl; tauto.
  - intros d g _ ?%elem_of_nil. done.
  - intros x g e Hg Hat _. unfold resting. case_decide; [subst; simplify_eq; congruence|].
    case_decide as Ha; [|done]. destruct (rest_awaiter x g Hg Ha) as (_ & _ & ? & _). congruence.
Qed.
End Rest.

(** ** Destroying frames *)

(** [m'] is [m] without frame [d], whose race, if it waits in one, has let go
    of its tasks. *)
Definition let_go (f : frame) (x : nat) : frame → frame :=
  match code_ f with
  | first_after args _ => if bool_decide (x ∈ arg_tasks f args) then with_pr (set_awaiter_ nobody) else id
  | _ => id
  end.

Record removed (d : nat) (f : frame) (m m' : machine) : Prop := {
  rm_frames : ∀ x, frames m' !! x = if decide (x = d) then None else let_go f x <$> frames m !! x;
  rm_of : ∀ e, ev_triggered (ev_of m' e) = ev_triggered (ev_of m e) ∧
    ev_quorums (ev_of m' e) = ev_quorums (ev_of m e) ∧ ev_race (ev_of m' e) = ev_race (ev_of m e);
  rm_listeners : ∀ e c, c ∈ ev_listeners (ev_of m' e) ↔ c ∈ ev_listeners (ev_of m e) ∧ c ≠ d;
  rm_ready : ∀ c, c ∈ ready m' ↔ c ∈ ready m ∧ c ≠ d;
  rm_events : ∀ e, (next_event m ≤ e)%nat → events m !! e = None → events m' !! e = None;
  rm_next : next_frame m' = next_frame m ∧ next_event m' = next_event m ∧ current m' = current m ∧
            stack m' = stack m;
}.

Lemma awaiters_eq a ts m :
  let m' := foldl (λ m t, set_frame t (with_pr (set_awaiter_ a)) m) m ts in
  (∀ x, frames m' !! x =
     (if bool_decide (x ∈ ts) then with_pr (set_awaiter_ a) else id) <$> frames m !! x) ∧
  events m' = events m ∧ ready m' = ready m ∧
  next_frame m' = next_frame m ∧ next_event m' = next_event m ∧ current m' = current m ∧ stack m' = stack m.
Proof.
  revert m. induction ts as [|t ts IH]; intros m.
  - split_and!; try done. intros x. rewrite bool_decide_eq_false_2 by apply not_elem_of_nil. simpl.
    by destruct (frames m !! x).
  - simpl. destruct (IH (set_frame t (with_pr (set_awaiter_ a)) m)) as (H1 & H2 & H3 & H4 & H5 & H6 & H7).
    split_and!; try done. intros x. rewrite H1, set_frame_lookup.
    destruct (decide (x = t)) as [->|Hne].
    + rewrite (bool_decide_eq_true_2 (t ∈ t :: ts)) by by left.
      destruct (frames m !! t); simpl; [|done]. by case_bool_decide.
    + assert (bool_decide (x ∈ t :: ts) = bool_decide (x ∈ ts)) as ->.
      { apply bool_decide_ext. rewrite elem_of_cons. naive_solver. }
      by destruct (frames m !! x).
Qed.

Lemma awaiters_frames a ts m :
  let m' := foldl (λ m t, set_frame t (with_pr (set_awaiter_ a)) m) m ts in m' = with_frames (frames m') m.
Proof. revert m. induction ts as [|t ts IH]; intros m; simpl; [by destruct m|]. by rewrite IH. Qed.

Lemma remove_listener_of c e m x :
  ev_of (remove_listener c e m) x =
    if decide (x = e) then mk_ev (ev_triggered (ev_of m e)) (filter (λ x, x ≠ c) (ev_listeners (ev_of m e)))
      (ev_quorums (ev_of m e)) (ev_race (ev_of m e)) else ev_of m x.
Proof.
  unfold remove_listener, ev_of at 1. simpl. destruct (decide (x = e)) as [->|Hne];
    [by rewrite lookup_insert_eq|by rewrite lookup_insert_ne].
Qed.

Lemma destroy_one_removed ρ D m d f :
  frames_ok ρ D m → frames m !! d = Some f → point_ f ≠ running →
  ∃ m', destroy_one d m = Ok_ (omap id (slots f), m') ∧ removed d f m m'.
Proof.
  intros Hok Hf Hp.
  set (m1 := match point_ f with at_event e => remove_listener d e m | _ => m end).
  set (m2 := match code_ f with first_after args _ => clear_awaiters (arg_tasks f args) m1 | _ => m1 end).
  assert (destroy_one d m = Ok_ (omap id (slots f), with_frames (delete d (frames m2)) m2)) as Hrun.
  { unfold destroy_one. rewrite Hf. unfold m2, m1. simpl. by destruct (point_ f). }
  assert (Hm1 : frames m1 = frames m ∧ next_frame m1 = next_frame m ∧ next_event m1 = next_event m ∧
    current m1 = current m ∧ stack m1 = stack m) by (by unfold m1; destruct (point_ f)).
  destruct Hm1 as (E1 & E2 & E3 & E4 & E5).
  assert (Hev : ∀ e, ev_triggered (ev_of m1 e) = ev_triggered (ev_of m e) ∧
    ev_quorums (ev_of m1 e) = ev_quorums (ev_of m e) ∧ ev_race (ev_of m1 e) = ev_race (ev_of m e)).
  { intros e. unfold m1. destruct (point_ f) as [|e'| | |]; try done. rewrite remove_listener_of.
    by case_decide; subst. }
  assert (Hl : ∀ e c, c ∈ ev_listeners (ev_of m1 e) ↔ c ∈ ev_listeners (ev_of m e) ∧ c ≠ d).
  { intros e c.
    assert (∀ e, d ∈ ev_listeners (ev_of m e) → point_ f = at_event e) as Hd.
    { intros e0 Hd. apply (fs_listeners _ _ _ Hok) in Hd as (f' & Hf' & ? & _). by simplify_eq. }
    unfold m1. destruct (point_ f) as [|e'| | |] eqn:Ef; try done;
      [|split; [intros H; split; [done|intros ->; by apply Hd in H]|tauto]..].
    rewrite remove_listener_of. case_decide as E; subst; simpl.
    + rewrite list_elem_of_filter. tauto.
    + split; [|tauto]. intros H; split; [done|]. intros ->. apply Hd in H. congruence. }
  assert (Hr : ∀ c, c ∈ ready m1 ↔ c ∈ ready m ∧ c ≠ d).
  { intros c. assert (d ∈ ready m → ∃ e, point_ f = at_event e) as Hd.
    { intros Hd. apply (fs_ready _ _ _ Hok) in Hd as (f' & e & Hf' & ? & _). simplify_eq. eauto. }
    unfold m1. destruct (point_ f) as [|e'| | |] eqn:Ef; try done;
      [|split; [intros H; split; [done|intros ->; by apply Hd in H as (? & ?)]|tauto]..].
    unfold remove_listener. simpl. rewrite list_elem_of_filter. tauto. }
  assert (Hn : ∀ e, (next_event m ≤ e)%nat → events m !! e = None → events m1 !! e = None).
  { intros e He Hnone. unfold m1. destruct (point_ f) as [|e'| | |] eqn:Ef; try done. simpl.
    rewrite lookup_insert_ne; [done|]. intros ->.
    destruct (fo_at_event _ _ _ (fs_frame _ _ _ Hok d f Hf) e Ef). lia. }
  clearbody m1.
  assert (Hm2 : (∀ x, frames m2 !! x = let_go f x <$> frames m !! x) ∧ events m2 = events m1 ∧ ready m2 = ready m1 ∧
    next_frame m2 = next_frame m ∧ next_event m2 = next_event m ∧ current m2 = current m ∧ stack m2 = stack m).
  { unfold m2, let_go. rewrite <- E1, <- E2, <- E3, <- E4, <- E5.
    destruct (code_ f); try (split_and!; try done; intros x; by destruct (frames m1 !! x)).
    apply (awaiters_eq nobody). }
  clearbody m2. destruct Hm2 as (F1 & F2 & F3 & F4 & F5 & F6 & F7).
  exists (with_frames (delete d (frames m2)) m2).
  split; [done|]. split; simpl.
  - intros x. case_decide as E; [subst; apply lookup_delete_eq|]. by rewrite lookup_delete_ne.
  - intros e. unfold ev_of in *. simpl. rewrite F2. apply Hev.
  - intros e. unfold ev_of in *. simpl. rewrite F2. apply Hl.
  - rewrite F3. apply Hr.
  - rewrite F2. apply Hn.
  - done.
Qed.

Lemma let_go_slots f x g : slots (let_go f x g) = slots g ∧ point_ (let_go f x g) = point_ g ∧
  code_ (let_go f x g) = code_ g ∧ result_ (let_go f x g) = result_ g ∧
  in_resolve_ (pr (let_go f x g)) = in_resolve_ (pr g).
Proof. unfold let_go. destruct (code_ f); try done. by case_bool_decide. Qed.

Lemma let_go_other f x g : Some x ∉ slots f → let_go f x g = g.
Proof.
  intros H. unfold let_go. destruct (code_ f); try done. case_bool_decide as E; [|done].
  by apply arg_tasks_owned in E.
Qed.

Lemma let_go_pr f x g :
  let_go f x g = g ∨ pr (let_go f x g) = set_awaiter_ nobody (pr g).
Proof. unfold let_go. destruct (code_ f); auto. case_bool_decide; auto. Qed.

Lemma code_fits_removed d g m m' f : removed d g m m' → code_fits m f → code_fits m' f.
Proof.
  intros []. destruct rm_next0 as (_ & Hn & _). apply code_fits_mono; [lia| |].
  - intros e _. by destruct (rm_of0 e) as (_ & _ & ->).
  - intros e q _ _. unfold joins. by destruct (rm_of0 e) as (-> & -> & _), (rm_of0 q) as (-> & _ & _).
Qed.

Lemma elem_of_kids (l : list (option nat)) t : t ∈ omap id l ↔ Some t ∈ l.
Proof. rewrite list_elem_of_omap. split; [intros (x & H & E); by rewrite <- E|intros H; by exists (Some t)]. Qed.

Lemma NoDup_kids (l : list (option nat)) :
  (∀ i j t, l !! i = Some (Some t) → l !! j = Some (Some t) → i = j) → NoDup (omap id l).
Proof.
  induction l as [|[x|] l IH]; intros H; simpl; [constructor| |].
  - constructor.
    + rewrite elem_of_kids. intros Hx. apply list_elem_of_lookup in Hx as [i Hi].
      by specialize (H 0%nat (S i) x eq_refl Hi).
    + apply IH. intros i j t Hi Hj. by specialize (H (S i) (S j) t Hi Hj) as [= ->].
  - apply IH. intros i j t Hi Hj. by specialize (H (S i) (S j) t Hi Hj) as [= ->].
Qed.

Lemma removed_ok ρ D m m' d f :
  frames_ok ρ (d :: D) m → frames m !! d = Some f → removed d f m m' →
  (∀ t g, Some t ∈ slots f → frames m !! t = Some g → point_ g ≠ running) →
  frames_ok ρ (D ++ omap id (slots f)) m'.
Proof.
  intros Hok Hf Hrm Hidle. pose proof Hok as []. pose proof Hrm as []. destruct rm_next0 as (N1 & N2 & N3 & N4).
  destruct (fs_doomed d) as [_ Hd]; [by left|].
  apply NoDup_cons in fs_doomed_once as [HdD HD].
  assert (Hback : ∀ x g', frames m' !! x = Some g' → x ≠ d ∧ ∃ g, frames m !! x = Some g ∧ g' = let_go f x g).
  { intros x g'. rewrite rm_frames0. case_decide; [done|]. destruct (frames m !! x) as [g|]; simpl; [|done].
    intros [= <-]. eauto. }
  assert (Hforth : ∀ x g, x ≠ d → frames m !! x = Some g → frames m' !! x = Some (let_go f x g)).
  { intros x g Hx Hg. by rewrite rm_frames0, decide_False, Hg. }
  assert (Hother : ∀ c g t h, c ≠ d → frames m !! c = Some g → Some t ∈ slots g → let_go f t h = h).
  { intros c g t h Hc Hg Hs. apply let_go_other. intros Hs'.
    apply list_elem_of_lookup in Hs as [i Hi]. apply list_elem_of_lookup in Hs' as [j Hj].
    by destruct (fs_unique c g i d f j t Hg Hf Hi Hj). }
  split; rewrite ?N1, ?N2; try done.
  - intros c g' (Hne & g & Hg & ->)%Hback. specialize (fs_frame c g Hg).
    assert (frame_ok m' c g) as Hfr.
    { destruct fs_frame. split; rewrite ?N2, ?N3; try done.
      - intros e He. destruct (fo_at_event e He) as [H1 H2]. split; [done|]. destruct (rm_of0 e) as (-> & _).
        destruct (ev_triggered _); [by apply rm_ready0|by apply rm_listeners0].
      - by eapply code_fits_removed. }
    destruct (let_go_pr f c g) as [->|Hpr]; [done|].
    destruct (let_go_slots f c g) as (Es & Ep & Ec & Er & _). destruct Hfr.
    split; rewrite ?Hpr, ?Es, ?Ep, ?Ec, ?Er; try done.
    + intros H. simpl. split; [by apply fo_at_resolve|done].
    + revert fo_code. unfold code_fits. by rewrite Es, Ep, Ec.
  - intros c g' t (Hne & g & Hg & ->)%Hback. destruct (let_go_slots f c g) as (Es & Ep & Ec & Er & _).
    rewrite Es. intros Ht. destruct (fs_link c g t Hg Ht) as (h & Hh & Hl).
    assert (t ≠ d) as Htd by (intros ->; by apply (Hd c g Hg)).
    exists h. rewrite (Hforth t h Htd Hh), (Hother c g t h Hne Hg Ht). split; [done|].
    destruct Hl. split; rewrite ?Ep, ?Ec; try done; try (intros *; rewrite (arg_tasks_slots _ _ _ Es); eauto).
    intros q Hq. destruct (lk_ev q Hq) as (H1 & (args & k & H2) & H3). rewrite N2. destruct (rm_of0 q) as (-> & _).
    split_and!; [done| |done]. exists args, k. by rewrite (arg_tasks_slots _ _ _ Es).
  - intros t g' (Hne & g & Hg & ->)%Hback Ha Ht. rewrite elem_of_app, elem_of_kids in Ht.
    assert (awaiter_ (pr g) ≠ nobody) as Ha' by (destruct (let_go_pr f t g) as [E|E]; rewrite E in Ha; done).
    destruct (fs_owner t g Hg Ha') as (c & h & Hh & Hs); [rewrite elem_of_cons; tauto|].
    assert (c ≠ d) as Hcd by (intros ->; simplify_eq; tauto).
    exists c, (let_go f c h). split; [by apply Hforth|]. by destruct (let_go_slots f c h) as (-> & _).
  - intros c1 g1' i1 c2 g2' i2 t (_ & g1 & Hg1 & ->)%Hback (_ & g2 & Hg2 & ->)%Hback.
    destruct (let_go_slots f c1 g1) as (-> & _), (let_go_slots f c2 g2) as (-> & _). by eapply fs_unique.
  - intros x Hx. rewrite elem_of_app, elem_of_kids in Hx. destruct Hx as [Hx|Hx].
    + destruct (fs_doomed x) as [(g & Hg & Hp) Hno]; [by right|].
      assert (x ≠ d) as Hxd by (intros ->; done). split.
      * exists (let_go f x g). split; [by apply Hforth|]. by destruct (let_go_slots f x g) as (_ & -> & _).
      * intros c h' (_ & h & Hh & ->)%Hback. destruct (let_go_slots f c h) as (-> & _). by eapply Hno.
    + destruct (fs_link d f x Hf Hx) as (g & Hg & Hl). assert (x ≠ d) as Hxd by (intros ->; by apply (Hd d f Hf)).
      split.
      * exists (let_go f x g). split; [by apply Hforth|]. destruct (let_go_slots f x g) as (_ & -> & _). by eapply Hidle.
      * intros c h' (Hc & h & Hh & ->)%Hback. destruct (let_go_slots f c h) as (-> & _). intros Hs.
        apply list_elem_of_lookup in Hs as [i Hi]. apply list_elem_of_lookup in Hx as [j Hj].
        by destruct (fs_unique c h i d f j x Hh Hf Hi Hj).
  - apply NoDup_app. split_and!; [done| |].
    + intros x Hx. rewrite elem_of_kids. destruct (fs_doomed x) as [_ Hno]; [by right|]. by eapply Hno.
    + apply NoDup_kids. intros i j t Hi Hj. by destruct (fs_unique d f i d f j t Hf Hf Hi Hj).
  - intros c g' (_ & g & Hg & _)%Hback. by eapply fs_fresh.
  - intros e He. by apply rm_events0, fs_events.
  - intros c (Hc & Hne)%rm_ready0. destruct (fs_ready c Hc) as (g & e & Hg & Hp & He). exists (let_go f c g), e.
    destruct (rm_of0 e) as (-> & _), (let_go_slots f c g) as (_ & -> & _). split_and!; [by apply Hforth|done|done].
  - intros e c (Hc & Hne)%rm_listeners0. destruct (fs_listeners e c Hc) as (g & Hg & Hp & He). exists (let_go f c g).
    destruct (rm_of0 e) as (-> & _), (let_go_slots f c g) as (_ & -> & _). split_and!; [by apply Hforth|done|done].
  - intros e q. destruct (rm_of0 e) as (_ & -> & ->), (rm_of0 q) as (_ & _ & ->). apply fs_quorums.
Qed.

(** Machines that differ by destroyed frames of rank at least [b]. *)
Record destroyed (ρ : nat → nat) (b : nat) (m m' : machine) : Prop := {
  ds_low : ∀ x, (ρ x < b)%nat → frames m' !! x = frames m !! x;
  ds_back : ∀ x g', frames m' !! x = Some g' → ∃ g, frames m !! x = Some g ∧
    point_ g' = point_ g ∧ in_resolve_ (pr g') = in_resolve_ (pr g);
  ds_next : next_frame m' = next_frame m ∧ next_event m' = next_event m ∧ current m' = current m ∧
            stack m' = stack m;
}.

Lemma destroy_all_ok ρ b fuel D m :
  frames_ok ρ D m → (∀ d, d ∈ D → (b ≤ ρ d)%nat) →
  (∀ x g, frames m !! x = Some g → (b ≤ ρ x)%nat → point_ g ≠ running) →
  (base.size (frames m) ≤ fuel)%nat →
  ∃ m', destroy_all fuel D m = Ok_ m' ∧ frames_ok ρ [] m' ∧ destroyed ρ b m m' ∧ ∀ d, d ∈ D → frames m' !! d = None.
Proof.
  revert D m. induction fuel as [|fuel IH]; intros D m Hok HD Hidle Hfuel.
  all: destruct D as [|d D]; [exists m; split_and!; [done|done|split; eauto|by intros d ?%elem_of_nil]|].
  all: destruct (fs_doomed _ _ _ Hok d) as [(f & Hf & Hp) Hno]; [by left|].
  { assert (base.size (frames m) = 0%nat) as E by lia. apply map_size_empty_inv in E. rewrite E in Hf. done. }
  destruct (destroy_one_removed ρ _ m d f Hok Hf Hp) as (m1 & E1 & Hrm). simpl. rewrite E1. simpl.
  assert (Hkids : ∀ t g, Some t ∈ slots f → frames m !! t = Some g → (b ≤ ρ t)%nat).
  { intros t g Hs Hg. destruct (fs_link _ _ _ Hok d f t Hf Hs) as (g' & Hg' & Hl).
    pose proof (lk_rank _ _ _ _ _ _ Hl). specialize (HD d ltac:(by left)). lia. }
  pose proof (rm_frames _ _ _ _ Hrm) as Hfr.
  assert (Hsize : base.size (frames m) = S (base.size (frames m1))).
  { assert (base.size (frames m1) = base.size (delete d (frames m))) as ->.
    { rewrite <- !size_dom. f_equal. apply set_eq. intros x. rewrite !elem_of_dom, Hfr.
      case_decide as E; [subst; by rewrite lookup_delete_eq|]. rewrite lookup_delete_ne by done.
      by rewrite fmap_is_Some. }
    rewrite map_size_delete, Hf. simpl.
    assert (base.size (frames m) ≠ 0%nat); [|lia]. apply map_size_ne_0_lookup. eauto. }
  destruct (IH (D ++ omap id (slots f)) m1) as (m' & E & Hok' & Hds & Hgone).
  - eapply removed_ok; [done..|]. intros t g Hs Hg. eapply Hidle; [done|]. by eapply Hkids.
  - intros x. rewrite elem_of_app, elem_of_kids. intros [Hx|Hx]; [apply HD; by right|].
    destruct (fs_link _ _ _ Hok d f x Hf Hx) as (g & Hg & _). by eapply Hkids.
  - intros x g'. rewrite Hfr. case_decide; [done|]. destruct (frames m !! x) as [g|] eqn:Eg; simpl; [|done].
    intros [= <-]. destruct (let_go_slots f x g) as (_ & -> & _). by apply Hidle.
  - lia.
  - exists m'. split; [done|]. split; [done|]. destruct Hds, (rm_next _ _ _ _ Hrm) as (N1 & N2 & N3 & N4). split.
    + split.
      * intros x Hx. rewrite ds_low0 by done. rewrite Hfr. specialize (HD d ltac:(by left)).
        rewrite decide_False by (intros ->; lia). destruct (frames m !! x) as [g|] eqn:Eg; [|done]. simpl.
        rewrite let_go_other; [done|]. intros Hs. specialize (Hkids x g Hs Eg). lia.
      * intros x g' Hg'. destruct (ds_back0 x g' Hg') as (g1 & Hg1 & -> & ->). rewrite Hfr in Hg1.
        case_decide; [done|]. destruct (frames m !! x) as [g|] eqn:Eg; [|done]. simpl in Hg1. simplify_eq.
        exists g. by destruct (let_go_slots f x g) as (_ & -> & _ & _ & ->).
      * destruct ds_next0 as (-> & -> & -> & ->). done.
    + intros x [->|Hx]%elem_of_cons; [|apply Hgone; rewrite elem_of_app; by left].
      destruct (frames m' !! d) as [g'|] eqn:Eg; [|done]. destruct (ds_back0 d g' Eg) as (g & Hg & _).
      rewrite Hfr, decide_True in Hg by done. done.
Qed.

Lemma destroy_frame_ok ρ m d :
  frames_ok ρ [d] m → (∀ x g, frames m !! x = Some g → (ρ d ≤ ρ x)%nat → point_ g ≠ running) →
  ∃ m', destroy d m = Ok_ m' ∧ frames_ok ρ [] m' ∧ destroyed ρ (ρ d) m m' ∧ frames m' !! d = None.
Proof.
  intros Hok Hidle. destruct (destroy_all_ok ρ (ρ d) (base.size (frames m)) [d] m) as (m' & E & H1 & H2 & H3); try done.
  - intros x ->%list_elem_of_singleton. done.
  - exists m'. split_and!; [done|done|done|]. apply H3. by apply list_elem_of_singleton.
Qed.

(** ** The steps *)

(** Changes of the stack and of the record of effects. *)
Lemma same_state_ok ρ D m m' :
  frames_ok ρ D m → frames m' = frames m → events m' = events m → ready m' = ready m →
  next_frame m' = next_frame m → next_event m' = next_event m → current m' = current m → frames_ok ρ D m'.
Proof.
  intros Hok E1 E2 E3 E4 E5 E6.
  apply (reframe_ok _ _ (λ _ f, f) _ _ Hok); [|by eauto..].
  split; try done. intros x. rewrite E1. by destruct (frames m !! x).
Qed.

Lemma with_stack_ok ρ D m s : frames_ok ρ D m → frames_ok ρ D (with_stack s m).
Proof. intros Hok. by eapply same_state_ok. Qed.

(** Machines that agree below rank [b]; above it nothing starts to run. *)
Record upper (ρ : nat → nat) (b : nat) (m m' : machine) : Prop := {
  up_low : ∀ x, (ρ x < b)%nat → frames m' !! x = frames m !! x;
  up_back : ∀ x g', frames m' !! x = Some g' → ∃ g, frames m !! x = Some g ∧
    (point_ g' = running → point_ g = running) ∧ (in_resolve_ (pr g') = true → in_resolve_ (pr g) = true);
  up_stack : stack m' = stack m;
}.

Lemma upper_refl ρ b m : upper ρ b m m.
Proof. split; eauto. Qed.

Lemma upper_same ρ b m m' : frames m' = frames m → stack m' = stack m → upper ρ b m m'.
Proof. intros E1 E2. split; rewrite ?E1; eauto. Qed.

Lemma upper_trans ρ b m1 m2 m3 : upper ρ b m1 m2 → upper ρ b m2 m3 → upper ρ b m1 m3.
Proof.
  intros [H1 H2 H3] [H4 H5 H6]. split; [|intros x g3 Hg3|congruence].
  - intros x Hx. by rewrite H4, H1.
  - destruct (H5 x g3 Hg3) as (g2 & Hg2 & ? & ?), (H2 x g2 Hg2) as (g1 & Hg1 & ? & ?). exists g1. auto.
Qed.

Lemma upper_weaken ρ b b' m m' : upper ρ b m m' → (b' ≤ b)%nat → upper ρ b' m m'.
Proof. intros [] Hb. split; try done. intros x Hx. apply up_low0. lia. Qed.

Lemma upper_set_frame ρ b m c h :
  (b ≤ ρ c)%nat →
  (∀ f, frames m !! c = Some f → (point_ (h f) = running → point_ f = running) ∧
     (in_resolve_ (pr (h f)) = true → in_resolve_ (pr f) = true)) →
  upper ρ b m (set_frame c h m).
Proof.
  intros Hb Hh. split; [| |done].
  - intros x Hx. rewrite set_frame_lookup, decide_False by (intros ->; lia). by destruct (frames m !! x).
  - intros x g'. rewrite set_frame_lookup. destruct (frames m !! x) as [g|] eqn:Eg; simpl; [|done].
    intros [= <-]. exists g. split; [done|]. case_decide; [subst; by apply Hh|done].
Qed.

Lemma destroyed_upper ρ b m m' : destroyed ρ b m m' → upper ρ b m m'.
Proof.
  intros [H1 H2 (_ & _ & _ & H3)]. split; [done| |done]. intros x g' Hg'. destruct (H2 x g' Hg') as (g & Hg & E1 & E2).
  exists g. rewrite E1, E2. done.
Qed.

Lemma signalled_upper ρ ρ' b D m m' : signalled ρ D m m' → upper ρ' b m m'.
Proof. intros []. by apply upper_same. Qed.

Section Step.
Context {ρ : nat → nat} {m : machine} {c : nat} {s : list activation} {f : frame}.
Hypotheses (Hok : frames_ok ρ [] m) (Hst : on_top m c s) (Hcov : stack_covers m (A_run c :: s)).
Hypotheses (Es : stack m = A_run c :: s) (Hf : frames m !! c = Some f) (Hp : point_ f = running).

(** What the coroutine owns. *)
Lemma kid t : Some t ∈ slots f → ∃ g, frames m !! t = Some g ∧ link ρ m c f t g ∧ (S (ρ c) ≤ ρ t)%nat ∧
  t ≠ c ∧ point_ g ≠ running.
Proof using Hok Hst Hcov Hf.
  intros Hs. destruct (fs_link _ _ _ Hok c f t Hf Hs) as (g & Hg & Hl). pose proof (lk_rank _ _ _ _ _ _ Hl).
  exists g. split_and!; [done|done|lia|intros ->; lia|]. intros Hrun.
  destruct (running_below ρ m c s t g Hok Hst Hcov Hg Hrun) as [->|]; lia.
Qed.

Lemma upper_self m1 : upper ρ (S (ρ c)) m m1 → frames m1 !! c = Some f.
Proof using Hf. intros [H _ _]. by rewrite H by lia. Qed.

Lemma go_on_as m1 k :
  upper ρ (S (ρ c)) m m1 → frames_ok ρ [] (set_frame c (with_code k) m1) →
  match k with ready_then _ _ | resolved_then _ => False | _ => True end →
  machine_ok (set_frame c (with_code k) m1).
Proof using All.
  intros Hup Hok' Hk. pose proof (upper_self _ Hup) as Hf1.
  assert (upper ρ (ρ c) m (set_frame c (with_code k) m1)) as Hup'.
  { eapply upper_trans; [eapply upper_weaken; [done|lia]|]. apply upper_set_frame; [lia|]. by intros. }
  eapply (goes_on ρ ρ m _ c s f (with_code k f)); try done.
  - simpl. by rewrite (up_stack _ _ _ _ Hup).
  - rewrite set_frame_lookup, decide_True, Hf1 by done. done.
  - intros x g Hg Hx. by rewrite (up_low _ _ _ _ Hup').
  - apply (up_back _ _ _ _ Hup').
Qed.

Lemma go_on m1 k :
  frames_ok ρ [] m1 → upper ρ (S (ρ c)) m m1 → (∀ args k', code_ f ≠ first_after args k') → user_code k →
  machine_ok (set_frame c (with_code k) m1).
Proof using All.
  intros Hok1 Hup Hc Hk. apply go_on_as; [done| |by destruct k].
  eapply set_code_user; try done. by apply upper_self.
Qed.

(** It suspends or ends, and nothing else goes on. *)
Lemma pause m1 :
  frames_ok ρ [] m1 → upper ρ (ρ c) m m1 → (∀ g, frames m1 !! c = Some g → point_ g ≠ running) →
  machine_ok (with_stack s m1).
Proof using All.
  intros Hok1 Hup Hn. eapply (pauses ρ ρ m _ c s); try done.
  - by apply with_stack_ok.
  - intros x g Hg Hx. simpl. by rewrite (up_low _ _ _ _ Hup).
  - apply (up_back _ _ _ _ Hup).
Qed.

(** It calls [resolve] on a task. *)
Lemma push_loop k t :
  frames_ok ρ [] (set_frame c (with_code k) m) →
  drives (set_frame c (with_code k) m) c t →
  machine_ok (with_stack (A_loop t :: A_run c :: s) (set_frame c (with_code k) m)).
Proof using All.
  intros Hok' Hd. set (m' := set_frame c (with_code k) m) in *. split; [exists ρ; by apply with_stack_ok|..].
  - destruct Hst as (r & Hcl & Hu). split; [|done]. split; [done|]. split; [done|]. exists r. split.
    + eapply (climbs_agree Hok); [|done]. intros x g Hg Hx. unfold m'. simpl frames.
      destruct (decide (x = c)) as [->|Hne].
      * simplify_eq. exists (with_code k f). by rewrite lookup_alter_eq, Hf.
      * exists g. by rewrite lookup_alter_ne.
    + eapply (under_agree Hok); [|done]. intros x g Hg Hx. unfold m'. simpl frames.
      pose proof (climbs_rank Hok _ _ Hcl). rewrite lookup_alter_ne by (intros ->; lia). done.
  - destruct Hcov as [H1 H2].
    assert (Hback : ∀ x g', frames m' !! x = Some g' → ∃ g, frames m !! x = Some g ∧
      point_ g' = point_ g ∧ in_resolve_ (pr g') = in_resolve_ (pr g)).
    { intros x g'. unfold m'. rewrite set_frame_lookup. destruct (frames m !! x) as [g|]; simpl; [|done].
      intros [= <-]. exists g. by case_decide. }
    split; intros x g' Hg' Hx; destruct (Hback x g' Hg') as (g & Hg & E1 & E2); simpl; right.
    + apply (H1 x g); congruence.
    + apply (H2 x g); congruence.
Qed.
End Step.

(** ** Parts of the steps *)

Lemma start_task_ok ρ b m t g :
  frames_ok ρ [] m → frames m !! t = Some g → (b ≤ ρ t)%nat →
  ∃ m1, start t m = Ok_ m1 ∧ frames_ok ρ [] m1 ∧ upper ρ b m m1 ∧
    (∀ x, is_Some (frames m !! x) → is_Some (frames m1 !! x)) ∧ ∀ f, code_fits m f → code_fits m1 f.
Proof.
  intros Hok Hg Hb. unfold start. rewrite Hg. simpl. destruct (is_done g).
  { exists m. split_and!; [done|done|apply upper_refl|done|done]. }
  destruct (interest_ (pr g)) as [e|] eqn:Ee.
  - exists (trigger e m). pose proof (trigger_signalled ρ [] e m Hok
      (fo_interest _ _ _ (fs_frame _ _ _ Hok t g Hg) e Ee)) as Hs.
    split_and!; [done|by apply Hs|by eapply signalled_upper| |by apply Hs].
    intros x. by rewrite (sg_frames _ _ _ _ Hs).
  - eexists. split; [done|]. split_and!.
    + apply set_quiet_ok; [done|done|]. intros g' Hg'. assert (g' = g) as -> by congruence. simpl. split; [|done].
      apply (fo_resolution _ _ _ (fs_frame _ _ _ Hok t g Hg)).
    + apply upper_set_frame; [done|]. by intros.
    + intros x. rewrite set_frame_lookup. by rewrite fmap_is_Some.
    + intros f. apply (code_fits_same _ _ _ _ (set_frame_reframed _ _ _)).
Qed.

Lemma start_all_ok ρ b ts m :
  frames_ok ρ [] m → (∀ t, t ∈ ts → is_Some (frames m !! t) ∧ (b ≤ ρ t)%nat) →
  ∃ m1, start_all ts m = Ok_ m1 ∧ frames_ok ρ [] m1 ∧ upper ρ b m m1 ∧ ∀ f, code_fits m f → code_fits m1 f.
Proof.
  unfold start_all. revert m. induction ts as [|t ts IH]; intros m Hok Hts; simpl.
  { exists m. split_and!; [done|done|apply upper_refl|done]. }
  destruct (Hts t) as [[g Hg] Hb]; [by left|].
  destruct (start_task_ok ρ b m t g Hok Hg Hb) as (m1 & -> & Hok1 & Hup & Hsome & Hfits).
  destruct (IH m1 Hok1) as (m2 & E & Hok2 & Hup2 & Hfits2).
  { intros x Hx. destruct (Hts x) as [Hs Hbx]; [by right|]. auto. }
  exists m2. split_and!; [done|done|by eapply upper_trans|auto].
Qed.

(** A frame that nobody owns is marked for destruction, or the other way. *)
Lemma doom_ok ρ m d f :
  frames_ok ρ [] m → frames m !! d = Some f → point_ f ≠ running →
  (∀ a g, frames m !! a = Some g → Some d ∉ slots g) → frames_ok ρ [d] m.
Proof.
  intros [] Hf Hp Hno. split; try done.
  - intros t g Hg Ha _. eapply fs_owner; [done..|apply not_elem_of_nil].
  - intros x ->%list_elem_of_singleton. eauto.
  - apply NoDup_singleton.
Qed.

Lemma spare_ok ρ m d :
  frames_ok ρ [d] m → (∀ f, frames m !! d = Some f → awaiter_ (pr f) = nobody) → frames_ok ρ [] m.
Proof.
  intros [] Hn. split; try done.
  - intros t g Hg Ha _. apply (fs_owner t g Hg Ha). intros ->%list_elem_of_singleton. by destruct Ha; apply Hn.
  - by intros x ?%elem_of_nil.
  - constructor.
Qed.

(** A doomed frame is detached. *)
Lemma doomed_detach ρ m t : frames_ok ρ [t] m → frames_ok ρ [t] (set_frame t (with_pr (set_detached_ true)) m).
Proof.
  intros Hok. apply (reframe_ok _ _ _ _ _ Hok (set_frame_reframed t _ m)).
  - intros x y Hy. case_decide; [|done]. split; [done|]. intros []. by split.
  - intros a y x z Hy Hz Hs Hlz. destruct (fs_doomed _ _ _ Hok t) as [_ Hno]; [by left|].
    rewrite (decide_False (P := x = t)) by (intros ->; by apply (Hno a y)). case_decide; [|done]. destruct Hlz. by split.
  - intros x y Hy. case_decide; simpl; tauto.
  - intros d y Hy Hd Hp'. by case_decide.
  - intros x y e Hy Hat _. by case_decide.
Qed.

(** A coroutine gives up a task that it owns. *)
Lemma clear_slot_ok ρ m c f i t :
  frames_ok ρ [] m → frames m !! c = Some f → point_ f = running → user_code (code_ f) →
  slot_task f i = Some t → (∀ g, frames m !! t = Some g → point_ g ≠ running) →
  frames_ok ρ [t] (clear_slot c i m).
Proof.
  intros Hok Hf Hp Hu Hi%slot_task_lookup Hidle. pose proof Hok as [].
  set (f' := with_slots (<[i := None]> (slots f)) f).
  assert (Hfr : ∀ x, frames (clear_slot c i m) !! x = if decide (x = c) then Some f' else frames m !! x).
  { intros x. unfold clear_slot. rewrite set_frame_lookup. case_decide as E; [by subst; rewrite Hf|].
    by destruct (frames m !! x). }
  assert (Hin : ∀ j x, slots f' !! j = Some (Some x) → slots f !! j = Some (Some x) ∧ j ≠ i).
  { intros j x. unfold f'. simpl. destruct (decide (j = i)) as [->|Hne].
    - rewrite list_lookup_insert_eq; [done|]. by eapply lookup_lt_Some.
    - by rewrite list_lookup_insert_ne. }
  assert (Hback : ∀ x g', frames (clear_slot c i m) !! x = Some g' → ∃ g, frames m !! x = Some g ∧
    pr g' = pr g ∧ code_ g' = code_ g ∧ point_ g' = point_ g ∧ result_ g' = result_ g ∧
    (g' = g ∨ x = c ∧ g = f ∧ g' = f') ∧
    (∀ j y, slots g' !! j = Some (Some y) → slots g !! j = Some (Some y) ∧ (x = c → j ≠ i))).
  { intros x g'. rewrite Hfr. case_decide as E; [subst|].
    - intros [= <-]. exists f. split_and!; try done; [by right|]. intros j y Hj%Hin. tauto.
    - intros Hg. exists g'. split_and!; try done; by left. }
  assert (Hgone : ∀ a g', frames (clear_slot c i m) !! a = Some g' → Some t ∉ slots g').
  { intros a g' Hg' Hs. destruct (Hback a g' Hg') as (g & Hg & _ & _ & _ & _ & _ & Hj).
    apply list_elem_of_lookup in Hs as [j Hsj]. destruct (Hj j t Hsj) as [Hsj' Hne].
    destruct (fs_unique a g j c f i t Hg Hf Hsj' Hi) as [-> ->]. by apply Hne. }
  split; try done.
  - intros x g' Hg'. destruct (Hback x g' Hg') as (g & Hg & _ & _ & _ & _ & [->|(-> & -> & ->)] & _); [by destruct (fs_frame x g Hg)|].
    destruct (fs_frame c f Hf). split; try done.
    + intros y Hy. simpl in Hy. congruence.
    + by apply user_code_fits.
  - intros x g' y Hg' Hs. destruct (Hback x g' Hg') as (g & Hg & E1 & E2 & E3 & E4 & Hcase & Hj).
    assert (Some y ∈ slots g) as Hs'.
    { apply list_elem_of_lookup in Hs as [j Hsj]. destruct (Hj j y Hsj) as [Hsj' _]. by eapply list_elem_of_lookup_2. }
    destruct (fs_link x g y Hg Hs') as (h & Hh & Hl).
    assert (y ≠ c ∨ pr f' = pr f) as _ by by right.
    exists (if decide (y = c) then f' else h). rewrite Hfr. split; [by case_decide|].
    assert (link ρ m x g y h → link ρ (clear_slot c i m) x g' y h) as Hl'.
    { destruct Hcase as [->|(-> & -> & ->)]; intros []; split; try done.
      - intros q Hq. destruct (lk_ev q Hq) as (_ & (args & k & E & _) & _). rewrite E in Hu. done.
      - intros args tried rest k E. simpl in E. by rewrite E in Hu.
      - intros args k q E. simpl in E. by rewrite E in Hu. }
    specialize (Hl' Hl). case_decide as E; [|done]. subst y. simplify_eq. by destruct Hl'.
  - intros x g' Hg' Ha Hx. destruct (Hback x g' Hg') as (g & Hg & E1 & _). rewrite E1 in Ha.
    destruct (fs_owner x g Hg Ha) as (a & h & Hh & Hs); [apply not_elem_of_nil|].
    assert (x ≠ t) as Hne by (intros ->; apply Hx; by apply list_elem_of_singleton).
    destruct (decide (a = c)) as [->|Hac].
    + simplify_eq. exists c, f'. rewrite Hfr, decide_True by done. split; [done|].
      apply list_elem_of_lookup in Hs as [j Hj]. apply (list_elem_of_lookup_2 _ j). unfold f'. simpl.
      rewrite list_lookup_insert_ne; [done|]. intros <-. congruence.
    + exists a, h. by rewrite Hfr, decide_False.
  - intros c1 g1' i1 c2 g2' i2 x Hg1 Hg2 Hi1 Hi2. destruct (Hback c1 g1' Hg1) as (g1 & Hg1' & _ & _ & _ & _ & _ & Hj1).
    destruct (Hback c2 g2' Hg2) as (g2 & Hg2' & _ & _ & _ & _ & _ & Hj2).
    eapply fs_unique; [done|done|by apply Hj1|by apply Hj2].
  - intros x ->%list_elem_of_singleton. split; [|done]. destruct (fs_link c f t Hf) as (g & Hg & Hl).
    { by eapply list_elem_of_lookup_2. }
    exists g. rewrite Hfr, decide_False; [split; [done|by apply Hidle]|]. intros ->. by apply (Hidle g Hg); simplify_eq.
  - apply NoDup_singleton.
  - intros x g' Hg'. destruct (Hback x g' Hg') as (g & Hg & _). by eapply fs_fresh.
  - intros x Hx. destruct (fs_ready x Hx) as (g & e & Hg & Hat & He). exists g, e. rewrite Hfr.
    rewrite decide_False; [done|]. intros ->. simplify_eq. congruence.
  - intros e x Hx. destruct (fs_listeners e x Hx) as (g & Hg & Hat & He). exists g. rewrite Hfr.
    rewrite decide_False; [done|]. intros ->. simplify_eq. congruence.
Qed.

(** A coroutine waits on an event. *)
Lemma add_listener_of c e m x :
  ev_of (add_listener c e m) x =
    if decide (x = e) then mk_ev (ev_triggered (ev_of m e)) (ev_listeners (ev_of m e) ++ [c])
      (ev_quorums (ev_of m e)) (ev_race (ev_of m e)) else ev_of m x.
Proof.
  unfold add_listener, ev_of at 1. simpl. destruct (decide (x = e)) as [->|Hne];
    [by rewrite lookup_insert_eq|by rewrite lookup_insert_ne].
Qed.

(** A coroutine that runs starts to wait. *)
Lemma listen_ok ρ m c f e :
  frames_ok ρ [] m → frames m !! c = Some f → point_ f = running →
  ev_triggered (ev_of m e) = false → (e < next_event m)%nat →
  code_fits m (with_point (at_event e) f) →
  (∀ t k, code_ f ≠ await_resume t k) →
  (∀ t g, Some t ∈ slots f → frames m !! t = Some g →
     (∀ q, awaiter_ (pr g) = quorum_event q → q = e) ∧
     ∀ args k, code_ f = first_after args k → t ∈ arg_tasks f args → awaiter_ (pr g) = quorum_event e) →
  frames_ok ρ [] (add_listener c e (set_frame c (with_point (at_event e)) m)).
Proof.
  intros Hok Hf Hp He Hlt Hfits Hc1 Hkids. set (m' := add_listener _ _ _).
  assert (Hof : ∀ x, ev_triggered (ev_of m' x) = ev_triggered (ev_of m x) ∧
    ev_quorums (ev_of m' x) = ev_quorums (ev_of m x) ∧ ev_race (ev_of m' x) = ev_race (ev_of m x) ∧
    ∀ y, y ∈ ev_listeners (ev_of m' x) ↔ y ∈ ev_listeners (ev_of m x) ∨ x = e ∧ y = c).
  { intros x. unfold m'. rewrite add_listener_of. case_decide as E; [subst; simpl|split_and!; try done; intros y; tauto].
    change (ev_of (set_frame c _ m) e) with (ev_of m e). split_and!; try done.
    intros y. rewrite elem_of_app, list_elem_of_singleton. tauto. }
  assert (Hcf : ∀ g, code_fits m g → code_fits m' g).
  { intros g. apply code_fits_mono; [done| |].
    - intros x _. by destruct (Hof x) as (_ & _ & -> & _).
    - intros x q _ _. unfold joins. by destruct (Hof x) as (-> & -> & _), (Hof q) as (-> & _ & _). }
  assert (Hstay : ∀ x g y, frames m !! x = Some g → point_ g = at_event y →
    point_ ((if decide (x = c) then with_point (at_event e) else id) g) = at_event y).
  { intros x g y Hg Hy. case_decide; [subst; simplify_eq; congruence|done]. }
  apply (evolve_ok ρ [] (λ x, if decide (x = c) then with_point (at_event e) else id) m m' Hok).
  pose proof Hok as []. split; try done.
  - intros x. apply set_frame_lookup.
  - intros x g Hg []. case_decide as E; [subst; simplify_eq|]; (split; [done|split; try done; try (by apply Hcf)]).
    + split; [done|]. intros H. simpl in H. apply fo_final in H. congruence.
    + intros H. destruct (fo_resolving H); congruence.
    + intros y [= <-]. split; [done|]. destruct (Hof e) as (-> & _ & _ & Hl). rewrite He. apply Hl. by right.
    + intros y Hy. destruct (fo_at_event y Hy) as [H1 H2]. split; [done|]. destruct (Hof y) as (-> & _ & _ & Hl).
      destruct (ev_triggered (ev_of m y)); [done|]. apply Hl. by left.
  - intros a g t h Hg Hh Hs Hl. assert (link ρ m' a ((if decide (a = c) then with_point (at_event e) else id) g) t h) as L;
      [|destruct (decide (t = c)); [by destruct L|done]].
    destruct Hl. case_decide as E; [subst; simplify_eq|]; split; try done; simpl.
    + intros b Ha. destruct (lk_co b Ha) as [-> H]. split; [done|]. intros Hr. specialize (H Hr). congruence.
    + intros q Hq. destruct (Hkids t h Hs Hh) as [K1 _]. pose proof (K1 q Hq) as ->.
      destruct (lk_ev e Hq) as (H1 & (args & k & H2 & H3 & _) & H4). destruct (Hof e) as (-> & _).
      split_and!; [done| |done]. exists args, k. split_and!; [done|done|by left].
    + intros k Hk. by destruct (Hc1 t k).
    + intros args k q Hk [= <-]. destruct (Hkids t h Hs Hh) as [_ K2]. by apply (K2 args k).
    + intros q Hq. destruct (lk_ev q Hq) as (H1 & H2 & H3). by destruct (Hof q) as (-> & _).
  - intros t g Hg. case_decide; simpl; tauto.
  - intros d g _ ?%elem_of_nil. done.
  - intros x Hx. unfold m'. simpl. rewrite lookup_insert_ne by lia. by apply fs_events.
  - intros x Hx. destruct (fs_ready x Hx) as (g & y & Hg & Hat & Hy). exists g, y. destruct (Hof y) as (-> & _).
    split_and!; [done|by eapply Hstay|done].
  - intros y x Hx. destruct (Hof y) as (-> & _ & _ & Hl). apply Hl in Hx as [Hx|[-> ->]].
    + destruct (fs_listeners y x Hx) as (g & Hg & Hat & Hy). exists g. split_and!; [done|by eapply Hstay|done].
    + exists f. by rewrite decide_True.
  - intros x q. destruct (Hof x) as (_ & -> & -> & _), (Hof q) as (_ & _ & -> & _). apply fs_quorums.
Qed.

(** ** Resolution points and the end of a coroutine *)

Section Resting.
Context {ρ : nat → nat} {m : machine} {c : nat} {s : list activation} {f : frame}.
Hypotheses (Hok : frames_ok ρ [] m) (Hst : on_top m c s) (Hcov : stack_covers m (A_run c :: s)).
Hypotheses (Es : stack m = A_run c :: s) (Hf : frames m !! c = Some f) (Hp : point_ f = running).

(** A coroutine that was detached has no owner. *)
Lemma detached_unowned m1 x g :
  frames_ok ρ [] m1 → frames m1 !! x = Some g → detached_ (pr g) = true →
  ∀ a h, frames m1 !! a = Some h → Some x ∉ slots h.
Proof.
  intros Hok1 Hg Hd a h Hh Hs. destruct (fs_link _ _ _ Hok1 a h x Hh Hs) as (g' & Hg' & Hl). simplify_eq.
  pose proof (lk_attached _ _ _ _ _ _ Hl). congruence.
Qed.

(** The frame of a detached coroutine that stops is destroyed. *)
Lemma stop_detached m1 (b : bool) g :
  frames_ok ρ [] m1 → upper ρ (ρ c) m m1 → frames m1 !! c = Some g → point_ g ≠ running →
  (b = true → detached_ (pr g) = true) →
  safe (m2 ⇐ (if b then destroy c m1 else Ok_ m1); Ok_ (with_stack s m2)) machine_ok.
Proof using All.
  intros Hok1 Hup Hg Hpg Hd. destruct b; simpl.
  2:{ apply (pause Hok Hst Hcov Es Hf Hp); [done..|]. intros g' Hg'. by simplify_eq. }
  destruct (destroy_frame_ok ρ m1 c) as (m2 & -> & Hok2 & Hds & Hgone).
  - apply (doom_ok ρ m1 c g); auto. apply (detached_unowned m1 c g); auto.
  - intros x h Hh Hx Hrun. destruct (up_back _ _ _ _ Hup x h Hh) as (h0 & Hh0 & Hr & _).
    destruct (running_below ρ m c s x h0 Hok Hst Hcov Hh0 (Hr Hrun)) as [->|]; [|lia].
    by simplify_eq.
  - simpl. apply (pause Hok Hst Hcov Es Hf Hp); [done| |by rewrite Hgone].
    eapply upper_trans; [done|]. by apply destroyed_upper.
Qed.

Lemma resolve_step k :
  (∀ args k', code_ f ≠ first_after args k') →
  (user_code k ∨ ∃ args k0, k = first_find args [] args k0 ∧ race_ok m args k0) →
  safe (step_await_resolve c k s m) machine_ok.
Proof using All.
  intros Hc Hk. unfold step_await_resolve. rewrite (active_awaiter_eq ρ m c f Hok Hf). simpl.
  assert (Hfits : ∀ p, p = running ∨ p = at_resolve → code_fits m (with_point p (with_code k f))).
  { intros p Hpt. destruct Hk as [Hu|(args & k0 & -> & Hr)]; [by apply user_code_fits|].
    unfold code_fits. simpl. split_and!; [|done|done]. destruct Hpt; auto. }
  assert (Hrest : (∀ a, awaiter_ (pr f) ≠ coroutine a) →
    safe (let m0 := set_frame c (λ f, with_point at_resolve (with_code k f)) m in
          m1 ⇐ resolution_point c m0; p ⇐ promise_of m1 c;
          m2 ⇐ (if detached_ p then destroy c m1 else Ok_ m1); Ok_ (with_stack s m2)) machine_ok).
  { intros Hn. simpl. rewrite (resolution_point_eq ρ m c f) by done. simpl.
    pose proof (signal_signalled ρ m c f Hok Hf) as Hsig. pose proof (sg_frames _ _ _ _ Hsig) as Efr.
    set (h := λ g, with_pr (set_resolving_ true) (with_point at_resolve (with_code k g))).
    set (m1 := set_frame c h (signal (pr f) m)).
    assert (frames m1 !! c = Some (h f)) as Hf1.
    { unfold m1. by rewrite set_frame_lookup, decide_True, Efr, Hf. }
    unfold promise_of. rewrite Hf1. simpl.
    apply (stop_detached m1 _ (h f)); [| |done|done|done].
    - eapply (rest_ok (m' := signal (pr f) m) (f' := h f) Hok Hst Hcov Hf Hp Hc); try done.
      + right. split_and!; [done| |done]. simpl.
        destruct (result_ f) eqn:E; [|done]. pose proof (fo_final _ _ _ (fs_frame _ _ _ Hok c f Hf)) as [_ H].
        rewrite H in Hp by (by rewrite E). done.
      + by apply (Hfits at_resolve); right.
      + simpl. destruct Hk as [Hu|(args & k0 & -> & _)]; split; try done.
        * intros t k' ->. done.
        * intros args tried rest k' ->. done.
        * by intros args' tried rest k' [= _ <- _ _].
      + intros q. by apply (signal_quorum ρ m c f q).
      + split; try done. intros x. unfold m1. rewrite set_frame_lookup. unfold resting. case_decide as E.
        * subst. by rewrite Efr, Hf.
        * rewrite decide_False by done. done.
    - eapply upper_trans; [by eapply signalled_upper|]. apply upper_set_frame; [lia|]. intros g Hg. done. }
  destruct (awaiter_ (pr f)) as [|a|q] eqn:Ea; [by apply Hrest| |by apply Hrest].
  apply (go_on_as Hok Hst Hcov Es Hf Hp); [apply upper_refl| |].
  - eapply set_code_ok; try done.
    + intros t g Hs Hg q Hq. destruct (fs_link _ _ _ Hok c f t Hf Hs) as (g' & Hg' & Hl). simplify_eq.
      destruct (lk_ev _ _ _ _ _ _ Hl q Hq) as (_ & (args & k' & E & _) & _). by destruct (Hc args k').
    + specialize (Hfits running (or_introl eq_refl)). unfold with_point in Hfits. simpl in Hfits.
      rewrite <- Hp in Hfits. done.
    + intros t g Hs Hg. destruct Hk as [Hu|(args & k0 & -> & _)]; split; try done.
      * by intros k' ->.
      * by intros args tried rest k' ->.
      * intros args' tried rest k' [= _ <- _ _] Ht. by apply elem_of_nil in Ht.
  - destruct Hk as [Hu|(args & k0 & -> & _)]; [by destruct k|done].
Qed.

(** A coroutine that [resolve] drives is not awaited. *)
Lemma driven_unawaited : in_resolve_ (pr f) = true → ∀ a, awaiter_ (pr f) ≠ coroutine a.
Proof using All.
  intros Hd a Ha. destruct Hst as (r & Hcl & Hu), Hcov as [_ H2].
  specialize (H2 c f Hf Hd). apply elem_of_cons in H2 as [[=]|H2].
  destruct (under_ranks Hok r s Hu) as [_ Hr]. destruct (Hr c H2) as [->|Hlt].
  - inversion Hcl as [? f0 Hf0 Hn|? f0 a0 ? Hf0 Ha0 Hcl0]; simplify_eq; [by destruct (Hn a)|].
    destruct (awaiter_owner Hok r f a0 Hf Ha0) as (g & Hg & _ & Hl). pose proof (lk_rank _ _ _ _ _ _ Hl).
    pose proof (climbs_rank Hok _ _ Hcl0). lia.
  - pose proof (climbs_rank Hok _ _ Hcl). lia.
Qed.

Lemma final_step r : code_ f = co_return r → safe (step_final c r s m) machine_ok.
Proof using All.
  intros Hc. unfold step_final. simpl. rewrite (resolution_point_eq ρ m c f) by done. simpl.
  pose proof (signal_signalled ρ m c f Hok Hf) as Hsig. pose proof (sg_frames _ _ _ _ Hsig) as Efr.
  set (h := λ g, with_pr (set_resolving_ true) (with_result r g)).
  set (m1 := set_frame c h (signal (pr f) m)).
  assert (frames m1 !! c = Some (h f)) as Hf1.
  { unfold m1. by rewrite set_frame_lookup, decide_True, Efr, Hf. }
  assert (Hrest : ∀ m'', reframed (resting c (λ _, h f) (awaiter_ (pr f))) (signal (pr f) m) m'' → frames_ok ρ [] m'').
  { intros m'' Hre. eapply (rest_ok (f' := h f) Hok Hst Hcov Hf Hp); try done.
    - by rewrite Hc.
    - left. split; [done|by exists r].
    - apply user_code_fits. simpl. by rewrite Hc.
    - simpl. by rewrite Hc.
    - intros q. by apply (signal_quorum ρ m c f q). }
  unfold promise_of. rewrite Hf1. simpl.
  assert (Hpause : (∀ a, awaiter_ (pr f) ≠ coroutine a) →
    safe (m2 ⇐ (if detached_ (pr f) then destroy c m1 else Ok_ m1); Ok_ (with_stack s m2)) machine_ok).
  { intros Hn. apply (stop_detached m1 _ (h f)); [| |done|done|done].
    - apply Hrest. split; try done. intros x. unfold m1. rewrite set_frame_lookup. unfold resting. case_decide as E.
      + subst. by rewrite Efr, Hf.
      + by rewrite decide_False by done.
    - eapply upper_trans; [by eapply signalled_upper|]. apply upper_set_frame; [lia|]. by intros. }
  destruct (awaiter_ (pr f)) as [|a|q] eqn:Ea; [by apply Hpause| |by apply Hpause].
  destruct (in_resolve_ (pr f)) eqn:Ed; [by destruct (driven_unawaited Ed a)|]. clear Hpause.
  destruct (awaiter_owner Hok c f a Hf Ea) as (g & Hg & Hs & Hl). pose proof (lk_rank _ _ _ _ _ _ Hl) as Hrank.
  destruct (rest_awaiter Hok Hf Hp a g Hg Ea) as (Hne & _ & Hat & _ & (k & Hk)).
  assert (frames m1 !! a = Some g) as Hg1.
  { unfold m1. rewrite set_frame_lookup, decide_False by done. rewrite Efr, Hg. done. }
  unfold run_on, enter. rewrite Hg1. simpl. rewrite Hat. simpl.
  set (m2 := set_frame a (with_point running) m1).
  assert (Hfr : ∀ x, frames m2 !! x = resting c (λ _, h f) (coroutine a) x <$> frames m !! x).
  { intros x. unfold m2, m1. rewrite !set_frame_lookup, Efr. unfold resting.
    destruct (decide (x = c)) as [->|Hxc].
    - rewrite decide_False by done. rewrite Hf. done.
    - rewrite (decide_ext (coroutine a = coroutine x) (x = a)) by (split; [by intros [= ->]|by intros ->]).
      by destruct (frames m !! x). }
  assert (Hlow : ∀ x y, frames m !! x = Some y → x ≠ c → x ≠ a → frames m2 !! x = Some y).
  { intros x y Hy Hxc Hxa. rewrite Hfr, Hy. unfold resting. rewrite decide_False by done.
    by rewrite decide_False by (by intros [= ->]). }
  assert (frames m2 !! a = Some (with_point running g)) as Hg2.
  { rewrite Hfr, Hg. unfold resting. rewrite decide_False by done. by rewrite decide_True. }
  split.
  - exists ρ. apply with_stack_ok, Hrest. split; try done. intros x. by rewrite Hfr, Efr.
  - simpl. split; [exists (with_point running g); simpl; by rewrite Hk|].
    destruct Hst as (z & Hcl & Hu).
    inversion Hcl as [? f0 Hf0 Hn|? f0 a0 ? Hf0 Ha0 Hcl0]; simplify_eq; [by destruct (Hn a)|].
    assert (a0 = a) as -> by congruence. pose proof (climbs_rank Hok _ _ Hcl0). exists z. split.
    + eapply (climbs_agree Hok); [|done]. intros x y Hy Hx. destruct (decide (x = a)) as [->|Hxa].
      { simplify_eq. eexists. split; [done|]. done. }
      exists y. split; [|done]. apply Hlow; [done| |done]. intros ->. destruct Hx; [congruence|lia].
    + eapply (under_agree Hok); [|done]. intros x y Hy Hx. apply Hlow; [done| |]; intros ->; lia.
  - destruct Hcov as [H1 H2].
    assert (Hback : ∀ x y', frames m2 !! x = Some y' → x ≠ a → ∃ y, frames m !! x = Some y ∧
      (point_ y' = running → point_ y = running ∧ x ≠ c) ∧ (in_resolve_ (pr y') = true → in_resolve_ (pr y) = true)).
    { intros x y' Hy' Hxa. rewrite Hfr in Hy'. destruct (frames m !! x) as [y|] eqn:Ey; [|done]. simpl in Hy'.
      exists y. split; [done|]. revert Hy'. unfold resting. case_decide as E.
      - subst. simplify_eq. intros [= <-]. done.
      - rewrite decide_False by (by intros [= ->]). intros [= <-]. done. }
    split; intros x y' Hy' Hx; (destruct (decide (x = a)) as [->|Hxa]; [|destruct (Hback x y' Hy' Hxa) as (y & Hy & Hr & Hd)]).
    + by left.
    + destruct (Hr Hx) as [Hr' Hxc]. specialize (H1 x y Hy Hr'). apply elem_of_cons in H1 as [[= ?]|H1]; [done|by right].
    + change (frames m2 !! a = Some y') in Hy'. rewrite Hg2 in Hy'. simplify_eq. specialize (H2 a g Hg Hx). apply elem_of_cons in H2 as [[=]|H2]. by right.
    + specialize (H2 x y Hy (Hd Hx)). apply elem_of_cons in H2 as [[=]|H2]. by right.
Qed.
End Resting.

(** ** Waiting, calling and destroying *)

Section Waiting.
Context {ρ : nat → nat} {m : machine} {c : nat} {s : list activation} {f : frame}.
Hypotheses (Hok : frames_ok ρ [] m) (Hst : on_top m c s) (Hcov : stack_covers m (A_run c :: s)).
Hypotheses (Es : stack m = A_run c :: s) (Hf : frames m !! c = Some f) (Hp : point_ f = running).

(** The tasks of a coroutine that runs and is in no race wait for no quorum. *)
Lemma kids_no_quorum :
  (∀ args k', code_ f ≠ first_after args k') →
  ∀ t g, Some t ∈ slots f → frames m !! t = Some g → ∀ q, awaiter_ (pr g) ≠ quorum_event q.
Proof using Hok Hf.
  intros Hc t g Hs Hg q Hq. destruct (fs_link _ _ _ Hok c f t Hf Hs) as (g' & Hg' & Hl). simplify_eq.
  destruct (lk_ev _ _ _ _ _ _ Hl q Hq) as (_ & (args & k' & E & _) & _). by destruct (Hc args k').
Qed.

Lemma await_event_step e k :
  (∀ x, e = Some x → (x < next_event m)%nat) → (∀ args k', code_ f ≠ first_after args k') → user_code k →
  safe (step_await_event c e k s m) machine_ok.
Proof using All.
  intros He Hc Hk. destruct e as [e|]; simpl;
    [|apply (go_on Hok Hst Hcov Es Hf Hp); [done|apply upper_refl|done|done]].
  destruct (ev_triggered (ev_of m e)) eqn:Et; simpl;
    [apply (go_on Hok Hst Hcov Es Hf Hp); [done|apply upper_refl|done|done]|].
  rewrite <- (set_frame_twice c (with_point (at_event e)) (with_code k)).
  set (m1 := set_frame c (with_code k) m).
  assert (frames m1 !! c = Some (with_code k f)) as Hf1.
  { unfold m1. by rewrite set_frame_lookup, decide_True, Hf. }
  assert (frames_ok ρ [] m1) as Hok1 by by eapply set_code_user.
  apply (pause Hok Hst Hcov Es Hf Hp).
  - apply (listen_ok ρ m1 c (with_code k f) e Hok1 Hf1 Hp Et); [by apply He|by apply user_code_fits| |].
    + intros t k' E. simpl in E. by subst.
    + intros t g Hs Hg. split.
      * intros q Hq. unfold m1 in Hg. rewrite set_frame_lookup in Hg. case_decide as E.
        { subst t. destruct (kid Hok Hst Hcov Hf c Hs) as (_ & _ & _ & _ & ? & _). done. }
        destruct (frames m !! t) as [g0|] eqn:Eg; [|done]. simpl in Hg. simplify_eq.
        by destruct (kids_no_quorum Hc t g Hs Eg q).
      * intros args k' E. simpl in E. by subst.
  - apply (upper_trans _ _ _ (set_frame c (with_point (at_event e)) m1)); [|by apply upper_same].
    eapply upper_trans; apply upper_set_frame; try lia; by intros.
  - intros g. change (frames (add_listener c e (set_frame c (with_point (at_event e)) m1)))
      with (frames (set_frame c (with_point (at_event e)) m1)).
    rewrite set_frame_lookup, decide_True, Hf1 by done. by intros [= <-].
Qed.

(** It awaits a task that has not ended and is at no resolution point. *)
Lemma await_suspend_step t k g :
  Some t ∈ slots f → frames m !! t = Some g → result_ g = None → resolving_ (pr g) = false →
  (∀ args k', code_ f ≠ first_after args k') → (∀ r, user_code (k r)) →
  safe (step_await_suspend c t k s m) machine_ok.
Proof using All.
  intros Hs Hg Hr Hres Hc Hk. destruct (kid Hok Hst Hcov Hf t Hs) as (g' & Hg' & Hl & Hrank & Hne & Hrun).
  simplify_eq. pose proof (fs_frame _ _ _ Hok t g Hg) as Hgok. pose proof (fs_frame _ _ _ Hok c f Hf) as Hfok.
  assert (step_await_suspend c t k s m =
    Ok_ (with_stack s (set_frame c (λ f, with_point (at_task t) (with_code (await_resume t k) f))
      (set_frame t (with_pr (set_awaiter_ (coroutine c))) (trigger_handle (interest_ (pr g)) m))))) as ->.
  { unfold step_await_suspend, prepare_awaiter, promise_of. rewrite Hg, Hf. simpl.
    rewrite (fo_home _ _ _ Hgok), (fo_home _ _ _ Hfok), Nat.eqb_refl. simpl.
    rewrite (lk_attached _ _ _ _ _ _ Hl), (fo_forwarded _ _ _ Hgok), Hres. done. }
  pose proof (trigger_handle_signalled ρ [] (interest_ (pr g)) m Hok (fo_interest _ _ _ Hgok)) as Hsig.
  set (m1 := trigger_handle (interest_ (pr g)) m) in *. pose proof (sg_frames _ _ _ _ Hsig) as Efr.
  set (h := λ f, with_point (at_task t) (with_code (await_resume t k) f)). simpl.
  set (φ := λ x, if decide (x = c) then h else if decide (x = t) then with_pr (set_awaiter_ (coroutine c)) else id).
  set (m2 := set_frame c h (set_frame t _ m1)).
  assert (reframed φ m1 m2) as Hre.
  { split; try done. intros x. unfold m2. rewrite !set_frame_lookup. unfold φ.
    destruct (frames m1 !! x); [|by repeat case_decide]. simpl. case_decide; [|done]. subst.
    by rewrite decide_False by done. }
  assert (Hcode : ∀ x y, frames m !! x = Some y → x ≠ c → Some c ∈ slots y → ∀ g', link ρ m1 x y c f → pr g' = pr f → result_ g' = result_ f →
    link ρ m1 x y c g').
  { intros x y Hy Hx Hsx g' [] E1 E2. split; rewrite ?E1, ?E2; done. }
  apply (pause Hok Hst Hcov Es Hf Hp).
  - apply (reframe_ok _ _ _ _ _ (sg_ok _ _ _ _ Hsig) Hre); rewrite ?Efr.
    + intros x y Hy. unfold φ. case_decide as E; [subst; simplify_eq|case_decide as E'; [subst; simplify_eq|done]].
      * split; [done|]. intros []. split; try done; simpl.
        -- split; [done|]. intros H. apply fo_final in H. congruence.
        -- intros H. destruct (fo_resolving H); congruence.
        -- intros y [= <-]. eauto.
        -- unfold code_fits. simpl. auto.
      * split; [done|]. intros []. split; try done; simpl. intros H. by destruct (fo_at_resolve H) as [? _]; congruence.
    + intros a y x z Hy Hz Hsx Hl1. pose proof (lk_rank _ _ _ _ _ _ Hl1) as Hrk. unfold φ.
      destruct (decide (a = c)) as [->|Hac].
      * simplify_eq. rewrite (decide_False (P := x = c)) by (intros ->; lia).
        pose proof (kids_no_quorum Hc x z Hsx Hz) as Hnq.
        destruct (decide (x = t)) as [->|Hxt]; simplify_eq; destruct Hl1.
        -- split; try done; simpl.
           ++ intros a [= <-]. done.
           ++ intros k' _. by left.
        -- split; try done; simpl.
           ++ intros a Ha. destruct (lk_co a Ha) as [-> H]. split; [done|]. intros Hrz. specialize (H Hrz). congruence.
           ++ intros q Hq. by destruct (Hnq q).
           ++ intros [= ->]. done.
           ++ intros k' [= -> _]. done.
      * assert (x ≠ t) as Hxt.
        { intros ->. apply list_elem_of_lookup in Hs as [i Hi]. apply list_elem_of_lookup in Hsx as [j Hj].
          by destruct (fs_unique _ _ _ Hok c f i a y j t Hf Hy Hi Hj). }
        rewrite (decide_False (P := x = t)) by done.
        assert (link ρ m1 a (with_pr (set_awaiter_ (coroutine c)) y) x z ∧ link ρ m1 a y x z) as [L1 L2].
        { split; [|done]. destruct Hl1. by split. }
        destruct (decide (x = c)) as [->|Hxc]; simplify_eq.
        -- destruct (decide (a = t)) as [->|]; [lia|]. by destruct L2.
        -- by destruct (decide (a = t)).
    + intros x y Hy. unfold φ. case_decide; [subst; simpl; tauto|]. case_decide; [|simpl; tauto].
      subst. simplify_eq. intros _ _. right. eauto.
    + by intros d y _ ?%elem_of_nil.
    + intros x y e Hy Hat _. unfold φ. case_decide; [subst; simplify_eq; congruence|]. by case_decide.
  - eapply upper_trans; [by eapply signalled_upper|]. eapply upper_trans; apply upper_set_frame; try lia; by intros.
  - intros y. unfold m2. rewrite set_frame_lookup, decide_True by done.
    destruct (frames (set_frame t _ m1) !! c); simpl; [|done]. by intros [= <-].
Qed.

(** The tasks of a coroutine that no code of its own refers to. *)
Lemma drop_slot i t k :
  slot_task f i = Some t → (∀ args k', code_ f ≠ first_after args k') → user_code k →
  let m1 := clear_slot c i (set_frame c (with_code k) m) in
  frames_ok ρ [t] m1 ∧ upper ρ (ρ c) m m1 ∧
  frames m1 !! c = Some (with_slots (<[i := None]> (slots f)) (with_code k f)) ∧
  (∃ g, frames m !! t = Some g ∧ frames m1 !! t = Some g ∧ (ρ c < ρ t)%nat ∧ link ρ m c f t g) ∧
  ∀ x g, frames m1 !! x = Some g → (ρ t ≤ ρ x)%nat → point_ g ≠ running.
Proof using All.
  intros Hi Hc Hk m1. destruct (kid Hok Hst Hcov Hf t) as (g & Hg & Hl & Hrank & Hne & Hrun); [by eapply slot_task_in|].
  assert (frames_ok ρ [] (set_frame c (with_code k) m)) as Hok1 by by eapply set_code_user.
  assert (frames (set_frame c (with_code k) m) !! c = Some (with_code k f)) as Hf1.
  { by rewrite set_frame_lookup, decide_True, Hf. }
  assert (upper ρ (ρ c) m m1) as Hup.
  { eapply upper_trans; apply upper_set_frame; try lia; by intros. }
  assert (frames m1 !! t = Some g) as Hg1.
  { unfold m1, clear_slot. by rewrite !set_frame_lookup, !decide_False, Hg. }
  split_and!; [|done| |by exists g|].
  - apply (clear_slot_ok ρ _ c (with_code k f) i t); try done. intros g' Hg'.
    rewrite set_frame_lookup, decide_False, Hg in Hg' by done. by injection Hg' as <-.
  - unfold m1, clear_slot. by rewrite set_frame_lookup, decide_True, Hf1.
  - intros x y Hy Hx Hry. destruct (up_back _ _ _ _ Hup x y Hy) as (y0 & Hy0 & Hr & _).
    destruct (running_below ρ m c s x y0 Hok Hst Hcov Hy0 (Hr Hry)) as [->|]; lia.
Qed.

(** The top goes on with changed frames above it. *)
Lemma go_on_changed m2 f2 :
  frames_ok ρ [] m2 → upper ρ (ρ c) m m2 → frames m2 !! c = Some f2 →
  awaiter_ (pr f2) = awaiter_ (pr f) → point_ f2 = running → user_code (code_ f2) → machine_ok m2.
Proof using All.
  intros Hok2 Hup Hf2 Ha Hr Hu. eapply (goes_on ρ ρ m _ c s f f2); try done.
  - by rewrite (up_stack _ _ _ _ Hup).
  - by destruct (code_ f2).
  - intros x g Hg Hx. by rewrite (up_low _ _ _ _ Hup).
  - apply (up_back _ _ _ _ Hup).
Qed.

Lemma destroy_step i t k :
  slot_task f i = Some t → (∀ args k', code_ f ≠ first_after args k') → user_code k →
  safe (destroy t (set_frame c (with_code k) (clear_slot c i m))) machine_ok.
Proof using All.
  intros Hi Hc Hk. destruct (drop_slot i t k Hi Hc Hk) as (H1 & Hup & Hf1 & (g & Hg & Hg1 & Hrank & Hl) & Hidle).
  assert (set_frame c (with_code k) (clear_slot c i m) = clear_slot c i (set_frame c (with_code k) m)) as ->.
  { unfold clear_slot. by rewrite !set_frame_twice. }
  destruct (destroy_frame_ok ρ _ t H1 Hidle) as (m2 & -> & Hok2 & Hds & _). simpl.
  eapply go_on_changed; [done| | | | |].
  - eapply upper_trans; [done|]. eapply upper_weaken; [by apply destroyed_upper|lia].
  - rewrite (ds_low _ _ _ _ Hds) by done. exact Hf1.
  - done.
  - done.
  - done.
Qed.

Lemma set_frame_swap a b h h' m0 : a ≠ b → set_frame a h (set_frame b h' m0) = set_frame b h' (set_frame a h m0).
Proof using.
  intros Hab. unfold set_frame, with_frames. simpl. f_equal. apply alter_alter_ne. done.
Qed.

Lemma detach_step i t k :
  slot_task f i = Some t → (∀ args k', code_ f ≠ first_after args k') → user_code k →
  let m1 := set_frame c (with_code k) (clear_slot c i (set_frame t (with_pr (set_detached_ true)) m)) in
  safe (p ⇐ promise_of m1 t; if resolving_ p then destroy t m1 else Ok_ m1) machine_ok.
Proof using All.
  intros Hi Hc Hk m1. destruct (drop_slot i t k Hi Hc Hk) as (H1 & Hup & Hf1 & (g & Hg & Hg1 & Hrank & Hl) & Hidle).
  set (m0 := clear_slot c i (set_frame c (with_code k) m)) in *.
  assert (c ≠ t) as Hct by (intros ->; lia).
  assert (m1 = set_frame t (with_pr (set_detached_ true)) m0) as Em1.
  { unfold m1, m0, clear_slot. rewrite !set_frame_twice. by rewrite set_frame_swap. }
  set (g1 := with_pr (set_detached_ true) g).
  assert (frames m1 !! t = Some g1) as Hg2 by by rewrite Em1, set_frame_lookup, decide_True, Hg1.
  assert (frames m1 !! c = frames m0 !! c) as Hc2.
  { rewrite Em1, set_frame_lookup, decide_False by done. by destruct (frames m0 !! c). }
  assert (frames_ok ρ [t] m1) as Hok1.
  { rewrite Em1. by apply doomed_detach. }
  assert (upper ρ (ρ c) m m1) as Hup1.
  { eapply upper_trans; [exact Hup|]. rewrite Em1. apply upper_set_frame; [lia|]. by intros. }
  unfold promise_of. rewrite Hg2. simpl. destruct (resolving_ (pr g)) eqn:Er.
  - destruct (destroy_frame_ok ρ m1 t Hok1) as (m2 & -> & Hok2 & Hds & _).
    { intros x y Hy Hx. rewrite Em1, set_frame_lookup in Hy. destruct (frames m0 !! x) as [y0|] eqn:Ey; [|done].
      specialize (Hidle x y0 Ey Hx). simpl in Hy. injection Hy as <-. by case_decide. }
    simpl. eapply go_on_changed; [done| | | | |].
    + eapply upper_trans; [done|]. eapply upper_weaken; [by apply destroyed_upper|lia].
    + rewrite (ds_low _ _ _ _ Hds), Hc2 by done. exact Hf1.
    + done.
    + done.
    + done.
  - simpl. eapply go_on_changed; [|done|by rewrite Hc2|done|done|done].
    apply (spare_ok ρ m1 t Hok1). intros y Hy. rewrite Hg2 in Hy. injection Hy as <-. simpl.
    destruct (awaiter_ (pr g)) as [|a|q] eqn:Ea; [done| |].
    + destruct (lk_co _ _ _ _ _ _ Hl a Ea) as [-> H]. destruct (result_ g) eqn:E.
      * pose proof (fs_frame _ _ _ Hok t g Hg) as Hgok. pose proof (fo_final _ _ _ Hgok) as [_ Hfin].
        rewrite (fo_final_resolving _ _ _ Hgok) in Er by (apply Hfin; by rewrite E). done.
      * specialize (H eq_refl). congruence.
    + destruct (kids_no_quorum Hc t g (slot_task_in _ _ _ Hi) Hg q Ea).
Qed.

(** *** Calling a coroutine *)

Lemma take_slots_spec js l given kept :
  take_slots js l = (given, kept) →
  (∀ a t, given !! a = Some (Some t) →
     ∃ i, js !! a = Some i ∧ l !! i = Some (Some t) ∧ ∀ b, (b < a)%nat → js !! b ≠ Some i) ∧
  (∀ i t, kept !! i = Some (Some t) ↔ l !! i = Some (Some t) ∧ i ∉ js).
Proof using.
  revert l given kept. induction js as [|j js IH]; intros l given kept; simpl.
  { intros [= <- <-]. split; [done|]. intros i t. split; [|tauto]. intros H. split; [done|apply not_elem_of_nil]. }
  destruct (take_slots js (<[j := None]> l)) as [gs ks] eqn:E. simpl. intros [= <- <-].
  destruct (IH _ _ _ E) as [H1 H2].
  assert (Hl : ∀ i t, (<[j := None]> l) !! i = Some (Some t) ↔ l !! i = Some (Some t) ∧ i ≠ j).
  { intros i t. destruct (decide (i = j)) as [->|Hne]; [|rewrite list_lookup_insert_ne by done; tauto].
    split; [|tauto]. destruct (decide (j < length l)%nat).
    - by rewrite list_lookup_insert_eq.
    - rewrite lookup_ge_None_2; [done|]. rewrite length_insert. lia. }
  split.
  - intros [|a] t; simpl.
    + intros H. exists j. split_and!; [done| |intros b; lia]. by destruct (l !! j) as [[x|]|]; simplify_eq/=.
    + intros H. destruct (H1 a t H) as (i & Hi & [Hli Hne]%Hl & Hb). exists i. split_and!; [done|done|].
      intros [|b] Hlt; simpl; [congruence|]. apply Hb. lia.
  - intros i t. rewrite H2, Hl, not_elem_of_cons. tauto.
Qed.

Lemma take_slots_in js l given kept t :
  take_slots js l = (given, kept) → Some t ∈ given → ∃ i, i ∈ js ∧ l !! i = Some (Some t).
Proof using.
  intros E Hs. apply list_elem_of_lookup in Hs as [a Ha]. destruct (take_slots_spec _ _ _ _ E) as [H _].
  destruct (H a t Ha) as (i & Hi & Hl & _). exists i. split; [by eapply list_elem_of_lookup_2|done].
Qed.

Lemma call_step body moved k :
  code_ f = call body moved k → user_code body → user_code k →
  (∀ i t g, i ∈ moved → slot_task f i = Some t → frames m !! t = Some g → awaiter_ (pr g) = nobody) →
  safe (step_call c body moved k s m) machine_ok.
Proof using All.
  intros Hc Hb Hk Hmoved. unfold step_call. rewrite Hf. simpl.
  destruct (take_slots moved (slots f)) as [given kept] eqn:E.
  destruct (take_slots_spec _ _ _ _ E) as [Hgiven Hkept]. set (t := next_frame m).
  set (f' := with_code k (with_slots (kept ++ [Some t]) f)).
  set (child := mk_frame (new_promise (current m)) body running given None). simpl.
  set (m' := mk_machine _ _ _ _ _ _ _ _).
  set (ρ' := λ x, if decide (x = t) then (2 * ρ c + 1)%nat else (2 * ρ x)%nat).
  pose proof Hok as [].
  assert (Hnew : ∀ x g, frames m !! x = Some g → x ≠ t).
  { intros x g Hg ->. specialize (fs_fresh _ _ Hg). unfold t in *. lia. }
  pose proof (Hnew c f Hf) as Hct.
  assert (Hfr : ∀ x, frames m' !! x = if decide (x = t) then Some child else if decide (x = c) then Some f' else frames m !! x).
  { intros x. unfold m'. simpl. case_decide as E1; [subst; apply lookup_insert_eq|]. rewrite lookup_insert_ne by done.
    case_decide as E2; [subst; apply lookup_insert_eq|]. by rewrite lookup_insert_ne. }
  assert (Hback : ∀ x g', frames m' !! x = Some g' →
    x = t ∧ g' = child ∨ x = c ∧ g' = f' ∨ x ≠ t ∧ x ≠ c ∧ frames m !! x = Some g').
  { intros x g'. rewrite Hfr. case_decide as E1; [intros [= <-]; auto|]. case_decide as E2; [intros [= <-]; auto|]. auto. }
  assert (Hkid : ∀ i y, slots f !! i = Some (Some y) → y ≠ t ∧ y ≠ c ∧ ∃ g, frames m !! y = Some g ∧ frames m' !! y = Some g ∧ link ρ m c f y g).
  { intros i y Hi. destruct (fs_link c f y Hf) as (g & Hg & Hl); [by eapply list_elem_of_lookup_2|].
    pose proof (lk_rank _ _ _ _ _ _ Hl). pose proof (Hnew y g Hg). assert (y ≠ c) by (intros ->; lia).
    split_and!; [done|done|]. exists g. by rewrite Hfr, !decide_False. }
  assert (Hfs : ∀ i y, slots f' !! i = Some (Some y) → y = t ∧ i = length kept ∨ kept !! i = Some (Some y) ∧ (i < length kept)%nat).
  { intros i y. unfold f'. simpl. intros H. destruct (decide (i < length kept)%nat) as [Hlt|Hge].
    - rewrite lookup_app_l in H by done. auto.
    - rewrite lookup_app_r in H by lia. apply list_lookup_singleton_Some in H as [H [= <-]]. left. split; [done|lia]. }
  assert (Hgs : ∀ a y, given !! a = Some (Some y) → ∃ i, moved !! a = Some i ∧ slots f !! i = Some (Some y) ∧
    (∀ b, (b < a)%nat → moved !! b ≠ Some i) ∧ ∀ g, frames m !! y = Some g → awaiter_ (pr g) = nobody).
  { intros a y Ha. destruct (Hgiven a y Ha) as (i & Hi & Hl & Hb'). exists i. split_and!; [done..|].
    intros g Hg. apply (Hmoved i y g); [by eapply list_elem_of_lookup_2| |done]. by apply slot_task_lookup. }
  assert (Hcf : ∀ g, code_fits m g → code_fits m' g) by by (intros g; unfold code_fits; destruct (code_ g)).
  assert (frames_ok ρ' [] m') as Hok'.
  { split; try done.
    - intros x g' [[-> ->]|[[-> ->]|(H1 & H2 & H3)]]%Hback.
      + split; try done; [by split; [|intros [? ?]]|by apply user_code_fits].
      + destruct (fs_frame c f Hf). split; try done; [|by apply user_code_fits].
        intros y Hy. simpl in Hy. congruence.
      + destruct (fs_frame x g' H3). split; try done; by apply Hcf.
    - intros x g' y Hg' Hs. apply list_elem_of_lookup in Hs as [i Hi].
      destruct (Hback x g' Hg') as [[-> ->]|[[-> ->]|(H1 & H2 & H3)]].
      + destruct (Hgs i y Hi) as (j & _ & Hj & _ & Ha). destruct (Hkid j y Hj) as (Hyt & Hyc & g & Hg & Hg2 & Hl).
        exists g. split; [done|]. specialize (Ha g Hg). destruct Hl.
        split; rewrite ?Ha; try done.
        * unfold ρ'. rewrite decide_True, decide_False by done. lia.
        * intros k' E'. simpl in E'. by subst body.
        * intros args tried rest k' E'. simpl in E'. by subst body.
      + destruct (Hfs i y Hi) as [[-> _]|[Hki _]].
        * exists child. rewrite Hfr, decide_True by done. split; [done|]. split; try done.
          -- unfold ρ'. rewrite decide_False, decide_True by done. lia.
          -- intros Hat. simpl in Hat. congruence.
          -- intros k' E'. simpl in E'. by subst k.
          -- intros args k' q E'. simpl in E'. by subst k.
        * apply Hkept in Hki as [Hki _]. destruct (Hkid i y Hki) as (Hyt & Hyc & g & Hg & Hg2 & Hl).
          exists g. split; [done|].
          assert (∀ q, awaiter_ (pr g) ≠ quorum_event q) as Hnq.
          { apply (kids_no_quorum ltac:(by rewrite Hc) y g); [by eapply list_elem_of_lookup_2|done]. }
          destruct Hl. split; try done.
          -- unfold ρ'. rewrite !decide_False by done. lia.
          -- intros q Hq. by destruct (Hnq q).
          -- intros k' E'. simpl in E'. by subst k.
          -- intros args tried rest k' E'. simpl in E'. by subst k.
          -- intros args k' q E'. simpl in E'. by subst k.
      + destruct (fs_link x g' y H3) as (g & Hg & Hl); [by eapply list_elem_of_lookup_2|].
        assert (ρ' x < ρ' y)%nat as Hr.
        { unfold ρ'. rewrite (decide_False (P := x = t)) by done. rewrite decide_False by by eapply Hnew.
          pose proof (lk_rank _ _ _ _ _ _ Hl). lia. }
        destruct (decide (y = c)) as [->|Hyc].
        * exists f'. rewrite Hfr, decide_False, decide_True by done. split; [done|]. simplify_eq. by destruct Hl.
        * exists g. rewrite Hfr, !decide_False by (done || by eapply Hnew). split; [done|]. by destruct Hl.
    - intros y g' Hg' Ha _. destruct (Hback y g' Hg') as [[-> ->]|Hy]; [by destruct Ha|].
      assert (∃ g, frames m !! y = Some g ∧ awaiter_ (pr g) ≠ nobody) as (g & Hg & Ha').
      { destruct Hy as [[-> ->]|(_ & _ & H)]; eauto. }
      destruct (fs_owner y g Hg Ha') as (a & h & Hh & Hs); [apply not_elem_of_nil|].
      destruct (decide (a = c)) as [->|Hac].
      + simplify_eq. exists c, f'. rewrite Hfr, decide_False, decide_True by done. split; [done|].
        apply list_elem_of_lookup in Hs as [i Hi]. unfold f'. simpl. apply elem_of_app. left.
        apply (list_elem_of_lookup_2 _ i), Hkept. split; [done|]. intros Him.
        destruct Ha'. apply (Hmoved i y g); [done| |done]. by apply slot_task_lookup.
      + exists a, h. rewrite Hfr, !decide_False by (done || by eapply Hnew). done.
    - assert (Hold : ∀ x g' i y, frames m' !! x = Some g' → slots g' !! i = Some (Some y) →
        x = c ∧ y = t ∧ i = length kept ∨
        ∃ a g j, frames m !! a = Some g ∧ slots g !! j = Some (Some y) ∧ y ≠ t ∧
          (x = t ∧ a = c ∧ moved !! i = Some j ∧ (∀ b, (b < i)%nat → moved !! b ≠ Some j) ∨
           x ≠ t ∧ a = x ∧ j = i ∧ (a = c → i ∉ moved))).
      { intros x g' i y Hg' Hi. destruct (Hback x g' Hg') as [[-> ->]|[[-> ->]|(H1 & H2 & H3)]].
        - destruct (Hgs i y Hi) as (j & Hj1 & Hj & Hj2 & _). right. exists c, f, j.
          destruct (Hkid j y Hj) as (? & _). split_and!; auto.
        - destruct (Hfs i y Hi) as [[-> ->]|[Hki _]]; [by left|right]. apply Hkept in Hki as [Hki Hm].
          exists c, f, i. destruct (Hkid i y Hki) as (? & _). split_and!; auto 10.
        - right. exists x, g', i. destruct (fs_link x g' y H3) as (g & Hg & _); [by eapply list_elem_of_lookup_2|].
          pose proof (Hnew y g Hg). split_and!; auto 10. }
      intros c1 g1 i1 c2 g2 i2 y Hg1 Hg2 Hi1 Hi2.
      destruct (Hold c1 g1 i1 y Hg1 Hi1) as [(-> & -> & ->)|(a1 & h1 & j1 & A1 & A2 & A3 & A4)],
        (Hold c2 g2 i2 _ Hg2 Hi2) as [(-> & ? & ->)|(a2 & h2 & j2 & B1 & B2 & B3 & B4)]; try done.
      destruct (fs_unique a1 h1 j1 a2 h2 j2 y A1 B1 A2 B2) as [-> ->].
      destruct A4 as [(-> & -> & A5 & A6)|(A4 & -> & -> & A5)], B4 as [(-> & E2 & B5 & B6)|(B4 & E2 & E3 & B5)].
      + split; [done|]. destruct (lt_eq_lt_dec i1 i2) as [[Hlt|]|Hlt]; [by destruct (B6 i1 Hlt)|done|by destruct (A6 i2 Hlt)].
      + exfalso. subst. apply B5; [done|]. by eapply list_elem_of_lookup_2.
      + exfalso. subst. apply A5; [done|]. by eapply list_elem_of_lookup_2.
      + by subst.
    - by intros d ?%elem_of_nil.
    - intros x g' [[-> _]|[[-> _]|(_ & _ & H3)]]%Hback; simpl; fold t; [lia| |].
      + specialize (fs_fresh c f Hf). fold t in fs_fresh. lia.
      + specialize (fs_fresh x g' H3). fold t in fs_fresh. lia.
    - intros x Hx. destruct (fs_ready x Hx) as (g & e & Hg & Hat & He). exists g, e.
      rewrite Hfr, !decide_False; [done| |by eapply Hnew]. intros ->. simplify_eq. congruence.
    - intros e x Hx. destruct (fs_listeners e x Hx) as (g & Hg & Hat & He). exists g.
      rewrite Hfr, !decide_False; [done| |by eapply Hnew]. intros ->. simplify_eq. congruence. }
  assert (frames m' !! t = Some child) as Hft by by rewrite Hfr, decide_True.
  split; [by exists ρ'| |].
  - simpl. split.
    { exists child. simpl. split_and!; [done|done|]. by destruct body. }
    exists t. split; [eapply climb_top; done|]. split.
    + exists f'. rewrite Hfr, decide_False, decide_True by done. split_and!; [done|done| |done].
      unfold f'. simpl. apply elem_of_app. right. by apply list_elem_of_singleton.
    + destruct Hst as (r & Hcl & Hu). pose proof (climbs_rank Hok _ _ Hcl). exists r. split.
      * eapply (climbs_agree Hok); [|done]. intros x g Hg Hx. destruct (decide (x = c)) as [->|Hxc].
        { simplify_eq. exists f'. by rewrite Hfr, decide_False, decide_True. }
        exists g. rewrite Hfr, !decide_False by (done || by eapply Hnew). done.
      * eapply (under_agree Hok); [|done]. intros x g Hg Hx.
        rewrite Hfr, !decide_False; [done|intros ->; lia|by eapply Hnew].
  - destruct Hcov as [H1 H2]. split; intros x g' Hg' Hx; simpl.
    + destruct (Hback x g' Hg') as [[-> _]|[[-> _]|(_ & _ & H3)]]; [by left|right; by left|right].
      by eapply H1.
    + destruct (Hback x g' Hg') as [[-> ->]|[[-> ->]|(_ & _ & H3)]]; [done|right; by apply (H2 c f)|right].
      by eapply H2.
Qed.

(** *** Races *)

Lemma find_fits args tried rest k :
  code_ f = first_find args tried rest k → args = tried ++ rest ∧ race_ok m args k.
Proof using Hok Hf.
  intros Hc. pose proof (fo_code _ _ _ (fs_frame _ _ _ Hok c f Hf)) as H. unfold code_fits in H. rewrite Hc in H. tauto.
Qed.

(** The race has found a resolved argument. *)
Lemma find_found args tried rest k i r :
  code_ f = first_find args tried rest k → machine_ok (set_frame c (with_code (k i r)) m).
Proof using All.
  intros Hc. destruct (find_fits _ _ _ _ Hc) as [_ [Hk _]].
  apply (go_on Hok Hst Hcov Es Hf Hp); [done|apply upper_refl|by rewrite Hc|done].
Qed.

(** It goes past an argument that is not resolved. *)
Lemma find_next args tried a rest k :
  code_ f = first_find args tried (a :: rest) k →
  (∀ i t g, a = arg_task i → slot_task f i = Some t → frames m !! t = Some g → resolving_ (pr g) = false) →
  machine_ok (set_frame c (with_code (first_find args (tried ++ [a]) rest k)) m).
Proof using All.
  intros Hc Ha. destruct (find_fits _ _ _ _ Hc) as [-> Hrace].
  apply (go_on_as Hok Hst Hcov Es Hf Hp); [apply upper_refl| |done].
  eapply set_code_ok; try done.
  - apply kids_no_quorum. by rewrite Hc.
  - unfold code_fits. simpl. split_and!; [by left|by rewrite <- app_assoc|done].
  - intros t g Hs Hg. split; [done|]. intros args' tried' rest' k' [= _ <- _ _] Ht.
    apply arg_tasks_in in Ht as (i & [Hi|Hi]%elem_of_app & Hit).
    + destruct (fs_link _ _ _ Hok c f t Hf Hs) as (g' & Hg' & Hl). simplify_eq.
      apply (lk_tried _ _ _ _ _ _ Hl _ _ _ _ Hc). apply arg_tasks_in. eauto.
    + apply list_elem_of_singleton in Hi as <-. by eapply Ha.
Qed.

(** The events join the quorum. *)
Lemma join_of q e m0 x :
  ev_quorums (ev_of m0 q) = [] →
  ev_of (join_quorum q m0 (arg_event e)) x =
    if ev_triggered (ev_of m0 e) then
      (if decide (x = q) then if ev_triggered (ev_of m0 q) then ev_of m0 q
                              else mk_ev true [] [] (ev_race (ev_of m0 q)) else ev_of m0 x)
    else if decide (x = e) then mk_ev false (ev_listeners (ev_of m0 e)) (ev_quorums (ev_of m0 e) ++ [q]) (ev_race (ev_of m0 e))
         else ev_of m0 x.
Proof using.
  intros Hq. unfold join_quorum. destruct (ev_triggered (ev_of m0 e)) eqn:Ee.
  - unfold trigger. destruct (ev_triggered (ev_of m0 q)) eqn:Eq; [by case_decide; subst|].
    rewrite Hq. simpl. rewrite trigger_one_of, Eq, Hq. done.
  - unfold ev_of at 1. simpl. case_decide as E; [subst; by rewrite lookup_insert_eq|by rewrite lookup_insert_ne].
Qed.

Lemma join_frames q m0 fs a : join_quorum q (with_frames fs m0) a = with_frames fs (join_quorum q m0 a).
Proof using.
  destruct a as [i|e]; [done|]. unfold join_quorum. change (ev_of (with_frames fs m0) e) with (ev_of m0 e).
  destruct (ev_triggered (ev_of m0 e)); [apply trigger_with_frames|done].
Qed.

Lemma join_ok q e m0 :
  frames_ok ρ [] m0 → (e < next_event m0)%nat → ev_race (ev_of m0 e) = false →
  (q < next_event m0)%nat → ev_race (ev_of m0 q) = true →
  signalled ρ [] m0 (join_quorum q m0 (arg_event e)).
Proof using.
  intros Hok0 He Hre Hq Hrq. unfold join_quorum. destruct (ev_triggered (ev_of m0 e)) eqn:Ee; [by apply trigger_signalled|].
  set (m1 := with_events _ m0).
  assert (Hof : ∀ x, ev_triggered (ev_of m1 x) = ev_triggered (ev_of m0 x) ∧ ev_listeners (ev_of m1 x) = ev_listeners (ev_of m0 x) ∧
    ev_race (ev_of m1 x) = ev_race (ev_of m0 x) ∧
    ∀ y, y ∈ ev_quorums (ev_of m1 x) ↔ y ∈ ev_quorums (ev_of m0 x) ∨ x = e ∧ y = q).
  { intros x. assert (ev_of m1 x = if decide (x = e)
      then mk_ev false (ev_listeners (ev_of m0 e)) (ev_quorums (ev_of m0 e) ++ [q]) (ev_race (ev_of m0 e))
      else ev_of m0 x) as ->.
    { unfold m1, ev_of at 1. simpl. case_decide as E; [subst; by rewrite lookup_insert_eq|by rewrite lookup_insert_ne]. }
    case_decide as E; [subst; simpl|split_and!; try done; intros y; tauto].
    split_and!; try done. intros y. rewrite elem_of_app, list_elem_of_singleton. tauto. }
  assert (Hcf : ∀ g, code_fits m0 g → code_fits m1 g).
  { intros g. apply code_fits_mono; [done| |].
    - intros x _. by destruct (Hof x) as (_ & _ & -> & _).
    - intros x y _ _. unfold joins. destruct (Hof x) as (-> & _ & _ & Hqs), (Hof y) as (-> & _).
      destruct (ev_triggered (ev_of m0 x)); [done|]. intros H. apply Hqs. by left. }
  split; try done; [|intros x; by destruct (Hof x) as (-> & _)].
  apply (evolve_ok ρ [] (λ _ f, f) m0 m1 Hok0). destruct Hok0. split; try by eauto.
  - intros x. simpl. by destruct (frames m0 !! x).
  - intros x g Hg []. split; [done|]. split; try done; [|by apply Hcf].
    intros y Hy. destruct (fo_at_event y Hy) as [H1 H2]. split; [done|].
    destruct (Hof y) as (-> & -> & _). done.
  - intros x g t h Hg Hh Hs []. split; try done.
    intros y Hy. destruct (lk_ev y Hy) as (H1 & H2 & H3). destruct (Hof y) as (-> & _). done.
  - intros x Hx. simpl. rewrite lookup_insert_ne by lia. by apply fs_events.
  - intros x Hx. destruct (fs_ready x Hx) as (g & y & Hg & Hat & Hy). exists g, y. by destruct (Hof y) as (-> & _).
  - intros y x. destruct (Hof y) as (-> & -> & _). apply fs_listeners.
  - intros x y. destruct (Hof x) as (_ & _ & -> & Hqs), (Hof y) as (_ & _ & -> & _).
    intros [H|[-> ->]]%Hqs; [by apply fs_quorums|done].
Qed.

(** Every argument of the race has joined. *)
Definition joined (q : nat) (args : list arg) (m0 : machine) : Prop :=
  ∀ e, arg_event e ∈ args → joins m0 q e.

Lemma join_all_ok q args done_ m0 :
  frames_ok ρ [] m0 → (q < next_event m0)%nat → ev_race (ev_of m0 q) = true →
  (∀ e, arg_event e ∈ done_ ++ args → (e < next_event m0)%nat ∧ ev_race (ev_of m0 e) = false) →
  joined q done_ m0 →
  signalled ρ [] m0 (foldl (join_quorum q) m0 args) ∧ joined q (done_ ++ args) (foldl (join_quorum q) m0 args) ∧
  (∀ e, ev_race (ev_of (foldl (join_quorum q) m0 args) e) = ev_race (ev_of m0 e)).
Proof using.
  revert m0 done_. induction args as [|a args IH]; intros m0 done_ Hok0 Hq Hrq Hargs Hj; simpl.
  { rewrite app_nil_r. split_and!; [by apply signalled_refl|done|done]. }
  destruct a as [i|e].
  { simpl. destruct (IH m0 (done_ ++ [arg_task i])) as (H1 & H2 & H3); rewrite <- ?app_assoc; try done.
    - intros e [He|He]%elem_of_app; [by apply Hj|]. by apply list_elem_of_singleton in He.
    - rewrite <- app_assoc in H2. done. }
  assert (Hq0 : ev_quorums (ev_of m0 q) = []).
  { destruct (ev_quorums (ev_of m0 q)) as [|x l] eqn:E; [done|].
    destruct (fs_quorums _ _ _ Hok0 q x) as (_ & _ & ?); [rewrite E; by left|congruence]. }
  destruct (Hargs e) as [He Hre]; [apply elem_of_app; right; by left|].
  pose proof (join_ok q e m0 Hok0 He Hre Hq Hrq) as Hs.
  assert (Hne : e ≠ q) by (intros ->; congruence).
  assert (Hof : ∀ x, ev_race (ev_of (join_quorum q m0 (arg_event e)) x) = ev_race (ev_of m0 x)).
  { intros x. rewrite join_of by done. destruct (ev_triggered (ev_of m0 e)); case_decide; subst; try done.
    by destruct (ev_triggered (ev_of m0 q)). }
  destruct (IH (join_quorum q m0 (arg_event e)) (done_ ++ [arg_event e])) as (H1 & H2 & H3).
  - apply Hs.
  - by rewrite (sg_next_event _ _ _ _ Hs).
  - by rewrite Hof.
  - intros x. rewrite <- app_assoc, Hof, (sg_next_event _ _ _ _ Hs). apply Hargs.
  - intros x Hx. assert (x ≠ q) as Hxq.
    { intros ->. destruct (Hargs q) as [_ ?]; [|congruence]. apply elem_of_app in Hx as [Hx|Hx]; apply elem_of_app; [by left|].
      apply list_elem_of_singleton in Hx as ->. right. by left. }
    unfold joins. rewrite !join_of by done. destruct (ev_triggered (ev_of m0 e)) eqn:Ee.
    + rewrite (decide_False (P := x = q)), (decide_True (P := q = q)) by done.
      apply elem_of_app in Hx as [Hx|Hx].
      * specialize (Hj x Hx). unfold joins in Hj. destruct (ev_triggered (ev_of m0 x)); [|done].
        destruct (ev_triggered (ev_of m0 q)) eqn:Eq; [by rewrite Eq|done].
      * apply list_elem_of_singleton in Hx as [= ->]. rewrite Ee.
        destruct (ev_triggered (ev_of m0 q)) eqn:Eq; [by rewrite Eq|done].
    + rewrite (decide_False (P := q = e)) by done. apply elem_of_app in Hx as [Hx|Hx].
      * specialize (Hj x Hx). unfold joins in Hj. case_decide as E; [subst; simpl; apply elem_of_app; right; by apply list_elem_of_singleton|done].
      * apply list_elem_of_singleton in Hx as [= ->]. rewrite decide_True by done. simpl.
        apply elem_of_app; right; by apply list_elem_of_singleton.
  - rewrite <- app_assoc in H2. split_and!; [by eapply signalled_trans|done|].
    intros x. by rewrite H3, Hof.
Qed.

(** No argument is resolved: the race waits for its quorum. *)
Lemma find_end args tried k :
  code_ f = first_find args tried [] k → safe (step_first_find c args tried [] k s m) machine_ok.
Proof using All.
  intros Hc. destruct (find_fits _ _ _ _ Hc) as [Ht Hrace]. rewrite app_nil_r in Ht. subst tried.
  unfold step_first_find. rewrite Hf. cbn [need res_bind]. destruct (fresh_quorum m) as [q m1] eqn:E1.
  assert (m1 = (fresh_quorum m).2 ∧ q = next_event m) as [Em1 Eq] by by rewrite E1; injection E1 as <- <-.
  pose proof (fresh_quorum_ok ρ [] m Hok) as Hok1. rewrite <- Em1 in Hok1.
  pose proof (fresh_quorum_of m) as Hof1. rewrite <- Em1 in Hof1.
  assert (frames m1 = frames m ∧ next_event m1 = S (next_event m) ∧ stack m1 = stack m ∧ current m1 = current m ∧
    next_frame m1 = next_frame m) as (F1 & N1 & S1 & C1 & NF1) by by rewrite Em1.
  clear E1 Em1. subst q. set (q := next_event m) in *. set (ts := arg_tasks f args).
  set (mj := foldl (join_quorum q) m1 args).
  assert (Hev : ∀ e, arg_event e ∈ args → (e < next_event m1)%nat ∧ ev_race (ev_of m1 e) = false).
  { intros e He. destruct Hrace as [_ Hr]. destruct (Hr e He). rewrite Hof1, decide_False by (unfold q; lia).
    split; [lia|done]. }
  destruct (join_all_ok q args [] m1 Hok1) as (Hs & Hj & Hr);
    [unfold q; lia|by rewrite Hof1, decide_True|done|by intros e ?%elem_of_nil|].
  fold mj in Hs, Hj, Hr.
  simpl in Hj. set (m2 := set_awaiters q ts m1).
  destruct (awaiters_eq (quorum_event q) ts m1) as (A1 & A2 & A3 & A4 & A5 & A6 & A7).
  change (safe (step_await_event c (Some q) (first_after args k) s (foldl (join_quorum q) m2 args)) machine_ok).
  assert (foldl (join_quorum q) m2 args = with_frames (frames m2) mj) as ->.
  { unfold mj. rewrite <- foldl_with_frames by (intros; apply join_frames). f_equal.
    apply (awaiters_frames (quorum_event q) ts m1). }
  set (m3 := with_frames (frames m2) mj). set (kf := first_after args k). set (m4 := set_frame c (with_code kf) m3).
  set (φ := λ x, if decide (x = c) then with_code kf else
                 if bool_decide (x ∈ ts) then with_pr (set_awaiter_ (quorum_event q)) else id).
  assert (Hcts : c ∉ ts).
  { intros Hin%arg_tasks_owned. destruct (kid Hok Hst Hcov Hf c Hin) as (_ & _ & _ & _ & ? & _). done. }
  assert (reframed φ mj m4) as Hre.
  { split; try done. intros x. unfold m4. rewrite set_frame_lookup. simpl frames. unfold m2, set_awaiters. rewrite A1.
    rewrite (sg_frames _ _ _ _ Hs). unfold φ. destruct (frames m1 !! x); [|by repeat case_match]. simpl.
    case_decide; [subst|done]. by rewrite bool_decide_eq_false_2. }
  assert (Hrj : race_ok mj args k).
  { split; [apply Hrace|]. intros e He. rewrite (sg_next_event _ _ _ _ Hs), Hr. by apply Hev. }
  assert (frames mj = frames m) as Fj by by rewrite (sg_frames _ _ _ _ Hs).
  assert (frames_ok ρ [] m4) as Hok4.
  { apply (reframe_ok _ _ _ _ _ (sg_ok _ _ _ _ Hs) Hre); rewrite ?Fj.
    - intros x g Hg. unfold φ. case_decide as E; [subst; simplify_eq|].
      + split; [done|]. intros []. split; try done.
        * intros t Hat. simpl in Hat. congruence.
        * unfold code_fits. simpl. split; [by left|done].
      + case_bool_decide; [|done]. split; [done|]. intros []. split; try done.
        intros Hat. simpl. split; [by apply fo_at_resolve|done].
    - intros a g t h Hg Hh Hst' Hl. pose proof (lk_rank _ _ _ _ _ _ Hl) as Hrk. unfold φ.
      destruct (decide (a = c)) as [->|Hac].
      + simplify_eq. rewrite (decide_False (P := t = c)) by (intros ->; lia).
        pose proof (kids_no_quorum ltac:(by rewrite Hc) t h Hst' Hh) as Hnq.
        case_bool_decide as Ein; destruct Hl.
        * split; try done; simpl.
          -- intros q' [= <-]. rewrite (sg_next_event _ _ _ _ Hs), N1. split_and!; [unfold q; lia| |].
             ++ exists args, k. split_and!; [done|done|by right].
             ++ rewrite (lk_tried _ _ _ _ Hc Ein). done.
          -- intros Hat. simpl in Hat. congruence.
          -- intros args' k' q' _ Hat. simpl in Hat. congruence.
        * split; try done; simpl.
          -- intros q' Hq. by destruct (Hnq q').
          -- intros args' k' q' _ Hat. simpl in Hat. congruence.
      + assert (t ∉ ts) as Hts.
        { intros Hin%arg_tasks_owned. apply list_elem_of_lookup in Hin as [i Hi]. apply list_elem_of_lookup in Hst' as [j Hj'].
          by destruct (fs_unique _ _ _ Hok c f i a g j t Hf Hg Hi Hj'). }
        rewrite (bool_decide_eq_false_2 _ Hts).
        assert (link ρ mj a (if bool_decide (a ∈ ts) then with_pr (set_awaiter_ (quorum_event q)) g else g) t h) as L.
        { case_bool_decide; [|done]. destruct Hl. by split. }
        destruct (bool_decide (a ∈ ts)); (case_decide; [subst; simplify_eq|done]); by destruct L.
    - intros t g Hg. unfold φ. case_decide; [subst; simpl; tauto|]. case_bool_decide as Ein; [|simpl; tauto].
      intros _ _. right. exists c, f. split; [done|]. by eapply arg_tasks_owned.
    - by intros d g _ ?%elem_of_nil.
    - intros x g e Hg Hat _. unfold φ. case_decide; [subst; simplify_eq; congruence|]. by case_bool_decide. }
  assert (upper ρ (S (ρ c)) m m3) as Hup3.
  { split.
    - intros x Hx. simpl. unfold m2, set_awaiters. rewrite A1, F1, bool_decide_eq_false_2.
      { by destruct (frames m !! x). }
      intros Hin%arg_tasks_owned. destruct (kid Hok Hst Hcov Hf x Hin) as (_ & _ & _ & ? & _). lia.
    - intros x g'. simpl. unfold m2, set_awaiters. rewrite A1, F1. destruct (frames m !! x) as [g|]; [|done]. simpl.
      intros [= <-]. exists g. by case_bool_decide.
    - simpl. rewrite (sg_stack _ _ _ _ Hs). done. }
  assert (frames m4 !! c = Some (with_code kf f)) as Hf4.
  { unfold m4. rewrite set_frame_lookup, decide_True by done. rewrite (upper_self Hf m3 Hup3). done. }
  unfold step_await_event. change (ev_of m3 q) with (ev_of mj q). destruct (ev_triggered (ev_of mj q)) eqn:Et.
  - by apply (go_on_as Hok Hst Hcov Es Hf Hp m3).
  - simpl. rewrite <- (set_frame_twice c (with_point (at_event q)) (with_code kf)). fold m4.
    apply (pause Hok Hst Hcov Es Hf Hp).
    + apply (listen_ok ρ m4 c (with_code kf f) q Hok4 Hf4 Hp Et).
      * simpl. rewrite (sg_next_event _ _ _ _ Hs), N1. unfold q. lia.
      * unfold code_fits. simpl. split; [|done]. right. exists q. split; [done|]. intros e He. by apply Hj.
      * done.
      * intros t g Hst' Hg. destruct (kid Hok Hst Hcov Hf t Hst') as (g0 & Hg0 & _ & _ & Hne & _).
        rewrite (rf_frames _ _ _ Hre), Fj, Hg0 in Hg. simpl in Hg. injection Hg as <-. unfold φ.
        rewrite decide_False by done. split.
        -- intros q'. case_bool_decide; simpl; [by intros [= <-]|]. intros Hq.
           by destruct (kids_no_quorum ltac:(by rewrite Hc) t g0 Hst' Hg0 q').
        -- intros args' k' [= <- _] Hin. change (arg_tasks (with_code kf f) args) with ts in Hin.
           by rewrite bool_decide_eq_true_2.
    + apply (upper_trans _ _ _ (set_frame c (with_point (at_event q)) m4)); [|by apply upper_same].
      eapply upper_trans; [eapply upper_trans; [eapply upper_weaken; [exact Hup3|lia]|]|]; apply upper_set_frame; try lia; by intros.
    + intros g. change (frames (add_listener c q (set_frame c (with_point (at_event q)) m4)))
        with (frames (set_frame c (with_point (at_event q)) m4)).
      rewrite set_frame_lookup, decide_True, Hf4 by done. by intros [= <-].
Qed.

(** The quorum has triggered. *)
Lemma race_again args k :
  code_ f = first_after args k →
  machine_ok (set_frame c (with_code (first_resolve args k)) (clear_awaiters (arg_tasks f args) m)).
Proof using All.
  intros Hc. set (ts := arg_tasks f args). set (m1 := clear_awaiters ts m). set (kf := first_resolve args k).
  assert (race_ok m args k) as Hrace.
  { pose proof (fo_code _ _ _ (fs_frame _ _ _ Hok c f Hf)) as H. unfold code_fits in H. rewrite Hc in H. tauto. }
  destruct (awaiters_eq nobody ts m) as (A1 & A2 & A3 & A4 & A5 & A6 & A7).
  set (φ := λ x, if decide (x = c) then with_code kf else
                 if bool_decide (x ∈ ts) then with_pr (set_awaiter_ nobody) else id).
  assert (Hcts : c ∉ ts).
  { intros Hin%arg_tasks_owned. destruct (kid Hok Hst Hcov Hf c Hin) as (_ & _ & _ & _ & ? & _). done. }
  assert (reframed φ m (set_frame c (with_code kf) m1)) as Hre.
  { split; try done. intros x. rewrite set_frame_lookup. unfold m1, clear_awaiters. rewrite A1. unfold φ.
    destruct (frames m !! x); [|by repeat case_match]. simpl. case_decide; [subst|done]. by rewrite bool_decide_eq_false_2. }
  apply (go_on_as Hok Hst Hcov Es Hf Hp); [| |done].
  { split.
    - intros x Hx. unfold m1, clear_awaiters. rewrite A1, bool_decide_eq_false_2; [by destruct (frames m !! x)|].
      intros Hin%arg_tasks_owned. destruct (kid Hok Hst Hcov Hf x Hin) as (_ & _ & _ & ? & _). lia.
    - intros x g'. unfold m1, clear_awaiters. rewrite A1. destruct (frames m !! x) as [g|]; [|done]. simpl.
      intros [= <-]. exists g. by case_bool_decide.
    - done. }
  apply (reframe_ok _ _ _ _ _ Hok Hre).
  - intros x g Hg. unfold φ. case_decide as E; [subst; simplify_eq|].
    + split; [done|]. intros []. split; try done. intros t Hat. simpl in Hat. congruence.
    + case_bool_decide; [|done]. split; [done|]. intros []. split; try done.
      intros Hat. simpl. split; [by apply fo_at_resolve|done].
  - intros a g t h Hg Hh Hs Hl. pose proof (lk_rank _ _ _ _ _ _ Hl) as Hrk. unfold φ.
    destruct (decide (a = c)) as [->|Hac].
    + simplify_eq. rewrite (decide_False (P := t = c)) by (intros ->; lia). destruct Hl.
      case_bool_decide as Ein; split; try done; simpl.
      * intros Hat. simpl in Hat. congruence.
      * intros q Hq. destruct (lk_ev q Hq) as (_ & (args' & k' & E & Hin & _) & _). rewrite Hc in E. by simplify_eq.
    + assert (t ∉ ts) as Hts.
      { intros Hin%arg_tasks_owned. apply list_elem_of_lookup in Hin as [i Hi]. apply list_elem_of_lookup in Hs as [j Hj'].
        by destruct (fs_unique _ _ _ Hok c f i a g j t Hf Hg Hi Hj'). }
      rewrite (bool_decide_eq_false_2 _ Hts).
      assert (link ρ m a (if bool_decide (a ∈ ts) then with_pr (set_awaiter_ nobody) g else g) t h) as L.
      { case_bool_decide; [|done]. destruct Hl. by split. }
      destruct (bool_decide (a ∈ ts)); (case_decide; [subst; simplify_eq|done]); by destruct L.
  - intros t g Hg. unfold φ. case_decide; [subst; simpl; tauto|]. case_bool_decide; simpl; tauto.
  - by intros d g _ ?%elem_of_nil.
  - intros x g e Hg Hat _. unfold φ. case_decide; [subst; simplify_eq; congruence|]. by case_bool_decide.
Qed.

(** A race begins. *)
Lemma race_starts args k :
  code_ f = first_of args k → forallb (good_arg m) args = true → (∀ i r, user_code (k i r)) →
  safe (m1 ⇐ start_all (arg_tasks f args) m; Ok_ (set_frame c (with_code (first_resolve args k)) m1)) machine_ok.
Proof using All.
  intros Hc Hgood Hk.
  destruct (start_all_ok ρ (S (ρ c)) (arg_tasks f args) m Hok) as (m1 & -> & Hok1 & Hup & Hfits).
  { intros t Hin%arg_tasks_owned. destruct (kid Hok Hst Hcov Hf t Hin) as (g & Hg & _ & Hr & _). by rewrite Hg. }
  simpl. apply (go_on_as Hok Hst Hcov Es Hf Hp); [done| |done].
  assert (frames m1 !! c = Some f) as Hf1 by apply (upper_self Hf m1 Hup).
  eapply set_code_ok; try done.
  - intros t g Hs Hg q Hq. destruct (fs_link _ _ _ Hok1 c f t Hf1 Hs) as (g' & Hg' & Hl). simplify_eq.
    destruct (lk_ev _ _ _ _ _ _ Hl q Hq) as (_ & (args' & k' & E & _) & _). congruence.
  - apply Hfits. unfold code_fits. simpl. split; [done|]. split; [done|]. intros e He.
    rewrite forallb_forall in Hgood. apply list_elem_of_In in He. by apply good_event_true, (Hgood (arg_event e)).
Qed.
End Waiting.

(** ** Every step keeps the invariant *)

Lemma run_context m c s :
  machine_ok m → stack m = A_run c :: s →
  ∃ ρ f, frames_ok ρ [] m ∧ on_top m c s ∧ stack_covers m (A_run c :: s) ∧ frames m !! c = Some f ∧
    point_ f = running ∧ code_fits m f ∧
    match code_ f with ready_then _ _ | resolved_then _ => False | _ => True end.
Proof.
  intros [[ρ Hok] Hst Hcov] Es. rewrite Es in Hst, Hcov. destruct Hst as [(f & Hf & Hp & Hc) Htop].
  exists ρ, f. split_and!; try done. apply (fs_frame _ _ _ Hok c f Hf).
Qed.

Lemma resolution_ok ρ b m t g :
  frames_ok ρ [] m → frames m !! t = Some g → (b ≤ ρ t)%nat →
  ∃ r m1, resolution t m = Ok_ (r, m1) ∧ frames_ok ρ [] m1 ∧ upper ρ b m m1.
Proof.
  intros Hok Hg Hb. unfold resolution, promise_of. rewrite Hg. simpl.
  destruct (bool_decide (resolution_ (pr g) = None) && negb (resolving_ (pr g))).
  - do 2 eexists. split; [done|]. pose proof (fresh_event_ok ρ [] m Hok) as Hok1. split.
    + apply (set_quiet_ok _ _ _ t (set_resolution_ (Some (next_event m))) Hok1); [done|].
      intros g' Hg'. simpl in Hg'. assert (g' = g) as -> by congruence. simpl. split; [intros e [= <-]; lia|].
      intros e He. pose proof (fo_interest _ _ _ (fs_frame _ _ _ Hok t g Hg) e He). lia.
    + eapply upper_trans; [by apply (upper_same _ _ m (fresh_event m).2)|]. apply upper_set_frame; [done|]. by intros.
  - exists (resolution_ (pr g)), m. split_and!; [done|done|apply upper_refl].
Qed.

(** [co_await interest{}]: the coroutine's own event. *)
Lemma interest_step m c s k :
  machine_ok m → stack m = A_run c :: s → (∃ f, frames m !! c = Some f ∧ code_ f = await_interest k) →
  safe (r ⇐ make_interest c m; step_await_event c r.1 k s r.2) machine_ok.
Proof.
  intros Hm Es (f0 & Hf0 & Hc). destruct (run_context m c s Hm Es) as (ρ & f & Hok & Hst & Hcov & Hf & Hp & Hfits & _).
  assert (f0 = f) as -> by congruence. unfold code_fits in Hfits. rewrite Hc in Hfits. simpl in Hfits.
  unfold make_interest, promise_of. rewrite Hf. simpl. destruct (has_interest_ (pr f)); simpl.
  - apply (await_event_step Hok Hst Hcov Es Hf Hp); [|by rewrite Hc|done].
    apply (fo_interest _ _ _ (fs_frame _ _ _ Hok c f Hf)).
  - set (h := with_pr (set_interest true (Some (next_event m)))). set (m1 := set_frame c h (fresh_event m).2).
    change (safe (step_await_event c (Some (next_event m)) k s m1) machine_ok).
    pose proof (fresh_event_ok ρ [] m Hok) as Hok1.
    assert (frames m1 !! c = Some (h f)) as Hf1 by by unfold m1; rewrite set_frame_lookup, decide_True; simpl; rewrite ?Hf.
    assert (machine_ok m1) as Hm1.
    { eapply (go_on_changed Hok Hst Hcov Es Hf Hp m1 (h f)); try done; [| |by simpl; rewrite Hc].
      - apply (set_quiet_ok _ _ _ c _ Hok1); [done|]. intros g Hg. simpl in Hg. assert (g = f) as -> by congruence.
        simpl. split; [|intros e [= <-]; lia]. intros e He.
        pose proof (fo_resolution _ _ _ (fs_frame _ _ _ Hok c f Hf) e He). lia.
      - eapply upper_trans; [by apply (upper_same _ _ m (fresh_event m).2)|]. apply upper_set_frame; [done|]. by intros. }
    destruct (run_context m1 c s Hm1 Es) as (ρ1 & f1 & Hok2 & Hst2 & Hcov2 & Hf2 & Hp2 & _).
    assert (f1 = h f) as -> by congruence.
    apply (await_event_step Hok2 Hst2 Hcov2 Es Hf2 Hp2); [|by simpl; rewrite Hc|done].
    intros x [= <-]. simpl. lia.
Qed.

(** Why a task that a coroutine owns is done. *)
Lemma done_result ρ m t g :
  frames_ok ρ [] m → frames m !! t = Some g →
  (is_done g = true → is_Some (result_ g)) ∧ (is_done g = false → result_ g = None).
Proof.
  intros Hok Hg. pose proof (fo_final _ _ _ (fs_frame _ _ _ Hok t g Hg)) as Hfin. unfold is_done. split.
  - intros H%bool_decide_eq_true. by apply Hfin.
  - intros H%bool_decide_eq_false. destruct (result_ g) eqn:E; [|done]. destruct H. apply Hfin. eauto.
Qed.

Lemma step_run_ok m c s :
  machine_ok m → stack m = A_run c :: s → moves_unawaited m = true → safe (step_run c s m) machine_ok.
Proof.
  intros Hm Es Hmoves. destruct (run_context m c s Hm Es) as (ρ & f & Hok & Hst & Hcov & Hf & Hp & Hfits & Hnr).
  unfold step_run. rewrite Hf. cbn [need res_bind].
  assert (Hgo : ∀ m1 k, frames_ok ρ [] m1 → upper ρ (S (ρ c)) m m1 → (∀ args k', code_ f ≠ first_after args k') →
    user_code k → machine_ok (set_frame c (with_code k) m1)) by apply (go_on Hok Hst Hcov Es Hf Hp).
  assert (Hkid : ∀ i t, slot_task f i = Some t → ∃ g, frames m !! t = Some g ∧ link ρ m c f t g ∧ (S (ρ c) ≤ ρ t)%nat ∧
    Some t ∈ slots f).
  { intros i t Hi%slot_task_in. destruct (kid Hok Hst Hcov Hf t Hi) as (g & ? & ? & ? & _). eauto 10. }
  (* a loop of [resolve] on a task that is not at its end *)
  assert (Hloop : ∀ i t k, slot_task f i = Some t → (∀ args k', code_ f ≠ first_after args k') →
    code_fits m (with_code k f) → (∀ k', k ≠ await_resume t k') → (∀ args tried rest k', k ≠ first_find args tried rest k') →
    drives (set_frame c (with_code k) m) c t →
    machine_ok (with_stack (A_loop t :: A_run c :: s) (set_frame c (with_code k) m))).
  { intros i t k Hi Hc Hk H1 H2 Hd. apply (push_loop Hok Hst Hcov Es Hf Hp); [|done].
    eapply set_code_ok; try done; [by apply (kids_no_quorum Hok Hf)|]. intros t' g' Hs' Hg'. split.
    - intros k' ->. unfold code_fits in Hk. simpl in Hk. destruct Hd as (f' & Hf' & _ & _ & Hd).
      rewrite set_frame_lookup, decide_True, Hf in Hf' by done. simpl in Hf'. injection Hf' as <-. done.
    - intros args tried rest k' ->. by destruct (H2 args tried rest k'). }
  pose proof Hfits as Hu. unfold code_fits in Hu. unfold moves_unawaited in Hmoves. rewrite Es, Hf in Hmoves.
  destruct (code_ f) as [r|a k|body moved k|k|e k|e k|k|k|i k|t k|i k|i k|i k|i k|i k|i k|i k|i k|args k
    |t k|t k|k|args k|args tried rest k|args k] eqn:Hc; cbn [user_code] in Hu; try done.
  - by apply (final_step Hok Hst Hcov Es Hf Hp).
  - apply Hgo; [by eapply same_state_ok|by apply upper_same|done|done].
  - destruct Hu as [Hb Hk]. eapply (call_step Hok Hst Hcov Es Hf Hp); try done.
    intros i t g Hi Hit Hg. rewrite forallb_forall in Hmoves. apply list_elem_of_In in Hi.
    specialize (Hmoves i Hi). rewrite Hit, Hg in Hmoves. by apply bool_decide_eq_true in Hmoves.
  - cbn -[set_frame fresh_event]. apply (Hgo (fresh_event m).2); [by apply fresh_event_ok|by apply upper_same|done|done].
  - destruct (good_event m e) eqn:He; [|done]. apply good_event_true in He as [He _].
    pose proof (trigger_signalled ρ [] e m Hok He) as Hs. apply Hgo; [apply Hs|by eapply signalled_upper|done|done].
  - destruct (match e with Some e => good_event m e | None => true end) eqn:He; [|done].
    apply (await_event_step Hok Hst Hcov Es Hf Hp); [|by rewrite Hc|done].
    intros x ->. by apply good_event_true in He as [? _].
  - apply interest_step; eauto.
  - apply (resolve_step Hok Hst Hcov Es Hf Hp); [by rewrite Hc|by left].
  - destruct (slot_task f i) as [t|] eqn:Hi; [|done]. destruct (Hkid i t Hi) as (g & Hg & Hl & Hr & Hs).
    rewrite Hg. cbn [need res_bind]. destruct (done_result ρ m t g Hok Hg) as [Hd _]. destruct (is_done g).
    + apply (go_on_as Hok Hst Hcov Es Hf Hp); [apply upper_refl| |done].
      eapply set_code_ok; try done.
      * apply (kids_no_quorum Hok Hf). by rewrite Hc.
      * unfold code_fits. simpl. auto.
      * intros t' g' Hs' Hg'. split; [|done]. intros k' [= <- _]. simplify_eq. auto.
    + apply (Hloop i t); try done.
      exists (with_code (ready_then t k) f). by rewrite set_frame_lookup, decide_True, Hf.
  - destruct (slot_task f i) as [t|] eqn:Hi; [|by apply Hgo; [|apply upper_refl| |]].
    destruct (Hkid i t Hi) as (g & Hg & Hl & Hr & Hs).
    destruct (start_task_ok ρ (S (ρ c)) m t g Hok Hg Hr) as (m1 & -> & Hok1 & Hup & _). by apply Hgo.
  - destruct (slot_task f i) as [t|] eqn:Hi; [|by apply Hgo; [|apply upper_refl| |]].
    destruct (Hkid i t Hi) as (g & Hg & _). rewrite Hg. by apply Hgo; [|apply upper_refl| |].
  - destruct (slot_task f i) as [t|] eqn:Hi; [|by apply Hgo; [|apply upper_refl| |]].
    destruct (Hkid i t Hi) as (g & Hg & _). unfold promise_of. rewrite Hg. by apply Hgo; [|apply upper_refl| |].
  - destruct (slot_task f i) as [t|] eqn:Hi; [|by apply Hgo; [|apply upper_refl| |]].
    destruct (Hkid i t Hi) as (g & Hg & Hl & Hr & Hs). rewrite Hg. cbn [need res_bind].
    destruct (resolving_ (pr g)); [|by apply Hgo; [|apply upper_refl| |]]. apply (Hloop i t); try done.
    exists (with_code (resolved_then k) f). rewrite set_frame_lookup, decide_True, Hf by done. done.
  - destruct (slot_task f i) as [t|] eqn:Hi.
    + destruct (Hkid i t Hi) as (g & Hg & Hl & Hr & Hs).
      destruct (resolution_ok ρ (S (ρ c)) m t g Hok Hg Hr) as (r & m1 & -> & Hok1 & Hup). by apply Hgo.
    + cbn -[set_frame fresh_event]. apply (Hgo (fresh_event m).2); [by apply fresh_event_ok|by apply upper_same|done|done].
  - destruct (slot_task f i) as [t|] eqn:Hi; [|by apply Hgo; [|apply upper_refl| |]].
    apply (detach_step Hok Hst Hcov Es Hf Hp i t k); [done|by rewrite Hc|done].
  - destruct (slot_task f i) as [t|] eqn:Hi; [|by apply Hgo; [|apply upper_refl| |]].
    apply (destroy_step Hok Hst Hcov Es Hf Hp i t k); [done|by rewrite Hc|done].
  - destruct (forallb (good_arg m) args) eqn:Hg; [|done]. by apply (race_starts Hok Hst Hcov Es Hf Hp).
  - destruct Hu as (_ & Hs & Hk). destruct (fs_link _ _ _ Hok c f t Hf Hs) as (g & Hg & Hl).
    assert (clear_awaiter t m = Ok_ m) as ->.
    { unfold clear_awaiter, promise_of. rewrite Hg. simpl. destruct (awaiter_ (pr g)) as [|a|q] eqn:Ea; [done| |done].
      destruct (lk_co _ _ _ _ _ _ Hl a Ea) as [-> _]. rewrite Hf. simpl.
      by rewrite (fo_forward _ _ _ (fs_frame _ _ _ Hok c f Hf)). }
    cbn [res_bind]. rewrite Hg. cbn [need res_bind].
    destruct (lk_resume _ _ _ _ _ _ Hl k Hc) as [H|[r Hr]]; [congruence|]. rewrite Hr. by apply Hgo; [|apply upper_refl| |].
  - destruct Hu as [_ Hrace]. apply (resolve_step Hok Hst Hcov Es Hf Hp); [by rewrite Hc|]. right. eauto.
  - destruct rest as [|[i|e] rest]; [by apply (find_end Hok Hst Hcov Es Hf Hp); destruct (find_fits Hok Hf _ _ _ _ Hc) as [-> _]; rewrite ?app_nil_r in *| |].
    + unfold step_first_find. rewrite Hf. cbn [need res_bind]. destruct (slot_task f i) as [t|] eqn:Hi.
      2:{ apply (find_next Hok Hst Hcov Es Hf Hp _ _ _ _ _ Hc). intros i' t g [= <-]. congruence. }
      destruct (Hkid i t Hi) as (g & Hg & Hl & Hr & Hs). rewrite Hg. cbn [need res_bind].
      destruct (resolving_ (pr g)) eqn:Hres.
      * assert (set_frame c (with_code (code_ f)) m = m) as Esame.
        { unfold set_frame. rewrite alter_id; [by destruct m|]. intros f' Hf'. simplify_eq. by destruct f. }
        rewrite <- Esame. apply (push_loop Hok Hst Hcov Es Hf Hp); rewrite Esame; [done|].
        exists f. split_and!; try done. rewrite Hc. split; [done|]. intros Hin.
        rewrite (lk_tried _ _ _ _ _ _ Hl _ _ _ _ Hc Hin) in Hres. done.
      * destruct (done_result ρ m t g Hok Hg) as [Hd _]. destruct (is_done g) eqn:Hdone.
        -- destruct (Hd eq_refl) as [r Hr']. unfold result_of. rewrite Hi. cbn [need res_bind]. rewrite Hg. cbn [need res_bind].
           rewrite Hr'. by apply (find_found Hok Hst Hcov Es Hf Hp _ _ _ _ _ _ Hc).
        -- apply (find_next Hok Hst Hcov Es Hf Hp _ _ _ _ _ Hc). intros i' t' g' [= <-]. congruence.
    + unfold step_first_find. rewrite Hf. cbn [need res_bind]. destruct (ev_triggered (ev_of m e)).
      * by apply (find_found Hok Hst Hcov Es Hf Hp _ _ _ _ _ _ Hc).
      * by apply (find_next Hok Hst Hcov Es Hf Hp _ _ _ _ _ Hc).
  - by apply (race_again Hok Hst Hcov Es Hf Hp).
Qed.

(** ** Calls of [resolve] *)

Lemma loop_context m t s :
  machine_ok m → stack m = A_loop t :: s ∨ stack m = A_driven t :: s →
  ∃ ρ c s' f g, s = A_run c :: s' ∧ frames_ok ρ [] m ∧ drives m c t ∧ on_top m c s' ∧
    stack_covers m (stack m) ∧ frames m !! c = Some f ∧ point_ f = running ∧ frames m !! t = Some g ∧
    Some t ∈ slots f ∧ link ρ m c f t g.
Proof.
  intros [[ρ Hok] Hst Hcov] Es.
  assert (under m t (A_driven t :: s)) as Hu by (destruct Es as [Es|Es]; rewrite Es in Hst; by destruct Hst).
  destruct s as [|[c|x|x|x] s']; simpl in Hu; try done.
  destruct Hu as (_ & Hd & Htop). pose proof Hd as (f & Hf & Hp & Hs & _).
  destruct (fs_link _ _ _ Hok c f t Hf Hs) as (g & Hg & Hl). by exists ρ, c, s', f, g.
Qed.

Lemma covers_below m t s : stack_covers m (A_loop t :: s) → stack_covers m s.
Proof.
  intros [H1 H2]. split; intros x g Hg Hx.
  - specialize (H1 x g Hg Hx). by apply elem_of_cons in H1 as [[=]|H1].
  - specialize (H2 x g Hg Hx). by apply elem_of_cons in H2 as [[=]|H2].
Qed.

(** [resolve] returns to the coroutine that called it. *)
Lemma deliver_ok m t s (b : bool) g :
  machine_ok m → stack m = A_loop t :: s → frames m !! t = Some g →
  (if b then is_Some (result_ g) else result_ g = None ∧ resolving_ (pr g) = false) →
  safe (deliver b s m) machine_ok.
Proof.
  intros Hm Es Hg Hb. destruct (loop_context m t s Hm (or_introl Es))
    as (ρ & c & s' & f & g' & -> & Hok0 & Hd & Hst0 & Hcov0 & Hf & Hp & Hg' & Hs & Hl). simplify_eq.
  rewrite Es in Hcov0. apply covers_below in Hcov0. set (m0 := with_stack (A_run c :: s') m).
  assert (frames_ok ρ [] m0) as Hok by by apply with_stack_ok.
  assert (on_top m0 c s') as Hst.
  { destruct Hst0 as (r & Hcl & Hu). exists r. split.
    - eapply (climbs_agree Hok0); [|done]. eauto.
    - eapply (under_agree Hok0); [|done]. auto. }
  assert (stack_covers m0 (A_run c :: s')) as Hcov by by destruct Hcov0.
  assert (stack m0 = A_run c :: s') as Es0 by done.
  assert (Hgo : ∀ k, (∀ args k', code_ f ≠ first_after args k') → user_code k →
    machine_ok (set_frame c (with_code k) m0)).
  { intros k Hc Hk. by apply (go_on Hok Hst Hcov Es0 Hf Hp); [|apply upper_refl| |]. }
  pose proof (fo_code _ _ _ (fs_frame _ _ _ Hok0 c f Hf)) as Hu. unfold code_fits in Hu.
  destruct Hd as (f' & Hf' & _ & _ & Hd). assert (f' = f) as -> by congruence. clear Hf'.
  unfold deliver. rewrite Hf. cbn [need res_bind].
  destruct (code_ f) as [| | | | | | | | | | | | | | | | | | |t' k|t' k|k|args k|args tried rest k|args k] eqn:Hc; try done.
  - subst t'. destruct Hu as (_ & _ & Hk). destruct b; simpl.
    + change (machine_ok (set_frame c (with_code (await_resume t k)) m0)).
      apply (go_on_as Hok Hst Hcov Es0 Hf Hp); [apply upper_refl| |done].
      eapply set_code_ok; try done.
      * apply (kids_no_quorum Hok Hf). by rewrite Hc.
      * unfold code_fits. simpl. auto.
      * intros x y Hsx Hy. split; [|done]. intros k' [= <- _]. change (frames m !! t = Some y) in Hy. by simplify_eq.
    + destruct Hb as [Hr Hres]. change (safe (step_await_suspend c t k s' m0) machine_ok).
      apply (await_suspend_step Hok Hst Hcov Es0 Hf Hp t k g); try done. by rewrite Hc.
  - destruct Hu as (_ & Hk). simpl. change (machine_ok (set_frame c (with_code (k b)) m0)). by apply Hgo.
  - destruct rest as [|[i|e] rest]; [done| |done]. destruct Hd as [Hi Hnt]. destruct b; simpl.
    + rewrite Hi. simpl. rewrite Hg. simpl. destruct Hb as [r ->]. simpl.
      change (machine_ok (set_frame c (with_code (k (length tried) (Some r))) m0)).
      by apply (find_found Hok Hst Hcov Es0 Hf Hp _ _ _ _ _ _ Hc).
    + change (machine_ok (set_frame c (with_code (first_find args (tried ++ [arg_task i]) rest k)) m0)).
      apply (find_next Hok Hst Hcov Es0 Hf Hp _ _ _ _ _ Hc). intros i' t' y [= <-] Hi' Hy.
      rewrite Hi in Hi'. injection Hi' as <-. change (frames m !! t = Some y) in Hy. simplify_eq. apply Hb.
Qed.

(** [resolve] drives the coroutine past its resolution point. *)
Lemma drive_ok m t s g :
  machine_ok m → stack m = A_loop t :: s → frames m !! t = Some g → point_ g = at_resolve →
  machine_ok (with_stack (A_run t :: A_driven t :: s)
    (set_frame t (λ f, with_point running (with_pr (set_in_resolve_ true)
       (with_pr (set_resolution_ None) (with_pr (set_resolving_ false) f)))) m)).
Proof.
  intros Hm Es Hg Hat. destruct (loop_context m t s Hm (or_introl Es))
    as (ρ & c & s' & f & g' & -> & Hok & Hd & Hst & Hcov & Hf & Hp & Hg' & Hs & Hl). simplify_eq.
  rewrite Es in Hcov. apply covers_below in Hcov. pose proof (lk_rank _ _ _ _ _ _ Hl) as Hrank.
  set (h := λ f, with_point running _). set (m1 := set_frame t h m).
  pose proof (fs_frame _ _ _ Hok t g Hg) as Hgok. destruct (fo_at_resolve _ _ _ Hgok Hat) as [Hres Hna].
  assert (Hfr : ∀ x, frames m1 !! x = (if decide (x = t) then h else id) <$> frames m !! x) by (intros; apply set_frame_lookup).
  assert (frames m1 !! t = Some (h g)) as Hg1 by by rewrite Hfr, decide_True, Hg.
  assert (Hsame : ∀ x y, frames m !! x = Some y → x ≠ t → frames m1 !! x = Some y).
  { intros x y Hy Hx. by rewrite Hfr, decide_False, Hy. }
  pose proof (fo_code _ _ _ Hgok) as Hfits.
  split.
  - exists ρ. apply with_stack_ok. apply (reframe_ok _ _ _ _ _ Hok (set_frame_reframed t h m)).
    + intros x y Hy. case_decide as E; [subst; simplify_eq|done]. split; [done|]. intros [].
      split; try done; simpl.
      * split; [done|]. intros H. apply fo_final in H. congruence.
      * revert Hfits. unfold code_fits. simpl. rewrite Hat. destruct (code_ g); try done;
          (intros [H1 H2]; split; [auto|exact H2]).
    + intros a y x z Hy Hz Hsx Hlz. pose proof (lk_rank _ _ _ _ _ _ Hlz) as Hrk.
      destruct (decide (a = t)) as [->|Hat'].
      * simplify_eq. rewrite (decide_False (P := x = t)) by (intros ->; lia). destruct Hlz. split; try done; simpl.
        -- intros a Ha. destruct (lk_co a Ha) as [-> H]. split; [done|]. intros Hr. specialize (H Hr). congruence.
        -- intros q Hq. destruct (lk_ev q Hq) as (_ & (args & k & _ & _ & [?|?]) & _); congruence.
        -- intros k Hk. destruct (lk_resume k Hk) as [?|?]; [congruence|by right].
      * destruct (decide (x = t)) as [->|]; [|done]. simplify_eq. destruct Hlz. split; try done; simpl.
        intros q Hq. destruct (lk_ev q Hq) as (? & ? & _). done.
    + intros x y Hy. case_decide; simpl; tauto.
    + by intros d y _ ?%elem_of_nil.
    + intros x y e Hy Hpt _. case_decide; [subst; simplify_eq; congruence|done].
  - simpl. split.
    { exists (h g). simpl. split_and!; [done|done|]. revert Hfits. unfold code_fits.
      destruct (code_ g); try done; intros [? _]; congruence. }
    exists t. split; [eapply climb_top; [done|by apply Hna]|]. split; [done|]. split.
    + destruct Hd as (f' & Hf' & H). exists f'. split; [|done]. apply Hsame; [done|]. intros ->. simplify_eq. lia.
    + destruct Hst as (r & Hcl & Hu). pose proof (climbs_rank Hok _ _ Hcl). exists r. split.
      * eapply (climbs_agree Hok); [|done]. intros x y Hy Hx. exists y. split; [|done].
        apply Hsame; [done|]. intros ->. destruct Hx as [->|]; lia.
      * eapply (under_agree Hok); [|done]. intros x y Hy Hx. apply Hsame; [done|]. intros ->. lia.
  - destruct Hcov as [H1 H2].
    assert (Hback : ∀ x y, frames m1 !! x = Some y → x ≠ t → frames m !! x = Some y).
    { intros x y Hy Hx. rewrite Hfr, decide_False in Hy by done. by destruct (frames m !! x). }
    split; intros x y Hy Hx; simpl; change (frames m1 !! x = Some y) in Hy;
      (destruct (decide (x = t)) as [->|Hxt]; [|specialize (Hback x y Hy Hxt)]).
    + by left.
    + right. right. by apply (H1 x y).
    + right. by left.
    + right. right. by apply (H2 x y).
Qed.

Lemma step_loop_ok m t s :
  machine_ok m → stack m = A_loop t :: s → safe (step_loop t s m) machine_ok.
Proof.
  intros Hm Es. destruct (loop_context m t s Hm (or_introl Es))
    as (ρ & c & s' & f & g & -> & Hok & _ & _ & _ & _ & _ & Hg & _).
  destruct (done_result ρ m t g Hok Hg) as [Hd1 Hd2]. pose proof (fs_frame _ _ _ Hok t g Hg) as Hgok.
  unfold step_loop. rewrite Hg. cbn [need res_bind].
  destruct (is_done g) eqn:Hdone; [apply (deliver_ok m t _ true g); simpl; auto|].
  destruct (resolving_ (pr g)) eqn:Hres; cbn [negb]; [|apply (deliver_ok m t _ false g); auto].
  rewrite (fo_forwarded _ _ _ Hgok), (fo_forward _ _ _ Hgok), (fo_home _ _ _ Hgok), Nat.eqb_refl. simpl.
  assert (point_ g = at_resolve) as Hat.
  { destruct (fo_resolving _ _ _ Hgok Hres) as [H|H]; [|done]. unfold is_done in Hdone.
    by rewrite bool_decide_eq_true_2 in Hdone. }
  unfold run_on, enter. rewrite set_frame_twice, set_frame_lookup, decide_True, Hg by done. simpl. rewrite Hat. simpl.
  rewrite set_frame_twice. by eapply drive_ok.
Qed.

Lemma step_driven_ok m t s :
  machine_ok m → stack m = A_driven t :: s →
  machine_ok (with_stack (A_loop t :: s) (set_frame t (with_pr (set_in_resolve_ false)) m)).
Proof.
  intros Hm Es. destruct (loop_context m t s Hm (or_intror Es))
    as (ρ & c & s' & f & g & -> & Hok & Hd & Hst & Hcov & Hf & Hp & Hg & Hs & Hl).
  rewrite Es in Hcov. pose proof (lk_rank _ _ _ _ _ _ Hl) as Hrank.
  set (h := with_pr (set_in_resolve_ false)). set (m1 := set_frame t h m).
  assert (Hfr : ∀ x, frames m1 !! x = (if decide (x = t) then h else id) <$> frames m !! x) by (intros; apply set_frame_lookup).
  assert (Hsame : ∀ x y, frames m !! x = Some y → x ≠ t → frames m1 !! x = Some y).
  { intros x y Hy Hx. by rewrite Hfr, decide_False, Hy. }
  split.
  - exists ρ. apply with_stack_ok, set_quiet_ok; [done|done|]. intros y Hy. split.
    + apply (fo_resolution _ _ _ (fs_frame _ _ _ Hok t y Hy)).
    + apply (fo_interest _ _ _ (fs_frame _ _ _ Hok t y Hy)).
  - simpl. split; [|done]. split; [done|]. split.
    + destruct Hd as (f' & Hf' & H). exists f'. split; [|done]. apply Hsame; [done|]. intros ->. simplify_eq. lia.
    + destruct Hst as (r & Hcl & Hu). pose proof (climbs_rank Hok _ _ Hcl). exists r. split.
      * eapply (climbs_agree Hok); [|done]. intros x y Hy Hx. exists y. split; [|done].
        apply Hsame; [done|]. intros ->. destruct Hx as [->|]; lia.
      * eapply (under_agree Hok); [|done]. intros x y Hy Hx. apply Hsame; [done|]. intros ->. lia.
  - destruct Hcov as [H1 H2]. split; intros x y Hy Hx; simpl; change (frames m1 !! x = Some y) in Hy; rewrite Hfr in Hy;
      destruct (frames m !! x) as [y0|] eqn:Ey; try done; simpl in Hy; injection Hy as <-.
    + assert (point_ y0 = running) as Hr by by case_decide. specialize (H1 x y0 Ey Hr).
      apply elem_of_cons in H1 as [[=]|H1]. by right.
    + case_decide as E; [done|]. specialize (H2 x y0 Ey Hx). apply elem_of_cons in H2 as [[= ->]|H2]; [done|by right].
Qed.

Lemma step_ok m : machine_ok m → moves_unawaited m = true → safe (step m) machine_ok.
Proof.
  intros Hm Hmoves. unfold step. destruct (stack m) as [|[c|t|t|t] s] eqn:Es; [done| | | |].
  - by apply step_run_ok.
  - by apply step_loop_ok.
  - destruct Hm as [_ Hst _]. by rewrite Es in Hst.
  - destruct (loop_context m t s Hm (or_intror Es)) as (ρ & c & s' & f & g & -> & _ & _ & _ & _ & _ & _ & Hg & _).
    unfold promise_of. rewrite Hg. simpl. by apply step_driven_ok.
Qed.
