(* ===== verification/TaskSafety.v ===== *)
(** What the protocol of tasks guarantees to programs whose bodies own the
    tasks they await and do not forward: no step is stuck, no wakeup is lost,
    and an idle program waits only for events that have not triggered.  The
    states are those that commands from outside and steps of the machine
    reach. *)

From S2P Require Import Prelude Tasks TaskInvariant TaskSteps.

(** ** Commands *)

(** A coroutine leaves its event. *)
Lemma wake_ok ρ m c f e :
  frames_ok ρ [] m → frames m !! c = Some f → point_ f = at_event e →
  frames_ok ρ [] (set_frame c (with_point running) (remove_listener c e m)).
Proof.
  intros Hok Hf Hat. set (m' := set_frame _ _ _).
  assert (Hof : ∀ x, ev_triggered (ev_of m' x) = ev_triggered (ev_of m x) ∧
    ev_quorums (ev_of m' x) = ev_quorums (ev_of m x) ∧ ev_race (ev_of m' x) = ev_race (ev_of m x) ∧
    ∀ y, y ∈ ev_listeners (ev_of m' x) ↔ y ∈ ev_listeners (ev_of m x) ∧ (x = e → y ≠ c)).
  { intros x. change (ev_of m' x) with (ev_of (remove_listener c e m) x). rewrite remove_listener_of.
    case_decide as E; [subst|by split_and!; try done; intros y; tauto]. simpl. split_and!; try done.
    intros y. rewrite list_elem_of_filter. tauto. }
  assert (Hrd : ∀ y, y ∈ ready m' ↔ y ∈ ready m ∧ y ≠ c).
  { intros y. simpl. rewrite list_elem_of_filter. tauto. }
  assert (Hcf : ∀ g, code_fits m g → code_fits m' g).
  { intros g. apply code_fits_mono; [done| |].
    - intros x _. by destruct (Hof x) as (_ & _ & -> & _).
    - intros x q _ _. unfold joins. by destruct (Hof x) as (-> & -> & _), (Hof q) as (-> & _ & _). }
  apply (evolve_ok ρ [] (λ x, if decide (x = c) then with_point running else id) m m' Hok).
  pose proof Hok as []. split; try done.
  - intros x. exact (set_frame_lookup c (with_point running) (remove_listener c e m) x).
  - intros x g Hg []. case_decide as E; [subst; simplify_eq|]; (split; [done|split; try done; try (by apply Hcf)]).
    + split; [done|]. intros H. simpl in H. apply fo_final in H. congruence.
    + intros H. destruct (fo_resolving H); congruence.
    + apply Hcf. revert fo_code. unfold code_fits. simpl. rewrite Hat. destruct (code_ f); try done;
        (intros [H1 H2]; split; [auto|exact H2]).
    + intros y Hy. destruct (fo_at_event y Hy) as [H1 H2]. split; [done|]. destruct (Hof y) as (-> & _ & _ & Hl).
      destruct (ev_triggered (ev_of m y)); [by apply Hrd|by apply Hl].
  - intros a g t h Hg Hh Hs Hl. assert (link ρ m' a ((if decide (a = c) then with_point running else id) g) t h) as L;
      [|destruct (decide (t = c)); [by destruct L|done]].
    destruct Hl. case_decide as E; [subst; simplify_eq|]; split; try done; simpl.
    + intros b Ha. destruct (lk_co b Ha) as [-> H]. split; [done|]. intros Hr. specialize (H Hr). congruence.
    + intros q Hq. destruct (lk_ev q Hq) as (H1 & (args & k & H2 & H3 & _) & H4).
      destruct (Hof q) as (-> & _). split_and!; [done| |done]. exists args, k. split_and!; [done|done|by right].
    + intros k Hk. destruct (lk_resume k Hk); [congruence|by right].
    + intros q Hq. destruct (lk_ev q Hq) as (H1 & H2 & H3). by destruct (Hof q) as (-> & _).
  - intros t g Hg. case_decide; simpl; tauto.
  - intros d g _ ?%elem_of_nil. done.
  - intros x Hx. destruct (fo_at_event _ _ _ (fs_frame c f Hf) e Hat) as [Hlt _].
    simpl. rewrite lookup_insert_ne by lia. by apply fs_events.
  - intros x [Hx Hne]%Hrd. destruct (fs_ready x Hx) as (g & y & Hg & Hpt & Hy). exists g, y.
    rewrite decide_False by done. by destruct (Hof y) as (-> & _).
  - intros y x Hx. destruct (Hof y) as (-> & _ & _ & Hl). apply Hl in Hx as [Hx Hne].
    destruct (fs_listeners y x Hx) as (g & Hg & Hpt & Hy). exists g. rewrite decide_False; [done|].
    intros ->. simplify_eq. by apply Hne; congruence.
  - intros x q. destruct (Hof x) as (_ & -> & -> & _), (Hof q) as (_ & _ & -> & _). apply fs_quorums.
Qed.

(** A coroutine that the outside calls. *)
Lemma outside_call_ok ρ m body s :
  frames_ok ρ [] m → user_code body →
  frames_ok ρ [] (mk_machine (<[next_frame m := mk_frame (new_promise (current m)) body running [] None]> (frames m))
    (events m) (ready m) s (S (next_frame m)) (next_event m) (current m) (effects m)).
Proof.
  intros Hok Hb. set (child := mk_frame _ _ _ _ _). set (t := next_frame m). set (m' := mk_machine _ _ _ _ _ _ _ _).
  pose proof Hok as []. assert (Hnew : ∀ x g, frames m !! x = Some g → x ≠ t).
  { intros x g Hg ->. specialize (fs_fresh _ _ Hg). unfold t in *. lia. }
  assert (Hback : ∀ x g', frames m' !! x = Some g' → x = t ∧ g' = child ∨ x ≠ t ∧ frames m !! x = Some g').
  { intros x g'. simpl. destruct (decide (x = t)) as [->|Hx]; [rewrite lookup_insert_eq; intros [= <-]; auto|].
    rewrite lookup_insert_ne by done. auto. }
  assert (Hforth : ∀ x g, frames m !! x = Some g → frames m' !! x = Some g).
  { intros x g Hg. simpl. rewrite lookup_insert_ne; [done|]. apply not_eq_sym. by eapply Hnew. }
  split; try done.
  - intros x g' [[-> ->]|[Hx Hg]]%Hback.
    + split; try done; [by split; [|intros [? ?]]|by apply user_code_fits].
    + destruct (fs_frame x g' Hg). split; try done.
  - intros x g' y [[-> ->]|[Hx Hg]]%Hback Hs; [by apply elem_of_nil in Hs|].
    destruct (fs_link x g' y Hg Hs) as (g & Hgy & Hl). exists g. split; [by apply Hforth|]. by destruct Hl.
  - intros x g' [[-> ->]|[Hx Hg]]%Hback Ha _; [by destruct Ha|].
    destruct (fs_owner x g' Hg Ha) as (a & h & Hh & Hs); [apply not_elem_of_nil|]. exists a, h. auto.
  - intros c1 g1 i1 c2 g2 i2 y [[-> ->]|[Hx1 Hg1]]%Hback [[-> ->]|[Hx2 Hg2]]%Hback; try done. by eapply fs_unique.
  - by intros x ?%elem_of_nil.
  - intros x g' [[-> ->]|[Hx Hg]]%Hback; simpl; [unfold t; lia|]. specialize (fs_fresh x g' Hg). lia.
  - intros x Hx. destruct (fs_ready x Hx) as (g & e & Hg & ?). exists g, e. auto.
  - intros e x Hx. destruct (fs_listeners e x Hx) as (g & Hg & ?). exists g. auto.
Qed.

Lemma idle_machine_ok ρ m m' : machine_ok m → stack m = [] → frames_ok ρ [] m' → upper ρ 0 m m' → machine_ok m'.
Proof.
  intros [_ _ [H1 H2]] Es Hok Hup. pose proof (up_stack _ _ _ _ Hup) as Es'. rewrite Es in *. split; [by exists ρ|by rewrite Es'|].
  rewrite Es'. split; intros x g' Hg' Hx; destruct (up_back _ _ _ _ Hup x g' Hg') as (g & Hg & Hr & Hd).
  - specialize (H1 x g Hg (Hr Hx)). by apply elem_of_nil in H1.
  - specialize (H2 x g Hg (Hd Hx)). by apply elem_of_nil in H2.
Qed.

Lemma idle_destroy ρ m m0 t :
  machine_ok m → stack m = [] → frames_ok ρ [t] m0 → upper ρ 0 m m0 → safe (destroy t m0) machine_ok.
Proof.
  intros Hm Es Hok Hup. destruct (destroy_frame_ok ρ m0 t Hok) as (m2 & -> & Hok2 & Hds & _).
  - intros x g Hg _ Hr. destruct (up_back _ _ _ _ Hup x g Hg) as (g0 & Hg0 & Hr0 & _).
    destruct Hm as [_ _ [H1 _]]. rewrite Es in H1. specialize (H1 x g0 Hg0 (Hr0 Hr)). by apply elem_of_nil in H1.
  - simpl. eapply idle_machine_ok; [done..|]. eapply upper_trans; [done|].
    eapply upper_weaken; [by apply destroyed_upper|lia].
Qed.

Lemma held_outside_spec ρ m t :
  machine_ok m → stack m = [] → frames_ok ρ [] m → held_outside m t = true →
  ∃ g, frames m !! t = Some g ∧ frames_ok ρ [t] m ∧ awaiter_ (pr g) = nobody.
Proof.
  intros [_ _ [H1 _]] Es Hok. unfold held_outside. destruct (frames m !! t) as [g|] eqn:Hg; [|done].
  intros [_ Hno%bool_decide_eq_true]%andb_true_iff. exists g. split; [done|].
  assert (∀ a h, frames m !! a = Some h → Some t ∉ slots h) as Hun by (intros a h Hh; by apply (Hno a h)).
  split.
  - eapply doom_ok; [done..| |done]. intros Hr. rewrite Es in H1. specialize (H1 t g Hg Hr). by apply elem_of_nil in H1.
  - destruct (awaiter_ (pr g)) eqn:Ea; [done|exfalso..];
      (destruct (fs_owner _ _ _ Hok t g Hg) as (a & h & Hh & Hs); [by rewrite Ea|apply not_elem_of_nil|by apply (Hun a h)]).
Qed.

Lemma command_ok x m :
  machine_ok m → stack m = [] → user_command x → safe (apply_command x m) machine_ok.
Proof.
  intros Hm Es Hx. pose proof Hm as [[ρ Hok] _ Hcov]. rewrite Es in Hcov.
  assert (Hnone : ∀ c f, frames m !! c = Some f → point_ f ≠ running ∧ in_resolve_ (pr f) = false).
  { destruct Hcov as [H1 H2]. intros c f Hf. split.
    - intros Hr. specialize (H1 c f Hf Hr). by apply elem_of_nil in H1.
    - destruct (in_resolve_ (pr f)) eqn:E; [|done]. specialize (H2 c f Hf E). by apply elem_of_nil in H2. }
  destruct x as [body|e| |t|t|t]; simpl.
  - split; [exists ρ; by apply outside_call_ok| |].
    + simpl. split.
      { eexists. split; [apply lookup_insert_eq|]. simpl. split; [done|]. by destruct body. }
      exists (next_frame m). split; [|done]. eapply climb_top; [apply lookup_insert_eq|done].
    + simpl. split; intros c f Hf Hc; destruct (decide (c = next_frame m)) as [->|Hne]; try (by left);
        simpl in Hf; [|rewrite lookup_insert_eq in Hf; by injection Hf as <-|];
        rewrite lookup_insert_ne in Hf by done; destruct (Hnone c f Hf); congruence.
  - destruct (good_event m e) eqn:He; [|done]. apply good_event_true in He as [He _].
    pose proof (trigger_signalled ρ [] e m Hok He) as Hs. simpl. eapply idle_machine_ok; [done..|apply Hs|].
    by eapply signalled_upper.
  - destruct (ready m) as [|c l] eqn:Er; [done|].
    destruct (fs_ready _ _ _ Hok c) as (f & e & Hf & Hat & He); [rewrite Er; by left|].
    unfold run_on, enter. rewrite Hf. simpl. rewrite Hat. simpl. set (m1 := set_frame _ _ _).
    pose proof (wake_ok ρ m c f e Hok Hf Hat) as Hok1. fold m1 in Hok1.
    assert (frames m1 !! c = Some (with_point running f)) as Hf1.
    { unfold m1. rewrite set_frame_lookup, decide_True by done. simpl. by rewrite Hf. }
    split; [exists ρ; by apply with_stack_ok| |].
    + simpl. split.
      * exists (with_point running f). split_and!; [done|done|]. pose proof (fo_code _ _ _ (fs_frame _ _ _ Hok c f Hf)) as Hc.
        unfold code_fits in Hc. simpl. destruct (code_ f); try done; destruct Hc; congruence.
      * destruct (climbs_exists Hok1 c (with_point running f) Hf1) as [r Hr]. exists r. split; [|done].
        eapply (climbs_agree Hok1); [|done]. eauto.
    + simpl. split; intros y g Hg Hy; change (frames m1 !! y = Some g) in Hg; unfold m1 in Hg; rewrite set_frame_lookup in Hg;
        simpl in Hg; destruct (frames m !! y) as [g0|] eqn:Eg; try done; simpl in Hg; injection Hg as <-;
        destruct (Hnone y g0 Eg); case_decide; subst; try (by left); simpl in Hy; congruence.
  - destruct (held_outside m t) eqn:Ht; [|done]. destruct (held_outside_spec ρ m t Hm Es Hok Ht) as (g & Hg & _).
    destruct (start_task_ok ρ 0 m t g Hok Hg) as (m1 & -> & Hok1 & Hup & _); [lia|]. by eapply idle_machine_ok.
  - destruct (held_outside m t) eqn:Ht; [|done]. destruct (held_outside_spec ρ m t Hm Es Hok Ht) as (g & Hg & Hdoom & Ha).
    set (m1 := set_frame t (with_pr (set_detached_ true)) m).
    assert (frames m1 !! t = Some (with_pr (set_detached_ true) g)) as Hg1.
    { unfold m1. by rewrite set_frame_lookup, decide_True, Hg. }
    assert (upper ρ 0 m m1) as Hup by (apply upper_set_frame; [lia|by intros]).
    pose proof (doomed_detach ρ m t Hdoom) as Hok1. fold m1 in Hok1.
    unfold promise_of. rewrite Hg1. simpl. destruct (resolving_ (pr g)); [by eapply idle_destroy|].
    simpl. eapply idle_machine_ok; [done..| |done]. eapply spare_ok; [done|]. intros y Hy. rewrite Hg1 in Hy. by injection Hy as <-.
  - destruct (held_outside m t) eqn:Ht; [|done]. destruct (held_outside_spec ρ m t Hm Es Hok Ht) as (g & Hg & Hdoom & _).
    eapply idle_destroy; [done..|apply upper_refl].
Qed.

(** ** Runs *)

(** What programs that follow the rules reach: a step of the machine while it
    runs, a command while it is idle. *)
Inductive reachable : machine → Prop :=
  | reach_empty : reachable empty_machine
  | reach_step m m' : reachable m → moves_unawaited m = true → step m = Ok_ m' → reachable m'
  | reach_command x m m' : reachable m → stack m = [] → user_command x → apply_command x m = Ok_ m' → reachable m'.

Lemma empty_ok : machine_ok empty_machine.
Proof.
  split.
  - exists id. split; try (intros *; simpl; rewrite ?lookup_empty; intros *; done).
    + intros d Hd. by apply elem_of_nil in Hd.
    + constructor.
    + intros c Hc. by apply elem_of_nil in Hc.
    + intros e c. unfold ev_of. simpl. intros Hc. by apply elem_of_nil in Hc.
    + intros e q. unfold ev_of. simpl. intros Hc. by apply elem_of_nil in Hc.
  - done.
  - done.
Qed.

Lemma reachable_machine_ok m : reachable m → machine_ok m.
Proof.
  induction 1 as [|m m' _ IH Hmv E|x m m' _ IH Es Hx E]; [apply empty_ok| |].
  - pose proof (step_ok m IH Hmv) as H. by rewrite E in H.
  - pose proof (command_ok x m IH Es Hx) as H. by rewrite E in H.
Qed.

(** ** No step is a misuse of its own making *)

(** What the body on top names exists. *)
Definition names_exist (m : machine) : bool :=
  match stack m with
  | A_run c :: _ =>
      match frames m !! c with
      | Some f =>
          match code_ f with
          | trigger_event e _ | await_event (Some e) _ => good_event m e
          | await_task i _ | forward_task i _ => bool_decide (is_Some (slot_task f i))
          | first_of args _ => forallb (good_arg m) args
          | _ => true
          end
      | None => true
      end
  | _ => true
  end.

Definition command_fits (x : command) (m : machine) : bool :=
  match x with
  | X_trigger e => good_event m e
  | X_start t | X_detach t | X_destroy t => held_outside m t
  | X_call _ | X_resume => true
  end.

Definition proper {A} (x : res A) : Prop := match x with Misuse => False | _ => True end.

Lemma proper_bind {A B} (x : res A) (f : A → res B) : proper x → (∀ a, proper (f a)) → proper (res_bind x f).
Proof. by destruct x; simpl. Qed.

Lemma proper_need {A} (x : option A) : proper (need x).
Proof. by destruct x. Qed.

Create HintDb proper_db.
#[local] Hint Resolve proper_need : proper_db.
#[local] Hint Extern 0 (proper (Ok_ _)) => exact I : proper_db.
#[local] Hint Extern 0 (proper Stuck) => exact I : proper_db.
#[local] Hint Extern 0 (proper Terminate) => exact I : proper_db.

Ltac proper :=
  repeat first
    [ solve [auto with proper_db]
    | apply proper_bind; [|intros ?]
    | progress cbn beta iota zeta
    | case_match ].

Lemma proper_promise_of m c : proper (promise_of m c).
Proof. unfold promise_of. proper. Qed.
#[local] Hint Resolve proper_promise_of : proper_db.

Lemma proper_active m c : proper (active_awaiter m c).
Proof.
  unfold active_awaiter. apply proper_bind; [proper|]. intros p. generalize (awaiter_ p) (S (base.size (frames m))).
  intros a n. revert a. induction n as [|n IH]; intros a; simpl; destruct a; proper.
Qed.

Lemma proper_resolution_point c m : proper (resolution_point c m).
Proof.
  unfold resolution_point. generalize (S (base.size (frames m))). intros n. revert c m.
  induction n as [|n IH]; intros c m; simpl; proper.
Qed.

Lemma proper_destroy_one c m : proper (destroy_one c m).
Proof. unfold destroy_one. proper. Qed.
#[local] Hint Resolve proper_active proper_resolution_point proper_destroy_one : proper_db.

Lemma proper_destroy c m : proper (destroy c m).
Proof.
  unfold destroy. generalize (base.size (frames m)) [c]. intros n. revert m.
  induction n as [|n IH]; intros m l; destruct l; simpl; proper.
Qed.

Lemma proper_run_on c s m : proper (run_on c s m).
Proof. unfold run_on, enter. proper. Qed.
#[local] Hint Resolve proper_destroy proper_run_on : proper_db.

Lemma proper_start t m : proper (start t m).
Proof. unfold start. proper. Qed.
#[local] Hint Resolve proper_start : proper_db.

Lemma proper_start_all ts m : proper (start_all ts m).
Proof.
  unfold start_all. assert (proper (Ok_ m)) as H by done. revert H. generalize (Ok_ m). 
  induction ts as [|t ts IH]; intros r Hr; simpl; [done|]. apply IH. apply proper_bind; [done|]. intros. apply proper_start.
Qed.

Lemma proper_await_event c e k s m : proper (step_await_event c e k s m).
Proof. unfold step_await_event. proper. Qed.

Lemma proper_await_resolve c k s m : proper (step_await_resolve c k s m).
Proof. unfold step_await_resolve. proper. Qed.

Lemma proper_await_suspend c t k s m : proper (step_await_suspend c t k s m).
Proof. unfold step_await_suspend, prepare_awaiter. proper. Qed.

Lemma proper_final c r s m : proper (step_final c r s m).
Proof. unfold step_final. proper. Qed.

Lemma proper_result_of m f a : proper (result_of m f a).
Proof. unfold result_of. proper. Qed.
#[local] Hint Resolve proper_start_all proper_await_event proper_await_resolve proper_await_suspend
  proper_final proper_result_of : proper_db.

Lemma proper_first_find c args tried rest k s m : proper (step_first_find c args tried rest k s m).
Proof. unfold step_first_find. proper. Qed.

Lemma proper_call c body moved k s m : proper (step_call c body moved k s m).
Proof. unfold step_call. proper. Qed.

Lemma proper_clear t m : proper (clear_awaiter t m).
Proof. unfold clear_awaiter. proper. Qed.

Lemma proper_interest c m : proper (make_interest c m).
Proof. unfold make_interest. proper. Qed.

Lemma proper_resolution t m : proper (resolution t m).
Proof. unfold resolution. proper. Qed.

Lemma proper_deliver b s m : proper (deliver b s m).
Proof. unfold deliver. proper. Qed.
#[local] Hint Resolve proper_first_find proper_call proper_clear proper_interest proper_resolution proper_deliver : proper_db.

Lemma step_proper m : names_exist m = true → proper (step m).
Proof.
  unfold names_exist, step. destruct (stack m) as [|[c|t|t|t] s]; intros H; try done.
  - unfold step_run. destruct (frames m !! c) as [f|]; simpl; [|done].
    destruct (code_ f); simpl; proper; try congruence; by apply bool_decide_eq_true in H as [? ?].
  - unfold step_loop. proper.
  - proper.
Qed.

Lemma command_proper x m : command_fits x m = true → proper (apply_command x m).
Proof. destruct x; simpl; intros H; rewrite ?H; proper. Qed.

(** ** Theorems *)

(** C16 The protocol of tasks is safe: in every state that a program reaches
    whose bodies own the tasks they await and do not forward, the next step
    succeeds; the runtime resumes no coroutine that is not suspended, reads no
    missing result, touches no freed frame, and no exception leaves
    [await_ready].  The same holds for what the program does outside the
    coroutines. *)
Theorem tasks_never_stuck m :
  reachable m →
  (moves_unawaited m = true → names_exist m = true → ∃ m', step m = Ok_ m') ∧
  (stack m = [] → ∀ x, user_command x → command_fits x m = true → ∃ m', apply_command x m = Ok_ m').
Proof.
  intros Hm%reachable_machine_ok. split.
  - intros Hmv Hn. pose proof (step_ok m Hm Hmv) as H1. pose proof (step_proper m Hn) as H2.
    destruct (step m); [eauto|done..].
  - intros Es x Hx Hfit. pose proof (command_ok x m Hm Es Hx) as H1. pose proof (command_proper x m Hfit) as H2.
    destruct (apply_command x m); [eauto|done..].
Qed.

(** What a suspended coroutine waits for. *)
Definition waits (m : machine) (c : nat) (f : frame) : Prop :=
  match point_ f with
  | running => False
  | at_final => is_Some (result_ f) ∧ resolving_ (pr f) = true
  | at_resolve =>
      resolving_ (pr f) = true ∧ (∀ a, awaiter_ (pr f) ≠ coroutine a) ∧
      ∀ q, awaiter_ (pr f) = quorum_event q → ev_triggered (ev_of m q) = true
  | at_task t =>
      ∃ g, frames m !! t = Some g ∧ Some t ∈ slots f ∧ awaiter_ (pr g) = coroutine c ∧
        result_ g = None ∧ resolving_ (pr g) = false
  | at_event e =>
      if ev_triggered (ev_of m e) then c ∈ ready m
      else c ∈ ev_listeners (ev_of m e) ∧
        ∀ args k, code_ f = first_after args k →
          (∀ x, arg_event x ∈ args → ev_triggered (ev_of m x) = false) ∧
          ∀ t g, t ∈ arg_tasks f args → frames m !! t = Some g →
            awaiter_ (pr g) = quorum_event e ∧ resolving_ (pr g) = false ∧ result_ g = None
  end.

Lemma not_resolving_unfinished m t g :
  frame_ok m t g → resolving_ (pr g) = false → result_ g = None.
Proof.
  intros Hg Hr. destruct (result_ g) eqn:E; [|done].
  rewrite (fo_final_resolving _ _ _ Hg) in Hr; [done|]. apply (fo_final _ _ _ Hg). by rewrite E.
Qed.

(** C17 No wakeup is lost.  When the program is idle, each coroutine waits for
    what can still wake it: an event that has not triggered and has it among
    its listeners, or one that has and the driver will resume it; a task it
    owns, whose awaiter it is, which has neither ended nor reached a resolution
    point; a race whose events have not triggered and whose tasks are not
    resolvable.  One that stands at [resolve{}] is awaited by no coroutine, and
    the race that holds it, if any, has been triggered. *)
Theorem tasks_no_lost_wakeup m c f :
  reachable m → stack m = [] → frames m !! c = Some f → waits m c f.
Proof.
  intros Hm%reachable_machine_ok Es Hf. destruct Hm as [[ρ Hok] _ [Hrun _]]. rewrite Es in Hrun.
  pose proof (fs_frame _ _ _ Hok c f Hf) as Hfok. unfold waits. destruct (point_ f) as [|e| |t|] eqn:Hp.
  - specialize (Hrun c f Hf Hp). by apply elem_of_nil in Hrun.
  - destruct (fo_at_event _ _ _ Hfok e Hp) as [_ H]. destruct (ev_triggered (ev_of m e)) eqn:Et; [done|].
    split; [done|]. intros args k Hc. pose proof (fo_code _ _ _ Hfok) as Hfits. unfold code_fits in Hfits.
    rewrite Hc in Hfits. destruct Hfits as [[?|(q & Hq & Hj)] _]; [congruence|]. assert (q = e) as -> by congruence.
    split.
    + intros x Hx. specialize (Hj x Hx). unfold joins in Hj. destruct (ev_triggered (ev_of m x)); congruence.
    + intros t g Ht Hg. destruct (fs_link _ _ _ Hok c f t Hf) as (g' & Hg' & Hl); [by eapply arg_tasks_owned|].
      assert (g' = g) as -> by congruence. pose proof (lk_wait _ _ _ _ _ _ Hl args k e Hc Hp Ht) as Ha.
      destruct (lk_ev _ _ _ _ _ _ Hl e Ha) as (_ & _ & Hres).
      assert (resolving_ (pr g) = false) as Hr by (destruct (resolving_ (pr g)); [by rewrite Hres in Et|done]).
      split_and!; [done|done|]. eapply not_resolving_unfinished; [|done]. by apply (fs_frame _ _ _ Hok t g).
  - destruct (fo_at_resolve _ _ _ Hfok Hp) as [Hr Hn]. split_and!; [done|done|]. intros q Hq.
    destruct (quorum_known ρ m c f q Hok Hf Hq) as (_ & a & g & _ & _ & Hl). by destruct (lk_ev _ _ _ _ _ _ Hl q Hq) as (_ & _ & ?); auto.
  - destruct (fo_at_task _ _ _ Hfok t Hp) as [Hs _]. destruct (fs_link _ _ _ Hok c f t Hf Hs) as (g & Hg & Hl).
    destruct (lk_at _ _ _ _ _ _ Hl Hp) as [Hr Ha]. exists g. split_and!; try done.
    destruct (resolving_ (pr g)) eqn:E; [|done]. pose proof (fs_frame _ _ _ Hok t g Hg) as Hgok.
    destruct (fo_resolving _ _ _ Hgok E) as [H|H].
    + apply (fo_final _ _ _ Hgok) in H. rewrite Hr in H. by destruct H.
    + destruct (fo_at_resolve _ _ _ Hgok H) as [_ Hn]. by destruct (Hn c).
  - split; [by apply (fo_final _ _ _ Hfok)|]. by apply (fo_final_resolving _ _ _ Hfok).
Qed.

(** What a coroutine sleeps on in the end. *)
Inductive sleeps_on (m : machine) : nat → nat → Prop :=
  | sleep_event c f e : frames m !! c = Some f → point_ f = at_event e → sleeps_on m c e
  | sleep_task c f t e : frames m !! c = Some f → point_ f = at_task t → sleeps_on m t e → sleeps_on m c e.

Lemma rank_bounded {A} (ρ : nat → nat) (fs : gmap nat A) : ∃ n, ∀ c, is_Some (fs !! c) → (ρ c ≤ n)%nat.
Proof.
  induction fs as [|c f fs Hc IH] using map_ind.
  - exists 0%nat. intros c [f Hf]. by rewrite lookup_empty in Hf.
  - destruct IH as [n Hn]. exists (max n (ρ c)). intros x [g Hg]. apply lookup_insert_Some in Hg as [[<- _]|[_ Hg]]; [lia|].
    specialize (Hn x ltac:(by eexists)). lia.
Qed.

(** C18 The program only waits for the outside: when it is idle and the driver
    has nothing to resume, every coroutine has ended, or stands at
    [resolve{}] for somebody to consume it, or waits, through the tasks it
    awaits, on an event that has not triggered. *)
Theorem tasks_sleep_on_events m c f :
  reachable m → stack m = [] → ready m = [] → frames m !! c = Some f →
  point_ f = at_final ∨ point_ f = at_resolve ∨ ∃ e, sleeps_on m c e ∧ ev_triggered (ev_of m e) = false.
Proof.
  intros Hm Es Er Hf. pose proof (reachable_machine_ok m Hm) as [[ρ Hok] _ _]. destruct (rank_bounded ρ (frames m)) as [n Hn].
  remember (n - ρ c)%nat as d eqn:Ed. revert c f Hf Ed. induction (lt_wf d) as [d _ IH]. intros c f Hf ->.
  pose proof (reachable_machine_ok m Hm) as [_ _ [Hrun _]]. rewrite Es in Hrun.
  pose proof (fs_frame _ _ _ Hok c f Hf) as Hfok. destruct (point_ f) as [|e| |t|] eqn:Hp; [| |by auto| |by auto].
  - specialize (Hrun c f Hf Hp). by apply elem_of_nil in Hrun.
  - right; right. exists e. split; [by eapply sleep_event|].
    destruct (fo_at_event _ _ _ Hfok e Hp) as [_ H]. destruct (ev_triggered (ev_of m e)); [|done].
    rewrite Er in H. by apply elem_of_nil in H.
  - destruct (fo_at_task _ _ _ Hfok t Hp) as [Hs _]. destruct (fs_link _ _ _ Hok c f t Hf Hs) as (g & Hg & Hl).
    destruct (lk_at _ _ _ _ _ _ Hl Hp) as [Hr Ha]. pose proof (lk_rank _ _ _ _ _ _ Hl).
    specialize (Hn t ltac:(by eexists)). pose proof (fs_frame _ _ _ Hok t g Hg) as Hgok.
    destruct (IH (n - ρ t)%nat ltac:(lia) t g Hg eq_refl) as [H1|[H1|(e & H1 & H2)]].
    + apply (fo_final _ _ _ Hgok) in H1 as [r H1]. congruence.
    + destruct (fo_at_resolve _ _ _ Hgok H1) as [_ Hna]. by destruct (Hna c).
    + right; right. exists e. split; [by eapply sleep_task|done].
Qed.

(** ** Reaching a state *)

(** A run whose bodies follow the rules. *)
Fixpoint checked_run (fuel : nat) (m : machine) : option machine :=
  match stack m, fuel with
  | [], _ => Some m
  | _, O => None
  | _, S fuel' =>
      if moves_unawaited m then match step m with Ok_ m' => checked_run fuel' m' | _ => None end else None
  end.

Fixpoint checked_commands (fuel : nat) (xs : list command) (m : machine) : option machine :=
  match xs with
  | [] => Some m
  | x :: xs' =>
      match apply_command x m with
      | Ok_ m' => m'' ← checked_run fuel m'; checked_commands fuel xs' m''
      | _ => None
      end
  end.

Lemma checked_run_reachable fuel m m' :
  reachable m → checked_run fuel m = Some m' → reachable m' ∧ stack m' = [].
Proof.
  revert m. induction fuel as [|fuel IH]; intros m Hm; simpl; (destruct (stack m) as [|a s] eqn:Es;
    [by intros [= <-]|]); [done|].
  destruct (moves_unawaited m) eqn:Hmv; [|done]. destruct (step m) as [m1| | |] eqn:E; try done.
  apply IH. by eapply reach_step.
Qed.

Lemma checked_reachable fuel xs m m' :
  reachable m → stack m = [] → Forall user_command xs → checked_commands fuel xs m = Some m' →
  reachable m' ∧ stack m' = [].
Proof.
  revert m. induction xs as [|x xs IH]; intros m Hm Es Hxs; simpl; [by intros [= <-]|].
  apply Forall_cons in Hxs as [Hx Hxs]. destruct (apply_command x m) as [m1| | |] eqn:E; try done.
  destruct (checked_run fuel m1) as [m2|] eqn:E2; simpl; [|done].
  assert (reachable m1) as Hm1 by by eapply reach_command.
  destruct (checked_run_reachable fuel m1 m2 Hm1 E2). by apply IH.
Qed.

(** A coroutine that awaits a child, which waits for an event; and one that
    awaits a race of a receiver and an event. *)
Definition sleeper : code :=
  make_event (λ e, call (await_event (Some e) (co_return (value 7))) [] (await_task 0 (λ r, co_return r))).
Definition racers : code :=
  call (make_event (λ e, call (await_event (Some e) (await_resolve (co_return (value 1)))) []
    (first_of [arg_task 0; arg_event e] (λ i r, co_return (value (Z.of_nat i)))))) []
  (await_task 0 (λ r, co_return r)).

Definition after_commands (xs : list command) : machine :=
  default empty_machine (checked_commands 100 xs empty_machine).

Lemma sleeper_reached xs :
  Forall user_command xs → is_Some (checked_commands 100 xs empty_machine) →
  reachable (after_commands xs) ∧ stack (after_commands xs) = [].
Proof.
  intros Hxs [m Hm]. unfold after_commands. rewrite Hm. simpl.
  by apply (checked_reachable 100 xs empty_machine m reach_empty).
Qed.

Definition sleeping : machine := after_commands [X_call sleeper; X_call racers].

Lemma sleeping_reached : reachable sleeping ∧ stack sleeping = [].
Proof. apply sleeper_reached; [repeat constructor|by vm_compute; eexists]. Qed.

(** Where its five coroutines are; event 2 is the quorum of the race. *)
Example sleeping_points :
  (λ c, point_ <$> frames sleeping !! c) <$> [0; 1; 2; 3; 4]%nat =
  [Some (at_task 1); Some (at_event 0); Some (at_task 3); Some (at_event 2); Some (at_event 1)].
Proof. by vm_compute. Qed.

Definition started : machine :=
  match apply_command (X_call sleeper) empty_machine with Ok_ m => m | _ => empty_machine end.

Lemma started_reached : reachable started.
Proof. apply (reach_command (X_call sleeper) empty_machine); [constructor|done|by simpl|done]. Qed.

Lemma tasks_never_stuck_witness :
  (∃ m', step started = Ok_ m') ∧ (∃ m', apply_command (X_trigger 0) sleeping = Ok_ m').
Proof.
  split.
  - apply (tasks_never_stuck started started_reached); by vm_compute.
  - apply (tasks_never_stuck sleeping (proj1 sleeping_reached)); [apply (proj2 sleeping_reached)|exact I|by vm_compute].
Defined.

Lemma tasks_no_lost_wakeup_witness :
  match frames sleeping !! 0%nat, frames sleeping !! 3%nat with
  | Some f0, Some f2 => waits sleeping 0 f0 ∧ waits sleeping 3 f2
  | _, _ => False
  end.
Proof.
  destruct (frames sleeping !! 0%nat) as [f0|] eqn:E0; [|by vm_compute in E0].
  destruct (frames sleeping !! 3%nat) as [f2|] eqn:E2; [|by vm_compute in E2].
  split; by apply (tasks_no_lost_wakeup sleeping _ _ (proj1 sleeping_reached) (proj2 sleeping_reached)).
Defined.

Lemma tasks_sleep_on_events_witness :
  match frames sleeping !! 0%nat with
  | Some f0 => point_ f0 = at_final ∨ point_ f0 = at_resolve ∨
      ∃ e, sleeps_on sleeping 0 e ∧ ev_triggered (ev_of sleeping e) = false
  | None => False
  end.
Proof.
  destruct (frames sleeping !! 0%nat) as [f0|] eqn:E0; [|by vm_compute in E0].
  apply (tasks_sleep_on_events sleeping 0 f0 (proj1 sleeping_reached) (proj2 sleeping_reached)); [by vm_compute|done].
Defined.
