(* ===== verification/Combinators.v ===== *)
(** The combinators of [src/cotamer/cotamer_impl.hh] that run tasks against each
    other: [attempt], [first] and [race], as bodies over the machine of [Tasks].

    [Tasks] has their common loop ([first_of]): start the tasks, wait at a
    resolution point, look for a resolved argument, and wait for a quorum of
    them all when there is none.  Here is what each makes of the argument that
    was found, and what one round of the loop does. *)

From S2P Require Import Prelude Tasks TaskInvariant TaskSteps.

(** * What the combinators return *)

Section Values.
(** Results are numbers in the model; [nullopt], a value in an [optional], an
    alternative of a [variant] and [monostate] are encoded by these. *)
Context (monostate nullopt : Z) (engaged : Z → Z) (alternative : nat → Z → Z) (unreachable : Z).

(** [races::param::resolve] and [resolve_alternative]: an event has no value,
    and the result of a task may be an exception. *)
Definition resolve_alternative (r : option outcome) : outcome :=
  match r with None => value monostate | Some o => o end.

Definition map_value (f : Z → Z) (o : outcome) : outcome :=
  match o with value v => value (f v) | exception e => exception e end.

(** [select_value_s::select]: the last argument is not compared. *)
Fixpoint select {A} (index i : nat) (t : A) (ts : list A) : A :=
  match ts with
  | [] => t
  | t' :: ts' => if (i =? index)%nat then t else select index (S i) t' ts'
  end.

Definition select_first (r : option outcome) : outcome := map_value engaged (resolve_alternative r).
Definition select_variant (index : nat) (r : option outcome) : outcome := map_value (alternative index) (resolve_alternative r).
Definition select_value (r : option outcome) : outcome := resolve_alternative r.

(** The tuple of arguments owns the tasks that were moved into it: they are
    destroyed when the body ends, before the coroutine is done. *)
Fixpoint end_race (args : list arg) (r : outcome) : code :=
  match args with
  | [] => co_return r
  | arg_task i :: args' => destroy_task i (end_race args' r)
  | arg_event _ :: args' => end_race args' r
  end.

Definition attempt (args : list arg) : code :=
  first_of args (λ ridx r, end_race args (if (ridx =? 0)%nat then select_first r else value nullopt)).

Definition first_ (args : list arg) : code := first_of args (λ ridx r, end_race args (select_variant ridx r)).

(** [race] of one task is that task, which is no new coroutine. *)
Definition race (args : list arg) : option code :=
  match args with
  | [] => Some (make_event (λ e, await_event (Some e) (co_return (exception unreachable))))
  | [arg_task _] => None
  | _ => Some (first_of args (λ _ r, end_race args (select_value r)))
  end.
End Values.

(** The bodies follow the rules under which the task protocol is safe. *)
Lemma end_race_user args r : user_code (end_race args r).
Proof. by induction args as [|[i|e] args IH]. Qed.

Lemma combinators_user mono null engaged alternative unreachable args :
  user_code (attempt mono null engaged args) ∧ user_code (first_ mono alternative args) ∧
  match race mono unreachable args with Some k => user_code k | None => True end.
Proof.
  split; [intros i r; apply end_race_user|]. split; [intros i r; apply end_race_user|].
  destruct args as [|[i|e] [|a args]]; cbn; try done; intros j r;
    repeat (apply end_race_user || cbn; try destruct a; cbn).
Qed.

(** The value selected is that of the index. *)
Lemma select_lookup {A} index (ts : list A) : ∀ i t, (i ≤ index)%nat → (index - i ≤ length ts)%nat →
  (t :: ts) !! (index - i)%nat = Some (select index i t ts).
Proof.
  induction ts as [|t' ts IH]; intros i t Hi Hlen; cbn [select length] in *.
  - by replace (index - i)%nat with 0%nat by lia.
  - destruct (i =? index)%nat eqn:E; [apply Nat.eqb_eq in E as ->; by rewrite Nat.sub_diag|]. apply Nat.eqb_neq in E.
    destruct (index - i)%nat as [|n] eqn:En; [lia|]. cbn. rewrite <-(IH (S i) t') by lia. f_equal. lia.
Qed.

(** * A round of the loop *)

Fixpoint steps (n : nat) (m : machine) : res machine :=
  match n with O => Ok_ m | S n => m ⇐ step m; steps n m end.

(** An argument that a look passes over: a task that is neither done nor at a
    resolution point, an event that has not triggered. *)
Definition unresolved (m : machine) (f : frame) (a : arg) : Prop :=
  match a with
  | arg_event e => (e < next_event m)%nat ∧ ev_triggered (ev_of m e) = false
  | arg_task i => ∀ t, slot_task f i = Some t → ∃ g, frames m !! t = Some g ∧ resolving_ (pr g) = false ∧ is_done g = false
  end.

(** An argument that a look takes.  A task that is done stands at its final
    suspend point, which set its [resolving_]; the look does not depend on it. *)
Definition resolved (m : machine) (f : frame) (a : arg) (r : option outcome) : Prop :=
  match a with
  | arg_event e => ev_triggered (ev_of m e) = true ∧ r = None
  | arg_task i => ∃ t g, slot_task f i = Some t ∧ frames m !! t = Some g ∧ is_done g = true ∧ result_ g = r ∧ is_Some r
  end.

Lemma set_code_same m c f : frames m !! c = Some f → set_frame c (with_code (code_ f)) m = m.
Proof.
  intros Hf. destruct m. unfold set_frame, with_frames. cbn in *. f_equal. apply map_eq. intros x.
  destruct (decide (x = c)) as [->|Hne]; [|by rewrite lookup_alter_ne]. rewrite lookup_alter_eq, Hf. by destruct f.
Qed.

Lemma set_code_twice m c k k' : set_frame c (with_code k) (set_frame c (with_code k') m) = set_frame c (with_code k) m.
Proof. by rewrite set_frame_twice. Qed.

Lemma set_code_frame m c k t g : frames m !! t = Some g →
  ∃ g', frames (set_frame c (with_code k) m) !! t = Some g' ∧ pr g' = pr g ∧ point_ g' = point_ g ∧ result_ g' = result_ g ∧
    slots g' = slots g.
Proof. intros Hg. rewrite set_frame_lookup, Hg. destruct (decide _); cbn; eexists; (split; [done|]); done. Qed.

Lemma unresolved_code m f c k k' a : unresolved m f a → unresolved (set_frame c (with_code k) m) (with_code k' f) a.
Proof.
  destruct a as [i|e]; [|done]. intros Hu t Ht. destruct (Hu t Ht) as (g & Hg & Hr & Hd).
  destruct (set_code_frame m c k t g Hg) as (g' & Hg' & Ep & Ept & _). exists g'. unfold is_done in *. by rewrite Ep, Ept.
Qed.

Lemma resolved_code m f c k k' a r : resolved m f a r → resolved (set_frame c (with_code k) m) (with_code k' f) a r.
Proof.
  destruct a as [i|e]; [|done]. intros (t & g & Ht & Hg & Hd & Er & Hs).
  destruct (set_code_frame m c k t g Hg) as (g' & Hg' & Ep & Ept & Er' & _). exists t, g'. unfold is_done in *.
  by rewrite Ept, Er'.
Qed.

Lemma find_code m c s f args tried rest k : stack m = A_run c :: s → frames m !! c = Some f →
  code_ f = first_find args tried rest k → step m = step_first_find c args tried rest k s m.
Proof. intros Hs Hf Hc. unfold step. rewrite Hs. unfold step_run. rewrite Hf. cbn. by rewrite Hc. Qed.

(** Arguments that are not resolved are passed over, and nothing else happens. *)
Lemma scan us : ∀ m c s f args tried rest k, stack m = A_run c :: s → frames m !! c = Some f →
  code_ f = first_find args tried (us ++ rest) k → Forall (unresolved m f) us →
  steps (length us) m = Ok_ (set_frame c (with_code (first_find args (tried ++ us) rest k)) m).
Proof.
  induction us as [|a us IH]; intros m c s f args tried rest k Hs Hf Hc Hu; cbn [length steps].
  - rewrite app_nil_r. cbn [app] in Hc. rewrite <-Hc. by rewrite set_code_same.
  - apply Forall_cons in Hu as [Ha Hu]. rewrite (find_code _ _ _ _ _ _ _ _ Hs Hf Hc). cbn [app].
    assert (E : step_first_find c args tried (a :: us ++ rest) k s m =
      Ok_ (set_frame c (with_code (first_find args (tried ++ [a]) (us ++ rest) k)) m)).
    { unfold step_first_find. rewrite Hf. cbn [need res_bind]. destruct a as [i|e]; cbn in Ha.
      - destruct (slot_task f i) as [t|] eqn:Et; [|done]. destruct (Ha t eq_refl) as (g & Hg & Hr & Hd).
        rewrite Hg. cbn [need res_bind]. by rewrite Hr, Hd.
      - by rewrite (proj2 Ha). }
    rewrite E. cbn [res_bind]. set (m1 := set_frame c _ m).
    rewrite (IH m1 c s (with_code (first_find args (tried ++ [a]) (us ++ rest) k) f) args (tried ++ [a]) rest k).
    + unfold m1. by rewrite set_code_twice, <-app_assoc.
    + done.
    + unfold m1. by rewrite set_frame_lookup, decide_True, Hf by done.
    + done.
    + eapply Forall_impl; [exact Hu|]. intros x Hx. by apply unresolved_code.
Qed.

Lemma steps_app n n' m m1 : steps n m = Ok_ m1 → steps (n + n') m = steps n' m1.
Proof.
  revert m. induction n as [|n IH]; intros m; cbn [steps Nat.add]; [by intros [= ->]|].
  destruct (step m); try done. cbn [res_bind]. apply IH.
Qed.

(** The events of the arguments join the quorum, which stays untriggered. *)
Lemma join_untriggered q args : ∀ m, Forall (λ a, match a with arg_event e => e ≠ q ∧ ev_triggered (ev_of m e) = false | _ => True end) args →
  let m' := foldl (join_quorum q) m args in
  frames m' = frames m ∧ stack m' = stack m ∧ (∀ e, ev_triggered (ev_of m' e) = ev_triggered (ev_of m e)) ∧
  (∀ e x, x ∈ ev_quorums (ev_of m e) → x ∈ ev_quorums (ev_of m' e)) ∧
  ∀ e, arg_event e ∈ args → q ∈ ev_quorums (ev_of m' e).
Proof.
  induction args as [|a args IH]; intros m Hu; cbn [foldl].
  { do 4 (split; [done|]). intros e He. inversion He. }
  apply Forall_cons in Hu as [Ha Hu].
  assert (Hj : frames (join_quorum q m a) = frames m ∧ stack (join_quorum q m a) = stack m ∧
    (∀ e, ev_triggered (ev_of (join_quorum q m a) e) = ev_triggered (ev_of m e)) ∧
    (∀ e x, x ∈ ev_quorums (ev_of m e) → x ∈ ev_quorums (ev_of (join_quorum q m a) e)) ∧
    (∀ e, a = arg_event e → q ∈ ev_quorums (ev_of (join_quorum q m a) e))).
  { destruct a as [i|e]; [done|]. destruct Ha as [_ Ht]. unfold join_quorum. rewrite Ht.
    assert (Hof : ∀ x, ev_of (with_events (<[e := mk_ev false (ev_listeners (ev_of m e)) (ev_quorums (ev_of m e) ++ [q])
        (ev_race (ev_of m e))]> (events m)) m) x =
      if decide (x = e) then mk_ev false (ev_listeners (ev_of m e)) (ev_quorums (ev_of m e) ++ [q]) (ev_race (ev_of m e)) else ev_of m x).
    { intros x. unfold ev_of at 1. cbn. destruct (decide (x = e)) as [->|Hne]; [by rewrite lookup_insert_eq|by rewrite lookup_insert_ne]. }
    do 2 (split; [done|]). split; [|split].
    - intros x. rewrite Hof. destruct (decide (x = e)) as [->|]; done.
    - intros x y Hy. rewrite Hof. destruct (decide (x = e)) as [->|]; [|done]. cbn. set_solver.
    - intros x [= <-]. rewrite Hof, decide_True by done. cbn. set_solver. }
  destruct Hj as (J1 & J2 & J3 & J4 & J5). destruct (IH (join_quorum q m a)) as (I1 & I2 & I3 & I4 & I5).
  { eapply Forall_impl; [exact Hu|]. intros [i|e]; [done|]. by rewrite J3. }
  rewrite I1, I2. do 2 (split; [done|]). split; [intros e; by rewrite I3|]. split; [intros e x Hx; by apply I4, J4|].
  intros e He. apply elem_of_cons in He as [E|He]; [|by apply I5]. apply I4, J5. done.
Qed.

(** The coroutine waits for the quorum [q] of all the arguments. *)
Definition waits_for_all (m' : machine) (c q : nat) (f : frame) (args : list arg) (k : nat → option outcome → code) : Prop :=
  (∃ f', frames m' !! c = Some f' ∧ point_ f' = at_event q ∧ code_ f' = first_after args k) ∧
  ev_triggered (ev_of m' q) = false ∧ c ∈ ev_listeners (ev_of m' q) ∧
  (∀ i t, arg_task i ∈ args → slot_task f i = Some t → ∃ g, frames m' !! t = Some g ∧ awaiter_ (pr g) = quorum_event q) ∧
  ∀ e, arg_event e ∈ args → q ∈ ev_quorums (ev_of m' e).

Section Round.
Context (m : machine) (c : nat) (f : frame) (s : list activation) (args : list arg) (k : nat → option outcome → code).
Context (Hs : stack m = A_run c :: s) (Hf : frames m !! c = Some f) (Hc : code_ f = first_find args [] args k).

(** The arguments before [a] were passed over. *)
Lemma round_reaches j a : args !! j = Some a → Forall (unresolved m f) (take j args) →
  let k' := first_find args (take j args) (a :: drop (S j) args) k in
  steps j m = Ok_ (set_frame c (with_code k') m) ∧ frames (set_frame c (with_code k') m) !! c = Some (with_code k' f) ∧
  length (take j args) = j.
Proof.
  intros Ha Hu k'. pose proof (lookup_lt_Some _ _ _ Ha) as Hlt.
  assert (Hargs : args = take j args ++ a :: drop (S j) args) by (by rewrite take_drop_middle).
  assert (Hlen : length (take j args) = j) by (rewrite length_take; lia).
  split; [|split; [by rewrite set_frame_lookup, decide_True, Hf by done|done]].
  rewrite <-Hlen at 1. rewrite (scan (take j args) m c s f args [] (a :: drop (S j) args) k); try done.
  rewrite Hc. by f_equal.
Qed.

Lemma round_event j e : args !! j = Some (arg_event e) → Forall (unresolved m f) (take j args) → ev_triggered (ev_of m e) = true →
  steps (S j) m = Ok_ (set_frame c (with_code (k j None)) m).
Proof.
  intros Ha Hu Ht. destruct (round_reaches j _ Ha Hu) as (E & Hf1 & Hlen). rewrite <-Nat.add_1_r, (steps_app _ _ _ _ E). cbn [steps].
  erewrite (find_code _ c s) by done. unfold step_first_find. rewrite Hf1. cbn [need res_bind]. rewrite Hlen.
  change (ev_of (set_frame c ?x m)) with (ev_of m). rewrite Ht. cbn [res_bind]. by rewrite set_code_twice.
Qed.

(** The result of a task that is done, through [resolve] when its [resolving_]
    is set. *)
Lemma round_task j i t g r : args !! j = Some (arg_task i) → Forall (unresolved m f) (take j args) →
  slot_task f i = Some t → frames m !! t = Some g → is_done g = true → result_ g = Some r →
  steps ((if resolving_ (pr g) then 2 else 1) + j) m = Ok_ (set_frame c (with_code (k j (Some r))) m).
Proof.
  intros Ha Hu Ht Hg Hd Hr. destruct (round_reaches j _ Ha Hu) as (E & Hf1 & Hlen).
  set (k1 := first_find args (take j args) (arg_task i :: drop (S j) args) k) in *. set (m1 := set_frame c (with_code k1) m) in *.
  destruct (set_code_frame m c k1 t g Hg) as (g1 & Hg1 & Ep & Ept & Er & _). fold m1 in Hg1.
  rewrite Nat.add_comm, (steps_app _ _ _ _ E).
  assert (Hres : result_of m1 (with_code k1 f) (arg_task i) = Ok_ (Some r)).
  { unfold result_of. rewrite (Ht : slot_task (with_code k1 f) i = Some t). cbn [need res_bind]. rewrite Hg1. cbn [need res_bind].
    by rewrite Er, Hr. }
  assert (E1 : step m1 = if resolving_ (pr g) then Ok_ (with_stack (A_loop t :: A_run c :: s) m1)
      else Ok_ (set_frame c (with_code (k j (Some r))) m1)).
  { rewrite (find_code m1 c s _ _ _ _ _ Hs Hf1 eq_refl). unfold step_first_find. rewrite Hf1. cbn [need res_bind].
    rewrite (Ht : slot_task (with_code k1 f) i = Some t), Hg1. cbn [need res_bind]. rewrite Ep. unfold is_done in *. rewrite Ept, Hd, Hres.
    cbn [res_bind]. by rewrite Hlen. }
  destruct (resolving_ (pr g)); cbn [steps]; rewrite E1; cbn [res_bind]; [|unfold m1; by rewrite set_code_twice].
  unfold step at 1. cbn [stack with_stack]. unfold step_loop. cbn [frames with_stack]. rewrite Hg1. cbn [need res_bind].
  unfold is_done in *. rewrite Ept, Hd. cbn [deliver frames with_stack]. rewrite Hf1. cbn [need res_bind code_ with_code k1].
  change (result_of (with_stack _ m1) ?x ?y) with (result_of m1 x y). rewrite Hres. cbn [res_bind]. rewrite Hlen. f_equal.
  transitivity (set_frame c (with_code (k j (Some r))) m1); [|unfold m1; by rewrite set_code_twice].
  unfold m1, set_frame, with_frames, with_stack. destruct m. cbn in *. by subst.
Qed.

Lemma round_found j a r : args !! j = Some a → Forall (unresolved m f) (take j args) → resolved m f a r →
  ∃ n, (n ≤ S (S j))%nat ∧ steps n m = Ok_ (set_frame c (with_code (k j r)) m).
Proof.
  intros Ha Hu Hr. destruct a as [i|e]; cbn [resolved] in Hr.
  - destruct Hr as (t & g & Ht & Hg & Hd & Er & [o ->]). eexists. split; [|by apply (round_task j i t g o)].
    destruct (resolving_ (pr g)); lia.
  - destruct Hr as [Ht ->]. exists (S j). split; [lia|by apply (round_event j e)].
Qed.

(** A task that stands at a resolution point is resumed there, before anything
    is decided. *)
Lemma round_resumes j i t g : args !! j = Some (arg_task i) → Forall (unresolved m f) (take j args) →
  slot_task f i = Some t → frames m !! t = Some g → t ≠ c → point_ g = at_resolve → resolving_ (pr g) = true →
  forwarded_ (pr g) = false → forward_ (pr g) = None → home_ (pr g) = current m →
  ∃ m', steps (S (S j)) m = Ok_ m' ∧ stack m' = A_run t :: A_driven t :: A_run c :: s ∧
    frames m' !! c = Some (with_code (first_find args (take j args) (arg_task i :: drop (S j) args) k) f).
Proof.
  intros Ha Hu Ht Hg Hne Hp Hre Hfd Hfw Hh. destruct (round_reaches j _ Ha Hu) as (E & Hf1 & Hlen).
  set (k1 := first_find args (take j args) (arg_task i :: drop (S j) args) k) in *. set (m1 := set_frame c (with_code k1) m) in *.
  assert (Hg1 : frames m1 !! t = Some g) by (unfold m1; by rewrite set_frame_lookup, Hg, decide_False).
  replace (S (S j)) with (j + 2)%nat by lia. rewrite (steps_app _ _ _ _ E). cbn [steps].
  rewrite (find_code m1 c s _ _ _ _ _ Hs Hf1 eq_refl). unfold step_first_find. rewrite Hf1. cbn [need res_bind].
  rewrite (Ht : slot_task (with_code k1 f) i = Some t), Hg1. cbn [need res_bind]. rewrite Hre. cbn [res_bind].
  unfold step at 1. cbn [stack with_stack]. unfold step_loop. cbn [frames with_stack]. rewrite Hg1. cbn [need res_bind].
  unfold is_done. rewrite Hp, bool_decide_eq_false_2, Hre, Hfd, Hfw, Hh by done. cbn [negb]. change (current (set_frame _ _ _)) with (current m).
  rewrite Nat.eqb_refl. cbn [negb]. unfold run_on, enter. rewrite !set_frame_lookup. cbn [frames with_stack]. rewrite Hg1, !decide_True by done.
  cbn [fmap option_fmap option_map need res_bind point_ with_pr]. rewrite Hp. cbn [res_bind]. eexists. split; [done|]. split; [done|].
  cbn [frames with_stack]. rewrite !set_frame_lookup. cbn [frames with_stack]. by rewrite Hf1, !decide_False.
Qed.

Lemma round_waits : Forall (unresolved m f) args →
  ∃ m', steps (S (length args)) m = Ok_ m' ∧ stack m' = s ∧ waits_for_all m' c (next_event m) f args k.
Proof.
  intros Hu. rewrite <-Nat.add_1_r.
  assert (E : steps (length args) m = Ok_ (set_frame c (with_code (first_find args args [] k)) m)).
  { rewrite (scan args m c s f args [] [] k); try done. by rewrite app_nil_r. }
  rewrite (steps_app _ _ _ _ E). cbn [steps]. set (m1 := set_frame c _ m). set (f1 := with_code (first_find args args [] k) f).
  assert (Hf1 : frames m1 !! c = Some f1) by (unfold m1; by rewrite set_frame_lookup, decide_True, Hf by done).
  rewrite (find_code m1 c s f1 args args [] k) by done. unfold step_first_find. rewrite Hf1. cbn [need res_bind].
  destruct (fresh_quorum m1) as [q m2] eqn:Eq. assert (Hq : q = next_event m) by (cbn in Eq; by injection Eq as <- _).
  assert (Hof : ∀ e, ev_of m2 e = if decide (e = q) then mk_ev false [] [] true else ev_of m e).
  { intros e. pose proof (fresh_quorum_of m1 e) as H. rewrite Eq in H. cbn [snd] in H. rewrite H, Hq. done. }
  assert (Hf2 : frames m2 = frames m1) by (cbn in Eq; by injection Eq as _ <-).
  clear Eq. set (m3 := set_awaiters q _ m2).
  destruct (awaiters_eq (quorum_event q) (arg_tasks f1 args) m2) as (A1 & A2 & A3 & A4 & A5 & A6 & A7). fold m3 in A1, A2.
  unfold set_awaiters in m3. change (foldl _ m2 (arg_tasks f1 args)) with m3 in A1, A2, A7.
  assert (Hof3 : ∀ e, ev_of m3 e = ev_of m2 e) by (intros e; unfold ev_of; by rewrite A2).
  destruct (join_untriggered q args m3) as (J1 & J2 & J3 & J4 & J5).
  { eapply Forall_impl; [exact Hu|]. intros [i|e]; [done|]. cbn. intros [He Ht]. rewrite Hof3, Hof, decide_False by lia.
    split; [lia|done]. }
  set (m4 := foldl (join_quorum q) m3 args) in *. unfold step_await_event.
  assert (Htq : ev_triggered (ev_of m4 q) = false) by (by rewrite J3, Hof3, Hof, decide_True).
  rewrite Htq. cbn [res_bind]. eexists. split; [done|]. split; [done|]. rewrite <-Hq. unfold waits_for_all.
  set (m5 := set_frame c _ m4).
  assert (Hof5 : ∀ e, ev_of (with_stack s (add_listener c q m5)) e =
    if decide (e = q) then mk_ev (ev_triggered (ev_of m4 q)) (ev_listeners (ev_of m4 q) ++ [c]) (ev_quorums (ev_of m4 q)) (ev_race (ev_of m4 q))
    else ev_of m4 e).
  { intros e. unfold ev_of at 1. cbn. destruct (decide (e = q)) as [->|Hne]; [by rewrite lookup_insert_eq|by rewrite lookup_insert_ne]. }
  assert (Hfr : ∀ t g, frames m !! t = Some g → ∃ g', frames (with_stack s (add_listener c q m5)) !! t = Some g' ∧
    (t ∈ arg_tasks f1 args → awaiter_ (pr g') = quorum_event q) ∧ (t = c → point_ g' = at_event q ∧ code_ g' = first_after args k)).
  { intros t g Hg. change (frames (with_stack s (add_listener c q m5))) with (frames m5). unfold m5. rewrite set_frame_lookup, J1, A1, Hf2.
    unfold m1. rewrite set_frame_lookup, Hg. cbn. eexists. split; [done|].
    destruct (bool_decide (t ∈ arg_tasks f1 args)) eqn:Eb;
      [apply bool_decide_eq_true in Eb|apply bool_decide_eq_false in Eb]; destruct (decide (t = c)); cbn; (split; [done|done]). }
  split; [|split; [|split; [|split]]].
  - destruct (Hfr c f Hf) as (g' & Hg' & _ & Hpc). exists g'. split; [done|]. by apply Hpc.
  - by rewrite Hof5, decide_True.
  - rewrite Hof5, decide_True by done. cbn. set_solver.
  - intros i t Hi Ht. assert (Hu' := proj1 (Forall_forall _ _) Hu _ Hi). destruct (Hu' t Ht) as (g & Hg & _).
    destruct (Hfr t g Hg) as (g' & Hg' & Ha & _). exists g'. split; [done|]. apply Ha.
    rewrite (arg_tasks_slots f f1) by done. apply arg_tasks_in. by exists i.
  - intros e He. rewrite Hof5. destruct (decide (e = q)) as [->|Hne]; [by apply J5|by apply J5].
Qed.
End Round.


(** * Runs *)

Definition nullopt_z : Z := -1.
Definition world1 : machine := (fresh_event (fresh_event empty_machine).2).2.

(** A coroutine that attempts a child with event 1 to cancel it, and records the
    result. *)
Definition attempts_child : code :=
  call child_waits [] (call (attempt 0 nullopt_z (λ v, 100 + v) [arg_task 0; arg_event 1]) [0%nat] (await_task 1 (λ r, match r with
    | value v => act v (co_return (value 0)) | exception e => act (- e) (co_return (value 0)) end))).

Example attempt_finishes :
  effects_of (run_commands 100 [X_call attempts_child; X_trigger 0; X_resume; X_resume; X_trigger 1] world1) = Some [(0%nat, 107)].
Proof. by vm_compute. Qed.

(** Cancelled, and the child's frame is gone with the argument. *)
Example attempt_cancels :
  let r := run_commands 100 [X_call attempts_child; X_trigger 1; X_resume; X_trigger 0; X_resume] world1 in
  effects_of r = Some [(0%nat, nullopt_z)] ∧ match r with Ok_ m => frames m !! 1%nat = None | _ => False end.
Proof. by vm_compute. Qed.

(** Both: the child is resumed first, so its value counts. *)
Example attempt_prefers_value :
  effects_of (run_commands 100 [X_call attempts_child; X_trigger 0; X_resume; X_trigger 1; X_resume] world1) = Some [(0%nat, 107)].
Proof. by vm_compute. Qed.

(** Of two children the one that ends first decides, and the alternative says
    which it was. *)
Definition firsts : code :=
  call (await_event (Some 0%nat) (co_return (value 7))) [] (call (await_event (Some 1%nat) (co_return (value 8))) []
    (call (first_ 0 (λ i v, Z.of_nat i * 100 + v) [arg_task 0; arg_task 1]) [0; 1]%nat (await_task 2 (λ r, match r with
      | value v => act v (co_return (value 0)) | exception e => act (- e) (co_return (value 0)) end)))).

Example first_says_which :
  effects_of (run_commands 100 [X_call firsts; X_trigger 1; X_resume; X_resume] world1) = Some [(0%nat, 108)].
Proof. by vm_compute. Qed.

(** [race] of nothing never returns: no command resumes it. *)
Example race_of_nothing :
  (λ body, match run_commands 100 [X_call body; X_resume; X_trigger 0; X_resume] world1 with
           | Ok_ m => point_ <$> frames m !! 0%nat | _ => None end) <$> race 0 5 [] = Some (Some (at_event 2)).
Proof. by vm_compute. Qed.

(** The machine when [attempt] looks at its arguments: its first look after
    the commands [xs] and one resumption. *)
Definition at_look (xs : list command) : machine :=
  match (m ⇐ run_commands 100 xs world1; m ⇐ apply_command X_resume m; steps 2 m) with Ok_ m => m | _ => world1 end.

(** The child is done, and event 1 has triggered too. *)
Definition done_and_cancelled : machine := at_look [X_call attempts_child; X_trigger 0; X_resume; X_trigger 1].
(** The child waits, and event 1 has triggered. *)
Definition cancelled : machine := at_look [X_call attempts_child; X_trigger 1].

