(* ===== verification/LockSeq.v ===== *)
(** The lock-and-sequence test protocol, [src/pset4/lockseq_model.hh] and
    [lockseq_model.cc]: the client coroutine as a state machine between its
    waits, and the checker of the final database.

    The store is one [pancydb] that executes each serial once and answers a
    repetition from a cache ([lock_step]).  Each replica of pt-paxos does that
    with the requests of its own log; together the replicas are such a store
    only as far as their logs agree, and a run in which two of them commit
    different requests in one slot is in [PaxosTraces]
    ([committed_slots_can_differ]).  Nothing here speaks about such runs.

    Random draws are inputs; delays and latency samples are left out.  Serials
    do not wrap (a client would have to send 2^52 requests). *)

From S2P Require Import Prelude SMap Text PancyDb DocState ClientModel.

(** * Keys *)

Definition pad3 (n : nat) : txt :=
  (if (n <? 10)%nat then $"00" else if (n <? 100)%nat then $"0" else []) ++ dec (Z.of_nat n).

Definition make_client_key (cid : nat) : txt := $"c" ++ dec (Z.of_nat cid).
Definition make_group_key (gid : nat) : txt := $"g" ++ dec (Z.of_nat gid).
Definition make_lock_key (gid : nat) : txt := $"g" ++ dec (Z.of_nat gid) ++ $"/lock".
Definition make_value_key (gid vid : nat) : txt := $"g" ++ dec (Z.of_nat gid) ++ $"/v" ++ pad3 vid.

Definition nclients_ : nat := 32.
Definition ngroups_ : nat := 100.
Definition max_sequence_length_ : nat := 100.

(** * The client *)

Inductive phase :=
  | delaying
  | locking
  | writing (n : nat)
  | clearing (n : nat)
  | unlocking
  | dead (e : errc).

Record client := mk_client {
  c_cid : nat;
  c_leader : nat;
  c_serial : Z;
  c_gid : nat;
  c_value : txt;
  c_nvalues : nat;
  c_lock_version : Z;
  c_tries : nat;
  c_phase : phase;
}.

(** Completed phases, over all clients. *)
Record lock_stats := mk_lock_stats {
  lock_complete : Z;
  write_complete : Z;
  clear_complete : Z;
  unlock_complete : Z;
}.

Definition client_key_prefix (cid : nat) : txt := make_client_key cid ++ $" ".

Definition new_client (cid leader : nat) : client :=
  mk_client cid leader (Z.of_nat cid) 0 [] 0 0 0 delaying.

(** A new request: the next serial, no tries yet. *)
Definition enter (c : client) (p : phase) : client :=
  mk_client (c_cid c) (c_leader c) (c_serial c + serial_step) (c_gid c) (c_value c) (c_nvalues c)
    (c_lock_version c) 0 p.

Definition begin_round (c : client) (gid : nat) (hex : txt) (nvalues : nat) : client :=
  enter (mk_client (c_cid c) (c_leader c) (c_serial c) gid (client_key_prefix (c_cid c) ++ hex) nvalues 0 0
           delaying) locking.

(** What the client sends in each phase. *)
Definition request_of (c : client) : option request :=
  match c_phase c with
  | delaying | dead _ => None
  | locking => Some (cas_request (c_serial c) (make_lock_key (c_gid c)) [] (c_value c) any_version)
  | writing n => Some (put_request (c_serial c) (make_value_key (c_gid c) n) (c_value c) any_version)
  | clearing n => Some (remove_request (c_serial c) (make_value_key (c_gid c) n) any_version)
  | unlocking => Some (remove_request (c_serial c) (make_lock_key (c_gid c)) (c_lock_version c))
  end.

(** No usable response: [receive_response] may have redirected the client;
    every third try picks a random replica. *)
Definition on_timeout (c : client) (redirection : option nat) (random : nat) : client :=
  let leader := default (c_leader c) redirection in
  mk_client (c_cid c) (if (c_tries c mod 3 =? 2)%nat then random else leader) (c_serial c) (c_gid c)
    (c_value c) (c_nvalues c) (c_lock_version c) (S (c_tries c)) (c_phase c).

Definition retry (c : client) : client :=
  mk_client (c_cid c) (c_leader c) (c_serial c) (c_gid c) (c_value c) (c_nvalues c) (c_lock_version c)
    (S (c_tries c)) (c_phase c).

(** An exception ends the coroutine. *)
Definition throw (c : client) (e : errc) : client :=
  mk_client (c_cid c) (c_leader c) (c_serial c) (c_gid c) (c_value c) (c_nvalues c) (c_lock_version c)
    (c_tries c) (dead e).

Definition set_lock_version (c : client) (v : Z) : client :=
  mk_client (c_cid c) (c_leader c) (c_serial c) (c_gid c) (c_value c) (c_nvalues c) v (c_tries c) (c_phase c).

(** The loop heads of the phases. *)
Definition goto_unlock (s : lock_stats) (c : client) : lock_stats * client :=
  (mk_lock_stats (lock_complete s) (write_complete s) (clear_complete s + 1) (unlock_complete s),
   enter c unlocking).

Definition goto_clear (s : lock_stats) (c : client) (n : nat) : lock_stats * client :=
  if (n <? max_sequence_length_)%nat then (s, enter c (clearing n)) else goto_unlock s c.

Definition goto_write (s : lock_stats) (c : client) (n : nat) : lock_stats * client :=
  if (n =? c_nvalues c)%nat then
    goto_clear (mk_lock_stats (lock_complete s) (write_complete s + 1) (clear_complete s) (unlock_complete s)) c n
  else (s, enter c (writing n)).

Definition locked (s : lock_stats) (c : client) (version : Z) : lock_stats * client :=
  goto_write
    (mk_lock_stats (lock_complete s + 1) (write_complete s) (clear_complete s) (unlock_complete s))
    (set_lock_version c version) 0.

(** A response of the phase's type. *)
Definition on_response (s : lock_stats) (c : client) (resp : response) : lock_stats * client :=
  match c_phase c, resp with
  | locking, cas_response _ errcode actual _ version =>
      if bool_decide (errcode = ok) then locked s c version
      else if negb (bool_decide (errcode = no_match)) then (s, throw c errcode)
      else if teqb actual (c_value c) && (0 <? c_tries c)%nat then locked s c version
      else if negb (starts_with (client_key_prefix (c_cid c)) actual) then (s, throw c no_match)
      else (s, retry c)
  | writing n, put_response _ errcode _ _ _ =>
      if negb (bool_decide (errcode = ok)) then (s, throw c errcode) else goto_write s c (S n)
  | clearing n, remove_response _ errcode _ _ _ =>
      if negb (bool_decide (errcode = ok)) && negb (bool_decide (errcode = not_found)) then (s, throw c errcode)
      else if bool_decide (errcode = not_found) && (c_tries c =? 0)%nat then goto_unlock s c
      else goto_clear s c (S n)
  | unlocking, remove_response _ errcode _ _ _ =>
      if negb (bool_decide (errcode = ok)) && (c_tries c =? 0)%nat then (s, throw c errcode)
      else
        (mk_lock_stats (lock_complete s) (write_complete s) (clear_complete s) (unlock_complete s + 1),
         mk_client (c_cid c) (c_leader c) (c_serial c) (c_gid c) (c_value c) (c_nvalues c)
           (c_lock_version c) (c_tries c) delaying)
  | _, _ => (s, c)
  end.

(** * The checker *)

Definition invalid : Z := 4294967295.

(** [parse_digits] on the characters [[from, to)]. *)
Fixpoint parse_digits_loop (s : txt) (v : Z) : Z :=
  match s with
  | [] => v
  | ch :: s' =>
      if negb (is_digit ch) then invalid
      else
        let vv := u32 (v * 10 + code ch - 48) in
        if vv <? v then invalid else parse_digits_loop s' vv
  end.

Definition parse_digits (s : txt) (from to : nat) : Z :=
  if (to <=? from)%nat then invalid else parse_digits_loop (substr s from (to - from)) 0.

Inductive lock_state := ls_unlocked | ls_locked_start | ls_locked_rest.

#[export] Instance lock_state_eq_dec : EqDecision lock_state.
Proof. solve_decision. Defined.

Record checker := mk_checker {
  last_group : txt;
  glen : nat;
  expected_value : txt;
  expected_index : Z;
  ck_state : lock_state;
}.

Definition check_start : checker := mk_checker [] 0 [] 0 ls_unlocked.

(** A key outside the current group starts a new one. *)
Definition check_group (st : checker) (key : txt) : option checker :=
  if negb (bool_decide (last_group st = [])) && starts_with (last_group st) key then Some st
  else if (length key <? 3)%nat || negb (bool_decide (head key = Some "g"%char)) then None
  else
    match find_char "/"%char key 0 with
    | None => None
    | Some slash =>
        if parse_digits key 1 slash =? invalid then None
        else Some (mk_checker (take (slash + 1) key) (slash + 1) [] 0 ls_unlocked)
    end.

Definition check_lock (st : checker) (value : txt) : option checker :=
  if negb (expected_index st =? 0) || negb (bool_decide (ck_state st = ls_unlocked)) then None
  else if bool_decide (value = []) then Some st
  else if (length value <? 4)%nat || negb (bool_decide (head value = Some "c"%char)) then None
  else Some (mk_checker (last_group st) (glen st) value (expected_index st) ls_locked_start).

Definition check_index (st : checker) (vindex : Z) : option checker :=
  if vindex =? expected_index st then Some st
  else
    match ck_state st with
    | ls_unlocked | ls_locked_rest => None
    | ls_locked_start =>
        if vindex <? expected_index st then None
        else Some (mk_checker (last_group st) (glen st) [] vindex ls_locked_rest)
    end.

Definition check_value (st : checker) (value : txt) : option checker :=
  let next state := mk_checker (last_group st) (glen st) value (u32 (expected_index st + 1)) state in
  if negb (bool_decide (expected_value st = [])) && negb (teqb value (expected_value st)) then
    match ck_state st with
    | ls_locked_start => Some (next ls_locked_rest)
    | _ => None
    end
  else Some (next (ck_state st)).

(** One round of the loop; [None]: the key is returned. *)
Definition check_step (st : checker) (key value : txt) : option checker :=
  st ← check_group st key;
  if (length key =? glen st + 4)%nat && ends_with $"lock" key then check_lock st value
  else if negb (length key =? glen st + 4)%nat then None
  else if negb (bool_decide (key !! glen st = Some "v"%char)) then None
  else
    let vindex := parse_digits key (glen st + 1) (glen st + 4) in
    if (vindex =? invalid) || bool_decide (value = []) then None
    else st ← check_index st vindex; check_value st value.

Fixpoint check_loop (st : checker) (cells : list (txt * vv)) : option txt :=
  match cells with
  | [] => None
  | (key, v) :: cells' =>
      match check_step st key (vv_value v) with
      | None => Some key
      | Some st' => check_loop st' cells'
      end
  end.

Definition check (db : pancydb) : option txt := check_loop check_start (db_ db).

(** * The protocol on a deduplicating store

    One store executes each serial once, in a single step, and answers
    repetitions from a cache, as a replica does with the requests of its log
    ([pt_paxos_replica::response_cache_]); messages may be lost. *)

Record lock_world := mk_lock_world {
  lw_db : pancydb;
  lw_cache : gmap Z response;
  lw_clients : list client;
  lw_stats : lock_stats;
}.

Inductive lock_event :=
  | ev_begin (i gid : nat) (hex : txt) (nvalues : nat)
  | ev_execute (i : nat)
  | ev_reply (i : nat)
  | ev_timeout (i : nat) (redirection : option nat) (random : nat).

Definition set_client (w : lock_world) (i : nat) (c : client) (s : lock_stats) : lock_world :=
  mk_lock_world (lw_db w) (lw_cache w) (<[i := c]> (lw_clients w)) s.

Definition lock_step (w : lock_world) (e : lock_event) : lock_world :=
  match e with
  | ev_begin i gid hex nvalues =>
      match lw_clients w !! i with
      | Some c =>
          match c_phase c with
          | delaying =>
              if (gid <? ngroups_)%nat && (1 <=? nvalues)%nat && (nvalues <=? max_sequence_length_)%nat
              then set_client w i (begin_round c gid hex nvalues) (lw_stats w) else w
          | _ => w
          end
      | None => w
      end
  | ev_execute i =>
      match c ← lw_clients w !! i; request_of c with
      | Some req =>
          match lw_cache w !! message_serial req with
          | Some _ => w
          | None =>
              let '(db, resp) := process_req (lw_db w) req in
              mk_lock_world db (<[message_serial req := resp]> (lw_cache w)) (lw_clients w) (lw_stats w)
          end
      | None => w
      end
  | ev_reply i =>
      match lw_clients w !! i with
      | Some c =>
          match lw_cache w !! c_serial c with
          | Some resp => let '(s, c') := on_response (lw_stats w) c resp in set_client w i c' s
          | None => w
          end
      | None => w
      end
  | ev_timeout i redirection random =>
      match lw_clients w !! i with
      | Some c => set_client w i (on_timeout c redirection random) (lw_stats w)
      | None => w
      end
  end.

Definition lock_start (leaders : nat → nat) : lock_world :=
  mk_lock_world empty_db ∅ ((λ i, new_client i (leaders i)) <$> seq 0 nclients_) (mk_lock_stats 0 0 0 0).

Definition lock_run (leaders : nat → nat) (events : list lock_event) : lock_world :=
  foldl lock_step (lock_start leaders) events.

(** The client has the lock of its group. *)
Definition holds (cache : gmap Z response) (c : client) : Prop :=
  match c_phase c with
  | locking => ∃ p v, cache !! c_serial c = Some (cas_response (c_serial c) ok [] p v)
  | writing _ | clearing _ => True
  | unlocking => cache !! c_serial c = None
  | delaying | dead _ => False
  end.

Definition held_version (cache : gmap Z response) (c : client) : Z :=
  match c_phase c, cache !! c_serial c with
  | locking, Some (cas_response _ _ _ _ v) => v
  | _, _ => c_lock_version c
  end.

(** What the client may be told. *)
Definition response_ok (c : client) (r : response) : Prop :=
  match c_phase c with
  | locking =>
      (∃ p v, r = cas_response (c_serial c) ok [] p v) ∨
      ∃ a p v, r = cas_response (c_serial c) no_match a p v ∧ starts_with (client_key_prefix (c_cid c)) a = false
  | writing _ => ∃ p v, r = put_response (c_serial c) ok [] p v
  | clearing _ => ∃ e a p v, r = remove_response (c_serial c) e a p v ∧ (e = ok ∨ e = not_found)
  | unlocking => ∃ a p v, r = remove_response (c_serial c) ok a p v
  | delaying | dead _ => True
  end.

Definition in_round (c : client) : Prop :=
  match c_phase c with delaying | dead _ => False | _ => True end.

Record client_inv (db : pancydb) (cache : gmap Z response) (i : nat) (c : client) : Prop := {
  ci_cid : c_cid c = i ∧ (i < nclients_)%nat;
  ci_serial : c_serial c mod 4096 = Z.of_nat i;
  ci_fresh : ∀ s, is_Some (cache !! s) → s mod 4096 = Z.of_nat i → s ≤ c_serial c;
  ci_round : in_round c → (c_gid c < ngroups_)%nat ∧ ∃ hex, c_value c = client_key_prefix i ++ hex;
  ci_hold : holds cache c →
    find (make_lock_key (c_gid c)) (db_ db) = Some (mk_vv (c_value c) (held_version cache c));
  ci_resp : ∀ r, cache !! c_serial c = Some r → response_ok c r;
  ci_dead : ∀ e, c_phase c = dead e → e = no_match;
}.

Record world_inv (w : lock_world) : Prop := {
  wi_db : db_wf (lw_db w);
  wi_clients : ∀ i c, lw_clients w !! i = Some c → client_inv (lw_db w) (lw_cache w) i c;
  wi_owner : ∀ g v, (g < ngroups_)%nat → find (make_lock_key g) (db_ (lw_db w)) = Some v →
    ∃ i c, lw_clients w !! i = Some c ∧ holds (lw_cache w) c ∧ c_gid c = g;
}.

(** * Lemmas *)

#[local] Arguments client_key_prefix : simpl never.
#[local] Arguments starts_with : simpl never.
#[local] Arguments make_lock_key : simpl never.
#[local] Arguments make_value_key : simpl never.

(** ** Keys *)

Lemma small_u64 n : (n < 4096)%nat → is_u64 (Z.of_nat n).
Proof. unfold is_u64, two64. lia. Qed.

Lemma dec_split (n m : nat) (c : ascii) x y :
  (n < 4096)%nat → (m < 4096)%nat → is_digit c = false →
  dec (Z.of_nat n) ++ c :: x = dec (Z.of_nat m) ++ c :: y → n = m ∧ x = y.
Proof.
  intros Hn Hm Hc Heq.
  pose proof (from_chars_dec (Z.of_nat n) (c :: x) (small_u64 n Hn) Hc) as H1.
  pose proof (from_chars_dec (Z.of_nat m) (c :: y) (small_u64 m Hm) Hc) as H2.
  rewrite Heq, H2 in H1. injection H1 as H1 ->. split; [lia|done].
Qed.

Lemma group_size_bound g : (g < ngroups_)%nat → (g < 4096)%nat.
Proof. unfold ngroups_. lia. Qed.
Lemma client_size_bound i : (i < nclients_)%nat → (i < 4096)%nat.
Proof. unfold nclients_. lia. Qed.

Lemma lock_key_inj g g' : (g < ngroups_)%nat → (g' < ngroups_)%nat → make_lock_key g = make_lock_key g' → g = g'.
Proof.
  unfold make_lock_key. intros Hg Hg' Heq. apply app_inv_head in Heq.
  by apply (dec_split g g' "/"%char $"lock" $"lock") in Heq as [-> _];
    [|by apply group_size_bound|by apply group_size_bound|done].
Qed.

Lemma lock_key_not_value g g' n :
  (g < ngroups_)%nat → (g' < ngroups_)%nat → make_lock_key g ≠ make_value_key g' n.
Proof.
  unfold make_lock_key, make_value_key. intros Hg Hg' Heq. apply app_inv_head in Heq.
  apply (dec_split g g' "/"%char $"lock" ($"v" ++ pad3 n)) in Heq as [_ Heq];
    [|by apply group_size_bound|by apply group_size_bound|done].
  discriminate Heq.
Qed.

Lemma prefix_inj i j hex a :
  (i < nclients_)%nat → (j < nclients_)%nat →
  client_key_prefix i ++ hex = client_key_prefix j ++ a → i = j.
Proof.
  unfold client_key_prefix, make_client_key. intros Hi Hj Heq. rewrite <- !app_assoc in Heq.
  apply app_inv_head in Heq.
  by apply (dec_split i j " "%char hex a) in Heq as [-> _];
    [|by apply client_size_bound|by apply client_size_bound|done].
Qed.

Lemma other_prefix i j hex :
  (i < nclients_)%nat → (j < nclients_)%nat → i ≠ j →
  starts_with (client_key_prefix i) (client_key_prefix j ++ hex) = false.
Proof.
  intros Hi Hj Hne. destruct (starts_with _ _) eqn:E; [|done].
  apply starts_with_true in E as [t Ht]. symmetry in Ht. by apply prefix_inj in Ht.
Qed.

(** ** The store *)

Lemma find_put_eq d k v : find k (db_ (put d k v)) = Some (mk_vv v (next_version_ d)).
Proof. rewrite put_eq. apply find_assign_eq. Qed.
Lemma find_put_ne d k k' v : k ≠ k' → find k (db_ (put d k' v)) = find k (db_ d).
Proof. intros. rewrite put_eq. by apply find_assign_ne. Qed.

Lemma req_put d s k v :
  db_wf d →
  process_req d (put_request s k v any_version) =
    (put d k v, put_response s ok [] (vv_version (find_vvptr d k)) (next_version_ d)).
Proof. intros H. unfold process_req. by rewrite process_put_any. Qed.

Lemma req_cas_absent d s k v :
  db_wf d → find k (db_ d) = None →
  process_req d (cas_request s k [] v any_version) =
    (put d k v, cas_response s ok [] (vv_version (find_vvptr d k)) (next_version_ d)).
Proof.
  intros H Hf. unfold process_req, process_cas.
  assert (vv_value (find_vvptr d k) = []) as -> by (unfold find_vvptr; by rewrite Hf).
  simpl. by rewrite store_eq, put_eq.
Qed.

Lemma req_cas_held d s k v x ver :
  find k (db_ d) = Some (mk_vv x ver) → x ≠ [] →
  process_req d (cas_request s k [] v any_version) = (d, cas_response s no_match x ver ver).
Proof.
  intros Hf Hx. unfold process_req, process_cas.
  assert (find_vvptr d k = mk_vv x ver) as -> by (unfold find_vvptr; by rewrite Hf).
  simpl. unfold teqb. rewrite bool_decide_eq_false_2; [done|]. congruence.
Qed.

Lemma req_remove d s k vm :
  (∀ v, find k (db_ d) = Some v → version_mismatch vm (vv_version v) = false) →
  ∃ d' e a p v, process_req d (remove_request s k vm) = (d', remove_response s e a p v) ∧
    (e = ok ∨ e = not_found) ∧ (is_Some (find k (db_ d)) → e = ok) ∧
    (∀ k', k' ≠ k → find k' (db_ d') = find k' (db_ d)) ∧ (db_wf d → find k (db_ d') = None).
Proof.
  intros Hv. unfold process_req, process_remove. destruct (find k (db_ d)) as [v|] eqn:Hf.
  - rewrite (Hv v eq_refl). do 5 eexists. split; [reflexivity|]. split_and!; [by left|done| |].
    + intros k' Hne. simpl. by apply find_erase_ne.
    + intros Hwf. simpl. apply find_erase_eq, Hwf.
  - do 5 eexists. split; [reflexivity|]. split_and!; [by right|by intros [? ?]|done|done].
Qed.

(** ** Frames *)

Lemma request_serial c req : request_of c = Some req → message_serial req = c_serial c ∧ in_round c.
Proof. unfold request_of, in_round. destruct (c_phase c); intros [= <-]; done. Qed.

(** The next serial of a client is not in the cache. *)
Lemma next_serial_fresh db cache i c :
  client_inv db cache i c →
  (c_serial c + serial_step) mod 4096 = Z.of_nat i ∧ cache !! (c_serial c + serial_step) = None ∧
  ∀ s, is_Some (cache !! s) → s mod 4096 = Z.of_nat i → s ≤ c_serial c + serial_step.
Proof.
  intros [_ Hm Hf _ _ _ _]. unfold serial_step.
  assert (Hm' : (c_serial c + 4096) mod 4096 = Z.of_nat i).
  { change 4096 with (1 * 4096) at 1. by rewrite Z.mod_add. }
  split_and!; [done| |].
  - destruct (cache !! (c_serial c + 4096)) eqn:E; [|done]. specialize (Hf _ ltac:(eauto) Hm'). lia.
  - intros s Hs Hsm. specialize (Hf s Hs Hsm). lia.
Qed.

Definition working (p : phase) : Prop :=
  match p with writing _ | clearing _ | unlocking => True | _ => False end.

(** The holder of a lock goes on to its next request. *)
Lemma enter_inv db cache i c v p :
  client_inv db cache i c → in_round c → working p →
  find (make_lock_key (c_gid c)) (db_ db) = Some (mk_vv (c_value c) v) →
  client_inv db cache i (enter (set_lock_version c v) p) ∧ holds cache (enter (set_lock_version c v) p).
Proof.
  intros Hi Hr Hp Hl. destruct (next_serial_fresh db cache i c Hi) as (Hm & Hn & Hf).
  assert (Hh : holds cache (enter (set_lock_version c v) p)) by (by destruct p).
  split; [|done]. split; simpl; try done.
  - apply Hi.
  - intros _. by apply (ci_round _ _ _ _ Hi).
  - intros _. unfold held_version. simpl. by destruct p.
  - intros r Hr'. congruence.
  - by intros e ->.
Qed.

(** The phases the loop heads lead to. *)
Lemma goto_unlock_enter s c : ∃ s' p, goto_unlock s c = (s', enter c p) ∧ working p.
Proof. by do 2 eexists. Qed.
Lemma goto_clear_enter s c n : ∃ s' p, goto_clear s c n = (s', enter c p) ∧ working p.
Proof. unfold goto_clear. case_if; [by do 2 eexists|apply goto_unlock_enter]. Qed.
Lemma goto_write_enter s c n : ∃ s' p, goto_write s c n = (s', enter c p) ∧ working p.
Proof. unfold goto_write. case_if; [apply goto_clear_enter|by do 2 eexists]. Qed.

Lemma set_lock_version_id c : set_lock_version c (c_lock_version c) = c.
Proof. by destruct c. Qed.

(** Handling a response. *)
Lemma on_response_inv db cache i c s r :
  client_inv db cache i c → cache !! c_serial c = Some r →
  let c' := (on_response s c r).2 in
  client_inv db cache i c' ∧ (holds cache c → holds cache c' ∧ c_gid c' = c_gid c).
Proof.
  intros Hi Hr. pose proof (ci_resp _ _ _ _ Hi r Hr) as Hok.
  pose proof (ci_hold _ _ _ _ Hi) as Hh. pose proof (ci_round _ _ _ _ Hi) as Hrd.
  unfold on_response, response_ok, holds, held_version, in_round in *.
  destruct (c_phase c) eqn:Hp; simpl.
  - done.
  - destruct Hok as [(p & v & ->)|(a & p & v & -> & Ha)].
    + simpl. unfold locked. match goal with |- context [goto_write ?s ?c ?n] =>
        destruct (goto_write_enter s c n) as (s' & q & -> & Hq) end. simpl.
      rewrite Hr in Hh. destruct (enter_inv db cache i c v q) as [H1 H2];
        [done|unfold in_round; by rewrite Hp|done|apply Hh; eauto|].
      split; [done|]. done.
    + destruct (Hrd I) as (_ & hex & Hv). rewrite (proj1 (ci_cid _ _ _ _ Hi)) in Ha |- *.
      assert (teqb a (c_value c) = false) as ->.
      { apply bool_decide_eq_false. intros ->. by rewrite Hv, starts_with_app in Ha. }
      rewrite (bool_decide_eq_false_2 (no_match = ok)), (bool_decide_eq_true_2 (no_match = no_match)) by done.
      rewrite Ha. cbn [negb andb snd]. split.
      * split; simpl; try apply Hi; try done. intros e [= <-]. done.
      * intros (p' & v' & H). rewrite H in Hr. congruence.
  - destruct Hok as (p & v & ->). simpl.
    destruct (goto_write_enter s c (S n)) as (s' & q & -> & Hq). simpl.
    destruct (enter_inv db cache i c (c_lock_version c) q) as [H1 H2];
      [done|unfold in_round; by rewrite Hp|done|by apply Hh|].
    rewrite set_lock_version_id in H1, H2. done.
  - destruct Hok as (e & a & p & v & -> & He).
    assert (Hgo : ∃ s' q, (if negb (bool_decide (e = ok)) && negb (bool_decide (e = not_found))
       then (s, throw c e)
       else if bool_decide (e = not_found) && (c_tries c =? 0)%nat then goto_unlock s c
       else goto_clear s c (S n)) = (s', enter c q) ∧ working q).
    { destruct He as [-> | ->]; simpl; [apply goto_clear_enter|].
      case_if; [apply goto_unlock_enter|apply goto_clear_enter]. }
    destruct Hgo as (s' & q & -> & Hq). simpl.
    destruct (enter_inv db cache i c (c_lock_version c) q) as [H1 H2];
      [done|unfold in_round; by rewrite Hp|done|by apply Hh|].
    rewrite set_lock_version_id in H1, H2. done.
  - destruct Hok as (a & p & v & ->). simpl. split; [|congruence].
    split; simpl; try apply Hi; done.
  - done.
Qed.

(** A client that is not involved when a response is recorded. *)
Lemma client_inv_frame db db' cache j c s r :
  client_inv db cache j c → s mod 4096 ≠ Z.of_nat j →
  (holds cache c → find (make_lock_key (c_gid c)) (db_ db') = find (make_lock_key (c_gid c)) (db_ db)) →
  client_inv db' (<[s := r]> cache) j c ∧ (holds (<[s := r]> cache) c ↔ holds cache c).
Proof.
  intros Hi Hs Hf.
  assert (Hl : <[s := r]> cache !! c_serial c = cache !! c_serial c).
  { apply lookup_insert_ne. intros ->. by rewrite (ci_serial _ _ _ _ Hi) in Hs. }
  assert (Hh : holds (<[s := r]> cache) c ↔ holds cache c) by (unfold holds; by rewrite Hl).
  split; [|done]. split; try apply Hi.
  - intros x [y Hx] Hxm. apply (ci_fresh _ _ _ _ Hi); [|done].
    rewrite lookup_insert_ne in Hx; [by eauto|congruence].
  - rewrite Hh. intros H. unfold held_version. rewrite Hl, (Hf H). by apply (ci_hold _ _ _ _ Hi).
  - rewrite Hl. apply Hi.
Qed.

(** The client whose request was executed. *)
Lemma client_inv_answered db db' cache i c r :
  client_inv db cache i c → response_ok c r →
  (holds (<[c_serial c := r]> cache) c →
     find (make_lock_key (c_gid c)) (db_ db') =
       Some (mk_vv (c_value c) (held_version (<[c_serial c := r]> cache) c))) →
  client_inv db' (<[c_serial c := r]> cache) i c.
Proof.
  intros Hi Hr Hh. split; try apply Hi.
  - intros s [y Hs] Hm. destruct (decide (s = c_serial c)) as [->|Hne]; [lia|].
    rewrite lookup_insert_ne in Hs by congruence. apply (ci_fresh _ _ _ _ Hi); eauto.
  - exact Hh.
  - intros r'. rewrite lookup_insert_eq. congruence.
Qed.

Lemma same_lock_same_client w i j c d :
  world_inv w → lw_clients w !! i = Some c → lw_clients w !! j = Some d →
  holds (lw_cache w) c → holds (lw_cache w) d → c_gid c = c_gid d → i = j.
Proof.
  intros Hw Hc Hd Hhc Hhd Hg.
  pose proof (wi_clients w Hw i c Hc) as Ic. pose proof (wi_clients w Hw j d Hd) as Id.
  pose proof (ci_hold _ _ _ _ Ic Hhc) as Fc. pose proof (ci_hold _ _ _ _ Id Hhd) as Fd.
  rewrite Hg, Fd in Fc. injection Fc as Hv _.
  assert (Hr : ∀ cache c, holds cache c → in_round c)
    by (intros ca x; unfold holds, in_round; by destruct (c_phase x)).
  destruct (ci_round _ _ _ _ Ic (Hr _ _ Hhc)) as (_ & hc & Ec).
  destruct (ci_round _ _ _ _ Id (Hr _ _ Hhd)) as (_ & hd & Ed). rewrite Ec, Ed in Hv.
  symmetry in Hv. apply prefix_inj in Hv; [done|by apply (ci_cid _ _ _ _ Ic)|by apply (ci_cid _ _ _ _ Id)].
Qed.

(** What executing the request of client [i] must guarantee. *)
Lemma execute_inv w i c db r :
  world_inv w → lw_clients w !! i = Some c → db_wf db → response_ok c r →
  let cache := <[c_serial c := r]> (lw_cache w) in
  (holds cache c → find (make_lock_key (c_gid c)) (db_ db) = Some (mk_vv (c_value c) (held_version cache c))) →
  (∀ j d, lw_clients w !! j = Some d → j ≠ i → holds (lw_cache w) d →
     find (make_lock_key (c_gid d)) (db_ db) = find (make_lock_key (c_gid d)) (db_ (lw_db w))) →
  (∀ g v, (g < ngroups_)%nat → find (make_lock_key g) (db_ db) = Some v →
     (g = c_gid c ∧ holds cache c) ∨
     find (make_lock_key g) (db_ (lw_db w)) = Some v ∧ (c_gid c = g → holds (lw_cache w) c → holds cache c)) →
  world_inv (mk_lock_world db cache (lw_clients w) (lw_stats w)).
Proof.
  intros Hw Hc Hdb Hr cache Hh Hoth Hown. pose proof (wi_clients w Hw i c Hc) as Ic.
  assert (Hframe : ∀ j d, lw_clients w !! j = Some d → j ≠ i →
            client_inv db cache j d ∧ (holds cache d ↔ holds (lw_cache w) d)).
  { intros j d Hd Hne. apply client_inv_frame with (lw_db w); [by apply Hw| |by eauto].
    rewrite (ci_serial _ _ _ _ Ic). lia. }
  split; simpl; [done| |].
  - intros j d Hd. destruct (decide (j = i)) as [->|Hne]; [|by apply Hframe].
    rewrite Hc in Hd. injection Hd as <-. by apply client_inv_answered with (lw_db w).
  - intros g v Hg Hf. destruct (Hown g v Hg Hf) as [[-> H]|[Hf' Hk]]; [by exists i, c|].
    destruct (wi_owner w Hw g v Hg Hf') as (j & d & Hd & Hhd & Hgd). exists j, d.
    split; [done|]. destruct (decide (j = i)) as [->|Hne].
    + rewrite Hc in Hd. injection Hd as <-. auto.
    + by rewrite (proj2 (Hframe j d Hd Hne)).
Qed.

Lemma holds_in_round cache c : holds cache c → in_round c.
Proof. unfold holds, in_round. by destruct (c_phase c). Qed.

(** Executing the request of client [i], phase by phase. *)
Section Execute.
Context (w : lock_world) (i : nat) (c : client).
Hypothesis Hw : world_inv w.
Hypothesis Hc : lw_clients w !! i = Some c.
Hypothesis Hround : in_round c.
Hypothesis Hn : lw_cache w !! c_serial c = None.

Let Ic : client_inv (lw_db w) (lw_cache w) i c := wi_clients w Hw i c Hc.
Let Hdb : db_wf (lw_db w) := wi_db w Hw.
Let Hg : (c_gid c < ngroups_)%nat := proj1 (ci_round _ _ _ _ Ic Hround).

(** The store and the cache after [req]. *)
Definition executed (req : request) : lock_world :=
  mk_lock_world (process_req (lw_db w) req).1 (<[c_serial c := (process_req (lw_db w) req).2]> (lw_cache w))
    (lw_clients w) (lw_stats w).

Lemma holder_group j d : lw_clients w !! j = Some d → holds (lw_cache w) d → (c_gid d < ngroups_)%nat.
Proof. intros Hd Hh. by apply (wi_clients w Hw j d Hd), holds_in_round with (lw_cache w). Qed.

(** The value under a held lock is that of its holder, another client when
    client [i] does not hold it. *)
Lemma holder_value v :
  find (make_lock_key (c_gid c)) (db_ (lw_db w)) = Some v →
  ∃ j d hex, lw_clients w !! j = Some d ∧ holds (lw_cache w) d ∧ (j < nclients_)%nat ∧
    vv_value v = client_key_prefix j ++ hex.
Proof.
  intros Hf. destruct (wi_owner w Hw _ _ Hg Hf) as (j & d & Hd & Hhd & Hgd).
  pose proof (wi_clients w Hw j d Hd) as Id.
  destruct (ci_round _ _ _ _ Id (holds_in_round _ _ Hhd)) as (_ & hex & Ed).
  pose proof (ci_hold _ _ _ _ Id Hhd) as Fd. rewrite Hgd, Hf in Fd. injection Fd as ->.
  exists j, d, hex. split_and!; [done|done|apply Id|done].
Qed.

Lemma execute_locking :
  c_phase c = locking →
  world_inv (executed (cas_request (c_serial c) (make_lock_key (c_gid c)) [] (c_value c) any_version)).
Proof.
  intros Hp. pose proof (process_req_wf (lw_db w)
    (cas_request (c_serial c) (make_lock_key (c_gid c)) [] (c_value c) any_version) Hdb) as Hdb'.
  unfold executed. destruct (find (make_lock_key (c_gid c)) (db_ (lw_db w))) as [[x ver]|] eqn:Hf.
  - destruct (holder_value _ Hf) as (j & d & hex & Hd & Hhd & Hj & Ex). simpl in Ex.
    assert (Hne : i ≠ j).
    { intros ->. rewrite Hc in Hd. injection Hd as <-. unfold holds in Hhd. rewrite Hp in Hhd.
      destruct Hhd as (? & ? & ?). congruence. }
    rewrite (req_cas_held _ _ _ _ _ _ Hf) in * by (rewrite Ex; discriminate).
    apply (execute_inv w i); try done.
    + unfold response_ok. rewrite Hp. right. do 3 eexists. split; [reflexivity|].
      rewrite Ex, (proj1 (ci_cid _ _ _ _ Ic)). apply other_prefix; [apply Ic|done|done].
    + unfold holds. rewrite Hp. cbn [snd]. rewrite lookup_insert_eq. intros (? & ? & ?). congruence.
    + intros g v Hg' Hf'. right. split; [done|]. unfold holds. rewrite Hp.
      intros _ (? & ? & ?). congruence.
  - rewrite (req_cas_absent _ _ _ _ Hdb Hf) in *. cbn [fst snd] in *. apply (execute_inv w i); try done.
    + unfold response_ok. rewrite Hp. left. eauto.
    + intros _. unfold held_version. rewrite Hp, lookup_insert_eq. apply find_put_eq.
    + intros j d Hd Hne Hhd. apply find_put_ne. intros Heq.
      pose proof (ci_hold _ _ _ _ (wi_clients w Hw j d Hd) Hhd). congruence.
    + intros g v Hg' Hf'. destruct (decide (g = c_gid c)) as [->|Hne].
      * left. split; [done|]. unfold holds. rewrite Hp, lookup_insert_eq. eauto.
      * right. split; [|congruence]. rewrite find_put_ne in Hf'; [done|].
        intros Heq. by apply lock_key_inj in Heq.
Qed.

(** A request on a value key leaves the locks alone. *)
Lemma execute_value_key req n :
  (∃ m, c_phase c = writing m ∨ c_phase c = clearing m) →
  response_ok c (process_req (lw_db w) req).2 →
  (∀ k, k ≠ make_value_key (c_gid c) n →
    find k (db_ (process_req (lw_db w) req).1) = find k (db_ (lw_db w))) →
  world_inv (executed req).
Proof.
  intros [m Hp] Hr Hk. apply (execute_inv w i); [done|done|by apply process_req_wf|done| | |].
  - intros _. rewrite Hk by by apply lock_key_not_value.
    pose proof (ci_hold _ _ _ _ Ic) as H. unfold holds, held_version in *. destruct Hp as [Hp|Hp]; rewrite Hp in *; by apply H.
  - intros j d Hd Hne Hhd. apply Hk, lock_key_not_value; [by eapply holder_group|done].
  - intros g u Hg' Hf'. right. rewrite Hk in Hf' by by apply lock_key_not_value.
    split; [done|]. unfold holds. by destruct Hp as [-> | ->].
Qed.

Lemma execute_writing n :
  c_phase c = writing n →
  world_inv (executed (put_request (c_serial c) (make_value_key (c_gid c) n) (c_value c) any_version)).
Proof.
  intros Hp. apply (execute_value_key _ n); [eauto| |]; rewrite (req_put _ _ _ _ Hdb); simpl.
  - unfold response_ok. rewrite Hp. eauto.
  - intros. by apply find_put_ne.
Qed.

Lemma execute_clearing n :
  c_phase c = clearing n →
  world_inv (executed (remove_request (c_serial c) (make_value_key (c_gid c) n) any_version)).
Proof.
  intros Hp. destruct (req_remove (lw_db w) (c_serial c) (make_value_key (c_gid c) n) any_version)
    as (d' & e & a & p & v & Heq & He & _ & Hoth & _); [done|].
  apply (execute_value_key _ n); [eauto| |]; rewrite Heq; simpl; [|done].
  unfold response_ok. rewrite Hp. naive_solver.
Qed.

Lemma execute_unlocking :
  c_phase c = unlocking →
  world_inv (executed (remove_request (c_serial c) (make_lock_key (c_gid c)) (c_lock_version c))).
Proof.
  intros Hp. assert (Hhc : holds (lw_cache w) c) by (unfold holds; by rewrite Hp).
  pose proof (ci_hold _ _ _ _ Ic Hhc) as Hf. unfold held_version in Hf. rewrite Hp in Hf.
  destruct (req_remove (lw_db w) (c_serial c) (make_lock_key (c_gid c)) (c_lock_version c))
    as (d' & e & a & p & v & Heq & _ & Hok & Hoth & Hgone).
  { intros u Hu. rewrite Hf in Hu. injection Hu as <-. simpl. unfold version_mismatch.
    by rewrite Z.eqb_refl, andb_false_r. }
  pose proof (process_req_wf (lw_db w) (remove_request (c_serial c) (make_lock_key (c_gid c)) (c_lock_version c)) Hdb) as Hdb'.
  unfold executed. rewrite Heq in *. cbn [fst snd] in *. rewrite (Hok ltac:(eauto)) in *.
  apply (execute_inv w i); try done.
  - unfold response_ok. rewrite Hp. eauto.
  - unfold holds. rewrite Hp, lookup_insert_eq. done.
  - intros j d Hd Hne Hhd. apply Hoth. intros Hkk. apply lock_key_inj in Hkk; [|by eapply holder_group|done].
    apply Hne. by eapply same_lock_same_client.
  - intros g u Hg' Hf'. destruct (decide (g = c_gid c)) as [->|Hne]; [rewrite Hgone in Hf'; done|].
    right. split; [|congruence]. rewrite Hoth in Hf'; [done|]. intros Hkk. by apply lock_key_inj in Hkk.
Qed.
End Execute.

Lemma lock_step_execute w i : world_inv w → world_inv (lock_step w (ev_execute i)).
Proof.
  intros Hw. simpl. destruct (lw_clients w !! i) as [c|] eqn:Hc; [|done]. simpl.
  destruct (request_of c) as [req|] eqn:Hq; [|done].
  destruct (request_serial c req Hq) as [Hs Hround]. rewrite Hs.
  destruct (lw_cache w !! c_serial c) as [r|] eqn:Hn; [done|].
  enough (world_inv (executed w c req)) as H by (unfold executed in H; by destruct (process_req (lw_db w) req)).
  unfold request_of in Hq. destruct (c_phase c) eqn:Hp; try discriminate Hq; injection Hq as <-.
  - by apply (execute_locking w i).
  - by apply (execute_writing w i).
  - by apply (execute_clearing w i).
  - by apply (execute_unlocking w i).
Qed.

(** A client changes while the store does not. *)
Lemma set_client_inv w i c c' s :
  world_inv w → lw_clients w !! i = Some c → client_inv (lw_db w) (lw_cache w) i c' →
  (holds (lw_cache w) c → holds (lw_cache w) c' ∧ c_gid c' = c_gid c) →
  world_inv (set_client w i c' s).
Proof.
  intros Hw Hc Hi Hk. pose proof (lookup_lt_Some _ _ _ Hc) as Hlt. split; simpl; [by apply Hw| |].
  - intros j d Hd. destruct (decide (i = j)) as [<-|Hne].
    + rewrite list_lookup_insert_eq in Hd by done. by injection Hd as <-.
    + rewrite list_lookup_insert_ne in Hd by done. by apply Hw.
  - intros g v Hg Hf. destruct (wi_owner w Hw g v Hg Hf) as (j & d & Hd & Hh & Hgd).
    destruct (decide (i = j)) as [<-|Hne].
    + rewrite Hc in Hd. injection Hd as <-. exists i, c'. rewrite list_lookup_insert_eq by done.
      destruct (Hk Hh) as [? ?]. split_and!; [done|done|congruence].
    + exists j, d. by rewrite list_lookup_insert_ne.
Qed.

Lemma begin_round_inv db cache i c gid hex nvalues :
  client_inv db cache i c → c_phase c = delaying → (gid < ngroups_)%nat →
  client_inv db cache i (begin_round c gid hex nvalues).
Proof.
  intros Hi Hp Hg. destruct (next_serial_fresh db cache i c Hi) as (Hm & Hn & Hf).
  split; simpl; try done.
  - apply Hi.
  - intros _. split; [done|]. exists hex. by rewrite (proj1 (ci_cid _ _ _ _ Hi)).
  - unfold holds. simpl. intros (? & ? & H). congruence.
  - intros r Hr. congruence.
Qed.

Lemma lock_step_inv w e : world_inv w → world_inv (lock_step w e).
Proof.
  intros Hw. destruct e as [i gid hex nvalues|i|i|i redirection random]; [|by apply lock_step_execute| |]; simpl.
  - destruct (lw_clients w !! i) as [c|] eqn:Hc; [|done]. destruct (c_phase c) eqn:Hp; try done.
    destruct (gid <? ngroups_)%nat eqn:Eg; [|done]. apply Nat.ltb_lt in Eg. simpl. case_if; [|done].
    apply (set_client_inv w i c); [done|done| |].
    + apply begin_round_inv; [by apply Hw|done|done].
    + unfold holds. by rewrite Hp.
  - destruct (lw_clients w !! i) as [c|] eqn:Hc; [|done].
    destruct (lw_cache w !! c_serial c) as [r|] eqn:Hr; [|done].
    destruct (on_response_inv (lw_db w) (lw_cache w) i c (lw_stats w) r) as [Hi Hk]; [by apply Hw|done|].
    destruct (on_response _ _ _) as [s c']. by apply (set_client_inv w i c).
  - destruct (lw_clients w !! i) as [c|] eqn:Hc; [|done]. pose proof (wi_clients w Hw i c Hc) as Hi.
    apply (set_client_inv w i c); [done|done| |done]. split; apply Hi.
Qed.

Lemma lock_run_inv leaders events : world_inv (lock_run leaders events).
Proof.
  unfold lock_run. induction events as [|e events IH] using rev_ind.
  - cbn [foldl]. split; cbn [lock_start lw_db lw_cache lw_clients].
    + apply empty_db_wf.
    + intros i c Hc. apply list_lookup_fmap_Some in Hc as (j & -> & Hj).
      apply lookup_seq in Hj as [-> Hj]. simpl. split; simpl; try done.
      * apply Z.mod_small. unfold nclients_ in Hj. lia.
      * intros s [r Hr]. by rewrite lookup_empty in Hr.
    + done.
  - rewrite foldl_app. by apply lock_step_inv.
Qed.

(** ** The checker on the groups of the protocol *)

(** What a group holds: the lock, the values of the current sequence from 0,
    and what is left of the previous sequence. *)
Record group := mk_group {
  gr_id : nat;
  gr_locked : bool;
  gr_value : txt;
  gr_count : nat;
  gr_rest_from : nat;
  gr_rest_to : nat;
  gr_rest_value : txt;
}.

Definition value_cells (gid from count : nat) (value : txt) (version : nat → Z) : list (txt * vv) :=
  (λ n, (make_value_key gid n, mk_vv value (version n))) <$> seq from count.

Definition group_cells (version : nat → Z) (g : group) : list (txt * vv) :=
  (if gr_locked g then [(make_lock_key (gr_id g), mk_vv (gr_value g) (version 999%nat))] else [])
  ++ value_cells (gr_id g) 0 (gr_count g) (gr_value g) version
  ++ value_cells (gr_id g) (gr_rest_from g) (gr_rest_to g - gr_rest_from g) (gr_rest_value g) version.

(** Only a locked group may hold a gap or two values. *)
Record group_ok (g : group) : Prop := {
  gk_id : (gr_id g < ngroups_)%nat;
  gk_value : gr_value g ≠ [] ∧ gr_rest_value g ≠ [];
  gk_order : (gr_count g ≤ gr_rest_from g)%nat ∧ (gr_count g ≤ max_sequence_length_)%nat ∧
             (gr_rest_to g ≤ max_sequence_length_)%nat;
  gk_locked : gr_locked g = true → (4 ≤ length (gr_value g))%nat ∧ head (gr_value g) = Some "c"%char;
  gk_unlocked : gr_locked g = false → (gr_rest_to g ≤ gr_rest_from g)%nat;
}.

Definition group_prefix (gid : nat) : txt := $"g" ++ dec (Z.of_nat gid) ++ $"/".

(** What the checker computes from a key, tested for every key there is. *)
Definition key_in_group (gid : nat) (key : txt) : bool :=
  starts_with (group_prefix gid) key && (length key =? length (group_prefix gid) + 4)%nat
  && negb (length key <? 3)%nat && bool_decide (head key = Some "g"%char)
  && bool_decide (find_char "/"%char key 0 = Some (length (group_prefix gid) - 1)%nat)
  && negb (parse_digits key 1 (length (group_prefix gid) - 1) =? invalid)
  && bool_decide (take (length (group_prefix gid) - 1 + 1) key = group_prefix gid)
  && (length (group_prefix gid) - 1 + 1 =? length (group_prefix gid))%nat.

Definition value_key_ok (gid n : nat) : bool :=
  let key := make_value_key gid n in
  let len := length (group_prefix gid) in
  key_in_group gid key && negb (ends_with $"lock" key) && bool_decide (key !! len = Some "v"%char)
  && (parse_digits key (len + 1) (len + 4) =? Z.of_nat n).

Definition lock_key_ok (gid : nat) : bool :=
  key_in_group gid (make_lock_key gid) && ends_with $"lock" (make_lock_key gid).

Lemma all_keys_ok :
  forallb (λ g, lock_key_ok g && forallb (value_key_ok g) (seq 0 max_sequence_length_)) (seq 0 ngroups_) = true.
Proof. by vm_compute. Qed.

Lemma lock_key_facts g : (g < ngroups_)%nat → lock_key_ok g = true.
Proof.
  intros Hg. pose proof all_keys_ok as H. rewrite forallb_forall in H.
  assert (Hin : In g (seq 0 ngroups_)) by (apply in_seq; lia).
  specialize (H g Hin). by apply andb_true_iff in H as [H _].
Qed.

Lemma value_key_facts g n : (g < ngroups_)%nat → (n < max_sequence_length_)%nat → value_key_ok g n = true.
Proof.
  intros Hg Hn. pose proof all_keys_ok as H. rewrite forallb_forall in H.
  assert (Hin : In g (seq 0 ngroups_)) by (apply in_seq; lia).
  specialize (H g Hin). apply andb_true_iff in H as [_ H]. rewrite forallb_forall in H.
  apply H, in_seq. lia.
Qed.

(** The checker is in the group, or about to enter it. *)
Definition at_group (gid : nat) (st : checker) : Prop :=
  last_group st = group_prefix gid ∧ glen st = length (group_prefix gid).

Definition outside (gid : nat) (st : checker) : Prop :=
  last_group st = [] ∨ ∃ g', g' ≠ gid ∧ (g' < ngroups_)%nat ∧ last_group st = group_prefix g'.

Definition group_start (gid : nat) : checker :=
  mk_checker (group_prefix gid) (length (group_prefix gid)) [] 0 ls_unlocked.

Lemma other_group gid g' key :
  (gid < ngroups_)%nat → (g' < ngroups_)%nat → g' ≠ gid →
  starts_with (group_prefix gid) key = true → starts_with (group_prefix g') key = false.
Proof.
  intros Hg Hg' Hne Hk. destruct (starts_with (group_prefix g') key) eqn:E; [|done].
  apply starts_with_true in Hk as [t ->]. apply starts_with_true in E as [u Hu].
  unfold group_prefix in Hu. rewrite <- !app_assoc in Hu. apply app_inv_head in Hu.
  apply (dec_split gid g' "/"%char t u) in Hu as [-> _]; [done|by apply group_size_bound..|done].
Qed.

Lemma check_group_in gid st key :
  key_in_group gid key = true → at_group gid st → check_group st key = Some st.
Proof.
  unfold key_in_group. intros H [Hl _]. bsimp. unfold check_group. rewrite Hl.
  rewrite bool_decide_eq_false_2 by done. by rewrite H.
Qed.

Lemma check_group_new gid st key :
  (gid < ngroups_)%nat → key_in_group gid key = true → outside gid st →
  check_group st key = Some (group_start gid).
Proof.
  intros Hg H Ho. unfold key_in_group in H. rewrite !andb_true_iff in H.
  destruct H as [[[[[[[Hs Hlen] Hsz] Hhd] Hfc] Hpd] Htk] Hl1].
  assert (Hn : negb (bool_decide (last_group st = [])) && starts_with (last_group st) key = false).
  { destruct Ho as [->|(g' & Hne & Hg' & ->)]; [done|].
    by rewrite (other_group gid g' key), andb_false_r. }
  unfold check_group. rewrite Hn. apply negb_true_iff in Hsz, Hpd. apply bool_decide_eq_true in Hfc, Htk.
  rewrite Hsz, Hhd. simpl. rewrite Hfc, Hpd, Htk. unfold group_start.
  apply Nat.eqb_eq in Hl1. by rewrite Hl1.
Qed.

(** A key of the group, wherever the checker stands, is checked from [st']. *)
Definition enters (gid : nat) (st st' : checker) : Prop :=
  at_group gid st ∧ st' = st ∨ outside gid st ∧ st' = group_start gid.

Lemma enters_at gid st st' : enters gid st st' → at_group gid st'.
Proof. by intros [[? ->]|[_ ->]]. Qed.

Lemma check_value_step gid n st st' v :
  (gid < ngroups_)%nat → (n < max_sequence_length_)%nat → v ≠ [] → enters gid st st' →
  check_step st (make_value_key gid n) v = (st'' ← check_index st' (Z.of_nat n); check_value st'' v).
Proof.
  intros Hg Hn Hv He. pose proof (value_key_facts gid n Hg Hn) as H. unfold value_key_ok in H.
  rewrite !andb_true_iff in H. destruct H as [[[Hk He1] Hv1] Hp1].
  assert (Hgr : check_group st (make_value_key gid n) = Some st').
  { destruct He as [[Ha ->]|[Ho ->]]; [by apply (check_group_in gid)|by apply check_group_new]. }
  unfold check_step. rewrite Hgr. cbn [mbind option_bind].
  destruct (enters_at _ _ _ He) as [_ Hgl]. rewrite Hgl.
  unfold key_in_group in Hk. rewrite !andb_true_iff in Hk. destruct Hk as [[[[[[[_ Hlen] _] _] _] _] _] _].
  apply negb_true_iff in He1. apply Z.eqb_eq in Hp1. rewrite Hlen, He1, Hv1, Hp1. simpl.
  assert (Z.of_nat n =? invalid = false) as ->
    by (apply Z.eqb_neq; unfold invalid, max_sequence_length_ in *; lia).
  by rewrite bool_decide_eq_false_2.
Qed.

Lemma check_lock_step gid st st' v :
  (gid < ngroups_)%nat → enters gid st st' → check_step st (make_lock_key gid) v = check_lock st' v.
Proof.
  intros Hg He. pose proof (lock_key_facts gid Hg) as H. unfold lock_key_ok in H.
  apply andb_true_iff in H as [Hk He1].
  assert (Hgr : check_group st (make_lock_key gid) = Some st').
  { destruct He as [[Ha ->]|[Ho ->]]; [by apply (check_group_in gid)|by apply check_group_new]. }
  unfold check_step. rewrite Hgr. cbn [mbind option_bind].
  destruct (enters_at _ _ _ He) as [_ Hgl]. rewrite Hgl.
  unfold key_in_group in Hk. rewrite !andb_true_iff in Hk. destruct Hk as [[[[[[[_ Hlen] _] _] _] _] _] _].
  by rewrite Hlen, He1.
Qed.

(** A run of values in the group that continues at the expected index. *)
Lemma check_run gid version v rest count from st :
  (gid < ngroups_)%nat → (from + count ≤ max_sequence_length_)%nat → v ≠ [] →
  at_group gid st → expected_index st = Z.of_nat from → (expected_value st = [] ∨ expected_value st = v) →
  ∃ st', at_group gid st' ∧ check_loop st (value_cells gid from count v version ++ rest) = check_loop st' rest ∧
    expected_index st' = Z.of_nat (from + count) ∧ ck_state st' = ck_state st ∧
    expected_value st' = (if (count =? 0)%nat then expected_value st else v).
Proof.
  intros Hg Hb Hv. revert from st Hb. induction count as [|count IH]; intros from st Hb Ha Hi He.
  - exists st. rewrite Nat.add_0_r. done.
  - set (st1 := mk_checker (last_group st) (glen st) v (Z.of_nat (S from)) (ck_state st)).
    destruct (IH (S from) st1) as (st' & Ha' & Hl & Hi' & Hs' & He'); [lia|done|done|by right|].
    exists st'. split_and!; [done| |rewrite Hi'; f_equal; lia|done|].
    + unfold value_cells in *. simpl seq. rewrite fmap_cons. simpl app. cbn [check_loop vv_value].
      rewrite (check_value_step gid from st st v) by (try done; try lia; by left).
      unfold check_index. rewrite Hi, Z.eqb_refl. cbn [mbind option_bind]. unfold check_value.
      assert (negb (bool_decide (expected_value st = [])) && negb (teqb v (expected_value st)) = false) as ->.
      { destruct He as [-> | ->]; [done|]. by rewrite teqb_refl, andb_false_r. }
      rewrite <- Hl. f_equal. unfold st1. f_equal. rewrite Hi. unfold u32.
      rewrite Z.mod_small; [lia|]. unfold two32, max_sequence_length_ in *. lia.
    + rewrite He'. by destruct (count =? 0)%nat.
Qed.

(** The rest of the previous sequence, under the lock. *)
Lemma check_rest gid version v w rest from upto st :
  (gid < ngroups_)%nat → (upto ≤ max_sequence_length_)%nat → w ≠ [] → v ≠ [] →
  at_group gid st → expected_index st ≤ Z.of_nat from → expected_value st = v → ck_state st = ls_locked_start →
  ∃ st', at_group gid st' ∧
    check_loop st (value_cells gid from (upto - from) w version ++ rest) = check_loop st' rest.
Proof.
  intros Hg Hu Hw Hv Ha Hi He Hs. destruct (upto - from)%nat as [|count] eqn:Ec; [by exists st|].
  assert (Hstep : ∃ st1, check_step st (make_value_key gid from) w = Some st1 ∧ at_group gid st1 ∧
            expected_index st1 = Z.of_nat (S from) ∧ expected_value st1 = w).
  { rewrite (check_value_step gid from st st w) by (try done; try lia; by left).
    assert (Hu32 : u32 (Z.of_nat from + 1) = Z.of_nat (S from)).
    { unfold u32. rewrite Z.mod_small; [lia|]. unfold two32, max_sequence_length_ in *. lia. }
    unfold check_index. destruct (Z.of_nat from =? expected_index st) eqn:E; cbn [mbind option_bind].
    - bsimp. unfold check_value. rewrite Hs, <- E, Hu32.
      destruct (negb _ && _); eexists; (split; [reflexivity|]); done.
    - bsimp. rewrite Hs. assert (Z.of_nat from <? expected_index st = false) as -> by (apply Z.ltb_ge; lia).
      cbn [mbind option_bind]. unfold check_value. simpl. rewrite Hu32. eexists. split; [reflexivity|]. done. }
  destruct Hstep as (st1 & Hst & Ha1 & Hi1 & He1).
  destruct (check_run gid version w rest count (S from) st1) as (st' & Ha' & Hl & _);
    [done|lia|done|done|done|by right|].
  exists st'. split; [done|]. unfold value_cells in *. simpl seq. rewrite fmap_cons. simpl app.
  cbn [check_loop vv_value]. by rewrite Hst.
Qed.

(** Entering a group with its first cell. *)
Lemma enter_values gid version v rest count from st :
  (gid < ngroups_)%nat → (from + S count ≤ max_sequence_length_)%nat → v ≠ [] → outside gid st →
  check_loop st (value_cells gid from (S count) v version ++ rest) =
  check_loop (group_start gid) (value_cells gid from (S count) v version ++ rest).
Proof.
  intros Hg Hb Hv Ho. unfold value_cells. simpl seq. rewrite fmap_cons. simpl app. cbn [check_loop vv_value].
  rewrite (check_value_step gid from st (group_start gid) v) by (try done; try lia; by right).
  by rewrite (check_value_step gid from (group_start gid) (group_start gid) v) by (try done; try lia; by left).
Qed.

Lemma check_lock_start gid v :
  v ≠ [] → (4 ≤ length v)%nat → head v = Some "c"%char →
  check_lock (group_start gid) v =
    Some (mk_checker (group_prefix gid) (length (group_prefix gid)) v 0 ls_locked_start).
Proof.
  intros Hv Hl Hh. unfold check_lock, group_start. cbn [expected_index ck_state last_group glen].
  rewrite (bool_decide_eq_true_2 (ls_unlocked = ls_unlocked)), (bool_decide_eq_false_2 (v = [])) by done.
  rewrite Hh, (bool_decide_eq_true_2 (Some "c"%char = Some "c"%char)) by done.
  by rewrite (proj2 (Nat.ltb_ge _ _) Hl).
Qed.

Lemma check_one_group version g rest st :
  group_ok g → outside (gr_id g) st →
  ∃ st', (at_group (gr_id g) st' ∨ st' = st) ∧
    check_loop st (group_cells version g ++ rest) = check_loop st' rest.
Proof.
  intros [Hg [Hv Hw] (Hab & Ha & Hto) Hl Hun] Ho. unfold group_cells. destruct (gr_locked g) eqn:El.
  - destruct (Hl eq_refl) as [Hlen Hhd]. cbn [app check_loop vv_value].
    rewrite (check_lock_step (gr_id g) st (group_start (gr_id g))) by (try done; by right).
    rewrite check_lock_start by done. rewrite <- app_assoc.
    set (st1 := mk_checker _ _ _ _ _).
    destruct (check_run (gr_id g) version (gr_value g)
        (value_cells (gr_id g) (gr_rest_from g) (gr_rest_to g - gr_rest_from g) (gr_rest_value g) version ++ rest)
        (gr_count g) 0 st1)
      as (st2 & Ha2 & Hl2 & Hi2 & Hs2 & He2); [done|lia|done|done|done|by right|].
    rewrite Hl2.
    destruct (check_rest (gr_id g) version (gr_value g) (gr_rest_value g) rest (gr_rest_from g) (gr_rest_to g) st2)
      as (st3 & Ha3 & Hl3); [done|done|done|done|done|rewrite Hi2; lia| |by rewrite Hs2|].
    { rewrite He2. by destruct (gr_count g =? 0)%nat. }
    exists st3. split; [by left|done].
  - specialize (Hun eq_refl). assert ((gr_rest_to g - gr_rest_from g)%nat = 0%nat) as -> by lia.
    cbn [app]. change (value_cells _ (gr_rest_from g) 0 _ _) with (@nil (txt * vv)). rewrite app_nil_r.
    destruct (gr_count g) as [|count] eqn:Ec; [exists st; by split; [right|]|].
    rewrite enter_values by (try done; lia).
    destruct (check_run (gr_id g) version (gr_value g) rest (S count) 0 (group_start (gr_id g)))
      as (st2 & Ha2 & Hl2 & _); [done|lia|done|done|done|by left|]. exists st2. split; [by left|done].
Qed.

Lemma check_groups version gs st :
  Forall group_ok gs → NoDup (gr_id <$> gs) → Forall (λ g, outside (gr_id g) st) gs →
  check_loop st (mjoin (group_cells version <$> gs)) = None.
Proof.
  revert st. induction gs as [|g gs IH]; intros st Hok Hnd Ho; [done|].
  inv Hok. inv Ho. simpl in Hnd. apply NoDup_cons in Hnd as [Hnin Hnd].
  change (mjoin (group_cells version <$> g :: gs))
    with (group_cells version g ++ mjoin (group_cells version <$> gs)).
  destruct (check_one_group version g (mjoin (group_cells version <$> gs)) st) as (st' & Hst & ->); [done|done|].
  apply IH; [done|done|]. destruct Hst as [[Hlast _]| ->]; [|done].
  apply Forall_forall. intros x Hx. right. exists (gr_id g). split_and!; [|by apply gk_id|done].
  intros Heq. apply Hnin. rewrite Heq. by apply list_elem_of_fmap_2.
Qed.

(** * Properties *)

(** C35 Locks exclude, over one store: when a single store executes each request
    serial once, in one step, and answers repetitions from its cache, then with
    any losses and any interleaving of the clients' requests and answers, two
    clients that write or clear at the same time work on different groups.  The
    replicas are such a store as long as their logs agree;
    [PaxosTraces.committed_slots_can_differ] is a run in which they do not, and
    no such run is covered. *)
Theorem lock_mutual_exclusion (leaders : nat → nat) (events : list lock_event) (i j : nat) (c d : client) :
  let w := lock_run leaders events in
  lw_clients w !! i = Some c → lw_clients w !! j = Some d → i ≠ j →
  (∃ n, c_phase c = writing n ∨ c_phase c = clearing n) →
  (∃ n, c_phase d = writing n ∨ c_phase d = clearing n) →
  c_gid c ≠ c_gid d.
Proof.
  intros w Hc Hd Hne [n Hn] [m Hm] Hg. apply Hne.
  apply (same_lock_same_client w i j c d); [apply lock_run_inv|done|done| | |done]; unfold holds;
    [by destruct Hn as [-> | ->]|by destruct Hm as [-> | ->]].
Qed.

Lemma lock_mutual_exclusion_witness :
  let w := lock_run (λ _, 0%nat) [ev_begin 0 7 $"0a" 2; ev_begin 1 8 $"0b" 3; ev_execute 1; ev_execute 0;
                                  ev_reply 0; ev_reply 1] in
  let c := default (new_client 0 0) (lw_clients w !! 0%nat) in
  let d := default (new_client 0 0) (lw_clients w !! 1%nat) in
  c_gid c ≠ c_gid d ∧ c_phase c = writing 0 ∧ c_phase d = writing 0.
Proof.
  intros w c d. split; [|by vm_compute].
  apply (lock_mutual_exclusion (λ _, 0%nat) [ev_begin 0 7 $"0a" 2; ev_begin 1 8 $"0b" 3; ev_execute 1;
    ev_execute 0; ev_reply 0; ev_reply 1] 0 1 c d); [by vm_compute|by vm_compute|done| |]; exists 0%nat; left;
    by vm_compute.
Defined.

(** The only exception a client can meet is the refused lock: in every run,
    a client that died did so on [no_match], never on a write, a clear or an
    unlock; and a client whose group is locked by another one does die, on its
    first answer, instead of waiting for the lock. *)
Theorem lock_conflict_kills (leaders : nat → nat) (events : list lock_event) (i : nat) (c : client) :
  let w := lock_run leaders events in
  lw_clients w !! i = Some c →
  (∀ e, c_phase c = dead e → e = no_match) ∧
  (c_phase c = locking → lw_cache w !! c_serial c = None →
   is_Some (find (make_lock_key (c_gid c)) (db_ (lw_db w))) →
   c_phase <$> lw_clients (lock_step (lock_step w (ev_execute i)) (ev_reply i)) !! i = Some (dead no_match)).
Proof.
  intros w Hc. pose proof (lock_run_inv leaders events) as Hw. fold w in Hw. clearbody w.
  split; [apply (wi_clients w Hw i c Hc)|]. intros Hp Hn Hs.
  pose proof (lock_step_inv w (ev_execute i) Hw) as Hw'. revert Hw'.
  cbn [lock_step]. rewrite Hc. cbn [mbind option_bind]. unfold request_of. rewrite Hp.
  cbn [message_serial]. rewrite Hn.
  destruct Hs as [[x ver] Hf]. pose proof (wi_clients w Hw i c Hc) as Hi.
  destruct (ci_round _ _ _ _ Hi) as (Hg & _); [unfold in_round; by rewrite Hp|].
  destruct (wi_owner w Hw _ _ Hg Hf) as (j & d & Hd & Hhd & Hgd).
  pose proof (wi_clients w Hw j d Hd) as Id. destruct (ci_round _ _ _ _ Id (holds_in_round _ _ Hhd)) as (_ & hd & Ed).
  pose proof (ci_hold _ _ _ _ Id Hhd) as Fd. rewrite Hgd, Hf in Fd. injection Fd as -> _.
  rewrite (req_cas_held _ _ _ _ _ _ Hf) by (rewrite Ed; discriminate).
  cbn [lw_db lw_cache lw_clients lw_stats]. intros Hw'.
  rewrite Hc, lookup_insert_eq.
  pose proof (ci_resp _ _ _ _ (wi_clients _ Hw' i c Hc) _ (lookup_insert_eq _ _ _)) as Hr.
  unfold response_ok in Hr. rewrite Hp in Hr. destruct Hr as [(? & ? & ?)|(a & p & v & Heq & Ha)]; [done|].
  injection Heq as <- _ _. unfold on_response. rewrite Hp.
  rewrite (bool_decide_eq_false_2 (no_match = ok)), (bool_decide_eq_true_2 (no_match = no_match)) by done.
  destruct (ci_round _ _ _ _ Hi) as (_ & hex & Hv); [unfold in_round; by rewrite Hp|].
  rewrite (proj1 (ci_cid _ _ _ _ Hi)) in Ha |- *.
  assert (teqb (c_value d) (c_value c) = false) as ->.
  { apply bool_decide_eq_false. intros He. by rewrite He, Hv, starts_with_app in Ha. }
  rewrite Ha. simpl. rewrite list_lookup_insert_eq; [done|]. by eapply lookup_lt_Some.
Qed.

Lemma lock_conflict_kills_witness :
  let events := [ev_begin 0 7 $"0a" 2; ev_execute 0; ev_begin 1 7 $"0b" 3] in
  c_phase <$> lw_clients (lock_step (lock_step (lock_run (λ _, 0%nat) events) (ev_execute 1)) (ev_reply 1)) !! 1%nat
  = Some (dead no_match).
Proof.
  intros events.
  apply (lock_conflict_kills (λ _, 0%nat) events 1
    (default (new_client 0 0) (lw_clients (lock_run (λ _, 0%nat) events) !! 1%nat))); try by vm_compute.
  apply (bool_decide_unpack _). by vm_compute.
Defined.

(** The checker accepts what the protocol leaves: any sequence of different
    groups, each holding, when unlocked, one gapless run of a value from 0,
    and, when locked, the lock, the run written so far and any later run of
    the previous sequence. *)
Theorem check_accepts_groups (db : pancydb) (gs : list group) (version : nat → Z) :
  db_ db = mjoin (group_cells version <$> gs) → Forall group_ok gs → NoDup (gr_id <$> gs) → check db = None.
Proof.
  intros Hdb Hok Hnd. unfold check. rewrite Hdb. apply check_groups; [done|done|].
  apply Forall_forall. intros g _. by left.
Qed.

Lemma check_accepts_groups_witness :
  let gs := [mk_group 10 true $"c3 0a" 1 2 4 $"c1 77"; mk_group 2 false $"c1 bb" 3 3 0 $"x"] in
  let db := mk_pancydb 50 (mjoin (group_cells (λ n, Z.of_nat n + 1) <$> gs)) [] in
  check db = None ∧ length (db_ db) = 7%nat.
Proof.
  intros gs db. split; [|by vm_compute].
  apply (check_accepts_groups db gs (λ n, Z.of_nat n + 1)); [done| |].
  - repeat constructor; simpl; try done; unfold ngroups_, max_sequence_length_; lia.
  - apply (bool_decide_unpack _). by vm_compute.
Defined.
