(* ===== verification/CollabModel.v ===== *)
(** The simulated collaborative editors, [src/pset4/collab_model.hh] and
    [collab_model.cc]: synchronisation with the committed operations, local
    edits, and the check of a replica's database.

    Random draws are inputs, and so is what the replicas answer: an oracle from
    the round, the peer and the sequence number asked for to a response
    ([None]: a timeout or a redirection).  Delays are left out. *)

From S2P Require Import Prelude SMap Text DocOps PancyDb DocState ClientModel.

Record editor_state := mk_editor_state {
  leader : nat;
  local_text : txt;
  pending : list doc_op;
  pending_seqs : list Z;
  peer_next_seq : list Z;
  next_seq : Z;
}.

Record collab_stats := mk_collab_stats {
  ops_submitted : Z;
  ops_committed : Z;
  ops_transformed : Z;
}.

Definition new_editor (leader nclients : nat) : editor_state :=
  mk_editor_state leader [] [] [] (replicate nclients 0) 0.

(** [check]: the first operation key whose value does not parse. *)
Fixpoint check_cells (prefix : txt) (cells : list (txt * vv)) : option txt :=
  match cells with
  | [] => None
  | (key, v) :: cells' =>
      if (length key <=? length prefix)%nat || negb (starts_with prefix key) then check_cells prefix cells'
      else if vv_version v =? nonexistent_version then check_cells prefix cells'
      else match deserialize (vv_value v) with
           | Throw _ => Some key
           | Ok _ => check_cells prefix cells'
           end
  end.

Definition check (doc_id : txt) (db : pancydb) : option txt :=
  check_cells ($"doc/" ++ doc_id ++ $"/op/") (db_ db).

(** * Synchronisation *)

Record best_op := mk_best_op {
  best_peer : nat;
  best_seq : Z;
  best_ver : Z;
  best_doc_op : doc_op;
}.

(** The operation an answer holds. *)
Definition answered_op (resp : option response) : option (Z * doc_op) :=
  match resp with
  | Some (get_response _ errcode value version) =>
      if negb (bool_decide (errcode = ok)) || bool_decide (value = []) then None
      else match deserialize value with Throw _ => None | Ok op => Some (version, op) end
  | _ => None
  end.

Abbreviation answers := (nat → Z → option response).

(** One peer of a round. *)
Definition consider (ask : answers) (es : editor_state) (best : option best_op) (peer : nat) : option best_op :=
  let seq := default 0 (peer_next_seq es !! peer) in
  match answered_op (ask peer seq) with
  | None => best
  | Some (version, op) =>
      let new := Some (mk_best_op peer seq version op) in
      match best with
      | None => new
      | Some b =>
          if (version <? best_ver b) || ((version =? best_ver b) && (peer <? best_peer b)%nat) then new else best
      end
  end.

Definition find_best (ask : answers) (nclients : nat) (es : editor_state) : option best_op :=
  foldl (consider ask es) None (seq 0 nclients).

Definition set_peer_seqs (es : editor_state) (seqs : list Z) : editor_state :=
  mk_editor_state (leader es) (local_text es) (pending es) (pending_seqs es) seqs (next_seq es).

(** An own operation leaves [pending]; a remote one is applied to the local
    text, as it is, and transforms what is pending. *)
Definition integrate (cid : nat) (b : best_op) (es : editor_state) (s : collab_stats) : editor_state * collab_stats :=
  let '(es, s) :=
    if (best_peer b =? cid)%nat then
      match pending es, pending_seqs es with
      | _ :: ops, seq :: seqs =>
          if seq =? best_seq b then
            (mk_editor_state (leader es) (local_text es) ops seqs (peer_next_seq es) (next_seq es),
             mk_collab_stats (ops_submitted s) (ops_committed s + 1) (ops_transformed s))
          else (es, s)
      | _, _ => (es, s)
      end
    else
      (mk_editor_state (leader es) (apply_op (local_text es) (best_doc_op b))
         ((λ p, transform p (best_doc_op b)) <$> pending es) (pending_seqs es) (peer_next_seq es) (next_seq es),
       mk_collab_stats (ops_submitted s) (ops_committed s)
         (ops_transformed s + Z.of_nat (length (pending es)))) in
  (set_peer_seqs es
     (<[best_peer b := u64 (default 0 (peer_next_seq es !! best_peer b) + 1)]> (peer_next_seq es)), s).

(** The loop; [None]: still running after [fuel] rounds. *)
Fixpoint sync_committed_ops (fuel : nat) (ask : nat → answers) (round nclients cid : nat)
    (es : editor_state) (s : collab_stats) : option (editor_state * collab_stats) :=
  match fuel with
  | O => None
  | S f =>
      match find_best (ask round) nclients es with
      | None => Some (es, s)
      | Some b =>
          let '(es, s) := integrate cid b es s in
          sync_committed_ops f ask (S round) nclients cid es s
      end
  end.

(** * Editing and submitting *)

(** The random edit: [coin] is the second flip, the rest the uniform draws,
    [pos] in [[0, size]] for an insertion, and [pos < size],
    [1 <= len <= min(5, size - pos)] for a deletion. *)
Definition random_edit (text : txt) (coin : bool) (pos len : Z) (chars : list Z) : doc_op :=
  if bool_decide (text = []) || coin then
    insert_op (if bool_decide (text = []) then 0 else pos) ((λ c, char_of (97 + c)) <$> chars)
  else delete_op pos len.

Definition edit (op : doc_op) (es : editor_state) (s : collab_stats) : editor_state * collab_stats :=
  (mk_editor_state (leader es) (apply_op (local_text es) op) (pending es ++ [op])
     (pending_seqs es ++ [next_seq es]) (peer_next_seq es) (u64 (next_seq es + 1)),
   mk_collab_stats (ops_submitted s + 1) (ops_committed s) (ops_transformed s)).

(** The request of step 3, if anything is pending. *)
Definition submission (doc_id : txt) (cid : nat) (serial : Z) (es : editor_state) : option request :=
  match pending es, pending_seqs es with
  | op :: _, seq :: _ =>
      Some (put_request serial (op_key doc_id (Z.of_nat cid) seq) (serialize op) any_version)
  | _, _ => None
  end.

(** The submission loop ends at the first response; the others may change the
    leader. *)
Fixpoint submit_pending (responses : list (option response * option nat)) (random : nat → nat) (tries : nat)
    (es : editor_state) : option editor_state :=
  match responses with
  | [] => None
  | (Some _, _) :: _ => Some es
  | (None, redirection) :: responses' =>
      let l := default (leader es) redirection in
      let l := if (tries mod 3 =? 2)%nat then random tries else l in
      submit_pending responses' random (S tries)
        (mk_editor_state l (local_text es) (pending es) (pending_seqs es) (peer_next_seq es) (next_seq es))
  end.

(** * Reading one database *)

(** Every answer comes from [db], which does not change. *)
Definition ask_db (db : pancydb) (doc_id : txt) : answers :=
  λ peer seq, let '(e, value, version) := process_get db (op_key doc_id (Z.of_nat peer) seq) in
              Some (get_response 0 e value version).

Definition by_client (p : Z) (ops : list committed_op) : list committed_op :=
  filter (λ o, co_client_id o = p) ops.

(** Every editor numbers its operations 0, 1, 2, … and they are committed in
    that order, under the keys [op_key] makes. *)
Record well_numbered (db : pancydb) (doc_id : txt) (nclients : nat) : Prop := {
  wn_clients : ∀ o, o ∈ read_ops db doc_id → 0 ≤ co_client_id o < Z.of_nat nclients;
  wn_seqs : ∀ j o, read_ops db doc_id !! j = Some o →
    co_client_seq o = size (by_client (co_client_id o) (take j (read_ops db doc_id)));
  wn_keys : ∀ key v c, find key (db_ db) = Some v → cell_op (doc_op_prefix doc_id) (key, v) = Some c →
    key = op_key doc_id (co_client_id c) (co_client_seq c);
}.

(** * Lemmas *)

Lemma ask_db_spec db doc_id nclients peer seq ver op :
  db_wf db → well_numbered db doc_id nclients → (peer < 4096)%nat → is_u64 seq →
  answered_op (ask_db db doc_id peer seq) = Some (ver, op) ↔
  mk_committed_op ver (Z.of_nat peer) seq op [] ∈ read_ops db doc_id.
Proof.
  intros Hwf Hn Hp Hs. assert (Hpu : is_u64 (Z.of_nat peer)) by (unfold is_u64, two64; lia).
  rewrite elem_of_read_ops by done. unfold ask_db, process_get, find_vvptr. simpl. split.
  - destruct (find (op_key doc_id (Z.of_nat peer) seq) (db_ db)) as [v|] eqn:Hf; [|done]. simpl.
    case_if; [done|]. destruct (deserialize (vv_value v)) as [op'|] eqn:Hd; [|done]. intros [= <- <-].
    exists (op_key doc_id (Z.of_nat peer) seq), v. split; [done|].
    apply cell_op_op_key; [done|done| |done]. apply (wf_versions db Hwf) in Hf.
    unfold nonexistent_version. lia.
  - intros (key & v & Hf & Hc). pose proof (wn_keys _ _ _ Hn key v _ Hf Hc) as Hk. simpl in Hk. subst key.
    rewrite Hf. apply cell_op_Some in Hc as (suffix & cid & sq & op' & _ & _ & _ & _ & Hd & Heq).
    injection Heq as -> _ _ ->. simpl. rewrite Hd. rewrite bool_decide_eq_false_2; [done|].
    intros He. by rewrite He, deserialize_short in Hd.
Qed.

(** The round picks an operation of the least version among the answers. *)
Lemma find_best_fold ask es peers :
  let next p := default 0 (peer_next_seq es !! p) in
  match foldl (consider ask es) None peers with
  | None => ∀ p, p ∈ peers → answered_op (ask p (next p)) = None
  | Some b =>
      best_peer b ∈ peers ∧ best_seq b = next (best_peer b) ∧
      answered_op (ask (best_peer b) (best_seq b)) = Some (best_ver b, best_doc_op b) ∧
      ∀ p v o, p ∈ peers → answered_op (ask p (next p)) = Some (v, o) → best_ver b ≤ v
  end.
Proof.
  intros next. induction peers as [|p peers IH] using rev_ind; [by intros p ?%not_elem_of_nil|].
  rewrite foldl_app. simpl. unfold consider at 1. fold (next p).
  destruct (answered_op (ask p (next p))) as [[v o]|] eqn:Ea.
  - assert (Hnew : (∀ q w u, q ∈ peers → answered_op (ask q (next q)) = Some (w, u) → v ≤ w) →
      let b := mk_best_op p (next p) v o in
      best_peer b ∈ peers ++ [p] ∧ best_seq b = next (best_peer b) ∧
      answered_op (ask (best_peer b) (best_seq b)) = Some (best_ver b, best_doc_op b) ∧
      ∀ q w u, q ∈ peers ++ [p] → answered_op (ask q (next q)) = Some (w, u) → best_ver b ≤ w).
    { intros Hle b. split_and!; [apply elem_of_app; right; by left|done|done|].
      intros q w u [Hq|Hq%list_elem_of_singleton]%elem_of_app Hw; [by eapply Hle|subst q; simpl].
      rewrite Ea in Hw. injection Hw as <- _. lia. }
    destruct (foldl _ _ peers) as [b|].
    + destruct IH as (Hin & Hsq & Hans & Hmin). case_if.
      * apply Hnew. intros q w u Hq Hw. specialize (Hmin q w u Hq Hw).
        apply orb_true_iff in Ec as [Ec|Ec]; bsimp; lia.
      * split_and!; [apply elem_of_app; by left|done|done|].
        intros q w u [Hq|Hq%list_elem_of_singleton]%elem_of_app Hw; [by eapply Hmin|subst q].
        rewrite Ea in Hw. injection Hw as <- _. bsimp. lia.
    + apply Hnew. intros q w u Hq Hw. by rewrite IH in Hw.
  - destruct (foldl _ _ peers) as [b|].
    + destruct IH as (Hin & Hsq & Hans & Hmin). split_and!; [apply elem_of_app; by left|done|done|].
      intros q w u [Hq|Hq%list_elem_of_singleton]%elem_of_app Hw; [by eapply Hmin|subst q; congruence].
    + intros q [Hq|Hq%list_elem_of_singleton]%elem_of_app; [by apply IH|by subst].
Qed.

(** ** Reading in version order *)

Section Reading.
Context (db : pancydb) (doc_id : txt) (nclients cid : nat).
Hypothesis Hwf : db_wf db.
Hypothesis Hn : well_numbered db doc_id nclients.
Hypothesis Hclients : (nclients ≤ 4096)%nat.
Hypothesis Hsize : size (read_ops db doc_id) < two64.

Local Abbreviation ops := (read_ops db doc_id).
Local Abbreviation ask := (ask_db db doc_id).

(** How many operations of [p] are among the first [k]. *)
Definition count_by (p : nat) (k : nat) : Z := size (by_client (Z.of_nat p) (take k ops)).

Lemma count_by_bound p k : 0 ≤ count_by p k ≤ size ops.
Proof.
  unfold count_by, by_client, size. pose proof (length_filter (λ o, co_client_id o = Z.of_nat p) (take k ops)) as H.
  rewrite length_take in H. lia.
Qed.

Lemma count_by_u64 p k : is_u64 (count_by p k).
Proof. pose proof (count_by_bound p k). unfold is_u64. lia. Qed.

Lemma count_by_S p k o :
  ops !! k = Some o → count_by p (S k) = count_by p k + (if decide (co_client_id o = Z.of_nat p) then 1 else 0).
Proof.
  intros Ho. unfold count_by, by_client. rewrite (take_S_r _ _ o) by done. rewrite filter_app, size_app.
  f_equal. rewrite filter_cons. case_decide; done.
Qed.

Lemma count_by_mono p j k : (j ≤ k)%nat → count_by p j ≤ count_by p k.
Proof.
  intros H. unfold count_by. rewrite <- (take_drop j (take k ops)), take_take, Nat.min_l by done.
  unfold by_client. rewrite filter_app, size_app. pose proof (size_nonneg (filter (λ o, co_client_id o = Z.of_nat p) (drop j (take k ops)))). lia.
Qed.

(** The next operation a peer offers after [k] operations were read lies at
    position [k] or later. *)
Lemma offered_later p k ver op :
  (p < nclients)%nat →
  answered_op (ask p (count_by p k)) = Some (ver, op) →
  ∃ j o, (k ≤ j)%nat ∧ ops !! j = Some o ∧ co_client_id o = Z.of_nat p ∧ co_version o = ver ∧ co_op o = op.
Proof.
  intros Hp Ha. apply (ask_db_spec db doc_id nclients) in Ha; [|done|done|lia|apply count_by_u64].
  apply list_elem_of_lookup in Ha as [j Hj]. eexists j, _. split_and!; [|exact Hj|done..].
  destruct (decide (k ≤ j)%nat) as [|Hlt]; [done|]. exfalso.
  pose proof (wn_seqs _ _ _ Hn j _ Hj) as Hs. simpl in Hs. fold (count_by p j) in Hs.
  pose proof (count_by_S p j _ Hj) as HS. simpl in HS. rewrite decide_True in HS by done.
  pose proof (count_by_mono p (S j) k ltac:(lia)). lia.
Qed.

(** The operation at position [k] is offered by its author. *)
Lemma offered_now k o :
  ops !! k = Some o →
  ∃ p, (p < nclients)%nat ∧ co_client_id o = Z.of_nat p ∧ co_client_seq o = count_by p k ∧
       answered_op (ask p (count_by p k)) = Some (co_version o, co_op o).
Proof.
  intros Ho. assert (Hin : o ∈ ops) by by eapply list_elem_of_lookup_2.
  pose proof (wn_clients _ _ _ Hn o Hin) as Hc. exists (Z.to_nat (co_client_id o)).
  pose proof (wn_seqs _ _ _ Hn k o Ho) as Hs.
  assert (Hid : co_client_id o = Z.of_nat (Z.to_nat (co_client_id o))) by lia.
  assert (Hs' : co_client_seq o = count_by (Z.to_nat (co_client_id o)) k).
  { rewrite Hs. unfold count_by. by rewrite <- Hid. }
  split_and!; [lia|done|done|]. apply (ask_db_spec db doc_id nclients); [done|done|lia|apply count_by_u64|].
  rewrite <- Hid, <- Hs'. assert (Hl : co_client_id_label o = []).
  { apply elem_of_read_ops in Hin as (? & ? & _ & Hcell); [|done].
    by apply cell_op_Some in Hcell as (? & ? & ? & ? & _ & _ & _ & _ & _ & ->). }
  destruct o; simpl in *; by subst.
Qed.

(** After [k] operations were read. *)
Record read_upto (k : nat) (es : editor_state) : Prop := {
  ru_text : local_text es = reconstruct (take k ops);
  ru_pending : pending es = [];
  ru_next : peer_next_seq es = (λ p, count_by p k) <$> seq 0 nclients;
}.

Lemma ru_seq k es p : read_upto k es → (p < nclients)%nat → default 0 (peer_next_seq es !! p) = count_by p k.
Proof.
  intros H Hp. rewrite (ru_next _ _ H), list_lookup_fmap, lookup_seq_lt by done. done.
Qed.

Lemma find_best_end es : read_upto (length ops) es → find_best ask nclients es = None.
Proof.
  intros H. pose proof (find_best_fold ask es (seq 0 nclients)) as Hb. cbn zeta in Hb.
  unfold find_best. destruct (foldl _ _ _) as [b|]; [|done]. exfalso.
  destruct Hb as (Hin & Hsq & Ha & _). apply elem_of_seq in Hin.
  rewrite Hsq, (ru_seq _ _ _ H) in Ha by lia.
  apply offered_later in Ha as (j & o & Hj & Ho & _); [|lia]. apply lookup_lt_Some in Ho. lia.
Qed.

Lemma find_best_next k es o :
  read_upto k es → ops !! k = Some o →
  ∃ b, find_best ask nclients es = Some b ∧ (best_peer b < nclients)%nat ∧
    co_client_id o = Z.of_nat (best_peer b) ∧ best_doc_op b = co_op o.
Proof.
  intros H Ho. pose proof (find_best_fold ask es (seq 0 nclients)) as Hb. cbn zeta in Hb.
  destruct (offered_now k o Ho) as (p & Hp & Hc & _ & Ha).
  rewrite <- (ru_seq _ _ _ H Hp) in Ha.
  assert (Hpin : p ∈ seq 0 nclients) by (apply elem_of_seq; lia).
  unfold find_best. destruct (foldl _ _ _) as [b|]; [|by rewrite Hb in Ha].
  destruct Hb as (Hin & Hsq & Hab & Hmin). apply elem_of_seq in Hin. exists b.
  rewrite Hsq, (ru_seq _ _ _ H) in Hab by lia.
  apply offered_later in Hab as (j & o' & Hj & Ho' & Hc' & Hv' & Hop'); [|lia].
  specialize (Hmin _ _ _ Hpin Ha).
  assert (j = k) as ->.
  { destruct (decide (j = k)) as [|Hne]; [done|]. exfalso.
    pose proof (StronglySorted_app_1_elem_of version_lt (take j ops) (drop j ops) o o') as Hs.
    rewrite take_drop in Hs. unfold version_lt in Hs.
    assert (co_version o < co_version o'); [|lia]. apply Hs; [by apply read_ops_sorted| |].
    - apply list_elem_of_lookup. exists k. by rewrite lookup_take_lt by lia.
    - apply list_elem_of_lookup. exists 0%nat. by rewrite lookup_drop, Nat.add_0_r. }
  rewrite Ho in Ho'. injection Ho' as <-. split_and!; [done|lia|done|done].
Qed.

Lemma integrate_next k es s o b :
  read_upto k es → ops !! k = Some o → (best_peer b < nclients)%nat →
  co_client_id o = Z.of_nat (best_peer b) → best_doc_op b = co_op o → best_peer b ≠ cid →
  read_upto (S k) (integrate cid b es s).1.
Proof.
  intros H Ho Hp Hc Hop Hne. unfold integrate. rewrite (proj2 (Nat.eqb_neq _ _) Hne). split; simpl.
  - rewrite (take_S_r _ _ o), reconstruct_snoc by done. by rewrite (ru_text _ _ H), Hop.
  - by rewrite (ru_pending _ _ H).
  - apply list_eq. intros p. rewrite (ru_next _ _ H).
    destruct (decide (p < nclients)%nat) as [Hlt|Hge].
    2: { rewrite !lookup_ge_None_2; [done| |]; rewrite ?length_insert, length_fmap, length_seq; lia. }
    rewrite (list_lookup_fmap (λ p, count_by p (S k))), lookup_seq_lt by done. simpl.
    rewrite (count_by_S p k o Ho). destruct (decide (p = best_peer b)) as [->|Hpb].
    + rewrite list_lookup_insert_eq by (rewrite length_fmap, length_seq; done).
      rewrite decide_True by done. f_equal. rewrite list_lookup_fmap, lookup_seq_lt by done. simpl.
      apply u64_small. pose proof (count_by_bound (best_peer b) (S k)). rewrite (count_by_S _ _ o Ho), decide_True in H0 by done.
      unfold is_u64. lia.
    + rewrite list_lookup_insert_ne by done. rewrite list_lookup_fmap, lookup_seq_lt by done. simpl.
      rewrite decide_False by lia. f_equal. lia.
Qed.

Lemma sync_reads fuel k round es s :
  (∀ o, o ∈ ops → co_client_id o ≠ Z.of_nat cid) →
  read_upto k es → (k ≤ length ops)%nat → (length ops - k < fuel)%nat →
  ∃ es' s', sync_committed_ops fuel (λ _, ask) round nclients cid es s = Some (es', s') ∧
    read_upto (length ops) es'.
Proof.
  intros Hno. revert k round es s. induction fuel as [|f IH]; intros k round es s H Hk Hf; [lia|]. simpl.
  destruct (decide (k = length ops)) as [->|Hne]; [rewrite find_best_end by done; by exists es, s|].
  destruct (lookup_lt_is_Some_2 ops k) as [o Ho]; [lia|].
  destruct (find_best_next k es o H Ho) as (b & -> & Hp & Hc & Hop).
  assert (Hnc : best_peer b ≠ cid).
  { intros <-. eapply Hno; [by eapply list_elem_of_lookup_2|done]. }
  pose proof (integrate_next k es s o b H Ho Hp Hc Hop Hnc) as Hi.
  destruct (integrate cid b es s) as [es1 s1]. apply (IH (S k)); [done|lia|lia].
Qed.
End Reading.

(** * Properties *)

(** An editor that only reads converges: from a database whose editors
    number their operations in commit order, one synchronisation of a new
    editor ends, after as many rounds as there are operations, with the text
    of the document.  Merging the editors by least version is reading in
    version order. *)
Theorem sync_reader_converges (db : pancydb) (doc_id : txt) (nclients cid leader : nat) (s : collab_stats) :
  db_wf db → well_numbered db doc_id nclients → (nclients ≤ 4096)%nat → size (read_ops db doc_id) < two64 →
  (∀ o, o ∈ read_ops db doc_id → co_client_id o ≠ Z.of_nat cid) →
  ∃ es s', sync_committed_ops (S (length (read_ops db doc_id))) (λ _, ask_db db doc_id) 0 nclients cid
             (new_editor leader nclients) s = Some (es, s') ∧
    local_text es = reconstruct (read_ops db doc_id).
Proof.
  intros Hwf Hn Hcl Hsz Hno.
  destruct (sync_reads db doc_id nclients cid Hwf Hn Hcl Hsz (S (length (read_ops db doc_id))) 0 0
              (new_editor leader nclients) s) as (es & s' & Hs & Hr); [done| |lia|lia|].
  - split; simpl; [done|done|]. apply list_eq. intros p.
    destruct (decide (p < nclients)%nat) as [Hlt|Hge].
    + rewrite list_lookup_fmap, lookup_seq_lt by done. by rewrite lookup_replicate_2.
    + rewrite !lookup_ge_None_2; [done| |]; rewrite ?length_replicate, ?length_fmap, ?length_seq; lia.
  - exists es, s'. split; [done|]. by rewrite (ru_text _ _ _ _ _ Hr), firstn_all.
Qed.

Lemma sync_reader_converges_witness :
  let db := put (put (put empty_db (op_key $"d" 1 0) (serialize (insert_op 0 $"world")))
                  (op_key $"d" 0 0) (serialize (insert_op 0 $"hello ")))
                (op_key $"d" 1 1) (serialize (delete_op 6 1)) in
  ∃ es s', sync_committed_ops (S (length (read_ops db $"d"))) (λ _, ask_db db $"d") 0 3 2
             (new_editor 0 3) (mk_collab_stats 0 0 0) = Some (es, s') ∧ local_text es = $"hello orld".
Proof.
  intros db. destruct (sync_reader_converges db $"d" 3 2 0 (mk_collab_stats 0 0 0)) as (es & s' & Hs & Ht).
  - by do 3 apply put_wf; apply empty_db_wf.
  - assert (Hops : read_ops db $"d" = [mk_committed_op 1 1 0 (insert_op 0 $"world") [];
      mk_committed_op 2 0 0 (insert_op 0 $"hello ") []; mk_committed_op 3 1 1 (delete_op 6 1) []]) by by vm_compute.
    split; rewrite ?Hops.
    + intros o. rewrite !elem_of_cons, elem_of_nil. intros [->|[->|[->|[]]]]; simpl; lia.
    + intros [|[|[|j]]] o; [intros [= <-]; by vm_compute..|done].
    + intros key v c Hf Hc. apply find_In in Hf; [|do 3 apply put_wf; apply empty_db_wf].
      assert (Hall : forallb (λ kv, match cell_op (doc_op_prefix $"d") kv with
          | Some c => teqb kv.1 (op_key $"d" (co_client_id c) (co_client_seq c)) | None => true end) (db_ db) = true)
        by by vm_compute.
      rewrite forallb_forall in Hall. apply list_elem_of_In in Hf. specialize (Hall _ Hf). rewrite Hc in Hall.
      by apply bool_decide_eq_true in Hall.
  - lia.
  - by vm_compute.
  - assert (Hops : co_client_id <$> read_ops db $"d" = [1; 0; 1]) by by vm_compute.
    intros o Ho. apply (list_elem_of_fmap_2 co_client_id) in Ho. rewrite Hops in Ho.
    rewrite !elem_of_cons, elem_of_nil in Ho. simpl. lia.
  - exists es, s'. split; [done|]. rewrite Ht. by vm_compute.
Defined.

(** An editor that types while others commit does not converge: a remote
    operation is applied to the local text without being transformed against
    the pending operations.  Everything committed and acknowledged, the local
    text differs from the document for good. *)
Theorem local_text_diverges :
  let d := $"d" in
  let sync db es :=
    match sync_committed_ops 5 (λ _, ask_db db d) 0 2 1 es (mk_collab_stats 0 0 0) with
    | Some (es, _) => es | None => es end in
  let db1 := put empty_db (op_key d 0 0) (serialize (insert_op 0 $"abc")) in
  let es2 := (edit (delete_op 0 1) (sync db1 (new_editor 0 2)) (mk_collab_stats 0 0 0)).1 in
  let db2 := put db1 (op_key d 0 1) (serialize (insert_op 1 $"X")) in
  let es3 := sync db2 es2 in
  let req := put_request 4097 (op_key d 1 0) (serialize (delete_op 0 1)) any_version in
  submission d 1 4097 es3 = Some req ∧
    let db3 := (process_req db2 req).1 in
    let es4 := sync db3 es3 in
    pending es4 = [] ∧ find_best (ask_db db3 d) 2 es4 = None ∧
    local_text es4 = $"bXc" ∧ reconstruct (read_ops db3 d) = $"Xbc".
Proof. by vm_compute. Qed.
