(* ===== verification/FailureSchedules.v ===== *)
(** The failure schedules of the test driver, [src/pset4/pt-paxos.cc]: the
    message loss of every link of a [pt_paxos_instance], the operations that
    change it, the schedules built from them, and the choice of the replica the
    final check takes as its reference.

    Link losses are the configured loss or 1.0.  A schedule is the sequence of
    its operations; the waits between them are left out, random draws are
    inputs, and a loop that runs until a time is a list of rounds. *)

From S2P Require Import Prelude.

Inductive failure_schedule_kind :=
  | fs_none | fs_failover | fs_recover | fs_split | fs_unstable | fs_torture | fs_darias | fs_eric
  | fs_eric_recover | fs_eric_split | fs_random.

Definition parse_failure_schedule (s : txt) : option failure_schedule_kind :=
  if teqb s $"none" then Some fs_none
  else if teqb s $"failover" then Some fs_failover
  else if teqb s $"recover" then Some fs_recover
  else if teqb s $"split" then Some fs_split
  else if teqb s $"unstable" then Some fs_unstable
  else if teqb s $"torture" then Some fs_torture
  else if teqb s $"darias" then Some fs_darias
  else if teqb s $"eric" then Some fs_eric
  else if teqb s $"eric-recover" then Some fs_eric_recover
  else if teqb s $"eric-split" then Some fs_eric_split
  else if teqb s $"random" then Some fs_random
  else None.

(** * Links *)

(** The channels of an instance: from the clients to a replica, back, and
    between two replicas. *)
Inductive link :=
  | request_channel (rid : nat)
  | to_clients (rid : nat)
  | to_replicas (src dst : nat).

#[export] Instance link_eq_dec : EqDecision link.
Proof. solve_decision. Defined.

Inductive link_loss := base_loss | total_loss.

#[export] Instance link_loss_eq_dec : EqDecision link_loss.
Proof. solve_decision. Defined.

Record network := mk_network {
  nreplicas : nat;
  loss : link → link_loss;
  replica_available : nat → bool;
}.

Definition set_loss (v : link_loss) (net : network) (l : link) : network :=
  mk_network (nreplicas net) (λ k, if decide (k = l) then v else loss net k) (replica_available net).

Definition set_links (v : link_loss) (ls : list link) (net : network) : network := foldl (set_loss v) net ls.

Definition set_available (rid : nat) (b : bool) (net : network) : network :=
  mk_network (nreplicas net) (loss net) (λ s, if decide (s = rid) then b else replica_available net s).

(** The loops over the replicas, as the links they visit. *)
Definition client_links (n : nat) : list link := seq 0 n ≫= λ s, [request_channel s; to_clients s].
Definition replica_links (n : nat) : list link := seq 0 n ≫= λ s, to_replicas s <$> seq 0 n.
Definition links_of (n rid : nat) : list link :=
  request_channel rid :: to_clients rid :: (seq 0 n ≫= λ s, [to_replicas rid s; to_replicas s rid]).
Definition interconnection (n rid : nat) : list link :=
  seq 0 n ≫= λ s, if decide (s = rid) then [] else [to_replicas rid s; to_replicas s rid].

Definition heal_all_links (net : network) : network :=
  set_links base_loss (replica_links (nreplicas net)) (set_links base_loss (client_links (nreplicas net)) net).

Definition fail_replica (rid : nat) (net : network) : network :=
  set_links total_loss (links_of (nreplicas net) rid) (set_available rid false net).

Definition recover_replica (rid : nat) (net : network) : network :=
  set_links base_loss (links_of (nreplicas net) rid) (set_available rid true net).

Definition partition_one_against_rest (rid : nat) (net : network) : network :=
  let net := heal_all_links net in set_links total_loss (interconnection (nreplicas net) rid) net.

Definition set_partition_loss (left right : list nat) (v : link_loss) (net : network) : network :=
  set_links v (left ≫= λ l, right ≫= λ r, [to_replicas l r; to_replicas r l]) net.

Definition set_replica_link_loss (i j : nat) (v : link_loss) (net : network) : network :=
  if (i =? j)%nat then net else set_loss v net (to_replicas i j).

Definition set_replica_client_connectivity (rid : nat) (request response : link_loss) (net : network) : network :=
  set_loss response (set_loss request net (request_channel rid)) (to_clients rid).

Definition set_replica_interconnectivity (rid : nat) (v : link_loss) (net : network) : network :=
  set_links v (interconnection (nreplicas net) rid) net.

Definition set_replica_failure (rid : nat) (v : link_loss) (net : network) : network :=
  set_replica_interconnectivity rid v (set_replica_client_connectivity rid v v net).

(** * Schedules *)

Definition schedule := list (network → network).
Definition run_schedule (sch : schedule) (net : network) : network := foldl (λ net f, f net) net sch.

Definition schedule_failover (leader : nat) : schedule := [fail_replica leader].
Definition schedule_recovery (leader : nat) : schedule := [fail_replica leader; recover_replica leader].

Definition schedule_split_brain (n leader : nat) : schedule :=
  if (n <=? 1)%nat then [] else [partition_one_against_rest leader; heal_all_links].

(** The size of the connected group; the groups are cut from the leader and
    the shuffled followers. *)
Definition connected_count (n : nat) : nat := Nat.max 2 (Nat.min n (n / 2 + 2)).
Definition connected_group (n leader : nat) (followers : list nat) : list nat :=
  leader :: take (connected_count n - 1) followers.
Definition isolated_group (n : nat) (followers : list nat) : list nat := drop (connected_count n - 1) followers.

Definition cut_isolated (n leader : nat) (followers : list nat) : schedule :=
  if bool_decide (isolated_group n followers = []) then []
  else [set_partition_loss (connected_group n leader followers) (isolated_group n followers) total_loss].

(** One round of the first loop of [schedule_unstable_mixed]. *)
Definition unstable_round (n leader : nat) (followers : list nat) (victim : nat) : schedule :=
  [fail_replica victim; recover_replica victim] ++ cut_isolated n leader followers.

Definition churn_round (victim : nat) : schedule := [fail_replica victim; recover_replica victim].

Definition recover_unavailable (net : network) : network :=
  foldl (λ net s, if replica_available net s then net else recover_replica s net) net (seq 0 (nreplicas net)).

Definition schedule_unstable_mixed (n leader : nat) (followers : list nat) (victims churn : list nat) : schedule :=
  if (n <=? 1)%nat then []
  else
    cut_isolated n leader followers ++ (victims ≫= unstable_round n leader followers) ++ [heal_all_links]
    ++ (churn ≫= churn_round) ++ [heal_all_links; recover_unavailable].

(** A round of the first phase of [schedule_torture]: the victim, and the
    isolated replica that fails with it, if the coin says so. *)
Definition torture_round (n leader : nat) (followers : list nat) (draw : nat * option nat) : schedule :=
  let '(victim, fringe) := draw in
  [fail_replica victim; recover_replica victim]
  ++ (if bool_decide (isolated_group n followers = []) then []
      else cut_isolated n leader followers
           ++ match fringe with
              | Some f => [fail_replica f; recover_replica f] ++ cut_isolated n leader followers
              | None => []
              end).

Definition schedule_torture (n leader : nat) (followers : list nat) (draws : list (nat * option nat))
    (leaders : list nat) : schedule :=
  if (n <=? 1)%nat then []
  else
    cut_isolated n leader followers ++ (draws ≫= torture_round n leader followers) ++ [heal_all_links]
    ++ (leaders ≫= churn_round).

(** [pairs] is the shuffled list of pairs with the coin flips; [true] cuts the
    pair as it is first. *)
Definition first_round (pairs : list (nat * nat * bool)) : list (nat * nat) :=
  (λ p : nat * nat * bool, if p.2 then p.1 else (p.1.2, p.1.1)) <$> pairs.
Definition second_round (pairs : list (nat * nat * bool)) : list (nat * nat) :=
  (λ p : nat * nat * bool, if p.2 then (p.1.2, p.1.1) else p.1) <$> pairs.

Definition set_pairs (v : link_loss) (pairs : list (nat * nat)) : schedule :=
  (λ p : nat * nat, set_replica_link_loss p.1 p.2 v) <$> pairs.

Definition schedule_darias (n : nat) (pairs : list (nat * nat * bool)) : schedule :=
  if (n <=? 1)%nat then []
  else
    set_pairs total_loss (first_round pairs) ++ set_pairs total_loss (second_round pairs)
    ++ set_pairs base_loss (first_round pairs) ++ set_pairs base_loss (second_round pairs).

Definition schedule_eric (leader : nat) : schedule := [set_replica_failure leader total_loss].
Definition schedule_eric_recover (leader : nat) : schedule :=
  [set_replica_failure leader total_loss; set_replica_failure leader base_loss].
Definition schedule_eric_split_brain (leader : nat) : schedule :=
  [set_replica_interconnectivity leader total_loss; set_replica_interconnectivity leader base_loss].

(** The draws of a run: the shuffled followers, the victims of the loops, the
    pairs, the leader that [eric] finds, and the choice of [random]. *)
Record draws := mk_draws {
  d_followers : list nat;
  d_victims : list nat;
  d_churn : list nat;
  d_torture : list (nat * option nat);
  d_leaders : list nat;
  d_pairs : list (nat * nat * bool);
  d_current_leader : nat;
  d_choice : Z;
}.

Definition schedule_random (n leader : nat) (d : draws) : schedule :=
  if d_choice d =? 0 then schedule_failover leader
  else if d_choice d =? 1 then schedule_recovery leader
  else if d_choice d =? 2 then schedule_split_brain n leader
  else schedule_unstable_mixed n leader (d_followers d) (d_victims d) (d_churn d).

Definition run_failure_schedule (kind : failure_schedule_kind) (n leader : nat) (d : draws) : schedule :=
  match kind with
  | fs_none => []
  | fs_failover => schedule_failover leader
  | fs_recover => schedule_recovery leader
  | fs_split => schedule_split_brain n leader
  | fs_unstable => schedule_unstable_mixed n leader (d_followers d) (d_victims d) (d_churn d)
  | fs_torture => schedule_torture n leader (d_followers d) (d_torture d) (d_leaders d)
  | fs_darias => schedule_darias n (d_pairs d)
  | fs_eric => schedule_eric (d_current_leader d)
  | fs_eric_recover => schedule_eric_recover (d_current_leader d)
  | fs_eric_split => schedule_eric_split_brain (d_current_leader d)
  | fs_random => schedule_random n leader d
  end.

(** The reference replica of [try_one_seed]. *)
Definition better_replica (available : nat → bool) (ignored : option nat) (last_applied : nat → Z)
    (best s : nat) : nat :=
  if negb (available s) then best
  else if bool_decide (ignored = Some s) then best
  else if negb (available best) || (last_applied best <? last_applied s) then s else best.

Definition best_replica (n : nat) (available : nat → bool) (ignored : option nat) (last_applied : nat → Z) : nat :=
  foldl (better_replica available ignored last_applied) 0%nat (seq 1 (n - 1)).

(** * What a schedule leaves *)

Definition links_healed (net : network) : Prop :=
  ∀ l, l ∈ client_links (nreplicas net) ++ replica_links (nreplicas net) → loss net l = base_loss.

Record healed (net : network) : Prop := {
  healed_links : links_healed net;
  healed_available : ∀ s, (s < nreplicas net)%nat → replica_available net s = true;
}.

(** * Lemmas *)

Lemma loss_set_links v ls net l : loss (set_links v ls net) l = if decide (l ∈ ls) then v else loss net l.
Proof.
  unfold set_links. induction ls as [|k ls IH] using rev_ind; [done|].
  rewrite foldl_app. simpl. rewrite IH.
  destruct (decide (l = k)) as [->|Hne].
  - rewrite decide_True; [done|]. apply elem_of_app. right. by left.
  - destruct (decide (l ∈ ls)); [rewrite decide_True; [done|apply elem_of_app; by left]|].
    rewrite decide_False; [done|]. rewrite elem_of_app, list_elem_of_singleton. tauto.
Qed.

Lemma set_links_frame v ls net :
  nreplicas (set_links v ls net) = nreplicas net ∧
  replica_available (set_links v ls net) = replica_available net.
Proof.
  unfold set_links. revert net. induction ls as [|k ls IH]; intros net; [done|]. simpl.
  destruct (IH (set_loss v net k)) as [-> ->]. done.
Qed.

Lemma nreplicas_set_links v ls net : nreplicas (set_links v ls net) = nreplicas net.
Proof. apply set_links_frame. Qed.
Lemma available_set_links v ls net : replica_available (set_links v ls net) = replica_available net.
Proof. apply set_links_frame. Qed.

#[local] Arguments links_of : simpl never.
#[local] Arguments interconnection : simpl never.
#[local] Arguments set_links : simpl never.
#[local] Hint Rewrite loss_set_links nreplicas_set_links available_set_links : draft_rw.

(** ** Healing *)

Lemma heal_links_healed net : links_healed (heal_all_links net).
Proof.
  intros l. unfold heal_all_links. autorewrite with draft_rw. rewrite elem_of_app.
  intros [Hl|Hl]; repeat case_decide; done.
Qed.

Lemma heal_healed net : (∀ s, (s < nreplicas net)%nat → replica_available net s = true) → healed (heal_all_links net).
Proof.
  intros Ha. split; [apply heal_links_healed|]. unfold heal_all_links. by autorewrite with draft_rw.
Qed.

(** Undoing: setting a set of links back to the base loss. *)
Lemma set_links_undo ls v net : healed net → healed (set_links base_loss ls (set_links v ls net)).
Proof.
  intros [Hl Ha]. split; autorewrite with draft_rw; [|done]. intros l. autorewrite with draft_rw.
  intros Hin. repeat case_decide; [done..|]. by apply Hl.
Qed.

Lemma set_available_same_links b rid net :
  loss (set_available rid b net) = loss net ∧ nreplicas (set_available rid b net) = nreplicas net.
Proof. done. Qed.

Lemma fail_recover_healed rid net : healed net → healed (recover_replica rid (fail_replica rid net)).
Proof.
  intros [Hl Ha]. unfold recover_replica, fail_replica. split.
  - intros l. autorewrite with draft_rw. simpl. autorewrite with draft_rw. simpl.
    intros Hin. repeat case_decide; [done..|]. by apply Hl.
  - intros s. autorewrite with draft_rw. simpl. autorewrite with draft_rw. simpl.
    intros Hs. repeat case_decide; [done..|]. by apply Ha.
Qed.

Lemma run_schedule_app a b net : run_schedule (a ++ b) net = run_schedule b (run_schedule a net).
Proof. apply foldl_app. Qed.

Lemma churn_healed victims net : healed net → healed (run_schedule (victims ≫= churn_round) net).
Proof.
  revert net. induction victims as [|v victims IH]; intros net H; [done|]. simpl.
  by apply IH, fail_recover_healed.
Qed.

Lemma recover_replica_healed rid net : healed net → healed (recover_replica rid net).
Proof.
  intros [Hl Ha]. unfold recover_replica. split.
  - intros l. autorewrite with draft_rw. simpl. intros Hin. case_decide; [done|]. by apply Hl.
  - intros s. autorewrite with draft_rw. simpl. intros Hs. case_decide; [done|]. by apply Ha.
Qed.

Lemma recover_unavailable_healed net : healed net → healed (recover_unavailable net).
Proof.
  unfold recover_unavailable. generalize (seq 0 (nreplicas net)). intros ss. revert net.
  induction ss as [|s ss IH]; intros net H; simpl; [done|]. apply IH. case_match; [done|].
  by apply recover_replica_healed.
Qed.

(** Rounds that fail and recover keep every replica available, whatever
    happens to the links. *)
Definition all_available (net : network) : Prop := ∀ s, (s < nreplicas net)%nat → replica_available net s = true.

Lemma healed_all net : healed net → all_available net.
Proof. by intros []. Qed.

Lemma fail_recover_available rid net : all_available net → all_available (recover_replica rid (fail_replica rid net)).
Proof.
  intros Ha s. unfold recover_replica, fail_replica. autorewrite with draft_rw. simpl.
  autorewrite with draft_rw. simpl. intros Hs. repeat case_decide; [done..|]. by apply Ha.
Qed.

Lemma set_links_available v ls net : all_available net → all_available (set_links v ls net).
Proof. intros Ha s. autorewrite with draft_rw. apply Ha. Qed.

Lemma cut_available n leader followers net :
  all_available net → all_available (run_schedule (cut_isolated n leader followers) net).
Proof.
  intros H. unfold cut_isolated. case_match; [done|]. simpl. unfold set_partition_loss. by apply set_links_available.
Qed.

Lemma unstable_available n leader followers victims net :
  all_available net → all_available (run_schedule (victims ≫= unstable_round n leader followers) net).
Proof.
  revert net. induction victims as [|v victims IH]; intros net H; [done|].
  change (_ ≫= _) with (unstable_round n leader followers v ++ (victims ≫= unstable_round n leader followers)).
  rewrite run_schedule_app. apply IH. unfold unstable_round. rewrite run_schedule_app.
  by apply cut_available, fail_recover_available.
Qed.

Lemma torture_available n leader followers rounds net :
  all_available net → all_available (run_schedule (rounds ≫= torture_round n leader followers) net).
Proof.
  revert net. induction rounds as [|[v fringe] rounds IH]; intros net H; [done|].
  change (_ ≫= _) with (torture_round n leader followers (v, fringe) ++ (rounds ≫= torture_round n leader followers)).
  rewrite run_schedule_app. apply IH. unfold torture_round. rewrite run_schedule_app.
  apply (fail_recover_available v) in H. case_match; [done|]. rewrite run_schedule_app.
  apply cut_available with (n := n) (leader := leader) (followers := followers) in H.
  destruct fringe as [f|]; [|done]. rewrite run_schedule_app. by apply cut_available, fail_recover_available.
Qed.

(** ** Pairs *)

Definition pair_links (pairs : list (nat * nat)) : list link :=
  pairs ≫= λ p, if decide (p.1 = p.2) then [] else [to_replicas p.1 p.2].

Lemma run_set_pairs v pairs net : run_schedule (set_pairs v pairs) net = set_links v (pair_links pairs) net.
Proof.
  revert net. induction pairs as [|[i j] pairs IH]; intros net; [done|]. simpl.
  change (foldl (λ net f, f net) ?x (set_pairs v pairs)) with (run_schedule (set_pairs v pairs) x).
  rewrite IH. unfold set_replica_link_loss, set_links, pair_links. simpl.
  destruct (i =? j)%nat eqn:E; [apply Nat.eqb_eq in E|apply Nat.eqb_neq in E].
  - by rewrite decide_True.
  - by rewrite decide_False.
Qed.

Lemma set_links_app v ls ks net : set_links v ks (set_links v ls net) = set_links v (ls ++ ks) net.
Proof. unfold set_links. by rewrite foldl_app. Qed.

Lemma failure_links rid v net :
  set_replica_failure rid v net =
  set_links v (request_channel rid :: to_clients rid :: interconnection (nreplicas net) rid) net.
Proof. done. Qed.

Lemma unstable_heals n leader followers victims churn net :
  healed net → healed (run_schedule (schedule_unstable_mixed n leader followers victims churn) net).
Proof.
  intros H. unfold schedule_unstable_mixed. case_match; [done|].
  rewrite !run_schedule_app. simpl. apply recover_unavailable_healed, heal_healed, healed_all.
  apply churn_healed, heal_healed, unstable_available, cut_available, healed_all, H.
Qed.

Lemma torture_heals n leader followers rounds leaders net :
  healed net → healed (run_schedule (schedule_torture n leader followers rounds leaders) net).
Proof.
  intros H. unfold schedule_torture. case_match; [done|].
  rewrite !run_schedule_app. simpl. apply churn_healed, heal_healed, torture_available, cut_available, healed_all, H.
Qed.

Lemma split_heals n leader net : healed net → healed (run_schedule (schedule_split_brain n leader) net).
Proof.
  intros H. unfold schedule_split_brain. case_match; [done|]. simpl. apply heal_healed.
  unfold partition_one_against_rest, heal_all_links. apply set_links_available, set_links_available, set_links_available, healed_all, H.
Qed.

Lemma darias_heals n pairs net : healed net → healed (run_schedule (schedule_darias n pairs) net).
Proof.
  intros H. unfold schedule_darias. case_match; [done|]. rewrite !run_schedule_app, !run_set_pairs, !set_links_app.
  by apply set_links_undo.
Qed.

Lemma elem_of_take_in {A} (x : A) k l : x ∈ take k l → x ∈ l.
Proof. intros (i & Hi & _)%elem_of_take. by eapply list_elem_of_lookup_2. Qed.

(** ** The quorum of the unstable schedule *)

(** The members of [group] other than [out] exchange messages. *)
Definition connected (group : list nat) (out : option nat) (net : network) : Prop :=
  ∀ a b, a ∈ group → b ∈ group → out ≠ Some a → out ≠ Some b → loss net (to_replicas a b) = base_loss.

Lemma fail_connected group v net : connected group None net → connected group (Some v) (fail_replica v net).
Proof.
  intros H a b Ha Hb Hna Hnb. unfold fail_replica. autorewrite with draft_rw. simpl.
  rewrite decide_False; [by apply H|]. unfold links_of. rewrite !elem_of_cons, list_elem_of_bind.
  intros [?|[?|(s & Hs & _)]]; [done|done|]. rewrite !elem_of_cons, elem_of_nil in Hs. naive_solver.
Qed.

Lemma recover_connected group v net :
  connected group (Some v) net → (∀ a, a ∈ group → (a < nreplicas net)%nat) →
  connected group None (recover_replica v net).
Proof.
  intros H Hlt a b Ha Hb _ _. unfold recover_replica. autorewrite with draft_rw. simpl.
  case_decide as Hin; [done|]. unfold links_of in Hin. rewrite !elem_of_cons, list_elem_of_bind in Hin.
  assert (Hout : ∀ s, s ∈ group → to_replicas a b = to_replicas v s ∨ to_replicas a b = to_replicas s v → False).
  { intros s Hs Hor. apply Hin. right. right. exists s. split.
    - rewrite !elem_of_cons. destruct Hor; auto.
    - apply elem_of_seq. specialize (Hlt s Hs). simpl. lia. }
  apply H; [done|done| |]; intros [= <-]; [apply (Hout b Hb); by left|apply (Hout a Ha); by right].
Qed.

Lemma cut_connected n leader followers net :
  NoDup (leader :: followers) → connected (connected_group n leader followers) None net →
  connected (connected_group n leader followers) None (run_schedule (cut_isolated n leader followers) net).
Proof.
  intros Hnd H. unfold cut_isolated. case_match; [done|]. simpl. intros a b Ha Hb _ _.
  unfold set_partition_loss. autorewrite with draft_rw. rewrite decide_False; [by apply H|].
  assert (Hdis : ∀ x, x ∈ connected_group n leader followers → x ∈ isolated_group n followers → False).
  { intros x Hx Hi. unfold connected_group, isolated_group in *.
    rewrite <- (take_drop (connected_count n - 1) followers) in Hnd.
    apply NoDup_cons in Hnd as [Hl Hnd]. apply NoDup_app in Hnd as (_ & Hd & _).
    apply elem_of_cons in Hx as [->|Hx]; [|by eapply Hd]. apply Hl, elem_of_app. by right. }
  rewrite list_elem_of_bind. intros (l & Hl & Hlin). rewrite list_elem_of_bind in Hl.
  destruct Hl as (r & Hr & Hrin). rewrite !elem_of_cons, elem_of_nil in Hr.
  destruct Hr as [Hr|[Hr|[]]]; injection Hr as -> ->; eauto.
Qed.

Lemma nreplicas_round n leader followers v net :
  nreplicas (run_schedule (unstable_round n leader followers v) net) = nreplicas net.
Proof.
  unfold unstable_round. rewrite run_schedule_app. simpl. unfold cut_isolated. case_match; simpl;
    unfold recover_replica, fail_replica, set_partition_loss; autorewrite with draft_rw; simpl;
    by autorewrite with draft_rw.
Qed.

Lemma unstable_rounds_connected n leader followers victims net :
  NoDup (leader :: followers) → (∀ a, a ∈ leader :: followers → (a < nreplicas net)%nat) →
  connected (connected_group n leader followers) None net →
  let net' := run_schedule (victims ≫= unstable_round n leader followers) net in
  connected (connected_group n leader followers) None net' ∧ nreplicas net' = nreplicas net.
Proof.
  intros Hnd. revert net. induction victims as [|v victims IH]; intros net Hlt H; [done|].
  change (_ ≫= _) with (unstable_round n leader followers v ++ (victims ≫= unstable_round n leader followers)).
  cbn zeta. rewrite run_schedule_app. rewrite <- (nreplicas_round n leader followers v net).
  apply IH; [by rewrite nreplicas_round|]. unfold unstable_round. rewrite run_schedule_app.
  apply cut_connected; [done|]. simpl. apply recover_connected; [by apply fail_connected|].
  intros a Ha. unfold fail_replica. autorewrite with draft_rw. simpl. apply Hlt.
  unfold connected_group in Ha. apply elem_of_cons in Ha as [->|Ha]; [by left|].
  right. by eapply elem_of_take_in.
Qed.

Lemma length_filter_removed (l : list nat) (x : nat) :
  NoDup l → (length l ≤ S (length (filter (λ a, a ≠ x) l)))%nat.
Proof.
  induction 1 as [|y l Hy Hl IH]; [simpl; lia|]. rewrite filter_cons.
  destruct (decide (y ≠ x)) as [Hne|He]; simpl; [lia|].
  assert (y = x) as -> by (destruct (decide (y = x)); tauto).
  rewrite filter_all; [lia|]. apply Forall_forall. intros z Hz ->. done.
Qed.

(** ** The reference replica *)

Lemma best_replica_fold available ignored last_applied ss b0 :
  let b := foldl (better_replica available ignored last_applied) b0 ss in
  (available b0 = true → available b = true ∧ last_applied b0 ≤ last_applied b) ∧
  (∀ s, s ∈ ss → available s = true → ignored ≠ Some s → available b = true ∧ last_applied s ≤ last_applied b).
Proof.
  revert b0. induction ss as [|s ss IH]; intros b0; cbn zeta; simpl.
  - split; [done|by intros s ?%not_elem_of_nil].
  - destruct (IH (better_replica available ignored last_applied b0 s)) as [H0 Hm]. cbn zeta in H0, Hm.
    assert (Hb : (available b0 = true → available (better_replica available ignored last_applied b0 s) = true ∧
              last_applied b0 ≤ last_applied (better_replica available ignored last_applied b0 s)) ∧
            (available s = true → ignored ≠ Some s →
              available (better_replica available ignored last_applied b0 s) = true ∧
              last_applied s ≤ last_applied (better_replica available ignored last_applied b0 s))).
    { unfold better_replica. destruct (available s) eqn:Es; simpl; [|done].
      destruct (decide (ignored = Some s)) as [Hi|Hi];
        [rewrite bool_decide_eq_true_2 by done; done|rewrite bool_decide_eq_false_2 by done].
      destruct (available b0) eqn:Eb; simpl; [|by split].
      destruct (last_applied b0 <? last_applied s) eqn:El; bsimp; rewrite ?Es, ?Eb; split; intros; (split; [done|lia]). }
    destruct Hb as [Hb0 Hbs]. split.
    + intros Ha. destruct (Hb0 Ha) as [Ha' ?]. destruct (H0 Ha'). split; [done|lia].
    + intros x [->|Hx]%elem_of_cons Ha Hi; [|by apply Hm].
      destruct (Hbs Ha Hi) as [Ha' ?]. destruct (H0 Ha'). split; [done|lia].
Qed.

(** * Properties *)

(** Every schedule that is meant to heal does: except for [failover],
    [eric] and the choice of [random] that is [failover], running a schedule
    on a healed network, whatever its draws, leaves all links at the configured
    loss and all replicas available. *)
Theorem schedules_heal (kind : failure_schedule_kind) (n leader : nat) (d : draws) (net : network) :
  healed net → kind ≠ fs_failover → kind ≠ fs_eric → (kind = fs_random → d_choice d ≠ 0) →
  healed (run_schedule (run_failure_schedule kind n leader d) net).
Proof.
  intros H Hf He Hr. destruct kind; simpl; try done.
  - by apply fail_recover_healed.
  - by apply split_heals.
  - by apply unstable_heals.
  - by apply torture_heals.
  - by apply darias_heals.
  - unfold run_schedule. simpl. rewrite !failure_links, nreplicas_set_links. by apply set_links_undo.
  - unfold run_schedule. simpl. unfold set_replica_interconnectivity. rewrite nreplicas_set_links.
    by apply set_links_undo.
  - unfold schedule_random. rewrite (proj2 (Z.eqb_neq _ _) (Hr eq_refl)).
    repeat case_if; [by apply fail_recover_healed|by apply split_heals|by apply unstable_heals].
Qed.

Lemma schedules_heal_witness :
  let d := mk_draws [2; 0]%nat [1; 2]%nat [0]%nat [] [] [] 0 0 in
  healed (run_schedule (run_failure_schedule fs_unstable 3 1 d) (mk_network 3 (λ _, base_loss) (λ _, true))).
Proof. intros d. apply schedules_heal; done. Defined.

(** The partition phase of the unstable schedule never breaks the quorum:
    with at least three replicas, after any number of rounds, and with the
    next victim failed, more than half of the replicas of the cluster still
    exchange messages without added loss. *)
Theorem unstable_keeps_quorum (n leader : nat) (followers victims : list nat) (victim : nat) (net : network) :
  (3 ≤ n)%nat → nreplicas net = n → leader :: followers ≡ₚ seq 0 n → healed net →
  let during := fail_replica victim (run_schedule (cut_isolated n leader followers
                  ++ (victims ≫= unstable_round n leader followers)) net) in
  ∃ core, NoDup core ∧ (n / 2 + 1 ≤ length core)%nat ∧
    ∀ a b, a ∈ core → b ∈ core → loss during (to_replicas a b) = base_loss.
Proof.
  intros Hn Hnet Hp Hh during.
  assert (Hnd : NoDup (leader :: followers)) by (rewrite Hp; apply NoDup_seq).
  assert (Hlt : ∀ a, a ∈ leader :: followers → (a < nreplicas net)%nat)
    by (intros a; rewrite Hp, elem_of_seq; lia).
  set (group := connected_group n leader followers).
  assert (Hsub : ∀ a, a ∈ group → a ∈ leader :: followers).
  { intros a [->|Ha]%elem_of_cons; [by left|right]. by eapply elem_of_take_in. }
  assert (H0 : connected group None net).
  { intros a b Ha%Hsub%Hlt Hb%Hsub%Hlt _ _. apply (healed_links _ Hh). apply elem_of_app. right.
    unfold replica_links. apply list_elem_of_bind. exists a. split; [|apply elem_of_seq; simpl; lia].
    apply list_elem_of_fmap_2, elem_of_seq. simpl. lia. }
  assert (Hcut : nreplicas (run_schedule (cut_isolated n leader followers) net) = nreplicas net).
  { unfold cut_isolated. case_match; [done|]. simpl. unfold set_partition_loss. by rewrite nreplicas_set_links. }
  destruct (unstable_rounds_connected n leader followers victims (run_schedule (cut_isolated n leader followers) net))
    as [Hc _]; [done|by rewrite Hcut|by apply cut_connected|].
  exists (filter (λ a, a ≠ victim) group).
  assert (Hng : NoDup group).
  { unfold group, connected_group. apply NoDup_cons in Hnd as [Hl Hf]. apply NoDup_cons. split.
    - intros Hin. apply Hl. by eapply elem_of_take_in.
    - eapply sublist_NoDup; [exact Hf|]. apply sublist_take. }
  split_and!.
  - by apply NoDup_filter.
  - assert (Hlen : length group = connected_count n).
    { unfold group, connected_group. simpl. rewrite length_take.
      apply Permutation_length in Hp. rewrite length_seq in Hp. simpl in Hp.
      unfold connected_count. pose proof (Nat.div_mod n 2). lia. }
    pose proof (length_filter_removed group victim Hng) as Hrem.
    rewrite Hlen in Hrem. unfold connected_count in Hrem. pose proof (Nat.div_mod n 2).
    pose proof (Nat.mod_upper_bound n 2). lia.
  - intros a b [Ha1 Ha2]%list_elem_of_filter [Hb1 Hb2]%list_elem_of_filter.
    unfold during. rewrite run_schedule_app. apply (fail_connected group victim); [done|done|done|congruence..].
Qed.

Lemma unstable_keeps_quorum_witness :
  let net := mk_network 5 (λ _, base_loss) (λ _, true) in
  let during := fail_replica 2 (run_schedule (cut_isolated 5 1 [3; 0; 2; 4]%nat
                  ++ ([0; 1]%nat ≫= unstable_round 5 1 [3; 0; 2; 4]%nat)) net) in
  loss during (to_replicas 1 4) = total_loss ∧
  ∃ core, NoDup core ∧ (3 ≤ length core)%nat ∧
    ∀ a b, a ∈ core → b ∈ core → loss during (to_replicas a b) = base_loss.
Proof.
  intros net during. split; [by vm_compute|].
  apply (unstable_keeps_quorum 5 1 [3; 0; 2; 4]%nat [0; 1]%nat 2 net); [lia|done| |done].
  apply (bool_decide_unpack _). by vm_compute.
Defined.

(** The reference database of the final check is that of the most advanced
    replica: when any replica but the first is available and not ignored, the
    chosen one is available and has applied at least as much as each of them. *)
Theorem best_replica_most_advanced (n : nat) (available : nat → bool) (ignored : option nat)
    (last_applied : nat → Z) (s : nat) :
  (1 ≤ s < n)%nat → available s = true → ignored ≠ Some s →
  let b := best_replica n available ignored last_applied in
  available b = true ∧ last_applied s ≤ last_applied b.
Proof.
  intros Hs Ha Hi. destruct (best_replica_fold available ignored last_applied (seq 1 (n - 1)) 0) as [_ Hm].
  apply Hm; [apply elem_of_seq; lia|done|done].
Qed.

Lemma best_replica_most_advanced_witness :
  let available s := negb (s =? 0)%nat in
  let applied s := Z.of_nat (10 * s) in
  available (best_replica 4 available None applied) = true ∧ 30 ≤ applied (best_replica 4 available None applied).
Proof. intros available applied. apply (best_replica_most_advanced 4 available None applied 3); [lia|done|done]. Defined.

(** The replica a schedule asks to ignore is still chosen when it is the
    first. *)
Lemma ignored_replica_chosen :
  best_replica 3 (λ _, true) (Some 0%nat) (λ s, if (s =? 0)%nat then 9 else 5) = 0%nat.
Proof. done. Qed.
