(* ===== verification/CollabDriver.v ===== *)
(** The rest of [src/pset4/pt-collab.cc]: its failure schedules with their
    timing, the verdict of [try_one_seed], the loop over seeds, and the
    options and the bridge of the server program; and the verdict and the seed
    loop of [src/pset4/pt-paxos.cc], which they are compared with.

    Schedules act on the links of [FailureSchedules].  That file leaves the
    waits out; here a schedule is a function of the clock as well, so that it
    can be compared with the times at which [try_one_seed] stops the clients
    and the simulation.  Random draws are inputs. *)

From S2P Require Import Prelude SMap Text DocOps PancyDb DocState PaxosReplica FailureSchedules CollabModel LockSeq.

(** * Schedules by name *)

Inductive collab_schedule_kind := ck_none | ck_failover | ck_recover | ck_split | ck_unstable | ck_torture | ck_random.

#[export] Instance collab_schedule_kind_eq_dec : EqDecision collab_schedule_kind.
Proof. solve_decision. Defined.

Definition failure_schedule_label (k : collab_schedule_kind) : txt :=
  match k with
  | ck_none => $"none"
  | ck_failover => $"failover"
  | ck_recover => $"recover"
  | ck_split => $"split"
  | ck_unstable => $"unstable"
  | ck_torture => $"torture"
  | ck_random => $"random"
  end.

Definition parse_collab_schedule (s : txt) : option collab_schedule_kind :=
  if teqb s $"none" then Some ck_none
  else if teqb s $"failover" then Some ck_failover
  else if teqb s $"recover" then Some ck_recover
  else if teqb s $"split" then Some ck_split
  else if teqb s $"unstable" then Some ck_unstable
  else if teqb s $"torture" then Some ck_torture
  else if teqb s $"random" then Some ck_random
  else None.

(** The schedule of [pt-paxos.cc] of the same name. *)
Definition same_schedule (k : collab_schedule_kind) : failure_schedule_kind :=
  match k with
  | ck_none => fs_none
  | ck_failover => fs_failover
  | ck_recover => fs_recover
  | ck_split => fs_split
  | ck_unstable => fs_unstable
  | ck_torture => fs_torture
  | ck_random => fs_random
  end.

(** * Links *)

(** The loops of the methods of [pt_paxos_instance]. *)
Definition heal_links (net : network) : network :=
  let n := nreplicas net in
  let net := foldl (λ net s,
    set_loss base_loss (set_loss base_loss net (request_channel s)) (to_clients s)) net (seq 0 n) in
  foldl (λ net s, foldl (λ net d, set_loss base_loss net (to_replicas s d)) net (seq 0 n)) net (seq 0 n).

Definition cut_replica (v : link_loss) (rid : nat) (net : network) : network :=
  let net := set_loss v (set_loss v net (request_channel rid)) (to_clients rid) in
  foldl (λ net s, set_loss v (set_loss v net (to_replicas rid s)) (to_replicas s rid))
    net (seq 0 (nreplicas net)).

Definition collab_fail_replica (rid : nat) (net : network) : network :=
  cut_replica total_loss rid (set_available rid false net).
Definition collab_recover_replica (rid : nat) (net : network) : network :=
  cut_replica base_loss rid (set_available rid true net).

Definition collab_partition_one (rid : nat) (net : network) : network :=
  let net := heal_links net in
  foldl (λ net s,
    if (s =? rid)%nat then net
    else set_loss total_loss (set_loss total_loss net (to_replicas rid s)) (to_replicas s rid))
    net (seq 0 (nreplicas net)).

(** The lambda [set_partition_loss] of the two partition schedules. *)
Definition collab_partition_loss (left right : list nat) (v : link_loss) (net : network) : network :=
  foldl (λ net l, foldl (λ net r,
    set_loss v (set_loss v net (to_replicas l r)) (to_replicas r l)) net right) net left.

(** * Timed schedules *)

(** The clock, in nanoseconds since the start, and the links. *)
Record sim := mk_sim { sim_now : Z; sim_net : network }.

Definition millis (n : Z) : Z := n * 1000000.
Definition seconds (n : Z) : Z := n * 1000000000.

Definition after (d : Z) (s : sim) : sim := mk_sim (sim_now s + d) (sim_net s).
Definition on_net (f : network → network) (s : sim) : sim := mk_sim (sim_now s) (f (sim_net s)).

(** [while (steady_now() < until) body], with the draws of each round; [None]
    when the list of draws is too short. *)
Fixpoint loop_until {D} (body : D → sim → sim) (until : Z) (draws : list D) (s : sim) : option sim :=
  if until <=? sim_now s then Some s
  else match draws with
       | [] => None
       | d :: draws' => loop_until body until draws' (body d s)
       end.

Definition timed_failover (leader : nat) (s : sim) : sim :=
  on_net (collab_fail_replica leader) (after (seconds 20) s).

Definition timed_recovery (leader : nat) (s : sim) : sim :=
  let s := on_net (collab_fail_replica leader) (after (seconds 20) s) in
  on_net (collab_recover_replica leader) (after (seconds 25) s).

Definition timed_split_brain (n leader : nat) (s : sim) : sim :=
  if (n <=? 1)%nat then s
  else
    let s := on_net (collab_partition_one leader) (after (seconds 20) s) in
    on_net heal_links (after (seconds 25) s).

(** [if (!isolated_group.empty()) set_partition_loss(1.0)]. *)
Definition isolate (n leader : nat) (followers : list nat) (net : network) : network :=
  if bool_decide (isolated_group n followers = []) then net
  else collab_partition_loss (connected_group n leader followers) (isolated_group n followers) total_loss net.

(** A round that fails one replica for a while: its victim and its two waits. *)
Record victim_draw := mk_victim_draw { vd_victim : nat; vd_down : Z; vd_up : Z }.

Definition victim_round (then_ : network → network) (d : victim_draw) (s : sim) : sim :=
  let s := on_net (collab_fail_replica (vd_victim d)) s in
  let s := on_net (collab_recover_replica (vd_victim d)) (after (vd_down d) s) in
  after (vd_up d) (on_net then_ s).

Definition recover_all (net : network) : network :=
  foldl (λ net s, if negb (replica_available net s) then collab_recover_replica s net else net)
    net (seq 0 (nreplicas net)).

Definition timed_unstable (n leader : nat) (followers : list nat) (partition churn : list victim_draw)
    (s : sim) : option sim :=
  if (n <=? 1)%nat then Some s
  else
    let s := on_net (isolate n leader followers) (after (seconds 20) s) in
    s ← loop_until (victim_round (isolate n leader followers)) (sim_now s + seconds 25) partition s;
    let s := on_net heal_links s in
    s ← loop_until (victim_round id) (sim_now s + seconds 20) churn s;
    Some (on_net recover_all (on_net heal_links s)).

(** A round of the first phase of [schedule_torture]: what [choose_from]
    draws, the leader that [live_leader] finds, the waits, and the isolated
    replica that fails too when the coin says so. *)
Record torture_draw := mk_torture_draw {
  td_choice : nat; td_leader : option nat; td_down : Z; td_fringe : option (nat * Z); td_up : Z }.

Definition torture_victim (connected : list nat) (choice : nat) (live : option nat) : nat :=
  match live with
  | Some l => if bool_decide (l ∈ connected) then l else choice
  | None => choice
  end.

Definition timed_torture_round (n leader : nat) (followers : list nat) (d : torture_draw) (s : sim) : sim :=
  let victim := torture_victim (connected_group n leader followers) (td_choice d) (td_leader d) in
  let s := on_net (collab_fail_replica victim) s in
  let s := on_net (collab_recover_replica victim) (after (td_down d) s) in
  let s :=
    if bool_decide (isolated_group n followers = []) then s
    else
      let s := on_net (isolate n leader followers) s in
      match td_fringe d with
      | None => s
      | Some (fringe, down) =>
          let s := on_net (collab_fail_replica fringe) s in
          let s := on_net (collab_recover_replica fringe) (after down s) in
          on_net (isolate n leader followers) s
      end in
  after (td_up d) s.

(** The victim of the second phase: the live leader, or the choice. *)
Definition leader_round (d : victim_draw * option nat) (s : sim) : sim :=
  let victim := match d.2 with Some l => l | None => vd_victim d.1 end in
  victim_round id (mk_victim_draw victim (vd_down d.1) (vd_up d.1)) s.

Definition timed_torture (n leader : nat) (followers : list nat) (draws : list torture_draw)
    (leaders : list (victim_draw * option nat)) (s : sim) : option sim :=
  if (n <=? 1)%nat then Some s
  else
    let s := on_net (isolate n leader followers) (after (seconds 12) s) in
    s ← loop_until (timed_torture_round n leader followers) (sim_now s + seconds 20) draws s;
    let s := on_net heal_links s in
    loop_until leader_round (sim_now s + seconds 15) leaders s.

(** The draws of a run: the shuffled followers, the rounds of the loops, and
    the choice of [schedule_random]. *)
Record timed_draws := mk_timed_draws {
  tm_followers : list nat;
  tm_partition : list victim_draw;
  tm_churn : list victim_draw;
  tm_torture : list torture_draw;
  tm_leaders : list (victim_draw * option nat);
  tm_choice : Z;
}.

Definition timed_random (n leader : nat) (d : timed_draws) (s : sim) : option sim :=
  if tm_choice d =? 0 then Some (timed_failover leader s)
  else if tm_choice d =? 1 then Some (timed_recovery leader s)
  else if tm_choice d =? 2 then Some (timed_split_brain n leader s)
  else timed_unstable n leader (tm_followers d) (tm_partition d) (tm_churn d) s.

Definition timed_schedule (k : collab_schedule_kind) (n leader : nat) (d : timed_draws) (s : sim) : option sim :=
  match k with
  | ck_none => Some s
  | ck_failover => Some (timed_failover leader s)
  | ck_recover => Some (timed_recovery leader s)
  | ck_split => Some (timed_split_brain n leader s)
  | ck_unstable => timed_unstable n leader (tm_followers d) (tm_partition d) (tm_churn d) s
  | ck_torture => timed_torture n leader (tm_followers d) (tm_torture d) (tm_leaders d) s
  | ck_random => timed_random n leader d s
  end.

(** [stop_clients_after(clients, 85s)] and [clear_after(100s)]. *)
Definition clients_stop : Z := seconds 85.
Definition simulation_ends : Z := seconds 100.

(** * The verdict on a run *)

Definition DOC_ID : txt := $"main".
Definition NCLIENTS : nat := 8.

(** The first index of [l] a loop returns from. *)
Fixpoint first_where (p : nat → bool) (l : list nat) : option nat :=
  match l with
  | [] => None
  | s :: l' => if p s then Some s else first_where p l'
  end.

(** The most advanced available replica. *)
Definition pick_best (available : nat → bool) (applied : nat → Z) (best s : nat) : nat :=
  if negb (available s) then best
  else if negb (available best) || (applied best <? applied s) then s else best.

(** What [reconstruct] makes of a replica's database. *)
Definition replica_text (r : pt_paxos_replica) : txt := reconstruct (read_ops (rdb_ r) DOC_ID).

Inductive verdict :=
  | accepted
  | invariant_failure (key : txt)
  | text_divergence (best s : nat)
  | leader_divergence (leader s : nat).

(** [try_one_seed] of [pt-collab.cc] after [loop] returns: [reps] are the
    replicas, [available] the flags of the instance. *)
Definition collab_verdict (n : nat) (available : nat → bool) (reps : nat → pt_paxos_replica) : verdict :=
  let best := foldl (pick_best available (λ s, last_applied_ (reps s))) 0%nat (seq 1 (n - 1)) in
  match CollabModel.check DOC_ID (rdb_ (reps best)) with
  | Some problem => invariant_failure problem
  | None =>
      let expected_text := replica_text (reps best) in
      match first_where (λ s, negb ((s =? best)%nat || negb (available s))
                              && negb (teqb (replica_text (reps s)) expected_text)) (seq 0 n) with
      | Some s => text_divergence best s
      | None =>
          match first_where (λ s, available s && is_leader (reps s)) (seq 0 n) with
          | None => accepted
          | Some leader =>
              let leader_text := replica_text (reps leader) in
              match first_where (λ s, available s && negb (teqb (replica_text (reps s)) leader_text)) (seq 0 n) with
              | Some s => leader_divergence leader s
              | None => accepted
              end
          end
      end
  end.

(** [try_one_seed] of [pt-paxos.cc]: the databases are compared, and one
    replica may be left out of the choice of the reference. *)
Definition paxos_verdict (n : nat) (available : nat → bool) (ignored : option nat)
    (reps : nat → pt_paxos_replica) : verdict :=
  let best := best_replica n available ignored (λ s, last_applied_ (reps s)) in
  let db := rdb_ (reps best) in
  match LockSeq.check db with
  | Some problem => invariant_failure problem
  | None =>
      match first_where (λ s, negb ((s =? best)%nat || negb (available s))
                              && bool_decide (is_Some (diff db (rdb_ (reps s)) 2))) (seq 0 n) with
      | Some s => text_divergence best s
      | None => accepted
      end
  end.

(** * Seeds *)

(** The cases of [run_scheduled_collab_convergence_tests], and its loop over
    them: [try_seed] is [try_one_seed] with [nreplicas = 3] and no loss. *)
Definition scheduled_cases : list (collab_schedule_kind * Z) :=
  [(ck_unstable, 66); (ck_unstable, 211953391764519); (ck_failover, 99); (ck_recover, 7)].

Fixpoint scheduled_tests (try_seed : collab_schedule_kind → Z → bool) (cases : list (collab_schedule_kind * Z)) : bool :=
  match cases with
  | [] => true
  | (kind, seed) :: cases' => if try_seed kind seed then scheduled_tests try_seed cases' else false
  end.

(** The campaign of [main]: seeds are tried until one fails.  [ok] is the
    variable of that name; [None] is a variable that was not initialised. *)
Fixpoint campaign (try_seed : Z → bool) (seeds : list Z) (ok : option bool) : option bool :=
  match seeds with
  | [] => ok
  | seed :: seeds' => if try_seed seed then campaign try_seed seeds' (Some true) else Some false
  end.

Definition exit_code (ok : option bool) : option Z := (λ b : bool, if b then 0 else 1) <$> ok.

(** [main] of both programs after the options; [seed_generator] is the list
    of the [seed_count] seeds drawn. *)
Definition collab_main (try_seed : Z → bool) (first_seed : option Z) (seed_generator : list Z) : option Z :=
  exit_code (match first_seed with
             | Some seed => Some (try_seed seed)
             | None => campaign try_seed seed_generator (Some true)
             end).
Definition paxos_main (try_seed : Z → bool) (first_seed : option Z) (seed_generator : list Z) : option Z :=
  exit_code (match first_seed with
             | Some seed => Some (try_seed seed)
             | None => campaign try_seed seed_generator None
             end).

(** * The server program *)

(** The overload of [from_str_chars] that returns an error code, for an
    unsigned type below [bound]: the whole text must be a number. *)
Inductive errc_or := value_of (v : Z) | invalid_argument | result_out_of_range.

Definition from_str_chars_errc (bound : Z) (s : txt) : errc_or :=
  let '(ds, rest) := digit_run s in
  if bool_decide (ds = []) then invalid_argument
  else if bool_decide (rest ≠ []) then invalid_argument
  else if bound <=? dec_value ds then result_out_of_range else value_of (dec_value ds).

(** The overload that throws. *)
Definition from_str_chars (bound : Z) (s : txt) : result Z :=
  match from_str_chars_errc bound s with
  | value_of v => Ok v
  | invalid_argument => Throw $"Invalid argument"
  | result_out_of_range => Throw $"Numerical result out of range"
  end.

Record server_config := mk_server_config {
  sv_port : Z; sv_nreplicas : Z; sv_doc_id : txt; sv_link_delay : Z; sv_send_delay : Z; sv_recv_delay : Z }.

Definition default_config : server_config := mk_server_config 8080 3 $"main" 5 1 1.

(** The options as [getopt_long] returns them: the program's settings, an
    exception, or [None] for the usage message. *)
Fixpoint server_options (opts : list (ascii * txt)) (c : server_config) : result (option server_config) :=
  match opts with
  | [] => Ok (Some c)
  | (ch, optarg) :: opts' =>
      let number bound (f : Z → server_config) :=
        match from_str_chars bound optarg with
        | Ok v => server_options opts' (f v)
        | Throw e => Throw e
        end in
      if ceqb ch "p"%char then
        number two32 (λ v, mk_server_config (v mod 65536) (sv_nreplicas c) (sv_doc_id c) (sv_link_delay c) (sv_send_delay c) (sv_recv_delay c))
      else if ceqb ch "n"%char then
        number two64 (λ v, mk_server_config (sv_port c) v (sv_doc_id c) (sv_link_delay c) (sv_send_delay c) (sv_recv_delay c))
      else if ceqb ch "d"%char then
        server_options opts' (mk_server_config (sv_port c) (sv_nreplicas c) optarg (sv_link_delay c) (sv_send_delay c) (sv_recv_delay c))
      else if ceqb ch "L"%char then
        number two32 (λ v, mk_server_config (sv_port c) (sv_nreplicas c) (sv_doc_id c) v (sv_send_delay c) (sv_recv_delay c))
      else if ceqb ch "S"%char then
        number two32 (λ v, mk_server_config (sv_port c) (sv_nreplicas c) (sv_doc_id c) (sv_link_delay c) v (sv_recv_delay c))
      else if ceqb ch "R"%char then
        number two32 (λ v, mk_server_config (sv_port c) (sv_nreplicas c) (sv_doc_id c) (sv_link_delay c) (sv_send_delay c) v)
      else Ok None
  end.

(** The bridge: the database that reads are served from, and the replica a
    request asks to fail. *)
Definition current_db (reps : list pt_paxos_replica) (leader : nat) : option pancydb :=
  let leader := if (length reps <=? leader)%nat then 0%nat else leader in
  rdb_ <$> reps !! leader.

Definition bridge_fail_replica (rid : nat) (net : network) : bool * network :=
  if (nreplicas net <=? rid)%nat then (false, net) else (true, collab_fail_replica rid net).

(** * The links change as in [FailureSchedules] *)

Lemma foldl_bind {A B C} (f : A → C → A) (g : B → list C) (l : list B) (a : A) :
  foldl f a (l ≫= g) = foldl (λ a b, foldl f a (g b)) a l.
Proof. revert a. induction l as [|b l IH]; intros a; simpl; [done|]. by rewrite foldl_app, IH. Qed.

Lemma foldl_fmap {A B C} (f : A → C → A) (g : B → C) (l : list B) (a : A) :
  foldl f a (g <$> l) = foldl (λ a b, f a (g b)) a l.
Proof. revert a. by induction l; simpl. Qed.

Lemma foldl_ext' {A B} (f g : A → B → A) (l : list B) (a : A) :
  (∀ a b, f a b = g a b) → foldl f a l = foldl g a l.
Proof. intros H. revert a. induction l as [|b l IH]; intros a; simpl; [done|]. by rewrite H, IH. Qed.

Lemma heal_links_eq net : heal_links net = heal_all_links net.
Proof.
  unfold heal_links, heal_all_links, set_links, client_links, replica_links. rewrite !foldl_bind.
  cbv zeta. apply foldl_ext'. intros a b. by rewrite foldl_fmap.
Qed.

Lemma cut_replica_eq v rid net : cut_replica v rid net = set_links v (links_of (nreplicas net) rid) net.
Proof. unfold cut_replica, set_links, links_of. simpl. by rewrite foldl_bind. Qed.

Lemma fail_replica_eq rid net : collab_fail_replica rid net = fail_replica rid net.
Proof. apply cut_replica_eq. Qed.

Lemma recover_replica_eq rid net : collab_recover_replica rid net = recover_replica rid net.
Proof. apply cut_replica_eq. Qed.

Lemma partition_one_eq rid net : collab_partition_one rid net = partition_one_against_rest rid net.
Proof.
  unfold collab_partition_one, partition_one_against_rest. rewrite heal_links_eq.
  generalize (heal_all_links net). intros x. unfold set_links, interconnection. rewrite foldl_bind.
  apply foldl_ext'. intros a s. destruct (s =? rid)%nat eqn:E.
  - apply Nat.eqb_eq in E. by rewrite decide_True.
  - apply Nat.eqb_neq in E. by rewrite decide_False.
Qed.

Lemma partition_loss_eq left right v net :
  collab_partition_loss left right v net = set_partition_loss left right v net.
Proof.
  unfold collab_partition_loss, set_partition_loss, set_links. rewrite foldl_bind. apply foldl_ext'.
  intros a l. by rewrite foldl_bind.
Qed.

Lemma isolate_eq n leader followers net :
  isolate n leader followers net = run_schedule (cut_isolated n leader followers) net.
Proof. unfold isolate, cut_isolated. case_if; [done|]. apply partition_loss_eq. Qed.

Lemma recover_all_eq net : recover_all net = recover_unavailable net.
Proof.
  unfold recover_all, recover_unavailable. apply foldl_ext'. intros a s.
  destruct (replica_available a s); simpl; [done|]. apply recover_replica_eq.
Qed.

#[local] Hint Rewrite heal_links_eq fail_replica_eq recover_replica_eq partition_one_eq isolate_eq
  recover_all_eq : collab.

(** ** Loops *)

Lemma run_schedule_bind {D} (g : D → schedule) (ds : list D) net :
  run_schedule (ds ≫= g) net = foldl (λ net d, run_schedule (g d) net) net ds.
Proof. apply foldl_bind. Qed.

(** A loop whose rounds take between [least] and [most] ends, after a prefix
    of its draws, in time. *)
Lemma loop_until_ends {D} (body : D → sim → sim) (round : D → schedule) (least most until : Z) ds s :
  0 < least ≤ most →
  Forall (λ d, ∀ s, sim_now s + least ≤ sim_now (body d s) ≤ sim_now s + most ∧
                    sim_net (body d s) = run_schedule (round d) (sim_net s)) ds →
  sim_now s < until + most → until - sim_now s ≤ least * size ds →
  ∃ k s', loop_until body until ds s = Some s' ∧ sim_now s' < until + most ∧
    sim_net s' = run_schedule (take k ds ≫= round) (sim_net s).
Proof.
  intros Hl H. revert s. induction H as [|d ds Hd Hds IH]; intros s Hs Hn.
  { rewrite size_nil in Hn. exists 0%nat, s. simpl. by rewrite (proj2 (Z.leb_le _ _)) by lia. }
  simpl. destruct (until <=? sim_now s) eqn:E; bsimp; [by exists 0%nat, s|].
  destruct (Hd s) as [Ht Hnet]. rewrite size_cons in Hn.
  destruct (IH (body d s)) as (k & s' & E1 & E2 & E3); [lia|lia|].
  exists (S k), s'. split_and!; [done|done|]. rewrite E3, Hnet. simpl.
  by rewrite run_schedule_app.
Qed.

(** The ranges of the waits, in milliseconds. *)
Definition victim_ok (dlo dhi ulo uhi : Z) (d : victim_draw) : Prop :=
  millis dlo ≤ vd_down d ≤ millis dhi ∧ millis ulo ≤ vd_up d ≤ millis uhi.

Definition torture_ok (d : torture_draw) : Prop :=
  millis 250 ≤ td_down d ≤ millis 1200 ∧ millis 150 ≤ td_up d ≤ millis 850 ∧
  match td_fringe d with Some (_, down) => millis 200 ≤ down ≤ millis 900 | None => True end.

(** Draws in the ranges of the calls of [uniform], as many as the loops can
    use up. *)
Record draws_ok (d : timed_draws) : Prop := {
  dok_partition : Forall (victim_ok 1500 3500 500 1500) (tm_partition d);
  dok_partition_len : 13 ≤ size (tm_partition d);
  dok_churn : Forall (victim_ok 1000 4000 250 2000) (tm_churn d);
  dok_churn_len : 16 ≤ size (tm_churn d);
  dok_torture : Forall torture_ok (tm_torture d);
  dok_torture_len : 50 ≤ size (tm_torture d);
  dok_leaders : Forall (λ p, victim_ok 1000 2400 100 700 p.1) (tm_leaders d);
  dok_leaders_len : 14 ≤ size (tm_leaders d);
}.

Lemma victim_round_net f d s :
  sim_net (victim_round f d s) = f (run_schedule (churn_round (vd_victim d)) (sim_net s)).
Proof. unfold victim_round. simpl. by autorewrite with collab. Qed.

(** What a loop of such rounds leaves: its links are those of the rounds of
    [FailureSchedules], and it is late by less than one round. *)
Lemma victim_loop dlo dhi ulo uhi f (round : nat → schedule) until ds s :
  Forall (victim_ok dlo dhi ulo uhi) ds → 0 < dlo + ulo → dlo ≤ dhi → ulo ≤ uhi →
  (∀ v net, f (run_schedule (churn_round v) net) = run_schedule (round v) net) →
  sim_now s ≤ until → until - sim_now s ≤ millis (dlo + ulo) * size ds →
  ∃ vs s', loop_until (victim_round f) until ds s = Some s' ∧ sim_now s' < until + millis (dhi + uhi) ∧
    sim_net s' = run_schedule (vs ≫= round) (sim_net s).
Proof.
  intros Hds H1 H2 H3 Hf Hs Hn.
  destruct (loop_until_ends (victim_round f) (round ∘ vd_victim) (millis (dlo + ulo)) (millis (dhi + uhi)) until ds s)
    as (k & s' & E1 & E2 & E3); [unfold millis; lia| |unfold millis; lia|done|].
  - eapply Forall_impl; [exact Hds|]. intros d [Hd Hu] x. split; [|rewrite victim_round_net; apply Hf].
    unfold victim_round, millis in *. simpl. lia.
  - exists (vd_victim <$> take k ds), s'. split_and!; [done|done|]. rewrite E3, !run_schedule_bind.
    by rewrite foldl_fmap.
Qed.

Lemma unstable_refines n leader d s :
  draws_ok d → sim_now s = 0 →
  ∃ s' vs churn, timed_unstable n leader (tm_followers d) (tm_partition d) (tm_churn d) s = Some s' ∧
    sim_now s' ≤ seconds 76 ∧
    sim_net s' = run_schedule (schedule_unstable_mixed n leader (tm_followers d) vs churn) (sim_net s).
Proof.
  intros [] Hs. unfold timed_unstable, schedule_unstable_mixed. case_if.
  { exists s, [], []. split_and!; [done|unfold seconds; lia|done]. }
  set (s1 := on_net _ (after _ s)).
  destruct (victim_loop 1500 3500 500 1500 (isolate n leader (tm_followers d))
    (unstable_round n leader (tm_followers d)) (sim_now s1 + seconds 25) (tm_partition d) s1)
    as (vs & s2 & E1 & T1 & N1); try lia; try done.
  { intros v net. rewrite isolate_eq. unfold unstable_round. by rewrite run_schedule_app. }
  { unfold seconds. lia. }
  { unfold millis, seconds. lia. }
  rewrite E1. cbv beta iota zeta delta [mbind option_bind]. set (s3 := on_net heal_links s2).
  destruct (victim_loop 1000 4000 250 2000 id churn_round (sim_now s3 + seconds 20) (tm_churn d) s3)
    as (cs & s4 & E2 & T2 & N2); try lia; try done.
  { unfold seconds. lia. }
  { unfold millis, seconds. lia. }
  rewrite E2. eexists _, vs, cs. split_and!; [done| |].
  - simpl. unfold s3, s1, millis, seconds in *. simpl in *. lia.
  - simpl. rewrite !run_schedule_app. simpl. autorewrite with collab. rewrite N2. unfold s3. simpl.
    autorewrite with collab. rewrite N1. unfold s1. simpl. autorewrite with collab. by rewrite !run_schedule_app.
Qed.

Lemma torture_round_net n leader followers d s :
  sim_net (timed_torture_round n leader followers d s) =
    run_schedule (torture_round n leader followers
      (torture_victim (connected_group n leader followers) (td_choice d) (td_leader d), fst <$> td_fringe d))
      (sim_net s).
Proof.
  unfold timed_torture_round, torture_round. rewrite run_schedule_app. simpl.
  case_if; simpl; autorewrite with collab; [done|]. rewrite run_schedule_app.
  destruct (td_fringe d) as [[f down]|]; simpl; autorewrite with collab; [|done].
  done.
Qed.

Lemma torture_round_time n leader followers d s :
  torture_ok d →
  sim_now s + millis 400 ≤ sim_now (timed_torture_round n leader followers d s) ≤ sim_now s + millis 2950.
Proof.
  intros (H1 & H2 & H3). unfold timed_torture_round, millis in *.
  case_if; [simpl; lia|]. destruct (td_fringe d) as [[f down]|]; simpl; lia.
Qed.

Lemma leader_round_net p s :
  sim_net (leader_round p s) =
    run_schedule (churn_round (match p.2 with Some l => l | None => vd_victim p.1 end)) (sim_net s).
Proof. unfold leader_round. by rewrite victim_round_net. Qed.

Lemma torture_refines n leader d s :
  draws_ok d → sim_now s = 0 →
  ∃ s' rounds leaders, timed_torture n leader (tm_followers d) (tm_torture d) (tm_leaders d) s = Some s' ∧
    sim_now s' ≤ seconds 76 ∧
    sim_net s' = run_schedule (schedule_torture n leader (tm_followers d) rounds leaders) (sim_net s).
Proof.
  intros [] Hs. unfold timed_torture, schedule_torture. case_if.
  { exists s, [], []. split_and!; [done|unfold seconds; lia|done]. }
  set (s1 := on_net _ (after _ s)). set (fs := tm_followers d) in *.
  pose (round := λ d : torture_draw, torture_round n leader fs
      (torture_victim (connected_group n leader fs) (td_choice d) (td_leader d), fst <$> td_fringe d)).
  destruct (loop_until_ends (timed_torture_round n leader fs) round (millis 400) (millis 2950)
    (sim_now s1 + seconds 20) (tm_torture d) s1) as (k & s2 & E1 & T1 & N1).
  { unfold millis. lia. }
  { eapply Forall_impl; [exact dok_torture0|]. intros t Ht x. split; [by apply torture_round_time|].
    apply torture_round_net. }
  { unfold millis, seconds. lia. }
  { unfold millis, seconds. lia. }
  rewrite E1. cbv beta iota zeta delta [mbind option_bind]. set (s3 := on_net heal_links s2).
  pose (lround := λ p : victim_draw * option nat,
    churn_round (match p.2 with Some l => l | None => vd_victim p.1 end)).
  destruct (loop_until_ends leader_round lround (millis 1100) (millis 3100)
    (sim_now s3 + seconds 15) (tm_leaders d) s3) as (j & s4 & E2 & T2 & N2).
  { unfold millis. lia. }
  { eapply Forall_impl; [exact dok_leaders0|]. intros p [Hd Hu] x. split; [|apply leader_round_net].
    unfold leader_round, victim_round, millis in *. simpl. lia. }
  { unfold millis, seconds. lia. }
  { unfold millis, seconds. lia. }
  exists s4, ((λ d, (torture_victim (connected_group n leader fs) (td_choice d) (td_leader d),
     fst <$> td_fringe d)) <$> take k (tm_torture d)),
    ((λ p : victim_draw * option nat, match p.2 with Some l => l | None => vd_victim p.1 end) <$> take j (tm_leaders d)).
  split_and!; [done| |].
  - unfold s3, s1, millis, seconds in *. simpl in *. lia.
  - rewrite !run_schedule_app, N2. unfold s3. simpl. autorewrite with collab. rewrite N1. unfold s1. simpl.
    autorewrite with collab. rewrite !run_schedule_bind, !foldl_fmap. done.
Qed.

(** C12 The schedules of [pt-collab.cc] end, whatever they draw, at least nine
    seconds before [try_one_seed] stops its clients; they change the links as
    the schedules of [pt-paxos.cc] of the same name do, and except for
    [failover] they leave every link at the configured loss and every replica
    available. *)
Theorem collab_schedules_end_healed (k : collab_schedule_kind) (n leader : nat) (d : timed_draws) (net : network) :
  draws_ok d →
  ∃ s' fd, timed_schedule k n leader d (mk_sim 0 net) = Some s' ∧
    sim_now s' + seconds 9 ≤ clients_stop ∧
    sim_net s' = run_schedule (run_failure_schedule (same_schedule k) n leader fd) net ∧
    (healed net → k ≠ ck_failover → (k = ck_random → tm_choice d ≠ 0) → healed (sim_net s')).
Proof.
  intros Hd.
  assert (Hfd : ∀ s' fd, sim_net s' = run_schedule (run_failure_schedule (same_schedule k) n leader fd) net →
     d_choice fd = tm_choice d →
     healed net → k ≠ ck_failover → (k = ck_random → tm_choice d ≠ 0) → healed (sim_net s')).
  { intros s' fd -> Hc Hh Hk Hr. apply schedules_heal; [done|by destruct k|by destruct k|].
    rewrite Hc. destruct k; simpl; try done. intros _. by apply Hr. }
  assert (Hend : ∀ s, sim_now s ≤ seconds 76 → sim_now s + seconds 9 ≤ clients_stop)
    by (unfold clients_stop, seconds; lia).
  pose (fd := λ vs churn tort lead, mk_draws (tm_followers d) vs churn tort lead [] 0 (tm_choice d)).
  destruct (unstable_refines n leader d (mk_sim 0 net) Hd eq_refl) as (su & vs & cs & Eu & Tu & Nu).
  destruct (torture_refines n leader d (mk_sim 0 net) Hd eq_refl) as (st & rs & ls & Et & Tt & Nt).
  assert (H : ∃ s', timed_schedule k n leader d (mk_sim 0 net) = Some s' ∧ sim_now s' ≤ seconds 76 ∧
    sim_net s' = run_schedule (run_failure_schedule (same_schedule k) n leader (fd vs cs rs ls)) net).
  { destruct k; simpl.
    1-4: eexists; split; [done|].
    1-3: split; [by vm_compute|]; simpl; by autorewrite with collab.
    - unfold timed_split_brain, schedule_split_brain. case_if; [split; [by vm_compute|done]|].
      split; [by vm_compute|]. simpl. by autorewrite with collab.
    - by exists su.
    - by exists st.
    - unfold timed_random, schedule_random. simpl. repeat case_if.
      + eexists. split; [done|]. split; [by vm_compute|]. simpl. by autorewrite with collab.
      + eexists. split; [done|]. split; [by vm_compute|]. simpl. by autorewrite with collab.
      + eexists. split; [done|]. unfold timed_split_brain, schedule_split_brain.
        case_if; [split; [by vm_compute|done]|]. split; [by vm_compute|]. simpl. by autorewrite with collab.
      + by exists su. }
  destruct H as (s' & E & T & N). exists s', (fd vs cs rs ls). split_and!; [done|by apply Hend|done|].
  by apply (Hfd s' _ N).
Qed.

Lemma collab_schedules_end_healed_witness :
  let v a b := mk_victim_draw 2 (millis a) (millis b) in
  let d := mk_timed_draws [2; 0]%nat (replicate 13 (v 2000 1000)) (replicate 16 (v 1000 250))
             (replicate 50 (mk_torture_draw 0 (Some 1%nat) (millis 300) (Some (2%nat, millis 200)) (millis 200)))
             (replicate 14 (v 1500 300, None)) 3 in
  ∃ s' fd, timed_schedule ck_unstable 3 1 d (mk_sim 0 (mk_network 3 (λ _, base_loss) (λ _, true))) = Some s' ∧
    sim_now s' + seconds 9 ≤ clients_stop ∧
    sim_net s' = run_schedule (run_failure_schedule (same_schedule ck_unstable) 3 1 fd)
                   (mk_network 3 (λ _, base_loss) (λ _, true)) ∧
    (healed (mk_network 3 (λ _, base_loss) (λ _, true)) → ck_unstable ≠ ck_failover →
     (ck_unstable = ck_random → tm_choice d ≠ 0) → healed (sim_net s')).
Proof.
  intros v d. apply (collab_schedules_end_healed ck_unstable 3 1 d).
  split; [apply Forall_replicate; split|by vm_compute|apply Forall_replicate; split|by vm_compute
         |apply Forall_replicate; split; [|split]|by vm_compute|apply Forall_replicate; split|by vm_compute];
    unfold v, millis; simpl; lia.
Defined.

(** * Names *)

(** Labels are parsed back, and a name means the same schedule in both
    programs. *)
Lemma schedule_label_roundtrip k : parse_collab_schedule (failure_schedule_label k) = Some k.
Proof. by destruct k. Qed.

Lemma schedule_names_agree s k :
  parse_collab_schedule s = Some k → parse_failure_schedule s = Some (same_schedule k).
Proof.
  unfold parse_collab_schedule, parse_failure_schedule, teqb.
  repeat (case_if; [intros [= <-]; subst; by vm_compute|]). done.
Qed.

(** * Verdicts *)

Lemma first_where_None p l : first_where p l = None ↔ ∀ s, s ∈ l → p s = false.
Proof.
  induction l as [|x l IH]; simpl.
  { split; [intros _ s ?%elem_of_nil; done|done]. }
  destruct (p x) eqn:E.
  - split; [done|]. intros H. specialize (H x (list_elem_of_here _ _)). congruence.
  - rewrite IH. split.
    + intros H s [->|Hs]%elem_of_cons; auto.
    + intros H s Hs. apply H. by right.
Qed.

Lemma first_where_Some p l s : first_where p l = Some s → s ∈ l ∧ p s = true.
Proof.
  induction l as [|x l IH]; simpl; [done|]. destruct (p x) eqn:E.
  - intros [= ->]. split; [by left|done].
  - intros [H1 H2]%IH. split; [by right|done].
Qed.

(** The reference is available when any replica is. *)
Lemma pick_best_available available applied ss b0 :
  (available b0 = true ∨ ∃ s, s ∈ ss ∧ available s = true) →
  available (foldl (pick_best available applied) b0 ss) = true.
Proof.
  revert b0. induction ss as [|s ss IH]; intros b0; simpl.
  { intros [H|(s & ?%elem_of_nil & _)]; done. }
  intros H. apply IH. unfold pick_best. destruct (available s) eqn:E; simpl.
  - destruct (available b0) eqn:Eb; simpl; [|by left]. left. by case_if.
  - destruct H as [H|(x & [->|Hx]%elem_of_cons & Ha)]; [by left|congruence|right; eauto].
Qed.

Lemma pick_best_in available applied ss b0 :
  foldl (pick_best available applied) b0 ss ∈ b0 :: ss.
Proof.
  revert b0. induction ss as [|s ss IH]; intros b0; simpl; [by left|].
  specialize (IH (pick_best available applied b0 s)). apply elem_of_cons in IH as [E|Hin].
  - rewrite E. unfold pick_best. repeat case_if; rewrite !elem_of_cons; auto.
  - rewrite !elem_of_cons. auto.
Qed.

Definition reference (n : nat) (available : nat → bool) (reps : nat → pt_paxos_replica) : nat :=
  foldl (pick_best available (λ s, last_applied_ (reps s))) 0%nat (seq 1 (n - 1)).

(** [try_one_seed] of [pt-collab.cc] accepts a run exactly when the reference
    database holds only operations that parse and all available replicas
    reconstruct the same document.  Its last comparison, with the leader's
    document, can fail in no run: the comment calls it stricter, but the
    comparison before it has already compared every available replica. *)
Theorem collab_verdict_exact (n : nat) (available : nat → bool) (reps : nat → pt_paxos_replica) :
  (collab_verdict n available reps = accepted ↔
   CollabModel.check DOC_ID (rdb_ (reps (reference n available reps))) = None ∧
   ∀ s t, (s < n)%nat → (t < n)%nat → available s = true → available t = true →
     replica_text (reps s) = replica_text (reps t)) ∧
  ∀ leader s, collab_verdict n available reps ≠ leader_divergence leader s.
Proof.
  unfold collab_verdict. fold (reference n available reps). set (best := reference n available reps).
  assert (Hbest : ∀ s, (s < n)%nat → available s = true → available best = true).
  { intros s Hs Ha. apply pick_best_available. destruct s as [|s]; [by left|right].
    exists (S s). split; [apply elem_of_seq; lia|done]. }
  assert (Hlt : (0 < n)%nat → (best < n)%nat).
  { intros Hn. pose proof (pick_best_in available (λ s, last_applied_ (reps s)) (seq 1 (n - 1)) 0) as Hin.
    fold (reference n available reps) best in Hin. apply elem_of_cons in Hin as [->|Hin]; [done|].
    apply elem_of_seq in Hin. lia. }
  destruct (CollabModel.check _ _) as [k|]; [split; [split; [done|by intros []]|done]|].
  destruct (first_where _ (seq 0 n)) as [s|] eqn:E1.
  { apply first_where_Some in E1 as [Hs [Hd Ht]%andb_true_iff]. apply elem_of_seq in Hs.
    apply negb_true_iff in Hd, Ht. apply bool_decide_eq_false in Ht.
    apply orb_false_iff in Hd as [_ Hd]. apply negb_false_iff in Hd.
    split; [|done]. split; [done|]. intros [_ H]. destruct Ht.
    apply H; [lia|apply Hlt; lia|done|eapply Hbest; [|exact Hd]; lia]. }
  assert (Heq : ∀ s, (s < n)%nat → available s = true → replica_text (reps s) = replica_text (reps best)).
  { intros s Hs Ha. rewrite first_where_None in E1. specialize (E1 s). rewrite elem_of_seq in E1.
    specialize (E1 ltac:(lia)). rewrite Ha in E1. cbn [negb] in E1. rewrite orb_false_r in E1.
    destruct (s =? best)%nat eqn:Es; [apply Nat.eqb_eq in Es; by subst|].
    simpl in E1. apply negb_false_iff in E1. by apply bool_decide_eq_true in E1. }
  assert (Hall : ∀ s t, (s < n)%nat → (t < n)%nat → available s = true → available t = true →
     replica_text (reps s) = replica_text (reps t)).
  { intros s t Hs Ht Has Hat. rewrite (Heq s), (Heq t); done. }
  destruct (first_where (λ s, available s && is_leader (reps s)) (seq 0 n)) as [l|] eqn:E2; [|done].
  apply first_where_Some in E2 as [Hl [Hal _]%andb_true_iff]. apply elem_of_seq in Hl.
  rewrite (proj2 (first_where_None _ _)); [done|]. intros s Hs%elem_of_seq.
  destruct (available s) eqn:Ha; [|done]. simpl. apply negb_false_iff, bool_decide_eq_true, Hall; (done || lia).
Qed.

(** A minority that is cut off and marked unavailable does not count. *)
Example unavailable_replica_may_differ :
  let r text := set_rdb_ (put empty_db (op_key DOC_ID 0 0) text) (new_replica 0 3 []) in
  let reps s := if (s =? 2)%nat then r (serialize (insert_op 0 $"x")) else new_replica 0 3 [] in
  collab_verdict 3 (λ _, true) reps = text_divergence 0 2 ∧
  collab_verdict 3 (λ s, negb (s =? 2)%nat) reps = accepted.
Proof. by vm_compute. Qed.

(** * Seeds *)

(** With at least one seed the two programs return the same code: 0 when
    every seed passes. *)
Lemma mains_agree try_seed first seeds :
  first ≠ None ∨ seeds ≠ [] → paxos_main try_seed first seeds = collab_main try_seed first seeds.
Proof.
  intros H. unfold paxos_main, collab_main. destruct first as [s|]; [done|].
  destruct seeds as [|s seeds]; [by destruct H|done].
Qed.

Lemma campaign_passes try_seed seeds :
  campaign try_seed seeds (Some true) = Some (forallb try_seed seeds).
Proof. induction seeds as [|s seeds IH]; simpl; [done|]. by destruct (try_seed s). Qed.

(** [pt-paxos -R 0] returns a variable that nothing has written. *)
Lemma no_seeds_uninitialised try_seed :
  paxos_main try_seed None [] = None ∧ collab_main try_seed None [] = Some 0.
Proof. done. Qed.

(** * The server *)

(** The options, and a port that does not fit its type: it is cut to 16 bits
    without an error. *)
Example server_options_examples :
  server_options [("n"%char, $"5"); ("d"%char, $"notes"); ("L"%char, $"0")] default_config =
    Ok (Some (mk_server_config 8080 5 $"notes" 0 1 1)) ∧
  server_options [("p"%char, $"65616")] default_config = Ok (Some (mk_server_config 80 3 $"main" 5 1 1)) ∧
  server_options [("p"%char, $"-1")] default_config = Throw $"Invalid argument" ∧
  server_options [("S"%char, $"4294967296")] default_config = Throw $"Numerical result out of range" ∧
  server_options [("?"%char, [])] default_config = Ok None.
Proof. by vm_compute. Qed.

(** Reads always find a database, whatever the client believes about the
    leader. *)
Lemma current_db_found reps leader : reps ≠ [] → is_Some (current_db reps leader).
Proof.
  intros H. unfold current_db. destruct (length reps <=? leader)%nat eqn:E.
  - destruct reps; [done|]. by eexists.
  - apply Nat.leb_gt in E. apply lookup_lt_is_Some in E as [r E]. rewrite E. by eexists.
Qed.

Lemma bridge_fail_exact rid net :
  bridge_fail_replica rid net =
    (bool_decide (rid < nreplicas net)%nat, if decide (rid < nreplicas net)%nat then fail_replica rid net else net).
Proof.
  unfold bridge_fail_replica. destruct (nreplicas net <=? rid)%nat eqn:E.
  - apply Nat.leb_le in E. by rewrite bool_decide_eq_false_2, decide_False by lia.
  - apply Nat.leb_gt in E. rewrite bool_decide_eq_true_2, decide_True by lia. by rewrite fail_replica_eq.
Qed.
