(* ===== verification/Programs.v ===== *)
(** The command lines of the programs [pt-paxos], [pt-collab] and
    [pt-collab-server] ([src/pset4/pt-paxos.cc], [src/pset4/pt-collab.cc]), and
    what [main] of the first two runs with them.

    [getopt_long] is not part of the repository: the loops take the list of the
    characters and arguments it returns.  A number with a fraction is read by
    [strtod], a parameter.  An exception ends the program. *)

From S2P Require Import Prelude Text FailureSchedules CollabDriver.

(** * Tables of options *)

Inductive has_arg := no_argument | required_argument | optional_argument.
Record long_option := LongOption { lo_name : txt; lo_has_arg : has_arg; lo_val : Z }.

(** [isalpha] and [isdigit] of the C locale. *)
Definition isalpha (c : Z) : bool := ((65 <=? c) && (c <=? 90)) || ((97 <=? c) && (c <=? 122)).
Definition isdigit (c : Z) : bool := (48 <=? c) && (c <=? 57).

Fixpoint short_options_for (longopts : list long_option) : txt :=
  match longopts with
  | [] => []
  | o :: rest =>
      (if (0 <? lo_val o) && (lo_val o <? 128) && (isalpha (lo_val o) || isdigit (lo_val o))
       then char_of (lo_val o) :: match lo_has_arg o with
                                  | required_argument => $":"
                                  | optional_argument => $"::"
                                  | no_argument => []
                                  end
       else []) ++ short_options_for rest
  end.

Definition option_row (name : txt) (a : has_arg) (c : ascii) : long_option := LongOption name a (code c).

Definition paxos_options : list long_option :=
  [option_row $"count" required_argument "n"; option_row $"seed" required_argument "S";
   option_row $"random-seeds" required_argument "R"; option_row $"loss" required_argument "l";
   option_row $"failure" required_argument "f"; option_row $"verbose" no_argument "V";
   option_row $"print-db" no_argument "p"; option_row $"latency-trace" no_argument "L";
   option_row $"quiet" no_argument "q"].

Definition collab_options : list long_option :=
  [option_row $"count" required_argument "n"; option_row $"seed" required_argument "S";
   option_row $"random-seeds" required_argument "R"; option_row $"loss" required_argument "l";
   option_row $"failure" required_argument "f"; option_row $"verbose" no_argument "V";
   option_row $"print-db" no_argument "p"; option_row $"test" no_argument "t"].

Definition collab_server_options : list long_option :=
  [option_row $"port" required_argument "p"; option_row $"replicas" required_argument "n";
   option_row $"doc" required_argument "d"; option_row $"link-delay-ms" required_argument "L";
   option_row $"send-delay-ms" required_argument "S"; option_row $"recv-delay-ms" required_argument "R"].

Section Programs.
Context {D : Type} (one_percent : D) (strtod : txt → result D).

(** * [pt-paxos] *)

Record paxos_config := PaxosConfig {
  px_loss : D; px_verbose : bool; px_print_db : bool; px_latency_trace : bool; px_nreplicas : Z;
  px_failure_schedule : failure_schedule_kind; px_first_seed : option Z; px_seed_count : Z }.

Definition paxos_defaults : paxos_config := PaxosConfig one_percent false false false 3 fs_none None 1.

(** The branches of the loop, one option each; [None] is [return 1]. *)
Definition paxos_option (ch : ascii) (optarg : txt) (c : paxos_config) : result (option paxos_config) :=
  let '(PaxosConfig loss verbose print_db latency n failure first_seed seed_count) := c in
  if ceqb ch "S" then
    match from_str_chars two64 optarg with
    | Ok v => Ok (Some (PaxosConfig loss verbose print_db latency n failure (Some v) seed_count))
    | Throw e => Throw e
    end
  else if ceqb ch "R" then
    match from_str_chars two64 optarg with
    | Ok v => Ok (Some (PaxosConfig loss verbose print_db latency n failure first_seed v))
    | Throw e => Throw e
    end
  else if ceqb ch "l" then
    match strtod optarg with
    | Ok v => Ok (Some (PaxosConfig v verbose print_db latency n failure first_seed seed_count))
    | Throw e => Throw e
    end
  else if ceqb ch "n" then
    match from_str_chars two64 optarg with
    | Ok v => Ok (Some (PaxosConfig loss verbose print_db latency v failure first_seed seed_count))
    | Throw e => Throw e
    end
  else if ceqb ch "f" then
    Ok ((λ mode, PaxosConfig loss verbose print_db latency n mode first_seed seed_count) <$> parse_failure_schedule optarg)
  else if ceqb ch "V" then Ok (Some (PaxosConfig loss true print_db latency n failure first_seed seed_count))
  else if ceqb ch "p" then Ok (Some (PaxosConfig loss verbose true latency n failure first_seed seed_count))
  else if ceqb ch "L" then Ok (Some (PaxosConfig loss verbose print_db true n failure first_seed seed_count))
  else Ok None.

Fixpoint paxos_loop (opts : list (ascii * txt)) (c : paxos_config) : result (option paxos_config) :=
  match opts with
  | [] => Ok (Some c)
  | (ch, optarg) :: opts =>
      match paxos_option ch optarg c with
      | Ok (Some c) => paxos_loop opts c
      | r => r
      end
  end.

(** The whole of [main]: the exit code, [None] inside for a variable that was
    never set.  [try_one_seed] runs the simulation; [seeds] are those the
    generator would draw. *)
Definition paxos_program (try_one_seed : paxos_config → Z → bool) (seeds : list Z) (opts : list (ascii * txt)) : result (option Z) :=
  match paxos_loop opts paxos_defaults with
  | Throw e => Throw e
  | Ok None => Ok (Some 1)
  | Ok (Some c) => Ok (paxos_main (try_one_seed c) (px_first_seed c) (take (Z.to_nat (px_seed_count c)) seeds))
  end.

(** * [pt-collab] *)

Record collab_config := CollabConfig {
  co_loss : D; co_verbose : bool; co_print_db : bool; co_nreplicas : Z; co_failure_schedule : collab_schedule_kind;
  co_first_seed : option Z; co_seed_count : Z; co_run_tests : bool }.

Definition collab_defaults : collab_config := CollabConfig one_percent false false 3 ck_none None 1 false.

Definition collab_option (ch : ascii) (optarg : txt) (c : collab_config) : result (option collab_config) :=
  let '(CollabConfig loss verbose print_db n failure first_seed seed_count tests) := c in
  if ceqb ch "S" then
    match from_str_chars two64 optarg with
    | Ok v => Ok (Some (CollabConfig loss verbose print_db n failure (Some v) seed_count tests))
    | Throw e => Throw e
    end
  else if ceqb ch "R" then
    match from_str_chars two64 optarg with
    | Ok v => Ok (Some (CollabConfig loss verbose print_db n failure first_seed v tests))
    | Throw e => Throw e
    end
  else if ceqb ch "l" then
    match strtod optarg with
    | Ok v => Ok (Some (CollabConfig v verbose print_db n failure first_seed seed_count tests))
    | Throw e => Throw e
    end
  else if ceqb ch "n" then
    match from_str_chars two64 optarg with
    | Ok v => Ok (Some (CollabConfig loss verbose print_db v failure first_seed seed_count tests))
    | Throw e => Throw e
    end
  else if ceqb ch "f" then
    Ok ((λ mode, CollabConfig loss verbose print_db n mode first_seed seed_count tests) <$> parse_collab_schedule optarg)
  else if ceqb ch "V" then Ok (Some (CollabConfig loss true print_db n failure first_seed seed_count tests))
  else if ceqb ch "p" then Ok (Some (CollabConfig loss verbose true n failure first_seed seed_count tests))
  else if ceqb ch "t" then Ok (Some (CollabConfig loss verbose print_db n failure first_seed seed_count true))
  else Ok None.

Fixpoint collab_loop (opts : list (ascii * txt)) (c : collab_config) : result (option collab_config) :=
  match opts with
  | [] => Ok (Some c)
  | (ch, optarg) :: opts =>
      match collab_option ch optarg c with
      | Ok (Some c) => collab_loop opts c
      | r => r
      end
  end.

(** [main]: the tests run with three replicas and no loss whatever was asked
    for; [try_test] is [try_one_seed] with those settings. *)
Definition collab_program (try_test : collab_schedule_kind → Z → bool) (try_one_seed : collab_config → Z → bool)
    (seeds : list Z) (opts : list (ascii * txt)) : result (option Z) :=
  match collab_loop opts collab_defaults with
  | Throw e => Throw e
  | Ok None => Ok (Some 1)
  | Ok (Some c) =>
      if co_run_tests c then Ok (Some (if scheduled_tests try_test scheduled_cases then 0 else 1))
      else Ok (collab_main (try_one_seed c) (co_first_seed c) (take (Z.to_nat (co_seed_count c)) seeds))
  end.
End Programs.

(** * What the exit code says *)

Lemma forallb_decide {A} (f : A → bool) (l : list A) : forallb f l = bool_decide (Forall (λ x, f x = true) l).
Proof.
  induction l as [|x l IH]; [done|]. cbn [forallb]. rewrite IH. destruct (f x) eqn:E; cbn [andb].
  - apply bool_decide_ext. split; [by constructor|]. intros H. by inversion H.
  - symmetry. apply bool_decide_eq_false_2. intros H. inversion H. congruence.
Qed.

(** The exit code of [pt-collab] is the verdict.  When the options are read
    without an error and the tests are not asked for, the program exits with 0
    if every seed it was asked to try passes (the one of [--seed], or as many
    drawn seeds as [--random-seeds] says, one by default) and with 1 otherwise. *)
Theorem collab_exit_code {D} (one_percent : D) (strtod : txt → result D) (try_test : collab_schedule_kind → Z → bool)
    (try_one_seed : collab_config → Z → bool) (seeds : list Z) (opts : list (ascii * txt)) (c : collab_config) :
  collab_loop strtod opts (collab_defaults one_percent) = Ok (Some c) → co_run_tests c = false →
  let tried := match co_first_seed c with Some s => [s] | None => take (Z.to_nat (co_seed_count c)) seeds end in
  collab_program one_percent strtod try_test try_one_seed seeds opts =
    Ok (Some (if decide (Forall (λ s, try_one_seed c s = true) tried) then 0 else 1)).
Proof.
  intros E Ht tried. unfold collab_program. rewrite E, Ht. do 2 f_equal. unfold collab_main, tried. destruct (co_first_seed c) as [s|].
  - unfold exit_code. cbn. destruct (try_one_seed c s) eqn:Es.
    + by rewrite decide_True by (by repeat constructor).
    + rewrite decide_False; [done|]. intros H. inversion H. congruence.
  - rewrite campaign_passes, forallb_decide, bool_decide_decide. unfold exit_code. by destruct (decide _).
Qed.

Definition no_fraction (s : txt) : result Z := from_str_chars two64 s.

Lemma collab_exit_code_witness :
  collab_program 0 no_fraction (λ _ _, true) (λ c s, s <? co_nreplicas c) [4; 6; 9] [("n"%char, $"7"); ("R"%char, $"2")] = Ok (Some 0) ∧
  collab_program 0 no_fraction (λ _ _, true) (λ c s, s <? co_nreplicas c) [4; 6; 9] [("n"%char, $"7"); ("R"%char, $"3")] = Ok (Some 1).
Proof.
  split.
  - refine (collab_exit_code 0 no_fraction (λ _ _, true) (λ c s, s <? co_nreplicas c) [4; 6; 9] [("n"%char, $"7"); ("R"%char, $"2")]
      (CollabConfig 0 false false 7 ck_none None 2 false) _ _); by vm_compute.
  - refine (collab_exit_code 0 no_fraction (λ _ _, true) (λ c s, s <? co_nreplicas c) [4; 6; 9] [("n"%char, $"7"); ("R"%char, $"3")]
      (CollabConfig 0 false false 7 ck_none None 3 false) _ _); by vm_compute.
Defined.

(** The letters of the tables are those of the loops, but for one: [pt-paxos]
    lists [--quiet], and answers that it is unknown. *)
Definition known {D} (r : result (option (collab_config (D := D)))) : bool := match r with Ok None => false | _ => true end.

Example collab_letters :
  short_options_for collab_options = $"n:S:R:l:f:Vpt" ∧
  forallb (λ o, known (collab_option no_fraction (char_of (lo_val o)) $"none" (collab_defaults (0 : Z)))) collab_options = true.
Proof. vm_compute. done. Qed.

Example paxos_quiet_is_unknown :
  short_options_for paxos_options = $"n:S:R:l:f:VpLq" ∧
  paxos_program 0 no_fraction (λ _ _, true) [] [("q"%char, [])] = Ok (Some 1) ∧
  paxos_program 0 no_fraction (λ _ _, true) [5] [("L"%char, []); ("f"%char, $"eric")] = Ok (Some 0) ∧
  paxos_program 0 no_fraction (λ _ _, true) [5] [("f"%char, $"chaos")] = Ok (Some 1) ∧
  paxos_program 0 no_fraction (λ _ _, true) [5] [("n"%char, $"three")] = Throw $"Invalid argument" ∧
  paxos_program 0 no_fraction (λ _ _, true) [5] [("R"%char, $"0")] = Ok None.
Proof. vm_compute. done. Qed.
